(* ===== verification/_CoqProject ===== *)
-Q . S2P
Prelude.v
ClockSI.v
ClockCodec.v
GoHeap.v
Inversible.v
Convergence.v
Counters.v
Registers.v
Sets.v
SetAW.v
Versions.v
VersionManager.v
Effects.v
Keys.v
PartitionClock.v
Materializer.v
CommitOrder.v
CommitServed.v
CommitReplies.v
Logger.v
Replicator.v
RemoteMsgs.v
TransactionManager.v
BoundedCounter.v
BoundedCounterSafe.v
TopK.v
ORMap.v
TopKRmv.v
ReplicatorProto.v
RemoteConn.v
RemoteConnOrder.v
RemoteConnBuckets.v
RemoteConnGroups.v
RemoteConnSend.v
RemoteConnTxns.v
Replication.v
GoSlice.v
MultiArray.v
MultiArrayOps.v
MultiArrayMerge.v
MultiArrayErrors.v
FloatCounters.v
CounterArray.v
Causal.v
EmbObjects.v
MultiArrayReads.v
MultiArrayReadsSpec.v
EmbLeaves.v
EmbMap.v
EmbMapMerge.v
EmbMapHistory.v
EmbMapConverge.v
EmbMapSystem.v
EmbMapVersions.v
EmbMapMsgs.v
EmbMapReads.v
EmbMapReadsSpec.v
Pointers.v
TopSum.v
TopSumSpec.v
TopSumErrors.v
Joining.v
JoiningSpec.v
JoiningMsgs.v
ServerToServer.v
ServerToServerSpec.v
ServerAsked.v
ConnectionPool.v
ClientProtocol.v
ClientProtocolSpec.v
Maintenance.v
