(* ===== verification/Prelude.v ===== *)
(** * A verification library for PotionDB

    PotionDB is a geo-replicated key-value store written in Go.  Its objects are
    operation-based CRDTs; a server splits them over partitions, runs
    transactions over the partitions with two-phase commit, and sends its
    transactions to the servers of the other replicas, asynchronously and in
    causal order.  This library models that core and proves what makes it
    correct; where the code does not do what it means to, a theorem says so.

    Source paths are relative to src/.  A definition has the name of the Go
    function, type or field that it models; a part of a function has a name of
    its own.  This file has no model: machine integers, maps, loops and tactics
    that the others share.

    ** The parts of the program and their files

    _Clocks_ (crdt/clocksi/clocksi.go).  ClockSI: vector clocks, their
    comparisons, merges and updates.  ClockCodec: clocks as bytes and as keys of
    maps.

    _Version management_ (crdt/crdt/inversibleCrdt.go; versionManager.go,
    inverseOpVM.go and snapshotVM.go of potionDB/components).  Inversible: the
    history of an object, undoing and redoing it, garbage collection; its
    interface to the objects is the class [InversibleOps].  Versions: rebuilding
    end to end.  VersionManager: the two managers behind the interface that the
    partitions use.

    _Objects_ (crdt/crdt).  Convergence: the interface [ConvergentCRDT] and what
    follows from it.  Counters (counterCrdt.go, avgCrdt.go, maxMinCrdt.go),
    Registers (lwwRegisterCrdt.go, lwwFlag.go), FloatCounters
    (counterFloatCRDT.go, pairCounterCrdt.go), CounterArray
    (counterArrayCrdt.go), Sets (commonTools.go, ewFlag.go, dwFlag.go),
    SetAW (setAWCrdt.go), BoundedCounter and BoundedCounterSafe
    (boundedCounter.go), TopK (topK.go), TopKRmv (topKRmv.go), TopSum,
    TopSumSpec, TopSumErrors (topSum.go, over the store of Pointers), ORMap (orMap.go),
    GoSlice and MultiArray, MultiArrayOps, MultiArrayMerge, MultiArrayErrors
    (multiArrayCRDT.go), MultiArrayReads and MultiArrayReadsSpec (its reads).  In each file or Module: the state as a Record, updates
    and effects as inductive types, [Update], [Read], [applyDownstream],
    [undoEffect], the messages to other replicas.

    _Maps with embedded objects_ (rwEmbMapCRDT.go).  EmbObjects: the types, and
    the class [Leaves] of what the other objects promise; EmbLeaves: its instance
    for counters, averages, maxima and registers.  EmbMap: updates and their
    application, at any depth.  EmbMapMerge, EmbMapHistory, EmbMapConverge: what
    a replica holds after a history, on top of Causal (delivery in causal order);
    EmbMapSystem: runs of replicas.  EmbMapVersions: undoing.  EmbMapMsgs:
    messages and snapshots.  EmbMapReads, EmbMapReadsSpec: reads and aggregates,
    with the goroutines that they start.

    _Partitions_ (potionDB/components/materializer.go).  Effects: the monad of
    the server's goroutines.  GoHeap: Go's container/heap and the interface of
    its clients.  Keys: object keys and the partition that owns them.
    PartitionClock: prepared clocks and held commits.  Materializer: the requests
    of a partition.  CommitOrder, CommitServed: invariants of every run of it.

    _Transactions_ (potionDB/components/transactionManager.go).
    TransactionManager: the goroutine of a client.  CommitReplies: the goroutine
    that publishes committed clocks.  RemoteMsgs: the goroutine that applies the
    transactions of other replicas.

    _Transactions that span servers_ (transactionManager.go, serverProtoLib.go
    and connectionPool.go of potionDB/components, potionDB/main/protoServer.go).
    ServerToServer: the messages to the servers with a transaction's objects, and
    the server that is asked; ServerToServerSpec: what the asking side sends and
    gets; ServerAsked: the asked side; ConnectionPool: the goroutine of a
    connection, which transactions share.

    _The protocol of clients_ (protoServer.go, antidoteProtoLib.go).
    ClientProtocol: the goroutine of a client's connection, for the messages of
    transactions; ClientProtocolSpec: what descriptors carry.

    _Routines of a server_ (garbageCollector.go, bcManager.go and the identifiers
    of clients in transactionManager.go).  Maintenance: the clock that versions
    are cleaned to, and the rights that bounded counters ask other servers for.

    _Replication_ (potionDB/components).  Logger (logger.go): the log of a
    partition.  Replicator (replicator.go): merging the logs and sending.
    ReplicatorProto (replicatorProtoLib.go): the messages.  RemoteConn
    (remoteConnection.go, remoteGroup.go): publishing and receiving by bucket,
    with the lemmas of RemoteConnOrder, RemoteConnBuckets, RemoteConnGroups,
    RemoteConnSend and RemoteConnTxns.  Replication: end to end.  Joining and
    JoiningSpec (replicator.go, remoteGroup.go): a server that joins a running
    group, and those that answer it; JoiningMsgs: the messages of a join.

    How they interact: a client's message ([processConnection], ClientProtocol)
    becomes a request, which goes from [handleTMRequest]
    (TransactionManager) to partitions ([handleRequest], Materializer), which use
    objects through [VersionManager]; commits are reported to
    [handleCommitReplies] (CommitReplies) and to the partition's logger
    ([MemLogger], Logger); the replicator reads the loggers and sends
    ([replicateCycle], Replicator) over connections (RemoteConn); what other
    replicas send goes to [handleRemoteMsgs] (RemoteMsgs), which hands it to the
    partitions.  The messages on channels are the inputs and outputs of these
    definitions; the interleavings are the sequences of requests, events or
    answers over which the theorems quantify.

    ** What the theorems show

    - Partitions apply commits in the order of their clocks, hold them only as
      long as a prepared transaction may still commit below, and never panic, on
      requests that are legal: each commit has a clock at or above what its
      transaction prepared and comparable with the held ones (CommitServed).  The
      transaction manager sends such commits when the proposals that it collects
      are comparable; of concurrent ones it takes the first that arrives, and the
      order breaks ([concurrent_proposals_break_the_order]).
    - A client's transaction reaches exactly the partitions it wrote to, with one
      clock (TransactionManager); that clock is published when, and only when,
      all of them have committed, as long as no more than a hundred clients wait
      at the same time (CommitReplies).
    - The descriptor that a client sends back serves every message of its
      transaction with the identifier and the clock of the start, and a read with
      the descriptor of a write does not go below that write (ClientProtocolSpec).
    - The states that other servers answer are put where they were asked for, and
      a connection between servers takes no client beyond fifty open transactions
      (ServerToServerSpec, ConnectionPool); but the server that is asked fails on
      all but static requests (ServerAsked).
    - What a partition logs reaches the replicator (Logger), which merges the
      logs without losing, repeating or reordering what a partition logged, and,
      when the clocks of the partitions are comparable, in clock order and whole
      transactions only (Replicator); a replica that lists its buckets receives
      their transactions in order, whatever the order of workers and however
      messages are grouped and cut, as long as their counter does not wrap around
      (Replication); it applies them when their dependencies are met (RemoteMsgs).
    - A server that joins starts when all answers and buckets have come, and then
      handles what it kept; the servers of the group answer with the clocks of all
      their partitions, in any interleaving (JoiningSpec).
    - Replicas of the objects converge, to a state given by a reference
      definition that does not depend on the order of updates (Convergence,
      Registers, SetAW, ORMap, TopK, CounterArray; TopKRmv if removes are clean,
      MultiArrayMerge without ranges of other elements than integers); a
      top-K of sums shows the highest, and what replicas hold back of an element
      cannot take it to the top (TopSumSpec); maps
      of maps of objects converge under causal delivery (EmbMapSystem), and reads
      of them end and show what the transaction wrote (EmbMapReadsSpec); a
      transaction reads its own updates of a multi-array (MultiArrayReadsSpec); updates
      of maps survive their messages (EmbMapMsgs); no replica breaks
      the bound of a bounded counter (BoundedCounterSafe).
    - Garbage collection keeps the versions at or above its clock; from the
      history of the object that its functions are bound to, a version is rebuilt
      exactly (Versions).  The program binds them to another object, and a read of
      an old version shows the latest state ([ReadOld_reads_latest]).  The clock
      that the garbage collection is given is at or below what clients read with, if their clocks are
      comparable (Maintenance).
    - The rights that the bounded counters of a partition want are asked of the
      same partition of the other server (Maintenance).
    - Clocks are a partial order with Merge as least upper bound, and survive
      their encoding (ClockSI, ClockCodec); keys go to the partition that owns
      their hash (Keys).
    - Errors: the theorems whose names say what goes wrong
      ([newest_waiter_blocks_the_others], [wrapped_group_is_lost],
      [undo_of_integers_corrupts], [map_undo_does_nothing], [value_read_panics],
      [queued_messages_are_never_applied], [more_partitions_than_buckets_panics],
      [requests_go_to_the_first_server], [range_read_changes_the_object],
      [transactions_of_other_servers_fail], [clocks_of_other_servers_are_ignored],
      [static_updates_ignore_the_clock], [many_connections_panic],
      [counters_are_forgotten] and others) state what the code does
      instead of what it means to do.

    ** Conventions, bounds and fuel

    A Go integer is a [Z] and wraps around ([wrapS], [wrapU]); where the code
    cannot reach the bound in any run that fits a machine (positions, lengths)
    it does not.  [None] is a panic or an exit of the process.  Go ranges over a
    map in any order: the loop is a Fixpoint over a list and the lemmas hold for
    every order, or the definition uses [map_to_list] and a lemma says that the
    order does not matter.  Time, random numbers, and what another goroutine
    answers are arguments.

    Loops that are not structural have fuel, and a lemma that it is enough: the
    merge of the logs ([prepare_loop]) removes an entry of the cache in each
    round and has one more than the cache holds; [sendGroup_loop] removes a
    transaction; the loop over queued remote messages applies one in each round;
    [releaseWaiters] and the heap's [up] and [down] are bounded by the heap's
    length; [redo_loop] by the history; [mergeOuter] skips to the next number
    or consumes one in each round, and has twice the number of transactions and
    one; [splitData] removes at least a byte; [Read] of a map of objects needs as
    much fuel as the maps are deep ([state_read_ends]).

    ** Not modelled

    Generated code (crdt/proto) and the encoding of protocol buffers: messages
    are records, and [Marshal] and [Unmarshal] parameters of Replication.  The
    message broker and the sockets (RabbitMQ, TCP): parameters or inputs.
    Vendored code: the hash of keys is a parameter of Keys.  Of the protocol of
    clients: the translation of objects' arguments and states (most of
    crdt/crdt/crdtProtoLib.go and antidoteProtoLib.go), connections that several
    clients share, start-up and profiling (protoServer.go).  SQL
    (sqlProcessor.go), the TPC-H loader (tpchDataLoad.go), the shell: input and
    output, or translations without state.  Triggers (triggerStorage.go), which
    no modelled part fires.  Opening and closing the connections of the pool.  Objects: arrays of embedded objects
    (RWEmbArrayCrdt.go), grow-only maps (gMap.go), the top-K on heaps
    (topKHeap.go), which are unfinished or unused; of maps with embedded objects,
    copies, the variables of read arguments and the messages of reads. *)

From Stdlib Require Import ZArith Lia Bool List.
From stdpp Require Import base tactics numbers list sorting gmap strings.

Declare Scope potion_scope.
Delimit Scope potion_scope with potion.
#[local] Open Scope Z_scope.

(** ** Machine integers

    A Go [intN] is a [Z] in [[-2^(N-1), 2^(N-1))]; arithmetic that leaves the
    range wraps around. *)

Definition wrapS (w z : Z) : Z := (z + 2 ^ (w - 1)) mod 2 ^ w - 2 ^ (w - 1).
Definition wrapU (w z : Z) : Z := z mod 2 ^ w.

Abbreviation int16 := (wrapS 16).
Abbreviation int32 := (wrapS 32).
Abbreviation int64 := (wrapS 64).
Abbreviation uint16 := (wrapU 16).
Abbreviation uint64 := (wrapU 64).

Definition inS (w z : Z) : Prop := - 2 ^ (w - 1) <= z < 2 ^ (w - 1).
Definition inU (w z : Z) : Prop := 0 <= z < 2 ^ w.

Definition MaxInt16 : Z := 2 ^ 15 - 1.
Definition MaxInt32 : Z := 2 ^ 31 - 1.
Definition MinInt32 : Z := - 2 ^ 31.
Definition MaxInt64 : Z := 2 ^ 63 - 1.
Definition MaxUint64 : Z := 2 ^ 64 - 1.

Lemma pow2_split w : 0 < w -> 2 ^ w = 2 * 2 ^ (w - 1).
Proof.
  intros. replace w with (1 + (w - 1)) at 1 by lia.
  rewrite Z.pow_add_r by lia. lia.
Qed.

Lemma wrapS_id w z : 0 < w -> inS w z -> wrapS w z = z.
Proof.
  unfold inS, wrapS; intros Hw Hz. pose proof (pow2_split w Hw).
  rewrite Z.mod_small; lia.
Qed.

Lemma wrapS_range w z : 0 < w -> inS w (wrapS w z).
Proof.
  unfold inS, wrapS; intros Hw. pose proof (pow2_split w Hw).
  assert (0 < 2 ^ w) by (apply Z.pow_pos_nonneg; lia).
  pose proof (Z.mod_pos_bound (z + 2 ^ (w - 1)) (2 ^ w)). lia.
Qed.

Lemma wrapU_id w z : inU w z -> wrapU w z = z.
Proof. unfold inU, wrapU. intros. by apply Z.mod_small. Qed.

Lemma wrapU_range w z : 0 < w -> inU w (wrapU w z).
Proof.
  unfold inU, wrapU. intros. apply Z.mod_pos_bound.
  apply Z.pow_pos_nonneg; lia.
Qed.

Lemma wrapS_eq_mod w a b :
  0 < w -> a mod 2 ^ w = b mod 2 ^ w -> wrapS w a = wrapS w b.
Proof.
  unfold wrapS. intros Hw E. f_equal.
  rewrite <- (Zplus_mod_idemp_l a), <- (Zplus_mod_idemp_l b), E. done.
Qed.

Lemma wrapS_mod w a : 0 < w -> wrapS w a mod 2 ^ w = a mod 2 ^ w.
Proof.
  unfold wrapS. intros Hw.
  rewrite Zminus_mod_idemp_l. f_equal. lia.
Qed.

Lemma wrapU_mod w a : 0 < w -> wrapU w a mod 2 ^ w = a mod 2 ^ w.
Proof. intros. unfold wrapU. by rewrite Zmod_mod. Qed.

(** Additions and subtractions may be carried out on wrapped operands. *)
Lemma wrapS_add_l w a b : 0 < w -> wrapS w (wrapS w a + b) = wrapS w (a + b).
Proof.
  intros. apply wrapS_eq_mod; [done|].
  rewrite <- Zplus_mod_idemp_l, wrapS_mod by done.
  by rewrite Zplus_mod_idemp_l.
Qed.

Lemma wrapS_sub_l w a b : 0 < w -> wrapS w (wrapS w a - b) = wrapS w (a - b).
Proof. intros. rewrite <- !Z.add_opp_r. by apply wrapS_add_l. Qed.

Lemma wrapS_wrapU w a : 0 < w -> wrapS w (wrapU w a) = wrapS w a.
Proof. intros. apply wrapS_eq_mod; [done|]. by apply wrapU_mod. Qed.

Create HintDb potion discriminated.
#[export] Hint Resolve wrapS_range wrapU_range : potion.
#[export] Hint Resolve wrapS_id wrapU_id : potion.

(** ** Booleans and loops with an early return *)

(** Turns the boolean comparisons of a goal and its hypotheses into
    propositions. *)
Ltac to_prop :=
  repeat match goal with
  | H : _ && _ = true |- _ => apply andb_prop in H; destruct H
  | H : _ || _ = false |- _ => apply orb_false_elim in H; destruct H
  | H : negb _ = true |- _ => apply negb_true_iff in H
  | H : negb _ = false |- _ => apply negb_false_iff in H
  | H : (_ <? _) = true |- _ => apply Z.ltb_lt in H
  | H : (_ <? _) = false |- _ => apply Z.ltb_ge in H
  | H : (_ <=? _) = true |- _ => apply Z.leb_le in H
  | H : (_ <=? _) = false |- _ => apply Z.leb_gt in H
  | H : (_ >? _) = true |- _ => rewrite Z.gtb_ltb in H
  | H : (_ >? _) = false |- _ => rewrite Z.gtb_ltb in H
  | H : (_ >=? _) = true |- _ => rewrite Z.geb_leb in H
  | H : (_ >=? _) = false |- _ => rewrite Z.geb_leb in H
  | H : (_ =? _) = true |- _ => apply Z.eqb_eq in H
  | H : (_ =? _) = false |- _ => apply Z.eqb_neq in H
  | H : _ || _ = true |- _ => apply orb_true_iff in H; destruct H
  | H : _ && _ = false |- _ => apply andb_false_iff in H; destruct H
  end.

(** Splits on the condition of every [if] on a boolean in the goal. *)
Ltac case_bool :=
  repeat match goal with
  | |- context [if ?b then _ else _] =>
      lazymatch type of b with bool => destruct b eqn:? | _ => fail end
  | |- context [?b && _] => destruct b eqn:?
  | |- context [?b || _] => destruct b eqn:?
  | |- context [negb ?b] => destruct b eqn:?
  end.

Lemma existsb_Permutation {A} (f : A -> bool) l1 l2 :
  Permutation l1 l2 -> existsb f l1 = existsb f l2.
Proof.
  induction 1; simpl; try congruence.
  by destruct (f x), (f y).
Qed.

Lemma existsb_false_iff {A} (f : A -> bool) l :
  existsb f l = false <-> Forall (fun x => f x = false) l.
Proof.
  induction l as [|a l IH]; simpl; [by split; [constructor|]|].
  rewrite orb_false_iff, Forall_cons. by rewrite IH.
Qed.

Lemma existsb_true_iff {A} (f : A -> bool) l :
  existsb f l = true <-> Exists (fun x => f x = true) l.
Proof.
  induction l as [|a l IH]; simpl.
  - split; [done|]. by inversion 1.
  - rewrite orb_true_iff, Exists_cons. by rewrite IH.
Qed.

(** [slice bs a b] is Go's [bs[a:b]] for in-range [a <= b]. *)
Definition slice {A} (bs : list A) (a b : nat) : list A :=
  take (b - a) (drop a bs).

(** ** Loops over the entries of a map

    A Go loop over a map that only touches, for each key, the entry of another
    map under the same key does not depend on the iteration order: its result
    is given key by key. *)

Section map_loops.
Context {K : Type} `{Countable K} {V W : Type}.

Lemma foldl_alter_lookup (f : V -> option W -> option W)
    (step : gmap K W -> K * V -> gmap K W) (l : list (K * V)) (m : gmap K W) k :
  (forall m k v k', step m (k, v) !! k' =
     if decide (k' = k) then f v (m !! k) else m !! k') ->
  NoDup (l.*1) ->
  foldl step m l !! k =
    match (list_to_map l : gmap K V) !! k with
    | Some v => f v (m !! k)
    | None => m !! k
    end.
Proof.
  intros Hs. revert m. induction l as [|[k' v] l IH]; intros m Hnd; simpl.
  { by rewrite lookup_empty. }
  rewrite fmap_cons, NoDup_cons in Hnd. destruct Hnd as [Hn Hnd].
  rewrite IH by done. destruct (decide (k = k')) as [->|Hne].
  - rewrite lookup_insert_eq, not_elem_of_list_to_map_1 by done.
    rewrite Hs. by rewrite decide_True.
  - rewrite lookup_insert_ne by done. rewrite !Hs. by rewrite decide_False.
Qed.

Lemma map_loop_lookup (f : V -> option W -> option W)
    (step : gmap K W -> K * V -> gmap K W) (M : gmap K V) (m : gmap K W) k :
  (forall m k v k', step m (k, v) !! k' =
     if decide (k' = k) then f v (m !! k) else m !! k') ->
  foldl step m (map_to_list M) !! k =
    match M !! k with Some v => f v (m !! k) | None => m !! k end.
Proof.
  intros Hs. rewrite (foldl_alter_lookup f) by (done || apply NoDup_fst_map_to_list).
  by rewrite list_to_map_to_list.
Qed.
End map_loops.

(** ** Boolean filters of the Standard Library and stdpp's membership *)

Lemma elem_of_lfilter {A} (f : A -> bool) l x :
  x ∈ List.filter f l <-> f x = true /\ x ∈ l.
Proof. rewrite !list_elem_of_In, List.filter_In. tauto. Qed.

Lemma NoDup_lfilter {A} (f : A -> bool) (l : list A) : NoDup l -> NoDup (List.filter f l).
Proof.
  induction 1 as [|x l Hx Hl IH]; simpl; [constructor|].
  destruct (f x); [|done]. constructor; [|done]. rewrite elem_of_lfilter. tauto.
Qed.

(** ** Slices of slices *)

(** [xs[part] = append(xs[part], x)]: [None] is an index out of range. *)
Definition addTo {A} (xs : list (list A)) (part : Z) (x : A) : option (list (list A)) :=
  if part <? 0 then None
  else match xs !! Z.to_nat part with
       | Some l => Some (<[Z.to_nat part := l ++ [x]]> xs)
       | None => None
       end.

Lemma addTo_ok {A} (xs : list (list A)) i x :
  0 <= i < Z.of_nat (length xs) ->
  exists xs', addTo xs i x = Some xs' /\ length xs' = length xs /\
    forall j, xs' !! j = if decide (j = Z.to_nat i) then (fun l => l ++ [x]) <$> xs !! j else xs !! j.
Proof.
  intros Hi. unfold addTo. destruct (Z.ltb_spec i 0); [lia|].
  destruct (lookup_lt_is_Some_2 xs (Z.to_nat i)) as [l Hl]; [lia|]. rewrite Hl.
  eexists. split; [done|]. split; [by rewrite length_insert|]. intros j.
  case_decide as E; [subst; rewrite Hl, list_lookup_insert_eq by lia; done|].
  by rewrite list_lookup_insert_ne.
Qed.

(** A loop that may panic. *)
Fixpoint foldM {A B} (f : A -> B -> option A) (st : A) (l : list B) : option A :=
  match l with
  | [] => Some st
  | x :: l => st ← f st x; foldM f st l
  end.

Lemma foldM_app {A B} (f : A -> B -> option A) st l1 l2 :
  foldM f st (l1 ++ l2) = st ← foldM f st l1; foldM f st l2.
Proof. revert st. induction l1 as [|x l1 IH]; intros st; simpl; [done|]. destruct (f st x); simpl; auto. Qed.

(** An invariant of the rounds holds at the end of the loop. *)
Lemma foldM_inv {A B} (P : list B -> A -> Prop) (f : A -> B -> option A) st l st' :
  P [] st ->
  (forall done x rest st st', l = done ++ x :: rest -> P done st -> f st x = Some st' ->
     P (done ++ [x]) st') ->
  foldM f st l = Some st' -> P l st'.
Proof.
  intros H0 Hstep. assert (H : forall l2 done st, l = done ++ l2 -> P done st ->
    foldM f st l2 = Some st' -> P l st').
  { induction l2 as [|x l2 IH]; intros dn s -> HP; simpl.
    - intros [= <-]. by rewrite app_nil_r.
    - destruct (f s x) as [s'|] eqn:E; [|done]. simpl. apply (IH (dn ++ [x])).
      + by rewrite <- app_assoc.
      + by apply (Hstep dn x l2 s). }
  by apply (H l []).
Qed.

(** ** Sums of integers over a list *)

Definition zsum {A} (f : A -> Z) (l : list A) : Z := foldr (fun x t => f x + t) 0 l.

Lemma zsum_app {A} (f : A -> Z) l1 l2 : zsum f (l1 ++ l2) = zsum f l1 + zsum f l2.
Proof. unfold zsum. induction l1 as [|x l IH]; simpl; lia. Qed.

Lemma zsum_le {A} (f g : A -> Z) l :
  (forall x, x ∈ l -> f x <= g x) -> zsum f l <= zsum g l.
Proof.
  unfold zsum. induction l as [|x l IH]; intros Hfg; simpl; [lia|].
  pose proof (Hfg x (list_elem_of_here _ _)).
  enough (foldr (fun x t => f x + t) 0 l <= foldr (fun x t => g x + t) 0 l) by lia.
  apply IH. intros y Hy. apply Hfg. by right.
Qed.

Lemma zsum_ext {A} (f g : A -> Z) l :
  (forall x, x ∈ l -> f x = g x) -> zsum f l = zsum g l.
Proof.
  intros Hfg. apply Z.le_antisymm; apply zsum_le; intros x Hx; rewrite Hfg by done; lia.
Qed.

Lemma zsum_0 {A} (f : A -> Z) l : (forall x, x ∈ l -> f x = 0) -> zsum f l = 0.
Proof.
  intros Hf. rewrite (zsum_ext f (fun _ => 0)) by done.
  clear Hf. unfold zsum. induction l; simpl; lia.
Qed.

Lemma zsum_add {A} (f g : A -> Z) l : zsum (fun x => f x + g x) l = zsum f l + zsum g l.
Proof. unfold zsum. induction l as [|x l IH]; simpl; lia. Qed.

Lemma zsum_nonneg {A} (f : A -> Z) l : (forall x, x ∈ l -> 0 <= f x) -> 0 <= zsum f l.
Proof.
  intros Hf. rewrite <- (zsum_0 (fun _ : A => 0) l) by done. by apply zsum_le.
Qed.

(** Functions that differ at one element of the list only. *)
Lemma zsum_change {A} (f g : A -> Z) l k :
  NoDup l -> k ∈ l -> (forall x, x ∈ l -> x <> k -> f x = g x) ->
  zsum f l = zsum g l + (f k - g k).
Proof.
  unfold zsum. induction 1 as [|x l Hx Hl IH]; [by intros ?%elem_of_nil|].
  intros Hk Hfg. simpl. apply elem_of_cons in Hk as [->|Hk].
  - pose proof (zsum_ext f g l) as E. unfold zsum in E. rewrite E; [lia|].
    intros y Hy. apply Hfg; [by right|]. by intros ->.
  - rewrite IH, (Hfg x); [lia|by left| |done|].
    + by intros ->.
    + intros y Hy. apply Hfg. by right.
Qed.

Lemma zsum_single {A} (f : A -> Z) l k :
  NoDup l -> k ∈ l -> (forall x, x ∈ l -> x <> k -> f x = 0) -> zsum f l = f k.
Proof.
  intros Hn Hk Hf. rewrite (zsum_change f (fun _ => 0) l k) by done.
  rewrite zsum_0 by done. lia.
Qed.

Lemma zsum_elem_le {A} (f : A -> Z) l k :
  (forall x, x ∈ l -> 0 <= f x) -> k ∈ l -> f k <= zsum f l.
Proof.
  intros Hf Hk. apply list_elem_of_split in Hk as (l1 & l2 & ->). rewrite zsum_app.
  change (zsum f (k :: l2)) with (f k + zsum f l2).
  pose proof (zsum_nonneg f l1). pose proof (zsum_nonneg f l2).
  set_unfold. assert (0 <= zsum f l1) by eauto. assert (0 <= zsum f l2) by eauto. lia.
Qed.

#[export] Instance zsum_proper {A} (f : A -> Z) : Proper ((≡ₚ) ==> (=)) (zsum f).
Proof. unfold zsum. induction 1; simpl; lia. Qed.
