(* ===== verification/ClockSI.v ===== *)
(** * Vector clocks: src/crdt/clocksi/clocksi.go

    A [ClockSiTimestamp] is a Go map from replica identifiers (int16) to clock
    values (int64); reading a missing identifier gives 0.  The interface
    argument [otherTs Timestamp] may be nil: it is an [option].  Go iterates
    over a map in an unspecified order, so every loop is a [Fixpoint] over a
    list of entries, and an operation runs it over [map_to_list]; the lemmas on
    the loops are stated for every order of the entries.  Operations that
    update the receiver's map in place return the updated map. *)

From S2P Require Import Prelude.
From Stdlib Require Import ZArith Lia Bool List.
From stdpp Require Import base tactics numbers list sorting gmap.
#[local] Open Scope Z_scope.

Abbreviation vclock := (gmap Z Z).
Abbreviation Timestamp := (option (gmap Z Z)).

Inductive TsResult : Set := EqualTs | HigherTs | LowerTs | ConcurrentTs.

#[export] Instance TsResult_eq_dec : EqDecision TsResult.
Proof. solve_decision. Defined.

Definition TsResult_eqb (a b : TsResult) : bool := bool_decide (a = b).

(** ** Construction *)

Definition GetPos (ts : vclock) (id : Z) : Z := default 0 (ts !! id).

(** [knownIDs] is a package variable: an argument of what reads it. *)
Definition AddNewID (knownIDs : list Z) (HighestTs : vclock) (id : Z)
  : list Z * vclock := (knownIDs ++ [id], <[id := MaxInt64]> HighestTs).

Definition NewTimestampFromId (id : Z) : vclock := {[ id := 0 ]}.
Definition DummyTs : vclock := NewTimestampFromId 0.

Definition NewTimestamp (knownIDs : list Z) : vclock :=
  foldl (fun vc id => <[id := 0]> vc) ∅ knownIDs.

(** [now] is what [time.Now().UTC().UnixNano()] returned. *)
Definition NextTimestamp (now : Z) (ts : vclock) (id : Z) : vclock :=
  let newVc := ts in
  if now <=? GetPos newVc id then <[id := int64 (GetPos newVc id + 1)]> newVc
  else <[id := now]> newVc.

Definition IncTimestamp (ts : vclock) (id : Z) : vclock :=
  <[id := int64 (GetPos ts id + 1)]> ts.

Definition SelfIncTimestamp (ts : vclock) (id : Z) : vclock :=
  <[id := int64 (GetPos ts id + 1)]> ts.

(** ** Comparisons *)

Fixpoint Compare_loop (selfVc : list (Z * Z)) (otherVc : vclock)
    (foundHigher foundLower : bool) : TsResult :=
  match selfVc with
  | [] => if foundHigher then LowerTs
          else if foundLower then HigherTs else EqualTs
  | (i, selfValue) :: rest =>
      let '(foundHigher, foundLower) :=
        if selfValue <? GetPos otherVc i then (true, foundLower)
        else if selfValue >? GetPos otherVc i then (foundHigher, true)
        else (foundHigher, foundLower) in
      if foundHigher && foundLower then ConcurrentTs
      else Compare_loop rest otherVc foundHigher foundLower
  end.

Definition Compare (ts : vclock) (otherTs : Timestamp) : TsResult :=
  match otherTs with
  | None => HigherTs
  | Some otherVc => Compare_loop (map_to_list ts) otherVc false false
  end.

Fixpoint IsHigherOrEqual_loop (selfVc : list (Z * Z)) (otherVc : vclock) : bool :=
  match selfVc with
  | [] => true
  | (i, selfValue) :: rest =>
      if selfValue <? GetPos otherVc i then false
      else IsHigherOrEqual_loop rest otherVc
  end.

Definition IsHigherOrEqual (ts : vclock) (otherTs : Timestamp) : bool :=
  match otherTs with
  | None => true
  | Some otherVc => IsHigherOrEqual_loop (map_to_list ts) otherVc
  end.

Fixpoint IsHigher_loop (selfVc : list (Z * Z)) (otherVc : vclock)
    (foundLower : bool) : bool :=
  match selfVc with
  | [] => foundLower
  | (i, selfValue) :: rest =>
      if selfValue <? GetPos otherVc i then false
      else IsHigher_loop rest otherVc
             (if selfValue >? GetPos otherVc i then true else foundLower)
  end.

Definition IsHigher (ts : vclock) (otherTs : Timestamp) : bool :=
  match otherTs with
  | None => true
  | Some otherVc => IsHigher_loop (map_to_list ts) otherVc false
  end.

Fixpoint IsLowerOrEqual_loop (selfVc : list (Z * Z)) (otherVc : vclock) : bool :=
  match selfVc with
  | [] => true
  | (i, selfValue) :: rest =>
      if selfValue >? GetPos otherVc i then false
      else IsLowerOrEqual_loop rest otherVc
  end.

Definition IsLowerOrEqual (ts : vclock) (otherTs : Timestamp) : bool :=
  match otherTs with
  | None => false
  | Some otherVc => IsLowerOrEqual_loop (map_to_list ts) otherVc
  end.

Fixpoint IsLowerOrEqualExceptFor_loop (selfVc : list (Z * Z)) (otherVc : vclock)
    (self id : Z) : bool :=
  match selfVc with
  | [] => true
  | (i, selfValue) :: rest =>
      if negb (i =? id) && negb (i =? self) && (selfValue >? GetPos otherVc i)
      then false
      else IsLowerOrEqualExceptFor_loop rest otherVc self id
  end.

Definition IsLowerOrEqualExceptFor (ts : vclock) (otherTs : Timestamp)
    (self id : Z) : bool :=
  match otherTs with
  | None => false
  | Some otherVc => IsLowerOrEqualExceptFor_loop (map_to_list ts) otherVc self id
  end.

Fixpoint IsEqualExceptForSelf_loop (selfVc : list (Z * Z)) (otherVc : vclock)
    (self : Z) : bool :=
  match selfVc with
  | [] => true
  | (i, selfValue) :: rest =>
      if negb (i =? self) && negb (selfValue =? GetPos otherVc i) then false
      else IsEqualExceptForSelf_loop rest otherVc self
  end.

Definition IsEqualExceptForSelf (ts : vclock) (otherTs : Timestamp) (self : Z)
  : bool :=
  match otherTs with
  | None => false
  | Some otherVc => IsEqualExceptForSelf_loop (map_to_list ts) otherVc self
  end.

Fixpoint IsLower_loop (selfVc : list (Z * Z)) (otherVc : vclock)
    (foundHigher : bool) : bool :=
  match selfVc with
  | [] => foundHigher
  | (i, selfValue) :: rest =>
      if selfValue >? GetPos otherVc i then false
      else IsLower_loop rest otherVc
             (if selfValue <? GetPos otherVc i then true else foundHigher)
  end.

Definition IsLower (ts : vclock) (otherTs : Timestamp) : bool :=
  match otherTs with
  | None => false
  | Some otherVc => IsLower_loop (map_to_list ts) otherVc false
  end.

Fixpoint TotalOrder_scan (selfVc : list (Z * Z)) (otherVc : vclock)
    (foundHigher foundLower : bool) : bool * bool :=
  match selfVc with
  | [] => (foundHigher, foundLower)
  | (i, selfValue) :: rest =>
      if selfValue >? GetPos otherVc i
      then TotalOrder_scan rest otherVc foundHigher true
      else if selfValue <? GetPos otherVc i
      then TotalOrder_scan rest otherVc true foundLower
      else TotalOrder_scan rest otherVc foundHigher foundLower
  end.

Fixpoint TotalOrder_minIds (selfVc : list (Z * Z)) (otherVc : vclock)
    (minIdLower minIdHigher : Z) : Z * Z :=
  match selfVc with
  | [] => (minIdLower, minIdHigher)
  | (i, selfValue) :: rest =>
      if (selfValue >? GetPos otherVc i) && (minIdLower >? i)
      then TotalOrder_minIds rest otherVc i minIdHigher
      else if (selfValue <? GetPos otherVc i) && (minIdHigher >? i)
      then TotalOrder_minIds rest otherVc minIdLower i
      else TotalOrder_minIds rest otherVc minIdLower minIdHigher
  end.

Definition IsLowerOrEqualTotalOrder (ts : vclock) (otherTs : Timestamp) : bool :=
  match otherTs with
  | None => false
  | Some otherVc =>
      let '(foundHigher, foundLower) :=
        TotalOrder_scan (map_to_list ts) otherVc false false in
      if negb foundLower && negb foundHigher then true
      else if negb foundLower then false
      else if negb foundHigher then true
      else
        let '(minIdLower, minIdHigher) :=
          TotalOrder_minIds (map_to_list ts) otherVc MaxInt16 MaxInt16 in
        if minIdLower <? minIdHigher then false else true
  end.

Fixpoint IsEqual_loop (selfVc : list (Z * Z)) (otherVc : vclock) : bool :=
  match selfVc with
  | [] => true
  | (i, selfValue) :: rest =>
      if negb (selfValue =? GetPos otherVc i) then false
      else IsEqual_loop rest otherVc
  end.

Definition IsEqual (ts : vclock) (otherTs : Timestamp) : bool :=
  match otherTs with
  | None => false
  | Some otherVc => IsEqual_loop (map_to_list ts) otherVc
  end.

Definition IsConcurrent (ts : vclock) (otherTs : Timestamp) : bool :=
  TsResult_eqb (Compare ts otherTs) ConcurrentTs.

(** [None]: the type assertion on a nil [otherTs] panics. *)
Definition ComparePos (ts : vclock) (id : Z) (otherTs : Timestamp)
  : option TsResult :=
  match otherTs with
  | None => None
  | Some otherVc => Some
      match ts !! id, otherVc !! id with
      | Some tsValue, Some otherTsValue =>
          if tsValue =? otherTsValue then EqualTs
          else if tsValue <? otherTsValue then LowerTs else HigherTs
      | _, _ => ConcurrentTs
      end
  end.

Fixpoint IsSmallerConcurrent_loop (selfVc : list (Z * Z)) (otherVc : vclock)
    (smallestId : Z) (isSmaller : bool) : bool :=
  match selfVc with
  | [] => isSmaller
  | (id, value) :: rest =>
      if id <? smallestId then
        if value <? GetPos otherVc id
        then IsSmallerConcurrent_loop rest otherVc id true
        else if value >? GetPos otherVc id
        then IsSmallerConcurrent_loop rest otherVc id false
        else IsSmallerConcurrent_loop rest otherVc smallestId isSmaller
      else IsSmallerConcurrent_loop rest otherVc smallestId isSmaller
  end.

Definition IsSmallerConcurrent (ts : vclock) (otherTs : Timestamp)
  : option bool :=
  match otherTs with
  | None => None
  | Some otherVc =>
      Some (IsSmallerConcurrent_loop (map_to_list ts) otherVc MaxInt16 false)
  end.

Fixpoint IsDifferent_loop (selfVc : list (Z * Z)) (otherVc : vclock) : bool :=
  match selfVc with
  | [] => false
  | (id, value) :: rest =>
      if negb (value =? GetPos otherVc id) then true
      else IsDifferent_loop rest otherVc
  end.

Definition IsDifferent (ts : vclock) (otherTs : Timestamp) : bool :=
  match otherTs with
  | None => true
  | Some otherVc => IsDifferent_loop (map_to_list ts) otherVc
  end.

(** ** Updates and merges *)

Definition UpdatePos (ts : vclock) (id newValue : Z) : vclock :=
  if GetPos ts id <? newValue then <[id := newValue]> ts else ts.

Definition UpdateForcedPos (ts : vclock) (id newValue : Z) : vclock :=
  <[id := newValue]> ts.

Fixpoint Merge_loop (selfVc : list (Z * Z)) (otherTsVc vc : vclock) : vclock :=
  match selfVc with
  | [] => vc
  | (i, value) :: rest =>
      Merge_loop rest otherTsVc
        (if value >? GetPos otherTsVc i then <[i := value]> vc
         else <[i := GetPos otherTsVc i]> vc)
  end.

Definition Merge (ts : vclock) (otherTs : Timestamp) : vclock :=
  match otherTs with
  | None => ts
  | Some otherTsVc => Merge_loop (map_to_list ts) otherTsVc ∅
  end.

Fixpoint MergeInto_loop (otherTsVc : list (Z * Z)) (ts : vclock) : vclock :=
  match otherTsVc with
  | [] => ts
  | (i, value) :: rest =>
      MergeInto_loop rest
        (if value >? GetPos ts i then <[i := value]> ts else ts)
  end.

Definition MergeInto (ts : vclock) (otherTs : Timestamp) : vclock :=
  match otherTs with
  | None => ts
  | Some otherTsVc => MergeInto_loop (map_to_list otherTsVc) ts
  end.

Definition Update (knownIDs : list Z) (ts : vclock) : vclock :=
  foldl (fun vc id => match vc !! id with
                      | Some _ => vc
                      | None => <[id := 0]> vc
                      end) ts knownIDs.

Definition Copy (ts : vclock) : vclock :=
  foldl (fun copySiTS '(key, value) => <[key := value]> copySiTS) ∅
    (map_to_list ts).

Definition CopyInto (ts copyTs : vclock) : vclock :=
  foldl (fun copyTs '(key, value) => <[key := value]> copyTs) copyTs
    (map_to_list ts).

(** [values] has one slot per entry of the clock; more known identifiers than
    entries index out of range ([None]). *)
Definition FastCopy (knownIDs : list Z) (ts : vclock) : option (list Z) :=
  if (length knownIDs <=? size ts)%nat
  then Some (map (GetPos ts) knownIDs ++
             replicate (size ts - length knownIDs) 0)
  else None.

(** ** The loops as quantifiers over the entries *)

Definition some_lt (l : list (Z * Z)) (o : vclock) : bool :=
  existsb (fun '(i, v) => v <? GetPos o i) l.
Definition some_gt (l : list (Z * Z)) (o : vclock) : bool :=
  existsb (fun '(i, v) => v >? GetPos o i) l.

(** The result [Compare] gives for what its scan found. *)
Definition ts_result (lt gt : bool) : TsResult :=
  match lt, gt with
  | true, true => ConcurrentTs
  | true, false => LowerTs
  | false, true => HigherTs
  | false, false => EqualTs
  end.

(** Induction over the entries followed by the order of one entry. *)
Ltac entries_induction l :=
  induction l as [|[i v] l IH]; intros; simpl; [|
    match goal with o : gmap Z Z |- _ =>
      rewrite ?Z.gtb_ltb in *;
      destruct (Z.ltb_spec v (GetPos o i)), (Z.ltb_spec (GetPos o i) v);
      try (exfalso; lia)
    end]; simpl.

Lemma Compare_loop_spec l o fh fl :
  fh && fl = false ->
  Compare_loop l o fh fl = ts_result (fh || some_lt l o) (fl || some_gt l o).
Proof.
  revert fh fl. entries_induction l.
  all: destruct fh, fl; simpl in *; try discriminate; try reflexivity.
  all: rewrite IH by reflexivity; reflexivity.
Qed.

Lemma IsHigherOrEqual_loop_spec l o :
  IsHigherOrEqual_loop l o = negb (some_lt l o).
Proof. by entries_induction l. Qed.

Lemma IsLowerOrEqual_loop_spec l o :
  IsLowerOrEqual_loop l o = negb (some_gt l o).
Proof. by entries_induction l. Qed.

Lemma IsHigher_loop_spec l o fl :
  IsHigher_loop l o fl = negb (some_lt l o) && (fl || some_gt l o).
Proof.
  revert fl. entries_induction l; rewrite ?IH; try done.
  - by rewrite orb_false_r.
  - by rewrite orb_true_r.
Qed.

Lemma IsLower_loop_spec l o fh :
  IsLower_loop l o fh = negb (some_gt l o) && (fh || some_lt l o).
Proof.
  revert fh. entries_induction l; rewrite ?IH; try done.
  - by rewrite orb_false_r.
  - by rewrite orb_true_r.
Qed.

Lemma IsEqual_loop_spec l o :
  IsEqual_loop l o = negb (some_lt l o) && negb (some_gt l o).
Proof.
  entries_induction l; rewrite ?IH; try done;
    destruct (Z.eqb_spec v (GetPos o i)); try done; try lia.
  simpl. by rewrite andb_false_r.
Qed.

Lemma IsDifferent_loop_spec l o :
  IsDifferent_loop l o = some_lt l o || some_gt l o.
Proof.
  entries_induction l; rewrite ?IH; try done;
    destruct (Z.eqb_spec v (GetPos o i)); try done; try lia.
  simpl. by rewrite orb_true_r.
Qed.

Lemma TotalOrder_scan_spec l o fh fl :
  TotalOrder_scan l o fh fl = (fh || some_lt l o, fl || some_gt l o).
Proof.
  revert fh fl. entries_induction l; rewrite ?IH, ?orb_false_r, ?orb_true_r; done.
Qed.

Create Rewrite HintDb clock.
#[export] Hint Rewrite IsHigherOrEqual_loop_spec IsLowerOrEqual_loop_spec
  IsHigher_loop_spec IsLower_loop_spec IsEqual_loop_spec
  IsDifferent_loop_spec TotalOrder_scan_spec : clock.

(** Go's map iteration order does not matter. *)
Lemma some_lt_perm l1 l2 o : Permutation l1 l2 -> some_lt l1 o = some_lt l2 o.
Proof. apply existsb_Permutation. Qed.
Lemma some_gt_perm l1 l2 o : Permutation l1 l2 -> some_gt l1 o = some_gt l2 o.
Proof. apply existsb_Permutation. Qed.

Definition lt_in (ts o : vclock) : bool := some_lt (map_to_list ts) o.
Definition gt_in (ts o : vclock) : bool := some_gt (map_to_list ts) o.

Lemma GetPos_lookup (ts : vclock) i v : ts !! i = Some v -> GetPos ts i = v.
Proof. unfold GetPos. by intros ->. Qed.

Lemma lt_in_true ts o :
  lt_in ts o = true <-> exists i, i ∈ dom ts /\ GetPos ts i < GetPos o i.
Proof.
  unfold lt_in, some_lt. rewrite existsb_true_iff, Exists_exists. split.
  - intros ([i v] & Hin%elem_of_map_to_list & Hlt%Z.ltb_lt).
    exists i. rewrite (GetPos_lookup _ _ _ Hin). split; [|done].
    by eapply elem_of_dom_2.
  - intros (i & [v Hv]%elem_of_dom & Hlt). exists (i, v).
    rewrite elem_of_map_to_list, Z.ltb_lt. split; [done|].
    by rewrite (GetPos_lookup _ _ _ Hv) in Hlt.
Qed.

Lemma gt_in_true ts o :
  gt_in ts o = true <-> exists i, i ∈ dom ts /\ GetPos o i < GetPos ts i.
Proof.
  unfold gt_in, some_gt. rewrite existsb_true_iff, Exists_exists. split.
  - intros ([i v] & Hin%elem_of_map_to_list & Hlt).
    rewrite Z.gtb_ltb, Z.ltb_lt in Hlt.
    exists i. rewrite (GetPos_lookup _ _ _ Hin). split; [|done].
    by eapply elem_of_dom_2.
  - intros (i & [v Hv]%elem_of_dom & Hlt). exists (i, v).
    rewrite elem_of_map_to_list, Z.gtb_ltb, Z.ltb_lt. split; [done|].
    by rewrite (GetPos_lookup _ _ _ Hv) in Hlt.
Qed.

Lemma lt_in_false ts o :
  lt_in ts o = false <-> forall i, i ∈ dom ts -> GetPos o i <= GetPos ts i.
Proof.
  rewrite <- not_true_iff_false, lt_in_true. split.
  - intros H i Hi. destruct (Z.le_gt_cases (GetPos o i) (GetPos ts i)); [done|].
    destruct H. by exists i.
  - intros H (i & Hi & Hlt). specialize (H i Hi). lia.
Qed.

Lemma gt_in_false ts o :
  gt_in ts o = false <-> forall i, i ∈ dom ts -> GetPos ts i <= GetPos o i.
Proof.
  rewrite <- not_true_iff_false, gt_in_true. split.
  - intros H i Hi. destruct (Z.le_gt_cases (GetPos ts i) (GetPos o i)); [done|].
    destruct H. by exists i.
  - intros H (i & Hi & Hlt). specialize (H i Hi). lia.
Qed.

Lemma Compare_bools ts o :
  Compare ts (Some o) = ts_result (lt_in ts o) (gt_in ts o).
Proof. unfold Compare. by rewrite Compare_loop_spec. Qed.

Lemma IsHigherOrEqual_bools ts o :
  IsHigherOrEqual ts (Some o) = negb (lt_in ts o).
Proof. unfold IsHigherOrEqual. by autorewrite with clock. Qed.

Lemma IsLowerOrEqual_bools ts o :
  IsLowerOrEqual ts (Some o) = negb (gt_in ts o).
Proof. unfold IsLowerOrEqual. by autorewrite with clock. Qed.

Lemma IsHigher_bools ts o :
  IsHigher ts (Some o) = negb (lt_in ts o) && gt_in ts o.
Proof. unfold IsHigher. by autorewrite with clock. Qed.

Lemma IsLower_bools ts o :
  IsLower ts (Some o) = negb (gt_in ts o) && lt_in ts o.
Proof. unfold IsLower. by autorewrite with clock. Qed.

Lemma IsEqual_bools ts o :
  IsEqual ts (Some o) = negb (lt_in ts o) && negb (gt_in ts o).
Proof. unfold IsEqual. by autorewrite with clock. Qed.

Lemma IsDifferent_bools ts o :
  IsDifferent ts (Some o) = lt_in ts o || gt_in ts o.
Proof. unfold IsDifferent. by autorewrite with clock. Qed.

Create Rewrite HintDb clock_bools.
#[export] Hint Rewrite Compare_bools IsHigherOrEqual_bools IsLowerOrEqual_bools
  IsHigher_bools IsLower_bools IsEqual_bools IsDifferent_bools : clock_bools.

(** ** Clocks over the same replicas are partially ordered *)

Definition vle (a b : vclock) : Prop := forall i, GetPos a i <= GetPos b i.
Definition same_dom (a b : vclock) : Prop := dom a = dom b.

Lemma GetPos_not_dom (ts : vclock) i : i ∉ dom ts -> GetPos ts i = 0.
Proof. unfold GetPos. by intros ->%not_elem_of_dom. Qed.

Lemma gt_in_vle a b : same_dom a b -> gt_in a b = false <-> vle a b.
Proof.
  unfold same_dom, vle. intros Hd. rewrite gt_in_false. split; [|naive_solver].
  intros H i. destruct (decide (i ∈ dom a)) as [|Hn]; [by apply H|].
  rewrite (GetPos_not_dom a), (GetPos_not_dom b); [lia|congruence|done].
Qed.

Lemma lt_in_vle a b : same_dom a b -> lt_in a b = false <-> vle b a.
Proof.
  unfold same_dom, vle. intros Hd. rewrite lt_in_false. split; [|naive_solver].
  intros H i. destruct (decide (i ∈ dom a)) as [|Hn]; [by apply H|].
  rewrite (GetPos_not_dom a), (GetPos_not_dom b); [lia|congruence|done].
Qed.

Lemma vle_refl a : vle a a.
Proof. intros i. lia. Qed.
Lemma vle_trans a b c : vle a b -> vle b c -> vle a c.
Proof. intros H1 H2 i. specialize (H1 i). specialize (H2 i). lia. Qed.
Lemma vle_antisym a b : same_dom a b -> vle a b -> vle b a -> a = b.
Proof.
  intros Hd H1 H2. apply map_eq. intros i.
  specialize (H1 i). specialize (H2 i). unfold GetPos in *.
  destruct (a !! i) as [x|] eqn:Ea, (b !! i) as [y|] eqn:Eb; simpl in *.
  - f_equal. lia.
  - apply elem_of_dom_2 in Ea. apply not_elem_of_dom in Eb. by rewrite Hd in Ea.
  - apply elem_of_dom_2 in Eb. apply not_elem_of_dom in Ea. by rewrite Hd in Ea.
  - done.
Qed.

Lemma same_dom_sym a b : same_dom a b -> same_dom b a.
Proof. done. Qed.
Lemma same_dom_trans a b c : same_dom a b -> same_dom b c -> same_dom a c.
Proof. unfold same_dom. congruence. Qed.

#[export] Hint Resolve vle_refl vle_trans same_dom_sym same_dom_trans : potion.

Lemma IsLowerOrEqual_vle a b :
  same_dom a b -> IsLowerOrEqual a (Some b) = true <-> vle a b.
Proof. intros. by rewrite IsLowerOrEqual_bools, negb_true_iff, gt_in_vle. Qed.

Lemma IsHigherOrEqual_vle a b :
  same_dom a b -> IsHigherOrEqual a (Some b) = true <-> vle b a.
Proof. intros. by rewrite IsHigherOrEqual_bools, negb_true_iff, lt_in_vle. Qed.

Lemma IsEqual_eq a b :
  same_dom a b -> IsEqual a (Some b) = true <-> a = b.
Proof.
  intros Hd. rewrite IsEqual_bools, andb_true_iff, !negb_true_iff.
  rewrite lt_in_vle, gt_in_vle by done. split.
  - intros [??]. by apply vle_antisym.
  - intros ->. auto with potion.
Qed.

Lemma IsLower_vle a b :
  same_dom a b -> IsLower a (Some b) = true <-> vle a b /\ a <> b.
Proof.
  intros Hd. rewrite IsLower_bools, andb_true_iff, negb_true_iff.
  rewrite gt_in_vle by done.
  rewrite <- not_false_iff_true, lt_in_vle by done. split.
  - intros [? H]. split; [done|]. intros ->. auto with potion.
  - intros [? H]. split; [done|]. intros ?. by apply H, vle_antisym.
Qed.

Lemma IsHigher_vle a b :
  same_dom a b -> IsHigher a (Some b) = true <-> vle b a /\ a <> b.
Proof.
  intros Hd. rewrite IsHigher_bools, andb_true_iff, negb_true_iff.
  rewrite lt_in_vle by done.
  rewrite <- not_false_iff_true, gt_in_vle by done. split.
  - intros [? H]. split; [done|]. intros ->. auto with potion.
  - intros [? H]. split; [done|]. intros ?. by apply H, vle_antisym.
Qed.

(** ** Tie-breaking of concurrent clocks *)

(** Least identifier below [s] on which the clock is above, resp. below, the
    other one. *)
Definition min_gt (l : list (Z * Z)) (o : vclock) (s : Z) : Z :=
  foldl (fun s '(i, v) => if v >? GetPos o i then Z.min s i else s) s l.
Definition min_lt (l : list (Z * Z)) (o : vclock) (s : Z) : Z :=
  foldl (fun s '(i, v) => if v <? GetPos o i then Z.min s i else s) s l.

Lemma TotalOrder_minIds_spec l o a b :
  TotalOrder_minIds l o a b = (min_gt l o a, min_lt l o b).
Proof.
  revert a b. unfold min_gt, min_lt. entries_induction l; [done| | |].
  all: repeat case_match; to_prop; rewrite IH; f_equal; f_equal; lia.
Qed.

Lemma min_gt_start l o s t : min_gt l o (Z.min s t) = Z.min s (min_gt l o t).
Proof.
  revert t. unfold min_gt. induction l as [|[i v] l IH]; intros; simpl; [done|].
  rewrite <- IH. f_equal. case_match; lia.
Qed.

Lemma min_lt_start l o s t : min_lt l o (Z.min s t) = Z.min s (min_lt l o t).
Proof.
  revert t. unfold min_lt. induction l as [|[i v] l IH]; intros; simpl; [done|].
  rewrite <- IH. f_equal. case_match; lia.
Qed.

Lemma min_gt_in l o s :
  min_gt l o s = s \/
  exists i v, (i, v) ∈ l /\ min_gt l o s = i /\ GetPos o i < v.
Proof.
  revert s. unfold min_gt. induction l as [|[i v] l IH]; intros; simpl; [by left|].
  destruct (IH (if v >? GetPos o i then Z.min s i else s))
    as [->|(j & w & ? & -> & ?)].
  - case_match; to_prop; [|by left].
    destruct (Z.min_spec s i) as [[? ->]|[? ->]]; [by left|right].
    exists i, v. split; [set_solver|split; [done|]]. lia.
  - right. exists j, w. set_solver.
Qed.

Lemma min_lt_in l o s :
  min_lt l o s = s \/
  exists i v, (i, v) ∈ l /\ min_lt l o s = i /\ v < GetPos o i.
Proof.
  revert s. unfold min_lt. induction l as [|[i v] l IH]; intros; simpl; [by left|].
  destruct (IH (if v <? GetPos o i then Z.min s i else s))
    as [->|(j & w & ? & -> & ?)].
  - case_match; to_prop; [|by left].
    destruct (Z.min_spec s i) as [[? ->]|[? ->]]; [by left|right].
    exists i, v. split; [set_solver|split; [done|lia]].
  - right. exists j, w. set_solver.
Qed.

Lemma min_gt_le l o s i v :
  (i, v) ∈ l -> GetPos o i < v -> min_gt l o s <= i.
Proof.
  revert s. induction l as [|[j w] l IH]; intros s Hin Hlt; [set_solver|].
  apply list_elem_of_In in Hin as [[= -> ->]|Hin%list_elem_of_In].
  - change (min_gt ((i, v) :: l) o s)
      with (min_gt l o (if v >? GetPos o i then Z.min s i else s)).
    replace (v >? GetPos o i) with true by (symmetry; rewrite Z.gtb_ltb; lia).
    rewrite Z.min_comm, min_gt_start. lia.
  - apply (IH (if w >? GetPos o j then Z.min s j else s)); done.
Qed.

Lemma min_lt_le l o s i v :
  (i, v) ∈ l -> v < GetPos o i -> min_lt l o s <= i.
Proof.
  revert s. induction l as [|[j w] l IH]; intros s Hin Hlt; [set_solver|].
  apply list_elem_of_In in Hin as [[= -> ->]|Hin%list_elem_of_In].
  - change (min_lt ((i, v) :: l) o s)
      with (min_lt l o (if v <? GetPos o i then Z.min s i else s)).
    replace (v <? GetPos o i) with true by (symmetry; lia).
    rewrite Z.min_comm, min_lt_start. lia.
  - apply (IH (if w <? GetPos o j then Z.min s j else s)); done.
Qed.

Lemma keys_nodup_fresh (l : list (Z * Z)) i v w :
  NoDup (((i, v) :: l).*1) -> (i, w) ∈ l -> False.
Proof.
  rewrite fmap_cons, NoDup_cons. intros [Hn _] Hin. apply Hn.
  by apply (list_elem_of_fmap_2 fst l (i, w)).
Qed.

Lemma min_gt_perm l1 l2 o :
  Permutation l1 l2 -> min_gt l1 o MaxInt16 = min_gt l2 o MaxInt16.
Proof.
  generalize MaxInt16. intros s Hp. revert s. unfold min_gt.
  induction Hp as [|[i v]|[i v] [j w]|]; intros; simpl; auto; try congruence.
  f_equal. repeat case_match; lia.
Qed.

Lemma min_lt_perm l1 l2 o :
  Permutation l1 l2 -> min_lt l1 o MaxInt16 = min_lt l2 o MaxInt16.
Proof.
  generalize MaxInt16. intros s Hp. revert s. unfold min_lt.
  induction Hp as [|[i v]|[i v] [j w]|]; intros; simpl; auto; try congruence.
  f_equal. repeat case_match; lia.
Qed.

(** The identifiers of a clock are below [MaxInt16], the initial value of the
    searches for the least identifier. *)
Definition ids_ok (l : list (Z * Z)) : Prop := Forall (fun e => e.1 < MaxInt16) l.

Lemma keys_nodup_unique (l : list (Z * Z)) i v w :
  NoDup (l.*1) -> (i, v) ∈ l -> (i, w) ∈ l -> v = w.
Proof.
  intros Hnd Hv Hw. apply list_elem_of_lookup in Hv as [n Hn], Hw as [m Hm].
  assert (n = m) as ->; [|congruence].
  apply (NoDup_lookup (l.*1) n m i Hnd);
    rewrite list_lookup_fmap; [by rewrite Hn|by rewrite Hm].
Qed.

Lemma min_gt_lt_ne l o s :
  NoDup (l.*1) -> min_gt l o s <> s -> min_gt l o s <> min_lt l o s.
Proof.
  intros Hnd Hs E.
  destruct (min_gt_in l o s) as [|(i & v & Hv & Ei & ?)]; [done|].
  destruct (min_lt_in l o s) as [|(j & w & Hw & Ej & ?)]; [congruence|].
  assert (j = i) as -> by congruence.
  pose proof (keys_nodup_unique l i v w Hnd Hv Hw). lia.
Qed.

Lemma IsSmallerConcurrent_loop_spec l o s b :
  NoDup (l.*1) -> s <= MaxInt16 ->
  IsSmallerConcurrent_loop l o s b =
    (if min_lt l o s <? min_gt l o s then true
     else if min_gt l o s <? min_lt l o s then false else b).
Proof.
  revert s b. induction l as [|[i v] l IH]; intros s b Hnd Hs.
  { simpl. destruct (s <? s) eqn:?; [|done]. to_prop. lia. }
  assert (Hnd' : NoDup (l.*1)).
  { rewrite fmap_cons in Hnd. by apply NoDup_cons in Hnd as [_ ?]. }
  change (min_lt ((i, v) :: l) o s)
    with (min_lt l o (if v <? GetPos o i then Z.min s i else s)).
  change (min_gt ((i, v) :: l) o s)
    with (min_gt l o (if v >? GetPos o i then Z.min s i else s)).
  simpl. rewrite !Z.gtb_ltb.
  assert (Gi : forall t, t <> i -> min_gt l o t <> i).
  { intros t Ht E. destruct (min_gt_in l o t) as [|(j & w & ? & ? & ?)]; [lia|].
    assert (j = i) as -> by lia. by eapply keys_nodup_fresh. }
  assert (Li : forall t, t <> i -> min_lt l o t <> i).
  { intros t Ht E. destruct (min_lt_in l o t) as [|(j & w & ? & ? & ?)]; [lia|].
    assert (j = i) as -> by lia. by eapply keys_nodup_fresh. }
  pose proof (min_gt_start l o i s) as Gs. pose proof (min_lt_start l o i s) as Ls.
  specialize (Gi s). specialize (Li s).
  pose proof (min_gt_lt_ne l o s Hnd') as Hne.
  destruct (Z.ltb_spec i s) as [His|His].
  - rewrite Z.min_l in Gs, Ls by lia.
    destruct (Z.ltb_spec v (GetPos o i)) as [Hv|Hv];
      [|destruct (Z.ltb_spec (GetPos o i) v) as [Hv'|Hv']].
    + destruct (Z.ltb_spec (GetPos o i) v); [lia|].
      rewrite IH by (done || lia). rewrite (Z.min_r s i) by lia.
      repeat case_match; to_prop; try done; lia.
    + rewrite IH by (done || lia). rewrite (Z.min_r s i) by lia.
      repeat case_match; to_prop; try done; lia.
    + by rewrite IH.
  - rewrite IH by done.
    rewrite Z.min_l by lia.
    destruct (v <? GetPos o i), (GetPos o i <? v); reflexivity.
Qed.

Lemma map_to_list_ids_nodup (ts : vclock) : NoDup ((map_to_list ts).*1).
Proof. apply NoDup_fst_map_to_list. Qed.

(** The identifiers where two clocks over the same replicas differ are the
    same seen from either side, with the direction reversed. *)
Lemma min_gt_flip a b :
  same_dom a b ->
  min_gt (map_to_list a) b MaxInt16 = min_lt (map_to_list b) a MaxInt16.
Proof.
  intros Hd.
  assert (Hcomm : forall x y, same_dom x y -> forall i v,
    (i, v) ∈ map_to_list x -> exists w, (i, w) ∈ map_to_list y /\
      GetPos x i = v /\ GetPos y i = w).
  { intros x y Hxy i v Hin%elem_of_map_to_list.
    assert (i ∈ dom y) as [w Hw]%elem_of_dom
      by (rewrite <- Hxy; by eapply elem_of_dom_2).
    exists w. rewrite elem_of_map_to_list.
    auto using GetPos_lookup. }
  pose proof (min_gt_start (map_to_list a) b MaxInt16 MaxInt16) as Eg.
  pose proof (min_lt_start (map_to_list b) a MaxInt16 MaxInt16) as El.
  rewrite Z.min_id in Eg, El.
  apply Z.le_antisymm.
  - destruct (min_lt_in (map_to_list b) a MaxInt16) as [E|(i & v & Hin & E & Hv)].
    + lia.
    + destruct (Hcomm b a (eq_sym Hd) i v Hin) as (w & Hw & ? & ?).
      rewrite E. eapply min_gt_le; [done|lia].
  - destruct (min_gt_in (map_to_list a) b MaxInt16) as [E|(i & v & Hin & E & Hv)].
    + lia.
    + destruct (Hcomm a b Hd i v Hin) as (w & Hw & ? & ?).
      rewrite E. eapply min_lt_le; [done|lia].
Qed.

Lemma lt_in_flip a b : same_dom a b -> lt_in a b = gt_in b a.
Proof.
  intros Hd. apply eq_bool_prop_intro. rewrite !Is_true_true.
  rewrite lt_in_true, gt_in_true. by rewrite Hd.
Qed.

Lemma ids_ok_min_gt ts o :
  ids_ok (map_to_list ts) -> gt_in ts o = true ->
  min_gt (map_to_list ts) o MaxInt16 < MaxInt16.
Proof.
  intros Hok (i & [v Hv]%elem_of_dom & Hlt)%gt_in_true.
  apply elem_of_map_to_list in Hv as Hin.
  rewrite (GetPos_lookup _ _ _ Hv) in Hlt.
  pose proof (min_gt_le _ _ MaxInt16 _ _ Hin Hlt).
  unfold ids_ok in Hok. rewrite Forall_forall in Hok.
  specialize (Hok _ Hin). simpl in Hok. lia.
Qed.

(** ** Merging *)

Lemma Merge_loop_lookup l o vc i :
  NoDup (l.*1) ->
  Merge_loop l o vc !! i =
    match (list_to_map l : vclock) !! i with
    | Some v => Some (Z.max v (GetPos o i))
    | None => vc !! i
    end.
Proof.
  revert vc. induction l as [|[j v] l IH]; intros vc Hnd; simpl; [done|].
  rewrite fmap_cons, NoDup_cons in Hnd. destruct Hnd as [Hj Hnd].
  rewrite IH by done. destruct (decide (j = i)) as [->|Hne].
  - rewrite lookup_insert_eq, not_elem_of_list_to_map_1 by done.
    destruct (v >? GetPos o i) eqn:E; to_prop;
      rewrite lookup_insert_eq; f_equal; lia.
  - rewrite lookup_insert_ne by done. case_match; [done|].
    destruct (v >? GetPos o j); by rewrite lookup_insert_ne.
Qed.

Lemma Merge_lookup a b i :
  Merge a (Some b) !! i = (fun v => Z.max v (GetPos b i)) <$> a !! i.
Proof.
  unfold Merge. rewrite Merge_loop_lookup by apply NoDup_fst_map_to_list.
  rewrite list_to_map_to_list. by destruct (a !! i).
Qed.

Lemma Merge_dom a b : same_dom a (Merge a (Some b)).
Proof.
  unfold same_dom. apply set_eq. intros i. rewrite !elem_of_dom, Merge_lookup.
  by rewrite fmap_is_Some.
Qed.

Lemma Merge_GetPos a b i :
  same_dom a b -> GetPos (Merge a (Some b)) i = Z.max (GetPos a i) (GetPos b i).
Proof.
  intros Hd. destruct (decide (i ∈ dom a)) as [[v Hv]%elem_of_dom|Hn].
  - unfold GetPos at 1 2. rewrite Merge_lookup, Hv. done.
  - rewrite !GetPos_not_dom; [done|by rewrite <- Hd|done|].
    by rewrite <- (Merge_dom a b).
Qed.

Lemma MergeInto_loop_GetPos l ts i :
  NoDup (l.*1) ->
  GetPos (MergeInto_loop l ts) i =
    match (list_to_map l : vclock) !! i with
    | Some v => Z.max v (GetPos ts i)
    | None => GetPos ts i
    end.
Proof.
  revert ts. induction l as [|[j v] l IH]; intros ts Hnd; simpl; [done|].
  rewrite fmap_cons, NoDup_cons in Hnd. destruct Hnd as [Hj Hnd].
  rewrite IH by done. destruct (decide (j = i)) as [->|Hne].
  - rewrite lookup_insert_eq, not_elem_of_list_to_map_1 by done.
    destruct (v >? GetPos ts i) eqn:E; to_prop; [|lia].
    unfold GetPos at 1. rewrite lookup_insert_eq. simpl. lia.
  - rewrite lookup_insert_ne by done.
    assert (GetPos (if v >? GetPos ts j then <[j:=v]> ts else ts) i = GetPos ts i)
      as -> by (destruct (v >? GetPos ts j); [|done]; unfold GetPos;
                by rewrite lookup_insert_ne).
    done.
Qed.

Lemma MergeInto_GetPos a b i :
  same_dom a b ->
  GetPos (MergeInto a (Some b)) i = Z.max (GetPos a i) (GetPos b i).
Proof.
  intros Hd. unfold MergeInto.
  rewrite MergeInto_loop_GetPos by apply NoDup_fst_map_to_list.
  rewrite list_to_map_to_list.
  destruct (b !! i) as [v|] eqn:E.
  - rewrite (GetPos_lookup _ _ _ E). lia.
  - assert (i ∉ dom b) as Hn by by apply not_elem_of_dom.
    rewrite (GetPos_not_dom b i), (GetPos_not_dom a i); [done| |done].
    by rewrite Hd.
Qed.

Lemma MergeInto_dom a b : same_dom a b -> same_dom a (MergeInto a (Some b)).
Proof.
  unfold same_dom. intros Hd. unfold MergeInto.
  assert (H : forall l ts, (forall e, e ∈ l -> e.1 ∈ dom ts) ->
                           dom ts = dom (MergeInto_loop l ts)).
  { induction l as [|[j v] l IH]; intros ts Hl; simpl; [done|].
    assert (E : dom (if v >? GetPos ts j then <[j:=v]> ts else ts) = dom ts).
    { case_match; [|done]. rewrite dom_insert_L.
      assert (j ∈ dom ts) by (apply (Hl (j, v)); set_solver). set_solver. }
    rewrite <- E. apply IH. rewrite E. intros e He. apply Hl. set_solver. }
  apply H. intros [j v] Hin%elem_of_map_to_list. rewrite Hd.
  by apply elem_of_dom_2 in Hin.
Qed.

Lemma GetPos_insert ts id v i :
  GetPos (<[id := v]> ts) i = if decide (id = i) then v else GetPos ts i.
Proof.
  unfold GetPos. case_decide as E; [subst; by rewrite lookup_insert_eq|].
  by rewrite lookup_insert_ne.
Qed.

(** ** Properties of clocks *)

(** Every specialised comparison of a clock returns exactly what its
    documentation promises in terms of [Compare], for all clocks, nil
    included: [IsHigher] is [HigherTs], [IsHigherOrEqual] is [HigherTs] or
    [EqualTs], and so on; the early returns change nothing. *)
Theorem predicates_agree_with_Compare (ts : vclock) (otherTs : Timestamp) :
  IsHigher ts otherTs = TsResult_eqb (Compare ts otherTs) HigherTs /\
  IsLower ts otherTs = TsResult_eqb (Compare ts otherTs) LowerTs /\
  IsEqual ts otherTs = TsResult_eqb (Compare ts otherTs) EqualTs /\
  IsConcurrent ts otherTs = TsResult_eqb (Compare ts otherTs) ConcurrentTs /\
  IsHigherOrEqual ts otherTs =
    TsResult_eqb (Compare ts otherTs) HigherTs
    || TsResult_eqb (Compare ts otherTs) EqualTs /\
  IsLowerOrEqual ts otherTs =
    TsResult_eqb (Compare ts otherTs) LowerTs
    || TsResult_eqb (Compare ts otherTs) EqualTs /\
  IsDifferent ts otherTs = negb (TsResult_eqb (Compare ts otherTs) EqualTs).
Proof.
  destruct otherTs as [o|]; [|done]. unfold IsConcurrent.
  autorewrite with clock_bools.
  by destruct (lt_in ts o), (gt_in ts o).
Qed.

(** Go iterates over a map in a random order: every comparison gives the
    same answer for every order [l] in which the entries can be visited, the
    early returns and the search for the tie-breaking identifier included. *)
Theorem comparisons_ignore_iteration_order (ts o : vclock) (l : list (Z * Z)) :
  Permutation l (map_to_list ts) ->
  Compare_loop l o false false = Compare ts (Some o) /\
  IsHigher_loop l o false = IsHigher ts (Some o) /\
  IsLower_loop l o false = IsLower ts (Some o) /\
  IsHigherOrEqual_loop l o = IsHigherOrEqual ts (Some o) /\
  IsLowerOrEqual_loop l o = IsLowerOrEqual ts (Some o) /\
  IsEqual_loop l o = IsEqual ts (Some o) /\
  Some (IsSmallerConcurrent_loop l o MaxInt16 false) =
    IsSmallerConcurrent ts (Some o) /\
  Merge_loop l o ∅ = Merge ts (Some o).
Proof.
  intros Hp. unfold Compare, IsHigher, IsLower, IsHigherOrEqual, IsLowerOrEqual,
    IsEqual, IsSmallerConcurrent, Merge.
  assert (Hnd : NoDup (l.*1)).
  { rewrite Hp. apply NoDup_fst_map_to_list. }
  rewrite !Compare_loop_spec by done. autorewrite with clock.
  rewrite (some_lt_perm _ _ o Hp), (some_gt_perm _ _ o Hp).
  do 6 (split; [done|]). split.
  - f_equal. rewrite !IsSmallerConcurrent_loop_spec
      by first [done | lia | apply NoDup_fst_map_to_list].
    enough (min_lt l o MaxInt16 = min_lt (map_to_list ts) o MaxInt16 /\
            min_gt l o MaxInt16 = min_gt (map_to_list ts) o MaxInt16)
      as [-> ->] by done.
    by rewrite (min_lt_perm _ _ o Hp), (min_gt_perm _ _ o Hp).
  - apply map_eq. intros i. rewrite !Merge_loop_lookup
      by first [done | apply NoDup_fst_map_to_list].
    by rewrite (list_to_map_proper (M := gmap Z) l (map_to_list ts)) by done.
Qed.

Lemma comparisons_ignore_iteration_order_witness :
  IsLower_loop [(1, 4); (2, 1)] {[1 := 5; 2 := 1]} false = true /\
  Compare {[1 := 4; 2 := 1]} (Some {[1 := 5; 2 := 1]}) = LowerTs.
Proof.
  pose (ts := ({[1 := 4; 2 := 1]} : vclock)).
  pose (o := ({[1 := 5; 2 := 1]} : vclock)).
  assert (Hp : Permutation [(1, 4); (2, 1)] (map_to_list ts)).
  { replace (map_to_list ts) with [(2, 1); (1, 4)] by (vm_compute; reflexivity).
    apply perm_swap. }
  destruct (comparisons_ignore_iteration_order ts o _ Hp) as (_ & _ & H & _).
  split; [transitivity (IsLower ts (Some o)); [exact H|]|]; vm_compute; reflexivity.
Defined.

Definition flip_result (r : TsResult) : TsResult :=
  match r with HigherTs => LowerTs | LowerTs => HigherTs | r => r end.

(** On clocks over the same replicas [IsLowerOrEqual] is a partial order:
    reflexive, transitive and antisymmetric; and [Compare] seen from the other
    side is the reversed result. *)
Theorem clocks_partially_ordered (a b c : vclock) :
  same_dom a b -> same_dom b c ->
  IsLowerOrEqual a (Some a) = true /\
  (IsLowerOrEqual a (Some b) = true -> IsLowerOrEqual b (Some a) = true ->
   a = b) /\
  (IsLowerOrEqual a (Some b) = true -> IsLowerOrEqual b (Some c) = true ->
   IsLowerOrEqual a (Some c) = true) /\
  Compare b (Some a) = flip_result (Compare a (Some b)).
Proof.
  intros Hab Hbc. assert (Hac : same_dom a c) by eauto with potion.
  rewrite !IsLowerOrEqual_vle by first [done | by apply same_dom_sym].
  split; [auto with potion|]. split; [by apply vle_antisym|].
  split; [eauto with potion|].
  rewrite !Compare_bools, (lt_in_flip a b), (lt_in_flip b a) by done.
  by destruct (gt_in a b), (gt_in b a).
Qed.

Lemma clocks_partially_ordered_witness :
  let a := {[1 := 4; 2 := 1]} in let b := {[1 := 5; 2 := 1]} in
  Compare b (Some a) = flip_result (Compare a (Some b)) /\
  Compare a (Some b) = LowerTs.
Proof.
  intros a b. split; [|vm_compute; reflexivity].
  assert (H : same_dom a b) by (vm_compute; reflexivity).
  exact (proj2 (proj2 (proj2 (clocks_partially_ordered a b b H eq_refl)))).
Defined.

(** [Merge] is the least upper bound of two clocks over the same
    replicas, with the same replicas, and [MergeInto] leaves in the receiver
    exactly the clock [Merge] builds. *)
Theorem Merge_least_upper_bound (a b : vclock) :
  same_dom a b ->
  same_dom a (Merge a (Some b)) /\
  IsHigherOrEqual (Merge a (Some b)) (Some a) = true /\
  IsHigherOrEqual (Merge a (Some b)) (Some b) = true /\
  (forall c, same_dom a c ->
     IsHigherOrEqual c (Some a) = true -> IsHigherOrEqual c (Some b) = true ->
     IsHigherOrEqual c (Some (Merge a (Some b))) = true) /\
  MergeInto a (Some b) = Merge a (Some b) /\
  Merge b (Some a) = Merge a (Some b).
Proof.
  intros Hd. pose proof (Merge_dom a b) as Hm.
  assert (Hmb : same_dom (Merge a (Some b)) b) by (unfold same_dom in *; congruence).
  split; [done|].
  rewrite !IsHigherOrEqual_vle by (done || by apply same_dom_sym).
  split; [intros i; rewrite Merge_GetPos by done; lia|].
  split; [intros i; rewrite Merge_GetPos by done; lia|].
  split; [|split].
  - intros c Hc. rewrite !IsHigherOrEqual_vle by (unfold same_dom in *; congruence).
    intros H1 H2 i. rewrite Merge_GetPos by done.
    specialize (H1 i). specialize (H2 i). lia.
  - apply vle_antisym;
      [pose proof (MergeInto_dom a b Hd); unfold same_dom in *; congruence|..];
      intros i; rewrite Merge_GetPos, MergeInto_GetPos by done; lia.
  - apply vle_antisym;
      [pose proof (Merge_dom b a); unfold same_dom in *; congruence|..];
      intros i; rewrite !Merge_GetPos by done; lia.
Qed.

Lemma Merge_least_upper_bound_witness :
  let a := {[1 := 4; 2 := 7]} in let b := {[1 := 5; 2 := 1]} in
  MergeInto a (Some b) = Merge a (Some b) /\
  Merge a (Some b) = {[1 := 5; 2 := 7]}.
Proof.
  intros a b. split; [|vm_compute; reflexivity].
  assert (H : same_dom a b) by (vm_compute; reflexivity).
  exact (proj1 (proj2 (proj2 (proj2 (proj2 (Merge_least_upper_bound a b H)))))).
Defined.

Lemma Copy_loop_lookup l (m : vclock) i :
  NoDup l.*1 ->
  foldl (fun copyTs '(key, value) => <[key := value]> copyTs) m l !! i =
    match (list_to_map l : vclock) !! i with Some v => Some v | None => m !! i end.
Proof.
  revert m. induction l as [|[k v] l IH]; intros m; [done|].
  intros [Hk Hl]%NoDup_cons. cbn [foldl]. rewrite IH by done. cbn [list_to_map foldr].
  destruct (decide (k = i)) as [->|].
  - apply not_elem_of_list_to_map_1 in Hk. cbn [fst] in *. by rewrite Hk, !lookup_insert_eq.
  - by rewrite !lookup_insert_ne.
Qed.

(** A copy has the same positions. *)
Lemma Copy_id ts : Copy ts = ts.
Proof.
  apply map_eq. intros i. unfold Copy.
  rewrite Copy_loop_lookup by apply NoDup_fst_map_to_list.
  rewrite list_to_map_to_list. by destruct (ts !! i).
Qed.

(** [NextTimestamp] and [IncTimestamp] give a strictly higher clock that
    moves only the position of the replica asking, whatever the wall clock
    returned, as long as that position is not at the end of the int64 range. *)
Theorem NextTimestamp_strictly_higher (now : Z) (ts : vclock) (id : Z) :
  - 2 ^ 63 <= GetPos ts id < MaxInt64 ->
  (forall newTs, newTs = NextTimestamp now ts id \/ newTs = IncTimestamp ts id ->
   IsHigher newTs (Some ts) = true /\
   GetPos ts id < GetPos newTs id /\
   (forall i, i <> id -> GetPos newTs i = GetPos ts i)).
Proof.
  intros Hr.
  assert (Hw : int64 (GetPos ts id + 1) = GetPos ts id + 1).
  { apply wrapS_id; [lia|]. unfold inS, MaxInt64 in *. lia. }
  assert (Hgen : forall v, GetPos ts id < v ->
    IsHigher (<[id:=v]> ts) (Some ts) = true /\
    GetPos ts id < GetPos (<[id:=v]> ts) id /\
    (forall i, i <> id -> GetPos (<[id:=v]> ts) i = GetPos ts i)).
  { intros v Hv. rewrite IsHigher_bools, andb_true_iff, negb_true_iff.
    rewrite lt_in_false, gt_in_true. split; [split|split].
    - intros i _. rewrite GetPos_insert. case_decide; subst; lia.
    - exists id. rewrite GetPos_insert, decide_True by done. set_solver.
    - rewrite GetPos_insert, decide_True by done. done.
    - intros i Hi. by rewrite GetPos_insert, decide_False. }
  intros newTs [->| ->]; unfold NextTimestamp, IncTimestamp; rewrite ?Hw;
    [case_bool|]; apply Hgen; to_prop; lia.
Qed.

Lemma NextTimestamp_strictly_higher_witness :
  let ts := {[1 := 40; 2 := 1]} in
  IsHigher (NextTimestamp 40 ts 1) (Some ts) = true /\
  NextTimestamp 40 ts 1 = {[1 := 41; 2 := 1]}.
Proof.
  intros ts. split; [|vm_compute; reflexivity].
  apply (NextTimestamp_strictly_higher 40 ts 1); [|by left].
  vm_compute. split; [intros H; discriminate H|reflexivity].
Defined.

(** Tie-breaking of concurrent clocks over the same replicas is
    consistent: exactly one of the two clocks is the smaller one, and
    [IsLowerOrEqualTotalOrder] follows the same choice. *)
Theorem concurrent_tie_break (a b : vclock) :
  same_dom a b -> ids_ok (map_to_list a) ->
  Compare a (Some b) = ConcurrentTs ->
  exists smaller : bool,
    IsSmallerConcurrent a (Some b) = Some smaller /\
    IsSmallerConcurrent b (Some a) = Some (negb smaller) /\
    IsLowerOrEqualTotalOrder a (Some b) = smaller /\
    IsLowerOrEqualTotalOrder b (Some a) = negb smaller.
Proof.
  intros Hd Hok Hc. rewrite Compare_bools in Hc.
  destruct (lt_in a b) eqn:El, (gt_in a b) eqn:Eg; try discriminate.
  pose proof (ids_ok_min_gt _ _ Hok Eg) as Hg.
  assert (Hne : min_gt (map_to_list a) b MaxInt16 <> min_lt (map_to_list a) b MaxInt16).
  { apply min_gt_lt_ne; [apply NoDup_fst_map_to_list|lia]. }
  exists (min_lt (map_to_list a) b MaxInt16 <? min_gt (map_to_list a) b MaxInt16).
  unfold IsSmallerConcurrent, IsLowerOrEqualTotalOrder.
  rewrite !IsSmallerConcurrent_loop_spec
    by first [apply NoDup_fst_map_to_list | lia].
  rewrite !TotalOrder_scan_spec, !TotalOrder_minIds_spec.
  fold (lt_in a b) (gt_in a b) (lt_in b a) (gt_in b a).
  rewrite (lt_in_flip b a), <- (lt_in_flip a b), El, Eg by done. simpl.
  rewrite (min_gt_flip b a), <- (min_gt_flip a b) by done.
  repeat split; f_equal; repeat case_match; to_prop; simpl; try done; lia.
Qed.

Lemma concurrent_tie_break_witness :
  let a := {[1 := 4; 2 := 7]} in let b := {[1 := 5; 2 := 1]} in
  (exists smaller, IsSmallerConcurrent a (Some b) = Some smaller /\
    IsSmallerConcurrent b (Some a) = Some (negb smaller) /\
    IsLowerOrEqualTotalOrder a (Some b) = smaller /\
    IsLowerOrEqualTotalOrder b (Some a) = negb smaller) /\
  IsSmallerConcurrent a (Some b) = Some true.
Proof.
  intros a b. split; [|vm_compute; reflexivity].
  apply (concurrent_tie_break a b); [vm_compute; reflexivity| |vm_compute; reflexivity].
  unfold ids_ok. change (map_to_list a) with [(2, 7); (1, 4)].
  repeat constructor.
Defined.

(** On comparable clocks [IsLowerOrEqualTotalOrder] answers the reverse of
    its documentation ("true if this TS happened before otherTS"): it is false
    on a strictly lower receiver and true on a strictly higher one; only equal
    clocks are answered as documented. *)
Theorem IsLowerOrEqualTotalOrder_reversed (ts o : vclock) :
  (Compare ts (Some o) = LowerTs -> IsLowerOrEqualTotalOrder ts (Some o) = false) /\
  (Compare ts (Some o) = HigherTs -> IsLowerOrEqualTotalOrder ts (Some o) = true) /\
  (Compare ts (Some o) = EqualTs -> IsLowerOrEqualTotalOrder ts (Some o) = true).
Proof.
  rewrite Compare_bools. unfold IsLowerOrEqualTotalOrder.
  rewrite TotalOrder_scan_spec. fold (lt_in ts o) (gt_in ts o).
  by destruct (lt_in ts o), (gt_in ts o).
Qed.

Lemma IsLowerOrEqualTotalOrder_reversed_witness :
  let a := {[1 := 4]} in let b := {[1 := 5]} in
  Compare a (Some b) = LowerTs /\ IsLowerOrEqualTotalOrder a (Some b) = false.
Proof.
  intros a b. assert (H : Compare a (Some b) = LowerTs) by (vm_compute; reflexivity).
  split; [exact H|]. exact (proj1 (IsLowerOrEqualTotalOrder_reversed a b) H).
Defined.
