(* ===== verification/ClockCodec.v ===== *)
(** * Clocks as bytes and as map keys: src/crdt/clocksi/clocksi.go

    [ToBytes]/[FromBytes] is the wire format of a clock; [GetMapKey] (with
    [useByteKey] set, as in the code) turns a clock into a string that can be
    a map key and is compared byte by byte.  Bytes are integers in [[0, 256)];
    [None] is an index out of range. *)

From S2P Require Import Prelude ClockSI.
From Stdlib Require Import ZArith Lia Bool.
From stdpp Require Import base tactics numbers gmap sorting list.
#[local] Open Scope Z_scope.

(** ** encoding/binary *)

(** [binary.LittleEndian.PutUintN]: the [n] low bytes of [v], lowest first. *)
Fixpoint le_bytes (n : nat) (v : Z) : list Z :=
  match n with
  | O => []
  | S n => Z.land v 255 :: le_bytes n (Z.shiftr v 8)
  end.

(** [binary.LittleEndian.UintN]. *)
Fixpoint le_value (bytes : list Z) : Z :=
  match bytes with
  | [] => 0
  | b :: rest => Z.lor b (Z.shiftl (le_value rest) 8)
  end.

(** [binary.BigEndian.PutUintN]: highest byte first. *)
Fixpoint be_bytes (n : nat) (v : Z) : list Z :=
  match n with
  | O => []
  | S n => Z.land (Z.shiftr v (8 * Z.of_nat n)) 255 :: be_bytes n v
  end.

(** ** ToBytes and FromBytes *)

Definition entrySize : nat := 8.

(** Each entry takes two slots of [entrySize] bytes; the identifier only fills
    the first two bytes of its slot. *)
Definition ToBytes_entry (e : Z * Z) : list Z :=
  let '(i, vcEntry) := e in
  le_bytes 2 (uint16 i) ++ replicate (entrySize - 2) 0 ++ le_bytes 8 (uint64 vcEntry).

Definition ToBytes (ts : vclock) : list Z := mjoin (ToBytes_entry <$> map_to_list ts).

Definition FromBytes_entry (bytes : list Z) (i : nat) : Z * Z :=
  let slot := (2 * entrySize)%nat in
  (int16 (le_value (take 2 (slice bytes (i * slot) ((i + 1) * slot - entrySize)))),
   int64 (le_value (take 8 (slice bytes (i * slot + entrySize) ((i + 1) * slot))))).

Definition FromBytes (bytes : list Z) : vclock :=
  if (length bytes =? 0)%nat then {[ 0 := 0 ]}
  else
    let nEntries := (length bytes / (entrySize * 2))%nat in
    foldl (fun newVC i =>
             let '(replicaID, value) := FromBytes_entry bytes i in
             <[replicaID := value]> newVC) ∅ (seq 0 nEntries).

Definition ClockArrayToByteArray (clks : list vclock) : list (list Z) := ToBytes <$> clks.
Definition ByteArrayToClockArray (bytes : list (list Z)) : list vclock := FromBytes <$> bytes.

(** ** Map keys *)

Definition GetSortedKeys (ts : vclock) : list Z := merge_sort Z.le (map_to_list ts).*1.

Definition getMapByteKey (ts : vclock) : list Z :=
  mjoin ((fun key => be_bytes 8 (uint64 (GetPos ts key))) <$> GetSortedKeys ts).

(** The inner loop of the comparisons: the first difference among four bytes. *)
Fixpoint quad_compare (n : nat) (ourBytes otherBytes : list Z) : option comparison :=
  match n with
  | O => Some Eq
  | S n =>
      match ourBytes, otherBytes with
      | x :: ourBytes, y :: otherBytes =>
          if x >? y then Some Gt
          else if x <? y then Some Lt
          else quad_compare n ourBytes otherBytes
      | _, _ => None
      end
  end.

(** [i += 4] ends the outer loop within [length ourBytes] iterations. *)
Fixpoint ByteKey_IsLower_loop (fuel : nat) (ourBytes otherBytes : list Z)
    (foundHigher : bool) : option bool :=
  match fuel, ourBytes with
  | _, [] => Some foundHigher
  | O, _ => None
  | S fuel, _ =>
      match quad_compare 4 ourBytes otherBytes with
      | None => None
      | Some Gt => Some false
      | Some Lt => ByteKey_IsLower_loop fuel (drop 4 ourBytes) (drop 4 otherBytes) true
      | Some Eq =>
          ByteKey_IsLower_loop fuel (drop 4 ourBytes) (drop 4 otherBytes) foundHigher
      end
  end.
Definition ByteKey_IsLower (bk otherKey : list Z) : option bool :=
  ByteKey_IsLower_loop (length bk) bk otherKey false.

Fixpoint ByteKey_IsHigher_loop (fuel : nat) (ourBytes otherBytes : list Z)
    (foundLower : bool) : option bool :=
  match fuel, ourBytes with
  | _, [] => Some foundLower
  | O, _ => None
  | S fuel, _ =>
      match quad_compare 4 ourBytes otherBytes with
      | None => None
      | Some Lt => Some false
      | Some Gt => ByteKey_IsHigher_loop fuel (drop 4 ourBytes) (drop 4 otherBytes) true
      | Some Eq =>
          ByteKey_IsHigher_loop fuel (drop 4 ourBytes) (drop 4 otherBytes) foundLower
      end
  end.
Definition ByteKey_IsHigher (bk otherKey : list Z) : option bool :=
  ByteKey_IsHigher_loop (length bk) bk otherKey false.

Fixpoint ByteKey_IsLowerOrEqual_loop (fuel : nat) (ourBytes otherBytes : list Z)
  : option bool :=
  match fuel, ourBytes with
  | _, [] => Some true
  | O, _ => None
  | S fuel, _ =>
      match quad_compare 4 ourBytes otherBytes with
      | None => None
      | Some Gt => Some false
      | Some _ => ByteKey_IsLowerOrEqual_loop fuel (drop 4 ourBytes) (drop 4 otherBytes)
      end
  end.
Definition ByteKey_IsLowerOrEqual (bk otherKey : list Z) : option bool :=
  ByteKey_IsLowerOrEqual_loop (length bk) bk otherKey.

Fixpoint ByteKey_IsEqual (ourBytes otherBytes : list Z) : option bool :=
  match ourBytes, otherBytes with
  | [], _ => Some true
  | _ :: _, [] => None
  | x :: ourBytes, y :: otherBytes =>
      if negb (x =? y) then Some false else ByteKey_IsEqual ourBytes otherBytes
  end.

(** ** Round trips of the byte encodings *)

Lemma land_255 v : Z.land v 255 = v mod 2 ^ 8.
Proof. change 255 with (Z.ones 8). by apply Z.land_ones. Qed.

Lemma lor_shiftl_add a b : 0 <= a < 2 ^ 8 -> Z.lor a (Z.shiftl b 8) = a + b * 2 ^ 8.
Proof.
  intros Ha. rewrite <- Z.shiftl_mul_pow2 by lia.
  assert (Hd : Z.land a (Z.shiftl b 8) = 0).
  { apply Z.bits_inj'. intros n Hn. rewrite Z.land_spec, Z.bits_0.
    destruct (Z.lt_ge_cases n 8).
    - rewrite Z.shiftl_spec_low by done. apply andb_false_r.
    - rewrite <- (Z.mod_small a (2 ^ 8)) by done.
      by rewrite Z.mod_pow2_bits_high by lia. }
  rewrite Z.add_nocarry_lxor by done. by rewrite Z.lxor_lor.
Qed.

Lemma le_bytes_length n v : length (le_bytes n v) = n.
Proof. revert v. induction n as [|n IH]; intros v; simpl; [done|]. by rewrite IH. Qed.

Lemma le_value_le_bytes n v : le_value (le_bytes n v) = v mod 2 ^ (8 * Z.of_nat n).
Proof.
  revert v. induction n as [|n IH]; intros v.
  - simpl. by rewrite Z.mod_1_r.
  - cbn [le_bytes le_value]. rewrite land_255, IH, lor_shiftl_add
      by (apply Z.mod_pos_bound; lia).
    rewrite Z.shiftr_div_pow2 by lia.
    replace (8 * Z.of_nat (S n)) with (8 + 8 * Z.of_nat n) by lia.
    rewrite Z.pow_add_r by lia.
    rewrite (Z.rem_mul_r v (2 ^ 8)) by lia. lia.
Qed.

Lemma ToBytes_entry_length e : length (ToBytes_entry e) = (2 * entrySize)%nat.
Proof. destruct e. unfold ToBytes_entry. by rewrite !length_app, !le_bytes_length. Qed.

(** An entry read back from its position. *)
Lemma FromBytes_entry_at pre e post :
  inS 16 e.1 -> inS 64 e.2 ->
  FromBytes_entry (mjoin (ToBytes_entry <$> pre) ++ ToBytes_entry e ++ post) (length pre) = e.
Proof.
  destruct e as [i v]. simpl. intros Hi Hv.
  assert (Hl : length (mjoin (ToBytes_entry <$> pre)) = (length pre * 16)%nat).
  { induction pre as [|x pre IH]; [done|]. rewrite fmap_cons.
    change (length (ToBytes_entry x ++ mjoin (ToBytes_entry <$> pre)) = (S (length pre) * 16)%nat).
    rewrite length_app, ToBytes_entry_length, IH. unfold entrySize. lia. }
  unfold FromBytes_entry, slice. unfold entrySize in *.
  replace (length pre * (2 * 8))%nat with (length pre * 16)%nat by lia.
  rewrite !drop_app_ge by lia. rewrite Hl.
  replace ((length pre + 1) * (2 * 8) - 8 - length pre * 16)%nat with 8%nat by lia.
  replace ((length pre + 1) * (2 * 8) - (length pre * 16 + 8))%nat with 8%nat by lia.
  rewrite Nat.sub_diag. replace (length pre * 16 + 8 - length pre * 16)%nat with 8%nat by lia.
  rewrite drop_0. unfold ToBytes_entry, entrySize.
  cbv beta iota. rewrite !take_take. cbn [Nat.min].
  f_equal.
  - change (int16 (le_value (le_bytes 2 (uint16 i))) = i).
    rewrite le_value_le_bytes. change (2 ^ (8 * Z.of_nat 2)) with (2 ^ 16).
    unfold wrapU. rewrite Z.mod_mod by lia.
    change (i mod 2 ^ 16) with (wrapU 16 i). rewrite wrapS_wrapU by lia.
    by apply wrapS_id.
  - change (int64 (le_value (le_bytes 8 (uint64 v))) = v).
    rewrite le_value_le_bytes. change (2 ^ (8 * Z.of_nat 8)) with (2 ^ 64).
    unfold wrapU. rewrite Z.mod_mod by lia.
    change (v mod 2 ^ 64) with (wrapU 64 v). rewrite wrapS_wrapU by lia.
    by apply wrapS_id.
Qed.

Definition entry_ok (e : Z * Z) : Prop := inS 16 e.1 /\ inS 64 e.2.

Lemma ToBytes_length l : length (mjoin (ToBytes_entry <$> l)) = (length l * 16)%nat.
Proof.
  induction l as [|x l IH]; [done|].
  change (length (ToBytes_entry x ++ mjoin (ToBytes_entry <$> l)) = (S (length l) * 16)%nat).
  rewrite length_app, ToBytes_entry_length, IH. unfold entrySize. lia.
Qed.

Lemma FromBytes_entries l i e :
  Forall entry_ok l -> l !! i = Some e ->
  FromBytes_entry (mjoin (ToBytes_entry <$> l)) i = e.
Proof.
  intros Hl Hi. rewrite Forall_lookup in Hl. destruct (Hl i e Hi).
  rewrite <- (take_drop_middle l i e Hi) at 1.
  rewrite fmap_app, fmap_cons, join_app.
  assert (Hlen : i = length (take i l)).
  { rewrite length_take, Nat.min_l; [done|]. apply lookup_lt_Some in Hi. lia. }
  rewrite Hlen at 3. by apply FromBytes_entry_at.
Qed.

Lemma foldl_seq_entries (l : list (Z * Z)) (f : nat -> Z * Z) n (m : vclock) :
  (forall i e, l !! i = Some e -> f (n + i)%nat = e) ->
  foldl (fun newVC i => let '(replicaID, value) := f i in <[replicaID := value]> newVC)
    m (seq n (length l)) =
  foldl (fun newVC '(replicaID, value) => <[replicaID := value]> newVC) m l.
Proof.
  revert n m. induction l as [|e l IH]; intros n m Hf; simpl; [done|].
  assert (E : f n = e) by (rewrite <- (Hf 0%nat e); [by rewrite Nat.add_0_r|done]).
  rewrite E. apply IH. intros i x Hx. rewrite <- (Hf (S i) x Hx). f_equal. lia.
Qed.

Lemma foldl_insert_NoDup (l : list (Z * Z)) (m : vclock) :
  NoDup (l.*1) ->
  foldl (fun newVC '(replicaID, value) => <[replicaID := value]> newVC) m l =
    list_to_map l ∪ m.
Proof.
  intros Hnd. apply map_eq. intros k.
  rewrite (foldl_alter_lookup (fun v _ => Some v)); [|intros|done].
  - rewrite lookup_union. by destruct (list_to_map l !! k), (m !! k).
  - case_decide; subst; by rewrite ?lookup_insert_eq, ?lookup_insert_ne.
Qed.

Lemma FromBytes_any_order (l : list (Z * Z)) :
  l <> [] -> NoDup (l.*1) -> Forall entry_ok l ->
  FromBytes (mjoin (ToBytes_entry <$> l)) = list_to_map l.
Proof.
  intros Hne Hnd Hok. unfold FromBytes. rewrite ToBytes_length.
  destruct (Nat.eqb_spec (length l * 16) 0) as [E|_].
  { destruct l; [done|simpl in E; lia]. }
  unfold entrySize. rewrite Nat.div_mul by lia.
  rewrite (foldl_seq_entries l) by (intros; by apply FromBytes_entries).
  rewrite foldl_insert_NoDup by done. apply map_union_empty.
Qed.

(** Entries of the clock in any order. *)
Lemma FromBytes_entries_any_order (ts : vclock) (l : list (Z * Z)) :
  Permutation l (map_to_list ts) -> map_Forall (fun i v => inS 16 i /\ inS 64 v) ts ->
  ts <> ∅ -> FromBytes (mjoin (ToBytes_entry <$> l)) = ts.
Proof.
  intros Hk Hr Hne.
  assert (Hok : Forall entry_ok (map_to_list ts)).
  { apply Forall_forall. intros [i v] Hin%elem_of_map_to_list. by apply Hr. }
  rewrite FromBytes_any_order.
  - rewrite (list_to_map_proper (M := gmap Z) l (map_to_list ts)); [|..|done].
    + apply list_to_map_to_list.
    + rewrite Hk. apply NoDup_fst_map_to_list.
  - intros ->. apply Permutation_nil_l in Hk. symmetry in Hk.
    by apply map_to_list_empty_iff in Hk.
  - rewrite Hk. apply NoDup_fst_map_to_list.
  - by rewrite Hk.
Qed.

(** A clock that can be sent. *)
Definition clock_ok (ts : vclock) : Prop :=
  ts <> ∅ /\ map_Forall (fun i v => inS 16 i /\ inS 64 v) ts.

Lemma clock_bytes ts : clock_ok ts -> FromBytes (ToBytes ts) = ts.
Proof. intros [Hne Hr]. by apply FromBytes_entries_any_order. Qed.

(** A clock survives the wire: reading back its bytes gives the same clock,
    whatever order its entries were written in, for every clock that has an
    entry; the empty clock comes back with an entry 0 for replica 0. *)
Theorem FromBytes_ToBytes (ts : vclock) (l : list (Z * Z)) :
  Permutation l (map_to_list ts) ->
  map_Forall (fun i v => inS 16 i /\ inS 64 v) ts ->
  (ts <> ∅ -> FromBytes (mjoin (ToBytes_entry <$> l)) = ts) /\
  (ts <> ∅ -> FromBytes (ToBytes ts) = ts) /\
  FromBytes (ToBytes ∅) = {[ 0 := 0 ]}.
Proof.
  intros Hp Hr. split; [by apply FromBytes_entries_any_order|].
  split; [by intros; apply clock_bytes|reflexivity].
Qed.

Lemma FromBytes_ToBytes_witness :
  let ts := {[ 7 := 1700000000000000000; -2 := 5 ]} in
  FromBytes (ToBytes ts) = ts.
Proof.
  intros ts. apply (FromBytes_ToBytes ts (map_to_list ts)); [reflexivity| |discriminate].
  apply map_Forall_insert_2; [|apply map_Forall_singleton];
    split; vm_compute; split; first [discriminate | reflexivity].
Defined.

(** ** Soundness of the comparisons of map keys *)

Lemma be_bytes_length n v : length (be_bytes n v) = n.
Proof. induction n as [|n IH]; simpl; [done|]. by rewrite IH. Qed.

Lemma be_byte n v :
  0 <= v < 2 ^ (8 * Z.of_nat (S n)) ->
  Z.land (Z.shiftr v (8 * Z.of_nat n)) 255 = v / 2 ^ (8 * Z.of_nat n) /\
  0 <= v mod 2 ^ (8 * Z.of_nat n) < 2 ^ (8 * Z.of_nat n).
Proof.
  intros Hv. assert (0 < 2 ^ (8 * Z.of_nat n)) by (apply Z.pow_pos_nonneg; lia).
  split; [|by apply Z.mod_pos_bound].
  rewrite land_255, Z.shiftr_div_pow2 by lia. apply Z.mod_small.
  replace (8 * Z.of_nat (S n)) with (8 * Z.of_nat n + 8) in Hv by lia.
  rewrite Z.pow_add_r in Hv by lia.
  split; [apply Z.div_pos; lia|]. apply Z.div_lt_upper_bound; lia.
Qed.

Lemma be_bytes_mod n v m :
  (n <= m)%nat -> be_bytes n (v mod 2 ^ (8 * Z.of_nat m)) = be_bytes n v.
Proof.
  induction n as [|n IH]; intros Hm; [done|]. cbn [be_bytes].
  rewrite IH by lia. f_equal. rewrite !land_255.
  apply Z.bits_inj'. intros k Hk.
  destruct (Z.lt_ge_cases k 8).
  - rewrite !Z.mod_pow2_bits_low, !Z.shiftr_spec by lia.
    apply Z.mod_pow2_bits_low. lia.
  - by rewrite !Z.mod_pow2_bits_high by lia.
Qed.

(** Big-endian bytes compare like the numbers. *)
Lemma quad_compare_be n x y r1 r2 :
  0 <= x < 2 ^ (8 * Z.of_nat n) -> 0 <= y < 2 ^ (8 * Z.of_nat n) ->
  quad_compare n (be_bytes n x ++ r1) (be_bytes n y ++ r2) = Some (x ?= y).
Proof.
  revert x y. induction n as [|n IH]; intros x y Hx Hy.
  - simpl in *. replace x with y by lia. by rewrite Z.compare_refl.
  - cbn [be_bytes quad_compare app].
    destruct (be_byte n x Hx) as [-> Hmx]. destruct (be_byte n y Hy) as [-> Hmy].
    assert (Hp : 0 < 2 ^ (8 * Z.of_nat n)) by (apply Z.pow_pos_nonneg; lia).
    pose proof (Z.div_mod x (2 ^ (8 * Z.of_nat n)) ltac:(lia)) as Ex.
    pose proof (Z.div_mod y (2 ^ (8 * Z.of_nat n)) ltac:(lia)) as Ey.
    rewrite Z.gtb_ltb.
    destruct (Z.ltb_spec (y / 2 ^ (8 * Z.of_nat n)) (x / 2 ^ (8 * Z.of_nat n))).
    { symmetry. f_equal. apply Z.compare_gt_iff. nia. }
    destruct (Z.ltb_spec (x / 2 ^ (8 * Z.of_nat n)) (y / 2 ^ (8 * Z.of_nat n))).
    { symmetry. f_equal. apply Z.compare_lt_iff. nia. }
    assert (Eq : x / 2 ^ (8 * Z.of_nat n) = y / 2 ^ (8 * Z.of_nat n)) by lia.
    rewrite <- (be_bytes_mod n x n), <- (be_bytes_mod n y n) by lia.
    rewrite IH by done. f_equal. rewrite Ex at 2. rewrite Ey at 2. rewrite Eq.
    destruct (Z.compare_spec (x mod 2 ^ (8 * Z.of_nat n)) (y mod 2 ^ (8 * Z.of_nat n)));
      symmetry; first [apply Z.compare_eq_iff | apply Z.compare_lt_iff
                      | apply Z.compare_gt_iff]; lia.
Qed.

(** The two 4-byte numbers a value is compared as. *)
Definition hi32 (v : Z) : Z := v / 2 ^ 32.
Definition lo32 (v : Z) : Z := v mod 2 ^ 32.

Lemma be_bytes_halves v :
  0 <= v < 2 ^ 64 -> be_bytes 8 v = be_bytes 4 (hi32 v) ++ be_bytes 4 (lo32 v).
Proof.
  intros Hv. unfold lo32. change (2 ^ 32) with (2 ^ (8 * Z.of_nat 4)).
  rewrite (be_bytes_mod 4 v 4) by lia. change (2 ^ (8 * Z.of_nat 4)) with (2 ^ 32).
  unfold hi32. rewrite <- Z.shiftr_div_pow2 by lia.
  cbn [be_bytes app Z.of_nat]. rewrite !Z.shiftr_shiftr by lia. done.
Qed.

(** The key as the list of the 4-byte numbers it is compared as. *)
Definition halves (v : Z) : list Z := [hi32 v; lo32 v].
Definition quads (ts : vclock) (keys : list Z) : list Z :=
  mjoin ((fun key => halves (GetPos ts key)) <$> keys).

Definition values_ok (ts : vclock) : Prop := forall i, 0 <= GetPos ts i <= MaxInt64.

Definition is_quad (q : Z) : Prop := 0 <= q < 2 ^ 32.

Lemma halves_quads v : 0 <= v <= MaxInt64 -> is_quad (hi32 v) /\ is_quad (lo32 v).
Proof.
  unfold is_quad, hi32, lo32, MaxInt64. intros Hv.
  split; [|apply Z.mod_pos_bound; lia].
  split; [apply Z.div_pos; lia|]. apply Z.div_lt_upper_bound; lia.
Qed.

Lemma quads_ok ts keys : values_ok ts -> Forall is_quad (quads ts keys).
Proof.
  intros Hv. induction keys as [|k keys IH]; [constructor|].
  destruct (halves_quads (GetPos ts k) (Hv k)).
  constructor; [done|]. constructor; [done|]. exact IH.
Qed.

Lemma getMapByteKey_quads ts :
  values_ok ts -> getMapByteKey ts = mjoin (be_bytes 4 <$> quads ts (GetSortedKeys ts)).
Proof.
  intros Hv. unfold getMapByteKey, quads. generalize (GetSortedKeys ts) as keys.
  induction keys as [|k keys IH]; [done|].
  pose proof (Hv k) as Hk. unfold MaxInt64 in Hk.
  change (be_bytes 8 (uint64 (GetPos ts k)) ++
          mjoin ((fun key => be_bytes 8 (uint64 (GetPos ts key))) <$> keys) =
          be_bytes 4 (hi32 (GetPos ts k)) ++ be_bytes 4 (lo32 (GetPos ts k)) ++
          mjoin (be_bytes 4 <$> mjoin ((fun key => halves (GetPos ts key)) <$> keys))).
  rewrite IH, wrapU_id by (unfold inU; lia).
  rewrite be_bytes_halves by lia. by rewrite app_assoc.
Qed.

(** The comparisons of keys over lists of 4-byte numbers. *)
Section quads.
Implicit Types l o : list Z.

Lemma quad_step x y l o :
  is_quad x -> is_quad y ->
  quad_compare 4 (be_bytes 4 x ++ l) (be_bytes 4 y ++ o) = Some (x ?= y) /\
  drop 4 (be_bytes 4 x ++ l) = l /\ drop 4 (be_bytes 4 y ++ o) = o.
Proof. intros Hx Hy. split; [by apply quad_compare_be|]. split; reflexivity. Qed.

Definition pairwise (f : Z -> Z -> bool) l o : bool :=
  forallb (fun '(x, y) => f x y) (zip l o).
Definition somewhere (f : Z -> Z -> bool) l o : bool :=
  existsb (fun '(x, y) => f x y) (zip l o).

Lemma IsLower_loop_quads fuel l o b :
  Forall is_quad l -> Forall is_quad o -> length l = length o ->
  (length l <= fuel)%nat ->
  ByteKey_IsLower_loop fuel (mjoin (be_bytes 4 <$> l)) (mjoin (be_bytes 4 <$> o)) b =
    Some (pairwise Z.leb l o && (b || somewhere Z.ltb l o)).
Proof.
  revert o fuel b. induction l as [|x l IH]; intros [|y o] fuel b Hl Ho Hlen Hf;
    try discriminate.
  - destruct fuel; simpl; by rewrite orb_false_r.
  - apply Forall_cons in Hl as [Hx Hl]. apply Forall_cons in Ho as [Hy Ho].
    destruct fuel as [|fuel]; simpl in Hlen, Hf; [lia|].
    change (mjoin (be_bytes 4 <$> x :: l)) with (be_bytes 4 x ++ mjoin (be_bytes 4 <$> l)).
    change (mjoin (be_bytes 4 <$> y :: o)) with (be_bytes 4 y ++ mjoin (be_bytes 4 <$> o)).
    destruct (quad_step x y (mjoin (be_bytes 4 <$> l)) (mjoin (be_bytes 4 <$> o)) Hx Hy)
      as (Eq & Ed1 & Ed2).
    remember (be_bytes 4 x ++ mjoin (be_bytes 4 <$> l)) as bl eqn:Ebl.
    assert (Hbl : exists b0 bl', bl = b0 :: bl') by (subst; by eexists _, _).
    destruct Hbl as (b0 & bl' & Eb). rewrite Eb. cbn [ByteKey_IsLower_loop].
    rewrite <- Eb, Eq, Ed1, Ed2. unfold pairwise, somewhere in *. cbn [zip zip_with forallb existsb].
    destruct (Z.compare_spec x y), (Z.leb_spec x y), (Z.ltb_spec x y); try lia;
      rewrite ?IH by (done || lia); simpl; rewrite ?orb_true_r; done.
Qed.

Lemma IsLowerOrEqual_loop_quads fuel l o :
  Forall is_quad l -> Forall is_quad o -> length l = length o ->
  (length l <= fuel)%nat ->
  ByteKey_IsLowerOrEqual_loop fuel (mjoin (be_bytes 4 <$> l)) (mjoin (be_bytes 4 <$> o)) =
    Some (pairwise Z.leb l o).
Proof.
  revert o fuel. induction l as [|x l IH]; intros [|y o] fuel Hl Ho Hlen Hf;
    try discriminate.
  - by destruct fuel.
  - apply Forall_cons in Hl as [Hx Hl]. apply Forall_cons in Ho as [Hy Ho].
    destruct fuel as [|fuel]; simpl in Hlen, Hf; [lia|].
    change (mjoin (be_bytes 4 <$> x :: l)) with (be_bytes 4 x ++ mjoin (be_bytes 4 <$> l)).
    change (mjoin (be_bytes 4 <$> y :: o)) with (be_bytes 4 y ++ mjoin (be_bytes 4 <$> o)).
    destruct (quad_step x y (mjoin (be_bytes 4 <$> l)) (mjoin (be_bytes 4 <$> o)) Hx Hy)
      as (Eq & Ed1 & Ed2).
    remember (be_bytes 4 x ++ mjoin (be_bytes 4 <$> l)) as bl eqn:Ebl.
    assert (Hbl : exists b0 bl', bl = b0 :: bl') by (subst; by eexists _, _).
    destruct Hbl as (b0 & bl' & Eb). rewrite Eb. cbn [ByteKey_IsLowerOrEqual_loop].
    rewrite <- Eb, Eq, Ed1, Ed2. unfold pairwise in *. cbn [zip zip_with forallb].
    destruct (Z.compare_spec x y), (Z.leb_spec x y); try lia;
      rewrite ?IH by (done || lia); done.
Qed.
End quads.

Lemma sorted_keys_same_dom a b : same_dom a b -> GetSortedKeys a = GetSortedKeys b.
Proof.
  intros Hd. unfold GetSortedKeys.
  assert (Hp : (map_to_list a).*1 ≡ₚ (map_to_list b).*1).
  { apply NoDup_Permutation; [apply NoDup_fst_map_to_list..|].
    intros k. rewrite !list_elem_of_fmap.
    assert (E : k ∈ dom a <-> k ∈ dom b) by (by rewrite Hd).
    rewrite !elem_of_dom in E. split.
    - intros ([i v] & -> & Hin%elem_of_map_to_list). destruct E as [E _].
      destruct E as [w Hw]; [by exists v|]. exists (i, w). by rewrite elem_of_map_to_list.
    - intros ([i v] & -> & Hin%elem_of_map_to_list). destruct E as [_ E].
      destruct E as [w Hw]; [by exists v|]. exists (i, w). by rewrite elem_of_map_to_list. }
  apply (StronglySorted_unique Z.le).
  - apply (StronglySorted_merge_sort Z.le).
  - apply (StronglySorted_merge_sort Z.le).
  - by rewrite !merge_sort_Permutation.
Qed.

Lemma elem_of_GetSortedKeys ts k : k ∈ GetSortedKeys ts <-> k ∈ dom ts.
Proof.
  unfold GetSortedKeys. rewrite merge_sort_Permutation, list_elem_of_fmap, elem_of_dom.
  split.
  - intros ([i v] & -> & Hin%elem_of_map_to_list). by exists v.
  - intros [v Hv]. exists (k, v). by rewrite elem_of_map_to_list.
Qed.

Lemma quads_cons ts k keys :
  quads ts (k :: keys) = hi32 (GetPos ts k) :: lo32 (GetPos ts k) :: quads ts keys.
Proof. done. Qed.

Lemma pairwise_quads f a b keys :
  pairwise f (quads a keys) (quads b keys) =
    forallb (fun k => f (hi32 (GetPos a k)) (hi32 (GetPos b k)) &&
                      f (lo32 (GetPos a k)) (lo32 (GetPos b k))) keys.
Proof.
  induction keys as [|k keys IH]; [done|]. rewrite !quads_cons.
  unfold pairwise in *. cbn [zip zip_with forallb]. by rewrite IH, andb_assoc.
Qed.

Lemma somewhere_quads f a b keys :
  somewhere f (quads a keys) (quads b keys) =
    existsb (fun k => f (hi32 (GetPos a k)) (hi32 (GetPos b k)) ||
                      f (lo32 (GetPos a k)) (lo32 (GetPos b k))) keys.
Proof.
  induction keys as [|k keys IH]; [done|]. rewrite !quads_cons.
  unfold somewhere in *. cbn [zip zip_with existsb]. by rewrite IH, orb_assoc.
Qed.

Lemma halves_value v : v = hi32 v * 2 ^ 32 + lo32 v.
Proof. unfold hi32, lo32. rewrite Z.mul_comm. apply Z.div_mod. lia. Qed.

Lemma quads_length ts keys : length (quads ts keys) = (2 * length keys)%nat.
Proof. induction keys as [|k keys IH]; [done|]. rewrite quads_cons. simpl. lia. Qed.

Lemma mjoin_be_length l : length (mjoin (be_bytes 4 <$> l)) = (4 * length l)%nat.
Proof.
  induction l as [|x l IH]; [done|].
  change (length (be_bytes 4 x ++ mjoin (be_bytes 4 <$> l)) = (4 * S (length l))%nat).
  rewrite length_app, be_bytes_length, IH. lia.
Qed.

(** Values whose high halves are equal, as they are for replicas whose clocks
    were read within the same four seconds. *)
Definition same_hi (a b : vclock) : Prop :=
  forall k, hi32 (GetPos a k) = hi32 (GetPos b k).

(** The comparisons of map keys never fail on two clocks over the same
    replicas and never claim an order the clocks do not have; they are exact
    when the high 32 bits of the values agree.  (They compare the two halves of
    a value as separate numbers, so other ordered clocks can be missed.) *)
Theorem ByteKey_sound (a b : vclock) :
  same_dom a b -> values_ok a -> values_ok b ->
  exists lower lowerEq,
    ByteKey_IsLower (getMapByteKey a) (getMapByteKey b) = Some lower /\
    ByteKey_IsLowerOrEqual (getMapByteKey a) (getMapByteKey b) = Some lowerEq /\
    (lower = true -> IsLower a (Some b) = true) /\
    (lowerEq = true -> IsLowerOrEqual a (Some b) = true) /\
    (same_hi a b -> lower = IsLower a (Some b) /\ lowerEq = IsLowerOrEqual a (Some b)).
Proof.
  intros Hd Ha Hb. unfold ByteKey_IsLower, ByteKey_IsLowerOrEqual.
  rewrite !getMapByteKey_quads by done.
  rewrite <- (sorted_keys_same_dom a b Hd). set (keys := GetSortedKeys a).
  assert (Hlen : (length (quads a keys) <= length (mjoin (be_bytes 4 <$> quads a keys)))%nat)
    by (rewrite mjoin_be_length; lia).
  rewrite IsLower_loop_quads, IsLowerOrEqual_loop_quads
    by first [by apply quads_ok | by rewrite !quads_length | done].
  eexists _, _. split; [reflexivity|]. split; [reflexivity|].
  rewrite pairwise_quads, somewhere_quads. simpl orb.
  assert (Hle : forallb (fun k =>
      (hi32 (GetPos a k) <=? hi32 (GetPos b k)) && (lo32 (GetPos a k) <=? lo32 (GetPos b k)))
      keys = true -> gt_in a b = false).
  { rewrite forallb_forall. intros Hall. apply gt_in_false. intros k Hk.
    specialize (Hall k). rewrite <- list_elem_of_In in Hall.
    specialize (Hall (proj2 (elem_of_GetSortedKeys a k) Hk)). to_prop.
    rewrite (halves_value (GetPos a k)), (halves_value (GetPos b k)). lia. }
  assert (Hlt : existsb (fun k =>
      (hi32 (GetPos a k) <? hi32 (GetPos b k)) || (lo32 (GetPos a k) <? lo32 (GetPos b k)))
      keys = true -> gt_in a b = false -> forallb (fun k =>
      (hi32 (GetPos a k) <=? hi32 (GetPos b k)) && (lo32 (GetPos a k) <=? lo32 (GetPos b k)))
      keys = true -> lt_in a b = true).
  { rewrite existsb_exists, forallb_forall. intros (k & Hk & Hlt) _ Hall.
    apply lt_in_true. exists k. rewrite <- elem_of_GetSortedKeys, list_elem_of_In.
    split; [done|]. specialize (Hall k Hk). apply andb_prop in Hall as [H1 H2].
    apply Z.leb_le in H1, H2.
    rewrite (halves_value (GetPos a k)), (halves_value (GetPos b k)).
    apply orb_true_iff in Hlt as [Hlt|Hlt]; apply Z.ltb_lt in Hlt; lia. }
  rewrite IsLower_bools, IsLowerOrEqual_bools. split; [|split].
  - intros [H1 H2]%andb_prop. pose proof (Hle H1) as Hg. by rewrite Hg, (Hlt H2 Hg H1).
  - intros H1. by rewrite (Hle H1).
  - intros Hh.
    assert (E1 : forallb (fun k =>
      (hi32 (GetPos a k) <=? hi32 (GetPos b k)) && (lo32 (GetPos a k) <=? lo32 (GetPos b k)))
      keys = negb (gt_in a b)).
    { apply eq_bool_prop_intro. rewrite !Is_true_true, negb_true_iff. split; [done|].
      rewrite gt_in_false, forallb_forall. intros Hall k Hk%list_elem_of_In.
      apply elem_of_GetSortedKeys in Hk. specialize (Hall k Hk).
      rewrite (halves_value (GetPos a k)), (halves_value (GetPos b k)) in Hall.
      rewrite (Hh k) in Hall |- *. apply andb_true_intro. split; apply Z.leb_le; lia. }
    rewrite E1. split; [|done]. destruct (gt_in a b) eqn:Eg; [done|]. simpl.
    apply eq_bool_prop_intro. rewrite !Is_true_true. split; [auto|].
    rewrite lt_in_true, existsb_exists. intros (k & Hk & Hlt').
    exists k. rewrite <- list_elem_of_In. unfold keys. rewrite elem_of_GetSortedKeys. split; [done|].
    rewrite (halves_value (GetPos a k)), (halves_value (GetPos b k)) in Hlt'.
    rewrite (Hh k) in Hlt' |- *. apply orb_true_intro. right. apply Z.ltb_lt. lia.
Qed.

Lemma ByteKey_sound_witness :
  let a := {[1 := 5; 2 := 7]} in let b := {[1 := 9; 2 := 7]} in
  ByteKey_IsLower (getMapByteKey a) (getMapByteKey b) = Some true /\
  IsLower a (Some b) = true.
Proof.
  intros a b.
  assert (H0 : ByteKey_IsLower (getMapByteKey a) (getMapByteKey b) = Some true)
    by (vm_compute; reflexivity).
  split; [exact H0|].
  assert (Hv : forall m : vclock, m = a \/ m = b -> values_ok m).
  { intros m Hm i. unfold GetPos. destruct (m !! i) as [v|] eqn:E; [|split; done].
    destruct Hm as [-> | ->]; unfold a, b in E;
      apply lookup_insert_Some in E as [[_ <-]|[_ E]]; try (split; done);
      apply lookup_singleton_Some in E as [_ <-]; split; done. }
  destruct (ByteKey_sound a b ltac:(vm_compute; reflexivity) (Hv a ltac:(auto))
              (Hv b ltac:(auto))) as (l & le & H1 & _ & H2 & _).
  apply H2. congruence.
Defined.

(** A clock above another that the keys do not order. *)
Lemma ByteKey_incomplete :
  let a := {[ 1 := 2 ^ 32 ]} in let b := {[ 1 := 1 ]} in
  IsHigher a (Some b) = true /\
  ByteKey_IsHigher (getMapByteKey a) (getMapByteKey b) = Some false.
Proof. split; vm_compute; reflexivity. Qed.
