(* ===== verification/GoHeap.v ===== *)
(** * Go's container/heap, and the interface its clients implement

    The heaps of the system (prepared clocks and held commits of a partition,
    waiters of the transaction manager) implement Go's [heap.Interface] and are
    driven by [heap.Push], [heap.Pop] and [heap.Remove].  [HeapOps] is that
    interface, [up]/[down]/[Push]/[Pop]/[Remove] are the library's algorithms
    over it, and [HeapLaws] is what an implementation promises.  The theorems
    are proved once against [HeapLaws]. *)

From S2P Require Import Prelude.
From Stdlib Require Import Lia Bool List Arith.
From stdpp Require Import base tactics numbers list.
#[local] Open Scope nat_scope.

(** ** The interface *)

Class HeapOps (H A : Type) := {
  hEntries : H -> list A;
  hLess : H -> nat -> nat -> bool;
  hSwap : H -> nat -> nat -> H;
  hPush : H -> A -> H;
  hPop : H -> option A * H
}.

Definition hLen {H A} `{HeapOps H A} (h : H) : nat := length (hEntries h).

Section algorithms.
Context {H A : Type} `{HeapOps H A}.

Definition parent (j : nat) : nat := (j - 1) / 2.

(** The loop of [up] ends because [j] decreases: [S j] steps are enough. *)
Fixpoint up_loop (fuel : nat) (h : H) (j : nat) : H :=
  match fuel with
  | 0 => h
  | S fuel =>
      let i := parent j in
      if (i =? j) || negb (hLess h j i) then h
      else up_loop fuel (hSwap h i j) i
  end.
Definition up (h : H) (j : nat) : H := up_loop (S j) h j.

(** The loop of [down] ends because [i] grows towards [n]. *)
Fixpoint down_loop (fuel : nat) (h : H) (i n : nat) : H * nat :=
  match fuel with
  | 0 => (h, i)
  | S fuel =>
      let j1 := 2 * i + 1 in
      if n <=? j1 then (h, i)
      else
        let j2 := j1 + 1 in
        let j := if (j2 <? n) && hLess h j2 j1 then j2 else j1 in
        if negb (hLess h j i) then (h, i)
        else down_loop fuel (hSwap h i j) j n
  end.
Definition down (h : H) (i0 n : nat) : H * bool :=
  let '(h, i) := down_loop (S n) h i0 n in (h, i0 <? i).

(** The child of [i] that [down] considers. *)
Definition child (h : H) (i n : nat) : nat :=
  if (2 * i + 1 + 1 <? n) && hLess h (2 * i + 1 + 1) (2 * i + 1)
  then 2 * i + 1 + 1 else 2 * i + 1.

Lemma down_loop_S fuel h i n :
  down_loop (S fuel) h i n =
    if n <=? 2 * i + 1 then (h, i)
    else if negb (hLess h (child h i n) i) then (h, i)
    else down_loop fuel (hSwap h i (child h i n)) (child h i n) n.
Proof. reflexivity. Qed.

Definition Push (h : H) (x : A) : H :=
  let h := hPush h x in up h (hLen h - 1).

(** [None]: [Swap] with index -1 on an empty heap panics. *)
Definition Pop (h : H) : option (option A * H) :=
  if hLen h =? 0 then None
  else
    let n := hLen h - 1 in
    let h := hSwap h 0 n in
    let '(h, _) := down h 0 n in
    Some (hPop h).

Definition Remove (h : H) (i : nat) : option (option A * H) :=
  if hLen h <=? i then None
  else
    let n := hLen h - 1 in
    if n =? i then Some (hPop h)
    else
      let h := hSwap h i n in
      let '(h, moved) := down h i n in
      let h := if moved then h else up h i in
      Some (hPop h).
End algorithms.

(** ** What an implementation promises *)

Definition lswap {A} (es : list A) (i j : nat) : list A :=
  match es !! i, es !! j with
  | Some a, Some b => <[i := b]> (<[j := a]> es)
  | _, _ => es
  end.

Class HeapLaws (H A : Type) `{HeapOps H A} (less : A -> A -> bool) := {
  hInv : H -> Prop;
  hFresh : H -> A -> Prop;
  law_less h i j a b :
    hEntries h !! i = Some a -> hEntries h !! j = Some b ->
    hLess h i j = less a b;
  law_swap h i j :
    hInv h -> i < hLen h -> j < hLen h ->
    hEntries (hSwap h i j) = lswap (hEntries h) i j /\ hInv (hSwap h i j);
  law_push h x :
    hInv h -> hFresh h x ->
    hEntries (hPush h x) = hEntries h ++ [x] /\ hInv (hPush h x);
  law_pop h es x :
    hInv h -> hEntries h = es ++ [x] ->
    exists h', hPop h = (Some x, h') /\ hEntries h' = es /\ hInv h'
}.

(** ** Swapping two entries of a list *)

Lemma lookup_lswap {A} (es : list A) i j k :
  i < length es -> j < length es ->
  lswap es i j !! k =
    if decide (k = i) then es !! j
    else if decide (k = j) then es !! i else es !! k.
Proof.
  intros [a Ha]%lookup_lt_is_Some_2 [b Hb]%lookup_lt_is_Some_2.
  unfold lswap. rewrite Ha, Hb.
  apply lookup_lt_Some in Ha as Hi. apply lookup_lt_Some in Hb as Hj.
  case_decide as E1; [|case_decide as E2]; subst.
  - apply list_lookup_insert_eq. by rewrite length_insert.
  - rewrite list_lookup_insert_ne by done. by apply list_lookup_insert_eq.
  - by rewrite !list_lookup_insert_ne by done.
Qed.

Lemma length_lswap {A} (es : list A) i j : length (lswap es i j) = length es.
Proof. unfold lswap. repeat case_match; by rewrite ?length_insert. Qed.

Lemma lswap_Permutation {A} (es : list A) i j : lswap es i j ≡ₚ es.
Proof.
  unfold lswap. destruct (es !! i) as [a|] eqn:Ha; [|done].
  destruct (es !! j) as [b|] eqn:Hb; [|done].
  destruct (decide (i = j)) as [->|Hne].
  - rewrite list_insert_insert_eq. rewrite list_insert_id; [done|congruence].
  - apply Permutation_inj. split; [by rewrite !length_insert|].
    apply lookup_lt_Some in Ha as Hi. apply lookup_lt_Some in Hb as Hj.
    pose (sw := fun k => if decide (k = i) then j
                         else if decide (k = j) then i else k).
    exists sw. split.
    + intros x y. unfold sw. repeat case_decide; congruence.
    + intros k. unfold sw. case_decide as E1; [|case_decide as E2]; subst.
      * rewrite list_lookup_insert_eq by (by rewrite length_insert). done.
      * rewrite list_lookup_insert_ne by done.
        by rewrite list_lookup_insert_eq.
      * by rewrite !list_lookup_insert_ne by done.
Qed.

(** ** Heap order *)

Lemma parent_bounds k : 0 < k -> 2 * parent k + 1 <= k <= 2 * parent k + 2.
Proof.
  intros. unfold parent.
  pose proof (Nat.div_mod (k - 1) 2 ltac:(lia)).
  pose proof (Nat.mod_upper_bound (k - 1) 2 ltac:(lia)). lia.
Qed.

Lemma parent_0 : parent 0 = 0.
Proof. done. Qed.

Section order.
Context {A : Type} (less : A -> A -> bool) (P : A -> Prop).

Definition le (a b : A) : Prop := less b a = false.

Hypothesis le_asym : forall a b, P a -> P b -> less a b = true -> le a b.
Hypothesis le_trans : forall a b c, P a -> P b -> P c -> le a b -> le b c -> le a c.

(** [rel es a b]: the entry at [a] is not above the entry at [b]. *)
Definition rel (es : list A) (a b : nat) : Prop :=
  forall x y, es !! a = Some x -> es !! b = Some y -> le x y.

(** The first [n] entries are in heap order. *)
Definition is_heap (n : nat) (es : list A) : Prop :=
  forall k, 0 < k < n -> rel es (parent k) k.

(** Heap order except around position [i], whose parent and children are
    still in order with each other. *)
Definition hole (n : nat) (es : list A) (i : nat) : Prop :=
  (forall k, 0 < k < n -> k <> i -> parent k <> i -> rel es (parent k) k) /\
  (forall c, 0 < c < n -> parent c = i -> 0 < i -> rel es (parent i) c).

Definition children_ok (n : nat) (es : list A) (i : nat) : Prop :=
  forall c, 0 < c < n -> parent c = i -> rel es i c.

Lemma hole_is_heap n es i :
  hole n es i -> children_ok n es i -> (0 < i < n -> rel es (parent i) i) ->
  is_heap n es.
Proof.
  intros [H1 _] H2 H3 k Hk. destruct (decide (k = i)) as [->|]; [auto|].
  destruct (decide (parent k = i)) as [<-|]; [by apply H2|by apply H1].
Qed.

Lemma is_heap_hole n es i : is_heap n es -> i < length es -> Forall P es -> hole n es i.
Proof.
  intros Hh Hi HP. split; [auto|].
  intros c Hc <- Hp x y Hx Hy.
  pose proof (parent_bounds c ltac:(lia)).
  destruct (lookup_lt_is_Some_2 es (parent c) Hi) as [z Hz].
  rewrite Forall_lookup in HP.
  apply (le_trans x z y); eauto; [apply (Hh (parent c) ltac:(lia) x z Hx Hz)|].
  apply (Hh c Hc z y Hz Hy).
Qed.

Lemma rel_trans es a b c :
  Forall P es -> b < length es -> rel es a b -> rel es b c -> rel es a c.
Proof.
  intros HP Hb Hab Hbc x y Hx Hy.
  destruct (lookup_lt_is_Some_2 es b Hb) as [z Hz].
  rewrite Forall_lookup in HP. eapply (le_trans x z y); eauto.
Qed.

(** Relations after a swap are relations of the old entries. *)
Definition swp (i j k : nat) : nat :=
  if decide (k = i) then j else if decide (k = j) then i else k.

Lemma rel_lswap es i j a b :
  i < length es -> j < length es ->
  rel (lswap es i j) a b <-> rel es (swp i j a) (swp i j b).
Proof.
  intros Hi Hj. unfold rel. rewrite !lookup_lswap by done.
  unfold swp. by repeat case_decide.
Qed.

Lemma swp_l i j : swp i j i = j.
Proof. unfold swp. by rewrite decide_True. Qed.
Lemma swp_r i j : swp i j j = i.
Proof. unfold swp. repeat case_decide; congruence. Qed.
Lemma swp_ne i j k : k <> i -> k <> j -> swp i j k = k.
Proof. intros. unfold swp. by rewrite !decide_False. Qed.

Lemma rel_less es i j x y :
  Forall P es -> es !! i = Some x -> es !! j = Some y ->
  less x y = true -> rel es i j.
Proof.
  intros HP Hx Hy Hl x' y' Hx' Hy'. simplify_eq.
  rewrite Forall_lookup in HP. apply le_asym; eauto.
Qed.

(** One step of [up]: the hole moves to the parent. *)
Lemma hole_up_step n es j :
  Forall P es -> n <= length es -> 0 < j < n ->
  hole n es j -> children_ok n es j -> rel es j (parent j) ->
  hole n (lswap es (parent j) j) (parent j) /\
  children_ok n (lswap es (parent j) j) (parent j).
Proof.
  intros HP Hn Hj [H1 H2] H3 Hjp. pose proof (parent_bounds j ltac:(lia)).
  set (i := parent j) in *. split; [split|].
  - intros k Hk Hki Hpk. pose proof (parent_bounds k ltac:(lia)).
    rewrite rel_lswap by lia.
    destruct (decide (k = j)) as [->|Hkj]; [done|].
    rewrite (swp_ne i j k) by done.
    destruct (decide (parent k = j)) as [E|].
    + rewrite E, swp_r. apply H2; [lia|done|lia].
    + rewrite swp_ne by done. by apply H1.
  - intros c Hc Hci Hi. pose proof (parent_bounds c ltac:(lia)).
    pose proof (parent_bounds i Hi).
    rewrite rel_lswap, (swp_ne i j (parent i)) by lia.
    assert (Hpi : rel es (parent i) i) by (apply H1; lia).
    destruct (decide (c = j)) as [->|Hcj]; [by rewrite swp_r|].
    rewrite swp_ne by lia. apply (rel_trans es _ i); [done|lia|done|].
    rewrite <- Hci. apply H1; lia.
  - intros c Hc Hci. pose proof (parent_bounds c ltac:(lia)).
    rewrite rel_lswap, swp_l by lia.
    destruct (decide (c = j)) as [->|Hcj]; [by rewrite swp_r|].
    rewrite swp_ne by lia. apply (rel_trans es _ i); [done|lia|done|].
    rewrite <- Hci. apply H1; lia.
Qed.

(** One step of [down]: the hole moves to the smallest child, and its new
    parent is in order with it. *)
Lemma hole_down_step n es i j :
  Forall P es -> n <= length es -> 0 < j < n -> parent j = i ->
  hole n es i -> rel es j i ->
  (forall k, 0 < k < n -> parent k = i -> rel es j k) ->
  hole n (lswap es i j) j /\ rel (lswap es i j) (parent j) j /\
  (0 < i -> rel (lswap es i j) (parent i) i).
Proof.
  intros HP Hn Hj Hp [H1 H2] Hji Hmin.
  pose proof (parent_bounds j ltac:(lia)). split; [split|split].
  - intros k Hk Hkj Hpk. pose proof (parent_bounds k ltac:(lia)).
    rewrite rel_lswap by lia.
    destruct (decide (k = i)) as [->|Hki].
    + rewrite swp_l, swp_ne by lia. apply H2; [lia|done|lia].
    + rewrite (swp_ne i j k) by done.
      destruct (decide (parent k = i)) as [E|].
      * rewrite E, swp_l. by apply Hmin.
      * rewrite swp_ne by done. by apply H1.
  - intros c Hc Hcj _. pose proof (parent_bounds c ltac:(lia)).
    rewrite Hp, rel_lswap, swp_l, swp_ne by lia.
    rewrite <- Hcj. apply H1; lia.
  - by rewrite Hp, rel_lswap, swp_l, swp_r by lia.
  - intros Hi. pose proof (parent_bounds i Hi).
    rewrite rel_lswap, swp_l, swp_ne by lia. apply H2; [lia|done|lia].
Qed.

(** The root is not above any other entry. *)
Lemma is_heap_root es k :
  Forall P es -> is_heap (length es) es -> k < length es -> rel es 0 k.
Proof.
  intros HP Hh. induction (lt_wf k) as [k _ IH]. intros Hk.
  destruct (decide (k = 0)) as [->|].
  - intros x y Hx Hy. simplify_eq. unfold le.
    destruct (less x x) eqn:E; [|done].
    rewrite Forall_lookup in HP. pose proof (le_asym x x) as Ha.
    rewrite <- E. unfold le in Ha. rewrite Ha; eauto.
  - pose proof (parent_bounds k ltac:(lia)).
    apply (rel_trans es _ (parent k)); [done|lia|apply IH; lia|].
    apply Hh. lia.
Qed.
End order.

(** ** Correctness of the algorithms *)

Section correctness.
Context {H A : Type} {Ho : HeapOps H A} (less : A -> A -> bool)
        {Hl : HeapLaws H A less}.
Variable P : A -> Prop.
Hypothesis Hasym : forall a b, P a -> P b -> less a b = true -> le less a b.
Hypothesis Htrans : forall a b c, P a -> P b -> P c ->
  le less a b -> le less b c -> le less a c.

Local Abbreviation ents h := (hEntries (H := H) (A := A) h).
Local Abbreviation heap n h := (is_heap less n (ents h)).

(** [h'] is [h] with its first [n] entries reordered. *)
Definition reordered (n : nat) (h h' : H) : Prop :=
  hInv h' /\ ents h' ≡ₚ ents h /\ (forall k, n <= k -> ents h' !! k = ents h !! k).

Lemma reordered_refl n h : hInv h -> reordered n h h.
Proof. by repeat split. Qed.

Lemma reordered_trans n h1 h2 h3 :
  reordered n h1 h2 -> reordered n h2 h3 -> reordered n h1 h3.
Proof.
  intros (? & E1 & K1) (? & E2 & K2). split; [done|]. split.
  - by rewrite E2.
  - intros k Hk. by rewrite K2, K1.
Qed.

Lemma reordered_len n h h' : reordered n h h' -> length (ents h') = length (ents h).
Proof. intros (_ & E & _). by rewrite E. Qed.

Lemma reordered_P n h h' : reordered n h h' -> Forall P (ents h) -> Forall P (ents h').
Proof. intros (_ & E & _). by rewrite E. Qed.

Lemma swap_reordered n h i j :
  hInv h -> i < n -> j < n -> n <= length (ents h) ->
  reordered n h (hSwap h i j) /\ ents (hSwap h i j) = lswap (ents h) i j.
Proof.
  intros Hi Hin Hjn Hn.
  destruct (law_swap (less := less) h i j Hi) as [E Hi']; [unfold hLen; lia..|].
  split; [|done]. split; [done|]. rewrite E. split; [apply lswap_Permutation|].
  intros k Hk. rewrite lookup_lswap by lia. by rewrite !decide_False by lia.
Qed.

(** The comparison the code makes, as an order between positions. *)
Lemma hLess_true_rel h i j :
  Forall P (ents h) -> i < length (ents h) -> j < length (ents h) ->
  hLess h i j = true -> rel less (ents h) i j.
Proof.
  intros HP [a Ha]%lookup_lt_is_Some_2 [b Hb]%lookup_lt_is_Some_2 E.
  rewrite (law_less h i j a b Ha Hb) in E. by eapply rel_less.
Qed.

Lemma hLess_false_rel h i j :
  i < length (ents h) -> j < length (ents h) ->
  hLess h i j = false -> rel less (ents h) j i.
Proof.
  intros Hi Hj E x y Hx Hy. unfold le. by rewrite <- (law_less h i j y x).
Qed.

Lemma up_loop_spec fuel h j n :
  j < fuel -> hInv h -> Forall P (ents h) -> n <= length (ents h) -> j < n ->
  hole less n (ents h) j -> children_ok less n (ents h) j ->
  reordered n h (up_loop fuel h j) /\ heap n (up_loop fuel h j).
Proof.
  revert h j. induction fuel as [|fuel IH]; intros h j Hf Hi HP Hn Hj Hh Hc; [lia|].
  simpl. destruct (Nat.eqb_spec (parent j) j) as [E|E]; simpl.
  { split; [by apply reordered_refl|].
    apply hole_is_heap with j; [done|done|].
    intros ?. pose proof (parent_bounds j ltac:(lia)). lia. }
    assert (0 < j) as Hj0.
  { destruct j; [|lia]. by rewrite parent_0 in E. }
    pose proof (parent_bounds j Hj0).
    destruct (hLess h j (parent j)) eqn:El; simpl.
  - apply hLess_true_rel in El; [|done|lia|lia].
    destruct (swap_reordered n h (parent j) j) as [Hr Ee]; [done|lia|lia|lia|].
    destruct (hole_up_step less P Htrans n (ents h) j) as [Hh' Hc'];
      [done|done|lia|done|done|done|].
    rewrite <- Ee in Hh', Hc'.
    destruct (IH (hSwap h (parent j) j) (parent j)) as [Hr2 Hp2]; try lia; try done.
    + apply Hr.
    + by eapply reordered_P.
    + by rewrite (reordered_len _ _ _ Hr).
    + split; [|done]. by eapply reordered_trans.
  - split; [by apply reordered_refl|].
    apply hole_is_heap with j; [done|done|].
    intros _. apply hLess_false_rel; [lia|lia|done].
Qed.

(** The child [down] compares with is the smallest one. *)
Lemma down_child h i n :
  Forall P (ents h) -> n <= length (ents h) -> 2 * i + 1 < n ->
  0 < child h i n < n /\ parent (child h i n) = i /\
  (forall k, 0 < k < n -> parent k = i -> rel less (ents h) (child h i n) k).
Proof.
  unfold child. set (j1 := 2 * i + 1). intros HP Hn Hj1.
  assert (Hpar : forall k, k = j1 \/ k = j1 + 1 -> parent k = i).
  { intros k Hk. pose proof (parent_bounds k ltac:(lia)). lia. }
    assert (Hsame : forall k, rel less (ents h) k k).
  { intros k x y Hx Hy. simplify_eq. unfold le.
    destruct (less x x) eqn:E; [|done]. rewrite Forall_lookup in HP.
    pose proof (Hasym x x) as Ha. unfold le in Ha. rewrite <- E, Ha; eauto. }
    assert (Hkid : forall k, 0 < k < n -> parent k = i -> k = j1 \/ k = j1 + 1).
  { intros k Hk <-. pose proof (parent_bounds k ltac:(lia)). lia. }
    destruct (Nat.ltb_spec (j1 + 1) n) as [Hlt|Hge]; simpl.
  - destruct (hLess h (j1 + 1) j1) eqn:El;
      (split; [lia|split; [apply Hpar; lia|]]);
      intros k Hk [->| ->]%Hkid; try done.
    + apply hLess_true_rel; [done|lia|lia|done].
    + apply hLess_false_rel; [lia|lia|done].
  - split; [lia|]. split; [apply Hpar; lia|].
    intros k Hk [->| ->]%Hkid; [done|lia|done].
Qed.

Lemma down_loop_spec fuel h i n :
  n - i < fuel -> hInv h -> Forall P (ents h) -> n <= length (ents h) -> i < n ->
  hole less n (ents h) i ->
  let '(h', i') := down_loop fuel h i n in
  reordered n h h' /\ i <= i' /\
  (i' = i -> h' = h /\ children_ok less n (ents h) i) /\
  (i < i' \/ (0 < i -> rel less (ents h) (parent i) i) -> heap n h').
Proof.
  revert h i. induction fuel as [|fuel IH]; intros h i Hf Hi HP Hn Hin Hh; [lia|].
  rewrite down_loop_S. destruct (Nat.leb_spec n (2 * i + 1)) as [Hge|Hlt].
  { assert (Hk : children_ok less n (ents h) i).
    { intros c Hc <-. pose proof (parent_bounds c ltac:(lia)). lia. }
      split; [by apply reordered_refl|]. split; [lia|]. split; [done|].
      intros [?|Hp]; [lia|]. apply hole_is_heap with i; try done.
      intros ?. apply Hp. lia. }
  destruct (down_child h i n HP Hn Hlt) as (Hj & Hpj & Hmin).
  revert Hj Hpj Hmin. generalize (child h i n) as j.
  intros j Hj Hpj Hmin. pose proof (parent_bounds j ltac:(lia)).
  destruct (hLess h j i) eqn:El; cbn [negb].
  - apply hLess_true_rel in El; [|done|lia|lia].
    destruct (swap_reordered n h i j) as [Hr Ee]; [done|lia|lia|lia|].
    destruct (hole_down_step less P n (ents h) i j) as (Hh' & Hp1 & Hp2);
      [done|lia|done|done|done|done|done|].
    rewrite <- Ee in Hh', Hp1, Hp2.
    specialize (IH (hSwap h i j) j).
    destruct (down_loop fuel (hSwap h i j) j n) as [h' i'] eqn:Ed.
    cbv beta iota in IH.
    destruct IH as (Hr2 & Hle & _ & Hheap); try lia; try done.
    + apply Hr.
    + by eapply reordered_P.
    + by rewrite (reordered_len _ _ _ Hr).
    + split; [by eapply reordered_trans|]. split; [lia|]. split; [lia|].
      intros _. apply Hheap. by right.
  - assert (Hk : children_ok less n (ents h) i).
    { intros c Hc Hci. apply (rel_trans less P Htrans _ _ j); [done|lia| |by apply Hmin].
      apply hLess_false_rel; [lia|lia|done]. }
      split; [by apply reordered_refl|]. split; [lia|]. split; [done|].
      intros [?|Hp]; [lia|]. apply hole_is_heap with i; try done.
      intros ?. apply Hp. lia.
Qed.

(** A valid heap over elements that satisfy [P]. *)
Definition heap_ok (h : H) : Prop :=
  hInv h /\ Forall P (ents h) /\ heap (length (ents h)) h.

(** What is left after the final [h.Pop()] of an algorithm. *)
Lemma finish_pop h n x :
  hInv h -> length (ents h) = S n -> ents h !! n = Some x ->
  Forall P (ents h) -> heap n h ->
  exists h', hPop h = (Some x, h') /\ heap_ok h' /\ ents h ≡ₚ x :: ents h'.
Proof.
  intros Hi Hn Hx HP Hh.
  assert (E : ents h = take n (ents h) ++ [x]).
  { rewrite <- (take_S_r _ _ _ Hx). rewrite take_ge; [done|lia]. }
    destruct (law_pop (less := less) h (take n (ents h)) x Hi E) as (h' & Hp & Ee & Hi').
    exists h'. split; [done|].
    assert (Hpm : ents h ≡ₚ x :: ents h').
  { rewrite Ee. rewrite E at 1. by rewrite Permutation_app_comm. }
    split; [|done]. split; [done|]. split.
  - rewrite Hpm in HP. by apply Forall_cons in HP as [_ ?].
  - rewrite Ee, length_take, Nat.min_l by lia.
    intros k Hk a b Ha Hb. pose proof (parent_bounds k ltac:(lia)).
    apply (Hh k Hk); [|]; rewrite E; rewrite lookup_app_l; try done;
      rewrite length_take; lia.
Qed.

Lemma hole_after_swap h i n :
  Forall P (ents h) -> heap (length (ents h)) h ->
  n = length (ents h) - 1 -> i < n ->
  hole less n (lswap (ents h) i n) i.
Proof.
  intros HP Hh -> Hi. set (n := length (ents h) - 1) in *. split.
  - intros k Hk Hki Hpk. pose proof (parent_bounds k ltac:(lia)).
    rewrite rel_lswap, !swp_ne by lia. apply Hh. lia.
  - intros c Hc Hci Hi0. pose proof (parent_bounds c ltac:(lia)).
    pose proof (parent_bounds i Hi0).
    rewrite rel_lswap, !swp_ne by lia.
    destruct (is_heap_hole less P Htrans _ (ents h) i Hh) as [_ H2];
      [lia|done|]. apply H2; [lia|done|done].
Qed.

(** [heap.Push] keeps the order and adds exactly the new element. *)
Theorem Push_correct h x :
  heap_ok h -> P x -> hFresh h x ->
  heap_ok (Push h x) /\ ents (Push h x) ≡ₚ x :: ents h.
Proof.
  intros (Hi & HP & Hh) Hx Hf. destruct (law_push h x Hi Hf) as [E Hi'].
  unfold Push, hLen. rewrite E.
  assert (HP' : Forall P (ents (hPush h x))).
  { rewrite E. apply Forall_app. by repeat constructor. }
    pose proof (length_app (ents h) [x]) as Hlen. simpl in Hlen.
    rewrite Hlen. replace (length (ents h) + 1 - 1) with (length (ents h)) by lia.
    destruct (up_loop_spec (S (length (ents h))) (hPush h x) (length (ents h))
              (S (length (ents h)))) as [Hr Hp]; try done; try lia.
  - rewrite E, Hlen. lia.
  - rewrite E. split.
    + intros k Hk Hkj Hpk a b. pose proof (parent_bounds k ltac:(lia)).
      rewrite !lookup_app_l by lia. apply Hh. lia.
    + intros c Hc Hpc. pose proof (parent_bounds c ltac:(lia)). lia.
  - intros c Hc Hpc. pose proof (parent_bounds c ltac:(lia)). lia.
  - unfold up. destruct Hr as (Hri & Hrp & Hrk). split.
    + split; [done|]. split; [by rewrite Hrp|].
      rewrite (Permutation_length Hrp), E, Hlen. by replace (length (ents h) + 1)
        with (S (length (ents h))) by lia.
    + rewrite Hrp, E. by rewrite Permutation_app_comm.
Qed.

(** An element that is not below any other stays in the last position. *)
Lemma Push_last h x :
  hInv h -> hFresh h x -> Forall (fun e => less x e = false) (ents h) ->
  ents (Push h x) = ents h ++ [x].
Proof.
  intros Hi Hf Hall. destruct (law_push h x Hi Hf) as [E Hi'].
  unfold Push, hLen, up. rewrite E, length_app. simpl length.
  replace (length (ents h) + 1 - 1) with (length (ents h)) by lia.
  cbn [up_loop]. set (n := length (ents h)).
  destruct (parent n =? n) eqn:En; [done|]. simpl.
  assert (Hn : 0 < n) by (apply Nat.eqb_neq in En; destruct n; [done|lia]).
  pose proof (parent_bounds n Hn).
  destruct (lookup_lt_is_Some_2 (ents h) (parent n)) as [a Ha]; [lia|].
  rewrite (law_less (hPush h x) n (parent n) x a).
  - rewrite Forall_lookup in Hall. by rewrite (Hall _ _ Ha).
  - rewrite E. by rewrite list_lookup_middle.
  - rewrite E, lookup_app_l by lia. done.
Qed.

(** [heap.Pop] removes the root, which is not above any element. *)
Theorem Pop_correct h x :
  heap_ok h -> ents h !! 0 = Some x ->
  exists h', Pop h = Some (Some x, h') /\ heap_ok h' /\
    ents h ≡ₚ x :: ents h' /\ Forall (le less x) (ents h').
Proof.
  intros (Hi & HP & Hh) Hx. apply lookup_lt_Some in Hx as Hlen.
  assert (Hroot : Forall (le less x) (ents h)).
  { apply Forall_lookup. intros k y Hy. apply lookup_lt_Some in Hy as Hk.
    eapply (is_heap_root less P Hasym Htrans (ents h) k); eauto. }
    unfold Pop, hLen. destruct (Nat.eqb_spec (length (ents h)) 0) as [|_]; [lia|].
    set (n := length (ents h) - 1).
    destruct (law_swap (less := less) h 0 n Hi) as [Es Hi1]; [unfold hLen; lia..|].
    assert (Hdown : exists h2 m, down (hSwap h 0 n) 0 n = (h2, m) /\
    reordered n (hSwap h 0 n) h2 /\ heap n h2).
  { assert (HP1 : Forall P (ents (hSwap h 0 n))) by (by rewrite Es, lswap_Permutation).
    unfold down. destruct (decide (n = 0)) as [E0|].
    - rewrite E0 in Hi1 |- *. eexists _, _. split; [reflexivity|].
      split; [by apply reordered_refl|]. intros k Hk. lia.
    - pose proof (down_loop_spec (S n) (hSwap h 0 n) 0 n) as Hd.
      destruct (down_loop (S n) (hSwap h 0 n) 0 n) as [h2 i2].
      destruct Hd as (Hr & _ & _ & Hp); try lia; try done.
      + rewrite Es, length_lswap. lia.
      + rewrite Es. apply hole_after_swap; [done|done|done|lia].
      + eexists _, _. split; [done|]. split; [done|]. apply Hp. right. lia. }
  destruct Hdown as (h2 & m & -> & (Hi2 & Hp2 & Hk2) & Hh2).
  destruct (finish_pop h2 n x) as (h' & Hpop & Hok & Hpm); try done.
  - rewrite Hp2, Es, length_lswap. lia.
  - rewrite Hk2, Es, lookup_lswap by lia. repeat case_decide; try done.
    by replace n with 0.
  - by rewrite Hp2, Es, lswap_Permutation.
  - exists h'. rewrite Hpop. split; [done|]. split; [done|].
    assert (Hpm' : ents h ≡ₚ x :: ents h').
    { rewrite <- Hpm, Hp2, Es. by rewrite lswap_Permutation. }
      split; [done|]. rewrite Hpm' in Hroot. by apply Forall_cons in Hroot as [_ ?].
Qed.

(** [heap.Remove] removes exactly the element at the given position. *)
Theorem Remove_correct h i x :
  heap_ok h -> ents h !! i = Some x ->
  exists h', Remove h i = Some (Some x, h') /\ heap_ok h' /\
    ents h ≡ₚ x :: ents h'.
Proof.
  intros (Hi & HP & Hh) Hx. apply lookup_lt_Some in Hx as Hlen.
  unfold Remove, hLen. destruct (Nat.leb_spec (length (ents h)) i); [lia|].
  set (n := length (ents h) - 1).
  destruct (Nat.eqb_spec n i) as [Ei|Hne].
  { destruct (finish_pop h n x) as (h' & Hpop & Hok & Hpm); try done; try lia.
    - by rewrite Ei.
    - intros k Hk. apply Hh. lia.
    - exists h'. by rewrite Hpop. }
  destruct (law_swap (less := less) h i n Hi) as [Es Hi1]; [unfold hLen; lia..|].
  assert (HP1 : Forall P (ents (hSwap h i n))) by (by rewrite Es, lswap_Permutation).
  assert (Hl1 : length (ents (hSwap h i n)) = S n)
    by (rewrite Es, length_lswap; lia).
  assert (Hhole : hole less n (ents (hSwap h i n)) i).
  { rewrite Es. apply hole_after_swap; [done|done|done|lia]. }
    assert (Hdu : exists h3, (let '(h2, m) := down (hSwap h i n) i n in
      if m then h2 else up h2 i) = h3 /\
    reordered n (hSwap h i n) h3 /\ heap n h3).
  { unfold down.
    pose proof (down_loop_spec (S n) (hSwap h i n) i n) as Hd.
    destruct (down_loop (S n) (hSwap h i n) i n) as [h2 i2].
    destruct Hd as (Hr & Hle & Hst & Hp); try lia; try done.
    destruct (Nat.ltb_spec i i2) as [Hlt|Hge].
    - eexists. split; [done|]. split; [done|]. apply Hp. by left.
    - destruct Hst as [-> Hc]; [lia|]. eexists. split; [done|].
      unfold up. apply up_loop_spec; try done; lia. }
  destruct (down (hSwap h i n) i n) as [h2 m].
  destruct Hdu as (h3 & -> & (Hi3 & Hp3 & Hk3) & Hh3).
  destruct (finish_pop h3 n x) as (h' & Hpop & Hok & Hpm); try done.
  - by rewrite Hp3.
  - rewrite Hk3, Es, lookup_lswap by lia. by repeat case_decide.
  - by rewrite Hp3.
  - exists h'. rewrite Hpop. split; [done|]. split; [done|].
    rewrite <- Hpm, Hp3, Es. by rewrite lswap_Permutation.
Qed.

(** Without any assumption on the order, [heap.Pop] still returns the root. *)
Lemma down_loop_reordered fuel h i n :
  hInv h -> n <= length (ents h) -> i < n ->
  reordered n h (fst (down_loop fuel h i n)).
Proof.
  revert h i. induction fuel as [|fuel IH]; intros h i Hi Hn Hin.
  { by apply reordered_refl. }
    rewrite down_loop_S. destruct (Nat.leb_spec n (2 * i + 1)) as [|Hlt];
    [by apply reordered_refl|].
    assert (Hj : child h i n < n).
  { unfold child. destruct (Nat.ltb_spec (2 * i + 1 + 1) n); simpl; [|done].
    by destruct (hLess h _ _). }
    destruct (hLess h (child h i n) i); cbn [negb]; [|by apply reordered_refl].
    destruct (swap_reordered n h i (child h i n)) as [Hr _]; try done.
    eapply reordered_trans; [exact Hr|]. apply IH; [apply Hr| |done].
    by rewrite (reordered_len _ _ _ Hr).
Qed.

Lemma Pop_root h x :
  hInv h -> ents h !! 0 = Some x ->
  exists h', Pop h = Some (Some x, h') /\ hInv h' /\ ents h ≡ₚ x :: ents h'.
Proof.
  intros Hi Hx. apply lookup_lt_Some in Hx as Hlen.
  unfold Pop, hLen. destruct (Nat.eqb_spec (length (ents h)) 0) as [|_]; [lia|].
  set (n := length (ents h) - 1).
  destruct (law_swap (less := less) h 0 n Hi) as [Es Hi1]; [unfold hLen; lia..|].
  assert (Hr : reordered n (hSwap h 0 n) (fst (down_loop (S n) (hSwap h 0 n) 0 n))).
  { destruct (decide (n = 0)) as [E0|].
  - rewrite E0 in Hi1 |- *. by apply reordered_refl.
  - apply down_loop_reordered; [done| |lia]. rewrite Es, length_lswap. lia. }
    unfold down. destruct (down_loop (S n) (hSwap h 0 n) 0 n) as [h2 m]. cbn [fst] in Hr.
    destruct Hr as (Hi2 & Hp2 & Hk2).
    assert (Hlast : ents h2 !! n = Some x).
  { rewrite Hk2, Es, lookup_lswap by lia. repeat case_decide; try done.
    by replace n with 0. }
    assert (E : ents h2 = take n (ents h2) ++ [x]).
  { rewrite <- (take_S_r _ _ _ Hlast). rewrite take_ge; [done|].
    rewrite Hp2, Es, length_lswap. lia. }
    destruct (law_pop (less := less) h2 (take n (ents h2)) x Hi2 E) as (h' & Hp & Ee & Hi').
    exists h'. rewrite Hp. split; [done|]. split; [done|].
    rewrite Ee, Permutation_cons_append, <- E, Hp2, Es. by rewrite lswap_Permutation.
Qed.
(** Nor does [heap.Push] lose an element without an order. *)
Lemma up_loop_reordered fuel h j n :
  hInv h -> n <= length (ents h) -> j < n -> reordered n h (up_loop fuel h j).
Proof.
  revert h j. induction fuel as [|fuel IH]; intros h j Hi Hn Hj; cbn [up_loop].
  { by apply reordered_refl. }
    destruct ((parent j =? j) || negb (hLess h j (parent j))); [by apply reordered_refl|].
    assert (Hp : parent j <= j).
  { destruct j as [|j]; [done|]. pose proof (parent_bounds (S j) ltac:(lia)). lia. }
    destruct (swap_reordered n h (parent j) j) as [Hr _]; [done|lia|lia|done|].
    eapply reordered_trans; [exact Hr|]. apply IH; [apply Hr| |lia].
    by rewrite (reordered_len _ _ _ Hr).
Qed.

Lemma Push_elements h x :
  hInv h -> hFresh h x -> hInv (Push h x) /\ ents (Push h x) ≡ₚ x :: ents h.
Proof.
  intros Hi Hf. destruct (law_push h x Hi Hf) as [E Hi'].
  unfold Push, hLen, up. rewrite E, length_app. cbn [length].
  destruct (up_loop_reordered (S (length (ents h) + 1 - 1)) (hPush h x)
            (length (ents h) + 1 - 1) (length (ents h) + 1)) as (Hi2 & Hp & _);
  [done|rewrite E, length_app; simpl; lia|lia|].
  split; [done|]. by rewrite Hp, E, Permutation_app_comm.
Qed.

(** An element below every other is pushed to the root. *)
Lemma up_loop_root fuel h j x :
  j < fuel -> hInv h -> ents h !! j = Some x -> (forall y, less x y = true) ->
  ents (up_loop fuel h j) !! 0 = Some x.
Proof.
  intros Hf Hi Hx Hlow. revert h j Hf Hi Hx.
  induction fuel as [|fuel IH]; intros h j Hf Hi Hx; [lia|].
  apply lookup_lt_Some in Hx as Hlen. cbn [up_loop].
  destruct (Nat.eqb_spec (parent j) j) as [E|E]; cbn [orb].
  { destruct j as [|j]; [done|]. pose proof (parent_bounds (S j) ltac:(lia)). lia. }
    assert (Hp : parent j < j).
  { destruct j as [|j]; [done|]. pose proof (parent_bounds (S j) ltac:(lia)). lia. }
    destruct (lookup_lt_is_Some_2 (ents h) (parent j)) as [y Hy]; [lia|].
    rewrite (law_less h j (parent j) x y Hx Hy), Hlow. cbn [negb].
    destruct (swap_reordered (length (ents h)) h (parent j) j) as [Hr Es]; [done|lia|lia|done|].
    apply IH; [lia|apply Hr|]. rewrite Es, lookup_lswap by lia. by rewrite decide_True.
Qed.

Lemma Push_root h x :
  hInv h -> hFresh h x -> (forall y, less x y = true) -> ents (Push h x) !! 0 = Some x.
Proof.
  intros Hi Hf Hlow. destruct (law_push h x Hi Hf) as [E Hi'].
  unfold Push, hLen, up. rewrite E, length_app. cbn [length].
  apply up_loop_root; [lia|done| |done]. rewrite E, lookup_app_r by lia.
  by replace (length (ents h) + 1 - 1 - length (ents h)) with 0 by lia.
Qed.
End correctness.
