(* ===== verification/Inversible.v ===== *)
(** * Version management by inverse operations: src/crdt/crdt/inversibleCrdt.go

    [genericInversibleCRDT] keeps, for a CRDT, the history of the updates it
    applied with the effect each had, and rebuilds an old version of the CRDT
    by undoing effects and re-applying updates.  A CRDT supplies
    [applyDownstream] (its [reapplyOp] calls it too) and [undoEffect]: the
    class [InversibleOps].  [None] is a panic: a nil effect dereferenced, a
    failed type assertion, or an index out of range. *)

From S2P Require Import Prelude ClockSI.
From Stdlib Require Import ZArith Lia Bool Sorted.
From stdpp Require Import base tactics numbers gmap sorting list.
#[local] Open Scope Z_scope.

Class InversibleOps (St Op Eff : Type) := {
  applyDownstream : St -> Op -> option (St * option Eff);
  undoEffect : St -> option Eff -> option St
}.

(** What a CRDT promises to the version management: on the operations that can
    reach it in a state ([op_valid]), undoing the recorded effect restores the
    state. *)
Class InversibleLaws (St Op Eff : Type) `{InversibleOps St Op Eff} := {
  op_valid : St -> Op -> Prop;
  undo_apply s op s' eff :
    op_valid s op -> applyDownstream s op = Some (s', eff) ->
    undoEffect s' eff = Some s
}.

Section history.
Context {St Op Eff : Type} `{InversibleOps St Op Eff}.

Record History := mkHistory {
  h_ts : vclock;
  h_updsArgs : list Op;
  h_effects : list (option Eff)
}.

(** The parameter [disabled] is [shared.IsVMDisabled]. *)
Definition addToHistory (disabled : bool) (history : list History)
    (ts : vclock) (updArgs : Op) (effect : option Eff) : list History :=
  if disabled then history
  else
    match last history with
    | Some hist =>
        if IsEqual (h_ts hist) (Some ts)
        then <[(length history - 1)%nat :=
                 mkHistory (h_ts hist) (h_updsArgs hist ++ [updArgs])
                   (h_effects hist ++ [effect])]> history
        else history ++ [mkHistory ts [updArgs] [effect]]
    | None => history ++ [mkHistory ts [updArgs] [effect]]
    end.

(** Copies the history; dereferencing a nil effect panics. *)
Fixpoint copy_effects (effects : list (option Eff)) : option (list (option Eff)) :=
  match effects with
  | [] => Some []
  | None :: _ => None
  | Some eff :: rest =>
      match copy_effects rest with
      | Some rest => Some (Some eff :: rest)
      | None => None
      end
  end.

Fixpoint copy_history (history : list History) : option (list History) :=
  match history with
  | [] => Some []
  | hist :: rest =>
      match copy_effects (h_effects hist), copy_history rest with
      | Some effects, Some rest =>
          Some (mkHistory (h_ts hist) (h_updsArgs hist) effects :: rest)
      | _, _ => None
      end
  end.

Definition copy (disabled : bool) (history : list History)
  : option (list History) :=
  if disabled then Some history else copy_history history.

(** Effects of one entry are undone in the order they were recorded. *)
Fixpoint undo_effects (s : St) (effects : list (option Eff)) : option St :=
  match effects with
  | [] => Some s
  | effect :: rest =>
      match undoEffect s effect with
      | Some s => undo_effects s rest
      | None => None
      end
  end.

(** First loop of [rebuildCRDTToVersion].  The loop variable is [k = i + 1],
    the position the code keeps after its [i++]. *)
Fixpoint undo_loop (k : nat) (history : list History) (currTs targetTs : vclock)
    (s : St) : option (St * nat * vclock) :=
  match k with
  | O => Some (s, O, currTs)
  | S i =>
      if IsLowerOrEqual currTs (Some targetTs) then Some (s, S i, currTs)
      else
        match history !! i with
        | None => None
        | Some hist =>
            match undo_effects s (h_effects hist) with
            | None => None
            | Some s =>
                let currTs :=
                  match i with
                  | O => currTs
                  | S i' => match history !! i' with
                            | Some prev => h_ts prev
                            | None => currTs
                            end
                  end in
                undo_loop i history currTs targetTs s
            end
        end
  end.

Fixpoint reapply_ops (s : St) (updsArgs : list Op) : option (St * list (option Eff)) :=
  match updsArgs with
  | [] => Some (s, [])
  | updArgs :: rest =>
      match applyDownstream s updArgs with
      | None => None
      | Some (s, eff) =>
          match reapply_ops s rest with
          | None => None
          | Some (s, effs) => Some (s, eff :: effs)
          end
      end
  end.

(** Second loop: [for ; !canStop; i++].  Each iteration moves [i] forward or
    shortens the history, so [S (length history)] iterations are enough;
    [history[i]] past the end panics. *)
Fixpoint redo_loop (fuel : nat) (history : list History) (i : nat)
    (targetTs : vclock) (s : St) : option (St * list History * nat) :=
  match fuel with
  | O => None
  | S fuel =>
      match history !! i with
      | None => None
      | Some hist =>
          match Compare (h_ts hist) (Some targetTs) with
          | HigherTs => Some (s, history, S i)
          | ConcurrentTs =>
              redo_loop fuel (take i history ++ drop (S i) history) i targetTs s
          | r =>
              match reapply_ops s (h_updsArgs hist) with
              | None => None
              | Some (s, effs) =>
                  let history :=
                    <[i := mkHistory (h_ts hist) (h_updsArgs hist) effs]> history in
                  if TsResult_eqb r EqualTs then Some (s, history, S i)
                  else redo_loop fuel history (S i) targetTs s
              end
          end
      end
  end.

(** [s] is the state of the object the CRDT's functions are bound to.  In the
    program that is the receiver of Initialize (counterCrdt.go:57) and not the
    object whose history this is; file VersionManager has the two apart. *)
Definition rebuildCRDTToVersion (disabled : bool) (s : St)
    (history : list History) (targetTs : vclock) : option (St * list History) :=
  if disabled then Some (s, history)
  else
    match last history with
    | None => Some (s, history)
    | Some hist =>
        match undo_loop (length history) history (h_ts hist) targetTs s with
        | None => None
        | Some (s, i, _) =>
            if (i =? length history)%nat then Some (s, history)
            else
              match redo_loop (S (length history)) history i targetTs s with
              | None => None
              | Some (s, history, i) => Some (s, take i history)
              end
        end
    end.

(** Start index of the history kept: the last entry not above [safeClk]. *)
Fixpoint GC_startIndex (k : nat) (history : list History) (safeClk : vclock) : nat :=
  match k with
  | O => O
  | S i =>
      match history !! i with
      | Some hist =>
          if IsLowerOrEqual (h_ts hist) (Some safeClk) then i
          else GC_startIndex i history safeClk
      | None => O
      end
  end.

Definition GC (history : list History) (safeClk : vclock) : list History :=
  let startIndex := GC_startIndex (length history) history safeClk in
  if (startIndex =? 0)%nat then history else drop startIndex history.
End history.
Arguments History : clear implicits.

(** ** Histories recorded by a CRDT *)

Section rebuild.
Context {St Op Eff : Type} `{HI : InversibleOps St Op Eff}.
Local Abbreviation History := (History Op Eff).

(** [recorded s0 history s]: from [s0], the updates of [history] lead to [s],
    each entry recorded the effects its updates had, and undoing them
    restores the state before the entry. *)
Inductive recorded : St -> list History -> St -> Prop :=
| recorded_nil s : recorded s [] s
| recorded_snoc s0 history s ts ops effs s' :
    recorded s0 history s ->
    reapply_ops s ops = Some (s', effs) ->
    undo_effects s' effs = Some s ->
    recorded s0 (history ++ [mkHistory ts ops effs]) s'.

(** The clocks of a history increase and are pairwise comparable with the
    version asked for. *)
Definition clock_before (a b : History) : Prop :=
  IsLower (h_ts a) (Some (h_ts b)) = true.

Definition comparable_to (targetTs : vclock) (h : History) : Prop :=
  same_dom (h_ts h) targetTs /\
  Compare (h_ts h) (Some targetTs) <> ConcurrentTs.

(** The entries of a version: those not above the target. *)
Definition in_version (targetTs : vclock) (h : History) : bool :=
  IsLowerOrEqual (h_ts h) (Some targetTs).

Definition replay (s0 : St) (history : list History) : option St :=
  fst <$> reapply_ops s0 (mjoin (h_updsArgs <$> history)).

Lemma reapply_ops_app s l1 l2 :
  reapply_ops s (l1 ++ l2) =
    match reapply_ops s l1 with
    | None => None
    | Some (s1, e1) =>
        match reapply_ops s1 l2 with
        | None => None
        | Some (s2, e2) => Some (s2, e1 ++ e2)
        end
    end.
Proof.
  revert s. induction l1 as [|op l1 IH]; intros s; simpl.
  - destruct (reapply_ops s l2) as [[]|]; done.
  - destruct (applyDownstream s op) as [[s1 e]|]; [|done]. rewrite IH.
    destruct (reapply_ops s1 l1) as [[s2 e2]|]; [|done].
    by destruct (reapply_ops s2 l2) as [[]|].
Qed.

Lemma recorded_replay s0 history s : recorded s0 history s -> replay s0 history = Some s.
Proof.
  unfold replay. induction 1 as [s|s0 history s ts ops effs s' _ IH Hr _]; [done|].
  rewrite fmap_app, join_app. simpl. rewrite app_nil_r, reapply_ops_app.
  destruct (reapply_ops s0 (mjoin (h_updsArgs <$> history))) as [[s1 e1]|];
    simpl in *; simplify_eq. by rewrite Hr.
Qed.

Lemma recorded_snoc_inv s0 history e s' :
  recorded s0 (history ++ [e]) s' ->
  exists s, recorded s0 history s /\
    reapply_ops s (h_updsArgs e) = Some (s', h_effects e) /\
    undo_effects s' (h_effects e) = Some s.
Proof.
  inversion 1 as [s Heq|? history' s ts ops effs ? Hr Ha Hu Heq]; subst.
  - symmetry in H0. by apply app_nil in H0 as [_ ?].
  - apply app_inj_tail in H0 as [-> <-]. by exists s.
Qed.

Lemma recorded_prefix s0 l1 l2 s :
  recorded s0 (l1 ++ l2) s -> exists s1, recorded s0 l1 s1.
Proof.
  revert s. induction l2 as [|e l2 IH] using rev_ind; intros s Hr.
  - rewrite app_nil_r in Hr. by exists s.
  - rewrite app_assoc in Hr. apply recorded_snoc_inv in Hr as (s' & Hr & _).
    by eapply IH.
Qed.

Definition currTs_of (l : list History) (d : vclock) : vclock :=
  match last l with Some h => h_ts h | None => d end.

(** The first loop undoes exactly the entries above the target. *)
Lemma undo_loop_spec s0 l1 l2 l3 s targetTs d :
  recorded s0 (l1 ++ l2) s ->
  Forall (fun h => in_version targetTs h = true) l1 ->
  Forall (fun h => in_version targetTs h = false) l2 ->
  exists s1 currTs,
    undo_loop (length (l1 ++ l2)) (l1 ++ l2 ++ l3) (currTs_of (l1 ++ l2) d)
      targetTs s = Some (s1, length l1, currTs) /\ recorded s0 l1 s1.
Proof.
  intros Hr H1 H2. revert l3 s d Hr.
  induction l2 as [|e l2 IH] using rev_ind; intros l3 s d Hr.
  - rewrite app_nil_r in *. exists s. unfold currTs_of.
    destruct (last l1) as [h|] eqn:El.
    + apply last_Some in El as [l' ->]. apply Forall_app in H1 as [_ Hh].
      inversion Hh as [|?? Hin]; subst. eexists. split; [|done].
      rewrite length_app, Nat.add_comm. cbn [length Nat.add]. unfold in_version in Hin.
      cbn [undo_loop]; rewrite Hin. done.
    + apply last_None in El as ->. by eexists.
  - apply Forall_app in H2 as [H2 He]. inversion He as [|?? Hin]; subst.
    rewrite app_assoc in *. apply recorded_snoc_inv in Hr as (s' & Hr & Ha & Hu).
    specialize (IH H2 ([e] ++ l3) s' (h_ts e) Hr).
    destruct IH as (s1 & c & IH & Hr1). exists s1, c. split; [|done].
    unfold currTs_of. rewrite last_snoc, length_app, Nat.add_comm.
    rewrite <- !app_assoc. cbn [length Nat.add undo_loop].
    unfold in_version in Hin. rewrite Hin.
    rewrite (app_assoc l1 l2 ([e] ++ l3)).
    rewrite (list_lookup_middle (l1 ++ l2) l3 e) by done. rewrite Hu.
    rewrite <- IH. rewrite <- !app_assoc. f_equal.
    unfold currTs_of. rewrite last_lookup.
    destruct (length (l1 ++ l2)) as [|n] eqn:En; [by rewrite (nil_length_inv _ En)|].
    simpl. rewrite app_assoc, lookup_app_l by lia. by case_match.
Qed.

Lemma sorted_in_version targetTs l1 e l2 :
  StronglySorted clock_before (l1 ++ e :: l2) ->
  Forall (comparable_to targetTs) (l1 ++ e :: l2) ->
  in_version targetTs e = true ->
  Forall (fun h => in_version targetTs h = true) l1.
Proof.
  intros Hs Hc He. apply Forall_forall. intros h Hh.
  rewrite Forall_forall in Hc.
  assert (In1 : h ∈ l1 ++ e :: l2) by set_solver.
  assert (In2 : e ∈ l1 ++ e :: l2) by set_solver.
  destruct (Hc h In1) as [Hd1 _]. destruct (Hc e In2) as [Hd2 _].
  assert (Hb : clock_before h e).
  { clear -Hs Hh. induction l1 as [|x l1 IH]; simpl in *; [set_solver|].
    apply StronglySorted_inv in Hs as [Hs Hx].
    apply elem_of_cons in Hh as [->|Hh]; [|by apply IH].
    rewrite Forall_forall in Hx. apply Hx. set_solver. }
  unfold clock_before, in_version in *.
  assert (Hd : same_dom (h_ts h) (h_ts e)) by (unfold same_dom in *; congruence).
  rewrite IsLower_vle in Hb by done. rewrite IsLowerOrEqual_vle in He |- * by done.
  destruct Hb. eauto with potion.
Qed.

(** A version is a prefix of the history. *)
Lemma version_split targetTs l :
  StronglySorted clock_before l -> Forall (comparable_to targetTs) l ->
  exists l1 l2, l = l1 ++ l2 /\
    Forall (fun h => in_version targetTs h = true) l1 /\
    Forall (fun h => in_version targetTs h = false) l2.
Proof.
  intros Hs Hc. induction l as [|e l IH] using rev_ind.
  - by exists [], [].
  - destruct (in_version targetTs e) eqn:He.
    + exists (l ++ [e]), []. rewrite app_nil_r. split; [done|].
      split; [|constructor]. apply Forall_app. split; [|by repeat constructor].
      by eapply sorted_in_version.
    + apply Forall_app in Hc as [Hc _].
      assert (Hs' : StronglySorted clock_before l).
      { clear -Hs. induction l as [|x l IH]; [constructor|].
        simpl in Hs. apply StronglySorted_inv in Hs as [Hs Hx].
        apply Forall_app in Hx as [Hx _]. constructor; auto. }
      destruct (IH Hs' Hc) as (l1 & l2 & -> & H1 & H2).
      exists l1, (l2 ++ [e]). rewrite app_assoc. split; [done|].
      split; [done|]. apply Forall_app. by repeat constructor.
Qed.

Lemma filter_split targetTs l1 l2 :
  Forall (fun h => in_version targetTs h = true) l1 ->
  Forall (fun h => in_version targetTs h = false) l2 ->
  List.filter (in_version targetTs) (l1 ++ l2) = l1.
Proof.
  intros H1 H2. rewrite List.filter_app.
  assert (List.filter (in_version targetTs) l1 = l1) as ->.
  { induction H1 as [|h l1 Hh _ IH]; simpl; [done|]. by rewrite Hh, IH. }
  assert (List.filter (in_version targetTs) l2 = []) as ->.
  { induction H2 as [|h l2 Hh _ IH]; simpl; [done|]. by rewrite Hh, IH. }
  by rewrite app_nil_r.
Qed.

Lemma above_version targetTs e :
  comparable_to targetTs e -> in_version targetTs e = false ->
  Compare (h_ts e) (Some targetTs) = HigherTs.
Proof.
  unfold comparable_to, in_version. intros [_ Hc].
  rewrite Compare_bools in *. rewrite IsLowerOrEqual_bools.
  by destruct (lt_in (h_ts e) targetTs), (gt_in (h_ts e) targetTs).
Qed.

(** Rebuilding gives the state that replays the entries of the version, and
    the history it leaves is the version followed by the first entry above
    it. *)
Lemma rebuild_spec s0 history s targetTs :
  recorded s0 history s ->
  StronglySorted clock_before history ->
  Forall (comparable_to targetTs) history ->
  exists l1 l2 s1,
    history = l1 ++ l2 /\
    l1 = List.filter (in_version targetTs) history /\
    recorded s0 l1 s1 /\
    rebuildCRDTToVersion false s history targetTs = Some (s1, l1 ++ take 1 l2).
Proof.
  intros Hr Hs Hc.
  destruct (version_split targetTs history Hs Hc) as (l1 & l2 & -> & H1 & H2).
  destruct (undo_loop_spec s0 l1 l2 [] s targetTs ∅ Hr H1 H2)
    as (s1 & c & Hu & Hr1).
  exists l1, l2, s1. split; [done|]. split; [by rewrite filter_split|].
  split; [done|]. unfold rebuildCRDTToVersion.
  destruct (last (l1 ++ l2)) as [h|] eqn:El.
  - unfold currTs_of in Hu. rewrite El, app_nil_r in Hu. rewrite Hu.
    rewrite length_app. destruct l2 as [|e l2].
    { simpl. by rewrite Nat.add_0_r, Nat.eqb_refl, !app_nil_r. }
    cbn [length take redo_loop].
    destruct (Nat.eqb_spec (length l1) (length l1 + S (length l2))); [lia|].
    rewrite list_lookup_middle by done. rewrite above_version.
    + f_equal. f_equal. replace (S (length l1)) with (length (l1 ++ [e]))
        by (rewrite length_app; simpl; lia).
      by rewrite (cons_middle e l1 l2), app_assoc, take_app_length.
    + apply Forall_app in Hc as [_ Hc]. by inversion Hc.
    + by inversion H2.
  - apply last_None, app_nil in El as [-> ->]. simpl.
    apply recorded_replay in Hr, Hr1. simpl in *. congruence.
Qed.

Lemma recorded_split s0 l1 l2 s :
  recorded s0 (l1 ++ l2) s ->
  exists s1, recorded s0 l1 s1 /\ recorded s1 l2 s.
Proof.
  revert s. induction l2 as [|e l2 IH] using rev_ind; intros s Hr.
  - rewrite app_nil_r in Hr. exists s. split; [done|constructor].
  - rewrite app_assoc in Hr. apply recorded_snoc_inv in Hr as (s' & Hr & Ha & Hu).
    destruct (IH s' Hr) as (s1 & H1 & H2). exists s1. split; [done|].
    destruct e as [ts ops effs]. by eapply recorded_snoc.
Qed.

Lemma recorded_fun s0 l s s' : recorded s0 l s -> recorded s0 l s' -> s = s'.
Proof. intros H1%recorded_replay H2%recorded_replay. congruence. Qed.

Lemma StronglySorted_app_inv (l1 l2 : list History) :
  StronglySorted clock_before (l1 ++ l2) -> StronglySorted clock_before l2.
Proof.
  induction l1 as [|e l1 IH]; [done|]. intros Hs. simpl in Hs.
  apply StronglySorted_inv in Hs as [Hs _]. by apply IH.
Qed.

Lemma GC_startIndex_spec k (history : list History) safeClk :
  (k <= length history)%nat ->
  GC_startIndex k history safeClk = 0%nat \/
  exists h, history !! GC_startIndex k history safeClk = Some h /\
    IsLowerOrEqual (h_ts h) (Some safeClk) = true.
Proof.
  induction k as [|i IH]; intros Hk; cbn [GC_startIndex]; [by left|].
  destruct (lookup_lt_is_Some_2 history i) as [h Hh]; [lia|]. rewrite Hh.
  destruct (IsLowerOrEqual (h_ts h) (Some safeClk)) eqn:E.
  - right. by exists h.
  - apply IH. lia.
Qed.

(** Garbage collection keeps, of the dropped prefix, nothing any version at
    or above [safeClk] still has to undo. *)
Lemma GC_split (history : list History) safeClk :
  exists d k, history = d ++ k /\ GC history safeClk = k /\
    (d = [] \/ exists h k', k = h :: k' /\
               IsLowerOrEqual (h_ts h) (Some safeClk) = true).
Proof.
  unfold GC. destruct (GC_startIndex_spec (length history) history safeClk)
    as [->|(h & Hh & Hle)]; [done| |].
  - exists [], history. split; [done|]. split; [done|by left].
  - destruct (Nat.eqb_spec (GC_startIndex (length history) history safeClk) 0)
      as [E|E].
    + exists [], history. split; [done|]. split; [done|by left].
    + exists (take (GC_startIndex (length history) history safeClk) history),
             (drop (GC_startIndex (length history) history safeClk) history).
      split; [by rewrite take_drop|]. split; [done|]. right.
      exists h. erewrite drop_S by done. by eexists.
Qed.

Lemma rebuild_after_GC s0 history s safeClk targetTs :
  recorded s0 history s ->
  StronglySorted clock_before history ->
  Forall (comparable_to targetTs) history ->
  IsLowerOrEqual safeClk (Some targetTs) = true -> same_dom safeClk targetTs ->
  fst <$> rebuildCRDTToVersion false s (GC history safeClk) targetTs =
  fst <$> rebuildCRDTToVersion false s history targetTs.
Proof.
  intros Hr Hs Hc Hsafe Hd.
  destruct (rebuild_spec s0 history s targetTs Hr Hs Hc)
    as (l1 & l2 & s1 & E & El1 & Hr1 & ->).
  destruct (GC_split history safeClk) as (d & k & Edk & -> & Hk).
  rewrite Edk in Hr, Hs, Hc.
  destruct (recorded_split s0 d k s Hr) as (sd & Hrd & Hrk).
  apply StronglySorted_app_inv in Hs as Hsk.
  apply Forall_app in Hc as Hck. destruct Hck as [_ Hck].
  destruct (rebuild_spec sd k s targetTs Hrk Hsk Hck)
    as (m1 & m2 & s2 & Ek & Em1 & Hr2 & ->). simpl. f_equal.
  assert (El : l1 = d ++ m1).
  { rewrite El1, Edk, List.filter_app, Em1. f_equal.
    destruct Hk as [->|(h & k' & -> & Hle)]; [done|].
    inversion Hck as [|?? [Hdh _] _]; subst.
    assert (Hv : in_version targetTs h = true).
    { unfold in_version.
      assert (same_dom (h_ts h) safeClk) by (unfold same_dom in *; congruence).
      rewrite IsLowerOrEqual_vle in * by done. eauto with potion. }
    pose proof (sorted_in_version targetTs d h k' Hs Hc Hv) as Hall.
    pose proof (filter_split targetTs d [] Hall ltac:(constructor)) as F.
    by rewrite app_nil_r in F. }
  rewrite El in Hr1. destruct (recorded_split _ _ _ _ Hr1) as (sd' & Hrd' & Hr2').
  rewrite (recorded_fun _ _ _ _ Hrd Hrd') in Hr2.
  by apply (recorded_fun _ _ _ _ Hr2 Hr2').
Qed.

(** The second loop deletes the entries concurrent to the target and reads
    past the end of what is left. *)
Lemma redo_loop_concurrent fuel (l1 l2 : list History) targetTs s :
  Forall (fun h => Compare (h_ts h) (Some targetTs) = ConcurrentTs) l2 ->
  redo_loop fuel (l1 ++ l2) (length l1) targetTs s = None.
Proof.
  intros Hc. revert fuel. induction Hc as [|h l2 Hh _ IH]; intros [|fuel]; try done.
  - cbn [redo_loop]. rewrite app_nil_r.
    by rewrite lookup_ge_None_2 by lia.
  - cbn [redo_loop]. rewrite list_lookup_middle by done. rewrite Hh.
    rewrite take_app_length.
    replace (S (length l1)) with (length (l1 ++ [h]))
      by (rewrite length_app; simpl; lia).
    rewrite (cons_middle h l1 l2), app_assoc, drop_app_length. apply IH.
Qed.

Lemma rebuild_concurrent_panics s0 history s targetTs :
  recorded s0 history s -> history <> [] ->
  Forall (fun h => Compare (h_ts h) (Some targetTs) = ConcurrentTs) history ->
  rebuildCRDTToVersion false s history targetTs = None.
Proof.
  intros Hr Hne Hc. unfold rebuildCRDTToVersion.
  destruct (last history) as [h|] eqn:El; [|by apply last_None in El].
  assert (Hv : Forall (fun h => in_version targetTs h = false) history).
  { eapply Forall_impl; [exact Hc|]. intros e He. unfold in_version.
    cbn beta in He. rewrite Compare_bools in He. rewrite IsLowerOrEqual_bools.
    by destruct (lt_in (h_ts e) targetTs), (gt_in (h_ts e) targetTs). }
  destruct (undo_loop_spec s0 [] history [] s targetTs ∅ Hr)
    as (s1 & c & Hu & _); [constructor|done|].
  unfold currTs_of in Hu. simpl in Hu. rewrite El, app_nil_r in Hu. rewrite Hu.
  destruct (Nat.eqb_spec 0 (length history)) as [E|_].
  - symmetry in E. by apply nil_length_inv in E.
  - change 0%nat with (length ([] : list History)).
    change history with ([] ++ history) at 2. by rewrite redo_loop_concurrent.
Qed.
End rebuild.

(** ** Recording updates *)

Section recording.
Context {St Op Eff : Type} `{HL : InversibleLaws St Op Eff}.

(** [Downstream] of a CRDT: apply the update, record its effect. *)
Definition Downstream (disabled : bool) (crdt : St * list (History Op Eff))
    (updTs : vclock) (downstreamArgs : Op)
  : option (St * list (History Op Eff)) :=
  let '(s, history) := crdt in
  match applyDownstream s downstreamArgs with
  | None => None
  | Some (s, effect) =>
      Some (s, addToHistory disabled history updTs downstreamArgs effect)
  end.

Lemma recorded_Downstream s0 history s updTs op s' history' :
  recorded s0 history s -> op_valid s op ->
  (forall h, last history = Some h -> IsEqual (h_ts h) (Some updTs) = false) ->
  Downstream false (s, history) updTs op = Some (s', history') ->
  recorded s0 history' s'.
Proof.
  intros Hr Hv Hne Hd. unfold Downstream in Hd.
  destruct (applyDownstream s op) as [[s1 eff]|] eqn:Ea; [|done].
  assert (E : addToHistory false history updTs op eff =
              history ++ [mkHistory updTs [op] [eff]]).
  { unfold addToHistory. destruct (last history) as [h|]; [|done].
    by rewrite (Hne h). }
  rewrite E in Hd. simplify_eq. eapply recorded_snoc; [done| |].
  - simpl. by rewrite Ea.
  - simpl. by erewrite undo_apply.
Qed.
End recording.
