(* ===== verification/Convergence.v ===== *)
(** * Operation-based CRDTs: convergence

    A replica applies the downstream operations it is sent ([deliver]).
    [ConvergentCRDT] is what a CRDT promises to the replication layer: which
    operations may be delivered in either order ([compatible]) and that they
    then commute.  [deliver_permutation] is the consequence every replicated
    object relies on; the CRDT files give the instances. *)

From S2P Require Import Prelude Inversible.
From Stdlib Require Import Lia Bool.
From stdpp Require Import base tactics numbers gmap list.

Section deliver.
Context {St Op Eff : Type} `{InversibleOps St Op Eff}.

Fixpoint deliver (s : St) (ops : list Op) : option St :=
  match ops with
  | [] => Some s
  | op :: rest =>
      match applyDownstream s op with
      | Some (s, _) => deliver s rest
      | None => None
      end
  end.
End deliver.

Class ConvergentCRDT (St Op Eff : Type) `{InversibleOps St Op Eff} := {
  compatible : Op -> Op -> Prop;
  compatible_comm a b s : compatible a b -> deliver s [a; b] = deliver s [b; a]
}.

Section convergence.
Context {St Op Eff : Type} `{HC : ConvergentCRDT St Op Eff}.

(** Every two operations of the list may be delivered in either order. *)
Definition all_compatible (ops : list Op) : Prop :=
  forall i j a b, i <> j -> ops !! i = Some a -> ops !! j = Some b ->
    compatible a b.

Lemma all_compatible_cons a ops : all_compatible (a :: ops) -> all_compatible ops.
Proof.
  intros Hc i j x y Hij Hx Hy. apply (Hc (S i) (S j)); [congruence|done|done].
Qed.

Lemma all_compatible_perm ops1 ops2 :
  ops1 ≡ₚ ops2 -> all_compatible ops1 -> all_compatible ops2.
Proof.
  intros Hp Hc i j a b Hij Ha Hb. symmetry in Hp.
  apply Permutation_inj in Hp as [_ (f & Hf & Hl)].
  rewrite Hl in Ha, Hb. apply (Hc (f i) (f j)); [|done|done].
  by intros ?%Hf.
Qed.

Lemma deliver_app (s : St) ops1 ops2 :
  deliver s (ops1 ++ ops2) =
    match deliver s ops1 with Some s => deliver s ops2 | None => None end.
Proof.
  revert s. induction ops1 as [|op ops1 IH]; intros s; simpl; [done|].
  destruct (applyDownstream s op) as [[]|]; [apply IH|done].
Qed.

(** Replicas that delivered the same compatible operations, each in its own
    order, are in the same state. *)
Lemma deliver_permutation (s : St) ops1 ops2 :
  ops1 ≡ₚ ops2 -> all_compatible ops1 -> deliver s ops1 = deliver s ops2.
Proof.
  intros Hp. revert s. induction Hp as [|a l1 l2 Hp IH|a b l|l1 l2 l3 H1 IH1 H2 IH2];
    intros s Hc; [done|..].
  - simpl. apply all_compatible_cons in Hc.
    destruct (applyDownstream s a) as [[]|]; [by apply IH|done].
  - change (b :: a :: l) with ([b; a] ++ l). change (a :: b :: l) with ([a; b] ++ l).
    rewrite !deliver_app. rewrite (compatible_comm b a); [done|].
    by apply (Hc 0%nat 1%nat).
  - rewrite IH1 by done. apply IH2. by eapply all_compatible_perm.
Qed.
End convergence.
