(* ===== verification/Counters.v ===== *)
(** * Counters: counterCrdt.go, avgCrdt.go and maxMinCrdt.go (src/crdt/crdt)

    One Module per CRDT: its state, its operations and effects, [Update],
    [Read] with the updates of a transaction that are not yet applied,
    [applyDownstream]/[undoEffect], the replication messages, and the instances
    of the version-management and convergence interfaces.  Values are Go
    integers and wrap around.  [AvgState]'s division of two float64 is not
    modelled; the sum and the number of values it divides are. *)

From S2P Require Import Prelude ClockSI Inversible Convergence.
From Stdlib Require Import ZArith Lia Bool.
From stdpp Require Import base tactics numbers gmap sorting list.
#[local] Open Scope Z_scope.

(** ** Generic lemmas on wrapped sums *)

Lemma wrapS_add_add w v a b :
  0 < w -> wrapS w (wrapS w (v + a) + b) = wrapS w (v + a + b).
Proof. intros. by apply wrapS_add_l. Qed.

Lemma wrapS_add_cancel w v a : 0 < w -> inS w v -> wrapS w (wrapS w (v + a) - a) = v.
Proof.
  intros Hw Hv. rewrite wrapS_sub_l by done.
  replace (v + a - a) with v by lia. by apply wrapS_id.
Qed.

Lemma wrapS_sub_cancel w v a : 0 < w -> inS w v -> wrapS w (wrapS w (v - a) + a) = v.
Proof.
  intros Hw Hv. rewrite wrapS_add_l by done.
  replace (v - a + a) with v by lia. by apply wrapS_id.
Qed.

(** ** CounterCrdt *)

Module Counter.
(** [CounterCrdt.value]; [Increment]/[Decrement] and their effects. *)
Record CounterCrdt := mkCounter { value : Z }.
Inductive Op := Increment (Change : Z) | Decrement (Change : Z).
Inductive Eff := IncrementEffect (Change : Z) | DecrementEffect (Change : Z).

Definition Initialize : CounterCrdt := mkCounter 0.

Fixpoint Read_loop (upds : list Op) (copyValue : Z) : Z :=
  match upds with
  | [] => copyValue
  | Increment c :: rest => Read_loop rest (int32 (copyValue + c))
  | Decrement c :: rest => Read_loop rest (int32 (copyValue - c))
  end.

Definition Read (crdt : CounterCrdt) (updsNotYetApplied : list Op) : Z :=
  match updsNotYetApplied with
  | [] => value crdt
  | upds => Read_loop upds (value crdt)
  end.

Definition Update (crdt : CounterCrdt) (args : Op) : Op := args.

Definition counter_applyDownstream (crdt : CounterCrdt) (op : Op)
  : option (CounterCrdt * option Eff) :=
  Some match op with
       | Increment c => (mkCounter (int32 (value crdt + c)), Some (IncrementEffect c))
       | Decrement c => (mkCounter (int32 (value crdt - c)), Some (DecrementEffect c))
       end.

Definition counter_undoEffect (crdt : CounterCrdt) (effect : option Eff)
  : option CounterCrdt :=
  match effect with
  | None => None
  | Some (IncrementEffect c) => Some (mkCounter (int32 (value crdt - c)))
  | Some (DecrementEffect c) => Some (mkCounter (int32 (value crdt + c)))
  end.

#[global] Instance counter_inversible : InversibleOps CounterCrdt Op Eff := {
  applyDownstream := counter_applyDownstream;
  undoEffect := counter_undoEffect
}.

Definition wf (crdt : CounterCrdt) : Prop := inS 32 (value crdt).

#[global] Program Instance counter_laws : InversibleLaws CounterCrdt Op Eff := {
  op_valid s _ := wf s
}.
Next Obligation.
  intros [v] op s' eff Hv Ha. unfold wf in Hv. simpl in *.
  unfold counter_applyDownstream in Ha.
  destruct op; injection Ha as <- <-; simpl; do 2 f_equal.
  - by apply wrapS_add_cancel.
  - by apply wrapS_sub_cancel.
Qed.

#[global] Program Instance counter_convergent : ConvergentCRDT CounterCrdt Op Eff := {
  compatible _ _ := True
}.
Next Obligation.
  intros a b [v] _. destruct a, b; simpl; do 2 f_equal;
    rewrite ?wrapS_add_l, ?wrapS_sub_l by done;
    rewrite ?wrapS_add_l, ?wrapS_sub_l by done; f_equal; lia.
Qed.

(** *** Replication messages *)

(** [proto.ProtoCounterDownstream] with its optional fields. *)
Record ProtoCounterDownstream := mkProto { IsInc : option bool; ProtoChange : option Z }.

Definition ToReplicatorObj (downOp : Op) : ProtoCounterDownstream :=
  match downOp with
  | Increment c => mkProto (Some true) (Some c)
  | Decrement c => mkProto (Some false) (Some c)
  end.

Definition Increment_FromReplicatorObj (p : ProtoCounterDownstream) : Op :=
  Increment (default 0 (ProtoChange p)).
Definition Decrement_FromReplicatorObj (p : ProtoCounterDownstream) : Op :=
  Decrement (int32 (- default 0 (ProtoChange p))).

(** [downstreamProtoCounterToAntidoteDownstream] of crdtProtoLib.go. *)
Definition downstreamProtoCounterToAntidoteDownstream
    (p : ProtoCounterDownstream) : Op :=
  if default false (IsInc p) then Increment_FromReplicatorObj p
  else Decrement_FromReplicatorObj p.

(** *** Properties *)

Definition delta (op : Op) : Z :=
  match op with Increment c => c | Decrement c => - c end.

Definition total (ops : list Op) : Z := foldr (fun op t => delta op + t) 0 ops.

Lemma Read_loop_spec upds v :
  inS 32 v -> Read_loop upds v = int32 (v + total upds).
Proof.
  revert v. induction upds as [|op upds IH]; intros v Hv; simpl.
  - rewrite Z.add_0_r. symmetry. by apply wrapS_id.
  - destruct op; simpl; rewrite IH by (by apply wrapS_range);
      rewrite ?wrapS_add_l by done; f_equal; lia.
Qed.

Lemma deliver_spec ops s :
  wf s -> deliver s ops = Some (mkCounter (int32 (value s + total ops))).
Proof.
  revert s. unfold wf. induction ops as [|op ops IH]; intros [v] Hv; simpl in *.
  - rewrite Z.add_0_r. by rewrite wrapS_id.
  - destruct op; simpl; rewrite IH by (simpl; by apply wrapS_range); simpl;
      rewrite ?wrapS_add_l by done; do 3 f_equal; lia.
Qed.

(** A counter's value is the sum of the updates it was sent, modulo 2^32:
    replicas that received the same updates in any order agree, and a
    transaction reading its own unapplied updates sees exactly the value the
    counter has once they are applied. *)
Theorem counter_value (s : CounterCrdt) (ops ops' : list Op) :
  wf s -> Permutation ops ops' ->
  exists s', deliver s ops = Some s' /\ deliver s ops' = Some s' /\
    value s' = int32 (value s + total ops) /\ wf s' /\ Read s ops = value s'.
Proof.
  intros Hs Hp. exists (mkCounter (int32 (value s + total ops))).
  split; [by apply deliver_spec|]. split.
  - rewrite <- (deliver_permutation s ops ops' Hp); [by apply deliver_spec|].
    intros i j a b _ _ _. done.
  - split; [done|]. split; [by apply wrapS_range|].
    destruct ops as [|op ops]; [|by apply Read_loop_spec].
    simpl. rewrite Z.add_0_r. symmetry. by apply wrapS_id.
Qed.

Lemma counter_value_witness :
  exists s', deliver (mkCounter 5) [Increment MaxInt32; Decrement 7] = Some s' /\
    deliver (mkCounter 5) [Decrement 7; Increment MaxInt32] = Some s' /\
    value s' = int32 (5 + total [Increment MaxInt32; Decrement 7]) /\
    wf s' /\ Read (mkCounter 5) [Increment MaxInt32; Decrement 7] = value s'.
Proof.
  apply (counter_value (mkCounter 5)).
  - vm_compute. split; [discriminate|reflexivity].
  - apply perm_swap.
Defined.

(** A decrement does not survive replication: [ToReplicatorObj] sends its
    change as it is and [FromReplicatorObj] negates it, so the other replicas
    add what the origin subtracted; an increment arrives unchanged. *)
Theorem decrement_not_replicated (c : Z) :
  inS 32 c ->
  downstreamProtoCounterToAntidoteDownstream (ToReplicatorObj (Increment c))
    = Increment c /\
  (forall s, wf s ->
    deliver s [downstreamProtoCounterToAntidoteDownstream
                 (ToReplicatorObj (Decrement c))] = deliver s [Increment c]).
Proof.
  intros Hc. split; [done|]. intros [v] Hv. simpl. do 2 f_equal.
  apply wrapS_eq_mod; [done|].
  rewrite Zminus_mod, wrapS_mod by done. rewrite <- Zminus_mod.
  f_equal. lia.
Qed.

Lemma decrement_not_replicated_witness :
  deliver (mkCounter 10) [downstreamProtoCounterToAntidoteDownstream
    (ToReplicatorObj (Decrement 3))] = deliver (mkCounter 10) [Increment 3] /\
  deliver (mkCounter 10) [Increment 3] = Some (mkCounter 13) /\
  deliver (mkCounter 10) [Decrement 3] = Some (mkCounter 7).
Proof.
  split; [|split; vm_compute; reflexivity].
  apply (decrement_not_replicated 3); vm_compute; split;
    first [discriminate | reflexivity].
Defined.
End Counter.

(** ** AvgCrdt *)

Module Avg.
Record AvgCrdt := mkAvg { sum : Z; nAdds : Z }.
Inductive UpdArgs :=
| AddValue (Value : Z)
| AddMultipleValueArgs (SumValue NAdds : Z).
Record Op := AddMultipleValue { SumValue : Z; NAdds : Z }.
Record Eff := AddMultipleValueEffect { EffSumValue : Z; EffNAdds : Z }.

Definition Initialize : AvgCrdt := mkAvg 0 0.

(** [None] is a nil slice.  A pending update that is not an
    [AddMultipleValue] fails the type assertion ([None]). *)
Fixpoint getFullValue_loop (upds : list UpdArgs) (sum nAdds : Z) : option (Z * Z) :=
  match upds with
  | [] => Some (sum, nAdds)
  | AddMultipleValueArgs s n :: rest =>
      getFullValue_loop rest (int64 (sum + s)) (int64 (nAdds + n))
  | AddValue _ :: _ => None
  end.

Definition getFullValue (crdt : AvgCrdt) (updsNotYetApplied : option (list UpdArgs))
  : option (Z * Z) :=
  match updsNotYetApplied with
  | None => Some (sum crdt, nAdds crdt)
  | Some upds =>
      if (0 <? length upds)%nat then Some (sum crdt, nAdds crdt)
      else getFullValue_loop upds (sum crdt) (nAdds crdt)
  end.

Definition Update (crdt : AvgCrdt) (args : UpdArgs) : Op :=
  match args with
  | AddValue v => AddMultipleValue v 1
  | AddMultipleValueArgs s n => AddMultipleValue s n
  end.

Definition avg_applyDownstream (crdt : AvgCrdt) (op : Op)
  : option (AvgCrdt * option Eff) :=
  Some (mkAvg (int64 (sum crdt + SumValue op)) (int64 (nAdds crdt + NAdds op)),
        Some (AddMultipleValueEffect (SumValue op) (NAdds op))).

Definition avg_undoEffect (crdt : AvgCrdt) (effect : option Eff) : option AvgCrdt :=
  match effect with
  | None => None
  | Some e => Some (mkAvg (int64 (sum crdt - EffSumValue e))
                          (int64 (nAdds crdt - EffNAdds e)))
  end.

#[global] Instance avg_inversible : InversibleOps AvgCrdt Op Eff := {
  applyDownstream := avg_applyDownstream;
  undoEffect := avg_undoEffect
}.

Definition wf (crdt : AvgCrdt) : Prop := inS 64 (sum crdt) /\ inS 64 (nAdds crdt).

#[global] Program Instance avg_laws : InversibleLaws AvgCrdt Op Eff := {
  op_valid s _ := wf s
}.
Next Obligation.
  intros [v n] op s' eff [Hv Hn] Ha. unfold avg_applyDownstream in Ha. simpl in *.
  unfold avg_applyDownstream in Ha. injection Ha as <- <-. simpl.
  by rewrite !wrapS_add_cancel.
Qed.

#[global] Program Instance avg_convergent : ConvergentCRDT AvgCrdt Op Eff := {
  compatible _ _ := True
}.
Next Obligation.
  intros a b [v n] _. simpl. unfold avg_applyDownstream. simpl.
  rewrite !wrapS_add_l by done. do 3 f_equal; lia.
Qed.

(** A full read returns the stored sum whatever updates are pending: a
    transaction does not see its own values. *)
Lemma getFullValue_ignores_pending crdt upds :
  getFullValue crdt upds = Some (sum crdt, nAdds crdt).
Proof. by destruct upds as [[|]|]. Qed.
End Avg.

(** ** MaxMinCrdt *)

Module MaxMin.
Record MaxMinCrdt := mkMaxMin { topValue : Z }.
Inductive Op := MaxAddValue (Value : Z) | MinAddValue (Value : Z).
Inductive Eff := NoEffect | MaxMinAddValueEffect (PreviousValue : Z).

(** [math.MaxInt64] stands for "no value yet". *)
Definition Initialize : MaxMinCrdt := mkMaxMin MaxInt64.

Definition max (first second : Z) : Z :=
  if (first =? MaxInt64) || (second >? first) then second else first.
Definition min (first second : Z) : Z :=
  if (first =? MaxInt64) || (second <? first) then second else first.

Fixpoint Read_loop (upds : list Op) (result : Z) : Z :=
  match upds with
  | [] => result
  | MaxAddValue v :: rest => Read_loop rest (max result v)
  | MinAddValue v :: rest => Read_loop rest (min result v)
  end.

Definition Read (crdt : MaxMinCrdt) (updsNotYetApplied : option (list Op)) : Z :=
  match updsNotYetApplied with
  | None => topValue crdt
  | Some upds =>
      if (0 <? length upds)%nat then topValue crdt
      else Read_loop upds (topValue crdt)
  end.

(** [None] is the [NoOp] of an irrelevant update. *)
Definition Update (crdt : MaxMinCrdt) (args : Op) : option Op :=
  if topValue crdt =? MaxInt64 then Some args
  else match args with
       | MaxAddValue v => if v <? topValue crdt then None else Some args
       | MinAddValue v => if v >? topValue crdt then None else Some args
       end.

Definition maxmin_applyDownstream (crdt : MaxMinCrdt) (op : Op)
  : option (MaxMinCrdt * option Eff) :=
  let previousValue := topValue crdt in
  let top := match op with
             | MaxAddValue v => max (topValue crdt) v
             | MinAddValue v => min (topValue crdt) v
             end in
  Some (mkMaxMin top,
        Some (if previousValue =? top then NoEffect
              else MaxMinAddValueEffect previousValue)).

(** The type assertion panics on a [NoEffect]. *)
Definition maxmin_undoEffect (crdt : MaxMinCrdt) (effect : option Eff)
  : option MaxMinCrdt :=
  match effect with
  | Some (MaxMinAddValueEffect p) =>
      Some (if negb (topValue crdt =? p) then mkMaxMin p else crdt)
  | _ => None
  end.

#[global] Instance maxmin_inversible : InversibleOps MaxMinCrdt Op Eff := {
  applyDownstream := maxmin_applyDownstream;
  undoEffect := maxmin_undoEffect
}.

(** The updates that change the value. *)
Definition changes (crdt : MaxMinCrdt) (op : Op) : bool :=
  match op with
  | MaxAddValue v => negb (topValue crdt =? max (topValue crdt) v)
  | MinAddValue v => negb (topValue crdt =? min (topValue crdt) v)
  end.

#[global] Program Instance maxmin_laws : InversibleLaws MaxMinCrdt Op Eff := {
  op_valid s op := changes s op = true
}.
Next Obligation.
  intros [v] op s' eff Hv Ha. simpl in *. unfold maxmin_applyDownstream in Ha.
  injection Ha as <- <-. unfold changes in Hv. simpl in *.
  destruct op; apply negb_true_iff in Hv; rewrite Hv; simpl;
    rewrite Z.eqb_sym, Hv; done.
Qed.

Definition real_value (v : Z) : Prop := v <> MaxInt64.

Definition same_kind (a b : Op) : Prop :=
  match a, b with
  | MaxAddValue x, MaxAddValue y | MinAddValue x, MinAddValue y =>
      real_value x /\ real_value y
  | _, _ => False
  end.

Lemma max_comm v x y :
  real_value x -> real_value y -> max (max v x) y = max (max v y) x.
Proof.
  unfold real_value, max. intros Hx Hy. rewrite !Z.gtb_ltb.
  destruct (Z.eqb_spec v MaxInt64), (Z.ltb_spec v x), (Z.ltb_spec v y); simpl;
    rewrite ?(proj2 (Z.eqb_neq _ _) Hx), ?(proj2 (Z.eqb_neq _ _) Hy); simpl;
    destruct (Z.eqb_spec v MaxInt64), (Z.ltb_spec x y), (Z.ltb_spec y x); simpl;
    repeat case_bool; to_prop; try lia; congruence.
Qed.

Lemma min_comm v x y :
  real_value x -> real_value y -> min (min v x) y = min (min v y) x.
Proof.
  unfold real_value, min. intros Hx Hy.
  destruct (Z.eqb_spec v MaxInt64), (Z.ltb_spec x v), (Z.ltb_spec y v); simpl;
    rewrite ?(proj2 (Z.eqb_neq _ _) Hx), ?(proj2 (Z.eqb_neq _ _) Hy); simpl;
    destruct (Z.eqb_spec v MaxInt64), (Z.ltb_spec x y), (Z.ltb_spec y x); simpl;
    repeat case_bool; to_prop; try lia; congruence.
Qed.

#[global] Program Instance maxmin_convergent : ConvergentCRDT MaxMinCrdt Op Eff := {
  compatible := same_kind
}.
Next Obligation.
  intros a b [v]. unfold same_kind, real_value.
  destruct a as [x|x], b as [y|y]; try done; intros [Hx Hy];
    simpl; do 2 f_equal; [by apply max_comm|by apply min_comm].
Qed.

(** A maximum (minimum) object ends with the greatest (least) value it was
    sent, in whatever order, duplicates included, provided all its updates
    are of one kind and none is the reserved [MaxInt64]. *)
Theorem maxmin_value (s : MaxMinCrdt) (vs vs' : list Z) :
  Forall real_value vs -> Permutation vs vs' ->
  deliver s (MaxAddValue <$> vs) = deliver s (MaxAddValue <$> vs') /\
  deliver s (MinAddValue <$> vs) = deliver s (MinAddValue <$> vs') /\
  (topValue s <> MaxInt64 ->
   deliver s (MaxAddValue <$> vs) = Some (mkMaxMin (foldr Z.max (topValue s) vs)) /\
   deliver s (MinAddValue <$> vs) = Some (mkMaxMin (foldr Z.min (topValue s) vs))).
Proof.
  intros Hr Hp. rewrite Forall_lookup in Hr. split; [|split].
  1-2: apply deliver_permutation; [by rewrite Hp|];
    intros i j a b _ Ha Hb; rewrite list_lookup_fmap in Ha, Hb;
    destruct (vs !! i) eqn:E1, (vs !! j) eqn:E2; simplify_eq/=; eauto.
  intros Ht. rewrite <- Forall_lookup in Hr. destruct s as [t]. simpl in *.
  assert (Hcomm : forall (f : Z -> Z -> Z), (forall a b c, f a (f b c) = f b (f a c)) ->
    forall l x y, foldr f (f x y) l = f x (foldr f y l)).
  { intros f Hf l x y. induction l as [|z l IH]; simpl; [done|]. by rewrite IH, Hf. }
  revert t Ht. clear Hp. induction Hr as [|v vs Hv _ IH]; intros t Ht; [done|].
  unfold real_value in Hv. simpl.
  assert (Emax : max t v = Z.max v t)
    by (unfold max; case_bool; to_prop; lia).
  assert (Emin : min t v = Z.min v t)
    by (unfold min; case_bool; to_prop; lia).
  rewrite Emax, Emin.
  fold (fmap (M := list) MaxAddValue) (fmap (M := list) MinAddValue).
  destruct (IH (Z.max v t)) as [-> _]; [lia|].
  destruct (IH (Z.min v t)) as [_ ->]; [lia|].
  split; do 2 f_equal; apply Hcomm; lia.
Qed.

Lemma maxmin_value_witness :
  deliver (mkMaxMin 4) (MaxAddValue <$> [7; 2]) =
    deliver (mkMaxMin 4) (MaxAddValue <$> [2; 7]) /\
  deliver (mkMaxMin 4) (MaxAddValue <$> [7; 2]) = Some (mkMaxMin 7).
Proof.
  destruct (maxmin_value (mkMaxMin 4) [7; 2] [2; 7]) as (H1 & H2 & H3).
  - repeat constructor; discriminate.
  - apply perm_swap.
  - split; [exact H1|]. destruct H3 as [H3 _]; [discriminate|]. exact H3.
Defined.

(** An update without effect cannot be undone: the effect's type assertion
    panics. *)
Lemma undo_NoEffect_panics crdt op s' :
  changes crdt op = false ->
  deliver crdt [op] = Some s' ->
  exists eff, applyDownstream crdt op = Some (s', eff) /\ undoEffect s' eff = None.
Proof.
  intros Hc Hd. simpl in *. simplify_eq. eexists. split; [reflexivity|].
  unfold changes in Hc. destruct op; apply negb_false_iff in Hc; by rewrite Hc.
Qed.
End MaxMin.
