(* ===== verification/Registers.v ===== *)
(** * Last-writer-wins objects: lwwRegisterCrdt.go and lwwFlag.go (src/crdt/crdt)

    A write carries the time and the replica that issued it; the greater pair
    wins.  The register's [interface{}] value is a string, as in every message
    that carries it.  [now] and [rnd] are what [time.Now().UTC().UnixNano()] and
    [rand.Int63n(100)] returned. *)

From S2P Require Import Prelude ClockSI Inversible Convergence.
From Stdlib Require Import ZArith Lia Bool.
From stdpp Require Import base tactics numbers strings gmap sorting list.
#[local] Open Scope Z_scope.

(** The order of writes: by time, then by replica. *)
Definition wins (ts replicaID ts' replicaID' : Z) : bool :=
    (ts >? ts') || ((ts =? ts') && (replicaID >? replicaID')).

Lemma wins_spec ts r ts' r' :
  wins ts r ts' r' = true <-> ts' < ts \/ (ts = ts' /\ r' < r).
Proof.
  unfold wins. rewrite orb_true_iff, andb_true_iff, !Z.gtb_ltb, !Z.ltb_lt, Z.eqb_eq.
  lia.
Qed.

Lemma wins_false ts r ts' r' :
  wins ts r ts' r' = false <-> ts < ts' \/ (ts = ts' /\ r <= r').
Proof. rewrite <- not_true_iff_false, wins_spec. lia. Qed.

(** Splits on every [wins] of the goal. *)
Ltac case_wins :=
  repeat match goal with
  | |- context [wins ?a ?b ?c ?d] =>
      let E := fresh "W" in
      destruct (wins a b c d) eqn:E;
      [apply wins_spec in E | apply wins_false in E]; simpl
  end.

Module LwwRegister.
Record LwwRegisterCrdt := mkReg {
  value : string; ts : Z; replicaID : Z; localReplicaID : Z }.
Inductive UpdArgs := SetValue (NewValue : string).
Record Op := DownstreamSetValue { NewValue : string; Ts : Z; ReplicaID : Z }.
Inductive Eff := NoEffect | SetValueEffect (NewValue : string) (Ts ReplicaID : Z).

Definition Initialize (replicaID : Z) : LwwRegisterCrdt :=
  mkReg EmptyString 0 replicaID replicaID.

Definition Read (crdt : LwwRegisterCrdt) (updsNotYetApplied : list UpdArgs) : string :=
  match last updsNotYetApplied with
  | None => value crdt
  | Some (SetValue v) => v
  end.

Definition Update (now rnd : Z) (crdt : LwwRegisterCrdt) (args : UpdArgs) : Op :=
  let '(SetValue v) := args in
  let newTs := if now <? ts crdt then int64 (ts crdt + rnd) else now in
  DownstreamSetValue v newTs (localReplicaID crdt).

Definition reg_applyDownstream (crdt : LwwRegisterCrdt) (op : Op)
  : option (LwwRegisterCrdt * option Eff) :=
  Some (if wins (Ts op) (ReplicaID op) (ts crdt) (replicaID crdt)
        then (mkReg (NewValue op) (Ts op) (ReplicaID op) (localReplicaID crdt),
              Some (SetValueEffect (value crdt) (ts crdt) (replicaID crdt)))
        else (crdt, Some NoEffect)).

Definition reg_undoEffect (crdt : LwwRegisterCrdt) (effect : option Eff)
  : option LwwRegisterCrdt :=
  match effect with
  | None => None
  | Some (SetValueEffect v t r) => Some (mkReg v t r (localReplicaID crdt))
  | Some NoEffect => Some crdt
  end.

#[global] Instance reg_inversible : InversibleOps LwwRegisterCrdt Op Eff := {
  applyDownstream := reg_applyDownstream;
  undoEffect := reg_undoEffect
}.

#[global] Program Instance reg_laws : InversibleLaws LwwRegisterCrdt Op Eff := {
  op_valid _ _ := True
}.
Next Obligation.
  intros [v t r l] op s' eff _ Ha. simpl in *. unfold reg_applyDownstream in Ha.
  simpl in Ha. destruct (wins _ _ _ _); by injection Ha as <- <-.
Qed.

(** Writes of different times or replicas. *)
Definition distinct_writes (a b : Op) : Prop :=
  Ts a <> Ts b \/ ReplicaID a <> ReplicaID b.

#[global] Program Instance reg_convergent : ConvergentCRDT LwwRegisterCrdt Op Eff := {
  compatible := distinct_writes
}.
Next Obligation.
  intros [va ta ra] [vb tb rb] [v t r l]. unfold distinct_writes. simpl. intros Hd.
  unfold reg_applyDownstream. simpl. case_wins; try done; exfalso; lia.
Qed.

(** *** Replication messages and snapshots *)
Record ProtoLWWRegisterDownstream := mkProto {
  PValue : option string; PTs : option Z; PReplicaID : option Z }.

Definition ToReplicatorObj (downOp : Op) : ProtoLWWRegisterDownstream :=
  mkProto (Some (NewValue downOp)) (Some (Ts downOp)) (Some (int32 (ReplicaID downOp))).
Definition FromReplicatorObj (p : ProtoLWWRegisterDownstream) : Op :=
  DownstreamSetValue (default EmptyString (PValue p)) (default 0 (PTs p))
    (int16 (default 0 (PReplicaID p))).

Definition ToProtoState (crdt : LwwRegisterCrdt) : ProtoLWWRegisterDownstream :=
  mkProto (Some (value crdt)) (Some (ts crdt)) (Some (int32 (replicaID crdt))).

(** [localReplicaID] is then overwritten by [initializeFromSnapshot]. *)
Definition FromProtoState (p : ProtoLWWRegisterDownstream) (replicaID : Z)
  : LwwRegisterCrdt :=
  mkReg (default EmptyString (PValue p)) (default 0 (PTs p))
    (int16 (default 0 (PReplicaID p))) replicaID.

Lemma FromReplicatorObj_ToReplicatorObj op :
  inS 16 (ReplicaID op) -> FromReplicatorObj (ToReplicatorObj op) = op.
Proof.
  destruct op as [v t r]. unfold FromReplicatorObj. simpl. intros Hr.
  rewrite (wrapS_id 32), (wrapS_id 16); try done.
  unfold inS in *. lia.
Qed.

(** The write that wins among the register and a list of writes. *)
Definition best (s : LwwRegisterCrdt) (op : Op) : LwwRegisterCrdt :=
  if wins (Ts op) (ReplicaID op) (ts s) (replicaID s)
  then mkReg (NewValue op) (Ts op) (ReplicaID op) (localReplicaID s) else s.

Lemma deliver_best s ops : deliver s ops = Some (foldl best s ops).
Proof.
  revert s. induction ops as [|op ops IH]; intros s; [done|]. simpl.
  unfold reg_applyDownstream, best at 2. rewrite <- IH. by destruct (wins _ _ _ _).
Qed.

Lemma best_ge s ops :
  wins (ts s) (replicaID s) (ts (foldl best s ops)) (replicaID (foldl best s ops)) = false /\
  Forall (fun op => wins (Ts op) (ReplicaID op) (ts (foldl best s ops))
                      (replicaID (foldl best s ops)) = false) ops.
Proof.
  revert s. induction ops as [|op ops IH]; intros s; simpl.
  - split; [|constructor]. apply wins_false. lia.
  - destruct (IH (best s op)) as [H1 H2]. rewrite wins_false in H1.
    assert (Hb : wins (ts s) (replicaID s) (ts (best s op)) (replicaID (best s op)) = false /\
                 wins (Ts op) (ReplicaID op) (ts (best s op)) (replicaID (best s op)) = false).
    { unfold best. rewrite !wins_false. destruct (wins _ _ _ _) eqn:W; simpl;
        [apply wins_spec in W|apply wins_false in W]; lia. }
    rewrite !wins_false in Hb. split; [|constructor; [|done]]; apply wins_false; lia.
Qed.

(** Replicas of a register that were sent the same writes, in whatever
    order, hold the same value, and it is that of a write no other write is
    later than (or the initial value, if none is later). *)
Theorem register_last_writer_wins (s : LwwRegisterCrdt) (ops ops' : list Op) :
  all_compatible ops -> Permutation ops ops' ->
  exists s', deliver s ops = Some s' /\ deliver s ops' = Some s' /\
    (s' = s \/ exists op, op ∈ ops /\ value s' = NewValue op /\
                 ts s' = Ts op /\ replicaID s' = ReplicaID op) /\
    (forall op, op ∈ ops ->
       wins (Ts op) (ReplicaID op) (ts s') (replicaID s') = false).
Proof.
  intros Hc Hp. exists (foldl best s ops). split; [apply deliver_best|].
  split; [rewrite <- (deliver_permutation s ops ops' Hp Hc); apply deliver_best|].
  split.
  - clear Hc Hp. revert s. induction ops as [|op ops IH]; intros s; [by left|]. simpl.
    destruct (IH (best s op)) as [E|(o & Ho & E)].
    + rewrite E. unfold best. destruct (wins _ _ _ _); [right|by left].
      exists op. set_solver.
    + right. exists o. set_solver.
  - intros op Hop. destruct (best_ge s ops) as [_ Hall].
    rewrite Forall_forall in Hall. by apply Hall.
Qed.

Definition w1 : Op := DownstreamSetValue "a" 5 1.
Definition w2 : Op := DownstreamSetValue "b" 5 2.

Lemma w_compatible : all_compatible [w1; w2].
Proof.
  intros [|[|i]] [|[|j]] a b Hij Ha Hb; simplify_eq/=; right; discriminate.
Qed.

Lemma register_last_writer_wins_witness :
  exists s', deliver (Initialize 1) [w1; w2] = Some s' /\
    deliver (Initialize 1) [w2; w1] = Some s' /\ value s' = "b"%string.
Proof.
  destruct (register_last_writer_wins (Initialize 1) [w1; w2] [w2; w1] w_compatible)
    as (s' & H1 & H2 & _); [apply perm_swap|].
  exists s'. split; [exact H1|]. split; [exact H2|].
  vm_compute in H1. injection H1 as <-. reflexivity.
Defined.

(** A local write takes effect unless the clock is not ahead of the register
    and the random increment is 0: then a write of the replica that holds
    the register is dropped. *)
Lemma local_write_effect now rnd s v :
  0 <= rnd < 100 -> ts s <= MaxInt64 - 100 -> - 2 ^ 63 <= ts s ->
  deliver s [Update now rnd s (SetValue v)] =
    Some (if (ts s <? now) || ((now <? ts s) && (0 <? rnd))
             || (replicaID s <? localReplicaID s)
          then mkReg v (Ts (Update now rnd s (SetValue v))) (localReplicaID s) (localReplicaID s)
          else s).
Proof.
  intros Hr Hmax Hmin. destruct s as [v0 t r l]. simpl in *.
  unfold reg_applyDownstream, wins. simpl.
  rewrite (wrapS_id 64 (t + rnd)) by (done || unfold inS, MaxInt64 in *; lia).
  repeat case_match; simplify_eq/=; try done;
    rewrite ?Z.gtb_ltb in *; to_prop; lia.
Qed.
End LwwRegister.

(** ** The last-writer-wins flag *)

Module LwwFlag.
Record LwwFlagCrdt := mkFlag { flag : bool; ts : Z; replicaID : Z; localReplicaID : Z }.
Inductive UpdArgs := EnableFlag | DisableFlag.
Inductive Op :=
  | DownstreamEnableFlagLWW (Ts ReplicaID : Z)
  | DownstreamDisableFlagLWW (Ts ReplicaID : Z).
(** A disable that loses leaves the effect nil. *)
Inductive Eff := NilEffect | NoEffect | FlagLWWEffect (NewFlag : bool) (Ts ReplicaID : Z).

Definition Initialize (replicaID : Z) : LwwFlagCrdt := mkFlag false 0 replicaID replicaID.

Definition Read (crdt : LwwFlagCrdt) (updsNotYetApplied : list UpdArgs) : bool :=
  match last updsNotYetApplied with
  | None => flag crdt
  | Some EnableFlag => true
  | Some DisableFlag => false
  end.

Definition Update (now rnd : Z) (crdt : LwwFlagCrdt) (args : UpdArgs) : Op :=
  let newTs := if now <? ts crdt then int64 (ts crdt + rnd) else now in
  match args with
  | EnableFlag => DownstreamEnableFlagLWW newTs (localReplicaID crdt)
  | DisableFlag => DownstreamDisableFlagLWW newTs (localReplicaID crdt)
  end.

Definition flag_applyDownstream (crdt : LwwFlagCrdt) (op : Op) : option (LwwFlagCrdt * option Eff) :=
  let old := FlagLWWEffect (flag crdt) (ts crdt) (replicaID crdt) in
  Some match op with
  | DownstreamEnableFlagLWW Ts R =>
      if wins Ts R (ts crdt) (replicaID crdt)
      then (mkFlag true Ts R (localReplicaID crdt), Some old) else (crdt, Some NoEffect)
  | DownstreamDisableFlagLWW Ts R =>
      if wins Ts R (ts crdt) (replicaID crdt)
      then (mkFlag false Ts R (localReplicaID crdt), Some old) else (crdt, Some NilEffect)
  end.

Definition flag_undoEffect (crdt : LwwFlagCrdt) (effect : option Eff) : option LwwFlagCrdt :=
  match effect with
  | None => None
  | Some (FlagLWWEffect f t r) => Some (mkFlag f t r (localReplicaID crdt))
  | Some NoEffect | Some NilEffect => Some crdt
  end.

#[global] Instance flag_inversible : InversibleOps LwwFlagCrdt Op Eff := {
  applyDownstream := flag_applyDownstream;
  undoEffect := flag_undoEffect
}.

#[global] Program Instance flag_laws : InversibleLaws LwwFlagCrdt Op Eff := { op_valid _ _ := True }.
Next Obligation.
  intros [f t r l] [Ts R|Ts R] s' eff _ Ha; simpl in *; unfold flag_applyDownstream in Ha; simpl in Ha;
    destruct (wins _ _ _ _); by injection Ha as <- <-.
Qed.

(** *** A flag is a register of a boolean *)

Definition name (b : bool) : string := if b then "on" else "off".

Definition as_reg (s : LwwFlagCrdt) : LwwRegister.LwwRegisterCrdt :=
  LwwRegister.mkReg (name (flag s)) (ts s) (replicaID s) (localReplicaID s).

Definition as_write (op : Op) : LwwRegister.Op :=
  match op with
  | DownstreamEnableFlagLWW t r => LwwRegister.DownstreamSetValue (name true) t r
  | DownstreamDisableFlagLWW t r => LwwRegister.DownstreamSetValue (name false) t r
  end.

Lemma as_reg_inj s1 s2 : as_reg s1 = as_reg s2 -> s1 = s2.
Proof. destruct s1 as [[] ? ? ?], s2 as [[] ? ? ?]; unfold as_reg; cbn; congruence. Qed.

Lemma deliver_as_reg ops : forall s, exists s', deliver s ops = Some s' /\
  deliver (as_reg s) (as_write <$> ops) = Some (as_reg s').
Proof.
  induction ops as [|op ops IH]; intros s; [by exists s|]. destruct s as [f t r l].
  destruct op as [Ts R|Ts R]; cbn; unfold LwwRegister.reg_applyDownstream; cbn; destruct (wins Ts R t r).
  - apply (IH (mkFlag true Ts R l)).
  - apply (IH (mkFlag f t r l)).
  - apply (IH (mkFlag false Ts R l)).
  - apply (IH (mkFlag f t r l)).
Qed.

#[global] Program Instance flag_convergent : ConvergentCRDT LwwFlagCrdt Op Eff := {
  compatible a b := LwwRegister.distinct_writes (as_write a) (as_write b)
}.
Next Obligation.
  intros a b s Hc. destruct (deliver_as_reg [a; b] s) as (s1 & E1 & H1).
  destruct (deliver_as_reg [b; a] s) as (s2 & E2 & H2). rewrite E1, E2. f_equal. apply as_reg_inj.
  change (as_write <$> [a; b]) with [as_write a; as_write b] in H1.
  assert (Hw : compatible (ConvergentCRDT := LwwRegister.reg_convergent) (as_write a) (as_write b)) by exact Hc.
  rewrite (compatible_comm _ _ (as_reg s) Hw) in H1.
  change (as_write <$> [b; a]) with [as_write b; as_write a] in H2. rewrite H1 in H2. congruence.
Qed.

(** *** Replication messages and snapshots *)

Record ProtoLWWDownstream := mkProto { PTs : option Z; PReplicaID : option Z }.
(** [ProtoFlagDownstream]: one of its two messages. *)
Inductive ProtoFlagLWW := EnableLWW (p : ProtoLWWDownstream) | DisableLWW (p : ProtoLWWDownstream).

Definition ToReplicatorObj (downOp : Op) : ProtoFlagLWW :=
  match downOp with
  | DownstreamEnableFlagLWW t r => EnableLWW (mkProto (Some t) (Some (int32 r)))
  | DownstreamDisableFlagLWW t r => DisableLWW (mkProto (Some t) (Some (int32 r)))
  end.

(** [downstreamProtoFlagLWWToAntidoteDownstream] chooses by the message that is there. *)
Definition FromReplicatorObj (p : ProtoFlagLWW) : Op :=
  match p with
  | EnableLWW p => DownstreamEnableFlagLWW (default 0 (PTs p)) (int16 (default 0 (PReplicaID p)))
  | DisableLWW p => DownstreamDisableFlagLWW (default 0 (PTs p)) (int16 (default 0 (PReplicaID p)))
  end.

Record ProtoFlagLWWState := mkState { PFlag : bool; PSTs : Z; PSReplicaID : Z }.

Definition ToProtoState (crdt : LwwFlagCrdt) : ProtoFlagLWWState :=
  mkState (flag crdt) (ts crdt) (int32 (replicaID crdt)).

Definition FromProtoState (p : ProtoFlagLWWState) (replicaID : Z) : LwwFlagCrdt :=
  mkFlag (PFlag p) (PSTs p) (int16 (PSReplicaID p)) replicaID.

Lemma lww_flag_messages op s :
  (match op with DownstreamEnableFlagLWW _ r | DownstreamDisableFlagLWW _ r => inS 16 r end) ->
  inS 16 (replicaID s) ->
  FromReplicatorObj (ToReplicatorObj op) = op /\
  FromProtoState (ToProtoState s) (localReplicaID s) = s.
Proof.
  intros Hop Hs. assert (Hw : forall r, inS 16 r -> int16 (int32 r) = r).
  { intros r Hr. rewrite (wrapS_id 32), (wrapS_id 16); try done. unfold inS in *. lia. }
  split; [destruct op; cbn; by rewrite Hw|]. destruct s. unfold FromProtoState, ToProtoState. cbn in *. by rewrite Hw.
Qed.

End LwwFlag.
