(* ===== verification/Sets.v ===== *)
(** * Sets of unique identifiers and the objects built on them

    [UniqueSet] (src/crdt/crdt/commonTools.go), the enable-wins and
    disable-wins flags (ewFlag.go, dwFlag.go) and the add-wins set
    (setAWCrdt.go).  An add is tagged with a unique identifier; a remove carries
    the identifiers its issuer had seen, so a concurrent add survives it. *)

From S2P Require Import Prelude ClockSI Inversible Convergence.
From Stdlib Require Import ZArith Lia Bool.
From stdpp Require Import base tactics numbers strings gmap sorting list.
#[local] Open Scope Z_scope.

Abbreviation UniqueSet := (gset Z).
Abbreviation Element := string.

(** ** UniqueSet *)

Module Uniques.
Definition makeUniqueSet : UniqueSet := ∅.
Definition add (set : UniqueSet) (uniqueId : Z) : UniqueSet := {[ uniqueId ]} ∪ set.

(** Loops over the source set, in the order of its elements. *)
Definition addAll (set otherSet : UniqueSet) : UniqueSet :=
  foldl (fun set key => {[ key ]} ∪ set) set (elements otherSet).
Definition removeAllIn (set sourceSet : UniqueSet) : UniqueSet :=
  foldl (fun set key => set ∖ {[ key ]}) set (elements sourceSet).

(** Returns the set left and the intersection. *)
Definition getAndRemoveIntersection (set sourceSet : UniqueSet)
  : UniqueSet * UniqueSet :=
  foldl (fun '(set, intersectionSet) key =>
           if decide (key ∈ set) then (set ∖ {[ key ]}, {[ key ]} ∪ intersectionSet)
           else (set, intersectionSet)) (set, ∅) (elements sourceSet).

Definition copy (set : UniqueSet) : UniqueSet :=
  foldl (fun copySet unique => {[ unique ]} ∪ copySet) ∅ (elements set).

Definition UInt64ArrayToUniqueSet (uniques : list Z) : UniqueSet :=
  foldl add makeUniqueSet uniques.
Definition UniqueSetToUInt64Array (uniqueSet : UniqueSet) : list Z :=
  elements uniqueSet.

Lemma foldl_add (set : UniqueSet) (l : list Z) :
  foldl (fun (set : UniqueSet) key => {[ key ]} ∪ set) set l = list_to_set l ∪ set.
Proof.
  revert set. induction l as [|x l IH]; intros set; simpl; [set_solver|].
  rewrite IH. set_solver.
Qed.

Lemma foldl_remove (set : UniqueSet) (l : list Z) :
  foldl (fun (set : UniqueSet) key => set ∖ {[ key ]}) set l = set ∖ list_to_set (C := UniqueSet) l.
Proof.
  revert set. induction l as [|x l IH]; intros set; simpl; [set_solver|].
  rewrite IH. set_solver.
Qed.

Lemma addAll_spec set other : addAll set other = other ∪ set.
Proof. unfold addAll. rewrite foldl_add. by rewrite list_to_set_elements_L. Qed.

Lemma removeAllIn_spec set source : removeAllIn set source = set ∖ source.
Proof. unfold removeAllIn. rewrite foldl_remove. by rewrite list_to_set_elements_L. Qed.

Lemma copy_spec set : copy set = set.
Proof. unfold copy. rewrite foldl_add, list_to_set_elements_L. set_solver. Qed.

Lemma getAndRemoveIntersection_spec set source :
  getAndRemoveIntersection set source = (set ∖ source, set ∩ source).
Proof.
  unfold getAndRemoveIntersection.
  assert (G : forall l (s i : UniqueSet),
    foldl (fun '(set, intersectionSet) key =>
           if decide (key ∈ set) then (set ∖ {[ key ]}, {[ key ]} ∪ intersectionSet)
           else (set, intersectionSet)) (s, i) l =
    (s ∖ list_to_set l, (s ∩ list_to_set l) ∪ i)).
  { induction l as [|x l IH]; intros s i; simpl; [f_equal; set_solver|].
    case_decide as Hx; rewrite IH; f_equal; try set_solver.
    apply set_eq. intros y. destruct (decide (y = x)) as [->|]; set_solver. }
  rewrite G, list_to_set_elements_L. f_equal. set_solver.
Qed.

Lemma UInt64Array_round_trip set :
  UInt64ArrayToUniqueSet (UniqueSetToUInt64Array set) = set.
Proof.
  unfold UInt64ArrayToUniqueSet, UniqueSetToUInt64Array, add, makeUniqueSet.
  rewrite foldl_add, list_to_set_elements_L. set_solver.
Qed.
End Uniques.
Import Uniques.

(** ** EwFlagCrdt *)

Inductive FlagUpd := EnableFlag | DisableFlag.

(** What a transaction reads of a flag: its last pending update, if any. *)
Definition flag_Read (current : bool) (updsNotYetApplied : list FlagUpd) : bool :=
  match last updsNotYetApplied with
  | None => current
  | Some EnableFlag => true
  | Some DisableFlag => false
  end.

Module EwFlag.
Record EwFlagCrdt := mkEw { enables : UniqueSet }.
Inductive Op :=
| DownstreamEnableFlagEW (Unique : Z)
| DownstreamDisableFlagEW (Seen : UniqueSet).
Inductive Eff := EnableEWEffect (Unique : Z) | DisableEWEffect (Removed : UniqueSet).

Definition Initialize : EwFlagCrdt := mkEw makeUniqueSet.
Definition GetValue (crdt : EwFlagCrdt) : bool := (0 <? size (enables crdt))%nat.
Definition Read (crdt : EwFlagCrdt) (upds : list FlagUpd) : bool :=
  flag_Read (GetValue crdt) upds.

(** [rnd] is the identifier drawn by [crdt.random.Int63()]. *)
Definition Update (rnd : Z) (crdt : EwFlagCrdt) (args : FlagUpd) : Op :=
  match args with
  | EnableFlag => DownstreamEnableFlagEW rnd
  | DisableFlag => DownstreamDisableFlagEW (copy (enables crdt))
  end.

Definition ew_applyDownstream (crdt : EwFlagCrdt) (op : Op)
  : option (EwFlagCrdt * option Eff) :=
  Some match op with
       | DownstreamEnableFlagEW u => (mkEw (add (enables crdt) u), Some (EnableEWEffect u))
       | DownstreamDisableFlagEW seen =>
           let '(set, removed) := getAndRemoveIntersection (enables crdt) seen in
           (mkEw set, Some (DisableEWEffect removed))
       end.

Definition ew_undoEffect (crdt : EwFlagCrdt) (effect : option Eff) : option EwFlagCrdt :=
  match effect with
  | None => None
  | Some (EnableEWEffect u) => Some (mkEw (enables crdt ∖ {[ u ]}))
  | Some (DisableEWEffect removed) => Some (mkEw (addAll (enables crdt) removed))
  end.

#[global] Instance ew_inversible : InversibleOps EwFlagCrdt Op Eff := {
  applyDownstream := ew_applyDownstream;
  undoEffect := ew_undoEffect
}.

(** An identifier reaches a replica once. *)
Definition fresh (crdt : EwFlagCrdt) (op : Op) : Prop :=
  match op with
  | DownstreamEnableFlagEW u => u ∉ enables crdt
  | DownstreamDisableFlagEW _ => True
  end.

#[global] Program Instance ew_laws : InversibleLaws EwFlagCrdt Op Eff := {
  op_valid := fresh
}.
Next Obligation.
  intros [s] op s' eff Hv Ha. simpl in *. unfold ew_applyDownstream in Ha. simpl in Ha.
  destruct op as [u|seen]; [|rewrite getAndRemoveIntersection_spec in Ha];
    injection Ha as <- <-; simpl in *; do 2 f_equal.
  - unfold add. set_solver.
  - rewrite addAll_spec. apply set_eq. intros x.
    destruct (decide (x ∈ seen)); set_solver.
Qed.

(** Delivered in either order: not an identifier and a removal that saw it. *)
Definition unseen (a b : Op) : Prop :=
  match a, b with
  | DownstreamEnableFlagEW u, DownstreamDisableFlagEW seen
  | DownstreamDisableFlagEW seen, DownstreamEnableFlagEW u => u ∉ seen
  | _, _ => True
  end.

#[global] Program Instance ew_convergent : ConvergentCRDT EwFlagCrdt Op Eff := {
  compatible := unseen
}.
Next Obligation.
  intros [u|r] [u'|r'] [s] Hc; simpl in *; unfold ew_applyDownstream; simpl;
    rewrite ?getAndRemoveIntersection_spec; simpl;
    rewrite ?getAndRemoveIntersection_spec; do 2 f_equal; unfold add; set_solver.
Qed.
End EwFlag.

Module DwFlag.
Record DwFlagCrdt := mkDw { disables : UniqueSet }.
Inductive Op :=
| DownstreamEnableFlagDW (Seen : UniqueSet)
| DownstreamDisableFlagDW (Unique : Z).
(** [applyDisableFlag] records an [EnableEWEffect] (of ewFlag.go). *)
Inductive Eff :=
| EnableDWEffect (Removed : UniqueSet)
| DisableDWEffect (Unique : Z)
| EnableEWEffect (Unique : Z).

Definition Initialize : DwFlagCrdt := mkDw makeUniqueSet.
Definition GetValue (crdt : DwFlagCrdt) : bool := (size (disables crdt) =? 0)%nat.
Definition Read (crdt : DwFlagCrdt) (upds : list FlagUpd) : bool :=
  flag_Read (GetValue crdt) upds.

Definition Update (rnd : Z) (crdt : DwFlagCrdt) (args : FlagUpd) : Op :=
  match args with
  | EnableFlag => DownstreamEnableFlagDW (copy (disables crdt))
  | DisableFlag => DownstreamDisableFlagDW rnd
  end.

Definition dw_applyDownstream (crdt : DwFlagCrdt) (op : Op)
  : option (DwFlagCrdt * option Eff) :=
  Some match op with
       | DownstreamEnableFlagDW seen =>
           let '(set, removed) := getAndRemoveIntersection (disables crdt) seen in
           (mkDw set, Some (EnableDWEffect removed))
       | DownstreamDisableFlagDW u => (mkDw (add (disables crdt) u), Some (EnableEWEffect u))
       end.

Definition dw_undoEffect (crdt : DwFlagCrdt) (effect : option Eff) : option DwFlagCrdt :=
  match effect with
  | None => None
  | Some (EnableDWEffect removed) => Some (mkDw (addAll (disables crdt) removed))
  | Some (DisableDWEffect u) => Some (mkDw (disables crdt ∖ {[ u ]}))
  | Some (EnableEWEffect _) => Some crdt
  end.

#[global] Instance dw_inversible : InversibleOps DwFlagCrdt Op Eff := {
  applyDownstream := dw_applyDownstream;
  undoEffect := dw_undoEffect
}.

Definition unseen (a b : Op) : Prop :=
  match a, b with
  | DownstreamDisableFlagDW u, DownstreamEnableFlagDW seen
  | DownstreamEnableFlagDW seen, DownstreamDisableFlagDW u => u ∉ seen
  | _, _ => True
  end.

#[global] Program Instance dw_convergent : ConvergentCRDT DwFlagCrdt Op Eff := {
  compatible := unseen
}.
Next Obligation.
  intros [r|u] [r'|u'] [s] Hc; simpl in *; unfold dw_applyDownstream; simpl;
    rewrite ?getAndRemoveIntersection_spec; simpl;
    rewrite ?getAndRemoveIntersection_spec; do 2 f_equal; unfold add; set_solver.
Qed.

(** Undoing a disable leaves the flag disabled: the effect recorded for it is
    the one [undoEffect] ignores. *)
Lemma undo_disable_ignored u s s' eff :
  applyDownstream s (DownstreamDisableFlagDW u) = Some (s', eff) ->
  undoEffect s' eff = Some s' /\ GetValue s' = false.
Proof.
  intros Ha. simpl in *. injection Ha as <- <-. split; [done|].
  unfold GetValue, add. simpl. apply Nat.eqb_neq.
  intros E%size_empty_inv. set_solver.
Qed.
End DwFlag.
