(* ===== verification/SetAW.v ===== *)
(** * The add-wins set: src/crdt/crdt/setAWCrdt.go

    The set maps each element to the identifiers of the adds that put it there;
    an element is present while it has one.  Reads take the updates of the
    transaction that are not applied yet into account ([getState], [lookup],
    [getNElements]). *)

From S2P Require Import Prelude ClockSI Inversible Convergence Sets.
From Stdlib Require Import ZArith Lia Bool.
From stdpp Require Import base tactics numbers strings gmap sorting list.
Import Uniques.

(** ** State and operations *)

Record SetAWCrdt := mkSetAW { elems : gmap Element UniqueSet }.

Inductive UpdArgs :=
| Add (elem : Element)
| Remove (elem : Element)
| AddAll (es : list Element)
| RemoveAll (es : list Element).

Inductive Op :=
| DownstreamAddAll (Elems : gmap Element Z)
| DownstreamRemoveAll (Elems : gmap Element UniqueSet).

Inductive Eff :=
| AddAllEffect (AddedMap : gmap Element Z)
| RemoveAllEffect (RemovedMap : gmap Element UniqueSet).

Definition Initialize : SetAWCrdt := mkSetAW ∅.
Definition IsBigCRDT (crdt : SetAWCrdt) : bool := (100 <? size (elems crdt))%nat.

(** ** Reads *)

(** One pending update, the latest first: the latest update of an element is
    the one that matters. *)
Definition getState_adds (es : list Element) (st : gset Element * gset Element)
  : gset Element * gset Element :=
  foldl (fun '(adds, rems) elem =>
           if decide (elem ∈ rems) then (adds, rems) else ({[ elem ]} ∪ adds, rems))
    st es.
Definition getState_rems (es : list Element) (st : gset Element * gset Element)
  : gset Element * gset Element :=
  foldl (fun '(adds, rems) elem =>
           if decide (elem ∈ adds) then (adds, rems) else (adds, {[ elem ]} ∪ rems))
    st es.

Definition getState_upd (st : gset Element * gset Element) (upd : UpdArgs)
  : gset Element * gset Element :=
  match upd with
  | Add e => getState_adds [e] st
  | AddAll es => getState_adds es st
  | Remove e => getState_rems [e] st
  | RemoveAll es => getState_rems es st
  end.

Definition getState (crdt : SetAWCrdt) (updsNotYetApplied : list UpdArgs)
  : list Element :=
  match updsNotYetApplied with
  | [] => (map_to_list (elems crdt)).*1
  | _ =>
      let '(adds, rems) := foldl getState_upd (∅, ∅) (rev updsNotYetApplied) in
      List.filter (fun elem => bool_decide (elem ∉ rems)) (map_to_list (elems crdt)).*1
      ++ List.filter (fun elem => bool_decide (elem ∉ dom (elems crdt))) (elements adds)
  end.

Definition getNElements (crdt : SetAWCrdt) (updsNotYetApplied : list UpdArgs) : nat :=
  match updsNotYetApplied with
  | [] => size (elems crdt)
  | _ => length (getState crdt updsNotYetApplied)
  end.

Fixpoint lookup_loop (elem : Element) (hasElem : bool) (upds : list UpdArgs) : bool :=
  match upds with
  | [] => hasElem
  | Add e :: rest =>
      if decide (e = elem) then true else lookup_loop elem hasElem rest
  | AddAll es :: rest =>
      if existsb (fun e => bool_decide (e = elem)) es then true
      else lookup_loop elem hasElem rest
  | Remove e :: rest =>
      if decide (e = elem) then false else lookup_loop elem hasElem rest
  | RemoveAll es :: rest =>
      if existsb (fun e => bool_decide (e = elem)) es then false
      else lookup_loop elem hasElem rest
  end.

Definition lookup (crdt : SetAWCrdt) (elem : Element)
    (updsNotYetApplied : list UpdArgs) : bool :=
  lookup_loop elem (bool_decide (elem ∈ dom (elems crdt))) (rev updsNotYetApplied).

(** ** Updates *)

(** [rnd i] is the [i]-th identifier drawn by [crdt.random.Int63()]. *)
Definition getAddAllDownstreamArgs (rnd : nat -> Z) (es : list Element) : Op :=
  DownstreamAddAll
    (foldl (fun uniqueMap '(i, key) => <[key := rnd i]> uniqueMap) ∅
       (zip (seq 0 (length es)) es)).

(** [None] is [NoOp]. *)
Definition getRemoveAllDownstreamArgs (crdt : SetAWCrdt) (es : list Element) : option Op :=
  let uniqueMap :=
    foldl (fun (uniqueMap : gmap Element UniqueSet) key =>
             match elems crdt !! key with
             | Some elem => <[key := copy elem]> uniqueMap
             | None => uniqueMap
             end) ∅ es in
  if (size uniqueMap =? 0)%nat then None else Some (DownstreamRemoveAll uniqueMap).

Definition Update (rnd : nat -> Z) (crdt : SetAWCrdt) (args : UpdArgs) : option Op :=
  match args with
  | Add e => Some (getAddAllDownstreamArgs rnd [e])
  | Remove e => getRemoveAllDownstreamArgs crdt [e]
  | AddAll es => Some (getAddAllDownstreamArgs rnd es)
  | RemoveAll es => getRemoveAllDownstreamArgs crdt es
  end.

(** ** Downstream and its inverse *)

Definition applyAddAll_step (m : gmap Element UniqueSet) (e : Element * Z)
  : gmap Element UniqueSet :=
  let '(key, newUnique) := e in
  match m !! key with
  | Some existingUniques => <[key := add existingUniques newUnique]> m
  | None => <[key := add makeUniqueSet newUnique]> m
  end.

Definition applyAddAll (crdt : SetAWCrdt) (toAdd : gmap Element Z)
  : SetAWCrdt * option Eff :=
  (mkSetAW (foldl applyAddAll_step (elems crdt) (map_to_list toAdd)),
   Some (AddAllEffect toAdd)).

Definition applyRemoveAll_step
    (st : gmap Element UniqueSet * gmap Element UniqueSet) (e : Element * UniqueSet)
  : gmap Element UniqueSet * gmap Element UniqueSet :=
  let '(m, removedMap) := st in
  let '(key, uniquesToRem) := e in
  match m !! key with
  | Some existingUniques =>
      let '(set, removed) := getAndRemoveIntersection existingUniques uniquesToRem in
      (if (size set =? 0)%nat then delete key m else <[key := set]> m,
       <[key := removed]> removedMap)
  | None => (m, removedMap)
  end.

Definition applyRemoveAll (crdt : SetAWCrdt) (toRem : gmap Element UniqueSet)
  : SetAWCrdt * option Eff :=
  let '(m, removedMap) :=
    foldl applyRemoveAll_step (elems crdt, ∅) (map_to_list toRem) in
  (mkSetAW m, Some (RemoveAllEffect removedMap)).

Definition set_applyDownstream (crdt : SetAWCrdt) (op : Op)
  : option (SetAWCrdt * option Eff) :=
  Some match op with
       | DownstreamAddAll m => applyAddAll crdt m
       | DownstreamRemoveAll m => applyRemoveAll crdt m
       end.

Definition undoAddAll_step (m : gmap Element UniqueSet) (e : Element * Z)
  : gmap Element UniqueSet :=
  let '(key, uniqueToRem) := e in
  match m !! key with
  | Some existingUniques =>
      let set := existingUniques ∖ {[ uniqueToRem ]} in
      if (size set =? 0)%nat then delete key m else <[key := set]> m
  | None => m
  end.

Definition undoRemoveAll_step (m : gmap Element UniqueSet) (e : Element * UniqueSet)
  : gmap Element UniqueSet :=
  let '(key, uniquesToAdd) := e in
  match m !! key with
  | Some existingUniques => <[key := addAll existingUniques uniquesToAdd]> m
  | None => <[key := addAll makeUniqueSet uniquesToAdd]> m
  end.

Definition set_undoEffect (crdt : SetAWCrdt) (effect : option Eff) : option SetAWCrdt :=
  match effect with
  | None => None
  | Some (AddAllEffect added) =>
      Some (mkSetAW (foldl undoAddAll_step (elems crdt) (map_to_list added)))
  | Some (RemoveAllEffect removed) =>
      Some (mkSetAW (foldl undoRemoveAll_step (elems crdt) (map_to_list removed)))
  end.

#[export] Instance set_inversible : InversibleOps SetAWCrdt Op Eff := {
  applyDownstream := set_applyDownstream;
  undoEffect := set_undoEffect
}.

(** ** The loops, element by element *)

(** The identifiers left, or no entry when there is none. *)
Definition nonempty (set : UniqueSet) : option UniqueSet :=
  if (size set =? 0)%nat then None else Some set.

Lemma nonempty_spec set : nonempty set = if decide (set = ∅) then None else Some set.
Proof.
  unfold nonempty. case_decide as E; [by rewrite E|].
  destruct (Nat.eqb_spec (size set) 0) as [Es|]; [|done].
  by apply size_empty_inv, leibniz_equiv in Es.
Qed.

Lemma applyAddAll_lookup s toAdd k :
  elems (fst (applyAddAll s toAdd)) !! k =
    match toAdd !! k with
    | Some u => Some (add (default ∅ (elems s !! k)) u)
    | None => elems s !! k
    end.
Proof.
  simpl. rewrite (map_loop_lookup (fun u ex => Some (add (default ∅ ex) u))); [done|].
  intros m key u k'. simpl. destruct (m !! key) eqn:E; case_decide; subst;
    by rewrite ?lookup_insert_eq, ?lookup_insert_ne by done.
Qed.

Lemma delete_or_insert_lookup (m : gmap Element UniqueSet) key set k' :
  (if (size set =? 0)%nat then delete key m else <[key := set]> m) !! k' =
    if decide (k' = key) then nonempty set else m !! k'.
Proof.
  unfold nonempty. destruct (size set =? 0)%nat; case_decide; subst;
    by rewrite ?lookup_insert_eq, ?lookup_insert_ne, ?lookup_delete_eq,
      ?lookup_delete_ne by done.
Qed.

Lemma undoAddAll_lookup m added k :
  foldl undoAddAll_step m (map_to_list added) !! k =
    match added !! k with
    | Some u => ex ← m !! k; nonempty (ex ∖ {[ u ]})
    | None => m !! k
    end.
Proof.
  apply (map_loop_lookup (fun u ex => ex ← ex; nonempty (ex ∖ {[ u ]}))).
  intros m' key u k'. simpl. destruct (m' !! key) eqn:E; simpl.
  - apply delete_or_insert_lookup.
  - case_decide; by subst.
Qed.

Lemma undoRemoveAll_lookup m removed k :
  foldl undoRemoveAll_step m (map_to_list removed) !! k =
    match removed !! k with
    | Some us => Some (us ∪ default ∅ (m !! k))
    | None => m !! k
    end.
Proof.
  apply (map_loop_lookup (fun us ex => Some (us ∪ default ∅ ex))).
  intros m' key us k'. simpl. destruct (m' !! key) eqn:E; case_decide; subst;
    rewrite ?lookup_insert_eq, ?lookup_insert_ne by done; try done;
    by rewrite addAll_spec.
Qed.

Lemma applyRemoveAll_loop_fst l m r :
  fst (foldl applyRemoveAll_step (m, r) l) =
    foldl (fun m e => fst (applyRemoveAll_step (m, ∅) e)) m l.
Proof.
  revert m r. induction l as [|[key us] l IH]; intros m r; simpl; [done|].
  destruct (m !! key) as [ex|]; simpl; [|apply IH].
  destruct (getAndRemoveIntersection ex us). apply IH.
Qed.

Lemma applyRemoveAll_lookup s toRem k :
  elems (fst (applyRemoveAll s toRem)) !! k =
    match toRem !! k with
    | Some us => ex ← elems s !! k; nonempty (ex ∖ us)
    | None => elems s !! k
    end.
Proof.
  unfold applyRemoveAll.
  pose proof (applyRemoveAll_loop_fst (map_to_list toRem) (elems s) ∅) as E.
  destruct (foldl applyRemoveAll_step (elems s, ∅) (map_to_list toRem)) as [m r].
  simpl in *. rewrite E.
  apply (map_loop_lookup (fun us ex => ex ← ex; nonempty (ex ∖ us))).
  intros m' key us k'. simpl. destruct (m' !! key) as [ex|] eqn:Ek; simpl.
  - rewrite getAndRemoveIntersection_spec. simpl. apply delete_or_insert_lookup.
  - case_decide; by subst.
Qed.

Lemma removedMap_loop l m r k :
  NoDup (l.*1) ->
  snd (foldl applyRemoveAll_step (m, r) l) !! k =
    match (list_to_map l : gmap Element UniqueSet) !! k, m !! k with
    | Some us, Some ex => Some (ex ∩ us)
    | _, _ => r !! k
    end.
Proof.
  revert m r. induction l as [|[key us] l IH]; intros m r Hnd; simpl.
  { by rewrite lookup_empty. }
  rewrite fmap_cons, NoDup_cons in Hnd. destruct Hnd as [Hn Hnd].
  destruct (m !! key) as [ex|] eqn:Em.
  - rewrite getAndRemoveIntersection_spec, IH by done.
    rewrite delete_or_insert_lookup.
    destruct (decide (k = key)) as [->|Hne].
    + rewrite lookup_insert_eq, not_elem_of_list_to_map_1 by done.
      by rewrite lookup_insert_eq, Em.
    + rewrite (lookup_insert_ne (list_to_map l)) by done.
      rewrite lookup_insert_ne by done. done.
  - rewrite IH by done. destruct (decide (k = key)) as [->|Hne].
    + rewrite lookup_insert_eq, not_elem_of_list_to_map_1, Em by done. done.
    + by rewrite lookup_insert_ne.
Qed.

Lemma applyRemoveAll_removed s toRem :
  exists removed, snd (applyRemoveAll s toRem) = Some (RemoveAllEffect removed) /\
    forall k, removed !! k = us ← toRem !! k; ex ← elems s !! k; Some (ex ∩ us).
Proof.
  unfold applyRemoveAll.
  pose proof (fun k => removedMap_loop (map_to_list toRem) (elems s) ∅ k
    (NoDup_fst_map_to_list toRem)) as E.
  destruct (foldl applyRemoveAll_step (elems s, ∅) (map_to_list toRem)) as [m r].
  exists r. split; [done|]. intros k. simpl in E. rewrite E, list_to_map_to_list.
  destruct (toRem !! k), (elems s !! k); by rewrite ?lookup_empty.
Qed.

(** ** Well-formedness: an element of the set has an identifier *)

Definition wf (s : SetAWCrdt) : Prop := map_Forall (fun _ us => us <> ∅) (elems s).

Lemma wf_nonempty s k ex : wf s -> elems s !! k = Some ex -> nonempty ex = Some ex.
Proof.
  intros Hw Hk. rewrite nonempty_spec. case_decide; [|done].
  by destruct (Hw k ex Hk).
Qed.

Lemma nonempty_ne set us : nonempty set = Some us -> us <> ∅.
Proof. rewrite nonempty_spec. case_decide; congruence. Qed.

Lemma wf_deliver s op s' : wf s -> deliver s [op] = Some s' -> wf s'.
Proof.
  intros Hw Hd k us Hk. simpl in Hd. unfold set_applyDownstream in Hd.
  destruct op as [m|m].
  - change (Some (fst (applyAddAll s m)) = Some s') in Hd. simplify_eq.
    rewrite applyAddAll_lookup in Hk. destruct (m !! k) as [u|]; [|by eapply Hw].
    simplify_eq. unfold add. set_solver.
  - pose proof (applyRemoveAll_lookup s m k) as E.
    destruct (applyRemoveAll s m) as [s1 e]. simpl in *. simplify_eq.
    rewrite E in Hk. destruct (m !! k) as [r|]; [|by eapply Hw].
    apply bind_Some in Hk as (ex & He & Hn). by eapply nonempty_ne.
Qed.

(** ** Undoing an update *)

(** The identifiers of an add are new to the replica. *)
Definition fresh (s : SetAWCrdt) (op : Op) : Prop :=
  wf s /\
  match op with
  | DownstreamAddAll m =>
      forall k u ex, m !! k = Some u -> elems s !! k = Some ex -> u ∉ ex
  | DownstreamRemoveAll _ => True
  end.

#[export] Program Instance set_laws : InversibleLaws SetAWCrdt Op Eff := {
  op_valid := fresh
}.
Next Obligation.
  intros [s] op s' eff [Hw Hf] Ha. simpl in *. unfold set_applyDownstream in Ha.
  destruct op as [m|m].
  - assert (Ea : applyAddAll (mkSetAW s) m = (s', eff)) by congruence.
    assert (Es : s' = fst (applyAddAll (mkSetAW s) m)) by (by rewrite Ea).
    assert (Ee : eff = Some (AddAllEffect m)) by (by injection Ea). subst eff. simpl.
    do 2 f_equal. apply map_eq. intros k. rewrite undoAddAll_lookup.
    subst s'. pose proof (applyAddAll_lookup (mkSetAW s) m k) as E.
    simpl in *. rewrite E. destruct (m !! k) as [u|] eqn:Em; [|done]. simpl.
    destruct (s !! k) as [ex|] eqn:Es; simpl; unfold add.
    + specialize (Hf k u ex Em Es).
      assert (({[u]} ∪ ex) ∖ {[u]} = ex) as -> by set_solver.
      apply (wf_nonempty (mkSetAW s) k); done.
    + rewrite nonempty_spec. rewrite decide_True by set_solver. done.
  - destruct (applyRemoveAll_removed (mkSetAW s) m) as (r & Er & Hr).
    pose proof (applyRemoveAll_lookup (mkSetAW s) m) as El.
    destruct (applyRemoveAll (mkSetAW s) m) as [s1 e1]. simpl in *. simplify_eq.
    simpl. do 2 f_equal. apply map_eq. intros k.
    rewrite undoRemoveAll_lookup, Hr, El.
    destruct (m !! k) as [us|]; simpl; [|done].
    destruct (s !! k) as [ex|] eqn:Es; simpl; [|done]. f_equal.
    rewrite nonempty_spec. apply set_eq. intros x.
    case_decide as E; simpl; destruct (decide (x ∈ us)); set_solver.
Qed.

(** ** Convergence *)

(** Delivered in either order: unless one is an add that the other, a removal,
    has seen. *)
Definition unseen_by (adds : gmap Element Z) (rems : gmap Element UniqueSet) : Prop :=
  forall k u us, adds !! k = Some u -> rems !! k = Some us -> u ∉ us.

Definition concurrent_ops (a b : Op) : Prop :=
  match a, b with
  | DownstreamAddAll adds, DownstreamRemoveAll rems
  | DownstreamRemoveAll rems, DownstreamAddAll adds => unseen_by adds rems
  | _, _ => True
  end.

(** The effect of an operation on the identifiers of one element. *)
Definition elem_effect (op : Op) (k : Element) (ex : option UniqueSet) : option UniqueSet :=
  match op with
  | DownstreamAddAll m =>
      match m !! k with Some u => Some (add (default ∅ ex) u) | None => ex end
  | DownstreamRemoveAll m =>
      match m !! k with Some us => ex ← ex; nonempty (ex ∖ us) | None => ex end
  end.

Lemma deliver_one s op :
  exists s', deliver s [op] = Some s' /\
    forall k, elems s' !! k = elem_effect op k (elems s !! k).
Proof.
  simpl. unfold set_applyDownstream. destruct op as [m|m].
  - eexists. split; [reflexivity|]. apply (applyAddAll_lookup s m).
  - pose proof (applyRemoveAll_lookup s m) as E.
    destruct (applyRemoveAll s m) as [s1 e]. by exists s1.
Qed.

Lemma deliver_two s a b :
  exists s', deliver s [a; b] = Some s' /\
    forall k, elems s' !! k = elem_effect b k (elem_effect a k (elems s !! k)).
Proof.
  destruct (deliver_one s a) as (s1 & H1 & E1).
  destruct (deliver_one s1 b) as (s2 & H2 & E2). exists s2.
  change [a; b] with ([a] ++ [b]). rewrite deliver_app, H1. split; [done|].
  intros k. by rewrite E2, E1.
Qed.

Lemma elem_effect_comm a b k ex :
  concurrent_ops a b ->
  elem_effect a k (elem_effect b k ex) = elem_effect b k (elem_effect a k ex).
Proof.
  intros Hc. unfold elem_effect.
  destruct a as [ma|ma], b as [mb|mb]; simpl in *;
    destruct (ma !! k) as [x|] eqn:Ea, (mb !! k) as [y|] eqn:Eb; try done.
  - f_equal. unfold add. destruct ex; set_solver.
  - pose proof (Hc k x y Ea Eb) as Hxy.
    destruct ex as [us|]; simpl in *; rewrite !nonempty_spec; unfold add.
    + repeat case_decide; simpl; f_equal; set_solver.
    + repeat case_decide; simpl; f_equal; set_solver.
  - pose proof (Hc k y x Eb Ea) as Hxy.
    destruct ex as [us|]; simpl in *; rewrite !nonempty_spec; unfold add.
    + repeat case_decide; simpl; f_equal; set_solver.
    + repeat case_decide; simpl; f_equal; set_solver.
  - destruct ex as [us|]; simpl in *; [|done]. rewrite !nonempty_spec.
    repeat case_decide; simpl; rewrite ?nonempty_spec; repeat case_decide;
      try done; f_equal; set_solver.
Qed.

#[export] Program Instance set_convergent : ConvergentCRDT SetAWCrdt Op Eff := {
  compatible := concurrent_ops
}.
Next Obligation.
  intros a b s Hc.
  destruct (deliver_two s a b) as ([m1] & -> & E1).
  destruct (deliver_two s b a) as ([m2] & -> & E2).
  do 2 f_equal. apply map_eq. intros k. simpl in *. rewrite E1, E2.
  symmetry. by apply elem_effect_comm.
Qed.

(** ** What a transaction reads *)

(** The state after the updates of a transaction are prepared and applied one
    after the other; [rnd n i] is the [i]-th identifier drawn for the [n]-th. *)
Fixpoint apply_updates (rnd : nat -> nat -> Z) (n : nat) (s : SetAWCrdt)
    (upds : list UpdArgs) : SetAWCrdt :=
  match upds with
  | [] => s
  | upd :: rest =>
      apply_updates rnd (S n)
        match Update (rnd n) s upd with
        | Some op => match set_applyDownstream s op with
                     | Some (s, _) => s
                     | None => s
                     end
        | None => s
        end rest
  end.

(** Whether the last update that names an element adds it. *)
Definition upd_elem (e : Element) (upd : UpdArgs) : option bool :=
  match upd with
  | Add x => if decide (x = e) then Some true else None
  | AddAll xs => if decide (e ∈ xs) then Some true else None
  | Remove x => if decide (x = e) then Some false else None
  | RemoveAll xs => if decide (e ∈ xs) then Some false else None
  end.

(** Membership of [e] after the updates, from [present]. *)
Definition member_after (e : Element) (present : bool) (upds : list UpdArgs) : bool :=
  foldl (fun present upd => default present (upd_elem e upd)) present upds.

Lemma existsb_elem (e : Element) xs :
  existsb (fun x => bool_decide (x = e)) xs = bool_decide (e ∈ xs).
Proof.
  induction xs as [|x xs IH]; simpl; [done|]. rewrite IH.
  repeat case_bool_decide; set_solver.
Qed.

Lemma lookup_loop_app e h l1 l2 :
  lookup_loop e h (l1 ++ l2) = lookup_loop e (lookup_loop e h l2) l1.
Proof.
  induction l1 as [|[x|x|xs|xs] l1 IH]; simpl; try done;
    rewrite IH; by repeat case_match.
Qed.

Lemma lookup_spec s e upds :
  lookup s e upds = member_after e (bool_decide (e ∈ dom (elems s))) upds.
Proof.
  unfold lookup, member_after.
  generalize (bool_decide (e ∈ dom (elems s))) as h.
  induction upds as [|u upds IH]; intros h; simpl; [done|].
  rewrite lookup_loop_app, <- IH. f_equal.
  destruct u; simpl; rewrite ?existsb_elem; repeat case_decide; try done;
    repeat case_bool_decide; done.
Qed.

(** *** The temporary sets of [getState] *)

Lemma getState_adds_spec es a r :
  getState_adds es (a, r) = ((list_to_set es ∖ r) ∪ a, r).
Proof.
  unfold getState_adds. revert a. induction es as [|e es IH]; intros a; simpl.
  - f_equal. set_solver.
  - case_decide; rewrite IH; f_equal; [set_solver|].
    apply set_eq. intros x. destruct (decide (x = e)); set_solver.
Qed.

Lemma getState_rems_spec es a r :
  getState_rems es (a, r) = (a, (list_to_set es ∖ a) ∪ r).
Proof.
  unfold getState_rems. revert r. induction es as [|e es IH]; intros r; simpl.
  - f_equal. set_solver.
  - case_decide; rewrite IH; f_equal; [set_solver|].
    apply set_eq. intros x. destruct (decide (x = e)); set_solver.
Qed.

(** What the temporary sets say of one element: added, removed or not named. *)
Definition mark (st : gset Element * gset Element) (e : Element) : option bool :=
  if decide (e ∈ st.1) then Some true
  else if decide (e ∈ st.2) then Some false else None.

Lemma getState_upd_mark st u e :
  st.1 ## st.2 ->
  (getState_upd st u).1 ## (getState_upd st u).2 /\
  mark (getState_upd st u) e =
    match mark st e with Some b => Some b | None => upd_elem e u end.
Proof.
  destruct st as [a r]. simpl. intros Hd. unfold getState_upd, mark.
  destruct u; rewrite ?getState_adds_spec, ?getState_rems_spec; simpl;
    (split; [set_solver|]); repeat case_decide; set_solver.
Qed.

Lemma getState_marks upds e :
  let st := foldl getState_upd (∅, ∅) (rev upds) in
  st.1 ## st.2 /\ forall h, member_after e h upds = default h (mark st e).
Proof.
  induction upds as [|u upds [Hd IH]]; simpl; [done|].
  rewrite foldl_app. simpl. destruct (getState_upd_mark _ u e Hd) as [Hd' Hm].
  split; [done|]. intros h. rewrite Hm. unfold member_after in *. simpl.
  rewrite IH. by destruct (mark _ e).
Qed.

Lemma elem_of_keys s e :
  e ∈ (map_to_list (elems s)).*1 <-> e ∈ dom (elems s).
Proof.
  rewrite list_elem_of_fmap, elem_of_dom. split.
  - intros ([k us] & -> & Hin%elem_of_map_to_list). by exists us.
  - intros [us Hus]. exists (e, us). by rewrite elem_of_map_to_list.
Qed.

Lemma getState_spec s upds e :
  e ∈ getState s upds <-> member_after e (bool_decide (e ∈ dom (elems s))) upds = true.
Proof.
  destruct upds as [|u upds].
  { simpl. by rewrite bool_decide_eq_true, elem_of_keys. }
  destruct (getState_marks (u :: upds) e) as [Hd ->].
  unfold getState. destruct (foldl getState_upd (∅, ∅) (rev (u :: upds))) as [a r].
  unfold mark. simpl in *. rewrite elem_of_app, !elem_of_lfilter, elem_of_keys.
  rewrite !bool_decide_eq_true, elem_of_elements.
  repeat case_decide; simpl; rewrite ?bool_decide_eq_true; set_solver.
Qed.

Lemma getState_NoDup s upds : NoDup (getState s upds).
Proof.
  destruct upds as [|u upds]; [apply NoDup_fst_map_to_list|].
  unfold getState. destruct (foldl getState_upd (∅, ∅) (rev (u :: upds))) as [a r].
  apply NoDup_app. split; [|split].
  - apply NoDup_lfilter, NoDup_fst_map_to_list.
  - intros e. rewrite !elem_of_lfilter, elem_of_keys, !bool_decide_eq_true. set_solver.
  - apply NoDup_lfilter, NoDup_elements.
Qed.

(** *** One update, prepared and applied *)

Lemma getAddAll_dom rnd es :
  match getAddAllDownstreamArgs rnd es with
  | DownstreamAddAll m => forall e, e ∈ dom m <-> e ∈ es
  | _ => False
  end.
Proof.
  unfold getAddAllDownstreamArgs.
  assert (G : forall n l (m : gmap Element Z) e,
    e ∈ dom (foldl (fun uniqueMap '(i, key) => <[key := rnd i]> uniqueMap) m
               (zip (seq n (length l)) l)) <-> e ∈ l \/ e ∈ dom m).
  { intros n l. revert n. induction l as [|x l IH]; intros n m e; simpl; [set_solver|].
    rewrite IH, dom_insert_L. set_solver. }
  intros e. rewrite G. set_solver.
Qed.

Lemma getRemoveAll_lookup s es k :
  foldl (fun (uniqueMap : gmap Element UniqueSet) key =>
           match elems s !! key with
           | Some elem => <[key := copy elem]> uniqueMap
           | None => uniqueMap
           end) ∅ es !! k =
    if decide (k ∈ es) then elems s !! k else None.
Proof.
  assert (G : forall (m : gmap Element UniqueSet),
    (forall us, m !! k = Some us -> elems s !! k = Some us) ->
    foldl (fun (uniqueMap : gmap Element UniqueSet) key =>
           match elems s !! key with
           | Some elem => <[key := copy elem]> uniqueMap
           | None => uniqueMap
           end) m es !! k =
    if decide (k ∈ es) then elems s !! k else m !! k).
  { induction es as [|x es IH]; intros m Hm; simpl; [done|].
    destruct (elems s !! x) as [ex|] eqn:Ex; rewrite ?copy_spec.
    - destruct (decide (k = x)) as [->|Hne].
      + rewrite IH by (intros us; rewrite lookup_insert_eq; congruence).
        rewrite lookup_insert_eq, Ex. repeat case_decide; set_solver.
      + rewrite IH by (intros us; rewrite lookup_insert_ne by done; apply Hm).
        rewrite lookup_insert_ne by done. repeat case_decide; set_solver.
    - rewrite IH by done. destruct (decide (k = x)) as [->|Hne].
      + rewrite Ex. destruct (m !! x) as [us|] eqn:E;
          [|by repeat case_decide].
        by rewrite (Hm us) in Ex.
      + repeat case_decide; set_solver. }
  rewrite G; [by rewrite lookup_empty|]. intros us. by rewrite lookup_empty.
Qed.

Definition apply_update (rnd : nat -> Z) (s : SetAWCrdt) (upd : UpdArgs) : SetAWCrdt :=
  match Update rnd s upd with
  | Some op => match set_applyDownstream s op with
               | Some (s, _) => s
               | None => s
               end
  | None => s
  end.

Lemma apply_update_deliver rnd s upd :
  apply_update rnd s upd =
    match Update rnd s upd with
    | Some op => default s (deliver s [op])
    | None => s
    end.
Proof.
  unfold apply_update. destruct (Update rnd s upd) as [op|]; [|done].
  change (deliver s [op]) with
    (match set_applyDownstream s op with Some (s, _) => Some s | None => None end).
  by destruct (set_applyDownstream s op) as [[]|].
Qed.

Lemma wf_apply_update rnd s upd : wf s -> wf (apply_update rnd s upd).
Proof.
  intros Hw. rewrite apply_update_deliver.
  destruct (Update rnd s upd) as [op|]; [|done].
  destruct (deliver_one s op) as (s' & Hd & _). rewrite Hd. simpl.
  by eapply wf_deliver.
Qed.

Lemma add_elems rnd s es e :
  e ∈ dom (elems (default s (deliver s [getAddAllDownstreamArgs rnd es]))) <->
  e ∈ es \/ e ∈ dom (elems s).
Proof.
  pose proof (getAddAll_dom rnd es) as Hm.
  destruct (deliver_one s (getAddAllDownstreamArgs rnd es)) as (s' & -> & E).
  destruct (getAddAllDownstreamArgs rnd es) as [m|]; [|done]. simpl in *.
  rewrite <- Hm, !elem_of_dom, E. destruct (m !! e); naive_solver.
Qed.

Lemma remove_elems s es e :
  e ∈ dom (elems match getRemoveAllDownstreamArgs s es with
                 | Some op => default s (deliver s [op])
                 | None => s
                 end) <-> e ∉ es /\ e ∈ dom (elems s).
Proof.
  unfold getRemoveAllDownstreamArgs.
  pose proof (getRemoveAll_lookup s es) as Hl.
  revert Hl. generalize (foldl (fun (uniqueMap : gmap Element UniqueSet) key =>
           match elems s !! key with
           | Some elem => <[key := copy elem]> uniqueMap
           | None => uniqueMap
           end) ∅ es) as m. intros m Hl.
  destruct (Nat.eqb_spec (size m) 0) as [Em|Em].
  - apply map_size_empty_inv in Em. subst m. rewrite elem_of_dom.
    specialize (Hl e). rewrite lookup_empty in Hl. case_decide; [|naive_solver].
    rewrite <- Hl. naive_solver.
  - destruct (deliver_one s (DownstreamRemoveAll m)) as (s' & -> & E). simpl in *.
    rewrite !elem_of_dom, E, Hl. case_decide; [|naive_solver].
    destruct (elems s !! e) as [ex|]; simpl; [|naive_solver].
    rewrite nonempty_spec, decide_True by set_solver. naive_solver.
Qed.

Lemma apply_update_member rnd s upd e :
  bool_decide (e ∈ dom (elems (apply_update rnd s upd))) =
    default (bool_decide (e ∈ dom (elems s))) (upd_elem e upd).
Proof.
  rewrite apply_update_deliver. destruct upd as [x|x|xs|xs]; cbn [Update upd_elem];
    apply eq_bool_prop_intro; rewrite bool_decide_spec.
  - rewrite add_elems. case_decide; simpl; rewrite ?bool_decide_spec; set_solver.
  - rewrite remove_elems. case_decide; simpl; rewrite ?bool_decide_spec; set_solver.
  - rewrite add_elems. case_decide; simpl; rewrite ?bool_decide_spec; set_solver.
  - rewrite remove_elems. case_decide; simpl; rewrite ?bool_decide_spec; set_solver.
Qed.

Lemma apply_updates_member rnd n s upds e :
  bool_decide (e ∈ dom (elems (apply_updates rnd n s upds))) =
    member_after e (bool_decide (e ∈ dom (elems s))) upds.
Proof.
  revert n s. induction upds as [|u upds IH]; intros n s; [done|].
  cbn [apply_updates]. fold (apply_update (rnd n) s u).
  rewrite IH, apply_update_member. done.
Qed.

(** ** Properties *)

(** A transaction reads its own writes: the elements [getState] lists with
    the updates of the transaction pending, each once, are exactly those of the
    set once the updates have been prepared and applied in order; [lookup] and
    [getNElements] agree with it. *)
Theorem set_reads_own_writes (s : SetAWCrdt) (upds : list UpdArgs)
    (rnd : nat -> nat -> Z) :
  let s' := apply_updates rnd 0 s upds in
  (forall e, e ∈ getState s upds <-> e ∈ dom (elems s')) /\
  NoDup (getState s upds) /\
  (forall e, lookup s e upds = bool_decide (e ∈ dom (elems s'))) /\
  getNElements s upds = size (elems s').
Proof.
  intros s'. assert (Hm : forall e, e ∈ getState s upds <-> e ∈ dom (elems s')).
  { intros e. rewrite getState_spec, <- (apply_updates_member rnd 0).
    by rewrite bool_decide_eq_true. }
  split; [done|]. split; [apply getState_NoDup|]. split.
  - intros e. rewrite lookup_spec. symmetry. apply apply_updates_member.
  - assert (Hs : length (getState s upds) = size (elems s')).
    { rewrite <- (size_dom (elems s')), <- (size_list_to_set (C := gset Element))
        by apply getState_NoDup.
      f_equal. apply set_eq. intros e. rewrite elem_of_list_to_set. apply Hm. }
    destruct upds; [done|]. by rewrite <- Hs.
Qed.

(** C21. Add-wins convergence: replicas of a set that applied the same
    operations, in any order in which no operation precedes one it has seen,
    hold the same identifiers; an add survives every removal that had not seen
    it, and no element is left without identifiers. *)
Theorem set_convergence (s : SetAWCrdt) (ops ops' : list Op) (e : Element) (u : Z)
    (m : gmap Element Z) :
  wf s -> all_compatible ops -> Permutation ops ops' ->
  exists s', deliver s ops = Some s' /\ deliver s ops' = Some s' /\ wf s' /\
    (DownstreamAddAll m ∈ ops -> m !! e = Some u ->
     exists us, elems s' !! e = Some us /\ u ∈ us).
Proof.
  intros Hw Hc Hp.
  assert (Hdel : forall l s, wf s -> exists s', deliver s l = Some s' /\ wf s').
  { induction l as [|op l IH]; intros s0 Hw0; [by exists s0|].
    destruct (deliver_one s0 op) as (s1 & H1 & _).
    destruct (IH s1) as (s2 & H2 & Hw2); [by eapply wf_deliver|].
    exists s2. change (op :: l) with ([op] ++ l). by rewrite deliver_app, H1. }
  destruct (Hdel ops s Hw) as (s' & Hs' & Hw'). exists s'. split; [done|].
  split; [by rewrite <- (deliver_permutation s ops ops' Hp Hc)|]. split; [done|].
  intros Hin Hm. apply elem_of_Permutation in Hin as [l Hl].
  pose proof (all_compatible_perm _ _ Hl Hc) as Hcl.
  rewrite (deliver_permutation s _ _ Hl Hc) in Hs'.
  change (DownstreamAddAll m :: l) with ([DownstreamAddAll m] ++ l) in Hs'.
  rewrite deliver_app in Hs'.
  destruct (deliver_one s (DownstreamAddAll m)) as (s1 & H1 & E1). rewrite H1 in Hs'.
  assert (Hl1 : exists us, elems s1 !! e = Some us /\ u ∈ us).
  { rewrite E1. simpl. rewrite Hm. eexists. split; [done|]. unfold add. set_solver. }
  assert (Hsurv : Forall (fun op => concurrent_ops (DownstreamAddAll m) op) l).
  { apply Forall_lookup. intros i op Hop. by apply (Hcl 0%nat (S i)). }
  clear -Hl1 Hsurv Hs' Hm. revert s1 Hl1 Hs'.
  induction Hsurv as [|op l Hop _ IH]; intros s1 (us & Hus & Hu) Hd;
    [simpl in Hd; simplify_eq; eauto|].
  change (op :: l) with ([op] ++ l) in Hd. rewrite deliver_app in Hd.
  destruct (deliver_one s1 op) as (s2 & H2 & E2). rewrite H2 in Hd.
  apply (IH s2); [|done]. rewrite E2, Hus. destruct op as [m'|m']; simpl in *.
  - destruct (m' !! e) as [u'|]; [|eauto]. eexists. split; [done|].
    unfold add. simpl. set_solver.
  - destruct (m' !! e) as [r|] eqn:Er; [|eauto]. simpl.
    specialize (Hop e u r Hm Er). rewrite nonempty_spec, decide_False by set_solver.
    eexists. split; [done|]. set_solver.
Qed.

Definition ex_add : Op := DownstreamAddAll {[ "a"%string := 2%Z ]}.
Definition ex_rem : Op := DownstreamRemoveAll {[ "a"%string := {[ 1%Z ]} ]}.
Definition ex_set : SetAWCrdt := mkSetAW {[ "a"%string := {[ 1%Z ]} ]}.

Lemma ex_compatible : all_compatible [ex_add; ex_rem].
Proof.
  assert (H : unseen_by {[ "a"%string := 2%Z ]} {[ "a"%string := {[ 1%Z ]} ]}).
  { intros k u us [<- <-]%lookup_singleton_Some [_ <-]%lookup_singleton_Some.
    rewrite elem_of_singleton. discriminate. }
  intros [|[|i]] [|[|j]] x y Hij Hx Hy; simplify_eq/=; exact H.
Qed.

Lemma set_convergence_witness :
  exists s', deliver ex_set [ex_add; ex_rem] = Some s' /\
    deliver ex_set [ex_rem; ex_add] = Some s' /\
    exists us, elems s' !! "a"%string = Some us /\ 2%Z ∈ us.
Proof.
  destruct (set_convergence ex_set [ex_add; ex_rem] [ex_rem; ex_add] "a" 2
              {[ "a"%string := 2%Z ]}) as (s' & H1 & H2 & _ & H3).
  - intros k us Hk. unfold ex_set in Hk. simpl in Hk. apply lookup_singleton_Some in Hk as [_ <-]. set_solver.
  - apply ex_compatible.
  - apply perm_swap.
  - exists s'. split; [exact H1|]. split; [exact H2|].
    apply H3; [left|reflexivity].
Defined.

(** Identifiers are drawn from a generator seeded with the time in seconds, so
    two replicas that create the set in the same second draw the same ones; the
    add and the removal below were issued concurrently, and the replicas
    diverge. *)
Lemma same_seed_diverges :
  let add1 := DownstreamAddAll {[ "a"%string := 7%Z ]} in
  let add2 := DownstreamAddAll {[ "a"%string := 7%Z ]} in
  let rem1 := DownstreamRemoveAll {[ "a"%string := {[ 7%Z ]} ]} in
  option_map (fun s => lookup s "a" []) (deliver Initialize [add1; rem1; add2]) = Some true /\
  option_map (fun s => lookup s "a" []) (deliver Initialize [add2; add1; rem1]) = Some false.
Proof. split; vm_compute; reflexivity. Qed.
