(* ===== verification/Versions.v ===== *)
(** * Rebuilding versions of a CRDT, end to end

    [run] applies a sequence of updates, each at its clock, recording the
    history; the theorems relate what [rebuildCRDTToVersion] and [GC] of
    src/crdt/crdt/inversibleCrdt.go make of that history to the updates
    themselves.  They hold for every CRDT that satisfies [InversibleLaws], of the
    object that the functions of the CRDT are bound to; the witnesses use the
    counter.  In the program the functions are bound to the receiver of
    Initialize, which is not the object that is rebuilt: what a read of an old
    version then shows is [VersionManager.ReadOld_reads_latest]. *)

From S2P Require Import Prelude ClockSI Inversible Convergence Counters.
From Stdlib Require Import ZArith Lia Bool Sorted.
From stdpp Require Import base tactics numbers gmap sorting list.
#[local] Open Scope Z_scope.

Section versions.
Context {St Op Eff : Type} `{HL : InversibleLaws St Op Eff}.

Fixpoint run (crdt : St * list (History Op Eff)) (upds : list (vclock * Op))
  : option (St * list (History Op Eff)) :=
  match upds with
  | [] => Some crdt
  | (ts, op) :: rest =>
      match Downstream false crdt ts op with
      | Some crdt => run crdt rest
      | None => None
      end
  end.

(** Every update is one the CRDT can undo where it is applied. *)
Fixpoint run_valid (s : St) (upds : list (vclock * Op)) : Prop :=
  match upds with
  | [] => True
  | (_, op) :: rest =>
      op_valid s op /\
      match applyDownstream s op with
      | Some (s, _) => run_valid s rest
      | None => True
      end
  end.

Definition lower (a b : vclock) : Prop := IsLower a (Some b) = true.

Definition comparable (targetTs ts : vclock) : Prop :=
  same_dom ts targetTs /\ Compare ts (Some targetTs) <> ConcurrentTs.

Definition up_to (targetTs : vclock) (upds : list (vclock * Op)) : list Op :=
  (List.filter (fun '(ts, _) => IsLowerOrEqual ts (Some targetTs)) upds).*2.

(** A history entry records one update. *)
Definition records (h : History Op Eff) (upd : vclock * Op) : Prop :=
  h_ts h = upd.1 /\ h_updsArgs h = [upd.2].

Lemma sorted_last (l : list vclock) x y :
  StronglySorted lower (l ++ x :: y) -> Forall (lower x) y.
Proof.
  induction l as [|z l IH]; simpl; intros Hs;
    apply StronglySorted_inv in Hs as [Hs Hall]; auto.
Qed.

Lemma run_history s0 h s done upds s' h' :
  recorded s0 h s -> Forall2 records h done -> run_valid s upds ->
  StronglySorted lower ((done ++ upds).*1) ->
  run (s, h) upds = Some (s', h') ->
  recorded s0 h' s' /\ Forall2 records h' (done ++ upds).
Proof.
  revert s h done. induction upds as [|[ts op] upds IH]; intros s h done Hr Hd Hv Hs Hrun.
  { simpl in Hrun. injection Hrun as <- <-. by rewrite app_nil_r. }
  cbn [run] in Hrun. destruct Hv as [Hv1 Hv2].
  destruct (Downstream false (s, h) ts op) as [[s1 h1]|] eqn:Ed; [|discriminate].
  assert (Hlast : forall x, last h = Some x -> IsEqual (h_ts x) (Some ts) = false).
  { intros x [l ->]%last_Some.
    apply Forall2_app_inv_l in Hd as (d1 & d2 & _ & Hd2 & ->).
    destruct d2 as [|[t o] d2]; inversion Hd2 as [|???? [Et _] Hnil]; subst.
    inversion Hnil; subst. rewrite <- app_assoc, fmap_app in Hs. simpl in Hs, Et.
    apply sorted_last in Hs. apply Forall_cons in Hs as [Hx _].
    unfold lower in Hx. rewrite IsLower_bools in Hx. rewrite Et, IsEqual_bools.
    by destruct (gt_in t ts), (lt_in t ts). }
  pose proof (recorded_Downstream s0 h s ts op s1 h1 Hr Hv1 Hlast Ed) as Hr1.
  unfold Downstream in Ed.
  destruct (applyDownstream s op) as [[s2 eff]|] eqn:Ea; [|discriminate].
  assert (Eh : addToHistory false h ts op eff = h ++ [mkHistory ts [op] [eff]]).
  { unfold addToHistory. destruct (last h) as [x|]; [|reflexivity].
    by rewrite (Hlast x). }
  rewrite Eh in Ed. injection Ed as <- <-.
  rewrite (cons_middle (ts, op)), app_assoc in Hs |- *.
  apply (IH s2 (h ++ [mkHistory ts [op] [eff]]) (done ++ [(ts, op)])); try assumption.
  apply Forall2_app; [assumption|]. by repeat constructor.
Qed.

Lemma deliver_reapply (s : St) ops : deliver s ops = fst <$> reapply_ops s ops.
Proof.
  revert s. induction ops as [|op ops IH]; intros s; [done|]. cbn [deliver reapply_ops].
  destruct (applyDownstream s op) as [[s1 e]|]; [|done]. rewrite IH.
  by destruct (reapply_ops s1 ops) as [[]|].
Qed.

Lemma filter_records targetTs h upds :
  Forall2 records h upds ->
  mjoin (h_updsArgs <$> List.filter (in_version targetTs) h) = up_to targetTs upds.
Proof.
  unfold up_to. induction 1 as [|x [ts op] h upds [Ht Ho] _ IH]; [done|].
  cbn [List.filter]. unfold in_version at 1. simpl in Ht, Ho. rewrite Ht.
  destruct (IsLowerOrEqual ts (Some targetTs)); [|done].
  rewrite !fmap_cons. simpl in *. rewrite Ho. simpl. by f_equal.
Qed.

(** What [run] promises about its history, for the lemmas on rebuilding. *)
Lemma run_recorded s0 upds s h targetTs :
  run (s0, []) upds = Some (s, h) -> run_valid s0 upds ->
  StronglySorted lower (upds.*1) -> Forall (comparable targetTs) (upds.*1) ->
  recorded s0 h s /\ Forall2 records h upds /\
  StronglySorted clock_before h /\ Forall (comparable_to targetTs) h.
Proof.
  intros Hrun Hv Hs Hc.
  destruct (run_history s0 [] s0 [] upds s h) as [Hr Hf];
    [constructor|constructor|done|done|done|]. simpl in Hf.
  split; [done|]. split; [done|]. clear Hr Hrun Hv. split.
  - induction Hf as [|x [ts op] h upds [Ht Ho] Hf IH]; [constructor|].
    simpl in Hs, Hc. apply StronglySorted_inv in Hs as [Hs Hall].
    apply Forall_cons in Hc as [_ Hc]. constructor; [by apply IH|].
    clear -Hf Hall Ht. induction Hf as [|y [t o] h upds [Ht' _] _ IH]; [constructor|].
    simpl in Hall. apply Forall_cons in Hall as [Hl Hall]. constructor; [|by apply IH].
    unfold clock_before. simpl in *. by rewrite Ht, Ht'.
  - clear Hs. induction Hf as [|x [ts op] h upds [Ht Ho] Hf IH]; [constructor|].
    simpl in Hc. apply Forall_cons in Hc as [H1 Hc]. constructor; [|by apply IH].
    unfold comparable_to. simpl in Ht. by rewrite Ht.
Qed.

(** Rebuilding a version: after any sequence of updates that can be undone, at
    strictly increasing clocks, rebuilding to a clock comparable with all of them
    terminates without panic in the state the updates up to that clock lead to,
    from scratch. *)
Theorem rebuild_version (s0 s : St) (upds : list (vclock * Op))
    (h : list (History Op Eff)) (targetTs : vclock) :
  run (s0, []) upds = Some (s, h) -> run_valid s0 upds ->
  StronglySorted lower (upds.*1) -> Forall (comparable targetTs) (upds.*1) ->
  exists s' h', rebuildCRDTToVersion false s h targetTs = Some (s', h') /\
    deliver s0 (up_to targetTs upds) = Some s'.
Proof.
  intros Hrun Hv Hs Hc.
  destruct (run_recorded _ _ _ _ _ Hrun Hv Hs Hc) as (Hr & Hf & Hsh & Hch).
  destruct (rebuild_spec s0 h s targetTs Hr Hsh Hch)
    as (l1 & l2 & s1 & _ & E1 & Hr1 & Hb).
  exists s1, (l1 ++ take 1 l2). split; [done|].
  rewrite deliver_reapply, <- (filter_records _ h) by done. rewrite <- E1.
  by apply recorded_replay.
Qed.

(** C40. Garbage collection is safe: for every clock at or above the safe one,
    rebuilding gives the same state before and after the history is cut. *)
Theorem GC_preserves_versions (s0 s : St) (upds : list (vclock * Op))
    (h : list (History Op Eff)) (safeClk targetTs : vclock) :
  run (s0, []) upds = Some (s, h) -> run_valid s0 upds ->
  StronglySorted lower (upds.*1) -> Forall (comparable targetTs) (upds.*1) ->
  same_dom safeClk targetTs -> IsLowerOrEqual safeClk (Some targetTs) = true ->
  fst <$> rebuildCRDTToVersion false s (GC h safeClk) targetTs =
    fst <$> rebuildCRDTToVersion false s h targetTs /\
  (length (GC h safeClk) <= length h)%nat.
Proof.
  intros Hrun Hv Hs Hc Hd Hsafe.
  destruct (run_recorded _ _ _ _ _ Hrun Hv Hs Hc) as (Hr & Hf & Hsh & Hch).
  split; [by eapply rebuild_after_GC|].
  unfold GC. case_match; [done|]. rewrite length_drop. lia.
Qed.

(** A version concurrent with every update cannot be rebuilt: the second
    loop of the rebuild deletes the concurrent entries and reads past the end
    of the history. *)
Theorem rebuild_concurrent_version (s0 s : St) (upds : list (vclock * Op))
    (h : list (History Op Eff)) (targetTs : vclock) :
  run (s0, []) upds = Some (s, h) -> run_valid s0 upds -> upds <> [] ->
  StronglySorted lower (upds.*1) ->
  Forall (fun ts => Compare ts (Some targetTs) = ConcurrentTs) (upds.*1) ->
  rebuildCRDTToVersion false s h targetTs = None.
Proof.
  intros Hrun Hv Hne Hs Hc.
  destruct (run_history s0 [] s0 [] upds s h) as [Hr Hf];
    [constructor|constructor|done|done|done|]. simpl in Hf.
  apply (rebuild_concurrent_panics s0); [done| |].
  - intros ->. inversion Hf. by subst.
  - clear -Hf Hc. induction Hf as [|x [ts op] h upds [Ht Ho] Hf IH]; [constructor|].
    simpl in Hc, Ht. apply Forall_cons in Hc as [H1 Hc].
    constructor; [by rewrite Ht|by apply IH].
Qed.
End versions.

(** ** A counter updated at clocks 1, 3 and 4 *)

Definition clk (v : Z) : vclock := {[ 1 := v ]}.
Definition clk2 (v w : Z) : vclock := {[ 1 := v; 2 := w ]}.

Definition ex_upds : list (vclock * Counter.Op) :=
  [(clk 1, Counter.Increment 5); (clk 3, Counter.Increment 7);
   (clk 4, Counter.Decrement 1)].

Definition ex_s0 : Counter.CounterCrdt := Counter.mkCounter 0.

Lemma ex_valid : run_valid ex_s0 ex_upds.
Proof. vm_compute. repeat split; discriminate. Qed.

Lemma ex_sorted : StronglySorted lower (ex_upds.*1).
Proof. repeat (constructor; try reflexivity). Qed.

Lemma ex_comparable : Forall (comparable (clk 3)) (ex_upds.*1).
Proof. repeat constructor; vm_compute; discriminate. Qed.

Definition ex_result : Counter.CounterCrdt * list (History Counter.Op Counter.Eff) :=
  default (ex_s0, []) (run (ex_s0, []) ex_upds).

Lemma rebuild_version_witness :
  exists s' h', rebuildCRDTToVersion false (fst ex_result) (snd ex_result) (clk 3)
      = Some (s', h') /\
    deliver ex_s0 (up_to (clk 3) ex_upds) = Some s' /\ s' = Counter.mkCounter 12.
Proof.
  assert (E : run (ex_s0, []) ex_upds = Some (fst ex_result, snd ex_result))
    by (vm_compute; reflexivity).
  destruct (rebuild_version ex_s0 (fst ex_result) ex_upds (snd ex_result) (clk 3)
              E ex_valid ex_sorted ex_comparable) as (s' & h' & H1 & H2).
  exists s', h'. split; [exact H1|]. split; [exact H2|].
  vm_compute in H2. injection H2 as <-. reflexivity.
Defined.

Lemma GC_preserves_versions_witness :
  fst <$> rebuildCRDTToVersion false (fst ex_result) (GC (snd ex_result) (clk 3)) (clk 3) =
    fst <$> rebuildCRDTToVersion false (fst ex_result) (snd ex_result) (clk 3) /\
  length (GC (snd ex_result) (clk 3)) = 2%nat.
Proof.
  assert (E : run (ex_s0, []) ex_upds = Some (fst ex_result, snd ex_result))
    by (vm_compute; reflexivity).
  split; [|vm_compute; reflexivity].
  apply (GC_preserves_versions ex_s0 (fst ex_result) ex_upds (snd ex_result) (clk 3)
    (clk 3) E ex_valid ex_sorted ex_comparable); reflexivity.
Defined.

Definition ex_conc : list (vclock * Counter.Op) := [(clk2 5 1, Counter.Increment 5)].
Definition ex_conc_result : Counter.CounterCrdt * list (History Counter.Op Counter.Eff) :=
  default (ex_s0, []) (run (ex_s0, []) ex_conc).

Lemma rebuild_concurrent_version_witness :
  rebuildCRDTToVersion false (fst ex_conc_result) (snd ex_conc_result) (clk2 3 4) = None.
Proof.
  apply (rebuild_concurrent_version ex_s0 (fst ex_conc_result) ex_conc (snd ex_conc_result)).
  - vm_compute. reflexivity.
  - split; [|exact I]. vm_compute. split; [discriminate|reflexivity].
  - discriminate.
  - repeat constructor.
  - repeat constructor.
Defined.

(** The history left by a rebuild still holds the first entry above the
    version, already undone: rebuilding the copy again undoes it twice. *)
Lemma rebuild_twice_undoes_twice :
  match rebuildCRDTToVersion false (fst ex_result) (snd ex_result) (clk 2) with
  | Some (s1, h1) =>
      s1 = Counter.mkCounter 5 /\
      fst <$> rebuildCRDTToVersion false s1 h1 (clk 1) = Some (Counter.mkCounter (-2))
  | None => False
  end.
Proof. vm_compute. split; reflexivity. Qed.
