(* ===== verification/VersionManager.v ===== *)
(** * Version managers: versionManager.go, inverseOpVM.go, snapshotVM.go
      (src/potionDB/components)

    A version manager wraps one CRDT object of a partition and serves reads of
    its latest or of an older version.  [VersionManager] is the interface the
    materializer uses; [InverseOpVM] (old versions rebuilt by undoing effects,
    and cached) and [SnapshotVM] (a copy per version) implement it.  [None] is a
    panic.

    [Initialize] of a CRDT passes the method values [crdt.undoEffect] and
    [crdt.reapplyOp] of its receiver, a zero object, to the version management
    of the object it returns, and [copy] keeps them: [receiver] is that zero
    object, which is what a rebuild undoes on. *)

From S2P Require Import Prelude ClockSI ClockCodec Inversible Counters.
From Stdlib Require Import ZArith Lia Bool.
From stdpp Require Import base tactics numbers gmap sorting list.
#[local] Open Scope Z_scope.

(** ** The interfaces *)

(** What a CRDT offers to the version managers, besides [InversibleOps]. [Env]
    is the time and the random numbers an update draws; [None] is a nil or NoOp
    downstream operation.  The CRDTs modelled return no further operation from
    [Downstream]. *)
Class CRDTOps (St Op Eff Upd RArgs State Env : Type) `{InversibleOps St Op Eff} := {
  crdt_Read : St -> RArgs -> list Upd -> State;
  crdt_Update : Env -> St -> Upd -> option Op;
  crdt_zero : St
}.

Class VersionManager (VM CRDT Op Upd RArgs State Env : Type) := {
  vm_Initialize : CRDT -> vclock -> option VM;
  vm_ReadOld : VM -> RArgs -> vclock -> list Upd -> option (State * VM);
  vm_ReadLatest : VM -> RArgs -> list Upd -> State;
  vm_Update : Env -> VM -> Upd -> option Op;
  vm_Downstream : VM -> vclock -> Op -> option (VM * option Op);
  vm_GetLatestCRDT : VM -> CRDT;
  vm_GC : VM -> vclock -> list Z -> option VM
}.

Inductive VMType := InversibleVMType | SnapshotVMType | UnknownVMType.

(** The implementation [SetVMToUse] picks: unknown types use the inverse one. *)
Definition SetVMToUse (t : VMType) : VMType :=
  match t with
  | InversibleVMType => InversibleVMType
  | SnapshotVMType => SnapshotVMType
  | UnknownVMType => InversibleVMType
  end.

Section vm.
Context {St Op Eff Upd RArgs State Env : Type} `{HC : CRDTOps St Op Eff Upd RArgs State Env}.
(** [shared.IsVMDisabled]. *)
Variable IsVMDisabled : bool.

(** A CRDT object: its fields and the history of its version management. *)
Record CRDTObj := mkObj { fields : St; history : list (History Op Eff) }.

Definition Copy (o : CRDTObj) : option CRDTObj :=
  match copy IsVMDisabled (history o) with
  | Some h => Some (mkObj (fields o) h)
  | None => None
  end.

Definition obj_Downstream (o : CRDTObj) (updTs : vclock) (op : Op) : option CRDTObj :=
  match Downstream IsVMDisabled (fields o, history o) updTs op with
  | Some (s, h) => Some (mkObj s h)
  | None => None
  end.

(** The loop of both GCs over the cached keys: the keys not above the safe
    clock, except the highest, are deleted. *)
Fixpoint GC_loop (keys : list (list Z)) (safeClkKey : list Z)
    (highestSafe : option (list Z)) (versions : gmap (list Z) CRDTObj)
  : option (gmap (list Z) CRDTObj) :=
  match keys with
  | [] => Some versions
  | cacheKey :: rest =>
      match ByteKey_IsLowerOrEqual cacheKey safeClkKey with
      | None => None
      | Some false => GC_loop rest safeClkKey highestSafe versions
      | Some true =>
          match highestSafe with
          | None => GC_loop rest safeClkKey (Some cacheKey) versions
          | Some highest =>
              match ByteKey_IsHigher cacheKey highest with
              | None => None
              | Some true => GC_loop rest safeClkKey (Some cacheKey) (delete highest versions)
              | Some false => GC_loop rest safeClkKey highestSafe versions
              end
          end
      end
  end.

(** [genericInversibleCRDT.GC]; with versions disabled the shared instance has
    no history. *)
Definition obj_GC (o : CRDTObj) (safeClk : vclock) : CRDTObj :=
  mkObj (fields o) (GC (history o) safeClk).

(** *** InverseOpVM *)
Record InverseOpVM := mkInverse {
  ivm_CRDT : CRDTObj;
  OldVersions : gmap (list Z) CRDTObj;
  ivm_updatedSinceGC : bool;
  ivm_currVersion : Timestamp;
  receiver : St
}.

Definition InverseOpVM_Initialize (newCrdt : CRDTObj) (currTs : vclock) : InverseOpVM :=
  mkInverse newCrdt ∅ false None crdt_zero.

Definition InverseOpVM_ReadLatest (vm : InverseOpVM) (readArgs : RArgs)
    (upds : list Upd) : State :=
  crdt_Read (fields (ivm_CRDT vm)) readArgs upds.

Fixpoint getClosestMatch_loop (entries : list (list Z * CRDTObj)) (readTsKey : list Z)
    (smallestClkTs : option (list Z)) (crdt : option CRDTObj) : option (option CRDTObj) :=
  match entries with
  | [] => Some crdt
  | (cacheKey, cacheCRDT) :: rest =>
      match ByteKey_IsHigher cacheKey readTsKey with
      | None => None
      | Some false => getClosestMatch_loop rest readTsKey smallestClkTs crdt
      | Some true =>
          match smallestClkTs with
          | None => getClosestMatch_loop rest readTsKey (Some cacheKey) (Some cacheCRDT)
          | Some smallest =>
              match ByteKey_IsLower cacheKey smallest with
              | None => None
              | Some true =>
                  getClosestMatch_loop rest readTsKey (Some cacheKey) (Some cacheCRDT)
              | Some false => getClosestMatch_loop rest readTsKey smallestClkTs crdt
              end
          end
      end
  end.

Definition getClosestMatch (vm : InverseOpVM) (readTs : vclock) : option CRDTObj :=
  match getClosestMatch_loop (map_to_list (OldVersions vm)) (getMapByteKey readTs)
          None None with
  | None => None
  | Some None => Some (ivm_CRDT vm)
  | Some (Some crdt) => Some crdt
  end.

(** The copy's fields are those of the object it was copied from: the rebuild
    calls the functions bound to [receiver].  Returns the copy and the state
    the receiver is left in. *)
Definition reverseOperations (receiver : St) (oldCrdt : CRDTObj) (readTs : vclock)
  : option (CRDTObj * St) :=
  match Copy oldCrdt with
  | None => None
  | Some copyCrdt =>
      match rebuildCRDTToVersion IsVMDisabled receiver (history copyCrdt) readTs with
      | None => None
      | Some (receiver, h) => Some (mkObj (fields copyCrdt) h, receiver)
      end
  end.

Definition InverseOpVM_ReadOld (vm : InverseOpVM) (readArgs : RArgs) (readTs : vclock)
    (upds : list Upd) : option (State * InverseOpVM) :=
  let readTsKey := getMapByteKey readTs in
  match OldVersions vm !! readTsKey with
  | Some cachedCRDT => Some (crdt_Read (fields cachedCRDT) readArgs upds, vm)
  | None =>
      match getClosestMatch vm readTs with
      | None => None
      | Some oldCrdt =>
          match reverseOperations (receiver vm) oldCrdt readTs with
          | None => None
          | Some (cachedCRDT, receiver) =>
              Some (crdt_Read (fields cachedCRDT) readArgs upds,
                    mkInverse (ivm_CRDT vm) (<[readTsKey := cachedCRDT]> (OldVersions vm))
                      (ivm_updatedSinceGC vm) (ivm_currVersion vm) receiver)
          end
      end
  end.

Definition InverseOpVM_Downstream (vm : InverseOpVM) (updTs : vclock) (op : Op)
  : option InverseOpVM :=
  match obj_Downstream (ivm_CRDT vm) updTs op with
  | Some o => Some (mkInverse o (OldVersions vm) true (Some updTs) (receiver vm))
  | None => None
  end.

Definition InverseOpVM_GC (vm : InverseOpVM) (safeClk : vclock) (safeClkKey : list Z)
  : option InverseOpVM :=
  if negb (ivm_updatedSinceGC vm) then Some vm
  else if IsHigher safeClk (ivm_currVersion vm)
  then Some (mkInverse (obj_GC (ivm_CRDT vm) safeClk) ∅ false (ivm_currVersion vm)
               (receiver vm))
  else
    match GC_loop (map_to_list (OldVersions vm)).*1 safeClkKey None (OldVersions vm) with
    | None => None
    | Some versions =>
        Some (mkInverse (obj_GC (ivm_CRDT vm) safeClk) versions (ivm_updatedSinceGC vm)
                (ivm_currVersion vm) (receiver vm))
    end.

#[export] Instance InverseOpVM_vm : VersionManager InverseOpVM CRDTObj Op Upd RArgs State Env := {
  vm_Initialize newCrdt currTs := Some (InverseOpVM_Initialize newCrdt currTs);
  vm_ReadOld := InverseOpVM_ReadOld;
  vm_ReadLatest := InverseOpVM_ReadLatest;
  vm_Update env vm upd := crdt_Update env (fields (ivm_CRDT vm)) upd;
  vm_Downstream vm updTs op :=
    option_map (fun vm => (vm, None)) (InverseOpVM_Downstream vm updTs op);
  vm_GetLatestCRDT := ivm_CRDT;
  vm_GC := InverseOpVM_GC
}.

(** *** SnapshotVM *)
Record SnapshotVM := mkSnapshot {
  svm_CRDT : CRDTObj;
  snaps : gmap (list Z) CRDTObj;
  svm_updatedSinceGC : bool;
  svm_currVersion : Timestamp
}.

(** [newEmpty] is [crdt.InitializeCrdt] of the object's type. *)
Variable newEmpty : St.

Definition SnapshotVM_Initialize (newCrdt : CRDTObj) (currTs : vclock)
  : option SnapshotVM :=
  if IsVMDisabled then Some (mkSnapshot newCrdt ∅ false None)
  else
    match Copy newCrdt with
    | Some c => Some (mkSnapshot newCrdt {[ getMapByteKey currTs := c ]} false None)
    | None => None
    end.

Definition SnapshotVM_ReadLatest (vm : SnapshotVM) (readArgs : RArgs) (upds : list Upd)
  : State := crdt_Read (fields (svm_CRDT vm)) readArgs upds.

Definition SnapshotVM_ReadOld (vm : SnapshotVM) (readArgs : RArgs) (readTs : vclock)
    (upds : list Upd) : option (State * SnapshotVM) :=
  if IsVMDisabled then Some (SnapshotVM_ReadLatest vm readArgs upds, vm)
  else
    match snaps vm !! getMapByteKey readTs with
    | Some oldCRDT => Some (crdt_Read (fields oldCRDT) readArgs upds, vm)
    | None =>
        let oldCRDT := mkObj newEmpty [] in
        Some (crdt_Read newEmpty readArgs upds,
              mkSnapshot (svm_CRDT vm) (<[getMapByteKey readTs := oldCRDT]> (snaps vm))
                (svm_updatedSinceGC vm) (svm_currVersion vm))
    end.

Definition SnapshotVM_Downstream (vm : SnapshotVM) (updTs : vclock) (op : Op)
  : option SnapshotVM :=
  match obj_Downstream (svm_CRDT vm) updTs op with
  | None => None
  | Some o =>
      if IsVMDisabled
      then Some (mkSnapshot o (snaps vm) (svm_updatedSinceGC vm) (svm_currVersion vm))
      else
        match Copy o with
        | Some c => Some (mkSnapshot o (<[getMapByteKey updTs := c]> (snaps vm)) true (Some updTs))
        | None => None
        end
  end.

Definition SnapshotVM_GC (vm : SnapshotVM) (safeClk : vclock) (safeClkKey : list Z)
  : option SnapshotVM :=
  if negb (svm_updatedSinceGC vm) then Some vm
  else if IsHigher safeClk (svm_currVersion vm)
  then Some (mkSnapshot (obj_GC (svm_CRDT vm) safeClk) ∅ false (svm_currVersion vm))
  else
    match GC_loop (map_to_list (snaps vm)).*1 safeClkKey None (snaps vm) with
    | None => None
    | Some versions =>
        Some (mkSnapshot (obj_GC (svm_CRDT vm) safeClk) versions (svm_updatedSinceGC vm)
                (svm_currVersion vm))
    end.

#[local] Instance SnapshotVM_vm : VersionManager SnapshotVM CRDTObj Op Upd RArgs State Env := {
  vm_Initialize := SnapshotVM_Initialize;
  vm_ReadOld := SnapshotVM_ReadOld;
  vm_ReadLatest := SnapshotVM_ReadLatest;
  vm_Update env vm upd := crdt_Update env (fields (svm_CRDT vm)) upd;
  vm_Downstream vm updTs op :=
    option_map (fun vm => (vm, None)) (SnapshotVM_Downstream vm updTs op);
  vm_GetLatestCRDT := svm_CRDT;
  vm_GC := SnapshotVM_GC
}.
End vm.
Arguments CRDTObj : clear implicits.
Arguments InverseOpVM : clear implicits.
Arguments SnapshotVM : clear implicits.

(** ** Properties *)

Section vm_properties.
Context {St Op Eff Upd RArgs State Env : Type} `{HC : CRDTOps St Op Eff Upd RArgs State Env}.
Local Abbreviation IVM := (InverseOpVM St Op Eff).
Local Abbreviation SVM := (SnapshotVM St Op Eff).

Lemma reverseOperations_fields d (r : St) (o o' : CRDTObj St Op Eff) readTs r' :
  reverseOperations d r o readTs = Some (o', r') -> fields o' = fields o.
Proof.
  unfold reverseOperations, Copy. intros Hr.
  destruct (copy d (history o)) as [h|]; [|done]. simpl in Hr.
  destruct (rebuildCRDTToVersion d r h readTs) as [[r1 h1]|]; [|done].
  by simplify_eq.
Qed.

(** Effects that can be copied and undone on any object. *)
Definition undoable (h : History Op Eff) : Prop :=
  Forall (fun e => e <> None /\ forall s : St, is_Some (undoEffect s e)) (h_effects h).

Lemma copy_effects_some (effs : list (option Eff)) :
  Forall (fun e => e <> None) effs -> copy_effects effs = Some effs.
Proof.
  induction 1 as [|[e|] effs He _ IH]; [done| |done]. cbn [copy_effects]. by rewrite IH.
Qed.

Lemma copy_history_some (h : list (History Op Eff)) : Forall undoable h -> copy_history h = Some h.
Proof.
  induction 1 as [|[ts ops effs] h Hh _ IH]; [done|]. cbn [copy_history h_effects h_ts h_updsArgs].
  rewrite copy_effects_some, IH; [done|]. eapply Forall_impl; [exact Hh|]. by intros e [? _].
Qed.

Lemma undo_effects_total (effs : list (option Eff)) (s : St) :
  Forall (fun e => e <> None /\ forall s : St, is_Some (undoEffect s e)) effs -> is_Some (undo_effects s effs).
Proof.
  intros Hf. revert s. induction Hf as [|e effs [_ He] _ IH]; intros s; cbn [undo_effects]; [by eexists|].
  destruct (He s) as [s' ->]. apply IH.
Qed.

(** The first loop stops at the last entry that is not above the target. *)
Lemma undo_loop_total (h : list (History Op Eff)) (targetTs : vclock) k currTs (s : St) :
  Forall undoable h -> (k <= length h)%nat ->
  (forall i hist, k = S i -> h !! i = Some hist -> currTs = h_ts hist) ->
  exists s' i c, undo_loop k h currTs targetTs s = Some (s', i, c) /\ (i <= k)%nat /\
    ((i < k)%nat -> exists hist, h !! i = Some hist /\ in_version targetTs hist = false).
Proof.
  intros Hu. revert currTs s. induction k as [|k IH]; intros currTs s Hk Hcur; cbn [undo_loop].
  { eexists _, _, _. split; [done|]. split; [done|lia]. }
  destruct (lookup_lt_is_Some_2 h k Hk) as [hist Eh]. assert (Ec := Hcur k hist eq_refl Eh).
  destruct (IsLowerOrEqual currTs (Some targetTs)) eqn:El.
  { eexists _, _, _. split; [done|]. split; [done|lia]. }
  rewrite Eh. destruct (undo_effects_total (h_effects hist) s) as [s1 ->].
  { rewrite Forall_forall in Hu. apply Hu. by eapply list_elem_of_lookup_2. }
  destruct (IH match k with O => currTs | S i' => match h !! i' with Some prev => h_ts prev | None => currTs end end
    s1) as (s2 & i & c & E & Hi & Hb); [lia|intros i hist' -> Ei; by rewrite Ei|].
  exists s2, i, c. split; [done|]. split; [lia|]. intros Hlt. destruct (decide (i < k)%nat); [by apply Hb|].
  assert (i = k) as -> by lia. exists hist. split; [done|]. unfold in_version. by rewrite <- Ec.
Qed.

Lemma rebuild_total d (r : St) (h : list (History Op Eff)) (targetTs : vclock) :
  Forall undoable h -> Forall (comparable_to targetTs) h -> is_Some (rebuildCRDTToVersion d r h targetTs).
Proof.
  intros Hu Hc. unfold rebuildCRDTToVersion. destruct d; [by eexists|].
  destruct (last h) as [hist|] eqn:El; [|by eexists]. apply last_Some in El as [l El].
  destruct (undo_loop_total h targetTs (length h) (h_ts hist) r Hu) as (s & i & c & -> & Hi & Hb); [done| |].
  { intros j hist' Ej Hj. rewrite El, length_app in Ej. cbn in Ej. rewrite El in Hj.
    rewrite list_lookup_middle in Hj by lia. by injection Hj as ->. }
  destruct (Nat.eqb_spec i (length h)); [by eexists|]. destruct Hb as (hi & Ehi & Hv); [lia|].
  cbn [redo_loop]. rewrite Ehi, above_version; [by eexists| |done].
  rewrite Forall_forall in Hc. apply Hc. by eapply list_elem_of_lookup_2.
Qed.


(** The updates applied through a [SnapshotVM], in order. *)
Fixpoint svm_run (d : bool) (vm : SVM) (upds : list (vclock * Op)) : option SVM :=
  match upds with
  | [] => Some vm
  | (ts, op) :: rest =>
      match SnapshotVM_Downstream d vm ts op with
      | Some vm => svm_run d vm rest
      | None => None
      end
  end.

Lemma copy_history_fields (o c : CRDTObj St Op Eff) d : Copy d o = Some c -> fields c = fields o.
Proof. unfold Copy. destruct (copy d (history o)); intros; by simplify_eq. Qed.

Lemma svm_run_snaps vm l vm' key :
  svm_run false vm l = Some vm' ->
  key ∉ (getMapByteKey ∘ fst) <$> l -> snaps vm' !! key = snaps vm !! key.
Proof.
  revert vm. induction l as [|[ts op] l IH]; intros vm Hr Hk.
  { simpl in Hr. by injection Hr as <-. }
  rewrite fmap_cons in Hk. apply not_elem_of_cons in Hk as [Hne Hk].
  cbn [svm_run] in Hr.
  destruct (SnapshotVM_Downstream false vm ts op) as [vm1|] eqn:E; [|done].
  rewrite (IH vm1 Hr Hk). unfold SnapshotVM_Downstream in E.
  destruct (obj_Downstream false (svm_CRDT vm) ts op) as [o|]; [|done].
  destruct (Copy false o); [|done]. injection E as <-. simpl.
  apply lookup_insert_ne. intros Heq. by apply Hne.
Qed.

Lemma svm_run_app d (vm : SVM) l1 l2 :
  svm_run d vm (l1 ++ l2) =
    match svm_run d vm l1 with Some vm => svm_run d vm l2 | None => None end.
Proof.
  revert vm. induction l1 as [|[ts op] l1 IH]; intros vm; simpl; [done|].
  destruct (SnapshotVM_Downstream d vm ts op); [apply IH|done].
Qed.

(** A [SnapshotVM] keeps every version it was given: a read at the clock
    of an update answers what the latest read answered right after that
    update, whatever was applied since; a read at any other clock answers
    from an empty object. *)
Theorem snapshot_versions (newEmpty : St) (vm vm1 vm' : SVM)
    (l1 l2 : list (vclock * Op)) (ts : vclock) (op : Op)
    (readArgs : RArgs) (upds : list Upd) :
  svm_run false vm (l1 ++ [(ts, op)]) = Some vm1 ->
  svm_run false vm1 l2 = Some vm' ->
  getMapByteKey ts ∉ (getMapByteKey ∘ fst) <$> l2 ->
  SnapshotVM_ReadOld false newEmpty vm' readArgs ts upds =
    Some (SnapshotVM_ReadLatest vm1 readArgs upds, vm') /\
  (forall readTs, snaps vm' !! getMapByteKey readTs = None ->
     fst <$> SnapshotVM_ReadOld false newEmpty vm' readArgs readTs upds =
       Some (crdt_Read newEmpty readArgs upds)).
Proof.
  intros H1 H2 Hk. split.
  - unfold SnapshotVM_ReadOld. rewrite (svm_run_snaps vm1 l2 vm') by done.
    rewrite svm_run_app in H1.
    destruct (svm_run false vm l1) as [vm0|]; [|done]. simpl in H1.
    destruct (SnapshotVM_Downstream false vm0 ts op) as [vm2|] eqn:E; [|done].
    injection H1 as ->. unfold SnapshotVM_Downstream in E.
    destruct (obj_Downstream false (svm_CRDT vm0) ts op) as [o|]; [|done].
    destruct (Copy false o) as [c|] eqn:Ec; [|done]. injection E as <-.
    simpl. rewrite lookup_insert_eq. by rewrite (copy_history_fields _ _ _ Ec).
  - intros readTs Hn. unfold SnapshotVM_ReadOld. by rewrite Hn.
Qed.
End vm_properties.

(** ** A counter under both version managers *)

#[export] Instance counter_ops :
    CRDTOps Counter.CounterCrdt Counter.Op Counter.Eff Counter.Op unit Z unit := {
  crdt_Read crdt _ upds := Counter.Read crdt upds;
  crdt_Update _ crdt args := Some (Counter.Update crdt args);
  crdt_zero := Counter.mkCounter 0
}.

Definition at_clock (v : Z) : vclock := {[ 1 := v ]}.

(** A counter incremented by 5 at clock 1 and by 7 at clock 3. *)
Definition two_updates : list (vclock * Counter.Op) :=
  [(at_clock 1, Counter.Increment 5); (at_clock 3, Counter.Increment 7)].

Definition ex_ivm : InverseOpVM Counter.CounterCrdt Counter.Op Counter.Eff :=
  mkInverse
    (mkObj (Counter.mkCounter 12)
       [mkHistory (at_clock 1) [Counter.Increment 5] [Some (Counter.IncrementEffect 5)];
        mkHistory (at_clock 3) [Counter.Increment 7] [Some (Counter.IncrementEffect 7)]])
    ∅ true (Some (at_clock 3)) (Counter.mkCounter 0).


Definition ex_svm : SnapshotVM Counter.CounterCrdt Counter.Op Counter.Eff :=
  mkSnapshot (mkObj (Counter.mkCounter 0) []) ∅ false None.

Lemma snapshot_versions_witness :
  exists vm1 vm', svm_run false ex_svm (take 1 two_updates) = Some vm1 /\
    svm_run false vm1 (drop 1 two_updates) = Some vm' /\
    SnapshotVM_ReadOld false (Counter.mkCounter 0) vm' tt (at_clock 1) [] = Some (5, vm').
Proof.
  destruct (svm_run false ex_svm (take 1 two_updates)) as [vm1|] eqn:E1;
    [|vm_compute in E1; discriminate E1].
  destruct (svm_run false vm1 (drop 1 two_updates)) as [vm'|] eqn:E2;
    [|vm_compute in E1; injection E1 as <-; vm_compute in E2; discriminate E2].
  exists vm1, vm'. split; [reflexivity|]. split; [exact E2|].
  assert (Hn : getMapByteKey (at_clock 1) ∉
    (getMapByteKey ∘ fst) <$> [(at_clock 3, Counter.Increment 7)]).
  { apply not_elem_of_cons. split; [vm_compute; discriminate|apply not_elem_of_nil]. }
  pose proof (proj1 (snapshot_versions (Counter.mkCounter 0) ex_svm vm1 vm' [] _
    (at_clock 1) (Counter.Increment 5) tt [] E1 E2 Hn)) as H.
  rewrite H. vm_compute in E1. injection E1 as <-. reflexivity.
Defined.
