(* ===== verification/Effects.v ===== *)
(** * Effects: the monad in which the server's goroutines are written

    A goroutine of the server handles one request at a time: it reads the clock
    and the random source ([E]), updates its own state ([S]) and sends on
    channels ([O], oldest first).  [None] is a panic (nil dereference, index out
    of range, failed type assertion).  [post] is the partial-correctness
    predicate of this monad and [post_bind] its sequencing rule. *)

From S2P Require Import Prelude.
From stdpp Require Import base tactics list.

Declare Scope eff_scope.
Delimit Scope eff_scope with eff.

Section monad.
Context {E S O : Type}.

Definition M (A : Type) : Type := E -> S -> option (A * S * list O).

Definition ret {A} (a : A) : M A := fun _ s => Some (a, s, []).
Definition bind {A B} (m : M A) (k : A -> M B) : M B := fun e s =>
  match m e s with
  | None => None
  | Some (a, s1, o1) =>
      match k a e s1 with
      | None => None
      | Some (b, s2, o2) => Some (b, s2, o1 ++ o2)
      end
  end.
Definition panic {A} : M A := fun _ _ => None.
Definition get : M S := fun _ s => Some (s, s, []).
Definition ask : M E := fun e s => Some (e, s, []).
Definition modify (f : S -> S) : M unit := fun _ s => Some (tt, f s, []).
Definition emit (o : O) : M unit := fun _ s => Some (tt, s, [o]).
(** A value the code dereferences or asserts the type of. *)
Definition must {A} (o : option A) : M A :=
  match o with Some a => ret a | None => panic end.

(** [for i, x := range l], with the loop's accumulator. *)
Fixpoint foldM {A B} (f : B -> A -> M B) (l : list A) (b : B) : M B :=
  match l with
  | [] => ret b
  | x :: l => bind (f b x) (foldM f l)
  end.

(** ** Reasoning *)

(** Whenever [m] returns from [s], its result satisfies [Q]. *)
Definition post {A} (m : M A) (e : E) (s : S) (Q : A -> S -> list O -> Prop) : Prop :=
  forall a s' o, m e s = Some (a, s', o) -> Q a s' o.

(** [m] returns from [s], with a result that satisfies [Q]. *)
Definition returns {A} (m : M A) (e : E) (s : S) (Q : A -> S -> list O -> Prop) : Prop :=
  exists a s' o, m e s = Some (a, s', o) /\ Q a s' o.

Lemma post_ret {A} (a : A) e s (Q : A -> S -> list O -> Prop) :
  Q a s [] -> post (ret a) e s Q.
Proof. intros HQ a' s' o [= <- <- <-]. exact HQ. Qed.

Lemma post_bind {A B} (m : M A) (k : A -> M B) e s (Q : B -> S -> list O -> Prop) :
  post m e s (fun a s1 o1 => post (k a) e s1 (fun b s2 o2 => Q b s2 (o1 ++ o2))) ->
  post (bind m k) e s Q.
Proof.
  intros Hm b s2 o. unfold bind.
  destruct (m e s) as [[[a s1] o1]|] eqn:E1; [|done].
  destruct (k a e s1) as [[[b' s2'] o2]|] eqn:E2; [|done].
  intros [= <- <- <-]. by apply (Hm a s1 o1 E1).
Qed.

Lemma post_weaken {A} (m : M A) e s (Q Q' : A -> S -> list O -> Prop) :
  post m e s Q -> (forall a s' o, Q a s' o -> Q' a s' o) -> post m e s Q'.
Proof. intros H1 H2 a s' o Hr. apply H2. by apply H1. Qed.

Lemma post_and {A} (m : M A) e s (Q Q' : A -> S -> list O -> Prop) :
  post m e s Q -> post m e s Q' -> post m e s (fun a s' o => Q a s' o /\ Q' a s' o).
Proof. intros H1 H2 a s' o Hr. split; [by apply H1|by apply H2]. Qed.

Lemma post_must {A} (o : option A) e s (Q : A -> S -> list O -> Prop) :
  (forall a, o = Some a -> Q a s []) -> post (must o) e s Q.
Proof. intros HQ. destruct o as [a|]; [by apply post_ret, HQ|]. intros a s' o [=]. Qed.

Lemma returns_must {A} (o : option A) e s (Q : A -> S -> list O -> Prop) :
  (exists a, o = Some a /\ Q a s []) -> returns (must o) e s Q.
Proof. intros (a & -> & HQ). by exists a, s, []. Qed.

Lemma post_foldM {A B} (f : B -> A -> M B) l b e s (I : B -> S -> list O -> Prop) :
  I b s [] ->
  (forall b s o x, I b s o -> post (f b x) e s (fun b' s' o' => I b' s' (o ++ o'))) ->
  post (foldM f l b) e s I.
Proof.
  intros HI Hf.
  assert (Hgen : forall o, I b s o -> post (foldM f l b) e s (fun b' s' o' => I b' s' (o ++ o'))).
  { clear HI. revert b s. induction l as [|x l IH]; intros b s o HI; cbn [foldM].
    - apply post_ret. by rewrite app_nil_r.
    - apply post_bind. eapply post_weaken; [exact (Hf b s o x HI)|].
      intros b' s' o' HI'. eapply post_weaken; [exact (IH b' s' _ HI')|].
      intros. by rewrite app_assoc. }
  by apply (Hgen []).
Qed.

Lemma returns_post {A} (m : M A) e s (Q Q' : A -> S -> list O -> Prop) :
  returns m e s Q -> post m e s Q' -> returns m e s (fun a s' o => Q a s' o /\ Q' a s' o).
Proof. intros (a & s' & o & Hr & HQ) Hp. exists a, s', o. eauto. Qed.

Lemma returns_bind {A B} (m : M A) (k : A -> M B) e s (Q : B -> S -> list O -> Prop) :
  returns m e s (fun a s1 o1 => returns (k a) e s1 (fun b s2 o2 => Q b s2 (o1 ++ o2))) ->
  returns (bind m k) e s Q.
Proof.
  intros (a & s1 & o1 & E1 & b & s2 & o2 & E2 & HQ).
  exists b, s2, (o1 ++ o2). split; [|done]. unfold bind. by rewrite E1, E2.
Qed.

Lemma returns_ret {A} (a : A) e s (Q : A -> S -> list O -> Prop) :
  Q a s [] -> returns (ret a) e s Q.
Proof. intros HQ. by exists a, s, []. Qed.

Lemma returns_weaken {A} (m : M A) e s (Q Q' : A -> S -> list O -> Prop) :
  returns m e s Q -> (forall a s' o, Q a s' o -> Q' a s' o) -> returns m e s Q'.
Proof. intros (a & s' & o & Hr & HQ) HW. exists a, s', o. eauto. Qed.

Lemma returns_foldM {A B} (f : B -> A -> M B) l b e s (I : B -> S -> Prop) :
  I b s -> (forall b s x, I b s -> returns (f b x) e s (fun b' s' _ => I b' s')) ->
  returns (foldM f l b) e s (fun b' s' _ => I b' s').
Proof.
  intros HI Hf. revert b s HI. induction l as [|x l IH]; intros b s HI; cbn [foldM].
  - by apply returns_ret.
  - apply returns_bind. eapply returns_weaken; [by apply Hf|].
    intros b' s' o' HI'. by apply IH.
Qed.
End monad.

Arguments M : clear implicits.

Notation "x <- m ;; k" := (bind m (fun x => k))
  (at level 100, m at next level, right associativity) : eff_scope.
Notation "' p <- m ;; k" := (bind m (fun x => match x with p => k end))
  (at level 100, p pattern, m at next level, right associativity) : eff_scope.
Notation "m ;;; k" := (bind m (fun _ => k))
  (at level 100, right associativity) : eff_scope.

(** Runs the [post] rules over a sequence of effects; what is left are the
    final condition and the calls that have lemmas of their own. *)
Ltac post_step :=
  first
    [ apply post_bind
    | apply post_ret
    | match goal with
      | |- post get _ _ _ => let H := fresh in intros ? ? ? H; injection H as <- <- <-
      | |- post ask _ _ _ => let H := fresh in intros ? ? ? H; injection H as <- <- <-
      | |- post (modify _) _ _ _ => let H := fresh in intros ? ? ? H; injection H as <- <- <-
      | |- post (emit _) _ _ _ => let H := fresh in intros ? ? ? H; injection H as <- <- <-
      | |- post panic _ _ _ => let H := fresh in intros ? ? ? H; discriminate H
      end ];
  cbn beta iota.
Ltac post_steps := repeat post_step.
