(* ===== verification/Keys.v ===== *)
(** * Object keys and the partition that owns them

    [KeyParams] and [UpdateObjectParams] of src/crdt/crdt/crdt.go, and the key
    hashing of src/potionDB/components/materializer.go: an object lives in the
    partition whose hash range holds its combined key.  The hash function
    (farmhash-style [StringSum64] of a vendored package) and the generated
    [CRDTType.String] are parameters. *)

From S2P Require Import Prelude.
From Stdlib Require Import ZArith Lia Bool.
From stdpp Require Import base tactics numbers strings gmap list.
#[local] Open Scope Z_scope.

Record KeyParams := mkKey { Key : string; CrdtType : Z; Bucket : string }.

#[export] Instance KeyParams_eq_dec : EqDecision KeyParams.
Proof. solve_decision. Defined.
#[export] Program Instance KeyParams_countable : Countable KeyParams :=
  inj_countable' (fun k => (Key k, CrdtType k, Bucket k))
    (fun '(k, t, b) => mkKey k t b) _.
Next Obligation. by intros []. Qed.

Record UpdateObjectParams (Upd : Type) := mkUpd { upd_key : KeyParams; UpdateArgs : Upd }.
Arguments mkUpd {Upd}. Arguments upd_key {Upd}. Arguments UpdateArgs {Upd}.

Record ReadObjectParams (RArgs : Type) := mkRead { read_key : KeyParams; ReadArgs : RArgs }.
Arguments mkRead {RArgs}. Arguments read_key {RArgs}. Arguments ReadArgs {RArgs}.

(** The external code: [proto.CRDTType.String] and [hashFunc.StringSum64]. *)
Class KeyHash := { CRDTType_String : Z -> string; StringSum64 : string -> Z }.

(** What is relied on: a hash is a uint64. *)
Class KeyHashLaws `{KeyHash} := { StringSum64_range s : inU 64 (StringSum64 s) }.

Section keys.
Context `{KeyHash}.

Definition getCombinedKey (keyParams : KeyParams) : string :=
  Bucket keyParams +:+ CRDTType_String (CrdtType keyParams) +:+ Key keyParams.

Definition getHash (combKey : string) : Z := StringSum64 combKey.

(** [nGoRoutines] and [keyRangeSize] are set once, at start-up. *)
Definition keyRangeSize (nGoRoutines : Z) : Z := MaxUint64 / nGoRoutines.

Definition GetChannelKey (nGoRoutines : Z) (keyParams : KeyParams) : Z :=
  let hashKey := getHash (getCombinedKey keyParams) in
  let key := hashKey / keyRangeSize nGoRoutines in
  if key =? nGoRoutines then key - 1 else key.

Definition hashOf (keyParams : KeyParams) : Z := getHash (getCombinedKey keyParams).
End keys.

Section key_properties.
Context `{KeyHashLaws}.

Lemma GetChannelKey_spec (nGoRoutines : Z) (k : KeyParams) :
  0 < nGoRoutines < 2 ^ 32 ->
  let key := GetChannelKey nGoRoutines k in
  0 <= key < nGoRoutines /\
  keyRangeSize nGoRoutines * key <= hashOf k /\
  (key < nGoRoutines - 1 -> hashOf k < keyRangeSize nGoRoutines * (key + 1)).
Proof.
  intros Hn key. subst key. unfold GetChannelKey. fold (hashOf k).
  pose proof (StringSum64_range (getCombinedKey k)) as Hh.
  change (StringSum64 (getCombinedKey k)) with (hashOf k) in Hh. unfold inU in Hh.
  unfold keyRangeSize. set (q := MaxUint64 / nGoRoutines).
  pose proof (Z.div_mod MaxUint64 nGoRoutines ltac:(lia)) as Hq. fold q in Hq.
  pose proof (Z.mod_pos_bound MaxUint64 nGoRoutines ltac:(lia)) as Hr.
  assert (Hqn : 2 ^ 32 <= q + 1).
  { subst q. enough (2 ^ 32 - 1 <= MaxUint64 / nGoRoutines) by lia.
    apply Z.div_le_lower_bound; [lia|]. unfold MaxUint64.
    change (2 ^ 64 - 1) with ((2 ^ 32 - 1) * (2 ^ 32 + 1)). nia. }
  pose proof (Z.div_mod (hashOf k) q ltac:(lia)) as Hd.
  pose proof (Z.mod_pos_bound (hashOf k) q ltac:(lia)) as Hm.
  set (d := hashOf k / q) in *.
  assert (0 <= d) by (apply Z.div_pos; lia).
  assert (d <= nGoRoutines).
  { unfold MaxUint64 in *. nia. }
  destruct (Z.eqb_spec d nGoRoutines); nia.
Qed.

(** Every key is routed to a partition that exists, up to 2^32 - 1
    partitions, and the partition is the one whose hash range holds the
    key's hash; the last partition also takes the rounding remainder. *)
Theorem GetChannelKey_in_range (nGoRoutines : Z) (k : KeyParams) :
  0 < nGoRoutines < 2 ^ 32 ->
  let key := GetChannelKey nGoRoutines k in
  0 <= key < nGoRoutines /\
  keyRangeSize nGoRoutines * key <= hashOf k /\
  (key < nGoRoutines - 1 -> hashOf k < keyRangeSize nGoRoutines * (key + 1)).
Proof. apply GetChannelKey_spec. Qed.
End key_properties.

(** A hash for the examples: the length of the key. *)
#[local] Instance length_hash : KeyHash :=
  { CRDTType_String _ := "T"%string;
    StringSum64 s := Z.of_nat (String.length s) mod 2 ^ 64 }.
#[local] Instance length_hash_laws : KeyHashLaws.
Proof. constructor. intros s. apply Z.mod_pos_bound. lia. Qed.

Lemma GetChannelKey_in_range_witness :
  0 < 26 < 2 ^ 32 /\ 0 <= GetChannelKey 26 (mkKey "k" 3 "b") < 26.
Proof.
  split; [lia|].
  apply (GetChannelKey_in_range 26 (mkKey "k" 3 "b")). lia.
Defined.
