(* ===== verification/PartitionClock.v ===== *)
(** * The clock of a partition: materializer.go (src/potionDB/components),
      prepClockHeap, commitHeap and partitionClock

    A partition hands out strictly increasing clocks to the transactions that
    prepare, keeps them in a heap until they commit, and keeps the commits it
    had to hold in a second heap.  Both are [heap.Interface] implementations
    (file GoHeap); [entries] is the slice [entries[:nEntries]] of the code. *)

From S2P Require Import Prelude ClockSI GoHeap.
From Stdlib Require Import ZArith Lia Bool.
From stdpp Require Import base tactics numbers gmap list.
#[local] Open Scope Z_scope.

(** ** prepClockHeap *)

Record TxnIdClkPair := mkPair { clk : vclock; txnId : Z }.

Record prepClockHeap := mkPrep { entries : list TxnIdClkPair; innerMap : gmap Z nat }.

Module Prep.
Definition Less (c : prepClockHeap) (i j : nat) : bool :=
  match entries c !! i, entries c !! j with
  | Some ei, Some ej => IsHigher (clk ej) (Some (clk ei))
  | _, _ => false
  end.

Definition Swap (c : prepClockHeap) (i j : nat) : prepClockHeap :=
  match entries c !! i, entries c !! j with
  | Some ei, Some ej =>
      mkPrep (<[i := ej]> (<[j := ei]> (entries c)))
        (<[txnId ei := j]> (<[txnId ej := i]> (innerMap c)))
  | _, _ => c
  end.

Definition Push (c : prepClockHeap) (convValue : TxnIdClkPair) : prepClockHeap :=
  mkPrep (entries c ++ [convValue])
    (<[txnId convValue := length (entries c)]> (innerMap c)).

Definition Pop (c : prepClockHeap) : option TxnIdClkPair * prepClockHeap :=
  match last (entries c) with
  | None => (None, c)
  | Some old =>
      (Some old, mkPrep (take (length (entries c) - 1) (entries c))
                   (delete (txnId old) (innerMap c)))
  end.

(** [None] is the zero pair: nil clock, transaction 0. *)
Definition PeekMin (c : prepClockHeap) : option TxnIdClkPair := entries c !! 0%nat.
Definition PeekMax (c : prepClockHeap) : option TxnIdClkPair := last (entries c).
Definition Len (c : prepClockHeap) : nat := length (entries c).
End Prep.

#[export] Instance prep_heap_ops : HeapOps prepClockHeap TxnIdClkPair := {
  hEntries := entries; hLess := Prep.Less; hSwap := Prep.Swap;
  hPush := Prep.Push; hPop := Prep.Pop }.

(** ** commitHeap *)

(** [CommitTimestamp] is never nil in the requests the code sends. *)
Record MatCommitArgs := mkCommit { TransactionId : Z; CommitTimestamp : vclock }.

Record commitHeap := mkHold { holds : list MatCommitArgs }.

Module Hold.
Definition Less (c : commitHeap) (i j : nat) : bool :=
  match holds c !! i, holds c !! j with
  | Some ei, Some ej => IsHigher (CommitTimestamp ej) (Some (CommitTimestamp ei))
  | _, _ => false
  end.

Definition Swap (c : commitHeap) (i j : nat) : commitHeap :=
  match holds c !! i, holds c !! j with
  | Some ei, Some ej => mkHold (<[i := ej]> (<[j := ei]> (holds c)))
  | _, _ => c
  end.

Definition Push (c : commitHeap) (convValue : MatCommitArgs) : commitHeap :=
  mkHold (holds c ++ [convValue]).

Definition Pop (c : commitHeap) : option MatCommitArgs * commitHeap :=
  match last (holds c) with
  | None => (None, c)
  | Some old => (Some old, mkHold (take (length (holds c) - 1) (holds c)))
  end.

Definition PeekMin (c : commitHeap) : option MatCommitArgs := holds c !! 0%nat.
Definition Len (c : commitHeap) : nat := length (holds c).
End Hold.

#[export] Instance hold_heap_ops : HeapOps commitHeap MatCommitArgs := {
  hEntries := holds; hLess := Hold.Less; hSwap := Hold.Swap;
  hPush := Hold.Push; hPop := Hold.Pop }.

(** ** partitionClock *)

Record partitionClock := mkClock {
  replicaID : Z;
  lastUsedTs : Z;
  stableClk : vclock;
  prepClks : prepClockHeap
}.

Definition emptyPrep : prepClockHeap := mkPrep [] ∅.

(** [known] are the identifiers of all replicas, held by package clocksi. *)
Definition initializePartitionClock (known : list Z) (replicaID : Z) : partitionClock :=
  mkClock replicaID 0 (NewTimestamp known) emptyPrep.

(** [now] is [time.Now().UnixNano()]. *)
Definition getNextClk (now : Z) (pc : partitionClock) (baseClk : vclock)
  : vclock * partitionClock :=
  let newClk := NextTimestamp now baseClk (replicaID pc) in
  let newReplicaTS := GetPos newClk (replicaID pc) in
  if newReplicaTS <=? lastUsedTs pc then
    let used := int64 (lastUsedTs pc + 1) in
    (UpdatePos newClk (replicaID pc) used,
     mkClock (replicaID pc) used (stableClk pc) (prepClks pc))
  else (newClk, mkClock (replicaID pc) newReplicaTS (stableClk pc) (prepClks pc)).

Definition prepareClock (now : Z) (pc : partitionClock) (txn : Z) : partitionClock :=
  let '(newTs, pc) := getNextClk now pc (stableClk pc) in
  mkClock (replicaID pc) (lastUsedTs pc) (stableClk pc)
    (GoHeap.Push (prepClks pc) (mkPair newTs txn)).

Definition getLowestPrepare (pc : partitionClock) : option TxnIdClkPair :=
  Prep.PeekMin (prepClks pc).

(** [None]: the heap is empty.  A transaction that is not in [innerMap] is
    looked up as position 0. *)
Definition removePrepare (pc : partitionClock) (txn : Z) : option partitionClock :=
  let pos := default 0%nat (innerMap (prepClks pc) !! txn) in
  match Remove (prepClks pc) pos with
  | Some (_, heap) => Some (mkClock (replicaID pc) (lastUsedTs pc) (stableClk pc) heap)
  | None => None
  end.

Definition removeLowestPrepare (pc : partitionClock) : option partitionClock :=
  match Pop (prepClks pc) with
  | Some (_, heap) => Some (mkClock (replicaID pc) (lastUsedTs pc) (stableClk pc) heap)
  | None => None
  end.

Definition updateClockWithCommit (pc : partitionClock) (clk : vclock) : partitionClock :=
  mkClock (replicaID pc) (lastUsedTs pc) (ClockSI.Merge (stableClk pc) (Some clk)) (prepClks pc).

Definition updateClockWithRemoteTS (pc : partitionClock) (remoteID ts : Z) : partitionClock :=
  mkClock (replicaID pc) (lastUsedTs pc) (UpdatePos (stableClk pc) remoteID ts) (prepClks pc).

Definition reset (known : list Z) (pc : partitionClock) : partitionClock :=
  mkClock (replicaID pc) 0 (NewTimestamp known) emptyPrep.

(** ** The heaps implement the heap interface *)

Definition clk_less {A} (f : A -> vclock) (a b : A) : bool := IsHigher (f b) (Some (f a)).

Abbreviation prep_less := (clk_less clk).
Abbreviation hold_less := (clk_less CommitTimestamp).

(** [innerMap] maps exactly the prepared transactions to their positions. *)
Definition prep_inv (c : prepClockHeap) : Prop :=
  forall t k, innerMap c !! t = Some k <->
              exists e, entries c !! k = Some e /\ txnId e = t.

Lemma prep_inv_swap c i j :
  prep_inv c -> (i < length (entries c))%nat -> (j < length (entries c))%nat ->
  entries (Prep.Swap c i j) = lswap (entries c) i j /\ prep_inv (Prep.Swap c i j).
Proof.
  intros Hinv Hi Hj.
  destruct (lookup_lt_is_Some_2 _ _ Hi) as [a Ha].
  destruct (lookup_lt_is_Some_2 _ _ Hj) as [b Hb].
  assert (Es : entries (Prep.Swap c i j) = lswap (entries c) i j)
    by (unfold Prep.Swap, lswap; by rewrite Ha, Hb).
  split; [done|]. intros t k. rewrite Es, lookup_lswap by done.
  unfold Prep.Swap. rewrite Ha, Hb. cbn [innerMap].
  assert (Hia : innerMap c !! txnId a = Some i) by (apply Hinv; naive_solver).
  assert (Hib : innerMap c !! txnId b = Some j) by (apply Hinv; naive_solver).
  destruct (decide (t = txnId a)) as [->|Hta].
  { rewrite lookup_insert_eq. split.
    - intros [= <-]. case_decide as E; [subst; rewrite Ha in Hb; simplify_eq; eauto|].
      rewrite decide_True by done. eauto.
    - intros (e & He & Ht).
      case_decide as E1; [|case_decide as E2; [by subst|]].
      + assert (innerMap c !! txnId a = Some j) by (apply Hinv; naive_solver).
        congruence.
      + assert (innerMap c !! txnId a = Some k) by (apply Hinv; naive_solver). congruence. }
  rewrite lookup_insert_ne by done.
  destruct (decide (t = txnId b)) as [->|Htb].
  { rewrite lookup_insert_eq. split.
    - intros [= <-]. rewrite decide_True by done. eauto.
    - intros (e & He & Ht).
      case_decide as E1; [by subst|case_decide as E2].
      + assert (innerMap c !! txnId b = Some i) by (apply Hinv; naive_solver). congruence.
      + assert (innerMap c !! txnId b = Some k) by (apply Hinv; naive_solver). congruence. }
  rewrite lookup_insert_ne by done. rewrite (Hinv t k).
  case_decide; [subst; naive_solver|]. case_decide; [subst; naive_solver|done].
Qed.

Lemma prep_inv_push c e :
  prep_inv c -> innerMap c !! txnId e = None -> prep_inv (Prep.Push c e).
Proof.
  intros Hinv Hf t k. unfold Prep.Push. cbn [entries innerMap].
  rewrite lookup_insert_Some. split.
  - intros [[Et Ek]|[Hne Hk]].
    + exists e. subst k. by rewrite list_lookup_middle.
    + apply Hinv in Hk as (e' & He' & Ht). exists e'. split; [|done].
      rewrite lookup_app_l; [done|]. by eapply lookup_lt_Some.
  - intros (e' & He' & Ht). apply lookup_app_Some in He' as [He'|[Hge He']].
    + right. assert (innerMap c !! t = Some k) by (apply Hinv; eauto).
      split; [|done]. intros Heq. rewrite Heq in Hf. congruence.
    + left. apply list_lookup_singleton_Some in He' as [Hk <-].
      split; [done|lia].
Qed.

Lemma prep_inv_pop c es x :
  prep_inv c -> entries c = es ++ [x] ->
  prep_inv (mkPrep es (delete (txnId x) (innerMap c))).
Proof.
  intros Hinv E t k. cbn [entries innerMap].
  assert (Hx : innerMap c !! txnId x = Some (length es)).
  { apply Hinv. exists x. split; [|done]. by rewrite E, list_lookup_middle. }
  rewrite lookup_delete_Some. split.
  - intros [Hne Hk]. apply Hinv in Hk as (e & He & Ht). exists e. split; [|done].
    rewrite E in He. apply lookup_app_Some in He as [He|[Hge He]]; [done|].
    apply list_lookup_singleton_Some in He as [_ <-]. done.
  - intros (e & He & Ht). apply lookup_lt_Some in He as Hlt.
    assert (Hk : innerMap c !! t = Some k).
    { apply Hinv. exists e. split; [|done]. by rewrite E, lookup_app_l. }
    split; [|done]. intros Heq. rewrite Heq in Hx. rewrite Hx in Hk. simplify_eq. lia.
Qed.

#[export, refine] Instance prep_heap_laws : HeapLaws prepClockHeap TxnIdClkPair prep_less := {
  hInv := prep_inv;
  hFresh c e := innerMap c !! txnId e = None
}.
Proof.
  - intros h i j a b Ha Hb. cbn [hLess hEntries prep_heap_ops] in *.
    unfold Prep.Less. by rewrite Ha, Hb.
  - intros h i j Hi Hil Hjl. by apply prep_inv_swap.
  - intros h x Hi Hf. split; [done|]. by apply prep_inv_push.
  - intros h es x Hi E. cbn [hPop prep_heap_ops hEntries] in *. unfold Prep.Pop.
    rewrite E, last_snoc. eexists. split; [done|]. cbn [entries].
    rewrite length_app. cbn [length]. replace (length es + 1 - 1)%nat with (length es) by lia.
    rewrite take_app_length. split; [done|]. by apply prep_inv_pop.
Defined.

#[export, refine] Instance hold_heap_laws : HeapLaws commitHeap MatCommitArgs hold_less := {
  hInv _ := True;
  hFresh _ _ := True
}.
Proof.
  - intros h i j a b Ha Hb. cbn [hLess hEntries hold_heap_ops] in *.
    unfold Hold.Less. by rewrite Ha, Hb.
  - intros h i j _ _ _. split; [|done]. cbn [hEntries hSwap hold_heap_ops].
    unfold Hold.Swap, lswap. by repeat case_match.
  - intros h x _ _. done.
  - intros h es x _ E. cbn [hPop hold_heap_ops hEntries] in *. unfold Hold.Pop.
    rewrite E, last_snoc. eexists. split; [done|]. cbn [holds].
    rewrite length_app. cbn [length]. replace (length es + 1 - 1)%nat with (length es) by lia.
    by rewrite take_app_length.
Defined.

(** ** Clocks of a partition form a chain *)

(** All clocks of [l] are over the replicas [D] and comparable. *)
Definition clk_chain {A} (D : gset Z) (f : A -> vclock) (l : list A) : Prop :=
  forall a b, a ∈ l -> b ∈ l ->
  dom (f a) = D /\ (vle (f a) (f b) \/ vle (f b) (f a)).

Section chain.
Context {A : Type} (D : gset Z) (f : A -> vclock).

Lemma chain_le l a b :
  clk_chain D f l -> a ∈ l -> b ∈ l -> GoHeap.le (clk_less f) a b <-> vle (f a) (f b).
Proof.
  intros Hc Ha Hb. destruct (Hc a b Ha Hb) as [Da Hab].
  destruct (Hc b a Hb Ha) as [Db _].
  assert (Hd : same_dom (f a) (f b)) by (unfold same_dom; congruence).
  unfold GoHeap.le, clk_less. rewrite <- not_true_iff_false, IsHigher_vle by done.
  split.
  - intros Hn. destruct Hab as [|Hba]; [done|].
    destruct (decide (f a = f b)) as [->|]; [apply vle_refl|]. naive_solver.
  - intros Hv [Hba Hne]. by apply Hne, vle_antisym.
Qed.

Lemma chain_asym l :
  clk_chain D f l ->
  forall a b, a ∈ l -> b ∈ l -> clk_less f a b = true -> GoHeap.le (clk_less f) a b.
Proof.
  intros Hc a b Ha Hb Hl. rewrite (chain_le l) by done.
  unfold clk_less in Hl. apply IsHigher_vle in Hl as [Hv _]; [done|].
  unfold same_dom. destruct (Hc a b Ha Hb), (Hc b a Hb Ha). congruence.
Qed.

Lemma chain_trans l :
  clk_chain D f l ->
  forall a b c, a ∈ l -> b ∈ l -> c ∈ l ->
  GoHeap.le (clk_less f) a b -> GoHeap.le (clk_less f) b c -> GoHeap.le (clk_less f) a c.
Proof.
  intros Hc a b c Ha Hb Hcl H1 H2.
  apply (chain_le l) in H1; [|done..]. apply (chain_le l) in H2; [|done..].
  apply (chain_le l); [done..|]. by eapply vle_trans.
Qed.

Lemma chain_sub l l' : clk_chain D f l -> (forall x, x ∈ l' -> x ∈ l) -> clk_chain D f l'.
Proof. intros Hc Hs a b Ha Hb. apply Hc; by apply Hs. Qed.

Lemma chain_cons l x :
  clk_chain D f l -> dom (f x) = D ->
  (forall y, y ∈ l -> vle (f x) (f y) \/ vle (f y) (f x)) -> clk_chain D f (x :: l).
Proof.
  intros Hc Hd Hx a b Ha Hb.
  apply elem_of_cons in Ha as [->|Ha]; apply elem_of_cons in Hb as [->|Hb].
  - split; [done|]. left. apply vle_refl.
  - split; [done|]. by apply Hx.
  - destruct (Hc a a Ha Ha). split; [done|]. destruct (Hx a Ha); auto.
  - by apply Hc.
Qed.
End chain.

(** A heap of comparable clocks: its root is a lowest clock. *)
Definition clk_heap {H A} `{HeapLaws H A less} (f : A -> vclock) (D : gset Z) (h : H) : Prop :=
  clk_chain D f (hEntries h) /\ heap_ok less (.∈ hEntries h) h.

Section clk_heap.
Context {H A : Type} {Ho : HeapOps H A} (f : A -> vclock)
        {Hl : HeapLaws H A (clk_less f)} (D : gset Z).

Lemma clk_heap_push (h : H) x :
  clk_heap f D h -> hFresh h x -> clk_chain D f (x :: hEntries h) ->
  clk_heap f D (GoHeap.Push h x) /\ hEntries (GoHeap.Push h x) ≡ₚ x :: hEntries h.
Proof.
  intros [Hc Hok] Hf Hcx.
  destruct (GoHeap.Push_correct (clk_less f) (.∈ x :: hEntries h)
    (chain_asym D f _ Hcx) (chain_trans D f _ Hcx) h x) as [Hok' Hp]; try done.
  - destruct Hok as (H1 & H2 & H3). split; [done|]. split; [|done].
    apply Forall_forall. intros e He. by right.
  - by left.
  - split; [|done]. split.
    + apply (chain_sub D f _ _ Hcx). intros e. by rewrite Hp.
    + destruct Hok' as (H1 & H2 & H3). split; [done|]. split; [|done].
      by apply Forall_forall.
Qed.

Lemma clk_heap_shrink (h h' : H) x P :
  clk_chain D f (hEntries h) -> heap_ok (clk_less f) P h' ->
  hEntries h ≡ₚ x :: hEntries h' -> clk_heap f D h'.
Proof.
  intros Hc (H1 & H2 & H3) Hp. split.
  - apply (chain_sub D f _ _ Hc). intros e He. rewrite Hp. by right.
  - split; [done|]. split; [|done]. by apply Forall_forall.
Qed.

Lemma clk_heap_pop (h : H) x :
  clk_heap f D h -> hEntries h !! 0%nat = Some x ->
  exists h', GoHeap.Pop h = Some (Some x, h') /\ clk_heap f D h' /\
    hEntries h ≡ₚ x :: hEntries h'.
Proof.
  intros [Hc Hok] Hx.
  destruct (GoHeap.Pop_correct (clk_less f) (.∈ hEntries h)
    (chain_asym D f _ Hc) (chain_trans D f _ Hc) h x Hok Hx)
    as (h' & E & Hok' & Hp & _).
  exists h'. split; [done|]. split; [|done]. by eapply clk_heap_shrink.
Qed.

Lemma clk_heap_remove (h : H) i x :
  clk_heap f D h -> hEntries h !! i = Some x ->
  exists h', GoHeap.Remove h i = Some (Some x, h') /\ clk_heap f D h' /\
    hEntries h ≡ₚ x :: hEntries h'.
Proof.
  intros [Hc Hok] Hx.
  destruct (GoHeap.Remove_correct (clk_less f) (.∈ hEntries h)
    (chain_asym D f _ Hc) (chain_trans D f _ Hc) h i x Hok Hx)
    as (h' & E & Hok' & Hp).
  exists h'. split; [done|]. split; [|done]. by eapply clk_heap_shrink.
Qed.

Lemma clk_heap_min (h : H) x y :
  clk_heap f D h -> hEntries h !! 0%nat = Some x -> y ∈ hEntries h -> vle (f x) (f y).
Proof.
  intros [Hc (H1 & H2 & H3)] Hx Hy.
  apply (chain_le D f _ _ _ Hc); [by eapply list_elem_of_lookup_2|done|].
  apply list_elem_of_lookup in Hy as [k Hk].
  eapply (is_heap_root (clk_less f) (.∈ hEntries h)); eauto using chain_asym, chain_trans.
  by eapply lookup_lt_Some.
Qed.
End clk_heap.

(** ** The invariant of a partition's clock *)

Record pc_ok (D : gset Z) (pc : partitionClock) : Prop := {
  pc_self : replicaID pc ∈ D;
  pc_dom : dom (stableClk pc) = D;
  pc_heap : clk_heap clk D (prepClks pc);
  pc_own : forall e, e ∈ entries (prepClks pc) ->
    GetPos (clk e) (replicaID pc) <= lastUsedTs pc;
  pc_others : forall e i, e ∈ entries (prepClks pc) -> i <> replicaID pc ->
    GetPos (clk e) i <= GetPos (stableClk pc) i
}.

(** Own positions can still grow: nanoseconds since 1970 stay below 2^63 until
    the year 2262. *)
Definition pc_room (pc : partitionClock) : Prop :=
  - 2 ^ 63 <= GetPos (stableClk pc) (replicaID pc) < MaxInt64 /\
  - 2 ^ 63 <= lastUsedTs pc < MaxInt64.

Definition prepared (pc : partitionClock) (t : Z) : Prop :=
  exists e, e ∈ entries (prepClks pc) /\ txnId e = t.

Lemma NextTimestamp_insert now ts id :
  - 2 ^ 63 <= GetPos ts id < MaxInt64 ->
  exists v, NextTimestamp now ts id = <[id := v]> ts /\ GetPos ts id < v.
Proof.
  intros Hr. unfold NextTimestamp.
  assert (Hw : int64 (GetPos ts id + 1) = GetPos ts id + 1).
  { apply wrapS_id; [lia|]. unfold inS, MaxInt64 in *. lia. }
  case_bool; eexists; (split; [reflexivity|]); to_prop; lia.
Qed.

Lemma Merge_ge a b i : GetPos a i <= GetPos (ClockSI.Merge a b) i.
Proof.
  destruct b as [b|]; [|done]. unfold GetPos at 2. rewrite Merge_lookup.
  unfold GetPos. destruct (a !! i); simpl; lia.
Qed.

Section clock_specs.
Variable D : gset Z.

Lemma prep_heap_inv pc : pc_ok D pc -> prep_inv (prepClks pc).
Proof. intros [_ _ [_ (Hi & _)] _ _]. exact Hi. Qed.

Lemma prepared_innerMap pc t :
  pc_ok D pc -> prepared pc t <-> is_Some (innerMap (prepClks pc) !! t).
Proof.
  intros Hok%prep_heap_inv. split.
  - intros (e & [k Hk]%list_elem_of_lookup & Ht). exists k. apply Hok. eauto.
  - intros [k (e & He & Ht)%Hok]. exists e. split; [|done].
    by eapply list_elem_of_lookup_2.
Qed.

Lemma getNextClk_spec now pc c pc' :
  pc_ok D pc -> pc_room pc -> getNextClk now pc (stableClk pc) = (c, pc') ->
  exists v, c = <[replicaID pc := v]> (stableClk pc) /\
    GetPos (stableClk pc) (replicaID pc) < v /\ lastUsedTs pc < v /\
    pc' = mkClock (replicaID pc) v (stableClk pc) (prepClks pc).
Proof.
  intros Hok [Hr1 Hr2] Hg. unfold getNextClk in Hg.
  destruct (NextTimestamp_insert now (stableClk pc) (replicaID pc) Hr1) as (v & Ev & Hv).
  rewrite Ev in Hg. rewrite GetPos_insert, decide_True in Hg by done.
  destruct (Z.leb_spec v (lastUsedTs pc)).
  - assert (Hw : int64 (lastUsedTs pc + 1) = lastUsedTs pc + 1).
    { apply wrapS_id; [lia|]. unfold inS, MaxInt64 in *. lia. }
    rewrite Hw in Hg. injection Hg as <- <-. exists (lastUsedTs pc + 1).
    unfold UpdatePos. rewrite GetPos_insert, decide_True by done.
    destruct (Z.ltb_spec v (lastUsedTs pc + 1)); [|lia].
    rewrite insert_insert_eq. split; [done|]. split; [lia|]. split; [lia|done].
  - injection Hg as <- <-. exists v. done.
Qed.

Lemma prepareClock_spec now pc t :
  pc_ok D pc -> pc_room pc -> ~ prepared pc t ->
  let pc' := prepareClock now pc t in
  exists c, entries (prepClks pc') = entries (prepClks pc) ++ [mkPair c t] /\
    pc_ok D pc' /\ replicaID pc' = replicaID pc /\ stableClk pc' = stableClk pc /\
    lastUsedTs pc' = GetPos c (replicaID pc) /\ dom c = D /\
    vle (stableClk pc) c /\ GetPos (stableClk pc) (replicaID pc) < GetPos c (replicaID pc) /\
    lastUsedTs pc < GetPos c (replicaID pc) /\
    (forall e, e ∈ entries (prepClks pc) -> vle (clk e) c).
Proof.
  intros Hok Hroom Hnp pc'. subst pc'. unfold prepareClock.
  destruct (getNextClk now pc (stableClk pc)) as [c pc1] eqn:Eg.
  apply getNextClk_spec in Eg as (v & Ec & Hv1 & Hv2 & ->); [|done..].
  cbn [replicaID lastUsedTs stableClk prepClks].
  pose proof Hok as [Hself Hdom Hheap Hown Hoth].
  assert (Hpos : forall i, GetPos c i =
    if decide (i = replicaID pc) then v else GetPos (stableClk pc) i).
  { intros i. rewrite Ec, GetPos_insert. repeat case_decide; congruence. }
  assert (Hdc : dom c = D) by (rewrite Ec, dom_insert_L; set_solver).
  assert (Habove : forall e, e ∈ entries (prepClks pc) -> vle (clk e) c).
  { intros e He i. rewrite Hpos. case_decide as Ei; [subst i|by apply Hoth].
    pose proof (Hown e He). lia. }
  assert (Hfresh : innerMap (prepClks pc) !! t = None).
  { apply eq_None_not_Some. by rewrite <- prepared_innerMap. }
  assert (Hchain : clk_chain D clk (mkPair c t :: entries (prepClks pc))).
  { apply chain_cons; [apply Hheap|done|]. intros y Hy. right. by apply Habove. }
  destruct (clk_heap_push clk D (prepClks pc) (mkPair c t) Hheap Hfresh Hchain)
    as [Hheap' _].
  assert (Hlast : entries (GoHeap.Push (prepClks pc) (mkPair c t)) =
    entries (prepClks pc) ++ [mkPair c t]).
  { refine (GoHeap.Push_last prep_less (prepClks pc) (mkPair c t) _ Hfresh _);
      [by apply (prep_heap_inv pc)|].
    apply Forall_forall. intros e He.
    apply (chain_le D clk _ e (mkPair c t) Hchain); [by right|by left|].
    by apply Habove. }
  exists c. split; [done|]. rewrite Hpos, decide_True by done.
  split; [|repeat split; try done].
  - split; cbn [replicaID lastUsedTs stableClk prepClks]; try done.
    + rewrite Hlast. intros e [He|He%list_elem_of_singleton]%elem_of_app.
      * pose proof (Hown e He). lia.
      * subst e. cbn [clk]. rewrite Hpos, decide_True by done. lia.
    + rewrite Hlast. intros e i [He|He%list_elem_of_singleton]%elem_of_app Hi.
      * by apply Hoth.
      * subst e. cbn [clk]. rewrite Hpos, decide_False by done. lia.
  - intros i. rewrite Hpos. case_decide; [subst; lia|lia].
Qed.

Lemma removePrepare_spec pc t :
  pc_ok D pc -> prepared pc t ->
  exists e heap, removePrepare pc t =
      Some (mkClock (replicaID pc) (lastUsedTs pc) (stableClk pc) heap) /\
    txnId e = t /\ entries (prepClks pc) ≡ₚ e :: entries heap /\
    clk_heap clk D heap.
Proof.
  intros Hok Hp. pose proof Hp as [k Hk]%(prepared_innerMap pc t Hok).
  apply (prep_heap_inv pc Hok) in Hk as Hk'. destruct Hk' as (e & He & Ht).
  destruct (clk_heap_remove clk D (prepClks pc) k e (pc_heap D pc Hok) He)
    as (heap & Er & Hh & Hperm).
  exists e, heap. unfold removePrepare. rewrite Hk. simpl. rewrite Er. done.
Qed.

Lemma pc_ok_shrink pc heap e :
  pc_ok D pc -> clk_heap clk D heap -> entries (prepClks pc) ≡ₚ e :: entries heap ->
  pc_ok D (mkClock (replicaID pc) (lastUsedTs pc) (stableClk pc) heap).
Proof.
  intros [Hself Hdom Hheap Hown Hoth] Hh Hp.
  split; cbn [replicaID lastUsedTs stableClk prepClks]; try done.
  - intros e' He'. apply Hown. rewrite Hp. by right.
  - intros e' i He'. apply Hoth. rewrite Hp. by right.
Qed.

Lemma updateClockWithCommit_ok pc c :
  pc_ok D pc -> pc_ok D (updateClockWithCommit pc c) /\
    forall i, GetPos (stableClk pc) i <= GetPos (stableClk (updateClockWithCommit pc c)) i.
Proof.
  intros [Hself Hdom Hheap Hown Hoth].
  assert (Hup : forall i, GetPos (stableClk pc) i <=
    GetPos (stableClk (updateClockWithCommit pc c)) i).
  { intros i. cbn [updateClockWithCommit stableClk]. apply Merge_ge. }
  split; [|done]. split; cbn [updateClockWithCommit replicaID prepClks lastUsedTs]; try done.
  - cbn [updateClockWithCommit stableClk]. rewrite <- Hdom. symmetry. apply Merge_dom.
  - intros e i He Hi. etrans; [by apply Hoth|]. apply Hup.
Qed.

Lemma updateClockWithRemoteTS_ok pc id ts :
  pc_ok D pc -> id ∈ D -> pc_ok D (updateClockWithRemoteTS pc id ts) /\
    forall i, GetPos (stableClk pc) i <= GetPos (stableClk (updateClockWithRemoteTS pc id ts)) i.
Proof.
  intros [Hself Hdom Hheap Hown Hoth] Hid.
  assert (Hup : forall i, GetPos (stableClk pc) i <=
    GetPos (stableClk (updateClockWithRemoteTS pc id ts)) i).
  { intros i. cbn [updateClockWithRemoteTS stableClk]. unfold UpdatePos.
    destruct (Z.ltb_spec (GetPos (stableClk pc) id) ts); [|lia].
    rewrite GetPos_insert. case_decide; [subst; lia|lia]. }
  split; [|done]. split; cbn [updateClockWithRemoteTS replicaID prepClks lastUsedTs]; try done.
  - cbn [updateClockWithRemoteTS stableClk]. unfold UpdatePos. case_match; [|done].
    rewrite dom_insert_L. set_solver.
  - intros e i He Hi. etrans; [by apply Hoth|]. apply Hup.
Qed.
End clock_specs.
