(* ===== verification/Materializer.v ===== *)
(** * The materializer: materializer.go (src/potionDB/components)

    A partition owns a range of keys.  It is a goroutine that serves, one at a
    time, the requests of its channel: reads, writes and the two phases of the
    commit of local transactions, the transactions of other replicas, garbage
    collection and the bookkeeping of bounded counters.  [partition] is its
    state, one definition [handleMat...] per request, and [handleRequest] its
    dispatch loop's body; [Out] is what it sends on reply channels, to the
    transaction manager's commit channel and to its logger.

    The objects are behind two interfaces: [VersionManager] (file
    VersionManager) and [CRDTLib], what the materializer uses of package crdt.
    Debug bookkeeping ([debugMode] is the constant false) and prints are left
    out.  Clocks are values: no clock that a partition sends or stores is
    modified afterwards, [stableClk] is replaced by [Merge] and copied before it
    is sent. *)

From S2P Require Import Prelude ClockSI ClockCodec GoHeap VersionManager Effects Keys.
From S2P Require Import PartitionClock.
From Stdlib Require Import ZArith Lia Bool.
From stdpp Require Import base tactics numbers strings gmap sorting list.
#[local] Open Scope Z_scope.
#[local] Open Scope eff_scope.

(** What the materializer uses of package crdt, besides version managers. *)
Class CRDTLib (CRDT Op Upd : Type) := {
  InitializeCrdt : Z -> Z -> CRDT;
  EmptyCrdt : CRDT;
  isResetOp : Upd -> bool;
  MustReplicate : Op -> bool;
  (** A downstream argument is an update argument; the converse is a type
      assertion. *)
  downAsUpd : Op -> Upd;
  updAsDown : Upd -> option Op;
  (** [*BoundedCounterCrdt]: [None] is a failed type assertion.  The inner
      [None] of [bc_Transfer] is a nil or NoOp downstream operation. *)
  bc_Transfer : CRDT -> Z -> Z -> Z -> option (option Op);
  bc_Downstream : CRDT -> vclock -> Op -> CRDT;
  bc_RequestTransfer : CRDT -> option (Z * Z)
}.

Definition CRDTType_FATCOUNTER : Z := 12.

Record bcInfo := mkBC {
  bcKeys : list KeyParams;
  nKeys : nat;
  replicaIDs : list Z;
  partID : Z;
  opsForTxn : gmap Z (gmap KeyParams Z);
  permsForReplica : gmap Z Z
}.

Definition zeroKey : KeyParams := mkKey EmptyString 0 EmptyString.

Definition initializeBCInfo (known : list Z) (id : Z) : bcInfo :=
  mkBC (replicate 10 zeroKey) 0 known (int16 id) ∅ ∅.

Definition addKey (bc : bcInfo) (keyP : KeyParams) : bcInfo :=
  if (length (bcKeys bc) =? nKeys bc)%nat
  then mkBC (bcKeys bc ++ [keyP]) (nKeys bc) (replicaIDs bc) (partID bc) (opsForTxn bc)
         (permsForReplica bc)
  else mkBC (<[nKeys bc := keyP]> (bcKeys bc)) (nKeys bc + 1) (replicaIDs bc) (partID bc)
         (opsForTxn bc) (permsForReplica bc).

(** The wall clock, the partition's random source, and what the i-th update of a
    transaction draws. *)
Record MatEnv (Env : Type) := mkEnv { now : Z; rng_Int63 : Z; upd_env : Z -> nat -> Env }.
Arguments mkEnv {Env}. Arguments now {Env}. Arguments rng_Int63 {Env}. Arguments upd_env {Env}.

Record MatRemoteTxn (Upd : Type) := mkRemote {
  rt_ReplicaID : Z; rt_Timestamp : vclock; rt_Upds : list (UpdateObjectParams Upd) }.
Arguments mkRemote {Upd}. Arguments rt_ReplicaID {Upd}.
Arguments rt_Timestamp {Upd}. Arguments rt_Upds {Upd}.

Record partition (VM Upd : Type) := mkPart {
  id : Z;
  partClock : partitionClock;
  db : gmap Z VM;
  pendingOps : gmap Z (list (UpdateObjectParams Upd));
  pendingOpsRemote : gmap Z (list (UpdateObjectParams Upd));
  commitsOnHold : commitHeap;
  bc : bcInfo
}.
Arguments mkPart {VM Upd}. Arguments id {VM Upd}. Arguments partClock {VM Upd}.
Arguments db {VM Upd}. Arguments pendingOps {VM Upd}. Arguments pendingOpsRemote {VM Upd}.
Arguments commitsOnHold {VM Upd}. Arguments bc {VM Upd}.

Inductive Out (CRDT Upd State : Type) :=
  | ReplyState (s : State)
  | ReplyStateClock (s : State) (clk : vclock)
  | ReplyClock (clk : Timestamp)
  | ReplyDownstream (newDown : list (UpdateObjectParams Upd))
  | ReplyTrue
  | ReplyCommitedClk (clk : vclock) (partID : Z)
  | ReplyPermissions (ReqsMap : gmap Z (gmap KeyParams Z)) (PartID : Z)
  | ReplyCRDT (crdt : CRDT) (Pos : Z)
  | TMPartCommitReply (txnId : Z)
  | TMCommitNPartitions (nPartitions txnId : Z) (clk : Timestamp)
  | LogCommit (TxnClk : vclock) (Upds : list (UpdateObjectParams Upd))
  | LogClk (Clk : vclock)
  | LogReset.
Arguments ReplyState {CRDT Upd State}. Arguments ReplyStateClock {CRDT Upd State}.
Arguments ReplyClock {CRDT Upd State}. Arguments ReplyDownstream {CRDT Upd State}.
Arguments ReplyTrue {CRDT Upd State}. Arguments ReplyCommitedClk {CRDT Upd State}.
Arguments ReplyPermissions {CRDT Upd State}. Arguments ReplyCRDT {CRDT Upd State}.
Arguments TMPartCommitReply {CRDT Upd State}. Arguments TMCommitNPartitions {CRDT Upd State}.
Arguments LogCommit {CRDT Upd State}. Arguments LogClk {CRDT Upd State}.
Arguments LogReset {CRDT Upd State}.

(** The requests of a partition's channel. *)
Inductive MatRequest (Upd RArgs : Type) :=
  | MatStaticSingleRead (o : ReadObjectParams RArgs)
  | MatStaticRead (o : ReadObjectParams RArgs) (ts : vclock)
  | MatRead (o : ReadObjectParams RArgs) (ts : vclock) (txn : Z)
  | MatStaticWrite (upds : list (UpdateObjectParams Upd)) (txn : Z)
  | MatWrite (upds : list (UpdateObjectParams Upd)) (txn : Z)
  | MatCommit (args : MatCommitArgs)
  | MatPrepare (txn : Z)
  | MatAbort (txn : Z)
  | MatSafeClk
  | MatRemoteTxnReq (txn : MatRemoteTxn Upd)
  | MatClkPosUpd (ReplicaID StableTs : Z)
  | MatRemoteGroupTxn (Txns : list (MatRemoteTxn Upd)) (FinalClk : vclock)
  | MatPrepareForRemote (upds : list (UpdateObjectParams Upd)) (txn : Z)
  | MatCommitedClk
  | MatBCUpdPermissions
  | MatBCTxnPermissions (Values : gmap KeyParams Z) (ReplicaID : Z)
  | MatReset
  | MatGC (SafeClk : vclock)
  | MatGetCRDT (k : KeyParams) (Pos : Z)
  | MatOther.
Arguments MatStaticSingleRead {Upd RArgs}. Arguments MatStaticRead {Upd RArgs}.
Arguments MatRead {Upd RArgs}. Arguments MatStaticWrite {Upd RArgs}.
Arguments MatWrite {Upd RArgs}. Arguments MatCommit {Upd RArgs}.
Arguments MatPrepare {Upd RArgs}. Arguments MatAbort {Upd RArgs}.
Arguments MatSafeClk {Upd RArgs}. Arguments MatRemoteTxnReq {Upd RArgs}.
Arguments MatClkPosUpd {Upd RArgs}. Arguments MatRemoteGroupTxn {Upd RArgs}.
Arguments MatPrepareForRemote {Upd RArgs}. Arguments MatCommitedClk {Upd RArgs}.
Arguments MatBCUpdPermissions {Upd RArgs}. Arguments MatBCTxnPermissions {Upd RArgs}.
Arguments MatReset {Upd RArgs}. Arguments MatGC {Upd RArgs}.
Arguments MatGetCRDT {Upd RArgs}. Arguments MatOther {Upd RArgs}.

Section materializer.
Context {VM CRDT Op Upd RArgs State Env : Type}
        `{HVM : VersionManager VM CRDT Op Upd RArgs State Env}
        `{HLib : CRDTLib CRDT Op Upd} `{HHash : KeyHash}.
(** [shared.IsReadWaitingDisabled]; the identifiers of all replicas; the write
    through the pointer that [GetLatestCRDT] returned. *)
Variable IsReadWaitingDisabled : bool.
Variable known : list Z.
Variable setLatestCRDT : VM -> CRDT -> VM.

Local Abbreviation part_t := (partition VM Upd).
Local Abbreviation MP := (M (MatEnv Env) part_t (Out CRDT Upd State)).
Local Abbreviation upd_t := (UpdateObjectParams Upd).

Definition set_clock (pc : partitionClock) (p : part_t) : part_t :=
  mkPart (id p) pc (db p) (pendingOps p) (pendingOpsRemote p) (commitsOnHold p) (bc p).
Definition set_db (d : gmap Z VM) (p : part_t) : part_t :=
  mkPart (id p) (partClock p) d (pendingOps p) (pendingOpsRemote p) (commitsOnHold p) (bc p).
Definition set_pending (o : gmap Z (list upd_t)) (p : part_t) : part_t :=
  mkPart (id p) (partClock p) (db p) o (pendingOpsRemote p) (commitsOnHold p) (bc p).
Definition set_pendingRemote (o : gmap Z (list upd_t)) (p : part_t) : part_t :=
  mkPart (id p) (partClock p) (db p) (pendingOps p) o (commitsOnHold p) (bc p).
Definition set_hold (h : commitHeap) (p : part_t) : part_t :=
  mkPart (id p) (partClock p) (db p) (pendingOps p) (pendingOpsRemote p) h (bc p).
Definition set_bc (b : bcInfo) (p : part_t) : part_t :=
  mkPart (id p) (partClock p) (db p) (pendingOps p) (pendingOpsRemote p) (commitsOnHold p) b.

(** [listenToTM] up to its loop. *)
Definition initialPartition (pid replicaID : Z) : part_t :=
  mkPart pid (initializePartitionClock known replicaID) ∅ ∅ ∅ (mkHold [])
    (initializeBCInfo known pid).

(** ** Objects *)

Definition initializeVersionManager (crdtType : Z) (clk : vclock) : MP VM :=
  p <- get ;;
  must (vm_Initialize (InitializeCrdt crdtType (replicaID (partClock p))) clk).

Definition getObject (k : KeyParams) (clk : vclock) : MP VM :=
  p <- get ;;
  match db p !! hashOf k with
  | Some obj => ret obj
  | None => initializeVersionManager (CrdtType k) clk
  end.

(** Also stores the object if non-existent. *)
Definition getObjectForUpd (hashKey : Z) (k : KeyParams) (clk : vclock) : MP VM :=
  p <- get ;;
  match db p !! hashKey with
  | Some obj => ret obj
  | None =>
      obj <- initializeVersionManager (CrdtType k) clk ;;
      modify (fun p => set_db (<[hashKey := obj]> (db p)) p) ;;;
      (if CrdtType k =? CRDTType_FATCOUNTER
       then modify (fun p => set_bc (addKey (bc p) k) p) else ret tt) ;;;
      ret obj
  end.

(** Stores what a method did to an object of [db], which is a pointer. *)
Definition putObject (hashKey : Z) (obj : VM) : MP unit :=
  modify (fun p =>
    match db p !! hashKey with
    | Some _ => set_db (<[hashKey := obj]> (db p)) p
    | None => p
    end).

(** The empty list stands for nil as well. *)
Definition getObjPendingOps (k : KeyParams) (txn : Z) : MP (list Upd) :=
  p <- get ;;
  match pendingOps p !! txn with
  | None => ret []
  | Some ops => ret (UpdateArgs <$> List.filter (fun u => bool_decide (upd_key u = k)) ops)
  end.

(** ** Reads *)

Definition canReadLatest (readTs : vclock) : MP bool :=
  if IsReadWaitingDisabled then ret true
  else p <- get ;; ret (negb (IsLower readTs (Some (stableClk (partClock p))))).

Definition getState (readLatest : bool) (obj : VM) (readArgs : RArgs) (clk : vclock)
    (objPending : list Upd) : MP (State * VM) :=
  if readLatest then ret (vm_ReadLatest obj readArgs objPending, obj)
  else must (vm_ReadOld obj readArgs clk objPending).

Definition handleMatRead (o : ReadObjectParams RArgs) (ts : vclock) (txn : Z) : MP unit :=
  readLatest <- canReadLatest ts ;;
  obj <- getObject (read_key o) ts ;;
  objPending <- getObjPendingOps (read_key o) txn ;;
  '(st, obj) <- getState readLatest obj (ReadArgs o) ts objPending ;;
  putObject (hashOf (read_key o)) obj ;;;
  emit (ReplyState st).

Definition handleMatStaticSingleRead (o : ReadObjectParams RArgs) : MP unit :=
  p <- get ;;
  let copyClk := ClockSI.Copy (stableClk (partClock p)) in
  obj <- getObject (read_key o) copyClk ;;
  '(st, obj) <- getState true obj (ReadArgs o) copyClk [] ;;
  putObject (hashOf (read_key o)) obj ;;;
  emit (ReplyStateClock st copyClk).

Definition handleMatStaticRead (o : ReadObjectParams RArgs) (ts : vclock) : MP unit :=
  readLatest <- canReadLatest ts ;;
  obj <- getObject (read_key o) ts ;;
  '(st, obj) <- getState readLatest obj (ReadArgs o) ts [] ;;
  putObject (hashOf (read_key o)) obj ;;;
  emit (ReplyState st).

(** ** Writes and prepares *)

Definition prepare (txn : Z) : MP unit :=
  e <- ask ;;
  modify (fun p => set_clock (prepareClock (now e) (partClock p) txn) p).

Definition replyPrepare : MP unit :=
  p <- get ;;
  emit (ReplyClock (clk <$> Prep.PeekMax (prepClks (partClock p)))).

Definition handleMatPrepare (txn : Z) : MP unit := prepare txn ;;; replyPrepare.

Definition handleMatWrite (upds : list upd_t) (txn : Z) : MP unit :=
  modify (fun p =>
    set_pending (<[txn := default [] (pendingOps p !! txn) ++ upds]> (pendingOps p)) p).

Definition handleMatStaticWrite (upds : list upd_t) (txn : Z) : MP unit :=
  prepare txn ;;;
  modify (fun p => set_pending (<[txn := upds]> (pendingOps p)) p) ;;;
  replyPrepare.

Definition handleMatPrepareRemote (upds : list upd_t) (txn : Z) : MP unit :=
  modify (fun p => set_pendingRemote (<[txn := upds]> (pendingOpsRemote p)) p) ;;;
  prepare txn ;;; replyPrepare.

Definition handleMatAbort (txn : Z) : MP unit :=
  modify (fun p => set_pending (delete txn (pendingOps p)) p).

(** ** Applying a commit *)

(** One iteration of the loop of [applyUpdates]; [i] counts the updates,
    [down] is [downstreamUpds[:i]] of the code. *)
Definition applyUpdate (txn : Z) (commitClk : vclock) (acc : nat * list upd_t) (upd : upd_t)
  : MP (nat * list upd_t) :=
  let '(n, down) := acc in
  e <- ask ;;
  let hashKey := hashOf (upd_key upd) in
  if isResetOp (UpdateArgs upd) then
    modify (fun p => set_db (delete hashKey (db p)) p) ;;;
    ret (S n, down ++ [upd])
  else
    obj <- getObjectForUpd hashKey (upd_key upd) commitClk ;;
    match vm_Update (upd_env e txn n) obj (UpdateArgs upd) with
    | None => ret (S n, down)
    | Some downArgs =>
        '(obj, _) <- must (vm_Downstream obj commitClk downArgs) ;;
        putObject hashKey obj ;;;
        ret (S n, if MustReplicate downArgs
                  then down ++ [mkUpd (upd_key upd) (downAsUpd downArgs)] else down)
    end.

Definition applyUpdates (txn : Z) (updates : list upd_t) (commitClk : vclock)
  : MP (list upd_t) :=
  '(_, down) <- foldM (applyUpdate txn commitClk) updates (0%nat, []) ;;
  ret down.

(** One iteration of the loop of [applyBCPermsUpds]: the counter is updated
    directly, not through its version manager. *)
Definition applyBCPerm (toID : Z) (ts : vclock) (down : list upd_t) (kv : KeyParams * Z)
  : MP (list upd_t) :=
  let '(key, value) := kv in
  let hashKey := hashOf key in
  vm <- getObjectForUpd hashKey key ts ;;
  p <- get ;;
  let obj := vm_GetLatestCRDT vm in
  downArgs <- must (bc_Transfer obj value (replicaID (partClock p)) toID) ;;
  match downArgs with
  | None => ret down
  | Some downArgs =>
      putObject hashKey (setLatestCRDT vm (bc_Downstream obj ts downArgs)) ;;;
      ret (if MustReplicate downArgs
           then down ++ [mkUpd key (downAsUpd downArgs)] else down)
  end.

Definition applyBCPermsUpds (txn : Z) (ts : vclock) : MP (list upd_t) :=
  p <- get ;;
  let ops := default ∅ (opsForTxn (bc p) !! txn) in
  let replicaID := default 0 (permsForReplica (bc p) !! txn) in
  down <- foldM (applyBCPerm replicaID ts) (map_to_list ops) [] ;;
  modify (fun p =>
    set_bc (mkBC (bcKeys (bc p)) (nKeys (bc p)) (replicaIDs (bc p)) (partID (bc p))
              (delete txn (opsForTxn (bc p))) (delete txn (permsForReplica (bc p)))) p) ;;;
  ret down.

Definition updatePartitionWithCommit (args : MatCommitArgs) (downUpds : list upd_t) : MP unit :=
  modify (fun p => set_clock (updateClockWithCommit (partClock p) (CommitTimestamp args)) p) ;;;
  (if (0 <? length downUpds)%nat
   then emit (LogCommit (CommitTimestamp args) downUpds) else ret tt) ;;;
  modify (fun p => set_pending (delete (TransactionId args) (pendingOps p)) p) ;;;
  modify (fun p => set_pendingRemote (delete (TransactionId args) (pendingOpsRemote p)) p).

Definition applyCommit (args : MatCommitArgs) : MP unit :=
  p <- get ;;
  downstreamUpds <-
    match pendingOps p !! TransactionId args with
    | Some ops => applyUpdates (TransactionId args) ops (CommitTimestamp args)
    | None =>
        match pendingOpsRemote p !! TransactionId args with
        | Some remoteOps => ret remoteOps
        | None => applyBCPermsUpds (TransactionId args) (CommitTimestamp args)
        end
    end ;;
  updatePartitionWithCommit args downstreamUpds ;;;
  emit (TMPartCommitReply (TransactionId args)).

(** ** The commit protocol *)

Definition holdCommit (args : MatCommitArgs) : MP unit :=
  modify (fun p => set_hold (GoHeap.Push (commitsOnHold p) args) p).

Definition canCommit (p : part_t) (args : MatCommitArgs) : bool :=
  let holdAllows :=
    match Hold.PeekMin (commitsOnHold p) with
    | None => true
    | Some minHold => IsHigher (CommitTimestamp minHold) (Some (CommitTimestamp args))
    end in
  match Prep.PeekMin (prepClks (partClock p)) with
  | None => holdAllows
  | Some minPrep =>
      if IsLower (clk minPrep) (Some (CommitTimestamp args)) then false else holdAllows
  end.

(** [heap.Pop(&part.commitsOnHold).(MatCommitArgs)]. *)
Definition popHold : MP MatCommitArgs :=
  p <- get ;;
  '(c, heap) <- must (GoHeap.Pop (commitsOnHold p)) ;;
  modify (set_hold heap) ;;;
  must c.

(** The loop when no transaction is prepared.  Each iteration removes one
    commit, so as many steps as there are commits on hold are enough. *)
Fixpoint applyAllHeld (fuel : nat) : MP unit :=
  p <- get ;;
  if (Hold.Len (commitsOnHold p) =? 0)%nat then ret tt
  else
    match fuel with
    | O => ret tt
    | S fuel => c <- popHold ;; applyCommit c ;;; applyAllHeld fuel
    end.

(** The loop bounded by the lowest prepared clock. *)
Fixpoint applyHeldUpTo (fuel : nat) (minPrep : vclock) (minCommit : MatCommitArgs) : MP unit :=
  match fuel with
  | O => ret tt
  | S fuel =>
      if IsLowerOrEqual (CommitTimestamp minCommit) (Some minPrep) then
        popHold ;;;
        applyCommit minCommit ;;;
        p <- get ;;
        match Hold.PeekMin (commitsOnHold p) with
        | None => ret tt
        | Some minCommit => applyHeldUpTo fuel minPrep minCommit
        end
      else ret tt
  end.

Definition checkHoldCommits : MP unit :=
  p <- get ;;
  match Hold.PeekMin (commitsOnHold p) with
  | None => ret tt
  | Some minCommit =>
      match Prep.PeekMin (prepClks (partClock p)) with
      | None => applyAllHeld (Hold.Len (commitsOnHold p))
      | Some minPrep => applyHeldUpTo (Hold.Len (commitsOnHold p)) (clk minPrep) minCommit
      end
  end.

Definition handleMatCommit (args : MatCommitArgs) : MP unit :=
  p <- get ;;
  let lowestPrep := getLowestPrepare (partClock p) in
  pc <- must (removePrepare (partClock p) (TransactionId args)) ;;
  modify (set_clock pc) ;;;
  p <- get ;;
  (if canCommit p args then applyCommit args else holdCommit args) ;;;
  if default 0 (txnId <$> lowestPrep) =? TransactionId args
  then checkHoldCommits else ret tt.

Definition handleMatPermsTxn (Values : gmap KeyParams Z) (ReplicaID : Z) : MP unit :=
  e <- ask ;;
  let txnID := rng_Int63 e in
  prepare txnID ;;;
  modify (fun p =>
    set_bc (mkBC (bcKeys (bc p)) (nKeys (bc p)) (replicaIDs (bc p)) (partID (bc p))
              (<[txnID := Values]> (opsForTxn (bc p)))
              (<[txnID := ReplicaID]> (permsForReplica (bc p)))) p) ;;;
  p <- get ;;
  pair <- must (Prep.PeekMax (prepClks (partClock p))) ;;
  emit (TMCommitNPartitions 1 txnID (Some (ClockSI.Copy (clk pair)))) ;;;
  handleMatCommit (mkCommit txnID (clk pair)).

(** ** Remote transactions *)

Definition applyRemoteUpd (ts : vclock) (newDown : list upd_t) (upd : upd_t)
  : MP (list upd_t) :=
  let hashKey := hashOf (upd_key upd) in
  obj <- getObjectForUpd hashKey (upd_key upd) ts ;;
  op <- must (updAsDown (UpdateArgs upd)) ;;
  '(obj, generatedDownstream) <- must (vm_Downstream obj ts op) ;;
  putObject hashKey obj ;;;
  match generatedDownstream with
  | None => ret newDown
  | Some op => ret (newDown ++ [mkUpd (upd_key upd) (downAsUpd op)])
  end.

Definition applyRemoteUpds (args : MatRemoteTxn Upd) (newDownstream : list upd_t)
  : MP (list upd_t) :=
  foldM (applyRemoteUpd (rt_Timestamp args)) (rt_Upds args) newDownstream.

Definition handleMatRemoteTxn (args : MatRemoteTxn Upd) : MP unit :=
  newDown <- applyRemoteUpds args [] ;;
  modify (fun p => set_clock (updateClockWithCommit (partClock p) (rt_Timestamp args)) p) ;;;
  emit (ReplyDownstream newDown).

Definition handleMatClkPosUpd (ReplicaID StableTs : Z) : MP unit :=
  modify (fun p =>
    set_clock (updateClockWithRemoteTS (partClock p) ReplicaID StableTs) p) ;;;
  emit ReplyTrue.

Definition handleMatRemoteGroupTxn (Txns : list (MatRemoteTxn Upd)) (FinalClk : vclock)
  : MP unit :=
  newDown <- foldM (fun newDown txn => applyRemoteUpds txn newDown) Txns [] ;;
  modify (fun p => set_clock (updateClockWithCommit (partClock p) FinalClk) p) ;;;
  emit (ReplyDownstream newDown).

(** ** Clocks for the logger and the replicator *)

Definition handleMatSafeClk : MP unit :=
  e <- ask ;;
  p <- get ;;
  let rid := replicaID (partClock p) in
  match Prep.PeekMin (prepClks (partClock p)) with
  | None => emit (LogClk (NextTimestamp (now e) (stableClk (partClock p)) rid))
  | Some minPrep =>
      let safeClk := ClockSI.Copy (clk minPrep) in
      emit (LogClk (UpdateForcedPos safeClk rid (int64 (GetPos safeClk rid - 1))))
  end.

Definition handleMatCommitedClk : MP unit :=
  p <- get ;;
  emit (ReplyCommitedClk (ClockSI.Copy (stableClk (partClock p))) (id p)).

(** ** Reset, garbage collection, bounded counters, debug reads *)

(** The prepared transactions of other replicas and the bookkeeping of bounded
    counters survive a reset, and nothing is sent on the reply channel. *)
Definition handleMatReset : MP unit :=
  emit LogReset ;;;
  modify (fun p => set_clock (reset known (partClock p)) p) ;;;
  modify (set_db ∅) ;;;
  modify (set_pending ∅) ;;;
  modify (set_hold (mkHold [])).

Definition handleMatGC (SafeClk : vclock) : MP unit :=
  p <- get ;;
  foldM (fun _ hv =>
    let '(hashKey, obj) := hv in
    obj <- must (vm_GC obj SafeClk (getMapByteKey SafeClk)) ;;
    putObject hashKey obj) (map_to_list (db p)) tt.

(** A missing object is a nil interface; a replica that is not in
    [replicaIDs] is a write to a nil map. *)
Definition updatePermissions (d : gmap Z VM) (reqs : gmap Z (gmap KeyParams Z)) (keyP : KeyParams)
  : MP (gmap Z (gmap KeyParams Z)) :=
  obj <- must (d !! hashOf keyP) ;;
  '(toAsk, askID) <- must (bc_RequestTransfer (vm_GetLatestCRDT obj)) ;;
  if toAsk =? -1 then ret reqs
  else
    m <- must (reqs !! askID) ;;
    ret (<[askID := <[keyP := toAsk]> m]> reqs).

Definition handleMatBCUpdPerm : MP unit :=
  p <- get ;;
  let reqsMap := list_to_map ((fun id => (id, ∅)) <$> replicaIDs (bc p)) in
  reqs <- foldM (updatePermissions (db p)) (take (nKeys (bc p)) (bcKeys (bc p))) reqsMap ;;
  emit (ReplyPermissions reqs (partID (bc p))).

Definition handleMatGetCRDT (k : KeyParams) (Pos : Z) : MP unit :=
  p <- get ;;
  match db p !! hashOf k with
  | None => emit (ReplyCRDT EmptyCrdt Pos)
  | Some crdtVM => emit (ReplyCRDT (vm_GetLatestCRDT crdtVM) Pos)
  end.

(** ** The goroutine *)

(** The request types without a case of their own are ignored. *)
Definition handleRequest (request : MatRequest Upd RArgs) : MP unit :=
  match request with
  | MatStaticSingleRead o => handleMatStaticSingleRead o
  | MatStaticRead o ts => handleMatStaticRead o ts
  | MatRead o ts txn => handleMatRead o ts txn
  | MatStaticWrite upds txn => handleMatStaticWrite upds txn
  | MatWrite upds txn => handleMatWrite upds txn
  | MatCommit args => handleMatCommit args
  | MatPrepare txn => handleMatPrepare txn
  | MatAbort txn => handleMatAbort txn
  | MatSafeClk => handleMatSafeClk
  | MatRemoteTxnReq txn => handleMatRemoteTxn txn
  | MatClkPosUpd r ts => handleMatClkPosUpd r ts
  | MatRemoteGroupTxn txns clk => handleMatRemoteGroupTxn txns clk
  | MatPrepareForRemote upds txn => handleMatPrepareRemote upds txn
  | MatCommitedClk => handleMatCommitedClk
  | MatBCUpdPermissions => handleMatBCUpdPerm
  | MatBCTxnPermissions vs r => handleMatPermsTxn vs r
  | MatReset => handleMatReset
  | MatGC clk => handleMatGC clk
  | MatGetCRDT k pos => handleMatGetCRDT k pos
  | MatOther => ret tt
  end.

(** The requests a partition serves, each with what it reads from the clock
    and the random source. *)
Fixpoint serve (reqs : list (MatEnv Env * MatRequest Upd RArgs)) (p : part_t)
  : option (part_t * list (Out CRDT Upd State)) :=
  match reqs with
  | [] => Some (p, [])
  | (e, r) :: reqs =>
      match handleRequest r e p with
      | None => None
      | Some (_, p1, o1) =>
          match serve reqs p1 with
          | None => None
          | Some (p2, o2) => Some (p2, o1 ++ o2)
          end
      end
  end.
End materializer.
