(* ===== verification/CommitOrder.v ===== *)
(** * The commit protocol of a partition keeps the order of clocks

    Transactions prepare, get a clock, and commit later with a clock that is not
    lower; a partition applies a commit at once or holds it until no prepared
    transaction can still commit below it.  This file proves, over every
    sequence of [legal] requests, that commits are applied in an order that
    never goes down, that a held commit always waits for a transaction that is
    still prepared, and that serving a commit does not panic.  A request is
    legal when each commit has a clock at or above the one its transaction
    prepared with here and comparable with the clocks on hold.  The transaction
    manager commits with the highest proposal when the proposals are
    comparable; when they are concurrent it does not ensure this, and a commit
    can then go down: [CommitServed.concurrent_proposals_break_the_order]. *)

From S2P Require Import Prelude ClockSI ClockCodec GoHeap VersionManager Effects Keys.
From S2P Require Import PartitionClock Materializer.
From Stdlib Require Import ZArith Lia Bool.
From stdpp Require Import base tactics numbers strings gmap sorting list.
#[local] Open Scope Z_scope.
#[local] Open Scope eff_scope.

Section commit_order.
Context {VM CRDT Op Upd RArgs State Env : Type}
        `{HVM : VersionManager VM CRDT Op Upd RArgs State Env}
        `{HLib : CRDTLib CRDT Op Upd} `{HHash : KeyHash}.
Variable IsReadWaitingDisabled : bool.
Variable known : list Z.
Variable setLatestCRDT : VM -> CRDT -> VM.

Local Abbreviation part_t := (Materializer.partition VM Upd).
Local Abbreviation MP := (M (MatEnv Env) part_t (Out CRDT Upd State)).
Local Abbreviation applyCommit := (applyCommit setLatestCRDT).
Local Abbreviation handleMatCommit := (handleMatCommit setLatestCRDT).
Local Abbreviation handle := (handleRequest IsReadWaitingDisabled known setLatestCRDT).
Local Abbreviation serve := (serve IsReadWaitingDisabled known setLatestCRDT).

(** The transactions whose commits were applied, in order: [applyCommit] tells
    the transaction manager about each. *)
Definition commits_of (o : list (Out CRDT Upd State)) : list Z :=
  omap (fun x => match x with TMPartCommitReply t => Some t | _ => None end) o.

Lemma commits_of_app o1 o2 : commits_of (o1 ++ o2) = commits_of o1 ++ commits_of o2.
Proof. apply omap_app. Qed.

(** ** Effects on objects only *)

Definition same_control (p p' : part_t) : Prop :=
  partClock p' = partClock p /\ commitsOnHold p' = commitsOnHold p.

(** [m] leaves clocks and held commits alone and reports no commit. *)
Definition quiet {A} (m : MP A) : Prop :=
  forall e p, post m e p (fun _ p' o => same_control p p' /\ commits_of o = []).

Lemma quiet_ret {A} (a : A) : quiet (ret a).
Proof. intros e p. by apply post_ret. Qed.
Lemma quiet_get : quiet get.
Proof. intros e p a p' o [= <- <- <-]. done. Qed.
Lemma quiet_ask : quiet ask.
Proof. intros e p a p' o [= <- <- <-]. done. Qed.
Lemma quiet_panic {A} : quiet (@panic _ _ _ A).
Proof. intros e p a p' o [=]. Qed.
Lemma quiet_must {A} (o : option A) : quiet (must o).
Proof. intros e p. by apply post_must. Qed.
Lemma quiet_modify f : (forall p, same_control p (f p)) -> quiet (modify f).
Proof. intros Hf e p a p' o [= <- <- <-]. split; [apply Hf|done]. Qed.
Lemma quiet_emit o : commits_of [o] = [] -> quiet (emit o).
Proof. intros Ho e p a p' o' [= <- <- <-]. done. Qed.
Lemma quiet_bind {A B} (m : MP A) (k : A -> MP B) :
  quiet m -> (forall a, quiet (k a)) -> quiet (bind m k).
Proof.
  intros Hm Hk e p. apply post_bind. eapply post_weaken; [apply Hm|].
  intros a p1 o1 [[E1 E2] Eo]. eapply post_weaken; [apply Hk|].
  intros b p2 o2 [[E3 E4] Eo2]. rewrite commits_of_app, Eo, Eo2.
  split; [|done]. split; congruence.
Qed.
Lemma quiet_foldM {A B} (f : B -> A -> MP B) l b :
  (forall b a, quiet (f b a)) -> quiet (foldM f l b).
Proof.
  intros Hf. revert b. induction l as [|x l IH]; intros b; cbn [foldM].
  - apply quiet_ret.
  - by apply quiet_bind.
Qed.

Local Ltac quiet :=
  repeat first
    [ apply quiet_ret | apply quiet_get | apply quiet_ask | apply quiet_panic
    | apply quiet_must | apply quiet_bind; [|intros ?]
    | apply quiet_foldM; intros ? ?
    | apply quiet_modify; intros ?; first [done | by case_match]
    | apply quiet_emit; done
    | case_match ].

Lemma quiet_getObjectForUpd h k c : quiet (getObjectForUpd h k c).
Proof. unfold getObjectForUpd, initializeVersionManager. quiet. Qed.
Lemma quiet_getObject k c : quiet (getObject k c).
Proof. unfold getObject, initializeVersionManager. quiet. Qed.
Lemma quiet_putObject h (obj : VM) : quiet (putObject h obj).
Proof. unfold putObject. quiet. Qed.

Local Ltac quiet_obj :=
  repeat first [ apply quiet_getObjectForUpd | apply quiet_getObject
               | apply quiet_putObject | progress quiet ].

Lemma quiet_applyUpdates t ops c : quiet (applyUpdates t ops c).
Proof. unfold applyUpdates, applyUpdate. quiet_obj. Qed.
Lemma quiet_applyBCPermsUpds t c : quiet (applyBCPermsUpds setLatestCRDT t c).
Proof. unfold applyBCPermsUpds, applyBCPerm. quiet_obj. Qed.
Lemma quiet_applyRemoteUpds args d : quiet (applyRemoteUpds args d).
Proof. unfold applyRemoteUpds, applyRemoteUpd. quiet_obj. Qed.

(** ** What applying a commit does to the clocks *)

Lemma applyCommit_control c e p :
  post (applyCommit c) e p (fun _ p' o =>
    partClock p' = updateClockWithCommit (partClock p) (CommitTimestamp c) /\
    commitsOnHold p' = commitsOnHold p /\ commits_of o = [TransactionId c]).
Proof.
  unfold Materializer.applyCommit. apply post_bind. intros ? ? ? [= <- <- <-].
  apply post_bind. eapply post_weaken.
  { match goal with |- post ?m _ _ _ => assert (Hq : quiet m) end; [|apply Hq].
    case_match; [apply quiet_applyUpdates|].
    case_match; [apply quiet_ret|apply quiet_applyBCPermsUpds]. }
  intros down p1 o1 [[E1 E2] Eo]. apply post_bind.
  unfold updatePartitionWithCommit.
  apply post_bind. intros ? ? ? [= <- <- <-]. apply post_bind.
  eapply post_weaken with (Q := fun _ p' o =>
    p' = set_clock (updateClockWithCommit (partClock p1) (CommitTimestamp c)) p1 /\
    commits_of o = []).
  { case_match; [intros ? ? ? [= <- <- <-]|apply post_ret]; done. }
  intros [] p2 o2 [-> Eo2]. apply post_bind. intros ? ? ? [= <- <- <-].
  intros ? ? ? [= <- <- <-]. intros ? ? ? [= <- <- <-].
  cbn [partClock commitsOnHold set_clock set_pending set_pendingRemote].
  rewrite <- E1. split; [done|]. split; [done|].
  rewrite !commits_of_app, Eo, Eo2. done.
Qed.

(** ** The invariant *)

Definition lower (a b : vclock) : Prop := vle a b /\ ~ vle b a.

Lemma lower_IsLower a b : same_dom a b -> IsLower a (Some b) = true <-> lower a b.
Proof.
  intros Hd. rewrite IsLower_vle by done. unfold lower. split; intros [Hv Hn].
  - split; [done|]. intros Hv'. by apply Hn, vle_antisym.
  - split; [done|]. intros ->. by apply Hn.
Qed.

Lemma lower_vle_trans a b c : vle a b -> lower b c -> lower a c.
Proof.
  intros H1 [H2 Hn]. split; [exact (vle_trans _ _ _ H1 H2)|].
  intros H3. exact (Hn (vle_trans _ _ _ H3 H1)).
Qed.

Lemma vle_lower_trans a b c : lower a b -> vle b c -> lower a c.
Proof.
  intros [H1 Hn] H2. split; [exact (vle_trans _ _ _ H1 H2)|].
  intros H3. exact (Hn (vle_trans _ _ _ H2 H3)).
Qed.

(** No clock is followed by a strictly lower one. *)
Definition never_down (l : list vclock) : Prop :=
  forall i j a b, (i < j)%nat -> l !! i = Some a -> l !! j = Some b -> ~ lower b a.

Lemma never_down_snoc l c :
  never_down l -> (forall a, a ∈ l -> ~ lower c a) -> never_down (l ++ [c]).
Proof.
  intros Hl Hc i j a b Hij Ha Hb. apply lookup_lt_Some in Hb as Hj.
  rewrite length_app in Hj. simpl in Hj.
  rewrite lookup_app_l in Ha by lia.
  apply lookup_app_Some in Hb as [Hb|[_ Hb]]; [by apply (Hl i j)|].
  apply list_lookup_singleton_Some in Hb as [_ <-].
  apply Hc. by eapply list_elem_of_lookup_2.
Qed.


Section invariant.
Variable D : gset Z.
(** The clock with which each transaction commits. *)
Variable ct : Z -> vclock.

Abbreviation prep p := (entries (prepClks (partClock p))).
Abbreviation held p := (holds (commitsOnHold p)).

(** [A] are the clocks of the commits applied so far. *)
Record mat_ok (A : list vclock) (p : part_t) : Prop := {
  m_pc : pc_ok D (partClock p);
  m_hold : clk_heap CommitTimestamp D (commitsOnHold p);
  m_hct : forall h, h ∈ held p -> CommitTimestamp h = ct (TransactionId h);
  m_applied : forall a, a ∈ A -> dom a = D /\ vle a (stableClk (partClock p));
  m_prep_above : forall e a, e ∈ prep p -> a ∈ A -> ~ lower (clk e) a;
  m_hold_above : forall h a, h ∈ held p -> a ∈ A -> ~ lower (CommitTimestamp h) a;
  m_order : never_down A
}.

(** Every held commit waits for a transaction that is still prepared. *)
Definition all_wait (p : part_t) : Prop :=
  forall h, h ∈ held p -> exists e, e ∈ prep p /\ ~ vle (CommitTimestamp h) (clk e).

Lemma mat_ok_quiet A p p' : same_control p p' -> mat_ok A p -> mat_ok A p'.
Proof. intros [E1 E2] []. split; rewrite ?E1, ?E2; done. Qed.

Lemma all_wait_quiet p p' : same_control p p' -> all_wait p -> all_wait p'.
Proof. unfold all_wait. by intros [-> ->]. Qed.

(** A commit nothing can come below is safe to apply. *)
Lemma applyCommit_ok A c e p :
  mat_ok A p -> dom (CommitTimestamp c) = D ->
  CommitTimestamp c = ct (TransactionId c) ->
  (forall e', e' ∈ prep p -> ~ lower (clk e') (CommitTimestamp c)) ->
  (forall h, h ∈ held p -> ~ lower (CommitTimestamp h) (CommitTimestamp c)) ->
  (forall a, a ∈ A -> ~ lower (CommitTimestamp c) a) ->
  post (applyCommit c) e p (fun _ p' o =>
    mat_ok (A ++ (ct <$> commits_of o)) p' /\
    prepClks (partClock p') = prepClks (partClock p) /\
    commitsOnHold p' = commitsOnHold p).
Proof.
  intros Hok Hd Hct Hprep Hheld HA.
  eapply post_weaken; [apply applyCommit_control|].
  intros _ p' o (E1 & E2 & Eo). rewrite Eo, E1, E2. split; [|done].
  destruct (updateClockWithCommit_ok D (partClock p) (CommitTimestamp c) (m_pc A p Hok))
    as [Hpc Hup].
  destruct Hok as [Hpc0 Hh Hhct Happ Hpa Hha Hord].
  cbn [fmap list_fmap]. rewrite <- Hct.
  split; rewrite ?E1, ?E2; try done.
  - intros a [Ha|Ha%list_elem_of_singleton]%elem_of_app.
    + destruct (Happ a Ha) as [Hda Hva]. split; [done|]. by eapply vle_trans.
    + subst a. split; [done|]. intros i. cbn [updateClockWithCommit stableClk].
      rewrite Merge_GetPos; [lia|]. unfold same_dom. by rewrite (pc_dom D _ Hpc0).
  - intros e' a He' [Ha|Ha%list_elem_of_singleton]%elem_of_app; [by apply Hpa|].
    subst a. by apply Hprep.
  - intros h a Hhe [Ha|Ha%list_elem_of_singleton]%elem_of_app; [by apply Hha|].
    subst a. by apply Hheld.
  - by apply never_down_snoc.
Qed.

Lemma popHold_spec A e p c :
  mat_ok A p -> Hold.PeekMin (commitsOnHold p) = Some c ->
  exists heap, (popHold : MP _) e p = Some (c, set_hold heap p, []) /\
    clk_heap CommitTimestamp D heap /\ held p ≡ₚ c :: holds heap.
Proof.
  intros Hok Hc.
  destruct (clk_heap_pop CommitTimestamp D (commitsOnHold p) c (m_hold A p Hok) Hc)
    as (heap & E & Hh & Hp).
  exists heap. unfold popHold, bind, get, modify, must. rewrite E. done.
Qed.

Lemma mat_ok_shrink_hold A p heap c :
  mat_ok A p -> clk_heap CommitTimestamp D heap -> held p ≡ₚ c :: holds heap ->
  mat_ok A (set_hold heap p).
Proof.
  intros [Hpc Hh Hhct Happ Hpa Hha Hord] Hheap Hp.
  split; cbn [partClock commitsOnHold set_hold]; try done.
  - intros h Hhe. apply Hhct. rewrite Hp. by right.
  - intros h a Hhe. apply Hha. rewrite Hp. by right.
Qed.

(** A lowest held commit that no prepared transaction can come below. *)
Lemma applyCommit_popped A c e p heap :
  mat_ok A p -> Hold.PeekMin (commitsOnHold p) = Some c ->
  clk_heap CommitTimestamp D heap -> held p ≡ₚ c :: holds heap ->
  (forall e', e' ∈ prep p -> ~ lower (clk e') (CommitTimestamp c)) ->
  post (applyCommit c) e (set_hold heap p) (fun _ p' o =>
    mat_ok (A ++ (ct <$> commits_of o)) p' /\
    prepClks (partClock p') = prepClks (partClock p) /\ commitsOnHold p' = heap).
Proof.
  intros Hok Hmin Hheap Hp Hprep.
  assert (Hin : c ∈ held p) by (rewrite Hp; by left).
  pose proof (m_hold A p Hok) as [Hchain _].
  apply applyCommit_ok; try done.
  - by eapply mat_ok_shrink_hold.
  - by apply (Hchain c c).
  - by apply (m_hct A p Hok).
  - intros h Hh [_ Hn]. apply Hn.
    apply (clk_heap_min CommitTimestamp D (commitsOnHold p) c h); try done.
    + by apply (m_hold A p Hok).
    + change (h ∈ held p). rewrite Hp. by right.
  - intros a Ha. by apply (m_hold_above A p Hok).
Qed.

Lemma applyAllHeld_ok fuel A e p :
  mat_ok A p -> prep p = [] -> (length (held p) <= fuel)%nat ->
  post (applyAllHeld setLatestCRDT fuel) e p (fun _ p' o =>
    mat_ok (A ++ (ct <$> commits_of o)) p' /\
    prepClks (partClock p') = prepClks (partClock p) /\ held p' = []).
Proof.
  revert A p. induction fuel as [|fuel IH]; intros A p Hok Hprep Hlen;
    cbn [applyAllHeld]; apply post_bind; intros ? ? ? [= <- <- <-]; unfold Hold.Len.
  all: destruct (held p) as [|c l] eqn:Eh; cbn [length Nat.eqb].
  - apply post_ret. by rewrite app_nil_r.
  - simpl in Hlen. lia.
  - apply post_ret. by rewrite app_nil_r.
  - destruct (popHold_spec A e p c Hok) as (heap & Epop & Hheap & Hp).
    { unfold Hold.PeekMin. by rewrite Eh. }
    apply post_bind. intros c' p1 o1 E1. rewrite Epop in E1. injection E1 as <- <- <-.
    apply post_bind. eapply post_weaken.
    { apply (applyCommit_popped A c e p heap Hok); try done.
      - unfold Hold.PeekMin. by rewrite Eh.
      - rewrite Hprep. by intros e' ?%elem_of_nil. }
    intros [] p2 o2 (Hok2 & Epr & Eho).
    eapply post_weaken; [apply (IH _ p2 Hok2)|].
    + by rewrite Epr.
    + rewrite Eho. apply Permutation_length in Hp. rewrite Eh in Hp. simpl in *. lia.
    + intros [] p3 o3 (Hok3 & Epr3 & Eho3). cbn [app].
      rewrite commits_of_app, fmap_app, app_assoc. rewrite Epr3. done.
Qed.

Lemma applyHeldUpTo_ok fuel A e p c ep :
  mat_ok A p -> Prep.PeekMin (prepClks (partClock p)) = Some ep ->
  Hold.PeekMin (commitsOnHold p) = Some c -> (length (held p) <= fuel)%nat ->
  post (applyHeldUpTo setLatestCRDT fuel (clk ep) c) e p (fun _ p' o =>
    mat_ok (A ++ (ct <$> commits_of o)) p' /\
    prepClks (partClock p') = prepClks (partClock p) /\
    forall h, h ∈ held p' -> ~ vle (CommitTimestamp h) (clk ep)).
Proof.
  revert A p c. induction fuel as [|fuel IH]; intros A p c Hok Hep Hc Hlen;
    cbn [applyHeldUpTo].
  { apply lookup_lt_Some in Hc. lia. }
  pose proof (m_hold A p Hok) as Hheap0. pose proof Hheap0 as [Hchain _].
  pose proof (pc_heap D _ (m_pc A p Hok)) as Hph. pose proof Hph as [Hpchain _].
  assert (Hcin : c ∈ held p) by (by eapply list_elem_of_lookup_2).
  assert (Hepin : ep ∈ prep p) by (by eapply list_elem_of_lookup_2).
  assert (Hdom : same_dom (CommitTimestamp c) (clk ep)).
  { unfold same_dom. destruct (Hchain c c Hcin Hcin) as [-> _].
    by destruct (Hpchain ep ep Hepin Hepin) as [-> _]. }
  destruct (IsLowerOrEqual (CommitTimestamp c) (Some (clk ep))) eqn:Ele.
  - apply IsLowerOrEqual_vle in Ele; [|done].
    destruct (popHold_spec A e p c Hok Hc) as (heap & Epop & Hheap & Hp).
    apply post_bind. intros c' p1 o1 E1. rewrite Epop in E1. injection E1 as <- <- <-.
    apply post_bind. eapply post_weaken.
    { apply (applyCommit_popped A c e p heap Hok); try done.
      intros e' He' [_ Hn]. apply Hn. eapply vle_trans; [exact Ele|].
      by apply (clk_heap_min clk D (prepClks (partClock p)) ep e'). }
    intros [] p2 o2 (Hok2 & Epr & Eho). apply post_bind. intros ? ? ? [= <- <- <-].
    destruct (Hold.PeekMin (commitsOnHold p2)) as [c2|] eqn:Ec2.
    + eapply post_weaken; [apply (IH _ p2 c2 Hok2); [by rewrite Epr|done|]|].
      * rewrite Eho. apply Permutation_length in Hp. simpl in Hp. lia.
      * intros [] p3 o3 (Hok3 & Epr3 & Hw3). cbn [app].
        rewrite commits_of_app, fmap_app, app_assoc. rewrite Epr3. done.
    + apply post_ret. cbn [app]. rewrite app_nil_r. split; [done|]. split; [done|].
      unfold Hold.PeekMin in Ec2. intros h Hh. destruct (held p2); [|done].
      by apply elem_of_nil in Hh.
  - apply post_ret. rewrite app_nil_r. split; [done|]. split; [done|].
    intros h Hh Hv. apply not_true_iff_false in Ele. apply Ele.
    apply IsLowerOrEqual_vle; [done|]. eapply vle_trans; [|exact Hv].
    by apply (clk_heap_min CommitTimestamp D (commitsOnHold p) c h).
Qed.

Lemma checkHoldCommits_ok A e p :
  mat_ok A p ->
  post (checkHoldCommits setLatestCRDT) e p (fun _ p' o =>
    mat_ok (A ++ (ct <$> commits_of o)) p' /\
    prepClks (partClock p') = prepClks (partClock p) /\ all_wait p').
Proof.
  intros Hok. unfold checkHoldCommits. apply post_bind. intros ? ? ? [= <- <- <-].
  destruct (Hold.PeekMin (commitsOnHold p)) as [c|] eqn:Ec.
  - destruct (Prep.PeekMin (prepClks (partClock p))) as [ep|] eqn:Eep.
    + eapply post_weaken; [by apply (applyHeldUpTo_ok _ A e p c ep)|].
      intros [] p' o (H1 & H2 & H3). cbn [app]. split; [done|]. split; [done|].
      intros h Hh. exists ep. split; [|by apply H3].
      rewrite H2. by eapply list_elem_of_lookup_2.
    + eapply post_weaken; [apply (applyAllHeld_ok _ A e p Hok); [|done]|].
      * unfold Prep.PeekMin in Eep. by destruct (prep p).
      * intros [] p' o (H1 & H2 & H3). cbn [app]. split; [done|]. split; [done|].
        intros h. rewrite H3. by intros ?%elem_of_nil.
  - apply post_ret. cbn [app]. rewrite app_nil_r. split; [done|]. split; [done|].
    unfold Hold.PeekMin in Ec. intros h Hh. destruct (held p); [|done].
    by apply elem_of_nil in Hh.
Qed.

(** ** Serving a commit *)

(** A transaction commits while it is prepared, with a clock that is not
    below the one it prepared with and comparable with those on hold. *)
Record legal_commit (p : part_t) (c : MatCommitArgs) : Prop := {
  lc_clk : CommitTimestamp c = ct (TransactionId c);
  lc_dom : dom (CommitTimestamp c) = D;
  lc_prep : exists e, e ∈ prep p /\ txnId e = TransactionId c /\
    vle (clk e) (CommitTimestamp c);
  lc_held : forall h, h ∈ held p ->
    vle (CommitTimestamp h) (CommitTimestamp c) \/
    vle (CommitTimestamp c) (CommitTimestamp h)
}.

Lemma txn_unique A p e1 e2 :
  mat_ok A p -> e1 ∈ prep p -> e2 ∈ prep p -> txnId e1 = txnId e2 -> e1 = e2.
Proof.
  intros Hok H1 H2 Ht. pose proof (prep_heap_inv D _ (m_pc A p Hok)) as Hinv.
  apply list_elem_of_lookup in H1 as [i Hi], H2 as [j Hj].
  assert (E1 : innerMap (prepClks (partClock p)) !! txnId e1 = Some i) by (apply Hinv; eauto).
  assert (E2 : innerMap (prepClks (partClock p)) !! txnId e1 = Some j)
    by (apply Hinv; exists e2; by rewrite Ht).
  congruence.
Qed.

Lemma removePrepare_ok A p c :
  mat_ok A p -> legal_commit p c ->
  exists e pc, removePrepare (partClock p) (TransactionId c) = Some pc /\
    mat_ok A (set_clock pc p) /\ prep p ≡ₚ e :: prep (set_clock pc p) /\
    txnId e = TransactionId c /\ vle (clk e) (CommitTimestamp c).
Proof.
  intros Hok [_ _ (e & He & Ht & Hv) _].
  destruct (removePrepare_spec D (partClock p) (TransactionId c) (m_pc A p Hok))
    as (e' & heap & Er & Ht' & Hp & Hheap); [by exists e|].
  assert (He' : e' ∈ prep p) by (rewrite Hp; by left).
  assert (e' = e) as -> by (apply (txn_unique A p); congruence).
  exists e. eexists. split; [exact Er|]. split; [|done].
  pose proof (pc_ok_shrink D _ heap e (m_pc A p Hok) Hheap Hp) as Hpc.
  destruct Hok as [_ Hh Hhct Happ Hpa Hha Hord].
  split; cbn [set_clock partClock commitsOnHold prepClks stableClk]; try done.
  intros e1 a He1. apply Hpa. rewrite Hp. by right.
Qed.

Lemma canCommit_true A p c :
  mat_ok A p -> dom (CommitTimestamp c) = D -> canCommit p c = true ->
  (forall e', e' ∈ prep p -> ~ lower (clk e') (CommitTimestamp c)) /\
  (forall h, h ∈ held p -> ~ lower (CommitTimestamp h) (CommitTimestamp c)).
Proof.
  intros Hok Hd Hcan. unfold canCommit in Hcan.
  pose proof (pc_heap D _ (m_pc A p Hok)) as Hph.
  pose proof (m_hold A p Hok) as Hhh.
  assert (Hhold : match Hold.PeekMin (commitsOnHold p) with
    | None => true
    | Some mh => IsHigher (CommitTimestamp mh) (Some (CommitTimestamp c))
    end = true).
  { destruct (Prep.PeekMin (prepClks (partClock p))); [|done].
    by destruct (IsLower _ _). }
  split.
  - intros e' He' Hlow.
    destruct (Prep.PeekMin (prepClks (partClock p))) as [mp|] eqn:Emp.
    + destruct (IsLower (clk mp) (Some (CommitTimestamp c))) eqn:El; [done|].
      apply not_true_iff_false in El. apply El. apply lower_IsLower.
      * unfold same_dom. rewrite Hd. apply (proj1 Hph mp mp);
          by eapply list_elem_of_lookup_2.
      * eapply lower_vle_trans; [|exact Hlow].
        by apply (clk_heap_min clk D (prepClks (partClock p)) mp e').
    + unfold Prep.PeekMin in Emp. destruct (prep p); [|done].
      by apply elem_of_nil in He'.
  - intros h Hh [_ Hn]. apply Hn.
    destruct (Hold.PeekMin (commitsOnHold p)) as [mh|] eqn:Emh.
    + apply IsHigher_vle in Hhold as [Hv _].
      * eapply vle_trans; [exact Hv|].
        by apply (clk_heap_min CommitTimestamp D (commitsOnHold p) mh h).
      * unfold same_dom. rewrite Hd. apply (proj1 Hhh mh mh);
          by eapply list_elem_of_lookup_2.
    + unfold Hold.PeekMin in Emh. destruct (held p); [|done].
      by apply elem_of_nil in Hh.
Qed.

(** A commit that is refused has a reason: a prepared transaction strictly
    below it, or a commit on hold that is not above it. *)
Lemma canCommit_false A p c :
  mat_ok A p -> dom (CommitTimestamp c) = D -> canCommit p c = false ->
  (forall h, h ∈ held p ->
    vle (CommitTimestamp h) (CommitTimestamp c) \/
    vle (CommitTimestamp c) (CommitTimestamp h)) ->
  (exists mp, mp ∈ prep p /\ ~ vle (CommitTimestamp c) (clk mp)) \/
  (exists mh, mh ∈ held p /\ vle (CommitTimestamp mh) (CommitTimestamp c)).
Proof.
  intros Hok Hd Hcan Hcmp. unfold canCommit in Hcan.
  pose proof (pc_heap D _ (m_pc A p Hok)) as Hph.
  pose proof (m_hold A p Hok) as Hhh.
  assert (Hhold : match Hold.PeekMin (commitsOnHold p) with
    | None => true
    | Some mh => IsHigher (CommitTimestamp mh) (Some (CommitTimestamp c))
    end = false ->
    exists mh, mh ∈ held p /\ vle (CommitTimestamp mh) (CommitTimestamp c)).
  { destruct (Hold.PeekMin (commitsOnHold p)) as [mh|] eqn:Emh; [|done].
    assert (Hin : mh ∈ held p) by (by eapply list_elem_of_lookup_2).
    intros Hf. exists mh. split; [done|]. destruct (Hcmp mh Hin) as [|Hv]; [done|].
    apply not_true_iff_false in Hf. destruct (decide (CommitTimestamp mh = CommitTimestamp c))
      as [->|Hne]; [apply vle_refl|]. exfalso. apply Hf, IsHigher_vle; [|done].
    unfold same_dom. rewrite Hd. by apply (proj1 Hhh mh mh). }
  destruct (Prep.PeekMin (prepClks (partClock p))) as [mp|] eqn:Emp; [|by right; apply Hhold].
  assert (Hin : mp ∈ prep p) by (by eapply list_elem_of_lookup_2).
  destruct (IsLower (clk mp) (Some (CommitTimestamp c))) eqn:El; [|by right; apply Hhold].
  left. exists mp. split; [done|]. apply lower_IsLower in El as [_ Hn]; [done|].
  unfold same_dom. rewrite Hd. by apply (proj1 Hph mp mp).
Qed.

Lemma holdCommit_ok A p c :
  mat_ok A p -> dom (CommitTimestamp c) = D -> CommitTimestamp c = ct (TransactionId c) ->
  (forall h, h ∈ held p ->
    vle (CommitTimestamp h) (CommitTimestamp c) \/
    vle (CommitTimestamp c) (CommitTimestamp h)) ->
  (forall a, a ∈ A -> ~ lower (CommitTimestamp c) a) ->
  mat_ok A (set_hold (GoHeap.Push (commitsOnHold p) c) p) /\
  held (set_hold (GoHeap.Push (commitsOnHold p) c) p) ≡ₚ c :: held p.
Proof.
  intros Hok Hd Hct Hcmp HA. pose proof (m_hold A p Hok) as Hhh.
  destruct (clk_heap_push CommitTimestamp D (commitsOnHold p) c Hhh I) as [Hheap Hp].
  { apply chain_cons; [apply Hhh|done|]. intros y Hy. apply or_comm. by apply Hcmp. }
  split; [|exact Hp]. destruct Hok as [Hpc Hh Hhct Happ Hpa Hha Hord].
  assert (Hin : forall h, h ∈ holds (GoHeap.Push (commitsOnHold p) c) ->
    h = c \/ h ∈ held p).
  { intros h Hhe. apply elem_of_cons. by rewrite <- Hp. }
  split; cbn [set_hold partClock commitsOnHold]; try done.
  - intros h [->|Hhe]%Hin; [done|by apply Hhct].
  - intros h a [->|Hhe]%Hin; [by apply HA|by apply Hha].
Qed.

(** After a commit that did not remove the lowest prepared transaction
    [lp], everything on hold still waits for it. *)
Lemma waits_for_lowest A p lp h :
  mat_ok A p -> all_wait p -> Prep.PeekMin (prepClks (partClock p)) = Some lp ->
  h ∈ held p -> ~ vle (CommitTimestamp h) (clk lp).
Proof.
  intros Hok Hw Hlp Hh Hv. destruct (Hw h Hh) as (e & He & Hn). apply Hn.
  eapply vle_trans; [exact Hv|].
  by apply (clk_heap_min clk D (prepClks (partClock p)) lp e (pc_heap D _ (m_pc A p Hok))).
Qed.

(** The decision of [handleMatCommit] and what it does right away. *)
Lemma applyOrHold_ok A e p c pc e0 :
  mat_ok A p -> legal_commit p c -> mat_ok A (set_clock pc p) ->
  prep p ≡ₚ e0 :: prep (set_clock pc p) -> vle (clk e0) (CommitTimestamp c) ->
  post (if canCommit (set_clock pc p) c then applyCommit c else holdCommit c) e
    (set_clock pc p) (fun _ p' o =>
      mat_ok (A ++ (ct <$> commits_of o)) p' /\
      prep p' = prep (set_clock pc p) /\
      forall h, h ∈ held p' -> h ∈ held p \/
        (h = c /\ canCommit (set_clock pc p) c = false)).
Proof.
  intros Hok Hleg Hok1 Hp Hv.
  assert (HA : forall a, a ∈ A -> ~ lower (CommitTimestamp c) a).
  { intros a Ha Hl. apply (m_prep_above A p Hok e0 a); [rewrite Hp; by left|done|].
    by eapply lower_vle_trans. }
  destruct (canCommit (set_clock pc p) c) eqn:Ecan.
  - destruct (canCommit_true A (set_clock pc p) c Hok1 (lc_dom p c Hleg) Ecan) as [H1 H2].
    eapply post_weaken; [by apply (applyCommit_ok A c e (set_clock pc p) Hok1); try apply Hleg|].
    intros [] p' o (Ho & Ep & Eh). split; [done|]. rewrite Ep, Eh. split; [done|].
    intros h Hh. by left.
  - intros [] p' o [= <- <-]. destruct (holdCommit_ok A (set_clock pc p) c) as [H1 H2];
      [done|apply Hleg..|done|].
    cbn [commits_of omap list_omap fmap list_fmap]. rewrite app_nil_r.
    split; [done|]. split; [done|].
    intros h Hh. rewrite H2 in Hh. apply elem_of_cons in Hh as [->|Hh]; auto.
Qed.

Lemma handleMatCommit_ok A e p c :
  mat_ok A p -> all_wait p -> legal_commit p c ->
  post (handleMatCommit c) e p (fun _ p' o =>
    mat_ok (A ++ (ct <$> commits_of o)) p' /\ all_wait p').
Proof.
  intros Hok Hwait Hleg. unfold Materializer.handleMatCommit.
  apply post_bind. intros ? ? ? [= <- <- <-].
  destruct (removePrepare_ok A p c Hok Hleg) as (e0 & pc & Er & Hok1 & Hp & Ht & Hv).
  rewrite Er. apply post_bind. intros ? ? ? [= <- <- <-].
  apply post_bind. intros ? ? ? [= <- <- <-].
  apply post_bind. intros ? ? ? [= <- <- <-].
  apply post_bind. eapply post_weaken; [by eapply applyOrHold_ok|].
  intros [] p2 o2 (Hok2 & Eprep & Hheld). cbn [app].
  destruct (default 0 (txnId <$> getLowestPrepare (partClock p)) =? TransactionId c)
    eqn:Elow.
  - eapply post_weaken; [exact (checkHoldCommits_ok _ e p2 Hok2)|].
    intros [] p3 o3 (Hok3 & _ & Hw). rewrite commits_of_app, fmap_app, app_assoc. done.
  - apply post_ret. rewrite app_nil_r. split; [done|].
    apply Z.eqb_neq in Elow. unfold getLowestPrepare in Elow.
    destruct (Prep.PeekMin (prepClks (partClock p))) as [lp|] eqn:Elp.
    2:{ unfold Prep.PeekMin in Elp. destruct (prep p) eqn:En; [|done].
        by apply Permutation_nil_cons in Hp. }
    assert (Hlp : lp ∈ prep (set_clock pc p)).
    { assert (Hin : lp ∈ prep p) by (by eapply list_elem_of_lookup_2).
      rewrite Hp in Hin. apply elem_of_cons in Hin as [->|]; [|done].
      simpl in Elow. congruence. }
    intros h Hh. rewrite Eprep. apply Hheld in Hh as [Hh|[-> Ecan]].
    + exists lp. split; [done|]. by apply (waits_for_lowest A p lp h).
    + destruct (canCommit_false A (set_clock pc p) c Hok1 (lc_dom p c Hleg) Ecan)
        as [Hm|(mh & Hmh & Hvm)]; [apply Hleg|done|].
      exists lp. split; [done|]. intros Hvl.
      eapply (waits_for_lowest A p lp mh); try done. by eapply vle_trans.
Qed.

(** ** Serving a prepare *)

Lemma prepare_ok A wall p t :
  mat_ok A p -> all_wait p -> pc_room (partClock p) -> ~ prepared (partClock p) t ->
  let p' := set_clock (prepareClock wall (partClock p) t) p in
  exists c, mat_ok A p' /\ all_wait p' /\ prep p' = prep p ++ [mkPair c t] /\
    dom c = D /\ vle (stableClk (partClock p)) c /\
    GetPos (stableClk (partClock p)) (replicaID (partClock p)) <
      GetPos c (replicaID (partClock p)) /\
    (forall e, e ∈ prep p -> lower (clk e) c).
Proof.
  intros Hok Hw Hroom Hnp p'.
  destruct (prepareClock_spec D wall (partClock p) t (m_pc A p Hok) Hroom Hnp)
    as (c & Ees & Hpc & Erep & Est & Elast & Hd & Hv & Hlt & Hltl & Hab).
  exists c. destruct Hok as [Hpc0 Hh Hhct Happ Hpa Hha Hord].
  assert (Hin : forall x, x ∈ prep p' -> x ∈ prep p \/ x = mkPair c t).
  { intros x. subst p'. cbn [set_clock partClock]. rewrite Ees, elem_of_app.
    rewrite list_elem_of_singleton. done. }
  split; [|split; [|split; [|split; [|split; [|split]]]]]; try done.
  - split; cbn [p' set_clock partClock commitsOnHold]; try done.
    + by rewrite Est.
    + intros x a Hx Ha. apply Hin in Hx as [Hx| ->]; [by apply Hpa|].
      intros [_ Hn]. apply Hn. cbn [clk]. eapply vle_trans; [|exact Hv].
      by apply Happ.
  - intros h Hhe. destruct (Hw h Hhe) as (x & Hx & Hn). exists x. split; [|done].
    subst p'. cbn [set_clock partClock]. rewrite Ees. apply elem_of_app. by left.
  - intros x Hx. split; [by apply Hab|]. intros Hvc.
    pose proof (pc_own D _ Hpc0 x Hx). pose proof (Hvc (replicaID (partClock p))). lia.
Qed.
End invariant.

(** ** Legal requests *)

(** The clock with which each transaction commits. *)
Variable ct : Z -> vclock.
Local Abbreviation D := (list_to_set known : gset Z).

Definition comparable (a b : vclock) : bool :=
  IsLowerOrEqual a (Some b) || IsLowerOrEqual b (Some a).

Definition over_known (c : vclock) : bool := bool_decide (dom c = D).

(** A transaction prepares once, and clocks are below the end of int64. *)
Definition can_prepare (p : part_t) (t : Z) : bool :=
  let pc := partClock p in
  let pos := GetPos (stableClk pc) (replicaID pc) in
  (- 2 ^ 63 <=? pos) && (pos <? MaxInt64) &&
  (- 2 ^ 63 <=? lastUsedTs pc) && (lastUsedTs pc <? MaxInt64) &&
  forallb (fun e => negb (txnId e =? t)) (entries (prepClks pc)).

(** A transaction commits while it is prepared here, with a clock not below
    the one it prepared with and comparable with the clocks on hold. *)
Definition may_commit (p : part_t) (c : MatCommitArgs) : bool :=
  bool_decide (CommitTimestamp c = ct (TransactionId c)) &&
  over_known (CommitTimestamp c) &&
  existsb (fun e => (txnId e =? TransactionId c) &&
                    IsLowerOrEqual (clk e) (Some (CommitTimestamp c)))
    (entries (prepClks (partClock p))) &&
  forallb (fun h => comparable (CommitTimestamp h) (CommitTimestamp c))
    (holds (commitsOnHold p)).

(** The requests the partition is proved correct for.  This is an assumption
    about the senders, not a guarantee of theirs: [handleTMCommit] commits with
    the highest of the proposals it collects when these are comparable
    ([TransactionManager.commit_clock_is_the_highest_proposal]), so [may_commit]
    holds of its commits when proposals and held clocks are comparable; of
    concurrent proposals it takes the first that arrives, which may be below
    what this partition proposed.  A reset forgets the stable clock, so it
    starts a new run. *)
Definition legal (e : MatEnv Env) (p : part_t) (r : MatRequest Upd RArgs) : bool :=
  match r with
  | MatPrepare t | MatStaticWrite _ t | MatPrepareForRemote _ t => can_prepare p t
  | MatCommit c => may_commit p c
  | MatBCTxnPermissions _ _ =>
      can_prepare p (rng_Int63 e) &&
      let p' := set_clock (prepareClock (now e) (partClock p) (rng_Int63 e)) p in
      match Prep.PeekMax (prepClks (partClock p')) with
      | Some x => may_commit p' (mkCommit (rng_Int63 e) (clk x))
      | None => false
      end
  | MatClkPosUpd r _ => bool_decide (r ∈ known)
  | MatReset => false
  | _ => true
  end.

Fixpoint legal_run (reqs : list (MatEnv Env * MatRequest Upd RArgs)) (p : part_t) : bool :=
  match reqs with
  | [] => true
  | (e, r) :: reqs =>
      legal e p r &&
      match handle r e p with
      | Some (_, p', _) => legal_run reqs p'
      | None => true
      end
  end.

Lemma can_prepare_spec p t :
  can_prepare p t = true -> pc_room (partClock p) /\ ~ prepared (partClock p) t.
Proof.
  unfold can_prepare, pc_room, prepared. intros H.
  repeat apply andb_prop in H as [H ?]. to_prop.
  split; [lia|]. intros (e & He & Ht).
  match goal with Hf : forallb _ _ = true |- _ => rewrite forallb_forall in Hf;
    apply list_elem_of_In in He; specialize (Hf e He) end.
  apply negb_true_iff, Z.eqb_neq in H0. done.
Qed.

Lemma may_commit_spec A p c :
  mat_ok D ct A p -> may_commit p c = true -> legal_commit D ct p c.
Proof.
  unfold may_commit, over_known. intros Hok H.
  apply andb_prop in H as [H H4]. apply andb_prop in H as [H H3].
  apply andb_prop in H as [H1 H2].
  apply bool_decide_eq_true in H1. apply bool_decide_eq_true in H2.
  split; [done|done| |].
  - apply existsb_exists in H3 as (e & He%list_elem_of_In & Hc).
    apply andb_prop in Hc as [Ht Hv]. apply Z.eqb_eq in Ht. exists e.
    split; [done|]. split; [done|]. apply IsLowerOrEqual_vle; [|done].
    unfold same_dom. rewrite H2.
    by apply (proj1 (pc_heap _ _ (m_pc _ _ A p Hok)) e e).
  - intros h Hh. rewrite forallb_forall in H4.
    pose proof Hh as Hh'. apply list_elem_of_In in Hh'. specialize (H4 h Hh').
    unfold comparable in H4. apply orb_prop in H4.
    assert (Hd : same_dom (CommitTimestamp h) (CommitTimestamp c)).
    { unfold same_dom. rewrite H2. by apply (proj1 (m_hold _ _ A p Hok) h h). }
    destruct H4 as [H4|H4]; [left|right]; by apply IsLowerOrEqual_vle in H4.
Qed.

(** ** One request *)

Definition good (A : list vclock) (p : part_t) : Prop := mat_ok D ct A p /\ all_wait p.

Definition step_post (A : list vclock) (m : MP unit) (e : MatEnv Env) (p : part_t) : Prop :=
  post m e p (fun _ p' o => good (A ++ (ct <$> commits_of o)) p').

Lemma step_quiet A m e p : quiet m -> good A p -> step_post A m e p.
Proof.
  intros Hq [Hok Hw]. eapply post_weaken; [apply Hq|].
  intros [] p' o [Hs Ho]. rewrite Ho. cbn [fmap list_fmap]. rewrite app_nil_r.
  split; [by eapply mat_ok_quiet|by eapply all_wait_quiet].
Qed.

(** A clock update that leaves the prepared transactions alone. *)
Lemma good_clock A p pc :
  good A p -> pc_ok D pc -> prepClks pc = prepClks (partClock p) ->
  vle (stableClk (partClock p)) (stableClk pc) -> good A (set_clock pc p).
Proof.
  intros [[Hpc0 Hh Hhct Happ Hpa Hha Hord] Hw] Hpc Hp Hv. split.
  - split; cbn [set_clock partClock commitsOnHold]; rewrite ?Hp; try done.
    intros a Ha. destruct (Happ a Ha). split; [done|]. by eapply vle_trans.
  - unfold all_wait. cbn [set_clock partClock commitsOnHold]. by rewrite Hp.
Qed.

Lemma step_prepare A e p t (k : MP unit) :
  good A p -> can_prepare p t = true -> quiet k -> step_post A (prepare t ;;; k) e p.
Proof.
  intros [Hok Hw] [Hroom Hnp]%can_prepare_spec Hk.
  apply post_bind. apply post_bind. intros ? ? ? [= <- <- <-].
  intros ? ? ? [= <- <- <-]. cbn [app].
  destruct (prepare_ok D ct A (now e) p t Hok Hw Hroom Hnp) as (c & Hok' & Hw' & _).
  by apply step_quiet.
Qed.

Lemma quiet_replyPrepare : quiet replyPrepare.
Proof. unfold replyPrepare. quiet. Qed.

Lemma step_remote A (m : MP (list (UpdateObjectParams Upd))) c e p :
  good A p -> quiet m ->
  step_post A (newDown <- m ;;
    modify (fun p => set_clock (updateClockWithCommit (partClock p) c) p) ;;;
    emit (ReplyDownstream newDown)) e p.
Proof.
  intros [Hok Hw] Hm. apply post_bind. eapply post_weaken; [apply Hm|].
  intros down p1 o1 [Hs Ho]. apply post_bind. intros ? ? ? [= <- <- <-].
  intros ? ? ? [= <- <- <-]. rewrite commits_of_app, Ho. cbn [commits_of omap list_omap app].
  cbn [fmap list_fmap]. rewrite app_nil_r.
  assert (Hg : good A p1) by (split; [by eapply mat_ok_quiet|by eapply all_wait_quiet]).
  destruct (updateClockWithCommit_ok D (partClock p1) c (m_pc _ _ A p1 (proj1 Hg)))
    as [Hpc Hup].
  by apply good_clock.
Qed.

Lemma step_permsTxn A e p Values r :
  good A p -> legal e p (MatBCTxnPermissions Values r) = true ->
  step_post A (handleMatPermsTxn setLatestCRDT Values r) e p.
Proof.
  intros [Hok Hw] Hl. cbn [legal] in Hl. apply andb_prop in Hl as [Hcp Hmc].
  apply can_prepare_spec in Hcp as [Hroom Hnp].
  destruct (prepare_ok D ct A (now e) p (rng_Int63 e) Hok Hw Hroom Hnp)
    as (c & Hok' & Hw' & Ep & _).
  unfold handleMatPermsTxn. apply post_bind. intros ? ? ? [= <- <- <-].
  apply post_bind. apply post_bind. intros ? ? ? [= <- <- <-].
  intros ? ? ? [= <- <- <-]. apply post_bind. intros ? ? ? [= <- <- <-].
  apply post_bind. intros ? ? ? [= <- <- <-]. apply post_bind.
  assert (Emax : Prep.PeekMax (prepClks (partClock
    (set_clock (prepareClock (now e) (partClock p) (rng_Int63 e)) p))) =
    Some (mkPair c (rng_Int63 e))).
  { unfold Prep.PeekMax. rewrite Ep. apply last_snoc. }
  rewrite Emax in Hmc. apply post_must. intros x Hx.
  assert (Hx' : Some (mkPair c (rng_Int63 e)) = Some x) by (rewrite <- Emax; exact Hx).
  injection Hx' as <-. apply post_bind. intros ? ? ? [= <- <- <-].
  eapply post_weaken.
  { apply (handleMatCommit_ok D ct A).
    - eapply mat_ok_quiet; [|exact Hok']. done.
    - eapply all_wait_quiet; [|exact Hw']. done.
    - by apply (may_commit_spec A _ _ Hok') in Hmc as [].  }
  intros [] p' o Hg. exact Hg.
Qed.

(** The requests that only read or change objects and pending operations. *)
Lemma quiet_requests r :
  match r with
  | MatCommit _ | MatPrepare _ | MatStaticWrite _ _ | MatPrepareForRemote _ _
  | MatBCTxnPermissions _ _ | MatClkPosUpd _ _ | MatRemoteTxnReq _
  | MatRemoteGroupTxn _ _ | MatReset => True
  | _ => quiet (handle r)
  end.
Proof.
  destruct r; try exact I; cbn [handleRequest];
    unfold handleMatStaticSingleRead, handleMatStaticRead, handleMatRead, getState,
      canReadLatest, getObjPendingOps, handleMatWrite, handleMatAbort, handleMatSafeClk,
      handleMatCommitedClk, handleMatBCUpdPerm, updatePermissions, handleMatGC,
      handleMatGetCRDT; quiet_obj.
Qed.

Lemma step_ok A e p r :
  good A p -> legal e p r = true -> step_post A (handle r) e p.
Proof.
  intros Hg Hl. pose proof Hg as [Hok Hw]. pose proof (quiet_requests r) as Hq.
  destruct r; try (by apply step_quiet); clear Hq; cbn [handleRequest].
  - unfold handleMatStaticWrite. apply step_prepare; [done|exact Hl|].
    apply quiet_bind; [|intros ?; apply quiet_replyPrepare]. quiet.
  - eapply post_weaken; [apply (handleMatCommit_ok D ct A); [done|done|]|by intros [] p' o].
    by apply (may_commit_spec A).
  - apply step_prepare; [done|exact Hl|]. apply quiet_replyPrepare.
  - apply step_remote; [done|apply quiet_applyRemoteUpds].
  - cbn [legal] in Hl. apply bool_decide_eq_true in Hl.
    unfold handleMatClkPosUpd. apply post_bind. intros ? ? ? [= <- <- <-].
    intros ? ? ? [= <- <- <-]. cbn [commits_of omap list_omap app fmap list_fmap].
    rewrite app_nil_r.
    destruct (updateClockWithRemoteTS_ok D (partClock p) ReplicaID StableTs (m_pc _ _ A p Hok))
      as [Hpc Hup]; [by apply elem_of_list_to_set|]. by apply good_clock.
  - apply step_remote; [done|]. apply quiet_foldM. intros. apply quiet_applyRemoteUpds.
  - unfold handleMatPrepareRemote. apply post_bind. intros ? ? ? [= <- <- <-]. cbn [app].
    apply (step_prepare A e (set_pendingRemote (<[txn:=upds]> (pendingOpsRemote p)) p));
      [|exact Hl|apply quiet_replyPrepare].
    split; [by apply (mat_ok_quiet D ct A p)|by apply (all_wait_quiet p)].
  - by apply step_permsTxn.
Qed.

Lemma initialPartition_good pid rid :
  rid ∈ known -> good [] (initialPartition known pid rid).
Proof.
  intros Hr.
  assert (Hdom : dom (NewTimestamp known) = D).
  { clear. unfold NewTimestamp.
    assert (Hgen : forall vc : vclock, dom (foldl (fun vc id => <[id:=0]> vc) vc known) =
      dom vc ∪ D).
    { induction known as [|x l IH]; intros vc; simpl; [set_solver|].
      rewrite IH, dom_insert_L. set_solver. }
    rewrite Hgen. set_solver. }
  split.
  - split; cbn [initialPartition partClock commitsOnHold].
    + split; cbn [initializePartitionClock replicaID stableClk prepClks emptyPrep entries].
      * by apply elem_of_list_to_set.
      * exact Hdom.
      * split; [intros a b Ha; by apply elem_of_nil in Ha|]. split; [|split].
        -- intros t k. cbn. rewrite lookup_empty. split; [done|].
           intros (e & He & _). by rewrite lookup_nil in He.
        -- by apply Forall_nil.
        -- intros k Hk. cbn in Hk. lia.
      * by intros e He%elem_of_nil.
      * by intros e i He%elem_of_nil.
    + split; [intros a b Ha; by apply elem_of_nil in Ha|]. split; [done|split].
      * by apply Forall_nil.
      * intros k Hk. cbn in Hk. lia.
    + by intros h Hh%elem_of_nil.
    + by intros a Ha%elem_of_nil.
    + by intros e a He%elem_of_nil.
    + by intros e a He%elem_of_nil.
    + intros i j a b _ Ha. by rewrite lookup_nil in Ha.
  - by intros h Hh%elem_of_nil.
Qed.

(** ** Every run *)

Lemma serve_good reqs A p p' o :
  good A p -> legal_run reqs p = true -> serve reqs p = Some (p', o) ->
  good (A ++ (ct <$> commits_of o)) p'.
Proof.
  revert A p o. induction reqs as [|[e r] reqs IH]; intros A p o Hg Hl Hs;
    cbn [Materializer.serve legal_run] in *.
  - injection Hs as <- <-. cbn. by rewrite app_nil_r.
  - apply andb_prop in Hl as [Hl1 Hl2].
    destruct (handle r e p) as [[[[] p1] o1]|] eqn:E1; [|done].
    destruct (serve reqs p1) as [[p2 o2]|] eqn:E2; [|done].
    injection Hs as <- <-. rewrite commits_of_app, fmap_app, app_assoc.
    apply (IH _ p1); [|done|done]. by apply (step_ok A e p r Hg Hl1 tt p1 o1 E1).
Qed.
End commit_order.
