(* ===== verification/CommitServed.v ===== *)
(** * The commit protocol: what holds in every reachable state of a partition

    The properties of file CommitOrder's runs, stated for the states a partition
    reaches from its initial one by serving legal requests. *)

From S2P Require Import Prelude ClockSI ClockCodec GoHeap Counters VersionManager Effects.
From S2P Require Import Keys PartitionClock Materializer CommitOrder.
From Stdlib Require Import ZArith Lia Bool.
From stdpp Require Import base tactics numbers strings gmap sorting list.
#[local] Open Scope Z_scope.
#[local] Open Scope eff_scope.

Section served.
Context {VM CRDT Op Upd RArgs State Env : Type}
        `{HVM : VersionManager VM CRDT Op Upd RArgs State Env}
        `{HLib : CRDTLib CRDT Op Upd} `{HHash : KeyHash}.
Variable IsReadWaitingDisabled : bool.
Variable known : list Z.
Variable setLatestCRDT : VM -> CRDT -> VM.
Variable ct : Z -> vclock.

Local Abbreviation part_t := (Materializer.partition VM Upd).
Local Abbreviation MP := (M (MatEnv Env) part_t (Out CRDT Upd State)).
Local Abbreviation D := (list_to_set known : gset Z).
Local Abbreviation prep p := (entries (prepClks (partClock p))).
Local Abbreviation held p := (holds (commitsOnHold p)).

(** [p] is reached, with outputs [o], by serving the legal requests [reqs]. *)
Definition reached (pid rid : Z) (reqs : list (MatEnv Env * MatRequest Upd RArgs))
    (p : part_t) (o : list (Out CRDT Upd State)) : Prop :=
  rid ∈ known /\
  legal_run IsReadWaitingDisabled known setLatestCRDT ct reqs
    (initialPartition known pid rid) = true /\
  serve IsReadWaitingDisabled known setLatestCRDT reqs (initialPartition known pid rid) =
    Some (p, o).

Lemma reached_good pid rid reqs p o :
  reached pid rid reqs p o -> good known ct (ct <$> commits_of o) p.
Proof.
  intros (Hr & Hl & Hs).
  change (ct <$> commits_of o) with ([] ++ (ct <$> commits_of o)).
  eapply serve_good; [by apply initialPartition_good|exact Hl|exact Hs].
Qed.

(** C1. A partition never applies a commit strictly below one it has applied
    before, as long as each commit comes with a clock at or above the one its
    transaction prepared with here and comparable with the clocks on hold
    ([legal]): whatever the interleaving of prepares and commits, and whichever
    commits had to be held, the clocks of the applied commits never go down.
    The transaction manager does not ensure the condition when proposals are
    concurrent, and then the order breaks:
    [concurrent_proposals_break_the_order]. *)
Theorem commits_applied_in_clock_order pid rid reqs p o :
  reached pid rid reqs p o ->
  forall i j ti tj, (i < j)%nat ->
  commits_of o !! i = Some ti -> commits_of o !! j = Some tj ->
  IsLower (ct tj) (Some (ct ti)) = false.
Proof.
  intros Hr i j ti tj Hij Hi Hj. apply reached_good in Hr as [Hok _].
  apply not_true_iff_false. rewrite lower_IsLower.
  - apply (m_order _ _ _ p Hok i j); [done|by rewrite list_lookup_fmap, Hi|].
    by rewrite list_lookup_fmap, Hj.
  - unfold same_dom.
    assert (Hd : forall k t, commits_of o !! k = Some t -> dom (ct t) = D).
    { intros k t Hk. apply (m_applied _ _ _ p Hok).
      apply list_elem_of_fmap. exists t. split; [done|].
      by eapply list_elem_of_lookup_2. }
    by rewrite (Hd i ti), (Hd j tj).
Qed.

(** C8. When the requests are [legal] (each commit comes with a clock at or
    above the one its transaction prepared with here and comparable with the
    clocks on hold), no commit is stuck: each commit on hold waits for a
    transaction that is still prepared, with a clock that it is not at or
    below, so once no transaction is prepared no commit is on hold. *)
Theorem held_commits_wait_for_a_prepare pid rid reqs p o :
  reached pid rid reqs p o ->
  (forall h, h ∈ held p -> exists e, e ∈ prep p /\
     IsLowerOrEqual (CommitTimestamp h) (Some (clk e)) = false) /\
  (prep p = [] -> held p = []).
Proof.
  intros [Hok Hw]%reached_good. split.
  - intros h Hh. destruct (Hw h Hh) as (e & He & Hn). exists e. split; [done|].
    apply not_true_iff_false. rewrite IsLowerOrEqual_vle; [done|].
    unfold same_dom. rewrite (proj1 (proj1 (m_hold _ _ _ p Hok) h h Hh Hh)).
    by rewrite (proj1 (proj1 (pc_heap _ _ (m_pc _ _ _ p Hok)) e e He He)).
  - intros Hp. destruct (held p) as [|h l] eqn:E; [done|].
    destruct (Hw h) as (e & He & _); [rewrite E; by left|].
    rewrite Hp in He. by apply elem_of_nil in He.
Qed.

(** A prepare replies with the clock it has just handed out, which is
    strictly above the stable clock of the partition and above the clock of
    every other prepared transaction. *)
Theorem prepare_replies_a_new_clock pid rid reqs p o e t :
  reached pid rid reqs p o -> can_prepare p t = true ->
  exists c p', (handleMatPrepare t : MP unit) e p = Some (tt, p', [ReplyClock (Some c)]) /\
    mkPair c t ∈ prep p' /\
    IsHigher c (Some (stableClk (partClock p))) = true /\
    (forall x, x ∈ prep p -> IsHigher c (Some (clk x)) = true) /\
    stableClk (partClock p') = stableClk (partClock p).
Proof.
  intros [Hok Hw]%reached_good [Hroom Hnp]%can_prepare_spec.
  destruct (prepare_ok _ _ _ (now e) p t Hok Hw Hroom Hnp)
    as (c & Hok' & _ & Ep & Hd & Hv & Hlt & Hab).
  exists c. eexists. split.
  { unfold handleMatPrepare, prepare, replyPrepare, bind, ask, modify, get, emit.
    cbn [app]. unfold Prep.PeekMax. rewrite Ep, last_snoc. reflexivity. }
  assert (Hup : forall a, dom a = D -> vle a c -> ~ vle c a -> IsHigher c (Some a) = true).
  { intros a Ha Hva Hn. apply IsHigher_vle; [unfold same_dom; congruence|].
    split; [done|]. intros ->. by apply Hn. }
  split; [rewrite Ep; apply elem_of_app; right; by left|]. split; [|split].
  - apply Hup; [by apply (pc_dom _ _ (m_pc _ _ _ p Hok))|done|].
    intros Hvc. specialize (Hvc (replicaID (partClock p))). lia.
  - intros x Hx. destruct (Hab x Hx) as [Hv1 Hn1]. apply Hup; [|done|done].
    by apply (proj1 (pc_heap _ _ (m_pc _ _ _ p Hok)) x x).
  - cbn [set_clock partClock].
    destruct (prepareClock_spec D (now e) (partClock p) t (m_pc _ _ _ p Hok) Hroom Hnp)
      as (? & _ & _ & _ & Est & _). exact Est.
Qed.

Lemma next_prepare_above wall0 wall (p : part_t) t x :
  pc_ok D (partClock p) -> wall0 <= wall -> can_prepare p t = true ->
  Prep.PeekMax (prepClks (prepareClock wall (partClock p) t)) = Some x ->
  vle (NextTimestamp wall0 (stableClk (partClock p)) (replicaID (partClock p))) (clk x).
Proof.
  intros Hpc Hwall [Hroom Hnp]%can_prepare_spec Hx.
  destruct (prepareClock_spec D wall (partClock p) t Hpc Hroom Hnp)
    as (c & Ees & _ & _ & _ & Elast & _ & Hv & Hlt & Hltl & _).
  unfold Prep.PeekMax in Hx. rewrite Ees, last_snoc in Hx. injection Hx as <-. cbn [clk].
  pose proof Hroom as [Hr1 Hr2].
  set (st := stableClk (partClock p)) in *. set (r := replicaID (partClock p)) in *.
  assert (Hw : int64 (GetPos st r + 1) = GetPos st r + 1).
  { apply wrapS_id; [lia|]. unfold inS, MaxInt64 in *. lia. }
  assert (Hge : wall0 <= GetPos c r).
  { unfold prepareClock in Elast. fold st in Elast.
    destruct (getNextClk wall (partClock p) st) as [c' pc'] eqn:Eg.
    cbn [lastUsedTs] in Elast. rewrite <- Elast. unfold getNextClk in Eg.
    unfold NextTimestamp in Eg. fold r in Eg. rewrite Hw in Eg.
    destruct (Z.leb_spec wall (GetPos st r)); rewrite GetPos_insert, decide_True in Eg by done.
    - lia.
    - destruct (Z.leb_spec wall (lastUsedTs (partClock p))); injection Eg as <- <-;
        cbn [lastUsedTs] in *; lia. }
  intros i. unfold NextTimestamp. rewrite Hw.
  destruct (Z.leb_spec wall0 (GetPos st r)); rewrite GetPos_insert; case_decide; subst;
    try lia; apply Hv.
Qed.

(** The safe clock sent to the logger is below everything to come: it is
    strictly below the clock of every prepared transaction and not above any
    commit on hold, and no clock prepared next, by a wall clock that did not
    go back, is below it. *)
Theorem safe_clock_is_below pid rid reqs p o e :
  reached pid rid reqs p o ->
  (forall x, x ∈ prep p -> - 2 ^ 63 < GetPos (clk x) (replicaID (partClock p)) < 2 ^ 63) ->
  exists s, (handleMatSafeClk : MP unit) e p = Some (tt, p, [LogClk s]) /\
    (forall x, x ∈ prep p -> IsLower s (Some (clk x)) = true) /\
    (forall h, h ∈ held p -> IsLowerOrEqual (CommitTimestamp h) (Some s) = false) /\
    (forall wall t x, now e <= wall -> can_prepare p t = true ->
       Prep.PeekMax (prepClks (prepareClock wall (partClock p) t)) = Some x ->
       vle s (clk x)).
Proof.
  intros [Hok Hw]%reached_good Hrange. pose proof (m_pc _ _ _ p Hok) as Hpc.
  pose proof (pc_heap _ _ Hpc) as Hph.
  unfold handleMatSafeClk, bind, ask, get, emit. rewrite ?Copy_id. cbn [app].
  destruct (Prep.PeekMin (prepClks (partClock p))) as [mp|] eqn:Emp.
  - assert (Hin : mp ∈ prep p) by (by eapply list_elem_of_lookup_2).
    set (r := replicaID (partClock p)) in *.
    assert (Hint : int64 (GetPos (clk mp) r - 1) = GetPos (clk mp) r - 1).
    { apply wrapS_id; [lia|]. unfold inS. pose proof (Hrange mp Hin). lia. }
    eexists. split; [reflexivity|]. unfold UpdateForcedPos. rewrite Copy_id, Hint.
    set (s := <[r := GetPos (clk mp) r - 1]> (clk mp)).
    assert (Hs : forall i, GetPos s i =
      if decide (i = r) then GetPos (clk mp) r - 1 else GetPos (clk mp) i).
    { intros i. unfold s. rewrite GetPos_insert. repeat case_decide; congruence. }
    assert (Hsm : lower s (clk mp)).
    { split; [intros i; rewrite Hs; case_decide; subst; lia|].
      intros Hv. specialize (Hv r). rewrite Hs, decide_True in Hv by done. lia. }
    assert (Hds : dom s = D).
    { unfold s. rewrite dom_insert_L, (proj1 (proj1 Hph mp mp Hin Hin)).
      pose proof (pc_self _ _ Hpc). fold r in H. set_solver. }
    split; [|split].
    + intros x Hx. apply lower_IsLower.
      * unfold same_dom. by rewrite Hds, (proj1 (proj1 Hph x x Hx Hx)).
      * eapply vle_lower_trans; [exact Hsm|].
        by apply (clk_heap_min clk D (prepClks (partClock p)) mp x).
    + intros h Hh. apply not_true_iff_false. rewrite IsLowerOrEqual_vle.
      * intros Hv. apply (waits_for_lowest D ct _ p mp h Hok Hw Emp Hh).
        eapply vle_trans; [exact Hv|apply Hsm].
      * unfold same_dom. by rewrite Hds, (proj1 (proj1 (m_hold _ _ _ p Hok) h h Hh Hh)).
    + intros wall t x Hwall [Hroom Hnp]%can_prepare_spec Hx.
      destruct (prepareClock_spec D wall (partClock p) t Hpc Hroom Hnp)
        as (c & Ees & _ & _ & _ & _ & _ & _ & _ & _ & Hab).
      unfold Prep.PeekMax in Hx. rewrite Ees, last_snoc in Hx. injection Hx as <-.
      eapply vle_trans; [apply Hsm|]. by apply Hab.
  - assert (Hpn : prep p = []) by (unfold Prep.PeekMin in Emp; by destruct (prep p)).
    eexists. split; [reflexivity|]. split; [|split].
    + intros x Hx. rewrite Hpn in Hx. by apply elem_of_nil in Hx.
    + intros h Hh. destruct (Hw h Hh) as (x & Hx & _).
      rewrite Hpn in Hx. by apply elem_of_nil in Hx.
    + intros wall t x Hwall Hcp Hx. by apply (next_prepare_above (now e) wall p t).
Qed.
End served.

(** ** Serving a commit does not panic *)

Section total.
Context {VM CRDT Op Upd RArgs State Env : Type}
        `{HVM : VersionManager VM CRDT Op Upd RArgs State Env}
        `{HLib : CRDTLib CRDT Op Upd} `{HHash : KeyHash}.
Variable IsReadWaitingDisabled : bool.
Variable known : list Z.
Variable setLatestCRDT : VM -> CRDT -> VM.
Variable ct : Z -> vclock.

(** The version managers do not panic, and the objects of a permission
    transaction are bounded counters. *)
Class TotalObjects : Prop := {
  Initialize_total c ts : is_Some (vm_Initialize c ts);
  Downstream_total vm ts op : is_Some (vm_Downstream vm ts op);
  Transfer_total c a b d : is_Some (bc_Transfer c a b d)
}.
Context `{TotalObjects}.

Local Abbreviation part_t := (Materializer.partition VM Upd).
Local Abbreviation MP := (M (MatEnv Env) part_t (Out CRDT Upd State)).
Local Abbreviation D := (list_to_set known : gset Z).
Local Abbreviation prep p := (entries (prepClks (partClock p))).
Local Abbreviation held p := (holds (commitsOnHold p)).

Definition total {A} (m : MP A) : Prop := forall e p, returns m e p (fun _ _ _ => True).

Lemma total_ret {A} (a : A) : total (ret a).
Proof. intros e p. by apply returns_ret. Qed.
Lemma total_get : total get.
Proof. intros e p. by eexists _, _, _. Qed.
Lemma total_ask : total ask.
Proof. intros e p. by eexists _, _, _. Qed.
Lemma total_modify f : total (modify f).
Proof. intros e p. by eexists _, _, _. Qed.
Lemma total_emit o : total (emit o).
Proof. intros e p. by eexists _, _, _. Qed.
Lemma total_must {A} (o : option A) : is_Some o -> total (must o).
Proof. intros [a ->] e p. by apply returns_ret. Qed.
Lemma total_bind {A B} (m : MP A) (k : A -> MP B) :
  total m -> (forall a, total (k a)) -> total (bind m k).
Proof.
  intros Hm Hk e p. apply returns_bind. eapply returns_weaken; [apply Hm|].
  intros a p1 o1 _. eapply returns_weaken; [apply Hk|done].
Qed.
Lemma total_foldM {A B} (f : B -> A -> MP B) l b :
  (forall b a, total (f b a)) -> total (foldM f l b).
Proof.
  intros Hf. revert b. induction l as [|x l IH]; intros b; cbn [foldM].
  - apply total_ret.
  - by apply total_bind.
Qed.

Local Ltac total :=
  repeat first
    [ apply total_ret | apply total_get | apply total_ask | apply total_modify
    | apply total_emit | apply total_bind; [|intros ?]
    | apply total_foldM; intros ? ?
    | apply total_must; first [apply Initialize_total | apply Downstream_total
                              | apply Transfer_total]
    | case_match ].

Lemma total_applyCommit c : total (applyCommit setLatestCRDT c).
Proof.
  unfold applyCommit, applyUpdates, applyUpdate, applyBCPermsUpds, applyBCPerm,
    updatePartitionWithCommit, getObjectForUpd, initializeVersionManager, putObject.
  total.
Qed.

(** Every commit on hold is applied or stays on hold. *)
Definition accounted (p p' : part_t) (o : list (Out CRDT Upd State)) : Prop :=
  forall h, h ∈ held p -> TransactionId h ∈ commits_of o \/ h ∈ held p'.

Lemma accounted_refl p : accounted p p [].
Proof. intros h Hh. by right. Qed.

Lemma accounted_step p p1 p2 heap c o1 o2 :
  held p ≡ₚ c :: holds heap -> commits_of o1 = [TransactionId c] ->
  commitsOnHold p1 = heap -> accounted p1 p2 o2 -> accounted p p2 (o1 ++ o2).
Proof.
  intros Hp Ho Eh Hacc h Hh. rewrite commits_of_app, Ho, elem_of_app.
  rewrite Hp in Hh. apply elem_of_cons in Hh as [->|Hh].
  - left. left. by left.
  - rewrite <- Eh in Hh. destruct (Hacc h Hh); auto.
Qed.

Lemma applyCommit_then c e p (k : MP unit) Q R :
  post (applyCommit setLatestCRDT c) e p (fun _ p' o => Q p' o) ->
  (forall p' o, Q p' o -> commits_of o = [TransactionId c] ->
     returns k e p' (fun _ p2 o2 => R p2 (o ++ o2))) ->
  returns (applyCommit setLatestCRDT c ;;; k) e p (fun _ p2 o2 => R p2 o2).
Proof.
  intros Hp Hk. apply returns_bind.
  pose proof (post_and _ _ _ _ _ Hp (applyCommit_control setLatestCRDT c e p)) as Hpost.
  eapply returns_weaken; [exact (returns_post _ _ _ _ _ (total_applyCommit c e p) Hpost)|].
  intros [] p' o (_ & HQ & _ & _ & Ho). by apply Hk.
Qed.

Lemma applyAllHeld_returns fuel A e p :
  mat_ok D ct A p -> prep p = [] ->
  returns (applyAllHeld setLatestCRDT fuel) e p (fun _ p' o => accounted p p' o).
Proof.
  revert A p. induction fuel as [|fuel IH]; intros A p Hok Hprep; cbn [applyAllHeld];
    apply returns_bind; (eexists _, _, _; split; [reflexivity|]); cbn [app].
  all: destruct (Hold.Len (commitsOnHold p) =? 0)%nat eqn:El;
    [apply returns_ret, accounted_refl|].
  - apply returns_ret, accounted_refl.
  - destruct (held p) as [|c l] eqn:Eh.
    { unfold Hold.Len in El. by rewrite Eh in El. }
    assert (Hmin : Hold.PeekMin (commitsOnHold p) = Some c)
      by (unfold Hold.PeekMin; by rewrite Eh).
    destruct (popHold_spec (CRDT := CRDT) (State := State) D ct A e p c Hok Hmin)
      as (heap & Epop & Hheap & Hp).
    apply returns_bind. eexists _, _, _. split; [exact Epop|]. cbn [app].
    eapply applyCommit_then.
    { apply (applyCommit_popped setLatestCRDT D ct A c e p heap Hok Hmin Hheap Hp).
      rewrite Hprep. by intros e' ?%elem_of_nil. }
    intros p2 o2 (Hok2 & Epr & Eho) Ho2.
    eapply returns_weaken; [apply (IH _ p2 Hok2); by rewrite Epr|].
    intros [] p3 o3 Hacc. by apply (accounted_step p p2 p3 heap c).
Qed.

Lemma applyHeldUpTo_returns fuel A e p c ep :
  mat_ok D ct A p -> Prep.PeekMin (prepClks (partClock p)) = Some ep ->
  Hold.PeekMin (commitsOnHold p) = Some c ->
  returns (applyHeldUpTo setLatestCRDT fuel (clk ep) c) e p
    (fun _ p' o => accounted p p' o).
Proof.
  revert A p c. induction fuel as [|fuel IH]; intros A p c Hok Hep Hc;
    cbn [applyHeldUpTo]; [by apply returns_ret, accounted_refl|].
  destruct (IsLowerOrEqual (CommitTimestamp c) (Some (clk ep))) eqn:Ele;
    [|by apply returns_ret, accounted_refl].
  pose proof (proj1 (m_hold _ _ A p Hok)) as Hchain.
  pose proof (pc_heap _ _ (m_pc _ _ A p Hok)) as Hph.
  assert (Hcin : c ∈ held p) by (by eapply list_elem_of_lookup_2).
  assert (Hepin : ep ∈ prep p) by (by eapply list_elem_of_lookup_2).
  apply IsLowerOrEqual_vle in Ele.
  2:{ unfold same_dom. destruct (Hchain c c Hcin Hcin) as [-> _].
      by destruct (proj1 Hph ep ep Hepin Hepin) as [-> _]. }
  destruct (popHold_spec (CRDT := CRDT) (State := State) D ct A e p c Hok Hc)
    as (heap & Epop & Hheap & Hp).
  apply returns_bind. eexists _, _, _. split; [exact Epop|]. cbn [app].
  eapply applyCommit_then.
  { apply (applyCommit_popped setLatestCRDT D ct A c e p heap Hok Hc Hheap Hp).
    intros e' He' [_ Hn]. apply Hn. eapply vle_trans; [exact Ele|].
    by apply (clk_heap_min clk D (prepClks (partClock p)) ep e'). }
  intros p2 o2 (Hok2 & Epr & Eho) Ho2. apply returns_bind.
  eexists _, _, _. split; [reflexivity|]. cbn [app].
  destruct (Hold.PeekMin (commitsOnHold p2)) as [c2|] eqn:Ec2.
  - eapply returns_weaken; [apply (IH _ p2 c2 Hok2); [by rewrite Epr|done]|].
    intros [] p3 o3 Hacc. by apply (accounted_step p p2 p3 heap c).
  - apply returns_ret. apply (accounted_step p p2 p2 heap c); try done.
    apply accounted_refl.
Qed.

Lemma checkHoldCommits_returns A e p :
  mat_ok D ct A p ->
  returns (checkHoldCommits setLatestCRDT) e p (fun _ p' o => accounted p p' o).
Proof.
  intros Hok. unfold checkHoldCommits. apply returns_bind.
  eexists _, _, _. split; [reflexivity|]. cbn [app].
  destruct (Hold.PeekMin (commitsOnHold p)) as [c|] eqn:Ec;
    [|by apply returns_ret, accounted_refl].
  destruct (Prep.PeekMin (prepClks (partClock p))) as [ep|] eqn:Eep.
  - by apply (applyHeldUpTo_returns _ A e p c ep).
  - apply (applyAllHeld_returns _ A e p Hok). unfold Prep.PeekMin in Eep.
    by destruct (prep p).
Qed.

(** The invariant after the decision of [handleMatCommit]; [c] is applied or
    on hold. *)
Lemma applyOrHold_returns A e p c pc e0 :
  mat_ok D ct A p -> legal_commit D ct p c -> mat_ok D ct A (set_clock pc p) ->
  prep p ≡ₚ e0 :: prep (set_clock pc p) -> vle (clk e0) (CommitTimestamp c) ->
  returns (if canCommit (set_clock pc p) c then applyCommit setLatestCRDT c else holdCommit c)
    e (set_clock pc p) (fun _ p' o =>
      (exists A', mat_ok D ct A' p') /\
      forall h, h = c \/ h ∈ held p -> TransactionId h ∈ commits_of o \/ h ∈ held p').
Proof.
  intros Hok Hleg Hok1 Hp Hv.
  pose proof (applyOrHold_ok setLatestCRDT D ct A e p c pc e0 Hok Hleg Hok1 Hp Hv) as Hpost.
  destruct (canCommit (set_clock pc p) c) eqn:Ecan.
  - pose proof (post_and _ _ _ _ _ Hpost
      (applyCommit_control setLatestCRDT c e (set_clock pc p))) as Hpost2.
    eapply returns_weaken;
      [exact (returns_post _ _ _ _ _ (total_applyCommit c e (set_clock pc p)) Hpost2)|].
    intros [] p' o (_ & (Hok' & _) & (_ & Eh & Ho)). split; [by eexists|].
    rewrite Ho, Eh. intros h [->|Hh]; [left; by left|by right].
  - eexists _, _, _. split; [reflexivity|]. split.
    + destruct (Hpost tt _ _ eq_refl) as (Hok' & _). by eexists.
    + intros h Hh. right.
      destruct (holdCommit_ok D ct A (set_clock pc p) c) as [_ Hperm]; try apply Hleg; try done.
      * intros a Ha Hl. apply (m_prep_above _ _ A p Hok e0 a); [rewrite Hp; by left|done|].
        by eapply lower_vle_trans.
      * rewrite Hperm. apply elem_of_cons. exact Hh.
Qed.

(** C9. In every state reached by legal requests, serving a legal commit of a
    prepared transaction (at or above the clock it prepared with, comparable with
    those on hold) returns: the heaps of prepared and held transactions are not indexed out of
    range and the loops end.  The commit, and every commit that was on hold, is
    applied or still on hold, and none is on hold unless a transaction is
    prepared. *)
Theorem commit_is_served pid rid reqs p o e c :
  reached IsReadWaitingDisabled known setLatestCRDT ct pid rid reqs p o ->
  may_commit known ct p c = true ->
  exists p' o', (handleMatCommit setLatestCRDT c : MP unit) e p = Some (tt, p', o') /\
    (forall h, h = c \/ h ∈ held p -> TransactionId h ∈ commits_of o' \/ h ∈ held p') /\
    (prep p' = [] -> held p' = []).
Proof.
  intros [Hok Hw]%reached_good Hmc.
  pose proof (may_commit_spec known ct _ p c Hok Hmc) as Hleg.
  destruct (removePrepare_ok D ct _ p c Hok Hleg) as (e0 & pc & Er & Hok1 & Hp & Ht & Hv).
  assert (Hret : returns (handleMatCommit setLatestCRDT c : MP unit) e p (fun _ p' o' =>
    forall h, h = c \/ h ∈ held p -> TransactionId h ∈ commits_of o' \/ h ∈ held p')).
  { unfold handleMatCommit. apply returns_bind. eexists _, _, _. split; [reflexivity|].
    rewrite Er. apply returns_bind. eexists _, _, _. split; [reflexivity|].
    apply returns_bind. eexists _, _, _. split; [reflexivity|].
    apply returns_bind. eexists _, _, _. split; [reflexivity|]. cbn [app].
    apply returns_bind. eapply returns_weaken; [by eapply applyOrHold_returns|].
    intros [] p2 o2 [[A' Hok2] Hacc].
    case_match; [|apply returns_ret; by rewrite app_nil_r].
    eapply returns_weaken; [by eapply checkHoldCommits_returns|].
    intros [] p3 o3 Hacc3 h Hh. rewrite commits_of_app, elem_of_app.
    destruct (Hacc h Hh) as [|Hh2]; [auto|]. destruct (Hacc3 h Hh2); auto. }
  destruct Hret as ([] & p' & o' & E & Hacc). exists p', o'. split; [done|]. split; [done|].
  destruct (handleMatCommit_ok setLatestCRDT D ct _ e p c Hok Hw Hleg tt p' o' E) as [_ Hw'].
  intros Hn. destruct (held p') as [|h l] eqn:Eh; [done|].
  destruct (Hw' h) as (x & Hx & _); [rewrite Eh; by left|].
  rewrite Hn in Hx. by apply elem_of_nil in Hx.
Qed.
End total.

(** ** A partition of counters *)

Module Example.
Abbreviation CRDT := (CRDTObj Counter.CounterCrdt Counter.Op Counter.Eff).
Abbreviation VM := (InverseOpVM Counter.CounterCrdt Counter.Op Counter.Eff).

#[global] Instance vm : VersionManager VM CRDT Counter.Op Counter.Op unit Z unit :=
  InverseOpVM_vm true.
#[global] Instance lib : CRDTLib CRDT Counter.Op Counter.Op := {
  InitializeCrdt _ _ := mkObj (Counter.mkCounter 0) [];
  EmptyCrdt := mkObj (Counter.mkCounter 0) [];
  isResetOp _ := false;
  MustReplicate _ := true;
  downAsUpd op := op;
  updAsDown op := Some op;
  bc_Transfer _ _ _ _ := Some None;
  bc_Downstream c _ _ := c;
  bc_RequestTransfer _ := None
}.
#[global] Instance hash : KeyHash :=
  { CRDTType_String _ := "T"%string; StringSum64 s := Z.of_nat (String.length s) }.
#[global] Instance total_objects : TotalObjects (VM := VM) (CRDT := CRDT).
Proof.
  split; [by eexists| |by eexists].
  intros m ts op. cbn [vm_Downstream vm InverseOpVM_vm].
  unfold InverseOpVM_Downstream, obj_Downstream, Inversible.Downstream.
  destruct op; by eexists.
Qed.

Abbreviation EM := (M (MatEnv unit) (Materializer.partition VM Counter.Op)
  (Out CRDT Counter.Op Z)).

Definition set (vm : VM) (c : CRDT) : VM :=
  mkInverse c (OldVersions vm) (ivm_updatedSinceGC vm) (ivm_currVersion vm) (receiver vm).

Definition at_time (t : Z) : MatEnv unit := mkEnv t 99 (fun _ _ => tt).
Definition clock (v : Z) : vclock := {[ 1 := v; 2 := 0 ]}.
(** Transactions 7 and 8 commit with the clocks they prepare with. *)
Definition ct (t : Z) : vclock := if t =? 7 then clock 100 else clock 101.
Definition incr (n : Z) : UpdateObjectParams Counter.Op :=
  mkUpd (mkKey "k" 0 "b") (Counter.Increment n).

(** 8 prepares after 7 and commits before it. *)
Definition reqs : list (MatEnv unit * MatRequest Counter.Op unit) :=
  [(at_time 100, MatStaticWrite [incr 5] 7);
   (at_time 101, MatStaticWrite [incr 2] 8);
   (at_time 102, MatCommit (mkCommit 8 (clock 101)))].
Definition last_req : MatCommitArgs := mkCommit 7 (clock 100).

Definition run (rs : list (MatEnv unit * MatRequest Counter.Op unit)) :
    option (Materializer.partition VM Counter.Op * list (Out CRDT Counter.Op Z)) :=
  serve false [1; 2] set rs (initialPartition [1; 2] 0 1).
Definition state_of rs := match run rs with Some (p, _) => p | None => initialPartition [1; 2] 0 1 end.
Definition out_of rs := match run rs with Some (_, o) => o | None => [] end.

Definition reached_by rs : Prop :=
  reached false [1; 2] set ct 0 1 rs (state_of rs) (out_of rs).
Lemma reached_intro rs :
  legal_run false [1; 2] set ct rs (initialPartition [1; 2] 0 1) = true ->
  match run rs with Some _ => true | None => false end = true -> reached_by rs.
Proof.
  intros H1 H2. split; [by left|]. split; [exact H1|].
  unfold state_of, out_of. unfold run in *. by destruct (serve _ _ _ _ _) as [[p o]|].
Qed.
End Example.
Import Example.

Lemma reached_reqs : reached_by reqs.
Proof. apply reached_intro; vm_compute; reflexivity. Qed.

Definition all_reqs := reqs ++ [(at_time 103, MatCommit last_req)].

Lemma reached_all_reqs : reached_by all_reqs.
Proof. apply reached_intro; vm_compute; reflexivity. Qed.

(** The commits are applied in the order of their clocks. *)
Lemma commits_of_all_reqs : commits_of (out_of all_reqs) = [7; 8].
Proof. vm_compute. reflexivity. Qed.

Lemma commits_applied_in_clock_order_witness :
  commits_of (out_of all_reqs) = [7; 8] /\ IsLower (ct 8) (Some (ct 7)) = false.
Proof.
  split; [exact commits_of_all_reqs|].
  pose proof (commits_applied_in_clock_order false [1; 2] Example.set ct 0 1
    all_reqs (state_of all_reqs) (out_of all_reqs) reached_all_reqs 0%nat 1%nat 7 8) as H.
  rewrite commits_of_all_reqs in H. apply H; [lia|reflexivity|reflexivity].
Defined.

(** What the condition of [legal] excludes.  8 prepares here with (150,0) and
    commits with (150,6), the higher proposal of another partition; 7 prepares
    here with (200,3), but a third partition, which was asked earlier and has
    seen more of replica 2, proposes (100,5), and that answer comes first. *)
Definition proposals : list (MatEnv unit * MatRequest Counter.Op unit) :=
  [(at_time 150, MatStaticWrite [incr 5] 8);
   (at_time 200, MatClkPosUpd 2 3);
   (at_time 200, MatStaticWrite [incr 2] 7);
   (at_time 201, MatCommit (mkCommit 8 {[ 1 := 150; 2 := 6 ]}));
   (at_time 202, MatCommit (mkCommit 7 {[ 1 := 100; 2 := 5 ]}))].

(** The manager then commits 7 with the first of two concurrent proposals
    ([TransactionManager.concurrent_proposals_depend_on_arrival]), and the
    partition applies it strictly below the commit of 8, which it has applied
    before. *)
Theorem concurrent_proposals_break_the_order :
  ReplyClock (Some {[ 1 := 200; 2 := 3 ]}) ∈ out_of proposals /\
  commits_of (out_of proposals) = [8; 7] /\
  IsLower {[ 1 := 100; 2 := 5 ]} (Some {[ 1 := 150; 2 := 6 ]}) = true.
Proof.
  split; [|by vm_compute]. apply list_elem_of_In. vm_compute. auto 10.
Qed.

Lemma held_commits_wait_for_a_prepare_witness :
  length (holds (commitsOnHold (state_of reqs))) = 1%nat /\
  forall h, h ∈ holds (commitsOnHold (state_of reqs)) ->
  exists e, e ∈ entries (prepClks (partClock (state_of reqs))) /\
    IsLowerOrEqual (CommitTimestamp h) (Some (clk e)) = false.
Proof.
  split; [vm_compute; reflexivity|].
  exact (proj1 (held_commits_wait_for_a_prepare false [1; 2] Example.set ct 0 1 reqs
    (state_of reqs) (out_of reqs) reached_reqs)).
Defined.

Lemma prepare_replies_a_new_clock_witness :
  exists c p', (handleMatPrepare 9 : EM unit) (at_time 101) (state_of reqs) =
      Some (tt, p', [ReplyClock (Some c)]) /\
    IsHigher c (Some (stableClk (partClock (state_of reqs)))) = true.
Proof.
  destruct (prepare_replies_a_new_clock false [1; 2] Example.set ct 0 1 reqs
    (state_of reqs) (out_of reqs) (at_time 101) 9
    reached_reqs)
    as (c & p' & H1 & _ & H2 & _); [vm_compute; reflexivity|].
  exists c, p'. split; [exact H1|exact H2].
Defined.

Lemma commit_is_served_witness :
  exists p' o', (handleMatCommit Example.set last_req : EM unit) (at_time 103)
      (state_of reqs) = Some (tt, p', o') /\
    (7 ∈ commits_of o' \/ last_req ∈ holds (commitsOnHold p')).
Proof.
  destruct (commit_is_served false [1; 2] Example.set ct 0 1 reqs
    (state_of reqs) (out_of reqs) (at_time 103) last_req
    reached_reqs)
    as (p' & o' & H1 & H2 & _); [vm_compute; reflexivity|].
  exists p', o'. split; [exact H1|]. apply (H2 last_req). by left.
Defined.

Lemma safe_clock_is_below_witness :
  exists s, (handleMatSafeClk : EM unit) (at_time 103) (state_of reqs) =
      Some (tt, state_of reqs, [LogClk s]) /\
    forall x, x ∈ entries (prepClks (partClock (state_of reqs))) ->
      IsLower s (Some (clk x)) = true.
Proof.
  destruct (safe_clock_is_below false [1; 2] Example.set ct 0 1 reqs
    (state_of reqs) (out_of reqs) (at_time 103)
    reached_reqs)
    as (s & H1 & H2 & _).
  { assert (E : entries (prepClks (partClock (state_of reqs))) = [mkPair (clock 100) 7])
      by (vm_compute; reflexivity).
    rewrite E. intros x ->%list_elem_of_singleton. vm_compute. split; reflexivity. }
  exists s. split; [exact H1|exact H2].
Defined.
