(* ===== verification/CommitReplies.v ===== *)
(** * Publishing committed clocks: handleCommitReplies and ClockHeap of
      transactionManager.go (src/potionDB/components)

    One goroutine owns the commit channel.  A coordinator announces how many
    partitions take part in a transaction and its clock; each partition reports
    when it has committed; with the last report the clock is merged into the
    replica's clock, at once or, when the channel is busy, through [stackedClk].
    Clients that need a clock the replica does not have yet wait in a heap.

    The replica's clock is shared with the goroutine of remote transactions: its
    locked [UpdatePos] is the event [RemoteUpdate] between two messages. *)

From S2P Require Import Prelude ClockSI GoHeap Effects.
From Stdlib Require Import ZArith Lia Bool.
From stdpp Require Import base tactics numbers gmap list.
#[local] Open Scope Z_scope.
#[local] Open Scope eff_scope.

(** ** ClockHeap *)

(** [replyChan] is the identity of the waiting client's channel. *)
Record TMWaitClock := mkWait { targetClk : vclock; replyChan : Z }.

(** [entries] is the slice [entries[:nEntries]] of the code. *)
Record ClockHeap := mkWaiters { entries : list TMWaitClock }.

(** [cap(c.entries)], fixed when the goroutine starts. *)
Definition heapCap : nat := 100.

Module Waiters.
Definition Len (c : ClockHeap) : nat := length (entries c).

(** The code compares entry [i] with itself. *)
Definition Less (c : ClockHeap) (i j : nat) : bool :=
  match entries c !! i with
  | Some ei => IsLowerOrEqualTotalOrder (targetClk ei) (Some (targetClk ei))
  | None => false
  end.

Definition Swap (c : ClockHeap) (i j : nat) : ClockHeap :=
  match entries c !! i, entries c !! j with
  | Some ei, Some ej => mkWaiters (<[i := ej]> (<[j := ei]> (entries c)))
  | _, _ => c
  end.

Definition Push (c : ClockHeap) (convValue : TMWaitClock) : ClockHeap :=
  mkWaiters (entries c ++ [convValue]).

Definition Pop (c : ClockHeap) : option TMWaitClock * ClockHeap :=
  match last (entries c) with
  | None => (None, c)
  | Some old => (Some old, mkWaiters (take (length (entries c) - 1) (entries c)))
  end.

Definition PeekMin (c : ClockHeap) : option TMWaitClock := entries c !! 0%nat.
End Waiters.

#[export] Instance waiter_heap_ops : HeapOps ClockHeap TMWaitClock := {
  hEntries := entries; hLess := Waiters.Less; hSwap := Waiters.Swap;
  hPush := Waiters.Push; hPop := Waiters.Pop }.

(** [heap.Push(waitingTMs, x)].  [None]: on a full heap the method's value
    receiver drops the appended slice but still increments [nEntries], and the
    library's [up] then indexes [entries] out of range. *)
Definition pushWaiter (c : ClockHeap) (x : TMWaitClock) : option ClockHeap :=
  if (Waiters.Len c =? heapCap)%nat then None else Some (GoHeap.Push c x).

(** ** The goroutine *)

Inductive TMCommitInfo :=
  | TMCommitNPartitions (nPartitions txnId : Z) (clk : vclock)
  | TMPartCommitReply (txnId : Z)
  | TMWait (w : TMWaitClock).

Record CommitState := mkCommitState {
  txnToClk : gmap Z vclock;
  txnWaitFor : gmap Z Z;
  waitingTMs : ClockHeap;
  stackedClk : Timestamp;
  nStacked : Z;
  localClock : vclock;
  txnsSinceCompact : Z
}.

Definition initialState (clock : vclock) : CommitState :=
  mkCommitState ∅ ∅ (mkWaiters []) None 0 clock 0.

(** [len(tm.commitChan)] at its two uses, and the number of partitions. *)
Record ChanEnv := mkChan { lenOnReply : Z; lenAtEnd : Z; nGoRoutines : Z }.

(** [replyChan <- copyClk] *)
Record ClockReply := mkReply { toWaiter : TMWaitClock; sentClk : vclock }.

Abbreviation CM := (M ChanEnv CommitState ClockReply).

Definition set_pending (clks : gmap Z vclock) (waits : gmap Z Z) (s : CommitState) :=
  mkCommitState clks waits (waitingTMs s) (stackedClk s) (nStacked s) (localClock s)
    (txnsSinceCompact s).
Definition set_waiting (h : ClockHeap) (s : CommitState) :=
  mkCommitState (txnToClk s) (txnWaitFor s) h (stackedClk s) (nStacked s) (localClock s)
    (txnsSinceCompact s).
Definition set_stacked (c : Timestamp) (n : Z) (s : CommitState) :=
  mkCommitState (txnToClk s) (txnWaitFor s) (waitingTMs s) c n (localClock s)
    (txnsSinceCompact s).
Definition set_local (c : vclock) (n : Z) (s : CommitState) :=
  mkCommitState (txnToClk s) (txnWaitFor s) (waitingTMs s) (stackedClk s) (nStacked s) c n.

(** [for waitingTMs.Len() > 0 && waitingTMs.PeekMin().targetClk.IsLowerOrEqual(copyClk)]:
    every round pops a waiter, so [Len] rounds are enough. *)
Fixpoint releaseWaiters (fuel : nat) (copyClk : vclock) : CM unit :=
  match fuel with
  | O => ret tt
  | S fuel =>
      s <- get ;;
      match Waiters.PeekMin (waitingTMs s) with
      | None => ret tt
      | Some min =>
          if IsLowerOrEqual (targetClk min) (Some copyClk) then
            ' (popped, h) <- must (GoHeap.Pop (waitingTMs s)) ;;
            w <- must popped ;;
            modify (set_waiting h) ;;;
            emit (mkReply w copyClk) ;;;
            releaseWaiters fuel copyClk
          else ret tt
      end
  end.

(** Lines 2585-2600 and 2636-2651, with the number of commits published. *)
Definition publishClock (clk : Timestamp) (n : Z) : CM unit :=
  s <- get ;;
  modify (set_local (MergeInto (localClock s) clk) (txnsSinceCompact s + n)) ;;;
  if (Waiters.Len (waitingTMs s) =? 0)%nat then ret tt
  else releaseWaiters (Waiters.Len (waitingTMs s))
         (ClockSI.Copy (MergeInto (localClock s) clk)).

Definition handleRequest (typedReq : TMCommitInfo) : CM unit :=
  s <- get ;;
  e <- ask ;;
  match typedReq with
  | TMCommitNPartitions nPartitions txnId clk =>
      modify (set_pending (<[txnId := clk]> (txnToClk s)) (<[txnId := nPartitions]> (txnWaitFor s)))
  | TMPartCommitReply txnId =>
      count <- must (txnWaitFor s !! txnId) ;;
      let count := count - 1 in
      if count =? 0 then
        clk <- must (txnToClk s !! txnId) ;;
        modify (set_pending (delete txnId (txnToClk s)) (delete txnId (txnWaitFor s))) ;;;
        if lenOnReply e >? nGoRoutines e * 2 then
          modify (set_stacked
            (Some (match stackedClk s with
                   | None => ClockSI.Copy clk
                   | Some stacked => MergeInto stacked (Some clk)
                   end)) (nStacked s + 1))
        else publishClock (Some clk) 1
      else modify (set_pending (txnToClk s) (<[txnId := count]> (txnWaitFor s)))
  | TMWait w =>
      h <- must (pushWaiter (waitingTMs s) w) ;;
      modify (set_waiting h)
  end.

(** Lines 2635-2653; [lenAtEnd] is never negative, so Go's truncating division
    is [Z.quot]. *)
Definition flushStacked : CM unit :=
  s <- get ;;
  e <- ask ;;
  if (nStacked s >? 10)
     || ((lenAtEnd e <? Z.quot (nGoRoutines e) 2) && bool_decide (stackedClk s <> None))
  then
    publishClock (stackedClk s) (nStacked s) ;;;
    modify (set_stacked None 0)
  else ret tt.

(** One iteration of [handleCommitReplies]. *)
Definition handleCommitReply (typedReq : TMCommitInfo) : CM unit :=
  handleRequest typedReq ;;; flushStacked.

(** What happens to the commit goroutine's state, in the order it happens. *)
Inductive Event :=
  | Message (e : ChanEnv) (req : TMCommitInfo)
  | RemoteUpdate (replicaID value : Z).

Definition step (ev : Event) (s : CommitState) : option (CommitState * list ClockReply) :=
  match ev with
  | Message e req =>
      match handleCommitReply req e s with
      | Some (_, s', o) => Some (s', o)
      | None => None
      end
  | RemoteUpdate id v =>
      Some (set_local (UpdatePos (localClock s) id v) (txnsSinceCompact s) s, [])
  end.

Fixpoint serve (evs : list Event) (s : CommitState) : option (CommitState * list ClockReply) :=
  match evs with
  | [] => Some (s, [])
  | ev :: evs =>
      match step ev s with
      | None => None
      | Some (s1, o1) =>
          match serve evs s1 with
          | None => None
          | Some (s2, o2) => Some (s2, o1 ++ o2)
          end
      end
  end.

(** ** What the heap promises *)

Definition waiter_less (a b : TMWaitClock) : bool :=
  IsLowerOrEqualTotalOrder (targetClk a) (Some (targetClk a)).

(** Comparing a clock with itself is always true: the heap has no order. *)
Lemma waiter_less_true a b : waiter_less a b = true.
Proof.
  unfold waiter_less, IsLowerOrEqualTotalOrder. rewrite TotalOrder_scan_spec.
  fold (lt_in (targetClk a) (targetClk a)) (gt_in (targetClk a) (targetClk a)).
  assert (Hd : same_dom (targetClk a) (targetClk a)) by done.
  pose proof (proj2 (lt_in_vle _ _ Hd) (vle_refl _)) as ->.
  by pose proof (proj2 (gt_in_vle _ _ Hd) (vle_refl _)) as ->.
Qed.

#[export, refine] Instance waiter_heap_laws : HeapLaws ClockHeap TMWaitClock waiter_less := {
  hInv _ := True;
  hFresh _ _ := True
}.
Proof.
  - intros h i j a b Ha Hb. cbn [hLess hEntries waiter_heap_ops] in *.
    unfold Waiters.Less. by rewrite Ha.
  - intros h i j _ _ _. split; [|done]. cbn [hEntries hSwap waiter_heap_ops].
    unfold Waiters.Swap, lswap. by repeat case_match.
  - intros h x _ _. done.
  - intros h es x _ E. cbn [hPop waiter_heap_ops hEntries] in *. unfold Waiters.Pop.
    rewrite E, last_snoc. eexists. split; [done|]. cbn [entries].
    rewrite length_app. cbn [length]. replace (length es + 1 - 1)%nat with (length es) by lia.
    by rewrite take_app_length.
Defined.

Lemma pushWaiter_Some c x c' :
  pushWaiter c x = Some c' -> entries c' ≡ₚ x :: entries c /\ Waiters.PeekMin c' = Some x.
Proof.
  unfold pushWaiter. destruct (Waiters.Len c =? heapCap)%nat; [done|]. intros [= <-]. split.
  - by apply (Push_elements waiter_less (Hl := waiter_heap_laws)).
  - apply (Push_root waiter_less (Hl := waiter_heap_laws)); [done..|].
    intros y. apply waiter_less_true.
Qed.

Lemma pushWaiter_spec c x :
  (Waiters.Len c < heapCap)%nat ->
  exists c', pushWaiter c x = Some c' /\ entries c' ≡ₚ x :: entries c /\
    Waiters.PeekMin c' = Some x.
Proof.
  intros Hl. destruct (pushWaiter c x) as [c'|] eqn:E.
  - exists c'. split; [done|]. by apply pushWaiter_Some.
  - unfold pushWaiter in E. by destruct (Nat.eqb_spec (Waiters.Len c) heapCap); [lia|].
Qed.

Lemma popWaiter_spec c x :
  Waiters.PeekMin c = Some x ->
  exists c', GoHeap.Pop c = Some (Some x, c') /\ entries c ≡ₚ x :: entries c'.
Proof.
  intros Hx.
  destruct (Pop_root waiter_less (Hl := waiter_heap_laws) c x) as (c' & E & _ & Hp);
    [done|exact Hx|].
  by exists c'.
Qed.

(** ** Releasing the waiters *)

(** A reply is sent only to a waiter whose clock has been reached. *)
Definition reply_ok (r : ClockReply) : Prop :=
  IsLowerOrEqual (targetClk (toWaiter r)) (Some (sentClk r)) = true.

(** What releasing changes: only the heap, whose popped waiters are answered
    with [clk]; what is left is empty or has a root that must wait. *)
Definition released (clk : vclock) (s s' : CommitState) (o : list ClockReply) : Prop :=
  s' = set_waiting (waitingTMs s') s /\
  entries (waitingTMs s) ≡ₚ map toWaiter o ++ entries (waitingTMs s') /\
  Forall (fun r => reply_ok r /\ sentClk r = clk) o /\
  match Waiters.PeekMin (waitingTMs s') with
  | None => True
  | Some min => IsLowerOrEqual (targetClk min) (Some clk) = false
  end.

Lemma releaseWaiters_spec fuel clk e s :
  (Waiters.Len (waitingTMs s) <= fuel)%nat ->
  returns (releaseWaiters fuel clk) e s (fun _ s' o => released clk s s' o).
Proof.
  assert (Hdone : forall s, match Waiters.PeekMin (waitingTMs s) with
    | None => True | Some min => IsLowerOrEqual (targetClk min) (Some clk) = false end ->
    released clk s s []).
  { intros s0 Hmin. split; [by destruct s0|]. split; [done|]. by split. }
  revert s. induction fuel as [|fuel IH]; intros s Hf; cbn [releaseWaiters].
  { apply returns_ret, Hdone. unfold Waiters.PeekMin, Waiters.Len in *.
    destruct (entries (waitingTMs s)); [done|simpl in Hf; lia]. }
  apply returns_bind. exists s, s, []. split; [done|].
  destruct (Waiters.PeekMin (waitingTMs s)) as [w|] eqn:Ew.
  2:{ apply returns_ret, Hdone. by rewrite Ew. }
  destruct (IsLowerOrEqual (targetClk w) (Some clk)) eqn:Ele.
  2:{ apply returns_ret, Hdone. by rewrite Ew. }
  destruct (popWaiter_spec _ _ Ew) as (c' & Epop & Hp). rewrite Epop.
  apply returns_bind. exists (Some w, c'), s, []. split; [done|]. cbv beta iota.
  apply returns_bind. exists w, s, []. split; [done|].
  apply returns_bind. eexists _, (set_waiting c' s), []. split; [done|].
  apply returns_bind. eexists _, (set_waiting c' s), [mkReply w clk]. split; [done|].
  assert (Hlen : (Waiters.Len (waitingTMs (set_waiting c' s)) <= fuel)%nat).
  { unfold Waiters.Len in *. rewrite Hp in Hf. simpl in *. lia. }
  eapply returns_weaken; [exact (IH _ Hlen)|].
  intros _ s' o (Es & Hw & Ho & Hmin). cbn [app]. split.
  { rewrite Es. by destruct s. }
  split; [|split; [|exact Hmin]].
  - rewrite Hp. cbn [map app toWaiter]. constructor. exact Hw.
  - constructor; [|exact Ho]. by split.
Qed.

Lemma publishClock_spec clk n e s :
  returns (publishClock clk n) e s (fun _ s' o =>
    released (MergeInto (localClock s) clk)
      (set_local (MergeInto (localClock s) clk) (txnsSinceCompact s + n) s) s' o).
Proof.
  unfold publishClock. apply returns_bind. exists s, s, []. split; [done|].
  apply returns_bind. eexists _, (set_local _ _ s), []. split; [done|]. cbn [app].
  rewrite Copy_id. destruct (Nat.eqb_spec (Waiters.Len (waitingTMs s)) 0) as [E|E].
  - apply returns_ret. split; [by destruct s|]. unfold Waiters.Len in E.
    apply nil_length_inv in E. unfold Waiters.PeekMin. cbn [waitingTMs set_local].
    by rewrite E.
  - by apply releaseWaiters_spec.
Qed.

(** ** Specification: the clocks of complete transactions *)

(** [pending]: each announced transaction, its clock and the partitions still to
    report.  [reached] is the join of the clocks of the complete transactions,
    of the remote updates and of the clock at the start. *)
Record Spec := mkSpec { pending : gmap Z (vclock * Z); reached : vclock }.

Definition spec_step (ev : Event) (a : Spec) : Spec :=
  match ev with
  | Message _ (TMCommitNPartitions n t c) =>
      mkSpec (<[t := (c, n)]> (pending a)) (reached a)
  | Message _ (TMPartCommitReply t) =>
      match pending a !! t with
      | None => a
      | Some (c, n) =>
          if n =? 1 then mkSpec (delete t (pending a)) (ClockSI.Merge (reached a) (Some c))
          else mkSpec (<[t := (c, n - 1)]> (pending a)) (reached a)
      end
  | Message _ (TMWait _) => a
  | RemoteUpdate id v => mkSpec (pending a) (UpdatePos (reached a) id v)
  end.

(** The senders: a transaction is announced once, before any of its reports, with
    a clock over the replica's identifiers; or, if it only read, for no
    partition, with the clock [DummyTs], and no partition reports it. *)
Definition legal (ev : Event) (a : Spec) : bool :=
  match ev with
  | Message _ (TMCommitNPartitions n t c) =>
      bool_decide (pending a !! t = None) &&
        ((n =? 0) || ((1 <=? n) && bool_decide (dom c = dom (reached a))))
  | Message _ (TMPartCommitReply t) =>
      match pending a !! t with Some (_, n) => 1 <=? n | None => false end
  | Message _ (TMWait _) => true
  | RemoteUpdate id _ => bool_decide (id ∈ dom (reached a))
  end.

Fixpoint legal_run (evs : list Event) (a : Spec) : bool :=
  match evs with
  | [] => true
  | ev :: evs => legal ev a && legal_run evs (spec_step ev a)
  end.

Definition spec_run (evs : list Event) (a : Spec) : Spec :=
  foldl (fun a ev => spec_step ev a) a evs.

Definition initialSpec (clock : vclock) : Spec := mkSpec ∅ clock.

(** Never more than [heapCap] clients wait at the same time. *)
Definition fits (ev : Event) (s : CommitState) : bool :=
  match ev with Message _ (TMWait _) => (Waiters.Len (waitingTMs s) <? heapCap)%nat | _ => true end.

Fixpoint waiters_fit (evs : list Event) (s : CommitState) : bool :=
  match evs with
  | [] => true
  | ev :: evs => fits ev s && match step ev s with Some (s1, _) => waiters_fit evs s1 | None => true end
  end.

(** The waiters among the events. *)
Definition waiter_of (ev : Event) : list TMWaitClock :=
  match ev with Message _ (TMWait w) => [w] | _ => [] end.

(** ** Joins of clocks *)

Lemma MergeInto_Merge a b : same_dom a b -> MergeInto a (Some b) = ClockSI.Merge a (Some b).
Proof.
  intros Hd. apply (vle_antisym _ _).
  - pose proof (MergeInto_dom a b Hd) as E1. pose proof (Merge_dom a b) as E2.
    unfold same_dom in *. congruence.
  - intros i. rewrite MergeInto_GetPos, Merge_GetPos by done. lia.
  - intros i. rewrite MergeInto_GetPos, Merge_GetPos by done. lia.
Qed.

Lemma UpdatePos_dom c id v : id ∈ dom c -> same_dom c (UpdatePos c id v).
Proof. intros. unfold same_dom, UpdatePos. case_match; [|done]. rewrite dom_insert_L. set_solver. Qed.

Lemma UpdatePos_GetPos c id v i :
  GetPos (UpdatePos c id v) i = if decide (id = i) then Z.max (GetPos c i) v else GetPos c i.
Proof.
  unfold UpdatePos. destruct (Z.ltb_spec (GetPos c id) v);
    rewrite ?GetPos_insert; case_decide; subst; lia.
Qed.

(** The clock that will be reached once the stacked commits are published. *)
Definition willReach (s : CommitState) : vclock := MergeInto (localClock s) (stackedClk s).

Definition stacked_dom (s : CommitState) : Prop :=
  match stackedClk s with Some c => same_dom (localClock s) c | None => True end.

Lemma willReach_dom s : stacked_dom s -> same_dom (localClock s) (willReach s).
Proof.
  unfold stacked_dom, willReach. destruct (stackedClk s); [|done]. by apply MergeInto_dom.
Qed.

Lemma willReach_GetPos s i : stacked_dom s ->
  GetPos (willReach s) i =
    match stackedClk s with
    | Some c => Z.max (GetPos (localClock s) i) (GetPos c i)
    | None => GetPos (localClock s) i
    end.
Proof.
  unfold stacked_dom, willReach. destruct (stackedClk s); [|done]. by apply MergeInto_GetPos.
Qed.

(** A pending transaction that partitions will report; those that only read stay
    pending for ever. *)
Definition entry_ok (d : gset Z) (e : vclock * Z) : Prop := e.2 = 0 \/ (dom e.1 = d /\ 1 <= e.2).

(** The goroutine's state implements the specification, with at most [k] commits
    stacked. *)
Record implements (k : Z) (a : Spec) (s : CommitState) : Prop := {
  imp_clks : txnToClk s = fst <$> pending a;
  imp_waits : txnWaitFor s = snd <$> pending a;
  imp_pending : map_Forall (fun _ => entry_ok (dom (reached a))) (pending a);
  imp_stacked : stacked_dom s;
  imp_reached : willReach s = reached a;
  imp_nStacked : 0 <= nStacked s <= k;
  imp_none : nStacked s = 0 <-> stackedClk s = None
}.

Lemma imp_local_dom k a s : implements k a s -> dom (localClock s) = dom (reached a).
Proof. intros Hi. rewrite <- (imp_reached _ _ _ Hi). apply willReach_dom, Hi. Qed.

Lemma initial_implements clock : implements 10 (initialSpec clock) (initialState clock).
Proof. split; cbn; rewrite ?fmap_empty; try done; try lia. Qed.

(** What a step sends: answers to some of the waiters, with a clock that the
    replica has reached. *)
Definition answers (s s' : CommitState) (ws : list TMWaitClock) (o : list ClockReply) : Prop :=
  entries (waitingTMs s) ++ ws ≡ₚ map toWaiter o ++ entries (waitingTMs s') /\
  Forall (fun r => reply_ok r /\ vle (sentClk r) (localClock s')) o /\
  vle (localClock s) (localClock s').

Lemma answers_none s s' ws :
  entries (waitingTMs s') ≡ₚ ws ++ entries (waitingTMs s) ->
  localClock s' = localClock s -> answers s s' ws [].
Proof.
  intros E El. split; [|split; [done|rewrite El; apply vle_refl]].
  cbn [map app]. by rewrite E, Permutation_app_comm.
Qed.

Lemma answers_trans s1 s2 s3 ws1 ws2 o1 o2 :
  answers s1 s2 ws1 o1 -> answers s2 s3 ws2 o2 -> answers s1 s3 (ws1 ++ ws2) (o1 ++ o2).
Proof.
  intros (E1 & O1 & L1) (E2 & O2 & L2). split; [|split; [|by eapply vle_trans]].
  - rewrite app_assoc, E1, map_app, <- !app_assoc. by rewrite E2.
  - apply Forall_app. split; [|done]. eapply Forall_impl; [exact O1|].
    intros r [? ?]. split; [done|by eapply vle_trans].
Qed.

(** Publishing a clock. *)
Lemma publish_answers s s' n clk o :
  same_dom (localClock s) clk ->
  released (MergeInto (localClock s) (Some clk))
    (set_local (MergeInto (localClock s) (Some clk)) n s) s' o ->
  answers s s' [] o /\
  s' = set_waiting (waitingTMs s') (set_local (MergeInto (localClock s) (Some clk)) n s) /\
  (Waiters.Len (waitingTMs s') <= Waiters.Len (waitingTMs s))%nat.
Proof.
  intros Hd (Es & Hp & Ho & _). cbn [waitingTMs set_local] in Hp.
  assert (El : localClock s' = MergeInto (localClock s) (Some clk)) by by rewrite Es.
  split; [|split; [done|]].
  - split; [by rewrite app_nil_r|]. split.
    + eapply Forall_impl; [exact Ho|]. intros r [? ->]. split; [done|].
      rewrite El. apply vle_refl.
    + intros i. rewrite El, MergeInto_GetPos by done. lia.
  - unfold Waiters.Len. rewrite Hp, length_app. lia.
Qed.

Lemma complete_pending t c n a :
  map_Forall (fun _ => entry_ok (dom (reached a))) (pending a) ->
  pending a !! t = Some (c, n) ->
  map_Forall (fun _ => entry_ok (dom (ClockSI.Merge (reached a) (Some c)))) (delete t (pending a)).
Proof.
  intros HF Ht. pose proof (Merge_dom (reached a) c) as E. unfold same_dom in E.
  rewrite <- E. by apply map_Forall_delete.
Qed.

(** The stacked clock after one more commit. *)
Definition stackOn (stacked : Timestamp) (clk : vclock) : vclock :=
  match stacked with None => ClockSI.Copy clk | Some c => MergeInto c (Some clk) end.

Lemma stackOn_willReach s clk n :
  stacked_dom s -> same_dom (localClock s) clk ->
  let s' := set_stacked (Some (stackOn (stackedClk s) clk)) n s in
  stacked_dom s' /\ willReach s' = MergeInto (willReach s) (Some clk).
Proof.
  intros Hs Hd s'.
  assert (Hs' : stacked_dom s').
  { unfold stacked_dom in *. cbn. destruct (stackedClk s) as [c|]; cbn [stackOn].
    - eapply same_dom_trans; [exact Hs|]. apply MergeInto_dom.
      unfold same_dom in *. congruence.
    - by rewrite Copy_id. }
  split; [done|].
  assert (Hw : same_dom (willReach s) clk).
  { pose proof (willReach_dom s Hs). unfold same_dom in *. congruence. }
  apply vle_antisym.
  - pose proof (willReach_dom s' Hs') as E1. pose proof (willReach_dom s Hs) as E2.
    pose proof (MergeInto_dom _ _ Hw) as E3. unfold same_dom in *.
    change (localClock s') with (localClock s) in E1. congruence.
  - intros i. rewrite MergeInto_GetPos, !willReach_GetPos by done. cbn.
    unfold stacked_dom in Hs. destruct (stackedClk s) as [c|]; cbn [stackOn].
    + rewrite MergeInto_GetPos by (unfold same_dom in *; congruence). lia.
    + rewrite Copy_id. lia.
  - intros i. rewrite MergeInto_GetPos, !willReach_GetPos by done. cbn.
    unfold stacked_dom in Hs. destruct (stackedClk s) as [c|]; cbn [stackOn].
    + rewrite MergeInto_GetPos by (unfold same_dom in *; congruence). lia.
    + rewrite Copy_id. lia.
Qed.

(** Publishing a commit, or the stacked commits, moves the clock that will be
    reached to the join. *)
Lemma publish_willReach s h n clk :
  stacked_dom s -> same_dom (localClock s) clk ->
  let s' := set_waiting h (set_local (MergeInto (localClock s) (Some clk)) n s) in
  stacked_dom s' /\ willReach s' = MergeInto (willReach s) (Some clk).
Proof.
  intros Hs Hd s'. pose proof (MergeInto_dom _ _ Hd) as HdM.
  assert (Hs' : stacked_dom s').
  { unfold stacked_dom in *.
    cbn [s' stackedClk localClock set_waiting set_local]. destruct (stackedClk s); [|done].
    unfold same_dom in *. congruence. }
  split; [done|].
  assert (Hw : same_dom (willReach s) clk).
  { pose proof (willReach_dom s Hs). unfold same_dom in *. congruence. }
  apply vle_antisym.
  - pose proof (willReach_dom s' Hs') as E1. pose proof (willReach_dom s Hs) as E2.
    pose proof (MergeInto_dom _ _ Hw) as E3. unfold same_dom in *.
    cbn [s' localClock set_waiting set_local] in E1. congruence.
  - intros i. rewrite MergeInto_GetPos, !willReach_GetPos by done.
    cbn [s' stackedClk localClock set_waiting set_local].
    rewrite MergeInto_GetPos by done. destruct (stackedClk s); lia.
  - intros i. rewrite MergeInto_GetPos, !willReach_GetPos by done.
    cbn [s' stackedClk localClock set_waiting set_local].
    rewrite MergeInto_GetPos by done. destruct (stackedClk s); lia.
Qed.

(** ** One iteration implements the specification *)

Lemma announced_ok n (c : vclock) d :
  (n =? 0) || ((1 <=? n) && bool_decide (dom c = d)) = true -> entry_ok d (c, n).
Proof.
  intros [H|H]%orb_true_iff; [left; by apply Z.eqb_eq in H|right].
  apply andb_true_iff in H as [H1 H2]. apply Z.leb_le in H1. by apply bool_decide_eq_true in H2.
Qed.

Lemma reported_ok d (c : vclock) n : entry_ok d (c, n) -> 1 <= n -> dom c = d.
Proof. intros [H|[H _]] Hn; cbn in *; [lia|done]. Qed.

Lemma request_announce k e n t c a s :
  implements k a s -> legal (Message e (TMCommitNPartitions n t c)) a = true ->
  returns (handleRequest (TMCommitNPartitions n t c)) e s (fun _ s' o =>
    implements k (spec_step (Message e (TMCommitNPartitions n t c)) a) s' /\
    answers s s' [] o /\ stackedClk s' = stackedClk s).
Proof.
  intros [Ec Ew Hp Hs Hr Hn H0] Hl. cbn [legal] in Hl. apply andb_true_iff in Hl as [_ Hok].
  eexists _, _, _. split; [reflexivity|]. split; [|split; [by apply answers_none|done]].
  split; try done; cbn [spec_step pending reached set_pending txnToClk txnWaitFor].
  - by rewrite fmap_insert, Ec.
  - by rewrite fmap_insert, Ew.
  - apply map_Forall_insert_2; [|done]. by apply announced_ok.
Qed.

Lemma request_wait k e w a s :
  implements k a s -> fits (Message e (TMWait w)) s = true ->
  returns (handleRequest (TMWait w)) e s (fun _ s' o =>
    implements k (spec_step (Message e (TMWait w)) a) s' /\
    answers s s' [w] o /\ stackedClk s' = stackedClk s).
Proof.
  intros [Ec Ew Hp Hs Hr Hn H0] Hl. cbn [fits] in Hl. apply Nat.ltb_lt in Hl.
  destruct (pushWaiter_spec (waitingTMs s) w Hl) as (c' & E & Hpm & _).
  exists tt, (set_waiting c' s), []. split.
  { unfold handleRequest. cbn [bind get ask]. by rewrite E. }
  split; [by split|]. split; [by apply answers_none|done].
Qed.

(** The last report of a transaction, when the channel is busy or not. *)
Lemma request_complete_stack k t c a s :
  implements k a s -> pending a !! t = Some (c, 1) ->
  implements (k + 1)
    (mkSpec (delete t (pending a)) (ClockSI.Merge (reached a) (Some c)))
    (set_stacked (Some (stackOn (stackedClk s) c)) (nStacked s + 1)
       (set_pending (delete t (txnToClk s)) (delete t (txnWaitFor s)) s)).
Proof.
  intros Hi Ht. pose proof (imp_local_dom _ _ _ Hi) as Hl.
  destruct Hi as [Ec Ew Hp Hs Hr Hn H0].
  assert (Hd := reported_ok _ _ _ (Hp t _ Ht) ltac:(done)).
  destruct (stackOn_willReach s c (nStacked s + 1)) as [Hs' Hw]; [done|by unfold same_dom; congruence|].
  split; try done; cbn [pending reached set_stacked set_pending txnToClk txnWaitFor stackedClk nStacked].
  - by rewrite Ec, fmap_delete.
  - by rewrite Ew, fmap_delete.
  - by eapply complete_pending.
  - etransitivity; [exact Hw|]. rewrite Hr. by apply MergeInto_Merge.
  - lia.
  - split; [lia|done].
Qed.

Lemma request_complete_publish k t c a s s' o :
  implements k a s -> pending a !! t = Some (c, 1) ->
  let s1 := set_pending (delete t (txnToClk s)) (delete t (txnWaitFor s)) s in
  released (MergeInto (localClock s1) (Some c))
    (set_local (MergeInto (localClock s1) (Some c)) (txnsSinceCompact s1 + 1) s1) s' o ->
  implements k
    (mkSpec (delete t (pending a)) (ClockSI.Merge (reached a) (Some c))) s' /\
  answers s s' [] o /\ stackedClk s' = stackedClk s.
Proof.
  intros Hi Ht s1 Hrel. pose proof (imp_local_dom _ _ _ Hi) as Hl.
  destruct Hi as [Ec Ew Hp Hs Hr Hn H0].
  assert (Hd := reported_ok _ _ _ (Hp t _ Ht) ltac:(done)).
  assert (Hsd : same_dom (localClock s) c) by (unfold same_dom; congruence).
  destruct (publish_answers s1 s' (txnsSinceCompact s1 + 1) c o) as (Ha & Es & Hlen); [done|exact Hrel|].
  destruct (publish_willReach s1 (waitingTMs s') (txnsSinceCompact s1 + 1) c) as [Hs' Hw];
    [done..|].
  rewrite <- Es in Hs', Hw. change (willReach s1) with (willReach s) in Hw.
  split; [|split; [exact Ha|by rewrite Es]].
  split; try done; cbn [pending reached]; try (rewrite Es; done).
  - rewrite Es. cbn. by rewrite Ec, fmap_delete.
  - rewrite Es. cbn. by rewrite Ew, fmap_delete.
  - by eapply complete_pending.
  - rewrite Hw, Hr. by apply MergeInto_Merge.
Qed.

Lemma request_report k e t a s :
  implements k a s -> legal (Message e (TMPartCommitReply t)) a = true ->
  returns (handleRequest (TMPartCommitReply t)) e s (fun _ s' o =>
    implements (k + 1) (spec_step (Message e (TMPartCommitReply t)) a) s' /\
    answers s s' [] o).
Proof.
  intros Hi Hl. cbn [legal] in Hl. destruct (pending a !! t) as [[c n]|] eqn:Ht; [|done].
  apply Z.leb_le in Hl. cbn [spec_step]. rewrite Ht. unfold handleRequest.
  apply returns_bind. exists s, s, []. split; [done|].
  apply returns_bind. exists e, s, []. split; [done|].
  apply returns_bind. exists n, s, []. split.
  { by rewrite (imp_waits _ _ _ Hi), lookup_fmap, Ht. }
  cbv zeta. destruct (Z.eqb_spec (n - 1) 0) as [E|E].
  2:{ destruct (Z.eqb_spec n 1) as [|_]; [lia|].
    destruct Hi as [Ec Ew Hp Hs Hr Hn H0].
    assert (Hd := reported_ok _ _ _ (Hp t _ Ht) Hl).
    eexists _, _, _. split; [reflexivity|]. split; [|by apply answers_none].
    split; try done; cbn [pending reached set_pending txnToClk txnWaitFor]; try done.
    - rewrite fmap_insert, Ec. symmetry. apply insert_id. by rewrite lookup_fmap, Ht.
    - by rewrite fmap_insert, Ew.
    - apply map_Forall_insert_2; [|done]. right. split; [done|]. cbn. lia.
    - cbn. lia. }
  assert (n = 1) as -> by lia. cbn [Z.eqb Pos.eqb].
  apply returns_bind. exists c, s, []. split.
  { by rewrite (imp_clks _ _ _ Hi), lookup_fmap, Ht. }
  apply returns_bind. eexists _, (set_pending _ _ s), []. split; [done|]. cbn [app].
  destruct (lenOnReply e >? nGoRoutines e * 2).
  - eexists _, _, _. split; [reflexivity|]. split; [|by apply answers_none].
    by apply request_complete_stack.
  - eapply returns_weaken; [apply publishClock_spec|]. intros [] s' o Hrel.
    destruct (request_complete_publish k t c a s s' o Hi Ht Hrel) as (Hi' & Ha & _).
    split; [|exact Ha]. destruct Hi'. split; try done. lia.
Qed.

Lemma request_spec e req a s :
  implements 10 a s -> legal (Message e req) a = true -> fits (Message e req) s = true ->
  returns (handleRequest req) e s (fun _ s' o =>
    implements 11 (spec_step (Message e req) a) s' /\
    answers s s' (waiter_of (Message e req)) o).
Proof.
  intros Hi Hl Hf.
  assert (Hup : forall a' s', implements 10 a' s' -> implements 11 a' s').
  { intros a' s' []. split; try done. lia. }
  destruct req as [n t c|t|w].
  - eapply returns_weaken; [by apply (request_announce 10)|]. cbn. intros; intuition.
  - eapply returns_weaken; [by apply (request_report 10)|]. cbn. intros; intuition.
  - eapply returns_weaken; [by apply (request_wait 10)|]. cbn. intros; intuition.
Qed.

(** Publishing what is stacked. *)
Lemma flush_publish a s c n s1 o1 :
  implements 11 a s -> stackedClk s = Some c ->
  released (MergeInto (localClock s) (Some c))
    (set_local (MergeInto (localClock s) (Some c)) n s) s1 o1 ->
  implements 10 a (set_stacked None 0 s1) /\
  answers s (set_stacked None 0 s1) [] o1.
Proof.
  intros Hi Est Hrel. pose proof (imp_local_dom _ _ _ Hi) as Hl.
  destruct Hi as [Ec Ew Hp Hs Hr Hn H0].
  unfold stacked_dom in Hs. unfold willReach in Hr. rewrite Est in Hs, Hr.
  destruct (publish_answers s s1 n c o1 Hs Hrel) as (Ha & Es & Hlen).
  split; [|exact Ha]. rewrite Es. split.
  - exact Ec.
  - exact Ew.
  - exact Hp.
  - exact I.
  - exact Hr.
  - cbn. lia.
  - by cbn.
Qed.

Lemma flushStacked_spec e a s :
  implements 11 a s ->
  returns flushStacked e s (fun _ s' o =>
    implements 10 a s' /\ answers s s' [] o /\
    (lenAtEnd e < Z.quot (nGoRoutines e) 2 -> stackedClk s' = None)).
Proof.
  intros Hi. unfold flushStacked.
  apply returns_bind. exists s, s, []. split; [done|].
  apply returns_bind. exists e, s, []. split; [done|].
  pose proof Hi as [Ec Ew Hp Hs Hr Hn H0]. rewrite Z.gtb_ltb.
  destruct (stackedClk s) as [c|] eqn:Est.
  2:{ rewrite (bool_decide_eq_false_2 (None <> None)) by (intros []; done).
    rewrite andb_false_r. assert (nStacked s = 0) as E0 by tauto. rewrite E0. cbn [Z.ltb Z.compare orb].
    apply returns_ret. split; [|split; [by apply answers_none|done]].
    split; try done; first [lia|by rewrite Est]. }
  rewrite (bool_decide_eq_true_2 (Some c <> None)) by done. rewrite andb_true_r.
  destruct (Z.ltb_spec 10 (nStacked s)) as [Hgt|Hle];
    [|destruct (Z.ltb_spec (lenAtEnd e) (Z.quot (nGoRoutines e) 2)) as [Hq|Hq]]; cbn [orb].
  3:{ apply returns_ret. split; [|split; [by apply answers_none|lia]].
    split; try done; first [lia|by rewrite Est]. }
  all: apply returns_bind; eapply returns_weaken; [apply publishClock_spec|];
    intros [] s1 o1 Hrel; eexists _, _, _; (split; [reflexivity|]); rewrite app_nil_r.
  all: destruct (flush_publish a s c _ s1 o1 Hi Est Hrel) as [Hi' Ha].
  all: split; [exact Hi'|split; [exact Ha|done]].
Qed.

Lemma handleCommitReply_spec e req a s :
  implements 10 a s -> legal (Message e req) a = true -> fits (Message e req) s = true ->
  returns (handleCommitReply req) e s (fun _ s' o =>
    implements 10 (spec_step (Message e req) a) s' /\
    answers s s' (waiter_of (Message e req)) o /\
    (lenAtEnd e < Z.quot (nGoRoutines e) 2 -> stackedClk s' = None)).
Proof.
  intros Hi Hl Hf. unfold handleCommitReply. apply returns_bind.
  eapply returns_weaken; [by apply (request_spec e req a s)|].
  intros _ s1 o1 [Hi1 Ha1]. eapply returns_weaken; [by apply flushStacked_spec|].
  intros _ s2 o2 (Hi2 & Ha2 & Hq). split; [done|]. split; [|done].
  rewrite <- (app_nil_r (waiter_of _)). by eapply answers_trans.
Qed.

(** ** Runs *)

Lemma step_spec ev a s :
  implements 10 a s -> legal ev a = true -> fits ev s = true ->
  exists s' o, step ev s = Some (s', o) /\
    implements 10 (spec_step ev a) s' /\ answers s s' (waiter_of ev) o /\
    match ev with
    | Message e _ => lenAtEnd e < Z.quot (nGoRoutines e) 2 -> stackedClk s' = None
    | RemoteUpdate _ _ => True
    end.
Proof.
  intros Hi Hl Hf. destruct ev as [e req|id v]; cbn [step].
  { destruct (handleCommitReply_spec e req a s Hi Hl Hf) as ([] & s' & o & E & Hspec).
    rewrite E. by exists s', o. }
  pose proof (imp_local_dom _ _ _ Hi) as Hd. destruct Hi as [Ec Ew Hp Hs Hr Hn H0].
  cbn [legal] in Hl. apply bool_decide_eq_true in Hl. rewrite <- Hd in Hl.
  pose proof (UpdatePos_dom (localClock s) id v Hl) as HU.
  eexists _, _. split; [done|].
  set (s' := set_local _ _ s).
  assert (Hs' : stacked_dom s').
  { unfold stacked_dom in *. change (stackedClk s') with (stackedClk s).
    destruct (stackedClk s); [|done]. change (localClock s') with (UpdatePos (localClock s) id v).
    unfold same_dom in *. congruence. }
  assert (Hd2 : dom (UpdatePos (reached a) id v) = dom (reached a)).
  { symmetry. apply UpdatePos_dom. by rewrite <- Hd. }
  split; [split|].
  - exact Ec.
  - exact Ew.
  - cbn [spec_step pending reached]. rewrite Hd2. exact Hp.
  - exact Hs'.
  - cbn [spec_step reached]. rewrite <- Hr. apply vle_antisym.
    + pose proof (willReach_dom s' Hs') as E1. pose proof (willReach_dom s Hs) as E2.
      pose proof (UpdatePos_dom (willReach s) id v) as E3. unfold same_dom in *.
      rewrite <- E1, <- E3 by (rewrite <- E2; exact Hl). rewrite <- E2. by symmetry.
    + intros i. rewrite UpdatePos_GetPos, !willReach_GetPos by done. cbn.
      rewrite UpdatePos_GetPos. destruct (stackedClk s); case_decide; subst; lia.
    + intros i. rewrite UpdatePos_GetPos, !willReach_GetPos by done. cbn.
      rewrite UpdatePos_GetPos. destruct (stackedClk s); case_decide; subst; lia.
  - exact Hn.
  - exact H0.
  - split; [|done]. split; [by cbn; rewrite app_nil_r|]. split; [done|].
    intros i. cbn. rewrite UpdatePos_GetPos. case_decide; lia.
Qed.

Lemma serve_spec evs a s :
  implements 10 a s -> legal_run evs a = true -> waiters_fit evs s = true ->
  exists s' o, serve evs s = Some (s', o) /\
    implements 10 (spec_run evs a) s' /\ answers s s' (concat (map waiter_of evs)) o.
Proof.
  revert a s. induction evs as [|ev evs IH]; intros a s Hi Hl Hf; cbn [serve].
  { exists s, []. split; [done|]. split; [done|]. by apply answers_none. }
  cbn [legal_run] in Hl. apply andb_true_iff in Hl as [Hl1 Hl2].
  cbn [waiters_fit] in Hf. apply andb_true_iff in Hf as [Hf1 Hf2].
  destruct (step_spec ev a s Hi Hl1 Hf1) as (s1 & o1 & E1 & Hi1 & Ha1 & _). rewrite E1 in Hf2.
  destruct (IH _ _ Hi1 Hl2 Hf2) as (s2 & o2 & E2 & Hi2 & Ha2).
  rewrite E1, E2. eexists _, _. split; [done|]. split; [done|].
  by eapply answers_trans.
Qed.

Lemma serve_app evs1 evs2 s :
  serve (evs1 ++ evs2) s =
    match serve evs1 s with
    | None => None
    | Some (s1, o1) =>
        match serve evs2 s1 with
        | None => None
        | Some (s2, o2) => Some (s2, o1 ++ o2)
        end
    end.
Proof.
  revert s. induction evs1 as [|ev evs1 IH]; intros s; cbn [app serve].
  - by destruct (serve evs2 s) as [[s2 o2]|].
  - destruct (step ev s) as [[s1 o1]|]; [|done]. rewrite IH.
    destruct (serve evs1 s1) as [[s2 o2]|]; [|done].
    destruct (serve evs2 s2) as [[s3 o3]|]; [|done]. by rewrite app_assoc.
Qed.

Lemma spec_run_app evs1 evs2 a : spec_run (evs1 ++ evs2) a = spec_run evs2 (spec_run evs1 a).
Proof. unfold spec_run. apply foldl_app. Qed.

Lemma spec_run_cons ev evs a : spec_run (ev :: evs) a = spec_run evs (spec_step ev a).
Proof. done. Qed.

Lemma legal_run_app evs1 evs2 a :
  legal_run (evs1 ++ evs2) a = legal_run evs1 a && legal_run evs2 (spec_run evs1 a).
Proof.
  revert a. induction evs1 as [|ev evs1 IH]; intros a; cbn [app legal_run]; [done|].
  by rewrite IH, andb_assoc.
Qed.

Lemma waiters_fit_app evs1 evs2 s :
  waiters_fit (evs1 ++ evs2) s =
    waiters_fit evs1 s && match serve evs1 s with Some (s1, _) => waiters_fit evs2 s1 | None => true end.
Proof.
  revert s. induction evs1 as [|ev evs1 IH]; intros s; cbn [app waiters_fit serve]; [done|].
  destruct (step ev s) as [[s1 o1]|]; [|by rewrite !andb_true_r].
  rewrite IH, andb_assoc. by destruct (serve evs1 s1) as [[s2 o2]|].
Qed.

(** The number of reports of transaction [t]. *)
Fixpoint reports (t : Z) (evs : list Event) : Z :=
  match evs with
  | [] => 0
  | Message _ (TMPartCommitReply t') :: evs => (if t' =? t then 1 else 0) + reports t evs
  | _ :: evs => reports t evs
  end.

(** A clock that does not belong to the pending set, or has been reached. *)
Definition pending_ok (a : Spec) : Prop := map_Forall (fun _ => entry_ok (dom (reached a))) (pending a).

Lemma spec_step_reached ev a :
  pending_ok a -> legal ev a = true ->
  pending_ok (spec_step ev a) /\ dom (reached (spec_step ev a)) = dom (reached a) /\
  vle (reached a) (reached (spec_step ev a)).
Proof.
  intros Hp Hl. destruct ev as [e [n t c|t|w]|id v]; cbn [spec_step legal] in *.
  - apply andb_true_iff in Hl as [_ Hok]. split; [|by split; [|apply vle_refl]].
    apply map_Forall_insert_2; [|done]. by apply announced_ok.
  - destruct (pending a !! t) as [[c n]|] eqn:E.
    2:{ split; [done|]. by split; [|apply vle_refl]. }
    apply Z.leb_le in Hl. assert (Hd := reported_ok _ _ _ (Hp t _ E) Hl).
    destruct (Z.eqb_spec n 1) as [|Hn1].
    + pose proof (Merge_dom (reached a) c) as EM. unfold same_dom in EM.
      split; [|split; [by symmetry|]].
      * unfold pending_ok. cbn [pending reached]. rewrite <- EM. by apply map_Forall_delete.
      * intros i. cbn [reached]. rewrite Merge_GetPos by (by unfold same_dom). lia.
    + split; [|by split; [|apply vle_refl]]. apply map_Forall_insert_2; [|done]. right. cbn. split; [done|lia].
  - split; [done|]. by split; [|apply vle_refl].
  - apply bool_decide_eq_true in Hl. pose proof (UpdatePos_dom _ _ v Hl) as EU.
    unfold same_dom in EU. split; [|split; [by symmetry|]].
    + unfold pending_ok. cbn [pending reached]. rewrite <- EU. exact Hp.
    + intros i. cbn. rewrite UpdatePos_GetPos. case_decide; lia.
Qed.

Lemma spec_run_reached evs a :
  pending_ok a -> legal_run evs a = true ->
  pending_ok (spec_run evs a) /\ vle (reached a) (reached (spec_run evs a)).
Proof.
  revert a. induction evs as [|ev evs IH]; intros a Hp Hl; cbn.
  { split; [done|apply vle_refl]. }
  cbn [legal_run] in Hl. apply andb_true_iff in Hl as [Hl1 Hl2].
  destruct (spec_step_reached ev a Hp Hl1) as (Hp1 & _ & Hv1).
  destruct (IH _ Hp1 Hl2) as [Hp2 Hv2]. split; [done|]. by eapply vle_trans.
Qed.

(** With its last report, a pending transaction's clock is reached. *)
Lemma pending_reached evs a t c n :
  pending_ok a -> legal_run evs a = true -> pending a !! t = Some (c, n) ->
  1 <= n <= reports t evs -> vle c (reached (spec_run evs a)).
Proof.
  revert a n. induction evs as [|ev evs IH]; intros a n Hp Hl Ht Hn; cbn [reports] in Hn; [lia|].
  cbn [legal_run] in Hl. apply andb_true_iff in Hl as [Hl1 Hl2].
  destruct (spec_step_reached ev a Hp Hl1) as (Hp1 & _ & _).
  cbn. destruct ev as [e [n' t' c'|t'|w]|id v]; try (by eapply IH).
  - cbn [legal] in Hl1. apply andb_true_iff in Hl1 as [HN _]. apply bool_decide_eq_true in HN.
    assert (t' <> t) by congruence.
    eapply IH; [done|done| |exact Hn]. cbn. by rewrite lookup_insert_ne.
  - destruct (Z.eqb_spec t' t) as [->|Hne].
    2:{ eapply IH; [done|done| |exact Hn]. cbn [spec_step].
      destruct (pending a !! t') as [[c' m]|]; [|done].
      destruct (m =? 1); cbn [pending]; [by rewrite lookup_delete_ne|by rewrite lookup_insert_ne]. }
    cbn [spec_step] in Hp1, Hl2 |- *. rewrite Ht in *. destruct (Z.eqb_spec n 1) as [->|Hn1].
    + destruct (spec_run_reached _ _ Hp1 Hl2) as [_ Hv]. eapply vle_trans; [|exact Hv].
      intros i. cbn [reached]. assert (Hd := reported_ok _ _ _ (Hp t _ Ht) ltac:(done)).
      rewrite Merge_GetPos by (by unfold same_dom). lia.
    + eapply IH; [done|done|cbn; apply lookup_insert_eq|lia].
Qed.

(** ** Properties *)

(** C4. For every sequence of announcements (each transaction once, before its
    reports; of transactions that only read, for no partition), reports, waiting
    clients and remote updates, in which no more than a hundred clients wait at
    the same time, the goroutine does not panic; the replica's clock joined with
    the stacked one is the join of the clocks of exactly the transactions all of
    whose partitions have reported; at most ten commits are ever held back; and
    every client that waits is either still in the heap or has got one answer, a
    clock at or above its target that the replica has reached. *)
Theorem committed_clocks_are_published (clock : vclock) (evs : list Event) :
  legal_run evs (initialSpec clock) = true -> waiters_fit evs (initialState clock) = true ->
  exists s o, serve evs (initialState clock) = Some (s, o) /\
    MergeInto (localClock s) (stackedClk s) = reached (spec_run evs (initialSpec clock)) /\
    0 <= nStacked s <= 10 /\ (nStacked s = 0 <-> stackedClk s = None) /\
    concat (map waiter_of evs) ≡ₚ map toWaiter o ++ entries (waitingTMs s) /\
    Forall (fun r => IsLowerOrEqual (targetClk (toWaiter r)) (Some (sentClk r)) = true /\
                     vle (sentClk r) (localClock s)) o.
Proof.
  intros Hl Hf.
  destruct (serve_spec evs _ _ (initial_implements clock) Hl Hf) as (s & o & E & Hi & Hp & Ho & _).
  exists s, o. split; [done|]. split; [apply Hi|]. split; [apply Hi|]. split; [apply Hi|].
  by split.
Qed.

Definition ex_events : list Event := [
  Message (mkChan 0 0 4) (TMCommitNPartitions 2 7 {[1 := 5; 2 := 0]});
  Message (mkChan 9 9 4) (TMWait (mkWait {[1 := 5; 2 := 3]} 40));
  Message (mkChan 9 9 4) (TMCommitNPartitions 0 9 DummyTs);
  Message (mkChan 9 9 4) (TMPartCommitReply 7);
  RemoteUpdate 2 3;
  Message (mkChan 9 9 4) (TMPartCommitReply 7);
  Message (mkChan 0 1 4) (TMCommitNPartitions 1 8 {[1 := 9; 2 := 0]})].

Lemma committed_clocks_are_published_witness :
  (exists s o, serve ex_events (initialState {[1 := 0; 2 := 0]}) = Some (s, o) /\
    MergeInto (localClock s) (stackedClk s) =
      reached (spec_run ex_events (initialSpec {[1 := 0; 2 := 0]})) /\
    0 <= nStacked s <= 10 /\ (nStacked s = 0 <-> stackedClk s = None) /\
    concat (map waiter_of ex_events) ≡ₚ map toWaiter o ++ entries (waitingTMs s) /\
    Forall (fun r => IsLowerOrEqual (targetClk (toWaiter r)) (Some (sentClk r)) = true /\
                     vle (sentClk r) (localClock s)) o) /\
  match serve ex_events (initialState {[1 := 0; 2 := 0]}) with
  | Some (s, [r]) => localClock s = {[1 := 5; 2 := 3]} /\ replyChan (toWaiter r) = 40
  | _ => False
  end.
Proof.
  split; [|vm_compute; by split].
  assert (Hl : legal_run ex_events (initialSpec {[1 := 0; 2 := 0]}) = true)
    by (vm_compute; reflexivity).
  assert (Hf : waiters_fit ex_events (initialState {[1 := 0; 2 := 0]}) = true) by (vm_compute; reflexivity).
  exact (committed_clocks_are_published _ _ Hl Hf).
Defined.

(** C37. A transaction announced for [n] partitions, at least one, becomes visible:
    whatever is interleaved (announcements of transactions that only read and
    waiting clients too, as long as no more than a hundred wait at the same time),
    once its [n] reports are served and the goroutine handles a
    message with a nearly empty channel (fewer than half the partitions), the
    replica's clock is at or above the transaction's clock and nothing is
    stacked. *)
Theorem commit_reaches_local_clock (clock : vclock) (evs1 : list Event) (e0 : ChanEnv)
    (n t : Z) (c : vclock) (evs2 : list Event) (e : ChanEnv) (req : TMCommitInfo) :
  let evs := evs1 ++ Message e0 (TMCommitNPartitions n t c) :: evs2 ++ [Message e req] in
  legal_run evs (initialSpec clock) = true -> waiters_fit evs (initialState clock) = true ->
  1 <= n <= reports t (evs2 ++ [Message e req]) ->
  lenAtEnd e < Z.quot (nGoRoutines e) 2 ->
  exists s o, serve evs (initialState clock) = Some (s, o) /\
    vle c (localClock s) /\ stackedClk s = None /\
    localClock s = reached (spec_run evs (initialSpec clock)).
Proof.
  cbv zeta. intros Hl Hf Hn Hq. set (evs2' := evs2 ++ [Message e req]) in *.
  rewrite legal_run_app in Hl. apply andb_true_iff in Hl as [Hl1 Hl2].
  rewrite waiters_fit_app in Hf. apply andb_true_iff in Hf as [Hf1 Hf2].
  cbn [legal_run] in Hl2. apply andb_true_iff in Hl2 as [Ha Hl2].
  destruct (serve_spec evs1 _ _ (initial_implements clock) Hl1 Hf1) as (s1 & o1 & E1 & Hi1 & _).
  rewrite E1 in Hf2. cbn [waiters_fit] in Hf2. apply andb_true_iff in Hf2 as [Hfa Hf2].
  destruct (step_spec _ _ _ Hi1 Ha Hfa) as (s2 & o2 & E2 & Hi2 & _ & _).
  rewrite serve_app, E1. cbn [serve]. rewrite E2 in Hf2 |- *.
  unfold evs2' in *. pose proof Hl2 as Hl3. rewrite legal_run_app in Hl3.
  apply andb_true_iff in Hl3 as [Hl3 Hl4]. cbn [legal_run] in Hl4.
  apply andb_true_iff in Hl4 as [Hl4 _].
  rewrite waiters_fit_app in Hf2. apply andb_true_iff in Hf2 as [Hf3 Hf4].
  destruct (serve_spec evs2 _ _ Hi2 Hl3 Hf3) as (s3 & o3 & E3 & Hi3 & _).
  rewrite E3 in Hf4. cbn [waiters_fit] in Hf4. apply andb_true_iff in Hf4 as [Hf4 _].
  destruct (step_spec _ _ _ Hi3 Hl4 Hf4) as (s4 & o4 & E4 & Hi4 & _ & Hnone).
  rewrite serve_app, E3. cbn [serve]. rewrite E4.
  eexists _, _. split; [done|].
  specialize (Hnone Hq). pose proof (imp_reached _ _ _ Hi4) as Hr. unfold willReach in Hr.
  rewrite Hnone in Hr. change (MergeInto (localClock s4) None) with (localClock s4) in Hr.
  assert (Hpok : forall a s, implements 10 a s -> pending_ok a).
  { intros a s Hi t' x Hx. apply (imp_pending _ _ _ Hi t' x Hx). }
  split; [|split; [done|]].
  - rewrite Hr. clear Hr.
    apply (pending_reached (evs2 ++ [Message e req])
      (spec_step (Message e0 (TMCommitNPartitions n t c)) (spec_run evs1 (initialSpec clock))) t c n)
      in Hl2; [|by eapply Hpok|cbn; apply lookup_insert_eq|done].
    rewrite spec_run_app in Hl2. exact Hl2.
  - rewrite Hr, spec_run_app, spec_run_cons, spec_run_app. done.
Qed.

Lemma commit_reaches_local_clock_witness :
  let c : vclock := {[1 := 5; 2 := 0]} in
  let busy := mkChan 9 9 4 in let calm := mkChan 9 1 4 in
  let evs1 := [Message busy (TMCommitNPartitions 1 6 {[1 := 3; 2 := 0]});
    Message busy (TMCommitNPartitions 0 5 DummyTs)] in
  let evs2 := [Message busy (TMPartCommitReply 6); Message busy (TMPartCommitReply 7)] in
  exists s o, serve (evs1 ++ Message busy (TMCommitNPartitions 2 7 c) ::
      evs2 ++ [Message calm (TMPartCommitReply 7)]) (initialState {[1 := 0; 2 := 0]}) = Some (s, o) /\
    vle c (localClock s) /\ stackedClk s = None /\
    localClock s = reached (spec_run (evs1 ++ Message busy (TMCommitNPartitions 2 7 c) ::
      evs2 ++ [Message calm (TMPartCommitReply 7)]) (initialSpec {[1 := 0; 2 := 0]})).
Proof.
  intros c busy calm evs1 evs2.
  apply (commit_reaches_local_clock {[1 := 0; 2 := 0]} evs1 busy 2 7 c evs2 calm (TMPartCommitReply 7)).
  - vm_compute; reflexivity.
  - vm_compute; reflexivity.
  - vm_compute; split; discriminate.
  - vm_compute; reflexivity.
Defined.

(** ** The heap of waiters is not ordered *)

Lemma MergeInto_above a b : vle a (MergeInto a b).
Proof.
  intros i. destruct b as [b|]; [|done]. unfold MergeInto.
  rewrite MergeInto_loop_GetPos by apply NoDup_fst_map_to_list. case_match; lia.
Qed.

Lemma IsLowerOrEqual_mono a b c :
  IsLowerOrEqual a (Some b) = true -> vle b c -> IsLowerOrEqual a (Some c) = true.
Proof.
  rewrite !IsLowerOrEqual_bools, !negb_true_iff, !gt_in_false. intros H Hv i Hi.
  specialize (H i Hi). specialize (Hv i). lia.
Qed.

(** While the root's clock has not been reached, nothing is released. *)
Definition blocked (w : TMWaitClock) (m : CM unit) : Prop := forall e s,
  Waiters.PeekMin (waitingTMs s) = Some w ->
  post m e s (fun _ s' o =>
    vle (localClock s) (localClock s') /\
    (IsLowerOrEqual (targetClk w) (Some (localClock s')) = false ->
     o = [] /\ waitingTMs s' = waitingTMs s)).

Lemma blocked_bind w (m k : CM unit) :
  blocked w m -> blocked w k ->
  (forall e s, post m e s (fun _ s' _ => vle (localClock s) (localClock s'))) ->
  (forall e s, post k e s (fun _ s' _ => vle (localClock s) (localClock s'))) ->
  blocked w (m ;;; k).
Proof.
  intros Hm Hk Mm Mk e s Hw. apply post_bind. intros [] s1 o1 E1. intros [] s2 o2 E2.
  destruct (Hm e s Hw _ _ _ E1) as [Hv1 Hm1]. pose proof (Mk e s1 _ _ _ E2) as Hv2.
  split; [by eapply vle_trans|]. intros Hlow.
  assert (Hlow1 : IsLowerOrEqual (targetClk w) (Some (localClock s1)) = false).
  { apply not_true_iff_false. intros Ht. by rewrite (IsLowerOrEqual_mono _ _ _ Ht Hv2) in Hlow. }
  destruct (Hm1 Hlow1) as [-> Ew]. rewrite <- Ew in Hw.
  destruct (Hk e s1 Hw _ _ _ E2) as [_ Hk2]. destruct (Hk2 Hlow) as [-> ->]. by rewrite Ew.
Qed.

Lemma releaseWaiters_local fuel clk e s :
  post (releaseWaiters fuel clk) e s (fun _ s' _ => localClock s' = localClock s).
Proof.
  revert s. induction fuel as [|fuel IH]; intros s; cbn [releaseWaiters]; [by apply post_ret|].
  apply post_bind. intros ? ? ? [= <- <- <-]. case_match; [|by apply post_ret].
  case_match; [|by apply post_ret]. apply post_bind. apply post_must. intros [x h] _.
  apply post_bind. apply post_must. intros w _. apply post_bind. intros ? ? ? [= <- <- <-].
  apply post_bind. intros ? ? ? [= <- <- <-]. exact (IH (set_waiting h s)).
Qed.

Lemma publishClock_local clk n e s :
  post (publishClock clk n) e s (fun _ s' _ => localClock s' = MergeInto (localClock s) clk).
Proof.
  unfold publishClock. apply post_bind. intros ? ? ? [= <- <- <-].
  apply post_bind. intros ? ? ? [= <- <- <-]. case_match; [by apply post_ret|].
  eapply post_weaken; [apply releaseWaiters_local|]. by intros ? ? ? ->.
Qed.

Lemma publishClock_blocked w clk n : blocked w (publishClock clk n).
Proof.
  intros e s Hw [] s' o E. pose proof (publishClock_local clk n e s _ _ _ E) as El.
  split; [rewrite El; apply MergeInto_above|]. rewrite El. intros Hlow. revert E.
  unfold publishClock. cbn [bind get modify]. rewrite Copy_id.
  destruct (Waiters.Len (waitingTMs s)) as [|len] eqn:Elen; cbn [Nat.eqb].
  { intros [= <- <-]. done. }
  cbn [releaseWaiters bind get]. change (waitingTMs (set_local _ _ s)) with (waitingTMs s).
  rewrite Hw, Hlow. cbn [ret]. by intros [= <- <-].
Qed.

(** The replica's clock never moves back. *)
Lemma local_mono_request req e s :
  post (handleRequest req) e s (fun _ s' _ => vle (localClock s) (localClock s')).
Proof.
  unfold handleRequest. apply post_bind. intros ? ? ? [= <- <- <-].
  apply post_bind. intros ? ? ? [= <- <- <-]. destruct req as [n t c|t|w].
  - intros ? ? ? [= <- <- <-]. apply vle_refl.
  - apply post_bind. apply post_must. intros n _. case_match.
    2:{ intros ? ? ? [= <- <- <-]. apply vle_refl. }
    apply post_bind. apply post_must. intros c _. apply post_bind. intros ? ? ? [= <- <- <-].
    case_match; [intros ? ? ? [= <- <- <-]; apply vle_refl|].
    eapply post_weaken; [apply publishClock_local|]. intros ? ? ? ->.
    apply (MergeInto_above (localClock s)).
  - apply post_bind. apply post_must. intros h _. intros ? ? ? [= <- <- <-]. apply vle_refl.
Qed.

Lemma local_mono_flush e s :
  post flushStacked e s (fun _ s' _ => vle (localClock s) (localClock s')).
Proof.
  unfold flushStacked. apply post_bind. intros ? ? ? [= <- <- <-].
  apply post_bind. intros ? ? ? [= <- <- <-]. case_match; [|apply post_ret, vle_refl].
  apply post_bind. eapply post_weaken; [apply publishClock_local|].
  intros ? s1 ? El. intros ? ? ? [= <- <- <-]. cbn [localClock set_stacked]. rewrite El.
  apply MergeInto_above.
Qed.

Lemma local_mono_reply req e s :
  post (handleCommitReply req) e s (fun _ s' _ => vle (localClock s) (localClock s')).
Proof.
  unfold handleCommitReply. apply post_bind.
  eapply post_weaken; [apply local_mono_request|]. intros [] s1 o1 Hv1.
  eapply post_weaken; [apply local_mono_flush|]. intros [] s2 o2 Hv2. by eapply vle_trans.
Qed.

Lemma blocked_flush w : blocked w flushStacked.
Proof.
  intros e s Hw. unfold flushStacked. apply post_bind. intros ? ? ? [= <- <- <-].
  apply post_bind. intros ? ? ? [= <- <- <-].
  case_match; [|apply post_ret; split; [apply vle_refl|done]].
  apply post_bind. eapply post_weaken; [by apply (publishClock_blocked w)|].
  intros ? s1 o1 [Hv Hb] ? ? ? [= <- <- <-]. cbn [localClock waitingTMs set_stacked].
  rewrite app_nil_r. by split.
Qed.

Lemma blocked_report w t : blocked w (handleRequest (TMPartCommitReply t)).
Proof.
  intros e s Hw. unfold handleRequest. apply post_bind. intros ? ? ? [= <- <- <-].
  apply post_bind. intros ? ? ? [= <- <- <-]. apply post_bind. apply post_must. intros n _.
  case_match; [|intros ? ? ? [= <- <- <-]; split; [apply vle_refl|done]].
  apply post_bind. apply post_must. intros c _. apply post_bind. intros ? ? ? [= <- <- <-].
  case_match; [intros ? ? ? [= <- <- <-]; split; [apply vle_refl|done]|].
  exact (publishClock_blocked w (Some c) 1 e (set_pending _ _ s) Hw).
Qed.

Lemma blocked_request w req :
  waiter_of (Message (mkChan 0 0 0) req) = [] -> blocked w (handleRequest req).
Proof.
  destruct req as [n t c|t|w']; [|intros _; apply blocked_report|done].
  intros _ e s Hw. intros ? ? ? [= <- <- <-]. split; [apply vle_refl|done].
Qed.

Lemma step_mono ev s s' o : step ev s = Some (s', o) -> vle (localClock s) (localClock s').
Proof.
  destruct ev as [e req|id v]; cbn [step].
  - destruct (handleCommitReply req e s) as [[[[] s1] o1]|] eqn:E; [|done]. intros [= <- <-].
    exact (local_mono_reply req e s _ _ _ E).
  - intros [= <- <-] i. cbn. rewrite UpdatePos_GetPos. case_decide; lia.
Qed.

Lemma serve_mono evs s s' o : serve evs s = Some (s', o) -> vle (localClock s) (localClock s').
Proof.
  revert s o. induction evs as [|ev evs IH]; intros s o; cbn [serve].
  { intros [= <- <-]. apply vle_refl. }
  destruct (step ev s) as [[s1 o1]|] eqn:E1; [|done].
  destruct (serve evs s1) as [[s2 o2]|] eqn:E2; [|done]. intros [= <- <-].
  eapply vle_trans; [by eapply step_mono|by eapply IH].
Qed.

Lemma step_blocked w ev s s' o :
  waiter_of ev = [] -> Waiters.PeekMin (waitingTMs s) = Some w -> step ev s = Some (s', o) ->
  IsLowerOrEqual (targetClk w) (Some (localClock s')) = false ->
  o = [] /\ waitingTMs s' = waitingTMs s.
Proof.
  intros Hno Hw. destruct ev as [e req|id v]; cbn [step].
  - destruct (handleCommitReply req e s) as [[[[] s1] o1]|] eqn:E; [|done]. intros [= <- <-].
    revert E. unfold handleCommitReply. intros E.
    eapply (blocked_bind w); [..|exact Hw|exact E].
    + by apply blocked_request.
    + apply blocked_flush.
    + intros. apply local_mono_request.
    + intros. apply local_mono_flush.
  - intros [= <- <-] _. done.
Qed.

Lemma serve_blocked w evs s s' o :
  concat (map waiter_of evs) = [] -> Waiters.PeekMin (waitingTMs s) = Some w ->
  serve evs s = Some (s', o) ->
  IsLowerOrEqual (targetClk w) (Some (localClock s')) = false ->
  o = [] /\ waitingTMs s' = waitingTMs s.
Proof.
  revert s o. induction evs as [|ev evs IH]; intros s o Hno Hw; cbn [serve].
  { by intros [= <- <-]. }
  cbn [map concat] in Hno. apply app_eq_nil in Hno as [Hn1 Hn2].
  destruct (step ev s) as [[s1 o1]|] eqn:E1; [|done].
  destruct (serve evs s1) as [[s2 o2]|] eqn:E2; [|done]. intros [= <- <-] Hlow.
  assert (Hlow1 : IsLowerOrEqual (targetClk w) (Some (localClock s1)) = false).
  { apply not_true_iff_false. intros Ht.
    by rewrite (IsLowerOrEqual_mono _ _ _ Ht (serve_mono _ _ _ _ E2)) in Hlow. }
  destruct (step_blocked w ev s s1 o1 Hn1 Hw E1 Hlow1) as [-> Ew]. rewrite <- Ew in Hw |- *.
  destruct (IH s1 o2 Hn2 Hw E2 Hlow) as [-> ->]. done.
Qed.

(** C38. [ClockHeap.Less] compares an entry with itself, so the heap keeps the
    newest waiter at its root: as long as the newest waiter's clock is not
    reached, no waiter is answered, whatever commits complete and however low
    the clocks the older waiters need. *)
Theorem newest_waiter_blocks_the_others (e : ChanEnv) (w : TMWaitClock) (s s1 s2 : CommitState)
    (o1 o2 : list ClockReply) (evs : list Event) :
  step (Message e (TMWait w)) s = Some (s1, o1) ->
  concat (map waiter_of evs) = [] -> serve evs s1 = Some (s2, o2) ->
  IsLowerOrEqual (targetClk w) (Some (localClock s2)) = false ->
  o1 = [] /\ o2 = [] /\ entries (waitingTMs s2) ≡ₚ w :: entries (waitingTMs s).
Proof.
  intros E1 Hno E2 Hlow.
  assert (Hlow1 : IsLowerOrEqual (targetClk w) (Some (localClock s1)) = false).
  { apply not_true_iff_false. intros Ht.
    by rewrite (IsLowerOrEqual_mono _ _ _ Ht (serve_mono _ _ _ _ E2)) in Hlow. }
  assert (Er : handleRequest (TMWait w) e s =
    match pushWaiter (waitingTMs s) w with
    | Some h => Some (tt, set_waiting h s, [])
    | None => None
    end) by (unfold handleRequest, bind; cbn; by destruct (pushWaiter _ _)).
  cbn [step] in E1. unfold handleCommitReply, bind in E1. rewrite Er in E1.
  destruct (pushWaiter (waitingTMs s) w) as [c'|] eqn:Ep; [|done].
  destruct (pushWaiter_Some _ _ _ Ep) as [Hp Hroot].
  destruct (flushStacked e (set_waiting c' s)) as [[[u s1'] o1']|] eqn:Ef; [|done].
  cbn [app] in E1. injection E1 as -> ->.
  destruct (blocked_flush w e (set_waiting c' s) Hroot _ _ _ Ef) as [_ Hb].
  destruct (Hb Hlow1) as [-> Ew]. cbn [waitingTMs set_waiting] in Ew.
  rewrite <- Ew in Hroot. destruct (serve_blocked w evs s1 s2 o2 Hno Hroot E2 Hlow) as [-> Ew2].
  by rewrite Ew2, Ew.
Qed.

Definition ex_blocked : list Event := [
  Message (mkChan 0 0 4) (TMCommitNPartitions 1 7 {[1 := 5]});
  Message (mkChan 0 0 4) (TMPartCommitReply 7)].

Lemma newest_waiter_blocks_the_others_witness :
  let low := mkWait {[1 := 1]} 40 in let high := mkWait {[1 := 9]} 41 in
  let s := set_waiting (mkWaiters [low]) (initialState {[1 := 0]}) in
  exists s1 o1 s2 o2,
    step (Message (mkChan 0 0 4) (TMWait high)) s = Some (s1, o1) /\
    serve ex_blocked s1 = Some (s2, o2) /\
    IsLowerOrEqual (targetClk low) (Some (localClock s2)) = true /\
    o1 = [] /\ o2 = [] /\ entries (waitingTMs s2) ≡ₚ high :: entries (waitingTMs s).
Proof.
  intros low high s.
  set (s1 := set_waiting (mkWaiters [high; low]) s).
  set (s2 := set_local {[1 := 5]} 1 s1).
  assert (E1 : step (Message (mkChan 0 0 4) (TMWait high)) s = Some (s1, []))
    by (vm_compute; reflexivity).
  assert (E2 : serve ex_blocked s1 = Some (s2, [])) by (vm_compute; reflexivity).
  assert (Hlow : IsLowerOrEqual (targetClk high) (Some (localClock s2)) = false)
    by (vm_compute; reflexivity).
  exists s1, [], s2, []. split; [exact E1|]. split; [exact E2|].
  split; [vm_compute; reflexivity|].
  exact (newest_waiter_blocks_the_others (mkChan 0 0 4) high s s1 s2 [] [] ex_blocked
           E1 eq_refl E2 Hlow).
Defined.
