(* ===== verification/Logger.v ===== *)
(** * The log of a partition: logger.go (src/potionDB/components)

    Each partition has a logger goroutine.  The partition logs its commits; the
    replicator asks for the transactions logged since its last question, which
    the logger answers when the partition sends a safe clock, or after a
    timeout.  The answer holds a Go slice of the logger's array, not a copy, and
    the logger starts over at position 0: [store] holds the arrays and [slice]
    what an answer points to, so that reading an answer is an event of its own
    ([Receive], the replicator's [append(cacheEntry, reply.upds...)]). *)

From S2P Require Import Prelude ClockSI Effects Keys.
From Stdlib Require Import ZArith Lia Bool.
From stdpp Require Import base tactics numbers strings gmap list.
#[local] Open Scope nat_scope.
#[local] Open Scope eff_scope.

Record PairClockUpdates (Upd : Type) := mkPair {
    clk : vclock; upds : list (UpdateObjectParams Upd) }.
Arguments mkPair {Upd}. Arguments clk {Upd}. Arguments upds {Upd}.

Section logger.
Context {Upd : Type}.
Abbreviation Pair := (PairClockUpdates Upd).

(** The zero value of the entries that no transaction has been written to. *)
Definition zeroPair : Pair := mkPair ∅ [].

(** [arr[lo:hi]] *)
Record slice := mkSlice { arr : nat; lo : nat; hi : nat }.

Record StableClkUpdatesPair := mkReply {
  txns : option slice; stableClock : vclock; partID : Z }.

(** [replReplyChan] and [timer]: whether they are not nil. *)
Record MemLogger := mkLogger {
  store : list (list Pair);
  log : nat;
  lastSharedPos : nat;
  currentTxnPos : nat;
  partId : Z;
  replReplyChan : bool;
  timer : bool
}.

(** [grow c] is the capacity Go's [append] gives to a full array of capacity
    [c]; it is more than [c]. *)
Record LogEnv := mkLogEnv { IsLogDisabled : bool; grow : nat -> nat }.

Inductive LogOut :=
  | Reply (r : StableClkUpdatesPair)
  | MatSafeClkRequest (partId : Z).

Abbreviation L := (M LogEnv MemLogger LogOut).

Definition initLogCapacity : nat := 1000.
Definition keepWholeLog : bool := false.

Definition Initialize (id : Z) : MemLogger :=
  mkLogger [replicate initLogCapacity zeroPair] 0 0 0 id false false.

(** A new array: answers that still point to the old one keep it. *)
Definition Reset : L unit :=
  modify (fun s => mkLogger (store s ++ [replicate initLogCapacity zeroPair]) (length (store s)) 0 0
                   (partId s) (replReplyChan s) (timer s)).

Definition set_positions (last cur : nat) (s : MemLogger) : MemLogger :=
  mkLogger (store s) (log s) last cur (partId s) (replReplyChan s) (timer s).
Definition set_reply (r t : bool) (s : MemLogger) : MemLogger :=
  mkLogger (store s) (log s) (lastSharedPos s) (currentTxnPos s) (partId s) r t.
Definition set_store (st : list (list Pair)) (l : nat) (s : MemLogger) : MemLogger :=
  mkLogger st l (lastSharedPos s) (currentTxnPos s) (partId s) (replReplyChan s) (timer s).

(** The slice [logger.log], all of whose capacity is in use. *)
Definition logArray (s : MemLogger) : list Pair := default [] (store s !! log s).

Definition handleCommitLogRequest (TxnClk : vclock) (Upds : list (UpdateObjectParams Upd)) : L unit :=
  e <- ask ;;
  s <- get ;;
  if IsLogDisabled e then ret tt
  else
  let entry := mkPair TxnClk Upds in
  (if currentTxnPos s =? length (logArray s)
   then
     let grown := logArray s ++ [entry] in
     modify (set_store (store s ++ [grown ++ replicate (grow e (length (logArray s)) - length grown)
                                               zeroPair]) (length (store s)))
   else modify (set_store (<[log s := <[currentTxnPos s := entry]> (logArray s)]> (store s)) (log s))) ;;;
  modify (set_positions (lastSharedPos s) (currentTxnPos s + 1)).

Definition handleTxnLogRequest : L unit :=
  e <- ask ;;
  s <- get ;;
  if IsLogDisabled e then emit (Reply (mkReply None (NewTimestampFromId 0) (partId s)))
  else
  modify (set_reply true true) ;;;
  emit (MatSafeClkRequest (partId s)).

Definition handleMatClkRequest (Clk : vclock) : L unit :=
  s <- get ;;
  (if timer s then ret tt else panic) ;;;
  if negb (replReplyChan s) then ret tt
  else
  txns <- (if lastSharedPos s =? currentTxnPos s then ret None
           else
             modify (set_positions (if keepWholeLog then currentTxnPos s else 0)
                       (if keepWholeLog then currentTxnPos s else 0)) ;;;
             ret (Some (mkSlice (log s) (lastSharedPos s) (currentTxnPos s)))) ;;
  emit (Reply (mkReply txns Clk (partId s))) ;;;
  modify (set_reply false (timer s)).

(** What a slice holds now. *)
Definition contents (s : MemLogger) (sl : slice) : list Pair :=
  take (hi sl - lo sl) (drop (lo sl) (default [] (store s !! arr sl))).

Definition handleClkTimeoutRequest : L unit :=
  s <- get ;;
  if negb (replReplyChan s) || (lastSharedPos s =? currentTxnPos s) then ret tt
  else
  let txns := mkSlice (log s) (lastSharedPos s) (currentTxnPos s) in
  modify (set_positions (if keepWholeLog then currentTxnPos s else 0)
            (if keepWholeLog then currentTxnPos s else 0)) ;;;
  lastTxn <- must (last (contents s txns)) ;;
  emit (Reply (mkReply (Some txns) (ClockSI.Copy (clk lastTxn)) (partId s))) ;;;
  modify (set_reply false (timer s)).

Inductive LoggerRequest :=
  | CommitLogRequest (TxnClk : vclock) (Upds : list (UpdateObjectParams Upd))
  | TxnLogRequest
  | ClkLogRequest (Clk : vclock)
  | LogClkTimeoutRequest.

Definition handleRequest (req : LoggerRequest) : L unit :=
  match req with
  | TxnLogRequest => handleTxnLogRequest
  | CommitLogRequest c u => handleCommitLogRequest c u
  | ClkLogRequest c => handleMatClkRequest c
  | LogClkTimeoutRequest => handleClkTimeoutRequest
  end.

(** ** The logger and the replicator that reads its answers *)

(** [inflight] are the answers in the replicator's channel, oldest first;
    [received] what the replicator has read out of them. *)
Record LogSystem := mkSystem {
  logger : MemLogger; inflight : list StableClkUpdatesPair; received : list Pair }.

Inductive LogEvent :=
  | Serve (req : LoggerRequest)
  | Receive.

Definition replies_of (o : list LogOut) : list StableClkUpdatesPair :=
  flat_map (fun x => match x with Reply r => [r] | _ => [] end) o.

Definition read_reply (s : MemLogger) (r : StableClkUpdatesPair) : list Pair :=
  match txns r with Some sl => contents s sl | None => [] end.

Definition step (e : LogEnv) (ev : LogEvent) (sys : LogSystem) : option LogSystem :=
  match ev with
  | Serve req =>
    match handleRequest req e (logger sys) with
    | None => None
    | Some (_, l', o) => Some (mkSystem l' (inflight sys ++ replies_of o) (received sys))
    end
  | Receive =>
    match inflight sys with
    | [] => Some sys
    | r :: rest => Some (mkSystem (logger sys) rest (received sys ++ read_reply (logger sys) r))
    end
  end.

Fixpoint run (e : LogEnv) (evs : list LogEvent) (sys : LogSystem) : option LogSystem :=
  match evs with
  | [] => Some sys
  | ev :: evs => match step e ev sys with Some sys => run e evs sys | None => None end
  end.

Definition start (id : Z) : LogSystem := mkSystem (Initialize id) [] [].

(** The transactions logged by a sequence of events. *)
Definition committed (ev : LogEvent) : list Pair :=
  match ev with Serve (CommitLogRequest c u) => [mkPair c u] | _ => [] end.
Definition logged (evs : list LogEvent) : list Pair := concat (map committed evs).

(** ** Every logged transaction reaches the replicator *)

(** Transactions logged but not answered with yet. *)
Definition unsent (s : MemLogger) : list Pair :=
  contents s (mkSlice (log s) (lastSharedPos s) (currentTxnPos s)).

Definition sent (sys : LogSystem) : list Pair :=
  received sys ++ concat (map (read_reply (logger sys)) (inflight sys)).

Record log_ok (sys : LogSystem) (l : list Pair) : Prop := {
  ok_array : (log (logger sys) < length (store (logger sys)))%nat;
  ok_last : lastSharedPos (logger sys) = 0;
  ok_cur : currentTxnPos (logger sys) <= length (logArray (logger sys));
  ok_all : sent sys ++ unsent (logger sys) = l
}.

(** The replicator reads each answer before the next commit is logged, and the
    partition sends safe clocks only when asked. *)
Definition prompt (ev : LogEvent) (sys : LogSystem) : bool :=
  match ev with
  | Serve (CommitLogRequest _ _) => match inflight sys with [] => true | _ => false end
  | Serve (ClkLogRequest _) => timer (logger sys)
  | _ => true
  end.

Fixpoint prompt_run (e : LogEnv) (evs : list LogEvent) (sys : LogSystem) : bool :=
  match evs with
  | [] => true
  | ev :: evs =>
    prompt ev sys &&
    match step e ev sys with Some sys => prompt_run e evs sys | None => true end
  end.

Lemma logArray_lookup s : (log s < length (store s))%nat -> store s !! log s = Some (logArray s).
Proof. intros [a Ha]%lookup_lt_is_Some_2. unfold logArray. by rewrite Ha. Qed.

Lemma unsent_take s : lastSharedPos s = 0 -> unsent s = take (currentTxnPos s) (logArray s).
Proof.
  intros E. unfold unsent, contents. cbn [lo hi arr]. by rewrite E, Nat.sub_0_r, drop_0.
Qed.

(** Writing at the end of the used part of an array. *)
Lemma take_insert_snoc {A} (l : list A) n x :
  n < length l -> take (n + 1) (<[n := x]> l) = take n l ++ [x].
Proof.
  intros Hn. replace (n + 1) with (S n) by lia.
  rewrite (take_S_r _ _ x) by by apply list_lookup_insert_eq.
  by rewrite take_insert_ge.
Qed.

Lemma commit_unsent e s s' o c u :
  IsLogDisabled e = false -> (log s < length (store s))%nat -> lastSharedPos s = 0 ->
  currentTxnPos s <= length (logArray s) ->
  handleCommitLogRequest c u e s = Some (tt, s', o) ->
  o = [] /\ (log s' < length (store s'))%nat /\ lastSharedPos s' = 0 /\
  currentTxnPos s' <= length (logArray s') /\ unsent s' = unsent s ++ [mkPair c u] /\
  replReplyChan s' = replReplyChan s /\ timer s' = timer s.
Proof.
  intros He Hl Hlast Hcur. unfold handleCommitLogRequest. cbn [bind ask get]. rewrite He.
  rewrite (unsent_take s) by done.
  destruct (Nat.eqb_spec (currentTxnPos s) (length (logArray s))) as [E|E];
  cbn [bind modify]; intros [= <- <-]; (split; [done|]).
  - set (grown := (logArray s ++ [mkPair c u]) ++ _).
    set (s' := set_positions _ _ _).
    assert (Ea : logArray s' = grown).
  { unfold logArray. cbn. rewrite list_lookup_middle; [done|done]. }
    assert (Hlen : length (logArray s) + 1 <= length grown)
    by (unfold grown; rewrite !length_app; simpl; lia).
    split; [cbn; rewrite length_app; simpl; lia|]. split; [done|].
    split; [rewrite Ea; cbn; lia|]. split; [|done].
    rewrite unsent_take by done. rewrite Ea. cbn. unfold grown.
    rewrite E, (take_ge (logArray s)) by done.
    rewrite take_app_le by (rewrite length_app; simpl; lia).
    apply take_ge. rewrite length_app. simpl. lia.
  - set (s' := set_positions _ _ _).
    assert (Ea : logArray s' = <[currentTxnPos s := mkPair c u]> (logArray s)).
  { unfold logArray at 1. cbn. by rewrite list_lookup_insert_eq. }
    split; [cbn; by rewrite length_insert|]. split; [done|].
    split; [rewrite Ea, length_insert; cbn; lia|]. split; [|done].
    rewrite unsent_take by done. rewrite Ea. cbn. apply take_insert_snoc. lia.
Qed.

(** Answering only moves the transactions from the log to the answer. *)
Definition answered (s s' : MemLogger) (r : StableClkUpdatesPair) : Prop :=
  store s' = store s /\ log s' = log s /\ lastSharedPos s' = 0 /\ currentTxnPos s' = 0 /\
  read_reply s' r = unsent s.

Lemma clk_answered e s c :
  timer s = true -> lastSharedPos s = 0 ->
  exists s' o, handleMatClkRequest c e s = Some (tt, s', o) /\
  ((o = [] /\ s' = s) \/ exists r, o = [Reply r] /\ stableClock r = c /\ answered s s' r).
Proof.
  intros Ht Hlast. unfold handleMatClkRequest. cbn [bind get]. rewrite Ht. cbn [ret].
  destruct (replReplyChan s); cbn [negb].
  2:{ eexists _, _. split; [reflexivity|]. by left. }
  destruct (Nat.eqb_spec (lastSharedPos s) (currentTxnPos s)) as [E|E];
  eexists _, _; (split; [reflexivity|]); right; eexists; (split; [reflexivity|]);
  (split; [done|]).
  - split; [done|]. split; [done|]. split; [done|]. split; [cbn; congruence|].
    unfold read_reply, unsent, contents. cbn. by rewrite <- E, Nat.sub_diag.
  - by split.
Qed.

Lemma timeout_answered e s :
  (log s < length (store s))%nat -> lastSharedPos s = 0 ->
  currentTxnPos s <= length (logArray s) ->
  exists s' o, handleClkTimeoutRequest e s = Some (tt, s', o) /\
  ((o = [] /\ s' = s) \/
   exists r lastTxn, o = [Reply r] /\ answered s s' r /\
     last (unsent s) = Some lastTxn /\ stableClock r = clk lastTxn).
Proof.
  intros Hl Hlast Hcur. unfold handleClkTimeoutRequest. cbn [bind get].
  destruct (negb (replReplyChan s) || (lastSharedPos s =? currentTxnPos s)) eqn:E.
  { eexists _, _. split; [reflexivity|]. by left. }
    apply orb_false_iff in E as [_ E]. apply Nat.eqb_neq in E.
    destruct (last (unsent s)) as [t|] eqn:Elast.
    2:{ apply last_None in Elast. rewrite unsent_take in Elast by done.
    apply (f_equal length) in Elast. rewrite length_take in Elast. cbn in Elast. lia. }
    cbn [modify]. unfold unsent in Elast. rewrite Elast.
    eexists _, _. split; [reflexivity|]. right. eexists _, t. split; [reflexivity|].
    split; [done|]. split; [done|]. apply Copy_id.
Qed.

Lemma initial_log_ok id : log_ok (start id) [].
Proof.
  split; cbn [start logger Initialize log store lastSharedPos currentTxnPos]; [simpl; lia|done|lia|].
  unfold sent, unsent, contents. cbn. done.
Qed.

(** An answer that is sent joins the ones on their way. *)
Lemma answered_ok sys s' r l :
  log_ok sys l -> answered (logger sys) s' r ->
  log_ok (mkSystem s' (inflight sys ++ [r]) (received sys)) l.
Proof.
  intros [Ha Hl Hc Hall] (Est & Elog & Elast & Ecur & Er).
  assert (Ec : forall r', read_reply s' r' = read_reply (logger sys) r').
  { intros r'. unfold read_reply, contents. by rewrite Est. }
    split; cbn [logger inflight received].
  - by rewrite Est, Elog.
  - done.
  - lia.
  - rewrite <- Hall. unfold sent. cbn [logger inflight received].
    rewrite map_app, concat_app, (map_ext _ _ Ec). cbn [map concat]. rewrite Er.
    rewrite (unsent_take s') by done. rewrite Ecur, take_0, !app_nil_r. by rewrite app_assoc.
Qed.

Lemma same_ok sys l : log_ok sys l -> log_ok (mkSystem (logger sys) (inflight sys ++ []) (received sys)) l.
Proof. rewrite app_nil_r. by destruct sys. Qed.

Lemma step_log_ok e ev sys l :
  IsLogDisabled e = false -> log_ok sys l -> prompt ev sys = true ->
  exists sys', step e ev sys = Some sys' /\ log_ok sys' (l ++ committed ev).
Proof.
  intros He Hok Hp. pose proof Hok as [Ha Hl Hc Hall].
  destruct ev as [[c u| |c|]|]; cbn [step handleRequest committed]; rewrite ?app_nil_r.
  - cbn [prompt] in Hp. destruct (inflight sys) eqn:Ei; [|done].
    destruct (handleCommitLogRequest c u e (logger sys)) as [[[[] s'] o]|] eqn:E.
    2:{ exfalso. revert E. unfold handleCommitLogRequest. cbn [bind ask get]. rewrite He.
      by destruct (currentTxnPos (logger sys) =? length (logArray (logger sys))). }
    destruct (commit_unsent e (logger sys) s' o c u) as (-> & ? & ? & ? & Eu & _); try done.
    eexists. split; [done|]. split; try done. unfold sent. cbn [replies_of flat_map logger inflight received].
    rewrite app_nil_r. cbn [map concat]. rewrite ?app_nil_r, Eu, app_assoc. f_equal.
    rewrite <- Hall. unfold sent. rewrite Ei. cbn [map concat]. by rewrite app_nil_r.
  - unfold handleTxnLogRequest. cbn [bind ask get]. rewrite He. cbn.
    eexists. split; [done|]. rewrite app_nil_r. by split.
  - destruct (clk_answered e (logger sys) c Hp Hl) as (s' & o & E & Ho). rewrite E.
    eexists. split; [done|]. destruct Ho as [[-> ->]|(r & -> & _ & Hans)].
  + by apply same_ok.
  + by apply answered_ok.
  - destruct (timeout_answered e (logger sys) Ha Hl Hc) as (s' & o & E & Ho). rewrite E.
    eexists. split; [done|]. destruct Ho as [[-> ->]|(r & t & -> & Hans & _)].
  + by apply same_ok.
  + by apply answered_ok.
  - destruct (inflight sys) as [|r rest] eqn:Ei; [by eexists|].
    eexists. split; [done|]. split; try done. rewrite <- Hall. unfold sent.
    cbn [logger inflight received]. rewrite Ei. cbn [map concat]. by rewrite !app_assoc.
Qed.

Lemma run_log_ok e evs sys l :
  IsLogDisabled e = false -> log_ok sys l -> prompt_run e evs sys = true ->
  exists sys', run e evs sys = Some sys' /\ log_ok sys' (l ++ logged evs).
Proof.
  intros He. revert sys l. induction evs as [|ev evs IH]; intros sys l Hok Hp; cbn [run].
  { eexists. split; [done|]. unfold logged. cbn. by rewrite app_nil_r. }
    cbn [prompt_run] in Hp. apply andb_true_iff in Hp as [Hp1 Hp2].
    destruct (step_log_ok e ev sys l He Hok Hp1) as (sys1 & E1 & Hok1). rewrite E1 in *.
    destruct (IH _ _ Hok1 Hp2) as (sys2 & E2 & Hok2). exists sys2. split; [done|].
    unfold logged in *. cbn [map concat]. by rewrite app_assoc.
Qed.

(** C35. When the replicator reads each answer before the partition logs another
    commit, the logger never panics, whatever the order of its requests and of
    the timeouts, and it loses, duplicates and reorders nothing: what the
    replicator has received, followed by what the answers on their way hold and
    by what is still to be sent, is exactly the sequence of logged transactions
    (also across the growth of the log). *)
Theorem log_reaches_the_replicator (e : LogEnv) (id : Z) (evs : list LogEvent) :
  IsLogDisabled e = false -> prompt_run e evs (start id) = true ->
  exists sys, run e evs (start id) = Some sys /\
  received sys ++ concat (map (read_reply (logger sys)) (inflight sys)) ++
    unsent (logger sys) = logged evs.
Proof.
  intros He Hp. destruct (run_log_ok e evs (start id) [] He (initial_log_ok id) Hp) as (sys & E & Hok).
  exists sys. split; [done|]. destruct Hok as [_ _ _ Hall]. rewrite app_assoc. exact Hall.
Qed.

(** An answer points into the logger's array, and the next commit is written
    over it: if a second transaction commits between the answer and the moment
    the replicator reads it, the first transaction is never received and the
    second one is received twice. *)
Theorem late_receive_loses_a_transaction (e : LogEnv) (id : Z) (c1 c2 safe1 safe2 : vclock)
  (u1 u2 : list (UpdateObjectParams Upd)) :
  IsLogDisabled e = false ->
  let evs := [Serve (CommitLogRequest c1 u1); Serve TxnLogRequest; Serve (ClkLogRequest safe1);
            Serve (CommitLogRequest c2 u2); Receive;
            Serve TxnLogRequest; Serve (ClkLogRequest safe2); Receive] in
  logged evs = [mkPair c1 u1; mkPair c2 u2] /\
  exists sys, run e evs (start id) = Some sys /\
  received sys = [mkPair c2 u2; mkPair c2 u2] /\ inflight sys = [] /\ unsent (logger sys) = [].
Proof.
  intros He evs. split; [done|].
  destruct e as [dis g]. cbn in He. subst dis.
  eexists. split; [vm_compute; reflexivity|].
  split; [vm_compute; reflexivity|]. split; vm_compute; reflexivity.
Qed.
End logger.
Arguments LoggerRequest : clear implicits.
Arguments LogEvent : clear implicits.
Arguments MemLogger : clear implicits.
Arguments LogSystem : clear implicits.

Definition ex_log_env : LogEnv := mkLogEnv false (fun c => 2 * c).

Lemma log_reaches_the_replicator_witness :
    let evs : list (LogEvent Z) :=
      [Serve (CommitLogRequest {[1%Z := 5%Z]} []); Serve TxnLogRequest; Serve LogClkTimeoutRequest;
       Receive; Serve (CommitLogRequest {[1%Z := 6%Z]} []); Serve TxnLogRequest;
       Serve (ClkLogRequest {[1%Z := 7%Z]})] in
    (exists sys, run ex_log_env evs (start 0) = Some sys /\
      received sys ++ concat (map (read_reply (logger sys)) (inflight sys)) ++
        unsent (logger sys) = logged evs) /\
    length (logged evs) = 2.
Proof.
    intros evs. split; [|reflexivity].
    apply (log_reaches_the_replicator ex_log_env 0 evs); vm_compute; reflexivity.
Defined.

Lemma late_receive_loses_a_transaction_witness :
    let evs : list (LogEvent Z) :=
      [Serve (CommitLogRequest {[1%Z := 5%Z]} []); Serve TxnLogRequest;
       Serve (ClkLogRequest {[1%Z := 5%Z]}); Serve (CommitLogRequest {[1%Z := 6%Z]} []); Receive;
       Serve TxnLogRequest; Serve (ClkLogRequest {[1%Z := 7%Z]}); Receive] in
    logged evs = [mkPair {[1%Z := 5%Z]} []; mkPair {[1%Z := 6%Z]} []] /\
    exists sys, run ex_log_env evs (start 0) = Some sys /\
      received sys = [mkPair {[1%Z := 6%Z]} []; mkPair {[1%Z := 6%Z]} []] /\
      inflight sys = [] /\ unsent (logger sys) = [].
Proof.
    intros evs.
    exact (late_receive_loses_a_transaction ex_log_env 0 {[1%Z := 5%Z]} {[1%Z := 6%Z]} {[1%Z := 5%Z]}
             {[1%Z := 7%Z]} [] [] eq_refl).
Defined.
