(* ===== verification/Replicator.v ===== *)
(** * The replicator: replicator.go (src/potionDB/components)

    The replicator asks every partition's logger for its new transactions, merges
    the partitions' logs into transactions of the whole replica, in clock order
    and up to the lowest stable clock, and sends them to the other replicas, one
    by one or in groups with the same dependencies.

    [txnCache] holds, for each partition, the transactions not sent yet and, last,
    the partition's stable clock with no updates.  Answers of the loggers are
    lists here: file Logger models how they are read.  [TxnID] and the
    bounds of a group are filled in by the connection (file RemoteConn).  Joining a
    running group of replicas is in file Joining. *)

From S2P Require Import Prelude ClockSI Keys PartitionClock Logger.
From Stdlib Require Import ZArith Lia Bool.
From stdpp Require Import base tactics numbers strings gmap sorting list.
#[local] Open Scope Z_scope.

Record RemoteTxn (Upd : Type) := mkRemoteTxn {
    SenderID : Z; Clk : vclock; Upds : gmap Z (list (UpdateObjectParams Upd)); TxnID : Z }.
Arguments mkRemoteTxn {Upd}. Arguments SenderID {Upd}. Arguments Clk {Upd}. Arguments Upds {Upd}.
Arguments TxnID {Upd}.

Record RemoteTxnGroup (Upd : Type) := mkRemoteGroup {
    g_SenderID : Z; Txns : list (RemoteTxn Upd); MinTxnID : Z; MaxTxnID : Z }.
Arguments mkRemoteGroup {Upd}. Arguments g_SenderID {Upd}. Arguments Txns {Upd}.
Arguments MinTxnID {Upd}. Arguments MaxTxnID {Upd}.

Definition minTxnsToGroup : nat := 15.
Definition maxTxnsPerGroup : nat := 1000.

Section replicator.
Context {Upd : Type}.
Abbreviation Pair := (PairClockUpdates Upd).
Abbreviation Cache := (gmap Z (list Pair)).

Record Replicator := mkReplicator {
  txnCache : Cache;
  replicaID : Z;
  localPartitions : nat
}.

Definition partIDs (n : nat) : list Z := map Z.of_nat (seq 0 n).

Definition Reset (known : list Z) (id : Z) (n : nat) : Replicator :=
  mkReplicator (list_to_map (map (fun part => (part, [mkPair (NewTimestamp known) []])) (partIDs n)))
  id n.

(** A logger's answer: the partition, its transactions and its stable clock. *)
Record LogReply := mkLogReply { lr_partID : Z; lr_upds : list Pair; lr_stableClock : vclock }.

(** One answer in [getNewTxns]: the old stable clock makes room for the new
    transactions and the new stable clock. *)
Definition addReply (cache : Cache) (reply : LogReply) : Cache :=
  let cacheEntry := default [] (cache !! lr_partID reply) in
  let cacheEntry := take (length cacheEntry - 1) cacheEntry in
  <[lr_partID reply := (cacheEntry ++ lr_upds reply) ++ [mkPair (lr_stableClock reply) []]]> cache.

(** [None]: [partEntry[len(partEntry)-1]] of an empty cache entry panics. *)
Definition getNewTxns (repl : Replicator) (replies : list LogReply) : option Replicator :=
  if forallb (fun id => match txnCache repl !! id with Some (_ :: _) => true | _ => false end)
     (partIDs (localPartitions repl))
  then Some (mkReplicator (foldl addReply (txnCache repl) replies) (replicaID repl)
             (localPartitions repl))
  else None.

Record Scan := mkScan {
  sc_cache : Cache;
  minClk : vclock;
  txnUpdates : gmap Z (list (UpdateObjectParams Upd));
  foundStableClk : bool
}.

(** The body of the loop over the partitions. *)
Definition scanPartition (sc : Scan) (id : Z) : option Scan :=
  match sc_cache sc !! id with
  | Some (firstEntry :: _) =>
    match Compare (clk firstEntry) (Some (minClk sc)) with
    | LowerTs =>
        if (length (upds firstEntry) =? 0)%nat
        then Some (mkScan (<[id := [firstEntry]]> (sc_cache sc)) (clk firstEntry)
                     {[id := upds firstEntry]} true)
        else Some (mkScan (sc_cache sc) (clk firstEntry) {[id := upds firstEntry]} false)
    | EqualTs =>
        if (length (upds firstEntry) =? 0)%nat
        then Some (mkScan (<[id := [firstEntry]]> (sc_cache sc)) (minClk sc)
                     (<[id := upds firstEntry]> (txnUpdates sc)) true)
        else Some (mkScan (sc_cache sc) (minClk sc)
                     (<[id := upds firstEntry]> (txnUpdates sc)) (foundStableClk sc))
    | _ => Some sc
    end
  | _ => None
  end.

Fixpoint scanPartitions (sc : Scan) (ids : list Z) : option Scan :=
  match ids with
  | [] => Some sc
  | id :: ids =>
    match scanPartition sc id with Some sc => scanPartitions sc ids | None => None end
  end.

(** [for id := range txnUpdates { repl.txnCache[id] = repl.txnCache[id][1:] }] *)
Definition dropFirst (cache : Cache) (ids : list Z) : Cache :=
  foldl (fun cache id => <[id := tail (default [] (cache !! id))]> cache) cache ids.

(** Every iteration but the last sends at least one entry of the cache. *)
Fixpoint prepare_loop (fuel : nat) (repl : Replicator) (cache : Cache) (toSend : list (RemoteTxn Upd))
  : option (list (RemoteTxn Upd) * Cache) :=
  match fuel with
  | O => None
  | S fuel =>
    match cache !! 0 with
    | Some (first :: _) =>
        match scanPartitions (mkScan cache (clk first) ∅ false) (partIDs (localPartitions repl)) with
        | None => None
        | Some sc =>
            if foundStableClk sc then Some (toSend, sc_cache sc)
            else
              prepare_loop fuel repl
                (dropFirst (sc_cache sc) (map fst (map_to_list (txnUpdates sc))))
                (toSend ++ [mkRemoteTxn (replicaID repl) (minClk sc) (txnUpdates sc) 0])
        end
    | _ => None
    end
  end.

Definition cacheSize (cache : Cache) : nat :=
  sum_list_with (fun e => length e.2) (map_to_list cache).

Definition preparateDataToSend (repl : Replicator) : option (list (RemoteTxn Upd) * Replicator) :=
  match prepare_loop (S (cacheSize (txnCache repl))) repl (txnCache repl) [] with
  | Some (toSend, cache) =>
    Some (toSend, mkReplicator cache (replicaID repl) (localPartitions repl))
  | None => None
  end.

(** ** Sending *)

Inductive ReplOut :=
  | SendTxnsIndividually (txns : list (RemoteTxn Upd))
  | SendGroupTxn (txns : list (RemoteTxn Upd))
  | SendStableClk (ts : Z).

(** The length of the longest prefix whose clocks have the dependencies of
    [firstClk]. *)
Fixpoint sameDeps (self : Z) (firstClk : vclock) (txns : list (RemoteTxn Upd)) : nat :=
  match txns with
  | [] => 0
  | txn :: txns =>
    if IsEqualExceptForSelf (Clk txn) (Some firstClk) self
    then S (sameDeps self firstClk txns) else 0
  end.

(** Every round sends at least one transaction. *)
Fixpoint sendGroup_loop (fuel : nat) (self : Z) (toSend : list (RemoteTxn Upd)) : option (list ReplOut) :=
  match toSend with
  | [] => Some []
  | first :: _ =>
    match fuel with
    | O => None
    | S fuel =>
        let currTxns := take (Nat.min (length toSend) maxTxnsPerGroup) toSend in
        let end_ := sameDeps self (Clk first) currTxns in
        let currTxns := take end_ currTxns in
        let out := if (end_ <? minTxnsToGroup / 2)%nat
                   then SendTxnsIndividually currTxns else SendGroupTxn currTxns in
        match sendGroup_loop fuel self (drop end_ toSend) with
        | Some rest => Some (out :: rest)
        | None => None
        end
    end
  end.

Definition sendGroupTxns (repl : Replicator) (toSend : list (RemoteTxn Upd)) : option (list ReplOut) :=
  sendGroup_loop (length toSend) (replicaID repl) toSend.

Definition sendTxns (repl : Replicator) (toSend : list (RemoteTxn Upd)) : option (list ReplOut) :=
  match last toSend with
  | None => None
  | Some lastTxn =>
    match (if (minTxnsToGroup <=? length toSend)%nat then sendGroupTxns repl toSend
           else Some [SendTxnsIndividually toSend]) with
    | Some out => Some (out ++ [SendStableClk (GetPos (Clk lastTxn) (replicaID repl))])
    | None => None
    end
  end.

(** One iteration of [replicateCycle], with the answers of the loggers. *)
Definition replicateCycle (repl : Replicator) (replies : list LogReply)
  : option (list ReplOut * Replicator) :=
  match getNewTxns repl replies with
  | None => None
  | Some repl =>
    match preparateDataToSend repl with
    | None => None
    | Some (toSend, repl) =>
        match toSend with
        | [] => Some ([], repl)
        | _ => match sendTxns repl toSend with
               | Some out => Some (out, repl)
               | None => None
               end
        end
    end
  end.

(** ** The cache *)

Definition clk_lt (a b : vclock) : Prop := vle a b /\ a <> b.

Definition entryOf (cache : Cache) (id : Z) : list Pair := default [] (cache !! id).
Definition headOf (cache : Cache) (id : Z) : option Pair := entryOf cache id !! 0%nat.

(** The entry of a partition: transactions in clock order, none of them empty,
    then the stable clock, at or above all of them. *)
Definition entry_ok (l : list Pair) : Prop := exists ts st,
  l = ts ++ [st] /\ upds st = [] /\ Forall (fun p => upds p <> []) ts /\
  StronglySorted (fun p q => clk_lt (clk p) (clk q)) ts /\
  Forall (fun p => vle (clk p) (clk st)) ts.

(** Every partition's entry is such, and the clocks of all of them are over the
    replicas [D] and comparable. *)
Record cache_ok (D : gset Z) (n : nat) (cache : Cache) : Prop := {
  ok_entries : forall id, id ∈ partIDs n -> entry_ok (entryOf cache id);
  ok_chain : clk_chain D clk (concat (map (entryOf cache) (partIDs n)))
}.

Lemma elem_of_entries n cache p :
  p ∈ concat (map (entryOf cache) (partIDs n)) <->
  exists id, id ∈ partIDs n /\ p ∈ entryOf cache id.
Proof.
  rewrite list_elem_of_In, in_concat. setoid_rewrite in_map_iff. split.
  - intros (l & (id & <- & Hid) & Hp). exists id. by rewrite !list_elem_of_In.
  - intros (id & Hid%list_elem_of_In & Hp%list_elem_of_In). eauto.
Qed.

Lemma headOf_elem cache id p : headOf cache id = Some p -> p ∈ entryOf cache id.
Proof. unfold headOf. apply list_elem_of_lookup_2. Qed.

Lemma headOf_lookup cache id p :
  headOf cache id = Some p -> exists l, cache !! id = Some (p :: l).
Proof.
  unfold headOf, entryOf. destruct (cache !! id) as [[|q l]|]; try done.
  intros [= ->]. eauto.
Qed.

Lemma entry_ok_head l : entry_ok l -> exists p, l !! 0%nat = Some p.
Proof. intros (ts & st & -> & _). destruct ts; eauto. Qed.

(** The shape alone, whatever the clocks are: transactions, then one entry
    without updates. *)
Definition entry_shape (l : list Pair) : Prop := exists ts st,
  l = ts ++ [st] /\ upds st = [] /\ Forall (fun p => upds p <> []) ts.

Lemma entry_ok_shape l : entry_ok l -> entry_shape l.
Proof. intros (ts & st & H1 & H2 & H3 & _). by exists ts, st. Qed.

(** An empty head is the stable clock, alone in its entry. *)
Lemma entry_ok_stable l p : entry_shape l -> l !! 0%nat = Some p -> upds p = [] -> l = [p].
Proof.
  intros (ts & st & -> & _ & Hne) Hp Hu. destruct ts as [|q ts]; [by injection Hp as ->|].
  injection Hp as ->. apply Forall_cons in Hne as [? _]. done.
Qed.

Lemma entry_ok_tail l p l' :
  entry_ok l -> l = p :: l' -> upds p <> [] ->
  entry_ok l' /\ Forall (fun q => upds q <> [] -> clk_lt (clk p) (clk q)) l'.
Proof.
  intros (ts & st & -> & Hst & Hne & Hs & Hle) E Hu.
  destruct ts as [|q ts]; [injection E as -> _; done|]. injection E as -> <-.
  apply Forall_cons in Hne as [_ Hne], Hle as [_ Hle].
  apply StronglySorted_inv in Hs as [Hs Hlt]. split.
  - by exists ts, st.
  - apply Forall_app. split; [|by constructor]. eapply Forall_impl; [exact Hlt|]. auto.
Qed.

(** The head is a lowest entry. *)
Lemma entry_ok_head_le l p q :
  entry_ok l -> l !! 0%nat = Some p -> q ∈ l -> vle (clk p) (clk q).
Proof.
  intros (ts & st & -> & Hst & Hne & Hs & Hle) Hp Hq. destruct ts as [|r ts].
  { injection Hp as ->. apply elem_of_cons in Hq as [->|Hq]; [apply vle_refl|set_solver]. }
    injection Hp as ->. apply elem_of_app in Hq as [Hq|Hq].
  - apply elem_of_cons in Hq as [->|Hq]; [apply vle_refl|].
    apply StronglySorted_inv in Hs as [_ Hlt]. rewrite Forall_forall in Hlt. by apply Hlt.
  - apply list_elem_of_singleton in Hq as ->. by apply Forall_cons in Hle as [? _].
Qed.

Lemma Compare_chain a b :
  dom a = dom b -> vle a b \/ vle b a ->
  match Compare a (Some b) with
  | EqualTs => a = b
  | LowerTs => clk_lt a b
  | HigherTs => clk_lt b a
  | ConcurrentTs => False
  end.
Proof.
  intros Hd Hab. rewrite Compare_bools.
  pose proof (gt_in_vle a b Hd) as Hg. pose proof (lt_in_vle a b Hd) as Hl.
  destruct (lt_in a b), (gt_in a b); cbn [ts_result].
  - destruct Hab as [H|H]; [apply Hg in H|apply Hl in H]; done.
  - assert (Hv : vle a b) by by apply Hg. split; [done|]. intros ->.
    by pose proof (proj2 Hl (vle_refl _)).
  - assert (Hv : vle b a) by by apply Hl. split; [done|]. intros ->.
    by pose proof (proj2 Hg (vle_refl _)).
  - apply vle_antisym; [done|by apply Hg|by apply Hl].
Qed.

Lemma clk_lt_irrefl a : ~ clk_lt a a.
Proof. by intros [_ ?]. Qed.

Lemma clk_lt_le_trans D l (a b c : Pair) :
  clk_chain D clk l -> a ∈ l -> b ∈ l -> c ∈ l ->
  clk_lt (clk a) (clk b) -> vle (clk b) (clk c) -> clk_lt (clk a) (clk c).
Proof.
  intros Hc Ha Hb Hcl [Hab Hne] Hbc. split; [by eapply vle_trans|]. intros E.
  apply Hne. destruct (Hc a a Ha Ha) as [Da _], (Hc b b Hb Hb) as [Db _].
  apply vle_antisym; [unfold same_dom; congruence|done|]. by rewrite E.
Qed.

(** ** The scan of the partitions finds the lowest heads *)

Record scan_ok (cache : Cache) (seen : list Z) (sc : Scan) : Prop := {
  sc_same : sc_cache sc = cache;
  sc_head : exists id p, id ∈ 0 :: seen /\ headOf cache id = Some p /\ clk p = minClk sc;
  sc_low : forall id p, id ∈ seen -> headOf cache id = Some p -> vle (minClk sc) (clk p);
  sc_upds : forall id u, txnUpdates sc !! id = Some u <->
  id ∈ seen /\ exists p, headOf cache id = Some p /\ clk p = minClk sc /\ upds p = u;
  sc_found : foundStableClk sc = true <->
  exists id p, id ∈ seen /\ headOf cache id = Some p /\ clk p = minClk sc /\ upds p = []
}.

Lemma entries_comparable D n cache id1 id2 p q :
  cache_ok D n cache -> id1 ∈ partIDs n -> id2 ∈ partIDs n ->
  p ∈ entryOf cache id1 -> q ∈ entryOf cache id2 ->
  dom (clk p) = dom (clk q) /\ (vle (clk p) (clk q) \/ vle (clk q) (clk p)).
Proof.
  intros Hok H1 H2 Hp Hq. pose proof (ok_chain _ _ _ Hok) as Hc.
  assert (Hp' : p ∈ concat (map (entryOf cache) (partIDs n))) by (apply elem_of_entries; eauto).
  assert (Hq' : q ∈ concat (map (entryOf cache) (partIDs n))) by (apply elem_of_entries; eauto).
  destruct (Hc p q Hp' Hq'), (Hc q q Hq' Hq'). split; [congruence|done].
Qed.

(** The head of [id] becomes the lowest one. *)
Lemma scan_lower cache seen sc id p b :
  scan_ok cache seen sc -> id ∉ seen -> headOf cache id = Some p -> clk_lt (clk p) (minClk sc) ->
  (forall id' q, id' ∈ seen -> headOf cache id' = Some q -> clk q = clk p -> False) ->
  (b = true <-> upds p = []) ->
  scan_ok cache (id :: seen) (mkScan cache (clk p) {[id := upds p]} b).
Proof.
  intros Hok Hid Hp [Hlt Hne] Hseen Hb. split; cbn [sc_cache minClk txnUpdates foundStableClk].
  - done.
  - exists id, p. split; [set_solver|done].
  - intros id' q Hin Hq. apply elem_of_cons in Hin as [->|Hin].
  + rewrite Hp in Hq. injection Hq as ->. apply vle_refl.
  + eapply vle_trans; [exact Hlt|]. by eapply sc_low.
  - intros id' u. rewrite lookup_singleton_Some. split.
  + intros [<- <-]. split; [set_solver|]. by exists p.
  + intros [Hin (q & Hq & Eq & Eu)]. apply elem_of_cons in Hin as [->|Hin].
    * rewrite Hp in Hq. injection Hq as ->. done.
    * exfalso. by eapply Hseen.
  - rewrite Hb. split.
  + intros Hu. exists id, p. split; [set_solver|done].
  + intros (id' & q & Hin & Hq & Eq & Eu). apply elem_of_cons in Hin as [->|Hin].
    * rewrite Hp in Hq. by injection Hq as ->.
    * exfalso. by eapply Hseen.
Qed.

(** The head of [id] is as low as the lowest one. *)
Lemma scan_equal cache seen sc id p b :
  scan_ok cache seen sc -> id ∉ seen -> headOf cache id = Some p -> clk p = minClk sc ->
  (b = true <-> upds p = [] \/ foundStableClk sc = true) ->
  scan_ok cache (id :: seen) (mkScan cache (minClk sc) (<[id := upds p]> (txnUpdates sc)) b).
Proof.
  intros Hok Hid Hp Ep Hb. split; cbn [sc_cache minClk txnUpdates foundStableClk].
  - done.
  - exists id, p. split; [set_solver|done].
  - intros id' q Hin Hq. apply elem_of_cons in Hin as [->|Hin].
  + rewrite Hp in Hq. injection Hq as ->. rewrite Ep. apply vle_refl.
  + by eapply sc_low.
  - intros id' u. destruct (decide (id' = id)) as [->|Hne].
  + rewrite lookup_insert_eq. split.
    * intros [= <-]. split; [set_solver|]. by exists p.
    * intros [_ (q & Hq & _ & <-)]. rewrite Hp in Hq. by injection Hq as ->.
  + rewrite lookup_insert_ne by done. rewrite (sc_upds _ _ _ Hok). set_solver.
  - rewrite Hb, (sc_found _ _ _ Hok). split.
  + intros [Hu|(id' & q & Hin & Hq)]; [exists id, p|exists id', q]; set_solver.
  + intros (id' & q & Hin & Hq & Eq & Eu). apply elem_of_cons in Hin as [->|Hin].
    * left. rewrite Hp in Hq. by injection Hq as ->.
    * right. by exists id', q.
Qed.

Lemma scan_higher cache seen sc id p :
  scan_ok cache seen sc -> headOf cache id = Some p -> clk_lt (minClk sc) (clk p) ->
  scan_ok cache (id :: seen) sc.
Proof.
  intros Hok Hp [Hlt Hne]. destruct Hok as [Hs Hh Hl Hu Hf]. split.
  - done.
  - destruct Hh as (id' & q & Hin & Hq). exists id', q. set_solver.
  - intros id' q Hin Hq. apply elem_of_cons in Hin as [->|Hin]; [|by eapply Hl].
    rewrite Hp in Hq. by injection Hq as ->.
  - intros id' u. rewrite Hu. split; [set_solver|]. intros [Hin (q & Hq & Eq & Eu)].
    apply elem_of_cons in Hin as [->|Hin]; [|eauto].
    rewrite Hp in Hq. injection Hq as ->. congruence.
  - rewrite Hf. split; [set_solver|]. intros (id' & q & Hin & Hq & Eq & Eu).
    apply elem_of_cons in Hin as [->|Hin]; [|by exists id', q].
    rewrite Hp in Hq. injection Hq as ->. congruence.
Qed.

Lemma insert_stable_head cache id p :
  entry_shape (entryOf cache id) -> headOf cache id = Some p -> upds p = [] ->
  <[id := [p]]> cache = cache.
Proof.
  intros He Hp Hu. destruct (headOf_lookup _ _ _ Hp) as [l Hl].
  apply insert_id. rewrite Hl. f_equal.
  pose proof (entry_ok_stable _ _ He Hp Hu) as E. unfold entryOf in E. by rewrite Hl in E.
Qed.

Lemma scanPartition_ok D n cache seen sc id :
  cache_ok D n cache -> 0 ∈ partIDs n -> id ∈ partIDs n -> seen ⊆ partIDs n -> id ∉ seen ->
  scan_ok cache seen sc ->
  exists sc', scanPartition sc id = Some sc' /\ scan_ok cache (id :: seen) sc'.
Proof.
  intros Hok H0 Hid Hsub Hnew Hsc.
  pose proof (ok_entries _ _ _ Hok id Hid) as He.
  destruct (entry_ok_head _ He) as [p Hp]. change (headOf cache id = Some p) in Hp.
  destruct (headOf_lookup _ _ _ Hp) as [l Hl].
  unfold scanPartition. rewrite (sc_same _ _ _ Hsc), Hl.
  destruct (sc_head _ _ _ Hsc) as (id0 & p0 & Hin0 & Hp0 & E0).
  assert (Hid0 : id0 ∈ partIDs n) by (apply elem_of_cons in Hin0 as [->|?]; [done|by apply Hsub]).
  pose proof (entries_comparable D n cache id id0 p p0 Hok Hid Hid0
  (headOf_elem _ _ _ Hp) (headOf_elem _ _ _ Hp0)) as [Hd Hcmp].
  rewrite E0 in Hd, Hcmp. pose proof (Compare_chain _ _ Hd Hcmp) as HC.
  destruct (Compare (clk p) (Some (minClk sc))).
  - assert (Hb : forall b, (upds p = [] -> b = true) -> (upds p <> [] -> b = foundStableClk sc) ->
    b = true <-> upds p = [] \/ foundStableClk sc = true).
  { intros b H1 H2. destruct (upds p) as [|u us] eqn:Eu; [naive_solver|].
    rewrite H2 by done. naive_solver. }
    destruct (upds p) as [|u us] eqn:Eu; cbn [length Nat.eqb].
  + rewrite (insert_stable_head cache id p) by auto using entry_ok_shape. eexists. split; [done|].
    rewrite <- Eu. apply (scan_equal cache seen sc id p true); try done. rewrite Eu. by apply Hb.
  + eexists. split; [done|]. rewrite <- Eu.
    apply (scan_equal cache seen sc id p (foundStableClk sc)); try done. rewrite Eu. by apply Hb.
  - eexists. split; [done|]. by eapply scan_higher.
  - assert (Hseen : forall id' q, id' ∈ seen -> headOf cache id' = Some q -> clk q = clk p -> False).
  { intros id' q Hin Hq Eq. pose proof (sc_low _ _ _ Hsc id' q Hin Hq) as Hv. destruct HC as [Hv' Hne].
    apply Hne. apply vle_antisym; [done|done|]. by rewrite <- Eq. }
    destruct (upds p) as [|u us] eqn:Eu; cbn [length Nat.eqb].
  + rewrite (insert_stable_head cache id p) by auto using entry_ok_shape. eexists. split; [done|].
    rewrite <- Eu. by apply (scan_lower cache seen sc id p true).
  + eexists. split; [done|]. rewrite <- Eu.
    apply (scan_lower cache seen sc id p false); try done. rewrite Eu. done.
  - done.
Qed.

Lemma scanPartitions_ok D n cache ids seen sc :
  cache_ok D n cache -> 0 ∈ partIDs n -> seen ++ ids ⊆ partIDs n -> NoDup (seen ++ ids) ->
  scan_ok cache seen sc ->
  exists sc', scanPartitions sc ids = Some sc' /\ scan_ok cache (rev ids ++ seen) sc'.
Proof.
  intros Hok H0. revert seen sc. induction ids as [|id ids IH]; intros seen sc Hsub Hnd Hsc.
  { by exists sc. }
    cbn [scanPartitions].
    assert (Hnew : id ∉ seen).
  { rewrite NoDup_app in Hnd. destruct Hnd as (_ & Hnd & _). intros Hin. apply (Hnd id Hin). set_solver. }
    destruct (scanPartition_ok D n cache seen sc id) as (sc1 & E1 & Hsc1); try done; [set_solver..|].
    rewrite E1. destruct (IH (id :: seen) sc1) as (sc2 & E2 & Hsc2); try done.
  - intros x Hx. apply Hsub. set_solver.
  - rewrite <- Permutation_middle in Hnd. exact Hnd.
  - exists sc2. split; [done|]. cbn [rev]. by rewrite <- app_assoc.
Qed.

(** ** Taking the lowest heads out of the cache *)

Lemma entryOf_insert (cache : Cache) id l id' :
  entryOf (<[id := l]> cache) id' = if decide (id = id') then l else entryOf cache id'.
Proof.
  unfold entryOf. case_decide as E; [subst; by rewrite lookup_insert_eq|by rewrite lookup_insert_ne].
Qed.

Lemma entryOf_dropFirst cache ids id :
  NoDup ids ->
  entryOf (dropFirst cache ids) id =
  if decide (id ∈ ids) then tail (entryOf cache id) else entryOf cache id.
Proof.
  unfold dropFirst. revert cache. induction ids as [|id0 ids IH]; intros cache Hnd; [done|].
  apply NoDup_cons in Hnd as [Hn Hnd]. cbn [foldl]. rewrite IH by done.
  rewrite entryOf_insert. fold (entryOf cache id0).
  destruct (decide (id0 = id)) as [->|Hne].
  - rewrite !decide_False by done. rewrite decide_True; [done|set_solver].
  - destruct (decide (id ∈ ids)).
  + rewrite decide_True; [done|set_solver].
  + rewrite decide_False; [done|set_solver].
Qed.

Lemma cacheSize_insert (cache : Cache) id l :
  cacheSize (<[id := l]> cache) = (length l + cacheSize (delete id cache))%nat.
Proof.
  unfold cacheSize. rewrite <- insert_delete_eq, map_to_list_insert by apply lookup_delete_eq.
  done.
Qed.

Lemma cacheSize_tail (cache : Cache) id :
  (cacheSize (<[id := tail (entryOf cache id)]> cache) + (if decide (entryOf cache id = []) then 0 else 1)
  = cacheSize cache)%nat.
Proof.
  rewrite cacheSize_insert. unfold entryOf. destruct (cache !! id) as [l|] eqn:E; cbn [default].
  - rewrite <- (insert_id cache id l E) at 2. rewrite cacheSize_insert.
    generalize (cacheSize (delete id cache)) as x. intros x.
    case_decide as El; cbn in El; [subst; cbn; lia|]. destruct l; [done|]. cbn. lia.
  - rewrite delete_id by done. case_decide; [cbn; lia|done].
Qed.

Lemma cacheSize_dropFirst cache ids : (cacheSize (dropFirst cache ids) <= cacheSize cache)%nat.
Proof.
  revert cache. induction ids as [|id ids IH]; intros cache; [done|].
  cbn. etransitivity; [apply IH|]. pose proof (cacheSize_tail cache id). unfold entryOf in *. lia.
Qed.

Lemma cacheSize_dropFirst_lt cache id ids :
  NoDup ids -> id ∈ ids -> entryOf cache id <> [] ->
  (cacheSize (dropFirst cache ids) < cacheSize cache)%nat.
Proof.
  revert cache. induction ids as [|id0 ids IH]; intros cache Hnd Hin Hne; [set_solver|].
  apply NoDup_cons in Hnd as [Hn Hnd]. cbn. fold (entryOf cache id0).
  pose proof (cacheSize_tail cache id0) as Ht.
  apply elem_of_cons in Hin as [->|Hin].
  - pose proof (cacheSize_dropFirst (<[id0 := tail (entryOf cache id0)]> cache) ids).
    rewrite decide_False in Ht by done. unfold dropFirst in *. lia.
  - specialize (IH (<[id0 := tail (entryOf cache id0)]> cache) Hnd Hin).
    rewrite entryOf_insert, decide_False in IH by (intros ->; done).
    specialize (IH Hne). unfold dropFirst in *. lia.
Qed.

(** The cache after one round that found no stable clock. *)
Definition afterRound (sc : Scan) (cache : Cache) : Cache :=
  dropFirst cache (map fst (map_to_list (txnUpdates sc))).

Lemma elem_of_txn_parts (m : gmap Z (list (UpdateObjectParams Upd))) id :
  id ∈ map fst (map_to_list m) <-> is_Some (m !! id).
Proof.
  rewrite list_elem_of_In, in_map_iff. split.
  - intros ([k u] & <- & H). apply list_elem_of_In, elem_of_map_to_list in H. by exists u.
  - intros [u Hu]. exists (id, u). split; [done|]. by apply list_elem_of_In, elem_of_map_to_list.
Qed.

Section round.
Context (D : gset Z) (n : nat) (cache : Cache) (sc : Scan).
Hypothesis Hok : cache_ok D n cache.
Hypothesis H0 : 0 ∈ partIDs n.
Hypothesis Hsc : scan_ok cache (rev (partIDs n)) sc.
Hypothesis Hnf : foundStableClk sc = false.

Lemma seen_iff id : id ∈ rev (partIDs n) <-> id ∈ partIDs n.
Proof. by rewrite !list_elem_of_In, <- in_rev. Qed.

(** What the round does to the entry of a partition. *)
Lemma round_entry id :
  id ∈ partIDs n ->
  exists p, headOf cache id = Some p /\
  ((clk p = minClk sc /\ upds p <> [] /\ txnUpdates sc !! id = Some (upds p) /\
  entryOf cache id = p :: entryOf (afterRound sc cache) id) \/
  (clk_lt (minClk sc) (clk p) /\ txnUpdates sc !! id = None /\
  entryOf (afterRound sc cache) id = entryOf cache id)).
Proof.
  intros Hid. destruct (entry_ok_head _ (ok_entries _ _ _ Hok id Hid)) as [p Hp].
  change (headOf cache id = Some p) in Hp. exists p. split; [done|].
  unfold afterRound. rewrite entryOf_dropFirst by apply NoDup_fst_map_to_list.
  pose proof (sc_upds _ _ _ Hsc id) as Hu.
  destruct (decide (clk p = minClk sc)) as [Ep|Ep].
  - left. assert (Hs : txnUpdates sc !! id = Some (upds p)).
  { apply Hu. split; [by apply seen_iff|]. by exists p. }
    split; [done|]. split; [|split; [done|]].
  + intros Eu. assert (Hf : foundStableClk sc = true); [|congruence].
    apply (sc_found _ _ _ Hsc). exists id, p. split; [by apply seen_iff|done].
  + rewrite decide_True by (apply elem_of_txn_parts; eauto).
    unfold headOf in Hp. destruct (entryOf cache id); [done|]. by injection Hp as ->.
  - right. assert (Hs : txnUpdates sc !! id = None).
  { destruct (txnUpdates sc !! id) as [u|] eqn:E; [|done].
    destruct (proj1 (Hu u) eq_refl) as (_ & q & Hq & Eq & _). rewrite Hp in Hq.
    by injection Hq as ->. }
    split; [|split; [done|]].
  + split; [|congruence]. apply (sc_low _ _ _ Hsc id p); [by apply seen_iff|done].
  + rewrite decide_False; [done|]. rewrite elem_of_txn_parts, Hs. by intros [? [=]].
Qed.

Lemma round_sub id p : id ∈ partIDs n -> p ∈ entryOf (afterRound sc cache) id -> p ∈ entryOf cache id.
Proof.
  intros Hid Hp. destruct (round_entry id Hid) as (q & _ & [(_ & _ & _ & ->)|(_ & _ & <-)]); [|done].
  by apply elem_of_cons; right.
Qed.

Lemma round_ok : cache_ok D n (afterRound sc cache).
Proof.
  split.
  - intros id Hid. pose proof (ok_entries _ _ _ Hok id Hid) as He.
    destruct (round_entry id Hid) as (p & Hp & [(_ & Hu & _ & E)|(_ & _ & ->)]); [|done].
    by destruct (entry_ok_tail _ _ _ He E Hu).
  - eapply chain_sub; [apply (ok_chain _ _ _ Hok)|]. intros p (id & Hid & Hp)%elem_of_entries.
    apply elem_of_entries. exists id. split; [done|]. by apply round_sub.
Qed.

(** Every transaction that is left is above the one that is sent. *)
Lemma round_above id p :
  id ∈ partIDs n -> p ∈ entryOf (afterRound sc cache) id -> upds p <> [] ->
  clk_lt (minClk sc) (clk p).
Proof.
  intros Hid Hp Hu. pose proof (ok_entries _ _ _ Hok id Hid) as He.
  destruct (round_entry id Hid) as (q & Hq & [(Eq & Hqu & _ & E)|(Hlt & _ & E)]).
  - destruct (entry_ok_tail _ _ _ He E Hqu) as [_ HF]. rewrite Forall_forall in HF.
    rewrite <- Eq. by apply HF.
  - rewrite E in Hp. pose proof (entry_ok_head_le _ q p He Hq Hp) as Hv.
    destruct (sc_head _ _ _ Hsc) as (id0 & p0 & Hin0 & Hp0 & E0).
    assert (Hid0 : id0 ∈ partIDs n).
  { apply elem_of_cons in Hin0 as [->|Hin0]; [done|]. by apply seen_iff. }
    rewrite <- E0 in Hlt |- *.
    eapply (clk_lt_le_trans D _ p0 q p (ok_chain _ _ _ Hok)); try done;
    apply elem_of_entries; eauto using headOf_elem.
Qed.

Lemma round_smaller : (cacheSize (afterRound sc cache) < cacheSize cache)%nat.
Proof.
  destruct (sc_head _ _ _ Hsc) as (id & p & Hin & Hp & E).
  assert (Hid : id ∈ partIDs n).
  { apply elem_of_cons in Hin as [->|Hin]; [done|]. by apply seen_iff. }
    apply cacheSize_dropFirst_lt with id.
  - apply NoDup_fst_map_to_list.
  - apply elem_of_txn_parts. exists (upds p). apply (sc_upds _ _ _ Hsc). split; [by apply seen_iff|].
    by exists p.
  - intros En. unfold headOf in Hp. by rewrite En in Hp.
Qed.
End round.

(** ** The merge *)

(** What a sequence of transactions holds for one partition. *)
Definition partOf (id : Z) (toSend : list (RemoteTxn Upd)) : list Pair :=
  omap (fun t => mkPair (Clk t) <$> Upds t !! id) toSend.

(** [merges cache new cache']: the transactions [new] are what has been taken
    out of the front of [cache] to get [cache']. *)
Record merges (D : gset Z) (n : nat) (self : Z) (cache : Cache) (new : list (RemoteTxn Upd))
  (cache' : Cache) : Prop := {
  mg_ok : cache_ok D n cache';
  mg_parts : forall id, id ∈ partIDs n -> entryOf cache id = partOf id new ++ entryOf cache' id;
  mg_sorted : StronglySorted clk_lt (map Clk new);
  mg_from : forall t, t ∈ new -> SenderID t = self /\
  exists id p, id ∈ partIDs n /\ p ∈ entryOf cache id /\ upds p <> [] /\ clk p = Clk t;
  mg_whole : forall t id p, t ∈ new -> id ∈ partIDs n -> p ∈ entryOf cache' id -> upds p <> [] ->
  clk_lt (Clk t) (clk p);
  mg_stable : exists id st, id ∈ partIDs n /\ entryOf cache' id = [st] /\ upds st = [] /\
  forall id' p, id' ∈ partIDs n -> p ∈ entryOf cache' id' -> vle (clk st) (clk p)
}.

Lemma merges_nil D n self cache sc :
  cache_ok D n cache -> 0 ∈ partIDs n -> scan_ok cache (rev (partIDs n)) sc ->
  foundStableClk sc = true -> merges D n self cache [] cache.
Proof.
  intros Hok H0 Hsc Hf. split; try done.
  - constructor.
  - intros t Ht. by apply elem_of_nil in Ht.
  - intros t id p Ht. by apply elem_of_nil in Ht.
  - destruct (proj1 (sc_found _ _ _ Hsc) Hf) as (id & st & Hid & Hst & Est & Eu).
    apply seen_iff in Hid. exists id, st. split; [done|].
    split; [by apply entry_ok_stable; [apply entry_ok_shape, (ok_entries _ _ _ Hok)|..]|]. split; [done|].
    intros id' p Hid' Hp. pose proof (ok_entries _ _ _ Hok id' Hid') as He.
    destruct (entry_ok_head _ He) as [q Hq].
    eapply vle_trans; [|exact (entry_ok_head_le _ q p He Hq Hp)].
    rewrite Est. eapply (sc_low _ _ _ Hsc id'); [by apply seen_iff|exact Hq].
Qed.

Lemma merges_cons D n self cache sc new cache' :
  cache_ok D n cache -> 0 ∈ partIDs n -> scan_ok cache (rev (partIDs n)) sc ->
  foundStableClk sc = false -> merges D n self (afterRound sc cache) new cache' ->
  merges D n self cache (mkRemoteTxn self (minClk sc) (txnUpdates sc) 0 :: new) cache'.
Proof.
  intros Hok H0 Hsc Hnf Hm. split.
  - apply Hm.
  - intros id Hid. pose proof (mg_parts _ _ _ _ _ _ Hm id Hid) as E.
    unfold partOf in *. cbn [omap list_omap Upds Clk].
    destruct (round_entry D n cache sc Hok Hsc Hnf id Hid)
    as (p & Hp & [(Ep & Hu & Es & Ee)|(Hlt & Es & Ee)]).
  + rewrite Es. cbn [fmap option_fmap option_map]. rewrite Ee, E, <- Ep. by destruct p.
  + rewrite Es. cbn [fmap option_fmap option_map]. by rewrite <- Ee, E.
  - cbn [map Clk]. constructor; [apply Hm|]. apply Forall_forall. intros c Hc.
    apply list_elem_of_In, in_map_iff in Hc as (t & <- & Ht%list_elem_of_In).
    destruct (mg_from _ _ _ _ _ _ Hm t Ht) as (_ & id & p & Hid & Hp & Hu & <-).
    by apply (round_above D n cache sc Hok H0 Hsc Hnf id p).
  - intros t Ht. apply elem_of_cons in Ht as [->|Ht].
  + split; [done|]. cbn [Clk].
    destruct (sc_head _ _ _ Hsc) as (id & p & Hin & Hp & E).
    assert (Hid : id ∈ partIDs n).
    { apply elem_of_cons in Hin as [->|Hin]; [done|]. by apply seen_iff. }
      exists id, p. split; [done|]. split; [by apply headOf_elem|]. split; [|done].
      destruct (round_entry D n cache sc Hok Hsc Hnf id Hid)
      as (q & Hq & [(_ & Hu & _)|([_ Hne] & _)]); rewrite Hp in Hq; injection Hq as ->; done.
  + destruct (mg_from _ _ _ _ _ _ Hm t Ht) as (Hs & id & p & Hid & Hp & Hu).
    split; [done|]. exists id, p. split; [done|]. split; [|done].
    by apply (round_sub D n cache sc Hok Hsc Hnf id p).
  - intros t id p Ht Hid Hp Hu. apply elem_of_cons in Ht as [->|Ht].
  + apply (round_above D n cache sc Hok H0 Hsc Hnf id p Hid); [|done].
    rewrite (mg_parts _ _ _ _ _ _ Hm id Hid). apply elem_of_app. by right.
  + by apply (mg_whole _ _ _ _ _ _ Hm t id p).
  - apply Hm.
Qed.

Lemma prepare_loop_ok D n fuel repl cache acc :
  localPartitions repl = n -> 0 ∈ partIDs n -> cache_ok D n cache -> (cacheSize cache < fuel)%nat ->
  exists new cache', prepare_loop fuel repl cache acc = Some (acc ++ new, cache') /\
  merges D n (replicaID repl) cache new cache'.
Proof.
  intros Hn H0. revert cache acc. induction fuel as [|fuel IH]; intros cache acc Hok Hf; [lia|].
  destruct (entry_ok_head _ (ok_entries _ _ _ Hok 0 H0)) as [first Hfirst].
  change (headOf cache 0 = Some first) in Hfirst.
  destruct (headOf_lookup _ _ _ Hfirst) as [l Hl]. cbn [prepare_loop]. rewrite Hl, Hn.
  destruct (scanPartitions_ok D n cache (partIDs n) [] (mkScan cache (clk first) ∅ false))
  as (sc & Esc & Hsc); try done.
  - unfold partIDs. apply NoDup_fmap_2; [|apply NoDup_ListNoDup, seq_NoDup].
    intros x y. apply Nat2Z.inj.
  - split; cbn [sc_cache minClk txnUpdates foundStableClk]; try done.
  + exists 0, first. split; [set_solver|done].
  + intros id p Hin. by apply elem_of_nil in Hin.
  + intros id u. rewrite lookup_empty. split; [done|]. by intros [Hin%elem_of_nil _].
  + split; [done|]. by intros (id & p & Hin%elem_of_nil & _).
  - rewrite app_nil_r in Hsc. rewrite Esc, (sc_same _ _ _ Hsc).
    destruct (foundStableClk sc) eqn:Hst.
  + exists [], cache. rewrite app_nil_r. split; [done|]. by eapply merges_nil.
  + fold (afterRound sc cache).
    destruct (IH (afterRound sc cache)
      (acc ++ [mkRemoteTxn (replicaID repl) (minClk sc) (txnUpdates sc) 0]))
      as (new & cache' & E & Hm).
    * by eapply round_ok.
    * pose proof (round_smaller n cache sc H0 Hsc). lia.
    * eexists _, cache'. rewrite E, <- app_assoc. split; [done|]. by eapply merges_cons.
Qed.

(** ** The merge of any clocks *)

(** Every partition's entry has transactions and one stable clock, with clocks
    over the replicas [D]; nothing is asked of the order of the clocks. *)
Definition cache_shape (D : gset Z) (n : nat) (cache : Cache) : Prop :=
  forall id, id ∈ partIDs n -> entry_shape (entryOf cache id) /\
    Forall (fun p => dom (clk p) = D) (entryOf cache id).

Lemma cache_ok_shape D n cache : cache_ok D n cache -> cache_shape D n cache.
Proof.
  intros [He Hc] id Hid. split; [by apply entry_ok_shape, He|]. apply Forall_forall.
  intros p Hp. apply (Hc p p); apply elem_of_entries; eauto.
Qed.

Lemma Compare_Equal a b : dom a = dom b -> Compare a (Some b) = EqualTs -> a = b.
Proof.
  intros Hd. rewrite Compare_bools.
  pose proof (gt_in_vle a b Hd) as Hg. pose proof (lt_in_vle a b Hd) as Hl.
  destruct (lt_in a b), (gt_in a b); cbn [ts_result]; try done.
  intros _. apply vle_antisym; [done|by apply Hg|by apply Hl].
Qed.

Lemma Compare_self c : Compare c (Some c) = EqualTs.
Proof.
  rewrite Compare_bools. pose proof (gt_in_vle c c eq_refl) as Hg.
  pose proof (lt_in_vle c c eq_refl) as Hl. pose proof (vle_refl c).
  destruct (lt_in c c); [by discriminate (proj2 Hl)|].
  destruct (gt_in c c); [by discriminate (proj2 Hg)|]. done.
Qed.

(** The scan collects heads that have the lowest clock found so far. *)
Record scan_heads (D : gset Z) (cache : Cache) (sc : Scan) : Prop := {
  sh_same : sc_cache sc = cache;
  sh_dom : dom (minClk sc) = D;
  sh_upds : forall id u, txnUpdates sc !! id = Some u -> headOf cache id = Some (mkPair (minClk sc) u);
  sh_full : foundStableClk sc = false -> forall id u, txnUpdates sc !! id = Some u -> u <> [];
  sh_found : foundStableClk sc = true -> exists id st, headOf cache id = Some st /\ upds st = []
}.

Lemma scanPartition_heads D n cache sc id :
  cache_shape D n cache -> id ∈ partIDs n -> scan_heads D cache sc ->
  exists sc', scanPartition sc id = Some sc' /\ scan_heads D cache sc' /\
    (txnUpdates sc <> ∅ \/ clk <$> headOf cache id = Some (minClk sc) -> txnUpdates sc' <> ∅).
Proof.
  intros Hc Hid [Hsame Hdom Hu Hfull Hfound]. destruct (Hc id Hid) as [Hsh Hd].
  assert (Hp : exists p, headOf cache id = Some p).
  { destruct Hsh as (ts & st & E & _). unfold headOf. rewrite E. destruct ts; eauto. }
  destruct Hp as [p Hp]. destruct (headOf_lookup _ _ _ Hp) as [l Hl].
  assert (Hdp : dom (clk p) = D).
  { rewrite Forall_forall in Hd. by apply Hd, headOf_elem. }
  assert (Hins : upds p = [] -> <[id := [p]]> cache = cache) by auto using insert_stable_head.
  unfold scanPartition. rewrite Hsame, Hl. destruct (Compare (clk p) (Some (minClk sc))) eqn:EC.
  - assert (Epc : clk p = minClk sc) by (apply Compare_Equal; [congruence|done]).
    assert (Hsc : forall f, (f = false -> foundStableClk sc = false /\ upds p <> []) ->
      (f = true -> foundStableClk sc = true \/ upds p = []) ->
      scan_heads D cache (mkScan cache (minClk sc) (<[id := upds p]> (txnUpdates sc)) f)).
    { intros f Hf Ht. split; cbn; try done.
      - intros id' u [[<- <-]|[_ Hid']]%lookup_insert_Some; [|by apply Hu].
        rewrite Hp, <- Epc. by destruct p.
      - intros E id' u [[<- <-]|[_ Hid']]%lookup_insert_Some; [by apply Hf|].
        apply (Hfull (proj1 (Hf E)) id' u Hid').
      - intros E. destruct (Ht E) as [Hst|He]; [by apply Hfound|by exists id, p]. }
    assert (Hne : <[id := upds p]> (txnUpdates sc) <> ∅) by apply insert_non_empty.
    destruct (Nat.eqb_spec (length (upds p)) 0) as [E%nil_length_inv|E].
    + rewrite Hins by done. eexists. split; [done|]. split; [apply Hsc; auto; done|]. by intros _.
    + eexists. split; [done|]. split; [|by intros _]. apply Hsc; [|auto].
      intros Hst. split; [done|]. intros E'. by rewrite E' in E.
  - exists sc. split; [done|]. split; [by split|]. intros [H|H]; [done|].
    rewrite Hp in H. injection H as H. rewrite H, Compare_self in EC. done.
  - assert (Hsc : forall f, (f = false <-> upds p <> []) ->
      scan_heads D cache (mkScan cache (clk p) {[id := upds p]} f)).
    { intros f Hf. split; cbn; try done.
      - intros id' u [<- <-]%lookup_singleton_Some. rewrite Hp. by destruct p.
      - intros E id' u [_ <-]%lookup_singleton_Some. by apply Hf.
      - intros ->. exists id, p. split; [done|]. destruct (upds p); [done|].
        by assert (true = false) by by apply Hf. }
    assert (Hne : {[id := upds p]} <> (∅ : gmap Z (list (UpdateObjectParams Upd))))
      by apply map_non_empty_singleton.
    destruct (Nat.eqb_spec (length (upds p)) 0) as [E%nil_length_inv|E].
    + rewrite Hins by done. eexists. split; [done|]. split; [|by intros _].
      apply Hsc. by split.
    + eexists. split; [done|]. split; [|by intros _]. apply Hsc. split; [|done].
      intros _ E'. by rewrite E' in E.
  - exists sc. split; [done|]. split; [by split|]. intros [H|H]; [done|].
    rewrite Hp in H. injection H as H. rewrite H, Compare_self in EC. done.
Qed.

Lemma scanPartitions_heads D n cache ids sc :
  cache_shape D n cache -> ids ⊆ partIDs n -> scan_heads D cache sc -> txnUpdates sc <> ∅ ->
  exists sc', scanPartitions sc ids = Some sc' /\ scan_heads D cache sc' /\ txnUpdates sc' <> ∅.
Proof.
  intros Hc. revert sc. induction ids as [|id ids IH]; intros sc Hsub Hsc Hne; [by exists sc|].
  cbn [scanPartitions].
  destruct (scanPartition_heads D n cache sc id) as (sc1 & -> & Hsc1 & Hne1); [done|set_solver|done|].
  apply IH; [set_solver|done|auto].
Qed.

(** A round that found no stable clock takes the heads of the transaction that
    it sends, and leaves the other entries. *)
Lemma round_heads D n cache sc id :
  cache_shape D n cache -> scan_heads D cache sc -> foundStableClk sc = false -> id ∈ partIDs n ->
  entryOf cache id =
    partOf id [mkRemoteTxn 0 (minClk sc) (txnUpdates sc) 0] ++ entryOf (afterRound sc cache) id /\
  entry_shape (entryOf (afterRound sc cache) id).
Proof.
  intros Hc Hsc Hf Hid. destruct (Hc id Hid) as [(ts & st & E & Hst & Hne) _].
  unfold afterRound. rewrite entryOf_dropFirst by apply NoDup_fst_map_to_list.
  unfold partOf. cbn [omap list_omap Upds Clk]. destruct (txnUpdates sc !! id) as [u|] eqn:Eu.
  - rewrite decide_True by (apply elem_of_txn_parts; eauto).
    pose proof (sh_upds _ _ _ Hsc id u Eu) as Hh. pose proof (sh_full _ _ _ Hsc Hf id u Eu) as Hu.
    unfold headOf in Hh. rewrite E in Hh |- *. destruct ts as [|p ts]; injection Hh as ->; [done|].
    split; [done|]. exists ts, st. split; [done|]. split; [done|]. by apply Forall_cons in Hne as [_ ?].
  - rewrite decide_False by (rewrite elem_of_txn_parts, Eu; by intros [? [=]]).
    split; [done|]. by exists ts, st.
Qed.

(** What holds of the merge whatever the clocks are. *)
Definition takes (n : nat) (cache : Cache) (new : list (RemoteTxn Upd)) (cache' : Cache) : Prop :=
  (forall id, id ∈ partIDs n -> entryOf cache id = partOf id new ++ entryOf cache' id) /\
  exists id st, headOf cache' id = Some st /\ upds st = [].

Lemma prepare_loop_takes D n fuel repl cache acc :
  localPartitions repl = n -> (0 < n)%nat -> cache_shape D n cache -> (cacheSize cache < fuel)%nat ->
  exists new cache', prepare_loop fuel repl cache acc = Some (acc ++ new, cache') /\ takes n cache new cache'.
Proof.
  intros Hn Hpos. revert cache acc. induction fuel as [|fuel IH]; intros cache acc Hc Hf; [lia|].
  destruct n as [|n']; [lia|]. set (n := S n') in *.
  assert (Hids : exists ids, partIDs n = 0 :: ids) by by eexists. destruct Hids as [ids Hids].
  assert (H0 : 0 ∈ partIDs n) by (rewrite Hids; by left).
  destruct (Hc 0 H0) as [(ts & st & E & _) Hd].
  assert (Hfirst : exists first, headOf cache 0 = Some first).
  { unfold headOf. rewrite E. destruct ts; eauto. }
  destruct Hfirst as [first Hfirst]. destruct (headOf_lookup _ _ _ Hfirst) as [l Hl].
  cbn [prepare_loop]. rewrite Hl, Hn, Hids. cbn [scanPartitions].
  destruct (scanPartition_heads D n cache (mkScan cache (clk first) ∅ false) 0 Hc H0)
    as (sc1 & -> & Hsc1 & Hne1).
  { split; cbn; try done. rewrite Forall_forall in Hd. by apply Hd, headOf_elem. }
  destruct (scanPartitions_heads D n cache ids sc1 Hc) as (sc & -> & Hsc & Hne).
  { rewrite Hids. set_solver. } { done. } { apply Hne1. right. by rewrite Hfirst. }
  rewrite (sh_same _ _ _ Hsc). destruct (foundStableClk sc) eqn:Hst.
  - exists [], cache. rewrite app_nil_r. split; [done|]. split; [done|]. by apply (sh_found _ _ _ Hsc).
  - fold (afterRound sc cache).
    pose proof (fun id => round_heads D n cache sc id Hc Hsc Hst) as Hround.
    destruct (IH (afterRound sc cache)
      (acc ++ [mkRemoteTxn (replicaID repl) (minClk sc) (txnUpdates sc) 0])) as (new & cache' & E' & Hp & Hs).
    + intros id Hid. destruct (Hround id Hid) as [E1 Hsh]. split; [done|].
      destruct (Hc id Hid) as [_ Hdid]. rewrite E1 in Hdid. by apply Forall_app in Hdid as [_ ?].
    + apply map_choose in Hne as (id & u & Hu).
      assert (cacheSize (afterRound sc cache) < cacheSize cache)%nat; [|lia].
      apply cacheSize_dropFirst_lt with id; [apply NoDup_fst_map_to_list|apply elem_of_txn_parts; eauto|].
      intros En. pose proof (sh_upds _ _ _ Hsc id u Hu) as Hh. unfold headOf in Hh. by rewrite En in Hh.
    + eexists _, cache'. rewrite E', <- app_assoc. split; [done|]. split; [|done].
      intros id Hid. destruct (Hround id Hid) as [-> _]. rewrite (Hp id Hid). unfold partOf.
      cbn [omap list_omap app Upds Clk]. destruct (txnUpdates sc !! id); done.
Qed.

(** C3. The replicator turns the logs of the partitions into transactions of the
    replica.  When every cache entry holds non-empty transactions followed by a
    stable clock, [preparateDataToSend] terminates (the fuel is enough), whatever
    the clocks are, and it neither loses, repeats nor reorders the transactions
    of a partition: those sent followed by those that stay in the cache are
    exactly what the cache held, with their clocks; it stops at a stable clock.

    When moreover the clocks of all partitions are comparable, each entry is in
    clock order and its stable clock is at or above all of it ([cache_ok]), the
    transactions sent have strictly increasing clocks; a transaction is sent
    whole, with the updates of all its partitions, because every transaction
    that stays has a higher clock than all that are sent; and the stable clock
    is at or below all that is left.  With concurrent clocks a transaction of
    two partitions may be sent in two parts: [concurrent_heads_split_a_txn]. *)
Theorem replica_log_is_merged (D : gset Z) (repl : Replicator) :
  (0 < localPartitions repl)%nat -> cache_shape D (localPartitions repl) (txnCache repl) ->
  exists toSend repl', preparateDataToSend repl = Some (toSend, repl') /\
  replicaID repl' = replicaID repl /\ localPartitions repl' = localPartitions repl /\
  takes (localPartitions repl) (txnCache repl) toSend (txnCache repl') /\
  (cache_ok D (localPartitions repl) (txnCache repl) ->
   merges D (localPartitions repl) (replicaID repl) (txnCache repl) toSend (txnCache repl')).
Proof.
  intros Hn Hshape. unfold preparateDataToSend.
  destruct (prepare_loop_takes D (localPartitions repl) (S (cacheSize (txnCache repl))) repl
  (txnCache repl) []) as (new & cache' & E & Ht); try done; [lia|].
  rewrite E. eexists _, _. split; [done|]. split; [done|]. split; [done|]. split; [done|]. intros Hok.
  destruct (prepare_loop_ok D (localPartitions repl) (S (cacheSize (txnCache repl))) repl
  (txnCache repl) []) as (new' & cache'' & E' & Hm); try done; [|lia|].
  { unfold partIDs. apply list_elem_of_In, in_map_iff. exists 0%nat. split; [done|].
    apply in_seq. lia. }
  rewrite E in E'. injection E' as -> ->. exact Hm.
Qed.

(** ** Sending in groups *)

Definition txns_of (o : ReplOut) : list (RemoteTxn Upd) :=
  match o with
  | SendTxnsIndividually l | SendGroupTxn l => l
  | SendStableClk _ => []
  end.

(** A group is not too large, and its transactions have the dependencies of the
    first. *)
Definition group_ok (self : Z) (o : ReplOut) : Prop :=
  match o with
  | SendGroupTxn g => (minTxnsToGroup / 2 <= length g <= maxTxnsPerGroup)%nat /\
    exists first, g !! 0%nat = Some first /\
      Forall (fun t => IsEqualExceptForSelf (Clk t) (Some (Clk first)) self = true) g
  | _ => True
  end.

Lemma IsEqualExceptForSelf_refl c self : IsEqualExceptForSelf c (Some c) self = true.
Proof.
  unfold IsEqualExceptForSelf.
  assert (H : forall l, (forall i v, (i, v) ∈ l -> GetPos c i = v) ->
  IsEqualExceptForSelf_loop l c self = true).
  { induction l as [|[i v] l IH]; intros Hl; cbn [IsEqualExceptForSelf_loop]; [done|].
    rewrite (Hl i v), Z.eqb_refl by set_solver. cbn [negb]. rewrite andb_false_r.
    apply IH. intros j w Hin. apply Hl. set_solver. }
    apply H. intros i v Hin. apply GetPos_lookup. by apply elem_of_map_to_list.
Qed.

Lemma sameDeps_le self c l : (sameDeps self c l <= length l)%nat.
Proof. induction l as [|t l IH]; cbn; [done|]. case_match; lia. Qed.

Lemma sameDeps_Forall self c l :
  Forall (fun t => IsEqualExceptForSelf (Clk t) (Some c) self = true) (take (sameDeps self c l) l).
Proof.
  induction l as [|t l IH]; cbn [sameDeps]; [constructor|].
  destruct (IsEqualExceptForSelf (Clk t) (Some c) self) eqn:E; cbn [take]; by constructor.
Qed.

Lemma sendGroup_loop_ok fuel self toSend :
  (length toSend <= fuel)%nat ->
  exists out, sendGroup_loop fuel self toSend = Some out /\
  concat (map txns_of out) = toSend /\ Forall (group_ok self) out.
Proof.
  revert toSend. induction fuel as [|fuel IH]; intros toSend Hf.
  { destruct toSend; [|cbn in Hf; lia]. by exists []. }
    destruct toSend as [|first rest]; [by exists []|]. cbn [sendGroup_loop].
    set (l := first :: rest) in *. set (curr := take (Nat.min (length l) maxTxnsPerGroup) l).
    set (e := sameDeps self (Clk first) curr).
    assert (Hcurr : exists curr', curr = first :: curr').
  { unfold curr, l, maxTxnsPerGroup. cbn [length].
    destruct (Nat.min (S (length rest)) 1000) eqn:En; [lia|]. cbn [take]. eauto. }
    destruct Hcurr as [curr' Ecurr].
    assert (He1 : (1 <= e)%nat).
  { unfold e. rewrite Ecurr. cbn [sameDeps]. rewrite IsEqualExceptForSelf_refl. lia. }
    pose proof (sameDeps_le self (Clk first) curr) as Hel. fold e in Hel.
    assert (Hlc : (length curr <= maxTxnsPerGroup)%nat /\ (length curr <= length l)%nat)
    by (unfold curr; rewrite length_take; lia).
    destruct (IH (drop e l)) as (out & Eo & Hc & Hg); [rewrite length_drop; lia|].
    rewrite Eo. eexists. split; [done|].
    assert (Etake : take e curr = take e l).
  { unfold curr in *. rewrite take_take. f_equal. rewrite length_take in Hel. lia. }
    split.
  - cbn [map concat]. rewrite Hc. case_match; cbn [txns_of]; rewrite Etake; apply take_drop.
  - constructor; [|exact Hg]. destruct (Nat.ltb_spec e (minTxnsToGroup / 2)); [done|].
    cbn [group_ok]. rewrite length_take. split; [lia|]. exists first. split.
  + rewrite Etake. unfold l. destruct e; [lia|done].
  + apply sameDeps_Forall.
Qed.

Lemma sendGroup_loop_data fuel self toSend out :
  sendGroup_loop fuel self toSend = Some out ->
  Forall (fun o => match o with SendStableClk _ => False | _ => True end) out.
Proof.
  revert toSend out. induction fuel as [|fuel IH]; intros [|first rest] out; cbn [sendGroup_loop]; try done.
  1,2: intros [= <-]; constructor.
  destruct (sendGroup_loop fuel self _) as [l|] eqn:E; [|done]. intros [= <-].
  constructor; [by repeat case_match|]. by eapply IH.
Qed.

Lemma sendTxns_outs (repl : Replicator) toSend outs :
  sendTxns repl toSend = Some outs ->
  exists out lastTxn, outs = out ++ [SendStableClk (GetPos (Clk lastTxn) (replicaID repl))] /\
    concat (map txns_of out) = toSend /\
    Forall (fun o => match o with SendStableClk _ => False | _ => True end) out /\
    last toSend = Some lastTxn.
Proof.
  unfold sendTxns, sendGroupTxns. destruct (last toSend) as [lastTxn|] eqn:Hl; [|done].
  destruct (Nat.leb_spec minTxnsToGroup (length toSend)).
  - destruct (sendGroup_loop_ok (length toSend) (replicaID repl) toSend) as (out & E & Hc & _); [done|].
    rewrite E. intros [= <-]. exists out, lastTxn. split; [done|]. split; [done|]. split; [|done].
    by eapply sendGroup_loop_data.
  - intros [= <-]. eexists [_], lastTxn. split; [done|]. cbn. rewrite app_nil_r. split; [done|]. by repeat constructor.
Qed.

(** [sendTxns] sends every transaction exactly once and in order, then the
    stable clock: below 15 transactions one by one; otherwise in chunks, of which
    a group never has more than 1000 transactions and never mixes transactions
    whose clocks differ outside the sender's own position. *)
Theorem sendTxns_sends_all_in_order (repl : Replicator) (toSend : list (RemoteTxn Upd)) (lastTxn : RemoteTxn Upd) :
  last toSend = Some lastTxn ->
  exists out,
  sendTxns repl toSend =
    Some (out ++ [SendStableClk (GetPos (Clk lastTxn) (replicaID repl))]) /\
  concat (map txns_of out) = toSend /\ Forall (group_ok (replicaID repl)) out /\
  ((length toSend < minTxnsToGroup)%nat -> out = [SendTxnsIndividually toSend]).
Proof.
  intros Hl. unfold sendTxns, sendGroupTxns. rewrite Hl.
  destruct (Nat.leb_spec minTxnsToGroup (length toSend)).
  - destruct (sendGroup_loop_ok (length toSend) (replicaID repl) toSend) as (out & E & Hc & Hg); [done|].
    rewrite E. exists out. split; [done|]. split; [done|]. split; [done|]. lia.
  - eexists. split; [done|]. cbn. rewrite app_nil_r. split; [done|]. split; [by constructor|done].
Qed.

(** The answers of the loggers keep the cache in order: new transactions are
    above the old ones and at or below the new stable clock. *)
Definition reply_ok (cache : Cache) (r : LogReply) : Prop :=
  Forall (fun p => upds p <> []) (lr_upds r) /\
  StronglySorted (fun p q => clk_lt (clk p) (clk q)) (lr_upds r) /\
  Forall (fun p => vle (clk p) (lr_stableClock r)) (lr_upds r) /\
  forall p, p ∈ entryOf cache (lr_partID r) -> vle (clk p) (lr_stableClock r) /\
  (upds p <> [] -> Forall (fun q => clk_lt (clk p) (clk q)) (lr_upds r)).

Lemma addReply_entry_ok cache r :
  entry_ok (entryOf cache (lr_partID r)) -> reply_ok cache r ->
  entry_ok (entryOf (addReply cache r) (lr_partID r)).
Proof.
  intros (ts & st & E & Hst & Hne & Hs & Hle) (Hrn & Hrs & Hrl & Hall).
  unfold addReply. rewrite entryOf_insert, decide_True by done. fold (entryOf cache (lr_partID r)).
  rewrite E, length_app, take_app_length' by (cbn; lia).
  exists (ts ++ lr_upds r), (mkPair (lr_stableClock r) []). split; [done|]. split; [done|].
  assert (Hin : forall p, p ∈ ts -> p ∈ entryOf cache (lr_partID r)).
  { intros p Hp. rewrite E. apply elem_of_app. by left. }
    rewrite Forall_forall in Hne. split; [apply Forall_app; by rewrite Forall_forall|]. split.
  - clear E Hst Hle. revert Hs Hin Hne. induction ts as [|t ts IH]; intros Hs Hin Hne; [done|].
    apply StronglySorted_inv in Hs as [Hs Hlt]. cbn [app]. constructor.
  + apply IH; [done|set_solver..].
  + apply Forall_app. split; [done|]. apply (Hall t); set_solver.
  - apply Forall_app. split; [|done]. apply Forall_forall. intros p Hp. by apply Hall, Hin.
Qed.

End replicator.
Arguments Replicator : clear implicits.

Module ReplicatorExample.
Definition upd : UpdateObjectParams Z := mkUpd (mkKey EmptyString 0 EmptyString) 1.
Definition c (v w : Z) : vclock := {[1 := v; 2 := w]}.
Definition log0 := [mkPair (c 5 0) [upd]; mkPair (c 9 2) []].
Definition log1 := [mkPair (c 5 0) [upd; upd]; mkPair (c 6 2) [upd]; mkPair (c 8 2) []].
Definition cache : gmap Z (list (PairClockUpdates Z)) := {[0 := log0; 1 := log1]}.
Definition repl : Replicator Z := mkReplicator cache 1 2.

(** Clocks along a path are comparable. *)
Lemma c_vle v w v' w' : v <= v' -> w <= w' -> vle (c v w) (c v' w').
Proof.
  intros Hv Hw i. unfold c. rewrite !GetPos_insert. case_decide; [done|].
  unfold GetPos. destruct (decide (i = 2)) as [->|].
  - by rewrite !lookup_singleton_eq.
  - by rewrite !lookup_singleton_ne.
Qed.

Lemma c_lt v w v' w' : v < v' -> w <= w' -> clk_lt (c v w) (c v' w').
Proof.
  intros Hv Hw. split; [apply c_vle; lia|]. intros E.
  apply (f_equal (fun m : vclock => GetPos m 1)) in E. unfold c in E. rewrite !GetPos_insert in E.
  rewrite !decide_True in E by done. lia.
Qed.

Lemma path_chain (l : list (PairClockUpdates Z)) :
  (forall p, p ∈ l -> clk p ∈ [c 5 0; c 6 2; c 8 2; c 9 2]) -> clk_chain {[1; 2]} clk l.
Proof.
  intros Hl a b Ha%Hl Hb%Hl. repeat rewrite elem_of_cons in Ha, Hb. rewrite elem_of_nil in Ha, Hb.
  destruct Ha as [Ha|[Ha|[Ha|[Ha|[]]]]], Hb as [Hb|[Hb|[Hb|[Hb|[]]]]]; rewrite Ha, Hb;
    (split; [by vm_compute|]); first [left; apply c_vle; lia|right; apply c_vle; lia].
Qed.

Lemma repl_ok : cache_ok {[1; 2]} 2 cache.
Proof.
  split.
  - intros id Hid. assert (id = 0 \/ id = 1) as [-> | ->] by (vm_compute in Hid; set_solver).
    + change (entryOf cache 0) with log0. exists [mkPair (c 5 0) [upd]], (mkPair (c 9 2) []).
      split_and!; [done|done|by repeat constructor|by repeat constructor|].
      repeat constructor. apply c_vle; lia.
    + change (entryOf cache 1) with log1.
      exists [mkPair (c 5 0) [upd; upd]; mkPair (c 6 2) [upd]], (mkPair (c 8 2) []).
      split_and!; [done|done|by repeat constructor|repeat constructor; apply c_lt; lia|].
      repeat constructor; apply c_vle; lia.
  - assert (E : concat (map (entryOf cache) (partIDs 2)) = log0 ++ log1) by (vm_compute; reflexivity).
    rewrite E. apply path_chain. intros p Hp. unfold log0, log1 in Hp. cbn [app] in Hp.
    repeat rewrite elem_of_cons in Hp. rewrite elem_of_nil in Hp.
    destruct Hp as [->|[->|[->|[->|[->|[]]]]]]; cbn [clk]; set_solver.
Qed.

(** Partition 0 committed (100,5) and nothing else, partition 1 committed the
    concurrent (150,3) before its part of (100,5). *)
Definition concurrent_cache : gmap Z (list (PairClockUpdates Z)) :=
  {[0 := [mkPair (c 100 5) [upd]; mkPair (c 200 9) []];
    1 := [mkPair (c 150 3) [upd]; mkPair (c 100 5) [upd]; mkPair (c 200 9) []]]}.
End ReplicatorExample.

Lemma replica_log_is_merged_witness :
    (exists toSend repl', preparateDataToSend ReplicatorExample.repl = Some (toSend, repl') /\
      takes 2 ReplicatorExample.cache toSend (txnCache repl') /\
      merges {[1; 2]} 2 1 ReplicatorExample.cache toSend (txnCache repl')) /\
    match preparateDataToSend ReplicatorExample.repl with
    | Some (toSend, _) => map Clk toSend = [ReplicatorExample.c 5 0; ReplicatorExample.c 6 2]
    | None => False
    end.
Proof.
    split; [|vm_compute; reflexivity].
    destruct (replica_log_is_merged {[1; 2]} ReplicatorExample.repl ltac:(cbn; lia)
      (cache_ok_shape _ _ _ ReplicatorExample.repl_ok)) as (toSend & repl' & E & _ & _ & Ht & Hm).
    exists toSend, repl'. split; [exact E|]. split; [exact Ht|]. exact (Hm ReplicatorExample.repl_ok).
Defined.

(** When the partitions' clocks are concurrent, the head that is taken is not a
    lowest one, and a transaction of two partitions is sent twice, each time with
    the updates of one of them. *)
Theorem concurrent_heads_split_a_txn :
  match preparateDataToSend (mkReplicator ReplicatorExample.concurrent_cache 1 2) with
  | Some (toSend, _) =>
      map (fun t => (Clk t, map fst (map_to_list (Upds t)))) toSend =
        [(ReplicatorExample.c 100 5, [0]); (ReplicatorExample.c 150 3, [1]);
         (ReplicatorExample.c 100 5, [1])]
  | None => False
  end.
Proof. vm_compute. reflexivity. Qed.

Lemma sendTxns_sends_all_in_order_witness :
    let txn v := mkRemoteTxn 1 {[1 := v; 2 := 0]} ∅ 0 : RemoteTxn Z in
    let toSend := map txn [1; 2; 3; 4; 5; 6; 7; 8; 9; 10; 11; 12; 13; 14; 15; 16] in
    (exists out,
      sendTxns (mkReplicator ∅ 1 2) toSend =
        Some (out ++ [SendStableClk (GetPos (Clk (txn 16)) 1)]) /\
      concat (map txns_of out) = toSend /\ Forall (group_ok 1) out /\
      ((length toSend < minTxnsToGroup)%nat -> out = [SendTxnsIndividually toSend])) /\
    sendTxns (mkReplicator ∅ 1 2) toSend = Some [SendGroupTxn toSend; SendStableClk 16].
Proof.
    intros txn toSend. split; [|vm_compute; reflexivity].
    exact (sendTxns_sends_all_in_order (mkReplicator ∅ 1 2) toSend (txn 16) eq_refl).
Defined.
