(* ===== verification/RemoteMsgs.v ===== *)
(** * Transactions of other replicas: handleRemoteMsgs and what it calls in
      transactionManager.go (src/potionDB/components)

    One goroutine handles what the replicator receives: stable clocks and
    transactions of other replicas, alone or in groups, and the messages with
    which the system starts.  A transaction is handed to the partitions when the
    replica's clock has all it depends on, otherwise it is queued.

    A message is an interface value; the handlers receive a pointer to it, and
    the pointer is what they queue: [QPtr].  [checkPendingRemoteTxns] looks for
    values: [QVal].  What the partitions answer is an input ([RemoteEnv]): file
    Materializer models it.  Triggers and the connection pool are left out. *)

From S2P Require Import Prelude ClockSI Effects Keys PartitionClock VersionManager.
From S2P Require Import Materializer.
From S2P Require Import Logger Replicator.
From Stdlib Require Import ZArith Lia Bool.
From stdpp Require Import base tactics numbers strings gmap sorting list.
#[local] Open Scope Z_scope.
#[local] Open Scope eff_scope.

Section remote.
Context {Upd : Type}.
Abbreviation updates := (list (UpdateObjectParams Upd)).

Inductive TMRemoteMsg :=
  | TMRemoteClk (ReplicaID StableTs : Z)
  | TMRemoteTxn (txn : RemoteTxn Upd)
  | TMRemoteTxnGroup (group : RemoteTxnGroup Upd)
  | TMReplicaID (ReplicaID : Z) (IP : string) (Buckets : list string)
  | TMApplySnapshot (Timestamp : vclock)
  | TMStart.

Inductive Queued :=
  | QVal (m : TMRemoteMsg)
  | QPtr (m : TMRemoteMsg).

(** [replicaIDs] is nil until the TM starts; [knownIDs] is the variable of
    package clocksi. *)
Record TMState := mkTM {
  localClock : vclock;
  downstreamQueue : gmap Z (list Queued);
  replicaIDs : option (list Z);
  knownIDs : list Z;
  remoteBks : list (list string);
  remoteIPs : list string;
  remoteIDToIndex : gmap Z Z;
  bucketToIndex : gmap string (list Z)
}.

(** The replica's own identifier, its number of partitions, and what partition
    [i] answers to the request of the handler and to the one for queued
    transactions. *)
Record RemoteEnv := mkRemoteEnv {
  replicaID : Z; nGoRoutines : nat; matReply : Z -> updates; pendingReply : Z -> updates }.

Inductive RemoteOut :=
  | MatClkPosUpd (part replicaID stableTs : Z)
  | MatRemoteTxnReq (part : Z) (txn : MatRemoteTxn Upd)
  | MatRemoteGroupTxnReq (part : Z) (txns : list (MatRemoteTxn Upd)) (FinalClk : vclock)
  | MatApplySnapshot (Timestamp : vclock)
  | DownstreamOps (ops : gmap Z updates)
  | NotifyClkReady
  | StatusBothReady
  | StatusReplReady.

Abbreviation R := (M RemoteEnv TMState RemoteOut).

Definition set_local (c : vclock) (s : TMState) : TMState :=
  mkTM c (downstreamQueue s) (replicaIDs s) (knownIDs s) (remoteBks s) (remoteIPs s)
  (remoteIDToIndex s) (bucketToIndex s).
Definition set_queue (q : gmap Z (list Queued)) (s : TMState) : TMState :=
  mkTM (localClock s) q (replicaIDs s) (knownIDs s) (remoteBks s) (remoteIPs s)
  (remoteIDToIndex s) (bucketToIndex s).

Definition queueOf (s : TMState) (id : Z) : list Queued := default [] (downstreamQueue s !! id).

Definition enqueue (id : Z) (m : TMRemoteMsg) : R unit :=
  modify (fun s => set_queue (<[id := queueOf s id ++ [QPtr m]]> (downstreamQueue s)) s).

(** [Txns] of a group that has no transactions is indexed out of range. *)
Definition getMinClk (g : RemoteTxnGroup Upd) : option vclock := Clk <$> (Txns g !! 0%nat).
Definition getMaxClk (g : RemoteTxnGroup Upd) : option vclock := Clk <$> last (Txns g).

Definition makeMatRemoteTxn (id : Z) (c : vclock) (upds : updates) : MatRemoteTxn Upd :=
  mkRemote id c upds.

(** [for i, upds := range txn.Upds { reqsPerPart[i] = append(...) }] *)
Fixpoint addParts (sender : Z) (c : vclock) (parts : list (Z * updates))
  (reqs : list (list (MatRemoteTxn Upd))) : option (list (list (MatRemoteTxn Upd))) :=
  match parts with
  | [] => Some reqs
  | (i, upds) :: parts =>
    match addTo reqs i (makeMatRemoteTxn sender c upds) with
    | Some reqs => addParts sender c parts reqs
    | None => None
    end
  end.

Fixpoint addTxns (sender : Z) (txns : list (RemoteTxn Upd))
  (reqs : list (list (MatRemoteTxn Upd))) : option (list (list (MatRemoteTxn Upd))) :=
  match txns with
  | [] => Some reqs
  | txn :: txns =>
    match addParts sender (Clk txn) (map_to_list (Upds txn)) reqs with
    | Some reqs => addTxns sender txns reqs
    | None => None
    end
  end.

(** Every transaction of the group gets the sender of the first one. *)
Definition splitGroupByPartition (n : nat) (toSplit : list (RemoteTxn Upd))
  : option (list (list (MatRemoteTxn Upd))) :=
  match toSplit with
  | [] => None
  | first :: _ => addTxns (SenderID first) toSplit (replicate n [])
  end.

(** ** The queued transactions *)

Record Pending := mkPending {
  copyClk : vclock;
  reqsPerPart : list (list (MatRemoteTxn Upd));
  foundSomething : bool;
  atLeastOne : bool;
  posToHide : nat
}.

Definition hideOne (c : vclock) (reqs : list (list (MatRemoteTxn Upd))) (p : Pending) : Pending :=
  mkPending c reqs true true (posToHide p + 1).

(** The type switch on one queued message; [break] leaves the switch only. *)
Definition checkQueued (self remoteID : Z) (q : Queued) (p : Pending) : option Pending :=
  match q with
  | QVal (TMRemoteTxn txn) =>
    if IsLowerOrEqualExceptFor (Clk txn) (Some (copyClk p)) self (SenderID txn) then
      match addParts remoteID (Clk txn) (map_to_list (Upds txn)) (reqsPerPart p) with
      | Some reqs =>
          Some (hideOne (UpdatePos (copyClk p) (SenderID txn) (GetPos (Clk txn) (SenderID txn))) reqs p)
      | None => None
      end
    else Some p
  | QVal (TMRemoteTxnGroup g) =>
    match getMaxClk g with
    | None => None
    | Some maxClk =>
        if IsLowerOrEqualExceptFor maxClk (Some (copyClk p)) self (g_SenderID g) then
          match addTxns remoteID (Txns g) (reqsPerPart p) with
          | Some reqs =>
              Some (hideOne (UpdatePos (copyClk p) (g_SenderID g) (GetPos maxClk (g_SenderID g))) reqs p)
          | None => None
          end
        else Some p
    end
  | QVal (TMRemoteClk id ts) => Some (hideOne (UpdatePos (copyClk p) id ts) (reqsPerPart p) p)
  | _ => Some p
  end.

Fixpoint checkMsgs (self remoteID : Z) (msgs : list Queued) (p : Pending) : option Pending :=
  match msgs with
  | [] => Some p
  | q :: msgs =>
    match checkQueued self remoteID q p with
    | Some p => checkMsgs self remoteID msgs p
    | None => None
    end
  end.

(** One pass over the queues, in the order Go's map iteration gives. *)
Fixpoint checkQueues (self : Z) (queues : list (Z * list Queued)) (q : gmap Z (list Queued)) (p : Pending)
  : option (gmap Z (list Queued) * Pending) :=
  match queues with
  | [] => Some (q, p)
  | (remoteID, msgs) :: queues =>
    match checkMsgs self remoteID msgs
            (mkPending (copyClk p) (reqsPerPart p) (foundSomething p) (atLeastOne p) 0) with
    | Some p => checkQueues self queues (<[remoteID := drop (posToHide p) msgs]> q) p
    | None => None
    end
  end.

Definition queuedMsgs (q : gmap Z (list Queued)) : nat :=
  sum_list_with (fun e => length e.2) (map_to_list q).

(** A pass that finds something hides at least one message. *)
Fixpoint checkPending_loop (fuel : nat) (self : Z) (q : gmap Z (list Queued)) (p : Pending)
  : option (gmap Z (list Queued) * Pending) :=
  match fuel with
  | O => None
  | S fuel =>
    match checkQueues self (map_to_list q) q
            (mkPending (copyClk p) (reqsPerPart p) false (atLeastOne p) (posToHide p)) with
    | Some (q, p) => if foundSomething p then checkPending_loop fuel self q p else Some (q, p)
    | None => None
    end
  end.

(** The replies of the partitions [parts], in partition order. *)
Definition newDowns (reply : Z -> updates) (parts : list Z) : gmap Z updates :=
  foldl (fun m i => if (0 <? length (reply i))%nat then <[i := reply i]> m else m) ∅ parts.

Definition sendDowns (downs : gmap Z updates) : R unit :=
  if bool_decide (downs = ∅) then ret tt else emit (DownstreamOps downs).

Definition emitGroups (FinalClk : vclock) (reqs : list (list (MatRemoteTxn Upd))) : R unit :=
  foldM (fun _ '(i, txns) => emit (MatRemoteGroupTxnReq (Z.of_nat i) txns FinalClk))
  (imap (fun i txns => (i, txns)) reqs) tt.

Definition checkPendingRemoteTxns (clk : vclock) : R unit :=
  e <- ask ;;
  s <- get ;;
  ' (q, p) <- must (checkPending_loop (S (queuedMsgs (downstreamQueue s))) (replicaID e)
                   (downstreamQueue s)
                   (mkPending clk (replicate (nGoRoutines e) []) true false 0)) ;;
  modify (set_queue q) ;;;
  if negb (atLeastOne p) then ret tt
  else
  emitGroups (copyClk p) (reqsPerPart p) ;;;
  modify (fun s => set_local (MergeInto (localClock s) (Some (copyClk p))) s) ;;;
  sendDowns (newDowns (pendingReply e) (partIDs (nGoRoutines e))).

(** [UpdatePos] under the lock, then a copy of the clock over the known
    identifiers: the slice has one position per identifier of [replicaIDs]. *)
Definition updateLocalClock (id ts : Z) : R vclock :=
  modify (fun s => set_local (UpdatePos (localClock s) id ts) s) ;;;
  s <- get ;;
  if (length (knownIDs s) <=? length (default [] (replicaIDs s)))%nat
  then ret (list_to_map (map (fun id => (id, GetPos (localClock s) id)) (knownIDs s)))
  else panic.

Definition processMatRemoteReply (parts : list Z) (id : Z) (clk : vclock) : R unit :=
  e <- ask ;;
  copyClk <- updateLocalClock id (GetPos clk id) ;;
  sendDowns (newDowns (matReply e) parts) ;;;
  checkPendingRemoteTxns copyClk.

Definition applyRemoteClk (ReplicaID StableTs : Z) : R unit :=
  e <- ask ;;
  s <- get ;;
  if (length (queueOf s ReplicaID) =? 0)%nat then
  foldM (fun _ i => emit (MatClkPosUpd i ReplicaID StableTs)) (partIDs (nGoRoutines e)) tt ;;;
  copyClk <- updateLocalClock ReplicaID StableTs ;;
  checkPendingRemoteTxns copyClk
  else enqueue ReplicaID (TMRemoteClk ReplicaID StableTs).

Definition applyRemoteTxnGroup (request : RemoteTxnGroup Upd) : R unit :=
  e <- ask ;;
  s <- get ;;
  minClk <- must (getMinClk request) ;;
  if IsLowerOrEqualExceptFor minClk (Some (localClock s)) (replicaID e) (g_SenderID request) then
  split <- must (splitGroupByPartition (nGoRoutines e) (Txns request)) ;;
  maxClk <- must (getMaxClk request) ;;
  emitGroups maxClk split ;;;
  processMatRemoteReply (partIDs (nGoRoutines e)) (g_SenderID request) maxClk
  else enqueue (g_SenderID request) (TMRemoteTxnGroup request).

(** [replyChans[i]] of a partition that does not exist panics. *)
Definition sendToPart (sender : Z) (c : vclock) (part : Z * updates) : R unit :=
  e <- ask ;;
  if (0 <=? fst part) && (fst part <? Z.of_nat (nGoRoutines e))
  then emit (MatRemoteTxnReq (fst part) (makeMatRemoteTxn sender c (snd part)))
  else panic.

Definition applyRemoteTxn (request : RemoteTxn Upd) : R unit :=
  e <- ask ;;
  s <- get ;;
  if IsLowerOrEqualExceptFor (Clk request) (Some (localClock s)) (replicaID e) (SenderID request) then
  foldM (fun _ part => sendToPart (SenderID request) (Clk request) part)
    (map_to_list (Upds request)) tt ;;;
  processMatRemoteReply
    (List.filter (fun i => bool_decide (is_Some (Upds request !! i))) (partIDs (nGoRoutines e)))
    (SenderID request) (Clk request)
  else enqueue (SenderID request) (TMRemoteTxn request).

(** ** Starting and joining *)

(** [clocksi.AddNewID] extends the identifiers of new clocks; [replicaIDs] keeps
    those known when the TM started. *)
Definition handleReplicaID (ReplicaID : Z) (IP : string) (Buckets : list string) : R unit :=
  modify (fun s =>
  match remoteIDToIndex s !! ReplicaID with
  | Some _ => s
  | None =>
      mkTM (localClock s) (downstreamQueue s) (replicaIDs s) (knownIDs s ++ [ReplicaID])
        (remoteBks s ++ [Buckets]) (remoteIPs s ++ [IP])
        (<[ReplicaID := Z.of_nat (length (remoteIPs s))]> (remoteIDToIndex s)) (bucketToIndex s)
  end).

(** [for i, buckets := range tm.remoteBks { for _, bkt := range buckets { ... } }] *)
Definition indexBuckets (bks : list (list string)) (m : gmap string (list Z)) : gmap string (list Z) :=
  foldl (fun m '(i, buckets) =>
    foldl (fun m bkt => <[bkt := default [] (m !! bkt) ++ [Z.of_nat i]]> m) m buckets)
  m (imap (fun i buckets => (i, buckets)) bks).

Definition finishTMInitialialization (s : TMState) : TMState :=
  mkTM (NewTimestamp (knownIDs s)) (downstreamQueue s) (Some (knownIDs s)) (knownIDs s) []
  (remoteIPs s) (remoteIDToIndex s) (indexBuckets (remoteBks s) (bucketToIndex s)).

Definition handleTMStart : R unit :=
  s <- get ;;
  match replicaIDs s with
  | None => modify finishTMInitialialization ;;; emit NotifyClkReady ;;; emit StatusBothReady
  | Some _ => emit StatusReplReady
  end.

(** The snapshot's clock takes the replica's own position. *)
Definition handleTMApplySnapshot (ts : vclock) : R unit :=
  e <- ask ;;
  s <- get ;;
  let ts := UpdatePos ts (replicaID e) (GetPos (localClock s) (replicaID e)) in
  emit (MatApplySnapshot ts) ;;;
  modify (fun s => set_local (ClockSI.Merge (localClock s) (Some ts)) s).

Definition handleRemoteMsg (request : TMRemoteMsg) : R unit :=
  match request with
  | TMRemoteClk id ts => applyRemoteClk id ts
  | TMRemoteTxn txn => applyRemoteTxn txn
  | TMRemoteTxnGroup g => applyRemoteTxnGroup g
  | TMReplicaID id ip bkts => handleReplicaID id ip bkts
  | TMApplySnapshot ts => handleTMApplySnapshot ts
  | TMStart => handleTMStart
  end.

(** [for { request := <-tm.remoteChan; ... }], each message with what the
    partitions answer. *)
Fixpoint handleRemoteMsgs (msgs : list (RemoteEnv * TMRemoteMsg)) (s : TMState)
  : option (TMState * list RemoteOut) :=
  match msgs with
  | [] => Some (s, [])
  | (e, m) :: msgs =>
    match handleRemoteMsg m e s with
    | None => None
    | Some (_, s1, o1) =>
        match handleRemoteMsgs msgs s1 with
        | None => None
        | Some (s2, o2) => Some (s2, o1 ++ o2)
        end
    end
  end.

Definition initialTM (id : Z) : TMState := mkTM (NewTimestamp [id]) ∅ None [id] [] [] ∅ ∅.

(** ** Only pointers are queued *)

Definition is_ptr (q : Queued) : Prop := match q with QPtr _ => True | QVal _ => False end.
Definition all_ptrs (q : gmap Z (list Queued)) : Prop := map_Forall (fun _ l => Forall is_ptr l) q.

Lemma checkMsgs_ptrs self id msgs p : Forall is_ptr msgs -> checkMsgs self id msgs p = Some p.
Proof.
  revert p. induction msgs as [|q msgs IH]; intros p Hp; [done|].
  apply Forall_cons in Hp as [Hq Hp]. destruct q; [done|]. cbn. by apply IH.
Qed.

Lemma checkQueues_ptrs self l q p :
  (forall id msgs, (id, msgs) ∈ l -> q !! id = Some msgs /\ Forall is_ptr msgs) ->
  exists n, checkQueues self l q p =
  Some (q, mkPending (copyClk p) (reqsPerPart p) (foundSomething p) (atLeastOne p) n).
Proof.
  revert p. induction l as [|[id msgs] l IH]; intros p Hl; cbn [checkQueues].
  { exists (posToHide p). by destruct p. }
    destruct (Hl id msgs) as [Hq Hp]; [set_solver|].
    rewrite checkMsgs_ptrs by done. cbn [posToHide]. rewrite drop_0, insert_id by done.
    destruct (IH (mkPending (copyClk p) (reqsPerPart p) (foundSomething p) (atLeastOne p) 0)) as [n E];
    [intros; apply Hl; set_solver|].
    rewrite E. by exists n.
Qed.

(** With nothing but pointers in the queues, the check finds nothing. *)
Lemma checkPending_ptrs clk e s :
  all_ptrs (downstreamQueue s) -> checkPendingRemoteTxns clk e s = Some (tt, s, []).
Proof.
  intros Hq. unfold checkPendingRemoteTxns. cbn [bind ask get checkPending_loop].
  destruct (checkQueues_ptrs (replicaID e) (map_to_list (downstreamQueue s)) (downstreamQueue s)
  (mkPending clk (replicate (nGoRoutines e) []) false false 0)) as [n E].
  { intros id msgs H%elem_of_map_to_list. split; [done|]. by apply (Hq id). }
    cbn [copyClk reqsPerPart atLeastOne posToHide foundSomething] in *. rewrite E.
    cbn. by destruct s.
Qed.

Lemma enqueue_ptrs id m s :
  all_ptrs (downstreamQueue s) ->
  all_ptrs (<[id := queueOf s id ++ [QPtr m]]> (downstreamQueue s)).
Proof.
  intros Hq. apply map_Forall_insert_2; [|done]. apply Forall_app. split; [|by constructor].
  unfold queueOf. destruct (downstreamQueue s !! id) eqn:E; [by apply (Hq id)|constructor].
Qed.

(** ** What a message does to the queues and to the clock *)

Definition clk_updates (id : Z) (o : list RemoteOut) : list Z :=
  flat_map (fun x => match x with
                   | MatClkPosUpd _ id' ts => if id' =? id then [ts] else []
                   | _ => [] end) o.

(** The queues only grow, and the clock only moves forward. *)
Definition grows (s s' : TMState) (o : list RemoteOut) : Prop :=
  (all_ptrs (downstreamQueue s) -> all_ptrs (downstreamQueue s')) /\
  (forall id, all_ptrs (downstreamQueue s) ->
  (exists new, queueOf s' id = queueOf s id ++ new) /\
  (queueOf s id <> [] -> clk_updates id o = [])) /\
  (is_Some (replicaIDs s) -> is_Some (replicaIDs s') /\ vle (localClock s) (localClock s')).

Lemma grows_same s s' o :
  downstreamQueue s' = downstreamQueue s -> replicaIDs s' = replicaIDs s ->
  (is_Some (replicaIDs s) -> vle (localClock s) (localClock s')) ->
  (forall id, queueOf s id <> [] -> clk_updates id o = []) -> grows s s' o.
Proof.
  intros Eq Er Hv Ho. unfold grows, queueOf in *. rewrite Eq, Er. split; [done|]. split; [|by auto].
  intros id _. split; [|by apply Ho]. exists []. by rewrite app_nil_r.
Qed.

Lemma clk_updates_app id o1 o2 : clk_updates id (o1 ++ o2) = clk_updates id o1 ++ clk_updates id o2.
Proof. apply flat_map_app. Qed.

Lemma grows_trans s1 s2 s3 o1 o2 : grows s1 s2 o1 -> grows s2 s3 o2 -> grows s1 s3 (o1 ++ o2).
Proof.
  intros (A1 & B1 & C1) (A2 & B2 & C2). split; [auto|]. split.
  - intros id Hp. destruct (B1 id Hp) as [[n1 E1] U1].
    destruct (B2 id (A1 Hp)) as [[n2 E2] U2]. split.
  + exists (n1 ++ n2). by rewrite E2, E1, app_assoc.
  + intros Hne. rewrite clk_updates_app, U1, U2; [done| |done].
    rewrite E1. by destruct (queueOf s1 id).
  - intros Hs. destruct (C1 Hs) as [Hs2 V1]. destruct (C2 Hs2) as [Hs3 V2].
    split; [done|]. by eapply vle_trans.
Qed.

Definition grow_post {A} (m : R A) : Prop := forall e s, all_ptrs (downstreamQueue s) ->
  post m e s (fun _ s' o => grows s s' o).

Lemma grow_quiet {A} (m : R A) :
  (forall e s, post m e s (fun _ s' o => s' = s /\ forall id, clk_updates id o = [])) -> grow_post m.
Proof.
  intros Hm e s _ a s' o E. destruct (Hm e s a s' o E) as [-> Ho].
  apply grows_same; auto using vle_refl.
Qed.

Lemma grow_bind {A B} (m : R A) (k : A -> R B) :
  grow_post m -> (forall a, grow_post (k a)) -> grow_post (bind m k).
Proof.
  intros Hm Hk e s Hp. apply post_bind. intros a s1 o1 E1. intros b s2 o2 E2.
  pose proof (Hm e s Hp a s1 o1 E1) as H1. assert (Hp1 : all_ptrs (downstreamQueue s1)) by by apply H1.
  eapply grows_trans; [exact H1|]. by eapply Hk.
Qed.

Lemma quiet_post_ret {A} (a : A) : grow_post (ret a).
Proof. apply grow_quiet. by intros e s ? ? ? [= <- <- <-]. Qed.
Lemma quiet_post_ask : grow_post ask.
Proof. apply grow_quiet. by intros e s ? ? ? [= <- <- <-]. Qed.
Lemma quiet_post_get : grow_post get.
Proof. apply grow_quiet. by intros e s ? ? ? [= <- <- <-]. Qed.
Lemma quiet_post_panic {A} : grow_post (panic (A := A)).
Proof. by intros e s _ ? ? ? [=]. Qed.
Lemma quiet_post_must {A} (o : option A) : grow_post (must o).
Proof. destruct o; [apply quiet_post_ret|apply quiet_post_panic]. Qed.
Lemma quiet_post_emit o : (forall id, clk_updates id [o] = []) -> grow_post (emit o).
Proof. intros Ho. apply grow_quiet. by intros e s ? ? ? [= <- <- <-]. Qed.

Lemma quiet_post_foldM {A} (f : unit -> A -> R unit) l :
  (forall u x, grow_post (f u x)) -> grow_post (foldM f l tt).
Proof.
  intros Hf. induction l as [|x l IH]; cbn [foldM]; [apply quiet_post_ret|].
  apply grow_bind; [apply Hf|]. by intros [].
Qed.

Lemma grow_enqueue id m : grow_post (enqueue id m).
Proof.
  intros e s Hp ? ? ? [= <- <- <-]. split; [|split].
  - intros _. by apply enqueue_ptrs.
  - intros id' _. split; [|done]. unfold queueOf, set_queue. cbn [downstreamQueue].
    destruct (decide (id' = id)) as [->|Hne].
  + rewrite lookup_insert_eq. by exists [QPtr m].
  + rewrite lookup_insert_ne by done. exists []. by rewrite app_nil_r.
  - intros Hs. split; [done|apply vle_refl].
Qed.

Lemma grow_checkPending clk : grow_post (checkPendingRemoteTxns clk).
Proof.
  intros e s Hp ? ? ? E. rewrite checkPending_ptrs in E by done. injection E as <- <- <-.
  by apply grows_same; auto using vle_refl.
Qed.

Lemma UpdatePos_above c id v : vle c (UpdatePos c id v).
Proof.
  intros i. unfold UpdatePos. destruct (Z.ltb_spec (GetPos c id) v); [|lia].
  rewrite GetPos_insert. case_decide; subst; lia.
Qed.

Lemma Merge_above a b : vle a (ClockSI.Merge a (Some b)).
Proof.
  intros i. unfold GetPos at 2. rewrite Merge_lookup. unfold GetPos at 1.
  destruct (a !! i); cbn; lia.
Qed.

Lemma grow_updateLocalClock id ts : grow_post (updateLocalClock id ts).
Proof.
  intros e s Hp. unfold updateLocalClock. apply post_bind. intros ? ? ? [= <- <- <-].
  apply post_bind. intros ? ? ? [= <- <- <-]. case_match; [|by intros ? ? ? [=]].
  apply post_ret. apply grows_same; auto. intros _. apply UpdatePos_above.
Qed.

Local Ltac grow_step := first
  [ apply quiet_post_ret | apply quiet_post_ask | apply quiet_post_get | apply quiet_post_panic
  | apply quiet_post_must | apply grow_checkPending | apply grow_updateLocalClock
  | apply grow_enqueue | apply quiet_post_emit; done
  | apply grow_bind; [|intros ?]
  | apply quiet_post_foldM; intros ? [? ?] ].

Lemma grow_sendDowns d : grow_post (sendDowns d).
Proof. unfold sendDowns. case_match; grow_step. Qed.

Lemma grow_emitGroups c reqs : grow_post (emitGroups c reqs).
Proof. unfold emitGroups. repeat grow_step. Qed.

Lemma grow_process parts id clk : grow_post (processMatRemoteReply parts id clk).
Proof. unfold processMatRemoteReply. repeat first [apply grow_sendDowns | grow_step]. Qed.

Lemma grow_applyRemoteTxn t : grow_post (applyRemoteTxn t).
Proof.
  unfold applyRemoteTxn, sendToPart.
  repeat first [apply grow_process | grow_step | case_match].
Qed.

Lemma grow_applyRemoteTxnGroup g : grow_post (applyRemoteTxnGroup g).
Proof.
  unfold applyRemoteTxnGroup.
  repeat first [apply grow_process | apply grow_emitGroups | grow_step | case_match].
Qed.

Lemma clk_emits_post id ts parts (e : RemoteEnv) (s : TMState) :
  post (foldM (fun _ i => emit (MatClkPosUpd i id ts)) parts tt : R unit) e s
  (fun _ s' o => s' = s /\ forall id', id' <> id -> clk_updates id' o = []).
Proof.
  induction parts as [|i parts IH]; cbn [foldM]; [by apply post_ret|].
  apply post_bind. intros ? ? ? [= <- <- <-]. eapply post_weaken; [exact IH|].
  intros ? s' o [-> Ho]. split; [done|]. intros id' Hne. cbn [app clk_updates flat_map].
  destruct (Z.eqb_spec id id'); [congruence|]. by apply Ho.
Qed.

Lemma grow_applyRemoteClk id ts : grow_post (applyRemoteClk id ts).
Proof.
  intros e s Hp. unfold applyRemoteClk. apply post_bind. intros ? ? ? [= <- <- <-].
  apply post_bind. intros ? ? ? [= <- <- <-].
  destruct (Nat.eqb_spec (length (queueOf s id)) 0) as [Eq|Eq].
  2:{ by apply (grow_enqueue id). }
  apply post_bind. intros u s1 o1 E1. destruct (clk_emits_post _ _ _ _ _ _ _ _ E1) as [-> Ho1].
  assert (Hrest : grow_post (copyClk <- updateLocalClock id ts ;; checkPendingRemoteTxns copyClk))
  by repeat grow_step.
  intros ? s2 o2 E2. cbn [app]. eapply grows_trans; [|by eapply (Hrest e s Hp)].
  apply grows_same; auto using vle_refl. intros id' Hne. apply Ho1. intros ->.
  by apply nil_length_inv in Eq.
Qed.

(** The first start creates the clock anew; every other message lets it grow. *)
Lemma grow_handleRemoteMsg m : m <> TMStart -> grow_post (handleRemoteMsg m).
Proof.
  destruct m; cbn [handleRemoteMsg]; intros Hns.
  - apply grow_applyRemoteClk.
  - apply grow_applyRemoteTxn.
  - apply grow_applyRemoteTxnGroup.
  - intros e s Hp ? ? ? [= <- <- <-]. case_match; apply grows_same; auto using vle_refl.
  - intros e s Hp. unfold handleTMApplySnapshot. cbn. intros ? ? ? [= <- <- <-].
    apply grows_same; auto. intros _. cbn [set_local localClock].
    apply Merge_above.
  - done.
Qed.

Lemma grow_start e s : all_ptrs (downstreamQueue s) ->
  post (handleRemoteMsg TMStart) e s (fun _ s' o => grows s s' o).
Proof.
  intros Hp. cbn [handleRemoteMsg]. unfold handleTMStart. apply post_bind.
  intros ? ? ? [= <- <- <-]. destruct (replicaIDs s) eqn:Er.
  - intros ? ? ? [= <- <- <-]. apply grows_same; auto using vle_refl.
  - cbn. intros ? ? ? [= <- <- <-]. split; [done|]. split.
  + intros id _. split; [|done]. exists []. by rewrite app_nil_r.
  + rewrite Er. by intros [? [=]].
Qed.

Lemma handleRemoteMsgs_grows msgs s s' o :
  all_ptrs (downstreamQueue s) -> handleRemoteMsgs msgs s = Some (s', o) -> grows s s' o.
Proof.
  revert s o. induction msgs as [|[e m] msgs IH]; intros s o Hp; cbn [handleRemoteMsgs].
  { intros [= <- <-]. apply grows_same; auto using vle_refl. }
    destruct (handleRemoteMsg m e s) as [[[u s1] o1]|] eqn:E1; [|done].
    destruct (handleRemoteMsgs msgs s1) as [[s2 o2]|] eqn:E2; [|done]. intros [= <- <-].
    assert (H1 : grows s s1 o1).
  { destruct m; try (refine (grow_handleRemoteMsg _ _ e s Hp _ _ _ E1); done).
    exact (grow_start e s Hp _ _ _ E1). }
    eapply grows_trans; [exact H1|]. apply IH; [by apply H1|done].
Qed.

(** A state the goroutine can be in. *)
Definition reachable (self : Z) (s : TMState) : Prop :=
  exists msgs o, handleRemoteMsgs msgs (initialTM self) = Some (s, o).

Lemma reachable_ptrs self s : reachable self s -> all_ptrs (downstreamQueue s).
Proof.
  intros (msgs & o & E). apply (handleRemoteMsgs_grows msgs (initialTM self) s o).
  - apply map_Forall_empty.
  - done.
  - apply map_Forall_empty.
Qed.

(** ** Handing a transaction to the partitions *)

Definition parts_ok (n : nat) (upds : gmap Z updates) : Prop :=
  forall i, is_Some (upds !! i) -> 0 <= i < Z.of_nat n.

Lemma elem_of_partIDs n i : i ∈ partIDs n <-> 0 <= i < Z.of_nat n.
Proof.
  unfold partIDs. rewrite list_elem_of_In, in_map_iff. setoid_rewrite in_seq. split.
  - intros (x & <- & ?). lia.
  - intros ?. exists (Z.to_nat i). split; lia.
Qed.

Lemma newDowns_lookup reply parts i u :
  newDowns reply parts !! i = Some u <-> i ∈ parts /\ reply i = u /\ u <> [].
Proof.
  unfold newDowns.
  assert (H : forall m : gmap Z updates,
  foldl (fun m i => if (0 <? length (reply i))%nat then <[i := reply i]> m else m) m parts !! i
    = Some u <->
  (i ∈ parts /\ reply i = u /\ u <> []) \/ ((i ∉ parts \/ reply i = []) /\ m !! i = Some u)).
  { induction parts as [|j parts IH]; intros m; cbn [foldl].
  { split; [|by intros [[Hi%elem_of_nil _]|[_ ?]]].
    intros ?. right. split; [|done]. left. apply not_elem_of_nil. }
    rewrite IH, elem_of_cons. clear IH.
    destruct (Nat.ltb_spec 0 (length (reply j))) as [Hj|Hj].
  - assert (Hne : reply j <> []) by (intros E; rewrite E in Hj; cbn in Hj; lia).
    destruct (decide (i = j)) as [->|Hij].
    + rewrite lookup_insert_eq. destruct (decide (j ∈ parts)); naive_solver.
    + rewrite lookup_insert_ne by done. naive_solver.
  - assert (Hnil : reply j = []) by (apply nil_length_inv; lia).
    destruct (decide (i = j)) as [->|Hij]; naive_solver. }
    rewrite H, lookup_empty. split; [|by left]. by intros [?|[_ [=]]].
Qed.

Lemma sendToParts_ok sender c parts e (s : TMState) :
  (forall p, p ∈ parts -> 0 <= fst p < Z.of_nat (nGoRoutines e)) ->
  foldM (fun _ part => sendToPart sender c part) parts tt e s =
  Some (tt, s, map (fun p => MatRemoteTxnReq (fst p) (makeMatRemoteTxn sender c (snd p))) parts).
Proof.
  induction parts as [|p parts IH]; intros Hp; cbn [foldM map]; [done|].
  unfold bind at 1. unfold sendToPart at 1. cbn [bind ask].
  pose proof (Hp p ltac:(set_solver)) as Hb.
  destruct (Z.leb_spec 0 (fst p)); [|lia].
  destruct (Z.ltb_spec (fst p) (Z.of_nat (nGoRoutines e))); [|lia].
  cbn [andb emit]. rewrite IH by set_solver. done.
Qed.

Lemma updateLocalClock_ok id ts e s :
  (length (knownIDs s) <= length (default [] (replicaIDs s)))%nat ->
  exists copy, updateLocalClock id ts e s =
  Some (copy, set_local (UpdatePos (localClock s) id ts) s, []).
Proof.
  intros Hk. unfold updateLocalClock. cbn [bind modify get].
  change (knownIDs (set_local _ s)) with (knownIDs s).
  change (replicaIDs (set_local _ s)) with (replicaIDs s).
  destruct (Nat.leb_spec (length (knownIDs s)) (length (default [] (replicaIDs s)))); [|lia].
  by eexists.
Qed.

Lemma updateLocalClock_panics id ts e s :
  (length (default [] (replicaIDs s)) < length (knownIDs s))%nat ->
  updateLocalClock id ts e s = None.
Proof.
  intros Hk. unfold updateLocalClock. cbn [bind modify get].
  change (knownIDs (set_local _ s)) with (knownIDs s).
  change (replicaIDs (set_local _ s)) with (replicaIDs s).
  destruct (Nat.leb_spec (length (knownIDs s)) (length (default [] (replicaIDs s)))); [lia|done].
Qed.

Lemma processMatRemoteReply_ok parts id clk e s :
  all_ptrs (downstreamQueue s) ->
  (length (knownIDs s) <= length (default [] (replicaIDs s)))%nat ->
  processMatRemoteReply parts id clk e s =
  Some (tt, set_local (UpdatePos (localClock s) id (GetPos clk id)) s,
    if bool_decide (newDowns (matReply e) parts = ∅) then []
    else [DownstreamOps (newDowns (matReply e) parts)]).
Proof.
  intros Hp Hk. destruct (updateLocalClock_ok id (GetPos clk id) e s Hk) as [copy E].
  unfold processMatRemoteReply, bind, ask. rewrite E. unfold sendDowns.
  destruct (bool_decide _); unfold ret, emit; by rewrite checkPending_ptrs.
Qed.

(** C10. A transaction of another replica is handed to the partitions, each with
    its own updates and the transaction's clock, exactly when the replica's clock
    has everything it depends on except the sender's and the replica's own
    positions; the replica's clock then moves at the sender's position only, and
    the updates that the partitions generate in reply are passed on.  Otherwise
    nothing is sent, the clock stays, and the transaction is queued last. *)
Theorem remote_txn_waits_for_its_dependencies (self : Z) (s : TMState) (e : RemoteEnv)
  (t : RemoteTxn Upd) :
  reachable self s -> (length (knownIDs s) <= length (default [] (replicaIDs s)))%nat ->
  parts_ok (nGoRoutines e) (Upds t) ->
  exists s' o, handleRemoteMsg (TMRemoteTxn t) e s = Some (tt, s', o) /\
  if IsLowerOrEqualExceptFor (Clk t) (Some (localClock s)) (replicaID e) (SenderID t) then
    s' = set_local (UpdatePos (localClock s) (SenderID t) (GetPos (Clk t) (SenderID t))) s /\
    exists downs : gmap Z updates,
      o = map (fun p => MatRemoteTxnReq (fst p) (mkRemote (SenderID t) (Clk t) (snd p)))
            (map_to_list (Upds t)) ++
          (if bool_decide (downs = ∅) then [] else [DownstreamOps downs]) /\
      forall i u, downs !! i = Some u <-> is_Some (Upds t !! i) /\ matReply e i = u /\ u <> []
  else
    o = [] /\
    s' = set_queue (<[SenderID t := queueOf s (SenderID t) ++ [QPtr (TMRemoteTxn t)]]>
                      (downstreamQueue s)) s.
Proof.
  intros Hr Hk Hparts. apply reachable_ptrs in Hr. cbn [handleRemoteMsg].
  unfold applyRemoteTxn. cbn [bind ask get].
  destruct (IsLowerOrEqualExceptFor _ _ _ _); [|by eexists _, _].
  unfold bind at 1. rewrite sendToParts_ok.
  2:{ intros [i u] Hin%elem_of_map_to_list. apply Hparts. by exists u. }
  rewrite processMatRemoteReply_ok by done. eexists _, _. split; [reflexivity|].
  split; [done|]. eexists. split; [done|]. intros i u. rewrite newDowns_lookup, elem_of_lfilter.
  rewrite bool_decide_eq_true, elem_of_partIDs. split; [naive_solver|].
  intros (Hi & ? & ?). split; [|done]. split; [done|]. by apply Hparts.
Qed.

(** A queued message is never applied: the check of the queues looks for
    values but pointers are queued.  Whatever messages follow, a queue only
    grows, and once anything of a replica is queued its stable clocks are not
    applied any more. *)
Theorem queued_messages_are_never_applied (self : Z) (s s' : TMState)
  (msgs : list (RemoteEnv * TMRemoteMsg)) (o : list RemoteOut) (id : Z) :
  reachable self s -> handleRemoteMsgs msgs s = Some (s', o) ->
  (exists new, queueOf s' id = queueOf s id ++ new) /\
  (queueOf s id <> [] -> clk_updates id o = []).
Proof.
  intros Hr E. apply reachable_ptrs in Hr.
  destruct (handleRemoteMsgs_grows msgs s s' o Hr E) as (_ & Hq & _). by apply Hq.
Qed.

(** C39. Once the transaction manager has started, its clock never goes back:
    stable clocks, transactions, groups, snapshots and new replicas only move it
    forward, position by position. *)
Theorem local_clock_never_goes_back (self : Z) (s s' : TMState)
  (msgs : list (RemoteEnv * TMRemoteMsg)) (o : list RemoteOut) :
  reachable self s -> is_Some (replicaIDs s) -> handleRemoteMsgs msgs s = Some (s', o) ->
  forall i, GetPos (localClock s) i <= GetPos (localClock s') i.
Proof.
  intros Hr Hs E. apply reachable_ptrs in Hr.
  destruct (handleRemoteMsgs_grows msgs s s' o Hr E) as (_ & _ & Hv). by apply Hv.
Qed.

(** A replica that joins after the start extends the known identifiers but
    not [replicaIDs]: the next stable clock of a replica with nothing queued
    indexes the copied clock out of range. *)
Theorem clock_after_a_join_panics (s s' : TMState) (e : RemoteEnv) (ids : list Z)
  (newID id ts : Z) (IP : string) (bkts : list string) (o : list RemoteOut) :
  replicaIDs s = Some ids -> length ids = length (knownIDs s) ->
  remoteIDToIndex s !! newID = None -> queueOf s id = [] ->
  handleRemoteMsg (TMReplicaID newID IP bkts) e s = Some (tt, s', o) ->
  handleRemoteMsg (TMRemoteClk id ts) e s' = None.
Proof.
  intros Hi Hlen Hnew Hq. cbn [handleRemoteMsg]. unfold handleReplicaID, modify. rewrite Hnew.
  intros [= <- <-]. unfold applyRemoteClk, bind, ask, get.
  change (queueOf (mkTM _ _ _ _ _ _ _ _) id) with (queueOf s id). rewrite Hq. cbn [length Nat.eqb].
  match goal with |- context [foldM ?f ?l tt e ?st] => destruct (foldM f l tt e st) as [[[u s1] o1]|] eqn:E end;
  [|done].
  destruct (clk_emits_post id ts (partIDs (nGoRoutines e)) e _ _ _ _ E) as [-> _].
  rewrite updateLocalClock_panics; [done|]. cbn [knownIDs replicaIDs]. rewrite Hi, length_app.
  cbn. lia.
Qed.

(** ** Groups *)

(** What a transaction adds to the requests of partition [j]. *)
Definition partTxn (sender : Z) (j : nat) (c : vclock) (upds : gmap Z updates) : list (MatRemoteTxn Upd) :=
  match upds !! Z.of_nat j with Some u => [makeMatRemoteTxn sender c u] | None => [] end.

Lemma addParts_ok sender c parts (reqs : list (list (MatRemoteTxn Upd))) :
  NoDup parts.*1 -> (forall p, p ∈ parts -> 0 <= fst p < Z.of_nat (length reqs)) ->
  exists reqs', addParts sender c parts reqs = Some reqs' /\ length reqs' = length reqs /\
  forall j, reqs' !! j = (fun l => l ++ partTxn sender j c (list_to_map parts)) <$> reqs !! j.
Proof.
  revert reqs. induction parts as [|[i u] parts IH]; intros reqs Hnd Hp; cbn [addParts].
  { exists reqs. split; [done|]. split; [done|]. intros j. unfold partTxn. cbn [list_to_map foldr].
    rewrite lookup_empty. destruct (reqs !! j); cbn; by rewrite ?app_nil_r. }
    cbn [fmap list_fmap] in Hnd. apply NoDup_cons in Hnd as [Hn Hnd]. cbn [fst] in Hn.
    pose proof (Hp (i, u) ltac:(set_solver)) as Hi. cbn [fst] in Hi.
    destruct (addTo_ok reqs i (makeMatRemoteTxn sender c u) Hi) as (reqs1 & E1 & Hlen1 & Hl1).
    rewrite E1. destruct (IH reqs1 Hnd) as (reqs2 & E2 & Hlen2 & Hl2).
  { intros p Hin. rewrite Hlen1. apply Hp. set_solver. }
    exists reqs2. split; [done|]. split; [congruence|]. intros j. rewrite Hl2, Hl1. unfold partTxn.
    cbn [list_to_map foldr fst snd uncurry]. case_decide as E.
  - subst j. rewrite Z2Nat.id by lia. rewrite lookup_insert_eq.
    rewrite not_elem_of_list_to_map_1 by done. by destruct (reqs !! Z.to_nat i); cbn; rewrite ?app_nil_r.
  - rewrite lookup_insert_ne by lia. done.
Qed.

Lemma addTxns_ok sender txns (reqs : list (list (MatRemoteTxn Upd))) :
  Forall (fun t => parts_ok (length reqs) (Upds t)) txns ->
  exists reqs', addTxns sender txns reqs = Some reqs' /\ length reqs' = length reqs /\
  forall j, reqs' !! j =
    (fun l => l ++ concat (map (fun t => partTxn sender j (Clk t) (Upds t)) txns)) <$> reqs !! j.
Proof.
  revert reqs. induction txns as [|t txns IH]; intros reqs Hp; cbn [addTxns].
  { exists reqs. split; [done|]. split; [done|]. intros j.
    destruct (reqs !! j); cbn; by rewrite ?app_nil_r. }
    apply Forall_cons in Hp as [Ht Hp].
    destruct (addParts_ok sender (Clk t) (map_to_list (Upds t)) reqs) as (reqs1 & E1 & Hlen1 & Hl1).
  { apply NoDup_fst_map_to_list. }
  { intros [i u] Hin%elem_of_map_to_list. apply Ht. by exists u. }
    rewrite E1. destruct (IH reqs1) as (reqs2 & E2 & Hlen2 & Hl2); [by rewrite Hlen1|].
    exists reqs2. split; [done|]. split; [congruence|]. intros j. rewrite Hl2, Hl1.
    rewrite list_to_map_to_list. destruct (reqs !! j); cbn; by rewrite ?app_assoc.
Qed.

(** The requests for partition [j] of a group: the updates that each transaction
    has for it, in order. *)
Definition groupFor (sender : Z) (j : nat) (txns : list (RemoteTxn Upd)) : list (MatRemoteTxn Upd) :=
  concat (map (fun t => partTxn sender j (Clk t) (Upds t)) txns).

Lemma splitGroupByPartition_ok n first txns :
  Forall (fun t => parts_ok n (Upds t)) (first :: txns) ->
  exists split, splitGroupByPartition n (first :: txns) = Some split /\ length split = n /\
  forall j, (j < n)%nat -> split !! j = Some (groupFor (SenderID first) j (first :: txns)).
Proof.
  intros Hp. unfold splitGroupByPartition.
  destruct (addTxns_ok (SenderID first) (first :: txns) (replicate n [])) as (split & E & Hlen & Hl).
  { by rewrite length_replicate. }
    rewrite length_replicate in Hlen. exists split. split; [done|]. split; [done|].
    intros j Hj. rewrite Hl, lookup_replicate_2 by done. done.
Qed.

Lemma emitGroups_ok c reqs (e : RemoteEnv) (s : TMState) :
  emitGroups c reqs e s =
  Some (tt, s, map (fun p => MatRemoteGroupTxnReq (Z.of_nat (fst p)) (snd p) c)
                 (imap (fun i txns => (i, txns)) reqs)).
Proof.
  unfold emitGroups. generalize (imap (fun i txns => (i, txns)) reqs) as l. intros l.
  induction l as [|[i txns] l IH]; cbn [foldM map]; [done|].
  unfold bind at 1, emit at 1. by rewrite IH.
Qed.

(** Clocks over the same replicas that agree outside the sender's position have
    the same dependencies. *)
Lemma IsLowerOrEqualExceptFor_iff a b self id :
  IsLowerOrEqualExceptFor a (Some b) self id = true <->
  forall i, i ∈ dom a -> i <> id -> i <> self -> GetPos a i <= GetPos b i.
Proof.
  unfold IsLowerOrEqualExceptFor.
  assert (H : forall l, IsLowerOrEqualExceptFor_loop l b self id = true <->
  forall i v, (i, v) ∈ l -> i <> id -> i <> self -> v <= GetPos b i).
  { induction l as [|[i v] l IH]; cbn [IsLowerOrEqualExceptFor_loop].
  { split; [|done]. intros _ i v Hin. by apply elem_of_nil in Hin. }
    rewrite Z.gtb_ltb.
    destruct (Z.eqb_spec i id), (Z.eqb_spec i self), (Z.ltb_spec (GetPos b i) v); cbn [negb andb];
    try (rewrite IH; set_solver).
    split; [done|]. intros Hb. specialize (Hb i v ltac:(set_solver)). lia. }
    rewrite H. split.
  - intros Ha i [v Hv]%elem_of_dom. rewrite (GetPos_lookup _ _ _ Hv). apply Ha.
    by apply elem_of_map_to_list.
  - intros Ha i v Hv%elem_of_map_to_list. rewrite <- (GetPos_lookup _ _ _ Hv). apply Ha.
    by eapply elem_of_dom_2.
Qed.

Lemma IsEqualExceptForSelf_spec a b self :
  IsEqualExceptForSelf a (Some b) self = true ->
  forall i, i ∈ dom a -> i <> self -> GetPos a i = GetPos b i.
Proof.
  unfold IsEqualExceptForSelf. intros H i [v Hv]%elem_of_dom Hne.
  rewrite (GetPos_lookup _ _ _ Hv). apply elem_of_map_to_list in Hv. revert H Hv.
  generalize (map_to_list a) as l. induction l as [|[j w] l IH]; cbn [IsEqualExceptForSelf_loop].
  { intros _ Hin. by apply elem_of_nil in Hin. }
    destruct (Z.eqb_spec j self), (Z.eqb_spec w (GetPos b j)); cbn [negb andb]; try done;
    intros Hl Hin; apply elem_of_cons in Hin as [[= -> ->]|Hin]; auto; done.
Qed.

Definition same_deps (sender : Z) (first t : RemoteTxn Upd) : Prop :=
  same_dom (Clk t) (Clk first) /\ IsEqualExceptForSelf (Clk t) (Some (Clk first)) sender = true.

Lemma same_deps_check sender first t local self :
  same_deps sender first t ->
  IsLowerOrEqualExceptFor (Clk t) (Some local) self sender =
  IsLowerOrEqualExceptFor (Clk first) (Some local) self sender.
Proof.
  intros [Hd He]. apply eq_bool_prop_intro. rewrite !Is_true_true, !IsLowerOrEqualExceptFor_iff.
  pose proof (IsEqualExceptForSelf_spec _ _ _ He) as Heq. unfold same_dom in Hd.
  split; intros H i Hi Hne Hns; specialize (H i); specialize (Heq i).
  - rewrite <- Hd in Hi. rewrite <- Heq by done. auto.
  - rewrite Heq by done. rewrite Hd in Hi. auto.
Qed.

(** A group, checked only by its first clock, is applied exactly when the
    dependencies of every transaction in it are met, because the replicator
    groups transactions whose clocks differ only at the sender's position: each
    partition then gets, in order, the updates that each transaction has for it,
    and the replica's clock moves to the last transaction's clock at the sender's
    position.  Otherwise the group is queued and nothing is sent. *)
Theorem group_waits_for_all_its_dependencies (self : Z) (s : TMState) (e : RemoteEnv)
  (g : RemoteTxnGroup Upd) (first lastTxn : RemoteTxn Upd) :
  reachable self s -> (length (knownIDs s) <= length (default [] (replicaIDs s)))%nat ->
  Txns g !! 0%nat = Some first -> last (Txns g) = Some lastTxn ->
  Forall (fun t => parts_ok (nGoRoutines e) (Upds t) /\ same_deps (g_SenderID g) first t) (Txns g) ->
  exists s' o, handleRemoteMsg (TMRemoteTxnGroup g) e s = Some (tt, s', o) /\
  if forallb (fun t => IsLowerOrEqualExceptFor (Clk t) (Some (localClock s)) (replicaID e) (g_SenderID g))
       (Txns g)
  then
    s' = set_local (UpdatePos (localClock s) (g_SenderID g) (GetPos (Clk lastTxn) (g_SenderID g))) s /\
    exists split downs,
      o = map (fun p => MatRemoteGroupTxnReq (Z.of_nat (fst p)) (snd p) (Clk lastTxn))
            (imap (fun i txns => (i, txns)) split) ++ downs /\
      length split = nGoRoutines e /\
      (forall j, (j < nGoRoutines e)%nat ->
         split !! j = Some (groupFor (SenderID first) j (Txns g))) /\
      (downs = [] \/ exists ops, downs = [DownstreamOps ops])
  else
    o = [] /\
    s' = set_queue (<[g_SenderID g := queueOf s (g_SenderID g) ++ [QPtr (TMRemoteTxnGroup g)]]>
                      (downstreamQueue s)) s.
Proof.
  intros Hr Hk Hf Hl Hall. apply reachable_ptrs in Hr. cbn [handleRemoteMsg].
  assert (Hcheck : forallb (fun t => IsLowerOrEqualExceptFor (Clk t) (Some (localClock s)) (replicaID e)
    (g_SenderID g)) (Txns g) =
  IsLowerOrEqualExceptFor (Clk first) (Some (localClock s)) (replicaID e) (g_SenderID g)).
  { set (b := IsLowerOrEqualExceptFor (Clk first) _ _ _).
    assert (Hb : Forall (fun t => IsLowerOrEqualExceptFor (Clk t) (Some (localClock s)) (replicaID e)
    (g_SenderID g) = b) (Txns g)).
  { eapply Forall_impl; [exact Hall|]. intros t [_ Hs]. by apply same_deps_check. }
    destruct (Txns g) as [|t0 txns]; [done|]. injection Hf as ->. clear Hl Hall.
    destruct b.
  - apply List.forallb_forall. intros t Ht%list_elem_of_In. rewrite Forall_forall in Hb. by apply Hb.
  - apply Forall_cons in Hb as [Hb _]. cbn [forallb]. by rewrite Hb. }
    rewrite Hcheck. unfold applyRemoteTxnGroup, getMinClk, getMaxClk, bind, ask, get.
    rewrite Hf, Hl. cbn [fmap option_fmap option_map must ret].
    destruct (IsLowerOrEqualExceptFor _ _ _ _); [|by eexists _, _].
    assert (Hparts : Forall (fun t => parts_ok (nGoRoutines e) (Upds t)) (Txns g)).
  { eapply Forall_impl; [exact Hall|]. by intros t [? _]. }
    destruct (Txns g) as [|t0 txns]; [done|]. injection Hf as ->.
    destruct (splitGroupByPartition_ok (nGoRoutines e) first txns Hparts) as (split & E & Hlen & Hs).
    rewrite E. cbn [must ret]. rewrite emitGroups_ok.
    rewrite processMatRemoteReply_ok by done. eexists _, _. split; [reflexivity|]. split; [done|].
    eexists split, _. split; [reflexivity|]. split; [done|]. split; [done|].
    case_match; eauto.
Qed.
End remote.
Arguments TMRemoteMsg : clear implicits.
Arguments TMState : clear implicits.
Arguments RemoteEnv : clear implicits.

Module RemoteExample.
Definition upd : UpdateObjectParams Z := mkUpd (mkKey EmptyString 0 EmptyString) 1.
Definition env : RemoteEnv Z := mkRemoteEnv 1 2 (fun i => if i =? 1 then [upd] else []) (fun _ => []).
Definition boot : list (RemoteEnv Z * TMRemoteMsg Z) :=
  [(env, TMReplicaID 2 EmptyString []); (env, TMReplicaID 3 EmptyString []); (env, TMStart)].
Definition st : TMState Z :=
  match handleRemoteMsgs boot (initialTM 1) with Some (s, _) => s | None => initialTM 1 end.
Definition boot_out : list (RemoteOut (Upd := Z)) :=
  match handleRemoteMsgs boot (initialTM 1) with Some (_, o) => o | None => [] end.

Lemma st_reachable : reachable 1 st.
Proof. exists boot, boot_out. vm_compute. reflexivity. Qed.

(** A transaction of replica 2 with no dependencies, and one that depends on
    position 7 of replica 3. *)
Definition txn : RemoteTxn Z :=
  mkRemoteTxn 2 {[1 := 0; 2 := 5; 3 := 0]} {[0 := [upd]; 1 := [upd; upd]]} 0.
Definition early : RemoteTxn Z := mkRemoteTxn 2 {[1 := 0; 2 := 6; 3 := 7]} {[1 := [upd]]} 1.

Definition run (msgs : list (TMRemoteMsg Z)) (s : TMState Z) :=
  handleRemoteMsgs (map (fun m => (env, m)) msgs) s.
Definition end_of (msgs : list (TMRemoteMsg Z)) : TMState Z :=
  match run msgs st with Some (s, _) => s | None => st end.
Definition out_of (msgs : list (TMRemoteMsg Z)) : list (RemoteOut (Upd := Z)) :=
  match run msgs st with Some (_, o) => o | None => [] end.

Lemma parts : parts_ok 2 (Upds txn).
Proof.
  intros i [u Hu]. cbn in Hu. destruct (decide (i = 0)) as [->|]; [lia|].
  destruct (decide (i = 1)) as [->|]; [lia|].
  by rewrite lookup_insert_ne, lookup_singleton_ne in Hu.
Qed.
End RemoteExample.

Lemma remote_txn_waits_for_its_dependencies_witness :
    (exists s' o,
      handleRemoteMsg (TMRemoteTxn RemoteExample.txn) RemoteExample.env RemoteExample.st = Some (tt, s', o)) /\
    match handleRemoteMsg (TMRemoteTxn RemoteExample.txn) RemoteExample.env RemoteExample.st with
    | Some (_, s', o) => localClock s' = {[1 := 0; 2 := 5; 3 := 0]} /\ length o = 3%nat
    | None => False
    end.
Proof.
    split; [|vm_compute; by split].
    pose proof (remote_txn_waits_for_its_dependencies 1 RemoteExample.st RemoteExample.env
      RemoteExample.txn RemoteExample.st_reachable ltac:(vm_compute; lia) RemoteExample.parts)
      as (s' & o & E & _).
    exists s', o. exact E.
Defined.

Lemma queued_messages_are_never_applied_witness :
    let late := [TMRemoteTxn RemoteExample.early] in
    let rest := [TMRemoteClk 3 7; TMRemoteClk 2 9] in
    let s := RemoteExample.end_of late in
    match RemoteExample.run rest s with
    | Some (s', o) =>
        (exists new, queueOf s' 2 = queueOf s 2 ++ new) /\
        (queueOf s 2 <> [] -> clk_updates 2 o = []) /\
        length (queueOf s' 2) = 2%nat /\ localClock s' = {[1 := 0; 2 := 0; 3 := 7]}
    | None => False
    end.
Proof.
    intros late rest s.
    assert (Hr : reachable 1 s).
    { exists (RemoteExample.boot ++ map (fun m => (RemoteExample.env, m)) late),
        (RemoteExample.boot_out ++ RemoteExample.out_of late). vm_compute. reflexivity. }
      destruct (RemoteExample.run rest s) as [[s' o]|] eqn:E; [|vm_compute in E; discriminate E].
      destruct (queued_messages_are_never_applied 1 s s' _ o 2 Hr E) as [H1 H2].
      split; [exact H1|]. split; [exact H2|].
      assert (Es : match RemoteExample.run rest s with
      | Some (s', _) => length (queueOf s' 2) = 2%nat /\ localClock s' = {[1 := 0; 2 := 0; 3 := 7]}
      | None => False end) by (vm_compute; by split).
      rewrite E in Es. exact Es.
Defined.

Lemma local_clock_never_goes_back_witness :
    let msgs := [TMRemoteTxn RemoteExample.txn; TMRemoteClk 3 4] in
    match RemoteExample.run msgs RemoteExample.st with
    | Some (s', _) => (forall i, GetPos (localClock RemoteExample.st) i <= GetPos (localClock s') i) /\
        localClock s' = {[1 := 0; 2 := 5; 3 := 4]}
    | None => False
    end.
Proof.
    intros msgs.
    assert (Es : match RemoteExample.run msgs RemoteExample.st with
      | Some (s', _) => localClock s' = {[1 := 0; 2 := 5; 3 := 4]}
      | None => False end) by (vm_compute; reflexivity).
    destruct (RemoteExample.run msgs RemoteExample.st) as [[s' o]|] eqn:E; [|destruct Es].
    split; [|exact Es].
    exact (local_clock_never_goes_back 1 RemoteExample.st s' _ o RemoteExample.st_reachable
      ltac:(vm_compute; eexists; reflexivity) E).
Defined.

Lemma clock_after_a_join_panics_witness :
    match handleRemoteMsg (TMReplicaID 4 EmptyString []) RemoteExample.env RemoteExample.st with
    | Some (_, s', _) => handleRemoteMsg (TMRemoteClk 2 9) RemoteExample.env s' = None
    | None => False
    end.
Proof.
    destruct (handleRemoteMsg (TMReplicaID 4 EmptyString []) RemoteExample.env RemoteExample.st)
      as [[[[] s'] o]|] eqn:E; [|vm_compute in E; discriminate E].
    exact (clock_after_a_join_panics RemoteExample.st s' RemoteExample.env [1; 2; 3] 4 2 9
      EmptyString [] o ltac:(vm_compute; reflexivity) ltac:(vm_compute; reflexivity)
      ltac:(vm_compute; reflexivity) ltac:(vm_compute; reflexivity) E).
Defined.

Lemma group_waits_for_all_its_dependencies_witness :
    let next := mkRemoteTxn 2 {[1 := 0; 2 := 8; 3 := 0]} ∅ 1 in
    let g := mkRemoteGroup 2 [RemoteExample.txn; next] 0 1 in
    (exists s' o, handleRemoteMsg (TMRemoteTxnGroup g) RemoteExample.env RemoteExample.st = Some (tt, s', o)) /\
    match handleRemoteMsg (TMRemoteTxnGroup g) RemoteExample.env RemoteExample.st with
    | Some (_, s', _) => localClock s' = {[1 := 0; 2 := 8; 3 := 0]}
    | None => False
    end.
Proof.
    intros next g. split; [|vm_compute; reflexivity].
    assert (Hall : Forall (fun t => parts_ok (nGoRoutines RemoteExample.env) (Upds t) /\
      same_deps (g_SenderID g) RemoteExample.txn t) (Txns g)).
    { constructor; [split; [exact RemoteExample.parts|split; vm_compute; reflexivity]|].
      constructor; [|constructor]. split; [|split; vm_compute; reflexivity].
      intros i [u Hu]. cbn in Hu. by rewrite lookup_empty in Hu. }
      pose proof (group_waits_for_all_its_dependencies 1 RemoteExample.st RemoteExample.env g
      RemoteExample.txn next RemoteExample.st_reachable ltac:(vm_compute; lia) eq_refl eq_refl Hall)
      as (s' & o & E & _).
      exists s', o. exact E.
Defined.
