(* ===== verification/TransactionManager.v ===== *)
(** * Client transactions: transactionManager.go (src/potionDB/components)

    One goroutine per client.  It groups the updates of a request by partition,
    and runs the two-phase commit: prepare at the partitions that were updated,
    take the highest of their clocks, announce the transaction to the goroutine
    of the commit channel (file CommitReplies), then tell the partitions to
    commit.  [TMOut] is what it sends, in order, to partitions, to the commit
    channel and to other servers; what it receives (the clocks of the partitions
    in order of arrival, the states read, the clock it waited for, the random
    identifier) is its input, [SessionEnv].

    The transactions a client has at other servers ([ongoingRemote],
    handleRemote...) are represented by the requests that leave; the history of
    clocks (doCompactHistory, off by default) and triggers are left out. *)

From S2P Require Import Prelude ClockSI Effects Keys PartitionClock VersionManager.
From S2P Require Import Materializer.
From S2P Require Import CommitReplies Logger Replicator.
From Stdlib Require Import ZArith Lia Bool.
From stdpp Require Import base tactics numbers strings gmap sorting list.
#[local] Open Scope Z_scope.
#[local] Open Scope eff_scope.

(** The configuration, fixed once the transaction manager has started. *)
Record TMConfig := mkConfig {
    nParts : nat;
    hasAll : bool;
    ownBuckets : list string;
    bucketToIndex : gmap string (list Z);
    nServers : nat
}.

Section session.
Context {Upd RArgs State : Type} `{HHash : KeyHash}.
Abbreviation updates := (list (UpdateObjectParams Upd)).
Abbreviation reads := (list (ReadObjectParams RArgs)).

(** [replyClk i] is the i-th clock that arrives on [replyChan], [readState i] the
    state read for the i-th object. *)
Record SessionEnv := mkSession {
  config : TMConfig;
  newTxnId : Z;
  localClk : vclock;
  replyClk : nat -> vclock;
  releasedClk : vclock;
  readState : nat -> State
}.

(** What is kept of [ongoingTxn], and the entry of [clksInUse] of this client. *)
Record ongoingTxn := mkOngoing {
  txnId : Z;
  partitions : list bool;
  originalClk : Timestamp;
  clkInUse : Timestamp
}.

Inductive TMOut :=
  | ToPart (part : Z) (req : MatRequest Upd RArgs)
  | ToCommitChan (info : TMCommitInfo)
  | UpdsToServers (reqsPerServer : list updates)
  | ReadsToServers (reqsPerServer : list reads).

Abbreviation T := (M SessionEnv ongoingTxn TMOut).

(** ** Where an object is *)

(** [None]: no server for the bucket and none for all buckets. *)
Definition getReadLocation (c : TMConfig) (bkt : string) : option (bool * Z) :=
  if hasAll c || bool_decide (bkt = EmptyString) then Some (false, 0)
  else if existsb (fun localBkt => bool_decide (bkt = localBkt)) (ownBuckets c) then Some (false, 0)
  else
  let serverMap := match bucketToIndex c !! bkt with
                   | Some l => l
                   | None => default [] (bucketToIndex c !! "*"%string)
                   end in
  match serverMap with
  | first :: _ => Some (true, first)
  | [] => None
  end.

Definition channelOf (c : TMConfig) (k : KeyParams) : Z := GetChannelKey (Z.of_nat (nParts c)) k.

Record Grouped := mkGrouped {
  updsPerPartition : list updates; reqsPerServer : list updates; hasRemote : bool }.

Fixpoint groupWrites_loop (c : TMConfig) (upds : updates) (g : Grouped) : option Grouped :=
  match upds with
  | [] => Some g
  | upd :: upds =>
    match getReadLocation c (Bucket (upd_key upd)) with
    | None => None
    | Some (false, _) =>
        match addTo (updsPerPartition g) (channelOf c (upd_key upd)) upd with
        | Some parts => groupWrites_loop c upds (mkGrouped parts (reqsPerServer g) (hasRemote g))
        | None => None
        end
    | Some (true, serverIndex) =>
        match addTo (reqsPerServer g) serverIndex upd with
        | Some reqs => groupWrites_loop c upds (mkGrouped (updsPerPartition g) reqs true)
        | None => None
        end
    end
  end.

Definition groupWrites (c : TMConfig) (upds : updates) : option Grouped :=
  groupWrites_loop c upds (mkGrouped (replicate (nParts c) []) (replicate (nServers c) []) false).

(** ** The two phases *)

(** A partition's slice of updates is nil when it has none. *)
Definition updated (g : Grouped) : list (Z * updates) :=
  List.filter (fun p => negb (length (snd p) =? 0)%nat)
  (imap (fun i u => (Z.of_nat i, u)) (updsPerPartition g)).

(** The clock of the transaction: the loop over the replies. *)
Definition maxTimestamp (reply : nat -> vclock) (waitFor : nat) : vclock :=
  foldl (fun max i => if IsHigherOrEqual (reply i) (Some max) then reply i else max) DummyTs
  (seq 0 waitFor).

Definition sendTo (parts : list Z) (req : MatRequest Upd RArgs) : T unit :=
  foldM (fun _ part => emit (ToPart part req)) parts tt.

Definition handleStaticTMUpdate (upds : updates) : T (Z * vclock) :=
  e <- ask ;;
  g <- must (groupWrites (config e) upds) ;;
  let parts := updated g in
  foldM (fun _ p => emit (ToPart (fst p) (MatStaticWrite (snd p) (newTxnId e)))) parts tt ;;;
  let waitFor := length parts in
  let max := maxTimestamp (replyClk e) waitFor in
  emit (ToCommitChan (TMCommitNPartitions (Z.of_nat waitFor) (newTxnId e) max)) ;;;
  sendTo (map fst parts) (MatCommit (mkCommit (newTxnId e) max)) ;;;
  (if hasRemote g then emit (UpdsToServers (reqsPerServer g)) else ret tt) ;;;
  ret (newTxnId e, max).

Definition set_partitions (ps : list bool) (s : ongoingTxn) : ongoingTxn :=
  mkOngoing (txnId s) ps (originalClk s) (clkInUse s).

Definition handleTMUpdate (txn : Z) (upds : updates) : T unit :=
  e <- ask ;;
  g <- must (groupWrites (config e) upds) ;;
  foldM (fun _ p =>
  modify (fun s => set_partitions (<[Z.to_nat (fst p) := true]> (partitions s)) s) ;;;
  emit (ToPart (fst p) (MatWrite (snd p) txn))) (updated g) tt ;;;
  if hasRemote g then emit (UpdsToServers (reqsPerServer g)) else ret tt.

(** The partitions with updates of the transaction, in order. *)
Definition involved (s : ongoingTxn) : list Z :=
  map fst (List.filter snd (imap (fun i isOn => (Z.of_nat i, isOn)) (partitions s))).

Definition reset : T unit :=
  e <- ask ;;
  modify (fun s => mkOngoing 0 (replicate (nParts (config e)) false) None (clkInUse s)).

Definition set_clkInUse (c : Timestamp) : T unit :=
  modify (fun s => mkOngoing (txnId s) (partitions s) (originalClk s) c).

Definition handleTMCommit (txn : Z) : T vclock :=
  set_clkInUse None ;;;
  e <- ask ;;
  s <- get ;;
  let parts := involved s in
  sendTo parts (MatPrepare txn) ;;;
  let nPartitions := length parts in
  let max := maxTimestamp (replyClk e) nPartitions in
  emit (ToCommitChan (TMCommitNPartitions (Z.of_nat nPartitions) txn max)) ;;;
  sendTo parts (MatCommit (mkCommit txn max)) ;;;
  reset ;;;
  ret max.

Definition handleTMAbort (txn : Z) : T unit :=
  set_clkInUse None ;;;
  s <- get ;;
  sendTo (involved s) (MatAbort txn) ;;;
  reset.

(** ** Starting and reading *)

(** [IsEqual] compares with the copy of the replica's clock; a client whose clock
    is ahead waits for the goroutine of the commit channel. *)
Definition getClockToUse (clientTs : Timestamp) (id : Z) : T vclock :=
  e <- ask ;;
  let copyClk := CopyInto (localClk e) ∅ in
  set_clkInUse (Some copyClk) ;;;
  let tsToUse := ClockSI.Merge copyClk clientTs in
  if IsEqual tsToUse (Some copyClk) then ret tsToUse
  else
  set_clkInUse (Some tsToUse) ;;;
  emit (ToCommitChan (TMWait (mkWait tsToUse id))) ;;;
  ret (releasedClk e).

Definition handleTMStartTxn (clientTs : Timestamp) (id : Z) : T (Z * vclock) :=
  newClock <- getClockToUse clientTs id ;;
  e <- ask ;;
  modify (fun s => mkOngoing (newTxnId e) (partitions s) (Some (ClockSI.Copy newClock)) (clkInUse s)) ;;;
  ret (newTxnId e, newClock).

(** The requests of a read: each local object to its partition, the others
    together to their servers. *)
Fixpoint sendReads (c : TMConfig) (toLocal : ReadObjectParams RArgs -> MatRequest Upd RArgs)
  (objs : reads) (perServer : list reads) : T (list reads) :=
  match objs with
  | [] => ret perServer
  | r :: objs =>
    loc <- must (getReadLocation c (Bucket (read_key r))) ;;
    match loc with
    | (false, _) =>
        emit (ToPart (channelOf c (read_key r)) (toLocal r)) ;;;
        sendReads c toLocal objs perServer
    | (true, serverIndex) =>
        perServer <- must (addTo perServer serverIndex r) ;;
        sendReads c toLocal objs perServer
    end
  end.

Definition readAll (toLocal : ReadObjectParams RArgs -> MatRequest Upd RArgs) (objs : reads)
  : T (list State) :=
  e <- ask ;;
  perServer <- sendReads (config e) toLocal objs (replicate (nServers (config e)) []) ;;
  (if existsb (fun l => negb (length l =? 0)%nat) perServer then emit (ReadsToServers perServer)
  else ret tt) ;;;
  ret (map (readState e) (seq 0 (length objs))).

Definition handleTMRead (txn : Z) (ts : vclock) (objs : reads) : T (list State) :=
  readAll (fun r => MatRead r ts txn) objs.

(** Without [FAST_SINGLE_READ], which is off by default. *)
Definition handleStaticTMRead (clientTs : Timestamp) (id : Z) (objs : reads) : T (list State * vclock) :=
  tsToUse <- getClockToUse clientTs id ;;
  states <- readAll (fun r => MatStaticRead r tsToUse) objs ;;
  set_clkInUse None ;;;
  ret (states, tsToUse).

(** Operations generated by applying remote transactions are a transaction of
    their own: the loop body of [handleDownstreamGeneratedOps]. *)
Definition handleDownstreamGeneratedOps (ops : gmap Z updates) : T unit :=
  e <- ask ;;
  let parts := map_to_list ops in
  foldM (fun _ p => emit (ToPart (fst p) (MatPrepareForRemote (snd p) (newTxnId e)))) parts tt ;;;
  let max := maxTimestamp (replyClk e) (length parts) in
  emit (ToCommitChan (TMCommitNPartitions (Z.of_nat (length parts)) (newTxnId e) max)) ;;;
  sendTo (map fst parts) (MatCommit (mkCommit (newTxnId e) max)).

(** ** The requests of a client *)

Inductive TMRequest :=
  | readStaticTMRequest (clientTs : Timestamp) (objs : reads)
  | updateStaticTMRequest (upds : updates)
  | readTMRequest (txn : Z) (ts : vclock) (objs : reads)
  | updateTMRequest (txn : Z) (upds : updates)
  | startTxnTMRequest (clientTs : Timestamp)
  | commitTMRequest (txn : Z)
  | abortTMRequest (txn : Z).

Inductive TMReply :=
  | StaticReadReply (states : list State) (ts : vclock)
  | StaticUpdateReply (txn : Z) (ts : vclock)
  | ReadReply (states : list State)
  | UpdateReply
  | StartReply (txn : Z) (ts : vclock)
  | CommitReply (ts : vclock)
  | AbortReply.

Definition handleTMRequest (id : Z) (request : TMRequest) : T TMReply :=
  match request with
  | readStaticTMRequest ts objs =>
    ' (states, clk) <- handleStaticTMRead ts id objs ;; ret (StaticReadReply states clk)
  | updateStaticTMRequest upds =>
    ' (txn, clk) <- handleStaticTMUpdate upds ;; ret (StaticUpdateReply txn clk)
  | readTMRequest txn ts objs => states <- handleTMRead txn ts objs ;; ret (ReadReply states)
  | updateTMRequest txn upds => handleTMUpdate txn upds ;;; ret UpdateReply
  | startTxnTMRequest ts => ' (txn, clk) <- handleTMStartTxn ts id ;; ret (StartReply txn clk)
  | commitTMRequest txn => clk <- handleTMCommit txn ;; ret (CommitReply clk)
  | abortTMRequest txn => handleTMAbort txn ;;; ret AbortReply
  end.

Definition newSession (c : TMConfig) : ongoingTxn := mkOngoing 0 (replicate (nParts c) false) None None.

(** The loop of [listenForProtobufRequests]. *)
Fixpoint listenForProtobufRequests (id : Z) (reqs : list (SessionEnv * TMRequest)) (s : ongoingTxn)
  : option (list TMReply * ongoingTxn * list TMOut) :=
  match reqs with
  | [] => Some ([], s, [])
  | (e, request) :: reqs =>
      match handleTMRequest id request e s with
      | None => None
      | Some (r, s1, o1) =>
          match listenForProtobufRequests id reqs s1 with
          | None => None
          | Some (rs, s2, o2) => Some (r :: rs, s2, o1 ++ o2)
          end
      end
  end.

(** ** Grouping *)

Definition isLocalTo (c : TMConfig) (part : Z) (upd : UpdateObjectParams Upd) : bool :=
  match getReadLocation c (Bucket (upd_key upd)) with
  | Some (false, _) => channelOf c (upd_key upd) =? part
  | _ => false
  end.

Definition isRemoteTo (c : TMConfig) (server : Z) (upd : UpdateObjectParams Upd) : bool :=
  match getReadLocation c (Bucket (upd_key upd)) with
  | Some (true, serverIndex) => serverIndex =? server
  | _ => false
  end.

Definition isRemote (c : TMConfig) (upd : UpdateObjectParams Upd) : bool :=
  match getReadLocation c (Bucket (upd_key upd)) with Some (true, _) => true | _ => false end.

(** Every object has a place: a partition of this server or a server that
    exists. *)
Definition placed (c : TMConfig) (upd : UpdateObjectParams Upd) : Prop :=
  match getReadLocation c (Bucket (upd_key upd)) with
  | Some (false, _) => 0 <= channelOf c (upd_key upd) < Z.of_nat (nParts c)
  | Some (true, serverIndex) => 0 <= serverIndex < Z.of_nat (nServers c)
  | None => False
  end.

Lemma filter_snoc_lookup {A} (f : A -> bool) (acc : list A) x l :
  (if f x then acc ++ [x] else acc) ++ List.filter f l = acc ++ List.filter f (x :: l).
Proof. cbn [List.filter]. destruct (f x); [by rewrite <- app_assoc|done]. Qed.

(** What one loop of [groupWrites] has put in a slice of slices. *)
Lemma addTo_filter (xs xs' : list updates) (f : Z -> UpdateObjectParams Upd -> bool) i upd upds j :
  (forall k, f k upd = (i =? k)) -> 0 <= i ->
  (forall k, xs' !! k = if decide (k = Z.to_nat i) then (fun l => l ++ [upd]) <$> xs !! k else xs !! k) ->
  (fun l => l ++ List.filter (f (Z.of_nat j)) upds) <$> xs' !! j =
  (fun l => l ++ List.filter (f (Z.of_nat j)) (upd :: upds)) <$> xs !! j.
Proof.
  intros Hf Hi Hl. rewrite Hl. cbn [List.filter]. rewrite Hf. case_decide as E.
  - subst j. rewrite Z2Nat.id, Z.eqb_refl by lia.
    destruct (xs !! Z.to_nat i); cbn; [by rewrite <- app_assoc|done].
  - destruct (Z.eqb_spec i (Z.of_nat j)); [lia|done].
Qed.

Lemma filter_none (xs : list updates) (f : Z -> UpdateObjectParams Upd -> bool) upd upds j :
  (forall k, f k upd = false) ->
  (fun l => l ++ List.filter (f (Z.of_nat j)) (upd :: upds)) <$> xs !! j =
  (fun l => l ++ List.filter (f (Z.of_nat j)) upds) <$> xs !! j.
Proof. intros Hf. cbn [List.filter]. by rewrite Hf. Qed.

Lemma groupWrites_loop_ok c upds g :
  Forall (placed c) upds -> length (updsPerPartition g) = nParts c ->
  length (reqsPerServer g) = nServers c ->
  exists g', groupWrites_loop c upds g = Some g' /\
    length (updsPerPartition g') = nParts c /\ length (reqsPerServer g') = nServers c /\
    (forall j, updsPerPartition g' !! j =
       (fun l => l ++ List.filter (isLocalTo c (Z.of_nat j)) upds) <$> updsPerPartition g !! j) /\
    (forall j, reqsPerServer g' !! j =
       (fun l => l ++ List.filter (isRemoteTo c (Z.of_nat j)) upds) <$> reqsPerServer g !! j) /\
    hasRemote g' = hasRemote g || existsb (isRemote c) upds.
Proof.
  revert g. induction upds as [|upd upds IH]; intros g Hp Hl1 Hl2; cbn [groupWrites_loop].
  { exists g. split; [done|]. split; [done|]. split; [done|]. cbn [existsb].
    split; [|split; [|by rewrite orb_false_r]]; intros j; cbn [List.filter].
    - destruct (updsPerPartition g !! j); cbn; by rewrite ?app_nil_r.
    - destruct (reqsPerServer g !! j); cbn; by rewrite ?app_nil_r. }
  apply Forall_cons in Hp as [Hu Hp]. unfold placed in Hu.
  destruct (getReadLocation c (Bucket (upd_key upd))) as [[[] serverIndex]|] eqn:E; [| |done].
  - destruct (addTo_ok (reqsPerServer g) serverIndex upd) as (reqs & Er & Hlr & Hr); [lia|].
    rewrite Er. destruct (IH (mkGrouped (updsPerPartition g) reqs true)) as (g' & Eg & H1 & H2 & Hloc & Hrem & Hh);
      [done|done|cbn; congruence|].
    exists g'. split; [done|]. split; [done|]. split; [done|]. cbn [updsPerPartition reqsPerServer] in *.
    split; [|split].
    + intros j. rewrite Hloc. symmetry. apply filter_none. intros k. unfold isLocalTo. by rewrite E.
    + intros j. rewrite Hrem. apply (addTo_filter (reqsPerServer g) reqs (isRemoteTo c) serverIndex);
        [|lia|done]. intros k. unfold isRemoteTo. by rewrite E.
    + rewrite Hh. cbn [hasRemote orb existsb]. unfold isRemote at 1. rewrite E. by rewrite orb_true_r.
  - destruct (addTo_ok (updsPerPartition g) (channelOf c (upd_key upd)) upd) as (parts & Er & Hlr & Hr); [lia|].
    rewrite Er. destruct (IH (mkGrouped parts (reqsPerServer g) (hasRemote g))) as (g' & Eg & H1 & H2 & Hloc & Hrem & Hh);
      [done|cbn; congruence|done|].
    exists g'. split; [done|]. split; [done|]. split; [done|]. cbn [updsPerPartition reqsPerServer] in *.
    split; [|split].
    + intros j. rewrite Hloc.
      apply (addTo_filter (updsPerPartition g) parts (isLocalTo c) (channelOf c (upd_key upd)));
        [|lia|done]. intros k. unfold isLocalTo. by rewrite E.
    + intros j. rewrite Hrem. symmetry. apply filter_none. intros k. unfold isRemoteTo. by rewrite E.
    + rewrite Hh. cbn [hasRemote existsb]. unfold isRemote at 2. by rewrite E.
Qed.

(** [groupWrites] puts every update in one slice, in order. *)
Lemma groupWrites_ok c upds :
  Forall (placed c) upds ->
  exists g, groupWrites c upds = Some g /\
    length (updsPerPartition g) = nParts c /\ length (reqsPerServer g) = nServers c /\
    (forall j, (j < nParts c)%nat ->
       updsPerPartition g !! j = Some (List.filter (isLocalTo c (Z.of_nat j)) upds)) /\
    (forall j, (j < nServers c)%nat ->
       reqsPerServer g !! j = Some (List.filter (isRemoteTo c (Z.of_nat j)) upds)) /\
    hasRemote g = existsb (isRemote c) upds.
Proof.
  intros Hp. unfold groupWrites.
  destruct (groupWrites_loop_ok c upds (mkGrouped (replicate (nParts c) []) (replicate (nServers c) []) false))
    as (g & E & H1 & H2 & Hloc & Hrem & Hh); [done|apply length_replicate..|].
  exists g. split; [done|]. split; [done|]. split; [done|]. cbn [updsPerPartition reqsPerServer hasRemote] in *.
  split; [|split; [|done]]; intros j Hj.
  - by rewrite Hloc, lookup_replicate_2.
  - by rewrite Hrem, lookup_replicate_2.
Qed.

(** The partitions of this server that get updates. *)
Definition wroteTo (c : TMConfig) (upds : updates) : list Z :=
  List.filter (fun p => existsb (isLocalTo c p) upds) (partIDs (nParts c)).

Lemma imap_partIDs {A} (l : list A) :
  imap (fun i u => (Z.of_nat i, u)) l = zip (partIDs (length l)) l.
Proof.
  unfold partIDs. change (imap (fun i u => (Z.of_nat i, u)) l) with (imap (fun i u => (Z.of_nat (0 + i), u)) l).
  generalize 0%nat as k. induction l as [|x l IH]; intros k; [done|].
  cbn [imap length seq map zip zip_with]. rewrite Nat.add_0_r. f_equal.
  rewrite <- IH. apply imap_ext. intros i y _. cbn. do 2 f_equal. lia.
Qed.

Lemma zip_map_r {A B} (f : A -> B) l : zip l (map f l) = map (fun x => (x, f x)) l.
Proof. induction l as [|x l IH]; [done|]. cbn. f_equal. exact IH. Qed.

Lemma filter_map {A B} (f : B -> bool) (g : A -> B) l :
  List.filter f (map g l) = map g (List.filter (fun x => f (g x)) l).
Proof. induction l as [|x l IH]; [done|]. cbn. destruct (f (g x)); cbn; by rewrite IH. Qed.

Lemma filter_nonempty {A} (f : A -> bool) l :
  negb (length (List.filter f l) =? 0)%nat = existsb f l.
Proof. induction l as [|x l IH]; [done|]. cbn. by destruct (f x). Qed.

Lemma lookup_partIDs n j : partIDs n !! j = if decide (j < n)%nat then Some (Z.of_nat j) else None.
Proof.
  unfold partIDs. rewrite list_lookup_fmap. case_decide.
  - by rewrite lookup_seq_lt.
  - by rewrite lookup_seq_ge by lia.
Qed.

Lemma length_partIDs n : length (partIDs n) = n.
Proof. unfold partIDs. by rewrite length_map, length_seq. Qed.

(** A list with one entry per partition, from what is at each position. *)
Lemma per_partition {A} (n : nat) (l : list A) (f : Z -> A) :
  length l = n -> (forall j, (j < n)%nat -> l !! j = Some (f (Z.of_nat j))) -> l = map f (partIDs n).
Proof.
  intros Hl Hf. apply list_eq. intros j. rewrite list_lookup_fmap, lookup_partIDs.
  case_decide; [by apply Hf|]. apply lookup_ge_None_2. lia.
Qed.

Lemma updated_wroteTo c upds g :
  length (updsPerPartition g) = nParts c ->
  (forall j, (j < nParts c)%nat ->
     updsPerPartition g !! j = Some (List.filter (isLocalTo c (Z.of_nat j)) upds)) ->
  updated g = map (fun p => (p, List.filter (isLocalTo c p) upds)) (wroteTo c upds).
Proof.
  intros Hl Hf. unfold updated, wroteTo. rewrite imap_partIDs, Hl.
  rewrite (per_partition (nParts c) (updsPerPartition g)
    (fun p => List.filter (isLocalTo c p) upds)) by done.
  rewrite zip_map_r, filter_map. f_equal. apply filter_ext. intros p. apply filter_nonempty.
Qed.

Lemma sendTo_ok parts req (e : SessionEnv) s :
  sendTo parts req e s = Some (tt, s, map (fun p => ToPart p req) parts).
Proof.
  unfold sendTo. induction parts as [|p parts IH]; [done|]. cbn [foldM map].
  unfold bind at 1, emit at 1. by rewrite IH.
Qed.

(** ** The flags of a session *)

(** Partition [p] is flagged when [f p] is true. *)
Definition flagged (n : nat) (f : Z -> bool) (s : ongoingTxn) : Prop :=
  partitions s = map f (partIDs n).

Lemma involved_flagged n f s : flagged n f s -> involved s = List.filter f (partIDs n).
Proof.
  unfold flagged, involved. intros ->. rewrite imap_partIDs, length_map, length_partIDs.
  rewrite zip_map_r, filter_map, map_map. cbn [fst snd]. by rewrite map_id.
Qed.

Lemma reset_flagged n : map (fun _ => false) (partIDs n) = replicate n false.
Proof.
  unfold partIDs. rewrite map_map. generalize 0%nat as k.
  induction n as [|n IH]; intros k; [done|]. cbn. f_equal. apply IH.
Qed.

Lemma mark_lookup (ps : list bool) parts j :
  (forall p, p ∈ parts -> 0 <= p) ->
  foldl (fun ps p => <[Z.to_nat p := true]> ps) ps parts !! j =
    if decide (Z.of_nat j ∈ parts) then (fun _ => true) <$> ps !! j else ps !! j.
Proof.
  revert ps. induction parts as [|p parts IH]; intros ps Hp; cbn [foldl].
  { rewrite decide_False; [done|]. apply not_elem_of_nil. }
    rewrite IH by set_solver. pose proof (Hp p ltac:(set_solver)).
    destruct (decide (j = Z.to_nat p)) as [->|Hne].
  - rewrite Z2Nat.id by lia. rewrite (decide_True (P := p ∈ p :: parts)) by set_solver.
    assert (E : <[Z.to_nat p := true]> ps !! Z.to_nat p = (fun _ => true) <$> ps !! Z.to_nat p).
    { destruct (lookup_lt_is_Some ps (Z.to_nat p)) as [_ Hlt].
      destruct (decide (Z.to_nat p < length ps)%nat) as [Hd|Hd].
      - destruct (Hlt Hd) as [b Hb]. rewrite Hb. by apply list_lookup_insert_eq.
      - by rewrite list_insert_ge, (lookup_ge_None_2 ps) by lia. }
    rewrite E. destruct (decide (p ∈ parts)); by destruct (ps !! Z.to_nat p).
  - rewrite list_lookup_insert_ne by done.
    destruct (decide (Z.of_nat j ∈ parts)) as [Hin|Hin].
    + rewrite (decide_True (P := Z.of_nat j ∈ p :: parts)); [done|]. apply elem_of_cons. by right.
    + rewrite (decide_False (P := Z.of_nat j ∈ p :: parts)); [done|].
      rewrite elem_of_cons. intros [E|E]; [lia|done].
Qed.

Lemma mark_flagged n f h :
  foldl (fun ps p => <[Z.to_nat p := true]> ps) (map f (partIDs n)) (List.filter h (partIDs n)) =
  map (fun p => f p || h p) (partIDs n).
Proof.
  apply list_eq. intros j. rewrite mark_lookup.
  2:{ intros p [_ Hp%list_elem_of_In]%elem_of_lfilter. unfold partIDs in Hp.
      apply in_map_iff in Hp as (x & <- & _). lia. }
  rewrite !list_lookup_fmap, lookup_partIDs. destruct (decide (j < n)%nat) as [Hj|Hj]; cbn.
  2:{ by case_decide. }
  assert (Hin : Z.of_nat j ∈ List.filter h (partIDs n) <-> h (Z.of_nat j) = true).
  { rewrite elem_of_lfilter. split; [tauto|]. intros ?. split; [done|].
    apply list_elem_of_lookup. exists j. rewrite lookup_partIDs. by rewrite decide_True. }
    case_decide as Hd; rewrite Hin in Hd.
  - by rewrite Hd, orb_true_r.
  - apply not_true_is_false in Hd. by rewrite Hd, orb_false_r.
Qed.

Lemma updLoop_ok txn (l : list (Z * updates)) (e : SessionEnv) s :
  foldM (fun _ p =>
    modify (fun s => set_partitions (<[Z.to_nat (fst p) := true]> (partitions s)) s) ;;;
    emit (ToPart (fst p) (MatWrite (snd p) txn))) l tt e s =
  Some (tt, set_partitions (foldl (fun ps p => <[Z.to_nat p := true]> ps) (partitions s) (map fst l)) s,
        map (fun p => ToPart (fst p) (MatWrite (snd p) txn)) l).
Proof.
  revert s. induction l as [|p l IH]; intros s; cbn [foldM map foldl]; [by destruct s|].
  unfold bind at 1. cbn [bind modify emit]. rewrite IH. done.
Qed.

(** The requests of an update. *)
Definition updateOut (c : TMConfig) (txn : Z) (upds : updates) (servers : list updates) : list (TMOut) :=
  map (fun p => ToPart p (MatWrite (List.filter (isLocalTo c p) upds) txn)) (wroteTo c upds) ++
  (if existsb (isRemote c) upds then [UpdsToServers servers] else []).

Lemma handleTMUpdate_ok txn upds (e : SessionEnv) s f :
  Forall (placed (config e)) upds -> flagged (nParts (config e)) f s ->
  exists servers,
    handleTMUpdate txn upds e s =
      Some (tt, set_partitions
                  (map (fun p => f p || existsb (isLocalTo (config e) p) upds) (partIDs (nParts (config e)))) s,
            updateOut (config e) txn upds servers) /\
    length servers = nServers (config e) /\
    (forall j, (j < nServers (config e))%nat ->
       servers !! j = Some (List.filter (isRemoteTo (config e) (Z.of_nat j)) upds)).
Proof.
  intros Hp Hf. destruct (groupWrites_ok (config e) upds Hp) as (g & Eg & H1 & H2 & Hloc & Hrem & Hh).
  exists (reqsPerServer g). split; [|done].
  unfold handleTMUpdate. unfold bind at 1, ask. unfold bind at 1. rewrite Eg. cbn [must ret].
  unfold bind at 1. rewrite updLoop_ok, (updated_wroteTo (config e) upds g H1 Hloc), Hh.
  rewrite !map_map. cbn [fst snd]. rewrite map_id. unfold flagged in Hf. rewrite Hf.
  unfold wroteTo at 1. rewrite mark_flagged. unfold updateOut.
  destruct (existsb (isRemote (config e)) upds); cbn [emit ret app]; by rewrite ?app_nil_r.
Qed.

Lemma handleTMCommit_ok txn (e : SessionEnv) s f :
  flagged (nParts (config e)) f s ->
  let P := List.filter f (partIDs (nParts (config e))) in
  let clk := maxTimestamp (replyClk e) (length P) in
  handleTMCommit txn e s =
    Some (clk, newSession (config e),
      map (fun p => ToPart p (MatPrepare txn)) P ++
      [ToCommitChan (TMCommitNPartitions (Z.of_nat (length P)) txn clk)] ++
      map (fun p => ToPart p (MatCommit (mkCommit txn clk))) P).
Proof.
  intros Hf P clk. unfold handleTMCommit, set_clkInUse, reset.
  unfold bind at 1, modify. unfold bind at 1, ask. unfold bind at 1, get.
  assert (Ei : involved (mkOngoing (txnId s) (partitions s) (originalClk s) None) = P).
  { apply involved_flagged. exact Hf. }
    rewrite Ei. unfold bind at 1. rewrite sendTo_ok. unfold bind at 1, emit.
    unfold bind at 1. rewrite sendTo_ok. fold clk. cbn. by rewrite app_nil_r.
Qed.

Lemma handleTMAbort_ok txn (e : SessionEnv) s f :
  flagged (nParts (config e)) f s ->
  handleTMAbort txn e s =
    Some (tt, newSession (config e),
      map (fun p => ToPart p (MatAbort txn)) (List.filter f (partIDs (nParts (config e))))).
Proof.
  intros Hf. unfold handleTMAbort, set_clkInUse, reset.
  unfold bind at 1, modify. unfold bind at 1, get.
  assert (Ei : involved (mkOngoing (txnId s) (partitions s) (originalClk s) None) =
    List.filter f (partIDs (nParts (config e)))).
  { apply involved_flagged. exact Hf. }
    rewrite Ei. unfold bind at 1. rewrite sendTo_ok. cbn. by rewrite app_nil_r.
Qed.

(** ** A transaction of a client *)

(** The updates that the output hands to partition [p], in order. *)
Definition writtenTo (p : Z) (o : list TMOut) : updates :=
  flat_map (fun x => match x with
                     | ToPart q (MatWrite upds _) => if q =? p then upds else []
                     | _ => [] end) o.

(** The partitions that get updates from the requests [batches]. *)
Definition wroteAll (c : TMConfig) (batches : list (SessionEnv * updates)) : list Z :=
  List.filter (fun p => existsb (fun b => existsb (isLocalTo c p) (snd b)) batches) (partIDs (nParts c)).

Definition updateReqs (txn : Z) (batches : list (SessionEnv * updates)) :
  list (SessionEnv * TMRequest) := map (fun b => (fst b, updateTMRequest txn (snd b))) batches.

Definition batches_ok (c : TMConfig) (batches : list (SessionEnv * updates)) : Prop :=
  Forall (fun b => config (fst b) = c /\ Forall (placed c) (snd b)) batches.

Lemma writtenTo_app p o1 o2 : writtenTo p (o1 ++ o2) = writtenTo p o1 ++ writtenTo p o2.
Proof. apply flat_map_app. Qed.

Lemma writtenTo_parts p (f : Z -> updates) (txn : Z) parts :
  NoDup parts ->
  writtenTo p (map (fun q => ToPart q (MatWrite (f q) txn)) parts) = if decide (p ∈ parts) then f p else [].
Proof.
  induction 1 as [|q parts Hq Hnd IH]; cbn [map writtenTo flat_map].
  { rewrite decide_False; [done|]. apply not_elem_of_nil. }
    fold (writtenTo p (map (fun q => ToPart q (MatWrite (f q) txn)) parts)). rewrite IH.
    destruct (Z.eqb_spec q p) as [->|Hne].
  - rewrite decide_False by done. rewrite (decide_True (P := p ∈ p :: parts)) by set_solver.
    apply app_nil_r.
  - destruct (decide (p ∈ parts)) as [Hin|Hin].
    + by rewrite (decide_True (P := p ∈ q :: parts)) by set_solver.
    + by rewrite (decide_False (P := p ∈ q :: parts)) by set_solver.
Qed.

Lemma NoDup_partIDs n : NoDup (partIDs n).
Proof.
  unfold partIDs. apply NoDup_fmap_2; [|apply NoDup_ListNoDup, seq_NoDup].
  intros x y. apply Nat2Z.inj.
Qed.

Lemma writtenTo_updateOut c txn upds servers p :
  0 <= p < Z.of_nat (nParts c) ->
  writtenTo p (updateOut c txn upds servers) = List.filter (isLocalTo c p) upds.
Proof.
  intros Hp. unfold updateOut. rewrite writtenTo_app.
  rewrite (writtenTo_parts p (fun q => List.filter (isLocalTo c q) upds))
    by (apply NoDup_lfilter, NoDup_partIDs).
  assert (E : writtenTo p (if existsb (isRemote c) upds then [UpdsToServers servers] else []) = [])
    by by destruct (existsb _ _).
  rewrite E, app_nil_r. case_decide as Hd; [done|].
  destruct (existsb (isLocalTo c p) upds) eqn:Ex.
  - exfalso. apply Hd. unfold wroteTo. apply elem_of_lfilter. split; [done|].
    apply list_elem_of_lookup. exists (Z.to_nat p). rewrite lookup_partIDs, decide_True by lia.
    by rewrite Z2Nat.id by lia.
  - rewrite <- filter_nonempty in Ex. by destruct (List.filter (isLocalTo c p) upds).
Qed.

Lemma updates_ok c id txn batches s f :
  batches_ok c batches -> flagged (nParts c) f s ->
  exists rs s' o,
    listenForProtobufRequests id (updateReqs txn batches) s = Some (rs, s', o) /\
    flagged (nParts c) (fun p => f p || existsb (fun b => existsb (isLocalTo c p) (snd b)) batches) s' /\
    forall p, 0 <= p < Z.of_nat (nParts c) ->
      writtenTo p o = List.filter (isLocalTo c p) (concat (map snd batches)).
Proof.
  revert s f. induction batches as [|[e upds] batches IH]; intros s f Hb Hf.
  { exists [], s, []. split; [done|]. split; [|done]. cbn [existsb]. unfold flagged in *. rewrite Hf.
    apply map_ext. intros p. by rewrite orb_false_r. }
    apply Forall_cons in Hb as [[Hc Hp] Hb]. cbn [fst snd] in *. subst c.
    destruct (handleTMUpdate_ok txn upds e s f Hp Hf) as (servers & E & _).
    cbn [updateReqs map listenForProtobufRequests fst snd handleTMRequest]. unfold bind at 1. rewrite E.
    cbn [ret]. rewrite app_nil_r.
    match type of E with _ = Some (_, ?s1, _) =>
    destruct (IH s1 (fun p => f p || existsb (isLocalTo (config e) p) upds) Hb eq_refl)
      as (rs & s' & o & E' & Hf' & Hw)
    end.
    fold (updateReqs txn batches). rewrite E'. eexists _, _, _. split; [reflexivity|]. split.
  - unfold flagged in *. rewrite Hf'. apply map_ext. intros p. cbn [existsb snd]. by rewrite orb_assoc.
  - intros p Hpp. rewrite writtenTo_app, writtenTo_updateOut, Hw by done. cbn [map concat snd].
    symmetry. apply List.filter_app.
Qed.

(** C5. A transaction of a client: whatever its update requests, each partition is
    handed exactly the transaction's updates for its keys, in order; a commit
    then prepares exactly the partitions that got updates, announces the
    transaction to the commit channel with their number before any of them is
    told to commit, and tells exactly them to commit, all with the one clock it
    answers; an abort reaches exactly them.  Either way the session is as new. *)
Theorem transaction_commits_where_it_wrote (c : TMConfig) (id txn : Z)
    (batches : list (SessionEnv * updates)) (e : SessionEnv) :
  batches_ok c batches -> config e = c ->
  let P := wroteAll c batches in
  let clk := maxTimestamp (replyClk e) (length P) in
  exists rs s o,
    listenForProtobufRequests id (updateReqs txn batches) (newSession c) = Some (rs, s, o) /\
    (forall p, 0 <= p < Z.of_nat (nParts c) ->
       writtenTo p o = List.filter (isLocalTo c p) (concat (map snd batches))) /\
    handleTMRequest id (commitTMRequest txn) e s =
      Some (CommitReply clk, newSession c,
        map (fun p => ToPart p (MatPrepare txn)) P ++
        [ToCommitChan (TMCommitNPartitions (Z.of_nat (length P)) txn clk)] ++
        map (fun p => ToPart p (MatCommit (mkCommit txn clk))) P) /\
    handleTMRequest id (abortTMRequest txn) e s =
      Some (AbortReply, newSession c, map (fun p => ToPart p (MatAbort txn)) P).
Proof.
  intros Hb Hc P clk.
  destruct (updates_ok c id txn batches (newSession c) (fun _ => false) Hb) as (rs & s & o & E & Hf & Hw).
  { unfold flagged. symmetry. apply reset_flagged. }
    exists rs, s, o. split; [done|]. split; [done|]. subst c. cbn [orb] in Hf. split.
  - cbn [handleTMRequest]. unfold bind. rewrite (handleTMCommit_ok txn e s _ Hf).
    cbn [ret]. by rewrite app_nil_r.
  - cbn [handleTMRequest]. unfold bind. rewrite (handleTMAbort_ok txn e s _ Hf).
    cbn [ret]. by rewrite app_nil_r.
Qed.

(** A static update, a transaction in one request: each partition with
    updates gets them in order together with the transaction's identifier, the
    transaction is announced with the number of these partitions, and then they
    are told to commit with the announced clock; the updates for other servers
    are sent last. *)
Theorem static_update_runs_both_phases (id : Z) (upds : updates) (e : SessionEnv) (s : ongoingTxn) :
  Forall (placed (config e)) upds ->
  let P := wroteTo (config e) upds in
  let clk := maxTimestamp (replyClk e) (length P) in
  exists servers,
    handleTMRequest id (updateStaticTMRequest upds) e s =
      Some (StaticUpdateReply (newTxnId e) clk, s,
        map (fun p => ToPart p (MatStaticWrite (List.filter (isLocalTo (config e) p) upds) (newTxnId e))) P ++
        [ToCommitChan (TMCommitNPartitions (Z.of_nat (length P)) (newTxnId e) clk)] ++
        map (fun p => ToPart p (MatCommit (mkCommit (newTxnId e) clk))) P ++
        (if existsb (isRemote (config e)) upds then [UpdsToServers servers] else [])) /\
    (forall j, (j < nServers (config e))%nat ->
       servers !! j = Some (List.filter (isRemoteTo (config e) (Z.of_nat j)) upds)).
Proof.
  intros Hp P clk. destruct (groupWrites_ok (config e) upds Hp) as (g & Eg & H1 & H2 & Hloc & Hrem & Hh).
  exists (reqsPerServer g). split; [|done].
  cbn [handleTMRequest]. unfold bind at 1, handleStaticTMUpdate.
  unfold bind at 1, ask. unfold bind at 1. rewrite Eg. cbn [must ret].
  rewrite (updated_wroteTo (config e) upds g H1 Hloc), length_map. fold P clk.
  assert (Eloop : forall (l : list (Z * updates)) (st : ongoingTxn),
    foldM (fun _ p => emit (ToPart (fst p) (MatStaticWrite (snd p) (newTxnId e)))) l tt e st =
    Some (tt, st, map (fun p => ToPart (fst p) (MatStaticWrite (snd p) (newTxnId e))) l)).
  { induction l as [|p l IH]; intros st; [done|]. cbn [foldM map]. unfold bind at 1, emit at 1. by rewrite IH. }
    unfold bind at 1. rewrite Eloop. unfold bind at 1, emit. unfold bind at 1. rewrite sendTo_ok.
    rewrite !map_map. cbn [fst snd]. rewrite Hh.
    destruct (existsb (isRemote (config e)) upds); cbn; by rewrite ?app_nil_r.
Qed.

(** ** The clock of a transaction *)

Definition nonneg (c : vclock) : Prop := forall i, 0 <= GetPos c i.

Lemma IsHigherOrEqual_Dummy c : nonneg c -> IsHigherOrEqual c (Some DummyTs) = true.
Proof.
  intros Hc. rewrite IsHigherOrEqual_bools. apply negb_true_iff. apply lt_in_false. intros i _.
  specialize (Hc i). unfold DummyTs, NewTimestampFromId, GetPos at 1.
  destruct (decide (i = 0)) as [->|]; [by rewrite lookup_singleton_eq|by rewrite lookup_singleton_ne].
Qed.

(** The loop over a list of replies, in order of arrival. *)
Definition maxOf (l : list vclock) (start : vclock) : vclock :=
  foldl (fun max r => if IsHigherOrEqual r (Some max) then r else max) start l.

Lemma maxTimestamp_list reply n :
  maxTimestamp reply n = maxOf (map reply (seq 0 n)) DummyTs.
Proof.
  unfold maxTimestamp, maxOf. generalize DummyTs. generalize (seq 0 n) as l.
  induction l as [|i l IH]; intros m; [done|]. apply IH.
Qed.

Definition comparable (l : list vclock) : Prop :=
  forall a b, a ∈ l -> b ∈ l -> same_dom a b /\ (vle a b \/ vle b a).

Lemma maxOf_comparable l start :
  comparable (start :: l) ->
  maxOf l start ∈ start :: l /\ forall r, r ∈ start :: l -> vle r (maxOf l start).
Proof.
  revert start. induction l as [|r l IH]; intros start Hc.
  { split; [set_solver|]. intros r Hr. apply list_elem_of_singleton in Hr as ->. apply vle_refl. }
    cbn [maxOf foldl]. fold (maxOf l (if IsHigherOrEqual r (Some start) then r else start)).
    destruct (Hc r start) as [Hd Hcmp]; [set_solver..|].
    pose proof (IsHigherOrEqual_vle r start Hd) as Hv.
    destruct (IsHigherOrEqual r (Some start)).
  - destruct (IH r) as [Hin Hmax]; [intros a b Ha Hb; apply Hc; set_solver|].
    split; [set_solver|]. intros q Hq. apply elem_of_cons in Hq as [->|Hq]; [|by apply Hmax].
    eapply vle_trans; [by apply Hv|]. apply Hmax. set_solver.
  - assert (Hr : vle r start) by (destruct Hcmp as [|H]; [done|by apply Hv in H]).
    destruct (IH start) as [Hin Hmax]; [intros a b Ha Hb; apply Hc; set_solver|].
    split; [set_solver|]. intros q Hq. apply elem_of_cons in Hq as [->|Hq]; [apply Hmax; set_solver|].
    apply elem_of_cons in Hq as [->|Hq]; [|apply Hmax; set_solver].
    eapply vle_trans; [exact Hr|]. apply Hmax. set_solver.
Qed.

(** When the clocks that the partitions propose are comparable, the commit
    clock of a transaction is the highest of them: one of the proposals, at or
    above all the others, and so the same in every order of arrival. *)
Theorem commit_clock_is_the_highest_proposal (reply : nat -> vclock) (n : nat) :
  (0 < n)%nat -> (forall i, (i < n)%nat -> nonneg (reply i)) -> comparable (map reply (seq 0 n)) ->
  (exists i, (i < n)%nat /\ maxTimestamp reply n = reply i) /\
  (forall i, (i < n)%nat -> vle (reply i) (maxTimestamp reply n)) /\
  (forall reply', map reply' (seq 0 n) ≡ₚ map reply (seq 0 n) ->
     maxTimestamp reply' n = maxTimestamp reply n).
Proof.
  intros Hn Hpos Hc.
  assert (Hin : forall r, r ∈ map reply (seq 0 n) <-> exists i, (i < n)%nat /\ reply i = r).
  { intros r. rewrite list_elem_of_In, in_map_iff. setoid_rewrite in_seq. split.
    - intros (i & <- & ?). exists i. split; [lia|done].
    - intros (i & ? & <-). exists i. split; [done|lia]. }
  assert (Hmax : forall l, l ≡ₚ map reply (seq 0 n) ->
    maxOf l DummyTs ∈ l /\ forall r, r ∈ l -> vle r (maxOf l DummyTs)).
  { intros l Hl. destruct l as [|first l].
    { apply Permutation_length in Hl. rewrite length_map, length_seq in Hl. cbn in Hl. lia. }
      assert (Hf : nonneg first).
    { assert (Hfin : first ∈ map reply (seq 0 n)) by (rewrite <- Hl; set_solver).
      apply Hin in Hfin as (i & Hi & <-). by apply Hpos. }
      cbn [maxOf foldl]. rewrite IsHigherOrEqual_Dummy by done. apply maxOf_comparable.
      intros a b Ha Hb. apply Hc; rewrite <- Hl; done. }
  pose proof (maxTimestamp_list reply n) as E.
  destruct (Hmax (map reply (seq 0 n)) (Permutation_refl _)) as [H1 H2]. rewrite <- E in H1, H2.
  split; [|split].
  - apply Hin in H1 as (i & Hi & Ei). exists i. by split.
  - intros i Hi. apply H2, Hin. by exists i.
  - intros reply' Hp. pose proof (maxTimestamp_list reply' n) as E'.
    destruct (Hmax _ Hp) as [H1' H2']. rewrite <- E' in H1', H2'. rewrite Hp in H1'.
    destruct (Hc _ _ H1' H1) as [Hd _].
    apply vle_antisym; [done|by apply H2|]. apply H2'. by rewrite Hp.
Qed.

(** When two proposals are concurrent the commit clock is whichever arrives
    first, and it is not at or above the clock the other partition prepared. *)
Theorem concurrent_proposals_depend_on_arrival (a b : vclock) :
  same_dom a b -> nonneg a -> nonneg b -> Compare a (Some b) = ConcurrentTs ->
  maxOf [a; b] DummyTs = a /\ maxOf [b; a] DummyTs = b /\
  IsHigherOrEqual a (Some b) = false /\ IsHigherOrEqual b (Some a) = false.
Proof.
  intros Hd Ha Hb. rewrite Compare_bools.
  pose proof (lt_in_flip a b Hd) as E1. pose proof (lt_in_flip b a (same_dom_sym _ _ Hd)) as E2.
  destruct (lt_in a b) eqn:El, (gt_in a b) eqn:Eg; cbn [ts_result]; try done. intros _.
  assert (Hab : IsHigherOrEqual a (Some b) = false) by by rewrite IsHigherOrEqual_bools, El.
  assert (Hba : IsHigherOrEqual b (Some a) = false) by (rewrite IsHigherOrEqual_bools, E2; done).
  cbn [maxOf foldl]. rewrite !IsHigherOrEqual_Dummy by done. by rewrite Hab, Hba.
Qed.

(** ** The clock of a read *)

Lemma CopyInto_empty c : CopyInto c ∅ = c.
Proof. exact (Copy_id c). Qed.

(** A client never reads below its own clock nor below the replica's: the
    clock a request reads with is at or above both, either at once or, after
    waiting, because the commit goroutine answers with a clock at or above the
    target it was asked for; the wait asks for exactly the join of both. *)
Theorem read_clock_covers_the_client (e : SessionEnv) (s : ongoingTxn) (clientTs : vclock) (id : Z) :
  same_dom (localClk e) clientTs -> same_dom (localClk e) (releasedClk e) ->
  IsLowerOrEqual (ClockSI.Merge (localClk e) (Some clientTs)) (Some (releasedClk e)) = true ->
  exists clk s' o, getClockToUse (Some clientTs) id e s = Some (clk, s', o) /\
    vle clientTs clk /\ vle (localClk e) clk /\
    partitions s' = partitions s /\
    (o = [] \/ o = [ToCommitChan (TMWait (mkWait (ClockSI.Merge (localClk e) (Some clientTs)) id))]).
Proof.
  intros Hd Hr Hle. set (target := ClockSI.Merge (localClk e) (Some clientTs)) in *.
  assert (Hdt : same_dom target (localClk e)) by (apply same_dom_sym; apply Merge_dom).
  assert (H1 : vle clientTs target /\ vle (localClk e) target).
  { split; intros i; unfold target; rewrite Merge_GetPos by done; lia. }
    unfold getClockToUse. unfold bind at 1, ask. rewrite CopyInto_empty. cbv zeta.
    unfold bind at 1, set_clkInUse, modify. fold target.
    destruct (IsEqual target (Some (localClk e))) eqn:E.
  - eexists _, _, _. split; [reflexivity|]. split; [apply H1|]. split; [apply H1|]. split; [done|by left].
  - apply IsLowerOrEqual_vle in Hle; [|unfold same_dom in *; congruence].
    eexists _, _, _. split; [reflexivity|]. split; [eapply vle_trans; [apply H1|done]|].
    split; [eapply vle_trans; [apply H1|done]|]. split; [done|by right].
Qed.
End session.
Arguments TMOut : clear implicits.
Arguments TMRequest : clear implicits.
Arguments SessionEnv : clear implicits.

Module TMExample.
(** Two partitions; the hash sends keys of more than one character to the second. *)
#[export] Instance hash : KeyHash :=
  { CRDTType_String _ := EmptyString;
    StringSum64 s := if (1 <? String.length s)%nat then 2 ^ 63 else 0 }.
Definition conf : TMConfig := mkConfig 2 false ["b"%string] {["*"%string := [0]]} 1.
Definition env : SessionEnv Z :=
  mkSession conf 77 {[1 := 4; 2 := 0]} (fun i => {[1 := 5 + Z.of_nat i; 2 := 0]}) {[1 := 6; 2 := 3]}
    (fun _ => 0).
Definition local1 : UpdateObjectParams Z := mkUpd (mkKey EmptyString 0 "b") 10.
Definition local2 : UpdateObjectParams Z := mkUpd (mkKey "k" 0 "b") 20.
Definition remote1 : UpdateObjectParams Z := mkUpd (mkKey "k" 0 "other") 30.

Lemma all_placed : Forall (placed conf) [local2; remote1; local1; local2].
Proof. repeat constructor; vm_compute; congruence. Qed.
Lemma one_placed : Forall (placed conf) [local2].
Proof. repeat constructor; vm_compute; congruence. Qed.

Lemma comparable_replies : comparable (map (replyClk env) (seq 0 2)).
Proof.
  assert (Hv : vle {[1 := 5; 2 := 0]} {[1 := 6; 2 := 0]}).
  { apply IsLowerOrEqual_vle; vm_compute; reflexivity. }
    intros a b Ha Hb. cbn [map seq replyClk env] in Ha, Hb.
    apply list_elem_of_In in Ha as [<-|[<-|[]]], Hb as [<-|[<-|[]]]; (split; [by vm_compute|]).
  - left. apply vle_refl.
  - left. exact Hv.
  - right. exact Hv.
  - left. apply vle_refl.
Qed.

Lemma nonneg_clk (x y : Z) : 0 <= x -> 0 <= y -> nonneg {[1 := x; 2 := y]}.
Proof.
  intros Hx Hy i. unfold GetPos. destruct (decide (i = 1)) as [->|]; [by rewrite lookup_insert_eq|].
  rewrite lookup_insert_ne by done.
  destruct (decide (i = 2)) as [->|]; [by rewrite lookup_singleton_eq|by rewrite lookup_singleton_ne].
Qed.
End TMExample.
#[local] Existing Instance TMExample.hash.

Lemma transaction_commits_where_it_wrote_witness :
    let batches := [(TMExample.env, [TMExample.local2]); (TMExample.env, [TMExample.local2])] in
    exists rs s o,
      listenForProtobufRequests (RArgs := Z) 3 (updateReqs 77 batches) (newSession TMExample.conf) =
        Some (rs, s, o) /\
      writtenTo 1 o = [TMExample.local2; TMExample.local2] /\
      handleTMRequest (Upd := Z) (RArgs := Z) 3 (commitTMRequest 77) TMExample.env s =
        Some (CommitReply {[1 := 5; 2 := 0]}, newSession TMExample.conf,
          [ToPart 1 (MatPrepare 77); ToCommitChan (TMCommitNPartitions 1 77 {[1 := 5; 2 := 0]});
           ToPart 1 (MatCommit (mkCommit 77 {[1 := 5; 2 := 0]}))]).
Proof.
    intros batches.
    assert (Hb : batches_ok TMExample.conf batches)
      by (constructor; [|constructor; [|constructor]]; split; first [reflexivity|exact TMExample.one_placed]).
    destruct (transaction_commits_where_it_wrote (RArgs := Z) TMExample.conf 3 77 batches TMExample.env Hb eq_refl)
      as (rs & s & o & E & Hw & Hc & _).
    exists rs, s, o. split; [exact E|]. split.
    - specialize (Hw 1 ltac:(vm_compute; split; congruence)). rewrite Hw. vm_compute. reflexivity.
    - rewrite Hc. vm_compute. reflexivity.
Defined.

Lemma static_update_runs_both_phases_witness :
    let upds := [TMExample.local2; TMExample.remote1; TMExample.local1; TMExample.local2] in
    exists servers,
      handleTMRequest (Upd := Z) (RArgs := Z) 3 (updateStaticTMRequest upds) TMExample.env (newSession TMExample.conf) =
        Some (StaticUpdateReply 77 {[1 := 6; 2 := 0]}, newSession TMExample.conf,
          [ToPart 0 (MatStaticWrite [TMExample.local1] 77);
           ToPart 1 (MatStaticWrite [TMExample.local2; TMExample.local2] 77);
           ToCommitChan (TMCommitNPartitions 2 77 {[1 := 6; 2 := 0]});
           ToPart 0 (MatCommit (mkCommit 77 {[1 := 6; 2 := 0]}));
           ToPart 1 (MatCommit (mkCommit 77 {[1 := 6; 2 := 0]}));
           UpdsToServers servers]) /\
      servers !! 0%nat = Some [TMExample.remote1].
Proof.
    intros upds.
    destruct (static_update_runs_both_phases (RArgs := Z) 3 upds TMExample.env (newSession TMExample.conf)
      TMExample.all_placed) as (servers & E & Hs).
    exists servers. split.
    - rewrite E. vm_compute. reflexivity.
    - rewrite (Hs 0%nat ltac:(vm_compute; repeat constructor)). vm_compute. reflexivity.
Defined.

Lemma commit_clock_is_the_highest_proposal_witness :
    (forall i, (i < 2)%nat -> vle (replyClk TMExample.env i) (maxTimestamp (replyClk TMExample.env) 2)) /\
    maxTimestamp (replyClk TMExample.env) 2 = {[1 := 6; 2 := 0]}.
Proof.
    split; [|vm_compute; reflexivity].
    assert (Hpos : forall i, (i < 2)%nat -> nonneg (replyClk TMExample.env i)).
    { intros i _. apply TMExample.nonneg_clk; lia. }
      exact (proj1 (proj2 (commit_clock_is_the_highest_proposal (replyClk TMExample.env) 2
      ltac:(lia) Hpos TMExample.comparable_replies))).
Defined.

Lemma concurrent_proposals_depend_on_arrival_witness :
    let a : vclock := {[1 := 5; 2 := 0]} in let b : vclock := {[1 := 4; 2 := 3]} in
    maxOf [a; b] DummyTs = a /\ maxOf [b; a] DummyTs = b /\
    IsHigherOrEqual a (Some b) = false /\ IsHigherOrEqual b (Some a) = false.
Proof.
    intros a b.
    apply (concurrent_proposals_depend_on_arrival a b).
    - vm_compute; reflexivity.
    - apply TMExample.nonneg_clk; lia.
    - apply TMExample.nonneg_clk; lia.
    - vm_compute; reflexivity.
Defined.

Lemma read_clock_covers_the_client_witness :
    exists clk s' o, getClockToUse (Upd := Z) (RArgs := Z) (Some {[1 := 2; 2 := 3]}) 9 TMExample.env
        (newSession TMExample.conf) = Some (clk, s', o) /\
      vle {[1 := 2; 2 := 3]} clk /\ o = [ToCommitChan (TMWait (mkWait {[1 := 4; 2 := 3]} 9))].
Proof.
    pose (client := ({[1 := 2; 2 := 3]} : vclock)).
    assert (H1 : same_dom (localClk TMExample.env) client) by (vm_compute; reflexivity).
    assert (H2 : same_dom (localClk TMExample.env) (releasedClk TMExample.env)) by (vm_compute; reflexivity).
    assert (H3 : IsLowerOrEqual (ClockSI.Merge (localClk TMExample.env) (Some client))
      (Some (releasedClk TMExample.env)) = true) by (vm_compute; reflexivity).
    destruct (read_clock_covers_the_client (Upd := Z) (RArgs := Z) TMExample.env (newSession TMExample.conf)
      client 9 H1 H2 H3) as (clk & s' & o & E & Hv & _).
    exists clk, s', o. split; [exact E|]. split; [exact Hv|].
    assert (E2 : getClockToUse (Upd := Z) (RArgs := Z) (Some client) 9 TMExample.env
        (newSession TMExample.conf) = Some ({[1 := 6; 2 := 3]},
          mkOngoing 0 [false; false] None (Some {[1 := 4; 2 := 3]}),
          [ToCommitChan (TMWait (mkWait {[1 := 4; 2 := 3]} 9))])) by (vm_compute; reflexivity).
    rewrite E2 in E. injection E as _ _ <-. reflexivity.
Defined.
