(* ===== verification/BoundedCounter.v ===== *)
(** * The bounded counter: boundedCounter.go (src/crdt/crdt)

    A counter with a bound that no replica may break.  The distance to the
    bound is split into rights: a replica decrements with its own rights only,
    and asks other replicas for theirs.  The first part models the operations
    of the object; the second a system of replicas that send each other what
    they accept, in causal order, and shows that the bound holds at all of them.
    A map with its missing keys read as 0 is [perm]; the slice or map the code
    ranges over is a parameter where the order matters. *)

From S2P Require Import Prelude ClockSI Inversible.
From Stdlib Require Import ZArith Lia Bool.
From stdpp Require Import base tactics numbers gmap sorting functions list.
#[local] Open Scope Z_scope.

Abbreviation rights := (gmap Z Z).

(** Reading a missing key of a map gives 0. *)
Definition perm (m : rights) (id : Z) : Z := default 0 (m !! id).

Record BoundedCounterCrdt := mkBC {
  permissions : rights;
  decs : rights;
  limit : Z;
  replicaID : Z;
  value : Z
}.

Inductive UpdArgs :=
  | Increment (Change : Z)
  | Decrement (Change : Z)
  | SetCounterBound (Bound : Z) (CompEq : bool) (InitialValue : Z)
  | TransferCounter (ToTransfer FromID ToID : Z) (ToReplicate : bool).

(** [ToReplicate] is a pointer in the code: all copies of an operation read
    what [applyDownstream] writes to it. *)
Inductive DownArgs :=
  | DownstreamIncBCounter (Change ReplicaID : Z)
  | DownstreamDecBCounter (Change ReplicaID : Z) (ToReplicate : bool)
  | DownstreamSetBound (Bound : Z) (CompEq : bool) (InitialValue : Z)
  | DownstreamTransfer (ToTransfer FromID ToID : Z) (ToReplicate : bool)
  | NoOp.

Definition MustReplicate (op : DownArgs) : bool :=
  match op with
  | DownstreamIncBCounter _ _ | DownstreamSetBound _ _ _ => true
  | DownstreamDecBCounter _ _ b | DownstreamTransfer _ _ _ b => b
  | NoOp => false
  end.

(** [known] are the identifiers of all replicas, held by package clocksi. *)
Definition Initialize (known : list Z) (replicaID : Z) : BoundedCounterCrdt :=
  let zeros := foldr (fun id m => <[id := 0]> m) (∅ : rights) known in
  mkBC zeros zeros 0 replicaID 0.

Definition initializeFromSnapshot (crdt : BoundedCounterCrdt) (replicaID : Z)
  : BoundedCounterCrdt := crdt.

(** [None]: nothing is returned when the transaction has pending updates. *)
Definition Read (crdt : BoundedCounterCrdt) (updsNotYetApplied : list UpdArgs) : option Z :=
  match updsNotYetApplied with [] => Some (value crdt) | _ => None end.

Definition Update (crdt : BoundedCounterCrdt) (args : UpdArgs) : DownArgs :=
  match args with
  | Increment c => DownstreamIncBCounter c (replicaID crdt)
  | Decrement c => DownstreamDecBCounter c (replicaID crdt) false
  | SetCounterBound b eq v => DownstreamSetBound b eq v
  | TransferCounter t f to rep =>
      if t >? Z.quot (perm (permissions crdt) (replicaID crdt)) 2 then NoOp
      else DownstreamTransfer t f to rep
  end.

Definition set_perms (perms : rights) (value : Z) (crdt : BoundedCounterCrdt) :=
  mkBC perms (decs crdt) (limit crdt) (replicaID crdt) value.

(** [m[id] += v]. *)
Definition addPerm (m : rights) (id v : Z) : rights := <[id := int32 (perm m id + v)]> m.

Definition increment (crdt : BoundedCounterCrdt) (change id : Z) : BoundedCounterCrdt :=
  set_perms (addPerm (permissions crdt) id change) (int32 (value crdt + change)) crdt.

(** The flag is what is written to [ToReplicate]. *)
Definition decrement (crdt : BoundedCounterCrdt) (change id : Z) : BoundedCounterCrdt * bool :=
  if change >? perm (permissions crdt) id then (crdt, false)
  else (set_perms (addPerm (permissions crdt) id (- change)) (int32 (value crdt - change)) crdt,
        true).

Definition addPerms (ids : list Z) (v : Z) (m : rights) : rights :=
  foldl (fun m id => addPerm m id v) m ids.

(** [None]: division by zero when no replica is known. *)
Definition counterInitOp (known : list Z) (crdt : BoundedCounterCrdt) (bound : Z)
    (compEq : bool) (initialValue : Z) : option BoundedCounterCrdt :=
  let sortedIDs := merge_sort Z.le known in
  let n := int32 (Z.of_nat (length sortedIDs)) in
  let total := int32 (initialValue - bound) in
  if n =? 0 then None
  else
    let splitValue := Z.quot total n in
    let remaining := Z.to_nat (Z.rem total n) in
    let perms := addPerms (take remaining sortedIDs) (int32 (splitValue + 1)) (permissions crdt) in
    let perms := addPerms (drop remaining sortedIDs) splitValue perms in
    Some (mkBC perms (decs crdt) (if compEq then bound else int32 (bound + 1))
            (replicaID crdt) initialValue).

Definition transfer (crdt : BoundedCounterCrdt) (t from to : Z) : BoundedCounterCrdt * bool :=
  if (from =? replicaID crdt) && (t >? Z.quot (perm (permissions crdt) from) 2)
  then (crdt, false)
  else (set_perms (addPerm (addPerm (permissions crdt) from (- t)) to t) (value crdt) crdt, true).

(** The new object, and the operation with what was written to its flag. *)
Definition bc_applyDownstream (known : list Z) (crdt : BoundedCounterCrdt) (op : DownArgs)
  : option (BoundedCounterCrdt * DownArgs) :=
  match op with
  | DownstreamIncBCounter c id => Some (increment crdt c id, op)
  | DownstreamDecBCounter c id _ =>
      let '(crdt, ok) := decrement crdt c id in Some (crdt, DownstreamDecBCounter c id ok)
  | DownstreamSetBound b eq v =>
      match counterInitOp known crdt b eq v with
      | Some crdt => Some (crdt, op)
      | None => None
      end
  | DownstreamTransfer t f to _ =>
      let '(crdt, ok) := transfer crdt t f to in Some (crdt, DownstreamTransfer t f to ok)
  | NoOp => Some (crdt, op)
  end.

(** [order]: the entries of [permissions] as the loop meets them. [None] is a
    division by zero, [Some None] is "nothing to ask" (-1, -1). *)
Definition RequestTransfer (crdt : BoundedCounterCrdt) (order : list (Z * Z))
  : option (option (Z * Z)) :=
  let own := perm (permissions crdt) (replicaID crdt) in
  let n := int32 (Z.of_nat (size (permissions crdt))) in
  if n =? 0 then None
  else if own <? Z.quot (Z.quot (value crdt) n) 2 then
    let '(maxP, maxID) :=
      foldl (fun '(maxP, maxID) '(id, p) => if p >? maxP then (p, id) else (maxP, maxID))
        (0, 0) order in
    Some (Some (Z.min (Z.quot (int32 (perm (permissions crdt) maxID - own)) 2)
                  (int32 (value crdt - own)), maxID))
  else Some None.

(** The maps of a copy are empty. *)
Definition Copy (crdt : BoundedCounterCrdt) : BoundedCounterCrdt :=
  mkBC ∅ ∅ (limit crdt) (replicaID crdt) (value crdt).

(** No effect is recorded and none is undone. *)
#[export] Instance bc_inversible (known : list Z)
  : InversibleOps BoundedCounterCrdt DownArgs unit := {
  applyDownstream crdt op :=
    match bc_applyDownstream known crdt op with
    | Some (crdt, _) => Some (crdt, None)
    | None => None
    end;
  undoEffect crdt _ := Some crdt
}.

(** ** Protocol buffers *)

Inductive ProtoBCounterDownstream :=
  | ProtoInc (Change ReplicaID : Z)
  | ProtoDec (Change ReplicaID : Z)
  | ProtoSetBounds (Limit : Z) (CompEq : bool) (Value : Z)
  | ProtoTransfer (TransferValue FromID ToID : Z).

(** [NoOp] has no message. *)
Definition ToReplicatorObj (op : DownArgs) : option ProtoBCounterDownstream :=
  match op with
  | DownstreamIncBCounter c id => Some (ProtoInc c id)
  | DownstreamDecBCounter c id _ => Some (ProtoDec c id)
  | DownstreamSetBound b eq v => Some (ProtoSetBounds b eq v)
  | DownstreamTransfer t f to _ => Some (ProtoTransfer t f to)
  | NoOp => None
  end.

Definition FromReplicatorObj (p : ProtoBCounterDownstream) : DownArgs :=
  match p with
  | ProtoInc c id => DownstreamIncBCounter c (int16 id)
  | ProtoDec c id => DownstreamDecBCounter c (int16 id) false
  | ProtoSetBounds b eq v => DownstreamSetBound b eq v
  | ProtoTransfer t f to => DownstreamTransfer t (int16 f) (int16 to) false
  end.

Record ProtoBoundedCounterState := mkProtoState {
  Permissions : rights; Decs : rights; Limit : Z; Value : Z }.

Definition ToProtoState (crdt : BoundedCounterCrdt) : ProtoBoundedCounterState :=
  mkProtoState (permissions crdt) (decs crdt) (limit crdt) (value crdt).

Definition keysToInt16 (m : rights) : rights :=
  map_fold (fun k v acc => <[int16 k := v]> acc) ∅ m.

Definition FromProtoState (p : ProtoBoundedCounterState) (replicaID : Z) : BoundedCounterCrdt :=
  initializeFromSnapshot
    (mkBC (keysToInt16 (Permissions p)) (keysToInt16 (Decs p)) (Limit p) 0 (Value p)) replicaID.

(** ** Lemmas on the object *)

Lemma perm_insert m id v k : perm (<[id := v]> m) k = if decide (k = id) then v else perm m k.
Proof.
  unfold perm. case_decide as E; [subst; by rewrite lookup_insert_eq|].
  by rewrite lookup_insert_ne.
Qed.

Lemma perm_addPerm m id v k :
  perm (addPerm m id v) k = if decide (k = id) then int32 (perm m id + v) else perm m k.
Proof. apply perm_insert. Qed.

Lemma perm_addPerms ids v m k :
  NoDup ids -> (forall id, id ∈ ids -> perm m id = 0) -> inS 32 v ->
  perm (addPerms ids v m) k = if decide (k ∈ ids) then v else perm m k.
Proof.
  intros Hn. revert m. induction Hn as [|id ids Hid Hn IH]; intros m H0 Hv; simpl; [done|].
  rewrite IH; [|intros x Hx; rewrite perm_addPerm|done].
  - rewrite perm_addPerm, (H0 id) by set_solver. rewrite Z.add_0_l, wrapS_id by done.
    repeat case_decide; set_solver.
  - rewrite decide_False by (by intros ->). apply H0. set_solver.
Qed.

Lemma perm_zeros known k : perm (foldr (fun id m => <[id := 0]> m) (∅ : rights) known) k = 0.
Proof.
  induction known as [|id known IH]; simpl; [done|]. rewrite perm_insert, IH. by case_decide.
Qed.

Lemma zsum_perm_addPerms (l1 l2 : list Z) v1 v2 m :
  NoDup (l1 ++ l2) -> (forall id, id ∈ l1 ++ l2 -> perm m id = 0) -> inS 32 v1 -> inS 32 v2 ->
  zsum (perm (addPerms l2 v2 (addPerms l1 v1 m))) (l1 ++ l2) =
    Z.of_nat (length l1) * v1 + Z.of_nat (length l2) * v2.
Proof.
  intros Hn H0 H1 H2. apply NoDup_app in Hn as (Hn1 & Hd & Hn2).
  assert (Hc : forall v l, zsum (fun _ : Z => v) l = Z.of_nat (length l) * v).
  { intros v l. unfold zsum. induction l; cbn [foldr length]; [done|]. rewrite IHl. lia. }
  rewrite zsum_app. f_equal.
  - rewrite <- Hc. apply zsum_ext. intros x Hx.
    rewrite perm_addPerms, decide_False by (done || set_solver || (intros y Hy;
      rewrite perm_addPerms, decide_False by (done || set_solver); apply H0; set_solver)).
    rewrite perm_addPerms, decide_True by (done || set_solver). done.
  - rewrite <- Hc. apply zsum_ext. intros x Hx.
    rewrite perm_addPerms, decide_True by (done || set_solver || (intros y Hy;
      rewrite perm_addPerms, decide_False by (done || set_solver); apply H0; set_solver)).
    done.
Qed.

(** The bound splits the distance to it among the known replicas, none of
    which gets less than nothing. *)
Lemma counterInitOp_ok known bound compEq initial :
  NoDup known -> 0 < Z.of_nat (length known) <= MaxInt32 ->
  bound <= initial -> initial - bound <= MaxInt32 ->
  exists perms,
    (forall r, counterInitOp known (Initialize known r) bound compEq initial =
       Some (mkBC perms (decs (Initialize known r))
               (if compEq then bound else int32 (bound + 1)) r initial)) /\
    (forall k, k ∈ known -> 0 <= perm perms k) /\ zsum (perm perms) known = initial - bound.
Proof.
  intros Hn Hlen Hb Hmax. unfold MaxInt32 in *.
  assert (Hp : merge_sort Z.le known ≡ₚ known) by apply merge_sort_Permutation.
  pose proof (Permutation_length Hp) as El.
  set (ids := merge_sort Z.le known) in *. set (n := Z.of_nat (length known)) in *.
  set (total := initial - bound) in *.
  assert (Ht : int32 total = total) by (apply wrapS_id; unfold inS; lia).
  assert (En : int32 n = n) by (apply wrapS_id; unfold inS; lia).
  pose proof (Z.quot_rem total n ltac:(lia)) as Eqr.
  pose proof (Z.rem_bound_pos total n ltac:(lia) ltac:(lia)) as Hr.
  pose proof (Z.quot_pos total n ltac:(lia) ltac:(lia)) as Hq.
  pose proof (Z.quot_le_upper_bound total n total ltac:(lia) ltac:(nia)) as Hq'.
  assert (Hs : inS 32 (int32 (Z.quot total n + 1))) by (by apply wrapS_range).
  assert (Hq32 : inS 32 (Z.quot total n)) by (unfold inS; lia).
  assert (Hn' : NoDup (take (Z.to_nat (Z.rem total n)) ids ++ drop (Z.to_nat (Z.rem total n)) ids))
    by (rewrite take_drop; by rewrite Hp).
  assert (Es : 0 < Z.rem total n -> int32 (Z.quot total n + 1) = Z.quot total n + 1).
  { intros H0. apply wrapS_id; [done|]. unfold inS. nia. }
  eexists. split.
  { intros r. unfold counterInitOp. fold ids total. rewrite Ht, El. fold n. rewrite En.
    rewrite (proj2 (Z.eqb_neq n 0)) by lia. cbn [Initialize permissions replicaID].
    reflexivity. }
  set (zeros := foldr _ _ known).
  assert (Hz : forall id, perm zeros id = 0) by apply perm_zeros.
  split.
  - intros k Hk. rewrite <- Hp in Hk.
    apply NoDup_app in Hn' as (Hn1 & Hd & Hn2).
    rewrite perm_addPerms by (done || (intros id Hid;
      rewrite perm_addPerms, decide_False by (done || set_solver); apply Hz)).
    case_decide; [lia|]. rewrite perm_addPerms by done. case_decide as Hin; [|rewrite Hz; lia].
    rewrite Es; [lia|]. destruct (Z.to_nat (Z.rem total n)) eqn:E; [|lia].
    rewrite take_0 in Hin. by apply elem_of_nil in Hin.
  - rewrite <- Hp at 1.
    transitivity (zsum (perm (addPerms (drop (Z.to_nat (Z.rem total n)) ids) (Z.quot total n)
      (addPerms (take (Z.to_nat (Z.rem total n)) ids) (int32 (Z.quot total n + 1)) zeros)))
      (take (Z.to_nat (Z.rem total n)) ids ++ drop (Z.to_nat (Z.rem total n)) ids)).
    { by rewrite take_drop. }
    rewrite zsum_perm_addPerms by done.
    rewrite length_take, length_drop, El.
    destruct (Z.eq_dec (Z.rem total n) 0) as [E0|E0].
    + rewrite E0 in *. simpl. fold n. nia.
    + rewrite Es by lia. nia.
Qed.

(** ** What an accepted operation does *)

(** The change of the rights of [k]. *)
Definition delta (op : DownArgs) (k : Z) : Z :=
  match op with
  | DownstreamIncBCounter c id => if decide (k = id) then c else 0
  | DownstreamDecBCounter c id _ => if decide (k = id) then - c else 0
  | DownstreamTransfer t f to _ =>
      (if decide (k = f) then - t else 0) + (if decide (k = to) then t else 0)
  | _ => 0
  end.

Definition gain (op : DownArgs) : Z :=
  match op with DownstreamIncBCounter c _ => c | _ => 0 end.

(** The change of the value. *)
Definition net (op : DownArgs) : Z :=
  match op with
  | DownstreamIncBCounter c _ => c
  | DownstreamDecBCounter c _ _ => - c
  | _ => 0
  end.

Definition setFlag (b : bool) (op : DownArgs) : DownArgs :=
  match op with
  | DownstreamDecBCounter c id _ => DownstreamDecBCounter c id b
  | DownstreamTransfer t f to _ => DownstreamTransfer t f to b
  | op => op
  end.

Section apply.
Context (known : list Z) (Hnd : NoDup known).

(** The operations of replica [r]: it spends its own rights only. *)
Inductive spends_own (r : Z) : DownArgs -> Prop :=
  | own_inc c : 0 <= c -> spends_own r (DownstreamIncBCounter c r)
  | own_dec c b : 0 <= c -> spends_own r (DownstreamDecBCounter c r b)
  | own_transfer t to b : 0 <= t -> to ∈ known -> spends_own r (DownstreamTransfer t r to b).

Lemma spends_own_setFlag r op b : spends_own r op -> spends_own r (setFlag b op).
Proof. intros []; by constructor. Qed.

Lemma gain_nonneg r op : spends_own r op -> 0 <= gain op.
Proof. intros []; simpl; lia. Qed.

Lemma delta_own r op k : spends_own r op -> k <> r -> 0 <= delta op k.
Proof. intros [] Hk; simpl; repeat case_decide; try congruence; lia. Qed.

Lemma net_gain r op : spends_own r op -> net op <= gain op.
Proof. intros []; simpl; lia. Qed.

Lemma zsum_delta r op : r ∈ known -> spends_own r op -> zsum (delta op) known = net op.
Proof.
  intros Hr Hop. assert (Hone : forall c id, id ∈ known ->
    zsum (fun k => if decide (k = id) then c else 0) known = c).
  { intros c id Hid. rewrite (zsum_single _ known id) by (done ||
      (intros; by rewrite decide_False)). by rewrite decide_True. }
  destruct Hop as [c Hc|c b Hc|t to b Ht Hto]; unfold delta, net; cbn beta iota.
  - by rewrite Hone.
  - by rewrite Hone.
  - rewrite zsum_add, !Hone by done. lia.
Qed.

(** The value is the bound and the rights of all replicas. *)
Record within (bound cap : Z) (crdt : BoundedCounterCrdt) : Prop := {
  w_nonneg k : k ∈ known -> 0 <= perm (permissions crdt) k;
  w_cap : zsum (perm (permissions crdt)) known <= cap;
  w_value : value crdt = bound + zsum (perm (permissions crdt)) known
}.

Definition fits (bound cap : Z) : Prop :=
  MinInt32 <= bound /\ bound + cap <= MaxInt32 /\ cap <= MaxInt32.

Lemma perm_in_range bound cap crdt k :
  fits bound cap -> within bound cap crdt -> k ∈ known ->
  int32 (perm (permissions crdt) k) = perm (permissions crdt) k.
Proof.
  intros (_ & _ & Hc) [H1 H2 _] Hk. unfold MaxInt32 in *. apply wrapS_id; [done|].
  pose proof (zsum_elem_le _ known k H1 Hk). pose proof (H1 k Hk). unfold inS. lia.
Qed.

Lemma value_in_range bound cap crdt :
  fits bound cap -> within bound cap crdt -> int32 (value crdt) = value crdt.
Proof.
  intros (Hb & Hc & _) [H1 H2 H3]. unfold MinInt32, MaxInt32 in *. apply wrapS_id; [done|].
  pose proof (zsum_nonneg _ _ H1). unfold inS. lia.
Qed.

Lemma apply_within bound cap r op crdt perms v :
  fits bound cap -> r ∈ known -> spends_own r op -> within bound cap crdt ->
  (forall k, k ∈ known -> 0 <= perm (permissions crdt) k + delta op k) ->
  zsum (perm (permissions crdt)) known + gain op <= cap ->
  (forall k, k ∈ known -> perm perms k = int32 (perm (permissions crdt) k + delta op k)) ->
  v = int32 (value crdt + zsum (delta op) known) ->
  (forall k, k ∈ known -> perm perms k = perm (permissions crdt) k + delta op k) /\
  within bound cap (set_perms perms v crdt).
Proof.
  intros (Hb & Hc & Hc') Hr Hop [Hw1 Hw2 Hw3] Hpos Hcap Hperms Hv.
  unfold MinInt32, MaxInt32 in *.
  pose proof (zsum_delta r op Hr Hop) as Hd. pose proof (net_gain r op Hop) as Hg.
  assert (Hs : zsum (fun k => perm (permissions crdt) k + delta op k) known <= cap)
    by (rewrite zsum_add; lia).
  assert (Hs0 := zsum_nonneg _ _ Hpos).
  assert (Hk : forall k, k ∈ known -> perm perms k = perm (permissions crdt) k + delta op k).
  { intros k Hk. rewrite Hperms by done. apply wrapS_id; [done|].
    pose proof (zsum_elem_le _ known k Hpos Hk). pose proof (Hpos k Hk).
    unfold inS. simpl in *. lia. }
  split; [done|]. rewrite zsum_add in Hs, Hs0.
  split; simpl; [intros k Hin; rewrite Hk by done; by apply Hpos|..];
    rewrite (zsum_ext (perm perms) _ known Hk), zsum_add; [lia|].
  rewrite Hv, wrapS_id; [lia|done|]. unfold inS. lia.
Qed.

(** An operation that leaves no replica with negative rights is accepted, and
    changes rights and value by what it says. *)
Lemma apply_ok bound cap r op crdt :
  fits bound cap -> r ∈ known -> spends_own r op -> within bound cap crdt ->
  (forall k, k ∈ known -> 0 <= perm (permissions crdt) k + delta op k) ->
  zsum (perm (permissions crdt)) known + gain op <= cap ->
  (forall t f to b, op = DownstreamTransfer t f to b -> f = replicaID crdt ->
     t <= Z.quot (perm (permissions crdt) f) 2) ->
  exists perms v,
    bc_applyDownstream known crdt op = Some (set_perms perms v crdt, setFlag true op) /\
    (forall k, k ∈ known -> perm perms k = perm (permissions crdt) k + delta op k) /\
    within bound cap (set_perms perms v crdt).
Proof.
  intros Hf Hr Hop Hw Hpos Hcap Htr.
  assert (Happly := fun perms v => apply_within bound cap r op crdt perms v Hf Hr Hop Hw Hpos Hcap).
  rewrite (zsum_delta r op Hr Hop) in Happly.
  destruct Hop as [c Hc|c b Hc|t to b Ht Hto]; cbn [bc_applyDownstream setFlag net] in *.
  - do 2 eexists. split; [reflexivity|]. apply Happly; [|done].
    intros k Hk. rewrite perm_addPerm. unfold delta.
    case_decide; [by subst|]. rewrite Z.add_0_r. symmetry. by eapply perm_in_range.
  - do 2 eexists. unfold decrement. pose proof (Hpos r Hr) as H0. unfold delta in H0.
    rewrite decide_True in H0 by done.
    destruct (Z.gtb_spec c (perm (permissions crdt) r)); [lia|].
    split; [reflexivity|]. apply Happly; [|by rewrite Z.add_opp_r].
    intros k Hk. rewrite perm_addPerm. unfold delta.
    case_decide; [by subst|]. rewrite Z.add_0_r. symmetry. by eapply perm_in_range.
  - do 2 eexists. unfold transfer.
    replace ((r =? replicaID crdt) && (t >? Z.quot (perm (permissions crdt) r) 2)) with false.
    2:{ destruct (Z.eqb_spec r (replicaID crdt)); [|done]. specialize (Htr _ _ _ _ eq_refl e).
        destruct (Z.gtb_spec t (Z.quot (perm (permissions crdt) r) 2)); [lia|done]. }
    split; [reflexivity|]. apply Happly.
    + intros k Hk. rewrite !perm_addPerm. unfold delta.
      destruct (decide (k = to)) as [->|Hto']; destruct (decide (to = r)) as [->|Hr'];
        rewrite ?decide_True by done.
      * rewrite wrapS_add_l by done. f_equal. lia.
      * by rewrite Z.add_0_l.
      * case_decide; [done|]. rewrite Z.add_0_r. symmetry. by eapply perm_in_range.
      * case_decide; [subst; by rewrite Z.add_0_r|]. rewrite Z.add_0_r. symmetry.
        by eapply perm_in_range.
    + rewrite Z.add_0_r. symmetry. by eapply value_in_range.
Qed.
End apply.

(** ** The operations a replica issues, and their messages *)

(** The updates clients ask for: changes are not negative ("Pre" in the
    code), and only the owner of rights transfers them. *)
Inductive allowed (known : list Z) (r : Z) : UpdArgs -> Prop :=
  | allow_inc c : 0 <= c -> allowed known r (Increment c)
  | allow_dec c : 0 <= c -> allowed known r (Decrement c)
  | allow_transfer t to b :
      0 <= t -> to ∈ known -> allowed known r (TransferCounter t r to b).

Lemma apply_setFlag known crdt b op :
  bc_applyDownstream known crdt (setFlag b op) = bc_applyDownstream known crdt op.
Proof. by destruct op. Qed.

(** A message restores its operation with the flag cleared. *)
Lemma bcounter_message_round_trip known r op p :
  Forall (inS 16) known -> r ∈ known -> spends_own known r op ->
  ToReplicatorObj op = Some p -> FromReplicatorObj p = setFlag false op.
Proof.
  intros Hk Hr Hop. rewrite Forall_forall in Hk.
  assert (E : forall id, id ∈ known -> int16 id = id) by (intros; apply wrapS_id; auto; lia).
  destruct Hop as [c Hc|c b Hc|t to b Ht Hto]; intros [= <-]; simpl; by rewrite ?E.
Qed.

Lemma Update_ok known bound cap r crdt args crdt' op :
  NoDup known -> r ∈ known -> within known bound cap crdt -> replicaID crdt = r ->
  allowed known r args ->
  bc_applyDownstream known crdt (Update crdt args) = Some (crdt', op) ->
  (crdt' = crdt /\ MustReplicate op = false) \/
  (MustReplicate op = true /\ spends_own known r op /\
   bc_applyDownstream known crdt op = Some (crdt', op) /\
   (forall k, k ∈ known -> 0 <= perm (permissions crdt) k + delta op k) /\
   (forall t f to b, op = DownstreamTransfer t f to b -> f = replicaID crdt ->
      t <= Z.quot (perm (permissions crdt) f) 2)).
Proof.
  intros Hnd Hr [Hpos _ _] Hid Hargs. destruct Hargs as [c Hc|c Hc|t to b Ht Hto]; simpl.
  - intros [= <- <-]. right. rewrite Hid.
    split; [done|]. split; [by apply own_inc|]. split; [done|]. split; [|done].
    intros k Hk. specialize (Hpos k Hk). simpl. case_decide; lia.
  - unfold decrement. rewrite Hid.
    destruct (Z.gtb_spec c (perm (permissions crdt) r)) as [Hgt|Hle]; intros [= <- <-];
      [by left|right].
    split; [done|]. split; [by apply own_dec|]. split; [|split; [|done]].
    + simpl. unfold decrement. by destruct (Z.gtb_spec c (perm (permissions crdt) r)); [lia|].
    + intros k Hk. specialize (Hpos k Hk). simpl. case_decide; [subst k|]; lia.
  - rewrite Hid. destruct (Z.gtb_spec t (Z.quot (perm (permissions crdt) r) 2)) as [Hgt|Hle];
      simpl; [intros [= <- <-]; by left|].
    assert (Etr : transfer crdt t r to = (set_perms (addPerm (addPerm (permissions crdt) r (- t))
      to t) (value crdt) crdt, true)).
    { unfold transfer. rewrite Hid, Z.eqb_refl.
      by destruct (Z.gtb_spec t (Z.quot (perm (permissions crdt) r) 2)); [lia|]. }
    rewrite Etr. intros [= <- <-]. right.
    assert (Hq : Z.quot (perm (permissions crdt) r) 2 <= perm (permissions crdt) r).
    { apply Z.quot_le_upper_bound; [lia|]. specialize (Hpos r Hr). lia. }
    split; [done|]. split; [by apply own_transfer|]. split; [simpl; by rewrite Etr|].
    split; [|by intros t' f to' b' [= -> <- <- <-] _].
    intros k Hk. specialize (Hpos k Hk). simpl. repeat case_decide; subst; lia.
Qed.
