(* ===== verification/BoundedCounterSafe.v ===== *)
(** * No replica breaks the bound of a bounded counter

    A system of replicas of one [BoundedCounterCrdt]: each runs [Update] and
    [applyDownstream] for its clients, sends what is marked for replication,
    and applies what the others sent in causal order, after the trip through
    the replication message.  Every replica starts from the same
    [SetCounterBound].  A cut says how many messages of each replica are
    counted; the proof is that in every causally closed cut no replica has
    spent more rights than it had. *)

From S2P Require Import Prelude ClockSI Inversible BoundedCounter.
From Stdlib Require Import ZArith Lia Bool.
From stdpp Require Import base tactics numbers gmap sorting functions list.
#[local] Open Scope Z_scope.

(** A message with the cut its sender had seen. *)
Record Msg := mkMsg { m_op : DownArgs; m_deps : Z -> nat }.

(** [log sys r] is what [r] has sent; [seen sys q r] how much of it [q] has
    applied. *)
Record System := mkSystem {
  state : Z -> BoundedCounterCrdt;
  log : Z -> list Msg;
  seen : Z -> Z -> nat
}.

Section system.
Context (known : list Z) (bound initial : Z) (compEq : bool).

Definition initialSystem : System :=
  mkSystem
    (fun r => match bc_applyDownstream known (Initialize known r)
                      (DownstreamSetBound bound compEq initial) with
              | Some (crdt, _) => crdt
              | None => Initialize known r
              end)
    (fun _ => []) (fun _ _ => 0%nat).

Definition publish (sys : System) (r : Z) (crdt : BoundedCounterCrdt) (op : DownArgs) : System :=
  if MustReplicate op
  then mkSystem (<[r := crdt]> (state sys))
         (<[r := log sys r ++ [mkMsg op (seen sys r)]]> (log sys))
         (<[r := <[r := S (seen sys r r)]> (seen sys r)]> (seen sys))
  else mkSystem (<[r := crdt]> (state sys)) (log sys) (seen sys).

Definition receive (sys : System) (q r : Z) (crdt : BoundedCounterCrdt) : System :=
  mkSystem (<[q := crdt]> (state sys)) (log sys)
    (<[q := <[r := S (seen sys q r)]> (seen sys q)]> (seen sys)).

Inductive step (sys : System) : System -> Prop :=
  | step_update r args crdt op :
      r ∈ known -> allowed known r args ->
      bc_applyDownstream known (state sys r) (Update (state sys r) args) = Some (crdt, op) ->
      step sys (publish sys r crdt op)
  | step_deliver q r m p crdt op :
      q ∈ known -> r ∈ known -> q <> r ->
      log sys r !! seen sys q r = Some m -> (forall k, k ∈ known -> m_deps m k <= seen sys q k)%nat ->
      ToReplicatorObj (m_op m) = Some p ->
      bc_applyDownstream known (state sys q) (FromReplicatorObj p) = Some (crdt, op) ->
      step sys (receive sys q r crdt).

Inductive reachable : System -> Prop :=
  | reach_init : reachable initialSystem
  | reach_step sys sys' : reachable sys -> step sys sys' -> reachable sys'.

(** ** Sums over a cut *)

Definition cutsum (w : DownArgs -> Z) (L : Z -> list Msg) (c : Z -> nat) : Z :=
  zsum (fun r => zsum (fun m => w (m_op m)) (take (c r) (L r))) known.

(** All increments issued so far. *)
Definition minted (sys : System) : Z :=
  cutsum gain (log sys) (fun r => length (log sys r)).

Definition closed (L : Z -> list Msg) (c : Z -> nat) : Prop :=
  (forall r, (c r <= length (L r))%nat) /\
  (forall r i m, r ∈ known -> L r !! i = Some m -> (i < c r)%nat ->
     forall k, k ∈ known -> (m_deps m k <= c k)%nat).

Hypothesis Hnd : NoDup known.

Lemma cutsum_receive w L c r m :
  r ∈ known -> L r !! c r = Some m ->
  cutsum w L (<[r := S (c r)]> c) = cutsum w L c + w (m_op m).
Proof.
  intros Hr Hm. unfold cutsum.
  rewrite (zsum_change _ (fun r => zsum (fun m => w (m_op m)) (take (c r) (L r))) known r).
  - rewrite fn_lookup_insert, (take_S_r _ _ _ Hm), zsum_app. simpl. lia.
  - done.
  - done.
  - intros x _ Hx. by rewrite fn_lookup_insert_ne.
Qed.

Lemma cutsum_old w L c r m :
  (c r <= length (L r))%nat -> cutsum w (<[r := L r ++ [m]]> L) c = cutsum w L c.
Proof.
  intros Hc. apply zsum_ext. intros x _. destruct (decide (r = x)) as [->|Hne].
  - by rewrite fn_lookup_insert, take_app_le.
  - by rewrite fn_lookup_insert_ne.
Qed.

Lemma cutsum_mono w L c c' :
  (forall r, r ∈ known -> c r = c' r \/
     ((c r <= c' r)%nat /\ forall m, m ∈ L r -> 0 <= w (m_op m))) ->
  cutsum w L c <= cutsum w L c'.
Proof.
  intros Hcc. apply zsum_le. intros r Hr.
  destruct (Hcc r Hr) as [->|[Hle Hw]]; [lia|].
  replace (c' r) with (c r + (c' r - c r))%nat by lia.
  rewrite <- take_take_drop, zsum_app.
  pose proof (zsum_nonneg (fun m => w (m_op m)) (take (c' r - c r) (drop (c r) (L r)))) as H0.
  enough (0 <= zsum (fun m => w (m_op m)) (take (c' r - c r) (drop (c r) (L r)))) by lia.
  apply H0. intros m Hm. apply Hw. apply elem_of_take in Hm as (i & Hi & _).
  rewrite lookup_drop in Hi. by eapply list_elem_of_lookup_2.
Qed.

(** ** The invariant of the logs *)

(** [P0]: the rights at the start. *)
Context (P0 : Z -> Z).

Definition rights_at (L : Z -> list Msg) (c : Z -> nat) (k : Z) : Z :=
  P0 k + cutsum (fun op => delta op k) L c.

Record logs_ok (L : Z -> list Msg) : Prop := {
  lo_own r m : r ∈ known -> m ∈ L r -> spends_own known r (m_op m);
  lo_deps r i m k : r ∈ known -> L r !! i = Some m -> (m_deps m k <= length (L k))%nat;
  lo_nonneg c k : closed L c -> k ∈ known -> 0 <= rights_at L c k
}.

Lemma closed_old L r m c :
  logs_ok L -> r ∈ known -> closed (<[r := L r ++ [m]]> L) c -> (c r <= length (L r))%nat ->
  closed L c.
Proof.
  intros Hok Hr [Hlen Hdeps] Hc. split.
  - intros x. destruct (decide (x = r)) as [->|Hne]; [done|].
    specialize (Hlen x). by rewrite fn_lookup_insert_ne in Hlen by done.
  - intros x i mx Hx Hi Hlt k Hk. apply (Hdeps x i mx Hx); [|done..].
    destruct (decide (x = r)) as [->|Hne].
    + rewrite fn_lookup_insert. by apply lookup_app_l_Some.
    + by rewrite fn_lookup_insert_ne.
Qed.

(** A cut that has the new message has, without it, all its sender had seen. *)
Lemma closed_new L r m c :
  logs_ok L -> r ∈ known -> closed (<[r := L r ++ [m]]> L) c -> c r = S (length (L r)) ->
  closed L (<[r := length (L r)]> c) /\ forall k, k ∈ known -> (m_deps m k <= c k)%nat.
Proof.
  intros Hok Hr [Hlen Hdeps] Hc. split.
  - split.
    + intros x. destruct (decide (x = r)) as [->|Hne]; [by rewrite fn_lookup_insert|].
      specialize (Hlen x). rewrite fn_lookup_insert_ne in Hlen by done.
      by rewrite fn_lookup_insert_ne.
    + intros x i mx Hx Hi Hlt k Hin. destruct (decide (k = r)) as [->|Hk].
      { rewrite fn_lookup_insert. exact (lo_deps _ Hok x i mx r Hx Hi). }
      rewrite fn_lookup_insert_ne by done. apply (Hdeps x i mx Hx).
      * destruct (decide (x = r)) as [->|Hne].
        -- rewrite fn_lookup_insert. by apply lookup_app_l_Some.
        -- by rewrite fn_lookup_insert_ne.
      * apply lookup_lt_Some in Hi. destruct (decide (x = r)) as [->|Hne]; [lia|].
        by rewrite fn_lookup_insert_ne in Hlt.
      * done.
  - apply (Hdeps r (length (L r)) m Hr); [|lia].
    by rewrite fn_lookup_insert, lookup_app_r, Nat.sub_diag.
Qed.

Lemma insert_same (c : Z -> nat) r n x : c r = n -> <[r := n]> c x = c x.
Proof.
  intros <-. destruct (decide (r = x)) as [->|]; [by rewrite fn_lookup_insert|].
  by rewrite fn_lookup_insert_ne.
Qed.

Lemma cutsum_ext w L c c' : (forall r, r ∈ known -> c r = c' r) -> cutsum w L c = cutsum w L c'.
Proof. intros E. apply zsum_ext. intros r Hr. by rewrite E. Qed.

Lemma cutsum_new w L r m c :
  r ∈ known -> c r = S (length (L r)) ->
  cutsum w (<[r := L r ++ [m]]> L) c =
    cutsum w L (<[r := length (L r)]> c) + w (m_op m).
Proof.
  intros Hr Hc. set (c' := <[r := length (L r)]> c).
  assert (Hc' : c' r = length (L r)) by apply fn_lookup_insert.
  rewrite (cutsum_ext w _ c (<[r := S (c' r)]> c')).
  - rewrite (cutsum_receive _ _ _ _ m) by
      (done || by rewrite fn_lookup_insert, Hc', lookup_app_r, Nat.sub_diag).
    by rewrite cutsum_old by lia.
  - intros x _. destruct (decide (r = x)) as [<-|Hne].
    + by rewrite fn_lookup_insert, Hc', Hc.
    + unfold c'. by rewrite !fn_lookup_insert_ne.
Qed.

(** The new message spends rights its sender has; messages its sender has not
    seen can only give it more. *)
Lemma logs_ok_publish L r op s :
  logs_ok L -> r ∈ known -> spends_own known r op -> closed L s -> s r = length (L r) ->
  (forall k, k ∈ known -> 0 <= rights_at L s k + delta op k) ->
  logs_ok (<[r := L r ++ [mkMsg op s]]> L).
Proof.
  intros Hok Hr Hop Hs Hsr Hpos. split.
  - intros x m Hx. destruct (decide (r = x)) as [<-|Hne].
    + rewrite fn_lookup_insert, elem_of_app, list_elem_of_singleton.
      intros [Hm| ->]; [by apply (lo_own L)|done].
    + rewrite fn_lookup_insert_ne by done. by apply lo_own.
  - intros x i m k Hx Hi. transitivity (length (L k)).
    + destruct (decide (r = x)) as [<-|Hne].
      * rewrite fn_lookup_insert in Hi. apply lookup_app_Some in Hi as [Hi|[_ Hi]].
        -- by eapply lo_deps.
        -- apply list_lookup_singleton_Some in Hi as [_ <-]. apply Hs.
      * rewrite fn_lookup_insert_ne in Hi by done. by eapply lo_deps.
    + destruct (decide (r = k)) as [<-|Hne]; [|by rewrite fn_lookup_insert_ne].
      rewrite fn_lookup_insert, length_app. lia.
  - intros c k Hc Hk. unfold rights_at.
    pose proof (proj1 Hc r) as Hcr. rewrite fn_lookup_insert, length_app in Hcr. simpl in Hcr.
    destruct (decide (c r = S (length (L r)))) as [E|E].
    + rewrite cutsum_new by done. cbn [m_op].
      destruct (closed_new _ _ _ _ Hok Hr Hc E) as [Hcl Hd]. cbn [m_deps] in Hd.
      destruct (decide (k = r)) as [->|Hkr].
      * pose proof (Hpos r Hr) as H0. unfold rights_at in H0.
        enough (cutsum (fun op => delta op r) L s
          <= cutsum (fun op => delta op r) L (<[r := length (L r)]> c)) by lia.
        apply cutsum_mono. intros x Hx. destruct (decide (r = x)) as [<-|Hne].
        -- left. by rewrite fn_lookup_insert.
        -- right. rewrite fn_lookup_insert_ne by done. split; [by apply Hd|].
           intros m Hm. eapply delta_own; [by eapply lo_own|congruence].
      * pose proof (lo_nonneg _ Hok _ k Hcl Hk) as H0. unfold rights_at in H0.
        pose proof (delta_own known r op k Hop Hkr). lia.
    + rewrite cutsum_old by lia. apply lo_nonneg; [done| |done].
      apply (closed_old _ r (mkMsg op s)); [done..|lia].
Qed.

(** ** The invariant of the system *)

Context (cap : Z) (Hfits : fits bound cap).

Record replica_ok (sys : System) (q : Z) : Prop := {
  ro_closed : closed (log sys) (seen sys q);
  ro_own : seen sys q q = length (log sys q);
  ro_id : replicaID (state sys q) = q;
  ro_within : within known bound cap (state sys q);
  ro_perms k : k ∈ known ->
    perm (permissions (state sys q)) k = rights_at (log sys) (seen sys q) k;
  ro_gain : zsum (perm (permissions (state sys q))) known
    <= initial - bound + cutsum gain (log sys) (seen sys q)
}.

Record inv (sys : System) : Prop := {
  inv_logs : logs_ok (log sys);
  inv_replicas q : q ∈ known -> replica_ok sys q
}.

Lemma closed_extend L r m c : closed L c -> closed (<[r := L r ++ [m]]> L) c.
Proof.
  intros [Hlen Hd]. split.
  - intros x. destruct (decide (r = x)) as [<-|Hne]; [|by rewrite fn_lookup_insert_ne].
    rewrite fn_lookup_insert, length_app. specialize (Hlen r). lia.
  - intros x i mx Hx Hi Hlt k Hk. apply (Hd x i mx Hx); [|done..].
    destruct (decide (r = x)) as [<-|Hne]; [|by rewrite fn_lookup_insert_ne in Hi].
    rewrite fn_lookup_insert, lookup_app_l in Hi; [done|]. specialize (Hlen r). lia.
Qed.

Lemma closed_receive L c r m :
  closed L c -> L r !! c r = Some m -> (forall k, k ∈ known -> m_deps m k <= c k)%nat ->
  closed L (<[r := S (c r)]> c).
Proof.
  intros [Hlen Hd] Hm Hdeps.
  assert (Hle : forall k, (c k <= (<[r := S (c r)]> c) k)%nat).
  { intros k. destruct (decide (r = k)) as [<-|Hne];
      [rewrite fn_lookup_insert; lia|by rewrite fn_lookup_insert_ne]. }
  split.
  - intros x. destruct (decide (r = x)) as [<-|Hne]; [|by rewrite fn_lookup_insert_ne].
    rewrite fn_lookup_insert. apply lookup_lt_Some in Hm. lia.
  - intros x i mx Hx Hi Hlt k Hk. transitivity (c k); [|apply Hle].
    destruct (decide (r = x)) as [<-|Hne].
    + rewrite fn_lookup_insert in Hlt. destruct (decide (i = c r)) as [->|].
      * rewrite Hm in Hi. injection Hi as <-. by apply Hdeps.
      * apply (Hd r i mx Hx Hi); [lia|done].
    + rewrite fn_lookup_insert_ne in Hlt by done. by apply (Hd x i mx Hx Hi).
Qed.

Lemma cutsum_gain_minted sys c :
  logs_ok (log sys) -> (forall r, (c r <= length (log sys r))%nat) ->
  cutsum gain (log sys) c <= minted sys.
Proof.
  intros Hok Hc. apply cutsum_mono. intros r Hr. right. split; [apply Hc|].
  intros m Hm. eapply gain_nonneg. by eapply lo_own.
Qed.

(** A replica that applies an operation on top of a cut. *)
Lemma replica_apply sys r op q :
  inv sys -> q ∈ known -> r ∈ known -> spends_own known r op ->
  (forall k, k ∈ known -> 0 <= rights_at (log sys) (seen sys q) k + delta op k) ->
  initial - bound + (cutsum gain (log sys) (seen sys q) + gain op) <= cap ->
  (forall t f to b, op = DownstreamTransfer t f to b -> f = q ->
     t <= Z.quot (perm (permissions (state sys q)) f) 2) ->
  exists crdt,
    bc_applyDownstream known (state sys q) op = Some (crdt, setFlag true op) /\
    within known bound cap crdt /\ replicaID crdt = q /\
    (forall k, k ∈ known ->
       perm (permissions crdt) k = rights_at (log sys) (seen sys q) k + delta op k) /\
    zsum (perm (permissions crdt)) known
      <= initial - bound + (cutsum gain (log sys) (seen sys q) + gain op).
Proof.
  intros Hinv Hq Hr Hop Hpos Hcap Htr. destruct (inv_replicas _ Hinv q Hq).
  destruct (apply_ok known Hnd bound cap r op (state sys q)) as (perms & v & E & Hp & Hw);
    try done.
  - intros k Hk. rewrite ro_perms0 by done. by apply Hpos.
  - lia.
  - rewrite ro_id0. done.
  - exists (set_perms perms v (state sys q)). split; [done|]. split; [done|].
    split; [done|]. split; [intros k Hk; simpl; by rewrite Hp, ro_perms0|].
    simpl. rewrite (zsum_ext (perm perms) _ known Hp), zsum_add, (zsum_delta known Hnd r) by done.
    pose proof (net_gain known r op Hop). lia.
Qed.

Lemma inv_receive sys q r m p crdt op :
  inv sys -> initial - bound + minted sys <= cap -> Forall (inS 16) known ->
  q ∈ known -> r ∈ known -> q <> r ->
  log sys r !! seen sys q r = Some m -> (forall k, k ∈ known -> m_deps m k <= seen sys q k)%nat ->
  ToReplicatorObj (m_op m) = Some p ->
  bc_applyDownstream known (state sys q) (FromReplicatorObj p) = Some (crdt, op) ->
  op = setFlag true (m_op m) /\ inv (receive sys q r crdt).
Proof.
  intros Hinv Hcap Hk Hq Hr Hqr Hm Hdeps Hp Happ.
  pose proof (inv_logs _ Hinv) as Hlogs. pose proof (inv_replicas _ Hinv q Hq) as Hrep.
  assert (Hop : spends_own known r (m_op m))
    by (eapply lo_own; [done..|]; by eapply list_elem_of_lookup_2).
  rewrite (bcounter_message_round_trip known r _ _ Hk Hr Hop Hp), apply_setFlag in Happ.
  pose proof (closed_receive _ _ _ _ (ro_closed _ _ Hrep) Hm Hdeps) as Hcl.
  destruct (replica_apply sys r (m_op m) q) as (crdt' & E & Hw & Hid & Hperm & Hgain); try done.
  - intros k Hin. pose proof (lo_nonneg _ Hlogs _ k Hcl Hin) as H0. unfold rights_at in *.
    rewrite (cutsum_receive _ _ _ _ m) in H0 by done. lia.
  - pose proof (cutsum_gain_minted sys _ Hlogs (proj1 Hcl)) as H0.
    rewrite (cutsum_receive _ _ _ _ m) in H0 by done. lia.
  - intros t f to b Et ->. rewrite Et in Hop. by inversion Hop; subst.
  - rewrite E in Happ. injection Happ as <- <-. split; [done|]. split; [done|].
    intros x Hx. unfold receive. destruct (decide (q = x)) as [<-|Hne].
    + split; cbn [state log seen]; rewrite ?fn_lookup_insert; try done.
      * rewrite fn_lookup_insert_ne by done. apply Hrep.
      * intros k Hin. unfold rights_at. rewrite Hperm by done.
        unfold rights_at. rewrite (cutsum_receive _ _ _ _ m) by done. lia.
      * by rewrite (cutsum_receive _ _ _ _ m) by done.
    + destruct (inv_replicas _ Hinv x Hx).
      split; cbn [state log seen]; rewrite ?fn_lookup_insert_ne by done; done.
Qed.

Lemma Update_gain r s args s' op :
  allowed known r args -> bc_applyDownstream known s (Update s args) = Some (s', op) ->
  0 <= gain op.
Proof.
  intros []; simpl.
  - by intros [= _ <-].
  - destruct (decrement s c (replicaID s)). by intros [= _ <-].
  - case_match; [by intros [= _ <-]|]. simpl.
    destruct (transfer s t r to). by intros [= _ <-].
Qed.

Lemma minted_publish sys r crdt op :
  r ∈ known -> 0 <= gain op ->
  minted sys <= minted (publish sys r crdt op) /\
  (MustReplicate op = true -> minted (publish sys r crdt op) = minted sys + gain op).
Proof.
  intros Hr Hg. unfold publish. destruct (MustReplicate op) eqn:E; [|by split].
  enough (minted (mkSystem (<[r:=crdt]> (state sys))
    (<[r:=log sys r ++ [mkMsg op (seen sys r)]]> (log sys))
    (<[r:=<[r:=S (seen sys r r)]> (seen sys r)]> (seen sys))) = minted sys + gain op) by lia.
  unfold minted. cbn [log]. rewrite cutsum_new.
  - cbn [m_op]. f_equal. apply cutsum_ext. intros x _.
    destruct (decide (r = x)) as [<-|Hne]; [by rewrite fn_lookup_insert|].
    by rewrite !fn_lookup_insert_ne.
  - done.
  - rewrite fn_lookup_insert, length_app. simpl. lia.
Qed.

Lemma setFlag_accepted b op : MustReplicate op = true -> setFlag true (setFlag b op) = op.
Proof. destruct op; simpl; intros H; try done; by rewrite H. Qed.

Lemma setFlag_id op : MustReplicate op = true -> setFlag true op = op.
Proof. destruct op; simpl; intros H; try done; by rewrite H. Qed.

Lemma inv_publish sys r args crdt op :
  inv sys -> initial - bound + minted (publish sys r crdt op) <= cap ->
  r ∈ known -> allowed known r args ->
  bc_applyDownstream known (state sys r) (Update (state sys r) args) = Some (crdt, op) ->
  inv (publish sys r crdt op).
Proof.
  intros Hinv Hcap Hr Hargs Happ. pose proof (Update_gain _ _ _ _ _ Hargs Happ) as Hg.
  pose proof (inv_logs _ Hinv) as Hlogs. pose proof (inv_replicas _ Hinv r Hr) as Hrep.
  destruct (minted_publish sys r crdt op Hr Hg) as [_ Hmint].
  destruct (Update_ok known bound cap r (state sys r) args crdt op Hnd Hr
    (ro_within _ _ Hrep) (ro_id _ _ Hrep) Hargs Happ)
    as [[-> Hrej]|(Hacc & Hop & Happ' & Hpos & Htr)].
  - unfold publish. rewrite Hrej. split; [done|]. intros x Hx.
    destruct (inv_replicas _ Hinv x Hx).
    split; cbn [state log seen]; try done;
      (destruct (decide (r = x)) as [<-|Hne];
        [by rewrite fn_lookup_insert|by rewrite fn_lookup_insert_ne]).
  - specialize (Hmint Hacc).
    pose proof (cutsum_gain_minted sys (seen sys r) Hlogs (proj1 (ro_closed _ _ Hrep))) as Hle.
    destruct (replica_apply sys r op r Hinv Hr Hr Hop) as (crdt' & E & Hw & Hid & Hperm & Hgain).
    + intros k Hk. rewrite <- (ro_perms _ _ Hrep) by done. by apply Hpos.
    + lia.
    + intros t f to b Eop Ef. apply (Htr t f to b Eop). by rewrite (ro_id _ _ Hrep).
    + rewrite E in Happ'. injection Happ' as -> _. unfold publish. rewrite Hacc.
      split; cbn [log].
      { apply logs_ok_publish; [done..|apply Hrep|apply Hrep|].
        intros k Hk. rewrite <- (ro_perms _ _ Hrep) by done. by apply Hpos. }
      assert (Hlen : forall x, (seen sys x r <= length (log sys r))%nat -> forall w,
        cutsum w (<[r:=log sys r ++ [mkMsg op (seen sys r)]]> (log sys)) (seen sys x)
        = cutsum w (log sys) (seen sys x)) by (intros; by apply cutsum_old).
      intros x Hx. destruct (inv_replicas _ Hinv x Hx) as [Hc Ho Hi Hwx Hp Hgx].
      destruct (decide (r = x)) as [<-|Hne].
      * assert (Hnew : forall w, cutsum w (<[r:=log sys r ++ [mkMsg op (seen sys r)]]> (log sys))
          (<[r:=S (seen sys r r)]> (seen sys r)) = cutsum w (log sys) (seen sys r) + w op).
        { intros w. rewrite (cutsum_receive _ _ _ _ (mkMsg op (seen sys r))).
          - by rewrite Hlen by apply Hc.
          - done.
          - by rewrite fn_lookup_insert, Ho, lookup_app_r, Nat.sub_diag. }
        split; cbn [state log seen]; rewrite ?fn_lookup_insert; try done.
        -- apply (closed_receive _ _ _ (mkMsg op (seen sys r))); [by apply closed_extend| |done].
           by rewrite fn_lookup_insert, Ho, lookup_app_r, Nat.sub_diag.
        -- rewrite length_app. simpl. lia.
        -- intros k Hk. rewrite Hperm by done. unfold rights_at. rewrite Hnew. lia.
        -- by rewrite Hnew.
      * split; cbn [state log seen]; rewrite ?(fn_lookup_insert_ne _ r x) by done; try done.
        -- by apply closed_extend.
        -- intros k Hk. unfold rights_at. rewrite Hlen by apply Hc. by apply Hp.
        -- by rewrite Hlen by apply Hc.
Qed.

Lemma minted_step sys sys' : step sys sys' -> minted sys <= minted sys'.
Proof.
  intros [r args crdt op Hr Hargs Happ|]; [|done].
  apply minted_publish; [done|]. by eapply Update_gain.
Qed.
End system.

(** ** The bound holds everywhere *)

Section safety.
Context (known : list Z) (bound initial : Z) (compEq : bool).
Hypothesis Hnd : NoDup known.
Hypothesis Hids : Forall (inS 16) known.
Hypothesis Hlen : 0 < Z.of_nat (length known) <= MaxInt32.
Hypothesis Hbound : MinInt32 <= bound <= initial.

Abbreviation start := (initialSystem known bound initial compEq).

Lemma inv_init P0 cap :
  (forall r, exists crdt, counterInitOp known (Initialize known r) bound compEq initial = Some crdt /\
     (forall k, perm (permissions crdt) k = P0 k) /\ replicaID crdt = r /\ value crdt = initial) ->
  (forall k, k ∈ known -> 0 <= P0 k) -> zsum P0 known = initial - bound ->
  initial - bound <= cap -> inv known bound initial P0 cap start.
Proof.
  intros Hinit Hpos Hsum Hcap.
  assert (Hcut : forall w c, cutsum known w (log start) c = 0).
  { intros w c. apply zsum_0. intros x _. simpl. by rewrite take_nil. }
  split.
  - split; simpl.
    + intros r m _ Hm. by apply elem_of_nil in Hm.
    + intros r i m k _ Hi. by rewrite lookup_nil in Hi.
    + intros c k _ Hk. unfold rights_at. rewrite (Hcut _ c). specialize (Hpos k Hk). lia.
  - intros q Hq. destruct (Hinit q) as (crdt & E & Hp & Hid & Hv).
    assert (Es : state start q = crdt) by (simpl; by rewrite E).
    assert (Ez : zsum (perm (permissions crdt)) known = initial - bound)
      by (rewrite <- Hsum; apply zsum_ext; intros; apply Hp).
    split; rewrite ?Es; try done.
    + split; [intros k Hk; rewrite Hp; by apply Hpos|lia|lia].
    + intros k Hk. unfold rights_at. rewrite (Hcut _ (seen start q)), Hp. lia.
    + rewrite (Hcut _ (seen start q)). lia.
Qed.

Lemma reachable_inv P0 cap sys :
  fits bound cap -> inv known bound initial P0 cap start ->
  reachable known bound initial compEq sys ->
  initial - bound + minted known sys <= cap -> inv known bound initial P0 cap sys.
Proof.
  intros Hfits H0 Hr. induction Hr as [|sys sys' Hr IH Hs]; [done|]. intros Hcap.
  pose proof (minted_step known Hnd _ _ Hs). specialize (IH ltac:(lia)).
  destruct Hs as [r args crdt op Hk Hargs Happ|q r m p crdt op Hq Hk Hqr Hm Hdeps Hp Happ].
  - by eapply inv_publish.
  - change (minted known (receive sys q r crdt)) with (minted known sys) in Hcap.
    by eapply (inv_receive known bound initial Hnd P0 cap Hfits sys q r m p crdt op).
Qed.

Lemma minted_nonneg sys : reachable known bound initial compEq sys -> 0 <= minted known sys.
Proof.
  induction 1 as [|sys sys' Hr IH Hs].
  - apply Z.eq_le_incl. symmetry. by apply zsum_0.
  - pose proof (minted_step known Hnd _ _ Hs). lia.
Qed.

(** C2. The counter is never below its bound, at any replica and at any time; what
    it can still lose is exactly the rights of the replicas, none of which is
    negative; an operation that was accepted where it was issued is accepted by
    every replica it reaches; and replicas that saw the same operations agree.
    The hypotheses on [minted] say that the increments of the run fit the 32
    bits of the code. *)
Theorem bound_never_broken (sys : System) (q : Z) :
  reachable known bound initial compEq sys ->
  initial + minted known sys <= MaxInt32 -> initial - bound + minted known sys <= MaxInt32 ->
  q ∈ known ->
  bound <= value (state sys q) /\
  value (state sys q) = bound + zsum (perm (permissions (state sys q))) known /\
  (forall k, k ∈ known -> 0 <= perm (permissions (state sys q)) k) /\
  (forall r m p crdt op, r ∈ known -> q <> r ->
     log sys r !! seen sys q r = Some m -> (forall k, k ∈ known -> m_deps m k <= seen sys q k)%nat ->
     ToReplicatorObj (m_op m) = Some p ->
     bc_applyDownstream known (state sys q) (FromReplicatorObj p) = Some (crdt, op) ->
     MustReplicate op = true) /\
  (forall q', q' ∈ known -> (forall r, r ∈ known -> seen sys q r = seen sys q' r) ->
     value (state sys q) = value (state sys q')).
Proof.
  intros Hr Hm1 Hm2 Hq.
  destruct (counterInitOp_ok known bound compEq initial) as (perms & Hinit & Hpos & Hsum);
    [done|done|lia| |].
  { pose proof (minted_nonneg sys Hr). lia. }
  set (cap := initial - bound + minted known sys).
  assert (Hfits : fits bound cap) by (unfold fits, cap; lia).
  assert (Hinv : inv known bound initial (perm perms) cap sys).
  { apply reachable_inv; [done| |done|unfold cap; lia]. apply inv_init; [|done..|].
    - intros r. eexists. split; [apply Hinit|]. done.
    - pose proof (minted_nonneg sys Hr). unfold cap. lia. }
  pose proof (inv_replicas _ _ _ _ _ _ Hinv q Hq) as Hrep. destruct (ro_within _ _ _ _ _ _ _ Hrep) as [Hnn _ Hv].
  split; [|split; [done|split; [done|split]]].
  - pose proof (zsum_nonneg _ _ Hnn). lia.
  - intros r m p crdt op Hk Hne Hm Hdeps Hp Happ.
    destruct (inv_receive known bound initial Hnd (perm perms) cap Hfits sys q r m p crdt op)
      as [-> _]; try done.
    assert (Hop : spends_own known r (m_op m)) by (eapply lo_own;
      [by apply Hinv|done|by eapply list_elem_of_lookup_2]).
    by destruct Hop.
  - intros q' Hq' Heq. pose proof (inv_replicas _ _ _ _ _ _ Hinv q' Hq') as Hrep'.
    rewrite Hv, (w_value _ _ _ _ (ro_within _ _ _ _ _ _ _ Hrep')). f_equal.
    apply zsum_ext. intros k Hk.
    rewrite (ro_perms _ _ _ _ _ _ _ Hrep), (ro_perms _ _ _ _ _ _ _ Hrep') by done.
    unfold rights_at. f_equal. by apply cutsum_ext.
Qed.
End safety.

(** ** A run *)

(** Executable steps: a client's update, and a delivery that is not done before
    what the message depends on. *)
Section run.
Context (known : list Z).

Definition update (r : Z) (args : UpdArgs) (sys : System) : System :=
  match bc_applyDownstream known (state sys r) (Update (state sys r) args) with
  | Some (crdt, op) => publish sys r crdt op
  | None => sys
  end.

Definition ready (sys : System) (q : Z) (m : Msg) : bool :=
  forallb (fun k => (m_deps m k <=? seen sys q k)%nat) known.

Definition deliver (q r : Z) (sys : System) : System :=
  match log sys r !! seen sys q r with
  | Some m =>
      match ToReplicatorObj (m_op m) with
      | Some p =>
          match bc_applyDownstream known (state sys q) (FromReplicatorObj p) with
          | Some (crdt, _) => if ready sys q m then receive sys q r crdt else sys
          | None => sys
          end
      | None => sys
      end
  | None => sys
  end.

Lemma update_reachable bound initial compEq r args sys :
  r ∈ known -> allowed known r args -> reachable known bound initial compEq sys ->
  reachable known bound initial compEq (update r args sys).
Proof.
  intros Hr Ha Hs. unfold update.
  destruct (bc_applyDownstream known (state sys r) _) as [[crdt op]|] eqn:E; [|done].
  by eapply reach_step; [|eapply step_update].
Qed.

Lemma deliver_reachable bound initial compEq q r sys :
  q ∈ known -> r ∈ known -> q <> r -> reachable known bound initial compEq sys ->
  reachable known bound initial compEq (deliver q r sys).
Proof.
  intros Hq Hr Hne Hs. unfold deliver.
  destruct (log sys r !! seen sys q r) as [m|] eqn:Em; [|done].
  destruct (ToReplicatorObj (m_op m)) as [p|] eqn:Ep; [|done].
  destruct (bc_applyDownstream known (state sys q) _) as [[crdt op]|] eqn:E; [|done].
  destruct (ready sys q m) eqn:Erd; [|done].
  eapply reach_step; [done|]. eapply step_deliver; try done.
  intros k Hk. unfold ready in Erd. rewrite List.forallb_forall in Erd.
  apply Nat.leb_le, Erd. by apply list_elem_of_In.
Qed.
End run.

Module Run.
Definition known : list Z := [1; 2; 3].

(** Replica 2 gives rights to replica 3, which uses them; 1 hears of both. *)
Definition final (compEq : bool) : System :=
  deliver known 1 3 (deliver known 1 2 (update known 3 (Decrement 4) (deliver known 3 2
    (update known 2 (TransferCounter 1 2 3 false) (initialSystem known 10 20 compEq))))).

Lemma reachable_final compEq : reachable known 10 20 compEq (final compEq).
Proof.
  unfold final. repeat first [apply deliver_reachable; [set_solver|set_solver|done|]
    |apply update_reachable; [set_solver|constructor; [lia|..]; set_solver|]].
  constructor.
Qed.

(** With a strict bound the rights still add up to the distance to the bound
    itself: the counter reaches a value below its [limit]. *)
Definition spent : System :=
  deliver known 1 3 (deliver known 1 2 (update known 3 (Decrement 3)
    (update known 2 (Decrement 3) (update known 1 (Decrement 4)
      (initialSystem known 10 20 false))))).

Lemma strict_bound_is_broken :
  reachable known 10 20 false spent /\
  limit (state spent 1) = 11 /\ value (state spent 1) = 10.
Proof.
  split; [|by vm_compute].
  unfold spent. repeat first [apply deliver_reachable; [set_solver|set_solver|done|]
    |apply update_reachable; [set_solver|constructor; lia|]].
  constructor.
Qed.
End Run.

Lemma bound_never_broken_witness :
  value (state (Run.final true) 1) = 16 /\
  perm (permissions (state (Run.final true) 1)) 3 = 0 /\
  10 <= value (state (Run.final true) 1).
Proof.
  split; [vm_compute; reflexivity|]. split; [vm_compute; reflexivity|].
  refine (proj1 (bound_never_broken Run.known 10 20 true _ _ _ _ (Run.final true) 1
    (Run.reachable_final true) _ _ _)).
  - apply (bool_decide_unpack _). vm_compute. exact I.
  - repeat constructor; vm_compute; done.
  - vm_compute. split; [done|]. intros [=].
  - vm_compute. split; intros [=].
  - vm_compute. intros [=].
  - vm_compute. intros [=].
  - apply (bool_decide_unpack _). vm_compute. exact I.
Defined.

(** A replica that joined through a snapshot issues its operations under
    identifier 0, which has no rights: it cannot decrement. *)
Lemma joined_replica_cannot_decrement known crdt r c :
  Forall (fun e => inS 16 e.1 /\ e.1 <> 0) (map_to_list (permissions crdt)) -> 0 < c ->
  let joined := FromProtoState (ToProtoState crdt) r in
  bc_applyDownstream known joined (Update joined (Decrement c)) =
    Some (joined, DownstreamDecBCounter c 0 false).
Proof.
  intros Hk Hc joined.
  assert (H0 : perm (permissions joined) 0 = 0).
  { unfold joined, FromProtoState, initializeFromSnapshot, perm, keysToInt16. simpl.
    rewrite map_fold_foldr. induction Hk as [|[k v] l [Hk Hne] Hl IH]; [done|]. simpl in *.
    rewrite wrapS_id by done. by rewrite lookup_insert_ne. }
  simpl. unfold decrement. rewrite H0.
  by destruct (Z.gtb_spec c 0); [|lia].
Qed.
