(* ===== verification/TopK.v ===== *)
(** * The top-K object without removes: topK.go (src/crdt/crdt)

    [TopKCrdt] keeps the [maxElems] highest scores, one per identifier; entries
    that tie with the lowest of them are kept apart in [tiedElems].  [None] for
    [Data] is a nil pointer; two pointers are only compared with nil, so data is
    compared by whether it is there.  A nil map and an empty one behave alike
    and are both the empty map.  A loop over a map goes through [map_to_list];
    the lemmas say when the order does not matter.  [sort.Slice] is not stable:
    it is a parameter with its documented result. *)

From S2P Require Import Prelude ClockSI Inversible Convergence.
From Stdlib Require Import ZArith Lia Bool.
From stdpp Require Import base tactics numbers gmap sorting list.
#[local] Open Scope Z_scope.

Record TopKScore := mkScore { Id : Z; Score : Z; Data : option (list Z) }.

#[export] Instance TopKScore_eq_dec : EqDecision TopKScore.
Proof. solve_decision. Defined.

Definition zeroScore : TopKScore := mkScore 0 0 None.

(** [score == TopKScore{}]. *)
Definition isZero (s : TopKScore) : bool :=
  (Id s =? 0) && (Score s =? 0) && match Data s with None => true | Some _ => false end.

Definition isHigherScore (score other : TopKScore) : bool :=
  if isZero other then true
  else if Score score >? Score other then true
  else if Score score =? Score other then Id score >? Score other
  else false.

Definition isLowerScore (score other : TopKScore) : bool :=
  if isZero other then true
  else if Score score <? Score other then true
  else if Score score =? Score other then Id score <? Id other
  else false.

Abbreviation Scores := (gmap Z TopKScore).

Record TopKCrdt := mkTopK {
  maxElems : Z;
  smallestScore : TopKScore;
  elems : Scores;
  sortedElems : option (list TopKScore);
  keepTiedEntries : bool;
  tiedElems : Scores
}.

Inductive UpdArgs :=
  | TopKAdd (s : TopKScore)
  | TopKAddAll (Scores : list TopKScore)
  | TopKInit (TopSize : Z).

(** The flag of an add is a pointer shared by its copies, written when the
    operation is applied. *)
Inductive DownArgs :=
  | DownstreamSimpleTopKAdd (s : TopKScore) (ToReplicate : bool)
  | DownstreamSimpleTopKAddAll (DownstreamAdds : list TopKScore)
  | DownTopKInit (TopSize : Z)
  | NoOp.

Inductive Eff :=
  | TopKAddEffect (s : TopKScore)
  | TopKReplaceEffect (newElem oldElem oldMin : TopKScore)
  | TopKReplaceAndCleanTiedEffect (newElem oldElem oldMin : TopKScore) (oldTied : Scores)
  | TopKReplaceAndTiedEffect (newElem oldElem oldMin : TopKScore)
  | TopKAddAllEffect (effects : list Eff)
  | NoEffect.

(** [size] is not used by the code. *)
Definition InitializeWithSize (size : Z) : TopKCrdt := mkTopK 100 zeroScore ∅ None true ∅.

Definition defaultTopKSize : Z := 100.
Definition Initialize : TopKCrdt := InitializeWithSize defaultTopKSize.

Definition IsBigCRDT (crdt : TopKCrdt) : bool :=
  (maxElems crdt >? 100) && (Z.of_nat (size (elems crdt)) >? 100).

(** ** Reads *)

Definition values (m : Scores) : list TopKScore := (map_to_list m).*2.

Definition getState (crdt : TopKCrdt) : list TopKScore :=
  if keepTiedEntries crdt then values (elems crdt) ++ values (tiedElems crdt)
  else values (elems crdt).

Section reads.
Context (sortByScore : list TopKScore -> list TopKScore).

(** A read builds and keeps [sortedElems].  [None]: a negative slice bound. *)
Definition getTopN (crdt : TopKCrdt) (numberEntries : Z)
  : option (list TopKScore) * TopKCrdt :=
  let sorted := match sortedElems crdt with
                | Some l => l
                | None => sortByScore (getState crdt)
                end in
  let crdt := mkTopK (maxElems crdt) (smallestScore crdt) (elems crdt) (Some sorted)
                (keepTiedEntries crdt) (tiedElems crdt) in
  (if numberEntries >=? Z.of_nat (length sorted) then Some sorted
   else if numberEntries <? 0 then None
   else Some (take (Z.to_nat numberEntries) sorted), crdt).
End reads.

(** The entries of [sortedElems] up to the first below [minValue]; [None]: more
    than fit in the slice made for them. *)
Definition takeAbove (minValue : Z) (sorted : list TopKScore) : list TopKScore :=
  (fix loop l := match l with
                 | e :: l => if Score e >=? minValue then e :: loop l else []
                 | [] => []
                 end) sorted.

Definition getTopKAboveValue (crdt : TopKCrdt) (minValue : Z) : option (list TopKScore) :=
  match sortedElems crdt with
  | Some sorted =>
      let above := takeAbove minValue sorted in
      if (length above <=? size (elems crdt))%nat then Some above else None
  | None =>
      let above := List.filter (fun e => Score e >=? minValue) (values (elems crdt)) in
      let tied := if keepTiedEntries crdt && (Score (smallestScore crdt) >=? minValue)
                  then values (tiedElems crdt) else [] in
      (* values = make([]TopKScore, len(elems)), filled from the left, then appended to *)
      Some (take (length above)
              (above ++ replicate (size (elems crdt) - length above) zeroScore ++ tied))
  end.

(** ** Updates *)

Definition accepted (crdt : TopKCrdt) (add : TopKScore) : bool :=
  match elems crdt !! Id add with
  | Some elem => negb (Score elem >=? Score add)
  | None =>
      (Z.of_nat (size (elems crdt)) <? maxElems crdt)
      || isHigherScore add (smallestScore crdt)
      || ((Score (smallestScore crdt) =? Score add) && keepTiedEntries crdt)
  end.

Definition getTopKAddDownstreamArgs (crdt : TopKCrdt) (addOp : TopKScore) : DownArgs :=
  if accepted crdt addOp then DownstreamSimpleTopKAdd addOp false else NoOp.

Definition getTopKAddAllDownstreamArgs (crdt : TopKCrdt) (adds : list TopKScore) : DownArgs :=
  match List.filter (accepted crdt) adds with
  | [] => NoOp
  | [add] => DownstreamSimpleTopKAdd add false
  | downAdds => DownstreamSimpleTopKAddAll downAdds
  end.

Definition Update (crdt : TopKCrdt) (args : UpdArgs) : DownArgs :=
  match args with
  | TopKAdd s => getTopKAddDownstreamArgs crdt s
  | TopKAddAll l => getTopKAddAllDownstreamArgs crdt l
  | TopKInit n => DownTopKInit n
  end.

Definition set_top (smallest : TopKScore) (m tied : Scores) (crdt : TopKCrdt) : TopKCrdt :=
  mkTopK (maxElems crdt) smallest m (sortedElems crdt) (keepTiedEntries crdt) tied.

Definition findMin (m : Scores) : TopKScore :=
  foldl (fun minSoFar elem => if isLowerScore elem minSoFar then elem else minSoFar)
    zeroScore (values m).

Definition findAndUpdateMin (crdt : TopKCrdt) : TopKCrdt :=
  set_top (findMin (elems crdt)) (elems crdt) (tiedElems crdt) crdt.

Definition addTiedElem (score : TopKScore) (tied : Scores) : Scores := <[Id score := score]> tied.

(** The new object, the effect, and what is written to the operation's flag. *)
Definition applyAdd (crdt : TopKCrdt) (op : TopKScore) : TopKCrdt * Eff * bool :=
  let smallest := smallestScore crdt in
  let tied := tiedElems crdt in
  match elems crdt !! Id op with
  | Some elem =>
      if Score elem >? Score op then (crdt, NoEffect, false)
      else
        let crdt' := set_top smallest (<[Id op := op]> (elems crdt)) tied crdt in
        (if Id smallest =? Id op then findAndUpdateMin crdt' else crdt',
         TopKReplaceEffect op elem smallest, true)
  | None =>
      if Z.of_nat (size (elems crdt)) <? maxElems crdt then
        let m := <[Id op := op]> (elems crdt) in
        if isLowerScore op smallest
        then (set_top op m tied crdt, TopKReplaceEffect op zeroScore smallest, true)
        else (set_top smallest m tied crdt, TopKAddEffect op, true)
      else if isHigherScore op smallest then
        let m := <[Id op := op]> (delete (Id smallest) (elems crdt)) in
        if Score op =? Score smallest then
          if keepTiedEntries crdt
          then (set_top op m (addTiedElem smallest tied) crdt,
                TopKReplaceAndTiedEffect op smallest smallest, true)
          else (set_top op m tied crdt, TopKReplaceEffect op op op, true)
        else
          (* the effects are built after smallestScore has changed *)
          let newMin := findMin m in
          if keepTiedEntries crdt then
            if Score smallest =? Score newMin
            then (set_top newMin m (addTiedElem smallest tied) crdt,
                  TopKReplaceAndTiedEffect op newMin newMin, true)
            else (set_top newMin m ∅ crdt,
                  TopKReplaceAndCleanTiedEffect op newMin newMin tied, true)
          else (set_top newMin m tied crdt, TopKReplaceEffect op newMin newMin, true)
      else if (Score smallest =? Score op) && keepTiedEntries crdt
      then (set_top smallest (elems crdt) (addTiedElem op tied) crdt, TopKAddEffect op, true)
      else (crdt, NoEffect, false)
  end.

(** The body of the loop of [applyAddAll]; an effect the code leaves nil is
    [NoEffect]: undoing either does nothing. *)
Definition applyAddAll_step (st : TopKCrdt * list Eff * list TopKScore) (add : TopKScore)
  : TopKCrdt * list Eff * list TopKScore :=
  let '(crdt, effects, newDown) := st in
  let smallest := smallestScore crdt in
  let tied := tiedElems crdt in
  let keep crdt eff := (crdt, effects ++ [eff], newDown ++ [add]) in
  match elems crdt !! Id add with
  | Some elem =>
      if Score elem >? Score add then st
      else
        let crdt' := set_top smallest (<[Id add := add]> (elems crdt)) tied crdt in
        keep (if Id smallest =? Id add then findAndUpdateMin crdt' else crdt')
          (TopKReplaceEffect add elem smallest)
  | None =>
      if Z.of_nat (size (elems crdt)) <? maxElems crdt then
        let m := <[Id add := add]> (elems crdt) in
        if isLowerScore add smallest
        then keep (set_top add m tied crdt) (TopKReplaceEffect add zeroScore smallest)
        else keep (set_top smallest m tied crdt) (TopKAddEffect add)
      else if isHigherScore add smallest then
        let m := delete (Id smallest) (<[Id add := add]> (elems crdt)) in
        if Score add =? Score smallest then
          if keepTiedEntries crdt
          then keep (set_top add m (addTiedElem smallest tied) crdt)
                 (TopKReplaceAndTiedEffect add smallest smallest)
          else keep (set_top add m tied crdt) NoEffect
        else if keepTiedEntries crdt
        then keep (set_top (findMin m) m ∅ crdt)
               (TopKReplaceAndCleanTiedEffect add smallest smallest tied)
        else keep (set_top (findMin m) m tied crdt) NoEffect
      else if (Score smallest =? Score add) && keepTiedEntries crdt
      then keep (set_top smallest (elems crdt) (addTiedElem add tied) crdt) (TopKAddEffect add)
      else st
  end.

Definition applyAddAll (crdt : TopKCrdt) (adds : list TopKScore)
  : TopKCrdt * Eff * list TopKScore :=
  let '(crdt, effects, newDown) := foldl applyAddAll_step (crdt, [], []) adds in
  (crdt, if (length newDown =? 0)%nat then NoEffect else TopKAddAllEffect effects, newDown).

Definition applyInit (crdt : TopKCrdt) (TopSize : Z) : TopKCrdt :=
  mkTopK TopSize (smallestScore crdt) (elems crdt) (sortedElems crdt) (keepTiedEntries crdt)
    (tiedElems crdt).

Definition topk_applyDownstream (crdt : TopKCrdt) (op : DownArgs)
  : option (TopKCrdt * option Eff) :=
  Some match op with
       | DownstreamSimpleTopKAdd s _ => let '(crdt, eff, _) := applyAdd crdt s in (crdt, Some eff)
       | DownstreamSimpleTopKAddAll l =>
           let '(crdt, eff, _) := applyAddAll crdt l in (crdt, Some eff)
       | DownTopKInit n => (applyInit crdt n, Some NoEffect)
       | NoOp => (crdt, None)
       end.

(** ** Undoing *)

Definition restore (oldElem : TopKScore) (m : Scores) : Scores :=
  if isZero oldElem then m else <[Id oldElem := oldElem]> m.

Fixpoint undo (crdt : TopKCrdt) (eff : Eff) : TopKCrdt :=
  match eff with
  | TopKAddEffect s =>
      set_top (smallestScore crdt) (delete (Id s) (elems crdt))
        (if (Score (smallestScore crdt) =? Score s) && keepTiedEntries crdt
         then delete (Id s) (tiedElems crdt) else tiedElems crdt) crdt
  | TopKReplaceEffect newElem oldElem oldMin =>
      set_top oldMin (restore oldElem (delete (Id newElem) (elems crdt))) (tiedElems crdt) crdt
  | TopKReplaceAndTiedEffect newElem oldElem oldMin =>
      set_top oldMin (<[Id oldElem := oldElem]> (delete (Id newElem) (elems crdt)))
        (delete (Id oldMin) (tiedElems crdt)) crdt
  | TopKReplaceAndCleanTiedEffect newElem oldElem oldMin oldTied =>
      set_top oldMin (restore oldElem (delete (Id newElem) (elems crdt))) oldTied crdt
  | TopKAddAllEffect effects => foldl undo crdt effects
  | NoEffect => crdt
  end.

#[export] Instance topk_inversible : InversibleOps TopKCrdt DownArgs Eff := {
  applyDownstream := topk_applyDownstream;
  undoEffect crdt effect :=
    match effect with Some eff => Some (undo crdt eff) | None => None end
}.

(** The tied entries, the sorted entries and the flag are not copied. *)
Definition Copy (crdt : TopKCrdt) : TopKCrdt :=
  mkTopK (maxElems crdt) (smallestScore crdt) (elems crdt) None false ∅.

(** ** Protocol buffers *)

(** A [proto.ProtoTopKScore]; absent fields read as zero values. *)
Record ProtoTopKScore := mkProtoScore { P_Id : Z; P_Score : Z; P_Data : list Z }.

(** [*score.Data]: a nil pointer panics. *)
Definition scoreToProto (s : TopKScore) : option ProtoTopKScore :=
  match Data s with Some d => Some (mkProtoScore (Id s) (Score s) d) | None => None end.

Definition scoreFromProto (p : ProtoTopKScore) : TopKScore :=
  mkScore (P_Id p) (P_Score p) (Some (P_Data p)).

(** The [Adds] of the message, for the two operations that have one. *)
Definition ToReplicatorObj (downOp : DownArgs) : option (list ProtoTopKScore) :=
  match downOp with
  | DownstreamSimpleTopKAdd s _ => match scoreToProto s with Some p => Some [p] | None => None end
  | DownstreamSimpleTopKAddAll l => mapM scoreToProto l
  | _ => None
  end.

(** [downstreamProtoTopKToAntidoteDownstream] and [FromReplicatorObj]. *)
Definition FromReplicatorObj (adds : list ProtoTopKScore) : DownArgs :=
  match adds with
  | [add] => DownstreamSimpleTopKAdd (scoreFromProto add) true
  | _ => DownstreamSimpleTopKAddAll (scoreFromProto <$> adds)
  end.

(** The loops over a map of [ToProtoState] take the address of their variable's
    identifier and score: every message has those of the last round, and its
    own data. *)
Definition scoresToProto (l : list TopKScore) : option (list ProtoTopKScore) :=
  let lastRound := default zeroScore (last l) in
  mapM (fun s => d ← Data s; Some (mkProtoScore (Id lastRound) (Score lastRound) d)) l.

(** [None] in [Tied]: the entries the loop leaves nil, as it always writes to
    index 0. *)
Record ProtoTopKState := mkProtoState {
  P_Elems : list ProtoTopKScore;
  P_MaxElems : Z;
  P_KeepTiedEntries : bool;
  P_Tied : list (option ProtoTopKScore);
  P_Smallest : ProtoTopKScore
}.

Definition tiedToProto (crdt : TopKCrdt) : option (list (option ProtoTopKScore)) :=
  if keepTiedEntries crdt && (0 <? size (tiedElems crdt))%nat then
    tied ← scoresToProto (values (tiedElems crdt));
    Some (last tied :: replicate (length tied - 1) None)
  else Some [].

Definition ToProtoState (crdt : TopKCrdt) : option ProtoTopKState :=
  protoElems ← scoresToProto (values (elems crdt));
  tied ← tiedToProto crdt;
  smallest ← scoreToProto (smallestScore crdt);
  Some (mkProtoState protoElems (int32 (maxElems crdt)) (keepTiedEntries crdt) tied smallest).

(** The getters of a nil message give zero values. *)
Definition tiedFromProto (p : option ProtoTopKScore) : TopKScore :=
  scoreFromProto (default (mkProtoScore 0 0 []) p).

Definition FromProtoState (p : ProtoTopKState) : TopKCrdt :=
  let toMap := foldl (fun (m : Scores) s => <[Id s := s]> m) ∅ in
  mkTopK (P_MaxElems p) (scoreFromProto (P_Smallest p))
    (toMap (scoreFromProto <$> P_Elems p)) None (P_KeepTiedEntries p)
    (if P_KeepTiedEntries p then toMap (tiedFromProto <$> P_Tied p) else ∅).

(** ** The entries and their minimum

    What [applyAdd] and one round of [applyAddAll] do to [elems] and
    [smallestScore]. *)

Definition core (n : Z) (m : Scores) (s op : TopKScore) : Scores * TopKScore :=
  match m !! Id op with
  | Some elem =>
      if Score elem >? Score op then (m, s)
      else let m' := <[Id op := op]> m in (m', if Id s =? Id op then findMin m' else s)
  | None =>
      if Z.of_nat (size m) <? n then (<[Id op := op]> m, if isLowerScore op s then op else s)
      else if isHigherScore op s then
        let m' := <[Id op := op]> (delete (Id s) m) in
        (m', if Score op =? Score s then op else findMin m')
      else (m, s)
  end.

Lemma applyAdd_core crdt op :
  let crdt' := fst (fst (applyAdd crdt op)) in
  (elems crdt', smallestScore crdt') = core (maxElems crdt) (elems crdt) (smallestScore crdt) op /\
  maxElems crdt' = maxElems crdt /\ sortedElems crdt' = sortedElems crdt.
Proof.
  unfold applyAdd, core. destruct (elems crdt !! Id op) as [elem|]; simpl.
  - destruct (Score elem >? Score op); [done|]. simpl. by destruct (Id _ =? Id op).
  - destruct (_ <? maxElems crdt); [by destruct (isLowerScore op _)|].
    destruct (isHigherScore op _).
    + destruct (Score op =? _); destruct (keepTiedEntries crdt); try done.
      by destruct (_ =? _).
    + by destruct (_ && _).
Qed.

Definition healthy (m : Scores) (s : TopKScore) : Prop := m !! Id s = Some s \/ m = ∅.

(** Deleting the old minimum before or after the new entry is put in. *)
Lemma applyAddAll_step_core st op :
  healthy (elems st.1.1) (smallestScore st.1.1) -> 0 < maxElems st.1.1 ->
  let crdt := st.1.1 in let crdt' := (applyAddAll_step st op).1.1 in
  (elems crdt', smallestScore crdt') = core (maxElems crdt) (elems crdt) (smallestScore crdt) op /\
  maxElems crdt' = maxElems crdt /\ sortedElems crdt' = sortedElems crdt.
Proof.
  destruct st as [[crdt effs] down]. simpl. intros Hh Hn. unfold core.
  destruct (elems crdt !! Id op) as [elem|] eqn:E; simpl.
  - destruct (Score elem >? Score op); [done|]. simpl. by destruct (Id _ =? Id op).
  - destruct (Z.ltb_spec (Z.of_nat (size (elems crdt))) (maxElems crdt));
      [by destruct (isLowerScore op _)|].
    assert (Hs : delete (Id (smallestScore crdt)) (<[Id op := op]> (elems crdt)) =
      <[Id op := op]> (delete (Id (smallestScore crdt)) (elems crdt))).
    { apply delete_insert_ne. intros Eid. destruct Hh as [Hh|Hh].
      - congruence.
      - rewrite Hh, map_size_empty in H. lia. }
    rewrite !Hs. destruct (isHigherScore op _).
    + by destruct (Score op =? _); destruct (keepTiedEntries crdt).
    + by destruct (_ && _).
Qed.

(** ** The top *)

Definition hasData (s : TopKScore) : Prop := Data s <> None.

Lemma hasData_not_zero s : hasData s -> isZero s = false.
Proof. unfold hasData, isZero. destruct (Data s); [by rewrite andb_false_r|done]. Qed.

Lemma isLowerScore_score s t :
  isZero t = false -> (isLowerScore s t = true -> Score s <= Score t) /\
                      (isLowerScore s t = false -> Score t <= Score s).
Proof.
  unfold isLowerScore. intros ->.
  destruct (Z.ltb_spec (Score s) (Score t)); [split; [lia|done]|].
  destruct (Z.eqb_spec (Score s) (Score t)); split; intros; lia || done.
Qed.

Lemma isHigherScore_score s t :
  isZero t = false -> (isHigherScore s t = true -> Score t <= Score s) /\
                      (isHigherScore s t = false -> Score s <= Score t).
Proof.
  unfold isHigherScore. intros ->.
  destruct (Z.gtb_spec (Score s) (Score t)); [split; [lia|done]|].
  destruct (Z.eqb_spec (Score s) (Score t)); split; intros; lia || done.
Qed.

Lemma foldl_min (l : list TopKScore) s :
  Forall hasData l -> hasData s \/ s = zeroScore ->
  let r := foldl (fun m e => if isLowerScore e m then e else m) s l in
  (r ∈ l \/ r = s) /\ (l <> [] -> hasData r) /\ (hasData s -> hasData r /\ Score r <= Score s) /\
  Forall (fun e => Score r <= Score e) l.
Proof.
  revert s. induction l as [|e l IH]; intros s Hl Hs; simpl.
  { split; [by right|]. split; [done|]. split; [by split|constructor]. }
  apply Forall_cons in Hl as [He Hl].
  destruct (IH (if isLowerScore e s then e else s) Hl) as (H1 & _ & H2 & H3).
  { case_match; [by left|done]. }
  set (r := foldl _ _ _) in *.
  assert (Hse : hasData (if isLowerScore e s then e else s) /\
    Score (if isLowerScore e s then e else s) <= Score e /\
    (hasData s -> Score (if isLowerScore e s then e else s) <= Score s)).
  { destruct Hs as [Hs| ->]; [|by split; [|split; [|intros []]]].
    destruct (isLowerScore_score e s (hasData_not_zero s Hs)) as [Ht Hf].
    destruct (isLowerScore e s); (split; [done|]); split; try lia; auto; lia. }
  destruct Hse as (Hd & Hle & Hle'). destruct (H2 Hd) as [Hdr Hr].
  split; [|split; [done|split]].
  - destruct H1 as [H1| ->]; [left; by right|]. case_match; [left; by left|by right].
  - intros Hd'. split; [done|]. specialize (Hle' Hd'). lia.
  - constructor; [lia|done].
Qed.

Definition keyed (m : Scores) : Prop := forall id e, m !! id = Some e -> Id e = id /\ hasData e.

Lemma values_elem (m : Scores) e : e ∈ values m -> exists id, m !! id = Some e.
Proof.
  unfold values. rewrite list_elem_of_fmap. intros ([id e'] & -> & Hin). exists id. by apply elem_of_map_to_list in Hin.
Qed.

Lemma value_elem_of (m : Scores) id e : m !! id = Some e -> e ∈ values m.
Proof.
  intros Hid. unfold values. apply list_elem_of_fmap. exists (id, e). split; [done|]. by apply elem_of_map_to_list.
Qed.

Lemma findMin_ok m :
  keyed m -> m <> ∅ ->
  m !! Id (findMin m) = Some (findMin m) /\ hasData (findMin m) /\
  (forall id e, m !! id = Some e -> Score (findMin m) <= Score e).
Proof.
  intros Hk Hne.
  assert (Hin : forall e, e ∈ values m <-> exists id, m !! id = Some e)
    by (intros e; split; [apply values_elem|intros [id Hid]; by apply (value_elem_of m id)]).
  assert (Hd : Forall hasData (values m)).
  { apply Forall_forall. intros e He. apply Hin in He as [id He]. by apply (Hk id e). }
  assert (Hv : values m <> []).
  { unfold values. intros E%fmap_nil_inv. by apply map_to_list_empty_iff in E. }
  destruct (foldl_min (values m) zeroScore Hd (or_intror eq_refl)) as (H1 & H2 & _ & H3).
  fold (findMin m) in *. specialize (H2 Hv).
  split; [|split; [done|]].
  - destruct H1 as [H1|H1]; [|by rewrite H1 in H2].
    apply Hin in H1 as [id Hid]. destruct (Hk _ _ Hid) as [-> _]. done.
  - intros id e He. rewrite Forall_forall in H3. apply H3, Hin. by exists id.
Qed.

(** The entries of [elems] are the highest scores of what was added; for the ties
    that are kept beside them see [tied_ok]. *)
Record top_ok (n : Z) (adds : list TopKScore) (m : Scores) (s : TopKScore) : Prop := {
  top_size : Z.of_nat (size m) <= n;
  top_keyed : keyed m;
  top_best id e : m !! id = Some e ->
    e ∈ adds /\ forall a, a ∈ adds -> Id a = id -> Score a <= Score e;
  top_min : if decide (m = ∅) then s = zeroScore
            else m !! Id s = Some s /\ forall id e, m !! id = Some e -> Score s <= Score e;
  top_rest a : a ∈ adds -> m !! Id a = None ->
    Z.of_nat (size m) = n /\ Score a <= Score s
}.

Lemma top_ok_init n : 0 < n -> top_ok n [] ∅ zeroScore.
Proof.
  intros Hn. split; try done.
  - rewrite map_size_empty. lia.
  - intros a Ha. by apply elem_of_nil in Ha.
Qed.

(** Entries change to [m'], which has [op], all of [m] or all of it but its
    minimum; scores do not go down. *)
Lemma top_ok_change n adds m s m' s' op :
  0 < n -> top_ok n adds m s -> hasData op ->
  m' !! Id op = Some op ->
  (forall id, id <> Id op -> m' !! id = m !! id \/
     (m' !! id = None /\ id = Id s /\ m !! Id op = None /\ Z.of_nat (size m) = n /\ m <> ∅)) ->
  (forall e, m !! Id op = Some e -> Score e <= Score op) ->
  (m !! Id op = None -> Z.of_nat (size m) = n -> Score s <= Score op) ->
  Z.of_nat (size m') <= n ->
  (Z.of_nat (size m) = n -> Z.of_nat (size m') = n) ->
  (m' !! Id s' = Some s' /\ forall id e, m' !! id = Some e -> Score s' <= Score e) ->
  top_ok n (adds ++ [op]) m' s'.
Proof.
  intros Hn [Hsz Hk Hb Hmin Hr] Hop Hin Hother Hge Hfull Hsz' Hkeep [Hs' Hmin'].
  assert (Hold : forall id e, id <> Id op -> m' !! id = Some e -> m !! id = Some e).
  { intros id e Hid He. destruct (Hother id Hid) as [<-|[E _]]; [done|congruence]. }
  assert (Hne : m' <> ∅) by (intros ->; by rewrite lookup_empty in Hin).
  assert (Hss : Z.of_nat (size m) = n -> Score s <= Score s').
  { intros Hz. destruct (decide (m = ∅)) as [->|Hm]; [rewrite map_size_empty in Hz; lia|].
    destruct Hmin as [Hs Hmin]. destruct (decide (Id s' = Id op)) as [E|E].
    - rewrite E in Hs'. rewrite Hs' in Hin. injection Hin as ->.
      destruct (m !! Id op) as [e|] eqn:Ee; [|by apply Hfull].
      pose proof (Hmin _ _ Ee). specialize (Hge e eq_refl). lia.
    - apply (Hmin (Id s')). by apply Hold. }
  split; [done| | | |].
  - intros id e He. destruct (decide (id = Id op)) as [->|Hid]; [by simplify_eq|].
    by apply Hk, Hold.
  - intros id e He. destruct (decide (id = Id op)) as [->|Hid].
    + rewrite Hin in He. injection He as <-. split; [set_solver|].
      intros a Ha Hida. apply elem_of_app in Ha as [Ha|Ha%list_elem_of_singleton]; [|subst; lia].
      destruct (m !! Id op) as [e|] eqn:Ee.
      * destruct (Hb _ _ Ee) as [_ Hbe]. pose proof (Hbe a Ha Hida). specialize (Hge e eq_refl). lia.
      * rewrite <- Hida in Ee. destruct (Hr a Ha Ee) as [Hz Hle]. pose proof (Hfull eq_refl Hz). lia.
    + destruct (Hb id e (Hold _ _ Hid He)) as [H1 H2]. split; [set_solver|].
      intros a Ha Hida. apply elem_of_app in Ha as [Ha|Ha%list_elem_of_singleton]; [auto|congruence].
  - by rewrite decide_False.
  - intros a Ha Hnone. apply elem_of_app in Ha as [Ha|Ha%list_elem_of_singleton]; [|congruence].
    destruct (decide (Id a = Id op)) as [E|E]; [congruence|].
    destruct (Hother _ E) as [Eo|(_ & Eid & Hno & Hz & Hm)].
    + rewrite Eo in Hnone. destruct (Hr a Ha Hnone) as [Hz Hle].
      specialize (Hss Hz). split; [auto|lia].
    + rewrite decide_False in Hmin by done. destruct Hmin as [Hs Hmin].
      destruct (Hb _ _ Hs) as [_ Hbs]. pose proof (Hbs a Ha Eid). specialize (Hss Hz).
      split; [auto|lia].
Qed.

Lemma top_ok_keep n adds m s op :
  top_ok n adds m s -> (forall e, m !! Id op = Some e -> Score op <= Score e) ->
  (m !! Id op = None -> Z.of_nat (size m) = n /\ Score op <= Score s) ->
  top_ok n (adds ++ [op]) m s.
Proof.
  intros [Hsz Hk Hb Hmin Hr] Hin Hout. split; [done|done| |done|].
  - intros id e He. destruct (Hb id e He) as [H1 H2]. split; [set_solver|].
    intros a Ha Hida. apply elem_of_app in Ha as [Ha|Ha%list_elem_of_singleton]; [auto|].
    subst. by apply Hin.
  - intros a Ha Hnone. apply elem_of_app in Ha as [Ha|Ha%list_elem_of_singleton]; [auto|].
    subst. by apply Hout.
Qed.

Lemma keyed_insert m op : keyed m -> hasData op -> keyed (<[Id op := op]> m).
Proof.
  intros Hm Hop id e. destruct (decide (id = Id op)) as [->|Hne].
  - rewrite lookup_insert_eq. by intros [= <-].
  - rewrite lookup_insert_ne by done. apply Hm.
Qed.

(** A lower bound of the entries bounds them with a new one that is not lower. *)
Lemma insert_min (m : Scores) op t :
  (forall id e, m !! id = Some e -> t <= Score e) -> t <= Score op ->
  forall id e, <[Id op := op]> m !! id = Some e -> t <= Score e.
Proof.
  intros Hm Hop id e. destruct (decide (id = Id op)) as [->|Hne].
  - rewrite lookup_insert_eq. by intros [= <-].
  - rewrite lookup_insert_ne by done. apply Hm.
Qed.

Lemma top_ok_nonempty n adds m s :
  top_ok n adds m s -> m <> ∅ ->
  m !! Id s = Some s /\ isZero s = false /\ forall id e, m !! id = Some e -> Score s <= Score e.
Proof.
  intros [_ Hk _ Hmin _] Hm. rewrite decide_False in Hmin by done. destruct Hmin as [Hs Hmin].
  split; [done|]. split; [|done]. by apply hasData_not_zero, (Hk (Id s)).
Qed.

Lemma top_ok_replace n adds m s op elem :
  0 < n -> hasData op -> top_ok n adds m s -> m !! Id op = Some elem -> Score elem <= Score op ->
  top_ok n (adds ++ [op]) (<[Id op := op]> m)
    (if Id s =? Id op then findMin (<[Id op := op]> m) else s).
Proof.
  intros Hn Hop Hok E Hle. pose proof Hok as [Hsz Hk _ _ _].
  assert (Hm : m <> ∅) by (intros ->; by rewrite lookup_empty in E).
  destruct (top_ok_nonempty _ _ _ _ Hok Hm) as (Hs & _ & Hmin).
  assert (Hsz' : size (<[Id op := op]> m) = size m) by (by rewrite map_size_insert, E).
  apply (top_ok_change n adds m s); try done; rewrite ?Hsz'; try done; try congruence.
  - by rewrite lookup_insert_eq.
  - intros id Hid. left. by rewrite lookup_insert_ne.
  - destruct (Z.eqb_spec (Id s) (Id op)) as [Eid|Eid].
    + destruct (findMin_ok (<[Id op := op]> m)) as (H1 & _ & H3);
        [by apply keyed_insert|by apply insert_non_empty|done].
    + split; [by rewrite lookup_insert_ne|]. apply insert_min; [done|].
      pose proof (Hmin _ _ E). lia.
Qed.

Lemma top_ok_room n adds m s op :
  0 < n -> hasData op -> top_ok n adds m s -> m !! Id op = None -> Z.of_nat (size m) < n ->
  top_ok n (adds ++ [op]) (<[Id op := op]> m) (if isLowerScore op s then op else s).
Proof.
  intros Hn Hop Hok E Hlt. pose proof Hok as [Hsz Hk _ Hmin0 _].
  apply (top_ok_change n adds m s); try done; try lia; try congruence.
  - by rewrite lookup_insert_eq.
  - intros id Hid. left. by rewrite lookup_insert_ne.
  - rewrite map_size_insert, E. lia.
  - destruct (decide (m = ∅)) as [->|Hm].
    + rewrite Hmin0. simpl. split; [by rewrite lookup_insert_eq|].
      intros id e He. apply lookup_singleton_Some in He as [_ <-]. lia.
    + destruct (top_ok_nonempty _ _ _ _ Hok Hm) as (Hs & Hz & Hmin).
      destruct (isLowerScore_score op s Hz) as [Ht Hf].
      destruct (isLowerScore op s); [specialize (Ht eq_refl)|specialize (Hf eq_refl)].
      * split; [by rewrite lookup_insert_eq|]. apply insert_min; [|lia].
        intros id e He. pose proof (Hmin _ _ He). lia.
      * split; [rewrite lookup_insert_ne by congruence; done|]. by apply insert_min.
Qed.

Lemma top_ok_full n adds m s op :
  0 < n -> hasData op -> top_ok n adds m s -> m !! Id op = None -> Z.of_nat (size m) = n ->
  Score s <= Score op ->
  let m' := <[Id op := op]> (delete (Id s) m) in
  top_ok n (adds ++ [op]) m' (if Score op =? Score s then op else findMin m').
Proof.
  intros Hn Hop Hok E Hz Hle m'. pose proof Hok as [Hsz Hk _ _ _].
  assert (Hm : m <> ∅) by (intros ->; rewrite map_size_empty in Hz; lia).
  destruct (top_ok_nonempty _ _ _ _ Hok Hm) as (Hs & _ & Hmin).
  assert (Hsz' : Z.of_nat (size m') = n).
  { unfold m'. rewrite map_size_insert_None by (by rewrite lookup_delete_ne by congruence).
    rewrite map_size_delete, Hs. assert (size m <> 0)%nat by lia. simpl. lia. }
  apply (top_ok_change n adds m s); try done; try lia; try congruence.
  - unfold m'. by rewrite lookup_insert_eq.
  - intros id Hid. unfold m'. rewrite lookup_insert_ne by done.
    destruct (decide (id = Id s)) as [->|Hne];
      [right; by rewrite lookup_delete_eq|left; by rewrite lookup_delete_ne].
  - assert (Hkd : keyed (delete (Id s) m)).
    { intros id e [_ He]%lookup_delete_Some. by apply Hk. }
    destruct (Z.eqb_spec (Score op) (Score s)) as [Es|Es].
    + split; [unfold m'; by rewrite lookup_insert_eq|]. apply insert_min; [|lia].
      intros id e [_ He]%lookup_delete_Some. rewrite Es. by apply (Hmin id).
    + destruct (findMin_ok m') as (H1 & _ & H3);
        [by apply keyed_insert|by apply insert_non_empty|done].
Qed.

Lemma core_ok n adds m s op :
  0 < n -> hasData op -> top_ok n adds m s ->
  let '(m', s') := core n m s op in top_ok n (adds ++ [op]) m' s'.
Proof.
  intros Hn Hop Hok. unfold core. destruct (m !! Id op) as [elem|] eqn:E.
  - destruct (Z.gtb_spec (Score elem) (Score op)).
    + apply top_ok_keep; [done| |congruence]. intros e He. simplify_eq. lia.
    + by apply (top_ok_replace _ _ _ _ _ elem).
  - destruct (Z.ltb_spec (Z.of_nat (size m)) n); [by apply top_ok_room|].
    pose proof (top_size _ _ _ _ Hok).
    assert (Hm : m <> ∅) by (intros ->; rewrite map_size_empty in *; lia).
    destruct (top_ok_nonempty _ _ _ _ Hok Hm) as (_ & Hz & _).
    destruct (isHigherScore_score op s Hz) as [Ht Hf].
    destruct (isHigherScore op s).
    + apply top_ok_full; try done; [lia|auto].
    + apply top_ok_keep; [done|congruence|]. intros _. split; [lia|auto].
Qed.

(** ** The tied entries *)

(** The lowest score of a full top does not go down. *)
Lemma core_min_grows n adds m s op :
  0 < n -> hasData op -> top_ok n adds m s -> Z.of_nat (size m) = n ->
  let '(m', s') := core n m s op in Z.of_nat (size m') = n /\ Score s <= Score s'.
Proof.
  intros Hn Hop Hok Hz. pose proof (core_ok n adds m s op Hn Hop Hok) as Hc.
  assert (Hm : m <> ∅) by (intros ->; rewrite map_size_empty in Hz; lia).
  destruct (top_ok_nonempty _ _ _ _ Hok Hm) as (Hs & Hzero & Hmin).
  destruct (core n m s op) as [m' s'] eqn:Ec.
  assert (Hscore : Z.of_nat (size m') = n /\ m' <> ∅ /\ forall id e, m' !! id = Some e -> Score s <= Score e).
  { unfold core in Ec. destruct (m !! Id op) as [elem|] eqn:E.
    - pose proof (Hmin _ _ E). destruct (Z.gtb_spec (Score elem) (Score op)); injection Ec as <- _; [done|].
      rewrite map_size_insert, E. split; [done|]. split; [apply insert_non_empty|]. apply insert_min; [done|lia].
    - destruct (Z.ltb_spec (Z.of_nat (size m)) n); [lia|].
      destruct (isHigherScore op s) eqn:Eh; injection Ec as <- _; [|done].
      apply (isHigherScore_score op s Hzero) in Eh. split; [|split; [apply insert_non_empty|]].
      + rewrite map_size_insert_None by (rewrite lookup_delete_ne by congruence; done).
        rewrite map_size_delete, Hs. assert (size m <> 0)%nat by lia. simpl. lia.
      + apply insert_min; [|done]. intros id e [_ He]%lookup_delete_Some. by apply (Hmin id). }
  destruct Hscore as (Hz' & Hm' & Hle). split; [done|].
  destruct (top_ok_nonempty _ _ _ _ Hc Hm') as (Hs' & _ & _). by apply (Hle (Id s')).
Qed.

(** An entry that becomes tied: the old minimum, or an add with its score. *)
Definition ties (crdt crdt' : TopKCrdt) (op : TopKScore) : Prop :=
  forall id e, tiedElems crdt' !! id = Some e -> tiedElems crdt !! id = Some e \/
    maxElems crdt <= Z.of_nat (size (elems crdt)) /\
    (e = smallestScore crdt \/ e = op /\ Score op = Score (smallestScore crdt)).

Lemma ties_add crdt crdt' op e0 :
  tiedElems crdt' = addTiedElem e0 (tiedElems crdt) -> maxElems crdt <= Z.of_nat (size (elems crdt)) ->
  e0 = smallestScore crdt \/ e0 = op /\ Score op = Score (smallestScore crdt) -> ties crdt crdt' op.
Proof.
  intros Et Hle He id e. rewrite Et. unfold addTiedElem. destruct (decide (id = Id e0)) as [->|Hne].
  - rewrite lookup_insert_eq. intros [= <-]. by right.
  - rewrite lookup_insert_ne by done. by left.
Qed.

Lemma ties_same crdt crdt' op : tiedElems crdt' = tiedElems crdt \/ tiedElems crdt' = ∅ -> ties crdt crdt' op.
Proof. intros [E|E] id e; rewrite E; [by left|by rewrite lookup_empty]. Qed.

Local Ltac ties_cases :=
  cbv zeta; repeat match goal with
  | |- context [Z.ltb ?a ?b] => destruct (Z.ltb_spec a b)
  | |- context [Z.eqb ?a ?b] => destruct (Z.eqb_spec a b); cbn [andb]
  | |- context [if ?b then _ else _] => destruct b
  end; cbn [fst snd];
  first [ apply ties_same; by auto | eapply ties_add; [reflexivity|done|first [by left|right; split; [reflexivity|lia]]] ].

Lemma applyAdd_ties crdt op : ties crdt (applyAdd crdt op).1.1 op.
Proof. unfold applyAdd. destruct (elems crdt !! Id op) as [elem|]; ties_cases. Qed.

Lemma applyAddAll_step_ties st op : ties st.1.1 (applyAddAll_step st op).1.1 op.
Proof.
  destruct st as [[crdt effs] down]. unfold applyAddAll_step. cbn [fst].
  destruct (elems crdt !! Id op) as [elem|]; ties_cases.
Qed.

(** Tied entries were added, and are not above the lowest of a full top. *)
Definition tied_ok (n : Z) (adds : list TopKScore) (crdt : TopKCrdt) : Prop :=
  forall id e, tiedElems crdt !! id = Some e ->
    e ∈ adds /\ Z.of_nat (size (elems crdt)) = n /\ Score e <= Score (smallestScore crdt).

Lemma tied_ok_step n adds crdt crdt' op :
  0 < n -> hasData op -> maxElems crdt = n -> top_ok n adds (elems crdt) (smallestScore crdt) ->
  (elems crdt', smallestScore crdt') = core n (elems crdt) (smallestScore crdt) op ->
  ties crdt crdt' op -> tied_ok n adds crdt -> tied_ok n (adds ++ [op]) crdt'.
Proof.
  intros Hn Hop Hmax Hok Ec Ht Htied id e He. pose proof (top_size _ _ _ _ Hok) as Hsz.
  assert (Hgrow : Z.of_nat (size (elems crdt)) = n ->
    Z.of_nat (size (elems crdt')) = n /\ Score (smallestScore crdt) <= Score (smallestScore crdt')).
  { intros Hz. pose proof (core_min_grows n adds _ _ op Hn Hop Hok Hz) as Hc. by rewrite <- Ec in Hc. }
  rewrite elem_of_app, list_elem_of_singleton. destruct (Ht id e He) as [Hold|[Hfull Hnew]].
  - destruct (Htied id e Hold) as (H1 & H2 & H3). destruct (Hgrow H2). split; [by left|]. split; [done|lia].
  - destruct Hgrow as [Hz' Hle]; [lia|].
    assert (Hm : elems crdt <> ∅) by (intros E; rewrite E, map_size_empty in Hfull; lia).
    destruct (top_ok_nonempty _ _ _ _ Hok Hm) as (Hs & _ & _).
    destruct Hnew as [->|[-> Eop]]; (split; [|split; [done|lia]]); [left|by right].
    by apply (top_best _ _ _ _ Hok _ _ Hs).
Qed.

Definition adds_of (op : DownArgs) : list TopKScore :=
  match op with
  | DownstreamSimpleTopKAdd s _ => [s]
  | DownstreamSimpleTopKAddAll l => l
  | _ => []
  end.

Definition is_add (op : DownArgs) : bool :=
  match op with
  | DownstreamSimpleTopKAdd _ _ | DownstreamSimpleTopKAddAll _ => true
  | _ => false
  end.

Lemma applyAddAll_ok n adds st l :
  0 < n -> Forall hasData l -> maxElems st.1.1 = n ->
  top_ok n adds (elems st.1.1) (smallestScore st.1.1) -> tied_ok n adds st.1.1 ->
  let crdt := (foldl applyAddAll_step st l).1.1 in
  maxElems crdt = n /\ top_ok n (adds ++ l) (elems crdt) (smallestScore crdt) /\ tied_ok n (adds ++ l) crdt.
Proof.
  intros Hn. revert adds st. induction l as [|op l IH]; intros adds st Hl Hmax Hok Htied; simpl.
  { by rewrite app_nil_r. }
  apply Forall_cons in Hl as [Hop Hl].
  destruct (applyAddAll_step_core st op) as (Ec & Em & _); [|by rewrite Hmax|].
  { destruct (decide (elems st.1.1 = ∅)) as [|Hm]; [by right|left].
    by destruct (top_ok_nonempty _ _ _ _ Hok Hm). }
  rewrite Hmax in Ec, Em. pose proof (core_ok n _ _ _ op Hn Hop Hok) as Hc. rewrite <- Ec in Hc.
  pose proof (tied_ok_step n adds _ _ op Hn Hop Hmax Hok Ec (applyAddAll_step_ties st op) Htied) as Ht.
  destruct (IH (adds ++ [op]) (applyAddAll_step st op) Hl Em Hc Ht) as (H1 & H2 & H3).
  rewrite <- app_assoc in H2, H3. by split_and!.
Qed.

Lemma deliver_ok n adds crdt ops :
  0 < n -> forallb is_add ops = true -> Forall hasData (mjoin (adds_of <$> ops)) ->
  maxElems crdt = n -> top_ok n adds (elems crdt) (smallestScore crdt) -> tied_ok n adds crdt ->
  exists crdt', deliver crdt ops = Some crdt' /\ maxElems crdt' = n /\
    top_ok n (adds ++ mjoin (adds_of <$> ops)) (elems crdt') (smallestScore crdt') /\
    tied_ok n (adds ++ mjoin (adds_of <$> ops)) crdt'.
Proof.
  intros Hn. revert adds crdt. induction ops as [|op ops IH]; intros adds crdt Ha Hd Hmax Hok Htied.
  { exists crdt. simpl. by rewrite app_nil_r. }
  simpl in Ha, Hd. apply andb_prop in Ha as [Hop Ha]. apply Forall_app in Hd as [Hd1 Hd2].
  assert (Hs : exists crdt1 eff, topk_applyDownstream crdt op = Some (crdt1, eff) /\
    maxElems crdt1 = n /\ top_ok n (adds ++ adds_of op) (elems crdt1) (smallestScore crdt1) /\
    tied_ok n (adds ++ adds_of op) crdt1).
  { destruct op as [s b|l| |]; try done; unfold topk_applyDownstream; simpl in *.
    - pose proof (applyAdd_core crdt s) as (Ec & Em & _). pose proof (applyAdd_ties crdt s) as Ht.
      destruct (applyAdd crdt s) as [[crdt1 eff] f]. simpl in *. rewrite Hmax in Ec, Em.
      exists crdt1, (Some eff). split; [done|]. split; [done|].
      pose proof (core_ok n _ _ _ s Hn (Forall_inv Hd1) Hok) as Hc. rewrite <- Ec in Hc. split; [done|].
      by apply (tied_ok_step n adds crdt crdt1 s Hn (Forall_inv Hd1)).
    - pose proof (applyAddAll_ok n adds (crdt, [], []) l Hn Hd1 Hmax Hok Htied) as Hc. unfold applyAddAll.
      destruct (foldl applyAddAll_step _ l) as [[crdt1 effs] down]. simpl in *. eexists crdt1, _. by split. }
  destruct Hs as (crdt1 & eff & E & Hm1 & Hok1 & Ht1).
  destruct (IH _ crdt1 Ha Hd2 Hm1 Hok1 Ht1) as (crdt' & Ed & Hm' & Hok' & Ht').
  rewrite <- app_assoc in Hok', Ht'. exists crdt'. split; [|by split_and!].
  transitivity (match topk_applyDownstream crdt op with
                | Some (s, _) => deliver s ops
                | None => None
                end); [done|]. by rewrite E.
Qed.

(** C25. The top is right, whatever the order of the adds and however they are
    grouped.  [elems] has at most the configured number of entries, each an
    identifier with the highest score added for it, and an identifier that is left
    out was never added with a score above the lowest of a full top.  The object
    shows these entries; all else that it shows are ties kept beside them, entries
    that were added with a score not above the lowest of a full top.  (There may
    be any number of ties, and old scores among them: [stale_ties_diverge].) *)
Theorem top_keeps_the_highest (n : Z) (ops : list DownArgs) :
  0 < n -> forallb is_add ops = true -> Forall hasData (mjoin (adds_of <$> ops)) ->
  exists crdt, deliver Initialize (DownTopKInit n :: ops) = Some crdt /\
    Z.of_nat (size (elems crdt)) <= n /\
    (forall id e, elems crdt !! id = Some e ->
       Id e = id /\ e ∈ mjoin (adds_of <$> ops) /\ e ∈ getState crdt /\
       forall a, a ∈ mjoin (adds_of <$> ops) -> Id a = id -> Score a <= Score e) /\
    (forall a, a ∈ mjoin (adds_of <$> ops) -> elems crdt !! Id a = None ->
       Z.of_nat (size (elems crdt)) = n /\
       forall id e, elems crdt !! id = Some e -> Score a <= Score e) /\
    (forall a, a ∈ getState crdt -> elems crdt !! Id a = Some a \/
       a ∈ mjoin (adds_of <$> ops) /\ Z.of_nat (size (elems crdt)) = n /\
       forall id e, elems crdt !! id = Some e -> Score a <= Score e).
Proof.
  intros Hn Ha Hd.
  destruct (deliver_ok n [] (applyInit Initialize n) ops Hn Ha Hd eq_refl (top_ok_init n Hn))
    as (crdt & Ed & Hm & Hok & Ht); [intros id e He; cbn in He; by rewrite lookup_empty in He|]. simpl in Hok, Ht.
  exists crdt. split; [exact Ed|]. pose proof Hok as [Hsz Hk Hb Hmin Hr].
  assert (Hlow : forall id e, elems crdt !! id = Some e -> Score (smallestScore crdt) <= Score e).
  { intros id e He. assert (Hne : elems crdt <> ∅) by (intros E; by rewrite E, lookup_empty in He).
    destruct (top_ok_nonempty _ _ _ _ Hok Hne) as (_ & _ & Hmin'). by apply (Hmin' id). }
  split; [done|]. split; [|split].
  - intros id e He. split; [by apply (Hk id)|]. destruct (Hb id e He). split; [done|]. split; [|done].
    unfold getState. apply value_elem_of in He. destruct (keepTiedEntries crdt); [apply elem_of_app; by left|done].
  - intros a Hin Hnone. destruct (Hr a Hin Hnone) as [Hz Hle]. split; [done|].
    intros id e He. pose proof (Hlow id e He). lia.
  - intros a Hin. assert (Hv : (exists id, elems crdt !! id = Some a) \/ exists id, tiedElems crdt !! id = Some a).
    { unfold getState in Hin. destruct (keepTiedEntries crdt); [apply elem_of_app in Hin as [Hin|Hin]|];
        apply values_elem in Hin; auto. }
    destruct Hv as [[id Hid]|[id Hid]].
    + left. by destruct (Hk id a Hid) as [-> _].
    + right. destruct (Ht id a Hid) as (H1 & H2 & H3). split; [done|]. split; [done|].
      intros id' e He. pose proof (Hlow id' e He). lia.
Qed.

Lemma top_keeps_the_highest_witness :
  let add id score := mkScore id score (Some []) in
  let ops := [DownstreamSimpleTopKAdd (add 1 10) true;
              DownstreamSimpleTopKAddAll [add 2 20; add 3 5; add 1 30];
              DownstreamSimpleTopKAdd (add 4 25) true; DownstreamSimpleTopKAdd (add 5 25) true] in
  exists crdt, deliver Initialize (DownTopKInit 2 :: ops) = Some crdt /\
    Z.of_nat (size (elems crdt)) <= 2 /\ elems crdt !! 1 = Some (add 1 30) /\
    elems crdt !! 2 = None /\ tiedElems crdt !! 5 = Some (add 5 25) /\
    forall id e, elems crdt !! id = Some e -> 25 <= Score e.
Proof.
  intros add ops.
  destruct (top_keeps_the_highest 2 ops) as (crdt & Ed & Hsz & _ & _ & Ht);
    [lia|reflexivity|repeat constructor; discriminate|].
  exists crdt. split; [exact Ed|]. split; [exact Hsz|]. assert (Ed' := Ed). vm_compute in Ed'. injection Ed' as <-.
  split; [reflexivity|]. split; [reflexivity|]. split; [reflexivity|].
  destruct (Ht (add 5 25)) as [E|(_ & _ & H)]; [|vm_compute in E; discriminate E|exact H].
  apply list_elem_of_In. vm_compute. auto.
Defined.

(** ** The sorted entries are never rebuilt *)

Lemma step_sortedElems st op : sortedElems (applyAddAll_step st op).1.1 = sortedElems st.1.1.
Proof.
  destruct st as [[crdt effs] down]. unfold applyAddAll_step. simpl.
  repeat case_match; reflexivity.
Qed.

Lemma apply_sortedElems crdt op crdt' eff :
  topk_applyDownstream crdt op = Some (crdt', eff) -> sortedElems crdt' = sortedElems crdt.
Proof.
  unfold topk_applyDownstream. destruct op as [s b|l|n|].
  - pose proof (applyAdd_core crdt s) as (_ & _ & E).
    destruct (applyAdd crdt s) as [[crdt1 e] f]. by intros [= <- _].
  - assert (E : forall st, sortedElems (foldl applyAddAll_step st l).1.1 = sortedElems st.1.1).
    { induction l as [|op l IH]; intros st; simpl; [done|]. by rewrite IH, step_sortedElems. }
    specialize (E (crdt, [], [])). unfold applyAddAll.
    destruct (foldl applyAddAll_step _ l) as [[crdt1 effs] down]. by intros [= <- _].
  - by intros [= <- _].
  - by intros [= <- _].
Qed.

(** The comment on [sortedElems] says it is dropped each time the top
    changes; nothing drops it: once a replica has answered a [getTopN], it
    gives the same answer for the same number of entries for ever, whatever is
    added. *)
Theorem getTopN_never_changes sortByScore crdt k crdt1 answer ops crdt2 :
  getTopN sortByScore crdt k = (answer, crdt1) -> deliver crdt1 ops = Some crdt2 ->
  fst (getTopN sortByScore crdt2 k) = answer.
Proof.
  intros Hget Hd.
  assert (Hs : exists l, sortedElems crdt1 = Some l /\
    answer = (if k >=? Z.of_nat (length l) then Some l
              else if k <? 0 then None else Some (take (Z.to_nat k) l))).
  { unfold getTopN in Hget. injection Hget as <- <-. by eexists. }
  destruct Hs as (l & Hl & ->). clear Hget.
  assert (Hl2 : sortedElems crdt2 = Some l).
  { revert crdt1 Hl Hd. induction ops as [|op ops IH]; intros crdt1 Hl Hd.
    - injection Hd as <-. done.
    - change (match topk_applyDownstream crdt1 op with
              | Some (s, _) => deliver s ops | None => None end = Some crdt2) in Hd.
      destruct (topk_applyDownstream crdt1 op) as [[crdt' eff]|] eqn:E; [|done].
      apply (IH crdt'); [|done]. by rewrite (apply_sortedElems _ _ _ _ E). }
  unfold getTopN. by rewrite Hl2.
Qed.

Definition byScore : relation TopKScore := fun a b => Score b <= Score a.
#[export] Instance byScore_dec : RelDecision byScore.
Proof. intros a b. unfold byScore. apply _. Defined.

Lemma getTopN_never_changes_witness :
  exists crdt2,
    deliver (snd (getTopN (merge_sort byScore) Initialize 1))
      [DownstreamSimpleTopKAdd (mkScore 1 50 (Some [])) true] = Some crdt2 /\
    getState crdt2 = [mkScore 1 50 (Some [])] /\
    fst (getTopN (merge_sort byScore) crdt2 1) = Some [].
Proof.
  eexists. split; [reflexivity|]. split; [reflexivity|].
  apply (getTopN_never_changes (merge_sort byScore) Initialize 1
    (snd (getTopN (merge_sort byScore) Initialize 1)) (Some [])
    [DownstreamSimpleTopKAdd (mkScore 1 50 (Some [])) true]); reflexivity.
Defined.

(** ** Replicas that disagree *)

(** Raising the score of the lowest entry keeps the entries tied with its old
    score.  Replica 1 adds 10 and then 20 for player 5, replica 2 adds 10 for
    player 7: where the second add of replica 1 comes last, player 7 stays. *)
Definition tied_adds : list DownArgs :=
  (fun '(id, s) => DownstreamSimpleTopKAdd (mkScore id s (Some [])) true)
    <$> [(5, 10); (7, 10); (5, 20)].
Definition tied_adds' : list DownArgs :=
  (fun '(id, s) => DownstreamSimpleTopKAdd (mkScore id s (Some [])) true)
    <$> [(5, 10); (5, 20); (7, 10)].

(** Two replicas that received the same adds, each in an order that keeps
    the adds of each client in order, show different tops. *)
Theorem stale_ties_diverge :
  tied_adds ≡ₚ tied_adds' /\
  exists crdt crdt',
    deliver Initialize (DownTopKInit 1 :: tied_adds) = Some crdt /\
    deliver Initialize (DownTopKInit 1 :: tied_adds') = Some crdt' /\
    getState crdt = [mkScore 5 20 (Some []); mkScore 7 10 (Some [])] /\
    getState crdt' = [mkScore 5 20 (Some [])].
Proof.
  split.
  - unfold tied_adds, tied_adds'. simpl. apply Permutation_skip, Permutation_swap.
  - do 2 eexists. split; [reflexivity|]. split; [reflexivity|]. split; vm_compute; reflexivity.
Qed.

(** The effect of an add that evicts the lowest entry is built after the
    minimum has changed: undoing it does not bring the evicted entry back. *)
Lemma undo_forgets_the_evicted :
  let s id sc := mkScore id sc (Some []) in
  exists crdt crdt' eff,
    deliver Initialize [DownTopKInit 1; DownstreamSimpleTopKAdd (s 1 10) true] = Some crdt /\
    applyDownstream crdt (DownstreamSimpleTopKAdd (s 2 20) true) = Some (crdt', eff) /\
    option_map getState (undoEffect crdt' eff) = Some [s 2 20] /\ getState crdt = [s 1 10].
Proof.
  intros s. do 3 eexists. split; [reflexivity|]. split; [reflexivity|].
  split; vm_compute; reflexivity.
Qed.

(** An empty object cannot be sent to a replica that joins. *)
Lemma empty_ToProtoState_panics : ToProtoState Initialize = None.
Proof. reflexivity. Qed.

(** Tied entries at or above the value asked for are left out. *)
Lemma above_value_drops_ties crdt minValue :
  sortedElems crdt = None ->
  getTopKAboveValue crdt minValue =
    Some (List.filter (fun e => Score e >=? minValue) (values (elems crdt))).
Proof.
  intros E. unfold getTopKAboveValue. rewrite E. cbn zeta. f_equal. by apply take_app_length.
Qed.

(** A replica that joins gets one entry of the top at most. *)
Lemma joined_replica_has_one_entry crdt p :
  ToProtoState crdt = Some p -> (size (elems (FromProtoState p)) <= 1)%nat.
Proof.
  unfold ToProtoState, scoresToProto. intros H.
  destruct (mapM _ (values (elems crdt))) as [ps|] eqn:E; [|done]. simpl in H.
  destruct (tiedToProto crdt); [|done]. simpl in H.
  destruct (scoreToProto (smallestScore crdt)); [|done]. injection H as <-. simpl.
  set (id := Id (default zeroScore (last (values (elems crdt))))) in *.
  assert (Hps : Forall (fun p => P_Id p = id) ps).
  { apply mapM_Some_1 in E. clear -E. induction E as [|s q l l' Hq _ IH]; [constructor|].
    destruct (Data s); [|done]. injection Hq as <-. by constructor. }
  enough (Hm : forall m : Scores, (forall k, m !! k = None \/ k = id) ->
    forall k, foldl (fun m s => <[Id s := s]> m) m (scoreFromProto <$> ps) !! k = None \/ k = id).
  { assert (Hsub : dom (foldl (fun m s => <[Id s := s]> m) (∅ : Scores) (scoreFromProto <$> ps))
      ⊆ ({[id]} : gset Z)).
    { intros k Hk%elem_of_dom. destruct (Hm ∅ (fun k => or_introl (lookup_empty k)) k) as [Hn| ->].
      - rewrite Hn in Hk. by destruct Hk.
      - by apply elem_of_singleton. }
    apply subseteq_size in Hsub. by rewrite size_dom, size_singleton in Hsub. }
  clear E. induction Hps as [|q ps Hq Hps IH]; intros m Hm; [done|].
  simpl. apply IH. intros k. rewrite Hq. destruct (decide (k = id)) as [->|Hne]; [by right|].
  rewrite lookup_insert_ne by done. apply Hm.
Qed.
