(* ===== verification/ORMap.v ===== *)
(** * The observed-remove map: orMap.go (src/crdt/crdt)

    A key maps to the values it was given concurrently, each with the
    identifiers of the adds that put it there; an add or a remove takes away the
    identifiers its issuer had seen for the key.  A read shows the least value.
    [ORMap] implements a set of (key, value, identifier) triples
    ([uniquesAt]): the refinement and the convergence theorem are stated on it.
    A loop over a map goes through [map_to_list]. *)

From S2P Require Import Prelude ClockSI Inversible Convergence Sets.
From Stdlib Require Import ZArith Lia Bool.
From stdpp Require Import base tactics numbers strings gmap sorting list.
#[local] Open Scope Z_scope.
Import Uniques.

Abbreviation Key := string.
Abbreviation ElemMap := (gmap Element UniqueSet).
Abbreviation Entries := (gmap Key ElemMap).

(** ** State and operations *)

Record ORMapCrdt := mkMap { entries : Entries }.

Inductive UpdArgs :=
  | MapAdd (Key : Key) (Value : Element)
  | MapRemove (Key : Key)
  | MapAddAll (Values : gmap Key Element)
  | MapRemoveAll (Keys : list Key).

(** A [UniqueElemPair] is an element and its identifier. *)
Inductive DownArgs :=
  | DownstreamORMapAddAll (Adds : gmap Key (Element * Z)) (Rems : Entries)
  | DownstreamORMapRemoveAll (Rems : Entries).

(** [EffPtr]: a pointer to an effect, which is what the code records. *)
Inductive Eff :=
  | ORMapAddAllEffect (Adds : gmap Key (Element * Z)) (Rems : Entries)
  | ORMapRemoveAllEffect (Rems : Entries)
  | EffPtr (e : Eff).

Definition Initialize : ORMapCrdt := mkMap ∅.
Definition IsBigCRDT (crdt : ORMapCrdt) : bool := (100 <? size (entries crdt))%nat.

(** ** Reads *)

Definition minStep (minElem elem : Element) : Element :=
  if (minElem =? "")%string || (elem <? minElem)%string then elem else minElem.

Definition getMinElem (elemMap : ElemMap) : Element :=
  foldl minStep "" (map_to_list elemMap).*1.

(** The pending updates, the latest first: what they add and remove. *)
Abbreviation Pending := (gmap Key Element * gset Key)%type.

Definition pendingAdd (st : Pending) (e : Key * Element) : Pending :=
  let '(adds, rems) := st in
  if decide (e.1 ∈ rems) then st else (<[e.1 := e.2]> adds, rems).

Definition pendingRem (st : Pending) (key : Key) : Pending :=
  let '(adds, rems) := st in
  match adds !! key with Some _ => st | None => (adds, {[ key ]} ∪ rems) end.

Definition pendingUpd (st : Pending) (upd : UpdArgs) : Pending :=
  match upd with
  | MapAdd k v => pendingAdd st (k, v)
  | MapRemove k => pendingRem st k
  | MapAddAll vs => foldl pendingAdd st (map_to_list vs)
  | MapRemoveAll ks => foldl pendingRem st ks
  end.

Definition pending (upds : list UpdArgs) : Pending := foldl pendingUpd (∅, ∅) (rev upds).

Definition getState (crdt : ORMapCrdt) (updsNotYetApplied : list UpdArgs) : gmap Key Element :=
  match updsNotYetApplied with
  | [] => getMinElem <$> entries crdt
  | _ =>
      let '(adds, rems) := pending updsNotYetApplied in
      adds ∪ (getMinElem <$> filter (fun e => e.1 ∉ rems) (entries crdt))
  end.

Definition getValues_step (crdt : ORMapCrdt) (st : Pending) (values : gmap Key Element) (key : Key)
  : gmap Key Element :=
  let '(adds, rems) := st in
  if decide (key ∈ rems) then values
  else
    match entries crdt !! key, adds !! key with
    | Some elemMap, _ => <[key := getMinElem elemMap]> values
    | None, Some elem => <[key := elem]> values
    | None, None => values
    end.

Definition getValues (crdt : ORMapCrdt) (updsNotYetApplied : list UpdArgs) (keys : list Key)
  : gmap Key Element :=
  match updsNotYetApplied with
  | [] =>
      foldl (fun values key =>
               match entries crdt !! key with
               | Some elemMap => <[key := getMinElem elemMap]> values
               | None => values
               end) ∅ keys
  | _ => foldl (getValues_step crdt (pending updsNotYetApplied)) ∅ keys
  end.

(** A slice of the size the code computes, filled from the left.  [None]: its
    size is negative, or it is too small. *)
Definition getKeys (crdt : ORMapCrdt) (updsNotYetApplied : list UpdArgs) : option (list Key) :=
  match updsNotYetApplied with
  | [] => Some (map_to_list (entries crdt)).*1
  | _ =>
      let '(adds, rems) := pending updsNotYetApplied in
      let len := Z.of_nat (size (entries crdt)) + Z.of_nat (size adds) - Z.of_nat (size rems) in
      let keys :=
        filter (fun key => key ∉ rems) (map_to_list (entries crdt)).*1
        ++ filter (fun key => key ∉ dom (entries crdt)) (map_to_list adds).*1 in
      if (len <? 0) || (len <? Z.of_nat (length keys)) then None
      else Some (keys ++ replicate (Z.to_nat len - length keys) "")
  end.

(** The zero value of an element is the empty string. *)
Fixpoint getValue_loop (key : Key) (upds : list UpdArgs) : option Element :=
  match upds with
  | [] => None
  | upd :: rest =>
      match upd with
      | MapAdd k v => if decide (k = key) then Some v else getValue_loop key rest
      | MapRemove k => if decide (k = key) then Some "" else getValue_loop key rest
      | MapAddAll vs =>
          match vs !! key with Some v => Some v | None => getValue_loop key rest end
      | MapRemoveAll ks => if decide (key ∈ ks) then Some "" else getValue_loop key rest
      end
  end.

Definition getValue (crdt : ORMapCrdt) (updsNotYetApplied : list UpdArgs) (key : Key) : Element :=
  match getValue_loop key (rev updsNotYetApplied) with
  | Some v => v
  | None => getMinElem (default ∅ (entries crdt !! key))
  end.

Definition hasKey (crdt : ORMapCrdt) (updsNotYetApplied : list UpdArgs) (key : Key) : bool :=
  negb (getValue crdt updsNotYetApplied key =? "")%string.

Inductive ReadArgs :=
  | StateReadArguments
  | GetKeysArguments
  | GetValueArguments (Key : Key)
  | HasKeyArguments (Key : Key)
  | GetValuesArguments (Keys : list Key).

Inductive State :=
  | MapEntryState (Values : gmap Key Element)
  | MapKeysState (Keys : list Key)
  | MapGetValueState (Value : Element)
  | MapHasKeyState (HasKey : bool).

(** [None]: [getKeys] panics. *)
Definition Read (crdt : ORMapCrdt) (args : ReadArgs) (updsNotYetApplied : list UpdArgs)
  : option State :=
  match args with
  | StateReadArguments => Some (MapEntryState (getState crdt updsNotYetApplied))
  | GetKeysArguments =>
      match getKeys crdt updsNotYetApplied with
      | Some keys => Some (MapKeysState keys)
      | None => None
      end
  | GetValueArguments k => Some (MapGetValueState (getValue crdt updsNotYetApplied k))
  | HasKeyArguments k => Some (MapHasKeyState (hasKey crdt updsNotYetApplied k))
  | GetValuesArguments ks => Some (MapEntryState (getValues crdt updsNotYetApplied ks))
  end.

(** ** Updates *)

Definition copyEntry (entry : ElemMap) : ElemMap := copy <$> entry.

(** [rnd i] is the [i]-th identifier drawn by [crdt.random.Int63()]. *)
Definition getAddAllDownstreamArgs (rnd : nat -> Z) (crdt : ORMapCrdt) (values : gmap Key Element)
  : DownArgs :=
  DownstreamORMapAddAll
    (foldl (fun addsUniques '(i, (key, elem)) => <[key := (elem, rnd i)]> addsUniques) ∅
       (zip (seq 0 (size values)) (map_to_list values)))
    (foldl (fun (remsUniques : Entries) '(key, _) =>
              match entries crdt !! key with
              | Some entry => <[key := copyEntry entry]> remsUniques
              | None => remsUniques
              end) ∅ (map_to_list values)).

Definition getRemoveAllDownstreamArgs (crdt : ORMapCrdt) (keys : list Key) : DownArgs :=
  DownstreamORMapRemoveAll
    (foldl (fun (uniques : Entries) key =>
              <[key := copyEntry (default ∅ (entries crdt !! key))]> uniques) ∅ keys).

Definition Update (rnd : nat -> Z) (crdt : ORMapCrdt) (args : UpdArgs) : DownArgs :=
  match args with
  | MapAdd k v => getAddAllDownstreamArgs rnd crdt {[k := v]}
  | MapRemove k => getRemoveAllDownstreamArgs crdt [k]
  | MapAddAll vs => getAddAllDownstreamArgs rnd crdt vs
  | MapRemoveAll ks => getRemoveAllDownstreamArgs crdt ks
  end.

(** Loop bodies of [applyRemoveAll]; what it removes is computed but not used. *)
Definition removeElem_step (crdtEntry : ElemMap) (e : Element * UniqueSet) : ElemMap :=
  let '(elem, uniques) := e in
  match crdtEntry !! elem with
  | Some crdtUniques =>
      let '(crdtUniques, _) := getAndRemoveIntersection crdtUniques uniques in
      if (size crdtUniques =? 0)%nat then delete elem crdtEntry
      else <[elem := crdtUniques]> crdtEntry
  | None => crdtEntry
  end.

Definition removeKey_step (m : Entries) (e : Key * ElemMap) : Entries :=
  let '(key, entry) := e in
  match m !! key with
  | Some crdtEntry =>
      let crdtEntry := foldl removeElem_step crdtEntry (map_to_list entry) in
      if (size crdtEntry =? 0)%nat then delete key m else <[key := crdtEntry]> m
  | None => m
  end.

Definition applyRemoveAll (crdt : ORMapCrdt) (toRem : Entries) : ORMapCrdt * Eff :=
  (mkMap (foldl removeKey_step (entries crdt) (map_to_list toRem)),
   EffPtr (ORMapRemoveAllEffect toRem)).

Definition addKey_step (m : Entries) (e : Key * (Element * Z)) : Entries :=
  let '(key, (elem, unique)) := e in
  match m !! key with
  | None => <[key := {[elem := add makeUniqueSet unique]}]> m
  | Some crdtEntry =>
      <[key := <[elem := add (default makeUniqueSet (crdtEntry !! elem)) unique]> crdtEntry]> m
  end.

Definition applyAddAll (crdt : ORMapCrdt) (toAdd : gmap Key (Element * Z)) (toRem : Entries)
  : ORMapCrdt * Eff :=
  let '(crdt, _) := applyRemoveAll crdt toRem in
  (mkMap (foldl addKey_step (entries crdt) (map_to_list toAdd)),
   EffPtr (ORMapAddAllEffect toAdd toRem)).

Definition ormap_applyDownstream (crdt : ORMapCrdt) (op : DownArgs)
  : option (ORMapCrdt * option Eff) :=
  let '(crdt, eff) := match op with
                      | DownstreamORMapAddAll adds rems => applyAddAll crdt adds rems
                      | DownstreamORMapRemoveAll rems => applyRemoveAll crdt rems
                      end in
  Some (crdt, Some eff).

(** ** Undoing *)

Definition undoAdd_step (m : Entries) (e : Key * (Element * Z)) : Entries :=
  let '(key, (elem, unique)) := e in
  let elemsEntry := default ∅ (m !! key) in
  let uniquesEntry := default ∅ (elemsEntry !! elem) ∖ {[ unique ]} in
  match m !! key with
  | None => m
  | Some _ =>
      if (size uniquesEntry =? 0)%nat then
        let elemsEntry := delete elem elemsEntry in
        if (size elemsEntry =? 0)%nat then delete key m else <[key := elemsEntry]> m
      else <[key := <[elem := uniquesEntry]> elemsEntry]> m
  end.

Definition undoRem_step (m : Entries) (e : Key * ElemMap) : Entries :=
  let '(key, elemsToAdd) := e in
  <[key := foldl (fun (keyEntry : ElemMap) '(elem, uniques) =>
             <[elem := addAll (default makeUniqueSet (keyEntry !! elem)) uniques]> keyEntry)
           (default ∅ (m !! key)) (map_to_list elemsToAdd)]> m.

Definition undoRemoveAllEffect (rems m : Entries) : Entries :=
  foldl undoRem_step m (map_to_list rems).

Definition undoAddAllEffect (adds : gmap Key (Element * Z)) (rems m : Entries) : Entries :=
  undoRemoveAllEffect rems (foldl undoAdd_step m (map_to_list adds)).

(** The type switch has no case for pointers. *)
Definition ormap_undoEffect (crdt : ORMapCrdt) (effect : option Eff) : option ORMapCrdt :=
  match effect with
  | None => None
  | Some (ORMapAddAllEffect adds rems) => Some (mkMap (undoAddAllEffect adds rems (entries crdt)))
  | Some (ORMapRemoveAllEffect rems) => Some (mkMap (undoRemoveAllEffect rems (entries crdt)))
  | Some (EffPtr _) => Some crdt
  end.

#[export] Instance ormap_inversible : InversibleOps ORMapCrdt DownArgs Eff := {
  applyDownstream := ormap_applyDownstream;
  undoEffect := ormap_undoEffect
}.

Definition Copy (crdt : ORMapCrdt) : ORMapCrdt := mkMap (copyEntry <$> entries crdt).

(** ** Protocol buffers *)

(** [ProtoORMapRemove] and [ProtoKeyValueUnique]. *)
Record ProtoORMapRemove := mkRemove { R_Key : Key; R_Elems : list (Element * list Z) }.
Record ProtoKeyValueUnique := mkAdd { A_Key : Key; A_Element : Element; A_Unique : Z }.

Definition createProtoMapRemoves (rems : Entries) : list ProtoORMapRemove :=
  (fun '(key, elems) =>
     mkRemove key ((fun '(elem, uniques) => (elem, UniqueSetToUInt64Array uniques))
                     <$> map_to_list elems)) <$> map_to_list rems.

Definition createORMapDownRems (protos : list ProtoORMapRemove) : Entries :=
  foldl (fun (rems : Entries) p =>
           <[R_Key p := foldl (fun (m : ElemMap) '(elem, us) =>
                                 <[elem := UInt64ArrayToUniqueSet us]> m) ∅ (R_Elems p)]> rems)
    ∅ protos.

Definition ToReplicatorObj (downOp : DownArgs)
  : list ProtoKeyValueUnique * list ProtoORMapRemove :=
  match downOp with
  | DownstreamORMapAddAll adds rems =>
      ((fun '(key, (elem, unique)) => mkAdd key elem unique) <$> map_to_list adds,
       createProtoMapRemoves rems)
  | DownstreamORMapRemoveAll rems => ([], createProtoMapRemoves rems)
  end.

(** [downstreamProtoORMapToAntidoteDownstream] and [FromReplicatorObj]. *)
Definition FromReplicatorObj (p : list ProtoKeyValueUnique * list ProtoORMapRemove) : DownArgs :=
  match p.1 with
  | [] => DownstreamORMapRemoveAll (createORMapDownRems p.2)
  | adds =>
      DownstreamORMapAddAll
        (foldl (fun (m : gmap Key (Element * Z)) a =>
                  <[A_Key a := (A_Element a, A_Unique a)]> m) ∅ adds)
        (createORMapDownRems p.2)
  end.

Definition ToProtoState (crdt : ORMapCrdt) : list ProtoORMapRemove :=
  createProtoMapRemoves (entries crdt).
Definition FromProtoState (p : list ProtoORMapRemove) : ORMapCrdt :=
  mkMap (createORMapDownRems p).

(** ** The map as a set of triples *)

Definition uniquesAt (m : Entries) (key : Key) (elem : Element) : UniqueSet :=
  default ∅ (entry ← m !! key; entry !! elem).

(** Keys have values, values have identifiers. *)
Definition wf (m : Entries) : Prop :=
  forall key entry, m !! key = Some entry ->
    entry <> ∅ /\ forall elem uniques, entry !! elem = Some uniques -> uniques <> ∅.

Lemma uniquesAt_lookup m key entry elem :
  m !! key = Some entry -> uniquesAt m key elem = default ∅ (entry !! elem).
Proof. unfold uniquesAt. by intros ->. Qed.

Lemma uniquesAt_None m key elem : m !! key = None -> uniquesAt m key elem = ∅.
Proof. unfold uniquesAt. by intros ->. Qed.

(** A well-formed map is determined by its triples. *)
Lemma wf_ext m1 m2 :
  wf m1 -> wf m2 -> (forall k e, uniquesAt m1 k e = uniquesAt m2 k e) -> m1 = m2.
Proof.
  intros H1 H2 E.
  assert (Hsub : forall m m' k entry, wf m -> wf m' ->
    (forall k e, uniquesAt m k e = uniquesAt m' k e) -> m !! k = Some entry ->
    m' !! k = Some entry).
  { clear. intros m m' k entry Hm Hm' E Hk. destruct (Hm k entry Hk) as [Hne Hus].
    assert (Hk' : exists entry', m' !! k = Some entry').
    { destruct (m' !! k) as [entry'|] eqn:Ek; [by eexists|].
      apply map_choose in Hne as (e & us & He). specialize (E k e).
      rewrite (uniquesAt_lookup _ _ _ _ Hk), (uniquesAt_None _ _ _ Ek), He in E. simpl in E.
      by destruct (Hus e us He). }
    destruct Hk' as [entry' Hk']. rewrite Hk'. f_equal. apply map_eq. intros e.
    specialize (E k e). rewrite (uniquesAt_lookup _ _ _ _ Hk), (uniquesAt_lookup _ _ _ _ Hk') in E.
    destruct (Hm' k entry' Hk') as [_ Hus'].
    destruct (entry !! e) as [us|] eqn:He, (entry' !! e) as [us'|] eqn:He'; simpl in E; subst; try done.
    - by destruct (Hus e ∅ He).
    - by destruct (Hus' e ∅ He'). }
  apply map_eq. intros k. destruct (m1 !! k) as [entry|] eqn:E1.
  - symmetry. by apply (Hsub m1).
  - destruct (m2 !! k) as [entry|] eqn:E2; [|done].
    rewrite (Hsub m2 m1 k entry) in E1; done.
Qed.

(** *** The loops, key by key *)

Definition nonemptyMap {K A} `{Countable K} (m : gmap K A) : option (gmap K A) :=
  if decide (m = ∅) then None else Some m.

Lemma size_nonempty {K A} `{Countable K} (m : gmap K A) :
  (size m =? 0)%nat = bool_decide (m = ∅).
Proof.
  destruct (Nat.eqb_spec (size m) 0) as [E|E]; case_bool_decide as Em; try done.
  - by apply map_size_empty_inv in E.
  - subst. by rewrite map_size_empty in E.
Qed.

Lemma delete_or_insert {K A} `{Countable K} (m : gmap K (gmap Element A)) key x k :
  (if (size x =? 0)%nat then delete key m else <[key := x]> m) !! k =
    if decide (k = key) then nonemptyMap x else m !! k.
Proof.
  rewrite size_nonempty. unfold nonemptyMap. destruct (decide (x = ∅)) as [E|E].
  - rewrite bool_decide_eq_true_2 by done.
    case_decide; subst; by rewrite ?lookup_delete_eq, ?lookup_delete_ne.
  - rewrite bool_decide_eq_false_2 by done.
    case_decide; subst; by rewrite ?lookup_insert_eq, ?lookup_insert_ne.
Qed.

Definition ne_set (set : UniqueSet) : option UniqueSet := if decide (set = ∅) then None else Some set.

Lemma removeElems_lookup entry rem e :
  foldl removeElem_step entry (map_to_list rem) !! e =
    match rem !! e with
    | Some us => ex ← entry !! e; ne_set (ex ∖ us)
    | None => entry !! e
    end.
Proof.
  apply (map_loop_lookup (fun us ex => ex ← ex; ne_set (ex ∖ us))).
  intros m key us k'. simpl. destruct (m !! key) as [ex|] eqn:E; simpl; [|case_decide; by subst].
  rewrite getAndRemoveIntersection_spec. unfold ne_set.
  destruct (decide (ex ∖ us = ∅)) as [Es|Es].
  - rewrite Es, size_empty. simpl.
    case_decide; subst; by rewrite ?lookup_delete_eq, ?lookup_delete_ne.
  - destruct (Nat.eqb_spec (size (ex ∖ us)) 0) as [Ez|Ez].
    + by apply size_empty_inv, leibniz_equiv in Ez.
    + case_decide; subst; by rewrite ?lookup_insert_eq, ?lookup_insert_ne.
Qed.

Lemma removeKeys_lookup m rems k :
  foldl removeKey_step m (map_to_list rems) !! k =
    match rems !! k with
    | Some entry => em ← m !! k; nonemptyMap (foldl removeElem_step em (map_to_list entry))
    | None => m !! k
    end.
Proof.
  apply (map_loop_lookup (fun entry em =>
    em ← em; nonemptyMap (foldl removeElem_step em (map_to_list entry)))).
  intros m' key entry k'. simpl.
  destruct (m' !! key) as [em|] eqn:E; simpl; [apply delete_or_insert|case_decide; by subst].
Qed.

Lemma addKeys_lookup m adds k :
  foldl addKey_step m (map_to_list adds) !! k =
    match adds !! k with
    | Some (e, u) =>
        let em := default ∅ (m !! k) in
        Some (<[e := add (default makeUniqueSet (em !! e)) u]> em)
    | None => m !! k
    end.
Proof.
  rewrite (map_loop_lookup (fun '(e, u) em => Some (<[e := add (default makeUniqueSet
    ((default ∅ em : ElemMap) !! e)) u]> (default ∅ em : ElemMap)))).
  - by destruct (adds !! k) as [[e u]|].
  - intros m' key [e u] k'. simpl. destruct (m' !! key) as [em|] eqn:E; simpl;
      case_decide; subst; by rewrite ?lookup_insert_eq, ?lookup_insert_ne by done.
Qed.

(** *** Triples after a remove and after an add *)

Lemma ne_set_default s : default ∅ (ne_set s) = s.
Proof. unfold ne_set. by case_decide. Qed.

Lemma nonemptyMap_lookup (m : ElemMap) e : (m' ← nonemptyMap m; m' !! e) = m !! e.
Proof. unfold nonemptyMap. case_decide as E; [subst; by rewrite lookup_empty|done]. Qed.

Lemma uniquesAt_remove m rems k e :
  uniquesAt (foldl removeKey_step m (map_to_list rems)) k e =
    uniquesAt m k e ∖ uniquesAt rems k e.
Proof.
  unfold uniquesAt. rewrite removeKeys_lookup. destruct (rems !! k) as [entry|]; simpl.
  - destruct (m !! k) as [em|]; simpl; [|set_solver].
    rewrite nonemptyMap_lookup, removeElems_lookup.
    destruct (entry !! e) as [us|]; simpl; [|set_solver].
    destruct (em !! e) as [ex|]; simpl; [apply ne_set_default|set_solver].
  - set_solver.
Qed.

Definition added (adds : gmap Key (Element * Z)) (k : Key) (e : Element) : UniqueSet :=
  match adds !! k with
  | Some (e', u) => if decide (e = e') then {[ u ]} else ∅
  | None => ∅
  end.

Lemma uniquesAt_add m adds k e :
  uniquesAt (foldl addKey_step m (map_to_list adds)) k e = uniquesAt m k e ∪ added adds k e.
Proof.
  unfold uniquesAt, added. rewrite addKeys_lookup.
  destruct (adds !! k) as [[e' u]|]; simpl; [|set_solver].
  destruct (m !! k) as [em|]; simpl; case_decide as E; subst;
    rewrite ?lookup_insert_eq, ?lookup_insert_ne by done; simpl; unfold add, makeUniqueSet;
    rewrite ?lookup_empty; simpl; set_solver.
Qed.

Lemma wf_remove m rems : wf m -> wf (foldl removeKey_step m (map_to_list rems)).
Proof.
  intros Hm k entry. rewrite removeKeys_lookup. destruct (rems !! k) as [r|]; [|apply Hm].
  destruct (m !! k) as [em|] eqn:Ek; simpl; [|done].
  unfold nonemptyMap. case_decide as Hne; [done|]. intros [= <-]. split; [done|].
  intros e us. rewrite removeElems_lookup. destruct (Hm k em Ek) as [_ Hus].
  destruct (r !! e) as [x|]; [|apply Hus].
  destruct (em !! e) as [ex|]; simpl; [|done]. unfold ne_set. case_decide; [done|]. by intros [= <-].
Qed.

Lemma wf_add m adds : wf m -> wf (foldl addKey_step m (map_to_list adds)).
Proof.
  intros Hm k entry. rewrite addKeys_lookup. destruct (adds !! k) as [[e u]|]; [|apply Hm].
  simpl. intros [= <-]. split; [apply insert_non_empty|]. intros e' us.
  destruct (decide (e' = e)) as [->|Hne].
  - rewrite lookup_insert_eq. intros [= <-]. unfold add. set_solver.
  - rewrite lookup_insert_ne by done. destruct (m !! k) as [em|] eqn:Ek; simpl; [|done].
    apply (Hm k em Ek).
Qed.

(** ** Refinement *)

Definition adds_of (op : DownArgs) : gmap Key (Element * Z) :=
  match op with DownstreamORMapAddAll adds _ => adds | DownstreamORMapRemoveAll _ => ∅ end.
Definition rems_of (op : DownArgs) : Entries :=
  match op with DownstreamORMapAddAll _ rems | DownstreamORMapRemoveAll rems => rems end.

(** The abstract object: sets of identifiers; an operation removes what its
    issuer saw and adds its own. *)
Definition Triples : Type := Key -> Element -> UniqueSet.
Definition spec_step (op : DownArgs) (t : Triples) : Triples := fun k e =>
  (t k e ∖ uniquesAt (rems_of op) k e) ∪ added (adds_of op) k e.

Lemma apply_step crdt op :
  exists crdt' eff, ormap_applyDownstream crdt op = Some (crdt', eff) /\
    (forall k e, uniquesAt (entries crdt') k e = spec_step op (uniquesAt (entries crdt)) k e) /\
    (wf (entries crdt) -> wf (entries crdt')).
Proof.
  destruct op as [adds rems|rems]; do 2 eexists; (split; [reflexivity|]); cbn [entries].
  - split; [intros k e; by rewrite uniquesAt_add, uniquesAt_remove|].
    intros Hw. by apply wf_add, wf_remove.
  - split; [|apply wf_remove]. intros k e. rewrite uniquesAt_remove. unfold spec_step, added.
    simpl. rewrite lookup_empty. set_solver.
Qed.

Lemma deliver_cons crdt op ops :
  deliver crdt (op :: ops) =
    match ormap_applyDownstream crdt op with
    | Some (crdt, _) => deliver crdt ops
    | None => None
    end.
Proof. reflexivity. Qed.

Definition spec_run (ops : list DownArgs) (t : Triples) : Triples :=
  foldl (fun t op => spec_step op t) t ops.

Lemma deliver_run ops crdt :
  exists crdt', deliver crdt ops = Some crdt' /\
    (forall k e, uniquesAt (entries crdt') k e = spec_run ops (uniquesAt (entries crdt)) k e) /\
    (wf (entries crdt) -> wf (entries crdt')).
Proof.
  assert (Hext : forall ops t t', (forall k e, t k e = t' k e) ->
    forall k e, spec_run ops t k e = spec_run ops t' k e).
  { clear. induction ops as [|op ops IH]; intros t t' E k e; simpl; [done|].
    apply IH. intros. unfold spec_step. by rewrite E. }
  revert crdt. induction ops as [|op ops IH]; intros crdt; [by exists crdt|].
  destruct (apply_step crdt op) as (crdt1 & eff & E1 & Ht1 & Hw1).
  destruct (IH crdt1) as (crdt' & E2 & Ht2 & Hw2). exists crdt'.
  rewrite deliver_cons, E1. split; [done|]. split; [|auto].
  intros k e. rewrite Ht2. simpl. by apply Hext.
Qed.

(** The map is a well-formed observed-remove set of triples: applying
    operations never fails, keeps every key with a value and every value with
    an identifier, and changes the identifiers of each value exactly as the
    abstract object does; two maps with the same triples are the same map. *)
Theorem ormap_implements_triples (crdt : ORMapCrdt) (ops : list DownArgs) :
  wf (entries crdt) ->
  exists crdt', deliver crdt ops = Some crdt' /\ wf (entries crdt') /\
    (forall k e, uniquesAt (entries crdt') k e = spec_run ops (uniquesAt (entries crdt)) k e) /\
    (forall m, wf m -> (forall k e, uniquesAt m k e = uniquesAt (entries crdt') k e) ->
       m = entries crdt').
Proof.
  intros Hw. destruct (deliver_run ops crdt) as (crdt' & E & Ht & Hw').
  exists crdt'. split; [done|]. split; [auto|]. split; [done|].
  intros m Hm Em. apply wf_ext; auto.
Qed.

Lemma ormap_implements_triples_witness :
  exists crdt', deliver Initialize
      [DownstreamORMapAddAll {["k" := ("a", 1)]} ∅;
       DownstreamORMapAddAll {["k" := ("b", 2)]} {["k" := {["a" := {[ 1 ]}]}]}] = Some crdt' /\
    wf (entries crdt').
Proof.
  destruct (ormap_implements_triples Initialize
    [DownstreamORMapAddAll {["k" := ("a", 1)]} ∅;
     DownstreamORMapAddAll {["k" := ("b", 2)]} {["k" := {["a" := {[ 1 ]}]}]}])
    as (crdt' & E & Hw & _).
  - intros k entry Hk. discriminate Hk.
  - exists crdt'. split; [exact E|exact Hw].
Defined.

(** ** Convergence *)

(** Neither operation removes what the other adds. *)
Definition unseen (a b : DownArgs) : Prop :=
  forall k e, added (adds_of a) k e ## uniquesAt (rems_of b) k e.
Definition concurrent_ops (a b : DownArgs) : Prop := unseen a b /\ unseen b a.

Definition all_concurrent (ops : list DownArgs) : Prop :=
  forall i j a b, i <> j -> ops !! i = Some a -> ops !! j = Some b -> concurrent_ops a b.

Lemma spec_run_ext ops t t' :
  (forall k e, t k e = t' k e) -> forall k e, spec_run ops t k e = spec_run ops t' k e.
Proof.
  revert t t'. induction ops as [|op ops IH]; intros t t' E k e; simpl; [done|].
  apply IH. intros. unfold spec_step. by rewrite E.
Qed.

Lemma all_concurrent_tail a ops : all_concurrent (a :: ops) -> all_concurrent ops.
Proof. intros Hc i j x y Hij Hx Hy. apply (Hc (S i) (S j)); [congruence|done|done]. Qed.

Lemma all_concurrent_perm ops1 ops2 :
  ops1 ≡ₚ ops2 -> all_concurrent ops1 -> all_concurrent ops2.
Proof.
  intros Hp Hc i j a b Hij Ha Hb. symmetry in Hp.
  apply Permutation_inj in Hp as [_ (f & Hf & Hl)].
  rewrite Hl in Ha, Hb. apply (Hc (f i) (f j)); [|done|done]. by intros ?%Hf.
Qed.

Lemma spec_run_perm ops1 ops2 t :
  ops1 ≡ₚ ops2 -> all_concurrent ops1 -> forall k e, spec_run ops1 t k e = spec_run ops2 t k e.
Proof.
  intros Hp. revert t. induction Hp as [|a l1 l2 Hp IH|a b l|l1 l2 l3 H1 IH1 H2 IH2];
    intros t Hc k e; [done|..].
  - simpl. apply IH. by eapply all_concurrent_tail.
  - simpl. apply spec_run_ext. intros k' e'. unfold spec_step.
    destruct (Hc 0%nat 1%nat b a) as [Hba Hab]; [done..|].
    specialize (Hba k' e'). specialize (Hab k' e'). set_solver.
  - rewrite IH1 by done. apply IH2. by eapply all_concurrent_perm.
Qed.

(** An identifier that no later operation removes stays. *)
Lemma spec_run_keeps ops t k e u :
  u ∈ t k e -> (forall op, op ∈ ops -> u ∉ uniquesAt (rems_of op) k e) -> u ∈ spec_run ops t k e.
Proof.
  revert t. induction ops as [|op ops IH]; intros t Hu Hr; simpl; [done|].
  apply IH; [|intros o Ho; apply Hr; by right].
  unfold spec_step. pose proof (Hr op (list_elem_of_here _ _)). set_solver.
Qed.

(** C23. Replicas that applied the same concurrent operations, each in its own
    order, hold the same map, and every value that one of the operations added
    is still there: an add wins over a concurrent remove. *)
Theorem ormap_converges (crdt : ORMapCrdt) (ops1 ops2 : list DownArgs) :
  wf (entries crdt) -> ops1 ≡ₚ ops2 -> all_concurrent ops1 ->
  exists crdt', deliver crdt ops1 = Some crdt' /\ deliver crdt ops2 = Some crdt' /\
    (forall op k e u, op ∈ ops1 -> adds_of op !! k = Some (e, u) ->
       u ∈ uniquesAt (entries crdt') k e /\ is_Some (entries crdt' !! k)).
Proof.
  intros Hw Hp Hc.
  destruct (deliver_run ops1 crdt) as ([m1] & E1 & Ht1 & Hw1).
  destruct (deliver_run ops2 crdt) as ([m2] & E2 & Ht2 & Hw2). simpl in *.
  assert (Em : m2 = m1).
  { apply wf_ext; [auto|auto|]. intros k e. rewrite Ht1, Ht2. symmetry. by apply spec_run_perm. }
  subst m2. exists (mkMap m1). split; [done|]. split; [done|].
  intros op k e u Hop Hadd.
  assert (Hu : u ∈ uniquesAt m1 k e).
  { rewrite Ht1. apply list_elem_of_lookup in Hop as [i Hi].
    pose proof (take_drop_middle _ _ _ Hi) as Es.
    rewrite <- Es. unfold spec_run. rewrite foldl_app. simpl. apply spec_run_keeps.
    - unfold spec_step, added. rewrite Hadd, decide_True by done. set_solver.
    - intros o Ho. apply list_elem_of_lookup in Ho as [j Hj]. rewrite lookup_drop in Hj.
      destruct (Hc i (S i + j)%nat op o) as [H1 _]; [lia|done|done|].
      specialize (H1 k e). unfold added in H1. rewrite Hadd, decide_True in H1 by done. set_solver. }
  split; [done|]. simpl. destruct (m1 !! k) as [em|] eqn:Ek; [by eexists|].
  rewrite (uniquesAt_None _ _ _ Ek) in Hu. set_solver.
Qed.

Definition unseenb (a b : DownArgs) : bool :=
  forallb (fun '(k, (e, u)) => bool_decide (u ∉ uniquesAt (rems_of b) k e))
    (map_to_list (adds_of a)).

Lemma unseenb_spec a b : unseenb a b = true -> unseen a b.
Proof.
  unfold unseenb, unseen, added. rewrite List.forallb_forall. intros H k e.
  destruct (adds_of a !! k) as [[e' u]|] eqn:E; [|set_solver].
  case_decide as Ee; [subst e'|set_solver].
  specialize (H (k, (e, u))). simpl in H. rewrite bool_decide_eq_true in H.
  enough (u ∉ uniquesAt (rems_of b) k e) by set_solver.
  apply H, list_elem_of_In. by apply elem_of_map_to_list.
Qed.

Lemma ormap_converges_witness :
  let put := DownstreamORMapAddAll {["k" := ("a", 1)]} ∅ in
  let rem := DownstreamORMapRemoveAll {["k" := {["a" := {[ 9 ]}]}]} in
  exists crdt', deliver Initialize [put; rem] = Some crdt' /\
    deliver Initialize [rem; put] = Some crdt' /\ getValue crdt' [] "k" = "a".
Proof.
  intros put rem.
  destruct (ormap_converges Initialize [put; rem] [rem; put]) as (crdt' & E1 & E2 & _).
  - intros k entry Hk. discriminate Hk.
  - apply Permutation_swap.
  - intros i j a b Hij Ha Hb. destruct i as [|[|i]], j as [|[|j]]; try done;
      injection Ha as <-; injection Hb as <-; split; apply unseenb_spec; vm_compute; reflexivity.
  - exists crdt'. split; [exact E1|]. split; [exact E2|].
    vm_compute in E1. injection E1 as <-. reflexivity.
Defined.

(** ** A client reads what it wrote *)

Lemma copyEntry_id entry : copyEntry entry = entry.
Proof.
  unfold copyEntry. apply map_eq. intros e. rewrite lookup_fmap.
  destruct (entry !! e) as [us|]; simpl; [by rewrite copy_spec|done].
Qed.

Lemma removeKeys_all m k entry :
  m !! k = Some entry -> foldl removeKey_step m (map_to_list {[k := entry]}) = delete k m.
Proof.
  intros Hk. apply map_eq. intros k'. rewrite removeKeys_lookup.
  destruct (decide (k' = k)) as [->|Hne].
  - rewrite lookup_singleton_eq, lookup_delete_eq, Hk. simpl.
    unfold nonemptyMap. rewrite decide_True; [done|]. apply map_eq. intros e.
    rewrite removeElems_lookup, lookup_empty. destruct (entry !! e) as [us|]; simpl; [|done].
    unfold ne_set. rewrite decide_True by set_solver. done.
  - by rewrite lookup_singleton_ne, lookup_delete_ne by done.
Qed.

(** The value a client puts under a key is the value the key has once the
    operation is applied, whatever it had before; a key it removes is gone; and
    no other key changes. *)
Theorem ormap_put_and_remove rnd (crdt : ORMapCrdt) (k : Key) (v : Element) :
  (exists crdt' eff,
     ormap_applyDownstream crdt (Update rnd crdt (MapAdd k v)) = Some (crdt', eff) /\
     getValue crdt' [] k = v /\
     (forall k', k' <> k -> entries crdt' !! k' = entries crdt !! k')) /\
  (exists crdt' eff,
     ormap_applyDownstream crdt (Update rnd crdt (MapRemove k)) = Some (crdt', eff) /\
     entries crdt' !! k = None /\ getValue crdt' [] k = "" /\ hasKey crdt' [] k = false /\
     (forall k', k' <> k -> entries crdt' !! k' = entries crdt !! k')).
Proof.
  assert (Hrem : foldl removeKey_step (entries crdt) (map_to_list
    (match entries crdt !! k with Some entry => {[k := copyEntry entry]} | None => ∅ end : Entries))
    = delete k (entries crdt)).
  { destruct (entries crdt !! k) as [entry|] eqn:E.
    - rewrite copyEntry_id. by apply removeKeys_all.
    - rewrite map_to_list_empty. simpl. by rewrite delete_id. }
  split.
  - do 2 eexists. split; [reflexivity|]. unfold getValue. cbn [entries rev getValue_loop].
    rewrite !map_to_list_singleton. cbn [foldl zip seq].
    assert (Er : (match entries crdt !! k with
      | Some entry => <[k := copyEntry entry]> (∅ : Entries) | None => ∅ end) =
      (match entries crdt !! k with Some entry => {[k := copyEntry entry]} | None => ∅ end))
      by done.
    rewrite Er, Hrem.
    replace (size ({[k := v]} : gmap Key Element)) with 1%nat by (by rewrite map_size_singleton).
    cbn [seq zip foldl].
    split.
    + rewrite addKeys_lookup, lookup_insert_eq, lookup_delete_eq. simpl.
      unfold getMinElem. rewrite insert_empty, map_to_list_singleton. done.
    + intros k' Hne. rewrite addKeys_lookup, lookup_insert_ne, lookup_empty by done.
      by rewrite lookup_delete_ne.
  - do 2 eexists. split; [reflexivity|]. unfold hasKey, getValue. cbn [entries rev getValue_loop foldl].
    assert (Hn : forall k', foldl removeKey_step (entries crdt) (map_to_list
      (<[k := copyEntry (default ∅ (entries crdt !! k))]> (∅ : Entries))) !! k' =
      delete k (entries crdt) !! k').
    { intros k'. rewrite insert_empty. destruct (entries crdt !! k) as [entry|] eqn:E; simpl.
      - by rewrite Hrem.
      - rewrite removeKeys_lookup. destruct (decide (k' = k)) as [->|Hne].
        + by rewrite lookup_singleton_eq, E, lookup_delete_eq.
        + by rewrite lookup_singleton_ne, lookup_delete_ne. }
    rewrite Hn, lookup_delete_eq. split; [done|]. split; [done|]. split; [done|].
    intros k' Hne. by rewrite Hn, lookup_delete_ne.
Qed.

(** ** What the code does not do *)

(** The effects are pointers, which no case of [undoEffect] matches: undoing
    leaves the map as it is. *)
Lemma undo_does_nothing crdt op crdt' eff :
  ormap_applyDownstream crdt op = Some (crdt', eff) -> ormap_undoEffect crdt' eff = Some crdt'.
Proof. destruct op; unfold ormap_applyDownstream; simpl; by intros [= <- <-]. Qed.

Definition ormap_history : list (History DownArgs Eff) :=
  [mkHistory {[1 := 1]} [DownstreamORMapAddAll {["k" := ("a", 1)]} ∅]
     [Some (EffPtr (ORMapAddAllEffect {["k" := ("a", 1)]} ∅))];
   mkHistory {[1 := 2]} [DownstreamORMapAddAll {["new" := ("b", 2)]} ∅]
     [Some (EffPtr (ORMapAddAllEffect {["new" := ("b", 2)]} ∅))]].

(** A map rebuilt to an old version still has the keys that were added
    later. *)
Theorem old_version_has_new_keys :
  exists crdt crdt' history,
    deliver Initialize (mjoin (h_updsArgs <$> ormap_history)) = Some crdt /\
    rebuildCRDTToVersion false crdt ormap_history {[1 := 1]} = Some (crdt', history) /\
    getValue crdt' [] "new" = "b".
Proof.
  do 3 eexists. split; [reflexivity|]. split; [vm_compute; reflexivity|]. vm_compute. reflexivity.
Qed.

(** Reads of a transaction that wrote a key twice disagree: a full read
    shows its first write, a read of the key its last. *)
Theorem pending_writes_disagree (crdt : ORMapCrdt) (k : Key) (a b : Element) :
  getState crdt [MapAdd k a; MapAdd k b] !! k = Some a /\
  getValue crdt [MapAdd k a; MapAdd k b] k = b.
Proof.
  split.
  - assert (Ep : pending [MapAdd k a; MapAdd k b] = (<[k := a]> (<[k := b]> ∅), ∅)).
    { unfold pending, pendingUpd, pendingAdd. simpl. by rewrite !decide_False by set_solver. }
    unfold getState. rewrite Ep. by apply lookup_union_Some_l, lookup_insert_eq.
  - unfold getValue. simpl. by rewrite decide_True.
Qed.

(** Listing the keys of an empty map in a transaction that removed one makes a
    slice of negative size. *)
Lemma getKeys_panics k : getKeys Initialize [MapRemove k] = None.
Proof.
  unfold getKeys, pending. cbn [rev app foldl pendingUpd pendingRem]. rewrite lookup_empty.
  cbn iota beta. rewrite union_empty_r_L, size_singleton. reflexivity.
Qed.

(** ** Messages *)

Lemma createORMapDownRems_createProtoMapRemoves (m : Entries) :
  createORMapDownRems (createProtoMapRemoves m) = m.
Proof.
  unfold createORMapDownRems, createProtoMapRemoves.
  assert (Hin : forall entry : ElemMap, foldl (fun (m : ElemMap) '(elem, us) =>
      <[elem := UInt64ArrayToUniqueSet us]> m) ∅
      ((fun '(elem, uniques) => (elem, UniqueSetToUInt64Array uniques)) <$> map_to_list entry) = entry).
  { intros entry. rewrite foldl_fmap. apply map_eq. intros e.
    rewrite (map_loop_lookup (fun us _ => Some (UInt64ArrayToUniqueSet (UniqueSetToUInt64Array us)))).
    - rewrite lookup_empty. destruct (entry !! e) as [us|]; [|done].
      unfold UInt64ArrayToUniqueSet, UniqueSetToUInt64Array, add.
      rewrite foldl_add, list_to_set_elements_L. unfold makeUniqueSet. by rewrite union_empty_r_L.
    - intros m' e' us k'. case_decide; subst; by rewrite ?lookup_insert_eq, ?lookup_insert_ne by done. }
  rewrite foldl_fmap. apply map_eq. intros k.
  rewrite (map_loop_lookup (fun entry _ => Some entry)).
  - rewrite lookup_empty. by destruct (m !! k).
  - intros m' k' entry k2. cbn [R_Key R_Elems]. rewrite Hin.
    case_decide; subst; by rewrite ?lookup_insert_eq, ?lookup_insert_ne by done.
Qed.
