(* ===== verification/TopKRmv.v ===== *)
(** * The top-K object with removes: topKRmv.go (src/crdt/crdt)

    [TopKRmvCrdt] shows the [maxElems] highest elements, one per identifier
    ([elems]); the other adds it may need again are in [notInTop], and [rems]
    holds for each identifier the clock of its removes.  An update that does
    not change what is shown is only applied by the replica that issued it
    ([Opt...]).

    The sets of [notInTop] compare elements with [==], hence the addresses of
    their data: a pointer is an address and the bytes it points to, which are
    never written.  [nextAddr] is the state of the allocator.  A loop over a map
    goes through [map_to_list] or [elements].  [None] is a panic. *)

From S2P Require Import Prelude ClockSI ClockCodec Inversible Convergence.
From Stdlib Require Import ZArith Lia Bool.
From stdpp Require Import base tactics numbers gmap sorting list.
#[local] Open Scope Z_scope.

Record Ptr := mkPtr { addr : Z; bytes : list Z }.

#[export] Instance Ptr_eq_dec : EqDecision Ptr.
Proof. solve_decision. Defined.
#[export] Instance Ptr_countable : Countable Ptr.
Proof.
  apply (inj_countable' (fun p => (addr p, bytes p)) (fun '(a, b) => mkPtr a b)).
  by intros [].
Defined.

Record TopKScore := mkScore { S_Id : Z; S_Score : Z; S_Data : option Ptr }.

Record TopKElement := mkElem {
  Id : Z;
  Score : Z;
  Ts : Z;
  ReplicaID : Z;
  Data : option Ptr
}.

#[export] Instance TopKElement_eq_dec : EqDecision TopKElement.
Proof. solve_decision. Defined.
#[export] Instance TopKElement_countable : Countable TopKElement.
Proof.
  apply (inj_countable' (fun e => (Id e, Score e, Ts e, ReplicaID e, Data e))
           (fun '(i, s, t, r, d) => mkElem i s t r d)).
  by intros [].
Defined.

Definition zeroElem : TopKElement := mkElem 0 0 0 0 None.

Abbreviation setTopKElement := (gset TopKElement).
Abbreviation Top := (gmap Z TopKElement).
Abbreviation Hidden := (gmap Z setTopKElement).

Definition isEqual (elem other : TopKElement) : bool :=
  (Id elem =? Id other) && (ReplicaID elem =? ReplicaID other) &&
  (Score elem =? Score other) && (Ts elem =? Ts other).

Definition isHigher (elem other : TopKElement) : bool :=
  if isEqual other zeroElem then true
  else if Score elem >? Score other then true
  else if Score elem =? Score other then
    if Id elem >? Id other then true
    else (Id elem =? Id other) && (Ts elem >? Ts other)
  else false.

Definition isSmaller (elem other : TopKElement) : bool :=
  isEqual other zeroElem || isHigher other elem.

Record TopKRmvCrdt := mkTopKRmv {
  vc : vclock;
  replicaID : Z;
  maxElems : Z;
  smallestScore : TopKElement;
  elems : Top;
  rems : gmap Z vclock;
  notInTop : Hidden;
  sortedElems : option (list TopKScore);
  nextAddr : Z
}.

Inductive UpdArgs :=
  | TopKAdd (s : TopKScore)
  | TopKAddAll (Scores : list TopKScore)
  | TopKRemove (id : Z)
  | TopKRemoveAll (Ids : list Z)
  | TopKInit (TopSize : Z).

Inductive DownArgs :=
  | DownstreamTopKAdd (e : TopKElement)
  | OptDownstreamTopKAdd (e : TopKElement)
  | DownstreamTopKAddAll (DownstreamAdds OptDownstreamAdds : list TopKElement)
  | DownstreamTopKRemove (id : Z) (Vc : vclock)
  | OptDownstreamTopKRemove (id : Z) (Vc : vclock)
  | DownstreamTopKRemoveAll (Vc : list vclock) (DownRems OptDownRems : list Z)
  | DownTopKInit (TopSize : Z)
  | NoOp.

Definition MustReplicate (op : DownArgs) : bool :=
  match op with
  | DownstreamTopKAdd _ | DownstreamTopKRemove _ _ | DownTopKInit _ => true
  | DownstreamTopKAddAll adds _ => (0 <? length adds)%nat
  | DownstreamTopKRemoveAll _ ids _ => (0 <? length ids)%nat
  | OptDownstreamTopKAdd _ | OptDownstreamTopKRemove _ _ | NoOp => false
  end.

Record RemoveEffect := mkRemEff {
  id : Z;
  previousVc : option vclock;
  notTopRemoved : setTopKElement;
  remElem : TopKElement;
  oldMin : TopKElement;
  minAddedToTop : bool
}.

Inductive Eff :=
  | TopKRmvAddAllEffect (effects : list Eff)
  | TopKRmvAddEffect (e : TopKElement) (oldTs : Z)
  | TopKRmvAddNotTopEffect (e : TopKElement) (oldTs : Z)
  | TopKRmvReplaceEffect (newElem oldElem oldMin : TopKElement) (oldTs : Z)
  | TopKRmvRemoveAllEffect (effects : list RemoveEffect)
  | TopKRmvRemoveEffect (effect : RemoveEffect)
  | NoEffect.

(** [knownIDs] is the package variable the initial clock is built from. *)
Definition InitializeWithSize (knownIDs : list Z) (replicaID size : Z) : TopKRmvCrdt :=
  mkTopKRmv (NewTimestamp knownIDs) replicaID size zeroElem ∅ ∅ ∅ None 0.

Definition IsBigCRDT (crdt : TopKRmvCrdt) : bool :=
  (maxElems crdt >? 100) && (Z.of_nat (size (elems crdt)) >? 100).

Definition set_vc (v : vclock) (crdt : TopKRmvCrdt) : TopKRmvCrdt :=
  mkTopKRmv v (replicaID crdt) (maxElems crdt) (smallestScore crdt) (elems crdt) (rems crdt)
    (notInTop crdt) (sortedElems crdt) (nextAddr crdt).

(** What an add or a remove writes, the buffer of sorted elements apart. *)
Definition set_top (smallest : TopKElement) (m : Top) (hidden : Hidden) (crdt : TopKRmvCrdt)
  : TopKRmvCrdt :=
  mkTopKRmv (vc crdt) (replicaID crdt) (maxElems crdt) smallest m (rems crdt) hidden
    (sortedElems crdt) (nextAddr crdt).

Definition set_rems (r : gmap Z vclock) (crdt : TopKRmvCrdt) : TopKRmvCrdt :=
  mkTopKRmv (vc crdt) (replicaID crdt) (maxElems crdt) (smallestScore crdt) (elems crdt) r
    (notInTop crdt) (sortedElems crdt) (nextAddr crdt).

Definition set_sorted (l : option (list TopKScore)) (crdt : TopKRmvCrdt) : TopKRmvCrdt :=
  mkTopKRmv (vc crdt) (replicaID crdt) (maxElems crdt) (smallestScore crdt) (elems crdt)
    (rems crdt) (notInTop crdt) l (nextAddr crdt).

Definition set_next (a : Z) (crdt : TopKRmvCrdt) : TopKRmvCrdt :=
  mkTopKRmv (vc crdt) (replicaID crdt) (maxElems crdt) (smallestScore crdt) (elems crdt)
    (rems crdt) (notInTop crdt) (sortedElems crdt) a.

(** ** Reads *)

Definition scoreOf (e : TopKElement) : TopKScore := mkScore (Id e) (Score e) (Data e).
Definition values (m : Top) : list TopKElement := (map_to_list m).*2.

Definition getState (crdt : TopKRmvCrdt) : list TopKScore := scoreOf <$> values (elems crdt).

Section reads.
(** [sort.Slice], which is not stable, by decreasing score. *)
Context (sortByScore : list TopKScore -> list TopKScore).

Definition getTopN (crdt : TopKRmvCrdt) (numberEntries : Z)
  : option (list TopKScore) * TopKRmvCrdt :=
  let sorted := match sortedElems crdt with
                | Some l => l
                | None => sortByScore (getState crdt)
                end in
  (if numberEntries >=? Z.of_nat (length sorted) then Some sorted
   else if numberEntries <? 0 then None
   else Some (take (Z.to_nat numberEntries) sorted), set_sorted (Some sorted) crdt).
End reads.

Definition takeAbove (minValue : Z) (sorted : list TopKScore) : list TopKScore :=
  (fix loop l := match l with
                 | e :: l => if S_Score e >=? minValue then e :: loop l else []
                 | [] => []
                 end) sorted.

(** [None]: more entries than the slice made for them. *)
Definition getTopKAboveValue (crdt : TopKRmvCrdt) (minValue : Z) : option (list TopKScore) :=
  match sortedElems crdt with
  | Some sorted =>
      let above := takeAbove minValue sorted in
      if (length above <=? size (elems crdt))%nat then Some above else None
  | None => Some (List.filter (fun e => S_Score e >=? minValue) (getState crdt))
  end.

(** ** Updates *)

(** [if data == nil { data = &[]byte{} }]. *)
Definition orEmpty (next : Z) (d : option Ptr) : option Ptr * Z :=
  match d with
  | Some p => (Some p, next)
  | None => (Some (mkPtr next []), next + 1)
  end.

Definition localElem (crdt : TopKRmvCrdt) (s : TopKScore) : TopKElement * TopKRmvCrdt :=
  let '(data, next) := orEmpty (nextAddr crdt) (S_Data s) in
  (mkElem (S_Id s) (S_Score s) (GetPos (vc crdt) (replicaID crdt)) (replicaID crdt) data,
   set_next next crdt).

(** Whether an add is sent to the other replicas. *)
Definition toReplicate (crdt : TopKRmvCrdt) (new : TopKElement) : bool :=
  match elems crdt !! Id new with
  | Some elem => Score elem <=? Score new
  | None => isHigher new (smallestScore crdt)
  end.

Definition getTopKAddDownstreamArgs (crdt : TopKRmvCrdt) (s : TopKScore)
  : DownArgs * TopKRmvCrdt :=
  let crdt := set_vc (SelfIncTimestamp (vc crdt) (replicaID crdt)) crdt in
  let '(new, crdt) := localElem crdt s in
  (if toReplicate crdt new then DownstreamTopKAdd new else OptDownstreamTopKAdd new, crdt).

Definition addAll_step (st : list TopKElement * list TopKElement * TopKRmvCrdt) (s : TopKScore)
  : list TopKElement * list TopKElement * TopKRmvCrdt :=
  let '(downAdds, optDownAdds, crdt) := st in
  let '(curr, crdt) := localElem crdt s in
  if toReplicate crdt curr then (downAdds ++ [curr], optDownAdds, crdt)
  else (downAdds, optDownAdds ++ [curr], crdt).

Definition getTopKAddAllDownstreamArgs (crdt : TopKRmvCrdt) (l : list TopKScore)
  : DownArgs * TopKRmvCrdt :=
  let crdt := set_vc (SelfIncTimestamp (vc crdt) (replicaID crdt)) crdt in
  let '(downAdds, optDownAdds, crdt) := foldl addAll_step ([], [], crdt) l in
  (DownstreamTopKAddAll downAdds optDownAdds, crdt).

Definition getTopKRemoveDownstreamArgs (crdt : TopKRmvCrdt) (id : Z) : DownArgs :=
  match elems crdt !! id, notInTop crdt !! id with
  | None, None => NoOp
  | Some _, _ => DownstreamTopKRemove id (Copy (vc crdt))
  | None, Some _ => OptDownstreamTopKRemove id (Copy (vc crdt))
  end.

Definition inElems (crdt : TopKRmvCrdt) (id : Z) : bool :=
  match elems crdt !! id with Some _ => true | None => false end.
Definition inNotTop (crdt : TopKRmvCrdt) (id : Z) : bool :=
  match notInTop crdt !! id with Some _ => true | None => false end.

Definition getTopKRemoveAllDownstreamArgs (crdt : TopKRmvCrdt) (Ids : list Z) : DownArgs :=
  let DownRems := List.filter (inElems crdt) Ids in
  let OptDownRems := List.filter (fun id => negb (inElems crdt id) && inNotTop crdt id) Ids in
  match DownRems, OptDownRems with
  | [], [] => NoOp
  | _, _ => DownstreamTopKRemoveAll [Copy (vc crdt)] DownRems OptDownRems
  end.

Definition Update (crdt : TopKRmvCrdt) (args : UpdArgs) : DownArgs * TopKRmvCrdt :=
  match args with
  | TopKAdd s => getTopKAddDownstreamArgs crdt s
  | TopKRemove id => (getTopKRemoveDownstreamArgs crdt id, crdt)
  | TopKAddAll l => getTopKAddAllDownstreamArgs crdt l
  | TopKRemoveAll l => (getTopKRemoveAllDownstreamArgs crdt l, crdt)
  | TopKInit n => (DownTopKInit n, crdt)
  end.

(** ** Downstream operations *)

Definition findMin (m : Top) : TopKElement :=
  foldl (fun minSoFar elem => if isSmaller elem minSoFar then elem else minSoFar)
    zeroElem (values m).

Definition highestOf (l : list TopKElement) : TopKElement :=
  foldl (fun highest elem => if isHigher elem highest then elem else highest) zeroElem l.

Definition addHidden (e : TopKElement) (m : Hidden) : Hidden :=
  <[Id e := {[e]} ∪ default ∅ (m !! Id e)]> m.

(** [notTop := notInTop[id]; delete(notTop, e)], and the set when it is empty. *)
Definition delHidden (id : Z) (e : TopKElement) (m : Hidden) : Hidden :=
  let notTop := default ∅ (m !! id) ∖ {[e]} in
  if decide (notTop = ∅) then delete id m else <[id := notTop]> m.

(** One add: the body of [applyAdd] and of the loop of [applyAddAll].  A clock
    in the answer is that of the removes that had already covered the add. *)
Definition addElem (crdt : TopKRmvCrdt) (oldTs : Z) (new : TopKElement)
  : TopKRmvCrdt * Eff * option vclock :=
  let smallest := smallestScore crdt in
  let covered := match rems crdt !! Id new with
                 | Some remsVc => if GetPos remsVc (ReplicaID new) <? Ts new then None
                                  else Some remsVc
                 | None => None
                 end in
  match covered with
  | Some remsVc => (crdt, NoEffect, Some remsVc)
  | None =>
      match elems crdt !! Id new with
      | Some elem =>
          if isHigher new elem then
            let m := <[Id new := new]> (elems crdt) in
            let hidden := if ReplicaID elem =? ReplicaID new then notInTop crdt
                          else addHidden elem (notInTop crdt) in
            (set_sorted None (set_top (if isEqual smallest elem then findMin m else smallest)
               m hidden crdt),
             TopKRmvReplaceEffect new elem smallest oldTs, None)
          else (set_top smallest (elems crdt) (addHidden new (notInTop crdt)) crdt,
                TopKRmvAddNotTopEffect new oldTs, None)
      | None =>
          if Z.of_nat (size (elems crdt)) <? maxElems crdt then
            let m := <[Id new := new]> (elems crdt) in
            if isEqual smallest zeroElem || isHigher smallest new
            then (set_sorted None (set_top new m (notInTop crdt) crdt),
                  TopKRmvReplaceEffect new zeroElem smallest oldTs, None)
            else (set_sorted None (set_top smallest m (notInTop crdt) crdt),
                  TopKRmvAddEffect new oldTs, None)
          else if isHigher new smallest then
            let m := <[Id new := new]> (delete (Id smallest) (elems crdt)) in
            (set_sorted None (set_top (findMin m) m (addHidden smallest (notInTop crdt)) crdt),
             TopKRmvReplaceEffect new smallest smallest oldTs, None)
          else (set_top smallest (elems crdt) (addHidden new (notInTop crdt)) crdt,
                TopKRmvAddNotTopEffect new oldTs, None)
      end
  end.

Definition withData (crdt : TopKRmvCrdt) (e : TopKElement) : TopKElement * TopKRmvCrdt :=
  let '(data, next) := orEmpty (nextAddr crdt) (Data e) in
  (mkElem (Id e) (Score e) (Ts e) (ReplicaID e) data, set_next next crdt).

Definition applyAdd (crdt : TopKRmvCrdt) (op : TopKElement)
  : TopKRmvCrdt * Eff * option DownArgs :=
  let oldTs := GetPos (vc crdt) (ReplicaID op) in
  let '(op, crdt) := withData crdt op in
  let crdt := set_vc (UpdatePos (vc crdt) (ReplicaID op) (Ts op)) crdt in
  let '(crdt, eff, remsVc) := addElem crdt oldTs op in
  (crdt, eff, DownstreamTopKRemove (Id op) <$> remsVc).

(** [n] is the length made for [DownRems]. *)
Definition applyAddAll_step (oldTs : Z) (n : nat)
    (st : TopKRmvCrdt * list Eff * list (Z * vclock)) (new : TopKElement)
  : option (TopKRmvCrdt * list Eff * list (Z * vclock)) :=
  let '(crdt, effects, downRemoves) := st in
  let '(new, crdt) := withData crdt new in
  let '(crdt, eff, remsVc) := addElem crdt oldTs new in
  match remsVc with
  | Some remsVc =>
      if (length downRemoves <? n)%nat
      then Some (crdt, effects ++ [eff], downRemoves ++ [(Id new, remsVc)])
      else None
  | None => Some (crdt, effects ++ [eff], downRemoves)
  end.

Definition applyAddAll (crdt : TopKRmvCrdt) (adds opt : list TopKElement)
  : option (TopKRmvCrdt * Eff * option DownArgs) :=
  firstElem ← head (adds ++ opt);
  let oldTs := GetPos (vc crdt) (ReplicaID firstElem) in
  let crdt := set_vc (UpdatePos (vc crdt) (ReplicaID firstElem) (Ts firstElem)) crdt in
  '(crdt, effects, downRemoves) ←
    foldM (applyAddAll_step oldTs (length adds)) (crdt, [], []) (adds ++ opt);
  Some (crdt, TopKRmvAddAllEffect effects,
        match downRemoves with
        | [] => None
        | _ => Some (DownstreamTopKRemoveAll downRemoves.*2 downRemoves.*1 [])
        end).

(** The elements of [notInTop] whose identifier is not in the top. *)
Definition candidates (m : Top) (hidden : Hidden) : list TopKElement :=
  flat_map (fun '(id, setElems) => if decide (m !! id = None) then elements setElems else [])
    (map_to_list hidden).

(** One remove: the body of [applyRemove] and of the loop of [applyRemoveAll]
    ([inAll]: the loop fills in the data of the highest element before it deletes
    it from [notInTop]).  The element in the answer has been put in the top. *)
Definition removeElem (inAll : bool) (crdt : TopKRmvCrdt) (id : Z) (clk : vclock)
  : TopKRmvCrdt * RemoveEffect * option TopKElement :=
  let previousVc := rems crdt !! id in
  let crdt := set_rems (<[id := match previousVc with
                                | None => clk
                                | Some remsVc => ClockSI.Merge remsVc (Some clk)
                                end]> (rems crdt)) crdt in
  let isCovered e := Ts e <= GetPos clk (ReplicaID e) in
  let hiddenForId := default ∅ (notInTop crdt !! id) in
  let notTopRemoved := filter isCovered hiddenForId in
  let hiddenForId := hiddenForId ∖ notTopRemoved in
  let hidden := if decide (hiddenForId = ∅) then delete id (notInTop crdt)
                else <[id := hiddenForId]> (notInTop crdt) in
  let smallest := smallestScore crdt in
  let kept := (set_top smallest (elems crdt) hidden crdt,
               mkRemEff id previousVc notTopRemoved zeroElem zeroElem false, None) in
  match elems crdt !! id with
  | None => kept
  | Some elem =>
      if bool_decide (isCovered elem) then
        let m := delete id (elems crdt) in
        let effect := mkRemEff id previousVc notTopRemoved elem smallest in
        let alone := (set_sorted None
                        (set_top (if isEqual elem smallest then findMin m else smallest)
                           m hidden crdt), effect false, None) in
        if Z.of_nat (size m) =? maxElems crdt - 1 then
          let highestElem := highestOf (candidates m hidden) in
          if isEqual highestElem zeroElem then alone
          else
            let '(out, crdt) := withData crdt highestElem in
            (set_sorted None
               (set_top highestElem (<[Id highestElem := highestElem]> m)
                  (delHidden (Id highestElem) (if inAll then out else highestElem) hidden) crdt),
             effect true, Some out)
        else if decide (hiddenForId = ∅) then alone
        else
          let highest := highestOf (elements hiddenForId) in
          let rest := hiddenForId ∖ {[highest]} in
          let hidden := <[id := rest]> hidden in
          let '(out, crdt) := withData crdt highest in
          (set_sorted None
             (set_top (if isEqual elem smallest then highest else smallest)
                (<[Id highest := highest]> m)
                (if decide (rest = ∅) then delete (Id highest) hidden else hidden) crdt),
           effect false, Some out)
      else kept
  end.

Definition applyRemove (crdt : TopKRmvCrdt) (id : Z) (clk : vclock)
  : TopKRmvCrdt * Eff * option DownArgs :=
  let '(crdt, eff, out) := removeElem false crdt id clk in
  (crdt, TopKRmvRemoveEffect eff, DownstreamTopKAdd <$> out).

(** The clock of the [j]-th remove is [op.Vc[j%len(op.Vc)]]. *)
Definition applyRemoveAll_step (clks : list vclock)
    (st : TopKRmvCrdt * list RemoveEffect * list TopKElement) (rem : nat * Z)
  : option (TopKRmvCrdt * list RemoveEffect * list TopKElement) :=
  let '(crdt, effects, downAdds) := st in
  if decide (clks = []) then None
  else
    clk ← clks !! (rem.1 mod length clks)%nat;
    let '(crdt, eff, out) := removeElem true crdt rem.2 clk in
    Some (crdt, effects ++ [eff], downAdds ++ option_list out).

Definition applyRemoveAll (crdt : TopKRmvCrdt) (clks : list vclock) (ids opt : list Z)
  : option (TopKRmvCrdt * Eff * option DownArgs) :=
  '(crdt, effects, downAdds) ←
    foldM (applyRemoveAll_step clks) (crdt, [], [])
      (imap pair ids ++ imap pair opt);
  Some (crdt, TopKRmvRemoveAllEffect effects,
        match downAdds with [] => None | _ => Some (DownstreamTopKAddAll downAdds []) end).

Definition applyInit (crdt : TopKRmvCrdt) (TopSize : Z) : TopKRmvCrdt :=
  mkTopKRmv (vc crdt) (replicaID crdt) TopSize (smallestScore crdt) (elems crdt) (rems crdt)
    (notInTop crdt) (sortedElems crdt) (nextAddr crdt).

(** The object, its effect and the operation to send to the other replicas. *)
Definition rmv_applyDownstream (crdt : TopKRmvCrdt) (op : DownArgs)
  : option (TopKRmvCrdt * option Eff * option DownArgs) :=
  let ok '(crdt, eff, out) := Some (crdt, Some eff, out) in
  match op with
  | DownstreamTopKAdd e | OptDownstreamTopKAdd e => ok (applyAdd crdt e)
  | DownstreamTopKRemove id clk | OptDownstreamTopKRemove id clk => ok (applyRemove crdt id clk)
  | DownstreamTopKAddAll adds opt => r ← applyAddAll crdt adds opt; ok r
  | DownstreamTopKRemoveAll clks ids opt => r ← applyRemoveAll crdt clks ids opt; ok r
  | DownTopKInit n => ok (applyInit crdt n, NoEffect, None)
  | NoOp => Some (crdt, None, None)
  end.

(** ** Undoing *)

Definition undoRemoveEffect (crdt : TopKRmvCrdt) (effect : RemoveEffect) : TopKRmvCrdt :=
  let crdt := set_rems match previousVc effect with
                       | None => delete (id effect) (rems crdt)
                       | Some v => <[id effect := Copy v]> (rems crdt)
                       end crdt in
  let hidden := <[id effect := default ∅ (notInTop crdt !! id effect)
                               ∪ notTopRemoved effect]> (notInTop crdt) in
  if isEqual (remElem effect) zeroElem
  then set_top (smallestScore crdt) (elems crdt) hidden crdt
  else
    let hidden := match elems crdt !! Id (remElem effect) with
                  | Some inTop => <[id effect := {[inTop]} ∪ default ∅ (hidden !! id effect)]> hidden
                  | None => hidden
                  end in
    let m := <[id effect := remElem effect]> (elems crdt) in
    if minAddedToTop effect
    then set_top (oldMin effect) (delete (Id (smallestScore crdt)) m)
           (addHidden (smallestScore crdt) hidden) crdt
    else set_top (oldMin effect) m hidden crdt.

Fixpoint undo (crdt : TopKRmvCrdt) (effect : Eff) : TopKRmvCrdt :=
  match effect with
  | TopKRmvAddEffect e oldTs =>
      set_top (smallestScore crdt) (delete (Id e) (elems crdt)) (notInTop crdt)
        (set_vc (UpdateForcedPos (vc crdt) (ReplicaID e) oldTs) crdt)
  | TopKRmvAddNotTopEffect e oldTs =>
      set_top (smallestScore crdt) (elems crdt) (delHidden (Id e) e (notInTop crdt))
        (set_vc (UpdateForcedPos (vc crdt) (ReplicaID e) oldTs) crdt)
  | TopKRmvReplaceEffect newElem oldElem oldMin oldTs =>
      let crdt := set_vc (UpdateForcedPos (vc crdt) (ReplicaID newElem) oldTs) crdt in
      let m := delete (Id newElem) (elems crdt) in
      if isEqual oldElem zeroElem then set_top oldMin m (notInTop crdt) crdt
      else set_top oldMin (<[Id oldElem := oldElem]> m)
             match notInTop crdt !! Id oldElem with
             | Some _ => delHidden (Id oldElem) oldElem (notInTop crdt)
             | None => notInTop crdt
             end crdt
  | TopKRmvRemoveEffect effect => undoRemoveEffect crdt effect
  | TopKRmvAddAllEffect effects => foldl undo crdt effects
  | TopKRmvRemoveAllEffect effects => foldl undoRemoveEffect crdt effects
  | NoEffect => crdt
  end.

#[export] Instance rmv_inversible : InversibleOps TopKRmvCrdt DownArgs Eff := {
  applyDownstream crdt op :=
    match rmv_applyDownstream crdt op with
    | Some (crdt, eff, _) => Some (crdt, eff)
    | None => None
    end;
  undoEffect crdt effect :=
    match effect with Some eff => Some (undo crdt eff) | None => None end
}.

(** The sorted elements are not copied; the sets of [notInTop] are. *)
Definition Copy (crdt : TopKRmvCrdt) : TopKRmvCrdt :=
  mkTopKRmv (ClockSI.Copy (vc crdt)) (replicaID crdt) (maxElems crdt) (smallestScore crdt)
    (elems crdt) (ClockSI.Copy <$> rems crdt) (notInTop crdt) None (nextAddr crdt).

(** ** Protocol buffers *)

Record ProtoTopKElement := mkProtoElem {
  P_Id : Z; P_Score : Z; P_Ts : Z; P_ReplicaID : Z; P_Data : list Z
}.

(** [*downOp.Data] of a nil pointer panics. *)
Definition elemToProto (e : TopKElement) : option ProtoTopKElement :=
  d ← Data e; Some (mkProtoElem (Id e) (Score e) (Ts e) (ReplicaID e) (bytes d)).

(** Each message holds its own bytes: a pointer to them is a new address. *)
Definition elemFromProto (next : Z) (p : ProtoTopKElement) : TopKElement :=
  mkElem (P_Id p) (P_Score p) (P_Ts p) (int16 (P_ReplicaID p)) (Some (mkPtr next (P_Data p))).

Definition elemsFromProto (next : Z) (l : list ProtoTopKElement) : list TopKElement :=
  imap (fun i p => elemFromProto (next + Z.of_nat i) p) l.

Inductive ProtoTopKRmvDownstream :=
  | P_Adds (l : list ProtoTopKElement)
  | P_Rems (Ids : list Z) (Vcs : list (list Z))
  | P_Init (TopSize : Z).

(** Optional adds and removes are never in a message. *)
Definition ToReplicatorObj (downOp : DownArgs) : option ProtoTopKRmvDownstream :=
  match downOp with
  | DownstreamTopKAdd e | OptDownstreamTopKAdd e => p ← elemToProto e; Some (P_Adds [p])
  | DownstreamTopKRemove id clk | OptDownstreamTopKRemove id clk =>
      Some (P_Rems [id] [ToBytes clk])
  | DownstreamTopKAddAll adds _ => l ← mapM elemToProto adds; Some (P_Adds l)
  | DownstreamTopKRemoveAll clks ids _ => Some (P_Rems ids (ToBytes <$> clks))
  | DownTopKInit n => Some (P_Init n)
  | NoOp => None
  end.

(** [downstreamProtoTopKRmvToAntidoteDownstream] chooses by what the message
    has; an empty list of adds is an absent one. *)
Definition FromReplicatorObj (next : Z) (p : ProtoTopKRmvDownstream) : option DownArgs :=
  match p with
  | P_Adds [] => Some (DownstreamTopKRemoveAll [] [] [])
  | P_Adds [p] => Some (DownstreamTopKAdd (elemFromProto next p))
  | P_Adds l => Some (DownstreamTopKAddAll (elemsFromProto next l) [])
  | P_Rems [id] clks => clk ← head clks; Some (DownstreamTopKRemove id (FromBytes clk))
  | P_Rems ids clks => Some (DownstreamTopKRemoveAll (FromBytes <$> clks) ids [])
  | P_Init n => Some (DownTopKInit n)
  end.

Record ProtoTopKRmvState := mkProtoState {
  P_Elems : list ProtoTopKElement;
  P_RemClks : list (Z * list Z);
  P_NotTop : list ProtoTopKElement;
  P_Smallest : ProtoTopKElement;
  P_MaxElems : Z;
  P_Vc : list Z
}.

(** A loop takes the addresses of its variable's identifier, score and
    timestamp: all its messages have those of the last round. *)
Definition roundsToProto (l : list TopKElement) : option (list ProtoTopKElement) :=
  let lastRound := default zeroElem (last l) in
  mapM (fun e => d ← Data e;
        Some (mkProtoElem (Id lastRound) (Score lastRound) (Ts lastRound) (ReplicaID e) (bytes d))) l.

Definition remsToProto (l : list (Z * vclock)) : list (Z * list Z) :=
  let lastRound := default 0 (fst <$> last l) in
  (fun r => (lastRound, ToBytes r.2)) <$> l.

Definition ToProtoState (crdt : TopKRmvCrdt) : option ProtoTopKRmvState :=
  protoElems ← roundsToProto (values (elems crdt));
  (* the inner loop has a variable of its own for each set *)
  protoNotTop ← mapM (fun elems => roundsToProto (elements elems))
                  ((map_to_list (notInTop crdt)).*2 : list setTopKElement);
  smallest ← elemToProto (smallestScore crdt);
  Some (mkProtoState protoElems (remsToProto (map_to_list (rems crdt))) (concat protoNotTop)
          smallest (int32 (maxElems crdt)) (ToBytes (vc crdt))).

(** A new set whenever the identifier differs from the previous one; [None]: an
    element whose identifier is that of the start is added to a nil set. *)
Definition notTop_step (st : Hidden * Z * bool) (e : TopKElement) : option (Hidden * Z * bool) :=
  let '(notTop, previousId, started) := st in
  if Id e =? previousId
  then if started then Some (addHidden e notTop, previousId, true) else None
  else Some (<[Id e := {[e]}]> notTop, Id e, true).

Definition FromProtoState (next replicaID : Z) (p : ProtoTopKRmvState) : option TopKRmvCrdt :=
  let es := elemsFromProto next (P_Elems p) in
  let next := next + Z.of_nat (length es) in
  let hidden := elemsFromProto next (P_NotTop p) in
  let next := next + Z.of_nat (length hidden) in
  '(notTop, _, _) ← foldM notTop_step (∅, MinInt32, false) hidden;
  Some (mkTopKRmv (FromBytes (P_Vc p)) replicaID (P_MaxElems p)
          (elemFromProto next (P_Smallest p))
          (foldl (fun (m : Top) e => <[Id e := e]> m) ∅ es)
          (foldl (fun m '(id, clk) => <[id := FromBytes clk]> m) ∅ (P_RemClks p))
          notTop None (next + 1)).

(** ** The order of the elements

    [isHigher] compares score, identifier and timestamp, in this order, except
    with the zero value; a timestamp of an add is positive. *)

Definition above (a b : TopKElement) : Prop :=
  Score b < Score a \/
  (Score a = Score b /\ (Id b < Id a \/ (Id a = Id b /\ Ts b < Ts a))).

Lemma isEqual_zero e : 0 < Ts e -> isEqual e zeroElem = false.
Proof. unfold isEqual. simpl. intros. rewrite (proj2 (Z.eqb_neq (Ts e) 0)) by lia. apply andb_false_r. Qed.

Lemma isHigher_above a b : 0 < Ts b -> isHigher a b = true <-> above a b.
Proof.
  intros Hb. unfold isHigher, above. rewrite isEqual_zero by done.
  destruct (Z.gtb_spec (Score a) (Score b)); [split; [lia|done]|].
  destruct (Z.eqb_spec (Score a) (Score b)); [|split; [done|lia]].
  destruct (Z.gtb_spec (Id a) (Id b)); [split; [lia|done]|].
  rewrite andb_true_iff, Z.eqb_eq, Z.gtb_lt. split; [lia|]. intros [?|[_ [?|?]]]; lia.
Qed.

Lemma isHigher_not_above a b : 0 < Ts b -> isHigher a b = false <-> ~ above a b.
Proof.
  intros Hb. rewrite <- isHigher_above by done. by destruct (isHigher a b).
Qed.

Lemma not_above_trans a b c : ~ above a b -> ~ above b c -> ~ above a c.
Proof. unfold above. lia. Qed.

Lemma isEqual_id a b : isEqual a b = true -> Id a = Id b.
Proof. unfold isEqual. rewrite !andb_true_iff, !Z.eqb_eq. tauto. Qed.

Lemma isEqual_refl a : isEqual a a = true.
Proof. unfold isEqual. by rewrite !Z.eqb_refl. Qed.

Abbreviation dated := (fun e => 0 < Ts e).

Lemma foldl_highest l h :
  Forall dated l -> 0 < Ts h \/ h = zeroElem ->
  let r := foldl (fun highest elem => if isHigher elem highest then elem else highest) h l in
  (r ∈ l \/ r = h) /\ (l <> [] \/ 0 < Ts h -> 0 < Ts r) /\
  (0 < Ts h -> ~ above h r) /\ Forall (fun e => ~ above e r) l.
Proof.
  revert h. induction l as [|e l IH]; intros h Hl Hh; simpl.
  { split; [by right|]. split; [by intros [?|?]|]. split; [unfold above; lia|constructor]. }
  apply Forall_cons in Hl as [He Hl].
  destruct (IH (if isHigher e h then e else h) Hl) as (H1 & H2 & H3 & H4).
  { case_match; [by left|done]. }
  set (r := foldl _ _ _) in *.
  assert (Hs : 0 < Ts (if isHigher e h then e else h) /\
               ~ above e (if isHigher e h then e else h) /\
               (0 < Ts h -> ~ above h (if isHigher e h then e else h))).
  { destruct Hh as [Hh| ->]; [|simpl; unfold above; simpl; repeat split; lia].
    destruct (isHigher e h) eqn:E.
    - apply isHigher_above in E; [|done]. unfold above in *. repeat split; lia.
    - apply isHigher_not_above in E; [|done]. unfold above in *. repeat split; lia. }
  destruct Hs as (Hd & Hae & Hah). specialize (H3 Hd).
  split; [|split; [by intros _; apply H2; right|split]].
  - destruct H1 as [H1| ->]; [left; by right|]. case_match; [left; by left|by right].
  - intros Hd'. eapply not_above_trans; eauto.
  - constructor; [by eapply not_above_trans|done].
Qed.

Lemma highestOf_ok l :
  Forall dated l -> l <> [] ->
  highestOf l ∈ l /\ forall e, e ∈ l -> ~ above e (highestOf l).
Proof.
  intros Hl Hne. destruct (foldl_highest l zeroElem Hl (or_intror eq_refl)) as (H1 & H2 & _ & H4).
  fold (highestOf l) in *. rewrite Forall_forall in H4. split; [|done].
  destruct H1 as [H1|H1]; [done|]. specialize (H2 (or_introl Hne)). rewrite H1 in H2. done.
Qed.

Lemma foldl_lowest l h :
  Forall dated l -> 0 < Ts h \/ h = zeroElem ->
  let r := foldl (fun minSoFar elem => if isSmaller elem minSoFar then elem else minSoFar) h l in
  (r ∈ l \/ r = h) /\ (l <> [] \/ 0 < Ts h -> 0 < Ts r) /\
  (0 < Ts h -> ~ above r h) /\ Forall (fun e => ~ above r e) l.
Proof.
  revert h. induction l as [|e l IH]; intros h Hl Hh; simpl.
  { split; [by right|]. split; [by intros [?|?]|]. split; [unfold above; lia|constructor]. }
  apply Forall_cons in Hl as [He Hl].
  destruct (IH (if isSmaller e h then e else h) Hl) as (H1 & H2 & H3 & H4).
  { case_match; [by left|done]. }
  set (r := foldl _ _ _) in *.
  assert (Hs : 0 < Ts (if isSmaller e h then e else h) /\
               ~ above (if isSmaller e h then e else h) e /\
               (0 < Ts h -> ~ above (if isSmaller e h then e else h) h)).
  { destruct Hh as [Hh| ->]; [|simpl; unfold above; simpl; repeat split; lia].
    unfold isSmaller. rewrite isEqual_zero by done. simpl. destruct (isHigher h e) eqn:E.
    - apply isHigher_above in E; [|done]. unfold above in *. repeat split; lia.
    - apply isHigher_not_above in E; [|done]. unfold above in *. repeat split; lia. }
  destruct Hs as (Hd & Hae & Hah). specialize (H3 Hd).
  split; [|split; [by intros _; apply H2; right|split]].
  - destruct H1 as [H1| ->]; [left; by right|]. case_match; [left; by left|by right].
  - intros Hd'. eapply not_above_trans; eauto.
  - constructor; [by eapply not_above_trans|done].
Qed.

Definition keyed (m : Top) : Prop := forall i e, m !! i = Some e -> Id e = i /\ 0 < Ts e.

Lemma elem_of_values (m : Top) e : e ∈ values m <-> exists i, m !! i = Some e.
Proof.
  unfold values. rewrite list_elem_of_fmap. split.
  - intros ([i e'] & -> & Hin). exists i. by apply elem_of_map_to_list in Hin.
  - intros [i Hi]. exists (i, e). split; [done|]. by apply elem_of_map_to_list.
Qed.

(** What [smallestScore] is to the entries. *)
Definition is_min (m : Top) (s : TopKElement) : Prop :=
  (m = ∅ /\ s = zeroElem) \/
  (m !! Id s = Some s /\ forall i e, m !! i = Some e -> ~ above s e).

Lemma rmv_findMin_ok m : keyed m -> is_min m (findMin m).
Proof.
  intros Hk. destruct (decide (m = ∅)) as [->|Hne]; [by left|right].
  assert (Hd : Forall dated (values m)).
  { apply Forall_forall. intros e [i He]%elem_of_values. by apply (Hk i e). }
  assert (Hv : values m <> []).
  { unfold values. intros E%fmap_nil_inv. by apply map_to_list_empty_iff in E. }
  destruct (foldl_lowest (values m) zeroElem Hd (or_intror eq_refl)) as (H1 & H2 & _ & H3).
  fold (findMin m) in *. specialize (H2 (or_introl Hv)). split.
  - destruct H1 as [H1|H1]; [|rewrite H1 in H2; done].
    apply elem_of_values in H1 as [i Hi]. destruct (Hk _ _ Hi) as [-> _]. done.
  - intros i e He. rewrite Forall_forall in H3. apply H3, elem_of_values. by exists i.
Qed.

Lemma keyed_insert_rmv m e : keyed m -> 0 < Ts e -> keyed (<[Id e := e]> m).
Proof. intros Hm He i x [[<- <-]|[_ Hx]]%lookup_insert_Some; [done|by apply Hm]. Qed.

Lemma keyed_delete m i : keyed m -> keyed (delete i m).
Proof. intros Hm j x [_ Hx]%lookup_delete_Some. by apply Hm. Qed.

(** ** What a replica knows

    [S]: the adds it received; [R]: the removes. *)

Definition covers (clk : vclock) (e : TopKElement) : Prop := Ts e <= GetPos clk (ReplicaID e).
Definition gone (R : list (Z * vclock)) (e : TopKElement) : Prop :=
  exists clk, (Id e, clk) ∈ R /\ covers clk e.
Definition live (S : list TopKElement) (R : list (Z * vclock)) (e : TopKElement) : Prop :=
  e ∈ S /\ ~ gone R e.

#[export] Instance covers_dec clk e : Decision (covers clk e).
Proof. unfold covers. apply _. Defined.

Definition hAt (h : Hidden) (i : Z) : setTopKElement := default ∅ (h !! i).

(** The top of the live elements: one per identifier, the highest of its
    identifier; [n] of them, the highest, when there are more identifiers. *)
Record is_top (n : Z) (S : list TopKElement) (R : list (Z * vclock)) (m : Top) : Prop := {
  top_live i e : m !! i = Some e -> Id e = i /\ live S R e;
  top_best l e : live S R l -> m !! Id l = Some e -> ~ above l e;
  top_size : Z.of_nat (size m) <= n;
  top_rest l i e : live S R l -> m !! Id l = None ->
    Z.of_nat (size m) = n /\ (m !! i = Some e -> ~ above l e)
}.

(** The state behind it. *)
Record inv (n : Z) (S : list TopKElement) (R : list (Z * vclock)) (m : Top) (s : TopKElement)
    (h : Hidden) : Prop := {
  inv_dated e : e ∈ S -> 0 < Ts e /\ Data e <> None;
  inv_live i e : m !! i = Some e -> Id e = i /\ live S R e;
  inv_hidden i e : e ∈ hAt h i -> Id e = i /\ live S R e;
  inv_nonempty i : h !! i <> Some ∅;
  inv_best l e : live S R l -> m !! Id l = Some e -> ~ above l e;
  inv_kept l : live S R l -> exists l', (m !! Id l = Some l' \/ l' ∈ hAt h (Id l)) /\
    (l' = l \/ (Id l' = Id l /\ ReplicaID l' = ReplicaID l /\ Ts l <= Ts l' /\ above l' l));
  inv_size : Z.of_nat (size m) <= n;
  inv_min : is_min m s;
  inv_full l : live S R l -> m !! Id l = None ->
    Z.of_nat (size m) = n /\ ~ above l s
}.

Lemma above_trans a b c : above a b -> above b c -> above a c.
Proof. unfold above. lia. Qed.

Lemma above_below a b c : above a b -> ~ above a c -> ~ above b c.
Proof. unfold above. lia. Qed.

Lemma not_above_above a b c : ~ above c b -> above a b -> ~ above c a.
Proof. unfold above. lia. Qed.

Lemma above_asym a b : above a b -> ~ above b a.
Proof. unfold above. lia. Qed.

#[export] Hint Resolve above_asym : potion.

Lemma live_add S R new l : live (S ++ [new]) R l -> live S R l \/ l = new.
Proof.
  intros [Hin Hg]. apply elem_of_app in Hin as [Hin|Hin%list_elem_of_singleton]; [left|by right].
  by split.
Qed.

Lemma live_add_inv S R new l : live (S ++ [new]) R l -> live S R l \/ (~ gone R new /\ l = new).
Proof. intros Hl. destruct (live_add _ _ _ _ Hl) as [?| ->]; [by left|right]. split; [apply Hl|done]. Qed.

Lemma live_add_old S R new l : live S R l -> live (S ++ [new]) R l.
Proof. intros [Hin Hg]. split; [|done]. apply elem_of_app. by left. Qed.

Lemma live_add_new S R new : ~ gone R new -> live (S ++ [new]) R new.
Proof. intros Hg. split; [|done]. apply elem_of_app. right. by apply list_elem_of_singleton. Qed.

Lemma hAt_addHidden e h i :
  hAt (addHidden e h) i = if decide (i = Id e) then {[e]} ∪ hAt h i else hAt h i.
Proof.
  unfold addHidden, hAt. case_decide as E; [subst; by rewrite lookup_insert_eq|].
  by rewrite lookup_insert_ne by congruence.
Qed.

Lemma addHidden_nonempty e h : (forall i, h !! i <> Some ∅) ->
  forall i, addHidden e h !! i <> Some ∅.
Proof.
  intros Hh i. unfold addHidden. destruct (decide (i = Id e)) as [->|Hne].
  - rewrite lookup_insert_eq. intros [= E]. set_solver.
  - by rewrite lookup_insert_ne.
Qed.

Lemma hAt_delHidden e g i x :
  x ∈ hAt (delHidden i e g) i <-> x ∈ hAt g i /\ x <> e.
Proof.
  unfold delHidden, hAt. case_decide as E.
  - rewrite lookup_delete_eq. simpl. set_solver.
  - rewrite lookup_insert_eq. simpl. set_solver.
Qed.

Lemma hAt_delHidden_ne e g i j : i <> j -> hAt (delHidden i e g) j = hAt g j.
Proof.
  intros Hij. unfold delHidden, hAt. case_decide;
    [by rewrite lookup_delete_ne|by rewrite lookup_insert_ne].
Qed.

Lemma delHidden_nonempty e g i : (forall j, g !! j <> Some ∅) ->
  forall j, delHidden i e g !! j <> Some ∅.
Proof.
  intros Hg j. unfold delHidden. destruct (decide (i = j)) as [->|Hne].
  - case_decide; [by rewrite lookup_delete_eq|rewrite lookup_insert_eq; congruence].
  - case_decide; [by rewrite lookup_delete_ne|by rewrite lookup_insert_ne].
Qed.

(** What the remove leaves in [notInTop]. *)
Definition afterRemove (h : Hidden) (id : Z) (clk : vclock) : Hidden :=
  let hiddenForId := hAt h id ∖ filter (covers clk) (hAt h id) in
  if decide (hiddenForId = ∅) then delete id h else <[id := hiddenForId]> h.

Lemma hAt_afterRemove h id clk i e :
  e ∈ hAt (afterRemove h id clk) i <-> e ∈ hAt h i /\ ~ (i = id /\ covers clk e).
Proof.
  unfold afterRemove. destruct (decide (i = id)) as [->|Hne].
  - set (X := hAt h id ∖ filter (covers clk) (hAt h id)).
    assert (H : e ∈ X <-> e ∈ hAt h id /\ ~ covers clk e).
    { unfold X. rewrite elem_of_difference, elem_of_filter. split; [|tauto].
      intros [H1 H2]. split; [done|]. tauto. }
    case_decide as E.
    + unfold hAt at 1. rewrite lookup_delete_eq. simpl. rewrite E in H. set_solver.
    + unfold hAt at 1. rewrite lookup_insert_eq. simpl. rewrite H. tauto.
  - unfold hAt. case_decide; [rewrite lookup_delete_ne by congruence|rewrite lookup_insert_ne by congruence]; tauto.
Qed.

Lemma afterRemove_nonempty h id clk : (forall i, h !! i <> Some ∅) ->
  forall i, afterRemove h id clk !! i <> Some ∅.
Proof.
  intros Hh i. unfold afterRemove. destruct (decide (i = id)) as [->|Hne].
  - case_decide; [by rewrite lookup_delete_eq|rewrite lookup_insert_eq; congruence].
  - case_decide; [by rewrite lookup_delete_ne by congruence|by rewrite lookup_insert_ne by congruence].
Qed.

Section top.
Context (n : Z) (Hn : 0 < n).

Lemma inv_keyed S R m s h : inv n S R m s h -> keyed m.
Proof.
  intros HI i e He. destruct (inv_live _ _ _ _ _ _ HI i e He) as [Hi [Hin _]].
  split; [done|]. by apply (inv_dated _ _ _ _ _ _ HI).
Qed.

Lemma inv_nonempty_min S R m s h : inv n S R m s h -> m <> ∅ ->
  m !! Id s = Some s /\ 0 < Ts s /\ forall i e, m !! i = Some e -> ~ above s e.
Proof.
  intros HI Hm. destruct (inv_min _ _ _ _ _ _ HI) as [[? _]|[Hs Hmin]]; [done|].
  split; [done|]. split; [|done]. by apply (inv_keyed _ _ _ _ _ HI (Id s)).
Qed.

Lemma inv_full_nonempty S R m s h : inv n S R m s h -> Z.of_nat (size m) = n -> m <> ∅.
Proof. intros _ Hz ->. rewrite map_size_empty in Hz. lia. Qed.

Lemma inv_is_top S R m s h : inv n S R m s h -> is_top n S R m.
Proof.
  intros HI. split.
  - apply (inv_live _ _ _ _ _ _ HI).
  - apply (inv_best _ _ _ _ _ _ HI).
  - apply (inv_size _ _ _ _ _ _ HI).
  - intros l i e Hl Hnone. destruct (inv_full _ _ _ _ _ _ HI l Hl Hnone) as [Hz Hle].
    split; [done|]. intros He. destruct (inv_nonempty_min _ _ _ _ _ HI) as (_ & _ & Hmin).
    { by eapply inv_full_nonempty. }
    eapply not_above_trans; [done|]. by eapply Hmin.
Qed.

(** Only what is live matters. *)
Lemma inv_ext S R S' R' m s h :
  (forall e, live S R e <-> live S' R' e) -> (forall e, e ∈ S' -> 0 < Ts e /\ Data e <> None) ->
  inv n S R m s h -> inv n S' R' m s h.
Proof.
  intros Hlive Hd HI. split; try apply HI; try done.
  - intros i e He. rewrite <- Hlive. by apply (inv_live _ _ _ _ _ _ HI).
  - intros i e He. rewrite <- Hlive. by apply (inv_hidden _ _ _ _ _ _ HI).
  - intros l e Hl. apply (inv_best _ _ _ _ _ _ HI). by apply Hlive.
  - intros l Hl. apply (inv_kept _ _ _ _ _ _ HI). by apply Hlive.
  - intros l Hl. apply (inv_full _ _ _ _ _ _ HI). by apply Hlive.
Qed.

(** The adds of one replica for one identifier come with growing timestamps. *)
Definition in_order (S : list TopKElement) (new : TopKElement) : Prop :=
  forall e, e ∈ S -> Id e = Id new -> ReplicaID e = ReplicaID new -> Ts e <= Ts new.

Lemma dated_add S new : (forall e, e ∈ S -> 0 < Ts e /\ Data e <> None) ->
  0 < Ts new /\ Data new <> None -> forall e, e ∈ S ++ [new] -> 0 < Ts e /\ Data e <> None.
Proof. intros HS Hnew e [He|He%list_elem_of_singleton]%elem_of_app; [auto|by subst]. Qed.

(** The new element does not change what is shown. *)
Lemma inv_add_hidden S R m s h new :
  inv n S R m s h -> 0 < Ts new /\ Data new <> None -> ~ gone R new ->
  match m !! Id new with
  | Some e => ~ above new e
  | None => Z.of_nat (size m) = n /\ ~ above new s
  end ->
  inv n (S ++ [new]) R m s (addHidden new h).
Proof.
  intros HI Hnew Hg Hcase. split; try apply HI.
  - apply dated_add; [apply HI|done].
  - intros i e He. destruct (inv_live _ _ _ _ _ _ HI i e He). split; [done|by apply live_add_old].
  - intros i e. rewrite hAt_addHidden. intros He.
    assert (e = new /\ i = Id new \/ e ∈ hAt h i) as [[-> ->]|Hin] by (case_decide; set_solver).
    + split; [done|by apply live_add_new].
    + destruct (inv_hidden _ _ _ _ _ _ HI i e Hin). split; [done|by apply live_add_old].
  - apply addHidden_nonempty, HI.
  - intros l e [Hl| ->]%live_add He; [by apply (inv_best _ _ _ _ _ _ HI)|]. by rewrite He in Hcase.
  - intros l [Hl| ->]%live_add.
    + destruct (inv_kept _ _ _ _ _ _ HI l Hl) as (l' & Hl' & Hrel). exists l'. split; [|done].
      rewrite hAt_addHidden. destruct Hl' as [Hl'|Hl']; [by left|right]. case_decide; set_solver.
    + exists new. split; [|by left]. right. rewrite hAt_addHidden, decide_True by done. set_solver.
  - intros l [Hl| ->]%live_add Hnone; [by apply (inv_full _ _ _ _ _ _ HI)|]. by rewrite Hnone in Hcase.
Qed.

(** The new element enters the top, in the place of an element of its
    identifier, of the minimum, or of none. *)
Lemma inv_add_top S R m s h new m' s' h' :
  inv n S R m s h -> 0 < Ts new /\ Data new <> None -> in_order S new -> ~ gone R new ->
  m' !! Id new = Some new ->
  (forall i, i <> Id new -> m' !! i = m !! i \/
     (i = Id s /\ m !! i = Some s /\ m' !! i = None /\ s ∈ hAt h' i /\ Z.of_nat (size m) = n)) ->
  (forall e, m !! Id new = Some e ->
     above new e /\ (e ∈ hAt h' (Id new) \/ ReplicaID e = ReplicaID new)) ->
  (m !! Id new = None -> Z.of_nat (size m) = n -> ~ above s new) ->
  (forall i e, e ∈ hAt h' i -> e ∈ hAt h i \/ m !! i = Some e) ->
  (forall i e, e ∈ hAt h i -> e ∈ hAt h' i) -> (forall i, h' !! i <> Some ∅) ->
  Z.of_nat (size m') <= n -> (Z.of_nat (size m) = n -> Z.of_nat (size m') = n) ->
  is_min m' s' ->
  inv n (S ++ [new]) R m' s' h'.
Proof.
  intros HI Hnew Hord Hg Hin Hother Hsame Hout Hh' Hh Hne Hsz Hkeep Hmin'.
  assert (Hold : forall i e, i <> Id new -> m' !! i = Some e -> m !! i = Some e).
  { intros i e Hi He. destruct (Hother i Hi) as [<-|(_ & _ & ? & _)]; congruence. }
  assert (Hss : Z.of_nat (size m) = n -> ~ above s s').
  { intros Hz. destruct (inv_nonempty_min _ _ _ _ _ HI) as (_ & _ & Hmin).
    { by eapply inv_full_nonempty. }
    destruct Hmin' as [[-> _]|[Hs' _]]; [by rewrite lookup_empty in Hin|].
    destruct (decide (Id s' = Id new)) as [E|E]; [|by eapply Hmin, Hold].
    rewrite E in Hs'. assert (s' = new) as -> by congruence.
    destruct (m !! Id new) as [e|] eqn:Ee; [|by apply Hout].
    destruct (Hsame e eq_refl). eapply not_above_above; [|done]. by eapply Hmin. }
  split; try done.
  - apply dated_add; [apply HI|done].
  - intros i e He. destruct (decide (i = Id new)) as [->|Hi].
    + assert (e = new) as -> by congruence. split; [done|by apply live_add_new].
    + destruct (inv_live _ _ _ _ _ _ HI i e (Hold _ _ Hi He)). split; [done|by apply live_add_old].
  - intros i e [He|He]%Hh'.
    + destruct (inv_hidden _ _ _ _ _ _ HI i e He). split; [done|by apply live_add_old].
    + destruct (inv_live _ _ _ _ _ _ HI i e He). split; [done|by apply live_add_old].
  - intros l e Hl He. destruct (decide (Id l = Id new)) as [E|E].
    + rewrite E in He. assert (e = new) as -> by congruence.
      apply live_add in Hl as [Hl| ->]; [|unfold above; lia].
      destruct (m !! Id new) as [e|] eqn:Ee.
      * destruct (Hsame e eq_refl) as [Ha _]. eapply not_above_above; [|done].
        apply (inv_best _ _ _ _ _ _ HI); [done|congruence].
      * destruct (inv_full _ _ _ _ _ _ HI l Hl) as [Hz Hls]; [congruence|].
        eapply not_above_trans; [done|]. by apply Hout.
    + apply live_add in Hl as [Hl| ->]; [|done].
      apply (inv_best _ _ _ _ _ _ HI); [done|by apply Hold].
  - intros l [Hl| ->]%live_add; [|exists new; split; [by left|by left]].
    destruct (inv_kept _ _ _ _ _ _ HI l Hl) as (l' & [Hl'|Hl'] & Hrel);
      [|exists l'; split; [right; by apply Hh|done]].
    destruct (decide (Id l = Id new)) as [E|E].
    + rewrite E in Hl'. destruct (Hsame l' Hl') as [Ha [Hx|Hrep]].
      { exists l'. split; [right; by rewrite E|done]. }
      exists new. split; [left; by rewrite E|right].
      destruct (inv_live _ _ _ _ _ _ HI _ _ Hl') as [Hidl' [HS _]].
      pose proof (Hord l' HS Hidl' Hrep). destruct Hrel as [->|(? & ? & ? & ?)]; [by repeat split|].
      repeat split; [congruence|congruence|lia|by eapply above_trans].
    + destruct (Hother (Id l) E) as [Eo|(_ & Es & _ & Hsh & _)].
      * exists l'. split; [left; congruence|done].
      * exists l'. split; [right; congruence|done].
  - intros l Hl Hnone. assert (E : Id l <> Id new) by congruence.
    apply live_add in Hl as [Hl| ->]; [|done].
    destruct (Hother (Id l) E) as [Eo|(Eid & Es & _ & _ & Hz)].
    + rewrite Eo in Hnone. destruct (inv_full _ _ _ _ _ _ HI l Hl Hnone) as [Hz Hls].
      split; [auto|]. eapply not_above_trans; [done|auto].
    + split; [auto|]. eapply not_above_trans; [|by apply Hss].
      by apply (inv_best _ _ _ _ _ _ HI).
Qed.

(** A remove that takes the highest add of its identifier takes them all. *)
Definition clean (S : list TopKElement) (R : list (Z * vclock)) (id : Z) (clk : vclock) : Prop :=
  forall a b, live S R a -> live S R b -> Id a = id -> Id b = id ->
    covers clk b -> ~ covers clk a ->
    exists c, live S R c /\ Id c = id /\ ~ covers clk c /\ above c b.

Lemma live_remove S R id clk l :
  live S (R ++ [(id, clk)]) l <-> live S R l /\ ~ (Id l = id /\ covers clk l).
Proof.
  unfold live. assert (H : gone (R ++ [(id, clk)]) l <-> gone R l \/ (Id l = id /\ covers clk l)).
  { unfold gone. split.
    - intros (c & [Hin|Hin%list_elem_of_singleton]%elem_of_app & Hc); [left; by exists c|].
      right. by injection Hin as -> ->.
    - intros [(c & Hin & Hc)|[<- Hc]]; [exists c|exists clk]; (split; [|done]); apply elem_of_app;
        [by left|right; by apply list_elem_of_singleton]. }
  rewrite H. tauto.
Qed.

Section remove.
Context (S : list TopKElement) (R : list (Z * vclock)) (m : Top) (s : TopKElement) (h : Hidden).
Context (id : Z) (clk : vclock) (HI : inv n S R m s h).
Abbreviation R' := (R ++ [(id, clk)]).
Abbreviation h' := (afterRemove h id clk).

Lemma inv_remove_hidden i e : e ∈ hAt h' i -> Id e = i /\ live S R' e.
Proof.
  intros [He Hc]%hAt_afterRemove. destruct (inv_hidden _ _ _ _ _ _ HI i e He) as [<- Hl].
  split; [done|]. by apply live_remove.
Qed.

(** What stands for an add stays when the add does. *)
Lemma inv_remove_kept l : live S R' l -> exists l',
  ((m !! Id l = Some l' /\ live S R' l') \/ l' ∈ hAt h' (Id l)) /\
  (l' = l \/ (Id l' = Id l /\ ReplicaID l' = ReplicaID l /\ Ts l <= Ts l' /\ above l' l)).
Proof.
  intros [Hl Hlc]%live_remove. destruct (inv_kept _ _ _ _ _ _ HI l Hl) as (l' & Hl' & Hrel).
  exists l'. split; [|done].
  assert (Hid' : Id l' = Id l).
  { destruct Hrel as [->|[? _]]; done. }
  assert (Hc : ~ (Id l' = id /\ covers clk l')).
  { intros [Hid Hc]. apply Hlc. split; [congruence|]. unfold covers in *.
    destruct Hrel as [->|(_ & Hr & Ht & _)]; [done|]. rewrite Hr in Hc. lia. }
  destruct Hl' as [Hl'|Hl'].
  - left. split; [done|]. apply live_remove. split; [|done].
    by destruct (inv_live _ _ _ _ _ _ HI _ _ Hl').
  - right. apply hAt_afterRemove. split; [done|]. rewrite <- Hid'. done.
Qed.

(** The element shown for the identifier, if any, is not covered. *)
Lemma inv_remove_none :
  (forall e, m !! id = Some e -> ~ covers clk e) -> inv n S R' m s h'.
Proof.
  intros Hnc. split; try apply HI.
  - intros i e He. destruct (inv_live _ _ _ _ _ _ HI i e He) as [Hi Hl]. split; [done|].
    apply live_remove. split; [done|]. intros [Hid Hc]. apply (Hnc e); congruence.
  - apply inv_remove_hidden.
  - apply afterRemove_nonempty, HI.
  - intros l e [Hl _]%live_remove. by apply (inv_best _ _ _ _ _ _ HI).
  - intros l Hl. destruct (inv_remove_kept l Hl) as (l' & [[Hl' _]|Hl'] & Hrel); exists l'; auto.
  - intros l [Hl _]%live_remove. by apply (inv_full _ _ _ _ _ _ HI).
Qed.

Context (elem : TopKElement) (Helem : m !! id = Some elem) (Hcov : covers clk elem).
Context (Hclean : clean S R id clk).

Lemma clean_covers l : live S R l -> Id l = id -> covers clk l.
Proof.
  intros Hl Hid. destruct (decide (covers clk l)) as [|Hnc]; [done|exfalso].
  destruct (inv_live _ _ _ _ _ _ HI _ _ Helem) as [Hide Hle].
  destruct (Hclean l elem Hl Hle Hid Hide Hcov Hnc) as (c & Hlc & Hidc & _ & Ha).
  eapply (inv_best _ _ _ _ _ _ HI); [done| |done]. by rewrite Hidc.
Qed.

Lemma live_remove_ne l : live S R' l -> Id l <> id.
Proof. intros [Hl Hc]%live_remove Hid. apply Hc. split; [done|by apply clean_covers]. Qed.

Lemma size_removed : Z.of_nat (size (delete id m)) = Z.of_nat (size m) - 1.
Proof.
  rewrite map_size_delete, Helem. assert (size m <> 0%nat); [|simpl; lia].
  intros E%map_size_empty_inv. subst. by rewrite lookup_empty in Helem.
Qed.

Lemma is_min_removed :
  is_min (delete id m) (if isEqual elem s then findMin (delete id m) else s).
Proof.
  destruct (isEqual elem s) eqn:E.
  - apply rmv_findMin_ok, keyed_delete. by eapply inv_keyed.
  - destruct (inv_nonempty_min _ _ _ _ _ HI) as (Hs & _ & Hmin).
    { intros ->. by rewrite lookup_empty in Helem. }
    right. split.
    + rewrite lookup_delete_ne; [done|]. intros Eid. rewrite <- Eid, Helem in Hs.
      injection Hs as ->. by rewrite isEqual_refl in E.
    + intros i e [_ He]%lookup_delete_Some. by eapply Hmin.
Qed.

Lemma hidden_removed : hAt h id ∖ filter (covers clk) (hAt h id) = ∅.
Proof.
  apply elem_of_equiv_empty_L. intros e. rewrite elem_of_difference, elem_of_filter.
  intros [He Hn']. apply Hn'. split; [|done].
  destruct (inv_hidden _ _ _ _ _ _ HI _ _ He). by apply clean_covers.
Qed.

(** Nothing takes the place of the element. *)
Lemma inv_remove_alone s' :
  is_min (delete id m) s' ->
  (forall l, live S R' l -> delete id m !! Id l = None -> False) ->
  inv n S R' (delete id m) s' h'.
Proof.
  intros Hmin Hnone. split; try done.
  - apply HI.
  - intros i e [Hi He]%lookup_delete_Some. destruct (inv_live _ _ _ _ _ _ HI i e He) as [Hie Hl].
    split; [done|]. apply live_remove. split; [done|]. intros [? _]. congruence.
  - apply inv_remove_hidden.
  - apply afterRemove_nonempty, HI.
  - intros l e [Hl _]%live_remove [_ He]%lookup_delete_Some. by apply (inv_best _ _ _ _ _ _ HI).
  - intros l Hl. destruct (inv_remove_kept l Hl) as (l' & [[Hl' _]|Hl'] & Hrel); exists l';
      (split; [|done]); [left|by right].
    rewrite lookup_delete_ne; [done|]. pose proof (live_remove_ne l Hl). congruence.
  - rewrite size_removed. pose proof (inv_size _ _ _ _ _ _ HI). lia.
  - intros l Hl Hd. exfalso. by eapply Hnone.
Qed.

(** The highest of the other identifiers takes the place of the element. *)
Lemma inv_remove_promote hi :
  Z.of_nat (size m) = n -> hi ∈ hAt h' (Id hi) -> delete id m !! Id hi = None ->
  (forall i e, e ∈ hAt h' i -> delete id m !! i = None -> ~ above e hi) ->
  inv n S R' (<[Id hi := hi]> (delete id m)) hi (delHidden (Id hi) hi h').
Proof.
  intros Hz Hhi Hno Hmax. destruct (inv_remove_hidden _ _ Hhi) as [_ Hlhi].
  pose proof (live_remove_ne _ Hlhi) as Hne.
  assert (Hmhi : m !! Id hi = None) by by rewrite lookup_delete_ne in Hno by congruence.
  assert (Hsz : Z.of_nat (size (<[Id hi := hi]> (delete id m))) = n).
  { rewrite map_size_insert, Hno, Nat2Z.inj_succ, size_removed. lia. }
  destruct (inv_nonempty_min _ _ _ _ _ HI) as (_ & _ & Hmin).
  { by eapply inv_full_nonempty. }
  assert (Hhis : ~ above hi s).
  { apply live_remove in Hlhi as [Hl _]. by apply (inv_full _ _ _ _ _ _ HI hi Hl). }
  assert (Hdel : forall i e, e ∈ hAt (delHidden (Id hi) hi h') i -> e ∈ hAt h' i).
  { intros i e. destruct (decide (Id hi = i)) as [<-|Hi];
      [intros [H _]%hAt_delHidden; exact H|by rewrite hAt_delHidden_ne]. }
  split; try done; try lia.
  - apply HI.
  - intros i e [[<- <-]|[Hi [Hid He]%lookup_delete_Some]]%lookup_insert_Some; [done|].
    destruct (inv_live _ _ _ _ _ _ HI i e He) as [Hie Hl]. split; [done|].
    apply live_remove. split; [done|]. intros [? _]. congruence.
  - intros i e He. by apply inv_remove_hidden, Hdel.
  - apply delHidden_nonempty, afterRemove_nonempty, HI.
  - intros l e Hl [[Hid <-]|[Hi [_ He]%lookup_delete_Some]]%lookup_insert_Some.
    + destruct (inv_remove_kept l Hl) as (l' & [[Hl' _]|Hl'] & Hrel);
        [rewrite <- Hid in Hl'; congruence|].
      assert (Ha : ~ above l' hi) by (apply (Hmax (Id l)); congruence).
      destruct Hrel as [->|(_ & _ & _ & Hab)]; [done|]. by eapply above_below.
    + apply live_remove in Hl as [Hl _]. by apply (inv_best _ _ _ _ _ _ HI).
  - intros l Hl. destruct (inv_remove_kept l Hl) as (l' & Hl' & Hrel).
    pose proof (live_remove_ne l Hl) as Hidl. exists l'. split; [|done].
    destruct Hl' as [[Hl' _]|Hl'].
    + left. rewrite lookup_insert_ne by congruence. by rewrite lookup_delete_ne.
    + destruct (decide (l' = hi)) as [->|Hx].
      * left. destruct Hrel as [->|[E _]]; [|rewrite <- E]; by rewrite lookup_insert_eq.
      * right. destruct (decide (Id hi = Id l)) as [E|E].
        -- rewrite <- E in Hl' |- *. apply hAt_delHidden. by split.
        -- by rewrite hAt_delHidden_ne.
  - right. rewrite lookup_insert_eq. split; [done|].
    intros i e [[_ <-]|[_ [_ He]%lookup_delete_Some]]%lookup_insert_Some; [unfold above; lia|].
    eapply not_above_trans; [done|]. by eapply Hmin.
  - intros l Hl [Hnone Hi]%lookup_insert_None. split; [done|].
    destruct (inv_remove_kept l Hl) as (l' & [[Hl' _]|Hl'] & Hrel).
    { pose proof (live_remove_ne l Hl). rewrite lookup_delete_ne in Hnone by congruence. congruence. }
    pose proof (Hmax _ _ Hl' Hnone) as Ha.
    destruct Hrel as [->|(_ & _ & _ & Hab)]; [done|]. by eapply above_below.
Qed.
End remove.
End top.

(** ** The invariant of the object *)

(** [rems] holds the removes; their clocks have the same identifiers, [D]. *)
Definition rems_ok (D : gset Z) (R : list (Z * vclock)) (r : gmap Z vclock) : Prop :=
  (forall i c, r !! i = Some c -> dom c = D) /\
  (forall e, gone R e <-> exists c, r !! Id e = Some c /\ covers c e).

Lemma rems_ok_remove D R r id clk :
  rems_ok D R r -> dom clk = D ->
  rems_ok D (R ++ [(id, clk)])
    (<[id := match r !! id with None => clk | Some c => ClockSI.Merge c (Some clk) end]> r).
Proof.
  intros [Hd Hg] Hclk.
  assert (Hgone : forall e, gone (R ++ [(id, clk)]) e <-> gone R e \/ (Id e = id /\ covers clk e)).
  { intros e. unfold gone. split.
    - intros (c & [Hin|Hin%list_elem_of_singleton]%elem_of_app & Hc); [left; by exists c|].
      right. by injection Hin as -> ->.
    - intros [(c & Hin & Hc)|[<- Hc]]; [exists c|exists clk]; (split; [|done]); apply elem_of_app;
        [by left|right; by apply list_elem_of_singleton]. }
  split.
  - intros i c [[<- <-]|[_ Hc]]%lookup_insert_Some; [|by apply (Hd i)].
    destruct (r !! id) as [c|] eqn:E; [|done]. rewrite <- (Merge_dom c clk). by apply (Hd id).
  - intros e. rewrite Hgone, Hg. destruct (decide (Id e = id)) as [E|E].
    + rewrite E. rewrite lookup_insert_eq. destruct (r !! id) as [c|] eqn:Er.
      * assert (Hm : covers (ClockSI.Merge c (Some clk)) e <-> covers c e \/ covers clk e).
        { unfold covers. rewrite Merge_GetPos; [lia|]. red. rewrite Hclk. by apply (Hd id). }
        split.
        -- intros [(c' & [= <-] & Hc)|[_ Hc]]; eexists; (split; [done|]); apply Hm; auto.
        -- intros (c' & [= <-] & [Hc|Hc]%Hm); [left; by exists c|by right].
      * split; [intros [(? & ? & ?)|[_ ?]]; [done|by exists clk]|].
        intros (? & [= <-] & ?). by right.
    + rewrite lookup_insert_ne by done. split; [intros [?|[? _]]; done|by left].
Qed.

Record cinv (D : gset Z) (S : list TopKElement) (R : list (Z * vclock)) (crdt : TopKRmvCrdt)
  : Prop := {
  cinv_max : 0 < maxElems crdt;
  cinv_top : inv (maxElems crdt) S R (elems crdt) (smallestScore crdt) (notInTop crdt);
  cinv_rems : rems_ok D R (rems crdt);
  cinv_sorted l : sortedElems crdt = Some l -> l ≡ₚ getState crdt
}.

Section object.
Context (D : gset Z).

Lemma cinv_init knownIDs r n : 0 < n -> cinv D [] [] (InitializeWithSize knownIDs r n).
Proof.
  intros Hn. split; [done| | |done].
  - simpl. split; try done; try (by intros ? [?%elem_of_nil _]); try (by intros ? ?%elem_of_nil).
    + rewrite map_size_empty. lia.
    + by left.
  - split; [done|]. intros e. split; [|by intros (? & ? & _)].
    intros (c & Hc & _). by apply elem_of_nil in Hc.
Qed.

Lemma cinv_vc S R v crdt : cinv D S R crdt -> cinv D S R (set_vc v crdt).
Proof. by intros []. Qed.

Lemma withData_id crdt e : Data e <> None -> withData crdt e = (e, crdt).
Proof. unfold withData. destruct e as [? ? ? ? [p|]], crdt; done. Qed.

(** The three ways into the top. *)
Lemma add_replaces n S R m s h new elem :
  0 < n -> inv n S R m s h -> 0 < Ts new /\ Data new <> None -> in_order S new -> ~ gone R new ->
  m !! Id new = Some elem -> above new elem ->
  inv n (S ++ [new]) R (<[Id new := new]> m)
    (if isEqual s elem then findMin (<[Id new := new]> m) else s)
    (if ReplicaID elem =? ReplicaID new then h else addHidden elem h).
Proof.
  intros Hn HI Hnew Hord Hng E Ea. assert (Hk := inv_keyed _ _ _ _ _ _ HI).
  destruct (Hk _ _ E) as [Hide _].
  assert (Hsz : size (<[Id new := new]> m) = size m) by (by rewrite map_size_insert, E).
  eapply inv_add_top; try done; rewrite ?Hsz; try done; try congruence.
  - by rewrite lookup_insert_eq.
  - intros i Hi. left. by rewrite lookup_insert_ne.
  - intros e He. assert (e = elem) as -> by congruence. split; [done|].
    destruct (Z.eqb_spec (ReplicaID elem) (ReplicaID new)); [by right|left].
    rewrite hAt_addHidden, decide_True by done. set_solver.
  - intros i e. destruct (_ =? _); [by left|]. rewrite hAt_addHidden. case_decide; [|by left].
    subst. intros [->%elem_of_singleton|?]%elem_of_union; [right|by left]. by rewrite Hide.
  - intros i e He. destruct (_ =? _); [done|]. rewrite hAt_addHidden. case_decide; set_solver.
  - pose proof (inv_nonempty _ _ _ _ _ _ HI). destruct (_ =? _); [done|by apply addHidden_nonempty].
  - apply (inv_size _ _ _ _ _ _ HI).
  - destruct (isEqual s elem) eqn:Es; [apply rmv_findMin_ok, keyed_insert_rmv; [done|apply Hnew]|].
    destruct (inv_nonempty_min _ _ _ _ _ _ HI) as (Hsm & _ & Hmin).
    { intros ->. by rewrite lookup_empty in E. }
    right. assert (Id s <> Id new).
    { intros Heq. rewrite Heq, E in Hsm. injection Hsm as ->. by rewrite isEqual_refl in Es. }
    split; [by rewrite lookup_insert_ne by congruence|].
    intros i e [[_ <-]|[_ He]]%lookup_insert_Some; [|by eapply Hmin].
    eapply not_above_above; [|done]. by eapply Hmin.
Qed.

Lemma add_has_room n S R m s h new :
  0 < n -> inv n S R m s h -> 0 < Ts new /\ Data new <> None -> in_order S new -> ~ gone R new ->
  m !! Id new = None -> Z.of_nat (size m) < n ->
  inv n (S ++ [new]) R (<[Id new := new]> m)
    (if isEqual s zeroElem || isHigher s new then new else s) h.
Proof.
  intros Hn HI Hnew Hord Hng E Hroom.
  assert (Hsz : Z.of_nat (size (<[Id new := new]> m)) = Z.of_nat (size m) + 1)
    by (rewrite map_size_insert, E; lia).
  eapply inv_add_top; try done; rewrite ?Hsz; try done; try lia; try congruence.
  - by rewrite lookup_insert_eq.
  - intros i Hi. left. by rewrite lookup_insert_ne.
  - by left.
  - apply (inv_nonempty _ _ _ _ _ _ HI).
  - right. destruct (decide (m = ∅)) as [->|Hne].
    { destruct (inv_min _ _ _ _ _ _ HI) as [[_ ->]|[Hz _]]; [|by rewrite lookup_empty in Hz].
      simpl. rewrite lookup_insert_eq. split; [done|].
      intros i e [_ <-]%lookup_singleton_Some. unfold above. lia. }
    destruct (inv_nonempty_min _ _ _ _ _ _ HI Hne) as (Hsm & Hts & Hmin).
    rewrite isEqual_zero by done. simpl. destruct (isHigher s new) eqn:Eh.
    + apply isHigher_above in Eh; [|apply Hnew]. rewrite lookup_insert_eq. split; [done|].
      intros i e [[_ <-]|[_ He]]%lookup_insert_Some; [unfold above; lia|].
      intros Hx. eapply (Hmin i e He). by eapply above_trans.
    + apply isHigher_not_above in Eh; [|apply Hnew].
      split; [rewrite lookup_insert_ne by congruence; done|].
      intros i e [[_ <-]|[_ He]]%lookup_insert_Some; [done|by eapply Hmin].
Qed.

Lemma add_evicts n S R m s h new :
  0 < n -> inv n S R m s h -> 0 < Ts new /\ Data new <> None -> in_order S new -> ~ gone R new ->
  m !! Id new = None -> Z.of_nat (size m) = n -> above new s ->
  let m' := <[Id new := new]> (delete (Id s) m) in
  inv n (S ++ [new]) R m' (findMin m') (addHidden s h).
Proof.
  intros Hn HI Hnew Hord Hng E Hz Ha m'. assert (Hk := inv_keyed _ _ _ _ _ _ HI).
  destruct (inv_nonempty_min _ _ _ _ _ _ HI) as (Hsm & _ & _); [by eapply (inv_full_nonempty _ Hn)|].
  assert (Hne : Id s <> Id new) by congruence.
  assert (Hsz : Z.of_nat (size m') = Z.of_nat (size m)).
  { unfold m'. rewrite map_size_insert, lookup_delete_ne, E by done.
    rewrite map_size_delete, Hsm. destruct (size m) eqn:En; simpl; lia. }
  eapply inv_add_top; try done; rewrite ?Hsz; try done; try lia; try congruence.
  - unfold m'. by rewrite lookup_insert_eq.
  - intros i Hi. unfold m'. rewrite lookup_insert_ne by done.
    destruct (decide (i = Id s)) as [->|Hi']; [right|left; by rewrite lookup_delete_ne].
    rewrite lookup_delete_eq, hAt_addHidden, decide_True by done. repeat split; try done. set_solver.
  - intros _ _. by apply above_asym.
  - intros i e. rewrite hAt_addHidden. case_decide; [|by left]. subst.
    intros [->%elem_of_singleton|?]%elem_of_union; [by right|by left].
  - intros i e He. rewrite hAt_addHidden. case_decide; set_solver.
  - apply addHidden_nonempty, (inv_nonempty _ _ _ _ _ _ HI).
  - unfold m'. apply rmv_findMin_ok, keyed_insert_rmv; [by apply keyed_delete|apply Hnew].
Qed.

Lemma addElem_inv S R crdt oldTs new :
  cinv D S R crdt -> 0 < Ts new /\ Data new <> None -> in_order S new ->
  let '(crdt', _, remsVc) := addElem crdt oldTs new in
  cinv D (S ++ [new]) R crdt' /\ maxElems crdt' = maxElems crdt /\ (remsVc <> None -> gone R new).
Proof.
  intros [Hn HI Hr Hs] Hnew Hord. unfold addElem.
  assert (Hgone : match rems crdt !! Id new with
    | Some remsVc => if GetPos remsVc (ReplicaID new) <? Ts new then None else Some remsVc
    | None => None end <> None <-> gone R new).
  { rewrite (proj2 Hr new). unfold covers. destruct (rems crdt !! Id new) as [c|].
    - destruct (Z.ltb_spec (GetPos c (ReplicaID new)) (Ts new)).
      + split; [done|]. intros (? & [= <-] & ?). lia.
      + split; [|done]. intros _. by exists c.
    - split; [done|]. by intros (? & ? & _). }
  destruct (match rems crdt !! Id new with Some _ => _ | None => None end) as [c|].
  { assert (Hg : gone R new) by by apply Hgone. split; [|done]. split; try done.
    eapply inv_ext; [|apply dated_add; [apply HI|done]|done].
    intros e. split; [apply live_add_old|]. intros [?|[Hng ->]]%live_add_inv; [done|by destruct Hng]. }
  assert (Hng : ~ gone R new) by (intros Hg; by apply Hgone).
  destruct (elems crdt !! Id new) as [elem|] eqn:E.
  - destruct (inv_keyed _ _ _ _ _ _ HI _ _ E) as [_ Hte]. destruct (isHigher new elem) eqn:Ea.
    + apply isHigher_above in Ea; [|done]. split; [|done]. split; try done. by apply add_replaces.
    + apply isHigher_not_above in Ea; [|done]. split; [|done]. split; try done.
      apply inv_add_hidden; simpl; try done. by rewrite E.
  - destruct (Z.ltb_spec (Z.of_nat (size (elems crdt))) (maxElems crdt)) as [Hroom|Hfull].
    { pose proof (add_has_room _ _ _ _ _ _ _ Hn HI Hnew Hord Hng E Hroom).
      by destruct (_ || _). }
    assert (Hz : Z.of_nat (size (elems crdt)) = maxElems crdt)
      by (pose proof (inv_size _ _ _ _ _ _ HI); lia).
    destruct (inv_nonempty_min _ _ _ _ _ _ HI) as (_ & Hts & _); [by eapply (inv_full_nonempty _ Hn)|].
    destruct (isHigher new (smallestScore crdt)) eqn:Eh.
    + apply isHigher_above in Eh; [|done]. split; [|done]. split; try done. by apply add_evicts.
    + apply isHigher_not_above in Eh; [|done]. split; [|done]. split; try done.
      apply inv_add_hidden; simpl; try done. by rewrite E.
Qed.

Lemma elem_of_candidates (m : Top) (h : Hidden) e :
  e ∈ candidates m h <-> exists i, e ∈ hAt h i /\ m !! i = None.
Proof.
  unfold candidates. rewrite list_elem_of_In, in_flat_map. split.
  - intros ([i s] & Hin & He). apply list_elem_of_In, elem_of_map_to_list in Hin.
    case_decide; [|done]. exists i. split; [|done]. unfold hAt. rewrite Hin.
    by apply list_elem_of_In, elem_of_elements in He.
  - intros (i & He & Hi). unfold hAt in He. destruct (h !! i) as [s|] eqn:E; [|set_solver].
    exists (i, s). split; [by apply list_elem_of_In, elem_of_map_to_list|].
    rewrite decide_True by done. by apply list_elem_of_In, elem_of_elements.
Qed.

(** The promoted element is the highest of the identifiers not shown. *)
Lemma highest_candidate S R (m : Top) h' :
  (forall e, e ∈ S -> 0 < Ts e /\ Data e <> None) ->
  (forall i e, e ∈ hAt h' i -> Id e = i /\ live S R e) ->
  let hi := highestOf (candidates m h') in
  if isEqual hi zeroElem then (forall i e, e ∈ hAt h' i -> m !! i = None -> False)
  else hi ∈ hAt h' (Id hi) /\ m !! Id hi = None /\ 0 < Ts hi /\ Data hi <> None /\
       (forall i e, e ∈ hAt h' i -> m !! i = None -> ~ above e hi).
Proof.
  intros HS Hh hi. assert (Hd : Forall dated (candidates m h')).
  { apply Forall_forall. intros e (i & He & _)%elem_of_candidates.
    apply HS. by destruct (Hh i e He) as [_ [? _]]. }
  destruct (decide (candidates m h' = [])) as [Hnil|Hne].
  - unfold hi. rewrite Hnil. simpl. intros i e He Hi.
    apply (not_elem_of_nil e). rewrite <- Hnil. apply elem_of_candidates. by exists i.
  - destruct (highestOf_ok _ Hd Hne) as [Hin Hmax]. fold hi in Hin, Hmax.
    rewrite Forall_forall in Hd. rewrite isEqual_zero by by apply Hd.
    apply elem_of_candidates in Hin as (i & Hhi & Hi). destruct (Hh i hi Hhi) as [<- [HinS _]].
    repeat split; try done; try by apply HS.
    intros j e He Hj. apply Hmax, elem_of_candidates. by exists j.
Qed.

Lemma removeElem_inv S R inAll crdt id clk :
  cinv D S R crdt -> dom clk = D -> clean S R id clk ->
  let '(crdt', _, _) := removeElem inAll crdt id clk in
  cinv D S (R ++ [(id, clk)]) crdt' /\ maxElems crdt' = maxElems crdt.
Proof.
  intros [Hn HI Hr Hs] Hclk Hclean. unfold removeElem.
  change (if decide _ then delete id (notInTop _) else _) with (afterRemove (notInTop crdt) id clk).
  set (r' := <[id := _]> (rems crdt)).
  assert (Hr' : rems_ok D (R ++ [(id, clk)]) r') by by apply rems_ok_remove.
  destruct (elems (set_rems r' crdt) !! id) as [elem|] eqn:E; simpl in E.
  2:{ split; [|done]. split; try done. simpl. apply inv_remove_none; try done. intros e He. by simplify_eq. }
  destruct (decide (covers clk elem)) as [Hc|Hc].
  2:{ rewrite bool_decide_eq_false_2 by exact Hc. split; [|done]. split; try done. simpl.
      apply inv_remove_none; try done. intros e He. by simplify_eq. }
  rewrite bool_decide_eq_true_2 by exact Hc.
  assert (Hh : hAt (notInTop crdt) id ∖ filter (covers clk) (hAt (notInTop crdt) id) = ∅)
    by by eapply hidden_removed.
  assert (Hsz : Z.of_nat (size (delete id (elems crdt))) = Z.of_nat (size (elems crdt)) - 1)
    by by eapply size_removed.
  assert (Halone : (forall l, live S (R ++ [(id, clk)]) l ->
                      delete id (elems crdt) !! Id l = None -> False) ->
    cinv D S (R ++ [(id, clk)])
      (set_sorted None (set_top (if isEqual elem (smallestScore crdt)
         then findMin (delete id (elems crdt)) else smallestScore crdt)
         (delete id (elems crdt)) (afterRemove (notInTop crdt) id clk) (set_rems r' crdt)))).
  { intros Hnone. split; try done. simpl. eapply inv_remove_alone; try done. by eapply is_min_removed. }
  assert (Hidl : forall l, live S (R ++ [(id, clk)]) l -> delete id (elems crdt) !! Id l = None ->
    elems crdt !! Id l = None).
  { intros l Hl Hnone. rewrite lookup_delete_ne in Hnone; [done|].
    assert (Id l <> id) by by eapply live_remove_ne. congruence. }
  cbn [elems set_rems maxElems smallestScore set_top].
  destruct (Z.eqb_spec (Z.of_nat (size (delete id (elems crdt)))) (maxElems crdt - 1)) as [Hz|Hz].
  - pose proof (highest_candidate S (R ++ [(id, clk)]) (delete id (elems crdt))
      (afterRemove (notInTop crdt) id clk) (inv_dated _ _ _ _ _ _ HI)
      ltac:(by eapply inv_remove_hidden)) as Hhi.
    simpl in Hhi. set (hi := highestOf _) in *. destruct (isEqual hi zeroElem).
    + split; [|done]. apply Halone. intros l Hl Hnone.
      edestruct (inv_remove_kept (maxElems crdt)) as (l' & [[Hl' _]|Hl'] & _); [done..|exact Hl| |];
        [rewrite (Hidl l Hl Hnone) in Hl'; done|by eapply Hhi].
    + destruct Hhi as (H1 & H2 & H3 & H4 & H5). rewrite withData_id by done.
      split; [|done]. split; try done. simpl.
      destruct inAll; (eapply inv_remove_promote; try done; lia).
  - destruct (decide _) as [_|Hne]; [|exfalso; apply Hne; exact Hh].
    split; [|done]. apply Halone. intros l Hl Hnone.
    destruct (inv_full _ _ _ _ _ _ HI l) as [? _]; [by apply live_remove in Hl as [? _]|auto|lia].
Qed.
End object.

(** ** Runs

    What an operation adds and removes, in the order of its loops. *)

Inductive TopEvent :=
  | Added (e : TopKElement)
  | Removed (id : Z) (clk : vclock).

Definition eventsOf (op : DownArgs) : list TopEvent :=
  match op with
  | DownstreamTopKAdd e | OptDownstreamTopKAdd e => [Added e]
  | DownstreamTopKAddAll adds opt => Added <$> (adds ++ opt)
  | DownstreamTopKRemove id clk | OptDownstreamTopKRemove id clk => [Removed id clk]
  | DownstreamTopKRemoveAll clks ids opt =>
      (fun r : nat * Z => Removed r.2 (default ∅ (clks !! (r.1 mod length clks)%nat)))
        <$> (imap pair ids ++ imap pair opt)
  | DownTopKInit _ | NoOp => []
  end.

Definition addsOf (evs : list TopEvent) : list TopKElement :=
  omap (fun ev => match ev with Added e => Some e | Removed _ _ => None end) evs.
Definition remsOf (evs : list TopEvent) : list (Z * vclock) :=
  omap (fun ev => match ev with Added _ => None | Removed id clk => Some (id, clk) end) evs.

Lemma addsOf_app l1 l2 : addsOf (l1 ++ l2) = addsOf l1 ++ addsOf l2.
Proof. apply omap_app. Qed.
Lemma remsOf_app l1 l2 : remsOf (l1 ++ l2) = remsOf l1 ++ remsOf l2.
Proof. apply omap_app. Qed.

(** The adds of a replica arrive in order, with data; clocks have the
    identifiers [D]; removes are clean. *)
Fixpoint admissible (D : gset Z) (S : list TopKElement) (R : list (Z * vclock))
    (evs : list TopEvent) : Prop :=
  match evs with
  | [] => True
  | Added e :: evs =>
      (0 < Ts e /\ Data e <> None) /\ in_order S e /\ admissible D (S ++ [e]) R evs
  | Removed id clk :: evs =>
      dom clk = D /\ clean S R id clk /\ admissible D S (R ++ [(id, clk)]) evs
  end.

(** The operations [Update] builds; optional adds are of the replica itself, at a
    time no remove knows.  The size of the top is not changed again. *)
Definition op_ok (R : list (Z * vclock)) (op : DownArgs) : Prop :=
  match op with
  | DownstreamTopKAddAll adds opt => adds ++ opt <> [] /\ forall e, e ∈ opt -> ~ gone R e
  | DownstreamTopKRemoveAll clks _ _ => clks <> []
  | DownTopKInit _ => False
  | _ => True
  end.

Fixpoint run_ok (D : gset Z) (S : list TopKElement) (R : list (Z * vclock))
    (ops : list DownArgs) : Prop :=
  match ops with
  | [] => True
  | op :: ops =>
      op_ok R op /\ admissible D S R (eventsOf op) /\
      run_ok D (S ++ addsOf (eventsOf op)) (R ++ remsOf (eventsOf op)) ops
  end.

Section runs.
Context (D : gset Z).

Lemma addsOf_Added l : addsOf (Added <$> l) = l.
Proof. induction l as [|e l IH]; simpl; [done|]. f_equal. apply IH. Qed.
Lemma remsOf_Added l : remsOf (Added <$> l) = [].
Proof. induction l as [|e l IH]; simpl; [done|]. apply IH. Qed.

Lemma admissible_app S R l1 l2 :
  admissible D S R (l1 ++ l2) <->
  admissible D S R l1 /\ admissible D (S ++ addsOf l1) (R ++ remsOf l1) l2.
Proof.
  revert S R. induction l1 as [|[e|id clk] l1 IH]; intros S R; simpl.
  - rewrite !app_nil_r. tauto.
  - rewrite IH. unfold addsOf, remsOf. simpl. rewrite <- app_assoc. simpl. tauto.
  - rewrite IH. unfold addsOf, remsOf. simpl. rewrite <- app_assoc. simpl. tauto.
Qed.

Lemma applyAddAll_loop oldTs n R l : forall S crdt effs dr,
  cinv D S R crdt -> admissible D S R (Added <$> l) ->
  (forall e, e ∈ l -> ~ gone R e) \/ (length dr + length l <= n)%nat ->
  exists crdt' effs' dr', foldM (applyAddAll_step oldTs n) (crdt, effs, dr) l = Some (crdt', effs', dr') /\
    cinv D (S ++ l) R crdt' /\ maxElems crdt' = maxElems crdt.
Proof.
  induction l as [|e l IH]; intros S crdt effs dr HI Hadm Hroom; simpl.
  { exists crdt, effs, dr. by rewrite app_nil_r. }
  destruct Hadm as (He & Hord & Hadm). rewrite withData_id by apply He.
  pose proof (addElem_inv D S R crdt oldTs e HI He Hord) as Hadd.
  destruct (addElem crdt oldTs e) as [[crdt1 eff] remsVc]. destruct Hadd as (HI1 & Hm1 & Hg).
  assert (Hgo : forall dr', ((forall x, x ∈ l -> ~ gone R x) \/ (length dr' + length l <= n)%nat) ->
    exists crdt' effs' dr'',
      foldM (applyAddAll_step oldTs n) (crdt1, effs ++ [eff], dr') l = Some (crdt', effs', dr'') /\
      cinv D (S ++ e :: l) R crdt' /\ maxElems crdt' = maxElems crdt).
  { intros dr' Hr'. destruct (IH (S ++ [e]) crdt1 (effs ++ [eff]) dr' HI1 Hadm Hr')
      as (c & ef & d & Hf & HI' & Hm). exists c, ef, d. rewrite <- app_assoc in HI'.
    split; [done|]. split; [done|congruence]. }
  destruct remsVc as [rv|]; simpl.
  - assert (Hge : gone R e) by by apply Hg.
    destruct Hroom as [Hno|Hroom]; [by destruct (Hno e (list_elem_of_here e l))|].
    simpl in Hroom. rewrite (proj2 (Nat.ltb_lt (length dr) n)) by lia. simpl. apply Hgo.
    right. rewrite length_app. simpl. lia.
  - apply Hgo. destruct Hroom as [Hno|Hroom]; [left; intros x Hx; apply Hno; by right|right].
    simpl in Hroom. lia.
Qed.

Definition removal (clks : list vclock) (r : nat * Z) : TopEvent :=
  Removed r.2 (default ∅ (clks !! (r.1 mod length clks)%nat)).

Lemma applyRemoveAll_loop clks l : clks <> [] -> forall S R crdt effs da,
  cinv D S R crdt -> admissible D S R (removal clks <$> l) ->
  exists crdt' effs' da', foldM (applyRemoveAll_step clks) (crdt, effs, da) l = Some (crdt', effs', da') /\
    cinv D S (R ++ remsOf (removal clks <$> l)) crdt' /\ maxElems crdt' = maxElems crdt.
Proof.
  intros Hclks. induction l as [|r l IH]; intros S R crdt effs da HI Hadm; simpl.
  { exists crdt, effs, da. by rewrite app_nil_r. }
  destruct Hadm as (Hd & Hclean & Hadm). unfold applyRemoveAll_step at 1.
  rewrite decide_False by done.
  assert (Hlt : (r.1 mod length clks < length clks)%nat).
  { apply Nat.mod_upper_bound. by destruct clks. }
  destruct (lookup_lt_is_Some_2 _ _ Hlt) as [clk Hclk]. rewrite Hclk in *. simpl in *.
  pose proof (removeElem_inv D S R true crdt r.2 clk HI Hd Hclean) as Hrem.
  destruct (removeElem true crdt r.2 clk) as [[crdt1 eff] out]. destruct Hrem as [HI1 Hm1].
  destruct (IH S _ crdt1 (effs ++ [eff]) (da ++ option_list out) HI1 Hadm) as (c & ef & d & Hf & HI' & Hm).
  exists c, ef, d. rewrite <- app_assoc in HI'. simpl in HI'. split; [done|]. split; [done|congruence].
Qed.

Lemma addsOf_removal clks l : addsOf (removal clks <$> l) = [].
Proof. induction l as [|e l IH]; simpl; [done|]. apply IH. Qed.

Lemma applyAdd_inv S R crdt e :
  cinv D S R crdt -> 0 < Ts e /\ Data e <> None -> in_order S e ->
  exists crdt' eff out, applyAdd crdt e = (crdt', eff, out) /\
    cinv D (S ++ [e]) R crdt' /\ maxElems crdt' = maxElems crdt.
Proof.
  intros HI He Hord. unfold applyAdd. rewrite withData_id by apply He.
  pose proof (addElem_inv D S R (set_vc (UpdatePos (vc crdt) (ReplicaID e) (Ts e)) crdt)
    (GetPos (vc crdt) (ReplicaID e)) e (cinv_vc _ _ _ _ _ HI) He Hord) as Hadd.
  destruct (addElem _ _ e) as [[crdt1 eff] remsVc]. destruct Hadd as (HI1 & Hm & _).
  by eexists _, _, _.
Qed.

Lemma applyRemove_inv S R crdt id clk :
  cinv D S R crdt -> dom clk = D -> clean S R id clk ->
  exists crdt' eff out, applyRemove crdt id clk = (crdt', eff, out) /\
    cinv D S (R ++ [(id, clk)]) crdt' /\ maxElems crdt' = maxElems crdt.
Proof.
  intros HI Hd Hc. unfold applyRemove. pose proof (removeElem_inv D S R false crdt id clk HI Hd Hc) as Hrem.
  destruct (removeElem false crdt id clk) as [[crdt1 eff] out]. destruct Hrem as [HI1 Hm].
  by eexists _, _, _.
Qed.

Lemma rmv_apply_ok S R crdt op :
  cinv D S R crdt -> op_ok R op -> admissible D S R (eventsOf op) ->
  exists crdt' eff, applyDownstream crdt op = Some (crdt', eff) /\
    cinv D (S ++ addsOf (eventsOf op)) (R ++ remsOf (eventsOf op)) crdt' /\
    maxElems crdt' = maxElems crdt.
Proof.
  intros HI Hop Hadm.
  destruct op as [e|e|adds opt|id clk|id clk|clks ids opt|n|]; simpl in *; rewrite ?app_nil_r.
  1,2: destruct Hadm as (He & Ho & _); destruct (applyAdd_inv S R crdt e HI He Ho)
    as (c & ef & out & -> & HI' & Hm); by eexists _, _.
  2,3: destruct Hadm as (Hd & Hc & _); destruct (applyRemove_inv S R crdt id clk HI Hd Hc)
    as (c & ef & out & -> & HI' & Hm); by eexists _, _.
  - destruct Hop as [Hne Hopt]. rewrite addsOf_Added, remsOf_Added, app_nil_r.
    unfold applyAddAll. destruct (head (adds ++ opt)) as [first|] eqn:Eh; [|by destruct (adds ++ opt)].
    simpl. set (crdt0 := set_vc _ crdt). rewrite foldM_app.
    rewrite fmap_app, admissible_app, addsOf_Added, remsOf_Added, app_nil_r in Hadm.
    destruct Hadm as [Ha1 Ha2].
    destruct (applyAddAll_loop (GetPos (vc crdt) (ReplicaID first)) (length adds) R adds S crdt0 [] []
      (cinv_vc _ _ _ _ _ HI) Ha1) as (c1 & ef1 & d1 & -> & HI1 & Hm1); [right; simpl; lia|]. simpl.
    destruct (applyAddAll_loop (GetPos (vc crdt) (ReplicaID first)) (length adds) R opt _ c1 ef1 d1
      HI1 Ha2) as (c2 & ef2 & d2 & -> & HI2 & Hm2); [by left|]. simpl.
    eexists c2, _. rewrite app_assoc. split; [done|]. split; [done|by rewrite Hm2, Hm1].
  - change (_ <$> (imap pair ids ++ imap pair opt)) with (removal clks <$> (imap pair ids ++ imap pair opt)) in *.
    rewrite addsOf_removal, app_nil_r. unfold applyRemoveAll.
    destruct (applyRemoveAll_loop clks (imap pair ids ++ imap pair opt) Hop S R crdt [] [] HI Hadm)
      as (c & ef & d & -> & HI' & Hm). simpl. by eexists _, _.
  - done.
  - by eexists _, _.
Qed.

Lemma run_inv ops : forall S R crdt,
  cinv D S R crdt -> run_ok D S R ops ->
  exists crdt', deliver crdt ops = Some crdt' /\ maxElems crdt' = maxElems crdt /\
    cinv D (S ++ addsOf (mjoin (eventsOf <$> ops))) (R ++ remsOf (mjoin (eventsOf <$> ops))) crdt'.
Proof.
  induction ops as [|op ops IH]; intros S R crdt HI Hrun; cbn [deliver].
  { exists crdt. simpl. by rewrite !app_nil_r. }
  destruct Hrun as (Hop & Hadm & Hrun). destruct (rmv_apply_ok S R crdt op HI Hop Hadm) as (c & ef & -> & HI1 & Hm1).
  destruct (IH _ _ c HI1 Hrun) as (c' & Hd & Hm & HI'). exists c'.
  cbn [fmap list_fmap mjoin list_join]. rewrite addsOf_app, remsOf_app, !app_assoc.
  split; [done|]. split; [congruence|done].
Qed.
End runs.

(** ** What is shown *)

(** An element without the address of its data. *)
Definition stamp (e : TopKElement) : Z * Z * Z * Z := (Id e, Score e, Ts e, ReplicaID e).

Lemma above_stamp a a' b b' : stamp a = stamp a' -> stamp b = stamp b' -> above a b <-> above a' b'.
Proof. unfold stamp, above. intros [= -> -> -> _] [= -> -> -> _]. done. Qed.

Definition same_elements {A} (l1 l2 : list A) : Prop := forall x, x ∈ l1 <-> x ∈ l2.

Lemma live_same S1 S2 R1 R2 e :
  same_elements (stamp <$> S1) (stamp <$> S2) -> same_elements R1 R2 ->
  live S1 R1 e -> exists e', live S2 R2 e' /\ stamp e' = stamp e.
Proof.
  intros HS HR [Hin Hg].
  assert (Hst : stamp e ∈ stamp <$> S2) by (apply HS, list_elem_of_fmap; by exists e).
  apply list_elem_of_fmap in Hst as (e' & Hst & Hin'). exists e'. split; [|done].
  split; [done|]. intros (clk & Hc & Hcov). apply Hg. exists clk.
  unfold stamp, covers in *. injection Hst as -> _ -> ->. split; [by apply HR|done].
Qed.

(** One inclusion of the uniqueness of the top. *)
Lemma is_top_scores n S1 S2 R1 R2 m1 m2 i e :
  0 < n -> same_elements (stamp <$> S1) (stamp <$> S2) -> same_elements R1 R2 ->
  is_top n S1 R1 m1 -> is_top n S2 R2 m2 -> m1 !! i = Some e ->
  exists e2, m2 !! i = Some e2 /\ ~ above e e2.
Proof.
  intros Hn HS HR H1 H2 He. destruct (top_live _ _ _ _ H1 i e He) as [Hid Hl].
  destruct (live_same S1 S2 R1 R2 e HS HR Hl) as (e' & Hl' & Hst).
  assert (Hid' : Id e' = i) by (unfold stamp in Hst; congruence).
  destruct (m2 !! i) as [e2|] eqn:E.
  { exists e2. split; [done|]. rewrite (above_stamp e e' e2 e2) by done.
    apply (top_best _ _ _ _ H2); [done|by rewrite Hid']. }
  exfalso. rewrite <- Hid' in E. destruct (top_rest _ _ _ _ H2 e' i e Hl' E) as [Hz _].
  assert (Hj : exists j ej, m2 !! j = Some ej /\ m1 !! j = None).
{ destruct (set_choose_or_empty (dom m2 ∖ dom m1)) as [[j Hj]|Hemp].
    - apply elem_of_difference in Hj as [[ej Hej]%elem_of_dom Hj1]. exists j, ej.
      split; [done|by apply not_elem_of_dom].
    - exfalso. assert (Hlt : (size (dom m2) < size (dom m1))%nat).
      { apply subset_size. assert (Hi1 : i ∈ dom m1) by (by apply elem_of_dom).
        assert (Hi2 : i ∉ dom m2) by (apply not_elem_of_dom; by rewrite <- Hid').
        split; [|intros Hs; apply Hi2, Hs, Hi1].
        intros x Hx. destruct (decide (x ∈ dom m1)) as [|Hx1]; [done|].
        exfalso. apply (not_elem_of_empty (C := gset Z) x). apply Hemp. by apply elem_of_difference. }
      rewrite !size_dom in Hlt. pose proof (top_size _ _ _ _ H1). lia. }
  destruct Hj as (j & ej & Hej2 & Hj1).
  destruct (top_live _ _ _ _ H2 j ej Hej2) as [Hidj Hlj].
  destruct (live_same S2 S1 R2 R1 ej) as (ej' & Hlj' & Hstj); [by intros x; rewrite (HS x)|by intros x; rewrite (HR x)|done|].
  assert (Hidj' : Id ej' = j) by (unfold stamp in Hstj; congruence).
  destruct (top_rest _ _ _ _ H1 ej' i e Hlj') as [_ Ha]; [by rewrite Hidj'|].
  specialize (Ha He). destruct (top_rest _ _ _ _ H2 e' j ej Hl' E) as [_ Hb].
  specialize (Hb Hej2). rewrite (above_stamp ej' ej e e) in Ha by done.
  rewrite (above_stamp e' e ej ej) in Hb by done.
  assert (Id e = Id ej) by (unfold above in *; lia). congruence.
Qed.

Lemma is_top_unique n S1 S2 R1 R2 m1 m2 i :
  0 < n -> same_elements (stamp <$> S1) (stamp <$> S2) -> same_elements R1 R2 ->
  is_top n S1 R1 m1 -> is_top n S2 R2 m2 -> Score <$> m1 !! i = Score <$> m2 !! i.
Proof.
  intros Hn HS HR H1 H2.
  assert (HS' : same_elements (stamp <$> S2) (stamp <$> S1)) by (intros x; by rewrite (HS x)).
  assert (HR' : same_elements R2 R1) by (intros x; by rewrite (HR x)).
  destruct (m1 !! i) as [e1|] eqn:E1.
  - destruct (is_top_scores n S1 S2 R1 R2 m1 m2 i e1) as (e2 & E2 & Ha); try done.
    destruct (is_top_scores n S2 S1 R2 R1 m2 m1 i e2) as (e1' & E1' & Hb); try done.
    rewrite E2. simpl. f_equal. assert (e1' = e1) as -> by congruence.
    unfold above in *. lia.
  - destruct (m2 !! i) as [e2|] eqn:E2; [|done].
    destruct (is_top_scores n S2 S1 R2 R1 m2 m1 i e2) as (e1 & ? & _); try done. congruence.
Qed.

(** ** Properties *)

Definition all_adds (ops : list DownArgs) : list TopKElement := addsOf (mjoin (eventsOf <$> ops)).
Definition all_removes (ops : list DownArgs) : list (Z * vclock) := remsOf (mjoin (eventsOf <$> ops)).

(** C22. The object implements its specification.  Let a replica apply adds and
    removes, single or grouped, in which the adds of one replica for an
    identifier come in order, removes are clean (one that takes the highest add
    of an identifier takes the others too) and the size is not changed
    ([run_ok]).  Then it does not panic, and what it shows is the top of the adds
    that no remove covers: one add per identifier, the highest of its
    identifier, and, when there are more identifiers than places, those of the
    highest adds.  A sorted list it keeps for its readers holds what it shows.
    A remove that leaves a lower add of its identifier, as one concurrent with
    an add does, is not clean, and then a higher add may be hidden:
    [promoted_sibling_hides_a_higher_add]. *)
Theorem top_of_the_live_adds (D : gset Z) (knownIDs : list Z) (r n : Z) (ops : list DownArgs) :
  0 < n -> run_ok D [] [] ops ->
  exists crdt, deliver (InitializeWithSize knownIDs r n) ops = Some crdt /\
    is_top n (all_adds ops) (all_removes ops) (elems crdt) /\
    forall l, sortedElems crdt = Some l -> l ≡ₚ getState crdt.
Proof.
  intros Hn Hrun.
  destruct (run_inv D ops [] [] _ (cinv_init D knownIDs r n Hn) Hrun) as (crdt & Hd & Hm & HI).
  exists crdt. split; [done|]. split; [|apply HI].
  pose proof (cinv_top _ _ _ _ HI) as Ht. rewrite Hm in Ht. by apply (inv_is_top n Hn) in Ht.
Qed.

Definition ex_elem (i s t : Z) : TopKElement := mkElem i s t 1 (Some (mkPtr t [])).
Definition ex_run : list DownArgs :=
  [DownstreamTopKAdd (ex_elem 7 10 1); DownstreamTopKAddAll [ex_elem 8 5 2; ex_elem 9 6 2] [];
   DownstreamTopKRemove 7 {[1 := 2]}].

Lemma ex_run_ok : run_ok {[1]} [] [] ex_run.
Proof.
  unfold ex_run. simpl.
  repeat match goal with
         | |- _ /\ _ => split
         | |- in_order _ _ => intros e He ? ?; simpl in *; set_solver
         end; try done; try (intros e He; set_solver).
  all: try (intros e He Hid Hrep; simpl in *;
    repeat (apply elem_of_cons in He as [->|He]; [simpl in *; lia|]); by apply elem_of_nil in He).
  intros a b [Ha _] _ Hida _ _ Hnc. exfalso. apply Hnc. clear b. simpl in Ha.
  repeat (apply elem_of_cons in Ha as [->|Ha]; [unfold covers, GetPos; simpl in *; done|]).
  by apply elem_of_nil in Ha.
Qed.

Lemma top_of_the_live_adds_witness :
  exists crdt, deliver (InitializeWithSize [1] 1 2) ex_run = Some crdt /\
    is_top 2 (all_adds ex_run) (all_removes ex_run) (elems crdt) /\
    forall l, sortedElems crdt = Some l -> l ≡ₚ getState crdt.
Proof. apply (top_of_the_live_adds {[1]}); [lia|apply ex_run_ok]. Defined.

(** C24. Replicas that applied the same adds and removes, each in its own order
    and grouping, show the same identifiers with the same scores, when at each
    of them the adds of one replica for an identifier came in order, removes
    were clean (one that takes the highest add of an identifier takes the
    others too) and the size was not changed ([run_ok]); replicas may diverge
    after a remove that is concurrent with an add of its identifier. *)
Theorem replicas_show_the_same_top (D : gset Z) (ids1 ids2 : list Z) (r1 r2 n : Z)
    (ops1 ops2 : list DownArgs) :
  0 < n -> run_ok D [] [] ops1 -> run_ok D [] [] ops2 ->
  same_elements (stamp <$> all_adds ops1) (stamp <$> all_adds ops2) ->
  same_elements (all_removes ops1) (all_removes ops2) ->
  exists crdt1 crdt2, deliver (InitializeWithSize ids1 r1 n) ops1 = Some crdt1 /\
    deliver (InitializeWithSize ids2 r2 n) ops2 = Some crdt2 /\
    forall i, Score <$> elems crdt1 !! i = Score <$> elems crdt2 !! i.
Proof.
  intros Hn H1 H2 HS HR.
  destruct (run_inv D ops1 [] [] _ (cinv_init D ids1 r1 n Hn) H1) as (c1 & Hd1 & Hm1 & HI1).
  destruct (run_inv D ops2 [] [] _ (cinv_init D ids2 r2 n Hn) H2) as (c2 & Hd2 & Hm2 & HI2).
  exists c1, c2. split; [done|]. split; [done|]. intros i.
  pose proof (cinv_top _ _ _ _ HI1) as Ht1. pose proof (cinv_top _ _ _ _ HI2) as Ht2.
  rewrite Hm1 in Ht1. rewrite Hm2 in Ht2.
  apply (inv_is_top n Hn) in Ht1, Ht2. by apply (is_top_unique n _ _ _ _ _ _ i Hn HS HR).
Qed.

Definition ex_run2 : list DownArgs :=
  [DownstreamTopKRemove 7 {[1 := 2]};
   DownstreamTopKAddAll [ex_elem 7 10 1; ex_elem 9 6 2; ex_elem 8 5 2] []].

Lemma ex_run2_ok : run_ok {[1]} [] [] ex_run2.
Proof.
  unfold ex_run2. simpl.
  repeat match goal with |- _ /\ _ => split end; try done; try (intros e He; set_solver).
  intros a b [Ha _] _ _ _ _ _. by apply elem_of_nil in Ha.
Qed.

Lemma replicas_show_the_same_top_witness :
  exists crdt1 crdt2, deliver (InitializeWithSize [1] 1 2) ex_run = Some crdt1 /\
    deliver (InitializeWithSize [1] 1 2) ex_run2 = Some crdt2 /\
    forall i, Score <$> elems crdt1 !! i = Score <$> elems crdt2 !! i.
Proof.
  apply (replicas_show_the_same_top {[1]}); [lia|apply ex_run_ok|apply ex_run2_ok| |].
  - intros x. change (x ∈ [(7, 10, 1, 1); (8, 5, 2, 1); (9, 6, 2, 1)] <->
                      x ∈ [(7, 10, 1, 1); (9, 6, 2, 1); (8, 5, 2, 1)]).
    rewrite !elem_of_cons. tauto.
  - done.
Defined.

(** With room in the top, an add whose score is below the lowest one shown is
    not sent to the other replicas, although this replica shows it: the object
    only compares it with the lowest score, not with the free places. *)
Theorem low_adds_stay_local (crdt : TopKRmvCrdt) (s : TopKScore) :
  elems crdt !! S_Id s = None -> rems crdt !! S_Id s = None ->
  Z.of_nat (size (elems crdt)) < maxElems crdt ->
  0 < Ts (smallestScore crdt) -> S_Score s < Score (smallestScore crdt) ->
  let '(op, crdt) := Update crdt (TopKAdd s) in
  MustReplicate op = false /\
  exists crdt' eff e, applyDownstream crdt op = Some (crdt', eff) /\
    elems crdt' !! S_Id s = Some e /\ Score e = S_Score s.
Proof.
  intros He Hr Hroom Hts Hlow. cbn [Update]. unfold getTopKAddDownstreamArgs, localElem.
  destruct (orEmpty _ _) as [data next] eqn:Ed.
  set (crdt1 := set_next next _). set (new := mkElem _ _ _ _ data).
  assert (Hd : Data new <> None).
  { unfold orEmpty in Ed. destruct (S_Data s); injection Ed as <- <-; done. }
  assert (Hh : isHigher new (smallestScore crdt) = false).
  { apply isHigher_not_above; [done|]. unfold above. simpl. lia. }
  assert (Hopt : toReplicate crdt1 new = false).
  { unfold toReplicate. simpl. by rewrite He. }
  rewrite Hopt. split; [done|]. cbn [applyDownstream rmv_inversible rmv_applyDownstream].
  unfold applyAdd. rewrite withData_id by done. unfold addElem. simpl.
  rewrite Hr, He, (proj2 (Z.ltb_lt _ _) Hroom).
  destruct (isEqual _ zeroElem || _); simpl; eexists _, _, new;
    (split; [done|]; split; [apply lookup_insert_eq|done]).
Qed.

Definition ex_low : TopKRmvCrdt :=
  default (InitializeWithSize [1] 1 3)
    (deliver (InitializeWithSize [1] 1 3) [DownstreamTopKAdd (ex_elem 7 10 1)]).

Lemma low_adds_stay_local_witness :
  let '(op, crdt) := Update ex_low (TopKAdd (mkScore 8 5 None)) in
  MustReplicate op = false /\
  exists crdt' eff e, applyDownstream crdt op = Some (crdt', eff) /\
    elems crdt' !! 8 = Some e /\ Score e = 5.
Proof. apply (low_adds_stay_local ex_low (mkScore 8 5 None)); vm_compute; done. Defined.

(** ** Removes with concurrent adds

    The two runs below are not clean: replica 2 adds for an identifier while
    replica 1 removes it.  [smallestScore] is then not the lowest entry, and a
    lower element is shown instead of a higher one. *)

Definition ex2 (i s t r : Z) : TopKElement := mkElem i s t r (Some (mkPtr t [])).

Definition shown (n : Z) (ops : list DownArgs) : list (Z * Z) :=
  match deliver (InitializeWithSize [1; 2] 1 n) ops with
  | Some crdt => (fun e => (Id e, Score e)) <$> values (elems crdt)
  | None => []
  end.

(** A full top: the next add of the removed identifier becomes the minimum
    although it is above the other entry; the add of 6 for 9 stays out. *)
Lemma promoted_sibling_hides_a_higher_add :
  shown 2 [DownstreamTopKAdd (ex2 7 10 1 1); DownstreamTopKAdd (ex2 7 8 1 2);
           DownstreamTopKAdd (ex2 8 5 2 1); DownstreamTopKRemove 7 {[1 := 2; 2 := 0]};
           DownstreamTopKAdd (ex2 9 6 3 1)] = [(7, 8); (8, 5)].
Proof. vm_compute. reflexivity. Qed.

(** A top with room: the entry promoted is the lowest, and the minimum is not
    updated; the add of 6 for 10 takes the place of the 5, not of the 3. *)
Lemma promoted_sibling_is_not_the_minimum :
  shown 3 [DownstreamTopKAdd (ex2 7 10 1 1); DownstreamTopKAdd (ex2 7 3 1 2);
           DownstreamTopKAdd (ex2 8 5 2 1); DownstreamTopKRemove 7 {[1 := 2; 2 := 0]};
           DownstreamTopKAdd (ex2 9 7 3 1); DownstreamTopKAdd (ex2 10 6 4 1)] =
  [(7, 3); (9, 7); (10, 6)].
Proof. vm_compute. reflexivity. Qed.

(** ** Undoing *)

Lemma delHidden_addHidden e h :
  h !! Id e <> Some ∅ -> e ∉ hAt h (Id e) -> delHidden (Id e) e (addHidden e h) = h.
Proof.
  intros Hne He. unfold delHidden, addHidden, hAt in *. rewrite lookup_insert_eq. simpl.
  assert (E : ({[e]} ∪ default ∅ (h !! Id e)) ∖ {[e]} = default ∅ (h !! Id e)) by set_solver.
  rewrite E. destruct (h !! Id e) as [s|] eqn:Es; simpl in *.
  - rewrite decide_False by congruence. rewrite insert_insert_eq. by apply insert_id.
  - rewrite decide_True by done. rewrite delete_insert_eq. by apply delete_id.
Qed.

Lemma GetPos_restored v r t i :
  GetPos (UpdateForcedPos (UpdatePos v r t) r (GetPos v r)) i = GetPos v i.
Proof.
  unfold UpdateForcedPos, UpdatePos. rewrite GetPos_insert. case_decide as E; [by subst|].
  case_match; [|done]. rewrite GetPos_insert. by rewrite decide_False.
Qed.

(** What undoing gives back; the clock of the object is separate. *)
Definition same_top (crdt old : TopKRmvCrdt) : Prop :=
  elems old = elems crdt /\ smallestScore old = smallestScore crdt /\
  notInTop old = notInTop crdt /\ rems old = rems crdt.

Lemma undo_replace crdt old_vc new elem m h s oldTs :
  elems crdt !! Id new = Some elem -> 0 < Ts elem -> Id elem = Id new ->
  h = notInTop crdt \/ h = addHidden elem (notInTop crdt) ->
  (forall i, notInTop crdt !! i <> Some ∅) -> elem ∉ hAt (notInTop crdt) (Id elem) ->
  m = <[Id new := new]> (elems crdt) ->
  same_top crdt (undo (set_sorted None (set_top s m h (set_vc old_vc crdt)))
    (TopKRmvReplaceEffect new elem (smallestScore crdt) oldTs)).
Proof.
  intros E Hts Hid Hh Hne Hni ->. cbn [undo]. rewrite isEqual_zero by done. split; [|split; [done|split; [|done]]].
  - simpl. rewrite delete_insert_eq, Hid, insert_delete_eq. by apply insert_id.
  - simpl. destruct Hh as [->| ->].
    + destruct (notInTop crdt !! Id elem) as [x|] eqn:Ex; [|done].
      unfold delHidden. rewrite Ex. simpl.
      assert (Hx : x ∖ {[elem]} = x) by (unfold hAt in Hni; rewrite Ex in Hni; simpl in Hni; set_solver).
      rewrite Hx. rewrite decide_False by (intros ->; by apply (Hne (Id elem))). by apply insert_id.
    + assert (Hs : is_Some (addHidden elem (notInTop crdt) !! Id elem))
        by (unfold addHidden; rewrite lookup_insert_eq; by eexists).
      destruct Hs as [x ->]. by apply delHidden_addHidden.
Qed.

(** Undoing the effect of an add that was not refused gives back the
    elements shown, their minimum, the hidden elements and the removes. *)
Theorem undo_takes_an_add_back (D : gset Z) (S : list TopKElement) (R : list (Z * vclock))
    (crdt : TopKRmvCrdt) (e : TopKElement) :
  cinv D S R crdt -> 0 < Ts e -> Data e <> None -> ~ gone R e ->
  (forall x, x = e \/ elems crdt !! Id x = Some x -> x ∉ hAt (notInTop crdt) (Id x)) ->
  let '(crdt', eff, out) := applyAdd crdt e in
  out = None /\ same_top crdt (undo crdt' eff) /\
  forall i, GetPos (vc (undo crdt' eff)) i = GetPos (vc crdt) i.
Proof.
  intros [Hn HI Hr _] Hts Hd Hg Hfresh. unfold applyAdd. rewrite withData_id by done. unfold addElem.
  cbn [rems elems smallestScore notInTop maxElems set_vc].
  assert (Hcov : match rems crdt !! Id e with
    | Some remsVc => if GetPos remsVc (ReplicaID e) <? Ts e then None else Some remsVc
    | None => None end = None).
  { destruct (rems crdt !! Id e) as [c|] eqn:Ec; [|done].
    destruct (Z.ltb_spec (GetPos c (ReplicaID e)) (Ts e)); [done|]. exfalso. apply Hg.
    apply (proj2 Hr). exists c. by split. }
  rewrite Hcov. assert (Hne := inv_nonempty _ _ _ _ _ _ HI). assert (Hk := inv_keyed _ _ _ _ _ _ HI).
  assert (Hnew : e ∉ hAt (notInTop crdt) (Id e)) by (apply Hfresh; by left).
  assert (Hhid : forall v s, same_top crdt (undo (set_top (smallestScore crdt) (elems crdt)
      (addHidden e (notInTop crdt)) (set_vc v crdt)) (TopKRmvAddNotTopEffect e s))).
  { intros v s. split; [done|]. split; [done|]. split; [by apply delHidden_addHidden|done]. }
  destruct (elems crdt !! Id e) as [elem|] eqn:E.
  - destruct (Hk _ _ E) as [Hid Ht]. destruct (isHigher e elem); split; try done.
    + split; [|intros i; simpl; rewrite isEqual_zero by done; apply GetPos_restored].
      eapply undo_replace; try done.
      * destruct (_ =? _); [by left|by right].
      * apply Hfresh. right. by rewrite Hid.
    + split; [apply Hhid|]. intros i. apply GetPos_restored.
  - destruct (Z.ltb_spec (Z.of_nat (size (elems crdt))) (maxElems crdt)) as [Hroom|Hfull].
    { assert (Hdel : delete (Id e) (<[Id e := e]> (elems crdt)) = elems crdt)
        by (rewrite delete_insert_eq; by apply delete_id).
      destruct (isEqual _ zeroElem || _); (split; [done|split; [|intros i; apply GetPos_restored]]);
        (split; [exact Hdel|done]). }
    assert (Hz : Z.of_nat (size (elems crdt)) = maxElems crdt)
      by (pose proof (inv_size _ _ _ _ _ _ HI); lia).
    destruct (inv_nonempty_min _ _ _ _ _ _ HI) as (Hsm & Hst & _); [by eapply (inv_full_nonempty _ Hn)|].
    destruct (isHigher e (smallestScore crdt)); (split; [done|]).
    + split; [|intros i; simpl; rewrite isEqual_zero by done; apply GetPos_restored].
      cbn [undo]. rewrite isEqual_zero by done. split; [|split; [done|split; [|done]]].
      * simpl. rewrite delete_insert_eq, (delete_id _ (Id e)) by (apply lookup_delete_None; by right).
        rewrite insert_delete_eq. by apply insert_id.
      * simpl. assert (Hs : is_Some (addHidden (smallestScore crdt) (notInTop crdt) !! Id (smallestScore crdt)))
          by (unfold addHidden; rewrite lookup_insert_eq; by eexists).
        destruct Hs as [x ->]. apply delHidden_addHidden; [done|]. apply Hfresh. by right.
    + split; [apply Hhid|]. intros i. apply GetPos_restored.
Qed.

Lemma undo_takes_an_add_back_witness :
  let crdt := InitializeWithSize [1] 1 2 in
  let '(crdt', eff, out) := applyAdd crdt (ex_elem 7 10 1) in
  out = None /\ same_top crdt (undo crdt' eff) /\
  forall i, GetPos (vc (undo crdt' eff)) i = GetPos (vc crdt) i.
Proof.
  apply (undo_takes_an_add_back {[1]} [] [] (InitializeWithSize [1] 1 2) (ex_elem 7 10 1)).
  - by apply cinv_init.
  - done.
  - done.
  - intros (c & Hc & _). by apply elem_of_nil in Hc.
  - intros x _. unfold hAt. simpl. set_solver.
Defined.

(** A remove that promoted another element of its identifier: undoing it deletes
    the element it had just put back, so an old version lacks the identifier. *)
Lemma undo_of_a_remove_loses_the_element :
  match deliver (InitializeWithSize [1; 2] 1 1)
          [DownstreamTopKAdd (ex2 7 10 1 1); DownstreamTopKAdd (ex2 7 8 1 2)] with
  | Some crdt =>
      let '(crdt', eff, _) := applyRemove crdt 7 {[1 := 1; 2 := 0]} in
      (elems crdt !! 7, elems (undo crdt' eff) !! 7) = (Some (ex2 7 10 1 1), None)
  | None => False
  end.
Proof. vm_compute. reflexivity. Qed.

(** The effects of a group are undone in the order they were recorded: the first
    add of an identifier is back in the top. *)
Lemma undo_of_a_group_keeps_an_add :
  let crdt := InitializeWithSize [1] 1 2 in
  match applyAddAll crdt [ex_elem 7 5 1; ex_elem 7 10 1] [] with
  | Some (crdt', eff, _) => elems (undo crdt' eff) !! 7 = Some (ex_elem 7 5 1)
  | None => False
  end.
Proof. vm_compute. reflexivity. Qed.

(** A group of no adds, as a client may send, panics when it is applied. *)
Lemma empty_group_panics knownIDs r n :
  let '(op, crdt) := Update (InitializeWithSize knownIDs r n) (TopKAddAll []) in
  applyDownstream crdt op = None.
Proof. reflexivity. Qed.

(** ** Messages *)

(** An operation sent to another replica arrives with the same elements,
    identifiers and clocks; its optional part is left behind. *)
Theorem rmv_message_round_trip (next : Z) (op : DownArgs) :
  MustReplicate op = true ->
  (forall e, e ∈ addsOf (eventsOf op) -> Data e <> None /\ inS 16 (ReplicaID e)) ->
  match op with
  | DownstreamTopKRemove _ clk => clock_ok clk
  | DownstreamTopKRemoveAll clks _ _ => clks <> [] /\ Forall clock_ok clks
  | _ => True
  end ->
  exists p op', ToReplicatorObj op = Some p /\ FromReplicatorObj next p = Some op' /\
    match op with
    | DownstreamTopKAddAll adds _ => stamp <$> addsOf (eventsOf op') = stamp <$> adds
    | DownstreamTopKRemoveAll clks ids _ =>
        eventsOf op' = removal clks <$> imap pair ids
    | DownTopKInit n => op' = op
    | _ => stamp <$> addsOf (eventsOf op') = stamp <$> addsOf (eventsOf op) /\
           remsOf (eventsOf op') = remsOf (eventsOf op)
    end.
Proof.
  intros Hmust Hdata Hclks.
  assert (Hfrom : forall e p nx, (Data e <> None /\ inS 16 (ReplicaID e)) -> elemToProto e = Some p ->
    stamp (elemFromProto nx p) = stamp e).
  { intros [i s t r [d|]] p nx [Hd Hr] Hp; simpl in *; [|done]. injection Hp as <-.
    unfold stamp. simpl. by rewrite wrapS_id. }
  assert (Hlist : forall l, (forall e, e ∈ l -> Data e <> None /\ inS 16 (ReplicaID e)) ->
    exists ps, mapM elemToProto l = Some ps /\ length ps = length l /\
      forall nx, stamp <$> elemsFromProto nx ps = stamp <$> l).
  { induction l as [|e l IH]; intros Hl; [by exists []|].
    destruct IH as (ps & Hps & Hlen & Hst); [intros; apply Hl; by right|].
    destruct (Hl e) as [Hd Hr]; [left|]. destruct (elemToProto e) as [p|] eqn:Ep;
      [|unfold elemToProto in Ep; by destruct (Data e)].
    exists (p :: ps). cbn [mapM]. rewrite Ep. simpl. rewrite Hps. simpl.
    split; [done|]. split; [by rewrite Hlen|]. intros nx.
    unfold elemsFromProto. simpl. f_equal; [by apply Hfrom|].
    etransitivity; [|apply (Hst (nx + 1))]. f_equal. unfold elemsFromProto. apply imap_ext.
    intros i x _. unfold compose. simpl. f_equal. lia. }
  destruct op as [e|e|adds opt|id clk|id clk|clks ids opt|n|]; try done; simpl in *.
  - destruct (Hdata e) as [Hd Hr]; [left|]. destruct (elemToProto e) as [p|] eqn:Ep;
      [|unfold elemToProto in Ep; by destruct (Data e)].
    eexists _, _. split; [done|]. split; [done|]. simpl. split; [|done]. by erewrite Hfrom.
  - destruct (Hlist adds) as (ps & Hps & Hlen & Hst).
    { intros e He. apply Hdata. rewrite addsOf_Added. apply elem_of_app. by left. }
    rewrite Hps. simpl. destruct ps as [|p [|p' ps]]; simpl in *; [by rewrite <- Hlen in Hmust| |].
    + eexists _, _. split; [done|]. split; [done|]. simpl. specialize (Hst next).
      unfold elemsFromProto in Hst. simpl in Hst. by rewrite <- Hst.
    + eexists _, _. split; [done|]. split; [done|]. cbn [eventsOf].
      rewrite app_nil_r, addsOf_Added. apply (Hst next).
  - eexists _, _. split; [done|]. split; [done|]. simpl. by rewrite clock_bytes.
  - destruct Hclks as [Hne Hclks]. assert (Hmap : FromBytes <$> (ToBytes <$> clks) = clks).
    { clear -Hclks. induction Hclks as [|c clks Hc _ IH]; [done|].
      cbn. f_equal; [by apply clock_bytes|exact IH]. }
    destruct clks as [|c clks]; [done|]. destruct ids as [|i [|i' ids]]; [done| |].
    + eexists _, _. split; [done|]. split; [done|]. simpl. unfold removal.
      rewrite Nat.Div0.mod_0_l. simpl. inversion Hclks. by rewrite clock_bytes.
    + exists (P_Rems (i :: i' :: ids) (ToBytes <$> (c :: clks))),
        (DownstreamTopKRemoveAll (c :: clks) (i :: i' :: ids) []).
      split; [done|]. split; [cbn [FromReplicatorObj]; by rewrite Hmap|].
      cbn [eventsOf]. by rewrite app_nil_r.
  - by eexists _, _.
Qed.

Definition ex_removeAll : DownArgs := DownstreamTopKRemoveAll [{[1 := 4]}] [7; 8] [9].

Lemma rmv_message_round_trip_witness :
  exists p op', ToReplicatorObj ex_removeAll = Some p /\ FromReplicatorObj 9 p = Some op' /\
    eventsOf op' = removal [{[1 := 4]}] <$> imap pair [7; 8].
Proof.
  apply (rmv_message_round_trip 9 ex_removeAll); [done| |].
  - intros e He. by apply elem_of_nil in He.
  - split; [done|]. constructor; [|constructor]. split; [done|].
    apply map_Forall_singleton. done.
Defined.
