(* ===== verification/ReplicatorProto.v ===== *)
(** * The messages between replicas: replicatorProtoLib.go (src/potionDB/components)

    Transactions as protocol buffer messages and back.  How an object's
    operation is written and read is the object's own ([DownstreamCodec]; the
    files of the objects model it); a message whose operations are read back as
    they were is [sendable].  Bytes of strings are the strings.  The bytes of a
    whole message are made by the protocol buffer library, in file RemoteConn. *)

From S2P Require Import Prelude ClockSI ClockCodec Keys PartitionClock Logger Replicator.
From Stdlib Require Import ZArith Lia Bool.
From stdpp Require Import base tactics numbers strings gmap sorting list.
#[local] Open Scope Z_scope.

(** [ToReplicatorObj] of the operations and [DownstreamProtoToAntidoteDownstream]. *)
Class DownstreamCodec (Upd POp : Type) := {
  ToReplicatorObj : Upd -> POp;
  DownstreamProtoToAntidoteDownstream : POp -> Z -> Upd
}.

Record ProtoDownstreamUpd (POp : Type) := mkProtoUpd { KeyParams_ : KeyParams; Op : POp }.
Arguments mkProtoUpd {POp}. Arguments KeyParams_ {POp}. Arguments Op {POp}.

Record ProtoNewRemoteTxn (POp : Type) := mkProtoPart {
  PartitionID : Z; p_Upds : list (ProtoDownstreamUpd POp) }.
Arguments mkProtoPart {POp}. Arguments PartitionID {POp}. Arguments p_Upds {POp}.

Record ProtoReplicateTxn (POp : Type) := mkProtoTxn {
  p_SenderID : Z; Timestamp_ : list Z; Part : list (ProtoNewRemoteTxn POp); p_TxnID : Z }.
Arguments mkProtoTxn {POp}. Arguments p_SenderID {POp}. Arguments Timestamp_ {POp}.
Arguments Part {POp}. Arguments p_TxnID {POp}.

Record ProtoReplicateGroupTxn (POp : Type) := mkProtoGroup {
  pg_SenderID : Z; pg_Txns : list (ProtoReplicateTxn POp); pg_MinTxnID : Z; pg_MaxTxnID : Z }.
Arguments mkProtoGroup {POp}. Arguments pg_SenderID {POp}. Arguments pg_Txns {POp}.
Arguments pg_MinTxnID {POp}. Arguments pg_MaxTxnID {POp}.

Record ProtoStableClock := mkProtoClk { pc_SenderID : Z; ReplicaTs : Z }.
Record StableClock := mkStable { sc_SenderID : Z; Ts : Z }.

Section proto.
Context {Upd POp : Type} `{Codec : DownstreamCodec Upd POp}.
Abbreviation updates := (list (UpdateObjectParams Upd)).

Definition createProtoStableClock (replicaID ts : Z) : ProtoStableClock := mkProtoClk replicaID ts.

Definition createProtoDownstreamUpds (upds : updates) : list (ProtoDownstreamUpd POp) :=
  (fun upd => mkProtoUpd (upd_key upd) (ToReplicatorObj (UpdateArgs upd))) <$> upds.

Definition createProtoNewRemoteTxn (partID : Z) (upds : updates) : ProtoNewRemoteTxn POp :=
  mkProtoPart partID (createProtoDownstreamUpds upds).

Definition createProtoReplicateTxn (replicaID : Z) (clk : vclock) (upds : gmap Z updates)
    (txnCount : Z) : ProtoReplicateTxn POp :=
  mkProtoTxn replicaID (ToBytes clk)
    ((fun '(partID, partUpds) => createProtoNewRemoteTxn partID partUpds) <$> map_to_list upds)
    txnCount.

(** [None]: no transactions, [allTxns[0]] panics. *)
Definition createProtoReplicateGroupTxn (replicaID : Z) (allTxns bucketOps : list (RemoteTxn Upd))
  : option (ProtoReplicateGroupTxn POp) :=
  firstTxn ← head allTxns; lastTxn ← last allTxns;
  Some (mkProtoGroup replicaID
          ((fun txn => createProtoReplicateTxn replicaID (Clk txn) (Upds txn) (TxnID txn)) <$> bucketOps)
          (TxnID firstTxn) (TxnID lastTxn)).

Definition protoToStableClock (p : ProtoStableClock) : StableClock :=
  mkStable (int16 (pc_SenderID p)) (ReplicaTs p).

Definition protoToDownstreamUpds (l : list (ProtoDownstreamUpd POp)) : updates :=
  (fun p => mkUpd (KeyParams_ p)
              (DownstreamProtoToAntidoteDownstream (Op p) (CrdtType (KeyParams_ p)))) <$> l.

Definition protoToPartitionUpds (p : ProtoNewRemoteTxn POp) : updates * Z :=
  (protoToDownstreamUpds (p_Upds p), PartitionID p).

Definition protoToRemoteTxn (p : ProtoReplicateTxn POp) : RemoteTxn Upd :=
  mkRemoteTxn (int16 (p_SenderID p)) (FromBytes (Timestamp_ p))
    (foldl (fun upds protoPart =>
              let '(partUpds, partID) := protoToPartitionUpds protoPart in
              <[partID := partUpds]> upds) ∅ (Part p))
    (p_TxnID p).

Definition protoToRemoteTxnGroup (p : ProtoReplicateGroupTxn POp) : RemoteTxnGroup Upd :=
  mkRemoteGroup (int16 (pg_SenderID p)) (protoToRemoteTxn <$> pg_Txns p)
    (pg_MinTxnID p) (pg_MaxTxnID p).

(** ** Round trips *)

Definition sendable (upd : UpdateObjectParams Upd) : Prop :=
  DownstreamProtoToAntidoteDownstream (ToReplicatorObj (UpdateArgs upd)) (CrdtType (upd_key upd)) =
  UpdateArgs upd.

Definition sendable_upds (upds : gmap Z updates) : Prop :=
  map_Forall (fun _ l => Forall sendable l) upds.

Lemma protoToDownstreamUpds_create l :
  Forall sendable l -> protoToDownstreamUpds (createProtoDownstreamUpds l) = l.
Proof.
  intros Hl. unfold protoToDownstreamUpds, createProtoDownstreamUpds.
  rewrite <- list_fmap_compose. rewrite <- (list_fmap_id l) at 2.
  apply list_fmap_ext. intros i [k u] Hi. rewrite Forall_lookup in Hl. specialize (Hl i _ Hi).
  unfold sendable in Hl. simpl in *. by rewrite Hl.
Qed.

Lemma foldl_parts (l : list (Z * updates)) (m : gmap Z updates) :
  NoDup l.*1 -> Forall (fun e => Forall sendable e.2) l ->
  foldl (fun upds protoPart =>
           let '(partUpds, partID) := protoToPartitionUpds protoPart in
           <[partID := partUpds]> upds) m
    ((fun '(partID, partUpds) => createProtoNewRemoteTxn partID partUpds) <$> l) =
  list_to_map l ∪ m.
Proof.
  revert m. induction l as [|[i u] l IH]; intros m Hnd Hl; simpl; [by rewrite map_empty_union|].
  apply NoDup_cons in Hnd as [Hi Hnd]. apply Forall_cons in Hl as [Hu Hl]. simpl in *.
  rewrite IH by done. rewrite protoToDownstreamUpds_create by done.
  rewrite <- insert_union_r, insert_union_l; [done|]. by apply not_elem_of_list_to_map_1.
Qed.

Lemma protoToRemoteTxn_create (self : Z) (t : RemoteTxn Upd) :
  inS 16 self -> clock_ok (Clk t) -> sendable_upds (Upds t) ->
  protoToRemoteTxn (createProtoReplicateTxn self (Clk t) (Upds t) (TxnID t)) =
  mkRemoteTxn self (Clk t) (Upds t) (TxnID t).
Proof.
  intros Hs Hc Hu. unfold protoToRemoteTxn, createProtoReplicateTxn. simpl.
  rewrite wrapS_id, clock_bytes by done. f_equal.
  rewrite foldl_parts; [by rewrite list_to_map_to_list, map_union_empty|apply NoDup_fst_map_to_list|].
  apply Forall_forall. intros [i u] Hin%elem_of_map_to_list. by apply (Hu i).
Qed.

End proto.
