(* ===== verification/RemoteConn.v ===== *)
(** * Connections between replicas: remoteConnection.go (src/potionDB/components)

    A replica publishes its transactions to its own message broker: one message
    per bucket a transaction, or a group of them, writes to, so that the others
    receive only the buckets they hold.  A receiver keeps the messages of a
    transaction until something else arrives, a stable clock or a message of
    another transaction, and puts them together again.

    The broker and the encoding of protocol buffers are other people's code:
    [Marshal] and [Unmarshal] are parameters ([Protobuf]).  The goroutines that
    encode messages answer in any order: their answers are an argument.  [None]
    is a panic or an exit of the process. *)

From S2P Require Import Prelude ClockSI ClockCodec Keys PartitionClock Logger Replicator.
From S2P Require Import ReplicatorProto.
From Stdlib Require Import ZArith Lia Bool.
From stdpp Require Import base tactics numbers strings gmap sorting list.
#[local] Open Scope Z_scope.

Definition clockTopic : string := "clk".
Definition joinTopic : string := "join".
Definition bucketTopicPrefix : string := "b.".
Definition groupTopicPrefix : string := "g.".
Definition bigTopicPrefix : string := "h.".
Definition triggerTopic : string := "trigger".
Definition MAX_MSG_SIZE : Z := 128 * 1024 * 1024.

(** The messages of the protocol buffer library, by their types. *)
Inductive ProtoKind := KTxn | KGroup | KClock.

Inductive ProtoMsg (POp : Type) :=
  | PTxn (p : ProtoReplicateTxn POp)
  | PGroup (p : ProtoReplicateGroupTxn POp)
  | PClock (p : ProtoStableClock).
Arguments PTxn {POp}. Arguments PGroup {POp}. Arguments PClock {POp}.

Definition kindOf {POp} (m : ProtoMsg POp) : ProtoKind :=
  match m with PTxn _ => KTxn | PGroup _ => KGroup | PClock _ => KClock end.

(** [proto.Marshal] and [proto.Unmarshal] into a message of a type. *)
Class Protobuf (POp : Type) := {
  Marshal : ProtoMsg POp -> list Z;
  Unmarshal : ProtoKind -> list Z -> option (ProtoMsg POp)
}.

Class ProtobufLaws (POp : Type) `{Protobuf POp} := {
  Unmarshal_Marshal m : Unmarshal (kindOf m) (Marshal m) = Some m
}.

(** What [Publish] and [Delivery] have that the code uses; [AppId] is the length
    of a split message, absent in the others. *)
Record Publishing := mkPub {
  RoutingKey : string; ContentType : string; AppId : option Z; Body : list Z }.

Section conn.
Context {Upd POp : Type} `{DownstreamCodec Upd POp} `{Protobuf POp}.
Abbreviation updates := (list (UpdateObjectParams Upd)).
Abbreviation Txn := (RemoteTxn Upd).

Inductive ReplicatorMsg :=
  | RM_StableClock (c : StableClock)
  | RM_Txn (t : Txn)
  | RM_Group (g : RemoteTxnGroup Upd)
  | RM_Join (ContentType : string) (Body : list Z)
  | RM_Trigger (Body : list Z).

(** ** Sending *)

Record SendConn := mkSend {
  replicaID : Z;
  txnCount : Z;
  allBuckets : bool;
  buckets : list string
}.

Definition set_count (n : Z) (c : SendConn) : SendConn :=
  mkSend (replicaID c) n (allBuckets c) (buckets c).

(** The updates of a transaction by bucket and, for each bucket, by partition. *)
Definition addUpd (partID : Z) (bucketOps : gmap string (gmap Z updates))
    (upd : UpdateObjectParams Upd) : gmap string (gmap Z updates) :=
  let entry := default ∅ (bucketOps !! Bucket (upd_key upd)) in
  let partEntry := default [] (entry !! partID) in
  <[Bucket (upd_key upd) := <[partID := partEntry ++ [upd]]> entry]> bucketOps.

Definition txnToBuckets (txn : Txn) : gmap string (gmap Z updates) :=
  foldl (fun bucketOps '(partID, partUpds) => foldl (addUpd partID) bucketOps partUpds) ∅
    (map_to_list (Upds txn)).

(** [sendMsg], with the size above which messages are split. *)
Fixpoint splitData (fuel max : nat) (key : string) (leftData : list Z) : list Publishing :=
  match fuel, leftData with
  | S fuel, _ :: _ =>
      mkPub key EmptyString None (take max leftData) ::
      splitData fuel max key (drop (Nat.min max (length leftData)) leftData)
  | _, _ => []
  end.

Definition sendMsg (max : nat) (key : string) (data : list Z) : list Publishing :=
  if (length data <=? max)%nat then [mkPub key EmptyString None data]
  else mkPub (bigTopicPrefix +:+ key) EmptyString (Some (Z.of_nat (length data))) (take max data) ::
       splitData (length data) max (bigTopicPrefix +:+ key) (drop max data).

Definition SendStableClk (c : SendConn) (ts : Z) : list Publishing :=
  [mkPub clockTopic EmptyString None (Marshal (PClock (createProtoStableClock (replicaID c) ts)))].

Record PairKeyBytes := mkPair' { Key_ : string; Data : list Z }.

(** *** Transactions one by one *)

Record MarshallWorkReply := mkReply { Result : list PairKeyBytes; TxnSendId : Z }.

(** [MarshallWork.DoWork]: one message per bucket. *)
Definition MarshallWork (self : Z) (txn : Txn) : MarshallWorkReply :=
  mkReply ((fun '(bucket, upds) =>
              mkPair' (bucketTopicPrefix +:+ bucket)
                (Marshal (PTxn (createProtoReplicateTxn self (Clk txn) upds (TxnID txn)))))
           <$> map_to_list (txnToBuckets txn))
    (TxnID txn).

(** The transactions with their numbers, which wrap around. *)
Fixpoint numberTxns (n : Z) (txns : list Txn) : list Txn :=
  match txns with
  | [] => []
  | t :: txns => mkRemoteTxn (SenderID t) (Clk t) (Upds t) n :: numberTxns (int32 (n + 1)) txns
  end.

(** The inner loop: [workBuf[0]] has been received.  It stops at the last entry
    without removing it. *)
Fixpoint sendReady (workBuf : list (option MarshallWorkReply)) (offset : Z)
  : list PairKeyBytes * list (option MarshallWorkReply) * Z :=
  match workBuf with
  | Some w :: rest =>
      if (0 <? length (Result w))%nat then
        match rest with
        | [] => (Result w, workBuf, offset)
        | _ => let '(out, workBuf, offset) := sendReady rest (int32 (offset + 1)) in
               (Result w ++ out, workBuf, offset)
        end
      else ([], workBuf, offset)
  | _ => ([], workBuf, offset)
  end.

(** One answer on [replyChan].  [None]: a position out of range. *)
Definition receiveWork (st : list PairKeyBytes * list (option MarshallWorkReply) * Z)
    (workReply : MarshallWorkReply)
  : option (list PairKeyBytes * list (option MarshallWorkReply) * Z) :=
  let '(sent, workBuf, offset) := st in
  let pos := int32 (TxnSendId workReply - offset) in
  if (0 <=? pos) && (pos <? Z.of_nat (length workBuf)) then
    let workBuf := <[Z.to_nat pos := Some workReply]> workBuf in
    if pos =? 0 then
      let '(out, workBuf, offset) := sendReady workBuf offset in
      Some (sent ++ out, workBuf, offset)
    else Some (sent, workBuf, offset)
  else None.

(** What a worker answers for each transaction. *)
Definition individualWork (c : SendConn) (txns : list Txn) : list MarshallWorkReply :=
  MarshallWork (replicaID c) <$> numberTxns (txnCount c) txns.

(** [replies]: the answers of the workers as they arrive. *)
Definition SendTxnsIndividually (max : nat) (c : SendConn) (txns : list Txn)
    (replies : list MarshallWorkReply) : option (list Publishing * SendConn) :=
  '(sent, _, _) ← foldM receiveWork ([], replicate (length txns) None, txnCount c) replies;
  Some (mjoin ((fun p => sendMsg max (Key_ p) (Data p)) <$> sent),
        set_count (int32 (txnCount c + Z.of_nat (length txns))) c).

(** *** Groups *)

(** [None]: a bucket this replica does not have. *)
Definition addBktTxn (all : bool) (txn : Txn) (bucketOps : gmap string (list Txn))
    (e : string * gmap Z updates) : option (gmap string (list Txn)) :=
  let '(bkt, partUpds) := e in
  let add l := Some (<[bkt := l ++ [mkRemoteTxn (SenderID txn) (Clk txn) partUpds (TxnID txn)]]> bucketOps) in
  match bucketOps !! bkt with
  | Some l => add l
  | None => if all then add [] else None
  end.

Definition groupBuckets (c : SendConn) (txns : list Txn) : option (gmap string (list Txn)) :=
  foldM (fun bucketOps txn =>
           foldM (addBktTxn (allBuckets c) txn) bucketOps (map_to_list (txnToBuckets txn)))
    (if allBuckets c then ∅ else list_to_map ((fun bkt => (bkt, [])) <$> buckets c)) txns.

(** [GroupMarshallWork.DoWork]. *)
Definition GroupMarshallWork (self : Z) (allTxns : list Txn) (e : string * list Txn)
  : option PairKeyBytes :=
  p ← createProtoReplicateGroupTxn self allTxns e.2;
  Some (mkPair' e.1 (Marshal (PGroup p))).

Definition groupWork (c : SendConn) (txns : list Txn) : option (list PairKeyBytes) :=
  let txns := numberTxns (txnCount c) txns in
  bucketOps ← groupBuckets c txns;
  mapM (GroupMarshallWork (replicaID c) txns)
    (List.filter (fun e => 0 <? length e.2)%nat (map_to_list bucketOps)).

Definition SendGroupTxn (max : nat) (c : SendConn) (txns : list Txn) (replies : list PairKeyBytes)
  : list Publishing * SendConn :=
  (mjoin ((fun result => sendMsg max (groupTopicPrefix +:+ Key_ result) (Data result)) <$> replies),
   set_count (int32 (txnCount c + Z.of_nat (length txns))) c).

(** ** Receiving *)

Inductive HeldMsg := HTxn (t : Txn) | HGroup (g : RemoteTxnGroup Upd).

(** A split message of which [currI] bytes are in [buf]. *)
Record Split := mkSplit { buf : list Z; currI : nat }.

(** [onHold] is the part of the array in use; it has room for
    [nBucketsToListen] messages. *)
Record RecvConn := mkRecv {
  selfID : Z;
  nBucketsToListen : nat;
  onHold : list HeldMsg;
  txnID : Z;
  isGroup : bool;
  splitting : option Split
}.

Definition set_hold (l : list HeldMsg) (id : Z) (group : bool) (c : RecvConn) : RecvConn :=
  mkRecv (selfID c) (nBucketsToListen c) l id group (splitting c).

Definition set_split (s : option Split) (c : RecvConn) : RecvConn :=
  mkRecv (selfID c) (nBucketsToListen c) (onHold c) (txnID c) (isGroup c) s.

(** [for partID, partUpds := range upds { m[partID] = append(m[partID], partUpds...) }]. *)
Definition addUpds (m upds : gmap Z updates) : gmap Z updates :=
  foldl (fun m '(partID, partUpds) => <[partID := default [] (m !! partID) ++ partUpds]> m) m
    (map_to_list upds).

Definition asTxn (m : HeldMsg) : option Txn :=
  match m with HTxn t => Some t | HGroup _ => None end.
Definition asGroup (m : HeldMsg) : option (RemoteTxnGroup Upd) :=
  match m with HGroup g => Some g | HTxn _ => None end.

Definition getMergedTxn (c : RecvConn) : option Txn :=
  reqs ← mapM asTxn (onHold c);
  currReq ← last reqs;
  Some (mkRemoteTxn (SenderID currReq) (Clk currReq)
          (foldl (fun m req => addUpds m (Upds req)) ∅ reqs) 0).

Record MergeSt := mkMerge {
  currMergedUpds : gmap Z updates;
  currClk : vclock;
  potencialSkip : Z;
  rest : list (list Txn)
}.

(** The inner loop; a group's transactions from its position on. *)
Definition mergeInner (currID : Z) (st : MergeSt) (txns : list Txn) : MergeSt :=
  match txns with
  | [] => mkMerge (currMergedUpds st) (currClk st) (potencialSkip st) (rest st ++ [[]])
  | currRemoteTxn :: txns' =>
      if TxnID currRemoteTxn =? currID
      then mkMerge (addUpds (currMergedUpds st) (Upds currRemoteTxn)) (Clk currRemoteTxn)
             (potencialSkip st) (rest st ++ [txns'])
      else mkMerge (currMergedUpds st) (currClk st)
             (Z.min (TxnID currRemoteTxn) (potencialSkip st)) (rest st ++ [txns])
  end.

(** Two rounds of the outer loop take at least one transaction of a group, or
    the loop ends; [None] is a loop that does not. *)
Fixpoint mergeOuter (fuel : nat) (sender currID maxID : Z) (clk : vclock) (groups : list (list Txn))
    (merged : list Txn) : option (list Txn) :=
  if currID <=? maxID then
    match fuel with
    | O => None
    | S fuel =>
        let st := foldl (mergeInner currID) (mkMerge ∅ clk MaxInt32 []) groups in
        if (0 <? size (currMergedUpds st))%nat
        then mergeOuter fuel sender (int32 (currID + 1)) maxID (currClk st) (rest st)
               (merged ++ [mkRemoteTxn sender (currClk st) (currMergedUpds st) currID])
        else mergeOuter fuel sender (potencialSkip st) maxID (currClk st) (rest st) merged
    end
  else Some merged.

Definition totalLen {A} (l : list (list A)) : nat := sum_list_with length l.

Definition getMergedTxnGroup (c : RecvConn) : option (RemoteTxnGroup Upd) :=
  convReqs ← mapM asGroup (onHold c);
  firstGroup ← head convReqs;
  let groups := Txns <$> convReqs in
  merged ← mergeOuter (2 * totalLen groups + 1) (g_SenderID firstGroup) (MinTxnID firstGroup)
             (MaxTxnID firstGroup) ∅ groups [];
  Some (mkRemoteGroup (g_SenderID firstGroup) merged (MinTxnID firstGroup) (MaxTxnID firstGroup)).

(** What goes to [listenerChan]. *)
Definition sendMerged (c : RecvConn) : option (list ReplicatorMsg) :=
  match onHold c with
  | [] => Some []
  | _ => if isGroup c then g ← getMergedTxnGroup c; Some [RM_Group g]
         else t ← getMergedTxn c; Some [RM_Txn t]
  end.

Definition createHold (id : Z) (c : RecvConn) : RecvConn := set_hold [] id (isGroup c) c.

(** [None]: no room in [onHold]. *)
Definition storeTxn (msg : HeldMsg) (group : bool) (c : RecvConn) : option RecvConn :=
  if (length (onHold c) <? nBucketsToListen c)%nat
  then Some (set_hold (onHold c ++ [msg]) (txnID c) group c) else None.

(** A message of transaction [id]. *)
Definition holdMsg (id : Z) (msg : HeldMsg) (group : bool) (c : RecvConn)
  : option (list ReplicatorMsg * RecvConn) :=
  if id =? txnID c then c ← storeTxn msg group c; Some ([], c)
  else out ← sendMerged c; c ← storeTxn msg group (createHold id c); Some (out, c).

Definition handleReceivedGroupOps (data : list Z) (c : RecvConn)
  : option (list ReplicatorMsg * RecvConn) :=
  match Unmarshal KGroup data with
  | Some (PGroup p) =>
      let bktGroup := protoToRemoteTxnGroup p in
      holdMsg (MinTxnID bktGroup) (HGroup bktGroup) true c
  | _ => None
  end.

Definition handleReceivedOps (data : list Z) (c : RecvConn)
  : option (list ReplicatorMsg * RecvConn) :=
  match Unmarshal KTxn data with
  | Some (PTxn p) =>
      let bktTxn := protoToRemoteTxn p in holdMsg (TxnID bktTxn) (HTxn bktTxn) false c
  | _ => None
  end.

(** A clock that cannot be decoded is one without fields. *)
Definition handleReceivedStableClock (data : list Z) (c : RecvConn)
  : option (list ReplicatorMsg * RecvConn) :=
  let clkReq := protoToStableClock match Unmarshal KClock data with
                                   | Some (PClock p) => p
                                   | _ => mkProtoClk 0 0
                                   end in
  if sc_SenderID clkReq =? selfID c then Some ([], c)
  else out ← sendMerged c; Some (out ++ [RM_StableClock clkReq], createHold 0 c).

(** [copy(buf[i:], body)]. *)
Definition copyAt (b : list Z) (i : nat) (body : list Z) : list Z :=
  take i b ++ take (length b - i) body ++ drop (i + length body) b.

(** A delivery; the ones that follow the first part of a split message are its
    other parts, whatever they are. *)
Definition receive (c : RecvConn) (data : Publishing) : option (list ReplicatorMsg * RecvConn) :=
  match splitting c with
  | Some s =>
      if (length (buf s) <? currI s)%nat then None
      else
        let b := copyAt (buf s) (currI s) (Body data) in
        let i := (currI s + length (Body data))%nat in
        if (i =? length b)%nat then
          let c := set_split None c in
          if String.prefix groupTopicPrefix (String.substring 2 (String.length (RoutingKey data) - 2) (RoutingKey data))
          then handleReceivedGroupOps b c else handleReceivedOps b c
        else Some ([], set_split (Some (mkSplit b i)) c)
  | None =>
      if decide (RoutingKey data = clockTopic) then handleReceivedStableClock (Body data) c
      else if decide (RoutingKey data = joinTopic)
      then Some ([RM_Join (ContentType data) (Body data)], c)
      else if decide (RoutingKey data = triggerTopic) then Some ([RM_Trigger (Body data)], c)
      else if String.prefix bigTopicPrefix (RoutingKey data) then
        let fullSize := Z.to_nat (default 0 (AppId data)) in
        Some ([], set_split (Some (mkSplit (copyAt (replicate fullSize 0) 0 (Body data))
                                     (length (Body data)))) c)
      else if String.prefix groupTopicPrefix (RoutingKey data)
      then handleReceivedGroupOps (Body data) c
      else handleReceivedOps (Body data) c
  end.

Fixpoint startReceiver (c : RecvConn) (deliveries : list Publishing)
  : option (list ReplicatorMsg * RecvConn) :=
  match deliveries with
  | [] => Some ([], c)
  | data :: deliveries =>
      '(out1, c) ← receive c data;
      '(out2, c) ← startReceiver c deliveries;
      Some (out1 ++ out2, c)
  end.

Definition createRemoteConnStructHelper (bucketsToListen : list string) (replicaID : Z)
  : SendConn * RecvConn :=
  (mkSend replicaID 0 (bool_decide ("*"%string ∈ bucketsToListen)) bucketsToListen,
   mkRecv replicaID (length bucketsToListen) [] 0 false None).
End conn.
