(* ===== verification/RemoteConnOrder.v ===== *)
(** * Sending and receiving messages between replicas

    Lemmas about file RemoteConn: the answers of the workers are sent in the order
    of the transactions, a split message arrives whole, a transaction divided by
    bucket is put together again. *)

From S2P Require Import Prelude ClockSI ClockCodec Keys PartitionClock Logger Replicator.
From S2P Require Import ReplicatorProto RemoteConn.
From Stdlib Require Import ZArith Lia Bool.
From stdpp Require Import base tactics numbers strings gmap sorting list.
#[local] Open Scope Z_scope.

Lemma wrapS_sub_r w a b : 0 < w -> wrapS w (a - wrapS w b) = wrapS w (a - b).
Proof.
  intros Hw. apply wrapS_eq_mod; [done|].
  rewrite (Zminus_mod a (wrapS w b)), wrapS_mod, <- Zminus_mod by done. done.
Qed.

(** ** Answers in any order *)

Section in_order.
Context (n0 : Z) (n : nat) (w : nat -> MarshallWorkReply).
Context (Hid : forall i, TxnSendId (w i) = int32 (n0 + Z.of_nat i)).
Context (Hres : forall i, Result (w i) <> []).
Context (Hn : Z.of_nat n < 2 ^ 31).

(** The buffer from position [k] on, when the answers [got] have arrived. *)
Definition entry (got : list nat) (i : nat) : option MarshallWorkReply :=
  if bool_decide (i ∈ got) then Some (w i) else None.
Definition entries (got : list nat) (k : nat) : list (option MarshallWorkReply) :=
  entry got <$> seq k (n - k).

Definition resultsTo (k : nat) : list PairKeyBytes := mjoin ((fun i => Result (w i)) <$> seq 0 k).

Definition progress (got : list nat)
    (st : list PairKeyBytes * list (option MarshallWorkReply) * Z) : Prop :=
  exists k, (k < n)%nat /\ (forall i, (i < k)%nat -> i ∈ got) /\ (k ∈ got -> S k = n) /\
    st = (resultsTo (if bool_decide (k ∈ got) then S k else k), entries got k,
          int32 (n0 + Z.of_nat k)).

Lemma resultsTo_S k : resultsTo (S k) = resultsTo k ++ Result (w k).
Proof.
  unfold resultsTo. rewrite seq_S, fmap_app, join_app. simpl. by rewrite app_nil_r.
Qed.

Lemma entries_cons got k : (k < n)%nat -> entries got k = entry got k :: entries got (S k).
Proof.
  intros Hk. unfold entries. replace (n - k)%nat with (S (n - S k)) by lia. done.
Qed.

Lemma sendReady_progress got m : forall k, (k + S m = n)%nat -> (forall i, (i < k)%nat -> i ∈ got) ->
  k ∈ got ->
  let '(out, buf, off) := sendReady (entries got k) (int32 (n0 + Z.of_nat k)) in
  progress got (resultsTo k ++ out, buf, off).
Proof.
  induction m as [|m IH]; intros k Hk Hlt Hgot; rewrite entries_cons by lia;
    unfold entry; rewrite bool_decide_eq_true_2 by done; cbn [sendReady].
  - rewrite (proj2 (Nat.ltb_lt 0 _)) by (specialize (Hres k); destruct (Result (w k)); simpl; [done|lia]).
    replace (entries got (S k)) with (@nil (option MarshallWorkReply))
      by (unfold entries; replace (n - S k)%nat with 0%nat by lia; done).
    exists k. split; [lia|]. split; [done|]. split; [lia|].
    rewrite bool_decide_eq_true_2, resultsTo_S by done. f_equal. f_equal.
    rewrite entries_cons by lia. unfold entry. rewrite bool_decide_eq_true_2 by done.
    unfold entries. by replace (n - S k)%nat with 0%nat by lia.
  - rewrite (proj2 (Nat.ltb_lt 0 _)) by (specialize (Hres k); destruct (Result (w k)); simpl; [done|lia]).
    assert (Hoff : int32 (int32 (n0 + Z.of_nat k) + 1) = int32 (n0 + Z.of_nat (S k))).
    { rewrite wrapS_add_l by lia. f_equal. lia. }
    rewrite Hoff. rewrite (entries_cons got (S k)) by lia.
    destruct (decide (S k ∈ got)) as [HS|HS].
    + specialize (IH (S k) ltac:(lia)). rewrite (entries_cons got (S k)) in IH by lia.
      destruct (sendReady _ _) as [[out buf] off].
      rewrite app_assoc, <- resultsTo_S. apply IH; [|done].
      intros i Hi. destruct (decide (i = k)) as [->|]; [done|apply Hlt; lia].
    + assert (He : entry got (S k) = None) by (unfold entry; by rewrite bool_decide_eq_false_2).
      rewrite He. cbn [sendReady]. rewrite app_nil_r, <- resultsTo_S.
      exists (S k). split; [lia|]. split.
      { intros i Hi. destruct (decide (i = k)) as [->|]; [done|apply Hlt; lia]. }
      split; [done|]. rewrite bool_decide_eq_false_2 by done. f_equal. f_equal.
      rewrite (entries_cons got (S k)) by lia. by rewrite He.
Qed.

Lemma insert_entries got k i : (k <= i < n)%nat ->
  <[(i - k)%nat := Some (w i)]> (entries got k) = entries (i :: got) k.
Proof.
  intros Hi. apply list_eq. intros j. unfold entries.
  destruct (decide (j < n - k)%nat) as [Hj|Hj].
  2:{ rewrite !lookup_ge_None_2; [done|..]; rewrite ?length_insert, length_fmap, length_seq; lia. }
  rewrite (list_lookup_fmap _ (seq k (n - k))), lookup_seq_lt by done. simpl.
  destruct (decide (j = i - k)%nat) as [->|Hne].
  - rewrite list_lookup_insert_eq by (rewrite length_fmap, length_seq; lia).
    replace (k + (i - k))%nat with i by lia. unfold entry.
    rewrite bool_decide_eq_true_2; [done|by left].
  - rewrite list_lookup_insert_ne by done. rewrite list_lookup_fmap, lookup_seq_lt by done. simpl.
    assert (Hiff : (k + j)%nat ∈ i :: got <-> (k + j)%nat ∈ got).
    { rewrite elem_of_cons. split; [intros [?|?]; [lia|done]|by right]. }
    unfold entry. by rewrite (bool_decide_ext _ _ Hiff).
Qed.

Lemma receiveWork_progress got st i :
  progress got st -> (i < n)%nat -> i ∉ got ->
  exists st', receiveWork st (w i) = Some st' /\ progress (i :: got) st'.
Proof.
  intros (k & Hk & Hlt & Hlast & ->) Hi Hnew.
  assert (Hki : (k <= i)%nat).
  { destruct (decide (i < k)%nat); [|lia]. exfalso. by apply Hnew, Hlt. }
  assert (Hk' : k ∉ got).
  { intros Hin. assert (i = k) by (specialize (Hlast Hin); lia). congruence. }
  rewrite bool_decide_eq_false_2 by done. unfold receiveWork. rewrite Hid.
  assert (Hpos : int32 (int32 (n0 + Z.of_nat i) - int32 (n0 + Z.of_nat k)) = Z.of_nat (i - k)).
  { rewrite wrapS_sub_l, wrapS_sub_r by lia.
    replace (n0 + Z.of_nat i - (n0 + Z.of_nat k)) with (Z.of_nat (i - k)) by lia.
    apply wrapS_id; [lia|]. unfold inS. simpl. lia. }
  rewrite Hpos. assert (Hlen : length (entries got k) = (n - k)%nat)
    by (unfold entries; by rewrite length_fmap, length_seq).
  rewrite Hlen. rewrite (proj2 (Z.leb_le 0 (Z.of_nat (i - k)))) by lia.
  rewrite (proj2 (Z.ltb_lt (Z.of_nat (i - k)) (Z.of_nat (n - k)))) by lia. cbn [andb].
  rewrite Nat2Z.id, insert_entries by lia.
  destruct (Z.eqb_spec (Z.of_nat (i - k)) 0) as [Hz|Hz].
  - assert (i = k) as -> by lia.
    pose proof (sendReady_progress (k :: got) (n - S k) k ltac:(lia)) as Hp.
    destruct (sendReady _ _) as [[out buf] off]. eexists. split; [done|].
    apply Hp; [|by left]. intros j Hj. right. by apply Hlt.
  - eexists. split; [done|]. exists k. split; [done|]. split; [intros j Hj; right; by apply Hlt|].
    assert (k ∉ i :: got) by (rewrite not_elem_of_cons; split; [lia|done]).
    split; [done|]. by rewrite bool_decide_eq_false_2.
Qed.

Lemma receiveAll σ : forall got st,
  progress got st -> NoDup σ -> (forall i, i ∈ σ -> (i < n)%nat /\ i ∉ got) ->
  exists st', foldM receiveWork st (w <$> σ) = Some st' /\ progress (rev σ ++ got) st'.
Proof.
  induction σ as [|i σ IH]; intros got st Hp Hnd Hin; simpl; [by exists st|].
  apply NoDup_cons in Hnd as [Hi Hnd]. destruct (Hin i) as [Hlt Hng]; [by left|].
  destruct (receiveWork_progress got st i Hp Hlt Hng) as (st1 & -> & Hp1). simpl.
  destruct (IH (i :: got) st1 Hp1 Hnd) as (st2 & Hf & Hp2).
  { intros j Hj. destruct (Hin j) as [? ?]; [by right|]. split; [done|].
    rewrite not_elem_of_cons. split; [congruence|done]. }
  exists st2. split; [done|]. by rewrite <- app_assoc.
Qed.

(** Whatever the order of the answers, everything is sent, in order. *)
Lemma replies_in_order replies : (0 < n)%nat -> int32 n0 = n0 ->
  replies ≡ₚ (w <$> seq 0 n) ->
  exists buf off,
    foldM receiveWork ([], replicate n None, n0) replies = Some (resultsTo n, buf, off).
Proof.
  intros Hpos Hn0 Hperm.
  apply Permutation_map_inv in Hperm as (σ & -> & Hσ). symmetry in Hσ.
  change (map w σ) with (w <$> σ).
  assert (Hp0 : progress [] ([], replicate n None, n0)).
  { exists 0%nat. split; [done|]. split; [lia|]. split; [by intros ?%elem_of_nil|].
    rewrite bool_decide_eq_false_2 by apply not_elem_of_nil.
    rewrite Z.add_0_r, Hn0. f_equal. f_equal. unfold entries. rewrite Nat.sub_0_r.
    apply list_eq. intros j. destruct (decide (j < n)%nat) as [Hj|Hj].
    - rewrite lookup_replicate_2 by done. rewrite list_lookup_fmap, lookup_seq_lt by done. done.
    - rewrite !lookup_ge_None_2; [done|..]; rewrite ?length_fmap, ?length_seq, ?length_replicate; lia. }
  destruct (receiveAll σ [] _ Hp0) as (st & Hf & k & Hk & Hlt & Hlast & ->).
  { rewrite Hσ. apply NoDup_seq. }
  { intros i Hi. rewrite Hσ in Hi. apply elem_of_seq in Hi. split; [lia|apply not_elem_of_nil]. }
  rewrite app_nil_r in *. assert (Hkin : k ∈ rev σ).
  { apply list_elem_of_In, in_rev. rewrite rev_involutive. apply list_elem_of_In. rewrite Hσ. apply elem_of_seq. lia. }
  rewrite bool_decide_eq_true_2 in Hf by done. rewrite (Hlast Hkin) in Hf.
  eexists _, _. exact Hf.
Qed.
End in_order.

(** ** Split messages *)

Section split.
Context {Upd POp : Type} `{DownstreamCodec Upd POp} `{Protobuf POp}.

(** What a whole message of this topic does. *)
Definition handleData (key : string) (data : list Z) (c : RecvConn (Upd := Upd))
  : option (list (ReplicatorMsg (Upd := Upd)) * RecvConn (Upd := Upd)) :=
  if String.prefix groupTopicPrefix key then handleReceivedGroupOps data c
  else handleReceivedOps data c.

(** Topics of transactions. *)
Definition data_topic (key : string) : Prop :=
  exists bucket, key = (bucketTopicPrefix +:+ bucket)%string \/ key = (groupTopicPrefix +:+ bucket)%string.

Lemma copyAt_length b i body : (i + length body <= length b)%nat -> length (copyAt b i body) = length b.
Proof.
  intros Hi. unfold copyAt. rewrite !length_app, !length_take, length_drop. lia.
Qed.

Lemma copyAt_part data z i p :
  (i + p <= length data)%nat -> z = (length data - i)%nat ->
  copyAt (take i data ++ replicate z 0) i (take p (drop i data)) =
  take (i + p) data ++ replicate (z - p) 0.
Proof.
  intros Hp ->. unfold copyAt. rewrite length_app, !length_take, length_replicate, length_drop.
  rewrite (Nat.min_l i) by lia. rewrite take_app_le by (rewrite length_take; lia).
  rewrite take_take, (Nat.min_l i i) by lia.
  rewrite take_take. rewrite (Nat.min_r _ p) by lia. rewrite (Nat.min_l p) by lia.
  rewrite drop_app_ge by (rewrite length_take; lia). rewrite length_take, drop_replicate, (Nat.min_l i) by lia.
  rewrite app_assoc, take_take_drop.
  f_equal. f_equal. lia.
Qed.

Lemma substring_all s : String.substring 0 (String.length s) s = s.
Proof. induction s as [|a s IH]; simpl; [done|]. by rewrite IH. Qed.

Lemma big_key key :
  String.substring 2 (String.length (bigTopicPrefix +:+ key) - 2) (bigTopicPrefix +:+ key) = key.
Proof.
  unfold bigTopicPrefix. simpl. rewrite Nat.sub_0_r. apply substring_all.
Qed.

Abbreviation andThen r more :=
  ('(out1, c) ← r; '(out2, c) ← startReceiver c more; Some (out1 ++ out2, c)).

(** The parts of a message that are still to come. *)
Lemma receive_parts max key data more fuel : (0 < max)%nat -> forall c i,
  splitting c = Some (mkSplit (take i data ++ replicate (length data - i) 0) i) ->
  (i < length data)%nat -> (length data - i <= fuel)%nat ->
  startReceiver c (splitData fuel max (bigTopicPrefix +:+ key) (drop i data) ++ more) =
  andThen (handleData key data (set_split None c)) more.
Proof.
  intros Hmax. induction fuel as [|fuel IH]; intros c i Hc Hi Hf; [lia|]. cbn [splitData].
  destruct (drop i data) as [|x l] eqn:Ed.
  { apply (f_equal length) in Ed. rewrite length_drop in Ed. simpl in Ed. lia. }
  rewrite <- Ed. cbn [app startReceiver]. unfold receive at 1. rewrite Hc.
  cbn [buf currI Body RoutingKey].
  rewrite length_app, length_take, length_replicate.
  rewrite (proj2 (Nat.ltb_ge _ i)) by lia.
  set (p := Nat.min max (length data - i)).
  assert (Htake : take max (drop i data) = take p (drop i data)).
  { unfold p. destruct (Nat.min_spec max (length data - i)) as [[? ->]|[? ->]]; [done|].
    rewrite !take_ge by (rewrite length_drop; lia). done. }
  assert (Hp : (0 < p /\ i + p <= length data)%nat) by (unfold p; lia).
  rewrite Htake, copyAt_part by lia.
  rewrite length_app, !length_take, length_replicate, length_drop.
  replace (Nat.min p (length data - i)) with p by lia.
  replace (Nat.min (i + p) (length data) + (length data - i - p))%nat with (length data) by lia.
  rewrite drop_drop. replace (Nat.min max (length data - i)) with p by done.
  destruct (Nat.eqb_spec (i + p) (length data)) as [Hend|Hend].
  - rewrite (take_ge data) by lia. replace (length data - i - p)%nat with 0%nat by lia.
    rewrite app_nil_r, big_key. fold (handleData key data (set_split None c)).
    rewrite drop_ge by lia. assert (Hsp : splitData fuel max (bigTopicPrefix +:+ key) [] = [])
      by (by destruct fuel). rewrite Hsp. done.
  - replace (length data - i - p)%nat with (length data - (i + p))%nat by lia.
    cbn [mbind option_bind]. rewrite IH; [|done|lia|lia].
    destruct (handleData key data _) as [[o1 c1]|]; [|done]. cbn [mbind option_bind].
    by destruct (startReceiver c1 more) as [[o2 c2]|].
Qed.

Lemma set_split_none x (c : RecvConn (Upd := Upd)) :
  splitting c = None -> set_split None (set_split x c) = c.
Proof. destruct c; simpl. by intros ->. Qed.

(** A message, split or not, is handled as a whole. *)
Lemma receive_sendMsg max key data c more : (0 < max)%nat -> splitting c = None -> data_topic key ->
  startReceiver c (sendMsg max key data ++ more) = andThen (handleData key data c) more.
Proof.
  intros Hmax Hc Hkey. unfold sendMsg. destruct (Nat.leb_spec (length data) max) as [Hle|Hgt].
  - cbn [app startReceiver]. unfold receive. rewrite Hc. cbn [RoutingKey Body]. unfold handleData.
    destruct Hkey as [bucket [-> | ->]]; done.
  - cbn [app startReceiver]. unfold receive at 1. rewrite Hc. cbn [RoutingKey Body AppId].
    assert (Hd : forall s, s = clockTopic \/ s = joinTopic \/ s = triggerTopic ->
      (bigTopicPrefix +:+ key)%string <> s) by (by intros s [->|[->| ->]]).
    rewrite !decide_False by (apply Hd; auto).
    assert (Hpre : String.prefix bigTopicPrefix (bigTopicPrefix +:+ key) = true).
    { unfold bigTopicPrefix. simpl. by destruct key. }
    rewrite Hpre. cbn [mbind option_bind default from_option id].
    rewrite Nat2Z.id, length_take, (Nat.min_l max) by lia.
    rewrite (receive_parts max key data more _ Hmax _ max); [|cbn [splitting set_split]|lia|lia].
    + rewrite set_split_none by done.
      destruct (handleData key data _) as [[o1 c1]|]; [|done]. cbn [mbind option_bind].
      by destruct (startReceiver c1 more) as [[o2 c2]|].
    + f_equal. f_equal. pose proof (copyAt_part data (length data) 0 max ltac:(lia) ltac:(lia)) as Hcp.
      rewrite drop_0 in Hcp. exact Hcp.
Qed.
End split.
