(* ===== verification/RemoteConnBuckets.v ===== *)
(** * A transaction divided by bucket, and put together again

    Lemmas about file RemoteConn.  [part] is what a transaction does in a bucket,
    [gather] what a receiver makes of the parts of some buckets, in the order it
    received them. *)

From S2P Require Import Prelude ClockSI ClockCodec Keys PartitionClock Logger Replicator.
From S2P Require Import ReplicatorProto RemoteConn.
From Stdlib Require Import ZArith Lia Bool.
From stdpp Require Import base tactics numbers strings gmap sorting list.
#[local] Open Scope Z_scope.

Lemma list_empty_elem {A} (l : list A) : (forall x, x ∉ l) -> l = [].
Proof. destruct l as [|a l]; [done|]. intros H. destruct (H a). by left. Qed.

Section buckets.
Context {Upd : Type}.
Abbreviation update := (UpdateObjectParams Upd).
Abbreviation updates := (list (UpdateObjectParams Upd)).
Abbreviation Txn := (RemoteTxn Upd).
Abbreviation Ops := (gmap string (gmap Z updates)).

Definition of_bucket (b : string) (l : updates) : updates :=
  filter (fun u => Bucket (upd_key u) = b) l.

Definition nonempty {A} (l : list A) : option (list A) :=
  match l with [] => None | _ => Some l end.

Definition part (b : string) (upds : gmap Z updates) : gmap Z updates :=
  omap (fun l => nonempty (of_bucket b l)) upds.

Definition updsOf (upds : gmap Z updates) (p : Z) : updates := default [] (upds !! p).

Lemma part_lookup b upds p : part b upds !! p = nonempty (of_bucket b (updsOf upds p)).
Proof. unfold part, updsOf. rewrite lookup_omap. by destruct (upds !! p). Qed.

(** ** Dividing *)

Definition get (ops : Ops) (b : string) (p : Z) : updates := updsOf (default ∅ (ops !! b)) p.

Definition shape (ops : Ops) : Prop :=
  forall b m, ops !! b = Some m -> m <> ∅ /\ forall p, m !! p <> Some [].

Lemma addUpd_get p ops u b q :
  get (addUpd p ops u) b q =
  get ops b q ++ (if decide (q = p) then of_bucket b [u] else []).
Proof.
  unfold addUpd, get, updsOf, of_bucket. rewrite filter_cons, filter_nil.
  destruct (decide (Bucket (upd_key u) = b)) as [->|Hb].
  - rewrite lookup_insert_eq. cbn [default from_option id]. destruct (decide (q = p)) as [->|Hq].
    + by rewrite lookup_insert_eq.
    + by rewrite lookup_insert_ne, app_nil_r.
  - rewrite lookup_insert_ne by done. case_decide; by rewrite app_nil_r.
Qed.

Lemma addUpd_shape p ops u : shape ops -> shape (addUpd p ops u).
Proof.
  intros Hs b m. unfold addUpd. intros [[<- <-]|[_ Hm]]%lookup_insert_Some; [|by apply (Hs b)].
  split; [apply insert_non_empty|]. intros q [[_ E]|[_ E]]%lookup_insert_Some.
  - by apply app_nil in E as [_ ?].
  - destruct (ops !! Bucket (upd_key u)) as [m|] eqn:Em; [|done]. by apply (Hs _ _ Em) in E.
Qed.

Lemma foldl_addUpd p us ops b q :
  get (foldl (addUpd p) ops us) b q =
  get ops b q ++ (if decide (q = p) then of_bucket b us else []).
Proof.
  revert ops. induction us as [|u us IH]; intros ops; simpl; [case_decide; by rewrite app_nil_r|].
  rewrite IH, addUpd_get, <- app_assoc. f_equal. case_decide; [|done].
  unfold of_bucket. by rewrite <- filter_app.
Qed.

Lemma foldl_addUpd_shape p us ops : shape ops -> shape (foldl (addUpd p) ops us).
Proof. revert ops. induction us as [|u us IH]; intros ops Hs; simpl; auto using addUpd_shape. Qed.

Lemma foldl_addUpds (l : list (Z * updates)) ops b q : NoDup l.*1 ->
  get (foldl (fun bucketOps '(partID, partUpds) => foldl (addUpd partID) bucketOps partUpds) ops l) b q =
  get ops b q ++ of_bucket b (updsOf (list_to_map l) q).
Proof.
  revert ops. induction l as [|[p us] l IH]; intros ops Hnd; simpl.
  { unfold updsOf. rewrite lookup_empty. by rewrite app_nil_r. }
  apply NoDup_cons in Hnd as [Hp Hnd]. rewrite IH, foldl_addUpd by done. rewrite <- app_assoc. f_equal.
  unfold updsOf. case_decide as E.
  - subst. rewrite lookup_insert_eq, (not_elem_of_list_to_map_1 _ p) by done. simpl. by rewrite app_nil_r.
  - by rewrite lookup_insert_ne.
Qed.

Lemma txnToBuckets_shape t : shape (txnToBuckets t).
Proof.
  unfold txnToBuckets. assert (H0 : shape ∅) by (intros b m Hm; by rewrite lookup_empty in Hm).
  revert H0. generalize (∅ : Ops). induction (map_to_list (Upds t)) as [|[p us] l IH]; intros ops Hs; simpl;
    [done|]. by apply IH, foldl_addUpd_shape.
Qed.

Lemma txnToBuckets_lookup t b :
  txnToBuckets t !! b = if decide (part b (Upds t) = ∅) then None else Some (part b (Upds t)).
Proof.
  assert (Hg : forall q, get (txnToBuckets t) b q = of_bucket b (updsOf (Upds t) q)).
  { intros q. unfold txnToBuckets. rewrite foldl_addUpds by apply NoDup_fst_map_to_list.
    by rewrite list_to_map_to_list. }
  pose proof (txnToBuckets_shape t b) as Hs. unfold get in Hg.
  destruct (txnToBuckets t !! b) as [m|]; simpl in Hg.
  - destruct (Hs m eq_refl) as [Hne Hno]. assert (Hm : m = part b (Upds t)).
    { apply map_eq. intros p. rewrite part_lookup, <- Hg. unfold updsOf. specialize (Hno p).
      destruct (m !! p) as [[|u l]|]; simpl; done. }
    rewrite decide_False by congruence. by rewrite Hm.
  - rewrite decide_True; [done|]. apply map_eq. intros p. rewrite part_lookup, <- Hg.
    unfold updsOf. by rewrite lookup_empty.
Qed.

(** ** Putting together *)

Lemma addUpds_lookup (m u : gmap Z updates) p :
  addUpds m u !! p = match u !! p with
                     | Some l => Some (updsOf m p ++ l)
                     | None => m !! p
                     end.
Proof.
  unfold addUpds, updsOf.
  assert (H : forall l (m : gmap Z updates), NoDup l.*1 ->
    foldl (fun m '(partID, partUpds) => <[partID := default [] (m !! partID) ++ partUpds]> m) m l !! p =
    match (list_to_map l : gmap Z updates) !! p with
    | Some x => Some (default [] (m !! p) ++ x) | None => m !! p end).
  { clear m. induction l as [|[i x] l IH]; intros m Hnd; simpl; [by rewrite lookup_empty|].
    apply NoDup_cons in Hnd as [Hi Hnd]. rewrite IH by done. destruct (decide (i = p)) as [->|Hne].
    - rewrite lookup_insert_eq, (not_elem_of_list_to_map_1 _ p) by done. by rewrite lookup_insert_eq.
    - by rewrite !lookup_insert_ne. }
  rewrite H by apply NoDup_fst_map_to_list. by rewrite list_to_map_to_list.
Qed.

Lemma addUpds_empty (m : gmap Z updates) : addUpds m ∅ = m.
Proof. apply map_eq. intros p. by rewrite addUpds_lookup, lookup_empty. Qed.

Definition gather (bs : list string) (upds : gmap Z updates) : gmap Z updates :=
  foldl (fun m b => addUpds m (part b upds)) ∅ bs.

Lemma foldl_gather bs upds m p :
  updsOf (foldl (fun m b => addUpds m (part b upds)) m bs) p =
  updsOf m p ++ mjoin ((fun b => of_bucket b (updsOf upds p)) <$> bs).
Proof.
  revert m. induction bs as [|b bs IH]; intros m; simpl; [by rewrite app_nil_r|].
  rewrite IH. unfold updsOf at 1. rewrite addUpds_lookup, part_lookup.
  destruct (of_bucket b (updsOf upds p)) as [|u l] eqn:E; simpl; [done|].
  by rewrite <- app_assoc.
Qed.

Lemma gather_updsOf bs upds p :
  updsOf (gather bs upds) p = mjoin ((fun b => of_bucket b (updsOf upds p)) <$> bs).
Proof. unfold gather. rewrite foldl_gather. unfold updsOf at 1. by rewrite lookup_empty. Qed.

Lemma foldl_gather_nonempty bs upds m :
  (forall p, m !! p <> Some []) -> forall p, foldl (fun m b => addUpds m (part b upds)) m bs !! p <> Some [].
Proof.
  revert m. induction bs as [|b bs IH]; intros m Hm; simpl; [done|]. apply IH.
  intros p. rewrite addUpds_lookup, part_lookup. destruct (of_bucket b (updsOf upds p)); simpl; [done|].
  intros [= E]. by apply app_nil in E as [_ ?].
Qed.

Lemma gather_nonempty bs upds p : gather bs upds !! p <> Some [].
Proof. apply foldl_gather_nonempty. by intros q; rewrite lookup_empty. Qed.

Lemma gather_empty bs upds : gather bs upds = ∅ <-> forall b, b ∈ bs -> part b upds = ∅.
Proof.
  split.
  - intros Hg b Hb. apply map_eq. intros p. rewrite part_lookup, lookup_empty.
    pose proof (gather_updsOf bs upds p) as Hp. rewrite Hg in Hp. unfold updsOf at 1 in Hp.
    rewrite lookup_empty in Hp. simpl in Hp. symmetry in Hp.
    assert (of_bucket b (updsOf upds p) = []) as ->; [|done].
    induction bs as [|b' bs IH]; [by apply elem_of_nil in Hb|]. simpl in Hp.
    apply app_nil in Hp as [Hp1 Hp2]. apply elem_of_cons in Hb as [->|Hb]; [done|].
    clear -IH Hp2 Hb. revert Hp2 Hb. clear IH. induction bs as [|b' bs IH]; [by intros _ ?%elem_of_nil|].
    simpl. intros [? ?]%app_nil [->|?]%elem_of_cons; auto.
  - intros Hb. unfold gather. induction bs as [|b bs IH]; simpl; [done|].
    rewrite (Hb b) by by left. rewrite addUpds_empty. apply IH. intros b' Hb'. apply Hb. by right.
Qed.

(** Of a list of updates, the ones in some buckets, bucket by bucket. *)
Lemma of_buckets_perm bs (l : updates) : NoDup bs ->
  mjoin ((fun b => of_bucket b l) <$> bs) ≡ₚ filter (fun u => Bucket (upd_key u) ∈ bs) l.
Proof.
  intros Hnd. induction l as [|u l IH].
  { rewrite filter_nil. induction bs as [|b bs IHb]; simpl; [done|]. apply IHb. by inversion Hnd. }
  rewrite filter_cons. assert (Hcons : forall b, of_bucket b (u :: l) =
    (if decide (Bucket (upd_key u) = b) then [u] else []) ++ of_bucket b l).
  { intros b. unfold of_bucket. rewrite filter_cons. by case_decide. }
  assert (Hj : mjoin ((fun b => of_bucket b (u :: l)) <$> bs) ≡ₚ
    (if decide (Bucket (upd_key u) ∈ bs) then [u] else []) ++ mjoin ((fun b => of_bucket b l) <$> bs)).
  { clear IH. induction bs as [|b bs IHb]; simpl; [done|]. apply NoDup_cons in Hnd as [Hb Hnd].
    rewrite IHb, Hcons by done. destruct (decide (Bucket (upd_key u) = b)) as [<-|Hne].
    - rewrite decide_False by done. rewrite decide_True by by left. simpl. done.
    - destruct (decide (Bucket (upd_key u) ∈ bs)) as [Hi|Hi].
      + rewrite decide_True by by right. simpl. by rewrite Permutation_middle.
      + rewrite decide_False; [done|]. rewrite elem_of_cons. intros [?|?]; [by apply Hne|by apply Hi]. }
  rewrite Hj, IH. by case_decide.
Qed.

Lemma of_bucket_app b (l l' : updates) : of_bucket b (l ++ l') = of_bucket b l ++ of_bucket b l'.
Proof. apply filter_app. Qed.

Lemma of_bucket_gathered b bs (l : updates) : NoDup bs -> b ∈ bs ->
  of_bucket b (mjoin ((fun b => of_bucket b l) <$> bs)) = of_bucket b l.
Proof.
  assert (Hsame : forall b, of_bucket b (of_bucket b l) = of_bucket b l).
  { intros b'. unfold of_bucket. rewrite list_filter_filter. apply list_filter_iff. tauto. }
  assert (Hdiff : forall b', b' <> b -> of_bucket b (of_bucket b' l) = []).
  { intros b' Hne. unfold of_bucket. rewrite list_filter_filter. apply list_empty_elem. intros u Hu.
    apply list_elem_of_filter in Hu as [[? ?] _]. congruence. }
  assert (Hnot : forall cs, b ∉ cs -> of_bucket b (mjoin ((fun b => of_bucket b l) <$> cs)) = []).
  { induction cs as [|b' cs IHc]; intros Hb; simpl; [done|]. apply not_elem_of_cons in Hb as [Hb1 Hb2].
    rewrite of_bucket_app, Hdiff by congruence. by apply IHc. }
  induction bs as [|b' bs IH]; intros Hnd Hb; [by apply elem_of_nil in Hb|].
  apply NoDup_cons in Hnd as [Hb' Hnd]. simpl. rewrite of_bucket_app.
  destruct (decide (b' = b)) as [->|Hne].
  - rewrite Hsame, Hnot by done. by rewrite app_nil_r.
  - rewrite Hdiff by done. apply IH; [done|]. by apply elem_of_cons in Hb as [->|Hb].
Qed.
End buckets.
