(* ===== verification/RemoteConnGroups.v ===== *)
(** * Groups of transactions put together again

    Lemmas about [mergeOuter] of file RemoteConn: the parts of the transactions
    of a group, each bucket's in a message of its own, give the transactions that
    write to the buckets, in order, whatever the order of the messages. *)

From S2P Require Import Prelude ClockSI ClockCodec Keys PartitionClock Logger Replicator.
From S2P Require Import ReplicatorProto RemoteConn RemoteConnBuckets.
From Stdlib Require Import ZArith Lia Bool.
From stdpp Require Import base tactics numbers strings gmap sorting list.
#[local] Open Scope Z_scope.

Section groups.
Context {Upd : Type}.
Abbreviation updates := (list (UpdateObjectParams Upd)).
Abbreviation Txn := (RemoteTxn Upd).

Definition with_upds (upds : gmap Z updates) (t : Txn) : Txn :=
  mkRemoteTxn (SenderID t) (Clk t) upds (TxnID t).

(** What a transaction writes, if anything, according to [f]. *)
Definition only (f : gmap Z updates -> gmap Z updates) (t : Txn) : option Txn :=
  if decide (f (Upds t) = ∅) then None else Some (with_upds (f (Upds t)) t).

Definition inBucket (b : string) (l : list Txn) : list Txn := omap (only (part b)) l.
Definition inBuckets (bs : list string) (l : list Txn) : list Txn := omap (only (gather bs)) l.

Lemma inBucket_cons b t l : inBucket b (t :: l) =
  if decide (part b (Upds t) = ∅) then inBucket b l else with_upds (part b (Upds t)) t :: inBucket b l.
Proof. unfold inBucket, only. simpl. by case_decide. Qed.

Lemma inBuckets_cons bs t l : inBuckets bs (t :: l) =
  if decide (gather bs (Upds t) = ∅) then inBuckets bs l else with_upds (gather bs (Upds t)) t :: inBuckets bs l.
Proof. unfold inBuckets, only. simpl. by case_decide. Qed.

Fixpoint numbered (k : Z) (l : list Txn) : Prop :=
  match l with
  | [] => True
  | t :: l => TxnID t = k /\ numbered (k + 1) l
  end.

Lemma numbered_ge k l t : numbered k l -> t ∈ l -> k <= TxnID t.
Proof.
  revert k. induction l as [|t' l IH]; intros k Hn Ht; [by apply elem_of_nil in Ht|].
  destruct Hn as [Hk Hn]. apply elem_of_cons in Ht as [->|Ht]; [lia|]. specialize (IH _ Hn Ht). lia.
Qed.

Lemma only_id f t t' : only f t = Some t' -> TxnID t' = TxnID t.
Proof. unfold only. case_decide; [done|]. by intros [= <-]. Qed.

Lemma inBucket_ge k b l t : numbered k l -> t ∈ inBucket b l -> k <= TxnID t.
Proof.
  intros Hn (t0 & Ht0 & Ho)%list_elem_of_omap. rewrite (only_id _ _ _ Ho). by eapply numbered_ge.
Qed.

Lemma inBucket_head k b l t l' : numbered (k + 1) l -> inBucket b l = t :: l' -> k < TxnID t.
Proof.
  intros Hn E. assert (k + 1 <= TxnID t); [|lia]. eapply inBucket_ge; [done|]. rewrite E. by left.
Qed.

(** The first transactions that do not write to the buckets. *)
Fixpoint skip (bs : list string) (l : list Txn) : list Txn :=
  match l with
  | [] => []
  | t :: l' => if decide (gather bs (Upds t) = ∅) then skip bs l' else l
  end.

Lemma skip_inBuckets bs l : inBuckets bs (skip bs l) = inBuckets bs l.
Proof.
  induction l as [|t l IH]; [done|]. rewrite inBuckets_cons. cbn [skip]. case_decide; [exact IH|].
  rewrite inBuckets_cons. by rewrite decide_False.
Qed.

Lemma skip_inBucket bs l b : b ∈ bs -> inBucket b (skip bs l) = inBucket b l.
Proof.
  intros Hb. induction l as [|t l IH]; [done|]. cbn [skip]. case_decide as E; [|done].
  rewrite IH, inBucket_cons. rewrite decide_True; [done|]. by apply (gather_empty bs).
Qed.

Lemma inBucket_skips bs l : (fun b => inBucket b l) <$> bs = (fun b => inBucket b (skip bs l)) <$> bs.
Proof.
  apply list_fmap_ext. intros i b Hb. symmetry. apply skip_inBucket. by apply list_elem_of_lookup_2 in Hb.
Qed.

Lemma skip_numbered bs k l : numbered k l ->
  match skip bs l with [] => True | t :: _ => k <= TxnID t /\ numbered (TxnID t) (skip bs l) end.
Proof.
  revert k. induction l as [|t l IH]; intros k Hn; simpl; [done|]. destruct Hn as [Hk Hn].
  case_decide.
  - specialize (IH _ Hn). destruct (skip bs l); [done|]. destruct IH. split; [lia|done].
  - split; [lia|]. by rewrite Hk.
Qed.

Lemma skip_touched bs l t l' : skip bs l = t :: l' -> gather bs (Upds t) <> ∅.
Proof. induction l as [|t0 l IH]; simpl; [done|]. case_decide; [done|]. by intros [= -> ->]. Qed.

(** The lowest number among the first transactions of the groups. *)
Definition lowest (z : Z) (groups : list (list Txn)) : Z :=
  foldl (fun z g => match g with [] => z | t :: _ => Z.min (TxnID t) z end) z groups.

Lemma lowest_le z groups : lowest z groups <= z.
Proof.
  revert z. induction groups as [|g groups IH]; intros z; simpl; [lia|].
  etrans; [apply IH|]. destruct g; lia.
Qed.

Lemma lowest_ge k z groups : k <= z -> (forall g t l, g ∈ groups -> g = t :: l -> k <= TxnID t) ->
  k <= lowest z groups.
Proof.
  revert z. induction groups as [|g groups IH]; intros z Hz Hg; simpl; [done|]. apply IH.
  - destruct g as [|t g]; [done|]. specialize (Hg _ t g ltac:(by left) eq_refl). lia.
  - intros g' t l Hin. apply Hg. by right.
Qed.

Lemma lowest_head z groups t l : (t :: l) ∈ groups -> lowest z groups <= TxnID t.
Proof.
  revert z. induction groups as [|g groups IH]; intros z Hin; [by apply elem_of_nil in Hin|].
  apply elem_of_cons in Hin as [<-|Hin]; simpl; [|by apply IH].
  etrans; [apply lowest_le|]. lia.
Qed.

Lemma lowest_skip bs z k l : numbered k l -> (forall t, t ∈ l -> TxnID t <= z) ->
  lowest z ((fun b => inBucket b l) <$> bs) =
  match skip bs l with [] => z | t :: _ => TxnID t end.
Proof.
  intros Hn Hz. rewrite (inBucket_skips bs l).
  assert (Hsub : forall t, t ∈ skip bs l -> t ∈ l).
  { clear. induction l as [|t0 l IH]; simpl; [done|]. case_decide; intros t; [|done]. intros ?. right. by apply IH. }
  pose proof (skip_numbered bs k l Hn) as Hsn. destruct (skip bs l) as [|t l'] eqn:Es.
  - clear. induction bs as [|b bs IH]; simpl; [done|]. exact IH.
  - destruct Hsn as [_ Hsn]. apply Z.le_antisymm.
    + pose proof (skip_touched _ _ _ _ Es) as Ht.
      assert (exists b, b ∈ bs /\ part b (Upds t) <> ∅) as (b & Hb & Hp).
      { destruct (decide (Exists (fun b => part b (Upds t) <> ∅) bs)) as [Hx|Hx].
        - by apply Exists_exists in Hx.
        - exfalso. apply Ht, gather_empty. intros b Hb. apply dec_stable. intros Hne. apply Hx, Exists_exists. eauto. }
      assert (Hw : inBucket b (t :: l') = with_upds (part b (Upds t)) t :: inBucket b l').
      { rewrite inBucket_cons. by rewrite decide_False. }
      change (TxnID t) with (TxnID (with_upds (part b (Upds t)) t)). eapply lowest_head with (inBucket b l').
      rewrite <- Hw. apply list_elem_of_fmap. by exists b.
    + apply lowest_ge.
      * apply Hz, Hsub. by left.
      * intros g t' g' (b & -> & Hb)%list_elem_of_fmap E. eapply inBucket_ge; [exact Hsn|]. rewrite E. by left.
Qed.

(** ** One round *)

Lemma round_touching t l (bs : list string) : numbered (TxnID t) (t :: l) -> forall st,
  foldl (mergeInner (TxnID t)) st ((fun b => inBucket b (t :: l)) <$> bs) =
  mkMerge (foldl (fun m b => addUpds m (part b (Upds t))) (currMergedUpds st) bs)
    (if decide (gather bs (Upds t) = ∅) then currClk st else Clk t)
    (lowest (potencialSkip st)
       (omap (fun b => if decide (part b (Upds t) = ∅) then Some (inBucket b l) else None) bs))
    (rest st ++ ((fun b => inBucket b l) <$> bs)).
Proof.
  intros [_ Hn]. induction bs as [|b bs IH]; intros st; [destruct st; simpl; by rewrite app_nil_r|].
  cbn [fmap list_fmap foldl omap list_omap]. rewrite IH.
  assert (Hg : gather (b :: bs) (Upds t) = ∅ <-> part b (Upds t) = ∅ /\ gather bs (Upds t) = ∅).
  { rewrite !gather_empty. split.
    - intros H. split; [apply H; by left|]. intros b' Hb'. apply H. by right.
    - intros [H1 H2] b' [->|Hb']%elem_of_cons; auto. }
  rewrite inBucket_cons. destruct (decide (part b (Upds t) = ∅)) as [Hp|Hp].
  - assert (Hst : mergeInner (TxnID t) st (inBucket b l) =
      mkMerge (currMergedUpds st) (currClk st) (lowest (potencialSkip st) [inBucket b l]) (rest st ++ [inBucket b l])).
    { unfold mergeInner. destruct (inBucket b l) as [|t' l'] eqn:E; [done|].
      pose proof (inBucket_head _ _ _ _ _ Hn E). rewrite (proj2 (Z.eqb_neq _ _)) by lia. done. }
    rewrite Hst. cbn [currMergedUpds currClk potencialSkip rest]. rewrite Hp, addUpds_empty, <- app_assoc. cbn [app]. f_equal.
    destruct (decide (gather bs (Upds t) = ∅)) as [Hq|Hq].
    + rewrite decide_True; [done|]. by apply Hg.
    + rewrite decide_False; [done|]. rewrite Hg. tauto.
  - cbn [mergeInner with_upds TxnID Upds Clk]. rewrite Z.eqb_refl.
    cbn [currMergedUpds currClk potencialSkip rest]. rewrite <- app_assoc. f_equal.
    rewrite (decide_False (P := gather (b :: bs) (Upds t) = ∅)) by (rewrite Hg; tauto). by case_decide.
Qed.

Lemma lowest_untouched (t : Txn) (l : list Txn) bs z : gather bs (Upds t) = ∅ ->
  lowest z (omap (fun b => if decide (part b (Upds t) = ∅) then Some (inBucket b l) else None) bs) =
  lowest z ((fun b => inBucket b l) <$> bs).
Proof.
  intros Hg. f_equal. rewrite gather_empty in Hg. induction bs as [|b bs IH]; simpl; [done|].
  rewrite decide_True by (apply Hg; by left). f_equal. apply IH. intros b' Hb'. apply Hg. by right.
Qed.

Lemma totalLen_le (t : Txn) (l : list Txn) bs :
  (totalLen ((fun b => inBucket b l) <$> bs) <= totalLen ((fun b => inBucket b (t :: l)) <$> bs))%nat.
Proof.
  unfold totalLen. induction bs as [|b bs IH]; [done|]. cbn [fmap list_fmap sum_list_with].
  rewrite inBucket_cons. case_decide; cbn [length]; lia.
Qed.

Lemma totalLen_lt (t : Txn) (l : list Txn) bs : gather bs (Upds t) <> ∅ ->
  (totalLen ((fun b => inBucket b l) <$> bs) < totalLen ((fun b => inBucket b (t :: l)) <$> bs))%nat.
Proof.
  intros Hg. induction bs as [|b bs IH]; [done|].
  pose proof (totalLen_le t l bs) as Hle. unfold totalLen in *. cbn [fmap list_fmap sum_list_with].
  rewrite inBucket_cons. destruct (decide (part b (Upds t) = ∅)) as [Hp|Hp].
  - apply Nat.add_lt_mono_l, IH. intros Hq. apply Hg. rewrite gather_empty in Hq |- *.
    intros b' [->|Hb']%elem_of_cons; auto.
  - cbn [length]. unfold fmap in *. lia.
Qed.

(** ** The loop *)

Definition retagged (sender : Z) (l : list Txn) : list Txn :=
  (fun t => mkRemoteTxn sender (Clk t) (Upds t) (TxnID t)) <$> l.

Lemma mergeOuter_ok sender maxID bs : inS 32 maxID -> maxID < MaxInt32 -> forall fuel l currID clk merged,
  (match l with [] => maxID < currID | t :: _ => TxnID t = currID /\ inS 32 currID end) ->
  numbered currID l -> (forall t, t ∈ l -> TxnID t <= maxID) ->
  (forall l1 t, l = l1 ++ [t] -> TxnID t = maxID) ->
  (2 * totalLen ((fun b => inBucket b l) <$> bs) + 1 <= fuel \/
   (match l with t :: _ => gather bs (Upds t) <> ∅ | [] => True end /\
    2 * totalLen ((fun b => inBucket b l) <$> bs) <= fuel))%nat ->
  mergeOuter fuel sender currID maxID clk ((fun b => inBucket b l) <$> bs) merged =
  Some (merged ++ retagged sender (inBuckets bs l)).
Proof.
  intros Hmax HmaxI. induction fuel as [|fuel IH]; intros l currID clk merged Hcur Hn Hle Hlast Hfuel.
  { destruct l as [|t l]; cbn [mergeOuter].
    - rewrite (proj2 (Z.leb_gt _ _)) by lia. by rewrite app_nil_r.
    - exfalso. destruct Hfuel as [Hf|[Ht Hf]]; [lia|]. pose proof (totalLen_lt t l bs Ht). lia. }
  cbn [mergeOuter]. destruct l as [|t l].
  { rewrite (proj2 (Z.leb_gt _ _)) by lia. by rewrite app_nil_r. }
  destruct Hcur as [<- Hc]. rewrite (proj2 (Z.leb_le _ _)) by (apply Hle; by left).
  rewrite round_touching by done. cbn [currMergedUpds currClk potencialSkip rest app].
  fold (gather bs (Upds t)). destruct Hn as [_ Hn].
  assert (Hle' : forall t, t ∈ l -> TxnID t <= maxID) by (intros ? ?; apply Hle; by right).
  assert (Hlast' : forall l1 t, l = l1 ++ [t] -> TxnID t = maxID).
  { intros l1 t' ->. by apply (Hlast (t :: l1)). }
  rewrite inBuckets_cons. destruct (decide (gather bs (Upds t) = ∅)) as [Hg|Hg].
  - rewrite Hg, map_size_empty. cbn [Nat.ltb Nat.leb]. rewrite lowest_untouched by done.
    rewrite lowest_skip with (k := TxnID t + 1); [|done|intros t' Ht'; specialize (Hle' t' Ht'); lia].
    assert (Hsk : (fun b => inBucket b l) <$> bs = (fun b => inBucket b (skip bs l)) <$> bs).
    { apply inBucket_skips. }
    rewrite Hsk, <- skip_inBuckets.
    pose proof (totalLen_le t l bs) as Htl. rewrite Hsk in Htl.
    assert (Hsuf : exists l0, l = l0 ++ skip bs l).
    { clear. induction l as [|t0 l [l0 IH]]; simpl; [by exists []|]. case_decide; [|by exists []].
      exists (t0 :: l0). simpl. by f_equal. }
    destruct Hsuf as [l0 Hl0].
    pose proof (skip_numbered bs _ _ Hn) as Hsn. pose proof (skip_touched bs l) as Hst.
    assert (Hle2 : forall t, t ∈ skip bs l -> TxnID t <= maxID).
    { intros t' Ht'. apply Hle'. rewrite Hl0. apply elem_of_app. by right. }
    assert (Hlast2 : forall l1 t, skip bs l = l1 ++ [t] -> TxnID t = maxID).
    { intros l1 t' E. apply (Hlast' (l0 ++ l1)). by rewrite <- app_assoc, <- E. }
    apply IH.
    + destruct (skip bs l) as [|t1 l1]; [done|]. split; [done|].
      assert (TxnID t1 <= maxID) by (apply Hle2; by left). unfold inS in *. lia.
    + destruct (skip bs l) as [|t1 l1]; [done|]. by destruct Hsn.
    + done.
    + done.
    + right. split; [|destruct Hfuel as [?|[? ?]]; [lia|done]].
      destruct (skip bs l) as [|t1 l1]; [done|]. by apply (Hst t1 l1).
  - rewrite (proj2 (Nat.ltb_lt _ _)); [|].
    2:{ apply Nat.neq_0_lt_0. intros Hs. by apply map_size_empty_inv in Hs. }
    pose proof (totalLen_lt t l bs Hg) as Htl.
    assert (Ht : TxnID t <= maxID) by (apply Hle; by left).
    rewrite wrapS_id by (unfold inS in *; unfold MaxInt32 in *; lia).
    rewrite IH; [..|].
    + rewrite <- app_assoc. done.
    + destruct l as [|t1 l1]; [|destruct Hn as [? _]; split; [done|]].
      * rewrite <- (Hlast [] t eq_refl). lia.
      * specialize (Hle' t1 ltac:(by left)). unfold inS in *. lia.
    + done.
    + done.
    + done.
    + left. destruct Hfuel as [?|[? ?]]; lia.
Qed.
End groups.
