(* ===== verification/RemoteConnSend.v ===== *)
(** * What a replica publishes

    Lemmas about the sending half of file RemoteConn: the messages of a
    transaction, and of a group of them, are one per bucket they write to. *)

From S2P Require Import Prelude ClockSI ClockCodec Keys PartitionClock Logger Replicator.
From S2P Require Import ReplicatorProto RemoteConn RemoteConnOrder RemoteConnBuckets RemoteConnGroups.
From Stdlib Require Import ZArith Lia Bool.
From stdpp Require Import base tactics numbers strings gmap sorting list.
#[local] Open Scope Z_scope.

Lemma map_to_list_fst {A} (m : gmap string A) (f : string -> A) :
  (forall b x, m !! b = Some x -> x = f b) ->
  map_to_list m = (fun b => (b, f b)) <$> (map_to_list m).*1.
Proof.
  intros Hm. rewrite <- list_fmap_compose. rewrite <- (list_fmap_id (map_to_list m)) at 1.
  apply list_fmap_ext. intros i [b x] Hi%list_elem_of_lookup_2%elem_of_map_to_list.
  unfold id. simpl. by rewrite <- (Hm b x Hi).
Qed.

Lemma mapM_fmap_all {A B C} (f : A -> option B) (g : C -> A) (h : C -> B) (l : list C) :
  (forall x, x ∈ l -> f (g x) = Some (h x)) -> mapM f (g <$> l) = Some (h <$> l).
Proof.
  intros Hf. apply mapM_Some_2, Forall2_fmap, Forall_Forall2_diag, Forall_forall. exact Hf.
Qed.

Section send.
Context {Upd POp : Type} `{Codec : DownstreamCodec Upd POp} `{PB : Protobuf POp}.
Abbreviation updates := (list (UpdateObjectParams Upd)).
Abbreviation Txn := (RemoteTxn Upd).

(** ** Numbers *)

Lemma numberTxns_ok n (l : list Txn) : inS 32 n -> n + Z.of_nat (length l) <= MaxInt32 ->
  numbered n (numberTxns n l) /\
  (forall t, t ∈ numberTxns n l -> TxnID t < n + Z.of_nat (length l)) /\
  (forall l1 t, numberTxns n l = l1 ++ [t] -> TxnID t = n + Z.of_nat (length l) - 1).
Proof.
  revert n. induction l as [|t l IH]; intros n Hn Hl; simpl.
  { split; [done|]. split; [by intros ? ?%elem_of_nil|]. intros [|? ?]; done. }
  cbn [length] in Hl. rewrite wrapS_id by (unfold inS, MaxInt32 in *; lia).
  destruct (IH (n + 1)) as (H1 & H2 & H3); [unfold inS, MaxInt32 in *; lia|lia|].
  split; [done|]. split.
  - intros t' [->|Ht']%elem_of_cons; simpl; [lia|]. specialize (H2 _ Ht'). lia.
  - intros l1 t' E. destruct l1 as [|t1 l1]; injection E as <- E.
    + destruct l; [simpl; lia|done].
    + specialize (H3 _ _ E). lia.
Qed.

Lemma numberTxns_length n (l : list Txn) : length (numberTxns n l) = length l.
Proof. revert n. induction l as [|t l IH]; intros n; simpl; congruence. Qed.

Lemma numberTxns_lookup n (l : list Txn) i t :
  numberTxns n l !! i = Some t -> TxnID t = int32 (n + Z.of_nat i) \/ (i = 0%nat /\ TxnID t = n).
Proof.
  revert n i. induction l as [|t0 l IH]; intros n i; simpl; [done|]. destruct i as [|i]; simpl.
  - intros [= <-]. right. done.
  - intros [Ht|[-> Ht]]%IH; left; rewrite Ht; [rewrite wrapS_add_l by lia|]; f_equal; lia.
Qed.

(** ** Transactions one by one *)

Definition bucketsOf (t : Txn) : list string := (map_to_list (txnToBuckets t)).*1.

Lemma bucketsOf_NoDup t : NoDup (bucketsOf t).
Proof. apply NoDup_fst_map_to_list. Qed.

Lemma elem_of_bucketsOf t b : b ∈ bucketsOf t <-> part b (Upds t) <> ∅.
Proof.
  unfold bucketsOf. rewrite list_elem_of_fmap. split.
  - intros ([b' u] & -> & Hu%elem_of_map_to_list). simpl. rewrite txnToBuckets_lookup in Hu. by case_decide.
  - intros Hp. exists (b, part b (Upds t)). split; [done|]. apply elem_of_map_to_list.
    rewrite txnToBuckets_lookup. by rewrite decide_False.
Qed.

Lemma map_to_list_txnToBuckets (t : Txn) :
  map_to_list (txnToBuckets t) = (fun b => (b, part b (Upds t))) <$> bucketsOf t.
Proof.
  apply map_to_list_fst. intros b x. rewrite txnToBuckets_lookup. case_decide; [done|]. by intros [= <-].
Qed.

Definition txnMsg (self : Z) (t : Txn) (b : string) : list Z :=
  Marshal (PTxn (createProtoReplicateTxn self (Clk t) (part b (Upds t)) (TxnID t))).

Lemma MarshallWork_eq self t :
  MarshallWork self t =
  mkReply ((fun b => mkPair' (bucketTopicPrefix +:+ b) (txnMsg self t b)) <$> bucketsOf t) (TxnID t).
Proof.
  unfold MarshallWork. rewrite map_to_list_txnToBuckets, <- list_fmap_compose. done.
Qed.

(** Whatever the order of the answers of the workers. *)
Lemma SendTxnsIndividually_in_order max c txns replies :
  inS 32 (txnCount c) -> Z.of_nat (length txns) < 2 ^ 31 ->
  (forall t, t ∈ txns -> bucketsOf t <> []) ->
  replies ≡ₚ individualWork c txns ->
  SendTxnsIndividually max c txns replies =
  Some (mjoin ((fun t => mjoin ((fun b => sendMsg max (bucketTopicPrefix +:+ b) (txnMsg (replicaID c) t b))
                                  <$> bucketsOf t)) <$> numberTxns (txnCount c) txns),
        set_count (int32 (txnCount c + Z.of_nat (length txns))) c).
Proof.
  intros Hc Hlen Hne Hperm. set (work := individualWork c txns) in *.
  set (w := fun i => match work !! i with
                     | Some r => r
                     | None => mkReply [mkPair' EmptyString []] (int32 (txnCount c + Z.of_nat i))
                     end).
  assert (Hwl : length work = length txns)
    by (unfold work, individualWork; by rewrite length_fmap, numberTxns_length).
  assert (Hw : w <$> seq 0 (length txns) = work).
  { apply list_eq. intros i. rewrite list_lookup_fmap. destruct (decide (i < length txns)%nat) as [Hi|Hi].
    - rewrite lookup_seq_lt by done. simpl. unfold w. destruct (work !! i) eqn:E; [done|].
      apply lookup_ge_None_1 in E. lia.
    - rewrite lookup_seq_ge by lia. simpl. symmetry. apply lookup_ge_None_2. lia. }
  assert (Hat : forall i r, work !! i = Some r -> exists t0 t, t0 ∈ txns /\ Upds t = Upds t0 /\
    r = MarshallWork (replicaID c) t /\ TxnID t = int32 (txnCount c + Z.of_nat i)).
  { intros i r (t & -> & Ht)%list_lookup_fmap_Some.
    assert (Hin : exists t0, t0 ∈ txns /\ Upds t = Upds t0).
    { clear -Ht. revert Ht. generalize (txnCount c). revert i.
      induction txns as [|t0 l IH]; intros i n; simpl; [done|]. destruct i as [|i]; simpl.
      - intros [= <-]. exists t0. split; [by left|done].
      - intros (t1 & ? & ?)%IH. exists t1. split; [by right|done]. }
    destruct Hin as (t0 & ? & ?). exists t0, t. split; [done|]. split; [done|]. split; [done|].
    destruct (numberTxns_lookup _ _ _ _ Ht) as [?|[-> Hi]]; [done|]. rewrite Z.add_0_r, Hi.
    symmetry. by apply wrapS_id. }
  unfold SendTxnsIndividually. destruct (decide (length txns = 0)%nat) as [E0|E0].
  { apply nil_length_inv in E0. subst txns. assert (replies = []) as ->; [|done].
    apply Permutation_nil. symmetry. exact Hperm. }
  destruct (replies_in_order (txnCount c) (length txns) w) with (replies := replies) as (buf & off & Hf).
  - intros i. unfold w. destruct (work !! i) as [r|] eqn:E; [|done].
    destruct (Hat i r E) as (t0 & t & _ & _ & -> & Hid). done.
  - intros i. unfold w. destruct (work !! i) as [r|] eqn:E; [|done].
    destruct (Hat i r E) as (t0 & t & Hin & Hu & -> & Hid). rewrite MarshallWork_eq. cbn [Result].
    intros E1%fmap_nil_inv. apply (Hne t0 Hin). unfold bucketsOf, txnToBuckets in *. by rewrite <- Hu.
  - done.
  - lia.
  - by apply wrapS_id.
  - by rewrite Hw.
  - rewrite Hf. cbn [mbind option_bind]. f_equal. f_equal. unfold resultsTo.
    assert (Er : (fun i => Result (w i)) <$> seq 0 (length txns) = Result <$> work)
      by (rewrite <- Hw, <- list_fmap_compose; done).
    rewrite Er. unfold work, individualWork. rewrite <- list_fmap_compose. generalize (replicaID c) as self.
    generalize (numberTxns (txnCount c) txns) as l. intros l self. induction l as [|t l IH]; [done|].
    cbn [fmap list_fmap mjoin list_join]. rewrite fmap_app, join_app. f_equal; [|exact IH].
    unfold compose. rewrite MarshallWork_eq. cbn [Result]. rewrite <- list_fmap_compose. done.
Qed.

(** ** Groups *)

Definition known (c : SendConn) (t : Txn) : Prop :=
  allBuckets c = true \/ forall b, b ∈ bucketsOf t -> b ∈ buckets c.

Lemma addBktTxns (all : bool) (t : Txn) L : forall bops,
  NoDup L.*1 -> (all = true \/ forall b, b ∈ L.*1 -> is_Some (bops !! b)) ->
  exists bops', foldM (addBktTxn all t) bops L = Some bops' /\
    forall b, bops' !! b = match (list_to_map L : gmap string (gmap Z updates)) !! b with
                           | Some u => Some (default [] (bops !! b) ++ [with_upds u t])
                           | None => bops !! b
                           end.
Proof.
  induction L as [|[b0 u0] L IH]; intros bops Hnd Hk.
  { exists bops. split; [done|]. intros b. simpl. by rewrite lookup_empty. }
  apply NoDup_cons in Hnd as [Hb0 Hnd]. cbn [foldM].
  assert (Hadd : addBktTxn all t bops (b0, u0) =
    Some (<[b0 := default [] (bops !! b0) ++ [with_upds u0 t]]> bops)).
  { unfold addBktTxn. destruct (bops !! b0) as [l|] eqn:E; [done|]. destruct Hk as [->|Hk]; [done|].
    destruct (Hk b0) as [x Hx]; [by left|]. congruence. }
  rewrite Hadd. cbn [mbind option_bind].
  destruct (IH (<[b0 := default [] (bops !! b0) ++ [with_upds u0 t]]> bops) Hnd) as (bops' & Hf & Hl).
  { destruct Hk as [?|Hk]; [by left|right]. intros b Hb. destruct (decide (b0 = b)) as [->|Hne].
    - rewrite lookup_insert_eq. eauto.
    - rewrite lookup_insert_ne by done. apply Hk. by right. }
  exists bops'. split; [done|]. intros b. rewrite Hl. simpl. destruct (decide (b0 = b)) as [<-|Hne].
  - rewrite !lookup_insert_eq, (not_elem_of_list_to_map_1 _ b0) by done. done.
  - by rewrite !lookup_insert_ne.
Qed.

Lemma groupBuckets_lookup c txns : Forall (known c) txns ->
  exists bops, groupBuckets c txns = Some bops /\
    forall b, default [] (bops !! b) = inBucket b txns.
Proof.
  intros Hk. unfold groupBuckets.
  set (init := if allBuckets c then _ else _ : gmap string (list Txn)).
  assert (Hinit : forall b, default [] (init !! b) = inBucket b []).
  { intros b. unfold init. destruct (allBuckets c); [by rewrite lookup_empty|].
    destruct (list_to_map _ !! b) as [l|] eqn:E; [|done].
    apply elem_of_list_to_map_2, list_elem_of_fmap in E as (? & [= <- ->] & ?). done. }
  assert (Hdom : allBuckets c = true \/ forall b, b ∈ buckets c -> is_Some (init !! b)).
  { unfold init. destruct (allBuckets c); [by left|right]. intros b Hb.
    destruct (list_to_map ((fun bkt => (bkt, [])) <$> buckets c) !! b) as [l|] eqn:E; [eauto|].
    exfalso. apply not_elem_of_list_to_map_2 in E. apply E. rewrite <- list_fmap_compose.
    apply list_elem_of_fmap. by exists b. }
  clearbody init. enough (Hgen : forall before bops,
    (forall b, default [] (bops !! b) = inBucket b before) ->
    (allBuckets c = true \/ forall b, b ∈ buckets c -> is_Some (bops !! b)) ->
    exists bops', foldM (fun bucketOps txn =>
        foldM (addBktTxn (allBuckets c) txn) bucketOps (map_to_list (txnToBuckets txn))) bops txns = Some bops' /\
      forall b, default [] (bops' !! b) = inBucket b (before ++ txns)) by by apply (Hgen []).
  clear Hinit Hdom init. induction txns as [|t txns IH]; intros before bops Hb Hd; cbn [foldM].
  { exists bops. split; [done|]. intros b. by rewrite app_nil_r, Hb. }
  apply Forall_cons in Hk as [Hkt Hk].
  destruct (addBktTxns (allBuckets c) t (map_to_list (txnToBuckets t)) bops) as (bops1 & Hf & Hl).
  { apply NoDup_fst_map_to_list. }
  { destruct Hd as [?|Hd]; [by left|]. destruct Hkt as [?|Hkt]; [by left|right]. intros b Hin. auto. }
  rewrite Hf. cbn [mbind option_bind].
  destruct (IH Hk (before ++ [t]) bops1) as (bops2 & Hf2 & Hl2).
  - intros b. rewrite Hl, list_to_map_to_list, txnToBuckets_lookup. unfold inBucket.
    rewrite omap_app. fold (inBucket b before) (inBucket b [t]). rewrite inBucket_cons, <- Hb.
    case_decide; simpl; [by rewrite app_nil_r|done].
  - destruct Hd as [?|Hd]; [by left|right]. intros b Hin. rewrite Hl.
    destruct (list_to_map _ !! b); eauto.
  - exists bops2. split; [done|]. intros b. rewrite Hl2. by rewrite <- app_assoc.
Qed.

Definition groupMsg (self : Z) (txns : list Txn) (b : string) : list Z :=
  Marshal (PGroup (mkProtoGroup self
    ((fun txn => createProtoReplicateTxn self (Clk txn) (Upds txn) (TxnID txn)) <$> inBucket b txns)
    (default 0 (TxnID <$> head txns)) (default 0 (TxnID <$> last txns)))).

Lemma groupWork_ok c txns : Forall (known c) txns ->
  exists bs, NoDup bs /\ (forall b, b ∈ bs <-> inBucket b (numberTxns (txnCount c) txns) <> []) /\
  groupWork c txns =
  Some ((fun b => mkPair' b (groupMsg (replicaID c) (numberTxns (txnCount c) txns) b)) <$> bs).
Proof.
  intros Hk. unfold groupWork. set (l := numberTxns (txnCount c) txns).
  assert (Hkl : Forall (known c) l).
  { unfold l. generalize (txnCount c). induction Hk as [|t txns Hkt Hk IH]; intros n; simpl; constructor; auto. }
  destruct (groupBuckets_lookup c l Hkl) as (bops & -> & Hb). cbn [mbind option_bind].
  set (keep := List.filter (fun e : string * list Txn => (0 <? length e.2)%nat) (map_to_list bops)).
  assert (Hin : forall e, e ∈ keep <-> bops !! e.1 = Some e.2 /\ e.2 <> []).
  { intros [b u]. unfold keep. rewrite list_elem_of_In, filter_In, <- list_elem_of_In, elem_of_map_to_list.
    simpl. rewrite Nat.ltb_lt. destruct u; simpl; split; intros [? ?]; split; done || lia. }
  assert (Hkeep : keep = (fun b => (b, inBucket b l)) <$> keep.*1).
  { rewrite <- list_fmap_compose. rewrite <- (list_fmap_id keep) at 1. apply list_fmap_ext.
    intros i [b u] Hi%list_elem_of_lookup_2%Hin. simpl in *. unfold id. rewrite <- Hb.
    destruct Hi as [-> _]. done. }
  exists keep.*1. split.
  { unfold keep. assert (Hnd : NoDup (map_to_list bops).*1) by apply NoDup_fst_map_to_list. revert Hnd.
    generalize (map_to_list bops). intros L. induction L as [|[b u] L IH]; [constructor|].
    cbn [fmap list_fmap List.filter]. intros [Hni Hnd]%NoDup_cons.
    destruct (0 <? _)%nat; [|by apply IH]. cbn [fmap list_fmap]. apply NoDup_cons. split; [|by apply IH].
    intros (e & He & Hf%list_elem_of_In%filter_In)%list_elem_of_fmap. apply Hni, list_elem_of_fmap.
    exists e. split; [done|]. by apply list_elem_of_In, (proj1 Hf). }
  split.
  - intros b. rewrite list_elem_of_fmap. split.
    + intros ([b' u] & -> & [Hu Hne]%Hin). simpl in *. rewrite <- Hb, Hu. done.
    + intros Hne. exists (b, inBucket b l). split; [done|]. apply Hin. simpl. split; [|done].
      rewrite <- Hb in *. by destruct (bops !! b).
  - rewrite Hkeep at 1. apply mapM_fmap_all. intros b Hbk.
    assert (Hne : l <> []).
    { intros E. apply list_elem_of_fmap in Hbk as ([b' u] & -> & [Hu Hne]%Hin). simpl in *.
      pose proof (Hb b') as Hbb. rewrite Hu, E in Hbb. done. }
    unfold GroupMarshallWork, createProtoReplicateGroupTxn, groupMsg. cbn [fst snd].
    destruct (head l) as [first|] eqn:Eh; [|by destruct l].
    destruct (last l) as [lst|] eqn:El; [|by apply last_None in El]. done.
Qed.
End send.
