(* ===== verification/RemoteConnTxns.v ===== *)
(** * From the replicator of a replica to that of another

    Files RemoteConn and Replicator put together: what a replica's replicator
    sends, another replica's connection gives to its own, for the buckets it
    holds, whatever the order in which the workers answer.

    The broker is a parameter: [delivered] is what it delivers to a queue with
    some bindings.  A binding without wildcards matches the messages with that
    routing key. *)

From S2P Require Import Prelude ClockSI ClockCodec Keys PartitionClock Logger Replicator.
From S2P Require Import ReplicatorProto RemoteConn RemoteConnOrder RemoteConnBuckets RemoteConnGroups RemoteConnSend.
From Stdlib Require Import ZArith Lia Bool Ascii.
From stdpp Require Import base tactics numbers strings gmap sorting list.
#[local] Open Scope Z_scope.

Fixpoint plain (s : string) : bool :=
  match s with
  | EmptyString => true
  | String a s => negb (bool_decide (a = "*"%char)) && negb (bool_decide (a = "#"%char)) && plain s
  end.

Class Broker := { delivered : list string -> list Publishing -> list Publishing }.

Class BrokerLaws `{Broker} := {
  delivered_plain bindings pubs : Forall (fun s => plain s = true) bindings ->
    delivered bindings pubs = filter (fun p => RoutingKey p ∈ bindings) pubs
}.

(** The bindings of a replica's queue. *)
Definition bucketTopics (bucket : string) : list string :=
  [(bucketTopicPrefix +:+ bucket)%string; (groupTopicPrefix +:+ bucket)%string;
   (bigTopicPrefix +:+ (bucketTopicPrefix +:+ bucket))%string;
   (bigTopicPrefix +:+ (groupTopicPrefix +:+ bucket))%string].

Definition bindings (bucketsToListen : list string) : list string :=
  mjoin (bucketTopics <$> bucketsToListen) ++ [clockTopic; triggerTopic].

Lemma bindings_plain bs : Forall (fun b => plain b = true) bs ->
  Forall (fun s => plain s = true) (bindings bs).
Proof.
  intros Hbs. unfold bindings. apply Forall_app. split; [|by repeat constructor].
  induction Hbs as [|b bs Hb Hbs IH]; simpl; [done|]. repeat (constructor; [exact Hb|]). exact IH.
Qed.

Definition topicPrefix (pre : string) : Prop := pre = bucketTopicPrefix \/ pre = groupTopicPrefix.

Lemma elem_of_bindings s bs :
  s ∈ bindings bs <-> (exists b, b ∈ bs /\ s ∈ bucketTopics b) \/ s = clockTopic \/ s = triggerTopic.
Proof.
  unfold bindings. rewrite elem_of_app, list_elem_of_join. split.
  - intros [(l & Hs & Hl)|Hs]; [left|right].
    + apply list_elem_of_fmap in Hl as (b & -> & Hb). eauto.
    + set_solver.
  - intros [(b & Hb & Hs)|Hs]; [left|right; set_solver].
    exists (bucketTopics b). split; [done|]. apply list_elem_of_fmap. eauto.
Qed.

#[local] Ltac topic_cases Hs :=
  repeat (apply elem_of_cons in Hs as [Hs|Hs]; [cbn in Hs; by simplify_eq|]); by apply elem_of_nil in Hs.

Lemma topic_bound pre b bs : topicPrefix pre -> (pre +:+ b)%string ∈ bindings bs <-> b ∈ bs.
Proof.
  intros Hp. rewrite elem_of_bindings. split.
  - intros [(b' & Hb' & Hs)|[Hs|Hs]]; destruct Hp as [-> | ->]; try done; unfold bucketTopics in Hs;
      topic_cases Hs.
  - intros Hb. left. exists b. split; [done|]. unfold bucketTopics. destruct Hp as [-> | ->]; set_solver.
Qed.

Lemma big_topic_bound pre b bs : topicPrefix pre ->
  (bigTopicPrefix +:+ (pre +:+ b))%string ∈ bindings bs <-> b ∈ bs.
Proof.
  intros Hp. rewrite elem_of_bindings. split.
  - intros [(b' & Hb' & Hs)|[Hs|Hs]]; destruct Hp as [-> | ->]; try done; unfold bucketTopics in Hs;
      topic_cases Hs.
  - intros Hb. left. exists b. split; [done|]. unfold bucketTopics. destruct Hp as [-> | ->]; set_solver.
Qed.

Lemma splitData_key fuel max key data : Forall (fun p => RoutingKey p = key) (splitData fuel max key data).
Proof.
  revert data. induction fuel as [|fuel IH]; intros [|x data]; cbn [splitData]; constructor; [done|apply IH].
Qed.

Lemma list_filter_all {A} (P : A -> Prop) `{forall x, Decision (P x)} l : Forall P l -> filter P l = l.
Proof. induction 1 as [|x l Hx Hl IH]; [done|]. by rewrite filter_cons_True, IH. Qed.

Lemma list_filter_none {A} (P : A -> Prop) `{forall x, Decision (P x)} l :
  Forall (fun x => ~ P x) l -> filter P l = [].
Proof. induction 1 as [|x l Hx Hl IH]; [done|]. by rewrite filter_cons_False. Qed.

(** A queue receives all the parts of a message or none. *)
Lemma filter_sendMsg max pre b data bs : topicPrefix pre ->
  filter (fun p => RoutingKey p ∈ bindings bs) (sendMsg max (pre +:+ b) data) =
  if decide (b ∈ bs) then sendMsg max (pre +:+ b) data else [].
Proof.
  intros Hp. unfold sendMsg.
  assert (Hk : forall l key, (key ∈ bindings bs <-> b ∈ bs) -> Forall (fun p => RoutingKey p = key) l ->
    filter (fun p => RoutingKey p ∈ bindings bs) l = if decide (b ∈ bs) then l else []).
  { intros l key Hkey Hl. case_decide as Hb.
    - apply list_filter_all. eapply Forall_impl; [exact Hl|]. intros p ->. by apply Hkey.
    - apply list_filter_none. eapply Forall_impl; [exact Hl|]. intros p ->. by rewrite Hkey. }
  destruct (_ <=? _)%nat.
  - apply (Hk _ (pre +:+ b)%string); [by apply topic_bound|by repeat constructor].
  - apply (Hk _ (bigTopicPrefix +:+ (pre +:+ b))%string); [by apply big_topic_bound|].
    constructor; [done|apply splitData_key].
Qed.

Lemma filter_sendMsgs max pre data l bs : topicPrefix pre ->
  filter (fun p => RoutingKey p ∈ bindings bs)
    (mjoin ((fun b => sendMsg max (pre +:+ b) (data b)) <$> l)) =
  mjoin ((fun b => sendMsg max (pre +:+ b) (data b)) <$> filter (.∈ bs) l).
Proof.
  intros Hp. induction l as [|b l IH]; [done|]. cbn [fmap list_fmap mjoin list_join].
  rewrite filter_app, filter_sendMsg, filter_cons by done. fold (@fmap list _ string (list Publishing)).
  case_decide; simpl; [f_equal|]; exact IH.
Qed.

Lemma mjoin_cons {A B} (f : A -> list B) x l : mjoin (f <$> (x :: l)) = f x ++ mjoin (f <$> l).
Proof. done. Qed.

Section receiving.
Context {Upd POp : Type} `{Codec : DownstreamCodec Upd POp} `{PB : Protobuf POp}.
Abbreviation updates := (list (UpdateObjectParams Upd)).
Abbreviation Txn := (RemoteTxn Upd).
Abbreviation Msg := (ReplicatorMsg (Upd := Upd)).
Abbreviation Conn := (RecvConn (Upd := Upd)).
Context (self me : Z) (nB : nat).

Lemma startReceiver_app (c : Conn) l1 l2 :
  startReceiver c (l1 ++ l2) =
  '(out1, c) ← startReceiver c l1; '(out2, c) ← startReceiver c l2; Some (out1 ++ out2, c).
Proof.
  revert c. induction l1 as [|p l1 IH]; intros c; cbn [app startReceiver].
  - cbn [mbind option_bind]. by destruct (startReceiver c l2) as [[o2 c2]|].
  - destruct (receive c p) as [[o1 c1]|]; [|done]. cbn [mbind option_bind]. rewrite IH.
    destruct (startReceiver c1 l1) as [[o2 c2]|]; [|done]. cbn [mbind option_bind].
    destruct (startReceiver c2 l2) as [[o3 c3]|]; [|done]. cbn [mbind option_bind].
    by rewrite app_assoc.
Qed.

(** The connection waits for transaction [n] or a later one; [p] is what it has
    still to give. *)
Record waiting (n : Z) (c : Conn) (p : list Msg) : Prop := {
  w_split : splitting c = None;
  w_room : nBucketsToListen c = nB;
  w_self : selfID c = me;
  w_before : onHold c = [] \/ txnID c < n;
  w_held : sendMerged c = Some p
}.

Lemma waiting_mono n n' c p : n <= n' -> waiting n c p -> waiting n' c p.
Proof. intros Hn [? ? ? [?|?] ?]; split; auto. right. lia. Qed.

(** Deliveries that take the connection from transaction [n] to [n'], and what
    it has given or has still to give. *)
Definition steps (n : Z) (pubs : list Publishing) (n' : Z) (o : list Msg) : Prop :=
  forall c p, waiting n c p -> exists out c' p',
    startReceiver c pubs = Some (out, c') /\ waiting n' c' p' /\ out ++ p' = p ++ o.

Lemma steps_nil n n' : n <= n' -> steps n [] n' [].
Proof.
  intros Hn c p Hw. exists [], c, p. split; [done|]. rewrite app_nil_r. split; [by eapply waiting_mono|done].
Qed.

Lemma steps_app n1 n2 n3 pubs1 pubs2 o1 o2 :
  steps n1 pubs1 n2 o1 -> steps n2 pubs2 n3 o2 -> steps n1 (pubs1 ++ pubs2) n3 (o1 ++ o2).
Proof.
  intros H1 H2 c p Hw. destruct (H1 c p Hw) as (out1 & c1 & p1 & E1 & Hw1 & Ho1).
  destruct (H2 c1 p1 Hw1) as (out2 & c2 & p2 & E2 & Hw2 & Ho2).
  exists (out1 ++ out2), c2, p2. rewrite startReceiver_app, E1. cbn [mbind option_bind]. rewrite E2.
  split; [done|]. split; [done|]. rewrite <- app_assoc, Ho2, !app_assoc. by rewrite Ho1.
Qed.

Lemma steps_weaken n n1 n2 n' pubs o : n <= n1 -> n2 <= n' -> steps n1 pubs n2 o -> steps n pubs n' o.
Proof.
  intros H1 H2 Hs c p Hw. destruct (Hs c p (waiting_mono _ _ _ _ H1 Hw)) as (out & c' & p' & ? & ? & ?).
  exists out, c', p'. split; [done|]. split; [by eapply waiting_mono|done].
Qed.

(** The messages of a transaction or of a group. *)
Section unit.
Context (max : nat) (Hmax : (0 < max)%nat) (id : Z) (g : bool).
Context (key : string -> string) (data : string -> list Z) (msg : string -> HeldMsg (Upd := Upd)).

Definition unit_msgs (bs : list string) : Prop :=
  forall b, b ∈ bs -> data_topic (key b) /\
    forall c : Conn, handleData (key b) (data b) c = holdMsg id (msg b) g c.

Lemma unit_rest bs : unit_msgs bs -> forall h, (length h + length bs <= nB)%nat ->
  startReceiver (mkRecv me nB h id g None) (mjoin ((fun b => sendMsg max (key b) (data b)) <$> bs)) =
  Some ([], mkRecv me nB (h ++ (msg <$> bs)) id g None).
Proof.
  induction bs as [|b bs IH]; intros Hu h Hlen; [by rewrite app_nil_r|].
  rewrite mjoin_cons. destruct (Hu b) as [Hk Hh]; [by left|].
  rewrite receive_sendMsg by done. rewrite Hh. unfold holdMsg, storeTxn. cbn [txnID]. rewrite Z.eqb_refl.
  cbn [onHold nBucketsToListen length] in *. rewrite (proj2 (Nat.ltb_lt _ _)) by lia.
  cbn [mbind option_bind set_hold selfID nBucketsToListen splitting onHold txnID].
  unfold set_hold. cbn [selfID nBucketsToListen splitting].
  rewrite IH; [|intros ? ?; apply Hu; by right|rewrite length_app; simpl; lia].
  cbn [mbind option_bind app]. by rewrite <- app_assoc.
Qed.

Lemma unit_steps n bs o : unit_msgs bs -> n <= id -> (length bs <= nB)%nat ->
  sendMerged (mkRecv me nB (msg <$> bs) id g None) = Some o ->
  steps n (mjoin ((fun b => sendMsg max (key b) (data b)) <$> bs)) (id + 1) o.
Proof.
  intros Hu Hn Hlen Ho. destruct bs as [|b bs].
  { injection Ho as <-. apply steps_nil. lia. }
  intros c p [Hsp Hr Hself Hb Hheld]. destruct (Hu b) as [Hk Hh]; [by left|].
  exists p, (mkRecv me nB (msg <$> (b :: bs)) id g None), o.
  rewrite mjoin_cons, receive_sendMsg by done. rewrite Hh.
  assert (Hhold : holdMsg id (msg b) g c = Some (p, mkRecv me nB [msg b] id g None)).
  { cbn [length] in Hlen. unfold holdMsg, storeTxn, createHold, set_hold. destruct c as [s nb h i gr sp].
    cbn [txnID selfID nBucketsToListen onHold isGroup splitting] in *. subst sp nb s.
    destruct (Z.eqb_spec id i) as [->|Hne].
    - destruct Hb as [->|?]; [|lia]. cbn [length app]. rewrite (proj2 (Nat.ltb_lt _ _)) by lia.
      injection Hheld as <-. done.
    - rewrite Hheld. cbn [mbind option_bind length app]. rewrite (proj2 (Nat.ltb_lt _ _)) by lia. done. }
  rewrite Hhold. cbn [mbind option_bind]. cbn [length] in Hlen.
  rewrite unit_rest; [|intros ? ?; apply Hu; by right|simpl; lia]. cbn [mbind option_bind app].
  rewrite app_nil_r. split; [done|]. split; [|done]. split; try done. right. simpl. lia.
Qed.
End unit.
End receiving.

(** ** What is received of a transaction *)

Lemma filter_ext_in {A} (P Q : A -> Prop) `{forall x, Decision (P x)} `{forall x, Decision (Q x)} (l : list A) :
  (forall x, x ∈ l -> P x <-> Q x) -> filter P l = filter Q l.
Proof.
  induction l as [|x l IH]; intros Hpq; [done|]. rewrite !filter_cons.
  rewrite IH by (intros y Hy; apply Hpq; by right). specialize (Hpq x ltac:(by left)).
  repeat case_decide; tauto || done.
Qed.

Section received.
Context {Upd : Type}.
Abbreviation updates := (list (UpdateObjectParams Upd)).
Abbreviation Txn := (RemoteTxn Upd).
Abbreviation Msg := (ReplicatorMsg (Upd := Upd)).
Context (B : list string).

Definition receivedTxns (msgs : list Msg) : list Txn :=
  mjoin ((fun m => match m with RM_Txn t => [t] | RM_Group g => Txns g | _ => [] end) <$> msgs).

Definition touches (t : Txn) : Prop :=
  Exists (fun e => Exists (fun u => Bucket (upd_key u) ∈ B) e.2) (map_to_list (Upds t)).

#[export] Instance touches_dec t : Decision (touches t).
Proof. unfold touches. apply _. Defined.

(** [t'] is what [t] does in the buckets: the same updates, those of a bucket
    in the same order. *)
Record same_in (t t' : Txn) : Prop := {
  same_sender : SenderID t' = SenderID t;
  same_clk : Clk t' = Clk t;
  same_upds p : updsOf (Upds t') p ≡ₚ filter (fun u => Bucket (upd_key u) ∈ B) (updsOf (Upds t) p);
  same_order p b : b ∈ B -> of_bucket b (updsOf (Upds t') p) = of_bucket b (updsOf (Upds t) p);
  same_parts p : Upds t' !! p <> Some []
}.

Lemma of_bucket_part b (upds : gmap Z updates) p u :
  u ∈ updsOf upds p -> Bucket (upd_key u) = b -> part b upds <> ∅.
Proof.
  intros Hu Hb Hp. pose proof (part_lookup b upds p) as Hl. rewrite Hp, lookup_empty in Hl.
  assert (Hin : u ∈ of_bucket b (updsOf upds p)) by (by apply list_elem_of_filter).
  destruct (of_bucket b (updsOf upds p)); [by apply elem_of_nil in Hin|done].
Qed.

Lemma part_nonempty b (upds : gmap Z updates) :
  part b upds <> ∅ -> exists p u l, upds !! p = Some l /\ u ∈ l /\ Bucket (upd_key u) = b.
Proof.
  intros Hp. apply map_choose in Hp as (p & x & Hx). rewrite part_lookup in Hx. unfold updsOf in Hx.
  destruct (upds !! p) as [l|] eqn:El; simpl in Hx; [|done].
  destruct (of_bucket b l) as [|u l'] eqn:E; [done|].
  assert (Hu : u ∈ of_bucket b l) by (rewrite E; by left). apply list_elem_of_filter in Hu as [? ?].
  by exists p, u, l.
Qed.

Lemma touches_part t : touches t <-> exists b, b ∈ B /\ part b (Upds t) <> ∅.
Proof.
  unfold touches. rewrite Exists_exists. split.
  - intros ([p l] & Hl%elem_of_map_to_list & Hex). simpl in Hex. apply Exists_exists in Hex as (u & Hu & Hb).
    eexists. split; [exact Hb|]. apply (of_bucket_part _ _ p u); [|done]. unfold updsOf. by rewrite Hl.
  - intros (b & Hb & (p & u & l & Hl & Hu & <-)%part_nonempty). exists (p, l).
    split; [by apply elem_of_map_to_list|]. apply Exists_exists. eauto.
Qed.

(** The parts of a transaction in the buckets [bs], which have all it does in [B]. *)
Lemma gathered_same bs t t' :
  NoDup bs -> (forall b, b ∈ bs -> b ∈ B) -> (forall b, b ∈ B -> part b (Upds t) <> ∅ -> b ∈ bs) ->
  SenderID t' = SenderID t -> Clk t' = Clk t -> Upds t' = gather bs (Upds t) -> same_in t t'.
Proof.
  intros Hbs Hsub Hall Hs Hc Hu. split; [done|done|..].
  - intros p. rewrite Hu, gather_updsOf, of_buckets_perm by done.
    erewrite filter_ext_in; [done|]. intros u Hin. split; [apply Hsub|].
    intros Hb. apply (Hall _ Hb). by apply (of_bucket_part _ _ p u).
  - intros p b Hb. rewrite Hu, gather_updsOf. destruct (decide (b ∈ bs)) as [Hin|Hnin].
    + by apply of_bucket_gathered.
    + assert (Hno : of_bucket b (updsOf (Upds t) p) = []).
      { apply list_empty_elem. intros u [Hub Hin]%list_elem_of_filter. apply Hnin, (Hall _ Hb).
        by apply (of_bucket_part _ _ p u). }
      rewrite Hno. apply list_empty_elem. intros u [Hub Hin]%list_elem_of_filter.
      apply Hnin. rewrite of_buckets_perm in Hin by done. apply list_elem_of_filter in Hin as [Hin _].
      by rewrite <- Hub.
  - intros p. rewrite Hu. apply gather_nonempty.
Qed.

Lemma gather_touches bs t :
  (forall b, b ∈ bs -> b ∈ B) -> (forall b, b ∈ B -> part b (Upds t) <> ∅ -> b ∈ bs) ->
  touches t <-> gather bs (Upds t) <> ∅.
Proof.
  intros Hsub Hall. split.
  - intros (b & Hb & Hp)%touches_part Hg. rewrite gather_empty in Hg. apply Hp, Hg. by apply Hall.
  - intros Hg. apply dec_stable. intros Hno. apply Hg, gather_empty. intros b Hb. apply dec_stable.
    intros Hp. apply Hno, touches_part. exists b. auto.
Qed.

Lemma inBuckets_same bs self l :
  NoDup bs -> (forall b, b ∈ bs -> b ∈ B) ->
  (forall t b, t ∈ l -> b ∈ B -> part b (Upds t) <> ∅ -> b ∈ bs) ->
  Forall (fun t => SenderID t = self) l ->
  Forall2 same_in (filter touches l) (retagged self (inBuckets bs l)).
Proof.
  intros Hbs Hsub Hall Hl. induction Hl as [|t l Ht Hl IH]; [constructor|].
  rewrite inBuckets_cons, filter_cons.
  assert (Hallt : forall b, b ∈ B -> part b (Upds t) <> ∅ -> b ∈ bs).
  { intros b. apply Hall. by left. }
  pose proof (gather_touches bs t Hsub Hallt) as Hgt.
  assert (IH' : Forall2 same_in (filter touches l) (retagged self (inBuckets bs l))).
  { apply IH. intros t' b Ht'. apply Hall. by right. }
  destruct (decide (gather bs (Upds t) = ∅)) as [Hg|Hg].
  - rewrite decide_False; [exact IH'|]. rewrite Hgt. tauto.
  - rewrite decide_True by by apply Hgt. cbn [retagged fmap list_fmap]. constructor; [|exact IH'].
    by eapply gathered_same.
Qed.

Lemma numberTxns_same n l X :
  Forall2 same_in (filter touches (numberTxns n l)) X -> Forall2 same_in (filter touches l) X.
Proof.
  revert n X. induction l as [|t l IH]; intros n X; cbn [numberTxns]; [done|]. rewrite !filter_cons.
  change (touches (mkRemoteTxn (SenderID t) (Clk t) (Upds t) n)) with (touches t).
  destruct (decide (touches t)).
  - intros Hx. apply Forall2_cons_inv_l in Hx as (x & X' & Hx & HX & ->).
    constructor; [|by eapply IH]. destruct Hx as [? ? ? ? ?]. by split.
  - apply IH.
Qed.
End received.

(** ** From a replicator to another *)

Section end_to_end.
Context {Upd POp : Type} `{Codec : DownstreamCodec Upd POp} `{PB : Protobuf POp} `{PBL : !ProtobufLaws POp}.
Abbreviation Txn := (RemoteTxn Upd).
Abbreviation Conn := (RecvConn (Upd := Upd)).
Context (max : nat) (Hmax : (0 < max)%nat).
Context (self me : Z) (Hself : inS 16 self) (Hother : self <> me).
Context (B : list string) (HB : NoDup B).

(** A transaction of replica [self], with something in it. *)
Record txn_ok (t : Txn) : Prop := {
  tx_sender : SenderID t = self;
  tx_clk : clock_ok (Clk t);
  tx_upds : sendable_upds (Upds t);
  tx_some : exists p u l, Upds t !! p = Some (u :: l)
}.

(** What the connection publishes of what the replicator sends it; the workers
    answer in any order. *)
Inductive publishes : SendConn -> list (ReplOut (Upd := Upd)) -> list Publishing -> SendConn -> Prop :=
  | pub_nil c : publishes c [] [] c
  | pub_individually c txns replies pubs c' outs pubs' c'' :
      replies ≡ₚ individualWork c txns ->
      SendTxnsIndividually max c txns replies = Some (pubs, c') ->
      publishes c' outs pubs' c'' ->
      publishes c (Replicator.SendTxnsIndividually txns :: outs) (pubs ++ pubs') c''
  | pub_group c txns work replies pubs c' outs pubs' c'' :
      groupWork c txns = Some work -> replies ≡ₚ work ->
      SendGroupTxn max c txns replies = (pubs, c') ->
      publishes c' outs pubs' c'' ->
      publishes c (Replicator.SendGroupTxn txns :: outs) (pubs ++ pubs') c''
  | pub_clk c ts outs pubs' c'' :
      publishes c outs pubs' c'' ->
      publishes c (Replicator.SendStableClk ts :: outs) (SendStableClk c ts ++ pubs') c''.

Lemma txn_ok_buckets t : txn_ok t -> bucketsOf t <> [].
Proof.
  intros Ht Hn. destruct (tx_some t Ht) as (p & u & l & Hp).
  apply (not_elem_of_nil (Bucket (upd_key u))). rewrite <- Hn. apply elem_of_bucketsOf.
  apply (of_bucket_part _ _ p u); [|done]. unfold updsOf. rewrite Hp. by left.
Qed.

Lemma numberTxns_ok_all n l : Forall txn_ok l -> Forall txn_ok (numberTxns n l).
Proof.
  intros Hl. revert n. induction Hl as [|t l [? ? ? ?] Hl IH]; intros n; simpl; constructor; [by split|done].
Qed.

Lemma sendable_part b upds : sendable_upds upds -> sendable_upds (part b upds).
Proof.
  intros Hs p l Hl. rewrite part_lookup in Hl. unfold updsOf in Hl. destruct (upds !! p) as [l0|] eqn:E; [|done].
  assert (l = of_bucket b l0) as ->.
  { simpl in Hl. destruct (of_bucket b l0); [done|]. by injection Hl. }
  apply Forall_forall. intros u [_ Hu]%list_elem_of_filter. specialize (Hs p l0 E).
  rewrite Forall_forall in Hs. by apply Hs.
Qed.

Lemma protoToRemoteTxn_part t b : txn_ok t ->
  protoToRemoteTxn (createProtoReplicateTxn self (Clk t) (part b (Upds t)) (TxnID t)) =
  with_upds (part b (Upds t)) t.
Proof.
  intros [Hs Hc Hu _]. pose proof (protoToRemoteTxn_create self (with_upds (part b (Upds t)) t)) as Hp.
  cbn [with_upds Clk Upds TxnID] in Hp. rewrite Hp; [|done|done|by apply sendable_part].
  unfold with_upds. by rewrite Hs.
Qed.

Lemma handle_txnMsg t b (c : Conn) : txn_ok t ->
  handleData (bucketTopicPrefix +:+ b) (txnMsg self t b) c =
  holdMsg (TxnID t) (HTxn (with_upds (part b (Upds t)) t)) false c.
Proof.
  intros Ht. unfold handleData. change (String.prefix groupTopicPrefix (bucketTopicPrefix +:+ b)) with false.
  cbv iota. unfold handleReceivedOps, txnMsg.
  pose proof (Unmarshal_Marshal (PTxn (createProtoReplicateTxn self (Clk t) (part b (Upds t)) (TxnID t)))) as Hm.
  cbn [kindOf] in Hm. rewrite Hm. by rewrite protoToRemoteTxn_part.
Qed.

Definition bs_in (l : list string) : list string := filter (.∈ B) l.

Lemma bs_in_length l : NoDup l -> (length (bs_in l) <= length B)%nat.
Proof.
  intros Hl. apply submseteq_length, NoDup_submseteq; [by apply NoDup_filter|].
  intros b Hb. by apply list_elem_of_filter in Hb as [? _].
Qed.

Lemma individually_steps n t : txn_ok t -> n <= TxnID t ->
  exists o, steps me (length B) n
    (filter (fun p => RoutingKey p ∈ bindings B)
       (mjoin ((fun b => sendMsg max (bucketTopicPrefix +:+ b) (txnMsg self t b)) <$> bucketsOf t)))
    (TxnID t + 1) o /\
  Forall2 (same_in B) (filter (touches B) [t]) (receivedTxns o).
Proof.
  intros Ht Hn. set (bs := bs_in (bucketsOf t)).
  assert (Hsub : forall b, b ∈ bs -> b ∈ B) by (by intros b [? _]%list_elem_of_filter).
  assert (Hall : forall b, b ∈ B -> part b (Upds t) <> ∅ -> b ∈ bs).
  { intros b Hb Hp. apply list_elem_of_filter. split; [done|]. by apply elem_of_bucketsOf. }
  assert (Hnd : NoDup bs) by apply NoDup_filter, bucketsOf_NoDup.
  exists (match bs with [] => [] | _ => [RM_Txn (mkRemoteTxn self (Clk t) (gather bs (Upds t)) 0)] end).
  split.
  - rewrite filter_sendMsgs by by left. fold (bs_in (bucketsOf t)). fold bs.
    apply unit_steps with (g := false) (msg := fun b => HTxn (with_upds (part b (Upds t)) t)); [done|..].
    + intros b _. split; [exists b; by left|]. intros c. by apply handle_txnMsg.
    + done.
    + apply bs_in_length, bucketsOf_NoDup.
    + unfold sendMerged. cbn [onHold isGroup]. destruct bs as [|b0 bs0] eqn:E; [done|]. rewrite <- E.
      destruct ((fun b => HTxn (with_upds (part b (Upds t)) t)) <$> bs) eqn:Ef; [by rewrite E in Ef|].
      unfold getMergedTxn. cbn [onHold]. rewrite <- Ef. clear Ef.
      rewrite (mapM_fmap_all asTxn _ (fun b => with_upds (part b (Upds t)) t)) by done.
      cbn [mbind option_bind].
      assert (Hlast : exists b, last ((fun b => with_upds (part b (Upds t)) t) <$> bs) =
        Some (with_upds (part b (Upds t)) t)).
      { rewrite fmap_last. destruct (last bs) as [b|] eqn:El; [by exists b|]. apply last_None in El.
        by rewrite E in El. }
      destruct Hlast as [b ->]. cbn [mbind option_bind with_upds SenderID Clk]. rewrite (tx_sender t Ht).
      do 3 f_equal. unfold gather. clear. generalize (∅ : gmap Z (list (UpdateObjectParams Upd))).
      induction bs as [|b bs IH]; intros m; [done|]. cbn [fmap list_fmap foldl]. apply IH.
  - assert (Hg : bs = [] -> gather bs (Upds t) = ∅) by by intros ->.
    pose proof (gather_touches B bs t Hsub Hall) as Hgt. rewrite filter_cons, filter_nil.
    case_decide as Htt.
    + destruct bs as [|b0 bs0] eqn:E; [by apply Hgt in Htt|]. rewrite <- E in *. simpl.
      constructor; [|constructor]. apply (gathered_same B bs); try done. by rewrite (tx_sender t Ht).
    + destruct bs as [|b0 bs0] eqn:E; [constructor|]. exfalso. apply Htt.
      apply touches_part. exists b0. split; [apply Hsub; by left|].
      assert (Hb0 : b0 ∈ bs_in (bucketsOf t)) by (fold bs; rewrite E; by left).
      apply list_elem_of_filter in Hb0 as [_ Hb0]. by apply elem_of_bucketsOf.
Qed.

Lemma handle_groupMsg (l : list Txn) b (c : Conn) : Forall txn_ok l ->
  handleData (groupTopicPrefix +:+ b) (groupMsg self l b) c =
  holdMsg (default 0 (TxnID <$> head l))
    (HGroup (mkRemoteGroup self (inBucket b l) (default 0 (TxnID <$> head l)) (default 0 (TxnID <$> last l))))
    true c.
Proof.
  intros Hl. unfold handleData.
  assert (Hpre : String.prefix groupTopicPrefix (groupTopicPrefix +:+ b) = true) by by destruct b.
  rewrite Hpre. unfold handleReceivedGroupOps, groupMsg.
  match goal with |- context [Marshal (PGroup ?p)] => pose proof (Unmarshal_Marshal (PGroup p)) as Hm end.
  cbn [kindOf] in Hm. rewrite Hm.
  assert (Hg : protoToRemoteTxn <$> ((fun txn => createProtoReplicateTxn self (Clk txn) (Upds txn) (TxnID txn))
    <$> inBucket b l) = inBucket b l).
  { rewrite <- list_fmap_compose. rewrite <- (list_fmap_id (inBucket b l)) at 2. apply list_fmap_ext.
    intros i t (t0 & Ht0 & Ho)%list_elem_of_lookup_2%list_elem_of_omap. unfold compose, id.
    rewrite Forall_forall in Hl. unfold only in Ho. case_decide; [done|]. injection Ho as <-.
    cbn [with_upds Clk Upds TxnID]. by rewrite protoToRemoteTxn_part by by apply Hl. }
  unfold protoToRemoteTxnGroup. cbn [pg_SenderID pg_Txns pg_MinTxnID pg_MaxTxnID MinTxnID].
  rewrite Hg, wrapS_id by done. done.
Qed.

Lemma group_received (l : list Txn) bs n : Forall txn_ok l -> bs <> [] -> l <> [] ->
  numbered n l -> inS 32 n -> n + Z.of_nat (length l) <= MaxInt32 ->
  (forall t, t ∈ l -> TxnID t < n + Z.of_nat (length l)) ->
  (forall l1 t, l = l1 ++ [t] -> TxnID t = n + Z.of_nat (length l) - 1) ->
  let G b := mkRemoteGroup self (inBucket b l) (default 0 (TxnID <$> head l)) (default 0 (TxnID <$> last l)) in
  sendMerged (mkRecv me (length B) ((fun b => HGroup (G b)) <$> bs) n true None) =
  Some [RM_Group (mkRemoteGroup self (retagged self (inBuckets bs l)) n (n + Z.of_nat (length l) - 1))].
Proof.
  intros Hl Hbs Hne Hnum Hn Hmx Hlt Hlast G. unfold sendMerged. cbn [onHold isGroup].
  destruct ((fun b => HGroup (G b)) <$> bs) as [|hm hms] eqn:Ef; [by apply fmap_nil_inv in Ef|].
  unfold getMergedTxnGroup. cbn [onHold]. rewrite <- Ef. clear Ef.
  rewrite (mapM_fmap_all asGroup _ G) by done. cbn [mbind option_bind].
  assert (HG : forall b, G b = mkRemoteGroup self (inBucket b l) n (n + Z.of_nat (length l) - 1)).
  { intros b. unfold G. destruct l as [|t0 l0]; [done|]. destruct Hnum as [Ht0 _]. cbn [head hd_error].
    destruct (last (t0 :: l0)) as [t1|] eqn:El; [|by apply last_None in El].
    apply last_Some in El as (l1 & El). simpl. by rewrite Ht0, (Hlast l1 t1 El). }
  destruct bs as [|b0 bs0] eqn:Eb; [done|]. rewrite <- Eb.
  assert (Hh : head (G <$> bs) = Some (mkRemoteGroup self (inBucket b0 l) n (n + Z.of_nat (length l) - 1)))
    by (rewrite Eb; simpl; by rewrite HG).
  rewrite Hh. cbn [mbind option_bind g_SenderID MinTxnID MaxTxnID].
  assert (Hgr : Txns <$> (G <$> bs) = (fun b => inBucket b l) <$> bs).
  { rewrite <- list_fmap_compose. apply list_fmap_ext. intros i b _. unfold compose. by rewrite HG. }
  rewrite Hgr. assert (Hlen : (0 < length l)%nat) by (destruct l; simpl; [done|lia]).
  rewrite mergeOuter_ok; [done|..].
  - unfold inS, MaxInt32 in *. lia.
  - lia.
  - destruct l as [|t0 l0]; [done|]. by destruct Hnum.
  - done.
  - intros t Ht. specialize (Hlt t Ht). lia.
  - done.
  - left. lia.
Qed.

Lemma group_steps c txns work replies pubs c' :
  Forall txn_ok txns -> Forall (known c) txns -> replicaID c = self ->
  inS 32 (txnCount c) -> txnCount c + Z.of_nat (length txns) <= MaxInt32 ->
  groupWork c txns = Some work -> replies ≡ₚ work -> SendGroupTxn max c txns replies = (pubs, c') ->
  exists o, steps me (length B) (txnCount c) (filter (fun p => RoutingKey p ∈ bindings B) pubs)
    (txnCount c + Z.of_nat (length txns)) o /\
  Forall2 (same_in B) (filter (touches B) txns) (receivedTxns o).
Proof.
  intros Hok Hk Hid Hn Hmx Hwork Hrep Hsend.
  destruct (groupWork_ok c txns Hk) as (bs0 & Hnd0 & Hbs0 & Hw). rewrite Hw in Hwork. injection Hwork as <-.
  apply Permutation_map_inv in Hrep as (bs1 & -> & Hp). unfold SendGroupTxn in Hsend.
  injection Hsend as <- <-. rewrite Hid in *.
  set (l := numberTxns (txnCount c) txns) in *.
  assert (Hl : Forall txn_ok l) by by apply numberTxns_ok_all.
  destruct (numberTxns_ok (txnCount c) txns Hn Hmx) as (Hnum & Hlt & Hlast). fold l in Hnum, Hlt, Hlast.
  assert (Hll : length l = length txns) by apply numberTxns_length. rewrite <- Hll in *.
  set (n := txnCount c) in *.
  assert (Hpubs : mjoin ((fun result => sendMsg max (groupTopicPrefix +:+ Key_ result) (Data result))
      <$> map (fun b => mkPair' b (groupMsg self l b)) bs1) =
    mjoin ((fun b => sendMsg max (groupTopicPrefix +:+ b) (groupMsg self l b)) <$> bs1)).
  { f_equal. change (map ?f bs1) with (f <$> bs1). by rewrite <- list_fmap_compose. }
  rewrite Hpubs, filter_sendMsgs by by right. fold (bs_in bs1).
  assert (Hnd1 : NoDup bs1) by by rewrite <- Hp.
  assert (Hsub : forall b, b ∈ bs_in bs1 -> b ∈ B) by (by intros b [? _]%list_elem_of_filter).
  assert (Hall : forall t b, t ∈ l -> b ∈ B -> part b (Upds t) <> ∅ -> b ∈ bs_in bs1).
  { intros t b Ht Hb Hpt. apply list_elem_of_filter. split; [done|]. rewrite <- Hp. apply Hbs0. intros E.
    apply (not_elem_of_nil (with_upds (part b (Upds t)) t)). rewrite <- E. apply list_elem_of_omap.
    exists t. split; [done|]. unfold only. by rewrite decide_False. }
  pose proof (NoDup_filter (.∈ B) bs1 Hnd1 : NoDup (bs_in bs1)) as Hndb.
  assert (Hsame : Forall2 (same_in B) (filter (touches B) txns) (retagged self (inBuckets (bs_in bs1) l))).
  { apply (numberTxns_same B (txnCount c)). apply inBuckets_same; try done.
    eapply Forall_impl; [exact Hl|]. by intros t []. }
  destruct (decide (bs_in bs1 = [])) as [E|Hne].
  { exists []. rewrite E in *. split; [apply steps_nil; lia|].
    assert (Hnil : inBuckets [] l = []).
    { clear. induction l as [|t l0 IH]; [done|]. rewrite inBuckets_cons. by rewrite decide_True. }
    by rewrite Hnil in Hsame. }
  assert (Hlne : l <> []).
  { intros El. apply Hne, list_empty_elem. intros b [_ Hb]%list_elem_of_filter. rewrite <- Hp in Hb.
    apply Hbs0 in Hb. by rewrite El in Hb. }
  eexists. split.
  - apply (steps_weaken _ _ n n (n + 1)); [lia| |].
    { destruct l; [done|]. simpl. lia. }
    eapply unit_steps with (g := true) (msg := fun b => HGroup (mkRemoteGroup self (inBucket b l)
      (default 0 (TxnID <$> head l)) (default 0 (TxnID <$> last l)))); [done|..].
    + intros b _. split; [exists b; by right|]. intros c0. rewrite handle_groupMsg by done.
      destruct l as [|t0 l0]; [done|]. destruct Hnum as [Ht0 _]. simpl. by rewrite Ht0.
    + lia.
    + by apply bs_in_length.
    + apply group_received; done.
  - cbn [receivedTxns fmap list_fmap mjoin list_join Txns]. by rewrite app_nil_r.
Qed.
End end_to_end.
