(* ===== verification/Replication.v ===== *)
(** * Replication from end to end

    What the replicator of a replica sends (file Replicator), published bucket by
    bucket (file RemoteConn), reaches the replicator of another replica as the
    same transactions, in the same order, as far as it holds their buckets, and
    then the clock. *)

From S2P Require Import Prelude ClockSI ClockCodec Keys PartitionClock Logger Replicator.
From S2P Require Import ReplicatorProto RemoteConn RemoteConnOrder RemoteConnBuckets RemoteConnGroups.
From S2P Require Import RemoteConnSend RemoteConnTxns Registers.
From Stdlib Require Import ZArith Lia Bool.
From stdpp Require Import base tactics numbers strings gmap sorting list.
#[local] Open Scope Z_scope.

Section replication.
Context {Upd POp : Type} `{Codec : DownstreamCodec Upd POp} `{PB : Protobuf POp} `{PBL : !ProtobufLaws POp}.
Context `{BR : Broker} `{BRL : !BrokerLaws}.
Abbreviation Txn := (RemoteTxn Upd).
Abbreviation Conn := (RecvConn (Upd := Upd)).
Context (max : nat) (Hmax : (0 < max)%nat).
Context (self me : Z) (Hself : inS 16 self) (Hother : self <> me).
Context (B : list string) (HB : NoDup B) (Hplain : Forall (fun b => plain b = true) B).

Abbreviation bound l := (filter (fun p => RoutingKey p ∈ bindings B) l).

(** The connection can send the transactions: they are of its replica, in its
    buckets, and their numbers do not wrap around. *)
Record can_send (c : SendConn) (txns : list Txn) : Prop := {
  cs_ok : Forall (txn_ok self) txns;
  cs_known : Forall (known c) txns;
  cs_self : replicaID c = self;
  cs_count : 0 <= txnCount c;
  cs_room : txnCount c + Z.of_nat (length txns) <= MaxInt32
}.

Definition data_out (o : ReplOut (Upd := Upd)) : Prop :=
  match o with Replicator.SendStableClk _ => False | _ => True end.

Lemma can_send_app c l1 l2 :
  can_send c (l1 ++ l2) ->
  can_send c l1 /\ can_send (set_count (int32 (txnCount c + Z.of_nat (length l1))) c) l2 /\
  int32 (txnCount c + Z.of_nat (length l1)) = txnCount c + Z.of_nat (length l1).
Proof.
  intros [H1 H2 H3 H4 H5]. apply Forall_app in H1 as [H1a H1b], H2 as [H2a H2b]. rewrite length_app in H5.
  assert (Hw : int32 (txnCount c + Z.of_nat (length l1)) = txnCount c + Z.of_nat (length l1)).
  { apply wrapS_id; [lia|]. unfold inS, MaxInt32 in *. lia. }
  split; [split; try done; lia|]. split; [|done]. rewrite Hw. split; try done.
  - unfold inS, MaxInt32 in *. cbn [set_count txnCount]. lia.
  - cbn [set_count txnCount]. lia.
Qed.

Lemma filter_mjoin {A C} (P : A -> Prop) `{forall x, Decision (P x)} (f : C -> list A) l :
  filter P (mjoin (f <$> l)) = mjoin ((fun x => filter P (f x)) <$> l).
Proof. induction l as [|x l IH]; [done|]. rewrite !mjoin_cons, filter_app. by rewrite IH. Qed.

Lemma receivedTxns_app (o1 o2 : list (ReplicatorMsg (Upd := Upd))) :
  receivedTxns (o1 ++ o2) = receivedTxns o1 ++ receivedTxns o2.
Proof. unfold receivedTxns. by rewrite fmap_app, join_app. Qed.

Lemma numbered_steps l : Forall (txn_ok self) l -> forall n, numbered n l ->
  exists o, steps me (length B) n
    (bound (mjoin ((fun t => mjoin ((fun b => sendMsg max (bucketTopicPrefix +:+ b) (txnMsg self t b))
                                      <$> bucketsOf t)) <$> l)))
    (n + Z.of_nat (length l)) o /\
  Forall2 (same_in B) (filter (touches B) l) (receivedTxns o).
Proof.
  induction 1 as [|t l Ht Hl IH]; intros n Hn.
  { exists []. split; [apply steps_nil; simpl; lia|constructor]. }
  destruct Hn as [Hid Hn]. destruct (IH _ Hn) as (o2 & Hs2 & Hf2).
  destruct (individually_steps max Hmax self me Hself B n t Ht) as (o1 & Hs1 & Hf1); [lia|].
  exists (o1 ++ o2). split.
  - rewrite mjoin_cons, filter_app. rewrite Hid in Hs1. eapply steps_app; [exact Hs1|].
    cbn [length]. by replace (n + Z.of_nat (S (length l))) with (n + 1 + Z.of_nat (length l)) by lia.
  - rewrite receivedTxns_app. change (t :: l) with ([t] ++ l). rewrite filter_app. by apply Forall2_app.
Qed.

Lemma publishes_steps c outs pubs c' : publishes max c outs pubs c' -> Forall data_out outs ->
  can_send c (concat (map txns_of outs)) ->
  replicaID c' = self /\
  exists o, steps me (length B) (txnCount c) (bound pubs)
    (txnCount c + Z.of_nat (length (concat (map txns_of outs)))) o /\
  Forall2 (same_in B) (filter (touches B) (concat (map txns_of outs))) (receivedTxns o).
Proof.
  induction 1 as [c|c txns replies pubs c' outs pubs' c'' Hrep Hsend Hpub IH
                 |c txns work replies pubs c' outs pubs' c'' Hwork Hrep Hsend Hpub IH
                 |c ts outs pubs' c'' Hpub IH]; intros Hd Hcan.
  - split; [apply Hcan|]. exists []. split; [apply steps_nil; simpl; lia|constructor].
  - apply Forall_cons in Hd as [_ Hd]. cbn [map concat txns_of] in *.
    destruct (can_send_app _ _ _ Hcan) as ([Hok Hk Hid Hn0 Hr] & Hcan2 & Hw).
    assert (Hn : inS 32 (txnCount c)) by (unfold inS, MaxInt32 in *; lia).
    rewrite (SendTxnsIndividually_in_order max c txns replies) in Hsend; [|done| | |done].
    2:{ unfold MaxInt32, inS in *. lia. }
    2:{ intros t Ht. apply txn_ok_buckets with self. rewrite Forall_forall in Hok. by apply Hok. }
    injection Hsend as <- <-. destruct (IH Hd Hcan2) as (Hid' & o2 & Hs2 & Hf2). split; [done|].
    destruct (numberTxns_ok (txnCount c) txns Hn Hr) as (Hnum & _ & _).
    destruct (numbered_steps _ (numberTxns_ok_all self (txnCount c) txns Hok) _ Hnum) as (o1 & Hs1 & Hf1).
    rewrite numberTxns_length in Hs1. exists (o1 ++ o2). split.
    + rewrite filter_app, length_app, Nat2Z.inj_add, Z.add_assoc. rewrite Hid. eapply steps_app; [exact Hs1|].
      cbn [set_count txnCount] in Hs2. by rewrite Hw in Hs2.
    + rewrite receivedTxns_app, filter_app. apply Forall2_app; [|done]. by eapply numberTxns_same.
  - apply Forall_cons in Hd as [_ Hd]. cbn [map concat txns_of] in *.
    destruct (can_send_app _ _ _ Hcan) as ([Hok Hk Hid Hn0 Hr] & Hcan2 & Hw).
    assert (Hn : inS 32 (txnCount c)) by (unfold inS, MaxInt32 in *; lia).
    destruct (group_steps max Hmax self me Hself B c txns work replies pubs c') as (o1 & Hs1 & Hf1); try done.
    injection Hsend as _ <-. destruct (IH Hd Hcan2) as (Hid' & o2 & Hs2 & Hf2). split; [done|].
    exists (o1 ++ o2). split.
    + rewrite filter_app, length_app, Nat2Z.inj_add, Z.add_assoc. eapply steps_app; [exact Hs1|].
      cbn [set_count txnCount] in Hs2. by rewrite Hw in Hs2.
    + rewrite receivedTxns_app, filter_app. by apply Forall2_app.
  - by apply Forall_cons in Hd as [? _].
Qed.

Lemma publishes_exists outs : forall c, can_send c (concat (map txns_of outs)) ->
  exists pubs c', publishes max c outs pubs c'.
Proof.
  induction outs as [|o outs IH]; intros c Hcan; [exists [], c; constructor|].
  cbn [map concat] in Hcan. destruct (can_send_app _ _ _ Hcan) as ([Hok Hk Hid Hn0 Hr] & Hcan2 & Hw).
  assert (Hn : inS 32 (txnCount c)) by (unfold inS, MaxInt32 in *; lia).
  destruct o as [txns|txns|ts]; cbn [txns_of] in *.
  - destruct (IH _ Hcan2) as (pubs & c' & Hp). eexists _, c'. eapply pub_individually; [reflexivity| |exact Hp].
    apply SendTxnsIndividually_in_order; [done| | |done].
    + unfold MaxInt32, inS in *. lia.
    + intros t Ht. apply txn_ok_buckets with self. rewrite Forall_forall in Hok. by apply Hok.
  - destruct (IH _ Hcan2) as (pubs & c' & Hp). destruct (groupWork_ok c txns Hk) as (bs & _ & _ & Hg).
    eexists _, c'. eapply pub_group; [exact Hg|reflexivity|reflexivity|exact Hp].
  - simpl in Hcan. destruct (IH c Hcan) as (pubs & c' & Hp). eexists _, c'. by constructor.
Qed.

Lemma publishes_app c outs1 outs2 pubs c' : publishes max c (outs1 ++ outs2) pubs c' ->
  exists pubs1 c1 pubs2, publishes max c outs1 pubs1 c1 /\ publishes max c1 outs2 pubs2 c' /\
    pubs = pubs1 ++ pubs2.
Proof.
  revert c pubs. induction outs1 as [|o outs1 IH]; intros c pubs; cbn [app].
  - intros Hp. exists [], c, pubs. split; [constructor|done].
  - intros Hp. inversion Hp as [|? ? ? p1 ? ? ? ? ? ? Hp2|? ? ? ? p1 ? ? ? ? ? ? ? Hp2|? ? ? ? ? Hp2]; subst;
      destruct (IH _ _ Hp2) as (q1 & c1 & q2 & Hq1 & Hq2 & ->).
    + exists (p1 ++ q1), c1, q2. split; [by econstructor|]. by rewrite app_assoc.
    + exists (p1 ++ q1), c1, q2. split; [by econstructor|]. by rewrite app_assoc.
    + eexists _, c1, q2. split; [by constructor|]. by rewrite app_assoc.
Qed.

(** Nothing is held, no message has been received in part. *)
Definition idle (c : Conn) : Prop :=
  splitting c = None /\ nBucketsToListen c = length B /\ selfID c = me /\ onHold c = [].

Lemma receive_clock n c p ts : waiting me (length B) n c p ->
  exists c', startReceiver c (SendStableClk (mkSend self 0 true []) ts) =
    Some (p ++ [RM_StableClock (mkStable self ts)], c') /\ idle c'.
Proof.
  intros [Hsp Hr Hs _ Hh]. exists (createHold 0 c). split.
  - cbn [SendStableClk startReceiver]. unfold receive. rewrite Hsp. cbn [RoutingKey Body].
    rewrite decide_True by done. unfold handleReceivedStableClock.
    pose proof (Unmarshal_Marshal (PClock (createProtoStableClock self ts))) as Hm. cbn [kindOf] in Hm.
    cbn [RemoteConn.replicaID]. rewrite Hm. unfold protoToStableClock, createProtoStableClock. cbn [pc_SenderID ReplicaTs].
    rewrite wrapS_id by done. cbn [sc_SenderID]. rewrite Hs, (proj2 (Z.eqb_neq _ _)) by done.
    rewrite Hh. cbn [mbind option_bind]. by rewrite app_nil_r.
  - by split.
Qed.

(** C11. Replication from one replica to another that lists the buckets [B] it
    holds by name (the default configuration listens to all, [*], and is not
    covered), of transactions with updates, as long as the counter of
    transactions does not wrap around 32 bits (it does otherwise lose a group:
    [wrapped_group_is_lost]), loses, repeats, reorders and splits nothing.  What a
    replicator sends can be published, and however the workers order their answers, and whichever transactions are grouped, and
    wherever messages are cut, a connection that listens to the buckets [B] gives
    its replicator exactly the transactions that write to [B], in the sender's
    order, each with its sender, its clock and all its updates in [B] (per
    partition; those of a bucket in their order), then the sender's stable clock;
    and it is ready for the next round. *)
Theorem published_txns_are_received (repl : Replicator Upd) (c : SendConn) (rc : Conn)
    (toSend : list Txn) (outs : list ReplOut) :
  Replicator.replicaID repl = self -> sendTxns repl toSend = Some outs ->
  can_send c toSend -> idle rc ->
  (exists pubs c', publishes max c outs pubs c') /\
  forall pubs c', publishes max c outs pubs c' ->
    exists msgs ts rc', startReceiver rc (delivered (bindings B) pubs) =
        Some (msgs ++ [RM_StableClock (mkStable self ts)], rc') /\
      (exists lastTxn, last toSend = Some lastTxn /\ ts = GetPos (Clk lastTxn) self) /\
      Forall2 (same_in B) (filter (touches B) toSend) (receivedTxns msgs) /\
      idle rc'.
Proof.
  intros Hid Hsend Hcan Hidle.
  assert (Hout : exists out ts, outs = out ++ [Replicator.SendStableClk ts] /\
    concat (map txns_of out) = toSend /\ Forall data_out out /\
    exists lastTxn, last toSend = Some lastTxn /\ ts = GetPos (Clk lastTxn) self).
  { apply sendTxns_outs in Hsend as (out & lastTxn & -> & Hc & Hd & Hl). eexists out, _.
    split; [done|]. split; [done|]. split.
    - eapply Forall_impl; [exact Hd|]. by intros [].
    - exists lastTxn. by rewrite <- Hid. }
  destruct Hout as (out & ts & -> & Hc & Hd & Hlast).
  split.
  { apply publishes_exists. rewrite map_app, concat_app. cbn [map concat txns_of]. by rewrite !app_nil_r, Hc. }
  intros pubs c' Hp. apply publishes_app in Hp as (p1 & c1 & p2 & Hp1 & Hp2 & ->).
  rewrite <- Hc in Hcan. destruct (publishes_steps _ _ _ _ Hp1 Hd Hcan) as (Hid1 & o & Hs & Hf).
  inversion Hp2 as [| | |? ? ? p3 ? Hp3]; subst c1 p2. inversion Hp3; subst.
  rewrite delivered_plain by by apply bindings_plain. rewrite filter_app.
  destruct Hidle as (Hsp & Hnb & Hme & Hh).
  destruct (Hs rc []) as (out1 & rc1 & p' & E1 & Hw1 & Ho).
  { split; try done; [by left|]. unfold sendMerged. by rewrite Hh. }
  destruct (receive_clock _ _ _ ts Hw1) as (rc2 & E2 & Hidle2).
  exists o, ts, rc2. split; [|done].
  assert (Hclk : bound (SendStableClk c' ts ++ []) = SendStableClk (mkSend self 0 true []) ts).
  { unfold SendStableClk. rewrite <- Hid1. apply list_filter_all. constructor; [|done]. cbn [RoutingKey].
    apply elem_of_bindings. right. by left. }
  rewrite Hclk, startReceiver_app, E1. cbn [mbind option_bind]. rewrite E2. cbn [mbind option_bind].
  by rewrite app_assoc, Ho.
Qed.
End replication.

(** ** Numbers that wrap around *)

Section wrapping.
Context {Upd POp : Type} `{Codec : DownstreamCodec Upd POp} `{PB : Protobuf POp} `{PBL : !ProtobufLaws POp}.

Lemma numberTxns_ends (n : Z) (l : list (RemoteTxn Upd)) first lst : inS 32 n ->
  head (numberTxns n l) = Some first -> last (numberTxns n l) = Some lst ->
  TxnID first = n /\ TxnID lst = int32 (n + Z.of_nat (length l) - 1).
Proof.
  intros Hn Hf Hl. destruct l as [|t l]; [done|]. injection Hf as <-. split; [done|].
  rewrite last_lookup, numberTxns_length in Hl. destruct (numberTxns_lookup _ _ _ _ Hl) as [->|[Hi ->]].
  - f_equal. cbn [length]. lia.
  - cbn [length] in *. rewrite <- (wrapS_id 32 n) at 1 by done. f_equal. lia.
Qed.

(** The numbers of transactions are 32-bit integers that wrap around, and the
    comment on the counter says that this is no problem.  It is for groups: when
    the counter wraps within a group, every one of its messages is a group that
    a receiver merges to one without transactions.  They are lost. *)
Theorem wrapped_group_is_lost (c : SendConn) (txns : list (RemoteTxn Upd)) (work : list PairKeyBytes)
    (rc : RecvConn (Upd := Upd)) :
  0 <= txnCount c <= MaxInt32 -> MaxInt32 < txnCount c + Z.of_nat (length txns) - 1 <= MaxInt32 + 2 ^ 31 ->
  groupWork c txns = Some work -> onHold rc = [] -> (0 < nBucketsToListen rc)%nat ->
  forall e, e ∈ work -> exists rc' g,
    handleReceivedGroupOps (Data e) rc = Some ([], rc') /\
    sendMerged rc' = Some [RM_Group g] /\ Txns g = [].
Proof.
  intros Hn Hlen Hwork Hhold Hroom e He. unfold groupWork in Hwork.
  destruct (groupBuckets c _) as [bops|]; [|done]. cbn [mbind option_bind] in Hwork.
  apply mapM_Some in Hwork. destruct (proj1 (list_elem_of_lookup _ _) He) as [i Hi].
  destruct (Forall2_lookup_r _ _ _ _ _ Hwork Hi) as (x & _ & Hx). unfold GroupMarshallWork in Hx.
  destruct (createProtoReplicateGroupTxn _ _ _) as [p|] eqn:Ep; [|done]. injection Hx as <-.
  unfold createProtoReplicateGroupTxn in Ep.
  destruct (head (numberTxns (txnCount c) txns)) as [first|] eqn:Ef; [|done].
  destruct (last (numberTxns (txnCount c) txns)) as [lst|] eqn:El; [|done]. injection Ep as <-.
  assert (HnS : inS 32 (txnCount c)) by (unfold inS, MaxInt32 in *; lia).
  destruct (numberTxns_ends _ _ _ _ HnS Ef El) as [H1 H2].
  assert (Hneg : TxnID lst < TxnID first).
  { rewrite H1, H2. unfold MaxInt32 in Hlen, Hn.
    set (X := txnCount c + Z.of_nat (length txns) - 1) in *.
    assert (Hw : int32 X = int32 (X - 2 ^ 32)).
    { apply wrapS_eq_mod; [lia|]. rewrite <- (Z_mod_plus_full (X - 2 ^ 32) 1). f_equal. lia. }
    rewrite Hw, wrapS_id; [lia|lia|]. unfold inS. lia. }
  cbn [Data]. unfold handleReceivedGroupOps.
  match goal with |- context [Marshal (PGroup ?p)] => pose proof (Unmarshal_Marshal (PGroup p)) as Hm end.
  cbn [kindOf] in Hm. rewrite Hm. clear Hm.
  match goal with |- context [protoToRemoteTxnGroup ?p] => set (g := protoToRemoteTxnGroup p) end.
  assert (Hg : getMergedTxnGroup (mkRecv (selfID rc) (nBucketsToListen rc) [HGroup g] (MinTxnID g) true (splitting rc)) =
    Some (mkRemoteGroup (g_SenderID g) [] (MinTxnID g) (MaxTxnID g))).
  { unfold getMergedTxnGroup. cbn [onHold mapM asGroup mbind option_bind mret option_ret head hd_error fmap list_fmap].
    rewrite Nat.add_1_r. cbn [mergeOuter].
    rewrite (proj2 (Z.leb_gt (MinTxnID g) (MaxTxnID g))); [done|]. exact Hneg. }
  exists (mkRecv (selfID rc) (nBucketsToListen rc) [HGroup g] (MinTxnID g) true (splitting rc)),
    (mkRemoteGroup (g_SenderID g) [] (MinTxnID g) (MaxTxnID g)).
  split; [|split; [|reflexivity]].
  - unfold holdMsg, storeTxn, createHold, set_hold, sendMerged. rewrite Hhold. cbn [onHold nBucketsToListen length app].
    rewrite (proj2 (Nat.ltb_lt _ _)) by done. cbn [mbind option_bind].
    destruct (Z.eqb_spec (MinTxnID g) (txnID rc)) as [<-|_]; reflexivity.
  - unfold sendMerged. cbn [onHold isGroup]. rewrite Hg. done.
Qed.
End wrapping.

(** ** Registers, replicated *)

Module RegisterExample.
Abbreviation ROp := LwwRegister.Op.
Abbreviation RProto := LwwRegister.ProtoLWWRegisterDownstream.

#[export] Instance codec : DownstreamCodec ROp RProto := {
  ToReplicatorObj := LwwRegister.ToReplicatorObj;
  DownstreamProtoToAntidoteDownstream p _ := LwwRegister.FromReplicatorObj p
}.

#[export] Instance RProto_eq_dec : EqDecision RProto.
Proof. solve_decision. Defined.
#[export] Program Instance RProto_countable : Countable RProto :=
  inj_countable' (fun p => (LwwRegister.PValue p, LwwRegister.PTs p, LwwRegister.PReplicaID p))
    (fun '(v, t, r) => LwwRegister.mkProto v t r) _.
Next Obligation. by intros []. Qed.

Section countable.
Context {POp : Type} `{Countable POp}.
#[export] Instance upd_eq_dec : EqDecision (ProtoDownstreamUpd POp).
Proof. solve_decision. Defined.
#[export] Program Instance upd_countable : Countable (ProtoDownstreamUpd POp) :=
  inj_countable' (fun p => (KeyParams_ p, Op p)) (fun '(k, o) => mkProtoUpd k o) _.
Next Obligation. by intros []. Qed.
#[export] Instance part_eq_dec : EqDecision (ProtoNewRemoteTxn POp).
Proof. solve_decision. Defined.
#[export] Program Instance part_countable : Countable (ProtoNewRemoteTxn POp) :=
  inj_countable' (fun p => (PartitionID p, p_Upds p)) (fun '(i, u) => mkProtoPart i u) _.
Next Obligation. by intros []. Qed.
#[export] Instance txn_eq_dec : EqDecision (ProtoReplicateTxn POp).
Proof. solve_decision. Defined.
#[export] Program Instance txn_countable : Countable (ProtoReplicateTxn POp) :=
  inj_countable' (fun p => (p_SenderID p, Timestamp_ p, Part p, p_TxnID p))
    (fun '(s, t, p, i) => mkProtoTxn s t p i) _.
Next Obligation. by intros []. Qed.
#[export] Instance group_eq_dec : EqDecision (ProtoReplicateGroupTxn POp).
Proof. solve_decision. Defined.
#[export] Program Instance group_countable : Countable (ProtoReplicateGroupTxn POp) :=
  inj_countable' (fun p => (pg_SenderID p, pg_Txns p, pg_MinTxnID p, pg_MaxTxnID p))
    (fun '(s, t, n, x) => mkProtoGroup s t n x) _.
Next Obligation. by intros []. Qed.
#[export] Instance clk_eq_dec : EqDecision ProtoStableClock.
Proof. solve_decision. Defined.
#[export] Instance msg_eq_dec : EqDecision (ProtoMsg POp).
Proof. solve_decision. Defined.
#[export] Program Instance msg_countable : Countable (ProtoMsg POp) :=
  inj_countable' (fun m => match m with
      | PTxn p => inl (inl p) | PGroup p => inl (inr p) | PClock p => inr (pc_SenderID p, ReplicaTs p) end)
    (fun s => match s with
      | inl (inl p) => PTxn p | inl (inr p) => PGroup p | inr (i, t) => PClock (mkProtoClk i t) end) _.
Next Obligation. intros [| |p]; [done..|]. by destruct p. Qed.

(** A message is a single number. *)
#[export] Instance one_number : Protobuf POp := {
  Marshal m := [Zpos (encode m)];
  Unmarshal k data :=
    match data with
    | [Zpos n] => m ← decode n;
        match k, m with
        | KTxn, PTxn _ | KGroup, PGroup _ | KClock, PClock _ => Some m
        | _, _ => None
        end
    | _ => None
    end
}.

#[export] Instance one_number_laws : ProtobufLaws POp.
Proof. constructor. intros m. simpl. rewrite decode_encode. by destruct m. Qed.
End countable.

#[export] Instance exact : Broker := {
  delivered bindings pubs := filter (fun p => RoutingKey p ∈ bindings) pubs
}.
#[export] Instance exact_laws : BrokerLaws.
Proof. by constructor. Qed.

Definition regUpd (bucket : string) (v : string) (ts : Z) : UpdateObjectParams ROp :=
  mkUpd (mkKey "k"%string 1 bucket) (LwwRegister.DownstreamSetValue v ts 1).

Definition txns : list (RemoteTxn ROp) :=
  [mkRemoteTxn 1 {[1 := 10; 2 := 0]} {[0 := [regUpd "b1" "x" 10; regUpd "b2" "y" 10]]} 0;
   mkRemoteTxn 1 {[1 := 20; 2 := 0]} {[1 := [regUpd "b2" "z" 20]]} 0].

Definition conn1 : SendConn := mkSend 1 0 true [].
Definition conn2 : RecvConn (Upd := ROp) := mkRecv 2 1 [] 0 false None.

Lemma regUpd_sendable b v ts : sendable (regUpd b v ts).
Proof. unfold sendable. cbn [regUpd UpdateArgs upd_key]. cbn. by apply LwwRegister.FromReplicatorObj_ToReplicatorObj. Qed.

Lemma txns_can_send : can_send 1 conn1 txns.
Proof.
  assert (Hc : forall ts, inS 64 ts -> clock_ok {[1 := ts; 2 := 0]}).
  { intros ts Hts. split; [done|]. intros i v [[<- <-]|[_ [<- <-]%lookup_singleton_Some]]%lookup_insert_Some;
      split; done || by vm_compute. }
  split; [|by repeat (constructor; try by left)|done|done|by vm_compute].
  constructor; [|constructor; [|done]]; split; try done; try (by apply Hc); cbn [Upds].
  - intros p l [<- <-]%lookup_singleton_Some. repeat (constructor; try apply regUpd_sendable).
  - by exists 0, (regUpd "b1" "x" 10), [regUpd "b2" "y" 10].
  - intros p l [<- <-]%lookup_singleton_Some. repeat (constructor; try apply regUpd_sendable).
  - by exists 1, (regUpd "b2" "z" 20), [].
Qed.
End RegisterExample.

Import RegisterExample.

Lemma published_txns_are_received_witness :
  exists pubs c', publishes 10 conn1 [Replicator.SendTxnsIndividually txns; Replicator.SendStableClk 20] pubs c' /\
  exists msgs ts rc', startReceiver conn2 (delivered (bindings ["b1"%string]) pubs) =
      Some (msgs ++ [RM_StableClock (mkStable 1 ts)], rc') /\
    length (receivedTxns msgs) = 1%nat /\ idle 2 ["b1"%string] rc'.
Proof.
  assert (Hb : NoDup ["b1"%string]) by (apply NoDup_singleton).
  assert (Hp : Forall (fun b => plain b = true) ["b1"%string]) by by repeat constructor.
  destruct (published_txns_are_received 10 ltac:(lia) 1 2 ltac:(by vm_compute) ltac:(done) ["b1"%string] Hp
    (mkReplicator ∅ 1 1) conn1 conn2 txns _ eq_refl ltac:(reflexivity) txns_can_send ltac:(done))
    as [(pubs & c' & Hpub) Hall].
  destruct (Hall pubs c' Hpub) as (msgs & ts & rc' & Hs & (lastTxn & Hl & ->) & Hf & Hi).
  injection Hl as <-. exists pubs, c'. split; [exact Hpub|].
  eexists msgs, _, rc'. split; [exact Hs|]. split; [|exact Hi].
  apply Forall2_length in Hf. exact (eq_sym Hf).
Defined.

Lemma wrapped_group_is_lost_witness :
  exists work, groupWork (mkSend 1 MaxInt32 true []) txns = Some work /\ work <> [] /\
    forall e, e ∈ work -> exists rc' g,
      handleReceivedGroupOps (Data e) conn2 = Some ([], rc') /\
      sendMerged rc' = Some [RM_Group g] /\ Txns g = [].
Proof.
  assert (Hk : Forall (known (mkSend 1 MaxInt32 true [])) txns) by by repeat (constructor; try by left).
  destruct (groupWork_ok (mkSend 1 MaxInt32 true []) txns Hk) as (bs & _ & Hbs & Hw).
  eexists. split; [exact Hw|]. split.
  - intros E%fmap_nil_inv. subst bs. apply (not_elem_of_nil "b2"%string). apply Hbs. by vm_compute.
  - apply (wrapped_group_is_lost (mkSend 1 MaxInt32 true []) txns _ conn2); [done|done|exact Hw|done|simpl; lia].
Defined.
