(* ===== verification/GoSlice.v ===== *)
(** * Slices

    A slice of Go is a part of an array: the elements it shows are the first
    [slen] of [arr], and it can be extended again up to the end of its array.
    Reads and writes out of range, and slices of a negative size, panic ([None]).
    Also the loops over slices that the array objects share. *)

From S2P Require Import Prelude.
From Stdlib Require Import ZArith Lia Bool.
From stdpp Require Import base tactics numbers list.
#[local] Open Scope Z_scope.

Record Slice (V : Type) := mkSlice { arr : list V; slen : nat }.
Arguments mkSlice {V}. Arguments arr {V}. Arguments slen {V}.

Section slices.
Context {V : Type}.

Definition vals (s : Slice V) : list V := take (slen s) (arr s).
Definition of_list (l : list V) : Slice V := mkSlice l (length l).
Definition nilSlice : Slice V := mkSlice [] 0.

(** [s[i]]. *)
Definition sget (s : Slice V) (i : Z) : option V :=
  if (0 <=? i) && (i <? Z.of_nat (slen s)) then arr s !! Z.to_nat i else None.

(** [s[i] = f(s[i])]. *)
Definition smod (f : V -> V) (s : Slice V) (i : Z) : option (Slice V) :=
  x ← sget s i; Some (mkSlice (<[Z.to_nat i := f x]> (arr s)) (slen s)).

Definition sset (s : Slice V) (i : Z) (v : V) : option (Slice V) := smod (fun _ => v) s i.

(** [s[:n]]. *)
Definition strunc (s : Slice V) (n : Z) : option (Slice V) :=
  if (0 <=? n) && (n <=? Z.of_nat (length (arr s))) then Some (mkSlice (arr s) (Z.to_nat n)) else None.

Definition slice_ok (s : Slice V) : Prop := (slen s <= length (arr s))%nat.

(** A slice with an array of its own. *)
Definition copySlice (s : Slice V) : Slice V := of_list (vals s).

Definition copySliceWithSize (zero : V) (s : Slice V) (size : Z) : option (Slice V) :=
  if size <? 0 then None
  else let n := Z.to_nat size in
       Some (of_list (take n (vals s) ++ replicate (n - length (vals s)) zero)).

(** ** Loops *)

(** [for i, v := range l { s[i0+i] = f(s[i0+i], v) }]. *)
Fixpoint loopAll {A} (f : V -> A -> V) (s : Slice V) (i : Z) (l : list A) : option (Slice V) :=
  match l with
  | [] => Some s
  | v :: l => s ← smod (fun x => f x v) s i; loopAll f s (i + 1) l
  end.

(** [for i := from; i <= to; i++ { s[i] = f(s[i]) }]. *)
Definition loopRange (f : V -> V) (s : Slice V) (from to : Z) : option (Slice V) :=
  foldM (smod f) s (seqZ from (to - from + 1)).

(** [for i, p := range pos { s[p] = f(s[p], vs[i]) }]. *)
Fixpoint loopPos {A} (f : V -> A -> V) (s : Slice V) (pos : list Z) (vs : list A) : option (Slice V) :=
  match pos, vs with
  | [], _ => Some s
  | p :: pos, v :: vs => s ← smod (fun x => f x v) s p; loopPos f s pos vs
  | _ :: _, [] => None
  end.

(** ** Elements *)

Lemma vals_length s : slice_ok s -> length (vals s) = slen s.
Proof. unfold slice_ok, vals. rewrite length_take. lia. Qed.

Lemma of_list_ok l : slice_ok (of_list l).
Proof. by unfold slice_ok. Qed.

Lemma vals_of_list l : vals (of_list l) = l.
Proof. unfold vals, of_list. simpl. by rewrite take_ge. Qed.

Lemma vals_copySlice s : vals (copySlice s) = vals s.
Proof. apply vals_of_list. Qed.

Lemma sget_vals s i : slice_ok s -> 0 <= i -> sget s i = vals s !! Z.to_nat i.
Proof.
  unfold slice_ok, sget, vals. intros Hs Hi. rewrite (proj2 (Z.leb_le 0 i)) by done. cbn [andb].
  destruct (Z.ltb_spec i (Z.of_nat (slen s))).
  - by rewrite lookup_take_lt by lia.
  - by rewrite lookup_take_ge by lia.
Qed.

Lemma sget_neg s i : i < 0 -> sget s i = None.
Proof. intros Hi. unfold sget. by rewrite (proj2 (Z.leb_gt 0 i)). Qed.

Lemma alter_insert_eq (f : V -> V) (k : nat) (l : list V) x : l !! k = Some x -> alter f k l = <[k := f x]> l.
Proof.
  revert k. induction l as [|y l IH]; intros [|k]; simpl; try done; [by intros [= ->]|].
  intros Hk. unfold alter, list_alter, insert, list_insert in IH |- *. f_equal. by apply IH.
Qed.

Lemma smod_ok f s i : slice_ok s -> 0 <= i < Z.of_nat (slen s) ->
  exists s', smod f s i = Some s' /\ slice_ok s' /\ slen s' = slen s /\
    vals s' = alter f (Z.to_nat i) (vals s).
Proof.
  intros Hs Hi. destruct (lookup_lt_is_Some_2 (vals s) (Z.to_nat i)) as [x Hx].
  { rewrite vals_length by done. lia. }
  unfold smod. rewrite sget_vals, Hx by (done || lia). cbn [mbind option_bind].
  eexists. split; [done|]. split; [unfold slice_ok in *; cbn; by rewrite length_insert|]. split; [done|].
  unfold vals in *. cbn [arr slen]. rewrite take_insert_lt by lia. by rewrite (alter_insert_eq f _ _ x).
Qed.

Lemma copySliceWithSize_ok zero s size : slice_ok s -> 0 <= size ->
  exists s', copySliceWithSize zero s size = Some s' /\ slice_ok s' /\ slen s' = Z.to_nat size /\
    forall i, (i < Z.to_nat size)%nat -> vals s' !! i = Some (default zero (vals s !! i)).
Proof.
  intros Hs Hz. unfold copySliceWithSize. rewrite (proj2 (Z.ltb_ge size 0)) by done.
  eexists. split; [done|]. split; [apply of_list_ok|].
  assert (Hl : length (take (Z.to_nat size) (vals s) ++ replicate (Z.to_nat size - length (vals s)) zero) = Z.to_nat size).
  { rewrite length_app, length_take, length_replicate. lia. }
  split; [exact Hl|]. intros i Hi. rewrite vals_of_list.
  destruct (decide (i < length (vals s))%nat) as [Hlt|Hge].
  - rewrite lookup_app_l by (rewrite length_take; lia). rewrite lookup_take_lt by done.
    destruct (lookup_lt_is_Some_2 (vals s) i Hlt) as [x ->]. done.
  - rewrite lookup_app_r by (rewrite length_take; lia). rewrite length_take, (lookup_ge_None_2 (vals s)) by lia.
    apply lookup_replicate_2. lia.
Qed.
End slices.
