(* ===== verification/MultiArray.v ===== *)
(** * Arrays of counters, floating-point counters, registers and averages

    multiArrayCRDT.go (src/crdt/crdt): the object, its updates, effects and
    messages; its reads are in file MultiArrayReads.

    Integers are 64 bits and wrap around; floating-point numbers are IEEE 754
    doubles, as the Standard Library's [SpecFloat] specifies them.  A slice of
    bytes is a string, [None] when it is nil.  [None] for a result is a panic. *)

From S2P Require Import Prelude ClockSI Inversible GoSlice.
From Stdlib Require Import ZArith Lia Bool SpecFloat.
From stdpp Require Import base tactics numbers strings list.
#[local] Open Scope Z_scope.

Abbreviation f64 := spec_float.
Definition fadd : f64 -> f64 -> f64 := SFadd 53 1024.
Definition fsub : f64 -> f64 -> f64 := SFsub 53 1024.
Definition f0 : f64 := S754_zero false.

Abbreviation data := (option string).

Definition iadd (x y : Z) : Z := int64 (x + y).
Definition isub (x y : Z) : Z := int64 (x - y).

Record MultiArrayCrdt := mkMulti {
  intCounters : Slice Z;
  sums : Slice Z;
  counts : Slice Z;
  floatCounters : Slice f64;
  dataCounters : Slice data;
  dataTsId : Slice Z;
  replicaID : Z
}.

Definition set_ints s c := mkMulti s (sums c) (counts c) (floatCounters c) (dataCounters c) (dataTsId c) (replicaID c).
Definition set_avgs s n c := mkMulti (intCounters c) s n (floatCounters c) (dataCounters c) (dataTsId c) (replicaID c).
Definition set_floats s c := mkMulti (intCounters c) (sums c) (counts c) s (dataCounters c) (dataTsId c) (replicaID c).
Definition set_data s t c := mkMulti (intCounters c) (sums c) (counts c) (floatCounters c) s t (replicaID c).

(** ** Updates *)

(** The four updates of an array of numbers. *)
Inductive ArrUpd (V : Type) :=
  | IncSingle (Pos : Z) (Change : V)
  | Inc (Changes : list V)
  | IncPositions (Pos : list Z) (Changes : list V)
  | IncRange (From To : Z) (Change : V).
Arguments IncSingle {V}. Arguments Inc {V}. Arguments IncPositions {V}. Arguments IncRange {V}.

Inductive AvgUpd :=
  | IncAvgSingle (Value Count Pos : Z)
  | IncAvg (Value Count : list Z)
  | IncAvgPositions (Value Count Pos : list Z)
  | IncAvgRange (From To Value Count : Z).

(** The updates of the registers; [DataUpd] without the stamps. *)
Inductive DataUpd :=
  | SetRegisterSingle (Pos : Z) (Value : data)
  | SetRegister (Values : list data)
  | SetRegisterPositions (Pos : list Z) (Values : list data)
  | SetRegisterRange (From To : Z) (Value : data).

Record UpdateAll := mkAll { Ints : list Z; Sums : list Z; Floats : list f64; Data : list data; Counts : list Z }.

Record SetSizes := mkSizes { IntSize : Z; FloatSize : Z; RegisterSize : Z; AvgSize : Z }.

Inductive UpdArgs :=
  | MultiArraySetSizes (s : SetSizes)
  | MultiArrayInt (u : ArrUpd Z)
  | MultiArrayFloat (u : ArrUpd f64)
  | MultiArrayData (u : DataUpd)
  | MultiArrayAvg (u : AvgUpd)
  | MultiArrayUpdateAll (u : UpdateAll).

Inductive DownArgs :=
  | DownSetSizes (s : SetSizes)
  | DownInt (u : ArrUpd Z)
  | DownFloat (u : ArrUpd f64)
  | DownData (u : DataUpd) (TsId : Z)
  | DownAvg (u : AvgUpd)
  | DownUpdateAll (u : UpdateAll) (TsId : Z)
  | DownNoOp.

(** An effect with an old size is the code's effect [...WithSizeEffect]. *)
Inductive Eff :=
  | NoEffect
  | SetSizesEffect (s : SetSizes)
  | IntEffect (u : ArrUpd Z) (OldSize : option Z)
  | CounterArrayIncMultiEffect (l : list Z) (OldSize : option Z)
  | FloatEffect (u : ArrUpd f64) (OldSize : option Z)
  | SetRegisterSingleEffect (Pos : Z) (Value : data) (TsId : Z)
  | SetRegisterEffect (Values : list data) (TsIds : list Z) (OldSize : option Z)
  | SetRegisterPositionsEffect (Pos : list Z) (Values : list data) (TsIds : list Z) (OldSize : option Z)
  | SetRegisterRangeEffect (From To : Z) (Values : list data) (TsIds : list Z) (OldSize : option Z)
  | AvgEffect (u : AvgUpd) (OldSize : option Z)
  | UpdateAllEffect (u : UpdateAll) (TsId : Z) (OldSizes : option SetSizes).

Definition Initialize (replicaID : Z) : MultiArrayCrdt :=
  mkMulti nilSlice nilSlice nilSlice nilSlice nilSlice nilSlice replicaID.

Definition IsBigCRDT (crdt : MultiArrayCrdt) : bool :=
  (500 <=? slen (intCounters crdt) + slen (floatCounters crdt) + slen (dataCounters crdt) + slen (counts crdt))%nat.

(** The lowest 48 bits of the time and 16 bits of the replica. *)
Definition generate64BitTsAndId (now localReplicaID : Z) : Z :=
  wrapU 64 (Z.lor (wrapS 64 (Z.shiftl (Z.land now (2 ^ 48 - 1)) 16))
                  (Z.land (localReplicaID + 32768) (2 ^ 16 - 1))).

Definition size_of {V} (s : Slice V) : Z := Z.of_nat (slen s).

(** [now]: [time.Now().UnixNano()]. *)
Definition Update (now : Z) (crdt : MultiArrayCrdt) (args : UpdArgs) : DownArgs :=
  match args with
  | MultiArrayData u => DownData u (generate64BitTsAndId now (replicaID crdt))
  | MultiArrayUpdateAll u =>
      match Data u with
      | [] => DownUpdateAll u 0
      | _ => DownUpdateAll u (generate64BitTsAndId now (replicaID crdt))
      end
  | MultiArraySetSizes s =>
      if (IntSize s <? size_of (intCounters crdt)) && (FloatSize s <? size_of (floatCounters crdt)) &&
         (RegisterSize s <? size_of (dataCounters crdt))
      then DownNoOp else DownSetSizes s
  | MultiArrayInt u => DownInt u
  | MultiArrayFloat u => DownFloat u
  | MultiArrayAvg u => DownAvg u
  end.

(** ** Applying updates *)

Section arrays.
Context {V : Type} (zero : V) (add : V -> V -> V).

(** The slice grown to include [pos]. *)
Definition growTo (s : Slice V) (pos : Z) : option (Slice V) :=
  if size_of s <=? pos then copySliceWithSize zero s (int32 (pos + 1)) else Some s.

Definition incSingle (s : Slice V) (pos : Z) (change : V) : option (Slice V) :=
  s ← growTo s pos; smod (fun x => add x change) s pos.

Definition incAll (s : Slice V) (changes : list V) : option (Slice V) :=
  s ← (if (slen s <? length changes)%nat
       then copySliceWithSize zero s (int32 (Z.of_nat (length changes))) else Some s);
  loopAll add s 0 changes.

Fixpoint incPos (s : Slice V) (pos : list Z) (changes : list V) : option (Slice V) :=
  match pos, changes with
  | [], _ => Some s
  | p :: pos, change :: changes => s ← incSingle s p change; incPos s pos changes
  | _ :: _, [] => None
  end.

(** One change for all the positions, or one for each. *)
Definition incPositions (one : bool) (s : Slice V) (pos : list Z) (changes : list V) : option (Slice V) :=
  if one then change ← head changes; incPos s pos (replicate (length pos) change)
  else incPos s pos changes.

Definition incRange (s : Slice V) (from to : Z) (change : V) : option (Slice V) :=
  s ← growTo s to; loopRange (fun x => add x change) s from to.
End arrays.

Definition is_one {A} (l : list A) : bool := (length l =? 1)%nat.

Definition old_if {V} (s s' : Slice V) : option Z :=
  if (slen s =? slen s')%nat then None else Some (size_of s).

Definition applyDownstreamInt (crdt : MultiArrayCrdt) (upd : ArrUpd Z) : option (MultiArrayCrdt * Eff) :=
  let s := intCounters crdt in
  match upd with
  | IncSingle pos change =>
      s' ← incSingle 0 iadd s pos change;
      Some (set_ints s' crdt,
            if size_of s <=? pos then SetSizesEffect (mkSizes (size_of s) 0 0 0) else IntEffect upd None)
  | Inc changes =>
      s' ← incAll 0 iadd s changes;
      Some (set_ints s' crdt,
            if (slen s <? length changes)%nat then CounterArrayIncMultiEffect changes (Some (size_of s))
            else IntEffect upd None)
  | IncPositions pos changes =>
      s' ← incPositions 0 iadd (is_one changes) s pos changes;
      Some (set_ints s' crdt, IntEffect upd (old_if s s'))
  | IncRange from to change =>
      s' ← incRange 0 iadd s from to change;
      Some (set_ints s' crdt, IntEffect upd (old_if s s'))
  end.

(** A range grows the array of integers. *)
Definition applyDownstreamFloat (crdt : MultiArrayCrdt) (upd : ArrUpd f64) : option (MultiArrayCrdt * Eff) :=
  let s := floatCounters crdt in
  match upd with
  | IncSingle pos change =>
      s' ← incSingle f0 fadd s pos change;
      Some (set_floats s' crdt,
            if size_of s <=? pos then SetSizesEffect (mkSizes 0 (size_of s) 0 0) else FloatEffect upd None)
  | Inc changes =>
      s' ← incAll f0 fadd s changes;
      Some (set_floats s' crdt,
            FloatEffect upd (if (slen s <? length changes)%nat then Some (size_of s) else None))
  | IncPositions pos changes =>
      s' ← incPositions f0 fadd (is_one changes) s pos changes;
      Some (set_floats s' crdt, FloatEffect upd (old_if s s'))
  | IncRange from to change =>
      ints ← growTo 0 (intCounters crdt) to;
      s' ← loopRange (fun x => fadd x change) s from to;
      Some (set_ints ints (set_floats s' crdt),
            FloatEffect upd (if (slen s =? slen ints)%nat then None else Some (size_of s)))
  end.

(** *** Registers *)

(** The registers and their stamps. *)
Abbreviation Regs := (Slice data * Slice Z)%type.

Definition regs (crdt : MultiArrayCrdt) : Regs := (dataCounters crdt, dataTsId crdt).
Definition set_regs (r : Regs) (crdt : MultiArrayCrdt) : MultiArrayCrdt := set_data r.1 r.2 crdt.

Definition expandDataArray (r : Regs) (newSize : Z) : option Regs :=
  d ← copySliceWithSize None r.1 newSize; t ← copySliceWithSize 0 r.2 newSize; Some (d, t).

Definition setReg (r : Regs) (i : Z) (v : data) (ts : Z) : option Regs :=
  d ← sset r.1 i v; t ← sset r.2 i ts; Some (d, t).

(** [if crdt.dataTsId[i] < ts { ... }], and whether it did. *)
Definition setRegNewer (r : Regs) (i : Z) (v : data) (ts : Z) : option (Regs * bool) :=
  t ← sget r.2 i;
  if t <? ts then r ← setReg r i v ts; Some (r, true) else Some (r, false).

Fixpoint setRegs (r : Regs) (i : Z) (values : list data) (ts : Z) : option (Regs * bool) :=
  match values with
  | [] => Some (r, false)
  | v :: values =>
      '(r, b1) ← setRegNewer r i v ts; '(r, b2) ← setRegs r (i + 1) values ts; Some (r, b1 || b2)
  end.

(** One position of [SetRegisterPositions]: the registers, and the old value and
    stamp if it changed. *)
Definition setRegAt (r : Regs) (pos : Z) (v : data) (ts : Z) : option (Regs * option (data * Z)) :=
  if size_of r.1 <=? pos then
    r ← expandDataArray r (int32 (pos + 1)); r ← setReg r pos v ts; Some (r, Some (None, 0))
  else
    t ← sget r.2 pos;
    if t <? ts then
      old ← sget r.1 pos; oldTs ← sget r.2 pos; r ← setReg r pos v ts; Some (r, Some (old, oldTs))
    else Some (r, None).

(** The positions that did not change have a nil value and no stamp. *)
Fixpoint setRegPos (r : Regs) (pos : list Z) (values : list data) (ts : Z)
  : option (Regs * list (data * Z) * bool) :=
  match pos, values with
  | [], _ => Some (r, [], false)
  | p :: pos, v :: values =>
      '(r, old) ← setRegAt r p v ts;
      '(r, olds, b) ← setRegPos r pos values ts;
      Some (r, default (None, 0) old :: olds, bool_decide (is_Some old) || b)
  | _ :: _, [] => None
  end.

Definition subSlice {V} (s : Slice V) (from to : Z) : option (list V) :=
  if (0 <=? from) && (from <=? to) && (to <=? Z.of_nat (length (arr s)))
  then Some (take (Z.to_nat (to - from)) (drop (Z.to_nat from) (arr s))) else None.

(** Whether the registers have to grow is decided by the array of integers. *)
Definition applyDownstreamData (crdt : MultiArrayCrdt) (upd : DataUpd) (ts : Z)
  : option (MultiArrayCrdt * Eff) :=
  let r := regs crdt in
  match upd with
  | SetRegisterSingle pos v =>
      if size_of r.1 <=? pos then
        r' ← expandDataArray r (int32 (pos + 1)); r' ← setReg r' pos v ts;
        Some (set_regs r' crdt, SetSizesEffect (mkSizes 0 0 (size_of r.1) 0))
      else
        t ← sget r.2 pos;
        if t <? ts then
          old ← sget r.1 pos; oldTs ← sget r.2 pos; r' ← setReg r pos v ts;
          Some (set_regs r' crdt, SetRegisterSingleEffect pos old oldTs)
        else Some (crdt, NoEffect)
  | SetRegister values =>
      let grows := (slen r.1 <? length values)%nat in
      r' ← (if grows then expandDataArray r (int32 (Z.of_nat (length values))) else Some r);
      '(r', atLeastOne) ← setRegs r' 0 values ts;
      Some (set_regs r' crdt,
            if (atLeastOne : bool)
            then SetRegisterEffect (vals r.1) (vals r.2) (if grows then Some (size_of r.1) else None)
            else NoEffect)
  | SetRegisterPositions pos values =>
      values' ← (if is_one values then v ← head values; Some (replicate (length pos) v) else Some values);
      '(r', olds, atLeastOne) ← setRegPos r pos values' ts;
      Some (set_regs r' crdt,
            if (atLeastOne : bool)
            then SetRegisterPositionsEffect pos (olds.*1) (olds.*2) (old_if r.1 r'.1)
            else NoEffect)
  | SetRegisterRange from to v =>
      '(r', oldData, oldTs) ←
        (if size_of (intCounters crdt) <=? to
         then r' ← expandDataArray r (int32 (to + 1)); Some (r', vals r.1, vals r.2)
         else if to - from + 1 <? 0 then None
         else d ← subSlice r.1 from (int32 (to + 1)); t ← subSlice r.2 from (int32 (to + 1)); Some (r, d, t));
      r' ← foldM (fun r i => '(r, _) ← setRegNewer r i v ts; Some r) r' (seqZ from (to - from + 1));
      Some (set_regs r' crdt, SetRegisterRangeEffect from to oldData oldTs (old_if r.1 r'.1))
  end.

(** *** Averages *)

Abbreviation Avgs := (Slice Z * Slice Z)%type.

Definition avgs (crdt : MultiArrayCrdt) : Avgs := (sums crdt, counts crdt).
Definition set_avg (a : Avgs) (crdt : MultiArrayCrdt) : MultiArrayCrdt := set_avgs a.1 a.2 crdt.

Definition expandAvgArray (a : Avgs) (newSize : Z) : option Avgs :=
  s ← copySliceWithSize 0 a.1 newSize; c ← copySliceWithSize 0 a.2 newSize; Some (s, c).

Definition incAvg (a : Avgs) (pos value count : Z) : option Avgs :=
  s ← smod (fun x => iadd x value) a.1 pos; c ← smod (fun x => iadd x count) a.2 pos; Some (s, c).

(** [n]: the length of one of the slices. *)
Definition growAvg (n : Z) (a : Avgs) (pos : Z) : option Avgs :=
  if n <=? pos then expandAvgArray a (int32 (pos + 1)) else Some a.

Definition incAvgSingle (a : Avgs) (pos value count : Z) : option Avgs :=
  a ← growAvg (size_of a.1) a pos; incAvg a pos value count.

Fixpoint incAvgAll (a : Avgs) (i : Z) (value count : list Z) : option Avgs :=
  match value, count with
  | [], _ => Some a
  | v :: value, c :: count => a ← incAvg a i v c; incAvgAll a (i + 1) value count
  | _ :: _, [] => None
  end.

Fixpoint incAvgPos (a : Avgs) (pos value count : list Z) : option Avgs :=
  match pos, value, count with
  | [], _, _ => Some a
  | p :: pos, v :: value, c :: count =>
      a ← growAvg (size_of a.2) a p; a ← incAvg a p v c; incAvgPos a pos value count
  | _, _, _ => None
  end.

Definition incAvgPositions (one : bool) (a : Avgs) (pos value count : list Z) : option Avgs :=
  if one then v ← head value; c ← head count;
    incAvgPos a pos (replicate (length pos) v) (replicate (length pos) c)
  else incAvgPos a pos value count.

Definition incAvgRange (a : Avgs) (from to value count : Z) : option Avgs :=
  foldM (fun a i => incAvg a i value count) a (seqZ from (to - from + 1)).

(** Whether a range has to grow is decided by the array of integers. *)
Definition applyDownstreamAvg (crdt : MultiArrayCrdt) (upd : AvgUpd) : option (MultiArrayCrdt * Eff) :=
  let a := avgs crdt in
  match upd with
  | IncAvgSingle value count pos =>
      a' ← incAvgSingle a pos value count;
      Some (set_avg a' crdt,
            if size_of a.1 <=? pos then SetSizesEffect (mkSizes 0 0 0 (size_of a.1)) else AvgEffect upd None)
  | IncAvg value count =>
      let grows := (slen a.1 <? length value)%nat in
      a' ← (if grows then expandAvgArray a (int32 (Z.of_nat (length value))) else Some a);
      a' ← incAvgAll a' 0 value count;
      Some (set_avg a' crdt, AvgEffect upd (if grows then Some (size_of a.1) else None))
  | IncAvgPositions value count pos =>
      a' ← incAvgPositions (is_one value) a pos value count;
      Some (set_avg a' crdt, AvgEffect upd (old_if a.1 a'.1))
  | IncAvgRange from to value count =>
      a' ← (if size_of (intCounters crdt) <=? to then expandAvgArray a (int32 (to + 1)) else Some a);
      a' ← incAvgRange a' from to value count;
      Some (set_avg a' crdt,
            AvgEffect upd (if (slen a.1 =? slen (intCounters crdt))%nat then None else Some (size_of a.1)))
  end.

(** *** All of them *)

Definition size_if {A} (l : list A) (n : Z) : Z := match l with [] => -1 | _ => n end.

(** The effect of an update of all the arrays, from the old sizes ([-1]: not
    changed) and the registers before. *)
Definition updateAllEffect (crdt : MultiArrayCrdt) (upd : UpdateAll) (ts oldInt oldFloat oldData oldAvg : Z)
    (oldRegs : Regs) : Eff :=
  let grew {V} old (s : Slice V) := if old <? size_of s then Some old else None in
  if (oldInt =? -1) && (oldFloat =? -1) && (oldData =? -1) && (oldAvg =? -1) then NoEffect
  else if (-1 <? oldInt) && (oldFloat =? -1) && (oldData =? -1) && (oldAvg =? -1)
  then CounterArrayIncMultiEffect (Ints upd) (grew oldInt (intCounters crdt))
  else if (oldInt =? -1) && (-1 <? oldFloat) && (oldData =? -1) && (oldAvg =? -1)
  then FloatEffect (Inc (Floats upd)) (grew oldFloat (floatCounters crdt))
  else if (oldInt =? -1) && (oldFloat =? -1) && (-1 <? oldData) && (oldAvg =? -1)
  then SetRegisterEffect (vals oldRegs.1) (vals oldRegs.2) (grew oldData (dataCounters crdt))
  else if (oldInt =? -1) && (oldFloat =? -1) && (oldData =? -1) && (-1 <? oldAvg)
  then AvgEffect (IncAvg (Sums upd) (Counts upd)) (grew oldAvg (sums crdt))
  else UpdateAllEffect upd ts
         (if (oldInt =? size_of (intCounters crdt)) && (oldFloat =? size_of (floatCounters crdt)) &&
             (oldData =? size_of (dataCounters crdt)) && (oldAvg =? size_of (sums crdt))
          then None else Some (mkSizes oldInt oldFloat oldData oldAvg)).

Definition applyDownstreamMulti (crdt : MultiArrayCrdt) (upd : UpdateAll) (ts : Z)
  : option (MultiArrayCrdt * Eff) :=
  ints ← (match Ints upd with [] => Some (intCounters crdt) | l => incAll 0 iadd (intCounters crdt) l end);
  floats ← (match Floats upd with [] => Some (floatCounters crdt) | l => incAll f0 fadd (floatCounters crdt) l end);
  let r := regs crdt in
  '(r', changed) ←
    (match Data upd with
     | [] => Some (r, false)
     | values =>
         r' ← (if (slen r.1 <? length values)%nat then expandDataArray r (int32 (Z.of_nat (length values)))
               else Some r);
         setRegs r' 0 values ts
     end);
  a' ← (match Sums upd with
        | [] => Some (avgs crdt)
        | l => a' ← (if (slen (sums crdt) <? length l)%nat
                     then expandAvgArray (avgs crdt) (int32 (Z.of_nat (length l))) else Some (avgs crdt));
               incAvgAll a' 0 l (Counts upd)
        end);
  let crdt' := set_ints ints (set_floats floats (set_regs r' (set_avg a' crdt))) in
  Some (crdt', updateAllEffect crdt' upd ts (size_if (Ints upd) (size_of (intCounters crdt)))
                 (size_if (Floats upd) (size_of (floatCounters crdt)))
                 (if (changed : bool) then size_of (dataCounters crdt) else -1)
                 (size_if (Sums upd) (size_of (sums crdt))) r).

(** *** Sizes *)

(** The effect has the old size of the floating-point counters as the one of the
    registers. *)
Definition applyDownstreamSize (crdt : MultiArrayCrdt) (sizeArg : SetSizes) : option (MultiArrayCrdt * Eff) :=
  let grow {V} zero (s : Slice V) size := if size_of s <? size then copySliceWithSize zero s size else Some s in
  let old {V} (s : Slice V) size n := if size_of s <? size then n else -1 in
  ints ← grow 0 (intCounters crdt) (IntSize sizeArg);
  floats ← grow f0 (floatCounters crdt) (FloatSize sizeArg);
  r ← (if size_of (dataCounters crdt) <? RegisterSize sizeArg
       then expandDataArray (regs crdt) (RegisterSize sizeArg) else Some (regs crdt));
  a ← (if size_of (sums crdt) <? AvgSize sizeArg
       then expandAvgArray (avgs crdt) (AvgSize sizeArg) else Some (avgs crdt));
  let e := mkSizes (old (intCounters crdt) (IntSize sizeArg) (size_of (intCounters crdt)))
                   (old (floatCounters crdt) (FloatSize sizeArg) (size_of (floatCounters crdt)))
                   (old (dataCounters crdt) (RegisterSize sizeArg) (size_of floats))
                   (old (sums crdt) (AvgSize sizeArg) (size_of (counts crdt))) in
  Some (set_ints ints (set_floats floats (set_regs r (set_avg a crdt))),
        if (IntSize e =? -1) && (FloatSize e =? -1) && (RegisterSize e =? -1) && (AvgSize e =? -1)
        then NoEffect else SetSizesEffect e).

(** A [NoOp] is not a [MultiArrayUpd]: nothing is applied and the effect is nil. *)
Definition multi_applyDownstream (crdt : MultiArrayCrdt) (args : DownArgs) : option (MultiArrayCrdt * option Eff) :=
  match args with
  | DownInt u => '(crdt, e) ← applyDownstreamInt crdt u; Some (crdt, Some e)
  | DownFloat u => '(crdt, e) ← applyDownstreamFloat crdt u; Some (crdt, Some e)
  | DownData u ts => '(crdt, e) ← applyDownstreamData crdt u ts; Some (crdt, Some e)
  | DownAvg u => '(crdt, e) ← applyDownstreamAvg crdt u; Some (crdt, Some e)
  | DownUpdateAll u ts => '(crdt, e) ← applyDownstreamMulti crdt u ts; Some (crdt, Some e)
  | DownSetSizes s => '(crdt, e) ← applyDownstreamSize crdt s; Some (crdt, Some e)
  | DownNoOp => Some (crdt, None)
  end.

(** ** Undoing effects *)

Definition trunc_if {V} (s : Slice V) (old : option Z) : option (Slice V) :=
  match old with Some n => strunc s n | None => Some s end.

(** [if crdt.dataTsId[i] > oldTs { ... }]. *)
Definition unsetReg (r : Regs) (i : Z) (v : data) (oldTs : Z) : option Regs :=
  t ← sget r.2 i; if oldTs <? t then setReg r i v oldTs else Some r.

Fixpoint unsetRegs (r : Regs) (i : Z) (values : list data) (tss : list Z) : option Regs :=
  match values, tss with
  | [], _ => Some r
  | v :: values, t :: tss => r ← unsetReg r i v t; unsetRegs r (i + 1) values tss
  | _ :: _, [] => None
  end.

(** A nil value was not changed. *)
Fixpoint unsetRegPos (r : Regs) (pos : list Z) (values : list data) (tss : list Z) : option Regs :=
  match tss, pos, values with
  | [], _, _ => Some r
  | oldTs :: tss, p :: pos, v :: values =>
      t ← sget r.2 p;
      r ← (if (oldTs <? t) && bool_decide (is_Some v) then setReg r p v oldTs else Some r);
      unsetRegPos r pos values tss
  | _, _, _ => None
  end.

Definition decAvg (a : Avgs) (pos value count : Z) : option Avgs :=
  s ← smod (fun x => isub x value) a.1 pos; c ← smod (fun x => isub x count) a.2 pos; Some (s, c).

Fixpoint decAvgAll (a : Avgs) (i : Z) (value count : list Z) : option Avgs :=
  match value, count with
  | [], _ => Some a
  | v :: value, c :: count => a ← decAvg a i v c; decAvgAll a (i + 1) value count
  | _ :: _, [] => None
  end.

Fixpoint decAvgPos (a : Avgs) (pos value count : list Z) : option Avgs :=
  match pos, value, count with
  | [], _, _ => Some a
  | p :: pos, v :: value, c :: count => a ← decAvg a p v c; decAvgPos a pos value count
  | _, _, _ => None
  end.

Definition decAvgPositions (a : Avgs) (pos value count : list Z) : option Avgs :=
  if is_one value then v ← head value; c ← head count;
    decAvgPos a pos (replicate (length pos) v) (replicate (length pos) c)
  else decAvgPos a pos value count.

Definition truncAvg (a : Avgs) (n : Z) : option Avgs := s ← strunc a.1 n; c ← strunc a.2 n; Some (s, c).

Definition decPositions (s : Slice f64) (pos : list Z) (changes : list f64) : option (Slice f64) :=
  if is_one changes then c ← head changes; loopPos fsub s pos (replicate (length pos) c)
  else loopPos fsub s pos changes.

(** [if n >= 0 { s = s[:n] }]. *)
Definition trunc_nonneg {V} (s : Slice V) (n : Z) : option (Slice V) :=
  if 0 <=? n then strunc s n else Some s.

(** The effects of integers that are undone are those of the counter array, not
    the object's own; the ranges, and some of the effects with sizes, are not
    undone either.  The stamps stay as long as they are. *)
Definition multi_undoEffect (crdt : MultiArrayCrdt) (effect : Eff) : option MultiArrayCrdt :=
  let data_back (r : Regs) := Some (set_regs r crdt) in
  let avg_back (a : Avgs) := Some (set_avg a crdt) in
  match effect with
  | CounterArrayIncMultiEffect l old =>
      s ← loopAll isub (intCounters crdt) 0 l; s ← trunc_if s old; Some (set_ints s crdt)
  | FloatEffect (IncSingle pos change) None =>
      s ← smod (fun x => fsub x change) (floatCounters crdt) pos; Some (set_floats s crdt)
  | FloatEffect (Inc changes) old =>
      s ← loopAll fsub (floatCounters crdt) 0 changes; s ← trunc_if s old; Some (set_floats s crdt)
  | FloatEffect (IncPositions pos changes) old =>
      s ← decPositions (floatCounters crdt) pos changes; s ← trunc_if s old; Some (set_floats s crdt)
  | SetRegisterSingleEffect pos v ts => r ← setReg (regs crdt) pos v ts; data_back r
  | SetRegisterEffect values tss old =>
      r ← unsetRegs (regs crdt) 0 values tss; d ← trunc_if r.1 old; t ← trunc_if r.2 old; data_back (d, t)
  | SetRegisterPositionsEffect pos values tss old =>
      r ← unsetRegPos (regs crdt) pos values tss; d ← trunc_if r.1 old; data_back (d, r.2)
  | AvgEffect (IncAvgSingle value count pos) None => a ← decAvg (avgs crdt) pos value count; avg_back a
  | AvgEffect (IncAvg value count) _ => a ← decAvgAll (avgs crdt) 0 value count; avg_back a
  | AvgEffect (IncAvgPositions value count pos) old =>
      a ← decAvgPositions (avgs crdt) pos value count;
      a ← match old with Some n => truncAvg a n | None => Some a end; avg_back a
  | UpdateAllEffect u ts old =>
      let size f := match old with Some s => Some (f s) | None => None end in
      ints ← (if (0 <? slen (intCounters crdt))%nat
              then s ← loopAll isub (intCounters crdt) 0 (Ints u); trunc_if s (size IntSize)
              else Some (intCounters crdt));
      floats ← (if (0 <? slen (floatCounters crdt))%nat
                then s ← loopAll fsub (floatCounters crdt) 0 (Floats u); trunc_if s (size FloatSize)
                else Some (floatCounters crdt));
      r ← (if (0 <? slen (dataCounters crdt))%nat
           then unsetRegs (regs crdt) 0 (Data u) (replicate (length (Data u)) ts) else Some (regs crdt));
      a ← (if (0 <? slen (sums crdt))%nat
           then a ← decAvgAll (avgs crdt) 0 (Sums u) (Counts u);
                match old with Some s => truncAvg a (AvgSize s) | None => Some a end
           else Some (avgs crdt));
      Some (set_ints ints (set_floats floats (set_regs r (set_avg a crdt))))
  | SetSizesEffect s =>
      ints ← trunc_nonneg (intCounters crdt) (IntSize s);
      floats ← trunc_nonneg (floatCounters crdt) (FloatSize s);
      d ← trunc_nonneg (dataCounters crdt) (RegisterSize s);
      a ← (if 0 <=? AvgSize s then truncAvg (avgs crdt) (AvgSize s) else Some (avgs crdt));
      Some (set_ints ints (set_floats floats (set_data d (dataTsId crdt) (set_avg a crdt))))
  | NoEffect | IntEffect _ _ | FloatEffect _ _ | SetRegisterRangeEffect _ _ _ _ _ | AvgEffect _ _ => Some crdt
  end.

#[export] Instance multi_inversible : InversibleOps MultiArrayCrdt DownArgs Eff := {
  applyDownstream := multi_applyDownstream;
  undoEffect crdt effect :=
    match effect with Some eff => multi_undoEffect crdt eff | None => None end
}.

(** The stamps of the registers and the identifier are not copied. *)
Definition Copy (crdt : MultiArrayCrdt) : MultiArrayCrdt :=
  mkMulti (copySlice (intCounters crdt)) (copySlice (sums crdt)) (copySlice (counts crdt))
    (copySlice (floatCounters crdt)) (copySlice (dataCounters crdt)) nilSlice 0.

(** ** Protocol buffers *)

(** The messages have the fields of the updates, and a default for the ones that
    are absent. *)
Record ProtoMultiArrayMulti := mkProtoMulti {
  P_Ints : list Z; P_Floats : list f64; P_Data : list data; P_TsId : option Z;
  P_Counts : list Z; P_Sums : list Z }.

Record ProtoSetSize := mkProtoSize {
  P_IntSize : option Z; P_FloatSize : option Z; P_DataSize : option Z; P_AvgSize : option Z }.

Inductive ProtoMultiArrayDownstream :=
  | P_IntUpd (u : ArrUpd Z)
  | P_FloatUpd (u : ArrUpd f64)
  | P_DataUpd (u : DataUpd) (TsId : Z)
  | P_AvgUpd (u : AvgUpd)
  | P_MultiUpd (p : ProtoMultiArrayMulti)
  | P_SizeUpd (p : ProtoSetSize).

Definition multiToProto (u : UpdateAll) (ts : Z) : ProtoMultiArrayMulti :=
  mkProtoMulti (Ints u) (Floats u) (Data u) (match Data u with [] => None | _ => Some ts end)
    (Counts u) (match Counts u with [] => [] | _ => Sums u end).

Definition sizesToProto (s : SetSizes) : ProtoSetSize :=
  let field n := if 0 <? n then Some n else None in
  mkProtoSize (field (IntSize s)) (field (FloatSize s)) (field (RegisterSize s)) (field (AvgSize s)).

(** A [NoOp] is not replicated. *)
Definition ToReplicatorObj (downOp : DownArgs) : option ProtoMultiArrayDownstream :=
  match downOp with
  | DownInt u => Some (P_IntUpd u)
  | DownFloat u => Some (P_FloatUpd u)
  | DownData u ts => Some (P_DataUpd u ts)
  | DownAvg u => Some (P_AvgUpd u)
  | DownUpdateAll u ts => Some (P_MultiUpd (multiToProto u ts))
  | DownSetSizes s => Some (P_SizeUpd (sizesToProto s))
  | DownNoOp => None
  end.

Definition FromReplicatorObj (protobuf : ProtoMultiArrayDownstream) : DownArgs :=
  match protobuf with
  | P_IntUpd u => DownInt u
  | P_FloatUpd u => DownFloat u
  | P_DataUpd u ts => DownData u ts
  | P_AvgUpd u => DownAvg u
  | P_MultiUpd p =>
      DownUpdateAll (mkAll (P_Ints p) (P_Sums p) (P_Floats p) (P_Data p) (P_Counts p)) (default 0 (P_TsId p))
  | P_SizeUpd p =>
      DownSetSizes (mkSizes (default 0 (P_IntSize p)) (default 0 (P_FloatSize p))
                      (default 0 (P_DataSize p)) (default 0 (P_AvgSize p)))
  end.

(** The stamps of the registers are not in a snapshot. *)
Record ProtoMultiArrayState := mkProtoState {
  PS_IntCounters : list Z; PS_FloatCounters : list f64; PS_Data : list data; PS_Sums : list Z; PS_Counts : list Z }.

Definition ToProtoState (crdt : MultiArrayCrdt) : ProtoMultiArrayState :=
  mkProtoState (vals (intCounters crdt)) (vals (floatCounters crdt)) (vals (dataCounters crdt))
    (vals (sums crdt)) (vals (counts crdt)).

(** With the [initializeFromSnapshot] that follows. *)
Definition FromProtoState (p : ProtoMultiArrayState) (replicaID : Z) : MultiArrayCrdt :=
  mkMulti (of_list (PS_IntCounters p)) (of_list (PS_Sums p)) (of_list (PS_Counts p))
    (of_list (PS_FloatCounters p)) (of_list (PS_Data p)) nilSlice replicaID.
