(* ===== verification/MultiArrayOps.v ===== *)
(** * What the updates of a multi-array do, position by position

    Lemmas about file MultiArray.  An update grows an array and folds its changes
    into each position ([folds]); an update of the registers folds writes that
    win if they are newer ([writes]). *)

From S2P Require Import Prelude ClockSI Inversible GoSlice MultiArray.
From Stdlib Require Import ZArith Lia Bool SpecFloat.
From stdpp Require Import base tactics numbers strings list.
#[local] Open Scope Z_scope.

(** ** Arrays *)

Section folds.
Context {V : Type} (zero : V) (add : V -> V -> V).

Record folds (s s' : Slice V) (n : nat) (ch : nat -> list V) : Prop := {
  fo_ok : slice_ok s';
  fo_len : slen s' = Nat.max (slen s) n;
  fo_above i : (n <= i)%nat -> ch i = [];
  fo_vals i : (i < slen s')%nat -> vals s' !! i = Some (foldl add (default zero (vals s !! i)) (ch i))
}.

Lemma vals_above (s : Slice V) i : slice_ok s -> (slen s <= i)%nat -> vals s !! i = None.
Proof. intros Hs Hi. apply lookup_ge_None_2. rewrite vals_length by done. done. Qed.

Lemma folds_refl s : slice_ok s -> folds s s 0 (fun _ => []).
Proof.
  intros Hs. split; [done|lia|done|]. intros i Hi.
  destruct (lookup_lt_is_Some_2 (vals s) i) as [x Hx]; [by rewrite vals_length|]. by rewrite Hx.
Qed.

Lemma folds_trans s s1 s2 n1 n2 c1 c2 :
  folds s s1 n1 c1 -> folds s1 s2 n2 c2 -> folds s s2 (Nat.max n1 n2) (fun i => c1 i ++ c2 i).
Proof.
  intros [K1 L1 A1 V1] [K2 L2 A2 V2]. split; [done|lia|..].
  - intros i Hi. rewrite A1, A2 by lia. done.
  - intros i Hi. rewrite V2 by done. rewrite foldl_app. do 2 f_equal.
    destruct (decide (i < slen s1)%nat) as [Hlt|Hge].
    + by rewrite V1.
    + rewrite (vals_above s1) by (done || lia). rewrite A1 by lia. simpl.
      destruct (vals s !! i) as [x|] eqn:E; [|done]. exfalso.
      assert (i < slen s)%nat; [|lia]. apply lookup_lt_Some in E. unfold vals in E.
      rewrite length_take in E. lia.
Qed.

Lemma folds_ext s s' n n' c c' : folds s s' n c -> n = n' -> (forall i, c i = c' i) -> folds s s' n' c'.
Proof.
  intros [K L A Vs] <- Hc. split; [done|done|..]; intros i Hi; rewrite <- Hc; auto.
Qed.

Lemma growTo_folds s pos : slice_ok s -> 0 <= pos < MaxInt32 ->
  exists s', growTo zero s pos = Some s' /\ folds s s' (Z.to_nat (pos + 1)) (fun _ => []) /\ pos < size_of s'.
Proof.
  intros Hs Hp. unfold growTo, size_of in *. destruct (Z.leb_spec (Z.of_nat (slen s)) pos) as [Hle|Hgt].
  - rewrite wrapS_id by (unfold inS, MaxInt32 in *; lia).
    destruct (copySliceWithSize_ok zero s (pos + 1) Hs) as (s' & -> & Hok & Hl & Hv); [lia|].
    exists s'. split; [done|]. split; [|lia]. split; [done|lia|done|]. intros i Hi. rewrite Hv by lia. done.
  - exists s. split; [done|]. split; [|lia]. destruct (folds_refl s Hs) as [K L A Vs]. split; [done|lia|done|done].
Qed.

Lemma smod_folds s pos c : slice_ok s -> 0 <= pos < size_of s ->
  exists s', smod (fun x => add x c) s pos = Some s' /\
    folds s s' (Z.to_nat (pos + 1)) (fun i => if decide (Z.of_nat i = pos) then [c] else []).
Proof.
  intros Hs Hp. destruct (smod_ok (fun x => add x c) s pos Hs Hp) as (s' & -> & Hok & Hl & Hv).
  exists s'. split; [done|]. unfold size_of in Hp. split; [done|lia|..].
  - intros i Hi. rewrite decide_False by lia. done.
  - intros i Hi. rewrite Hv. rewrite Hl in Hi.
    destruct (lookup_lt_is_Some_2 (vals s) i) as [x Hx]; [by rewrite vals_length|]. case_decide as E.
    + assert (i = Z.to_nat pos) as -> by lia. by rewrite list_lookup_alter_eq, Hx.
    + rewrite list_lookup_alter_ne by lia. by rewrite Hx.
Qed.

Definition at_pos (pos : Z) (l : list V) (i : nat) : list V := if decide (Z.of_nat i = pos) then l else [].

Lemma incSingle_folds s pos c : slice_ok s -> 0 <= pos < MaxInt32 ->
  exists s', incSingle zero add s pos c = Some s' /\ folds s s' (Z.to_nat (pos + 1)) (at_pos pos [c]).
Proof.
  intros Hs Hp. unfold incSingle. destruct (growTo_folds s pos Hs Hp) as (s1 & -> & Hf1 & Hlt).
  cbn [mbind option_bind]. destruct (smod_folds s1 pos c) as (s2 & -> & Hf2); [apply Hf1|lia|].
  exists s2. split; [done|]. eapply folds_ext; [eapply folds_trans; eassumption|lia|done].
Qed.

Lemma loopAll_folds l : forall s i0, slice_ok s -> 0 <= i0 -> i0 + Z.of_nat (length l) <= size_of s ->
  exists s', loopAll add s i0 l = Some s' /\
    folds s s' (Z.to_nat i0 + length l)
      (fun i => if decide (i0 <= Z.of_nat i) then option_list (l !! (i - Z.to_nat i0)%nat) else []).
Proof.
  induction l as [|v l IH]; intros s i0 Hs H0 Hl; cbn [loopAll length] in *.
  { exists s. split; [done|]. pose proof (folds_refl s Hs) as [K L A Vs]. unfold size_of in Hl. split; [done|lia|..].
    - intros i _. by case_decide.
    - intros i Hi. rewrite Vs by done. by case_decide. }
  destruct (smod_folds s i0 v Hs) as (s1 & -> & Hf1); [lia|]. cbn [mbind option_bind].
  destruct (IH s1 (i0 + 1)) as (s2 & -> & Hf2); [apply Hf1|lia| |].
  { destruct Hf1 as [_ L _ _]. unfold size_of in *. rewrite L. lia. }
  exists s2. split; [done|]. eapply folds_ext; [eapply folds_trans; eassumption|lia|].
  intros i. cbn beta. destruct (decide (Z.of_nat i = i0)) as [E|E].
  - rewrite decide_False by lia. rewrite decide_True by lia. replace (i - Z.to_nat i0)%nat with 0%nat by lia. done.
  - destruct (decide (i0 <= Z.of_nat i)).
    + rewrite decide_True by lia. replace (i - Z.to_nat i0)%nat with (S (i - Z.to_nat (i0 + 1))) by lia. done.
    + by rewrite decide_False by lia.
Qed.

Lemma incAll_folds s l : slice_ok s -> Z.of_nat (length l) <= MaxInt32 ->
  exists s', incAll zero add s l = Some s' /\ folds s s' (length l) (fun i => option_list (l !! i)).
Proof.
  intros Hs Hl. unfold incAll.
  assert (Hg : exists s1, (if (slen s <? length l)%nat
      then copySliceWithSize zero s (int32 (Z.of_nat (length l))) else Some s) = Some s1 /\
      folds s s1 (length l) (fun _ => [])).
  { destruct (Nat.ltb_spec (slen s) (length l)) as [Hlt|Hge].
    - rewrite wrapS_id by (unfold inS, MaxInt32 in *; lia).
      destruct (copySliceWithSize_ok zero s (Z.of_nat (length l)) Hs) as (s' & -> & Hok & Hsl & Hv); [lia|].
      exists s'. split; [done|]. split; [done|lia|done|]. intros i Hi. rewrite Hv by lia. done.
    - exists s. split; [done|]. destruct (folds_refl s Hs) as [K L A Vs]. split; [done|lia|done|done]. }
  destruct Hg as (s1 & -> & Hf1). cbn [mbind option_bind].
  destruct (loopAll_folds l s1 0) as (s2 & -> & Hf2); [apply Hf1|lia| |].
  { destruct Hf1 as [_ L _ _]. unfold size_of. lia. }
  exists s2. split; [done|]. eapply folds_ext; [eapply folds_trans; eassumption|lia|].
  intros i. cbn beta. rewrite decide_True by lia. by rewrite Nat.sub_0_r.
Qed.

(** The greatest size that a list of positions needs. *)
Definition pos_size (pos : list Z) : nat := foldr (fun p n => Nat.max (Z.to_nat (p + 1)) n) 0%nat pos.

Definition at_positions (pos : list Z) (changes : list V) (i : nat) : list V :=
  mjoin (zip_with (fun p c => at_pos p [c] i) pos changes).

Lemma incPos_folds pos : forall s changes, slice_ok s -> Forall (fun p => 0 <= p < MaxInt32) pos ->
  (length pos <= length changes)%nat ->
  exists s', incPos zero add s pos changes = Some s' /\ folds s s' (pos_size pos) (at_positions pos changes).
Proof.
  induction pos as [|p pos IH]; intros s changes Hs Hp Hl; cbn [incPos].
  { exists s. split; [by destruct changes|]. eapply folds_ext; [by apply folds_refl|done|by destruct changes]. }
  destruct changes as [|c changes]; [simpl in Hl; lia|]. apply Forall_cons in Hp as [Hp1 Hp2].
  destruct (incSingle_folds s p c Hs Hp1) as (s1 & -> & Hf1). cbn [mbind option_bind].
  destruct (IH s1 changes) as (s2 & -> & Hf2); [apply Hf1|done|simpl in Hl; lia|].
  exists s2. split; [done|]. eapply folds_ext; [eapply folds_trans; eassumption|done|done].
Qed.

Lemma loopRange_folds n c : forall s from, slice_ok s -> 0 <= from -> from + Z.of_nat n <= size_of s ->
  exists s', foldM (smod (fun x => add x c)) s (seqZ from (Z.of_nat n)) = Some s' /\
    folds s s' (Z.to_nat from + n)
      (fun i => if decide (from <= Z.of_nat i < from + Z.of_nat n) then [c] else []).
Proof.
  induction n as [|n IH]; intros s from Hs H0 Hl.
  { exists s. split; [done|]. unfold size_of in Hl. destruct (folds_refl s Hs) as [K L A Vs]. split; [done|lia|..].
    - intros i _. by rewrite decide_False by lia.
    - intros i Hi. rewrite Vs by done. by rewrite decide_False by lia. }
  rewrite seqZ_cons by lia. replace (Z.pred (Z.of_nat (S n))) with (Z.of_nat n) by lia.
  replace (Z.succ from) with (from + 1) by lia. cbn [foldM].
  destruct (smod_folds s from c Hs) as (s1 & -> & Hf1); [lia|]. cbn [mbind option_bind].
  destruct (IH s1 (from + 1)) as (s2 & -> & Hf2); [apply Hf1|lia| |].
  { destruct Hf1 as [_ L _ _]. unfold size_of in *. rewrite L. lia. }
  exists s2. split; [done|]. eapply folds_ext; [eapply folds_trans; eassumption|lia|].
  intros i. cbn beta. destruct (decide (Z.of_nat i = from)).
  - rewrite decide_False by lia. by rewrite decide_True by lia.
  - destruct (decide (from + 1 <= Z.of_nat i < from + 1 + Z.of_nat n)).
    + by rewrite decide_True by lia.
    + by rewrite decide_False by lia.
Qed.

(** *** Updates *)

Definition upd_ok (u : ArrUpd V) : Prop :=
  match u with
  | IncSingle pos _ => 0 <= pos < MaxInt32
  | Inc l => Z.of_nat (length l) <= MaxInt32
  | IncPositions pos changes =>
      Forall (fun p => 0 <= p < MaxInt32) pos /\ (length changes = 1%nat \/ (length pos <= length changes)%nat)
  | IncRange from to _ => 0 <= from /\ from - 1 <= to /\ 0 <= to < MaxInt32
  end.

Definition upd_size (u : ArrUpd V) : nat :=
  match u with
  | IncSingle pos _ => Z.to_nat (pos + 1)
  | Inc l => length l
  | IncPositions pos _ => pos_size pos
  | IncRange _ to _ => Z.to_nat (to + 1)
  end.

(** The changes of an update at a position. *)
Definition changes_at (u : ArrUpd V) (i : nat) : list V :=
  match u with
  | IncSingle pos c => at_pos pos [c] i
  | Inc l => option_list (l !! i)
  | IncPositions pos changes =>
      match changes with
      | [c] => at_positions pos (replicate (length pos) c) i
      | _ => at_positions pos changes i
      end
  | IncRange from to c => if decide (from <= Z.of_nat i <= to) then [c] else []
  end.

Lemma incPositions_folds s pos changes : slice_ok s -> upd_ok (IncPositions pos changes) ->
  exists s', incPositions zero add (is_one changes) s pos changes = Some s' /\
    folds s s' (pos_size pos) (changes_at (IncPositions pos changes)).
Proof.
  intros Hs [Hp Hl]. unfold incPositions, is_one. destruct changes as [|c [|c2 changes]]; cbn [length Nat.eqb].
  - destruct Hl as [?|Hl]; [done|]. by apply incPos_folds.
  - cbn [head hd_error mbind option_bind]. apply incPos_folds; [done|done|]. by rewrite length_replicate.
  - destruct Hl as [?|Hl]; [done|]. by apply incPos_folds.
Qed.

Lemma incRange_folds s from to c : slice_ok s -> upd_ok (IncRange from to c) ->
  exists s', incRange zero add s from to c = Some s' /\
    folds s s' (Z.to_nat (to + 1)) (changes_at (IncRange from to c)).
Proof.
  intros Hs (Hf & Hft & Ht). unfold incRange, loopRange.
  destruct (growTo_folds s to Hs Ht) as (s1 & -> & Hf1 & Hlt). cbn [mbind option_bind].
  replace (to - from + 1) with (Z.of_nat (Z.to_nat (to - from + 1))) by lia.
  destruct (loopRange_folds (Z.to_nat (to - from + 1)) c s1 from) as (s2 & -> & Hf2); [apply Hf1|lia|lia|].
  exists s2. split; [done|]. eapply folds_ext; [eapply folds_trans; eassumption|lia|].
  intros i. cbn [changes_at app]. destruct (decide (from <= Z.of_nat i <= to)).
  - by rewrite decide_True by lia.
  - by rewrite decide_False by lia.
Qed.
End folds.

(** ** Averages *)

Record avgs_ok (a : Avgs) : Prop := {
  av_sums : slice_ok a.1; av_counts : slice_ok a.2; av_len : slen a.2 = slen a.1 }.

Definition avg_folds (a a' : Avgs) (n : nat) (cs cc : nat -> list Z) : Prop :=
  folds 0 iadd a.1 a'.1 n cs /\ folds 0 iadd a.2 a'.2 n cc.

Lemma avg_folds_ok a a' n cs cc : avgs_ok a -> avg_folds a a' n cs cc -> avgs_ok a'.
Proof.
  intros [_ _ Hl] [[K1 L1 _ _] [K2 L2 _ _]]. split; [done|done|]. rewrite L1, L2. lia.
Qed.

Lemma avg_folds_refl a : avgs_ok a -> avg_folds a a 0 (fun _ => []) (fun _ => []).
Proof. intros [H1 H2 _]. split; by apply folds_refl. Qed.

Lemma avg_folds_trans a a1 a2 n1 n2 s1 s2 c1 c2 :
  avg_folds a a1 n1 s1 c1 -> avg_folds a1 a2 n2 s2 c2 ->
  avg_folds a a2 (Nat.max n1 n2) (fun i => s1 i ++ s2 i) (fun i => c1 i ++ c2 i).
Proof. intros [? ?] [? ?]. split; by eapply folds_trans. Qed.

Lemma avg_folds_ext a a' n n' s s' c c' : avg_folds a a' n s c -> n = n' ->
  (forall i, s i = s' i) -> (forall i, c i = c' i) -> avg_folds a a' n' s' c'.
Proof. intros [? ?] -> ? ?. split; by eapply folds_ext. Qed.

Lemma incAvg_folds a pos v c : avgs_ok a -> 0 <= pos < size_of a.1 ->
  exists a', incAvg a pos v c = Some a' /\
    avg_folds a a' (Z.to_nat (pos + 1)) (at_pos pos [v]) (at_pos pos [c]).
Proof.
  intros [H1 H2 Hl] Hp. unfold incAvg. destruct (smod_folds 0 iadd a.1 pos v H1 Hp) as (s & -> & Hs).
  destruct (smod_folds 0 iadd a.2 pos c H2) as (n & -> & Hn); [unfold size_of in *; lia|].
  by exists (s, n).
Qed.

Lemma growAvg_folds a pos n : avgs_ok a -> 0 <= pos < MaxInt32 -> n = size_of a.1 ->
  exists a', growAvg n a pos = Some a' /\ avg_folds a a' (Z.to_nat (pos + 1)) (fun _ => []) (fun _ => []) /\
    pos < size_of a'.1.
Proof.
  intros [H1 H2 Hl] Hp ->. destruct (growTo_folds 0 iadd a.1 pos H1 Hp) as (s & Es & Hs & Hlt).
  destruct (growTo_folds 0 iadd a.2 pos H2 Hp) as (c & Ec & Hc & _).
  exists (s, c). split; [|done]. unfold growAvg, expandAvgArray. unfold growTo in Es, Ec.
  replace (size_of a.2) with (size_of a.1) in Ec by (unfold size_of; lia).
  destruct (size_of a.1 <=? pos).
  - rewrite Es, Ec. done.
  - injection Es as <-. injection Ec as <-. by destruct a.
Qed.

Lemma incAvgSingle_folds a pos v c n : avgs_ok a -> 0 <= pos < MaxInt32 -> n = size_of a.1 ->
  exists a', (a ← growAvg n a pos; incAvg a pos v c) = Some a' /\
    avg_folds a a' (Z.to_nat (pos + 1)) (at_pos pos [v]) (at_pos pos [c]).
Proof.
  intros Ha Hp Hn. destruct (growAvg_folds a pos n Ha Hp Hn) as (a1 & -> & Hf1 & Hlt). cbn [mbind option_bind].
  destruct (incAvg_folds a1 pos v c) as (a2 & -> & Hf2); [by eapply avg_folds_ok|lia|].
  exists a2. split; [done|]. eapply avg_folds_ext; [by eapply avg_folds_trans|lia|done|done].
Qed.

Lemma incAvgAll_folds v : forall a i0 c, avgs_ok a -> 0 <= i0 -> (length v <= length c)%nat ->
  i0 + Z.of_nat (length v) <= size_of a.1 ->
  exists a', incAvgAll a i0 v c = Some a' /\
    avg_folds a a' (Z.to_nat i0 + length v)
      (fun i => if decide (i0 <= Z.of_nat i) then option_list (v !! (i - Z.to_nat i0)%nat) else [])
      (fun i => if decide (i0 <= Z.of_nat i)
                then option_list (take (length v) c !! (i - Z.to_nat i0)%nat) else []).
Proof.
  intros a i0 c Ha H0 Hl Hs.
  assert (Heq : incAvgAll a i0 v c =
    s ← loopAll iadd a.1 i0 v; n ← loopAll iadd a.2 i0 (take (length v) c); Some (s, n)).
  { clear -Hl. revert a i0 c Hl. induction v as [|x v IH]; intros [s n] i0 c Hl; [done|].
    destruct c as [|y c]; [simpl in Hl; lia|]. cbn [incAvgAll length take loopAll fst snd]. unfold incAvg.
    cbn [fst snd]. destruct (smod (fun x0 => iadd x0 x) s i0) as [s1|]; [|done]. cbn [mbind option_bind].
    destruct (smod (fun x0 => iadd x0 y) n i0) as [n1|]; cbn [mbind option_bind].
    - rewrite IH by (simpl in Hl; lia). done.
    - by destruct (loopAll iadd s1 (i0 + 1) v). }
  rewrite Heq. destruct (loopAll_folds 0 iadd v a.1 i0) as (s & -> & Hf1); [apply Ha|done|done|].
  destruct (loopAll_folds 0 iadd (take (length v) c) a.2 i0) as (n & -> & Hf2); [apply Ha|done| |].
  { destruct Ha as [_ _ Hn]. rewrite length_take. unfold size_of in *. lia. }
  exists (s, n). split; [done|]. rewrite length_take, Nat.min_l in Hf2 by done. by split.
Qed.

Lemma incAvgPos_folds pos : forall a v c, avgs_ok a -> Forall (fun p => 0 <= p < MaxInt32) pos ->
  (length pos <= length v)%nat -> (length pos <= length c)%nat ->
  exists a', incAvgPos a pos v c = Some a' /\
    avg_folds a a' (pos_size pos) (at_positions pos v) (at_positions pos c).
Proof.
  induction pos as [|p pos IH]; intros a v c Ha Hp Hv Hc; cbn [incAvgPos].
  { exists a. split; [by destruct v, c|]. by apply avg_folds_refl. }
  destruct v as [|x v]; [simpl in Hv; lia|]. destruct c as [|y c]; [simpl in Hc; lia|].
  apply Forall_cons in Hp as [Hp1 Hp2].
  destruct (incAvgSingle_folds a p x y (size_of a.2) Ha Hp1) as (a1 & E1 & Hf1).
  { destruct Ha as [_ _ Hl]. unfold size_of. lia. }
  destruct (growAvg (size_of a.2) a p) as [a0|]; [|done]. cbn [mbind option_bind] in E1 |- *. rewrite E1.
  cbn [mbind option_bind].
  destruct (IH a1 v c) as (a2 & -> & Hf2); [by eapply avg_folds_ok|done|simpl in Hv; lia|simpl in Hc; lia|].
  exists a2. split; [done|]. eapply avg_folds_ext; [by eapply avg_folds_trans|done|done|done].
Qed.

(** ** Registers *)

Record regs_ok (r : Regs) : Prop := {
  rg_data : slice_ok r.1; rg_ts : slice_ok r.2; rg_len : slen r.2 = slen r.1 }.

(** The later of two writes. *)
Definition newer (old new : data * Z) : data * Z := if old.2 <? new.2 then new else old.

(** A register and its stamp. *)
Definition reg_at (r : Regs) (i : nat) : data * Z := (default None (vals r.1 !! i), default 0 (vals r.2 !! i)).

Record writes (r r' : Regs) (n : nat) (w : nat -> list (data * Z)) : Prop := {
  wr_ok : regs_ok r';
  wr_len : slen r'.1 = Nat.max (slen r.1) n;
  wr_above i : (n <= i)%nat -> w i = [];
  wr_vals i : reg_at r' i = foldl newer (reg_at r i) (w i)
}.

Lemma reg_at_above r i : regs_ok r -> (slen r.1 <= i)%nat -> reg_at r i = (None, 0).
Proof.
  intros [H1 H2 Hl] Hi. unfold reg_at. rewrite !vals_above by (done || lia). done.
Qed.

Lemma writes_refl r : regs_ok r -> writes r r 0 (fun _ => []).
Proof. intros Hr. split; [done|lia|done|done]. Qed.

Lemma writes_trans r r1 r2 n1 n2 w1 w2 :
  writes r r1 n1 w1 -> writes r1 r2 n2 w2 -> writes r r2 (Nat.max n1 n2) (fun i => w1 i ++ w2 i).
Proof.
  intros [K1 L1 A1 V1] [K2 L2 A2 V2]. split; [done|lia|..].
  - intros i Hi. rewrite A1, A2 by lia. done.
  - intros i. by rewrite V2, V1, foldl_app.
Qed.

Lemma writes_ext r r' n n' w w' : writes r r' n w -> n = n' -> (forall i, w i = w' i) -> writes r r' n' w'.
Proof. intros [K L A Vs] <- Hw. split; [done|done|..]; intros i; rewrite <- Hw; auto. Qed.

Lemma expandDataArray_writes r size : regs_ok r -> size_of r.1 <= size ->
  exists r', expandDataArray r size = Some r' /\ writes r r' (Z.to_nat size) (fun _ => []) /\
    slen r'.1 = Z.to_nat size.
Proof.
  intros Hr Hs. pose proof Hr as [H1 H2 Hl]. unfold expandDataArray, size_of in *.
  destruct (copySliceWithSize_ok None r.1 size H1) as (d & -> & Hd1 & Hd2 & Hd3); [lia|].
  destruct (copySliceWithSize_ok 0 r.2 size H2) as (t & -> & Ht1 & Ht2 & Ht3); [lia|].
  exists (d, t). split; [done|]. split; [|done]. split; [by split; cbn; try done; lia|cbn; lia|done|].
  intros i. cbn [foldl]. destruct (decide (i < Z.to_nat size)%nat) as [Hi|Hi].
  - unfold reg_at. cbn [fst snd]. rewrite Hd3, Ht3 by done. done.
  - rewrite !reg_at_above; [done|done|lia| |]; [by split; cbn; try done; lia|cbn; lia].
Qed.

Lemma setReg_ok r i v ts : regs_ok r -> 0 <= i < size_of r.1 ->
  exists r', setReg r i v ts = Some r' /\ regs_ok r' /\ slen r'.1 = slen r.1 /\
    forall j, reg_at r' j = if decide (Z.of_nat j = i) then (v, ts) else reg_at r j.
Proof.
  intros [H1 H2 Hl] Hi. unfold setReg, sset, size_of in *.
  destruct (smod_ok (fun _ => v) r.1 i H1 Hi) as (d & -> & Hd1 & Hd2 & Hd3).
  destruct (smod_ok (fun _ => ts) r.2 i H2) as (t & -> & Ht1 & Ht2 & Ht3); [lia|].
  exists (d, t). split; [done|]. split; [split; cbn; try done; lia|]. split; [done|].
  intros j. unfold reg_at. cbn [fst snd]. rewrite Hd3, Ht3. case_decide as E.
  - assert (j = Z.to_nat i) as -> by lia. rewrite !list_lookup_alter_eq.
    destruct (lookup_lt_is_Some_2 (vals r.1) (Z.to_nat i)) as [x ->]; [rewrite vals_length by done; lia|].
    destruct (lookup_lt_is_Some_2 (vals r.2) (Z.to_nat i)) as [y ->]; [rewrite vals_length by done; lia|]. done.
  - by rewrite !list_lookup_alter_ne by lia.
Qed.

Lemma sget_reg_at r i : regs_ok r -> 0 <= i < size_of r.1 ->
  sget r.1 i = Some (reg_at r (Z.to_nat i)).1 /\ sget r.2 i = Some (reg_at r (Z.to_nat i)).2.
Proof.
  intros [H1 H2 Hl] Hi. unfold size_of in Hi. rewrite !sget_vals by (done || lia). unfold reg_at. cbn [fst snd].
  destruct (lookup_lt_is_Some_2 (vals r.1) (Z.to_nat i)) as [x ->]; [rewrite vals_length by done; lia|].
  destruct (lookup_lt_is_Some_2 (vals r.2) (Z.to_nat i)) as [y ->]; [rewrite vals_length by done; lia|]. done.
Qed.

Lemma setRegNewer_writes r i v ts : regs_ok r -> 0 <= i < size_of r.1 ->
  exists r' b, setRegNewer r i v ts = Some (r', b) /\
    writes r r' (Z.to_nat (i + 1)) (at_pos i [(v, ts)]).
Proof.
  intros Hr Hi. unfold setRegNewer. destruct (sget_reg_at r i Hr Hi) as [_ ->]. cbn [mbind option_bind].
  assert (Hn : forall j, foldl newer (reg_at r j) (at_pos i [(v, ts)] j) =
    if decide (Z.of_nat j = i) then newer (reg_at r j) (v, ts) else reg_at r j).
  { intros j. unfold at_pos. by case_decide. }
  assert (Ha : forall j, (Z.to_nat (i + 1) <= j)%nat -> at_pos i [(v, ts)] j = []).
  { intros j Hj. unfold at_pos. by rewrite decide_False by lia. }
  destruct (_ <? ts) eqn:Et.
  - destruct (setReg_ok r i v ts Hr Hi) as (r' & -> & Hok & Hl & Hv). exists r', true. split; [done|].
    unfold size_of in Hi. split; [done|lia|done|]. intros j. rewrite Hn, Hv. case_decide as E; [|done].
    unfold newer. cbn [snd]. replace j with (Z.to_nat i) by lia. by rewrite Et.
  - exists r, false. split; [done|]. unfold size_of in Hi. split; [done|lia|done|]. intros j. rewrite Hn.
    case_decide as E; [|done]. unfold newer. cbn [snd]. replace j with (Z.to_nat i) by lia. by rewrite Et.
Qed.

Lemma setRegs_writes l ts : forall r i0, regs_ok r -> 0 <= i0 -> i0 + Z.of_nat (length l) <= size_of r.1 ->
  exists r' b, setRegs r i0 l ts = Some (r', b) /\
    writes r r' (Z.to_nat i0 + length l)
      (fun i => if decide (i0 <= Z.of_nat i)
                then option_list ((fun v => (v, ts)) <$> l !! (i - Z.to_nat i0)%nat) else []).
Proof.
  induction l as [|v l IH]; intros r i0 Hr H0 Hl; cbn [setRegs length] in *.
  { exists r, false. split; [done|]. unfold size_of in Hl. destruct (writes_refl r Hr) as [K L A Vs]. split; [done|lia|..].
    - intros i _. by case_decide.
    - intros i. by case_decide. }
  destruct (setRegNewer_writes r i0 v ts Hr) as (r1 & b1 & -> & Hw1); [lia|]. cbn [mbind option_bind].
  destruct (IH r1 (i0 + 1)) as (r2 & b2 & -> & Hw2); [apply Hw1|lia| |].
  { destruct Hw1 as [_ L _ _]. unfold size_of in *. rewrite L. lia. }
  exists r2, (b1 || b2). split; [done|]. eapply writes_ext; [by eapply writes_trans|lia|].
  intros i. unfold at_pos. destruct (decide (Z.of_nat i = i0)) as [E|E].
  - rewrite decide_False by lia. rewrite decide_True by lia. replace (i - Z.to_nat i0)%nat with 0%nat by lia. done.
  - destruct (decide (i0 <= Z.of_nat i)).
    + rewrite decide_True by lia. replace (i - Z.to_nat i0)%nat with (S (i - Z.to_nat (i0 + 1))) by lia. done.
    + by rewrite decide_False by lia.
Qed.

(** A register that did not exist is written in any case: stamps are positive. *)
Lemma grow_setReg_writes r pos v ts : regs_ok r -> size_of r.1 <= pos < MaxInt32 -> 0 < ts ->
  exists r', (r ← expandDataArray r (int32 (pos + 1)); setReg r pos v ts) = Some r' /\
    writes r r' (Z.to_nat (pos + 1)) (at_pos pos [(v, ts)]).
Proof.
  intros Hr Hp Hts. rewrite wrapS_id by (unfold inS, size_of, MaxInt32 in *; lia).
  destruct (expandDataArray_writes r (pos + 1) Hr) as (r1 & -> & Hw1 & Hl1); [lia|]. cbn [mbind option_bind].
  assert (Hpos : 0 <= pos) by (unfold size_of in Hp; lia).
  destruct (setReg_ok r1 pos v ts) as (r2 & -> & Hok & Hl & Hv); [apply Hw1|unfold size_of in *; lia|].
  exists r2. split; [done|]. destruct Hw1 as [_ L1 _ V1]. split; [done|lia|..].
  - intros i Hi. unfold at_pos. by rewrite decide_False by lia.
  - intros i. rewrite Hv, V1. unfold at_pos. case_decide as E; [|done]. cbn [foldl].
    rewrite reg_at_above by (done || (unfold size_of in *; lia)). unfold newer. cbn [snd].
    by rewrite (proj2 (Z.ltb_lt 0 ts)).
Qed.

Lemma setRegAt_writes r pos v ts : regs_ok r -> 0 <= pos < MaxInt32 -> 0 < ts ->
  exists r' old, setRegAt r pos v ts = Some (r', old) /\
    writes r r' (Z.to_nat (pos + 1)) (at_pos pos [(v, ts)]).
Proof.
  intros Hr Hp Hts. unfold setRegAt. destruct (Z.leb_spec (size_of r.1) pos) as [Hge|Hlt].
  - destruct (grow_setReg_writes r pos v ts Hr) as (r' & E & Hw); [lia|done|].
    destruct (expandDataArray r (int32 (pos + 1))) as [r1|]; [|done]. cbn [mbind option_bind] in E |- *.
    rewrite E. cbn [mbind option_bind]. by eexists _, _.
  - destruct (setRegNewer_writes r pos v ts Hr) as (r' & b & E & Hw); [lia|]. unfold setRegNewer in E.
    destruct (sget_reg_at r pos Hr) as [-> Hget]; [lia|]. rewrite Hget in E |- *. cbn [mbind option_bind] in E |- *.
    destruct (_ <? ts).
    + destruct (setReg r pos v ts) as [r1|]; [|done]. injection E as <- _. by eexists _, _.
    + injection E as <- _. by eexists _, _.
Qed.

Lemma setRegPos_writes pos ts : 0 < ts -> forall r l, regs_ok r -> Forall (fun p => 0 <= p < MaxInt32) pos ->
  (length pos <= length l)%nat ->
  exists r' olds b, setRegPos r pos l ts = Some (r', olds, b) /\
    writes r r' (pos_size pos) (at_positions pos ((fun v => (v, ts)) <$> l)).
Proof.
  intros Hts. induction pos as [|p pos IH]; intros r l Hr Hp Hl; cbn [setRegPos].
  { exists r, [], false. split; [by destruct l|]. by apply writes_refl. }
  destruct l as [|v l]; [simpl in Hl; lia|]. apply Forall_cons in Hp as [Hp1 Hp2].
  destruct (setRegAt_writes r p v ts Hr Hp1 Hts) as (r1 & old & -> & Hw1). cbn [mbind option_bind].
  destruct (IH r1 l) as (r2 & olds & b & -> & Hw2); [apply Hw1|done|simpl in Hl; lia|].
  eexists r2, _, _. split; [done|]. eapply writes_ext; [by eapply writes_trans|done|done].
Qed.
