(* ===== verification/MultiArrayMerge.v ===== *)
(** * Multi-arrays: replicas converge

    What every regular update does to the four arrays of an object (files
    MultiArray and MultiArrayOps), and that replicas that apply the same ones,
    each in its own order, end with the same integers, averages and registers. *)

From S2P Require Import Prelude ClockSI Inversible Convergence GoSlice MultiArray MultiArrayOps.
From Stdlib Require Import ZArith Lia Bool SpecFloat.
From stdpp Require Import base tactics numbers strings list.
#[local] Open Scope Z_scope.

(** ** Regular updates *)

Definition data_ok (u : DataUpd) : Prop :=
  match u with
  | SetRegisterSingle pos _ => 0 <= pos < MaxInt32
  | SetRegister l => Z.of_nat (length l) <= MaxInt32
  | SetRegisterPositions pos l =>
      Forall (fun p => 0 <= p < MaxInt32) pos /\ (length l = 1%nat \/ (length pos <= length l)%nat)
  | SetRegisterRange _ _ _ => False
  end.

Definition avg_ok (u : AvgUpd) : Prop :=
  match u with
  | IncAvgSingle _ _ pos => 0 <= pos < MaxInt32
  | IncAvg v c => Z.of_nat (length v) <= MaxInt32 /\ (length v <= length c)%nat
  | IncAvgPositions v c pos =>
      Forall (fun p => 0 <= p < MaxInt32) pos /\
      (if is_one v then c <> [] else (length pos <= length v)%nat /\ (length pos <= length c)%nat)
  | IncAvgRange _ _ _ _ => False
  end.

Definition no_range {V} (u : ArrUpd V) : Prop := match u with IncRange _ _ _ => False | _ => True end.

(** Updates inside of the bounds of the arrays, with a stamp for registers.  The
    ranges of floating-point numbers, registers and averages look at the size
    of the array of integers; they are not regular. *)
Definition regular (op : DownArgs) : Prop :=
  match op with
  | DownInt u => upd_ok u
  | DownFloat u => upd_ok u /\ no_range u
  | DownData u ts => data_ok u /\ 0 < ts
  | DownAvg u => avg_ok u
  | DownUpdateAll u ts =>
      Z.of_nat (length (Ints u)) <= MaxInt32 /\ Z.of_nat (length (Floats u)) <= MaxInt32 /\
      Z.of_nat (length (Data u)) <= MaxInt32 /\ Z.of_nat (length (Sums u)) <= MaxInt32 /\
      (length (Sums u) <= length (Counts u))%nat /\ (Data u <> [] -> 0 < ts)
  | DownSetSizes _ | DownNoOp => True
  end.

(** ** What an update does *)

(** The changes at each position, in order, and the sizes that they need. *)
Record Changes := mkChanges {
  ch_int : nat -> list Z; ch_float : nat -> list f64; ch_sum : nat -> list Z; ch_count : nat -> list Z;
  ch_reg : nat -> list (data * Z);
  n_int : nat; n_float : nat; n_avg : nat; n_reg : nat
}.

Definition nothing {A} : nat -> list A := fun _ => [].
Definition no_changes : Changes := mkChanges nothing nothing nothing nothing nothing 0 0 0 0.
Definition int_changes f n := mkChanges f nothing nothing nothing nothing n 0 0 0.
Definition float_changes f n := mkChanges nothing f nothing nothing nothing 0 n 0 0.
Definition avg_changes f g n := mkChanges nothing nothing f g nothing 0 0 n 0.
Definition reg_changes f n := mkChanges nothing nothing nothing nothing f 0 0 0 n.

Definition ch_app (a b : Changes) : Changes :=
  mkChanges (fun i => ch_int a i ++ ch_int b i) (fun i => ch_float a i ++ ch_float b i)
    (fun i => ch_sum a i ++ ch_sum b i) (fun i => ch_count a i ++ ch_count b i)
    (fun i => ch_reg a i ++ ch_reg b i)
    (n_int a `max` n_int b) (n_float a `max` n_float b) (n_avg a `max` n_avg b) (n_reg a `max` n_reg b).

(** One element for all of [n] positions, or one for each. *)
Definition spread {A} (one : bool) (n : nat) (l : list A) : list A :=
  if one then match l with x :: _ => replicate n x | [] => [] end else l.

Definition stamped (ts : Z) (v : data) : data * Z := (v, ts).

Definition data_at (u : DataUpd) (ts : Z) (i : nat) : list (data * Z) :=
  match u with
  | SetRegisterSingle pos v => at_pos pos [stamped ts v] i
  | SetRegister l => option_list (stamped ts <$> l !! i)
  | SetRegisterPositions pos l => at_positions pos (stamped ts <$> spread (is_one l) (length pos) l) i
  | SetRegisterRange from to v => if decide (from <= Z.of_nat i <= to) then [stamped ts v] else []
  end.

Definition data_size (u : DataUpd) : nat :=
  match u with
  | SetRegisterSingle pos _ => Z.to_nat (pos + 1)
  | SetRegister l => length l
  | SetRegisterPositions pos _ => pos_size pos
  | SetRegisterRange _ to _ => Z.to_nat (to + 1)
  end.

Definition changes_of (op : DownArgs) : Changes :=
  match op with
  | DownInt u => int_changes (changes_at u) (upd_size u)
  | DownFloat u => float_changes (changes_at u) (upd_size u)
  | DownData u ts => reg_changes (data_at u ts) (data_size u)
  | DownAvg u =>
      match u with
      | IncAvgSingle v c pos => avg_changes (at_pos pos [v]) (at_pos pos [c]) (Z.to_nat (pos + 1))
      | IncAvg v c =>
          avg_changes (fun i => option_list (v !! i)) (fun i => option_list (take (length v) c !! i)) (length v)
      | IncAvgPositions v c pos =>
          avg_changes (at_positions pos (spread (is_one v) (length pos) v))
            (at_positions pos (spread (is_one v) (length pos) c)) (pos_size pos)
      | IncAvgRange _ _ _ _ => no_changes
      end
  | DownUpdateAll u ts =>
      mkChanges (fun i => option_list (Ints u !! i)) (fun i => option_list (Floats u !! i))
        (fun i => option_list (Sums u !! i)) (fun i => option_list (take (length (Sums u)) (Counts u) !! i))
        (fun i => option_list (stamped ts <$> Data u !! i))
        (length (Ints u)) (length (Floats u)) (length (Sums u)) (length (Data u))
  | DownSetSizes s =>
      mkChanges nothing nothing nothing nothing nothing (Z.to_nat (IntSize s)) (Z.to_nat (FloatSize s))
        (Z.to_nat (AvgSize s)) (Z.to_nat (RegisterSize s))
  | DownNoOp => no_changes
  end.

Record multi_ok (c : MultiArrayCrdt) : Prop := {
  mo_int : slice_ok (intCounters c);
  mo_float : slice_ok (floatCounters c);
  mo_avg : avgs_ok (avgs c);
  mo_reg : regs_ok (regs c)
}.

Record applied (c c' : MultiArrayCrdt) (h : Changes) : Prop := {
  ap_int : folds 0 iadd (intCounters c) (intCounters c') (n_int h) (ch_int h);
  ap_float : folds f0 fadd (floatCounters c) (floatCounters c') (n_float h) (ch_float h);
  ap_avg : avg_folds (avgs c) (avgs c') (n_avg h) (ch_sum h) (ch_count h);
  ap_reg : writes (regs c) (regs c') (n_reg h) (ch_reg h)
}.

Lemma applied_ok c c' h : multi_ok c -> applied c c' h -> multi_ok c'.
Proof.
  intros [Ki Kf Ka Kr] [Hi Hf Ha Hr]. split; [apply Hi|apply Hf|by eapply avg_folds_ok|apply Hr].
Qed.

Lemma applied_refl c : multi_ok c -> applied c c no_changes.
Proof.
  intros [Ki Kf Ka Kr]. split; [by apply folds_refl|by apply folds_refl|by apply avg_folds_refl|by apply writes_refl].
Qed.

Lemma applied_trans c c1 c2 h1 h2 : applied c c1 h1 -> applied c1 c2 h2 -> applied c c2 (ch_app h1 h2).
Proof.
  intros [? ? ? ?] [? ? ? ?]. split; [by eapply folds_trans..|by eapply avg_folds_trans|by eapply writes_trans].
Qed.

(** *** The arrays that an update does not touch *)

Lemma applied_ints c s h n : multi_ok c -> folds 0 iadd (intCounters c) s n h ->
  applied c (set_ints s c) (int_changes h n).
Proof. intros Hc Hf. destruct (applied_refl c Hc). by split. Qed.

Lemma applied_floats c s h n : multi_ok c -> folds f0 fadd (floatCounters c) s n h ->
  applied c (set_floats s c) (float_changes h n).
Proof. intros Hc Hf. destruct (applied_refl c Hc). by split. Qed.

Lemma applied_avgs c a f g n : multi_ok c -> avg_folds (avgs c) a n f g ->
  applied c (set_avg a c) (avg_changes f g n).
Proof. intros Hc Hf. destruct (applied_refl c Hc). split; try done; by destruct a. Qed.

Lemma applied_regs c r w n : multi_ok c -> writes (regs c) r n w -> applied c (set_regs r c) (reg_changes w n).
Proof. intros Hc Hf. destruct (applied_refl c Hc). split; try done; by destruct r. Qed.

(** *** Each kind of update *)

Lemma copy_folds {V} (zero : V) add s size : slice_ok s -> size_of s < size ->
  exists s', copySliceWithSize zero s size = Some s' /\ folds zero add s s' (Z.to_nat size) nothing.
Proof.
  intros Hs Hz. unfold size_of in Hz.
  destruct (copySliceWithSize_ok zero s size Hs) as (s' & -> & Hok & Hl & Hv); [lia|].
  exists s'. split; [done|]. split; [done|lia|done|]. intros i Hi. by rewrite Hv by lia.
Qed.

(** [if len(s) < size { s = copySliceWithSize(s, size) }]. *)
Lemma grow_folds {V} (zero : V) add s size : slice_ok s ->
  exists s', (if size_of s <? size then copySliceWithSize zero s size else Some s) = Some s' /\
    folds zero add s s' (Z.to_nat size) nothing.
Proof.
  intros Hs. destruct (Z.ltb_spec (size_of s) size) as [Hlt|Hge]; [by apply copy_folds|].
  exists s. split; [done|]. destruct (folds_refl zero add s Hs) as [K L A Vs]. unfold size_of in Hge.
  split; [done|lia|done|done].
Qed.

Lemma expandAvg_folds a size : avgs_ok a ->
  exists a', (if size_of a.1 <? size then expandAvgArray a size else Some a) = Some a' /\
    avg_folds a a' (Z.to_nat size) nothing nothing.
Proof.
  intros [Hs Hc Hl]. destruct (grow_folds 0 iadd a.1 size Hs) as (s & Es & Hfs).
  destruct (grow_folds 0 iadd a.2 size Hc) as (c & Ec & Hfc). exists (s, c). split; [|by split].
  replace (size_of a.2) with (size_of a.1) in Ec by (unfold size_of; lia). unfold expandAvgArray.
  destruct (_ <? _); [by rewrite Es, Ec|]. injection Es as <-. injection Ec as <-. by destruct a.
Qed.

Lemma expandData_writes r size : regs_ok r ->
  exists r', (if size_of r.1 <? size then expandDataArray r size else Some r) = Some r' /\
    writes r r' (Z.to_nat size) nothing.
Proof.
  intros Hr. destruct (Z.ltb_spec (size_of r.1) size) as [Hlt|Hge].
  - destruct (expandDataArray_writes r size Hr) as (r' & ? & ? & _); [lia|]. by exists r'.
  - exists r. split; [done|]. destruct (writes_refl r Hr) as [K L A Vs]. unfold size_of in Hge.
    split; [done|lia|done|done].
Qed.

(** The comparisons of lengths of the code. *)
Lemma ltb_size {V A} (s : Slice V) (l : list A) :
  (slen s <? length l)%nat = (size_of s <? Z.of_nat (length l)).
Proof. unfold size_of. apply eq_true_iff_eq. rewrite Nat.ltb_lt, Z.ltb_lt. lia. Qed.

Lemma applyInt_applied c u : multi_ok c -> upd_ok u ->
  exists c' e, applyDownstreamInt c u = Some (c', e) /\ applied c c' (changes_of (DownInt u)).
Proof.
  intros Hc Hu. pose proof (mo_int c Hc) as Hs.
  destruct u as [pos x|l|pos l|from to x]; cbn [applyDownstreamInt].
  - destruct (incSingle_folds 0 iadd (intCounters c) pos x Hs Hu) as (s & -> & Hf). eexists _, _. split; [done|].
    by apply applied_ints.
  - destruct (incAll_folds 0 iadd (intCounters c) l Hs Hu) as (s & -> & Hf). eexists _, _. split; [done|].
    by apply applied_ints.
  - destruct (incPositions_folds 0 iadd (intCounters c) pos l Hs Hu) as (s & -> & Hf). eexists _, _. split; [done|].
    by apply applied_ints.
  - destruct (incRange_folds 0 iadd (intCounters c) from to x Hs Hu) as (s & -> & Hf). eexists _, _. split; [done|].
    by apply applied_ints.
Qed.

Lemma applyFloat_applied c u : multi_ok c -> upd_ok u -> no_range u ->
  exists c' e, applyDownstreamFloat c u = Some (c', e) /\ applied c c' (changes_of (DownFloat u)).
Proof.
  intros Hc Hu Hn. pose proof (mo_float c Hc) as Hs.
  destruct u as [pos x|l|pos l|from to x]; cbn [applyDownstreamFloat]; [..|done].
  - destruct (incSingle_folds f0 fadd (floatCounters c) pos x Hs Hu) as (s & -> & Hf). eexists _, _.
    split; [done|]. by apply applied_floats.
  - destruct (incAll_folds f0 fadd (floatCounters c) l Hs Hu) as (s & -> & Hf). eexists _, _.
    split; [done|]. by apply applied_floats.
  - destruct (incPositions_folds f0 fadd (floatCounters c) pos l Hs Hu) as (s & -> & Hf). eexists _, _.
    split; [done|]. by apply applied_floats.
Qed.

(** All the values from the first position on, after growing. *)
Lemma setAll_writes r l ts : regs_ok r -> Z.of_nat (length l) <= MaxInt32 ->
  exists r1 r' b, (if (slen r.1 <? length l)%nat then expandDataArray r (int32 (Z.of_nat (length l))) else Some r)
      = Some r1 /\ setRegs r1 0 l ts = Some (r', b) /\
    writes r r' (length l) (fun i => option_list (stamped ts <$> l !! i)).
Proof.
  intros Hr Hl. rewrite wrapS_id by (unfold inS, MaxInt32 in *; lia). rewrite ltb_size.
  destruct (expandData_writes r (Z.of_nat (length l)) Hr) as (r1 & -> & Hw1). exists r1.
  destruct (setRegs_writes l ts r1 0) as (r' & b & E & Hw2); [apply Hw1|done| |].
  { destruct Hw1 as [_ L _ _]. unfold size_of. lia. }
  exists r', b. split; [done|]. split; [done|]. eapply writes_ext; [by eapply writes_trans|lia|].
  intros i. cbn beta. rewrite decide_True by lia. by rewrite Nat.sub_0_r.
Qed.

Lemma incAvgAll_grow_folds a v c : avgs_ok a -> Z.of_nat (length v) <= MaxInt32 -> (length v <= length c)%nat ->
  exists a1 a', (if (slen a.1 <? length v)%nat then expandAvgArray a (int32 (Z.of_nat (length v))) else Some a)
      = Some a1 /\ incAvgAll a1 0 v c = Some a' /\
    avg_folds a a' (length v) (fun i => option_list (v !! i)) (fun i => option_list (take (length v) c !! i)).
Proof.
  intros Ha Hv Hc. rewrite wrapS_id by (unfold inS, MaxInt32 in *; lia). rewrite ltb_size.
  destruct (expandAvg_folds a (Z.of_nat (length v)) Ha) as (a1 & -> & Hf1). exists a1.
  destruct (incAvgAll_folds v a1 0 c) as (a' & E & Hf2); [by eapply avg_folds_ok|done|done| |].
  { destruct Hf1 as [[_ L _ _] _]. unfold size_of. lia. }
  exists a'. split; [done|]. split; [done|]. eapply avg_folds_ext; [by eapply avg_folds_trans|lia|..].
  all: intros i; cbn beta; rewrite decide_True by lia; by rewrite Nat.sub_0_r.
Qed.

(** A single register. *)
Lemma setSingle_writes c pos v ts : multi_ok c -> 0 <= pos < MaxInt32 -> 0 < ts ->
  exists r e, applyDownstreamData c (SetRegisterSingle pos v) ts = Some (set_regs r c, e) /\
    writes (regs c) r (Z.to_nat (pos + 1)) (at_pos pos [stamped ts v]).
Proof.
  intros Hc Hp Hts. pose proof (mo_reg c Hc) as Hr. cbn [applyDownstreamData].
  destruct (Z.leb_spec (size_of (regs c).1) pos) as [Hge|Hlt].
  - destruct (grow_setReg_writes (regs c) pos v ts Hr) as (r' & E & Hw); [lia|done|].
    destruct (expandDataArray (regs c) (int32 (pos + 1))) as [r1|]; [|done]. cbn [mbind option_bind] in E |- *.
    rewrite E. cbn [mbind option_bind]. by eexists _, _.
  - destruct (setRegNewer_writes (regs c) pos v ts Hr) as (r' & b & E & Hw); [lia|]. unfold setRegNewer in E.
    destruct (sget_reg_at (regs c) pos Hr) as [-> Hget]; [lia|]. rewrite Hget in E |- *.
    cbn [mbind option_bind] in E |- *. destruct (_ <? ts).
    + destruct (setReg (regs c) pos v ts) as [r1|]; [|done]. injection E as <- _. by eexists _, _.
    + injection E as <- _. exists (regs c). eexists. split; [|done]. by destruct c.
Qed.

Lemma spread_ok {A} n (l : list A) : length l = 1%nat \/ (n <= length l)%nat ->
  (n <= length (spread (is_one l) n l))%nat.
Proof.
  unfold spread, is_one. destruct l as [|x [|y l]]; cbn [length Nat.eqb]; try lia.
  intros _. by rewrite length_replicate.
Qed.

Lemma applyData_applied c u ts : multi_ok c -> data_ok u -> 0 < ts ->
  exists c' e, applyDownstreamData c u ts = Some (c', e) /\ applied c c' (changes_of (DownData u ts)).
Proof.
  intros Hc Hu Hts. pose proof (mo_reg c Hc) as Hr. destruct u as [pos v|l|pos l|from to v]; [..|done].
  - destruct (setSingle_writes c pos v ts Hc Hu Hts) as (r & e & -> & Hw). eexists _, _. split; [done|].
    by apply applied_regs.
  - destruct (setAll_writes (regs c) l ts Hr Hu) as (r1 & r' & b & E1 & E2 & Hw). cbn [applyDownstreamData].
    cbv zeta. rewrite E1. cbn [mbind option_bind]. rewrite E2. cbn [mbind option_bind]. eexists _, _. split; [done|].
    by apply applied_regs.
  - destruct Hu as [Hp Hl]. cbn [applyDownstreamData].
    assert (Hs : (if is_one l then v ← head l; Some (replicate (length pos) v) else Some l) =
      Some (spread (is_one l) (length pos) l)).
    { unfold is_one, spread. by destruct l as [|x [|y l]]. }
    rewrite Hs. cbn [mbind option_bind].
    destruct (setRegPos_writes pos ts Hts (regs c) (spread (is_one l) (length pos) l) Hr Hp) as (r' & o & b & -> & Hw).
    { by apply spread_ok. }
    cbn [mbind option_bind]. eexists _, _. split; [done|]. by apply applied_regs.
Qed.

Lemma incAvgPositions_folds a pos v c : avgs_ok a -> avg_ok (IncAvgPositions v c pos) ->
  exists a', incAvgPositions (is_one v) a pos v c = Some a' /\
    avg_folds a a' (pos_size pos) (at_positions pos (spread (is_one v) (length pos) v))
      (at_positions pos (spread (is_one v) (length pos) c)).
Proof.
  intros Ha [Hp Hl]. unfold incAvgPositions, spread. destruct (is_one v) eqn:E.
  - unfold is_one in E. destruct v as [|x [|]], c as [|y c]; try done. cbn [head hd_error mbind option_bind].
    apply incAvgPos_folds; [done|done|..]; by rewrite length_replicate.
  - destruct Hl. by apply incAvgPos_folds.
Qed.

Lemma applyAvg_applied c u : multi_ok c -> avg_ok u ->
  exists c' e, applyDownstreamAvg c u = Some (c', e) /\ applied c c' (changes_of (DownAvg u)).
Proof.
  intros Hc Hu. pose proof (mo_avg c Hc) as Ha. destruct u as [v n pos|v n|v n pos|]; [..|done];
    cbn [applyDownstreamAvg].
  - unfold incAvgSingle. destruct (incAvgSingle_folds (avgs c) pos v n _ Ha Hu eq_refl) as (a & -> & Hf).
    eexists _, _. split; [done|]. by apply applied_avgs.
  - destruct Hu as [H1 H2]. destruct (incAvgAll_grow_folds (avgs c) v n Ha H1 H2) as (a1 & a & E1 & E2 & Hf).
    cbv zeta. rewrite E1. cbn [mbind option_bind]. rewrite E2. eexists _, _. split; [done|]. by apply applied_avgs.
  - destruct (incAvgPositions_folds (avgs c) pos v n Ha Hu) as (a & -> & Hf). eexists _, _. split; [done|].
    by apply applied_avgs.
Qed.

Lemma incAll_some {V} (zero : V) add s l : slice_ok s -> Z.of_nat (length l) <= MaxInt32 ->
  exists s', match l with [] => Some s | x :: l' => incAll zero add s (x :: l') end = Some s' /\
    folds zero add s s' (length l) (fun i => option_list (l !! i)).
Proof.
  intros Hs Hl. destruct l as [|x l]; [|by apply incAll_folds].
  exists s. split; [done|]. by apply folds_refl.
Qed.

Lemma setAll_some r l ts : regs_ok r -> Z.of_nat (length l) <= MaxInt32 ->
  exists r' b, match l with
     | [] => Some (r, false)
     | x :: l' =>
         r' ← (if (slen r.1 <? length (x :: l'))%nat then expandDataArray r (int32 (Z.of_nat (length (x :: l'))))
               else Some r);
         setRegs r' 0 (x :: l') ts
     end = Some (r', b) /\ writes r r' (length l) (fun i => option_list (stamped ts <$> l !! i)).
Proof.
  intros Hr Hl. destruct l as [|x l].
  - exists r, false. split; [done|]. by apply writes_refl.
  - destruct (setAll_writes r (x :: l) ts Hr Hl) as (r1 & r' & b & E1 & E2 & Hw). exists r', b.
    rewrite E1. cbn [mbind option_bind]. by rewrite E2.
Qed.

Lemma incAvgAll_some c v n : avgs_ok (avgs c) -> Z.of_nat (length v) <= MaxInt32 -> (length v <= length n)%nat ->
  exists a', match v with
        | [] => Some (avgs c)
        | x :: l => a' ← (if (slen (sums c) <? length (x :: l))%nat
                     then expandAvgArray (avgs c) (int32 (Z.of_nat (length (x :: l)))) else Some (avgs c));
               incAvgAll a' 0 (x :: l) n
        end = Some a' /\
    avg_folds (avgs c) a' (length v) (fun i => option_list (v !! i)) (fun i => option_list (take (length v) n !! i)).
Proof.
  intros Ha Hv Hn. destruct v as [|x v].
  - exists (avgs c). split; [done|]. by apply avg_folds_refl.
  - destruct (incAvgAll_grow_folds (avgs c) (x :: v) n Ha Hv Hn) as (a1 & a' & E1 & E2 & Hf). exists a'.
    cbn [avgs fst] in E1 |- *. rewrite E1. cbn [mbind option_bind]. by rewrite E2.
Qed.

Lemma applied_four c ints floats r a h :
  folds 0 iadd (intCounters c) ints (n_int h) (ch_int h) ->
  folds f0 fadd (floatCounters c) floats (n_float h) (ch_float h) ->
  avg_folds (avgs c) a (n_avg h) (ch_sum h) (ch_count h) -> writes (regs c) r (n_reg h) (ch_reg h) ->
  applied c (set_ints ints (set_floats floats (set_regs r (set_avg a c)))) h.
Proof. intros Hi Hf Ha Hr. destruct a, r. by split. Qed.

Lemma applyMulti_applied c u ts : multi_ok c -> regular (DownUpdateAll u ts) ->
  exists c' e, applyDownstreamMulti c u ts = Some (c', e) /\ applied c c' (changes_of (DownUpdateAll u ts)).
Proof.
  intros [Hi Hf Ha Hr] (Li & Lf & Ld & Ls & Lc & _). unfold applyDownstreamMulti.
  destruct (incAll_some 0 iadd _ _ Hi Li) as (ints & -> & Hints). cbn [mbind option_bind].
  destruct (incAll_some f0 fadd _ _ Hf Lf) as (floats & -> & Hfl). cbn [mbind option_bind]. cbv zeta.
  destruct (setAll_some (regs c) (Data u) ts Hr Ld) as (r' & b & -> & Hw). cbn [mbind option_bind].
  destruct (incAvgAll_some c (Sums u) (Counts u) Ha Ls Lc) as (a & -> & Hav). cbn [mbind option_bind].
  eexists _, _. split; [done|]. by apply applied_four.
Qed.

Lemma applySize_applied c z : multi_ok c ->
  exists c' e, applyDownstreamSize c z = Some (c', e) /\ applied c c' (changes_of (DownSetSizes z)).
Proof.
  intros [Hi Hf Ha Hr]. unfold applyDownstreamSize. cbv zeta.
  destruct (grow_folds 0 iadd _ (IntSize z) Hi) as (ints & -> & Hints). cbn [mbind option_bind].
  destruct (grow_folds f0 fadd _ (FloatSize z) Hf) as (floats & -> & Hfl). cbn [mbind option_bind].
  destruct (expandData_writes (regs c) (RegisterSize z) Hr) as (r & Er & Hw). cbn [regs fst] in Er. rewrite Er.
  cbn [mbind option_bind].
  destruct (expandAvg_folds (avgs c) (AvgSize z) Ha) as (a & Ea & Hav). cbn [avgs fst] in Ea. rewrite Ea.
  cbn [mbind option_bind]. eexists _, _. split; [done|]. by apply applied_four.
Qed.

Lemma apply_applied c op : multi_ok c -> regular op ->
  exists c' e, applyDownstream c op = Some (c', e) /\ applied c c' (changes_of op).
Proof.
  intros Hc Hop. cbn [applyDownstream multi_inversible].
  destruct op as [z|u|u|u ts|u|u ts|]; cbn [multi_applyDownstream].
  - destruct (applySize_applied c z Hc) as (c' & e & -> & ?). by eexists _, _.
  - destruct (applyInt_applied c u Hc Hop) as (c' & e & -> & ?). by eexists _, _.
  - destruct Hop. destruct (applyFloat_applied c u) as (c' & e & -> & ?); [done..|]. by eexists _, _.
  - destruct Hop. destruct (applyData_applied c u ts) as (c' & e & -> & ?); [done..|]. by eexists _, _.
  - destruct (applyAvg_applied c u Hc Hop) as (c' & e & -> & ?). by eexists _, _.
  - destruct (applyMulti_applied c u ts Hc Hop) as (c' & e & -> & ?). by eexists _, _.
  - exists c, None. split; [done|]. by apply applied_refl.
Qed.

Definition all_changes (ops : list DownArgs) : Changes :=
  foldr (fun op h => ch_app (changes_of op) h) no_changes ops.

Lemma deliver_applied ops : forall c, multi_ok c -> Forall regular ops ->
  exists c', deliver c ops = Some c' /\ applied c c' (all_changes ops).
Proof.
  induction ops as [|op ops IH]; intros c Hc Hops; cbn [deliver].
  { exists c. split; [done|]. by apply applied_refl. }
  apply Forall_cons in Hops as [Hop Hops].
  destruct (apply_applied c op Hc Hop) as (c1 & e & -> & H1).
  destruct (IH c1) as (c2 & E & H2); [by eapply applied_ok|done|].
  exists c2. split; [done|]. by eapply applied_trans.
Qed.

(** ** The reference: sums of changes, and the newest write *)

Definition sum_of (l : list Z) : Z := foldr Z.add 0 l.

Lemma foldl_iadd l : forall x, inS 64 x -> foldl iadd x l = int64 (x + sum_of l).
Proof.
  induction l as [|y l IH]; intros x Hx; cbn [foldl sum_of foldr].
  - rewrite Z.add_0_r. by rewrite wrapS_id.
  - rewrite IH by (by apply wrapS_range). unfold iadd. rewrite wrapS_add_l by done. f_equal. unfold sum_of. lia.
Qed.

Lemma sum_of_app l1 l2 : sum_of (l1 ++ l2) = sum_of l1 + sum_of l2.
Proof. induction l1 as [|x l1 IH]; unfold sum_of in *; cbn [app foldr]; [done|]. lia. Qed.

(** The stamp of an update that writes registers. *)
Definition stamp (op : DownArgs) : option Z :=
  match op with
  | DownData _ ts => Some ts
  | DownUpdateAll u ts => match Data u with [] => None | _ => Some ts end
  | _ => None
  end.

Lemma at_positions_stamped pos ts l i :
  Forall (fun w => w.2 = ts) (at_positions pos (stamped ts <$> l) i).
Proof.
  unfold at_positions. revert l. induction pos as [|p pos IH]; intros [|v l]; cbn; [by constructor..|].
  apply Forall_app. split; [|apply IH]. unfold at_pos. case_decide; [|by constructor].
  by repeat constructor.
Qed.

Lemma option_list_stamped ts (o : option data) : Forall (fun w => w.2 = ts) (option_list (stamped ts <$> o)).
Proof. destruct o; cbn; by repeat constructor. Qed.

(** All that one update writes has its stamp. *)
Lemma reg_changes_stamp op i : match stamp op with
  | Some ts => Forall (fun w => w.2 = ts) (ch_reg (changes_of op) i)
  | None => ch_reg (changes_of op) i = []
  end.
Proof.
  destruct op as [z|u|u|u ts|u|u ts|]; cbn; try done; [..|by destruct u|].
  - destruct u as [pos v|l|pos l|from to v]; cbn [data_at].
    + unfold at_pos. case_decide; by repeat constructor.
    + apply option_list_stamped.
    + apply at_positions_stamped.
    + case_decide; by repeat constructor.
  - destruct (Data u); [done|]. apply option_list_stamped.
Qed.

(** Only the first of writes with the same stamp counts. *)
Lemma newer_same_stamp ts l : forall x, Forall (fun w : data * Z => w.2 = ts) l ->
  foldl newer x l = match l with [] => x | w :: _ => newer x w end.
Proof.
  induction l as [|w l IH]; intros x Hl; [done|]. cbn [foldl]. apply Forall_cons in Hl as [Hw Hl].
  rewrite IH by done. destruct l as [|w2 l]; [done|]. apply Forall_cons in Hl as [Hw2 _].
  unfold newer. destruct (x.2 <? w.2) eqn:E.
  - rewrite (proj2 (Z.ltb_ge w.2 w2.2)); [done|]. lia.
  - rewrite Hw2, <- Hw, E. done.
Qed.

Lemma newer_comm x w1 w2 : w1.2 <> w2.2 -> newer (newer x w1) w2 = newer (newer x w2) w1.
Proof.
  intros Hn. unfold newer. destruct (Z.ltb_spec x.2 w1.2), (Z.ltb_spec x.2 w2.2);
    destruct (Z.ltb_spec w1.2 w2.2), (Z.ltb_spec w2.2 w1.2); try lia; try done;
    repeat match goal with |- context [?a <? ?b] => destruct (Z.ltb_spec a b) end; done || lia.
Qed.

(** The writes of two updates, in either order. *)
Lemma newer_blocks_comm x op1 op2 i : stamp op1 <> stamp op2 \/ stamp op1 = None ->
  foldl newer x (ch_reg (changes_of op1) i ++ ch_reg (changes_of op2) i) =
  foldl newer x (ch_reg (changes_of op2) i ++ ch_reg (changes_of op1) i).
Proof.
  intros Hne. pose proof (reg_changes_stamp op1 i) as H1. pose proof (reg_changes_stamp op2 i) as H2.
  rewrite !foldl_app. destruct (stamp op1) as [t1|], (stamp op2) as [t2|]; rewrite ?H1, ?H2; try done.
  rewrite !(newer_same_stamp _ _ _ H1), !(newer_same_stamp _ _ _ H2).
  destruct (ch_reg (changes_of op1) i) as [|w1 l1], (ch_reg (changes_of op2) i) as [|w2 l2]; try done.
  apply newer_comm. apply Forall_cons in H1 as [-> _], H2 as [-> _]. destruct Hne; congruence.
Qed.

Lemma newer_all_permutation ops1 ops2 i : ops1 ≡ₚ ops2 -> NoDup (omap stamp ops1) -> forall x,
  foldl newer x (ch_reg (all_changes ops1) i) = foldl newer x (ch_reg (all_changes ops2) i).
Proof.
  induction 1 as [|op l1 l2 Hp IH|a b l|l1 l2 l3 H1 IH1 H2 IH2]; intros Hn x; [done|..].
  - cbn [all_changes foldr ch_app ch_reg]. rewrite !foldl_app. apply IH. cbn [omap list_omap] in Hn.
    destruct (stamp op); [by apply NoDup_cons in Hn as [_ ?]|done].
  - cbn [all_changes foldr ch_app ch_reg]. rewrite !(assoc_L (++)), !(foldl_app _ (_ ++ _)). f_equal.
    apply newer_blocks_comm. cbn [omap list_omap] in Hn. destruct (stamp a), (stamp b); eauto.
    left. intros [= ->]. apply NoDup_cons in Hn as [Hn _]. apply Hn. by left.
  - rewrite IH1 by done. apply IH2. by rewrite <- H1.
Qed.

Lemma sum_of_all_permutation (f : Changes -> nat -> list Z) i ops1 ops2 :
  (forall a b, f (ch_app a b) i = f a i ++ f b i) -> ops1 ≡ₚ ops2 ->
  sum_of (f (all_changes ops1) i) = sum_of (f (all_changes ops2) i).
Proof.
  intros Hf. induction 1 as [|op l1 l2 Hp IH|a b l|l1 l2 l3 H1 IH1 H2 IH2]; [done|..]; cbn [all_changes foldr].
  - rewrite !Hf, !sum_of_app. fold (all_changes l1) (all_changes l2). by rewrite IH.
  - rewrite !Hf, !sum_of_app. lia.
  - by rewrite IH1.
Qed.

Lemma sizes_permutation (f : Changes -> nat) ops1 ops2 :
  (forall a b, f (ch_app a b) = f a `max` f b)%nat -> ops1 ≡ₚ ops2 ->
  f (all_changes ops1) = f (all_changes ops2).
Proof.
  intros Hf. induction 1 as [|op l1 l2 Hp IH|a b l|l1 l2 l3 H1 IH1 H2 IH2]; [done|..]; cbn [all_changes foldr].
  - rewrite !Hf. fold (all_changes l1) (all_changes l2). by rewrite IH.
  - rewrite !Hf. lia.
  - by rewrite IH1.
Qed.

(** ** Convergence *)

(** What the object shows, from the updates alone: at each position the sum of
    the changes (64 bits), and the newest write. *)
Definition Spec_ints (h : Changes) : list Z := (fun i => int64 (sum_of (ch_int h i))) <$> seq 0 (n_int h).
Definition Spec_sums (h : Changes) : list Z := (fun i => int64 (sum_of (ch_sum h i))) <$> seq 0 (n_avg h).
Definition Spec_counts (h : Changes) : list Z := (fun i => int64 (sum_of (ch_count h i))) <$> seq 0 (n_avg h).
Definition Spec_regs (h : Changes) : list (data * Z) :=
  (fun i => foldl newer (None, 0) (ch_reg h i)) <$> seq 0 (n_reg h).

Lemma vals_nil {V} : vals (V := V) nilSlice = [].
Proof. done. Qed.

Lemma folds_from_nil s n ch : folds 0 iadd nilSlice s n ch ->
  vals s = (fun i => int64 (sum_of (ch i))) <$> seq 0 n.
Proof.
  intros [Hok Hl _ Hv]. cbn in Hl. apply list_eq. intros i. rewrite list_lookup_fmap.
  destruct (decide (i < n)%nat) as [Hi|Hi].
  - rewrite lookup_seq_lt, Hv by lia. cbn [fmap option_fmap option_map]. f_equal.
    rewrite vals_nil, lookup_nil. cbn [default]. rewrite foldl_iadd; [done|]. unfold inS. lia.
  - rewrite vals_above by (done || lia). by rewrite lookup_seq_ge by lia.
Qed.

Lemma writes_from_nil r n w : writes (nilSlice, nilSlice) r n w ->
  vals r.1 = ((fun i => foldl newer (None, 0) (w i)) <$> seq 0 n).*1 /\ vals r.2 = ((fun i => foldl newer (None, 0) (w i)) <$> seq 0 n).*2.
Proof.
  intros [[Hd Ht Hrl] Hl _ Hv]. cbn [fst slen nilSlice] in Hl.
  assert (Hv' : forall i, reg_at r i = foldl newer (None, 0) (w i)) by (intros i; exact (Hv i)).
  rewrite <- !list_fmap_compose. split; apply list_eq; intros i; rewrite list_lookup_fmap.
  all: destruct (decide (i < n)%nat) as [Hi|Hi];
    [rewrite lookup_seq_lt by done|rewrite vals_above by (done || lia); by rewrite lookup_seq_ge by lia].
  all: cbn [fmap option_fmap option_map plus]; unfold compose; rewrite <- Hv'; unfold reg_at; cbn [fst snd].
  - destruct (lookup_lt_is_Some_2 (vals r.1) i) as [x ->]; [rewrite vals_length by done; lia|done].
  - destruct (lookup_lt_is_Some_2 (vals r.2) i) as [x ->]; [rewrite vals_length by done; lia|done].
Qed.

Lemma Initialize_ok id : multi_ok (Initialize id).
Proof. unfold Initialize. split; [| |split|split]; try done; unfold slice_ok; cbn; lia. Qed.

Lemma fmap_seq_ext {A} (f g : nat -> A) n m : n = m -> (forall i, f i = g i) -> f <$> seq 0 n = g <$> seq 0 m.
Proof. intros -> Hfg. apply list_fmap_ext. intros i x _. apply Hfg. Qed.

(** The state that a replica reaches. *)
Lemma multi_deliver_spec id ops : Forall regular ops ->
  exists c, deliver (Initialize id) ops = Some c /\
    vals (intCounters c) = Spec_ints (all_changes ops) /\
    vals (sums c) = Spec_sums (all_changes ops) /\
    vals (counts c) = Spec_counts (all_changes ops) /\
    vals (dataCounters c) = (Spec_regs (all_changes ops)).*1 /\
    vals (dataTsId c) = (Spec_regs (all_changes ops)).*2 /\
    length (vals (floatCounters c)) = n_float (all_changes ops).
Proof.
  intros Hops. destruct (deliver_applied ops (Initialize id) (Initialize_ok id) Hops) as (c & E & [Hi Hf [Hs Hn] Hr]).
  exists c. split; [done|]. split; [by apply folds_from_nil|]. split; [by apply folds_from_nil|].
  split; [by apply folds_from_nil|]. destruct (writes_from_nil (regs c) _ _ Hr) as [Hd Ht].
  split; [exact Hd|]. split; [exact Ht|]. destruct Hf as [Hok Hl _ _]. by rewrite vals_length by done.
Qed.

Lemma spec_permutation ops1 ops2 : ops1 ≡ₚ ops2 -> NoDup (omap stamp ops1) ->
  Spec_ints (all_changes ops1) = Spec_ints (all_changes ops2) /\
  Spec_sums (all_changes ops1) = Spec_sums (all_changes ops2) /\
  Spec_counts (all_changes ops1) = Spec_counts (all_changes ops2) /\
  Spec_regs (all_changes ops1) = Spec_regs (all_changes ops2) /\
  n_float (all_changes ops1) = n_float (all_changes ops2).
Proof.
  intros Hp Hn. unfold Spec_ints, Spec_sums, Spec_counts, Spec_regs.
  split; [|split; [|split; [|split]]]; [apply fmap_seq_ext..|]; try by apply sizes_permutation.
  all: intros i; try (by rewrite (sum_of_all_permutation _ i ops1 ops2)).
  by apply newer_all_permutation.
Qed.

(** *** Stamps *)

Definition stamp_time (now : Z) : Z := now mod 2 ^ 48.
Definition stamp_id (id : Z) : Z := (id + 32768) mod 2 ^ 16.

Lemma lor_low (t r : Z) : 0 <= t -> Z.lor (t * 2 ^ 16) (r mod 2 ^ 16) = t * 2 ^ 16 + r mod 2 ^ 16.
Proof.
  intros Ht. pose proof (Z.add_lor_land (t * 2 ^ 16) (r mod 2 ^ 16)) as H.
  replace (Z.land (t * 2 ^ 16) (r mod 2 ^ 16)) with 0 in H; [lia|].
  rewrite <- Z.shiftl_mul_pow2 by done. symmetry. apply Z.bits_inj'. intros n Hn.
  rewrite Z.bits_0, Z.land_spec. destruct (Z.ltb_spec n 16).
  - by rewrite Z.shiftl_spec_low.
  - rewrite Z.mod_pow2_bits_high by lia. apply andb_false_r.
Qed.

Lemma generate64BitTsAndId_eq now id :
  generate64BitTsAndId now id = stamp_time now * 2 ^ 16 + stamp_id id.
Proof.
  unfold generate64BitTsAndId, stamp_time, stamp_id.
  change (2 ^ 48 - 1) with (Z.ones 48). change (2 ^ 16 - 1) with (Z.ones 16). rewrite !Z.land_ones by done.
  assert (Ht : 0 <= now mod 2 ^ 48 < 2 ^ 48) by (apply Z.mod_pos_bound; done).
  assert (Hr : 0 <= (id + 32768) mod 2 ^ 16 < 2 ^ 16) by (apply Z.mod_pos_bound; done).
  rewrite Z.shiftl_mul_pow2 by done. rewrite <- lor_low by lia.
  unfold wrapU. rewrite <- Z.land_ones, Z.land_lor_distr_l by done. rewrite !Z.land_ones by done.
  rewrite wrapS_mod by done. rewrite (Z.mod_small (_ * 2 ^ 16)) by lia. by rewrite (Z.mod_small (_ mod 2 ^ 16)) by lia.
Qed.

(** The 48 bits of the time wrap around every 2^48 nanoseconds, about 78 hours.
    Between two such moments, stamps are ordered as the times at which they were
    made, and by the replicas for the same time.  A write after such a moment has
    a lower stamp than all the writes of the 39 hours before it, and registers
    keep their old values: the newest write loses. *)
Theorem stamps_order_registers_for_78_hours (c : MultiArrayCrdt) now now' id id' v v' i :
  multi_ok c -> 0 <= i < size_of (dataCounters c) -> 0 <= now ->
  reg_at (regs c) (Z.to_nat i) = (v, generate64BitTsAndId now id) ->
  exists r e, applyDownstream c (DownData (SetRegisterSingle i v') (generate64BitTsAndId now' id')) =
      Some (set_regs r c, e) /\
    (now < now' -> now / 2 ^ 48 = now' / 2 ^ 48 ->
     reg_at r (Z.to_nat i) = (v', generate64BitTsAndId now' id')) /\
    (now mod 2 ^ 48 >= 2 ^ 47 -> now < now' < now + 2 ^ 47 -> now / 2 ^ 48 < now' / 2 ^ 48 ->
     reg_at r (Z.to_nat i) = (v, generate64BitTsAndId now id)).
Proof.
  intros Hc Hi Hnow Hreg. cbn [applyDownstream multi_inversible multi_applyDownstream applyDownstreamData].
  pose proof (mo_reg c Hc) as Hr. rewrite (proj2 (Z.leb_gt _ i)) by apply Hi.
  destruct (sget_reg_at (regs c) i Hr Hi) as [-> ->]. rewrite Hreg. cbn [mbind option_bind fst snd].
  pose proof (Z.div_mod now (2 ^ 48) ltac:(done)). pose proof (Z.div_mod now' (2 ^ 48) ltac:(done)).
  pose proof (Z.mod_pos_bound (id + 32768) (2 ^ 16) ltac:(done)).
  pose proof (Z.mod_pos_bound (id' + 32768) (2 ^ 16) ltac:(done)).
  pose proof (Z.mod_pos_bound now (2 ^ 48) ltac:(done)). pose proof (Z.mod_pos_bound now' (2 ^ 48) ltac:(done)).
  destruct (Z.ltb_spec (generate64BitTsAndId now id) (generate64BitTsAndId now' id')) as [Hlt|Hge].
  - destruct (setReg_ok (regs c) i v' (generate64BitTsAndId now' id') Hr Hi) as (r' & -> & _ & _ & Hv).
    cbn [mbind option_bind]. eexists r', _. split; [done|]. rewrite Hv, decide_True by lia. split; [done|].
    intros. exfalso. rewrite !generate64BitTsAndId_eq in Hlt. unfold stamp_time, stamp_id in Hlt. lia.
  - eexists (regs c), _. split; [by destruct c|]. rewrite Hreg. split; [|done].
    intros. exfalso. rewrite !generate64BitTsAndId_eq in Hge. unfold stamp_time, stamp_id in Hge. lia.
Qed.

(** ** The properties *)

(** C26. The replicas of a multi-array converge on regular updates: single
    positions, lists of positions, whole arrays and all arrays at once, and
    ranges of integers, inside of the bounds; not ranges of other elements,
    whose size is compared with the array of integers and which diverge.
    Whatever the order in which two replicas apply the same regular updates,
    with different stamps for those that write registers, no update panics, and both replicas show, at every position,
    the same integer, the same sum and count of an average, and the same
    register with the same stamp: the sums of all changes, in 64 bits, and the
    write with the highest stamp (which is not the newest one once stamps wrap
    around).  The arrays have the same sizes.  The
    floating-point numbers are left out: their additions depend on the order
    ([float_replicas_diverge]). *)
Theorem multi_array_replicas_converge (ops1 ops2 : list DownArgs) id1 id2 :
  Forall regular ops1 -> ops1 ≡ₚ ops2 -> NoDup (omap stamp ops1) ->
  exists c1 c2, deliver (Initialize id1) ops1 = Some c1 /\ deliver (Initialize id2) ops2 = Some c2 /\
    vals (intCounters c1) = Spec_ints (all_changes ops1) /\ vals (intCounters c2) = vals (intCounters c1) /\
    vals (sums c1) = Spec_sums (all_changes ops1) /\ vals (sums c2) = vals (sums c1) /\
    vals (counts c1) = Spec_counts (all_changes ops1) /\ vals (counts c2) = vals (counts c1) /\
    vals (dataCounters c1) = (Spec_regs (all_changes ops1)).*1 /\
    vals (dataCounters c2) = vals (dataCounters c1) /\
    vals (dataTsId c1) = (Spec_regs (all_changes ops1)).*2 /\ vals (dataTsId c2) = vals (dataTsId c1) /\
    length (vals (floatCounters c2)) = length (vals (floatCounters c1)).
Proof.
  intros Hr Hp Hn. assert (Hr2 : Forall regular ops2) by by rewrite <- Hp.
  destruct (multi_deliver_spec id1 ops1 Hr) as (c1 & E1 & Hi1 & Hs1 & Hc1 & Hd1 & Ht1 & Hf1).
  destruct (multi_deliver_spec id2 ops2 Hr2) as (c2 & E2 & Hi2 & Hs2 & Hc2 & Hd2 & Ht2 & Hf2).
  destruct (spec_permutation ops1 ops2 Hp Hn) as (P1 & P2 & P3 & P4 & P5).
  exists c1, c2. rewrite Hi2, Hs2, Hc2, Hd2, Ht2, Hf2, Hi1, Hs1, Hc1, Hd1, Ht1, Hf1, P1, P2, P3, P4, P5. done.
Qed.

Definition ops_ab : list DownArgs :=
  [DownInt (IncSingle 2 5); DownInt (Inc [MaxInt64; 1]); DownData (SetRegisterSingle 1 (Some "a"%string)) 7;
   DownData (SetRegister [Some "b"%string; Some "c"%string; None]) 4; DownAvg (IncAvgPositions [10; 20] [1; 2] [3; 0]);
   DownUpdateAll (mkAll [1] [3; 4] [f0] [Some "d"%string] [1; 1]) 9].

Lemma multi_array_replicas_converge_witness :
  exists c1 c2, deliver (Initialize 1) ops_ab = Some c1 /\ deliver (Initialize 2) (reverse ops_ab) = Some c2 /\
    vals (intCounters c2) = vals (intCounters c1) /\ vals (intCounters c1) = [- 2 ^ 63; 1; 5] /\
    vals (dataCounters c2) = vals (dataCounters c1) /\
    vals (dataCounters c1) = [Some "d"; Some "a"; None]%string.
Proof.
  assert (Hr : Forall regular ops_ab).
  { unfold ops_ab. repeat constructor; cbn; try done; try lia; vm_compute; congruence. }
  destruct (multi_array_replicas_converge ops_ab (reverse ops_ab) 1 2 Hr) as (c1 & c2 & E1 & E2 & Hi & Hi2 & _ & _ & _ & _ & Hd & Hd2 & _).
  - by rewrite reverse_Permutation.
  - refine (bool_decide_unpack _ _). by vm_compute.
  - exists c1, c2. split; [done|]. split; [done|]. split; [done|]. split; [by rewrite Hi; vm_compute|].
    split; [done|]. by rewrite Hd; vm_compute.
Defined.
