(* ===== verification/MultiArrayErrors.v ===== *)
(** * Multi-arrays: undoing effects, copies, messages

    What survives of an object when effects are undone, when it is copied, when
    it is sent as a snapshot and when its updates are sent; and the updates that
    panic. *)

From S2P Require Import Prelude ClockSI Inversible Convergence GoSlice MultiArray MultiArrayOps MultiArrayMerge.
From Stdlib Require Import ZArith Lia Bool SpecFloat.
From stdpp Require Import base tactics numbers strings list.
#[local] Open Scope Z_scope.

(** ** Undoing *)

(** Applies an update and undoes its effect, as a rebuild of an older version does. *)
Definition apply_undo (c : MultiArrayCrdt) (op : DownArgs) : option MultiArrayCrdt :=
  '(c, e) ← applyDownstream c op; e ← e; multi_undoEffect c e.

Lemma strunc_ok {V} (s : Slice V) n : slice_ok s -> 0 <= n <= size_of s ->
  strunc s n = Some (mkSlice (arr s) (Z.to_nat n)).
Proof.
  unfold slice_ok, size_of, strunc. intros Hs Hn.
  by rewrite (proj2 (Z.leb_le 0 n)), (proj2 (Z.leb_le n _)) by lia.
Qed.

Lemma vals_trunc {V} (s : Slice V) n : (n <= slen s)%nat -> vals (mkSlice (arr s) n) = take n (vals s).
Proof. intros Hn. unfold vals. cbn. rewrite take_take. by rewrite Nat.min_l. Qed.

Lemma size_of_nonneg {V} (s : Slice V) : 0 <= size_of s.
Proof. unfold size_of. lia. Qed.

(** The values of a grown slice, up to the old size. *)
Lemma copy_grow_prefix {V} (zero : V) s size s' : slice_ok s -> size_of s <= size ->
  copySliceWithSize zero s size = Some s' -> take (slen s) (vals s') = vals s.
Proof.
  intros Hs Hz. unfold copySliceWithSize, size_of in *. rewrite (proj2 (Z.ltb_ge size 0)) by lia.
  intros [= <-]. rewrite vals_of_list, (take_ge (vals s)) by (rewrite vals_length by done; lia).
  rewrite <- (vals_length s) by done. apply take_app_length.
Qed.

(** A single update of a position past the end is undone by cutting the integers
    back to their old size, and all the other arrays to no elements. *)
Lemma grow_int_undo c pos change : multi_ok c -> size_of (intCounters c) <= pos < MaxInt32 ->
  exists c', apply_undo c (DownInt (IncSingle pos change)) = Some c' /\
    vals (intCounters c') = vals (intCounters c) /\
    vals (sums c') = [] /\ vals (counts c') = [] /\ vals (floatCounters c') = [] /\ vals (dataCounters c') = [].
Proof.
  intros Hc Hp. pose proof Hc as [Hi Hf [Hs Hn _] [Hd _ _]]. pose proof (size_of_nonneg (intCounters c)) as H0.
  cbn [avgs regs fst snd] in *. unfold apply_undo.
  cbn [applyDownstream multi_inversible multi_applyDownstream applyDownstreamInt].
  unfold incSingle, growTo. rewrite (proj2 (Z.leb_le (size_of (intCounters c)) pos)) by lia.
  rewrite wrapS_id by (unfold inS, MaxInt32 in *; lia).
  destruct (copy_folds 0 iadd (intCounters c) (pos + 1) Hi ltac:(lia)) as (s1 & E1 & [K1 L1 _ _]).
  pose proof (copy_grow_prefix 0 _ (pos + 1) s1 Hi ltac:(lia) E1) as Hpre. rewrite E1. cbn [mbind option_bind].
  assert (Hl1 : slen s1 = Z.to_nat (pos + 1)) by (rewrite L1; unfold size_of in Hp; lia).
  destruct (smod_ok (fun x => iadd x change) s1 pos K1) as (s2 & -> & K2 & L2 & V2); [lia|].
  cbn [mbind option_bind multi_undoEffect]. unfold trunc_nonneg, set_ints.
  cbn [IntSize FloatSize RegisterSize AvgSize intCounters floatCounters dataCounters].
  rewrite (proj2 (Z.leb_le 0 (size_of _))) by lia. change (0 <=? 0) with true. cbv iota.
  rewrite (strunc_ok s2) by (done || (unfold size_of in *; lia)). cbn [mbind option_bind].
  rewrite (strunc_ok (floatCounters c)) by (done || (unfold size_of; lia)). cbn [mbind option_bind].
  rewrite (strunc_ok (dataCounters c)) by (done || (unfold size_of; lia)). cbn [mbind option_bind].
  unfold truncAvg, avgs. cbn [fst snd sums counts].
  rewrite (strunc_ok (sums c)) by (done || (unfold size_of; lia)). cbn [mbind option_bind].
  rewrite (strunc_ok (counts c)) by (done || (unfold size_of; lia)). cbn [mbind option_bind].
  eexists. split; [done|]. unfold set_data, set_avg, set_avgs, set_floats, set_ints.
  cbn [intCounters floatCounters dataCounters sums counts fst snd].
  split; [|by repeat split]. unfold size_of. rewrite Nat2Z.id, vals_trunc by (unfold size_of in *; lia).
  rewrite V2, take_alter_ge by (unfold size_of in *; lia). done.
Qed.

(** The other effects of integers are not undone at all. *)
Lemma kept_int_undo c u c' e : applyDownstreamInt c u = Some (c', e) ->
  (match u with IncSingle pos _ => pos < size_of (intCounters c) | Inc l => (length l <= slen (intCounters c))%nat | _ => True end) ->
  apply_undo c (DownInt u) = Some c'.
Proof.
  intros E Hu. unfold apply_undo. cbn [applyDownstream multi_inversible multi_applyDownstream]. rewrite E.
  cbn [mbind option_bind]. destruct u as [pos x|l|pos l|from to x]; cbn [applyDownstreamInt] in E.
  - destruct (incSingle _ _ _ _ _); [|done]. rewrite (proj2 (Z.leb_gt _ _)) in E by done. by injection E as <- <-.
  - destruct (incAll _ _ _ _); [|done]. rewrite (proj2 (Nat.ltb_ge _ _)) in E by done. by injection E as <- <-.
  - destruct (incPositions _ _ _ _ _ _); [|done]. by injection E as <- <-.
  - destruct (incRange _ _ _ _ _ _); [|done]. by injection E as <- <-.
Qed.

Lemma isub_iadd x y : inS 64 x -> isub (iadd x y) y = x.
Proof. intros Hx. unfold isub, iadd. rewrite wrapS_sub_l by done. rewrite Z.add_simpl_r. by apply wrapS_id. Qed.

(** An update of all integers that makes the array grow is undone. *)
Lemma grow_inc_undo c l : multi_ok c -> Forall (inS 64) (vals (intCounters c)) ->
  (slen (intCounters c) < length l)%nat -> Z.of_nat (length l) <= MaxInt32 ->
  exists c', apply_undo c (DownInt (Inc l)) = Some c' /\ vals (intCounters c') = vals (intCounters c).
Proof.
  intros Hc Hr Hl Hb. pose proof (mo_int c Hc) as Hs. unfold apply_undo.
  cbn [applyDownstream multi_inversible multi_applyDownstream applyDownstreamInt].
  destruct (incAll_folds 0 iadd _ l Hs Hb) as (s1 & -> & [K1 L1 _ V1]). cbn [mbind option_bind].
  rewrite (proj2 (Nat.ltb_lt _ _)) by done. cbn [mbind option_bind multi_undoEffect]. unfold set_ints.
  cbn [intCounters]. destruct (loopAll_folds 0 isub l s1 0) as (s2 & -> & [K2 L2 _ V2]); [done|done|unfold size_of; lia|].
  cbn [mbind option_bind trunc_if]. rewrite strunc_ok by (done || (unfold size_of; lia)).
  cbn [mbind option_bind]. eexists. split; [done|]. cbn [intCounters].
  unfold size_of. rewrite Nat2Z.id, vals_trunc by lia. apply list_eq. intros i.
  destruct (decide (i < slen (intCounters c))%nat) as [Hi|Hi].
  - rewrite lookup_take_lt, V2, V1 by lia. rewrite decide_True by lia. rewrite Nat.sub_0_r.
    destruct (lookup_lt_is_Some_2 (vals (intCounters c)) i) as [x Hx]; [by rewrite vals_length|].
    destruct (lookup_lt_is_Some_2 l i) as [y Hy]; [lia|]. rewrite Hx, Hy. cbn.
    rewrite isub_iadd; [done|]. by eapply Forall_lookup_1.
  - rewrite lookup_take_ge by lia. by rewrite vals_above by (done || lia).
Qed.

(** Undoing the updates of integers, as reads of older versions do.  An
    update of one position that makes the array grow is undone by cutting every
    other array of the object to no elements: the averages, floating-point numbers
    and registers are lost.  An update of all the integers that makes the array grow
    is undone.  No other update of integers is: the older version has its changes. *)
Theorem undo_of_integers_corrupts (c : MultiArrayCrdt) (u : ArrUpd Z) :
  multi_ok c -> upd_ok u -> Forall (inS 64) (vals (intCounters c)) ->
  exists c', apply_undo c (DownInt u) = Some c' /\
    match u with
    | IncSingle pos change =>
        if size_of (intCounters c) <=? pos
        then vals (intCounters c') = vals (intCounters c) /\ vals (sums c') = [] /\ vals (counts c') = [] /\
             vals (floatCounters c') = [] /\ vals (dataCounters c') = []
        else vals (intCounters c') !! Z.to_nat pos =
             (fun x => iadd x change) <$> vals (intCounters c) !! Z.to_nat pos
    | Inc l =>
        if (slen (intCounters c) <? length l)%nat then vals (intCounters c') = vals (intCounters c)
        else forall i x, vals (intCounters c) !! i = Some x ->
               vals (intCounters c') !! i = Some (foldl iadd x (option_list (l !! i)))
    | _ => forall i x, vals (intCounters c) !! i = Some x ->
             vals (intCounters c') !! i = Some (foldl iadd x (changes_at u i))
    end.
Proof.
  intros Hc Hu Hr. pose proof (mo_int c Hc) as Hs.
  destruct (applyInt_applied c u Hc Hu) as (c1 & e & E & [[Hok Hl _ Hv] _ _ _]).
  assert (Hfold : forall i x, vals (intCounters c) !! i = Some x ->
            vals (intCounters c1) !! i = Some (foldl iadd x (changes_at u i))).
  { intros i x Hx. apply lookup_lt_Some in Hx as Hlt. rewrite vals_length in Hlt by done.
    rewrite Hv, Hx by (rewrite Hl; lia). by destruct u. }
  pose proof (kept_int_undo c u c1 e E) as Hkept. destruct u as [pos x|l|pos l|from to x]; [..|eauto|eauto].
  - destruct (Z.leb_spec (size_of (intCounters c)) pos) as [Hge|Hlt].
    + apply grow_int_undo; [done|]. cbn in Hu. lia.
    + exists c1. split; [auto|]. cbn [upd_ok] in Hu. unfold size_of in Hlt.
      destruct (lookup_lt_is_Some_2 (vals (intCounters c)) (Z.to_nat pos)) as [y Hy].
      { rewrite vals_length by done. lia. }
      rewrite (Hfold _ _ Hy), Hy. cbn [changes_at]. unfold at_pos. by rewrite decide_True by lia.
  - destruct (Nat.ltb_spec (slen (intCounters c)) (length l)); [by apply grow_inc_undo|]. eauto.
Qed.

Definition c_example : MultiArrayCrdt :=
  mkMulti (of_list [1; 2]) (of_list [10]) (of_list [1]) (of_list [f0]) (of_list [Some "a"%string]) (of_list [7]) 0.

Lemma c_example_ok : multi_ok c_example.
Proof. split; [| |split|split]; try done; unfold slice_ok; cbn; lia. Qed.

Lemma undo_of_integers_corrupts_witness :
  multi_ok c_example /\
  exists c', apply_undo c_example (DownInt (IncSingle 5 1)) = Some c' /\
    vals (dataCounters c_example) = [Some "a"%string] /\ vals (dataCounters c') = [].
Proof.
  split; [apply c_example_ok|].
  destruct (undo_of_integers_corrupts c_example (IncSingle 5 1)) as (c' & E & _ & _ & _ & _ & Hd).
  - apply c_example_ok.
  - cbn. unfold MaxInt32. lia.
  - by repeat constructor.
  - exists c'. by repeat split.
Defined.

(** ** Copies and snapshots *)

(** What readers of an object see. *)
Definition shown (c : MultiArrayCrdt) := (vals (intCounters c), vals (floatCounters c), vals (dataCounters c), vals (sums c), vals (counts c)).

Lemma nil_stamps_panic c pos v ts : 0 <= pos < size_of (dataCounters c) -> dataTsId c = nilSlice ->
  applyDownstream c (DownData (SetRegisterSingle pos v) ts) = None.
Proof.
  intros Hp Ht. cbn [applyDownstream multi_inversible multi_applyDownstream applyDownstreamData].
  unfold regs. rewrite Ht, (proj2 (Z.leb_gt _ pos)) by (cbn [fst]; lia). cbn [snd]. unfold sget. cbn [slen nilSlice].
  by rewrite (proj2 (Z.ltb_ge pos _)), andb_false_r by lia.
Qed.

(** Copies and snapshots.  A copy of a multi-array, and the object that is
    built from its snapshot, show the same elements as the original; but the
    stamps of the registers are in neither.  The next write of a register that
    exists panics on both, whatever its stamp, where the original accepts it. *)
Theorem copies_lose_the_stamps (c : MultiArrayCrdt) id pos v ts :
  multi_ok c -> 0 <= pos < size_of (dataCounters c) ->
  shown (Copy c) = shown c /\ shown (FromProtoState (ToProtoState c) id) = shown c /\
  applyDownstream (Copy c) (DownData (SetRegisterSingle pos v) ts) = None /\
  applyDownstream (FromProtoState (ToProtoState c) id) (DownData (SetRegisterSingle pos v) ts) = None /\
  is_Some (applyDownstream c (DownData (SetRegisterSingle pos v) ts)).
Proof.
  intros Hc Hp. pose proof (rg_data _ (mo_reg c Hc)) as Hd. cbn [regs fst] in Hd.
  assert (Hz : size_of (of_list (vals (dataCounters c))) = size_of (dataCounters c)).
  { unfold size_of. cbn [slen of_list]. by rewrite vals_length. }
  split; [unfold shown, Copy; cbn [intCounters floatCounters dataCounters sums counts]; by rewrite !vals_copySlice|].
  split.
  { unfold shown, FromProtoState, ToProtoState. cbn [intCounters floatCounters dataCounters sums counts
      PS_IntCounters PS_FloatCounters PS_Data PS_Sums PS_Counts]. by rewrite !vals_of_list. }
  split; [apply nil_stamps_panic; [|done]; unfold Copy, copySlice; cbn [dataCounters]; lia|].
  split; [apply nil_stamps_panic; [|done]; unfold FromProtoState, ToProtoState; cbn [dataCounters PS_Data]; lia|].
  cbn [applyDownstream multi_inversible multi_applyDownstream applyDownstreamData].
  rewrite (proj2 (Z.leb_gt _ pos)) by apply Hp.
  destruct (sget_reg_at (regs c) pos (mo_reg c Hc) Hp) as [-> ->]. cbn [mbind option_bind].
  destruct (_ <? ts); [|by eexists].
  destruct (setReg_ok (regs c) pos v ts (mo_reg c Hc) Hp) as (r & -> & _). by eexists.
Qed.

Lemma copies_lose_the_stamps_witness :
  applyDownstream (Copy c_example) (DownData (SetRegisterSingle 0 None) 8) = None /\
  is_Some (applyDownstream c_example (DownData (SetRegisterSingle 0 None) 8)).
Proof.
  destruct (copies_lose_the_stamps c_example 0 0 None 8) as (_ & _ & H1 & _ & H2); [apply c_example_ok|by vm_compute|done].
Defined.

(** ** Ranges *)

Lemma loopRange_panics {V} (f : V -> V) n : forall s from, slice_ok s -> 0 <= from ->
  size_of s < from + Z.of_nat n -> foldM (smod f) s (seqZ from (Z.of_nat n)) = None \/ (n = 0)%nat.
Proof.
  induction n as [|n IH]; intros s from Hs Hf Hn; [by right|]. left.
  rewrite seqZ_cons by lia. replace (Z.pred (Z.of_nat (S n))) with (Z.of_nat n) by lia.
  replace (Z.succ from) with (from + 1) by lia. cbn [foldM]. destruct (Z.ltb_spec from (size_of s)) as [Hlt|Hge].
  - destruct (smod_ok f s from Hs ltac:(unfold size_of in *; lia)) as (s' & -> & Hok & Hl & _).
    cbn [mbind option_bind]. destruct (IH s' (from + 1)) as [->| ->]; [done|lia|unfold size_of in *; lia|done|].
    exfalso. unfold size_of in *. lia.
  - unfold smod. rewrite sget_vals by done. rewrite vals_above by (done || (unfold size_of in *; lia)). done.
Qed.

(** A range of floating-point numbers that goes past their end panics at
    every replica that applies it: the array of integers is made to grow instead
    of theirs. *)
Theorem float_ranges_never_grow (c : MultiArrayCrdt) from to x :
  multi_ok c -> 0 <= from <= to -> size_of (floatCounters c) <= to ->
  applyDownstream c (DownFloat (IncRange from to x)) = None.
Proof.
  intros Hc Hf Ht. cbn [applyDownstream multi_inversible multi_applyDownstream applyDownstreamFloat].
  destruct (growTo 0 (intCounters c) to) as [ints|]; [|done]. cbn [mbind option_bind]. unfold loopRange.
  replace (to - from + 1) with (Z.of_nat (Z.to_nat (to - from + 1))) by lia.
  destruct (loopRange_panics (fun x0 => fadd x0 x) (Z.to_nat (to - from + 1)) (floatCounters c) from) as [-> | H].
  - apply (mo_float c Hc).
  - lia.
  - lia.
  - done.
  - lia.
Qed.

Lemma float_ranges_never_grow_witness : applyDownstream c_example (DownFloat (IncRange 0 1 f0)) = None.
Proof. apply float_ranges_never_grow; [apply c_example_ok|lia|by vm_compute]. Defined.

(** ** Messages *)

(** What [Update] makes: no stamp without registers, sizes that are not negative,
    and sums with their counts. *)
Definition sendable (op : DownArgs) : Prop :=
  match op with
  | DownUpdateAll u ts => (Data u = [] -> ts = 0) /\ (Counts u = [] -> Sums u = [])
  | DownSetSizes s => 0 <= IntSize s /\ 0 <= FloatSize s /\ 0 <= RegisterSize s /\ 0 <= AvgSize s
  | DownNoOp => False
  | _ => True
  end.

(** The updates of a multi-array survive the messages to the other replicas. *)
Theorem multi_messages_round_trip (op : DownArgs) : sendable op -> FromReplicatorObj <$> ToReplicatorObj op = Some op.
Proof.
  destruct op as [[i f r a]|u|u|u ts|u|[ints sms floats dat cnts] ts|]; cbn; try done.
  - intros (Hi & Hf & Hr & Ha). do 3 f_equal.
    all: match goal with |- default 0 (if 0 <? ?n then _ else _) = _ => destruct (Z.ltb_spec 0 n); cbn; lia end.
  - intros [Hd Hn]. do 2 f_equal; [f_equal|].
    + destruct cnts; [by rewrite Hn|done].
    + destruct dat; [by rewrite Hd|done].
Qed.

Lemma multi_messages_round_trip_witness :
  FromReplicatorObj <$> ToReplicatorObj (Update 77 c_example (MultiArrayUpdateAll (mkAll [1] [2] [] [None] [3]))) =
    Some (DownUpdateAll (mkAll [1] [2] [] [None] [3]) (generate64BitTsAndId 77 0)).
Proof. apply multi_messages_round_trip. by split. Defined.

(** ** Floating-point numbers *)

Definition f1 : f64 := S754_finite false (2 ^ 52) (- 52).
Definition f2_53 : f64 := S754_finite false (2 ^ 52) 1.

(** Replicas that add 1, 1 and 2^53 in different orders differ for ever. *)
Lemma float_replicas_diverge :
  let up x := DownFloat (IncSingle 0 x) in
  (vals ∘ floatCounters) <$> deliver (Initialize 1) [up f1; up f1; up f2_53] = Some [S754_finite false (2 ^ 52 + 1) 1] /\
  (vals ∘ floatCounters) <$> deliver (Initialize 2) [up f2_53; up f1; up f1] = Some [f2_53].
Proof. split; by vm_compute. Qed.
