(* ===== verification/FloatCounters.v ===== *)
(** * Floating-point counters: counterFloatCRDT.go and pairCounterCrdt.go
      (src/crdt/crdt)

    A counter of float64, and a pair of an int32 counter and a float64 counter
    that are updated apart or together.  Floating-point numbers are IEEE 754
    doubles ([SpecFloat]).  Clients and replicas send an update as a change of
    each counter, and which update it was is read off the changes. *)

From S2P Require Import Prelude ClockSI Inversible Convergence GoSlice MultiArray.
From Stdlib Require Import ZArith Lia Bool SpecFloat.
From stdpp Require Import base tactics numbers list.
#[local] Open Scope Z_scope.

(** ** Numbers *)

Definition one : f64 := S754_finite false (2 ^ 52) (- 52).

(** [float64(z)]. *)
Definition float_of_int (z : Z) : f64 := binary_normalize 53 1024 z 0 false.

(** [x == 0] holds for both zeros. *)
Definition is_zero (x : f64) : bool := match x with S754_zero _ => true | _ => false end.

Definition fdiv : f64 -> f64 -> f64 := SFdiv 53 1024.

Definition fneg (x : f64) : f64 := SFopp x.

(** [x < 0]. *)
Definition is_neg (x : f64) : bool := SFltb x f0.

(** The fraction of a number is cut off. *)
Definition trunc (x : f64) : option Z :=
  match x with
  | S754_zero _ => Some 0
  | S754_finite s m e =>
      let a := if 0 <=? e then Zpos m * 2 ^ e else Zpos m / 2 ^ (- e) in Some (if s then - a else a)
  | _ => None
  end.

(** [int32(x)].  Outside of the range of int32 the result is up to the
    implementation of the language: [other]. *)
Definition int_of_float (other : f64 -> Z) (x : f64) : Z :=
  match trunc x with
  | Some z => if (- 2 ^ 31 <=? z) && (z <? 2 ^ 31) then z else int32 (other x)
  | None => int32 (other x)
  end.

(** ** CounterFloatCrdt *)

Module CounterFloat.
Record CounterFloatCrdt := mkCounter { value : f64 }.
Inductive Op := IncrementFloat (Change : f64) | DecrementFloat (Change : f64).
Inductive Eff := IncrementFloatEffect (Change : f64) | DecrementFloatEffect (Change : f64).

Definition Initialize : CounterFloatCrdt := mkCounter f0.

Definition step (v : f64) (upd : Op) : f64 :=
  match upd with IncrementFloat c => fadd v c | DecrementFloat c => fsub v c end.

Definition Read (crdt : CounterFloatCrdt) (updsNotYetApplied : list Op) : f64 :=
  foldl step (value crdt) updsNotYetApplied.

Definition float_applyDownstream (crdt : CounterFloatCrdt) (op : Op) : option (CounterFloatCrdt * option Eff) :=
  Some match op with
  | IncrementFloat c => (mkCounter (fadd (value crdt) c), Some (IncrementFloatEffect c))
  | DecrementFloat c => (mkCounter (fsub (value crdt) c), Some (DecrementFloatEffect c))
  end.

Definition float_undoEffect (crdt : CounterFloatCrdt) (effect : option Eff) : option CounterFloatCrdt :=
  match effect with
  | Some (IncrementFloatEffect c) => Some (mkCounter (fsub (value crdt) c))
  | Some (DecrementFloatEffect c) => Some (mkCounter (fadd (value crdt) c))
  | None => None
  end.

#[export] Instance float_inversible : InversibleOps CounterFloatCrdt Op Eff := {
  applyDownstream := float_applyDownstream;
  undoEffect := float_undoEffect
}.

(** *** Messages *)

(** [ProtoCounterFloatDownstream]. *)
Record ProtoDownstream := mkDown { IsInc : bool; PChange : f64 }.

Definition ToReplicatorObj (downOp : Op) : ProtoDownstream :=
  match downOp with
  | IncrementFloat c => mkDown true c
  | DecrementFloat c => mkDown false (fneg c)
  end.

Definition downstreamProtoCounterFloatToAntidoteDownstream (p : ProtoDownstream) : Op :=
  if IsInc p then IncrementFloat (PChange p) else DecrementFloat (fneg (PChange p)).

(** [ApbCounterFloatUpdate] has only the change: every update of a client is
    read as an increment. *)
Definition ToUpdateObject (op : Op) : f64 :=
  match op with IncrementFloat c => c | DecrementFloat c => fneg c end.

Definition ToProtoState (crdt : CounterFloatCrdt) : f64 := value crdt.
Definition FromProtoState (p : f64) : CounterFloatCrdt := mkCounter p.

Lemma fneg_involutive x : fneg (fneg x) = x.
Proof. destruct x as [[]|[]| |[] m e]; done. Qed.

Lemma float_message_round_trip op :
  downstreamProtoCounterFloatToAntidoteDownstream (ToReplicatorObj op) = op.
Proof. destruct op; cbn; [done|]. unfold downstreamProtoCounterFloatToAntidoteDownstream. cbn. by rewrite fneg_involutive. Qed.

(** Pending updates are read as if they had been applied. *)
Lemma Read_applies crdt upds : exists crdt', deliver crdt upds = Some crdt' /\ value crdt' = Read crdt upds.
Proof.
  revert crdt. induction upds as [|op upds IH]; intros crdt; [by exists crdt|].
  destruct op; cbn; apply IH.
Qed.
End CounterFloat.

(** ** PairCounterCrdt *)

Module PairCounter.
Section pair.
Context (other : f64 -> Z).

Record PairCounterCrdt := mkPair { first : Z; second : f64 }.

(** With the types of the code: a decrement of the first counter holds a float64,
    and an increment of the second an int32. *)
Inductive Op :=
  | IncrementFirst (c : Z)
  | DecrementFirst (c : f64)
  | IncrementSecond (c : Z)
  | DecrementSecond (c : f64)
  | IncrementBoth (ChangeFirst : Z) (ChangeSecond : f64)
  | DecrementBoth (ChangeFirst : Z) (ChangeSecond : f64).

(** An update of both counters leaves the effect nil. *)
Inductive Eff :=
  | NilEffect
  | IncrementFirstEffect (c : Z)
  | DecrementFirstEffect (c : Z)
  | IncrementSecondEffect (c : f64)
  | DecrementSecondEffect (c : f64).

Inductive ReadArguments := StateReadArguments | ReadFirstArguments | ReadSecondArguments.
Inductive State :=
  | PairCounterState (First : Z) (Second : f64)
  | SingleFirstCounterState (First : Z)
  | SingleSecondCounterState (Second : f64).

Definition Initialize : PairCounterCrdt := mkPair 0 f0.

Definition addFirst (s : PairCounterCrdt) (c : Z) : PairCounterCrdt := mkPair (int32 (first s + c)) (second s).
Definition subFirst (s : PairCounterCrdt) (c : Z) : PairCounterCrdt := mkPair (int32 (first s - c)) (second s).
Definition addSecond (s : PairCounterCrdt) (c : f64) : PairCounterCrdt := mkPair (first s) (fadd (second s) c).
Definition subSecond (s : PairCounterCrdt) (c : f64) : PairCounterCrdt := mkPair (first s) (fsub (second s) c).

Definition step (s : PairCounterCrdt) (upd : Op) : PairCounterCrdt :=
  match upd with
  | IncrementFirst c => addFirst s c
  | DecrementFirst c => subFirst s (int_of_float other c)
  | IncrementSecond c => addSecond s (float_of_int c)
  | DecrementSecond c => subSecond s c
  | IncrementBoth c1 c2 => addSecond (addFirst s c1) c2
  | DecrementBoth c1 c2 => subSecond (subFirst s c1) c2
  end.

(** With pending updates, the loop starts from zero. *)
Definition getState (crdt : PairCounterCrdt) (updsNotYetApplied : list Op) : PairCounterCrdt :=
  match updsNotYetApplied with
  | [] => crdt
  | upds => foldl step (mkPair 0 f0) upds
  end.

Definition firstStep (value : Z) (upd : Op) : Z :=
  match upd with
  | IncrementFirst c => int32 (value + c)
  | DecrementFirst c => int32 (value - int_of_float other c)
  | IncrementBoth c _ => int32 (value + c)
  | DecrementBoth c _ => int32 (value - c)
  | IncrementSecond _ | DecrementSecond _ => value
  end.

Definition getFirst (crdt : PairCounterCrdt) (updsNotYetApplied : list Op) : Z :=
  match updsNotYetApplied with [] => first crdt | upds => foldl firstStep 0 upds end.

Definition secondStep (value : f64) (upd : Op) : f64 :=
  match upd with
  | IncrementSecond c => fadd value (float_of_int c)
  | DecrementSecond c => fsub value c
  | IncrementBoth _ c => fadd value c
  | DecrementBoth _ c => fsub value c
  | IncrementFirst _ | DecrementFirst _ => value
  end.

Definition getSecond (crdt : PairCounterCrdt) (updsNotYetApplied : list Op) : f64 :=
  match updsNotYetApplied with [] => second crdt | upds => foldl secondStep f0 upds end.

Definition Read (crdt : PairCounterCrdt) (args : ReadArguments) (updsNotYetApplied : list Op) : State :=
  match args with
  | StateReadArguments =>
      let s := getState crdt updsNotYetApplied in PairCounterState (first s) (second s)
  | ReadFirstArguments => SingleFirstCounterState (getFirst crdt updsNotYetApplied)
  | ReadSecondArguments => SingleSecondCounterState (getSecond crdt updsNotYetApplied)
  end.

Definition pair_applyDownstream (crdt : PairCounterCrdt) (op : Op) : option (PairCounterCrdt * option Eff) :=
  Some (step crdt op,
        Some match op with
             | IncrementFirst c => IncrementFirstEffect c
             | DecrementFirst c => DecrementFirstEffect (int_of_float other c)
             | IncrementSecond c => IncrementSecondEffect (float_of_int c)
             | DecrementSecond c => DecrementSecondEffect c
             | IncrementBoth _ _ | DecrementBoth _ _ => NilEffect
             end).

Definition pair_undoEffect (crdt : PairCounterCrdt) (effect : option Eff) : option PairCounterCrdt :=
  match effect with
  | None => None
  | Some (IncrementFirstEffect c) => Some (subFirst crdt c)
  | Some (DecrementFirstEffect c) => Some (addFirst crdt c)
  | Some (IncrementSecondEffect c) => Some (subSecond crdt c)
  | Some (DecrementSecondEffect c) => Some (addSecond crdt c)
  | Some NilEffect => Some crdt
  end.

Instance pair_inversible : InversibleOps PairCounterCrdt Op Eff := {
  applyDownstream := pair_applyDownstream;
  undoEffect := pair_undoEffect
}.

(** *** Messages of clients *)

(** [ApbPairCounterUpdate]: 0 for a field that is absent. *)
Record ApbPairCounterUpdate := mkUpd { IncFirst : Z; IncSecond : f64 }.

Definition ToUpdateObject (op : Op) : ApbPairCounterUpdate :=
  match op with
  | IncrementFirst c => mkUpd c f0
  | IncrementSecond c => mkUpd 0 (float_of_int c)
  | IncrementBoth c1 c2 => mkUpd c1 c2
  | DecrementFirst c => mkUpd (int_of_float other (fneg c)) f0
  | DecrementSecond c => mkUpd 0 (fneg c)
  | DecrementBoth c1 c2 => mkUpd (int32 (- c1)) (fneg c2)
  end.

(** [DecrementBoth.FromUpdateObject] makes an increment. *)
Definition updatePairCounterProtoToAntidoteUpdate (p : ApbPairCounterUpdate) : Op :=
  if negb (IncFirst p =? 0) && negb (is_zero (IncSecond p)) then
    if (IncFirst p <? 0) && is_neg (IncSecond p)
    then IncrementBoth (int32 (- IncFirst p)) (fneg (IncSecond p))
    else IncrementBoth (IncFirst p) (IncSecond p)
  else if negb (IncFirst p =? 0) then
    if IncFirst p <? 0 then DecrementFirst (float_of_int (int32 (- IncFirst p))) else IncrementFirst (IncFirst p)
  else
    if is_neg (IncSecond p) then DecrementSecond (fneg (IncSecond p))
    else IncrementSecond (int_of_float other (IncSecond p)).

(** *** Messages of replicas *)

Record ProtoPairCounterDownstream := mkDown { IsInc : bool; FirstChange : Z; SecondChange : f64 }.

Definition ToReplicatorObj (downOp : Op) : ProtoPairCounterDownstream :=
  match downOp with
  | IncrementFirst c => mkDown true c f0
  | IncrementSecond c => mkDown true 0 (float_of_int c)
  | IncrementBoth c1 c2 => mkDown true c1 c2
  | DecrementFirst c => mkDown false (int_of_float other (fneg c)) f0
  | DecrementSecond c => mkDown false 0 (fneg c)
  | DecrementBoth c1 c2 => mkDown false (int32 (- c1)) (fneg c2)
  end.

Definition downstreamProtoPairCounterToAntidoteDownstream (p : ProtoPairCounterDownstream) : Op :=
  if IsInc p then
    if negb (FirstChange p =? 0) && negb (is_zero (SecondChange p)) then IncrementBoth (FirstChange p) (SecondChange p)
    else if negb (FirstChange p =? 0) then IncrementFirst (FirstChange p)
    else IncrementSecond (int_of_float other (SecondChange p))
  else
    if negb (FirstChange p =? 0) && negb (is_zero (SecondChange p))
    then DecrementBoth (int32 (- FirstChange p)) (fneg (SecondChange p))
    else if negb (FirstChange p =? 0) then DecrementFirst (float_of_int (int32 (- FirstChange p)))
    else DecrementSecond (fneg (SecondChange p)).

Definition ToProtoState (crdt : PairCounterCrdt) : Z * f64 := (first crdt, second crdt).
Definition FromProtoState (p : Z * f64) : PairCounterCrdt := mkPair p.1 p.2.

(** *** What goes wrong *)

(** A positive number. *)
Definition positive (x : f64) : Prop := is_zero x = false /\ is_neg x = false /\ is_neg (fneg x) = true.

Lemma steps_agree upds : forall s,
  foldl firstStep (first s) upds = first (foldl step s upds) /\
  foldl secondStep (second s) upds = second (foldl step s upds).
Proof.
  induction upds as [|u upds IH]; intros s; [done|]. specialize (IH (step s u)). by destruct u.
Qed.

(** The reads of one counter agree with the read of both. *)
Lemma reads_agree crdt upds :
  getFirst crdt upds = first (getState crdt upds) /\ getSecond crdt upds = second (getState crdt upds).
Proof. destruct upds as [|u upds]; [done|]. apply (steps_agree (u :: upds) (mkPair 0 f0)). Qed.

(** A read of a transaction that has updates of its own does not see the state of
    the object. *)
Lemma pending_reads_forget_the_state (crdt crdt' : PairCounterCrdt) args upds :
  upds <> [] -> Read crdt args upds = Read crdt' args upds.
Proof. by destruct args, upds. Qed.

(** An update of both counters is not undone. *)
Lemma both_is_not_undone crdt op s eff :
  (exists a b, op = IncrementBoth a b \/ op = DecrementBoth a b) ->
  applyDownstream crdt op = Some (s, eff) -> undoEffect s eff = Some s.
Proof. by intros (a & b & [-> | ->]) [= <- <-]. Qed.

(** What a client's update does to the counters, once it has reached the server. *)
Lemma decode_DecrementBoth a b : 0 < a < 2 ^ 31 -> positive b ->
  updatePairCounterProtoToAntidoteUpdate (ToUpdateObject (DecrementBoth a b)) = IncrementBoth a b.
Proof.
  intros Ha (Hz & Hn & Hp). unfold updatePairCounterProtoToAntidoteUpdate, ToUpdateObject. cbn [IncFirst IncSecond].
  rewrite (wrapS_id 32 (- a)) by (done || (unfold inS; lia)).
  rewrite (proj2 (Z.eqb_neq _ _)), (proj2 (Z.ltb_lt _ _)) by lia. rewrite Hp.
  assert (is_zero (fneg b) = false) as -> by by destruct b. cbn [negb andb].
  rewrite Z.opp_involutive, wrapS_id by (done || (unfold inS; lia)).
  f_equal. apply CounterFloat.fneg_involutive.
Qed.
End pair.
End PairCounter.

Import PairCounter.

(** A client that decrements both counters of a pair increments them: the
    server reads the message of the decrement as an increment by the same
    amounts, and applies that.  The first counter ends [2 * a] above what the client
    asked for. *)
Theorem decrement_of_both_increments (other : f64 -> Z) (crdt : PairCounterCrdt) a b :
  0 < a < 2 ^ 31 -> positive b -> - 2 ^ 31 <= first crdt - a -> first crdt + a < 2 ^ 31 ->
  exists s e s' e',
    pair_applyDownstream other crdt
      (updatePairCounterProtoToAntidoteUpdate other (ToUpdateObject other (DecrementBoth a b))) = Some (s, e) /\
    pair_applyDownstream other crdt (DecrementBoth a b) = Some (s', e') /\
    first s = first crdt + a /\ first s' = first crdt - a /\
    second s = fadd (second crdt) b /\ second s' = fsub (second crdt) b.
Proof.
  intros Ha Hb Hc Hs. rewrite decode_DecrementBoth by done. unfold pair_applyDownstream. cbn [step].
  eexists _, _, _, _. split; [done|]. split; [done|]. cbn [addSecond addFirst subSecond subFirst first second].
  rewrite !wrapS_id by (done || (unfold inS; lia)). done.
Qed.

Lemma decrement_of_both_increments_witness :
  let a := 2 in let b := one in
  exists s e, pair_applyDownstream (fun _ => 0) (mkPair 10 f0)
    (updatePairCounterProtoToAntidoteUpdate (fun _ => 0) (ToUpdateObject (fun _ => 0) (DecrementBoth a b))) = Some (s, e) /\
    first s = 12.
Proof.
  destruct (decrement_of_both_increments (fun _ => 0) (mkPair 10 f0) 2 one) as (s & e & s' & e' & H & _ & H1 & _).
  - lia.
  - by vm_compute.
  - cbn. lia.
  - cbn. lia.
  - exists s, e. by split.
Defined.

(** A fraction that is sent with no change of the first counter is lost at the
    other replicas, which add 0 instead. *)
Lemma fraction_diverges (other : f64 -> Z) (crdt : PairCounterCrdt) (b : f64) :
  trunc b = Some 0 -> is_zero b = false ->
  downstreamProtoPairCounterToAntidoteDownstream other (ToReplicatorObj other (IncrementBoth 0 b)) = IncrementSecond 0.
Proof.
  intros Ht Hz. unfold downstreamProtoPairCounterToAntidoteDownstream, ToReplicatorObj.
  cbn [IsInc FirstChange SecondChange]. cbn [Z.eqb negb andb]. unfold int_of_float. by rewrite Ht.
Qed.
