(* ===== verification/CounterArray.v ===== *)
(** * The array of counters: counterArrayCrdt.go (src/crdt/crdt)

    An array of int64 counters that grows as positions past its end are updated.
    Its loops are those of file MultiArray, with an addition or a subtraction.
    [None] is a panic.  Prints are left out. *)

From S2P Require Import Prelude ClockSI Inversible Convergence GoSlice MultiArray MultiArrayOps MultiArrayMerge.
From Stdlib Require Import ZArith Lia Bool.
From stdpp Require Import base tactics numbers list.
#[local] Open Scope Z_scope.

Module CounterArray.

Definition CounterArrayCrdt : Type := Slice Z.

Inductive ReadArguments :=
  | StateReadArguments
  | CounterArraySingleArguments (pos : Z)
  | CounterArrayExceptArguments (pos : Z)
  | CounterArraySubArguments (positions : list Z)
  | CounterArrayExceptRangeArguments (ExceptRange : list Z) (NPositionsSkip : Z).

Inductive Op :=
  | CounterArraySetSize (size : Z)
  | CounterArrayIncrement (Change Position : Z)
  | CounterArrayDecrement (Change Position : Z)
  | CounterArrayIncrementAll (c : Z)
  | CounterArrayDecrementAll (c : Z)
  | CounterArrayIncrementMulti (Changes : list Z)
  | CounterArrayDecrementMulti (Changes : list Z)
  | CounterArrayIncrementSub (Changes Positions : list Z)
  | CounterArrayDecrementSub (Changes Positions : list Z)
  | NoOp.

(** An effect with an old size is the code's effect [...WithSizeEffect]; a [NoOp]
    leaves the effect nil. *)
Inductive Eff :=
  | NilEffect
  | NoEffect
  | SetSizeEffect (size : Z)
  | IncrementEffect (Change Position : Z)
  | DecrementEffect (Change Position : Z)
  | IncrementAllEffect (c : Z)
  | DecrementAllEffect (c : Z)
  | IncrementMultiEffect (Changes : list Z) (OldSize : option Z)
  | DecrementMultiEffect (Changes : list Z) (OldSize : option Z)
  | IncrementSubEffect (Changes Positions : list Z) (OldSize : option Z)
  | DecrementSubEffect (Changes Positions : list Z) (OldSize : option Z).

Definition Initialize : CounterArrayCrdt := of_list [0].

Definition IsBigCRDT (crdt : CounterArrayCrdt) : bool := (1000 <=? slen crdt)%nat.

(** ** Reads *)

Definition copyToNewInt64SliceWithSize : Slice Z -> Z -> option (Slice Z) := copySliceWithSize 0.

(** [for i := range s { s[i] = f(s[i]) }]. *)
Definition mapAll (f : Z -> Z) (s : Slice Z) : option (Slice Z) := loopRange f s 0 (size_of s - 1).

(** A change at some positions, one for all of them or one for each. *)
Definition loopSub (add : Z -> Z -> Z) (s : Slice Z) (changes positions : list Z) : option (Slice Z) :=
  if is_one changes then change ← head changes; loopPos add s positions (replicate (length positions) change)
  else loopPos add s positions changes.

Definition growMulti (s : Slice Z) (changes : list Z) : option (Slice Z) :=
  if (slen s <? length changes)%nat then copyToNewInt64SliceWithSize s (Z.of_nat (length changes)) else Some s.

(** One pending update on the copy of the array. *)
Definition pending (tmpCopy : Slice Z) (upd : Op) : option (Slice Z) :=
  match upd with
  | CounterArrayIncrement c p => smod (fun x => iadd x c) tmpCopy p
  | CounterArrayDecrement c p => smod (fun x => isub x c) tmpCopy p
  | CounterArrayIncrementAll c => mapAll (fun x => iadd x c) tmpCopy
  | CounterArrayDecrementAll c => mapAll (fun x => isub x c) tmpCopy
  | CounterArrayIncrementMulti l => s ← growMulti tmpCopy l; loopAll iadd s 0 l
  | CounterArrayDecrementMulti l => s ← growMulti tmpCopy l; loopAll isub s 0 l
  | CounterArrayIncrementSub cs ps => loopSub iadd tmpCopy cs ps
  | CounterArrayDecrementSub cs ps => loopSub isub tmpCopy cs ps
  | CounterArraySetSize n =>
      if size_of tmpCopy <? n then copyToNewInt64SliceWithSize tmpCopy n else Some tmpCopy
  | NoOp => Some tmpCopy
  end.

Definition getState (crdt : CounterArrayCrdt) (updsNotYetApplied : list Op) : option (Slice Z) :=
  foldM pending (copySlice crdt) updsNotYetApplied.

(** The positions outside of the ranges to skip, from [nextStart] on. *)
Fixpoint exceptParts (source : Slice Z) (ranges : list Z) (nextStart : Z) : option (list Z) :=
  match ranges with
  | [] => mapM (sget source) (seqZ nextStart (size_of source - nextStart))
  | start :: stop :: ranges =>
      l ← mapM (sget source) (seqZ nextStart (start - nextStart));
      rest ← exceptParts source ranges (int32 (stop + 1)); Some (l ++ rest)
  | [_] => None
  end.

(** The result is written to a slice of [len(source) - nPosSkip] elements. *)
Definition getExceptRangeState (crdt : CounterArrayCrdt) (upds : list Op) (exceptRange : list Z) (nPosSkip : Z)
  : option (list Z) :=
  source ← match upds with [] => Some crdt | _ => getState crdt upds end;
  if size_of source - nPosSkip <? 0 then None
  else
    result ← exceptParts source exceptRange 0;
    if Z.of_nat (length result) <=? size_of source - nPosSkip then Some result else None.

(** The position in the result without [exceptPos]. *)
Definition exceptAt (f : Z -> Z) (exceptPos : Z) (s : Slice Z) (pos : Z) : option (Slice Z) :=
  if pos <? exceptPos then smod f s pos else if exceptPos <? pos then smod f s (pos - 1) else Some s.

Fixpoint exceptSub (add : Z -> Z -> Z) (exceptPos : Z) (s : Slice Z) (positions changes : list Z) : option (Slice Z) :=
  match positions, changes with
  | [], _ => Some s
  | p :: positions, c :: changes =>
      s ← exceptAt (fun x => add x c) exceptPos s p; exceptSub add exceptPos s positions changes
  | p :: positions, [] => if p =? exceptPos then exceptSub add exceptPos s positions [] else None
  end.

(** [typedUpd[:exceptPos]] and [typedUpd[exceptPos+1:]]. *)
Definition exceptMulti (add : Z -> Z -> Z) (exceptPos : Z) (s : Slice Z) (l : list Z) : option (Slice Z) :=
  s ← (if (slen s <? length l)%nat then copyToNewInt64SliceWithSize s (Z.of_nat (length l) - 1) else Some s);
  if (0 <=? exceptPos) && (exceptPos + 1 <=? Z.of_nat (length l)) then
    s ← loopAll add s 0 (take (Z.to_nat exceptPos) l);
    loopAll add s exceptPos (drop (Z.to_nat (exceptPos + 1)) l)
  else None.

Definition exceptPending (exceptPos : Z) (result : Slice Z) (upd : Op) : option (Slice Z) :=
  let sub add cs ps :=
    if is_one cs then c ← head cs; exceptSub add exceptPos result ps (replicate (length ps) c)
    else exceptSub add exceptPos result ps cs in
  match upd with
  | CounterArrayIncrement c p => exceptAt (fun x => iadd x c) exceptPos result p
  | CounterArrayDecrement c p => exceptAt (fun x => isub x c) exceptPos result p
  | CounterArrayIncrementAll c => mapAll (fun x => iadd x c) result
  | CounterArrayDecrementAll c => mapAll (fun x => isub x c) result
  | CounterArrayIncrementMulti l => exceptMulti iadd exceptPos result l
  | CounterArrayDecrementMulti l => exceptMulti isub exceptPos result l
  | CounterArrayIncrementSub cs ps => sub iadd cs ps
  | CounterArrayDecrementSub cs ps => sub isub cs ps
  | CounterArraySetSize n =>
      if size_of result + 1 <? n then copyToNewInt64SliceWithSize result (n - 1) else Some result
  | NoOp => Some result
  end.

Definition getExceptState (crdt : CounterArrayCrdt) (upds : list Op) (exceptPos : Z) : option (Slice Z) :=
  if (0 <=? exceptPos) && (exceptPos <? size_of crdt) then
    foldM (exceptPending exceptPos)
      (of_list (take (Z.to_nat exceptPos) (vals crdt) ++ drop (Z.to_nat (exceptPos + 1)) (vals crdt))) upds
  else None.

(** The change of the first occurrence of a position. *)
Fixpoint subAt (one : bool) (changes : list Z) (i : nat) (positions : list Z) (pos : Z) : option Z :=
  match positions with
  | [] => Some 0
  | p :: positions =>
      if p =? pos then (if one then head changes else changes !! i) else subAt one changes (S i) positions pos
  end.

Definition singlePending (pos : Z) (value : Z) (upd : Op) : option Z :=
  let multi (add : Z -> Z -> Z) l :=
    if pos <? Z.of_nat (length l) then (if pos <? 0 then None else c ← l !! Z.to_nat pos; Some (add value c))
    else Some value in
  match upd with
  | CounterArrayIncrement c p => Some (if p =? pos then iadd value c else value)
  | CounterArrayDecrement c p => Some (if p =? pos then isub value c else value)
  | CounterArrayIncrementAll c => Some (iadd value c)
  | CounterArrayDecrementAll c => Some (isub value c)
  | CounterArrayIncrementMulti l => multi iadd l
  | CounterArrayDecrementMulti l => multi isub l
  | CounterArrayIncrementSub cs ps => c ← subAt (is_one cs) cs 0 ps pos; Some (iadd value c)
  | CounterArrayDecrementSub cs ps => c ← subAt (is_one cs) cs 0 ps pos; Some (isub value c)
  | CounterArraySetSize _ | NoOp => Some value
  end.

(** [if pos > len(s) { 0 } else { s[pos] }]: [len(s)] itself panics. *)
Definition valueAt (s : Slice Z) (pos : Z) : option Z := if int32 (size_of s) <? pos then Some 0 else sget s pos.

Definition getSingleState (crdt : CounterArrayCrdt) (upds : list Op) (pos : Z) : option Z :=
  match upds with
  | [] => sget crdt pos
  | _ => value ← valueAt crdt pos; foldM (singlePending pos) value upds
  end.

(** An update of all counters changes the positions that are read only, and a
    position that is read twice twice. *)
Definition subPending (positions : list Z) (tmpCopy : Slice Z) (upd : Op) : option (Slice Z) :=
  match upd with
  | CounterArrayIncrementAll c => loopPos iadd tmpCopy positions (replicate (length positions) c)
  | CounterArrayDecrementAll c => loopPos isub tmpCopy positions (replicate (length positions) c)
  | _ => pending tmpCopy upd
  end.

Definition getSubState (crdt : CounterArrayCrdt) (upds : list Op) (positions : list Z) : option (list Z) :=
  match upds with
  | [] => mapM (valueAt crdt) positions
  | _ => tmpCopy ← foldM (subPending positions) (copySlice crdt) upds; mapM (valueAt tmpCopy) positions
  end.

(** The state of one counter, or of many. *)
Inductive State := CounterArraySingleState (v : Z) | CounterArrayState (l : list Z).

Definition Read (crdt : CounterArrayCrdt) (args : ReadArguments) (upds : list Op) : option State :=
  match args with
  | StateReadArguments => s ← getState crdt upds; Some (CounterArrayState (vals s))
  | CounterArraySingleArguments pos => v ← getSingleState crdt upds pos; Some (CounterArraySingleState v)
  | CounterArrayExceptArguments pos =>
      if size_of crdt <=? pos then s ← getState crdt upds; Some (CounterArrayState (vals s))
      else s ← getExceptState crdt upds pos; Some (CounterArrayState (vals s))
  | CounterArraySubArguments positions => l ← getSubState crdt upds positions; Some (CounterArrayState l)
  | CounterArrayExceptRangeArguments r n => l ← getExceptRangeState crdt upds r n; Some (CounterArrayState l)
  end.

(** ** Updates *)

Definition Update (crdt : CounterArrayCrdt) (args : Op) : Op :=
  match args with
  | CounterArraySetSize n => if n <=? size_of crdt then NoOp else args
  | _ => args
  end.

(** A decrement of all positions that are given adds. *)
Definition array_applyDownstream (crdt : CounterArrayCrdt) (op : Op) : option (CounterArrayCrdt * option Eff) :=
  let grows pos := size_of crdt <=? pos in
  let growsMulti (l : list Z) := (slen crdt <? length l)%nat in
  '(s, e) ←
    match op with
    | CounterArrayIncrement c p =>
        s ← incSingle 0 iadd crdt p c;
        Some (s, if grows p then SetSizeEffect (size_of crdt) else IncrementEffect c p)
    | CounterArrayDecrement c p =>
        s ← incSingle 0 isub crdt p c;
        Some (s, if grows p then SetSizeEffect (size_of crdt) else DecrementEffect c p)
    | CounterArrayIncrementAll c => s ← mapAll (fun x => iadd x c) crdt; Some (s, IncrementAllEffect c)
    | CounterArrayDecrementAll c => s ← mapAll (fun x => isub x c) crdt; Some (s, DecrementAllEffect c)
    | CounterArrayIncrementMulti l =>
        s ← incAll 0 iadd crdt l;
        Some (s, IncrementMultiEffect l (if growsMulti l then Some (size_of crdt) else None))
    | CounterArrayDecrementMulti l =>
        s ← incAll 0 iadd crdt l;
        Some (s, if growsMulti l then DecrementMultiEffect l (Some (size_of crdt)) else IncrementMultiEffect l None)
    | CounterArrayIncrementSub cs ps =>
        s ← incPositions 0 iadd (is_one cs) crdt ps cs; Some (s, IncrementSubEffect cs ps (old_if crdt s))
    | CounterArrayDecrementSub cs ps =>
        s ← incPositions 0 isub (is_one cs) crdt ps cs; Some (s, DecrementSubEffect cs ps (old_if crdt s))
    | CounterArraySetSize n =>
        if size_of crdt <? n then s ← copySliceWithSize 0 crdt (int32 n); Some (s, SetSizeEffect (size_of crdt))
        else Some (crdt, NoEffect)
    | NoOp => Some (crdt, NilEffect)
    end;
  Some (s, Some e).

Definition array_undoEffect (crdt : CounterArrayCrdt) (effect : option Eff) : option CounterArrayCrdt :=
  e ← effect;
  match e with
  | IncrementEffect c p => smod (fun x => isub x c) crdt p
  | DecrementEffect c p => smod (fun x => iadd x c) crdt p
  | IncrementAllEffect c => mapAll (fun x => isub x c) crdt
  | DecrementAllEffect c => mapAll (fun x => iadd x c) crdt
  | IncrementMultiEffect l old => s ← loopAll isub crdt 0 l; trunc_if s old
  | DecrementMultiEffect l old => s ← loopAll iadd crdt 0 l; trunc_if s old
  | IncrementSubEffect cs ps old => s ← loopSub isub crdt cs ps; trunc_if s old
  | DecrementSubEffect cs ps old => s ← loopSub iadd crdt cs ps; trunc_if s old
  | SetSizeEffect n => strunc crdt n
  | NoEffect | NilEffect => Some crdt
  end.

#[export] Instance array_inversible : InversibleOps CounterArrayCrdt Op Eff := {
  applyDownstream := array_applyDownstream;
  undoEffect := array_undoEffect
}.

Definition Copy (crdt : CounterArrayCrdt) : CounterArrayCrdt := copySlice crdt.

(** ** Messages *)

Definition ineg (x : Z) : Z := int64 (- x).

(** [ApbArrayCounterUpdate]: the change has a sign. *)
Inductive ApbArrayCounterUpdate :=
  | P_Inc (Index Inc : Z) | P_IncAll (Inc : Z) | P_IncMulti (Incs : list Z) | P_IncSub (Indexes Incs : list Z)
  | P_Size (Size : Z).

Definition ToUpdateObject (op : Op) : option ApbArrayCounterUpdate :=
  match op with
  | CounterArrayIncrement c p => Some (P_Inc p c)
  | CounterArrayDecrement c p => Some (P_Inc p (ineg c))
  | CounterArrayIncrementAll c => Some (P_IncAll c)
  | CounterArrayDecrementAll c => Some (P_IncAll (ineg c))
  | CounterArrayIncrementMulti l => Some (P_IncMulti l)
  | CounterArrayDecrementMulti l => Some (P_IncMulti (ineg <$> l))
  | CounterArrayIncrementSub cs ps => Some (P_IncSub ps cs)
  | CounterArrayDecrementSub cs ps => Some (P_IncSub ps (ineg <$> cs))
  | CounterArraySetSize n => Some (P_Size n)
  | NoOp => None
  end.

(** [CounterArrayDecrement.FromUpdateObject] makes an increment. *)
Definition updateArrayCounterProtoToAntidoteUpdate (p : ApbArrayCounterUpdate) : option Op :=
  match p with
  | P_Inc i c => Some (if 0 <=? c then CounterArrayIncrement c i else CounterArrayIncrement (ineg c) i)
  | P_IncAll c => Some (if 0 <=? c then CounterArrayIncrementAll c else CounterArrayDecrementAll (ineg c))
  | P_IncMulti l =>
      c ← head l; Some (if 0 <=? c then CounterArrayIncrementMulti l else CounterArrayDecrementMulti (ineg <$> l))
  | P_IncSub ps cs =>
      c ← head cs; Some (if 0 <=? c then CounterArrayIncrementSub cs ps else CounterArrayDecrementSub (ineg <$> cs) ps)
  | P_Size n => Some (CounterArraySetSize n)
  end.

(** [ProtoArrayCounterDownstream]. *)
Record ProtoArrayCounterDownstream := mkDown { IsInc : bool; PUpd : ApbArrayCounterUpdate }.

Definition ToReplicatorObj (downOp : Op) : option ProtoArrayCounterDownstream :=
  match downOp with
  | CounterArrayIncrement _ _ | CounterArrayIncrementAll _ | CounterArrayIncrementMulti _
  | CounterArrayIncrementSub _ _ => mkDown true <$> ToUpdateObject downOp
  | _ => mkDown false <$> ToUpdateObject downOp
  end.

(** A decrement of one counter is read as an increment by its (negated) change,
    and that of all counters is not negated. *)
Definition downstreamProtoCounterArrayToAntidoteDownstream (p : ProtoArrayCounterDownstream) : Op :=
  match PUpd p with
  | P_Inc i c => if IsInc p then CounterArrayIncrement c i else CounterArrayIncrement (ineg c) i
  | P_IncAll c => if IsInc p then CounterArrayIncrementAll c else CounterArrayDecrementAll c
  | P_IncMulti l => if IsInc p then CounterArrayIncrementMulti l else CounterArrayDecrementMulti (ineg <$> l)
  | P_IncSub ps cs => if IsInc p then CounterArrayIncrementSub cs ps else CounterArrayDecrementSub (ineg <$> cs) ps
  | P_Size n => CounterArraySetSize n
  end.

Definition ToProtoState (crdt : CounterArrayCrdt) : list Z := vals crdt.
Definition FromProtoState (p : list Z) : CounterArrayCrdt := of_list p.
End CounterArray.

Import CounterArray.

(** ** Reads of a transaction that has updates of its own *)

Definition no_decrement_multi (op : Op) : bool :=
  match op with CounterArrayDecrementMulti _ => false | _ => true end.

(** Sizes that an int32 holds. *)
Definition sizes_ok (op : Op) : Prop :=
  match op with
  | CounterArrayIncrementMulti l | CounterArrayDecrementMulti l => Z.of_nat (length l) <= MaxInt32
  | CounterArraySetSize n => n <= MaxInt32
  | _ => True
  end.

Lemma smod_Some {V} (f : V -> V) s i s' : smod f s i = Some s' -> 0 <= i < size_of s /\ slen s' = slen s.
Proof.
  unfold smod, sget, size_of. destruct (_ && _) eqn:E; [|done]. to_prop.
  destruct (arr s !! Z.to_nat i); [|done]. intros [= <-]. done.
Qed.

Lemma incSingle_in_range {V} (zero : V) add s p c : 0 <= p < size_of s ->
  incSingle zero add s p c = smod (fun x => add x c) s p.
Proof. intros Hp. unfold incSingle, growTo. by rewrite (proj2 (Z.leb_gt _ _)) by lia. Qed.

Lemma loopPos_incPos {V} (zero : V) add ps : forall s cs s',
  loopPos add s ps cs = Some s' -> incPos zero add s ps cs = Some s' /\ slen s' = slen s.
Proof.
  induction ps as [|p ps IH]; intros s cs s'; [by destruct cs; intros [= <-]|].
  destruct cs as [|c cs]; [done|]. cbn [loopPos incPos].
  destruct (smod (fun x => add x c) s p) as [s1|] eqn:E; [|done]. cbn [mbind option_bind]. intros H.
  destruct (smod_Some _ _ _ _ E) as [Hp Hl]. rewrite incSingle_in_range, E by done. cbn [mbind option_bind].
  destruct (IH s1 cs s' H) as [? ?]. split; [done|]. lia.
Qed.

Lemma loopSub_incPositions add s cs ps s' : loopSub add s cs ps = Some s' ->
  incPositions 0 add (is_one cs) s ps cs = Some s' /\ slen s' = slen s.
Proof.
  unfold loopSub, incPositions. destruct (is_one cs); [|by apply loopPos_incPos].
  destruct (head cs) as [c|]; [|done]. cbn [mbind option_bind]. by apply loopPos_incPos.
Qed.

(** A read that does not panic shows what applying the pending update makes. *)
Lemma pending_applies (s : CounterArrayCrdt) upd (s' : CounterArrayCrdt) : no_decrement_multi upd = true -> sizes_ok upd -> pending s upd = Some s' ->
  exists e, applyDownstream s upd = Some (s', e).
Proof.
  intros Hd Hz. cbn [applyDownstream array_inversible]. unfold array_applyDownstream.
  destruct upd as [n|c p|c p|c|c|l|l|cs ps|cs ps|]; cbn [pending no_decrement_multi sizes_ok] in *; try done.
  - destruct (Z.ltb_spec (size_of s) n).
    + unfold copyToNewInt64SliceWithSize. rewrite (wrapS_id 32 n).
      * intros ->. by eexists.
      * done.
      * unfold inS, size_of, MaxInt32 in *. lia.
    + intros [= <-]. by eexists.
  - intros H. destruct (smod_Some _ _ _ _ H). rewrite incSingle_in_range, H by done. by eexists.
  - intros H. destruct (smod_Some _ _ _ _ H). rewrite incSingle_in_range, H by done. by eexists.
  - intros ->. by eexists.
  - intros ->. by eexists.
  - unfold growMulti, incAll, copyToNewInt64SliceWithSize.
    rewrite (wrapS_id 32) by (done || (unfold inS, MaxInt32 in *; lia)).
    intros H. rewrite H. by eexists.
  - intros H. destruct (loopSub_incPositions _ _ _ _ _ H) as [-> _]. by eexists.
  - intros H. destruct (loopSub_incPositions _ _ _ _ _ H) as [-> _]. by eexists.
  - intros [= <-]. by eexists.
Qed.

(** A transaction that reads an array of counters after updating it, and gets
    an answer, sees what the array is after its updates; unless it decremented
    counters by a list of changes. *)
Theorem array_reads_own_writes (crdt : CounterArrayCrdt) (upds : list Op) l :
  Forall (fun op => no_decrement_multi op = true /\ sizes_ok op) upds ->
  Read crdt StateReadArguments upds = Some (CounterArrayState l) ->
  exists crdt', deliver (Copy crdt) upds = Some crdt' /\ vals crdt' = l.
Proof.
  intros Hu. cbn [Read]. unfold getState, Copy. revert Hu. generalize (copySlice crdt : CounterArrayCrdt).
  induction upds as [|u upds IH]; intros s Hu; cbn [foldM deliver].
  { intros [= <-]. by exists s. }
  apply Forall_cons in Hu as [[Hd Hz] Hu]. destruct (pending s u) as [s1|] eqn:E; [|done]. cbn [mbind option_bind].
  intros H. destruct (pending_applies s u s1 Hd Hz E) as [e ->]. by apply IH.
Qed.

Lemma array_reads_own_writes_witness :
  exists crdt', deliver (Copy (of_list [1; 2])) [CounterArrayIncrement 5 1; CounterArrayIncrementMulti [1; 1; 7]] =
    Some crdt' /\ vals crdt' = [2; 8; 7].
Proof.
  apply array_reads_own_writes; [|by vm_compute].
  repeat constructor; cbn; unfold MaxInt32; lia.
Defined.

(** ** Convergence *)

(** Updates of positions that are given; those of all counters depend on how many
    there are. *)
Definition positional (op : Op) : Prop :=
  match op with
  | CounterArrayIncrement _ p | CounterArrayDecrement _ p => 0 <= p < MaxInt32
  | CounterArrayIncrementAll _ | CounterArrayDecrementAll _ => False
  | CounterArrayIncrementMulti l | CounterArrayDecrementMulti l => Z.of_nat (length l) <= MaxInt32
  | CounterArrayIncrementSub cs ps | CounterArrayDecrementSub cs ps => upd_ok (IncPositions ps cs)
  | CounterArraySetSize n => n <= MaxInt32
  | NoOp => True
  end.

(** The changes of an update at a position. *)
Definition op_changes (op : Op) (i : nat) : list Z :=
  match op with
  | CounterArrayIncrement c p => at_pos p [c] i
  | CounterArrayDecrement c p => at_pos p [- c] i
  | CounterArrayIncrementMulti l | CounterArrayDecrementMulti l => option_list (l !! i)
  | CounterArrayIncrementSub cs ps => changes_at (IncPositions ps cs) i
  | CounterArrayDecrementSub cs ps => Z.opp <$> changes_at (IncPositions ps cs) i
  | _ => []
  end.

Definition op_size (op : Op) : nat :=
  match op with
  | CounterArrayIncrement _ p | CounterArrayDecrement _ p => Z.to_nat (p + 1)
  | CounterArrayIncrementMulti l | CounterArrayDecrementMulti l => length l
  | CounterArrayIncrementSub _ ps | CounterArrayDecrementSub _ ps => pos_size ps
  | CounterArraySetSize n => Z.to_nat n
  | _ => 0%nat
  end.

Definition all_op_changes (ops : list Op) (i : nat) : list Z := foldr (fun op l => op_changes op i ++ l) [] ops.
Definition all_op_sizes (ops : list Op) : nat := foldr (fun op n => op_size op `max` n)%nat 0%nat ops.

Lemma foldl_isub l : forall x, foldl isub x l = foldl iadd x (Z.opp <$> l).
Proof.
  induction l as [|c l IH]; intros x; [done|]. cbn [fmap list_fmap foldl]. rewrite IH.
  done.
Qed.

Lemma folds_isub s s' n ch : folds 0 isub s s' n ch -> folds 0 iadd s s' n (fun i => Z.opp <$> ch i).
Proof.
  intros [K L A Vs]. split; [done|done|..]; intros i Hi.
  - by rewrite A.
  - by rewrite Vs, foldl_isub.
Qed.

Lemma apply_folds (s : CounterArrayCrdt) op : slice_ok s -> positional op ->
  exists (s' : CounterArrayCrdt) e, applyDownstream s op = Some (s', e) /\ folds 0 iadd s s' (op_size op) (op_changes op).
Proof.
  intros Hs Ho. cbn [applyDownstream array_inversible]. unfold array_applyDownstream.
  destruct op as [n|c p|c p|c|c|l|l|cs ps|cs ps|]; cbn [positional op_size op_changes] in *; try done.
  - destruct (Z.ltb_spec (size_of s) n) as [Hlt|Hge].
    + rewrite (wrapS_id 32 n) by (done || (unfold inS, size_of, MaxInt32 in *; lia)).
      destruct (copy_folds 0 iadd s n Hs Hlt) as (s' & -> & Hf). by eexists _, _.
    + eexists s, _. split; [done|]. destruct (folds_refl 0 iadd s Hs) as [K L A Vs]. unfold size_of in Hge.
      split; [done|lia|done|done].
  - destruct (incSingle_folds 0 iadd s p c Hs Ho) as (s' & -> & Hf). by eexists _, _.
  - destruct (incSingle_folds 0 isub s p c Hs Ho) as (s' & -> & Hf). eexists _, _. split; [done|].
    eapply folds_ext; [by apply folds_isub|done|]. intros i. cbn. unfold at_pos. by case_decide.
  - destruct (incAll_folds 0 iadd s l Hs Ho) as (s' & -> & Hf). by eexists _, _.
  - destruct (incAll_folds 0 iadd s l Hs Ho) as (s' & -> & Hf). by eexists _, _.
  - destruct (incPositions_folds 0 iadd s ps cs Hs Ho) as (s' & -> & Hf). by eexists _, _.
  - destruct (incPositions_folds 0 isub s ps cs Hs Ho) as (s' & -> & Hf). eexists _, _. split; [done|].
    by apply folds_isub.
  - eexists s, _. split; [done|]. by apply folds_refl.
Qed.

Lemma deliver_folds ops : forall s : CounterArrayCrdt, slice_ok s -> Forall positional ops ->
  exists s' : CounterArrayCrdt, deliver s ops = Some s' /\ folds 0 iadd s s' (all_op_sizes ops) (all_op_changes ops).
Proof.
  induction ops as [|op ops IH]; intros s Hs Hops; cbn [deliver].
  { exists s. split; [done|]. by apply folds_refl. }
  apply Forall_cons in Hops as [Hop Hops]. destruct (apply_folds s op Hs Hop) as (s1 & e & -> & Hf1).
  destruct (IH s1) as (s2 & E & Hf2); [apply Hf1|done|]. exists s2. split; [done|]. by eapply folds_trans.
Qed.

Lemma all_op_perm ops1 ops2 : ops1 ≡ₚ ops2 ->
  all_op_sizes ops1 = all_op_sizes ops2 /\ forall i, sum_of (all_op_changes ops1 i) = sum_of (all_op_changes ops2 i).
Proof.
  induction 1 as [|op l1 l2 Hp [IH1 IH2]|a b l|l1 l2 l3 H1 [IH1 IH1'] H2 [IH2 IH2']]; [done|..]; cbn.
  - split; [unfold all_op_sizes in *; lia|]. intros i. rewrite !sum_of_app. f_equal. apply IH2.
  - split; [lia|]. intros i. rewrite !sum_of_app. lia.
  - split; [congruence|]. intros i. by rewrite IH1'.
Qed.

(** Each counter is the sum of the changes at its position, in 64 bits. *)
Definition Spec_counts (ops : list Op) : list Z :=
  (fun i => int64 (sum_of (all_op_changes ops i))) <$> seq 0 (1 `max` all_op_sizes ops)%nat.

Lemma deliver_counts ops : Forall positional ops ->
  exists s : CounterArrayCrdt, deliver Initialize ops = Some s /\ vals s = Spec_counts ops.
Proof.
  intros Hops. destruct (deliver_folds ops Initialize (of_list_ok _) Hops) as (s & E & [Hok Hl _ Hv]).
  exists s. split; [done|]. apply list_eq. intros i. unfold Spec_counts. rewrite list_lookup_fmap.
  cbn [slen Initialize of_list length] in Hl. destruct (decide (i < 1 `max` all_op_sizes ops)%nat) as [Hi|Hi].
  - rewrite lookup_seq_lt, Hv by lia. cbn [fmap option_fmap option_map plus]. f_equal.
    rewrite foldl_iadd; [|by destruct i as [|[|i]]]. by destruct i as [|[|i]].
  - rewrite vals_above by (done || lia). by rewrite lookup_seq_ge by lia.
Qed.

(** Replicas of an array of counters that apply the same updates of given
    positions, in any order, show the same counters: each is the sum of the
    changes at its position, in 64 bits.  (A decrement by a list of changes counts
    as the code applies it, as an increment.) *)
Theorem counter_array_converges (ops1 ops2 : list Op) :
  Forall positional ops1 -> ops1 ≡ₚ ops2 ->
  exists s1 s2 : CounterArrayCrdt, deliver Initialize ops1 = Some s1 /\ deliver Initialize ops2 = Some s2 /\
    vals s1 = Spec_counts ops1 /\ vals s2 = vals s1.
Proof.
  intros H1 Hp. assert (H2 : Forall positional ops2) by by rewrite <- Hp.
  destruct (deliver_counts ops1 H1) as (s1 & E1 & V1). destruct (deliver_counts ops2 H2) as (s2 & E2 & V2).
  exists s1, s2. rewrite V1, V2. repeat split; try done. destruct (all_op_perm ops1 ops2 Hp) as [Hz Hc].
  unfold Spec_counts. rewrite Hz. apply list_fmap_ext. intros i x Hx. by rewrite Hc.
Qed.

Definition ops_example : list Op :=
  [CounterArrayIncrement 5 2; CounterArrayDecrementSub [1; 2] [0; 3]; CounterArrayIncrementMulti [7; 8]; CounterArraySetSize 5].

Lemma counter_array_converges_witness :
  exists s1 s2 : CounterArrayCrdt, deliver Initialize ops_example = Some s1 /\
    deliver Initialize (reverse ops_example) = Some s2 /\ vals s1 = [6; 8; 5; -2; 0] /\ vals s2 = vals s1.
Proof.
  destruct (counter_array_converges ops_example (reverse ops_example)) as (s1 & s2 & E1 & E2 & V1 & V2).
  - unfold ops_example. repeat constructor; cbn; unfold MaxInt32; lia.
  - by rewrite reverse_Permutation.
  - exists s1, s2. rewrite V2, V1. by repeat split.
Defined.

(** ** Undoing *)

Lemma sum_of_opp l : sum_of (Z.opp <$> l) = - sum_of l.
Proof. induction l as [|x l IH]; [done|]. cbn. fold (sum_of (Z.opp <$> l)) (sum_of l). lia. Qed.

(** What is folded in and out again, up to the old size. *)
Lemma folds_cancel (s s1 s2 : Slice Z) n m c1 c2 : slice_ok s -> Forall (inS 64) (vals s) ->
  folds 0 iadd s s1 n c1 -> folds 0 iadd s1 s2 m c2 -> (forall i, (i < slen s)%nat -> sum_of (c1 i) + sum_of (c2 i) = 0) ->
  slice_ok s2 /\ (slen s <= slen s2)%nat /\ take (slen s) (vals s2) = vals s.
Proof.
  intros Hs Hr H1 H2 Hc. destruct (folds_trans _ _ _ _ _ _ _ _ _ H1 H2) as [Hok Hl _ Hv].
  split; [done|]. split; [lia|]. apply list_eq. intros i. destruct (decide (i < slen s)%nat) as [Hi|Hi].
  - rewrite lookup_take_lt, Hv by lia.
    destruct (lookup_lt_is_Some_2 (vals s) i) as [x Hx]; [by rewrite vals_length|]. rewrite Hx. cbn [default].
    assert (Hin : inS 64 x) by by eapply Forall_lookup_1.
    rewrite foldl_iadd, sum_of_app, Hc, Z.add_0_r, wrapS_id; done.
  - rewrite lookup_take_ge by lia. by rewrite vals_above by (done || lia).
Qed.

Lemma trunc_shown (s s2 : Slice Z) : slice_ok s2 -> (slen s <= slen s2)%nat -> take (slen s) (vals s2) = vals s ->
  exists s3, strunc s2 (size_of s) = Some s3 /\ vals s3 = vals s.
Proof.
  intros Hok Hl Ht. unfold strunc, size_of, slice_ok in *.
  rewrite (proj2 (Z.leb_le 0 _)), (proj2 (Z.leb_le _ _)) by lia. eexists. split; [done|].
  unfold vals in *. cbn [arr slen]. rewrite Nat2Z.id. by rewrite take_take, Nat.min_l in Ht by lia.
Qed.

Lemma mapAll_folds add (s : Slice Z) c : slice_ok s ->
  exists s', mapAll (fun x => add x c) s = Some s' /\
    folds 0 add s s' (slen s) (fun i => if decide (i < slen s)%nat then [c] else []).
Proof.
  intros Hs. unfold mapAll, loopRange. replace (size_of s - 1 - 0 + 1) with (Z.of_nat (slen s)) by (unfold size_of; lia).
  destruct (loopRange_folds 0 add (slen s) c s 0 Hs) as (s' & -> & Hf); [lia|unfold size_of; lia|].
  exists s'. split; [done|]. eapply folds_ext; [done|lia|]. intros i. cbn beta.
  destruct (decide (i < slen s)%nat); [by rewrite decide_True by lia|by rewrite decide_False by lia].
Qed.

Lemma loopPos_in_range add ps : forall (s : Slice Z) cs, slice_ok s ->
  Forall (fun p => 0 <= p < size_of s) ps -> loopPos add s ps cs = incPos 0 add s ps cs.
Proof.
  induction ps as [|p ps IH]; intros s cs Hs Hp; [by destruct cs|]. destruct cs as [|c cs]; [done|].
  apply Forall_cons in Hp as [Hp Hps]. cbn [loopPos incPos]. rewrite incSingle_in_range by done.
  destruct (smod_ok (fun x => add x c) s p Hs) as (s1 & -> & Hok & Hl & _); [done|]. cbn [mbind option_bind].
  apply IH; [done|]. unfold size_of in *. by rewrite Hl.
Qed.

Lemma loopSub_folds add (s : Slice Z) cs ps : slice_ok s -> upd_ok (IncPositions ps cs) ->
  (pos_size ps <= slen s)%nat ->
  exists s', loopSub add s cs ps = Some s' /\ folds 0 add s s' (pos_size ps) (changes_at (IncPositions ps cs)).
Proof.
  intros Hs Hu Hp. destruct (incPositions_folds 0 add s ps cs Hs Hu) as (s' & E & Hf). exists s'. split; [|done].
  assert (Hr : Forall (fun p => 0 <= p < size_of s) ps).
  { destruct Hu as [Hpos _]. clear -Hpos Hp. induction ps as [|p ps IH]; [done|].
    apply Forall_cons in Hpos as [Hp1 Hps].
    change (pos_size (p :: ps)) with (Z.to_nat (p + 1) `max` pos_size ps)%nat in Hp.
    constructor; [unfold size_of; lia|]. apply IH; [done|]. lia. }
  unfold incPositions, loopSub in *. destruct (is_one cs); [destruct (head cs); [cbn [mbind option_bind] in *|done]|];
    by rewrite loopPos_in_range.
Qed.

(** Updates whose effects are undone as they are applied. *)
Definition undoable (s : CounterArrayCrdt) (op : Op) : Prop :=
  match op with
  | CounterArrayIncrementAll _ | CounterArrayDecrementAll _ => True
  | CounterArrayDecrementMulti l => (length l <= slen s)%nat /\ Z.of_nat (length l) <= MaxInt32
  | _ => positional op
  end.

Lemma undo_in_place (s s1 s2 : Slice Z) n c1 c2 : slice_ok s -> Forall (inS 64) (vals s) ->
  folds 0 iadd s s1 n c1 -> folds 0 iadd s1 s2 n c2 -> (forall i, sum_of (c1 i) + sum_of (c2 i) = 0) ->
  (n <= slen s)%nat -> vals s2 = vals s.
Proof.
  intros Hs Hr H1 H2 Hc Hn. destruct (folds_cancel s s1 s2 n n c1 c2 Hs Hr H1 H2 (fun i _ => Hc i)) as (Hok & Hl & <-).
  rewrite take_ge; [done|]. rewrite vals_length by done. destruct H1 as [_ L1 _ _], H2 as [_ L2 _ _]. lia.
Qed.

Lemma undo_with_size (s s1 s2 : Slice Z) n c1 c2 : slice_ok s -> Forall (inS 64) (vals s) ->
  folds 0 iadd s s1 n c1 -> folds 0 iadd s1 s2 n c2 -> (forall i, sum_of (c1 i) + sum_of (c2 i) = 0) ->
  exists s3, trunc_if s2 (old_if s s1) = Some s3 /\ vals s3 = vals s.
Proof.
  intros Hs Hr H1 H2 Hc. unfold old_if. destruct (Nat.eqb_spec (slen s) (slen s1)) as [E|E].
  - exists s2. split; [done|]. eapply (undo_in_place s s1 s2 n); try done. destruct H1 as [_ L1 _ _]. lia.
  - destruct (folds_cancel s s1 s2 n n c1 c2 Hs Hr H1 H2 (fun i _ => Hc i)) as (Hok & Hl & Ht). by apply trunc_shown.
Qed.

Lemma sum_cancel l : sum_of l + sum_of (Z.opp <$> l) = 0.
Proof. rewrite sum_of_opp. lia. Qed.

Lemma sum_cancel' l : sum_of (Z.opp <$> l) + sum_of l = 0.
Proof. rewrite sum_of_opp. lia. Qed.


(** Growing is undone by cutting, when nothing else is changed. *)
Lemma undo_growth (s s1 : Slice Z) n c : slice_ok s -> Forall (inS 64) (vals s) -> folds 0 iadd s s1 n c ->
  (forall i, (i < slen s)%nat -> c i = []) -> exists s3, strunc s1 (size_of s) = Some s3 /\ vals s3 = vals s.
Proof.
  intros Hs Hr H1 Hc. destruct (folds_cancel s s1 s1 n 0 c (fun _ => []) Hs Hr H1) as (Hok & Hl & Ht).
  - apply folds_refl, H1.
  - intros i Hi. by rewrite Hc.
  - by apply trunc_shown.
Qed.

Lemma smod_isub_folds (s : Slice Z) p c : slice_ok s -> 0 <= p < size_of s ->
  exists s', smod (fun x => isub x c) s p = Some s' /\ folds 0 iadd s s' (Z.to_nat (p + 1)) (at_pos p [- c]).
Proof.
  intros Hs Hp. destruct (smod_folds 0 isub s p c Hs Hp) as (s' & -> & Hf). exists s'. split; [done|].
  eapply folds_ext; [by apply folds_isub|done|]. intros i. cbn. unfold at_pos. by case_decide.
Qed.

(** One counter: cut if it was added, changed back if not. *)
Lemma undo_single (s s1 : Slice Z) p c d : slice_ok s -> Forall (inS 64) (vals s) -> 0 <= p -> c + d = 0 ->
  folds 0 iadd s s1 (Z.to_nat (p + 1)) (at_pos p [c]) ->
  if size_of s <=? p then exists s3, strunc s1 (size_of s) = Some s3 /\ vals s3 = vals s
  else forall s2, folds 0 iadd s1 s2 (Z.to_nat (p + 1)) (at_pos p [d]) -> vals s2 = vals s.
Proof.
  intros Hs Hr Hp Hcd Hf. destruct (Z.leb_spec (size_of s) p) as [Hge|Hlt].
  - apply (undo_growth s s1 _ _ Hs Hr Hf). intros i Hi. unfold at_pos. rewrite decide_False; [done|].
    unfold size_of in Hge. lia.
  - intros s2 H2. apply (undo_in_place s s1 s2 _ _ _ Hs Hr Hf H2); [|unfold size_of in Hlt; lia].
    intros i. unfold at_pos. case_decide; [|done]. unfold sum_of. cbn. lia.
Qed.

Lemma undo_multi (s s1 : Slice Z) l : slice_ok s -> Forall (inS 64) (vals s) ->
  folds 0 iadd s s1 (length l) (fun i => option_list (l !! i)) ->
  exists s2 s3, loopAll isub s1 0 l = Some s2 /\
    trunc_if s2 (if (slen s <? length l)%nat then Some (size_of s) else None) = Some s3 /\ vals s3 = vals s.
Proof.
  intros Hs Hr Hf. pose proof Hf as [Hok Hl _ _].
  destruct (loopAll_folds 0 isub l s1 0 Hok) as (s2 & E & H2); [lia|unfold size_of; lia|].
  exists s2. rewrite E. apply folds_isub in H2.
  assert (Hold : (if (slen s <? length l)%nat then Some (size_of s) else None) = old_if s s1).
  { unfold old_if. destruct (Nat.ltb_spec (slen s) (length l)), (Nat.eqb_spec (slen s) (slen s1)); done || lia. }
  rewrite Hold. destruct (undo_with_size s s1 s2 (length l) _ _ Hs Hr Hf H2) as (s3 & E3 & V3).
  - intros i. cbn beta. rewrite decide_True, Nat.sub_0_r by lia. apply sum_cancel.
  - by exists s3.
Qed.

Lemma undo_sub sub (s s1 : Slice Z) cs ps c1 c2 : slice_ok s -> Forall (inS 64) (vals s) ->
  upd_ok (IncPositions ps cs) -> folds 0 iadd s s1 (pos_size ps) c1 ->
  (forall s2, folds 0 sub s1 s2 (pos_size ps) (changes_at (IncPositions ps cs)) -> folds 0 iadd s1 s2 (pos_size ps) c2) ->
  (forall i, sum_of (c1 i) + sum_of (c2 i) = 0) ->
  exists s2 s3, loopSub sub s1 cs ps = Some s2 /\ trunc_if s2 (old_if s s1) = Some s3 /\ vals s3 = vals s.
Proof.
  intros Hs Hr Hu Hf Hc2 Hc. pose proof Hf as [Hok Hl _ _].
  destruct (loopSub_folds sub s1 cs ps Hok Hu) as (s2 & E & H2); [lia|].
  destruct (undo_with_size s s1 s2 (pos_size ps) _ _ Hs Hr Hf (Hc2 s2 H2) Hc) as (s3 & E3 & V3). by exists s2, s3.
Qed.
(** Undoing the effect of an update of an array of counters, as reads of older
    versions do, gives back the counters that were there and their number: for all
    updates except a decrement by a list of changes that makes the array grow
    ([decrement_multi_undo_adds]). *)
Theorem counter_array_undo (s : CounterArrayCrdt) (op : Op) :
  slice_ok s -> Forall (inS 64) (vals s) -> undoable s op ->
  exists (s1 s2 : CounterArrayCrdt) e, applyDownstream s op = Some (s1, e) /\ undoEffect s1 e = Some s2 /\
    vals s2 = vals s.
Proof.
  intros Hs Hr Hu. cbn [applyDownstream undoEffect array_inversible]. unfold array_applyDownstream.
  destruct op as [n|c p|c p|c|c|l|l|cs ps|cs ps|]; cbn [undoable positional] in Hu.
  - destruct (Z.ltb_spec (size_of s) n) as [Hlt|Hge]; [|by exists s, s; eexists].
    rewrite (wrapS_id 32 n) by (done || (unfold inS, size_of, MaxInt32 in *; lia)).
    destruct (copy_folds 0 iadd s n Hs Hlt) as (s1 & -> & Hf).
    destruct (undo_growth s s1 _ _ Hs Hr Hf) as (s3 & E & V); [done|]. by eexists _, s3, _.
  - destruct (incSingle_folds 0 iadd s p c Hs Hu) as (s1 & -> & Hf).
    pose proof (undo_single s s1 p c (- c) Hs Hr ltac:(lia) ltac:(lia) Hf) as Hun. cbn [mbind option_bind].
    destruct (Z.leb_spec (size_of s) p) as [Hge|Hlt].
    + destruct Hun as (s3 & E & V). by eexists _, s3, _.
    + pose proof Hf as [Hok Hl _ _].
      destruct (smod_isub_folds s1 p c Hok) as (s2 & E & H2); [unfold size_of in *; lia|].
      eexists _, s2, _. split; [done|]. split; [exact E|]. by apply Hun.
  - destruct (incSingle_folds 0 isub s p c Hs Hu) as (s1 & -> & Hf).
    assert (Hf' : folds 0 iadd s s1 (Z.to_nat (p + 1)) (at_pos p [- c])).
    { eapply folds_ext; [by apply folds_isub|done|]. intros i. cbn. unfold at_pos. by case_decide. }
    pose proof (undo_single s s1 p (- c) c Hs Hr ltac:(lia) ltac:(lia) Hf') as Hun. cbn [mbind option_bind].
    destruct (Z.leb_spec (size_of s) p) as [Hge|Hlt].
    + destruct Hun as (s3 & E & V). by eexists _, s3, _.
    + pose proof Hf as [Hok Hl _ _].
      destruct (smod_folds 0 iadd s1 p c Hok) as (s2 & E & H2); [unfold size_of in *; lia|].
      eexists _, s2, _. split; [done|]. split; [exact E|]. by apply Hun.
  - destruct (mapAll_folds iadd s c Hs) as (s1 & -> & Hf). pose proof Hf as [Hok Hl _ _].
    destruct (mapAll_folds isub s1 c Hok) as (s2 & E & H2). eexists _, s2, _. split; [done|]. split; [exact E|].
    rewrite Hl, Nat.max_id in H2. apply folds_isub in H2.
    apply (undo_in_place s s1 s2 _ _ _ Hs Hr Hf H2); [|done]. intros i. apply sum_cancel.
  - destruct (mapAll_folds isub s c Hs) as (s1 & -> & Hf). pose proof Hf as [Hok Hl _ _].
    destruct (mapAll_folds iadd s1 c Hok) as (s2 & E & H2). eexists _, s2, _. split; [done|]. split; [exact E|].
    rewrite Hl, Nat.max_id in H2. apply folds_isub in Hf.
    apply (undo_in_place s s1 s2 _ _ _ Hs Hr Hf H2); [|done]. intros i. apply sum_cancel'.
  - destruct (incAll_folds 0 iadd s l Hs Hu) as (s1 & -> & Hf).
    destruct (undo_multi s s1 l Hs Hr Hf) as (s2 & s3 & E2 & E3 & V). eexists _, s3, _. split; [done|].
    split; [|done]. cbn [array_undoEffect mbind option_bind]. by rewrite E2.
  - destruct Hu as [Hle Hl]. destruct (incAll_folds 0 iadd s l Hs Hl) as (s1 & -> & Hf).
    destruct (undo_multi s s1 l Hs Hr Hf) as (s2 & s3 & E2 & E3 & V). rewrite (proj2 (Nat.ltb_ge _ _)) in E3 |- * by done.
    eexists _, s3, _. split; [done|]. split; [|done]. cbn [array_undoEffect mbind option_bind]. by rewrite E2.
  - destruct (incPositions_folds 0 iadd s ps cs Hs Hu) as (s1 & -> & Hf).
    destruct (undo_sub isub s s1 cs ps _ _ Hs Hr Hu Hf (fun s2 => folds_isub s1 s2 _ _)) as (s2 & s3 & E2 & E3 & V).
    { intros i. apply sum_cancel. }
    eexists _, s3, _. split; [done|]. split; [|done]. cbn [array_undoEffect mbind option_bind]. by rewrite E2.
  - destruct (incPositions_folds 0 isub s ps cs Hs Hu) as (s1 & -> & Hf). apply folds_isub in Hf.
    destruct (undo_sub iadd s s1 cs ps _ _ Hs Hr Hu Hf (fun s2 H => H)) as (s2 & s3 & E2 & E3 & V).
    { intros i. apply sum_cancel'. }
    eexists _, s3, _. split; [done|]. split; [|done]. cbn [array_undoEffect mbind option_bind]. by rewrite E2.
  - by exists s, s; eexists.
Qed.

Lemma counter_array_undo_witness :
  exists (s1 s2 : CounterArrayCrdt) e, applyDownstream (of_list [1; 2]) (CounterArrayIncrementSub [5] [0; 4]) = Some (s1, e) /\
    vals s1 = [6; 2; 0; 0; 5] /\ undoEffect s1 e = Some s2 /\ vals s2 = [1; 2].
Proof.
  destruct (counter_array_undo (of_list [1; 2]) (CounterArrayIncrementSub [5] [0; 4])) as (s1 & s2 & e & E1 & E2 & V).
  - apply of_list_ok.
  - by repeat constructor.
  - cbn. unfold MaxInt32. split; [repeat constructor; lia|by left].
  - exists s1, s2, e. split; [done|]. split; [|done]. vm_compute in E1. by injection E1 as <- <-.
Defined.

(** The exception: what is undone is added once more. *)
Lemma decrement_multi_undo_adds :
  deliver (of_list [10] : CounterArrayCrdt) [CounterArrayDecrementMulti [1; 2]] = Some (of_list [11; 2]) /\
  array_undoEffect (of_list [11; 2]) (Some (DecrementMultiEffect [1; 2] (Some 1))) = Some (mkSlice [12; 4] 1).
Proof. split; by vm_compute. Qed.

(** ** Decrements *)

(** A client that decrements a counter of an array increments it: the server
    reads the message as an increment by the same amount.  A decrement of all
    counters reaches the server as it is, which subtracts; the other replicas add,
    and differ from it by twice the amount for ever. *)
Theorem array_decrements_are_lost (s : CounterArrayCrdt) c p :
  slice_ok s -> 0 < c < 2 ^ 63 ->
  (ToUpdateObject (CounterArrayDecrement c p) ≫= updateArrayCounterProtoToAntidoteUpdate) = Some (CounterArrayIncrement c p) /\
  (ToUpdateObject (CounterArrayDecrementAll c) ≫= updateArrayCounterProtoToAntidoteUpdate) = Some (CounterArrayDecrementAll c) /\
  exists op (s1 s2 : CounterArrayCrdt),
    downstreamProtoCounterArrayToAntidoteDownstream <$> ToReplicatorObj (CounterArrayDecrementAll c) = Some op /\
    deliver s [CounterArrayDecrementAll c] = Some s1 /\ deliver s [op] = Some s2 /\
    forall i x, vals s !! i = Some x -> vals s1 !! i = Some (isub x c) /\ vals s2 !! i = Some (iadd x c).
Proof.
  intros Hs Hc. assert (Hn : ineg c = - c) by (unfold ineg; apply wrapS_id; [done|unfold inS; lia]).
  assert (Hnn : ineg (- c) = c) by (unfold ineg; rewrite Z.opp_involutive; apply wrapS_id; [done|unfold inS; lia]).
  cbn [ToUpdateObject mbind option_bind updateArrayCounterProtoToAntidoteUpdate]. rewrite Hn, Hnn.
  rewrite (proj2 (Z.leb_gt 0 (- c))) by lia. split; [done|]. split; [done|].
  destruct (mapAll_folds isub s c Hs) as (s1 & E1 & H1). destruct (mapAll_folds isub s (- c) Hs) as (s2 & E2 & H2).
  exists (CounterArrayDecrementAll (- c)), s1, s2. split; [cbn; by rewrite Hn|].
  cbn [deliver applyDownstream array_inversible]. unfold array_applyDownstream. rewrite E1, E2. split; [done|]. split; [done|].
  intros i x Hx. apply lookup_lt_Some in Hx as Hi. rewrite vals_length in Hi by done.
  destruct H1 as [_ L1 _ V1], H2 as [_ L2 _ V2]. rewrite V1, V2, Hx by lia. rewrite !decide_True by done. cbn.
  split; [done|]. unfold isub, iadd. do 2 f_equal. lia.
Qed.

Lemma array_decrements_are_lost_witness :
  (ToUpdateObject (CounterArrayDecrement 3 0) ≫= updateArrayCounterProtoToAntidoteUpdate) = Some (CounterArrayIncrement 3 0) /\
  exists op (s1 s2 : CounterArrayCrdt), deliver (of_list [10]) [CounterArrayDecrementAll 3] = Some s1 /\
    deliver (of_list [10]) [op] = Some s2 /\ vals s1 !! 0%nat = Some 7 /\ vals s2 !! 0%nat = Some 13.
Proof.
  destruct (array_decrements_are_lost (of_list [10]) 3 0) as (H & _ & op & s1 & s2 & _ & E1 & E2 & V).
  - apply of_list_ok.
  - lia.
  - split; [done|]. exists op, s1, s2. split; [done|]. split; [done|]. by apply (V 0%nat 10).
Defined.
