(* ===== verification/Causal.v ===== *)
(** * Delivery in causal order

    An event is what a replica applies at once: the operations of one
    transaction.  [hb] is the happened-before relation of the events.  Replicas
    that apply the same events, each in an order that respects [hb]
    ([linear]), agree when the operations of unordered events commute
    ([linear_agree]); states are compared with an equivalence [sim]. *)

From S2P Require Import Prelude.
From Stdlib Require Import ZArith Lia Bool Permutation.
From stdpp Require Import base tactics numbers sets list.

Section run.
Context {Op St : Type} (apply : Op -> St -> option St).

Fixpoint run (ops : list Op) (s : St) : option St :=
  match ops with
  | [] => Some s
  | op :: rest => s ← apply op s; run rest s
  end.

Lemma run_app ops1 ops2 s : run (ops1 ++ ops2) s = (s ← run ops1 s; run ops2 s).
Proof.
  revert s. induction ops1 as [|op ops1 IH]; intros s; simpl; [done|].
  destruct (apply op s); simpl; [apply IH|done].
Qed.
End run.

Section order.
Context {Id Op : Type} (hb : Id -> Id -> Prop).
Abbreviation Event := (Id * list Op)%type.

Definition ops_of (H : list Event) : list Op := concat H.*2.

(** No event is applied before one that happened before it. *)
Inductive linear : list Event -> Prop :=
  | linear_nil : linear []
  | linear_cons e H :
      e.1 ∉ H.*1 -> Forall (fun e' => ~ hb e'.1 e.1) (e :: H) -> linear H -> linear (e :: H).

Lemma linear_irrefl e H : linear H -> e ∈ H -> ~ hb e.1 e.1.
Proof.
  induction 1 as [|e' H Hn Hf Hl IH]; [by intros ?%not_elem_of_nil|].
  intros [->|He]%elem_of_cons; [by inversion Hf|by apply IH].
Qed.

Lemma linear_NoDup H : linear H -> NoDup H.*1.
Proof. induction 1; simpl; constructor; auto. Qed.

Lemma linear_app H1 H2 :
  linear (H1 ++ H2) <->
  linear H1 /\ linear H2 /\ (forall e1 e2, e1 ∈ H1 -> e2 ∈ H2 -> e1.1 <> e2.1 /\ ~ hb e2.1 e1.1).
Proof.
  induction H1 as [|e H1 IH]; simpl.
  - split; [|by intros (_ & ? & _)]. intros Hl.
    split_and!; [constructor|done|by intros ?? ?%not_elem_of_nil].
  - split.
    + intros Hl. inversion Hl as [|? ? Hn Hf Hl']; subst. apply IH in Hl' as (H1' & H2' & Hc).
      rewrite fmap_app in Hn. rewrite app_comm_cons in Hf. apply Forall_app in Hf as [Hf1 Hf2].
      split_and!; [constructor; [set_solver|done|done]|done|].
      intros e1 e2 [->|He1]%elem_of_cons He2; [|by apply Hc].
      split; [|by rewrite Forall_forall in Hf2; apply Hf2].
      intros Heq. apply Hn. rewrite elem_of_app. right. rewrite Heq. by apply list_elem_of_fmap_2.
    + intros (H1' & H2' & Hc). inversion H1' as [|? ? Hn Hf Hl']; subst. constructor.
      * rewrite fmap_app, not_elem_of_app. split; [done|].
        intros (e2 & Heq & He2)%list_elem_of_fmap.
        destruct (Hc e e2) as [Hne _]; [set_solver|done|]. by rewrite Heq in Hne.
      * rewrite app_comm_cons. apply Forall_app. split; [done|]. apply Forall_forall. intros e2 He2.
        apply (Hc e e2); [set_solver|done].
      * apply IH. split_and!; [done|done|]. intros e1 e2 He1 He2. apply Hc; [set_solver|done].
Qed.

Lemma linear_delete H1 e H2 : linear (H1 ++ e :: H2) -> linear (H1 ++ H2).
Proof.
  intros (? & Hl & Hc)%linear_app. inversion Hl; subst.
  apply linear_app. split_and!; [done|done|]. intros e1 e2 ??. apply Hc; set_solver.
Qed.

Lemma ops_of_cons e H : ops_of (e :: H) = e.2 ++ ops_of H.
Proof. done. Qed.
Lemma ops_of_app H1 H2 : ops_of (H1 ++ H2) = ops_of H1 ++ ops_of H2.
Proof. unfold ops_of. by rewrite fmap_app, concat_app. Qed.

Lemma elem_of_ops_of H o : o ∈ ops_of H <-> exists e, e ∈ H /\ o ∈ e.2.
Proof.
  induction H as [|e H IH]; [unfold ops_of; simpl; set_solver|].
  rewrite ops_of_cons, elem_of_app, IH. set_solver.
Qed.

Lemma ops_of_perm H1 H2 : H1 ≡ₚ H2 -> ops_of H1 ≡ₚ ops_of H2.
Proof.
  induction 1 as [|e l1 l2 _ IH|a b l|l1 l2 l3 _ IH1 _ IH2]; [done|..].
  - rewrite !ops_of_cons. by rewrite IH.
  - rewrite !ops_of_cons, !app_assoc. by rewrite (Permutation_app_comm a.2).
  - by rewrite IH1.
Qed.
End order.

Section agree.
Context {Id Op St : Type} (hb : Id -> Id -> Prop) (apply : Op -> St -> option St).
Context (sim : St -> St -> Prop) `{!Equivalence sim}.
(** The states and operations for which the laws hold. *)
Context (ok : St -> Prop) (okop : Op -> Prop) (compat : Op -> Op -> Prop).
Context (apply_ok : forall o s, ok s -> okop o -> exists s', apply o s = Some s' /\ ok s').
Context (apply_sim : forall o s1 s2 s1' s2', ok s1 -> ok s2 -> okop o -> sim s1 s2 ->
  apply o s1 = Some s1' -> apply o s2 = Some s2' -> sim s1' s2').
Context (apply_comm : forall a b s s1 s2, ok s -> okop a -> okop b -> compat a b ->
  run apply [a; b] s = Some s1 -> run apply [b; a] s = Some s2 -> sim s1 s2).
Abbreviation Event := (Id * list Op)%type.
Abbreviation run := (run apply).

Lemma run_ok ops s : ok s -> Forall okop ops -> exists s', run ops s = Some s' /\ ok s'.
Proof using apply_ok.
  revert s. induction ops as [|o ops IH]; intros s Hs Ho; simpl; [by exists s|].
  inversion Ho; subst. destruct (apply_ok o s) as (s' & -> & ?); [done..|]. by apply IH.
Qed.

Lemma run_sim ops s1 s2 s1' s2' :
  ok s1 -> ok s2 -> Forall okop ops -> sim s1 s2 ->
  run ops s1 = Some s1' -> run ops s2 = Some s2' -> sim s1' s2'.
Proof using apply_ok apply_sim.
  revert s1 s2. induction ops as [|o ops IH]; simpl; intros s1 s2 Hs1 Hs2 Ho Hs E1 E2.
  - by simplify_eq.
  - inversion Ho; subst.
    destruct (apply_ok o s1) as (t1 & Ht1 & ?), (apply_ok o s2) as (t2 & Ht2 & ?); try done.
    rewrite Ht1 in E1. rewrite Ht2 in E2. simpl in *. apply (IH t1 t2); try done.
    by apply (apply_sim o s1 s2).
Qed.

(** An operation moves over a list of operations that it commutes with. *)
Lemma run_move o ops s s1 s2 :
  ok s -> okop o -> Forall okop ops -> Forall (fun x => compat x o) ops ->
  run (ops ++ [o]) s = Some s1 -> run (o :: ops) s = Some s2 -> sim s1 s2.
Proof using Equivalence0 apply_ok apply_sim apply_comm.
  revert s s1 s2. induction ops as [|x ops IH]; intros s s1 s2 Hs Ho Hops Hc E1 E2.
  - simpl in *. rewrite E1 in E2. by simplify_eq.
  - inversion Hops; inversion Hc; subst.
    destruct (apply_ok x s) as (sx & Hx & ?); [done..|].
    destruct (run_ok (o :: ops) sx) as (t & Ht & ?); [done|by constructor|].
    simpl in E1. rewrite Hx in E1. simpl in E1.
    trans t; [by apply (IH sx)|].
    destruct (run_ok [x; o] s) as (sxo & Hxo & ?); [done|by repeat constructor|].
    destruct (run_ok [o; x] s) as (sox & Hox & ?); [done|by repeat constructor|].
    assert (run ops sxo = Some t) as Et.
    { simpl in Hxo, Ht. rewrite Hx in Hxo. simpl in Hxo.
      destruct (apply o sx); simpl in *; [by simplify_eq|done]. }
    assert (run ops sox = Some s2) as E2'.
    { simpl in Hox, E2. destruct (apply o s) as [so|]; simpl in *; [|done].
      destruct (apply x so); simpl in *; [by simplify_eq|done]. }
    apply (run_sim ops sxo sox); try done. by apply (apply_comm x o s).
Qed.

Lemma run_move_list os ops s s1 s2 :
  ok s -> Forall okop os -> Forall okop ops ->
  (forall o x, o ∈ os -> x ∈ ops -> compat x o) ->
  run (ops ++ os) s = Some s1 -> run (os ++ ops) s = Some s2 -> sim s1 s2.
Proof using Equivalence0 apply_ok apply_sim apply_comm.
  revert s s1 s2. induction os as [|o os IH]; intros s s1 s2 Hs Hos Hops Hc E1 E2.
  - rewrite app_nil_r in E1. simpl in E2. by simplify_eq.
  - inversion Hos; subst.
    destruct (run_ok (o :: ops) s) as (t & Ht & Htok); [done|by constructor|].
    destruct (run_ok (ops ++ [o]) s) as (t' & Ht' & Ht'ok); [done|by apply Forall_app; repeat constructor|].
    assert (sim t' t) as Htt.
    { apply (run_move o ops s); try done. apply Forall_forall. intros x Hx. apply Hc; set_solver. }
    replace (ops ++ o :: os) with ((ops ++ [o]) ++ os) in E1 by by rewrite <- app_assoc.
    rewrite run_app, Ht' in E1. simpl in E1, Ht, E2.
    destruct (apply o s) as [so|] eqn:Eo; simpl in *; [|done].
    destruct (apply_ok o s) as (? & ? & ?); [done..|]. simplify_eq.
    destruct (run_ok (ops ++ os) so) as (u & Hu & ?); [done|by apply Forall_app|].
    trans u.
    + rewrite run_app, Ht in Hu. simpl in Hu. by apply (run_sim os t' t).
    + apply (IH so); try done. intros; apply Hc; set_solver.
Qed.

Lemma linear_agree (H1 H2 : list Event) s1 s2 s1' s2' :
  H1 ≡ₚ H2 -> linear hb H1 -> linear hb H2 ->
  Forall okop (ops_of H1) ->
  (forall e e' a b, e ∈ H1 -> e' ∈ H1 -> ~ hb e.1 e'.1 -> ~ hb e'.1 e.1 -> e.1 <> e'.1 ->
     a ∈ e.2 -> b ∈ e'.2 -> compat a b) ->
  ok s1 -> ok s2 -> sim s1 s2 ->
  run (ops_of H1) s1 = Some s1' -> run (ops_of H2) s2 = Some s2' -> sim s1' s2'.
Proof using Equivalence0 apply_ok apply_sim apply_comm.
  revert H2 s1 s2 s1' s2'. induction H1 as [|e H1 IH]; intros H2 s1 s2 s1' s2' Hp Hl1 Hl2 Ho Hc Hs1 Hs2 Hs E1 E2.
  - apply Permutation_nil in Hp as ->. simpl in *. by simplify_eq.
  - assert (e ∈ H2) as (pre & post & ->)%list_elem_of_split by (rewrite <- Hp; set_solver).
    assert (H1 ≡ₚ pre ++ post) as Hp'.
    { apply (Permutation_cons_inv (a := e)). by rewrite Hp, Permutation_middle. }
    inversion Hl1 as [|? ? Hn Hf Hl1']; subst.
    apply linear_app in Hl2 as Hl2'. destruct Hl2' as (_ & _ & Hcross).
    rewrite ops_of_cons in *. apply Forall_app in Ho as [Hoe HoH].
    assert (Forall okop (ops_of (pre ++ post))) as Hopp by by rewrite <- (ops_of_perm _ _ Hp').
    rewrite ops_of_app in Hopp. apply Forall_app in Hopp as [Hopre Hopost].
    rewrite run_app in E1. destruct (run_ok e.2 s1) as (t1 & Ht1 & ?); [done..|].
    rewrite Ht1 in E1. simpl in E1.
    destruct (run_ok e.2 s2) as (t2 & Ht2 & ?); [done..|].
    destruct (run_ok (ops_of (pre ++ post)) t2) as (u & Hu & ?); [done|by rewrite ops_of_app; apply Forall_app|].
    trans u.
    + apply (IH (pre ++ post) t1 t2); try done.
      * by apply linear_delete in Hl2.
      * intros e1 e2 a b He1 He2. apply Hc; set_solver.
      * by apply (run_sim e.2 s1 s2).
    + rewrite ops_of_app, ops_of_cons, app_assoc, run_app in E2.
      rewrite ops_of_app, run_app in Hu.
      destruct (run_ok (ops_of pre ++ e.2) s2) as (v & Hv & ?); [done|by apply Forall_app|].
      destruct (run_ok (e.2 ++ ops_of pre) s2) as (v' & Hv' & ?); [done|by apply Forall_app|].
      rewrite Hv in E2. simpl in E2. rewrite run_app, Ht2 in Hv'. simpl in Hv'. rewrite Hv' in Hu.
      simpl in Hu. symmetry. apply (run_sim (ops_of post) v v'); try done.
      apply (run_move_list e.2 (ops_of pre) s2); try done.
      * intros o x Hxo (e' & He' & Hx)%elem_of_ops_of.
        assert (e' ∈ e :: H1) as Hin by (rewrite Hp; set_solver).
        assert (e' ∈ H1) as Hin' by (rewrite Hp'; set_solver).
        destruct (Hcross e' e) as [Hne Hnhb]; [done|set_solver|].
        apply (Hc e' e); try done; [set_solver|].
        rewrite Forall_forall in Hf. apply Hf. set_solver.
      * rewrite run_app, Ht2. by simpl.
Qed.
End agree.

(** ** A system of replicas

    A replica issues a transaction, which it prepares from what it has applied
    and applies at once, or applies a transaction of another replica when it has
    applied everything that its issuer had ([deps]).  [issue r before ops]:
    replica [r] may issue [ops] when it has applied [before]. *)

Record TxnId := mkTxnId { origin : Z; seqNo : nat; deps : list (Z * nat) }.
#[export] Instance TxnId_eq_dec : EqDecision TxnId.
Proof. solve_decision. Defined.

Definition txnKey (i : TxnId) : Z * nat := (origin i, seqNo i).

(** The issuer of [b] had applied [a]. *)
Definition happened_before (a b : TxnId) : Prop := txnKey a ∈ deps b.

Section system.
Context {Op : Type} (issue : Z -> list Op -> list Op -> Prop).
Abbreviation Event := (TxnId * list Op)%type.
Abbreviation hb := happened_before.

Definition keys (H : list Event) : list (Z * nat) := (fun e => txnKey e.1) <$> H.

(** What each replica has applied, in order. *)
Definition Logs : Type := Z -> list Event.

Definition append (logs : Logs) (r : Z) (e : Event) : Logs :=
  fun q => if decide (q = r) then logs q ++ [e] else logs q.

Inductive reachable : Logs -> Prop :=
  | reach_init : reachable (fun _ => [])
  | reach_issue logs r ops :
      reachable logs -> issue r (ops_of (logs r)) ops ->
      reachable (append logs r (mkTxnId r (length (logs r)) (keys (logs r)), ops))
  | reach_deliver logs r q e :
      reachable logs -> e ∈ logs q -> e ∉ logs r ->
      (forall k, k ∈ deps e.1 -> k ∈ keys (logs r)) ->
      reachable (append logs r e).

Record wf_logs (logs : Logs) : Prop := {
  w_home r e : e ∈ logs r -> e ∈ logs (origin e.1);
  w_closed r e k : e ∈ logs r -> k ∈ deps e.1 -> k ∈ keys (logs r);
  w_issued o e : e ∈ logs o -> origin e.1 = o -> exists pre post,
    logs o = pre ++ e :: post /\ e.1 = mkTxnId o (length pre) (keys pre) /\ issue o (ops_of pre) e.2;
  w_linear r : linear hb (logs r)
}.

Lemma elem_of_txnKeys k H : k ∈ keys H <-> exists e, e ∈ H /\ txnKey e.1 = k.
Proof. unfold keys. rewrite list_elem_of_fmap. naive_solver. Qed.

Lemma keys_app H1 H2 : keys (H1 ++ H2) = keys H1 ++ keys H2.
Proof. apply fmap_app. Qed.

Lemma elem_of_append logs r e q x :
  x ∈ append logs r e q <-> x ∈ logs q \/ (q = r /\ x = e).
Proof.
  unfold append. destruct (decide (q = r)) as [->|Hne].
  - rewrite elem_of_app, list_elem_of_singleton. naive_solver.
  - naive_solver.
Qed.

Lemma append_eq logs r e : append logs r e r = logs r ++ [e].
Proof. unfold append. by rewrite decide_True. Qed.
Lemma append_ne logs r e q : q <> r -> append logs r e q = logs q.
Proof. intros. unfold append. by rewrite decide_False. Qed.

(** A transaction is known by its issuer and its number. *)
Lemma txnKey_inj logs r1 r2 e1 e2 :
  wf_logs logs -> e1 ∈ logs r1 -> e2 ∈ logs r2 -> txnKey e1.1 = txnKey e2.1 -> e1 = e2.
Proof.
  intros Hw H1%(w_home _ Hw) H2%(w_home _ Hw) [= Ho Hs]. rewrite Ho in H1.
  destruct (w_issued _ Hw _ _ H1) as (pre1 & post1 & E1 & Hi1 & _); [done|].
  destruct (w_issued _ Hw _ _ H2) as (pre2 & post2 & E2 & Hi2 & _); [done|].
  rewrite Hi1, Hi2 in Hs. simpl in Hs. rewrite E1 in E2.
  apply app_inj_1 in E2 as [_ [= ? _]]; done.
Qed.

Lemma linear_snoc (H : list Event) (e : Event) :
  linear hb H -> e.1 ∉ H.*1 -> ~ hb e.1 e.1 -> (forall e', e' ∈ H -> ~ hb e.1 e'.1) ->
  linear hb (H ++ [e]).
Proof.
  intros Hl Hn Hi Hh. apply linear_app. split_and!; [done| |].
  - constructor; [by intros ?%not_elem_of_nil|by constructor|constructor].
  - intros e1 e2 He1 ->%list_elem_of_singleton. split; [|by apply Hh].
    intros E. apply Hn. rewrite <- E. by apply list_elem_of_fmap_2.
Qed.

Lemma wf_issue logs r ops :
  wf_logs logs -> issue r (ops_of (logs r)) ops ->
  wf_logs (append logs r (mkTxnId r (length (logs r)) (keys (logs r)), ops)).
Proof.
  intros Hw Hi. set (e := (mkTxnId r (length (logs r)) (keys (logs r)), ops)).
  assert (forall k, k ∈ keys (logs r) -> k <> txnKey e.1) as Hfresh.
  { intros k (e' & He' & <-)%elem_of_txnKeys [= Ho Hs].
    destruct (w_issued _ Hw _ _ He') as (pre & post & E & Hi' & _); [done|].
    rewrite Hi' in Hs. simpl in Hs. rewrite E, length_app in Hs. simpl in Hs. lia. }
  constructor.
  - intros q x [Hx|[-> ->]]%elem_of_append; apply elem_of_append; [left; by apply (w_home _ Hw q)|].
    by right.
  - intros q x k [Hx|[-> ->]]%elem_of_append Hk.
    + pose proof (w_closed _ Hw q x k Hx Hk) as Hk'. destruct (decide (q = r)) as [->|Hne].
      * rewrite append_eq, keys_app, elem_of_app. by left.
      * by rewrite append_ne.
    + rewrite append_eq, keys_app, elem_of_app. by left.
  - intros o x [Hx|[-> ->]]%elem_of_append Ho.
    + destruct (w_issued _ Hw o x Hx Ho) as (pre & post & E & Hx'). destruct (decide (o = r)) as [->|Hne].
      * exists pre, (post ++ [e]). rewrite append_eq, E, <- app_assoc. done.
      * exists pre, post. by rewrite append_ne.
    + exists (logs r), []. by rewrite append_eq.
  - intros q. destruct (decide (q = r)) as [->|Hne]; [|rewrite append_ne by done; apply Hw].
    rewrite append_eq. apply linear_snoc; [apply Hw| | |].
    + intros (e' & E & He')%list_elem_of_fmap. apply (Hfresh (txnKey e'.1)); [|by rewrite <- E].
      apply elem_of_txnKeys. by exists e'.
    + intros Hk. by apply (Hfresh (txnKey e.1)).
    + intros e' He' Hk. apply (Hfresh (txnKey e.1)); [|done]. by apply (w_closed _ Hw r e').
Qed.

Lemma wf_logs_deliver logs r q e :
  wf_logs logs -> e ∈ logs q -> e ∉ logs r -> (forall k, k ∈ deps e.1 -> k ∈ keys (logs r)) ->
  wf_logs (append logs r e).
Proof.
  intros Hw He Hn Hd.
  assert (txnKey e.1 ∉ keys (logs r)) as Hfresh.
  { intros (e' & He' & E)%elem_of_txnKeys. apply Hn. by rewrite <- (txnKey_inj logs r q e' e). }
  constructor.
  - intros q' x [Hx|[-> ->]]%elem_of_append; apply elem_of_append; left; by eapply w_home.
  - intros q' x k [Hx|[-> ->]]%elem_of_append Hk.
    + pose proof (w_closed _ Hw q' x k Hx Hk) as Hk'. destruct (decide (q' = r)) as [->|Hne].
      * rewrite append_eq, keys_app, elem_of_app. by left.
      * by rewrite append_ne.
    + rewrite append_eq, keys_app, elem_of_app. left. by apply Hd.
  - intros o x [Hx|[-> ->]]%elem_of_append Ho.
    + destruct (w_issued _ Hw o x Hx Ho) as (pre & post & E & Hx'). destruct (decide (o = r)) as [->|Hne].
      * exists pre, (post ++ [e]). rewrite append_eq, E, <- app_assoc. done.
      * exists pre, post. by rewrite append_ne.
    + destruct Hn. rewrite <- Ho. by apply (w_home _ Hw q).
  - intros q'. destruct (decide (q' = r)) as [->|Hne]; [|rewrite append_ne by done; apply Hw].
    rewrite append_eq. apply linear_snoc; [apply Hw| | |].
    + intros (e' & E & He')%list_elem_of_fmap. apply Hfresh. rewrite E. apply elem_of_txnKeys. by exists e'.
    + eapply linear_irrefl; [apply (w_linear _ Hw q)|done].
    + intros e' He' Hk. apply Hfresh. by apply (w_closed _ Hw r e').
Qed.

Lemma reachable_wf logs : reachable logs -> wf_logs logs.
Proof.
  induction 1 as [|logs r ops _ IH Hi|logs r q e _ IH He Hn Hd].
  - constructor; [by intros ?? ?%not_elem_of_nil|by intros ??? ?%not_elem_of_nil|
      by intros ?? ?%not_elem_of_nil|constructor].
  - by apply wf_issue.
  - by eapply wf_logs_deliver.
Qed.

(** What the issuer of a transaction had applied is what happened before it. *)
Lemma issued_from logs r e :
  wf_logs logs -> e ∈ logs r ->
  exists P, linear hb P /\ (forall e', e' ∈ P <-> e' ∈ logs r /\ hb e'.1 e.1) /\
    issue (origin e.1) (ops_of P) e.2.
Proof.
  intros Hw He. pose proof (w_home _ Hw _ _ He) as Ho.
  destruct (w_issued _ Hw _ _ Ho eq_refl) as (pre & post & E & Hid & Hi).
  exists pre. split_and!; [|  |done].
  - pose proof (w_linear _ Hw (origin e.1)) as Hl. rewrite E in Hl. by apply linear_app in Hl as [? _].
  - assert (deps e.1 = keys pre) as Hdeps by by rewrite Hid at 1.
    intros e'. unfold hb. rewrite Hdeps, elem_of_txnKeys. split.
    + intros He'. split; [|by exists e'].
      assert (txnKey e'.1 ∈ keys (logs r)) as (x & Hx & Ex)%elem_of_txnKeys.
      { apply (w_closed _ Hw r e); [done|]. rewrite Hdeps. apply elem_of_txnKeys. by exists e'. }
      replace e' with x; [done|]. eapply (txnKey_inj logs r (origin e.1)); try done.
      rewrite E, elem_of_app. by left.
    + intros [He' (x & Hx & Ex)]. replace e' with x; [done|].
      eapply (txnKey_inj logs (origin e.1) r); try done. rewrite E, elem_of_app. by left.
Qed.

Lemma hb_trans_on logs r e1 e2 e3 :
  wf_logs logs -> e1 ∈ logs r -> e2 ∈ logs r -> e3 ∈ logs r ->
  hb e1.1 e2.1 -> hb e2.1 e3.1 -> hb e1.1 e3.1.
Proof.
  intros Hw H1 H2 H3 H12 H23.
  destruct (issued_from logs r e3 Hw H3) as (P3 & _ & HP3 & _).
  pose proof (w_home _ Hw _ _ H3) as Ho.
  destruct (w_issued _ Hw _ _ Ho eq_refl) as (pre & post & E & Hid & _).
  assert (deps e3.1 = keys pre) as Hdeps by by rewrite Hid at 1.
  unfold hb in H23. rewrite Hdeps in H23. apply elem_of_txnKeys in H23 as (x & Hx & Ex).
  assert (x ∈ logs (origin e3.1)) as Hx' by (rewrite E, elem_of_app; by left).
  assert (x = e2) as -> by by eapply (txnKey_inj logs (origin e3.1) r).
  pose proof (w_closed _ Hw _ _ _ Hx' H12) as (y & Hy & Ey)%elem_of_txnKeys.
  assert (y = e1) as -> by by eapply (txnKey_inj logs (origin e3.1) r).
  unfold hb. rewrite Hdeps. apply elem_of_txnKeys. exists e1. split; [|done].
  pose proof (w_linear _ Hw (origin e3.1)) as Hl. rewrite E in Hl, Hy.
  apply elem_of_app in Hy as [Hy|Hy]; [done|]. exfalso.
  apply linear_app in Hl as (_ & _ & Hc). by apply (Hc e2 e1).
Qed.

Lemma same_origin_ordered logs r e1 e2 :
  wf_logs logs -> e1 ∈ logs r -> e2 ∈ logs r -> origin e1.1 = origin e2.1 -> e1.1 <> e2.1 ->
  hb e1.1 e2.1 \/ hb e2.1 e1.1.
Proof.
  intros Hw He1%(w_home _ Hw) He2%(w_home _ Hw) Ho Hne. rewrite Ho in He1.
  destruct (w_issued _ Hw _ _ He1) as (pre1 & post1 & E1 & Hi1 & _); [done|].
  destruct (w_issued _ Hw _ _ He2) as (pre2 & post2 & E2 & Hi2 & _); [done|].
  assert (deps e1.1 = keys pre1) as Hd1 by by rewrite Hi1 at 1.
  assert (deps e2.1 = keys pre2) as Hd2 by by rewrite Hi2 at 1.
  unfold hb. rewrite Hd1, Hd2, !elem_of_txnKeys. rewrite E1 in E2.
  assert (forall (x y : Event) a b (pre l : list Event), x :: a = l ++ y :: b -> y <> x -> x ∈ pre ++ l) as Hin.
  { intros x y a b pre [|z l]; simpl; intros [= -> ?] ?; [done|]. rewrite elem_of_app. right. by left. }
  assert (e1 <> e2) by congruence.
  apply app_eq_inv in E2 as [(l & -> & Eb)|(l & -> & Eb)].
  - right. exists e2. split; [|done]. by eapply Hin.
  - left. exists e1. split; [|done]. by eapply Hin.
Qed.
End system.
