(* ===== verification/EmbObjects.v ===== *)
(** * Embedded objects: what rwEmbMapCRDT.go handles (src/crdt/crdt)

    A map with embedded objects holds objects of any type, other such maps
    included.  The types of this file are those of a map and of what it is sent,
    asked and answers; [CRDT], [UpdArgs], [DownArgs], [ReadArgs] and [State] are
    Go's interfaces of the same purpose (crdt.go).  The class [Leaves] is what
    the objects that are not maps promise: their operations, as fields.  EmbLeaves
    gives its instance. *)

From S2P Require Import Prelude ClockSI MultiArray.
From Stdlib Require Import ZArith Lia Bool.
From stdpp Require Import base tactics numbers strings gmap list.
#[local] Open Scope Z_scope.

Abbreviation Key := string.

(** [proto.CRDTType]; [NO_TYPE] is the -1 of [NoOp]. *)
Inductive CRDTType :=
  | COUNTER | LWWREG | COUNTER_FLOAT | ORSET | ORMAP | RRMAP | TOPK_RMV | AVG | MAXMIN
  | TOPSUM | TOPK | FLAG_LWW | FLAG_EW | FLAG_DW | FATCOUNTER | PAIR_COUNTER
  | ARRAY_COUNTER | MULTI_ARRAY | NO_TYPE.

#[export] Instance CRDTType_eq_dec : EqDecision CRDTType.
Proof. solve_decision. Defined.

(** The states that the map looks into; [RegisterState None] has a nil value. *)
Inductive LeafState (Other : Type) :=
  | CounterState (v : Z)
  | CounterFloatState (v : f64)
  | AvgState (Value : f64)
  | AvgFullState (Sum NAdds : Z)
  | MaxMinState (Value : Z)
  | RegisterState (Value : option string)
  | FlagState (Flag : bool)
  | OtherState (o : Other).
Arguments CounterState {_}. Arguments CounterFloatState {_}. Arguments AvgState {_}.
Arguments AvgFullState {_}. Arguments MaxMinState {_}. Arguments RegisterState {_}.
Arguments FlagState {_}. Arguments OtherState {_}.

(** What reaches an object that is not a map: its own updates, the removal of
    keys (which the maps share), [NoOp], or something of another type. *)
Inductive ForLeaf (Upd : Type) := Own (u : Upd) | RemoveKeys (ks : list Key) | Skip | Foreign.
Arguments Own {_}. Arguments RemoveKeys {_}. Arguments Skip {_}. Arguments Foreign {_}.

(** [None] is a panic, and a nil result where the map goes on to call it.  The
    inner [None] of [leaf_update] is [NoOp], that of [leaf_read] a nil state.
    [LeafEnv]: time and random numbers.
    [knownIDs] is the variable of package clocksi. *)
Class Leaves := {
  LeafCRDT : Type; LeafUpd : Type; LeafDown : Type; LeafRead : Type; LeafOther : Type;
  LeafEnv : Type;
  leaf_type : LeafCRDT -> CRDTType;
  leaf_upd_type : LeafUpd -> CRDTType;
  leaf_down_type : LeafDown -> CRDTType;
  leaf_init : CRDTType -> Z -> option LeafCRDT;
  leaf_update : LeafEnv -> LeafCRDT -> ForLeaf LeafUpd -> option (option LeafDown);
  leaf_must : LeafDown -> bool;
  leaf_downstream : LeafCRDT -> ForLeaf LeafDown -> option (LeafCRDT * option LeafDown);
  leaf_read : LeafCRDT -> ForLeaf (option LeafRead) -> list (ForLeaf LeafUpd)
    -> option (option (LeafState LeafOther));
  leaf_big : LeafCRDT -> bool;
  knownIDs : list Z
}.

(** ** Maps *)

Record markedTimestamp := mkMarked { mts : Z; mark : bool }.

#[export] Instance markedTimestamp_eq_dec : EqDecision markedTimestamp.
Proof. solve_decision. Defined.

(** [C] are the embedded objects. *)
Record RWEmbMapCrdt (C : Type) := mkEmb {
  entries : gmap Key C;
  removes : gmap Key (gmap Z markedTimestamp);
  rmvClock : vclock;
  replicaID : Z;
  keysToRebuild : option (gset Key)
}.
Arguments mkEmb {_}. Arguments entries {_}. Arguments removes {_}. Arguments rmvClock {_}.
Arguments replicaID {_}. Arguments keysToRebuild {_}.

Inductive CompType := EQ | NEQ | LEQ | L | H | HEQ.
Inductive AggregateType := M_SUM | M_AVG | M_MAX | M_MIN.

(** [CompareArguments]; the two with a variable hold what it points to. *)
Inductive CompareArgs :=
  | IntCompareArguments (Value : Z) (CompType : CompType)
  | FloatCompareArguments (Value : f64) (CompType : CompType)
  | IntArgCompareArguments (Value : option f64) (CompType : CompType)
  | FloatArgCompareArguments (Value : option f64) (CompType : CompType)
  | StringCompareArguments (Value : string) (IsEqualComp : bool)
  | BytesCompareArguments (Value : string) (IsEqualComp : bool)
  | BoolCompareArguments (Value : bool) (IsEqualComp : bool)
  | GetNoCompareArguments
  | MapCompareArguments (MapArgs : list (Key * CompareArgs)).

Section types.
Context `{HL : Leaves}.

Inductive CRDT := Leaf (l : LeafCRDT) | Emb (m : RWEmbMapCrdt CRDT).

(** The entries of a Go map, in the order of the loops over it.  [NoOpPtr] is
    [&NoOp{}], [NilUpd] a nil interface. *)
Inductive UpdArgs :=
  | LUpd (u : LeafUpd)
  | EmbMapUpdate (Key : Key) (Upd : UpdArgs)
  | EmbMapUpdateAll (Upds : list (Key * UpdArgs))
  | EmbMapUpdateAllArray (Upds : list (Key * UpdArgs))
  | MapRemove (Key : Key)
  | MapRemoveAll (Keys : list Key)
  | NoOp
  | NoOpPtr
  | NilUpd.

Inductive DownArgs :=
  | LDown (d : LeafDown)
  | DownstreamRWEmbMapUpdateAll (Upds : list (Key * DownArgs)) (RmvEntries : gmap Z Z) (ReplicaID : Z)
  | DownstreamRWEmbMapRemoveAll (Rems : list Key) (Ts ReplicaID : Z)
  | DownstreamRWEmbMapUpdateAllArray (Upds : list (Key * DownArgs)) (RmvEntries : gmap Z Z) (ReplicaID : Z)
  | NoOpDown.

Inductive ReadArgs :=
  | LRead (r : LeafRead)
  | StateReadArguments
  | GetKeysArguments
  | HasKeyArguments (Key : Key)
  | GetValuesArguments (Keys : list Key)
  | EmbMapGetValueArguments (Key : Key) (Args : ReadArgs)
  | EmbMapPartialArguments (Args : list (Key * ReadArgs))
  | EmbMapPartialOnAllArguments (ArgForAll : ReadArgs)
  | EmbMapConditionalReadArguments (CondArgs : list (Key * CompareArgs))
  | EmbMapConditionalReadAllArguments (CompareArguments : CompareArgs)
  | EmbMapExceptArguments (ExceptKeys : gset Key) (ArgForAll : ReadArgs)
  | EmbMapSingleExceptArguments (ExceptKey : Key) (ArgForAll : ReadArgs)
  | EmbMapConditionalReadExceptArguments (ExceptKeys : gset Key) (CondArgForAll : CompareArgs)
  | EmbMapConditionalReadExceptSingleArguments (ExceptKey : Key) (CondArgForAll : CompareArgs)
  | EmbMapAggregateArguments (AggregateType : AggregateType) (Keys : option (list Key))
      (CompForAll : option CompareArgs) (ArgForAll : ReadArgs) (AggrKey : Key).

(** A nil state is [None]. *)
Inductive State :=
  | LState (s : LeafState LeafOther)
  | EmbMapEntryState (States : gmap Key (option State))
  | EmbMapGetValuesState (States : gmap Key (option State))
  | EmbMapGetValueState (State : option State)
  | MapHasKeyState (HasKey : bool)
  | MapKeysState (Keys : list Key).

(** *** The methods [GetCRDTType] *)

Definition GetCRDTType (c : CRDT) : CRDTType :=
  match c with Leaf l => leaf_type l | Emb _ => RRMAP end.

(** Removes are those of orMap.go, and say so. *)
Definition upd_type (u : UpdArgs) : option CRDTType :=
  match u with
  | LUpd u => Some (leaf_upd_type u)
  | EmbMapUpdate _ _ | EmbMapUpdateAll _ | EmbMapUpdateAllArray _ => Some RRMAP
  | MapRemove _ | MapRemoveAll _ => Some ORMAP
  | NoOp | NoOpPtr => Some NO_TYPE
  | NilUpd => None
  end.

Definition down_type (d : DownArgs) : CRDTType :=
  match d with
  | LDown d => leaf_down_type d
  | NoOpDown => NO_TYPE
  | _ => RRMAP
  end.

(** [NoOp] does not have to be replicated. *)
Definition MustReplicate (d : DownArgs) : bool :=
  match d with
  | LDown d => leaf_must d
  | NoOpDown => false
  | _ => true
  end.

(** *** Objects *)

Definition Initialize (replicaID : Z) : RWEmbMapCrdt CRDT :=
  mkEmb ∅ ∅ (NewTimestamp knownIDs) replicaID None.

(** [None]: a nil object, on which the next call panics. *)
Definition InitializeCrdt (t : CRDTType) (replicaID : Z) : option CRDT :=
  if decide (t = RRMAP) then Some (Emb (Initialize replicaID)) else Leaf <$> leaf_init t replicaID.

Definition IsBigCRDT (c : CRDT) : bool :=
  match c with Leaf l => leaf_big l | Emb m => (50 <=? size (entries m))%nat end.

(** The second component is [new]. *)
Definition getOrCreateEmbCrdt (m : RWEmbMapCrdt CRDT) (key : Key) (upd : CRDTType)
  : option (CRDT * bool) :=
  match entries m !! key with
  | Some c => Some (c, false)
  | None => c ← InitializeCrdt upd (replicaID m); Some (c, true)
  end.
End types.

(** ** What the other objects promise

    [leaf_sim]: objects that show the same, whatever replica they are at.
    [leaf_valid]: the times and clocks of an operation have not overflowed.
    [leaf_compat]: operations that may be applied in either order. *)
Class LeafLaws `{HL : Leaves} := {
  leaf_supported : CRDTType -> Prop;
  leaf_sim : LeafCRDT -> LeafCRDT -> Prop;
  leaf_valid : LeafDown -> Prop;
  leaf_compat : LeafDown -> LeafDown -> Prop;
  leaf_sim_equiv :: Equivalence leaf_sim;
  leaf_not_map t : leaf_supported t -> t <> RRMAP;
  leaf_init_ok t r : leaf_supported t -> exists l, leaf_init t r = Some l /\ leaf_type l = t;
  leaf_init_sim t r1 r2 l1 l2 :
    leaf_supported t -> leaf_init t r1 = Some l1 -> leaf_init t r2 = Some l2 -> leaf_sim l1 l2;
  leaf_down_ok l d :
    leaf_supported (leaf_type l) -> leaf_down_type d = leaf_type l ->
    exists l' nd, leaf_downstream l (Own d) = Some (l', nd) /\ leaf_type l' = leaf_type l;
  leaf_down_sim l1 l2 d l1' l2' n1 n2 :
    leaf_sim l1 l2 -> leaf_valid d -> leaf_downstream l1 (Own d) = Some (l1', n1) ->
    leaf_downstream l2 (Own d) = Some (l2', n2) -> leaf_sim l1' l2';
  leaf_comm l a b la lab lb lba n1 n2 n3 n4 :
    leaf_supported (leaf_type l) -> leaf_down_type a = leaf_type l -> leaf_down_type b = leaf_type l ->
    leaf_compat a b ->
    leaf_downstream l (Own a) = Some (la, n1) -> leaf_downstream la (Own b) = Some (lab, n2) ->
    leaf_downstream l (Own b) = Some (lb, n3) -> leaf_downstream lb (Own a) = Some (lba, n4) ->
    leaf_sim lab lba
}.

(** Objects of a replica ([leaf_at]) prepare operations ([leaf_from]) that may be
    applied in any order with those of other replicas. *)
Class LeafIssue `{HL : Leaves, HLaws : !LeafLaws} := {
  leaf_at : Z -> LeafCRDT -> Prop;
  leaf_from : Z -> LeafDown -> Prop;
  leaf_init_at t r l : leaf_init t r = Some l -> leaf_at r l;
  leaf_down_at r l d l' nd :
    leaf_at r l -> leaf_downstream l (Own d) = Some (l', nd) -> leaf_at r l';
  leaf_update_ok env r l u :
    leaf_supported (leaf_type l) -> leaf_upd_type u = leaf_type l -> leaf_at r l ->
    exists o, leaf_update env l (Own u) = Some o /\
      forall d, o = Some d -> leaf_down_type d = leaf_type l /\ leaf_from r d;
  leaf_from_compat r1 r2 a b :
    r1 <> r2 -> leaf_from r1 a -> leaf_from r2 b -> leaf_down_type a = leaf_down_type b ->
    leaf_supported (leaf_down_type a) -> leaf_compat a b
}.

(** ** Types

    What a map holds under a key has one type at every replica. *)
Inductive Schema := SLeaf (t : CRDTType) | SMap (f : Key -> Schema).

Definition type_of (s : Schema) : CRDTType := match s with SLeaf t => t | SMap _ => RRMAP end.

Section typing.
Context `{HL : Leaves, !LeafLaws}.

Inductive schema_ok : Schema -> Prop :=
  | schema_leaf t : leaf_supported t -> schema_ok (SLeaf t)
  | schema_map f : (forall k, schema_ok (f k)) -> schema_ok (SMap f).

Inductive crdt_ok : Schema -> CRDT -> Prop :=
  | crdt_leaf t l : leaf_type l = t -> crdt_ok (SLeaf t) (Leaf l)
  | crdt_map f m :
      (forall k c, entries m !! k = Some c -> crdt_ok (f k) c) -> crdt_ok (SMap f) (Emb m).

Definition map_ok (f : Key -> Schema) (m : RWEmbMapCrdt CRDT) : Prop :=
  forall k c, entries m !! k = Some c -> crdt_ok (f k) c.

Inductive down_ok : Schema -> DownArgs -> Prop :=
  | down_leaf t d : leaf_down_type d = t -> down_ok (SLeaf t) (LDown d)
  | down_all f upds rmv rid :
      Forall (fun e => down_ok (f e.1) e.2) upds ->
      down_ok (SMap f) (DownstreamRWEmbMapUpdateAll upds rmv rid)
  | down_array f upds rmv rid :
      Forall (fun e => down_ok (f e.1) e.2) upds ->
      down_ok (SMap f) (DownstreamRWEmbMapUpdateAllArray upds rmv rid)
  | down_remove f rems ts rid : down_ok (SMap f) (DownstreamRWEmbMapRemoveAll rems ts rid).

Lemma down_ok_type s d : down_ok s d -> down_type d = type_of s.
Proof. by destruct 1. Qed.

Lemma crdt_ok_map f m : crdt_ok (SMap f) (Emb m) <-> map_ok f m.
Proof. split; [by inversion 1|by constructor]. Qed.

Lemma init_ok s r :
  schema_ok s -> exists c, InitializeCrdt (type_of s) r = Some c /\ crdt_ok s c.
Proof.
  destruct 1 as [t Ht|f Hf]; unfold InitializeCrdt; simpl.
  - rewrite decide_False by by apply leaf_not_map.
    destruct (leaf_init_ok t r Ht) as (l & -> & Hl). eexists. split; [done|]. by constructor.
  - eexists. split; [done|]. by constructor.
Qed.

Lemma init_map r : InitializeCrdt RRMAP r = Some (Emb (Initialize r)).
Proof. done. Qed.

(** Induction on updates, with the updates that they embed. *)
Lemma down_rect (P : DownArgs -> Prop)
  (HL' : forall d, P (LDown d))
  (HA : forall upds rmv rid, Forall (fun e => P e.2) upds -> P (DownstreamRWEmbMapUpdateAll upds rmv rid))
  (HR : forall rems ts rid, P (DownstreamRWEmbMapRemoveAll rems ts rid))
  (HArr : forall upds rmv rid, Forall (fun e => P e.2) upds ->
     P (DownstreamRWEmbMapUpdateAllArray upds rmv rid))
  (HN : P NoOpDown) : forall d, P d.
Proof.
  fix IH 1. intros [d|upds rmv rid|rems ts rid|upds rmv rid|];
    [apply HL'|apply HA|apply HR|apply HArr|apply HN].
  - induction upds as [|[k d] upds IHl]; constructor; [apply IH|apply IHl].
  - induction upds as [|[k d] upds IHl]; constructor; [apply IH|apply IHl].
Qed.

(** *** Updates of clients

    The updates of a type.  The code accepts more: a remove of a key inside of an
    embedded map that does not exist makes an object of the type of the remove
    ([upd_type]), which is that of another kind of map; the theorems leave such
    removes out, so a key may be removed only where the map exists. *)
Definition child (oc : option CRDT) (k : Key) : option CRDT :=
  match oc with Some (Emb m) => entries m !! k | _ => None end.

Inductive upd_ok : Schema -> option CRDT -> UpdArgs -> Prop :=
  | upd_leaf t oc u : leaf_upd_type u = t -> upd_ok (SLeaf t) oc (LUpd u)
  | upd_one f oc k u : upd_ok (f k) (child oc k) u -> upd_ok (SMap f) oc (EmbMapUpdate k u)
  | upd_all f oc upds :
      Forall (fun e => upd_ok (f e.1) (child oc e.1) e.2) upds ->
      upd_ok (SMap f) oc (EmbMapUpdateAll upds)
  | upd_array f oc upds :
      Forall (fun e => upd_ok (f e.1) (child oc e.1) e.2) upds ->
      upd_ok (SMap f) oc (EmbMapUpdateAllArray upds)
  | upd_remove f c k : upd_ok (SMap f) (Some c) (MapRemove k)
  | upd_removeAll f c ks : upd_ok (SMap f) (Some c) (MapRemoveAll ks).

Lemma upd_ok_some s oc u : upd_ok s oc u -> exists t, upd_type u = Some t.
Proof. destruct 1; by eexists. Qed.

Lemma upd_ok_type s u : upd_ok s None u -> upd_type u = Some (type_of s).
Proof. inversion 1; subst; done. Qed.

Lemma upd_rect (P : UpdArgs -> Prop)
  (HL' : forall u, P (LUpd u))
  (H1 : forall k u, P u -> P (EmbMapUpdate k u))
  (HA : forall upds, Forall (fun e => P e.2) upds -> P (EmbMapUpdateAll upds))
  (HArr : forall upds, Forall (fun e => P e.2) upds -> P (EmbMapUpdateAllArray upds))
  (HR : forall k, P (MapRemove k)) (HRA : forall ks, P (MapRemoveAll ks))
  (HN : P NoOp) (HNP : P NoOpPtr) (HNil : P NilUpd) : forall u, P u.
Proof.
  fix IH 1. intros [u|k u|upds|upds|k|ks| | |];
    [apply HL'|apply H1, IH|apply HA|apply HArr|apply HR|apply HRA|done|done|done].
  - induction upds as [|[k u] upds IHl]; constructor; [apply IH|apply IHl].
  - induction upds as [|[k u] upds IHl]; constructor; [apply IH|apply IHl].
Qed.
End typing.
