(* ===== verification/MultiArrayReads.v ===== *)
(** * Reads of the multi-array: multiArrayCRDT.go (src/crdt/crdt)

    A read shows the arrays with the updates of its transaction that are not
    applied yet.  Reads of whole arrays and of lists of positions work on copies;
    a range is a slice of the object's own array, and an update of the range
    writes to that array until the range is copied to grow ([Range]): a read is
    a function to a result and to the object it leaves.

    [None]: a panic.  [Some None]: the nil state.  A state shows the elements of
    its slices.  [room upd]: how far the slice of an update can be extended. *)

From S2P Require Import Prelude ClockSI Inversible EmbObjects GoSlice MultiArray FloatCounters.
From Stdlib Require Import ZArith Lia Bool SpecFloat.
From stdpp Require Import base tactics numbers strings list.
#[local] Open Scope Z_scope.

(** [MULTI_ARRAY_TYPE]. *)
Inductive ArrayType := MultiInts | MultiFloats | MultiData | MultiAvg | Multi | MultiSize | OtherType (b : Z).

#[export] Instance ArrayType_eq_dec : EqDecision ArrayType.
Proof. solve_decision. Defined.

Definition GetDataType (upd : UpdArgs) : ArrayType :=
  match upd with
  | MultiArraySetSizes _ => MultiSize
  | MultiArrayInt _ => MultiInts
  | MultiArrayFloat _ => MultiFloats
  | MultiArrayData _ => MultiData
  | MultiArrayAvg _ => MultiAvg
  | MultiArrayUpdateAll _ => Multi
  end.

Inductive CustomType := CustomIgnore | CustomFull | CustomSingle | CustomRange | CustomSub.

#[export] Instance CustomType_eq_dec : EqDecision CustomType.
Proof. solve_decision. Defined.

(** Copies of arrays, which a read updates. *)
Record MultiArrayHolder := mkHolder {
  IntCounters : Slice Z; HSums : Slice Z; HCounts : Slice Z; FloatCounters : Slice f64; DataCounters : Slice data }.

(** What a [MultiArrayState] shows. *)
Record Arrays := mkArrays {
  s_Ints : list Z; s_Sums : list Z; s_Counts : list Z; s_Floats : list f64; s_Data : list data }.

Inductive State :=
  | IntArrayState (l : list Z)
  | FloatArrayState (l : list f64)
  | AvgArrayState (Sums Counts : list Z)
  | DataArrayState (l : list data)
  | MultiArrayState (a : Arrays)
  | IntArraySingleState (v : Z)
  | FloatArraySingleState (v : f64)
  | AvgArraySingleState (Sum Count : Z)
  | DataArraySingleState (v : data)
  | MultiArraySingleState (IntValue Sum Count : Z) (FloatValue : f64) (DataValue : data)
  | MultiArrayDataSliceIntPosState (DataCounters : list data) (IntValue : Z)
  | MultiArrayDataSliceFloatPosState (DataCounters : list data) (FloatValue : f64)
  | MultiArrayDataSliceAvgPosState (DataCounters : list data) (Sum Count : Z).

Inductive ReadArgs :=
  | StateReadArguments
  | MultiArrayFullArguments (t : ArrayType)
  | MultiArrayPosArguments (Pos : Z) (t : ArrayType)
  | MultiArrayRangeArguments (From To : Z) (t : ArrayType)
  | MultiArraySubArguments (Positions : list Z) (t : ArrayType)
  | MultiArrayFullTypesArguments (Types : list ArrayType)
  | MultiArrayPosTypesArguments (Positions : list Z) (Types : list ArrayType)
  | MultiArrayRangeTypesArguments (From To : list Z) (Types : list ArrayType)
  | MultiArraySubTypesArguments (Positions : list (list Z)) (Types : list ArrayType)
  | MultiArrayComparableArguments (FullReads : list ArrayType) (ComparePos : Z) (CompareType : CompareArgs)
      (CompareArrayType : ArrayType)
  | MultiArrayDataIntArguments (Pos : Z)
  | MultiArrayDataIntComparableArguments (ComparePos : Z) (CompareType : CompareArgs)
  | MultiArrayDataFloatComparableArguments (ComparePos : Z) (CompareType : CompareArgs)
  | MultiArrayDataAvgComparableArguments (ComparePos : Z) (CompareType : CompareArgs)
  | MultiArrayCustomArguments (IntPos FloatPos DataPos AvgPos : list Z)
  | OtherReadArguments.

(** ** Updates of copies *)

Section copies.
Context {V : Type} (zero : V) (add : V -> V -> V).

Definition applyUpdToTmpSlice (one : bool) (upd : ArrUpd V) (s : Slice V) : option (Slice V) :=
  match upd with
  | IncSingle pos c => incSingle zero add s pos c
  | Inc l => incAll zero add s l
  | IncPositions pos l => incPositions zero add one s pos l
  | IncRange from to c => incRange zero add s from to c
  end.

(** The first of the positions that is [pos]. *)
Fixpoint changeAt (pos : Z) (ps : list Z) (l : list V) (v : V) : option V :=
  match ps, l with
  | [], _ => Some v
  | p :: ps, c :: l => if p =? pos then Some (add v c) else changeAt pos ps l v
  | p :: ps, [] => if p =? pos then None else changeAt pos ps [] v
  end.

Definition applyUpdToSingleValue (upd : ArrUpd V) (v : V) (pos : Z) : option V :=
  match upd with
  | IncSingle p c => Some (if p =? pos then add v c else v)
  | Inc l => if pos <? Z.of_nat (length l) then c ← sget (of_list l) pos; Some (add v c) else Some v
  | IncPositions ps l => changeAt pos ps l v
  | IncRange from to c => Some (if (from <=? pos) && (pos <=? to) then add v c else v)
  end.

Definition getPositionOfSlice (pos : Z) (s : Slice V) : option V :=
  if pos <? size_of s then sget s pos else Some zero.

Fixpoint getSubSlice (s : Slice V) (positions : list Z) : option (list V) :=
  match positions with
  | [] => Some []
  | pos :: positions =>
      v ← getPositionOfSlice pos s; l ← getSubSlice s positions; Some (v :: l)
  end.
End copies.

(** An update of one position has one change; the integers look at the changes. *)
Definition onePos {V} (upd : ArrUpd V) : bool := match upd with IncPositions pos _ => is_one pos | _ => false end.
Definition oneChange {V} (upd : ArrUpd V) : bool := match upd with IncPositions _ l => is_one l | _ => false end.

(** Registers as arrays whose addition keeps the new value. *)
Definition overwrite (_ v : data) : data := v.
Definition asArrUpd (upd : DataUpd) : ArrUpd data :=
  match upd with
  | SetRegisterSingle pos v => IncSingle pos v
  | SetRegister l => Inc l
  | SetRegisterPositions pos l => IncPositions pos l
  | SetRegisterRange from to v => IncRange from to v
  end.

Definition applyIntUpdToTmpSlice (upd : ArrUpd Z) : Slice Z -> option (Slice Z) :=
  applyUpdToTmpSlice 0 iadd (oneChange upd) upd.
Definition applyFloatUpdToTmpSlice (upd : ArrUpd f64) : Slice f64 -> option (Slice f64) :=
  applyUpdToTmpSlice f0 fadd (onePos upd) upd.
Definition applyDataUpdToTmpSlice (upd : DataUpd) : Slice data -> option (Slice data) :=
  applyUpdToTmpSlice None overwrite (onePos (asArrUpd upd)) (asArrUpd upd).

(** Whether to grow is decided by the sums. *)
Fixpoint incAvgPosTmp (a : Avgs) (pos value count : list Z) : option Avgs :=
  match pos, value, count with
  | [], _, _ => Some a
  | p :: pos, v :: value, c :: count =>
      a ← incAvgSingle a p v c; incAvgPosTmp a pos value count
  | _, _, _ => None
  end.

Definition applyAvgUpdToTmpSlice (upd : AvgUpd) (a : Avgs) : option Avgs :=
  match upd with
  | IncAvgSingle value count pos => incAvgSingle a pos value count
  | IncAvg value count =>
      a ← (if (slen a.1 <? length value)%nat
           then s ← copySliceWithSize 0 a.1 (int32 (Z.of_nat (length value)));
                c ← copySliceWithSize 0 a.2 (int32 (Z.of_nat (length count))); Some (s, c)
           else Some a);
      incAvgAll a 0 value count
  | IncAvgPositions value count pos =>
      if is_one pos then v ← head value; c ← head count;
        incAvgPosTmp a pos (replicate (length pos) v) (replicate (length pos) c)
      else incAvgPosTmp a pos value count
  | IncAvgRange from to value count =>
      a ← (if size_of a.1 <=? to then expandAvgArray a (int32 (to + 1)) else Some a);
      incAvgRange a from to value count
  end.

Definition applyAvgUpdToSingleValue (upd : AvgUpd) (v : Z * Z) (pos : Z) : option (Z * Z) :=
  match upd with
  | IncAvgSingle value count p => Some (if p =? pos then (iadd v.1 value, iadd v.2 count) else v)
  | IncAvg value count =>
      if pos <? Z.of_nat (length value)
      then s ← sget (of_list value) pos; c ← sget (of_list count) pos; Some (iadd v.1 s, iadd v.2 c)
      else Some v
  | IncAvgPositions value count ps => s ← changeAt iadd pos ps value v.1; c ← changeAt iadd pos ps count v.2; Some (s, c)
  | IncAvgRange from to value count =>
      Some (if (from <=? pos) && (pos <=? to) then (iadd v.1 value, iadd v.2 count) else v)
  end.

Definition getPositionOfAvgSlice (pos : Z) (sums counts : Slice Z) : option (Z * Z) :=
  if pos <? size_of sums then s ← sget sums pos; c ← sget counts pos; Some (s, c) else Some (0, 0).

(** The result is as long as the sums, not as the positions. *)
Definition getSubAvgSlice (sums counts : Slice Z) (positions : list Z) : option (list Z * list Z) :=
  '(s, c) ← foldM (fun (r : Slice Z * Slice Z) '(i, pos) =>
      if pos <? size_of sums
      then s ← sget sums pos; s' ← sset r.1 i s; c ← sget counts pos; c' ← sset r.2 i c; Some (s', c')
      else Some r)
    (of_list (replicate (slen sums) 0), of_list (replicate (slen counts) 0))
    (imap (fun i pos => (Z.of_nat i, pos)) positions);
  Some (vals s, vals c).

Definition set_HInts s h := mkHolder s (HSums h) (HCounts h) (FloatCounters h) (DataCounters h).
Definition set_HFloats s h := mkHolder (IntCounters h) (HSums h) (HCounts h) s (DataCounters h).
Definition set_HData s h := mkHolder (IntCounters h) (HSums h) (HCounts h) (FloatCounters h) s.
Definition set_HAvgs (a : Avgs) h := mkHolder (IntCounters h) a.1 a.2 (FloatCounters h) (DataCounters h).
Definition noHolder : MultiArrayHolder := mkHolder nilSlice nilSlice nilSlice nilSlice nilSlice.

Definition arraysOf (h : MultiArrayHolder) : Arrays :=
  mkArrays (vals (IntCounters h)) (vals (HSums h)) (vals (HCounts h)) (vals (FloatCounters h)) (vals (DataCounters h)).

(** The array that the update is for. *)
Definition applyUpdToHolder (upd : UpdArgs) (h : MultiArrayHolder) : option MultiArrayHolder :=
  match upd with
  | MultiArrayInt u => s ← applyIntUpdToTmpSlice u (IntCounters h); Some (set_HInts s h)
  | MultiArrayFloat u => s ← applyFloatUpdToTmpSlice u (FloatCounters h); Some (set_HFloats s h)
  | MultiArrayData u => s ← applyDataUpdToTmpSlice u (DataCounters h); Some (set_HData s h)
  | MultiArrayAvg u => a ← applyAvgUpdToTmpSlice u (HSums h, HCounts h); Some (set_HAvgs a h)
  | MultiArraySetSizes _ | MultiArrayUpdateAll _ => Some h
  end.

(** ** Full reads, positions and lists of positions *)

Section reads.
Variable crdt : MultiArrayCrdt.

Definition crdtHolder : MultiArrayHolder :=
  mkHolder (intCounters crdt) (sums crdt) (counts crdt) (floatCounters crdt) (dataCounters crdt).

(** [copy]: the type of array [t] of [crdt] in [h]. *)
Definition copyArray (t : ArrayType) (h : MultiArrayHolder) : MultiArrayHolder :=
  match t with
  | MultiInts => set_HInts (copySlice (intCounters crdt)) h
  | MultiFloats => set_HFloats (copySlice (floatCounters crdt)) h
  | MultiData => set_HData (copySlice (dataCounters crdt)) h
  | MultiAvg => set_HAvgs (copySlice (sums crdt), copySlice (counts crdt)) h
  | _ => h
  end.

Definition singleCopySlicesToHolder (t : ArrayType) : MultiArrayHolder := copyArray t noHolder.
Definition multiCopySlices (types : list ArrayType) : MultiArrayHolder :=
  foldl (fun h t => copyArray t h) noHolder types.

(** An array grows as a copy of the object's, without the updates so far. *)
Definition applySizeUpdHelper (s : SetSizes) (t : ArrayType) (h : MultiArrayHolder) : option MultiArrayHolder :=
  match t with
  | MultiInts =>
      if size_of (IntCounters h) <? IntSize s
      then a ← copySliceWithSize 0 (intCounters crdt) (IntSize s); Some (set_HInts a h) else Some h
  | MultiFloats =>
      if size_of (FloatCounters h) <? FloatSize s
      then a ← copySliceWithSize f0 (floatCounters crdt) (FloatSize s); Some (set_HFloats a h) else Some h
  | MultiData =>
      if size_of (DataCounters h) <? RegisterSize s
      then a ← copySliceWithSize None (dataCounters crdt) (RegisterSize s); Some (set_HData a h) else Some h
  | MultiAvg =>
      if size_of (HSums h) <? IntSize s
      then a ← copySliceWithSize 0 (sums crdt) (IntSize s); c ← copySliceWithSize 0 (counts crdt) (IntSize s);
           Some (set_HAvgs (a, c) h) else Some h
  | _ => Some h
  end.

Definition applySizeUpdHelperState (s : SetSizes) (t : ArrayType) (h : MultiArrayHolder) : option MultiArrayHolder :=
  match t with
  | MultiInts =>
      if size_of (IntCounters h) <? IntSize s
      then a ← copySliceWithSize 0 (IntCounters h) (IntSize s); Some (set_HInts a h) else Some h
  | MultiFloats =>
      if size_of (FloatCounters h) <? FloatSize s
      then a ← copySliceWithSize f0 (FloatCounters h) (FloatSize s); Some (set_HFloats a h) else Some h
  | MultiData =>
      if size_of (DataCounters h) <? RegisterSize s
      then a ← copySliceWithSize None (DataCounters h) (RegisterSize s); Some (set_HData a h) else Some h
  | MultiAvg =>
      if size_of (HSums h) <? IntSize s
      then a ← copySliceWithSize 0 (HSums h) (IntSize s); c ← copySliceWithSize 0 (HCounts h) (IntSize s);
           Some (set_HAvgs (a, c) h) else Some h
  | _ => Some h
  end.

Definition applyPendingUpdatesFull (h : MultiArrayHolder) (t : ArrayType) (upds : list UpdArgs)
  : option MultiArrayHolder :=
  foldM (fun h upd =>
    if decide (GetDataType upd = t) then applyUpdToHolder upd h
    else match upd with MultiArraySetSizes s => applySizeUpdHelper s t h | _ => Some h end) h upds.

(** The loop over the types ends at the type of the update. *)
Fixpoint multiApplyUpd (upd : UpdArgs) (types : list ArrayType) (h : MultiArrayHolder) : option MultiArrayHolder :=
  match types with
  | [] => Some h
  | t :: types =>
      if decide (GetDataType upd = t) then applyUpdToHolder upd h
      else h ← match upd with MultiArraySetSizes s => applySizeUpdHelperState s t h | _ => Some h end;
           multiApplyUpd upd types h
  end.

Definition multiApplyPendingUpdatesFull (h : MultiArrayHolder) (types : list ArrayType) (upds : list UpdArgs)
  : option MultiArrayHolder :=
  foldM (fun h upd => multiApplyUpd upd types h) h upds.

(** The state of one array; nil for another type. *)
Definition arrayState (t : ArrayType) (h : MultiArrayHolder) : option State :=
  match t with
  | MultiInts => Some (IntArrayState (vals (IntCounters h)))
  | MultiFloats => Some (FloatArrayState (vals (FloatCounters h)))
  | MultiData => Some (DataArrayState (vals (DataCounters h)))
  | MultiAvg => Some (AvgArrayState (vals (HSums h)) (vals (HCounts h)))
  | _ => None
  end.

(** With pending updates, the named result is returned, which is nil. *)
Definition getState (upds : list UpdArgs) : option (option State) :=
  let returnState := mkHolder (copySlice (intCounters crdt)) (copySlice (sums crdt)) (copySlice (counts crdt))
                       (copySlice (floatCounters crdt)) (copySlice (dataCounters crdt)) in
  match upds with
  | [] => Some (Some (MultiArrayState (arraysOf returnState)))
  | _ => _ ← foldM (fun h upd => applyUpdToHolder upd h) returnState upds; Some None
  end.

Definition getFullStateOfType (upds : list UpdArgs) (t : ArrayType) : option (option State) :=
  h ← applyPendingUpdatesFull (singleCopySlicesToHolder t) t upds; Some (arrayState t h).

Definition getFullStateOfMultipleTypes (upds : list UpdArgs) (types : list ArrayType) : option (option State) :=
  h ← multiApplyPendingUpdatesFull (multiCopySlices types) types upds; Some (Some (MultiArrayState (arraysOf h))).

(** The value at a position, of one type. *)
Record Single := mkSingle { v_Int : Z; v_Avg : Z * Z; v_Float : f64; v_Data : data }.

Definition positionOf (t : ArrayType) (pos : Z) (v : Single) : option Single :=
  match t with
  | MultiInts => x ← getPositionOfSlice 0 pos (intCounters crdt); Some (mkSingle x (v_Avg v) (v_Float v) (v_Data v))
  | MultiFloats => x ← getPositionOfSlice f0 pos (floatCounters crdt); Some (mkSingle (v_Int v) (v_Avg v) x (v_Data v))
  | MultiData => x ← getPositionOfSlice None pos (dataCounters crdt); Some (mkSingle (v_Int v) (v_Avg v) (v_Float v) x)
  | MultiAvg => x ← getPositionOfAvgSlice pos (sums crdt) (counts crdt); Some (mkSingle (v_Int v) x (v_Float v) (v_Data v))
  | _ => Some v
  end.

Definition applyUpdToSingle (upd : UpdArgs) (pos : Z) (v : Single) : option Single :=
  match upd with
  | MultiArrayInt u => x ← applyUpdToSingleValue iadd u (v_Int v) pos; Some (mkSingle x (v_Avg v) (v_Float v) (v_Data v))
  | MultiArrayFloat u => x ← applyUpdToSingleValue fadd u (v_Float v) pos; Some (mkSingle (v_Int v) (v_Avg v) x (v_Data v))
  | MultiArrayData u =>
      x ← applyUpdToSingleValue overwrite (asArrUpd u) (v_Data v) pos; Some (mkSingle (v_Int v) (v_Avg v) (v_Float v) x)
  | MultiArrayAvg u => x ← applyAvgUpdToSingleValue u (v_Avg v) pos; Some (mkSingle (v_Int v) x (v_Float v) (v_Data v))
  | MultiArraySetSizes _ | MultiArrayUpdateAll _ => Some v
  end.

Definition zeroSingle : Single := mkSingle 0 (0, 0) f0 None.

Definition singleState (t : ArrayType) (v : Single) : option State :=
  match t with
  | MultiInts => Some (IntArraySingleState (v_Int v))
  | MultiFloats => Some (FloatArraySingleState (v_Float v))
  | MultiData => Some (DataArraySingleState (v_Data v))
  | MultiAvg => Some (AvgArraySingleState (v_Avg v).1 (v_Avg v).2)
  | _ => None
  end.

(** Without pending updates the counts are bounded by their own length. *)
Definition getPosStateOfType (upds : list UpdArgs) (pos : Z) (t : ArrayType) : option (option State) :=
  match upds, t with
  | [], MultiAvg =>
      s ← getPositionOfSlice 0 pos (sums crdt); c ← getPositionOfSlice 0 pos (counts crdt);
      Some (Some (AvgArraySingleState s c))
  | _, _ =>
      v ← positionOf t pos zeroSingle;
      v ← foldM (fun v upd => if decide (GetDataType upd = t) then applyUpdToSingle upd (int32 pos) v else Some v) v upds;
      Some (singleState t v)
  end.

(** The types that the switch knows index the positions. *)
Definition has_position (t : ArrayType) : bool :=
  match t with MultiInts | MultiFloats | MultiData | MultiAvg => true | _ => false end.

Definition positionsOf (positions : list Z) (v : Single) (i : nat) (t : ArrayType) : option Single :=
  if has_position t then pos ← positions !! i; positionOf t pos v else Some v.

Definition applyUpdToSingles (positions : list Z) (upd : UpdArgs) (v : Single) (i : nat) (t : ArrayType) : option Single :=
  if decide (GetDataType upd = t) then
    if has_position t then pos ← positions !! i; applyUpdToSingle upd pos v else Some v
  else Some v.

Definition getPosStateOfMultipleTypes (upds : list UpdArgs) (positions : list Z) (types : list ArrayType)
  : option (option State) :=
  let indexed := imap (fun i t => (i, t)) types in
  v ← foldM (fun v '(i, t) => positionsOf positions v i t) zeroSingle indexed;
  v ← foldM (fun v upd => foldM (fun v '(i, t) => applyUpdToSingles positions upd v i t) v indexed) v upds;
  Some (Some (MultiArraySingleState (v_Int v) (v_Avg v).1 (v_Avg v).2 (v_Float v) (v_Data v))).

(** The averages come from the object, not from the updated copies. *)
Definition makeSubStateReply (t : ArrayType) (positions : list Z) (h : MultiArrayHolder) : option (option State) :=
  match t with
  | MultiInts => l ← getSubSlice 0 (IntCounters h) positions; Some (Some (IntArrayState l))
  | MultiFloats => l ← getSubSlice f0 (FloatCounters h) positions; Some (Some (FloatArrayState l))
  | MultiData => l ← getSubSlice None (DataCounters h) positions; Some (Some (DataArrayState l))
  | MultiAvg => '(s, c) ← getSubAvgSlice (sums crdt) (counts crdt) positions; Some (Some (AvgArrayState s c))
  | _ => Some None
  end.

Definition getSubStateOfType (upds : list UpdArgs) (positions : list Z) (t : ArrayType) : option (option State) :=
  match upds with
  | [] => makeSubStateReply t positions crdtHolder
  | _ => h ← applyPendingUpdatesFull (singleCopySlicesToHolder t) t upds; makeSubStateReply t positions h
  end.

(** [res.X = getSubSlice(src.X, positions[i])]. *)
Definition subOf (src : MultiArrayHolder) (positions : list (list Z)) (res : MultiArrayHolder) (i : nat) (t : ArrayType)
  : option MultiArrayHolder :=
  if has_position t then
    pos ← positions !! i;
    match t with
    | MultiInts => l ← getSubSlice 0 (IntCounters src) pos; Some (set_HInts (of_list l) res)
    | MultiFloats => l ← getSubSlice f0 (FloatCounters src) pos; Some (set_HFloats (of_list l) res)
    | MultiData => l ← getSubSlice None (DataCounters src) pos; Some (set_HData (of_list l) res)
    | _ => '(s, c) ← getSubAvgSlice (HSums src) (HCounts src) pos; Some (set_HAvgs (of_list s, of_list c) res)
    end
  else Some res.

(** With pending updates, whole arrays are updated and cut in place. *)
Definition getSubStateOfMultipleTypes (upds : list UpdArgs) (positions : list (list Z)) (types : list ArrayType)
  : option (option State) :=
  let indexed := imap (fun i t => (i, t)) types in
  h ← match upds with
      | [] => foldM (fun r '(i, t) => subOf crdtHolder positions r i t) noHolder indexed
      | _ => h ← multiApplyPendingUpdatesFull (multiCopySlices types) types upds;
             foldM (fun r '(i, t) => subOf r positions r i t) h indexed
      end;
  Some (Some (MultiArrayState (arraysOf h))).

(** ** Registers with a number *)

(** The pending updates of one type on a value, of another on the registers. *)
Definition pendingSingle (t : ArrayType) (pos : Z) (upds : list UpdArgs) (v : Single) : option Single :=
  foldM (fun v upd => if decide (GetDataType upd = t) then applyUpdToSingle upd pos v else Some v) v upds.
Definition pendingData (upds : list UpdArgs) (d : Slice data) : option (Slice data) :=
  foldM (fun d upd => match upd with MultiArrayData u => applyDataUpdToTmpSlice u d | _ => Some d end) d upds.

Definition getDataIntState (upds : list UpdArgs) (pos : Z) : option (option State) :=
  match upds with
  | [] => v ← sget (intCounters crdt) pos;
      Some (Some (MultiArrayDataSliceIntPosState (vals (dataCounters crdt)) v))
  | _ =>
      v ← getPositionOfSlice 0 pos (intCounters crdt);
      '(v, d) ← foldM (fun '(v, d) upd =>
          match upd with
          | MultiArrayInt u => v ← applyUpdToSingleValue iadd u v pos; Some (v, d)
          | MultiArrayData u => d ← applyDataUpdToTmpSlice u d; Some (v, d)
          | _ => Some (v, d)
          end) (v, copySlice (dataCounters crdt)) upds;
      Some (Some (MultiArrayDataSliceIntPosState (vals d) v))
  end.

(** [compareType.(IntCompareArguments)] and its comparison. *)
Definition checkIntComparison (c : CompareArgs) (value : Z) : option bool :=
  match c with
  | IntCompareArguments v t =>
      Some match t with
           | EQ => value =? v | NEQ => negb (value =? v) | LEQ => value <=? v
           | L => value <? v | H => v <? value | HEQ => v <=? value
           end
  | _ => None
  end.

Definition checkFloatComparison (c : CompareArgs) (value : f64) : option bool :=
  match c with
  | FloatCompareArguments v t =>
      Some match t with
           | EQ => SFeqb value v | NEQ => negb (SFeqb value v) | LEQ => SFleb value v
           | L => SFltb value v | H => SFltb v value | HEQ => SFleb v value
           end
  | _ => None
  end.

(** The bytes of a nil slice are those of the empty one; [IsEqualComp] does not
    matter for bytes. *)
Definition checkDataComparison (c : CompareArgs) (value : data) : bool :=
  let bytes := default EmptyString value in
  match c with
  | BytesCompareArguments v _ => (bytes =? v)%string
  | StringCompareArguments v true => (bytes =? v)%string
  | StringCompareArguments v false => negb (bytes =? v)%string
  | _ => false
  end.

(** [float64(sum) / float64(count)]. *)
Definition quotient (a : Z * Z) : f64 := fdiv (float_of_int a.1) (float_of_int a.2).

(** The three comparable reads: the value is compared with all its updates, the
    registers are updated only if it holds. *)
Definition comparableState (upds : list UpdArgs) (pos : Z) (t : ArrayType) (v : Single)
  (check : Single -> option bool) (result : list data -> Single -> State) : option (option State) :=
  v ← pendingSingle t pos upds v;
  ok ← check v;
  if (ok : bool) then d ← pendingData upds (copySlice (dataCounters crdt)); Some (Some (result (vals d) v))
  else Some None.

Definition getDataIntComparableState (upds : list UpdArgs) (pos : Z) (c : CompareArgs) : option (option State) :=
  x ← sget (intCounters crdt) pos;
  comparableState upds pos MultiInts (mkSingle x (0, 0) f0 None) (fun v => checkIntComparison c (v_Int v))
    (fun d v => MultiArrayDataSliceIntPosState d (v_Int v)).

Definition getDataFloatComparableState (upds : list UpdArgs) (pos : Z) (c : CompareArgs) : option (option State) :=
  x ← sget (floatCounters crdt) pos;
  comparableState upds pos MultiFloats (mkSingle 0 (0, 0) x None) (fun v => checkFloatComparison c (v_Float v))
    (fun d v => MultiArrayDataSliceFloatPosState d (v_Float v)).

Definition getDataAvgComparableState (upds : list UpdArgs) (pos : Z) (c : CompareArgs) : option (option State) :=
  s ← sget (sums crdt) pos; n ← sget (counts crdt) pos;
  comparableState upds pos MultiAvg (mkSingle 0 (s, n) f0 None) (fun v => checkFloatComparison c (quotient (v_Avg v)))
    (fun d v => MultiArrayDataSliceAvgPosState d (v_Avg v).1 (v_Avg v).2).

Definition checkComparisonHolder (c : CompareArgs) (pos : Z) (t : ArrayType) (h : MultiArrayHolder) : option bool :=
  match t with
  | MultiInts => v ← sget (IntCounters h) pos; checkIntComparison c v
  | MultiFloats => v ← sget (FloatCounters h) pos; checkFloatComparison c v
  | MultiData => v ← sget (DataCounters h) pos; Some (checkDataComparison c v)
  | MultiAvg => s ← sget (HSums h) pos; n ← sget (HCounts h) pos; checkFloatComparison c (quotient (s, n))
  | _ => Some false
  end.

Definition checkComparison (c : CompareArgs) (pos : Z) (t : ArrayType) : option bool :=
  checkComparisonHolder c pos t crdtHolder.

(** [types] without the element at [i]. *)
Definition without (i : nat) (types : list ArrayType) : list ArrayType := take i types ++ drop (S i) types.

(** The loop ranges over the types of the arguments, and replaces them by copies
    without the compared one; a copy of the shorter list is indexed at the
    position in the first. *)
Fixpoint removeCompared (t : ArrayType) (i : nat) (types : list ArrayType) (reads : list ArrayType)
  : option (list ArrayType) :=
  match types with
  | [] => Some reads
  | t' :: types =>
      if decide (t' = t) then
        if (length reads <=? i)%nat then None else removeCompared t (S i) types (without i reads)
      else removeCompared t (S i) types reads
  end.

(** The value compared is shown if its array is not: an average with the integers
    shown counts as shown. *)
Definition withCompared (pos : Z) (t : ArrayType) (types : list ArrayType) (h : MultiArrayHolder)
  : option MultiArrayHolder :=
  let has t := bool_decide (t ∈ types) in
  match t with
  | MultiInts => if has MultiInts then Some h else v ← sget (intCounters crdt) pos; Some (set_HInts (of_list [v]) h)
  | MultiFloats => if has MultiFloats then Some h else v ← sget (floatCounters crdt) pos; Some (set_HFloats (of_list [v]) h)
  | MultiData => if has MultiData then Some h else v ← sget (dataCounters crdt) pos; Some (set_HData (of_list [v]) h)
  | MultiAvg =>
      if has MultiInts then Some h
      else s ← sget (sums crdt) pos; n ← sget (counts crdt) pos; Some (set_HAvgs (of_list [s], of_list [n]) h)
  | _ => Some h
  end.

(** With pending updates only the compared array is copied: the others start
    empty. *)
Definition getComparableState (upds : list UpdArgs) (FullReads : list ArrayType) (pos : Z) (c : CompareArgs)
  (t : ArrayType) : option (option State) :=
  match upds with
  | [] =>
      ok ← checkComparison c pos t;
      if (ok : bool) then h ← withCompared pos t FullReads (multiCopySlices FullReads);
        Some (Some (MultiArrayState (arraysOf h)))
      else Some None
  | _ =>
      h ← applyPendingUpdatesFull (singleCopySlicesToHolder t) t upds;
      ok ← checkComparisonHolder c pos t h;
      if (ok : bool) then
        reads ← removeCompared t 0 FullReads FullReads;
        h ← multiApplyPendingUpdatesFull h reads upds;
        Some (Some (MultiArrayState (arraysOf h)))
      else Some None
  end.
End reads.

(** ** Ranges *)

(** A slice [robj[roff : roff+rlen]] of the object's array, or a copy. *)
Record Range (V : Type) := mkRange { robj : Slice V; roff : Z; rlen : Z; rown : option (Slice V) }.
Arguments mkRange {V}. Arguments robj {V}. Arguments roff {V}. Arguments rlen {V}. Arguments rown {V}.

Section ranges.
Context {V : Type} (zero : V) (add : V -> V -> V).

Definition ownRange (obj s : Slice V) : Range V := mkRange obj 0 0 (Some s).

Definition rangeLen (r : Range V) : Z := match rown r with Some s => size_of s | None => rlen r end.
Definition rangeVals (r : Range V) : list V :=
  match rown r with
  | Some s => vals s
  | None => take (Z.to_nat (rlen r)) (drop (Z.to_nat (roff r)) (arr (robj r)))
  end.

(** A write to a range that is not a copy is a write to the object. *)
Definition rmod (f : V -> V) (r : Range V) (i : Z) : option (Range V) :=
  match rown r with
  | Some s => s ← smod f s i; Some (mkRange (robj r) (roff r) (rlen r) (Some s))
  | None =>
      if (0 <=? i) && (i <? rlen r)
      then s ← smod f (robj r) (roff r + i); Some (mkRange s (roff r) (rlen r) None) else None
  end.

Definition rcopy (r : Range V) (size : Z) : option (Range V) :=
  s ← copySliceWithSize zero (of_list (rangeVals r)) size; Some (mkRange (robj r) (roff r) (rlen r) (Some s)).

Definition getRangeOfSlice (obj : Slice V) (from to : Z) : option (Range V) :=
  if size_of obj <? from then Some (ownRange obj nilSlice)
  else let to := Z.min to (size_of obj) in
       if (0 <=? from) && (from <=? to) then Some (mkRange obj from (to - from) None) else None.

(** [typedUpd[from:upperCap]], where the slice of the update can be extended by
    [room] zeros. *)
Definition sliceOfUpd (room : nat) (l : list V) (from to : Z) : option (list V) :=
  if (0 <=? from) && (from <=? to) && (to <=? Z.of_nat (length l + room))
  then Some (take (Z.to_nat (to - from)) (drop (Z.to_nat from) (l ++ replicate room zero))) else None.

Fixpoint rangeAll (r : Range V) (i : Z) (l : list V) : option (Range V) :=
  match l with
  | [] => Some r
  | c :: l => r ← rmod (fun x => add x c) r i; rangeAll r (i + 1) l
  end.

(** A position of the whole array is used as an index of the range. *)
Definition rangePos (grows : Z -> Z -> bool) (from to : Z) (r : Range V) (pos : Z) (c : V) : option (Range V) :=
  if (to <=? pos) || (pos <? from) then Some r
  else r ← (if grows pos (rangeLen r) then rcopy r (int32 (pos + 1)) else Some r);
       rmod (fun x => add x c) r pos.

Fixpoint rangePositions (from to : Z) (r : Range V) (ps : list Z) (l : list V) : option (Range V) :=
  match ps, l with
  | [], _ => Some r
  | p :: ps, c :: l =>
      r ← rangePos (fun pos len => len <=? pos) from to r p c; rangePositions from to r ps l
  | p :: ps, [] => if (from <=? p) && (p <? to) then None else rangePositions from to r ps []
  end.

Definition applyUpdToRangeSlice (room : nat) (one : bool) (upd : ArrUpd V) (r : Range V) (from to : Z)
  : option (Range V) :=
  match upd with
  | IncSingle pos c => rangePos (fun pos len => len <? pos) from to r pos c
  | Inc l =>
      let n := Z.of_nat (length l) in
      '(r, upperCap) ←
        (if (rangeLen r <? n) && (rangeLen r <? to)
         then if to <? n then r ← rcopy r to; Some (r, to) else r ← rcopy r (int32 n); Some (r, n)
         else Some (r, to));
      if upperCap <=? from then Some r
      else changes ← sliceOfUpd room l from upperCap; rangeAll r from changes
  | IncPositions ps l =>
      if one then c ← head l; rangePositions from to r ps (replicate (length ps) c)
      else rangePositions from to r ps l
  | IncRange ufrom uto c =>
      if (uto <? from) || (to <? ufrom) then Some r
      else
        r ← (if rangeLen r <=? uto then rcopy r (int32 (uto + 1)) else Some r);
        let minStart := Z.max from ufrom in
        let minFinish := Z.min to uto in
        let offset := Z.max 0 (from - ufrom) in
        foldM (fun r i => rmod (fun x => add x c) r (i + offset)) r (seqZ minStart (minFinish - minStart + 1))
  end.
End ranges.

Definition applyIntUpdToRangeSlice room (upd : ArrUpd Z) := applyUpdToRangeSlice 0 iadd room (oneChange upd) upd.
Definition applyFloatUpdToRangeSlice room (upd : ArrUpd f64) := applyUpdToRangeSlice f0 fadd room (onePos upd) upd.
Definition applyDataUpdToRangeSlice room (upd : DataUpd) :=
  applyUpdToRangeSlice None overwrite room (onePos (asArrUpd upd)) (asArrUpd upd).

(** The sums and counts of a range. *)
Abbreviation AvgRange := (Range Z * Range Z)%type.

Definition getRangeOfAvgSlice (sums counts : Slice Z) (from to : Z) : option AvgRange :=
  if size_of sums <? from then Some (ownRange sums nilSlice, ownRange counts nilSlice)
  else let to := Z.min to (size_of sums) in
       if (0 <=? from) && (from <=? to) && (to <=? Z.of_nat (length (arr counts)))
       then Some (mkRange sums from (to - from) None, mkRange counts from (to - from) None) else None.

Definition incAvgAt (a : AvgRange) (pos value count : Z) : option AvgRange :=
  s ← rmod (fun x => iadd x value) a.1 pos; c ← rmod (fun x => iadd x count) a.2 pos; Some (s, c).

Definition rcopyAvg (a : AvgRange) (size sizeCounts : Z) : option AvgRange :=
  s ← rcopy 0 a.1 size; c ← rcopy 0 a.2 sizeCounts; Some (s, c).

(** Sums from [from] on, counts from the start of the update. *)
Fixpoint rangeAllAvg (a : AvgRange) (i : Z) (value count : list Z) : option AvgRange :=
  match value, count with
  | [], _ => Some a
  | v :: value, c :: count => a ← incAvgAt a i v c; rangeAllAvg a (i + 1) value count
  | _ :: _, [] => None
  end.

Definition avgRangePos (grows : Z -> Z -> bool) (from to : Z) (a : AvgRange) (pos value count : Z) : option AvgRange :=
  if (to <=? pos) || (pos <? from) then Some a
  else a ← (if grows pos (rangeLen a.1) then rcopyAvg a (int32 (pos + 1)) (int32 (pos + 1)) else Some a);
       incAvgAt a pos value count.

Fixpoint avgRangePositions (from to : Z) (a : AvgRange) (ps value count : list Z) : option AvgRange :=
  match ps, value, count with
  | [], _, _ => Some a
  | p :: ps, v :: value, c :: count =>
      a ← avgRangePos (fun pos len => len <=? pos) from to a p v c; avgRangePositions from to a ps value count
  | p :: ps, value, count =>
      if (from <=? p) && (p <? to) then None else avgRangePositions from to a ps (tail value) (tail count)
  end.

Definition applyAvgUpdToRangeSlice (room : nat) (upd : AvgUpd) (a : AvgRange) (from to : Z) : option AvgRange :=
  match upd with
  | IncAvgSingle value count pos => avgRangePos (fun pos len => len <? pos) from to a pos value count
  | IncAvg value count =>
      let n := Z.of_nat (length value) in
      '(a, upperCap) ←
        (if (rangeLen a.1 <? n) && (rangeLen a.1 <? to)
         then if to <? n then a ← rcopyAvg a to to; Some (a, to)
              else a ← rcopyAvg a (int32 n) (int32 (Z.of_nat (length count))); Some (a, n)
         else Some (a, to));
      if upperCap <=? from then Some a
      else changes ← sliceOfUpd 0 room value from upperCap; rangeAllAvg a from changes count
  | IncAvgPositions value count ps =>
      if is_one ps then v ← head value; c ← head count;
        avgRangePositions from to a ps (replicate (length ps) v) (replicate (length ps) c)
      else avgRangePositions from to a ps value count
  | IncAvgRange ufrom uto value count =>
      if (uto <? from) || (to <? ufrom) then Some a
      else
        a ← (if rangeLen a.1 <=? uto then rcopyAvg a (int32 (uto + 1)) (int32 (uto + 1)) else Some a);
        let minStart := Z.max from ufrom in
        let minFinish := Z.min to uto in
        let offset := Z.max 0 (from - ufrom) in
        foldM (fun a i => incAvgAt a (i + offset) value count) a (seqZ minStart (minFinish - minStart + 1))
  end.

Record RangeHolder := mkRanges {
  r_Ints : Range Z; r_Floats : Range f64; r_Data : Range data; r_Avgs : AvgRange }.

Definition set_rInts x h := mkRanges x (r_Floats h) (r_Data h) (r_Avgs h).
Definition set_rFloats x h := mkRanges (r_Ints h) x (r_Data h) (r_Avgs h).
Definition set_rData x h := mkRanges (r_Ints h) (r_Floats h) x (r_Avgs h).
Definition set_rAvgs x h := mkRanges (r_Ints h) (r_Floats h) (r_Data h) x.

Section range_reads.
Variable room : UpdArgs -> nat.

(** Nothing read yet: nil slices. *)
Definition noRanges (crdt : MultiArrayCrdt) : RangeHolder :=
  mkRanges (ownRange (intCounters crdt) nilSlice) (ownRange (floatCounters crdt) nilSlice)
    (ownRange (dataCounters crdt) nilSlice) (ownRange (sums crdt) nilSlice, ownRange (counts crdt) nilSlice).

Definition rangesArrays (h : RangeHolder) : Arrays :=
  mkArrays (rangeVals (r_Ints h)) (rangeVals (r_Avgs h).1) (rangeVals (r_Avgs h).2) (rangeVals (r_Floats h))
    (rangeVals (r_Data h)).

(** The object after the writes to its arrays. *)
Definition writtenBack (h : RangeHolder) (crdt : MultiArrayCrdt) : MultiArrayCrdt :=
  mkMulti (robj (r_Ints h)) (robj (r_Avgs h).1) (robj (r_Avgs h).2) (robj (r_Floats h)) (robj (r_Data h))
    (dataTsId crdt) (replicaID crdt).

Definition readRange (crdt : MultiArrayCrdt) (from to : Z) (t : ArrayType) (h : RangeHolder) : option RangeHolder :=
  match t with
  | MultiInts => r ← getRangeOfSlice (intCounters crdt) from to; Some (set_rInts r h)
  | MultiFloats => r ← getRangeOfSlice (floatCounters crdt) from to; Some (set_rFloats r h)
  | MultiData => r ← getRangeOfSlice (dataCounters crdt) from to; Some (set_rData r h)
  | MultiAvg => r ← getRangeOfAvgSlice (sums crdt) (counts crdt) from to; Some (set_rAvgs r h)
  | _ => Some h
  end.

Definition applyUpdToRanges (upd : UpdArgs) (from to : Z) (h : RangeHolder) : option RangeHolder :=
  match upd with
  | MultiArrayInt u => r ← applyIntUpdToRangeSlice (room upd) u (r_Ints h) from to; Some (set_rInts r h)
  | MultiArrayFloat u => r ← applyFloatUpdToRangeSlice (room upd) u (r_Floats h) from to; Some (set_rFloats r h)
  | MultiArrayData u => r ← applyDataUpdToRangeSlice (room upd) u (r_Data h) from to; Some (set_rData r h)
  | MultiArrayAvg u => a ← applyAvgUpdToRangeSlice (room upd) u (r_Avgs h) from to; Some (set_rAvgs a h)
  | MultiArraySetSizes _ | MultiArrayUpdateAll _ => Some h
  end.

(** The range grows as a copy of the whole array of the object, or as a copy of
    itself ([own]). *)
Definition resize {V} (zero : V) (own : bool) (size : Z) (r : Range V) : option (Range V) :=
  if own then rcopy zero r size
  else s ← copySliceWithSize zero (robj r) size; Some (mkRange (robj r) (roff r) (rlen r) (Some s)).

Definition applySizeUpdToRanges (own : bool) (s : SetSizes) (t : ArrayType) (h : RangeHolder) : option RangeHolder :=
  match t with
  | MultiInts => if rangeLen (r_Ints h) <? IntSize s then r ← resize 0 own (IntSize s) (r_Ints h); Some (set_rInts r h) else Some h
  | MultiFloats => if rangeLen (r_Floats h) <? FloatSize s then r ← resize f0 own (FloatSize s) (r_Floats h); Some (set_rFloats r h) else Some h
  | MultiData => if rangeLen (r_Data h) <? RegisterSize s then r ← resize None own (RegisterSize s) (r_Data h); Some (set_rData r h) else Some h
  | MultiAvg =>
      if rangeLen (r_Avgs h).1 <? IntSize s
      then a ← resize 0 own (IntSize s) (r_Avgs h).1; c ← resize 0 own (IntSize s) (r_Avgs h).2; Some (set_rAvgs (a, c) h)
      else Some h
  | _ => Some h
  end.

Definition rangeState (t : ArrayType) (h : RangeHolder) : option State :=
  match t with
  | MultiInts => Some (IntArrayState (rangeVals (r_Ints h)))
  | MultiFloats => Some (FloatArrayState (rangeVals (r_Floats h)))
  | MultiData => Some (DataArrayState (rangeVals (r_Data h)))
  | MultiAvg => Some (AvgArrayState (rangeVals (r_Avgs h).1) (rangeVals (r_Avgs h).2))
  | _ => None
  end.

Definition getRangeStateOfType (crdt : MultiArrayCrdt) (upds : list UpdArgs) (from to : Z) (t : ArrayType)
  : option (option State * MultiArrayCrdt) :=
  h ← readRange crdt from to t (noRanges crdt);
  h ← foldM (fun h upd =>
        if decide (GetDataType upd = t) then applyUpdToRanges upd from to h
        else match upd with MultiArraySetSizes s => applySizeUpdToRanges false s t h | _ => Some h end) h upds;
  Some (rangeState t h, writtenBack h crdt).

(** Every type of the list that is the update's applies it. *)
Definition applyUpdToTypes (from to : list Z) (upd : UpdArgs) (h : RangeHolder) (i : nat) (t : ArrayType) : option RangeHolder :=
  if decide (GetDataType upd = t) then
    if has_position t then f ← from !! i; e ← to !! i; applyUpdToRanges upd f e h else Some h
  else match upd with MultiArraySetSizes s => applySizeUpdToRanges true s t h | _ => Some h end.

Definition getRangeStateOfMultipleTypes (crdt : MultiArrayCrdt) (upds : list UpdArgs) (from to : list Z)
  (types : list ArrayType) : option (option State * MultiArrayCrdt) :=
  let indexed := imap (fun i t => (i, t)) types in
  h ← foldM (fun h '(i, t) =>
        if has_position t then f ← from !! i; e ← to !! i; readRange crdt f e t h else Some h) (noRanges crdt) indexed;
  h ← foldM (fun h upd => foldM (fun h '(i, t) => applyUpdToTypes from to upd h i t) h indexed) h upds;
  Some (Some (MultiArrayState (rangesArrays h)), writtenBack h crdt).

(** ** The custom read *)

Definition getMultiArrayCustomType (pos : list Z) : CustomType :=
  match pos with
  | [] => CustomIgnore
  | [p] => if 0 <=? p then CustomSingle else CustomFull
  | [p; q] => if p <? q then CustomRange else CustomSub
  | _ => CustomSub
  end.

(** What is read of an array: for a list of positions, the whole array. *)
Definition customArray {V} (obj : Slice V) (pos : list Z) : option (Range V) :=
  match getMultiArrayCustomType pos with
  | CustomIgnore => Some (ownRange obj nilSlice)
  | CustomFull | CustomSub => Some (ownRange obj (copySlice obj))
  | CustomSingle => p ← pos !! 0%nat; v ← sget obj p; Some (ownRange obj (of_list [v]))
  | CustomRange => p ← pos !! 0%nat; q ← pos !! 1%nat; getRangeOfSlice obj p q
  end.

(** The averages of a read without pending updates; their range is the one of the
    floating-point counters. *)
Definition customAvgs (crdt : MultiArrayCrdt) (AvgPos FloatPos : list Z) : option AvgRange :=
  let own l l' := (ownRange (sums crdt) l, ownRange (counts crdt) l') in
  match getMultiArrayCustomType AvgPos with
  | CustomIgnore => Some (own nilSlice nilSlice)
  | CustomFull => Some (own (copySlice (sums crdt)) (copySlice (counts crdt)))
  | CustomSingle =>
      p ← AvgPos !! 0%nat; '(s, c) ← getPositionOfAvgSlice p (sums crdt) (counts crdt);
      Some (own (of_list [s]) (of_list [c]))
  | CustomRange => p ← FloatPos !! 0%nat; q ← FloatPos !! 1%nat; getRangeOfAvgSlice (sums crdt) (counts crdt) p q
  | CustomSub => '(s, c) ← getSubAvgSlice (sums crdt) (counts crdt) AvgPos; Some (own (of_list s) (of_list c))
  end.

(** The arrays of a custom read before the updates: with pending updates the
    averages are not read. *)
Definition customRead (crdt : MultiArrayCrdt) (pending : bool) (IntPos FloatPos DataPos AvgPos : list Z)
  : option RangeHolder :=
  a ← (if pending then Some (r_Avgs (noRanges crdt)) else customAvgs crdt AvgPos FloatPos);
  i ← customArray (intCounters crdt) IntPos;
  f ← customArray (floatCounters crdt) FloatPos;
  d ← customArray (dataCounters crdt) DataPos;
  Some (mkRanges i f d a).

(** [f] on the copy that the range is. *)
Definition onOwn {V} (f : Slice V -> option (Slice V)) (r : Range V) : option (Range V) :=
  s ← rown r; s ← f s; Some (mkRange (robj r) (roff r) (rlen r) (Some s)).

Definition customUpd {V} (add : V -> V -> V) (tmp : Slice V -> option (Slice V))
  (range : Range V -> Z -> Z -> option (Range V)) (upd : ArrUpd V) (pos : list Z) (r : Range V) : option (Range V) :=
  match getMultiArrayCustomType pos with
  | CustomIgnore => Some r
  | CustomFull | CustomSub => onOwn tmp r
  | CustomSingle =>
      p ← pos !! 0%nat;
      onOwn (fun s => v ← sget s 0; v ← applyUpdToSingleValue add upd v p; sset s 0 v) r
  | CustomRange => p ← pos !! 0%nat; q ← pos !! 1%nat; range r p q
  end.

Definition customAvgUpd (room : nat) (upd : AvgUpd) (pos : list Z) (a : AvgRange) : option AvgRange :=
  match getMultiArrayCustomType pos with
  | CustomIgnore => Some a
  | CustomFull | CustomSub =>
      s ← rown a.1; c ← rown a.2; '(s, c) ← applyAvgUpdToTmpSlice upd (s, c);
      Some (ownRange (robj a.1) s, ownRange (robj a.2) c)
  | CustomSingle =>
      p ← pos !! 0%nat; s ← rown a.1; c ← rown a.2; v ← sget s 0; n ← sget c 0;
      '(v, n) ← applyAvgUpdToSingleValue upd (v, n) p; s ← sset s 0 v; c ← sset c 0 n;
      Some (ownRange (robj a.1) s, ownRange (robj a.2) c)
  | CustomRange => p ← pos !! 0%nat; q ← pos !! 1%nat; applyAvgUpdToRangeSlice room upd a p q
  end.

Definition customUpds (IntPos FloatPos DataPos AvgPos : list Z) (h : RangeHolder) (upd : UpdArgs) : option RangeHolder :=
  match upd with
  | MultiArrayInt u =>
      r ← customUpd iadd (applyIntUpdToTmpSlice u) (applyIntUpdToRangeSlice (room upd) u) u IntPos (r_Ints h);
      Some (set_rInts r h)
  | MultiArrayFloat u =>
      r ← customUpd fadd (applyFloatUpdToTmpSlice u) (applyFloatUpdToRangeSlice (room upd) u) u FloatPos (r_Floats h);
      Some (set_rFloats r h)
  | MultiArrayData u =>
      r ← customUpd overwrite (applyDataUpdToTmpSlice u) (applyDataUpdToRangeSlice (room upd) u) (asArrUpd u) DataPos
            (r_Data h);
      Some (set_rData r h)
  | MultiArrayAvg u => a ← customAvgUpd (room upd) u AvgPos (r_Avgs h); Some (set_rAvgs a h)
  | MultiArraySetSizes _ | MultiArrayUpdateAll _ => Some h
  end.

(** The positions are picked at the end, of the averages a second time. *)
Definition customSub {V} (zero : V) (pos : list Z) (r : Range V) : option (Range V) :=
  if decide (getMultiArrayCustomType pos = CustomSub)
  then l ← getSubSlice zero (of_list (rangeVals r)) pos; Some (ownRange (robj r) (of_list l)) else Some r.
Definition customSubAvg (pos : list Z) (a : AvgRange) : option AvgRange :=
  if decide (getMultiArrayCustomType pos = CustomSub)
  then '(s, c) ← getSubAvgSlice (of_list (rangeVals a.1)) (of_list (rangeVals a.2)) pos;
       Some (ownRange (robj a.1) (of_list s), ownRange (robj a.2) (of_list c))
  else Some a.

Definition getCustomState (crdt : MultiArrayCrdt) (upds : list UpdArgs) (IntPos FloatPos DataPos AvgPos : list Z)
  : option (option State * MultiArrayCrdt) :=
  h ← customRead crdt (match upds with [] => false | _ => true end) IntPos FloatPos DataPos AvgPos;
  h ← foldM (customUpds IntPos FloatPos DataPos AvgPos) h upds;
  i ← customSub 0 IntPos (r_Ints h);
  f ← customSub f0 FloatPos (r_Floats h);
  d ← customSub None DataPos (r_Data h);
  a ← customSubAvg AvgPos (r_Avgs h);
  let h := mkRanges i f d a in
  Some (Some (MultiArrayState (rangesArrays h)), writtenBack h crdt).

(** ** Read *)

(** The reads that do not touch the object. *)
Definition pureRead (crdt : MultiArrayCrdt) (r : option (option State)) : option (option State * MultiArrayCrdt) :=
  s ← r; Some (s, crdt).

Definition Read (crdt : MultiArrayCrdt) (args : ReadArgs) (upds : list UpdArgs)
  : option (option State * MultiArrayCrdt) :=
  match args with
  | StateReadArguments => pureRead crdt (getState crdt upds)
  | MultiArrayDataIntArguments pos => pureRead crdt (getDataIntState crdt upds pos)
  | MultiArrayDataIntComparableArguments pos c => pureRead crdt (getDataIntComparableState crdt upds pos c)
  | MultiArrayDataFloatComparableArguments pos c => pureRead crdt (getDataFloatComparableState crdt upds pos c)
  | MultiArrayDataAvgComparableArguments pos c => pureRead crdt (getDataAvgComparableState crdt upds pos c)
  | MultiArrayComparableArguments reads pos c t => pureRead crdt (getComparableState crdt upds reads pos c t)
  | MultiArrayFullArguments t => pureRead crdt (getFullStateOfType crdt upds t)
  | MultiArrayFullTypesArguments types => pureRead crdt (getFullStateOfMultipleTypes crdt upds types)
  | MultiArrayCustomArguments i f d a => getCustomState crdt upds i f d a
  | MultiArrayPosArguments pos t => pureRead crdt (getPosStateOfType crdt upds pos t)
  | MultiArrayPosTypesArguments ps types => pureRead crdt (getPosStateOfMultipleTypes crdt upds ps types)
  | MultiArrayRangeArguments from to t => getRangeStateOfType crdt upds from to t
  | MultiArrayRangeTypesArguments from to types => getRangeStateOfMultipleTypes crdt upds from to types
  | MultiArraySubArguments ps t => pureRead crdt (getSubStateOfType crdt upds ps t)
  | MultiArraySubTypesArguments ps types => pureRead crdt (getSubStateOfMultipleTypes crdt upds ps types)
  | OtherReadArguments => Some (None, crdt)
  end.
End range_reads.
