(* ===== verification/MultiArrayReadsSpec.v ===== *)
(** * Reads of the multi-array: a transaction reads its own updates

    Whole arrays, lists of positions and single positions that are read with the
    pending updates of a transaction are those that are read after the updates
    are applied (files MultiArrayReads, MultiArrayOps and MultiArrayMerge); for
    which updates this is not so. *)

From S2P Require Import Prelude ClockSI Inversible EmbObjects Convergence GoSlice MultiArray MultiArrayOps MultiArrayMerge.
From S2P Require Import FloatCounters MultiArrayReads.
From Stdlib Require Import ZArith Lia Bool SpecFloat.
From stdpp Require Import base tactics numbers strings sorting list.
#[local] Open Scope Z_scope.

(** ** Pending updates *)

(** A change for each position. *)
Definition each {V} (u : ArrUpd V) : Prop :=
  match u with IncPositions pos l => (length pos <= length l)%nat | _ => True end.

Definition avg_each (u : AvgUpd) : Prop :=
  match u with
  | IncAvg v c => length v = length c
  | IncAvgPositions v c pos => (length pos <= length v)%nat /\ (length pos <= length c)%nat
  | _ => True
  end.

Definition distinct {V} (u : ArrUpd V) : Prop := match u with IncPositions pos _ => NoDup pos | _ => True end.

(** The updates that reads of arrays follow: the regular ones of one array, with a
    change for each position (of integers, one for all will do), and at most one
    value for a register. *)
Definition pending_ok (upd : UpdArgs) : Prop :=
  match upd with
  | MultiArrayInt u => upd_ok u
  | MultiArrayFloat u => upd_ok u /\ no_range u /\ each u
  | MultiArrayData u => data_ok u /\ each (asArrUpd u) /\ distinct (asArrUpd u)
  | MultiArrayAvg u => avg_ok u /\ avg_each u
  | MultiArraySetSizes _ | MultiArrayUpdateAll _ => False
  end.

(** The transaction commits: each update is made into its effect at some time, and
    applied. *)
Fixpoint commits (c : MultiArrayCrdt) (l : list (Z * UpdArgs)) : option MultiArrayCrdt :=
  match l with
  | [] => Some c
  | (now, upd) :: l => '(c, _) ← applyDownstream c (Update now c upd); commits c l
  end.

(** The stamps of the registers that are written. *)
Definition reg_stamps (id : Z) (l : list (Z * UpdArgs)) : list Z :=
  omap (fun '(now, upd) =>
    match upd with MultiArrayData _ => Some (generate64BitTsAndId now id) | _ => None end) l.

(** No register is as new as [ts]. *)
Definition newest (c : MultiArrayCrdt) (ts : Z) : Prop := forall i, (reg_at (regs c) i).2 < ts.

(** ** Updates of copies *)

Section copies.
Context {V : Type} (zero : V) (add : V -> V -> V).

Lemma changes_each pos (l : list V) i : (length pos <= length l)%nat ->
  changes_at (IncPositions pos l) i = at_positions pos l i.
Proof.
  intros Hl. cbn [changes_at]. destruct l as [|c [|d l]]; try done.
  by destruct pos as [|p [|q pos]]; [..|simpl in Hl; lia].
Qed.

Lemma tmp_folds (one : bool) (u : ArrUpd V) s : slice_ok s -> upd_ok u ->
  one = oneChange u \/ (one = onePos u /\ each u) ->
  exists s', applyUpdToTmpSlice zero add one u s = Some s' /\ folds zero add s s' (upd_size u) (changes_at u).
Proof.
  intros Hs Hu Hone. destruct u as [pos x|l|pos l|from to x]; cbn [applyUpdToTmpSlice].
  - by apply incSingle_folds.
  - by apply incAll_folds.
  - destruct Hone as [->|[-> He]]; [by apply incPositions_folds|]. destruct Hu as [Hp _]. cbn [each onePos] in He |- *.
    destruct (incPos_folds zero add pos s l Hs Hp He) as (s' & E & Hf). exists s'. split.
    + unfold incPositions, is_one. destruct pos as [|p [|q pos]]; [done| |done]. by destruct l as [|c l]; [simpl in He; lia|].
    + eapply folds_ext; [exact Hf|done|]. intros i. by rewrite changes_each.
  - by apply incRange_folds.
Qed.

(** The same changes of the same elements. *)
Lemma folds_same s1 s2 s1' s2' n ch : slice_ok s1 -> slice_ok s2 -> vals s1 = vals s2 ->
  folds zero add s1 s1' n ch -> folds zero add s2 s2' n ch -> vals s1' = vals s2'.
Proof.
  intros H1 H2 Hv [K1 L1 _ V1] [K2 L2 _ V2].
  assert (Hl : slen s1' = slen s2') by by rewrite L1, L2, <- (vals_length s1), <- (vals_length s2), Hv.
  apply list_eq. intros i. destruct (decide (i < slen s1')%nat).
  - rewrite V1, V2 by lia. by rewrite Hv.
  - rewrite !vals_above by (done || lia). done.
Qed.

Lemma folds_nothing s s' : slice_ok s -> folds zero add s s' 0 nothing -> vals s' = vals s.
Proof. intros Hs Hf. by apply (folds_same s s s' s 0 nothing); [..|apply folds_refl]. Qed.
End copies.

(** ** Registers *)

Lemma at_positions_one {V} pos : forall (l : list V) i, NoDup pos -> (length (at_positions pos l i) <= 1)%nat.
Proof.
  assert (Hnone : forall pos (l : list V) i, Z.of_nat i ∉ pos -> at_positions pos l i = []).
  { clear. induction pos as [|p pos IH]; intros [|c l] i Hi; try done. apply not_elem_of_cons in Hi as [H1 H2].
    unfold at_positions in *. cbn [zip_with mjoin list_join]. rewrite IH by done. unfold at_pos.
    by rewrite decide_False by done. }
  induction pos as [|p pos IH]; intros [|c l] i Hd; [cbn; lia..|]. apply NoDup_cons in Hd as [Hp Hd].
  pose proof (IH l i Hd) as Hl. unfold at_positions in *. cbn [zip_with mjoin list_join]. unfold at_pos at 1. case_decide as E.
  - rewrite Hnone by by rewrite E. done.
  - done.
Qed.

(** A write is one value with the stamp. *)
Lemma data_at_changes u ts i : each (asArrUpd u) -> data_at u ts i = stamped ts <$> changes_at (asArrUpd u) i.
Proof.
  intros He. destruct u as [pos v|l|pos l|from to v]; cbn [data_at asArrUpd].
  - cbn [changes_at]. unfold at_pos. by case_decide.
  - cbn [changes_at]. by destruct (l !! i).
  - rewrite changes_each by done. cbn [asArrUpd each] in He.
    assert (Hs : forall pos l, (length pos <= length l)%nat ->
        at_positions pos (stamped ts <$> l) i = stamped ts <$> at_positions pos l i).
    { clear. unfold at_positions, at_pos. induction pos as [|p pos IH]; intros [|c l] Hl; try done.
      cbn [fmap list_fmap zip_with mjoin list_join]. rewrite IH by (simpl in Hl; lia). case_decide; done. }
    rewrite <- Hs by done. destruct l as [|c [|d l]]; try done. by destruct pos as [|p [|q pos]]; [..|simpl in He; lia].
  - cbn [changes_at]. by case_decide.
Qed.

Lemma changes_at_one {V} (u : ArrUpd V) i : each u -> distinct u -> (length (changes_at u i) <= 1)%nat.
Proof.
  intros He Hd. destruct u as [pos x|l|pos l|from to x].
  - cbn. unfold at_pos. case_decide; cbn; lia.
  - cbn. destruct (l !! i); cbn; lia.
  - rewrite changes_each by done. by apply at_positions_one.
  - cbn. case_decide; cbn; lia.
Qed.

(** A newer write of one value replaces the value. *)
Lemma write_value u ts i (x : data * Z) : each (asArrUpd u) -> distinct (asArrUpd u) -> x.2 < ts ->
  (foldl newer x (data_at u ts i)).1 = foldl overwrite x.1 (changes_at (asArrUpd u) i).
Proof.
  intros He Hd Hx. rewrite (data_at_changes u ts i He). pose proof (changes_at_one _ i He Hd) as H1.
  destruct (changes_at (asArrUpd u) i) as [|v [|w l]]; [done| |simpl in H1; lia].
  cbn [fmap list_fmap foldl overwrite]. unfold newer, stamped. cbn [snd]. by rewrite (proj2 (Z.ltb_lt _ _) Hx).
Qed.

Lemma data_folds_writes d d' r r' n u ts : slice_ok d -> regs_ok r -> vals d = vals r.1 ->
  each (asArrUpd u) -> distinct (asArrUpd u) -> (forall i, (reg_at r i).2 < ts) ->
  folds None overwrite d d' n (changes_at (asArrUpd u)) -> writes r r' n (data_at u ts) -> vals d' = vals r'.1.
Proof.
  intros Hd Hr Hv He Hdi Hnew [K1 L1 _ V1] [K2 L2 _ V2].
  assert (Hl : slen d' = slen r'.1).
  { by rewrite L1, L2, <- (vals_length d), <- (vals_length r.1), Hv by (done || apply Hr). }
  apply list_eq. intros i. destruct (decide (i < slen d')%nat) as [Hi|Hi].
  - rewrite V1 by done. destruct (lookup_lt_is_Some_2 (vals r'.1) i) as [x Hx]; [rewrite vals_length by apply K2; lia|].
    rewrite Hx. f_equal. assert (x = (reg_at r' i).1) as -> by (unfold reg_at; by rewrite Hx).
    rewrite V2, write_value by (done || apply Hnew). by rewrite Hv.
  - rewrite !vals_above; [done|apply K2|lia|done|lia].
Qed.

Lemma writes_nothing r r' : regs_ok r -> writes r r' 0 nothing -> vals r'.1 = vals r.1 /\ forall i, reg_at r' i = reg_at r i.
Proof.
  intros Hr [K L _ Vs]. assert (H : forall i, reg_at r' i = reg_at r i) by (intros i; by rewrite Vs). split; [|done].
  apply list_eq. intros i. destruct (decide (i < slen r.1)%nat).
  - pose proof (H i) as Hi. unfold reg_at in Hi. injection Hi as Hi _.
    destruct (lookup_lt_is_Some_2 (vals r'.1) i) as [x Hx]; [rewrite vals_length by apply K; lia|].
    destruct (lookup_lt_is_Some_2 (vals r.1) i) as [y Hy]; [rewrite vals_length by apply Hr; lia|].
    rewrite Hx, Hy in *. cbn in Hi. by rewrite Hi.
  - rewrite !vals_above; [done|apply Hr|lia|apply K|lia].
Qed.

Lemma writes_newest r r' n u ts ts' : each (asArrUpd u) -> writes r r' n (data_at u ts) ->
  (forall i, (reg_at r i).2 < ts) -> ts < ts' -> forall i, (reg_at r' i).2 < ts'.
Proof.
  intros He [_ _ _ Vs] Hold Hts i. rewrite Vs, (data_at_changes u ts i He). specialize (Hold i).
  generalize (changes_at (asArrUpd u) i). intros l. revert Hold. generalize (reg_at r i).
  assert (H : forall x, x.2 < ts' -> (foldl newer x (stamped ts <$> l)).2 < ts').
  { induction l as [|v l IH]; intros x Hx; [done|]. cbn [fmap list_fmap foldl]. apply IH. unfold newer, stamped.
    cbn [snd]. by destruct (x.2 <? ts). }
  intros x Hx. apply H. lia.
Qed.

(** ** The arrays of the types read *)

Definition if_in {A} (t : ArrayType) (types : list ArrayType) (l : list A) : list A :=
  if decide (t ∈ types) then l else [].

(** What an object shows of the types, the others empty. *)
Definition shown (types : list ArrayType) (c : MultiArrayCrdt) : Arrays :=
  mkArrays (if_in MultiInts types (vals (intCounters c))) (if_in MultiAvg types (vals (sums c)))
    (if_in MultiAvg types (vals (counts c))) (if_in MultiFloats types (vals (floatCounters c)))
    (if_in MultiData types (vals (dataCounters c))).

Record holder_ok (h : MultiArrayHolder) : Prop := {
  ho_int : slice_ok (IntCounters h); ho_float : slice_ok (FloatCounters h); ho_data : slice_ok (DataCounters h);
  ho_avg : avgs_ok (HSums h, HCounts h) }.

Definition holds (types : list ArrayType) (h : MultiArrayHolder) (c : MultiArrayCrdt) : Prop :=
  holder_ok h /\ arraysOf h = shown types c.

Lemma copySlice_ok {V} (s : Slice V) : slice_ok (copySlice s).
Proof. apply of_list_ok. Qed.

Lemma copies_ok c t h : multi_ok c -> holder_ok h -> holder_ok (copyArray c t h).
Proof.
  intros [Ki Kf [K1 K2 K3] Kr] [Hi Hf Hd Ha]. destruct t; cbn [copyArray]; split; cbn; try done; try apply copySlice_ok.
  split; cbn; try apply copySlice_ok. rewrite !vals_length by done. done.
Qed.

Lemma copyArray_shown c types : forall h, multi_ok c -> holder_ok h ->
  let h' := foldl (fun h t => copyArray c t h) h types in
  holder_ok h' /\
  arraysOf h' = mkArrays
    (if decide (MultiInts ∈ types) then vals (intCounters c) else s_Ints (arraysOf h))
    (if decide (MultiAvg ∈ types) then vals (sums c) else s_Sums (arraysOf h))
    (if decide (MultiAvg ∈ types) then vals (counts c) else s_Counts (arraysOf h))
    (if decide (MultiFloats ∈ types) then vals (floatCounters c) else s_Floats (arraysOf h))
    (if decide (MultiData ∈ types) then vals (dataCounters c) else s_Data (arraysOf h)).
Proof.
  induction types as [|t types IH]; intros h Hc Hh; cbv zeta; cbn [foldl].
  { split; [done|]. rewrite !decide_False by apply not_elem_of_nil. by destruct h. }
  destruct (IH (copyArray c t h) Hc) as [H1 H2]; [by apply copies_ok|]. split; [done|]. rewrite H2. clear.
  assert (Hin : forall {A} (P : ArrayType) (x y z : A), (P = t -> z = x) -> (P <> t -> z = y) ->
      (if decide (P ∈ types) then x else z) = if decide (P ∈ t :: types) then x else y).
  { intros A P x y z Heq Hne. destruct (decide (P ∈ types)) as [H|H].
    - by rewrite decide_True by by right.
    - destruct (decide (P ∈ t :: types)) as [H'|H'].
      + apply elem_of_cons in H' as [->|H']; [by apply Heq|done].
      + apply Hne. intros ->. apply H'. left. }
  f_equal; apply Hin; destruct t; intros E; try done; exact (vals_copySlice _).
Qed.

Lemma noHolder_ok : holder_ok noHolder.
Proof. split; [..|split]; by unfold slice_ok. Qed.

Lemma copies_hold c types : multi_ok c -> holds types (multiCopySlices c types) c.
Proof.
  intros Hc. destruct (copyArray_shown c types noHolder Hc noHolder_ok) as [H1 H2]. split; [done|].
  unfold multiCopySlices. by rewrite H2.
Qed.

Lemma singleCopy c t : singleCopySlicesToHolder c t = multiCopySlices c [t].
Proof. done. Qed.

(** ** One update *)

Definition untouched (c c' : MultiArrayCrdt) (t : ArrayType) : Prop :=
  (t <> MultiInts -> vals (intCounters c') = vals (intCounters c)) /\
  (t <> MultiFloats -> vals (floatCounters c') = vals (floatCounters c)) /\
  (t <> MultiData -> vals (dataCounters c') = vals (dataCounters c)) /\
  (t <> MultiAvg -> vals (sums c') = vals (sums c) /\ vals (counts c') = vals (counts c)).

Lemma applied_untouched c c' op t : multi_ok c -> applied c c' (changes_of op) ->
  match op with
  | DownInt _ => t = MultiInts | DownFloat _ => t = MultiFloats | DownData _ _ => t = MultiData
  | DownAvg _ => t = MultiAvg | _ => False end ->
  untouched c c' t.
Proof.
  intros [Ki Kf [Ks Kc _] Kr] [Hi Hf [Hs Hn] Hr] Ht.
  destruct op as [z|u|u|u ts|u|u ts|]; try done; subst t; destruct u; (repeat split); intros; try done;
    first [by apply (folds_nothing 0 iadd)|by apply (folds_nothing f0 fadd)|by apply (writes_nothing (regs c) (regs c'))].
Qed.

Lemma incAvgPosTmp_folds pos : forall a v c, avgs_ok a -> Forall (fun p => 0 <= p < MaxInt32) pos ->
  (length pos <= length v)%nat -> (length pos <= length c)%nat ->
  exists a', incAvgPosTmp a pos v c = Some a' /\
    avg_folds a a' (pos_size pos) (at_positions pos v) (at_positions pos c).
Proof.
  induction pos as [|p pos IH]; intros a v c Ha Hp Hv Hc; cbn [incAvgPosTmp].
  { exists a. split; [by destruct v, c|]. by apply avg_folds_refl. }
  destruct v as [|x v]; [simpl in Hv; lia|]. destruct c as [|y c]; [simpl in Hc; lia|].
  apply Forall_cons in Hp as [Hp1 Hp2]. unfold incAvgSingle.
  destruct (incAvgSingle_folds a p x y _ Ha Hp1 eq_refl) as (a1 & -> & Hf1). cbn [mbind option_bind].
  destruct (IH a1 v c) as (a2 & -> & Hf2); [by eapply avg_folds_ok|done|simpl in Hv; lia|simpl in Hc; lia|].
  exists a2. split; [done|]. eapply avg_folds_ext; [by eapply avg_folds_trans|done|done|done].
Qed.

Lemma avg_tmp_folds a u : avgs_ok a -> avg_ok u -> avg_each u ->
  let h := changes_of (DownAvg u) in
  exists a', applyAvgUpdToTmpSlice u a = Some a' /\ avg_folds a a' (n_avg h) (ch_sum h) (ch_count h).
Proof.
  intros Ha Hu He. cbv zeta. destruct u as [v n pos|v n|v n pos|]; [..|done]; cbn [applyAvgUpdToTmpSlice].
  - by apply incAvgSingle_folds.
  - destruct Hu as [H1 H2]. destruct (incAvgAll_grow_folds a v n Ha H1 H2) as (a1 & a2 & E1 & E2 & Hf).
    cbn [avg_each] in He. rewrite <- He. unfold expandAvgArray in E1. rewrite E1. by exists a2.
  - destruct Hu as [Hp Hu], He as [Hv Hn].
    destruct (incAvgPosTmp_folds pos a v n Ha Hp Hv Hn) as (a' & E & Hf). exists a'. split.
    + destruct pos as [|p [|q pos]]; [done| |done].
      destruct v as [|x v]; [simpl in Hv; lia|]. destruct n as [|y n]; [simpl in Hn; lia|]. done.
    + eapply avg_folds_ext; [exact Hf|done|..]; intros i; cbn [changes_of ch_sum ch_count avg_changes]; unfold spread, is_one;
        destruct v as [|x [|x2 v]]; try done; (destruct pos as [|p [|q pos]]; [done| |simpl in Hv; lia]); [done|].
      by destruct n.
Qed.

(** ** The reads follow the commit *)

(** The updates that are applied before the rest commits. *)
Record committed (c c' : MultiArrayCrdt) (now : Z) (upd : UpdArgs) : Prop := {
  co_ok : multi_ok c';
  co_id : replicaID c' = replicaID c;
  co_stamps l : StronglySorted Z.lt (reg_stamps (replicaID c) ((now, upd) :: l)) ->
    Forall (newest c) (reg_stamps (replicaID c) ((now, upd) :: l)) -> Forall (newest c') (reg_stamps (replicaID c) l);
  co_applied : applied c c' (changes_of (Update now c upd))
}.

Ltac keeps := repeat first
  [ progress simplify_eq
  | match goal with
    | H : mbind _ ?m = Some _ |- _ =>
        let E := fresh "E" in destruct m as [?|] eqn:E; [cbn [mbind option_bind] in H|done]
    end
  | case_match ]; done.

Lemma applied_keeps_id c op c' e : match op with DownInt _ | DownFloat _ | DownData _ _ | DownAvg _ => True | _ => False end ->
  applyDownstream c op = Some (c', e) -> replicaID c' = replicaID c.
Proof.
  cbn [applyDownstream multi_inversible].
  destruct op as [z|u|u|u ts|u|u ts|]; try done; intros _; cbn [multi_applyDownstream]; destruct u;
    cbn [applyDownstreamInt applyDownstreamFloat applyDownstreamData applyDownstreamAvg]; intros H; keeps.
Qed.

(** The stamps of the update are newer than the registers. *)
Definition fresh (c : MultiArrayCrdt) (now : Z) (upd : UpdArgs) : Prop :=
  Forall (newest c) (reg_stamps (replicaID c) [(now, upd)]).

Lemma newest_positive c ts : multi_ok c -> newest c ts -> 0 < ts.
Proof.
  intros Hc Hn. specialize (Hn (slen (regs c).1)). by rewrite reg_at_above in Hn by (done || apply Hc).
Qed.

Lemma pending_regular c now upd : multi_ok c -> pending_ok upd -> fresh c now upd -> regular (Update now c upd).
Proof.
  intros Hc Hu Hf. destruct upd as [z|u|u|u|u|u]; try done; cbn [pending_ok Update regular] in *.
  - destruct Hu as (? & ? & ?). done.
  - split; [apply Hu|]. unfold fresh in Hf. apply Forall_cons in Hf as [Hf _]. by eapply newest_positive.
  - apply Hu.
Qed.

(** A list of updates, the first of them committed. *)
Lemma stamps_left c c' now upd l : multi_ok c -> pending_ok upd -> replicaID c' = replicaID c ->
  applied c c' (changes_of (Update now c upd)) ->
  StronglySorted Z.lt (reg_stamps (replicaID c) ((now, upd) :: l)) ->
  Forall (newest c) (reg_stamps (replicaID c) ((now, upd) :: l)) ->
  Forall (newest c') (reg_stamps (replicaID c) l).
Proof.
  intros Hc Hu Hid [_ _ _ Hw] Hs Hf.
  assert (Hsame : match upd with MultiArrayData _ => False | _ => True end -> Forall (newest c) (reg_stamps (replicaID c) l) ->
      Forall (newest c') (reg_stamps (replicaID c) l)).
  { intros Hd Hl. eapply Forall_impl; [exact Hl|]. intros ts Hts i. destruct (writes_nothing (regs c) (regs c')) as [_ ->]; [apply Hc| |apply Hts].
    destruct upd as [z|u|u|u|u|u]; try done. by destruct u. }
  destruct upd as [z|u|u|u|u|u]; try done; try by apply Hsame.
  unfold reg_stamps in Hs, Hf. cbn [omap list_omap] in Hs, Hf. apply StronglySorted_inv in Hs as [_ Hs].
  apply Forall_cons in Hf as [Hn _]. eapply Forall_impl; [exact Hs|]. intros ts Hlt. cbn beta in Hlt.
  intros i. eapply writes_newest; [apply Hu|exact Hw|exact Hn|exact Hlt].
Qed.

Lemma if_in_ext {A} t types (l l' : list A) : (t ∈ types -> l = l') -> if_in t types l = if_in t types l'.
Proof. intros H. unfold if_in. case_decide; auto. Qed.

(** An update of a type that is not read changes nothing that is shown. *)
Lemma holds_other types h c c' t : untouched c c' t -> t ∉ types -> holds types h c -> holds types h c'.
Proof.
  intros (Hi & Hf & Hd & Ha) Ht [Hh Hs]. split; [done|]. rewrite Hs. unfold shown.
  f_equal; apply if_in_ext; intros Hin; symmetry; first [apply Hi|apply Hf|apply Hd|apply Ha]; by intros ->.
Qed.

(** What a holder shows of one type. *)
Lemma holds_vals types h c : holds types h c ->
  (MultiInts ∈ types -> vals (IntCounters h) = vals (intCounters c)) /\
  (MultiFloats ∈ types -> vals (FloatCounters h) = vals (floatCounters c)) /\
  (MultiData ∈ types -> vals (DataCounters h) = vals (dataCounters c)) /\
  (MultiAvg ∈ types -> vals (HSums h) = vals (sums c) /\ vals (HCounts h) = vals (counts c)).
Proof.
  intros [_ Hs]. unfold arraysOf, shown, if_in in Hs. injection Hs as Hi Hu Hn Hf Hd.
  split_and!; intros Hin; rewrite !decide_True in * by done; done.
Qed.

Lemma in_shown {A} t types (l : list A) : t ∈ types -> if_in t types l = l.
Proof. intros H. unfold if_in. by rewrite decide_True. Qed.

(** The holders after an update of each type. *)
Lemma holds_ints types h c c' s : MultiInts ∈ types -> holds types h c -> untouched c c' MultiInts -> slice_ok s ->
  vals s = vals (intCounters c') -> holds types (set_HInts s h) c'.
Proof.
  intros Hin [[Hi Hf Hd Ha] Hs] (_ & Uf & Ud & Ua) Hok Hv. split; [by split|].
  unfold arraysOf, shown in *. injection Hs as Hsi Hss Hsn Hsf Hsd. cbn.
  destruct (Ua ltac:(done)) as [-> ->]. rewrite Uf, Ud by done. f_equal; [|done..]. by rewrite in_shown.
Qed.

Lemma holds_floats types h c c' s : MultiFloats ∈ types -> holds types h c -> untouched c c' MultiFloats -> slice_ok s ->
  vals s = vals (floatCounters c') -> holds types (set_HFloats s h) c'.
Proof.
  intros Hin [[Hi Hf Hd Ha] Hs] (Ui & _ & Ud & Ua) Hok Hv. split; [by split|].
  unfold arraysOf, shown in *. injection Hs as Hsi Hss Hsn Hsf Hsd. cbn.
  destruct (Ua ltac:(done)) as [-> ->]. rewrite Ui, Ud by done. f_equal; [done..| |done]. by rewrite in_shown.
Qed.

Lemma holds_data types h c c' s : MultiData ∈ types -> holds types h c -> untouched c c' MultiData -> slice_ok s ->
  vals s = vals (dataCounters c') -> holds types (set_HData s h) c'.
Proof.
  intros Hin [[Hi Hf Hd Ha] Hs] (Ui & Uf & _ & Ua) Hok Hv. split; [by split|].
  unfold arraysOf, shown in *. injection Hs as Hsi Hss Hsn Hsf Hsd. cbn.
  destruct (Ua ltac:(done)) as [-> ->]. rewrite Ui, Uf by done. f_equal; [done..|]. by rewrite in_shown.
Qed.

Lemma holds_avgs types h c c' a : MultiAvg ∈ types -> holds types h c -> untouched c c' MultiAvg -> avgs_ok a ->
  vals a.1 = vals (sums c') -> vals a.2 = vals (counts c') -> holds types (set_HAvgs a h) c'.
Proof.
  intros Hin [[Hi Hf Hd Ha] Hs] (Ui & Uf & Ud & _) Hok Hv1 Hv2. destruct a as [s n]. split; [by split|].
  unfold arraysOf, shown in *. injection Hs as Hsi Hss Hsn Hsf Hsd. cbn.
  rewrite Ui, Uf, Ud by done. rewrite !(in_shown MultiAvg) by done. by f_equal.
Qed.

Lemma apply_holds types h c c' now upd : multi_ok c -> pending_ok upd -> fresh c now upd -> GetDataType upd ∈ types ->
  applied c c' (changes_of (Update now c upd)) -> untouched c c' (GetDataType upd) -> holds types h c ->
  exists h', applyUpdToHolder upd h = Some h' /\ holds types h' c'.
Proof.
  intros Hc Hu Hf Hin [Ai Af [As An] Ar] Hun Hh. destruct (holds_vals types h c Hh) as (Vi & Vf & Vd & Va).
  pose proof Hh as [[Hi Hfl Hd Ha] _].
  destruct upd as [z|u|u|u|u|u]; try done; cbn [GetDataType pending_ok Update applyUpdToHolder] in *.
  - destruct (tmp_folds 0 iadd (oneChange u) u (IntCounters h) Hi Hu) as (s & E & Hfo); [by left|].
    unfold applyIntUpdToTmpSlice. rewrite E. eexists. split; [done|]. eapply holds_ints; try done; [apply Hfo|].
    eapply (folds_same 0 iadd); [exact Hi|apply Hc|by apply Vi|exact Hfo|exact Ai].
  - destruct Hu as (Hu & Hr & He).
    destruct (tmp_folds f0 fadd (onePos u) u (FloatCounters h) Hfl Hu) as (s & E & Hfo); [by right|].
    unfold applyFloatUpdToTmpSlice. rewrite E. eexists. split; [done|]. eapply holds_floats; try done; [apply Hfo|].
    eapply (folds_same f0 fadd); [exact Hfl|apply Hc|by apply Vf|exact Hfo|exact Af].
  - destruct Hu as (Hu & He & Hdi).
    destruct (tmp_folds None overwrite (onePos (asArrUpd u)) (asArrUpd u) (DataCounters h) Hd) as (s & E & Hfo);
      [by destruct u|by right|].
    unfold applyDataUpdToTmpSlice. rewrite E. eexists. split; [done|]. eapply holds_data; try done; [apply Hfo|].
    apply Forall_cons in Hf as [Hf _].
    assert (Hn : upd_size (asArrUpd u) = data_size u) by by destruct u. rewrite Hn in Hfo.
    eapply (data_folds_writes (DataCounters h) s (regs c) (regs c'));
      [exact Hd|apply Hc|by apply Vd|exact He|exact Hdi|exact Hf|exact Hfo|exact Ar].
  - destruct Hu as [Hu He]. destruct (avg_tmp_folds (HSums h, HCounts h) u Ha Hu He) as (a & -> & Hfo).
    eexists. split; [done|]. destruct (Va Hin) as [Vs Vn]. pose proof Ha as [Ha1 Ha2 _]. destruct (mo_avg c Hc) as [Hc1 Hc2 _].
    eapply holds_avgs; try done; [by eapply avg_folds_ok|..]; destruct Hfo as [Hfs Hfn].
    + by eapply (folds_same 0 iadd (HSums h) (sums c)).
    + by eapply (folds_same 0 iadd (HCounts h) (counts c)).
Qed.

(** ** Transactions *)

Lemma pending_step c now upd : multi_ok c -> pending_ok upd -> fresh c now upd ->
  exists c' e, applyDownstream c (Update now c upd) = Some (c', e) /\ multi_ok c' /\ replicaID c' = replicaID c /\
    applied c c' (changes_of (Update now c upd)) /\ untouched c c' (GetDataType upd).
Proof.
  intros Hc Hu Hf. destruct (apply_applied c (Update now c upd) Hc) as (c' & e & E & Ha); [by apply pending_regular|].
  exists c', e. split; [done|]. split; [by eapply applied_ok|]. split; [|split; [done|]].
  - eapply applied_keeps_id; [|exact E]. by destruct upd.
  - eapply applied_untouched; [done|exact Ha|]. by destruct upd.
Qed.

(** A property of objects that every update of a transaction keeps is one of its
    commit; [P c v]: what is read so far. *)
Lemma commits_ind {A} (P : MultiArrayCrdt -> A -> Prop) (ok : UpdArgs -> Prop) (f : A -> UpdArgs -> option A) :
  (forall upd, ok upd -> pending_ok upd) ->
  (forall c c' now upd v, multi_ok c -> ok upd -> fresh c now upd -> applied c c' (changes_of (Update now c upd)) ->
     untouched c c' (GetDataType upd) -> P c v -> exists v', f v upd = Some v' /\ P c' v') ->
  forall l c v, multi_ok c -> Forall ok l.*2 -> StronglySorted Z.lt (reg_stamps (replicaID c) l) ->
  Forall (newest c) (reg_stamps (replicaID c) l) -> P c v ->
  exists c' v', commits c l = Some c' /\ multi_ok c' /\ foldM f v l.*2 = Some v' /\ P c' v'.
Proof.
  intros Hok Hstep. induction l as [|[now upd] l IH]; intros c v Hc Hl Hs Hn HP; cbn [commits fmap list_fmap foldM snd].
  { by exists c, v. }
  cbn [fmap list_fmap snd] in Hl. apply Forall_cons in Hl as [Hu Hl].
  assert (Hf : fresh c now upd).
  { unfold fresh, reg_stamps in *. cbn [omap list_omap] in *. destruct upd; try done.
    apply Forall_cons in Hn as [Hn _]. by apply Forall_singleton. }
  destruct (pending_step c now upd Hc (Hok _ Hu) Hf) as (c1 & e & -> & Hc1 & Hid & Ha & Hun). cbn [mbind option_bind].
  destruct (Hstep c c1 now upd v Hc Hu Hf Ha Hun HP) as (v1 & -> & HP1). cbn [mbind option_bind].
  apply (IH c1 v1 Hc1 Hl); [..|done]; rewrite Hid.
  - revert Hs. unfold reg_stamps. cbn [omap list_omap]. destruct upd; try done. by intros [? _]%StronglySorted_inv.
  - by eapply stamps_left; [exact Hc|apply (Hok _ Hu)|..].
Qed.

(** ** Reads of whole arrays *)

(** The update, if its type is read. *)
Definition ofTypes (types : list ArrayType) (h : MultiArrayHolder) (upd : UpdArgs) : option MultiArrayHolder :=
  if decide (GetDataType upd ∈ types) then applyUpdToHolder upd h else Some h.

Lemma multiApply_pending upd types h : pending_ok upd -> multiApplyUpd upd types h = ofTypes types h upd.
Proof.
  intros Hu. unfold ofTypes. revert h. induction types as [|t types IH]; intros h; cbn [multiApplyUpd]; [done|].
  destruct (decide (GetDataType upd = t)) as [E|E].
  - rewrite decide_True; [done|]. rewrite E. left.
  - assert (H : match upd with MultiArraySetSizes s => applySizeUpdHelperState s t h | _ => Some h end = Some h)
      by by destruct upd.
    rewrite H. cbn [mbind option_bind]. rewrite IH. destruct (decide (GetDataType upd ∈ types)).
    + by rewrite decide_True by by right.
    + by rewrite decide_False by by apply not_elem_of_cons.
Qed.

Lemma foldM_ext {A B} (ok : B -> Prop) (f g : A -> B -> option A) l : (forall a b, ok b -> f a b = g a b) ->
  Forall ok l -> forall a, foldM f a l = foldM g a l.
Proof.
  intros Hfg. induction 1 as [|b l Hb _ IH]; intros a; cbn [foldM]; [done|]. rewrite Hfg by done.
  destruct (g a b); [apply IH|done].
Qed.

Lemma full_pending c t upds h : Forall pending_ok upds -> applyPendingUpdatesFull c h t upds = foldM (ofTypes [t]) h upds.
Proof.
  intros Hu. apply (foldM_ext pending_ok); [|done]. intros h1 upd H. unfold ofTypes.
  destruct (decide (GetDataType upd = t)) as [E|E].
  - by rewrite decide_True by (rewrite E; left).
  - rewrite decide_False by by rewrite list_elem_of_singleton. by destruct upd.
Qed.

Lemma multi_pending types upds h : Forall pending_ok upds ->
  multiApplyPendingUpdatesFull h types upds = foldM (ofTypes types) h upds.
Proof. intros Hu. apply (foldM_ext pending_ok); [|done]. intros h1 upd. apply multiApply_pending. Qed.

(** The arrays read with the updates of a transaction, and those after it. *)
Lemma commits_hold l types c : multi_ok c -> Forall pending_ok l.*2 ->
  StronglySorted Z.lt (reg_stamps (replicaID c) l) -> Forall (newest c) (reg_stamps (replicaID c) l) ->
  exists c' h, commits c l = Some c' /\ multi_ok c' /\
    foldM (ofTypes types) (multiCopySlices c types) l.*2 = Some h /\
    holds types h c' /\ holds types (multiCopySlices c' types) c'.
Proof.
  intros Hc Hl Hs Hn.
  destruct (commits_ind (fun c h => holds types h c) pending_ok (ofTypes types)) with (l := l) (c := c)
    (v := multiCopySlices c types) as (c' & h & E & Hc' & Eh & Hh); try done.
  - intros c1 c2 now upd h Hc1 Hu Hf Ha Hun Hh. unfold ofTypes. case_decide as Hin.
    + by eapply apply_holds.
    + exists h. split; [done|]. by eapply holds_other.
  - by apply copies_hold.
  - exists c', h. repeat (split; [done|]). by apply copies_hold.
Qed.

Lemma arrayState_arrays t h1 h2 : arraysOf h1 = arraysOf h2 -> arrayState t h1 = arrayState t h2.
Proof. unfold arraysOf. intros H. injection H as Hi Hs Hn Hf Hd. destruct t; cbn; congruence. Qed.

(** Slices with the same elements. *)
Definition same {V} (s1 s2 : Slice V) : Prop := slice_ok s1 /\ slice_ok s2 /\ vals s1 = vals s2.

Lemma same_size {V} (s1 s2 : Slice V) : same s1 s2 -> size_of s1 = size_of s2.
Proof. intros (H1 & H2 & Hv). unfold size_of. by rewrite <- (vals_length s1), <- (vals_length s2), Hv. Qed.

Lemma same_get {V} (s1 s2 : Slice V) i : same s1 s2 -> sget s1 i = sget s2 i.
Proof.
  intros (H1 & H2 & Hv). destruct (decide (0 <= i)).
  - by rewrite !sget_vals, Hv.
  - by rewrite !sget_neg by lia.
Qed.

Lemma same_sub {V} (zero : V) s1 s2 ps : same s1 s2 -> getSubSlice zero s1 ps = getSubSlice zero s2 ps.
Proof.
  intros Hs. induction ps as [|p ps IH]; cbn [getSubSlice]; [done|]. rewrite IH.
  unfold getPositionOfSlice. by rewrite (same_size s1 s2 Hs), (same_get s1 s2 p Hs).
Qed.

Lemma sub_shown c c' t ps h : t <> MultiAvg -> multi_ok c' -> holds [t] h c' ->
  makeSubStateReply c t ps h = makeSubStateReply c' t ps (crdtHolder c').
Proof.
  intros Ht [Ki Kf _ [Kd _ _]] Hh. destruct (holds_vals _ _ _ Hh) as (Vi & Vf & Vd & _). destruct Hh as [[Hi Hf Hd _] _].
  destruct t; try done; cbn [makeSubStateReply crdtHolder IntCounters FloatCounters DataCounters].
  - rewrite (same_sub 0 _ (intCounters c')); [done|]. split; [done|]. split; [done|]. apply Vi. left.
  - rewrite (same_sub f0 _ (floatCounters c')); [done|]. split; [done|]. split; [done|]. apply Vf. left.
  - rewrite (same_sub None _ (dataCounters c')); [done|]. split; [done|]. split; [done|]. apply Vd. left.
Qed.

(** C27. A transaction reads its own updates: the whole arrays, of one type or of
    several, and the elements at a list of positions (not of averages), that are
    read with the pending updates of a transaction are those that are read once
    the transaction has committed, for updates inside of the bounds with one change
    for each position, whose stamps are newer than the registers ([pending_ok]:
    not changes of sizes and updates of all arrays at once, which reads do not
    follow, see [pending_sizes_lose_updates]).  Neither the reads nor the commit
    panic. *)
Theorem transactions_read_their_updates room c (l : list (Z * UpdArgs)) t types ps :
  multi_ok c -> Forall pending_ok l.*2 ->
  StronglySorted Z.lt (reg_stamps (replicaID c) l) -> Forall (newest c) (reg_stamps (replicaID c) l) ->
  exists c' s s', commits c l = Some c' /\
    Read room c (MultiArrayFullArguments t) l.*2 = Some (s, c) /\
    Read room c' (MultiArrayFullArguments t) [] = Some (s, c') /\
    Read room c (MultiArrayFullTypesArguments types) l.*2 = Some (s', c) /\
    Read room c' (MultiArrayFullTypesArguments types) [] = Some (s', c') /\
    (t <> MultiAvg -> getSubStateOfType c l.*2 ps t = getSubStateOfType c' [] ps t).
Proof.
  intros Hc Hl Hs Hn. destruct (commits_hold l [t] c Hc Hl Hs Hn) as (c' & h & E & Hc' & Eh & Hh & Hh').
  destruct (commits_hold l types c Hc Hl Hs Hn) as (c2 & h2 & E2 & _ & Eh2 & Hh2 & Hh2'). rewrite E in E2. injection E2 as <-.
  exists c', (arrayState t h), (Some (MultiArrayState (arraysOf h2))). split; [done|].
  cbn [Read]. unfold pureRead, getFullStateOfType, getFullStateOfMultipleTypes.
  rewrite !singleCopy, full_pending, Eh by done. split; [done|]. split.
  { cbn [applyPendingUpdatesFull foldM mbind option_bind]. do 2 f_equal. apply arrayState_arrays.
    by rewrite (proj2 Hh), (proj2 Hh'). }
  rewrite multi_pending, Eh2 by done. split; [done|]. split.
  { cbn [multiApplyPendingUpdatesFull foldM mbind option_bind]. do 4 f_equal. by rewrite (proj2 Hh2), (proj2 Hh2'). }
  intros Ht. unfold getSubStateOfType. rewrite singleCopy, full_pending, Eh by done.
  assert (H : makeSubStateReply c t ps h = makeSubStateReply c' t ps (crdtHolder c')) by by apply sub_shown.
  destruct l as [|[now upd] l]; [|exact H]. injection E as <-. done.
Qed.

(** ** Reads of one position *)

Definition pos_ok (upd : UpdArgs) : Prop :=
  pending_ok upd /\
  match upd with
  | MultiArrayInt u => each u /\ distinct u
  | MultiArrayFloat u => distinct u
  | MultiArrayAvg (IncAvgPositions _ _ pos) => NoDup pos
  | _ => True
  end.

Section position.
Context {V : Type} (zero : V) (add : V -> V -> V).

Definition at_ (i : nat) (s : Slice V) : V := default zero (vals s !! i).

Lemma folds_at s s' n ch i : slice_ok s -> folds zero add s s' n ch -> at_ i s' = foldl add (at_ i s) (ch i).
Proof.
  intros Hs [K L A Vs]. unfold at_. destruct (decide (i < slen s')%nat) as [Hi|Hi].
  - by rewrite Vs.
  - rewrite A by lia. rewrite !vals_above by (done || lia). done.
Qed.

Lemma changeAt_positions pos ps : forall l v, (length ps <= length l)%nat -> NoDup ps -> 0 <= pos ->
  changeAt add pos ps l v = Some (foldl add v (at_positions ps l (Z.to_nat pos))).
Proof.
  assert (Hnone : forall ps (l : list V), pos ∉ ps -> 0 <= pos -> at_positions ps l (Z.to_nat pos) = []).
  { clear. induction ps as [|p ps IH]; intros [|c l] Hi H0; try done. apply not_elem_of_cons in Hi as [H1 H2].
    unfold at_positions in *. cbn [zip_with mjoin list_join]. rewrite IH by done. unfold at_pos.
    by rewrite decide_False by lia. }
  induction ps as [|p ps IH]; intros [|c l] v Hl Hd H0; cbn [changeAt]; try done; [by simpl in Hl; lia|].
  apply NoDup_cons in Hd as [Hp Hd]. unfold at_positions in *. cbn [zip_with mjoin list_join]. unfold at_pos at 1.
  destruct (Z.eqb_spec p pos) as [->|Hne].
  - rewrite decide_True by lia. rewrite Hnone by done. done.
  - rewrite decide_False by lia. apply IH; [simpl in Hl; lia|done|done].
Qed.

Lemma single_value (u : ArrUpd V) pos v : upd_ok u -> each u -> distinct u -> 0 <= pos ->
  applyUpdToSingleValue add u v pos = Some (foldl add v (changes_at u (Z.to_nat pos))).
Proof.
  intros Hu He Hd H0. destruct u as [p x|l|ps l|from to x]; cbn [applyUpdToSingleValue].
  - cbn. unfold at_pos. destruct (Z.eqb_spec p pos); [by rewrite decide_True by lia|by rewrite decide_False by lia].
  - cbn [changes_at]. destruct (Z.ltb_spec pos (Z.of_nat (length l))).
    + rewrite sget_vals, vals_of_list by (done || apply of_list_ok).
      by destruct (lookup_lt_is_Some_2 l (Z.to_nat pos)) as [x ->]; [lia|].
    + by rewrite lookup_ge_None_2 by lia.
  - rewrite changes_each by done. by apply changeAt_positions.
  - cbn [changes_at]. destruct (decide (from <= Z.of_nat (Z.to_nat pos) <= to)).
    + rewrite (proj2 (Z.leb_le from pos)), (proj2 (Z.leb_le pos to)) by lia. done.
    + destruct (Z.leb_spec from pos), (Z.leb_spec pos to); try done. lia.
Qed.

Lemma position_value pos s : slice_ok s -> 0 <= pos -> getPositionOfSlice zero pos s = Some (at_ (Z.to_nat pos) s).
Proof.
  intros Hs H0. unfold getPositionOfSlice, at_. rewrite sget_vals by done.
  destruct (Z.ltb_spec pos (size_of s)) as [Hlt|Hge].
  - destruct (lookup_lt_is_Some_2 (vals s) (Z.to_nat pos)) as [x ->]; [|done].
    rewrite vals_length by done. unfold size_of in Hlt. lia.
  - rewrite vals_above; [done|done|]. unfold size_of in Hge. lia.
Qed.
End position.

(** The value that is read of a type is the one of the object. *)
Definition reads_at (pos : Z) (t : ArrayType) (c : MultiArrayCrdt) (v : Single) : Prop :=
  let i := Z.to_nat pos in
  match t with
  | MultiInts => v_Int v = at_ 0 i (intCounters c)
  | MultiFloats => v_Float v = at_ f0 i (floatCounters c)
  | MultiData => v_Data v = at_ None i (dataCounters c)
  | MultiAvg => v_Avg v = (at_ 0 i (sums c), at_ 0 i (counts c))
  | _ => True
  end.

Lemma positionOf_reads c t pos v0 : multi_ok c -> 0 <= pos ->
  exists v, positionOf c t pos v0 = Some v /\ reads_at pos t c v.
Proof.
  intros [Ki Kf [Ks Kn Hl] [Kd _ _]] H0. destruct t; cbn [positionOf]; try (by exists v0).
  1-3: rewrite position_value by done; by eexists.
  assert (H : getPositionOfAvgSlice pos (sums c) (counts c) =
    x ← getPositionOfSlice 0 pos (sums c); y ← getPositionOfSlice 0 pos (counts c); Some (x, y)).
  { unfold getPositionOfAvgSlice, getPositionOfSlice. cbn [avgs fst snd] in Hl. unfold size_of. rewrite Hl.
    by destruct (pos <? Z.of_nat (slen (sums c))). }
  rewrite H, !position_value by done. by eexists.
Qed.

Lemma avg_single_value u v pos : avg_ok u -> avg_each u ->
  match u with IncAvgPositions _ _ ps => NoDup ps | _ => True end -> 0 <= pos ->
  let h := changes_of (DownAvg u) in
  applyAvgUpdToSingleValue u v pos =
    Some (foldl iadd v.1 (ch_sum h (Z.to_nat pos)), foldl iadd v.2 (ch_count h (Z.to_nat pos))).
Proof.
  intros Hu He Hd H0. cbv zeta. destruct v as [s n].
  destruct u as [x y p|x y|x y ps|]; [..|done]; cbn [applyAvgUpdToSingleValue changes_of ch_sum ch_count avg_changes fst snd].
  - unfold at_pos. destruct (Z.eqb_spec p pos); [by rewrite !decide_True by lia|by rewrite !decide_False by lia].
  - cbn [avg_each] in He. rewrite take_ge by lia. destruct (Z.ltb_spec pos (Z.of_nat (length x))).
    + rewrite !sget_vals, !vals_of_list by (done || apply of_list_ok).
      destruct (lookup_lt_is_Some_2 x (Z.to_nat pos)) as [a ->]; [lia|].
      by destruct (lookup_lt_is_Some_2 y (Z.to_nat pos)) as [b ->]; [lia|].
    + by rewrite !lookup_ge_None_2 by lia.
  - destruct He as [Hx Hy]. rewrite !changeAt_positions by done. cbn [mbind option_bind].
    assert (Hs : forall l w : list Z, (length ps <= length w)%nat -> (length ps <= length l)%nat ->
        at_positions ps (spread (is_one w) (length ps) l) (Z.to_nat pos) = at_positions ps l (Z.to_nat pos)).
    { clear. intros l w Hw Hl. unfold spread, is_one. destruct w as [|a [|b w]]; try done.
      destruct ps as [|p [|q ps]]; [by destruct l| |simpl in Hw; lia]. destruct l; [simpl in Hl; lia|done]. }
    by rewrite !Hs.
Qed.

Lemma reads_other pos t c c' v t' : untouched c c' t' -> t <> t' -> reads_at pos t c v -> reads_at pos t c' v.
Proof.
  intros (Ui & Uf & Ud & Ua) Hne Hr. destruct t; try done; cbn [reads_at] in *; unfold at_ in *.
  - by rewrite Ui.
  - by rewrite Uf.
  - by rewrite Ud.
  - by destruct (Ua ltac:(done)) as [-> ->].
Qed.

Lemma apply_reads pos c c' now upd v : multi_ok c -> pos_ok upd -> fresh c now upd -> 0 <= pos ->
  applied c c' (changes_of (Update now c upd)) -> reads_at pos (GetDataType upd) c v ->
  exists v', applyUpdToSingle upd pos v = Some v' /\ reads_at pos (GetDataType upd) c' v'.
Proof.
  intros Hc [Hu Hp] Hf H0 [Ai Af [As An] Ar] Hr. pose proof Hc as [Ki Kf [Ks Kn _] Kr].
  destruct upd as [z|u|u|u|u|u]; try done;
    cbn [GetDataType reads_at pending_ok Update applyUpdToSingle changes_of ch_int ch_float ch_reg n_int n_float n_reg] in *.
  - destruct Hp as [He Hd]. rewrite single_value by done. eexists. split; [done|]. cbn [v_Int].
    rewrite (folds_at _ _ _ _ _ _ _ Ki Ai). by rewrite Hr.
  - destruct Hu as (Hu & _ & He). rewrite single_value by done. eexists. split; [done|]. cbn [v_Float].
    rewrite (folds_at _ _ _ _ _ _ _ Kf Af). by rewrite Hr.
  - destruct Hu as (Hu & He & Hd). rewrite single_value by (done || by destruct u). eexists. split; [done|]. cbn [v_Data].
    apply Forall_cons in Hf as [Hf _]. destruct Ar as [_ _ _ Hw].
    change (foldl overwrite (v_Data v) (changes_at (asArrUpd u) (Z.to_nat pos)) = (reg_at (regs c') (Z.to_nat pos)).1).
    rewrite Hw. cbn [ch_reg reg_changes]. rewrite write_value by (done || apply Hf). by rewrite Hr.
  - destruct Hu as [Hu He]. rewrite avg_single_value by (done || by destruct u). eexists. split; [done|]. cbn [v_Avg].
    rewrite (folds_at _ _ _ _ _ _ _ Ks As), (folds_at _ _ _ _ _ _ _ Kn An). by rewrite Hr.
Qed.

Lemma singleState_reads pos t c v1 v2 : reads_at pos t c v1 -> reads_at pos t c v2 -> singleState t v1 = singleState t v2.
Proof. destruct t; cbn; try done; by intros -> ->. Qed.

(** The element at a position, read with the pending updates of a transaction, is
    the one that is read after its commit, for updates whose positions differ: a
    read sees the first change of a position only, an update all of them. *)
Theorem positions_read_their_updates room c (l : list (Z * UpdArgs)) pos t :
  multi_ok c -> Forall pos_ok l.*2 -> 0 <= pos < MaxInt32 ->
  StronglySorted Z.lt (reg_stamps (replicaID c) l) -> Forall (newest c) (reg_stamps (replicaID c) l) ->
  exists c' s, commits c l = Some c' /\
    Read room c (MultiArrayPosArguments pos t) l.*2 = Some (s, c) /\
    Read room c' (MultiArrayPosArguments pos t) [] = Some (s, c').
Proof.
  intros Hc Hl Hpos Hs Hn.
  assert (Hi : int32 pos = pos) by (apply wrapS_id; unfold inS, MaxInt32 in *; lia).
  destruct (positionOf_reads c t pos zeroSingle Hc) as (v0 & E0 & Hv0); [lia|].
  destruct (commits_ind (reads_at pos t) pos_ok
    (fun v upd => if decide (GetDataType upd = t) then applyUpdToSingle upd pos v else Some v))
    with (l := l) (c := c) (v := v0) as (c' & v & E & Hc' & Ev & Hv); try done.
  - by intros upd [? _].
  - intros c1 c2 now upd v1 Hc1 Hu Hf Ha Hun Hv1. case_decide as Ht.
    + subst t. apply (apply_reads pos c1 c2 now); [done..|lia|done|done].
    + exists v1. split; [done|]. by eapply reads_other; [exact Hun|congruence|].
  - destruct (positionOf_reads c' t pos zeroSingle Hc') as (v' & E' & Hv'); [lia|].
    exists c', (singleState t v). split; [done|]. cbn [Read]. unfold pureRead.
    assert (Hread : forall c upds v1 v2, multi_ok c -> positionOf c t pos zeroSingle = Some v1 -> reads_at pos t c v1 ->
      foldM (fun v upd => if decide (GetDataType upd = t) then applyUpdToSingle upd pos v else Some v) v1 upds = Some v2 ->
      getPosStateOfType c upds pos t = Some (singleState t v2)).
    { clear -Hi Hpos. intros c upds v1 v2 [_ _ [Ks Kn _] _] E1 H1 E2. unfold getPosStateOfType. rewrite E1, Hi.
      cbn [mbind option_bind]. rewrite E2.
      destruct upds; [|done]. destruct t; try done. injection E2 as <-. rewrite !position_value by (done || lia).
      cbn [mbind option_bind singleState]. by rewrite H1. }
    rewrite (Hread c l.*2 v0 v) by done. rewrite (Hread c' [] v' v') by done. cbn [mbind option_bind].
    by rewrite (singleState_reads pos t c' v v').
Qed.

(** ** Ranges *)

Lemma range_vals {V} (s : Slice V) from to : slice_ok s -> 0 <= from <= to -> to <= size_of s ->
  rangeVals (mkRange s from (to - from) None) = take (Z.to_nat (to - from)) (drop (Z.to_nat from) (vals s)).
Proof.
  unfold slice_ok, size_of. intros Hs Hf Ht. unfold rangeVals, vals. cbn [rown rlen roff robj].
  rewrite skipn_firstn_comm, take_take. f_equal. lia.
Qed.

Lemma getRange_inside {V} (s : Slice V) from to : 0 <= from <= to -> to <= size_of s ->
  getRangeOfSlice s from to = Some (mkRange s from (to - from) None).
Proof.
  intros Hf Ht. unfold getRangeOfSlice. rewrite (proj2 (Z.ltb_ge _ _)) by lia. rewrite Z.min_l by done.
  rewrite (proj2 (Z.leb_le 0 from)), (proj2 (Z.leb_le from to)) by lia. done.
Qed.

(** C34. A read of a range changes the object: the range is a slice of the array of
    the object, and a pending increment of a position is written to it, at the
    position counted from the start of the range.  The range shows the increment
    there, and so does the array, for every later read and before the transaction
    commits (or does not). *)
Theorem range_read_changes_the_object room c from to pos x :
  multi_ok c -> 0 <= from <= pos -> pos < to - from -> to <= size_of (intCounters c) ->
  exists c', Read room c (MultiArrayRangeArguments from to MultiInts) [MultiArrayInt (IncSingle pos x)] =
      Some (Some (IntArrayState (take (Z.to_nat (to - from)) (drop (Z.to_nat from) (vals (intCounters c'))))), c') /\
    vals (intCounters c') = alter (fun y => iadd y x) (Z.to_nat (from + pos)) (vals (intCounters c)).
Proof.
  intros Hc Hf Hp Ht. pose proof (mo_int c Hc) as Hs. cbn [Read]. unfold getRangeStateOfType, readRange.
  rewrite getRange_inside by lia. cbn [mbind option_bind foldM]. rewrite decide_True by done.
  unfold applyUpdToRanges, applyIntUpdToRangeSlice, applyUpdToRangeSlice, rangePos. cbn [r_Ints set_rInts].
  rewrite (proj2 (Z.leb_gt to pos)), (proj2 (Z.ltb_ge pos from)) by lia. cbn [orb].
  unfold rangeLen at 1. cbn [rown rlen]. rewrite (proj2 (Z.ltb_ge (to - from) pos)) by lia. cbn [mbind option_bind].
  unfold rmod. cbn [rown rlen roff robj]. rewrite (proj2 (Z.leb_le 0 pos)), (proj2 (Z.ltb_lt pos (to - from))) by lia.
  cbn [andb]. destruct (smod_ok (fun y => iadd y x) (intCounters c) (from + pos) Hs) as (s & -> & Hok & Hl & Hv).
  { unfold size_of in Ht. lia. }
  cbn [mbind option_bind]. exists (set_ints s c). split; [|exact Hv]. do 2 f_equal. unfold rangeState. cbn [r_Ints set_rInts].
  do 2 f_equal. apply range_vals; [done|lia|]. cbn [intCounters set_ints]. unfold size_of in *. lia.
Qed.

(** Without pending updates, a range inside of the array is a part of it. *)
Lemma range_without_updates room c from to : multi_ok c -> 0 <= from <= to -> to <= size_of (intCounters c) ->
  Read room c (MultiArrayRangeArguments from to MultiInts) [] =
    Some (Some (IntArrayState (take (Z.to_nat (to - from)) (drop (Z.to_nat from) (vals (intCounters c))))), c).
Proof.
  intros Hc Hf Ht. cbn [Read]. unfold getRangeStateOfType, readRange. rewrite getRange_inside by lia.
  cbn [mbind option_bind foldM]. do 3 f_equal; [|by destruct c].
  unfold rangeState. cbn [r_Ints set_rInts]. rewrite range_vals by (done || apply Hc). done.
Qed.

(** ** What reads do not see *)

(** The state of an object is nil for a transaction that has pending updates of
    it, whatever they are. *)
Theorem state_read_with_pending_updates_is_nil room c upd upds r :
  Read room c StateReadArguments (upd :: upds) = Some r -> r = (None, c).
Proof.
  cbn [Read]. unfold pureRead, getState. destruct (foldM _ _ _); [|done]. cbn [mbind option_bind]. by intros [= <-].
Qed.

(** Setting the sizes of the arrays takes back the updates before it: a pending
    update is not seen when another of the same transaction then makes the array
    of integers larger, but both are applied by the commit. *)
Theorem pending_sizes_lose_updates room c now now' pos x size :
  multi_ok c -> 0 <= pos < size_of (intCounters c) ->
  size_of (intCounters c) < size < MaxInt32 ->
  let upds := [MultiArrayInt (IncSingle pos x); MultiArraySetSizes (mkSizes size 0 0 0)] in
  exists c' l, commits c (zip [now; now'] upds) = Some c' /\
    Read room c (MultiArrayFullArguments MultiInts) upds = Some (Some (IntArrayState l), c) /\
    l !! Z.to_nat pos = vals (intCounters c) !! Z.to_nat pos /\
    vals (intCounters c') !! Z.to_nat pos = (fun y => iadd y x) <$> vals (intCounters c) !! Z.to_nat pos /\
    length l = length (vals (intCounters c')).
Proof.
  intros Hc Hp Hsz. cbv zeta. set (z := mkSizes size 0 0 0). pose proof (mo_int c Hc) as Hs. cbn [zip zip_with commits].
  destruct (apply_applied c (DownInt (IncSingle pos x)) Hc) as (c1 & e1 & E1 & Ap1); [unfold regular, upd_ok; lia|].
  pose proof (applied_ok _ _ _ Hc Ap1) as Hc1. destruct Ap1 as [A1 _ _ _].
  destruct (apply_applied c1 (DownSetSizes z) Hc1) as (c2 & e2 & E2 & [A2 _ _ _]); [done|].
  destruct A1 as [K1 L1 _ V1], A2 as [K2 L2 _ V2]. cbn [changes_of upd_size n_int int_changes ch_int IntSize z] in L1, V1, L2, V2.
  unfold size_of in *.
  assert (Hdown : Update now' c1 (MultiArraySetSizes z) = DownSetSizes z).
  { cbn [Update IntSize z]. unfold size_of. by rewrite (proj2 (Z.ltb_ge size (Z.of_nat (slen (intCounters c1))))) by lia. }
  destruct (lookup_lt_is_Some_2 (vals (intCounters c)) (Z.to_nat pos)) as [y Hy]; [rewrite vals_length by done; lia|].
  destruct (copySliceWithSize_ok 0 (intCounters c) size Hs) as (s & Es & Hok & Hl & Hv); [lia|].
  exists c2, (vals s). change (Update now c _) with (DownInt (IncSingle pos x)). rewrite E1. cbn [mbind option_bind]. rewrite Hdown, E2. split; [done|].
  split; [|split; [|split]].
  - cbn [Read]. unfold pureRead, getFullStateOfType, applyPendingUpdatesFull. cbn [foldM]. rewrite decide_True by done.
    cbn [applyUpdToHolder]. unfold applyIntUpdToTmpSlice. cbn [applyUpdToTmpSlice singleCopySlicesToHolder copyArray].
    cbn [IntCounters set_HInts].
    destruct (incSingle_folds 0 iadd (copySlice (intCounters c)) pos x) as (t & -> & [_ Lt _ _]); [apply copySlice_ok|lia|].
    cbn [mbind option_bind]. rewrite decide_False by done. cbn [applySizeUpdHelper IntCounters set_HInts IntSize z].
    unfold size_of. rewrite Lt. unfold copySlice at 1. cbn [of_list slen]. rewrite vals_length by done.
    rewrite (proj2 (Z.ltb_lt _ size)) by lia. rewrite Es. done.
  - rewrite Hv by lia. by rewrite Hy.
  - rewrite V2 by lia. rewrite V1 by lia. rewrite Hy. cbn [changes_at]. unfold at_pos.
    by rewrite decide_True by lia.
  - rewrite !vals_length by done. lia.
Qed.

(** ** Examples *)

Definition reads_example : MultiArrayCrdt :=
  mkMulti (of_list [10; 20; 30; 40]) (of_list [6; 8]) (of_list [2; 4]) (of_list [f0]) (of_list [Some "a"; None]%string)
    (of_list [7; 9]) 3.

Lemma reads_example_ok : multi_ok reads_example.
Proof. by repeat split; unfold slice_ok. Qed.

Definition pending_example : list (Z * UpdArgs) :=
  [(5, MultiArrayInt (IncPositions [5; 1] [1; 2])); (6, MultiArrayData (SetRegisterPositions [2; 0] [Some "b"; None]%string));
   (6, MultiArrayAvg (IncAvg [1; 1; 1] [1; 1; 1])); (9, MultiArrayData (SetRegisterSingle 2 (Some "c"%string)))].

Lemma pending_example_ok : Forall pos_ok pending_example.*2.
Proof.
  assert (Hp : forall p q, 0 <= p < MaxInt32 -> 0 <= q < MaxInt32 -> Forall (fun p => 0 <= p < MaxInt32) [p; q])
    by (intros; repeat apply Forall_cons_2; done).
  assert (Hd : forall p q : Z, p <> q -> NoDup [p; q]).
  { intros p q Hne. apply NoDup_cons. split; [by rewrite list_elem_of_singleton|apply NoDup_singleton]. }
  repeat apply Forall_cons_2; [..|done]; unfold pos_ok, pending_ok; cbn.
  - split; [split; [by apply Hp|by right]|split; [done|by apply Hd]].
  - split; [|done]. split; [split; [by apply Hp|by right]|split; [done|by apply Hd]].
  - done.
  - done.
Qed.

Lemma pending_example_stamps : StronglySorted Z.lt (reg_stamps (replicaID reads_example) pending_example) /\
  Forall (newest reads_example) (reg_stamps (replicaID reads_example) pending_example).
Proof.
  assert (Hn : forall ts, 9 < ts -> newest reads_example ts).
  { intros ts Hts i. destruct i as [|[|i]]; [cbn; lia..|]. rewrite reg_at_above; [cbn; lia|apply reads_example_ok|cbn; lia]. }
  split.
  - repeat constructor; by vm_compute.
  - repeat apply Forall_cons_2; [..|done]; apply Hn; by vm_compute.
Qed.

Lemma transactions_read_their_updates_witness : exists c',
  commits reads_example pending_example = Some c' /\
  Read (fun _ => 0%nat) reads_example (MultiArrayFullArguments MultiInts) pending_example.*2 =
    Some (Some (IntArrayState [10; 22; 30; 40; 0; 1]), reads_example) /\
  Read (fun _ => 0%nat) c' (MultiArrayFullArguments MultiInts) [] =
    Some (Some (IntArrayState [10; 22; 30; 40; 0; 1]), c').
Proof.
  destruct (transactions_read_their_updates (fun _ => 0%nat) reads_example pending_example MultiInts [MultiAvg] [2]
    reads_example_ok) as (c' & s & _ & E & E1 & E2 & _).
  - eapply Forall_impl; [exact pending_example_ok|]. by intros upd [? _].
  - apply pending_example_stamps.
  - apply pending_example_stamps.
  - assert (Hs : s = Some (IntArrayState [10; 22; 30; 40; 0; 1])) by (vm_compute in E1; congruence).
    exists c'. rewrite Hs in E1, E2. exact (conj E (conj E1 E2)).
Defined.

Lemma positions_read_their_updates_witness : exists c',
  commits reads_example pending_example = Some c' /\
  Read (fun _ => 0%nat) reads_example (MultiArrayPosArguments 2 MultiData) pending_example.*2 =
    Some (Some (DataArraySingleState (Some "c"%string)), reads_example) /\
  Read (fun _ => 0%nat) c' (MultiArrayPosArguments 2 MultiData) [] =
    Some (Some (DataArraySingleState (Some "c"%string)), c').
Proof.
  destruct (positions_read_their_updates (fun _ => 0%nat) reads_example pending_example 2 MultiData
    reads_example_ok pending_example_ok ltac:(done)) as (c' & s & E & E1 & E2).
  - apply pending_example_stamps.
  - apply pending_example_stamps.
  - assert (Hs : s = Some (DataArraySingleState (Some "c"%string))) by (vm_compute in E1; congruence).
    exists c'. rewrite Hs in E1, E2. exact (conj E (conj E1 E2)).
Defined.

Lemma range_read_changes_the_object_witness : exists c',
  Read (fun _ => 0%nat) reads_example (MultiArrayRangeArguments 1 4 MultiInts) [MultiArrayInt (IncSingle 2 5)] =
    Some (Some (IntArrayState [20; 30; 45]), c') /\
  vals (intCounters c') = [10; 20; 30; 45].
Proof.
  destruct (range_read_changes_the_object (fun _ => 0%nat) reads_example 1 4 2 5 reads_example_ok) as (c' & E & Hv);
    [done|done|by vm_compute|]. exists c'. rewrite Hv in E. by split.
Defined.

Lemma state_read_with_pending_updates_is_nil_witness :
  Read (fun _ => 0%nat) reads_example StateReadArguments [MultiArrayInt (Inc [1])] = Some (None, reads_example).
Proof.
  destruct (Read (fun _ => 0%nat) reads_example StateReadArguments [MultiArrayInt (Inc [1])]) as [r|] eqn:E; [|done].
  by rewrite (state_read_with_pending_updates_is_nil _ _ _ _ _ E).
Defined.

Lemma pending_sizes_lose_updates_witness : exists c' l,
  Read (fun _ => 0%nat) reads_example (MultiArrayFullArguments MultiInts)
    [MultiArrayInt (IncSingle 1 5); MultiArraySetSizes (mkSizes 6 0 0 0)] = Some (Some (IntArrayState l), reads_example) /\
  l !! 1%nat = Some 20 /\ vals (intCounters c') !! 1%nat = Some 25.
Proof.
  destruct (pending_sizes_lose_updates (fun _ => 0%nat) reads_example 1 2 1 5 6 reads_example_ok) as (c' & l & _ & E & H1 & H2 & _);
    [done|done|]. by exists c', l.
Defined.
