(* ===== verification/EmbLeaves.v ===== *)
(** * The objects that maps embed: counters, averages, maxima and registers

    The instance of [Leaves] (EmbObjects) with the objects of Counters,
    FloatCounters and Registers; [Rest] are the objects of other types.  An
    object is sent updates of any type and tests their types itself: some
    objects pass on what they do not know, some ignore it, some panic. *)

From S2P Require Import Prelude ClockSI Inversible Convergence Counters Registers MultiArray FloatCounters EmbObjects.
From Stdlib Require Import ZArith Lia Bool SpecFloat.
From stdpp Require Import base tactics numbers strings gmap list.
#[local] Open Scope Z_scope.

(** The objects of other types; [asDownstream] are the updates that are
    downstream arguments as they are. *)
Class RestLeaves := {
  Rest : Leaves;
  rest_asDownstream : @LeafUpd Rest -> option (@LeafDown Rest)
}.

Section leaves.
Context `{HR : RestLeaves}.

Inductive Obj :=
  | OCounter (c : Counter.CounterCrdt)
  | OFloat (c : CounterFloat.CounterFloatCrdt)
  | OAvg (c : Avg.AvgCrdt)
  | OMaxMin (c : MaxMin.MaxMinCrdt)
  | OReg (c : LwwRegister.LwwRegisterCrdt)
  | ORest (l : @LeafCRDT Rest).

Inductive Upd :=
  | UCounter (u : Counter.Op)
  | UFloat (u : CounterFloat.Op)
  | UAvg (u : Avg.UpdArgs)
  | UMaxMin (u : MaxMin.Op)
  | UReg (u : LwwRegister.UpdArgs)
  | URest (u : @LeafUpd Rest).

Inductive Down :=
  | DCounter (d : Counter.Op)
  | DFloat (d : CounterFloat.Op)
  | DAvg (d : Avg.Op)
  | DMaxMin (d : MaxMin.Op)
  | DReg (d : LwwRegister.Op)
  | DRest (d : @LeafDown Rest).

Inductive ReadOp := AvgGetFullArguments | RRest (r : @LeafRead Rest).

Definition obj_type (c : Obj) : CRDTType :=
  match c with
  | OCounter _ => COUNTER | OFloat _ => COUNTER_FLOAT | OAvg _ => AVG | OMaxMin _ => MAXMIN
  | OReg _ => LWWREG | ORest l => leaf_type l
  end.

Definition obj_upd_type (u : Upd) : CRDTType :=
  match u with
  | UCounter _ => COUNTER | UFloat _ => COUNTER_FLOAT | UAvg _ => AVG | UMaxMin _ => MAXMIN
  | UReg _ => LWWREG | URest u => leaf_upd_type u
  end.

Definition obj_down_type (d : Down) : CRDTType :=
  match d with
  | DCounter _ => COUNTER | DFloat _ => COUNTER_FLOAT | DAvg _ => AVG | DMaxMin _ => MAXMIN
  | DReg _ => LWWREG | DRest d => leaf_down_type d
  end.

(** [InitializeCrdt], with [shared.IsCRDTDisabled] false. *)
Definition obj_init (t : CRDTType) (replicaID : Z) : option Obj :=
  match t with
  | COUNTER => Some (OCounter Counter.Initialize)
  | LWWREG => Some (OReg (LwwRegister.Initialize replicaID))
  | COUNTER_FLOAT => Some (OFloat CounterFloat.Initialize)
  | AVG => Some (OAvg Avg.Initialize)
  | MAXMIN => Some (OMaxMin MaxMin.Initialize)
  | t => ORest <$> leaf_init t replicaID
  end.

(** ** Updates *)

Definition toRest {A B} (f : A -> option B) (u : ForLeaf A) : ForLeaf B :=
  match u with
  | Own u => match f u with Some u => Own u | None => Foreign end
  | RemoveKeys ks => RemoveKeys ks
  | Skip => Skip
  | Foreign => Foreign
  end.

Definition rest_upd (u : Upd) : option (@LeafUpd Rest) := match u with URest u => Some u | _ => None end.
Definition rest_down (d : Down) : option (@LeafDown Rest) := match d with DRest d => Some d | _ => None end.
Definition rest_read (r : option ReadOp) : option (option (@LeafRead Rest)) :=
  match r with
  | None => Some None
  | Some (RRest r) => Some (Some r)
  | Some AvgGetFullArguments => None
  end.

(** The type assertion [args.(DownstreamArguments)]: the updates of averages and
    registers are not downstream arguments, [AddMultipleValue] apart. *)
Definition asDownstream (args : ForLeaf Upd) : option (option Down) :=
  match args with
  | Own (UCounter u) => Some (Some (DCounter u))
  | Own (UFloat u) => Some (Some (DFloat u))
  | Own (UMaxMin u) => Some (Some (DMaxMin u))
  | Own (UAvg (Avg.AddMultipleValueArgs s n)) => Some (Some (DAvg (Avg.AddMultipleValue s n)))
  | Own (URest u) => d ← rest_asDownstream u; Some (Some (DRest d))
  | Skip => Some None
  | _ => None
  end.

(** The time and the random number of the registers, and what the other objects
    need. *)
Record Env := mkEnv { now : Z; rnd : Z; rest_env : @LeafEnv Rest }.

Definition obj_update (env : Env) (c : Obj) (args : ForLeaf Upd) : option (option Down) :=
  match c with
  | OCounter _ | OFloat _ => asDownstream args
  | OAvg c =>
      match args with
      | Own (UAvg u) => Some (Some (DAvg (Avg.Update c u)))
      | _ => None
      end
  | OMaxMin c =>
      match args with
      | Own (UMaxMin u) => Some (option_map DMaxMin (MaxMin.Update c u))
      | _ => asDownstream args
      end
  | OReg c =>
      match args with
      | Own (UReg u) => Some (Some (DReg (LwwRegister.Update (now env) (rnd env) c u)))
      | _ => None
      end
  | ORest l =>
      o ← leaf_update (rest_env env) l (toRest rest_upd args); Some (option_map DRest o)
  end.

Definition obj_must (d : Down) : bool :=
  match d with DRest d => leaf_must d | _ => true end.

(** The updates of other types are ignored by the type switches of counters and
    maxima; averages and registers assert the type. *)
Definition obj_downstream (c : Obj) (args : ForLeaf Down) : option (Obj * option Down) :=
  match c with
  | OCounter s =>
      match args with
      | Own (DCounter d) => '(s, _) ← applyDownstream s d; Some (OCounter s, None)
      | _ => Some (c, None)
      end
  | OFloat s =>
      match args with
      | Own (DFloat d) => '(s, _) ← CounterFloat.float_applyDownstream s d; Some (OFloat s, None)
      | _ => Some (c, None)
      end
  | OAvg s =>
      match args with
      | Own (DAvg d) => '(s, _) ← applyDownstream s d; Some (OAvg s, None)
      | _ => None
      end
  | OMaxMin s =>
      match args with
      | Own (DMaxMin d) => '(s, _) ← applyDownstream s d; Some (OMaxMin s, None)
      | _ => Some (c, None)
      end
  | OReg s =>
      match args with
      | Own (DReg d) => '(s, _) ← applyDownstream s d; Some (OReg s, None)
      | _ => None
      end
  | ORest l =>
      '(l, d) ← leaf_downstream l (toRest rest_down args); Some (ORest l, option_map DRest d)
  end.

(** ** Reads *)

Definition counter_upds (upds : list (ForLeaf Upd)) : list Counter.Op :=
  omap (fun u => match u with Own (UCounter u) => Some u | _ => None end) upds.
Definition float_upds (upds : list (ForLeaf Upd)) : list CounterFloat.Op :=
  omap (fun u => match u with Own (UFloat u) => Some u | _ => None end) upds.

(** Averages and maxima show what is committed whenever updates are pending, or
    the slice is nil; with an empty slice there is nothing to add. *)
Definition obj_read (c : Obj) (args : ForLeaf (option ReadOp)) (upds : list (ForLeaf Upd))
  : option (option (LeafState (@LeafOther Rest))) :=
  match c with
  | OCounter c => Some (Some (CounterState (Counter.Read c (counter_upds upds))))
  | OFloat c => Some (Some (CounterFloatState (CounterFloat.Read c (float_upds upds))))
  | OAvg c =>
      Some match args with
           | Own None => Some (AvgState (fdiv (float_of_int (Avg.sum c)) (float_of_int (Avg.nAdds c))))
           | Own (Some AvgGetFullArguments) => Some (AvgFullState (Avg.sum c) (Avg.nAdds c))
           | _ => None
           end
  | OMaxMin c => Some (Some (MaxMinState (MaxMin.topValue c)))
  | OReg c =>
      match last upds with
      | None => Some (Some (RegisterState (Some (LwwRegister.value c))))
      | Some (Own (UReg (LwwRegister.SetValue v))) => Some (Some (RegisterState (Some v)))
      | Some _ => None
      end
  | ORest l => leaf_read l (toRest rest_read args) (toRest rest_upd <$> upds)
  end.

Definition obj_big (c : Obj) : bool := match c with ORest l => leaf_big l | _ => false end.

#[export] Instance leaves : Leaves := {
  LeafCRDT := Obj; LeafUpd := Upd; LeafDown := Down; LeafRead := ReadOp;
  LeafOther := @LeafOther Rest; LeafEnv := Env;
  leaf_type := obj_type; leaf_upd_type := obj_upd_type; leaf_down_type := obj_down_type;
  leaf_init := obj_init; leaf_update := obj_update; leaf_must := obj_must;
  leaf_downstream := obj_downstream; leaf_read := obj_read; leaf_big := obj_big;
  knownIDs := @knownIDs Rest
}.
End leaves.

(** ** The laws

    For counters, averages and registers.  Floating-point sums depend on the
    order of the additions, and a key may hold maxima and minima. *)
Definition supported (t : CRDTType) : Prop := t = COUNTER \/ t = AVG \/ t = LWWREG.

(** The other objects have other types. *)
Class RestTypes `{HR : RestLeaves} := {
  rest_type l : ~ supported (@leaf_type Rest l);
  rest_upd_type u : ~ supported (@leaf_upd_type Rest u);
  rest_down_type d : ~ supported (@leaf_down_type Rest d)
}.

Section laws.
Context `{HR : RestLeaves, HT : !RestTypes}.

(** Registers that no one wrote have the ID of their replica. *)
Definition reg_sim (a b : LwwRegister.LwwRegisterCrdt) : Prop :=
  LwwRegister.value a = LwwRegister.value b /\ LwwRegister.ts a = LwwRegister.ts b /\
  (0 < LwwRegister.ts a -> LwwRegister.replicaID a = LwwRegister.replicaID b).

Definition obj_sim (a b : Obj) : Prop :=
  match a, b with OReg a, OReg b => reg_sim a b | _, _ => a = b end.

Definition obj_valid (d : Down) : Prop :=
  match d with DReg d => 0 < LwwRegister.Ts d <= MaxInt64 | _ => True end.

Definition obj_compat (a b : Down) : Prop :=
  match a, b with DReg a, DReg b => LwwRegister.distinct_writes a b | _, _ => True end.

Definition obj_at (r : Z) (c : Obj) : Prop :=
  match c with OReg c => LwwRegister.localReplicaID c = r | _ => True end.

Definition obj_from (r : Z) (d : Down) : Prop :=
  match d with DReg d => LwwRegister.ReplicaID d = r | _ => True end.

#[export] Instance obj_sim_equiv : Equivalence obj_sim.
Proof.
  split.
  - by intros [].
  - intros [] []; simpl; try done. intros (? & E & ?). split_and!; [done|done|].
    rewrite <- E. intros; symmetry; by auto.
  - intros [] [] []; simpl; try congruence. intros (? & E & H1) (? & E' & H2). split_and!; [congruence..|].
    intros ?. rewrite H1, H2 by lia. done.
Qed.

(** An object of a supported type is one of the three, and so is what it is sent. *)
Lemma obj_cases c : supported (obj_type c) ->
  (exists s, c = OCounter s) \/ (exists s, c = OAvg s) \/ (exists s, c = OReg s).
Proof.
  destruct c; simpl; intros Hs; eauto.
  - by destruct Hs as [?|[?|?]].
  - by destruct Hs as [?|[?|?]].
  - by apply rest_type in Hs.
Qed.

Lemma down_cases c d : supported (obj_type c) -> obj_down_type d = obj_type c ->
  (exists s x, c = OCounter s /\ d = DCounter x) \/ (exists s x, c = OAvg s /\ d = DAvg x) \/
  (exists s x, c = OReg s /\ d = DReg x).
Proof.
  intros Hs Hd. rewrite <- Hd in Hs. assert (supported (obj_type c)) as Hs' by by rewrite <- Hd.
  destruct d; simpl in Hs, Hd; try (by destruct Hs as [?|[?|?]]); try by apply rest_down_type in Hs.
  all: destruct (obj_cases c Hs') as [[s ->]|[[s ->]|[s ->]]]; try done; by eauto 7.
Qed.

Lemma reg_down_sim a b d a' b' ea eb :
  reg_sim a b -> 0 < LwwRegister.Ts d <= MaxInt64 ->
  LwwRegister.reg_applyDownstream a d = Some (a', ea) ->
  LwwRegister.reg_applyDownstream b d = Some (b', eb) -> reg_sim a' b'.
Proof.
  destruct a as [va ta ra la], b as [vb tb rb lb], d as [v t r].
  unfold reg_sim, LwwRegister.reg_applyDownstream. simpl. intros (-> & -> & Hr) Ht.
  case_wins; intros [= <- _] [= <- _]; simpl; split_and!; try done; try lia.
Qed.

Lemma init_sim t r1 r2 l1 l2 :
  supported t -> obj_init t r1 = Some l1 -> obj_init t r2 = Some l2 -> obj_sim l1 l2.
Proof.
  intros [E|[E|E]]; subst t; simpl; intros [= <-] [= <-]; [done|done|].
  split_and!; [done|done|]. simpl. lia.
Qed.

Lemma down_defined c d : supported (obj_type c) -> obj_down_type d = obj_type c ->
  exists c' nd, obj_downstream c (Own d) = Some (c', nd) /\ obj_type c' = obj_type c.
Proof.
  intros Hs Hd. destruct (down_cases c d Hs Hd) as [(s & x & -> & ->)|[(s & x & -> & ->)|(s & x & -> & ->)]];
    simpl.
  - unfold Counter.counter_applyDownstream. destruct x; simpl; by eexists _, _.
  - by eexists _, _.
  - unfold LwwRegister.reg_applyDownstream. destruct (wins _ _ _ _); simpl; by eexists _, _.
Qed.

Lemma down_sim c1 c2 d c1' c2' n1 n2 :
  obj_sim c1 c2 -> obj_valid d -> obj_downstream c1 (Own d) = Some (c1', n1) ->
  obj_downstream c2 (Own d) = Some (c2', n2) -> obj_sim c1' c2'.
Proof.
  intros Hs Hv E1 E2. destruct c1 as [| | | |s1|], c2 as [| | | |s2|]; try (simpl in Hs; simplify_eq; done).
  all: try (simpl in Hs; injection Hs as <-; rewrite E1 in E2; injection E2 as <- _; done).
  destruct d as [| | | |d|]; try done. cbn [obj_downstream applyDownstream LwwRegister.reg_inversible] in E1, E2.
  destruct (LwwRegister.reg_applyDownstream s1 d) as [[a ea]|] eqn:F1; [|done].
  destruct (LwwRegister.reg_applyDownstream s2 d) as [[b eb]|] eqn:F2; [|done].
  cbn in E1, E2. simplify_eq. by apply (reg_down_sim s1 s2 d a b ea eb).
Qed.

Lemma made {St Eff} (F : St -> Obj) (o : option (St * option Eff)) c (n : option Down) :
  (o ≫= fun '(s, _) => Some (F s, None)) = Some (c, n) -> exists s e, o = Some (s, e) /\ c = F s.
Proof. destruct o as [[s e]|]; [|done]. intros [= <- _]. by exists s, e. Qed.

(** Two compatible operations, in both orders. *)
Lemma twice {St Op Eff} `{ConvergentCRDT St Op Eff} (s : St) (a b : Op) sa ea sab eb sb eb' sba ea' :
  compatible a b ->
  applyDownstream s a = Some (sa, ea) -> applyDownstream sa b = Some (sab, eb) ->
  applyDownstream s b = Some (sb, eb') -> applyDownstream sb a = Some (sba, ea') -> sab = sba.
Proof.
  intros Hc E1 E2 E3 E4. pose proof (compatible_comm a b s Hc) as E. simpl in E.
  rewrite E1, E3 in E. rewrite E2, E4 in E. congruence.
Qed.

Lemma down_comm c a b ca cab cb cba n1 n2 n3 n4 :
  supported (obj_type c) -> obj_down_type a = obj_type c -> obj_down_type b = obj_type c ->
  obj_compat a b ->
  obj_downstream c (Own a) = Some (ca, n1) -> obj_downstream ca (Own b) = Some (cab, n2) ->
  obj_downstream c (Own b) = Some (cb, n3) -> obj_downstream cb (Own a) = Some (cba, n4) ->
  obj_sim cab cba.
Proof.
  intros Hs Ha Hb Hc.
  destruct (down_cases c a Hs Ha) as [(s & x & -> & ->)|[(s & x & -> & ->)|(s & x & -> & ->)]];
    destruct (down_cases _ b Hs Hb) as [(? & y & E & ->)|[(? & y & E & ->)|(? & y & E & ->)]]; try done;
    clear E; cbn [obj_downstream];
    intros (sa & ea & E1 & ->)%made E2 (sb & eb & E3 & ->)%made E4;
    apply made in E2 as (sab & eab & E2 & ->); apply made in E4 as (sba & eba & E4 & ->).
  - f_equal. by apply (twice s x y sa ea sab eab sb eb sba eba).
  - f_equal. by apply (twice s x y sa ea sab eab sb eb sba eba).
  - rewrite (twice s x y sa ea sab eab sb eb sba eba); done.
Qed.

#[export] Program Instance leaf_laws : LeafLaws (HL := leaves) := {
  leaf_supported := supported; leaf_sim := obj_sim; leaf_valid := obj_valid; leaf_compat := obj_compat;
  leaf_init_sim := init_sim; leaf_down_ok := down_defined; leaf_down_sim := down_sim;
  leaf_comm := down_comm
}.
Next Obligation. by intros t [-> |[-> | ->]]. Qed.
Next Obligation. intros t r [-> |[-> | ->]]; by eexists. Qed.

Lemma init_at t r c : obj_init t r = Some c -> obj_at r c.
Proof. destruct t; simpl; intros E; simplify_eq/=; try done; by apply fmap_Some in E as (? & _ & ->). Qed.

Lemma down_at r c d c' nd :
  obj_at r c -> obj_downstream c (Own d) = Some (c', nd) -> obj_at r c'.
Proof.
  destruct c as [s|s|s|s|s|l], d as [d|d|d|d|d|d]; cbn [obj_downstream]; intros Hat E; simplify_eq;
    try done; try (apply made in E as (s' & e & E & ->); try done).
  2-7: by destruct (leaf_downstream _ _) as [[? ?]|]; simplify_eq/=.
  simpl in *. unfold LwwRegister.reg_applyDownstream in E. destruct (wins _ _ _ _); by simplify_eq/=.
Qed.

Lemma update_from env r c u :
  supported (obj_type c) -> obj_upd_type u = obj_type c -> obj_at r c ->
  exists o, obj_update env c (Own u) = Some o /\
    forall d, o = Some d -> obj_down_type d = obj_type c /\ obj_from r d.
Proof.
  intros Hs Hu Hat. rewrite <- Hu in Hs.
  assert (forall u', u <> URest u') as Hn by by intros u' ->; apply rest_upd_type in Hs.
  rewrite Hu in Hs. destruct (obj_cases c Hs) as [[s ->]|[[s ->]|[s ->]]];
    destruct u as [u|u|u|u|u|u]; try done; try (by destruct (Hn u)); simpl.
  - eexists. split; [done|]. by intros d [= <-].
  - eexists. split; [done|]. by intros d [= <-].
  - destruct u as [v]. eexists. split; [done|]. by intros d [= <-].
Qed.

Lemma from_compat r1 r2 a b :
  r1 <> r2 -> obj_from r1 a -> obj_from r2 b -> obj_compat a b.
Proof. destruct a, b; simpl; try done. unfold LwwRegister.distinct_writes. intros. right. congruence. Qed.

#[export] Program Instance leaf_issue : LeafIssue (HLaws := leaf_laws) := {
  leaf_at := obj_at; leaf_from := obj_from; leaf_init_at := init_at; leaf_down_at := down_at;
  leaf_update_ok := update_from
}.
Next Obligation. intros r1 r2 a b ? ? ? _ _. by apply (from_compat r1 r2). Qed.
End laws.

(** Two replicas without other objects. *)
Definition no_rest : RestLeaves := {|
  Rest := {|
    LeafCRDT := Empty_set; LeafUpd := Empty_set; LeafDown := Empty_set; LeafRead := Empty_set;
    LeafOther := Empty_set; LeafEnv := unit;
    leaf_type l := match l with end; leaf_upd_type u := match u with end;
    leaf_down_type d := match d with end; leaf_init _ _ := None;
    leaf_update _ l _ := match l with end; leaf_must d := match d with end;
    leaf_downstream l _ := match l with end; leaf_read l _ _ := match l with end;
    leaf_big l := match l with end; knownIDs := [1; 2]
  |};
  rest_asDownstream u := match u with end
|}.

Definition no_rest_types : RestTypes (HR := no_rest).
Proof. by constructor. Defined.
