(* ===== verification/EmbMap.v ===== *)
(** * Maps with embedded objects: rwEmbMapCRDT.go (src/crdt/crdt)

    A key maps to an object.  An update of a key carries, for each replica, the
    clock of the latest remove that its issuer had seen of the keys it updates; a
    replica applies it to a key when it has seen all the removes that the replica
    knows of the key: removes win.  [Downstream] applies an update to an object
    of any type and goes down into maps of maps. *)

From S2P Require Import Prelude ClockSI Inversible EmbObjects.
From Stdlib Require Import ZArith Lia Bool.
From stdpp Require Import base tactics numbers strings gmap list.
#[local] Open Scope Z_scope.

Section map.
Context `{HL : Leaves}.
Abbreviation Map := (RWEmbMapCrdt CRDT).

(** ** Updates *)

(** One step of the loop over the clocks of the removes of a key. *)
Definition raise (rmvEntries : gmap Z Z) (e : Z * markedTimestamp) : gmap Z Z :=
  if default 0 (rmvEntries !! e.1) <? mts e.2 then <[e.1 := mts e.2]> rmvEntries else rmvEntries.

Definition raiseAll (m : Map) (key : Key) (rmvEntries : gmap Z Z) : gmap Z Z :=
  match removes m !! key with
  | Some rmvClk => foldl raise rmvEntries (map_to_list rmvClk)
  | None => rmvEntries
  end.

Section update.
(** What the [i]-th update of the loop does to an object. *)
Variable rec : nat -> UpdArgs -> CRDT -> option DownArgs.

(** The loops of [getUpdateAllDownstreamArgs] and its variant for arrays. *)
Fixpoint updateLoop (i : nat) (m : Map) (upds : list (Key * UpdArgs)) (rmvEntries : gmap Z Z)
  : option (list (Key * DownArgs) * gmap Z Z) :=
  match upds with
  | [] => Some ([], rmvEntries)
  | (key, upd) :: rest =>
      t ← upd_type upd;
      '(embCrdt, _) ← getOrCreateEmbCrdt m key t;
      embUpd ← rec i upd embCrdt;
      '(downstreams, rmvEntries) ← updateLoop (S i) m rest (raiseAll m key rmvEntries);
      Some (if MustReplicate embUpd then (key, embUpd) :: downstreams else downstreams, rmvEntries)
  end.

Definition getUpdateAllDownstreamArgs (m : Map) (upds : list (Key * UpdArgs)) : option DownArgs :=
  '(downstreams, rmvEntries) ← updateLoop 0 m upds ∅;
  Some (if (length downstreams =? 0)%nat && (size rmvEntries =? 0)%nat then NoOpDown
        else DownstreamRWEmbMapUpdateAll downstreams rmvEntries (replicaID m)).

(** [downstreams] has the length of [upds] when it is tested. *)
Definition getUpdateAllDownstreamArgsArray (m : Map) (upds : list (Key * UpdArgs)) : option DownArgs :=
  '(downstreams, rmvEntries) ← updateLoop 0 m upds ∅;
  Some (if (length upds =? 0)%nat && (size rmvEntries =? 0)%nat then NoOpDown
        else DownstreamRWEmbMapUpdateAllArray downstreams rmvEntries (replicaID m)).
End update.

Definition getRemoveAllDownstreamArgs (m : Map) (keys : list Key) : DownArgs :=
  match filter (fun key => key ∈ dom (entries m)) keys with
  | [] => NoOpDown
  | toRemove =>
      DownstreamRWEmbMapRemoveAll toRemove (int64 (GetPos (rmvClock m) (replicaID m) + 1)) (replicaID m)
  end.

Definition forLeaf (u : UpdArgs) : ForLeaf LeafUpd :=
  match u with
  | LUpd u => Own u
  | MapRemove k => RemoveKeys [k]
  | MapRemoveAll ks => RemoveKeys ks
  | NoOp => Skip
  | _ => Foreign
  end.

(** [env] has what the time and the random sources return to each embedded
    update, by its position. *)
Fixpoint Update (env : list nat -> LeafEnv) (args : UpdArgs) (c : CRDT) {struct args} : option DownArgs :=
  match c with
  | Leaf l =>
      d ← leaf_update (env []) l (forLeaf args);
      Some (match d with Some d => LDown d | None => NoOpDown end)
  | Emb m =>
      let rec := fun i u => Update (fun p => env (i :: p)) u in
      match args with
      | EmbMapUpdate key upd => getUpdateAllDownstreamArgs rec m [(key, upd)]
      | EmbMapUpdateAll upds => getUpdateAllDownstreamArgs rec m upds
      | EmbMapUpdateAllArray upds => getUpdateAllDownstreamArgsArray rec m upds
      | MapRemove key => Some (getRemoveAllDownstreamArgs m [key])
      | MapRemoveAll keys => Some (getRemoveAllDownstreamArgs m keys)
      | _ => None
      end
  end.

(** ** Applying updates *)

(** [EffPtr]: a pointer to an effect, which is what the code records. *)
Inductive Eff :=
  | NoEffect
  | RWEmbMapUpdateAllEffect (Updated : list Key) (ReplicaID : Z) (AddedMark : gset Key)
      (PreviousRmvClk : option (gmap Key (gmap Z markedTimestamp)))
  | RWEmbMapRemoveAllEffect (RemovedCRDTs : gmap Key CRDT) (ReplicaID PreviousClk : Z)
  | EffPtr (e : Eff).

(** What the loops over the updates change; [newDown] are the updates that
    embedded objects answer with. *)
Record LoopState := mkLoop {
  l_map : Map; l_updated : list Key; l_marks : gset Key; l_newDown : gmap Key DownArgs }.

Definition set_entries (m : Map) (e : gmap Key CRDT) : Map :=
  mkEmb e (removes m) (rmvClock m) (replicaID m) (keysToRebuild m).
Definition set_removes (m : Map) (r : gmap Key (gmap Z markedTimestamp)) : Map :=
  mkEmb (entries m) r (rmvClock m) (replicaID m) (keysToRebuild m).
Definition set_clock (m : Map) (clk : vclock) : Map :=
  mkEmb (entries m) (removes m) clk (replicaID m) (keysToRebuild m).

(** Every remove of the key that the replica knows was seen. *)
Definition covers (remClks : gmap Z Z) (remEntry : gmap Z markedTimestamp) : bool :=
  forallb (fun '(replica, mt) =>
             match remClks !! replica with Some remValue => mts mt <=? remValue | None => false end)
    (map_to_list remEntry).

(** The pair of the update's issuer is marked. *)
Definition addMark (st : LoopState) (key : Key) (remEntry : gmap Z markedTimestamp) (remoteID : Z)
  : LoopState :=
  match remEntry !! remoteID with
  | Some mt =>
      if mark mt then st
      else mkLoop (set_removes (l_map st)
                     (<[key := <[remoteID := mkMarked (mts mt) true]> remEntry]> (removes (l_map st))))
             (l_updated st) ({[ key ]} ∪ l_marks st) (l_newDown st)
  | None => st
  end.

Section apply.
Variable rec : DownArgs -> CRDT -> option (CRDT * option DownArgs).

(** A redo only records which objects were updated. *)
Definition updateEntry (isRedo : bool) (st : LoopState) (key : Key) (upd : DownArgs) : option LoopState :=
  if isRedo then Some (mkLoop (l_map st) (l_updated st ++ [key]) (l_marks st) (l_newDown st))
  else
    '(embCRDT, _) ← getOrCreateEmbCrdt (l_map st) key (down_type upd);
    '(embCRDT, embDownstream) ← rec upd embCRDT;
    Some (mkLoop (set_entries (l_map st) (<[key := embCRDT]> (entries (l_map st))))
            (l_updated st ++ [key]) (l_marks st)
            (match embDownstream with Some d => <[key := d]> (l_newDown st) | None => l_newDown st end)).

(** The loops without removes ([fastLoop]) and with them. *)
Fixpoint fastLoop (isRedo : bool) (st : LoopState) (upds : list (Key * DownArgs)) : option LoopState :=
  match upds with
  | [] => Some st
  | (key, upd) :: rest => st ← updateEntry isRedo st key upd; fastLoop isRedo st rest
  end.

Definition checkEntry (remClks : gmap Z Z) (remoteID : Z) (isRedo : bool) (st : LoopState)
    (key : Key) (upd : DownArgs) : option LoopState :=
  match removes (l_map st) !! key with
  | None => updateEntry isRedo st key upd
  | Some remEntry =>
      if covers remClks remEntry then updateEntry isRedo (addMark st key remEntry remoteID) key upd
      else Some st
  end.

Fixpoint checkLoop (remClks : gmap Z Z) (remoteID : Z) (isRedo : bool) (st : LoopState)
    (upds : list (Key * DownArgs)) : option LoopState :=
  match upds with
  | [] => Some st
  | (key, upd) :: rest =>
      st ← checkEntry remClks remoteID isRedo st key upd; checkLoop remClks remoteID isRedo st rest
  end.

(** [applyUpdateAll] and [applyUpdateAllArray]. *)
Definition applyUpdateAll (m : Map) (upds : list (Key * DownArgs)) (remClks : gmap Z Z)
    (remoteID : Z) (isRedo : bool) : option (Map * Eff * option DownArgs) :=
  let st := mkLoop m [] ∅ ∅ in
  st ← (if (size (removes m) =? 0)%nat then fastLoop isRedo st upds
        else checkLoop remClks remoteID isRedo st upds);
  Some (l_map st, EffPtr (RWEmbMapUpdateAllEffect (l_updated st) remoteID (l_marks st) None),
        if (size (l_newDown st) =? 0)%nat then None
        else Some (DownstreamRWEmbMapUpdateAll (map_to_list (l_newDown st)) ∅ 0)).

(** With two replicas or more all marks of the key are taken away. *)
Definition removeStep (remoteReplicaID remoteClk : Z) (st : Map * gmap Key CRDT) (key : Key)
  : Map * gmap Key CRDT :=
  let '(m, removed) := st in
  let remEntry := <[remoteReplicaID := mkMarked remoteClk false]> (default ∅ (removes m !! key)) in
  let remEntry := if (1 <? size remEntry)%nat
                  then (fun mt => mkMarked (mts mt) false) <$> remEntry else remEntry in
  let m := set_removes m (<[key := remEntry]> (removes m)) in
  match entries m !! key with
  | Some existingCRDT => (set_entries m (delete key (entries m)), <[key := existingCRDT]> removed)
  | None => (m, removed)
  end.

Definition applyRemoveAll (m : Map) (toRem : list Key) (remoteReplicaID remoteClk : Z) : Map * Eff :=
  let previousClk := GetPos (rmvClock m) remoteReplicaID in
  let '(m, removed) :=
    foldl (removeStep remoteReplicaID remoteClk)
      (set_clock m (UpdatePos (rmvClock m) remoteReplicaID remoteClk), ∅) toRem in
  (m, EffPtr (RWEmbMapRemoveAllEffect removed remoteReplicaID previousClk)).

Definition emb_applyDownstream (m : Map) (downstreamArgs : DownArgs) (isRedo : bool)
  : option (Map * Eff * option DownArgs) :=
  match downstreamArgs with
  | DownstreamRWEmbMapUpdateAll upds rmvEntries remoteID
  | DownstreamRWEmbMapUpdateAllArray upds rmvEntries remoteID =>
      applyUpdateAll m upds rmvEntries remoteID isRedo
  | DownstreamRWEmbMapRemoveAll rems ts remoteID =>
      let '(m, eff) := applyRemoveAll m rems remoteID ts in Some (m, eff, None)
  | _ => Some (m, NoEffect, None)
  end.
End apply.

(** Applies an update to an object; [None] is a panic. *)
Fixpoint Downstream (downstreamArgs : DownArgs) (c : CRDT) {struct downstreamArgs}
  : option (CRDT * option DownArgs) :=
  match c with
  | Leaf l =>
      '(l, d) ← leaf_downstream l (match downstreamArgs with LDown d => Own d | NoOpDown => Skip | _ => Foreign end);
      Some (Leaf l, option_map LDown d)
  | Emb m =>
      '(m, _, d) ← emb_applyDownstream Downstream m downstreamArgs false; Some (Emb m, d)
  end.
End map.
