(* ===== verification/EmbMapMerge.v ===== *)
(** * Maps with embedded objects: typing and convergence

    Well-typed updates never make a replica panic and keep its types.  A replica
    holds under a key what the updates of the key that saw all of its removes
    make of a new object ([sub]), in the order in which it applied them.  Replicas
    that apply the same transactions in orders that respect happened-before show
    the same maps, at every depth of embedding. *)

From S2P Require Import Prelude ClockSI Causal EmbObjects EmbMap.
From Stdlib Require Import ZArith Lia Bool.
From stdpp Require Import base tactics numbers strings gmap list.
#[local] Open Scope Z_scope.

Section merge.
Context `{HL : Leaves, HLaws : !LeafLaws}.
Abbreviation Map := (RWEmbMapCrdt CRDT).

(** ** The clocks of the removes that a map knows *)

Definition clocks (e : gmap Z markedTimestamp) : gmap Z Z := mts <$> e.
Definition stamps (m : Map) : gmap Key (gmap Z Z) := clocks <$> removes m.

Definition coversR (rmv : gmap Z Z) (r : Z * Z) : bool :=
  match rmv !! r.1 with Some v => r.2 <=? v | None => false end.

Definition accepted (rmv : gmap Z Z) (o : option (gmap Z Z)) : bool :=
  match o with None => true | Some e => forallb (coversR rmv) (map_to_list e) end.

Lemma accepted_spec rmv e :
  accepted rmv (Some e) = true <-> forall rep ts, e !! rep = Some ts -> coversR rmv (rep, ts) = true.
Proof.
  simpl. rewrite forallb_forall. split.
  - intros Hf rep ts He. apply Hf. by apply list_elem_of_In, elem_of_map_to_list.
  - intros Hf [rep ts] He. apply Hf. by apply elem_of_map_to_list, list_elem_of_In.
Qed.

Lemma covers_accepted rmv e : covers rmv e = accepted rmv (Some (clocks e)).
Proof.
  apply eq_bool_prop_intro. rewrite !Is_true_true, accepted_spec. unfold covers.
  rewrite forallb_forall. split.
  - intros Hf rep ts (mt & <- & He)%lookup_fmap_Some.
    apply (Hf (rep, mt)). by apply list_elem_of_In, elem_of_map_to_list.
  - intros Hf [rep mt] He%list_elem_of_In%elem_of_map_to_list.
    apply (Hf rep (mts mt)). unfold clocks. by rewrite lookup_fmap, He.
Qed.

Lemma stamps_lookup m k : stamps m !! k = clocks <$> removes m !! k.
Proof. apply lookup_fmap. Qed.

Lemma removes_None m k : removes m !! k = None -> stamps m !! k = None.
Proof. rewrite stamps_lookup. by intros ->. Qed.

Lemma addMark_map st k e rid :
  removes (l_map st) !! k = Some e ->
  stamps (l_map (addMark st k e rid)) = stamps (l_map st) /\
  entries (l_map (addMark st k e rid)) = entries (l_map st) /\
  replicaID (l_map (addMark st k e rid)) = replicaID (l_map st) /\
  rmvClock (l_map (addMark st k e rid)) = rmvClock (l_map st).
Proof.
  intros Hk. unfold addMark. destruct (e !! rid) as [mt|] eqn:E; [|done].
  destruct (mark mt); [done|]. split_and!; try done. unfold stamps. simpl.
  rewrite fmap_insert, insert_id; [done|].
  rewrite lookup_fmap, Hk. simpl. f_equal. unfold clocks. rewrite fmap_insert. symmetry. apply insert_id.
  by rewrite lookup_fmap, E.
Qed.

(** ** Applying updates to one key *)

(** The updates of [k] in a list of entries. *)
Definition at_key (k : Key) (upds : list (Key * DownArgs)) : list DownArgs :=
  (filter (fun e => e.1 = k) upds).*2.

Definition apply1 (d : DownArgs) (c : CRDT) : option CRDT := fst <$> Downstream d c.

Lemma apply1_eq d c c' nd : Downstream d c = Some (c', nd) -> apply1 d c = Some c'.
Proof. unfold apply1. by intros ->. Qed.

(** What [ds] make of the object under a key, if there is one. *)
Definition evolve (r : Z) (t : CRDTType) (o : option CRDT) (ds : list DownArgs) : option CRDT :=
  match ds with
  | [] => o
  | _ => c ← (match o with Some c => Some c | None => InitializeCrdt t r end); run apply1 ds c
  end.

Lemma at_key_app k l1 l2 : at_key k (l1 ++ l2) = at_key k l1 ++ at_key k l2.
Proof. unfold at_key. by rewrite filter_app, fmap_app. Qed.

Lemma at_key_cons k k' d upds :
  at_key k ((k', d) :: upds) = if decide (k' = k) then d :: at_key k upds else at_key k upds.
Proof. unfold at_key. rewrite filter_cons. simpl. by destruct (decide _). Qed.

Lemma at_key_elem k d upds : d ∈ at_key k upds <-> (k, d) ∈ upds.
Proof.
  unfold at_key. rewrite list_elem_of_fmap. setoid_rewrite list_elem_of_filter. split.
  - by intros ([k' d'] & -> & <- & ?).
  - intros. by exists (k, d).
Qed.

Lemma evolve_app r t o ds1 ds2 :
  (ds1 <> [] -> is_Some (evolve r t o ds1)) ->
  evolve r t o (ds1 ++ ds2) = evolve r t (evolve r t o ds1) ds2.
Proof.
  destruct ds1 as [|d ds1]; [done|]. intros [c Hc]; [done|]. rewrite Hc.
  destruct ds2 as [|d2 ds2]; [by rewrite app_nil_r|].
  unfold evolve in *. simpl app.
  destruct (match o with Some c => Some c | None => InitializeCrdt t r end) as [c0|]; [|done].
  change (d :: ds1 ++ d2 :: ds2) with ((d :: ds1) ++ d2 :: ds2).
  simpl in *. destruct (apply1 d c0); simpl in *; [|done].
  by rewrite run_app, Hc.
Qed.

(** [d] applied to an object of its type gives an object of that type. *)
Definition applicable (s : Schema) (d : DownArgs) : Prop :=
  forall c, crdt_ok s c -> exists c' nd, Downstream d c = Some (c', nd) /\ crdt_ok s c'.

Lemma run_total s ds c :
  Forall (applicable s) ds -> crdt_ok s c -> exists c', run apply1 ds c = Some c' /\ crdt_ok s c'.
Proof.
  intros Hds. revert c. induction Hds as [|d ds Hd _ IH]; intros c Hc; [by exists c|].
  destruct (Hd c Hc) as (c' & nd & E & Hc'). destruct (IH c' Hc') as (c'' & ? & ?).
  exists c''. split; [|done]. simpl. by rewrite (apply1_eq _ _ _ _ E).
Qed.

Lemma evolve_total s r o ds :
  schema_ok s -> Forall (applicable s) ds -> (forall c, o = Some c -> crdt_ok s c) ->
  (forall c, evolve r (type_of s) o ds = Some c -> crdt_ok s c) /\
  (ds <> [] -> is_Some (evolve r (type_of s) o ds)).
Proof.
  intros Hs Hds Ho. destruct ds as [|d ds]; [done|].
  assert (exists c0, match o with Some c => Some c | None => InitializeCrdt (type_of s) r end = Some c0
    /\ crdt_ok s c0) as (c0 & E & Hc0).
  { destruct o as [c|]; [by exists c; auto|]. by apply init_ok. }
  unfold evolve. rewrite E.
  destruct (run_total s (d :: ds) c0) as (c' & Hr & ?); [done..|].
  change (c0' ← Some c0; run apply1 (d :: ds) c0') with (run apply1 (d :: ds) c0).
  rewrite Hr. split; [by intros ? [= <-]|by eexists].
Qed.

(** ** The loops *)

(** The loop of a map without removes does what the general loop does. *)
Lemma fastLoop_checkLoop rec rmv rid isRedo st upds :
  removes (l_map st) = ∅ ->
  fastLoop rec isRedo st upds = checkLoop rec rmv rid isRedo st upds.
Proof.
  revert st. induction upds as [|[k d] upds IH]; intros st Hr; [done|]. simpl.
  unfold checkEntry. rewrite Hr, lookup_empty.
  destruct (updateEntry rec isRedo st k d) as [st'|] eqn:E; simpl; [|done].
  apply IH. unfold updateEntry in E. destruct isRedo; [by simplify_eq|].
  destruct (getOrCreateEmbCrdt _ _ _) as [[c new]|]; simpl in E; [|done].
  destruct (rec d c) as [[c' nd]|]; simpl in E; [|done]. by simplify_eq.
Qed.

(** What one iteration and the loop do to the map. *)
Definition stepped (f : Key -> Schema) (rmv : gmap Z Z) (upds : list (Key * DownArgs)) (m m' : Map) : Prop :=
  map_ok f m' /\ replicaID m' = replicaID m /\ rmvClock m' = rmvClock m /\ stamps m' = stamps m /\
  forall k, entries m' !! k =
    if accepted rmv (stamps m !! k)
    then evolve (replicaID m) (type_of (f k)) (entries m !! k) (at_key k upds) else entries m !! k.

Lemma updateEntry_spec f st k d :
  schema_ok (f k) -> down_ok (f k) d -> applicable (f k) d -> map_ok f (l_map st) ->
  exists st', updateEntry Downstream false st k d = Some st' /\
    map_ok f (l_map st') /\ replicaID (l_map st') = replicaID (l_map st) /\
    rmvClock (l_map st') = rmvClock (l_map st) /\ stamps (l_map st') = stamps (l_map st) /\
    entries (l_map st') = partial_alter
      (fun o => evolve (replicaID (l_map st)) (type_of (f k)) o [d]) k (entries (l_map st)).
Proof.
  intros Hs Hd Ht Hm. unfold updateEntry, getOrCreateEmbCrdt.
  rewrite (down_ok_type _ _ Hd).
  assert (exists c0 new, match entries (l_map st) !! k with
      | Some c => Some (c, false)
      | None => c ← InitializeCrdt (type_of (f k)) (replicaID (l_map st)); Some (c, true)
      end = Some (c0, new) /\ crdt_ok (f k) c0 /\
      match entries (l_map st) !! k with
      | Some c => Some c | None => InitializeCrdt (type_of (f k)) (replicaID (l_map st)) end = Some c0)
    as (c0 & new & E & Hc0 & E0).
  { destruct (entries (l_map st) !! k) as [c|] eqn:Ek; [by exists c, false; eauto|].
    destruct (init_ok (f k) (replicaID (l_map st))) as (c & Ec & ?); [done|].
    exists c, true. by rewrite Ec. }
  rewrite E. simpl. destruct (Ht c0 Hc0) as (c' & nd & Ec & Hc'). rewrite Ec. simpl.
  eexists. split; [done|]. simpl. split_and!; try done.
  - intros k' c''. simpl. destruct (decide (k' = k)) as [->|Hne].
    + rewrite lookup_insert_eq. by intros [= <-].
    + rewrite lookup_insert_ne by done. apply Hm.
  - apply map_eq. intros k'. destruct (decide (k' = k)) as [->|Hne].
    + rewrite lookup_insert_eq, lookup_partial_alter_eq. unfold evolve.
      rewrite E0. simpl. by rewrite (apply1_eq _ _ _ _ Ec).
    + by rewrite lookup_insert_ne, lookup_partial_alter_ne.
Qed.

Lemma checkLoop_spec f rmv rid upds st :
  (forall k, schema_ok (f k)) ->
  Forall (fun e => down_ok (f e.1) e.2 /\ applicable (f e.1) e.2) upds -> map_ok f (l_map st) ->
  exists st', checkLoop Downstream rmv rid false st upds = Some st' /\
    stepped f rmv upds (l_map st) (l_map st').
Proof.
  intros Hs Hu. revert st. induction Hu as [|[k d] upds [Hd Ht] Hu IH]; intros st Hm.
  { exists st. split; [done|]. repeat split; try done.
    intros k. by destruct (accepted _ _). }
  simpl in Hd, Ht. simpl. unfold checkEntry.
  assert (exists st1, (match removes (l_map st) !! k with
      | Some remEntry =>
          if covers rmv remEntry
          then updateEntry Downstream false (addMark st k remEntry rid) k d else Some st
      | None => updateEntry Downstream false st k d end) = Some st1 /\
    map_ok f (l_map st1) /\ replicaID (l_map st1) = replicaID (l_map st) /\
    rmvClock (l_map st1) = rmvClock (l_map st) /\ stamps (l_map st1) = stamps (l_map st) /\
    entries (l_map st1) = if accepted rmv (stamps (l_map st) !! k)
      then partial_alter (fun o => evolve (replicaID (l_map st)) (type_of (f k)) o [d]) k (entries (l_map st))
      else entries (l_map st)) as (st1 & -> & Hm1 & Hr1 & Hc1 & Hst1 & He1).
  { rewrite stamps_lookup. destruct (removes (l_map st) !! k) as [e|] eqn:Ek; simpl fmap.
    - rewrite <- covers_accepted. destruct (covers rmv e); [|by exists st].
      destruct (addMark_map st k e rid Ek) as (Hs1 & He1 & Hr1 & Hc1).
      destruct (updateEntry_spec f (addMark st k e rid) k d) as (st1 & Hst1 & Hx); [done..| |].
      { intros k' c. rewrite He1. apply Hm. }
      rewrite Hs1, He1, Hr1, Hc1 in Hx. by exists st1.
    - destruct (updateEntry_spec f st k d) as (st1 & Hst1 & Hx); [done..|]. by exists st1. }
  simpl. destruct (IH st1 Hm1) as (st2 & -> & Hm2 & Hr2 & Hc2 & Hst2 & He2).
  exists st2. split; [done|]. split_and!; [done|congruence|congruence|congruence|].
  intros k'. rewrite He2, Hst1, Hr1, He1, at_key_cons.
  destruct (decide (k = k')) as [<-|Hne].
  - destruct (accepted rmv (stamps (l_map st) !! k)) eqn:Ea; [|done].
    rewrite lookup_partial_alter_eq. change (d :: at_key k upds) with ([d] ++ at_key k upds).
    symmetry. apply evolve_app. intros _.
    apply (evolve_total (f k)); [done|by repeat constructor|intros; by apply Hm|done].
  - destruct (accepted rmv (stamps (l_map st) !! k)); [|done]. by rewrite lookup_partial_alter_ne.
Qed.

Lemma applyUpdateAll_spec f m upds rmv rid :
  (forall k, schema_ok (f k)) ->
  Forall (fun e => down_ok (f e.1) e.2 /\ applicable (f e.1) e.2) upds -> map_ok f m ->
  exists m' eff nd, applyUpdateAll Downstream m upds rmv rid false = Some (m', eff, nd) /\
    stepped f rmv upds m m'.
Proof.
  intros Hs Hu Hm.
  destruct (checkLoop_spec f rmv rid upds (mkLoop m [] ∅ ∅)) as (st' & E & Hst); [done..|].
  unfold applyUpdateAll.
  replace (if (size (removes m) =? 0)%nat then _ else _) with (Some st'); [by eexists _, _, _|].
  rewrite <- E. destruct (size (removes m) =? 0)%nat eqn:Esz; [|done].
  symmetry. apply fastLoop_checkLoop. simpl. by apply map_size_empty_iff, Nat.eqb_eq.
Qed.

Lemma removeStep_spec rid ts m removed x m1 removed1 :
  removeStep rid ts (m, removed) x = (m1, removed1) ->
  replicaID m1 = replicaID m /\ rmvClock m1 = rmvClock m /\ entries m1 = delete x (entries m) /\
  stamps m1 = <[x := <[rid := ts]> (default ∅ (stamps m !! x))]> (stamps m).
Proof.
  unfold removeStep.
  set (e1 := <[rid := mkMarked ts false]> (default ∅ (removes m !! x))).
  set (e2 := if (1 <? size e1)%nat then (fun mt => mkMarked (mts mt) false) <$> e1 else e1).
  assert (clocks e2 = <[rid := ts]> (default ∅ (stamps m !! x))) as He2.
  { transitivity (clocks e1).
    - unfold e2. destruct (1 <? size e1)%nat; [|done].
      unfold clocks. rewrite <- map_fmap_compose. by apply map_fmap_ext.
    - unfold e1, clocks. rewrite fmap_insert. f_equal. rewrite stamps_lookup.
      destruct (removes m !! x); simpl; [done|]. by rewrite fmap_empty. }
  destruct (entries (set_removes m (<[x := e2]> (removes m))) !! x) as [c|] eqn:Ex;
    intros [= <- <-]; simpl in *;
    (split_and!; [done|done| |]); try (unfold stamps; simpl; rewrite fmap_insert; by rewrite He2).
  - done.
  - by rewrite delete_id.
Qed.

(** A remove takes the object away and leaves its clock. *)
Lemma removeLoop_spec rid ts rems m removed m' removed' :
  foldl (removeStep rid ts) (m, removed) rems = (m', removed') ->
  replicaID m' = replicaID m /\ rmvClock m' = rmvClock m /\
  forall k,
    entries m' !! k = (if decide (k ∈ rems) then None else entries m !! k) /\
    stamps m' !! k =
      if decide (k ∈ rems) then Some (<[rid := ts]> (default ∅ (stamps m !! k))) else stamps m !! k.
Proof.
  revert m removed. induction rems as [|x rems IH]; intros m removed.
  { by intros [= <- <-]. }
  change (foldl (removeStep rid ts) (m, removed) (x :: rems))
    with (foldl (removeStep rid ts) (removeStep rid ts (m, removed) x) rems).
  destruct (removeStep rid ts (m, removed) x) as [m1 removed1] eqn:Est.
  apply removeStep_spec in Est as (Hr & Hc & He & Hst).
  intros E. apply IH in E as (Hr' & Hc' & Hk).
  split_and!; [congruence|congruence|]. intros k. destruct (Hk k) as [He' Hst'].
  rewrite He', Hst', He, Hst.
  destruct (decide (k = x)) as [->|Hne].
  - rewrite !(decide_True (P := x ∈ x :: rems)) by set_solver.
    rewrite lookup_delete_eq, lookup_insert_eq. simpl. rewrite insert_insert_eq.
    by destruct (decide (x ∈ rems)).
  - rewrite lookup_delete_ne, lookup_insert_ne by done.
    destruct (decide (k ∈ rems)).
    + by rewrite !(decide_True (P := k ∈ x :: rems)) by set_solver.
    + by rewrite !(decide_False (P := k ∈ x :: rems)) by set_solver.
Qed.

Lemma applyRemoveAll_spec m rems rid ts m' eff :
  applyRemoveAll m rems rid ts = (m', eff) ->
  replicaID m' = replicaID m /\ rmvClock m' = UpdatePos (rmvClock m) rid ts /\
  forall k,
    entries m' !! k = (if decide (k ∈ rems) then None else entries m !! k) /\
    stamps m' !! k =
      if decide (k ∈ rems) then Some (<[rid := ts]> (default ∅ (stamps m !! k))) else stamps m !! k.
Proof.
  unfold applyRemoveAll.
  destruct (foldl _ _ _) as [m1 removed] eqn:E. intros [= <- <-].
  by apply removeLoop_spec in E as (? & ? & ?).
Qed.

(** ** Typing *)

Lemma downstream_total s d : schema_ok s -> down_ok s d -> applicable s d.
Proof.
  revert s. induction d as [d|upds rmv rid IH|rems ts rid|upds rmv rid IH|] using down_rect;
    intros s Hs Hd; inversion Hd as [? ? E|f ? ? ? Hu|f ? ? ? Hu|f]; subst;
    intros c Hc; inversion Hc as [? l El|? m Hm]; subst; inversion Hs as [? Hsup|? Hf]; subst.
  - destruct (leaf_down_ok l d) as (l' & nd & E' & El'); [congruence|congruence|].
    simpl. rewrite E'. simpl. eexists _, _. split; [done|]. constructor. congruence.
  - destruct (applyUpdateAll_spec f m upds rmv rid) as (m' & eff & nd & E & Hst); [done| |done|].
    { rewrite !Forall_forall in *. intros e He. split; [by apply Hu|]. apply IH; [done|done|by apply Hu]. }
    simpl. rewrite E. simpl. eexists _, _. split; [done|]. apply crdt_ok_map, Hst.
  - simpl. destruct (applyRemoveAll m rems rid ts) as [m' eff] eqn:E. simpl.
    eexists _, _. split; [done|]. apply crdt_ok_map. intros k c' Hk.
    apply applyRemoveAll_spec in E as (_ & _ & Hk'). destruct (Hk' k) as [He _].
    rewrite He in Hk. destruct (decide _); [done|]. by apply Hm.
  - destruct (applyUpdateAll_spec f m upds rmv rid) as (m' & eff & nd & E & Hst); [done| |done|].
    { rewrite !Forall_forall in *. intros e He. split; [by apply Hu|]. apply IH; [done|done|by apply Hu]. }
    simpl. rewrite E. simpl. eexists _, _. split; [done|]. apply crdt_ok_map, Hst.
Qed.

(** C30. A well-typed update applied to an object of its type, at any depth of
    embedding, does not make the replica panic, and the object keeps its type:
    under each key stays an object of the type of the key. *)
Theorem downstream_preserves_types (s : Schema) (d : DownArgs) (c : CRDT) :
  schema_ok s -> down_ok s d -> crdt_ok s c ->
  exists c' newDown, Downstream d c = Some (c', newDown) /\ crdt_ok s c'.
Proof. intros Hs Hd. by apply downstream_total. Qed.
End merge.
