(* ===== verification/EmbMapHistory.v ===== *)
(** * Maps with embedded objects: what a replica holds after a history

    [history_spec]: after the updates of a history a key holds what [sub] says,
    the updates of the key that saw every remove of the key in the history,
    applied to a new object; the replica knows the latest remove of the key by
    each replica. *)

From S2P Require Import Prelude ClockSI Causal EmbObjects EmbMap EmbMapMerge.
From Stdlib Require Import ZArith Lia Bool.
From stdpp Require Import base tactics numbers strings gmap list.
#[local] Open Scope Z_scope.

Section history.
Context `{HL : Leaves, HLaws : !LeafLaws}.

(** ** Histories of updates *)

Definition updsOf (d : DownArgs) : list (Key * DownArgs) :=
  match d with
  | DownstreamRWEmbMapUpdateAll upds _ _ | DownstreamRWEmbMapUpdateAllArray upds _ _ => upds
  | _ => []
  end.

Definition rmvOf (d : DownArgs) : gmap Z Z :=
  match d with
  | DownstreamRWEmbMapUpdateAll _ rmv _ | DownstreamRWEmbMapUpdateAllArray _ rmv _ => rmv
  | _ => ∅
  end.

(** The remove of [k] in an update: the replica that issued it and its clock. *)
Definition removeOf (k : Key) (d : DownArgs) : option (Z * Z) :=
  match d with
  | DownstreamRWEmbMapRemoveAll rems ts rid => if decide (k ∈ rems) then Some (rid, ts) else None
  | _ => None
  end.

Definition removesOn (k : Key) (ops : list DownArgs) : list (Z * Z) := omap (removeOf k) ops.

(** An update that saw all of [R] is alive. *)
Definition alive (R : list (Z * Z)) (d : DownArgs) : bool := forallb (coversR (rmvOf d)) R.

Definition aliveAt (k : Key) (R : list (Z * Z)) (d : DownArgs) : list DownArgs :=
  if alive R d then at_key k (updsOf d) else [].

(** What the history has for the object under [k]. *)
Definition sub (k : Key) (ops : list DownArgs) : list DownArgs :=
  ops ≫= aliveAt k (removesOn k ops).

(** A remove of [k] comes after the removes with lower clocks of its replica,
    and no update before it has seen it. *)
Definition in_order (ops : list DownArgs) (d : DownArgs) : Prop :=
  forall k rid ts, removeOf k d = Some (rid, ts) ->
    (forall ts', (rid, ts') ∈ removesOn k ops -> ts' <= ts) /\
    (forall u, u ∈ ops -> at_key k (updsOf u) <> [] -> coversR (rmvOf u) (rid, ts) = false).

Definition ordered (ops : list DownArgs) : Prop :=
  forall pre d post, ops = pre ++ d :: post -> in_order pre d.

Lemma ordered_snoc ops d : ordered (ops ++ [d]) -> ordered ops /\ in_order ops d.
Proof.
  intros Ho. split; [|by apply (Ho ops d [])].
  intros pre d' post ->. apply (Ho pre d' (post ++ [d])). by rewrite <- app_assoc.
Qed.

Lemma removesOn_app k l1 l2 : removesOn k (l1 ++ l2) = removesOn k l1 ++ removesOn k l2.
Proof. apply omap_app. Qed.

Lemma elem_of_removesOn k ops rid ts :
  (rid, ts) ∈ removesOn k ops <-> exists d, d ∈ ops /\ removeOf k d = Some (rid, ts).
Proof. apply list_elem_of_omap. Qed.

Lemma removeOf_updsOf k d r : removeOf k d = Some r -> updsOf d = [].
Proof. by destruct d. Qed.

Lemma alive_spec R d :
  alive R d = true <-> forall rid ts, (rid, ts) ∈ R -> coversR (rmvOf d) (rid, ts) = true.
Proof.
  unfold alive. rewrite forallb_forall. split.
  - intros Hf rid ts Hr. apply Hf. by apply list_elem_of_In.
  - intros Hf [rid ts] Hr. apply Hf. by apply list_elem_of_In.
Qed.

Lemma elem_of_sub k ops x :
  x ∈ sub k ops <->
  exists d, d ∈ ops /\ alive (removesOn k ops) d = true /\ (k, x) ∈ updsOf d.
Proof.
  unfold sub. rewrite list_elem_of_bind. unfold aliveAt. split.
  - intros (d & Hx & Hd). destruct (alive _ d) eqn:E; [|by apply not_elem_of_nil in Hx].
    exists d. by rewrite <- at_key_elem.
  - intros (d & Hd & Ha & Hx). exists d. rewrite Ha. by rewrite at_key_elem.
Qed.

Lemma sub_update k ops d :
  removeOf k d = None ->
  sub k (ops ++ [d]) = sub k ops ++ aliveAt k (removesOn k ops) d.
Proof.
  intros Hd. unfold sub. rewrite removesOn_app. simpl. unfold removesOn at 2. simpl. rewrite Hd.
  rewrite app_nil_r, bind_app. simpl. by rewrite app_nil_r.
Qed.

Lemma sub_remove k ops d r : removeOf k d = Some r -> in_order ops d -> sub k (ops ++ [d]) = [].
Proof.
  intros Hd Ho. destruct r as [rid ts]. destruct (Ho k rid ts Hd) as [_ Hu].
  apply elem_of_nil_inv. intros x (u & Hu' & Ha & Hx)%elem_of_sub.
  assert (coversR (rmvOf u) (rid, ts) = true) as Hc.
  { rewrite alive_spec in Ha. apply Ha. rewrite removesOn_app, elem_of_app. right.
    unfold removesOn. simpl. rewrite Hd. set_solver. }
  apply elem_of_app in Hu' as [Hu'|Hu'].
  - rewrite (Hu u Hu') in Hc; [done|]. apply at_key_elem in Hx. by intros E; rewrite E in Hx; apply not_elem_of_nil in Hx.
  - apply list_elem_of_singleton in Hu' as ->.
    by rewrite (removeOf_updsOf _ _ _ Hd) in Hx; apply not_elem_of_nil in Hx.
Qed.

(** ** What the replica knows of the removes of a key *)

Definition knows (R : list (Z * Z)) (o : option (gmap Z Z)) : Prop :=
  match o with
  | None => R = []
  | Some e =>
      (forall rep ts, (rep, ts) ∈ R -> exists v, e !! rep = Some v /\ ts <= v) /\
      (forall rep v, e !! rep = Some v -> (rep, v) ∈ R)
  end.

Lemma accepted_alive R o d : knows R o -> accepted (rmvOf d) o = alive R d.
Proof.
  destruct o as [e|]; [|by intros ->]. intros [H1 H2].
  apply eq_bool_prop_intro. rewrite !Is_true_true, accepted_spec, alive_spec. split.
  - intros Hc rep ts Hr. destruct (H1 rep ts Hr) as (v & Hv & Hle). specialize (Hc rep v Hv).
    unfold coversR in *. simpl in *. destruct (rmvOf d !! rep); [|done].
    apply Z.leb_le in Hc. apply Z.leb_le. lia.
  - intros Hc rep ts He. by apply Hc, H2.
Qed.

Lemma knows_remove R o rid ts :
  knows R o -> (forall ts', (rid, ts') ∈ R -> ts' <= ts) ->
  knows (R ++ [(rid, ts)]) (Some (<[rid := ts]> (default ∅ o))).
Proof.
  intros Hk Hle. split.
  - intros rep ts' [Hr|Hr]%elem_of_app.
    + destruct (decide (rep = rid)) as [->|Hne].
      * exists ts. rewrite lookup_insert_eq. split; [done|by apply Hle].
      * rewrite lookup_insert_ne by done. destruct o as [e|]; simpl in *; [by apply Hk|].
        rewrite Hk in Hr. by apply not_elem_of_nil in Hr.
    + apply list_elem_of_singleton in Hr as [= -> ->].
      exists ts. rewrite lookup_insert_eq. split; [done|lia].
  - intros rep v. rewrite elem_of_app, list_elem_of_singleton.
    destruct (decide (rep = rid)) as [->|Hne].
    + rewrite lookup_insert_eq. intros [= ->]. by right.
    + rewrite lookup_insert_ne by done. destruct o as [e|]; simpl in *; [|by rewrite lookup_empty].
      intros Hv. left. by apply Hk.
Qed.

(** ** What a replica holds *)

(** The clocks of the removes and the times of the updates, also of embedded
    keys, have not overflowed. *)
Inductive clocks_ok : DownArgs -> Prop :=
  | clocks_leaf d : leaf_valid d -> clocks_ok (LDown d)
  | clocks_all upds rmv rid :
      Forall (fun e => clocks_ok e.2) upds -> clocks_ok (DownstreamRWEmbMapUpdateAll upds rmv rid)
  | clocks_array upds rmv rid :
      Forall (fun e => clocks_ok e.2) upds -> clocks_ok (DownstreamRWEmbMapUpdateAllArray upds rmv rid)
  | clocks_remove rems ts rid :
      0 < ts <= MaxInt64 -> clocks_ok (DownstreamRWEmbMapRemoveAll rems ts rid).

Record holds (f : Key -> Schema) (r : Z) (ops : list DownArgs) (m : RWEmbMapCrdt CRDT) : Prop := {
  holds_ok : map_ok f m;
  holds_replica : replicaID m = r;
  holds_removes k : knows (removesOn k ops) (stamps m !! k);
  holds_entries k : entries m !! k = evolve r (type_of (f k)) None (sub k ops);
  holds_clock k rep ts : (rep, ts) ∈ removesOn k ops -> ts <= GetPos (rmvClock m) rep;
  holds_range rep : Forall clocks_ok ops -> 0 <= GetPos (rmvClock m) rep <= MaxInt64
}.

Lemma NewTimestamp_zero ids rep : GetPos (NewTimestamp ids) rep = 0.
Proof.
  unfold NewTimestamp. cut (forall vc : vclock, GetPos vc rep = 0 ->
    GetPos (foldl (fun vc id => <[id := 0]> vc) vc ids) rep = 0).
  { intros Hc. apply Hc. unfold GetPos. by rewrite lookup_empty. }
  induction ids as [|id ids IH]; intros vc Hvc; [done|]. simpl. apply IH.
  unfold GetPos. destruct (decide (id = rep)) as [->|Hne].
  - by rewrite lookup_insert_eq.
  - by rewrite lookup_insert_ne.
Qed.

Lemma UpdatePos_max vc id v rep :
  GetPos (UpdatePos vc id v) rep = if decide (rep = id) then Z.max (GetPos vc id) v else GetPos vc rep.
Proof.
  unfold UpdatePos. destruct (GetPos vc id <? v) eqn:E; unfold GetPos at 1;
    destruct (decide (rep = id)) as [->|Hne].
  - rewrite lookup_insert_eq. simpl. apply Z.ltb_lt in E. lia.
  - by rewrite lookup_insert_ne.
  - apply Z.ltb_ge in E. unfold GetPos in *. lia.
  - done.
Qed.

Lemma holds_init f r : holds f r [] (Initialize r).
Proof.
  constructor; [done|done| | | |].
  - intros k. unfold stamps, Initialize. simpl. by rewrite fmap_empty, lookup_empty.
  - done.
  - by intros ??? ?%not_elem_of_nil.
  - intros rep _. simpl. rewrite NewTimestamp_zero. by unfold MaxInt64.
Qed.

Lemma typed_total s d : schema_ok s -> down_ok s d -> down_ok s d /\ applicable s d.
Proof. intros. split; [done|by apply downstream_total]. Qed.

Lemma sub_total f ops k :
  schema_ok (f k) -> Forall (down_ok (SMap f)) ops -> Forall (down_ok (f k)) (sub k ops).
Proof.
  intros Hs Hops. apply Forall_forall. intros x (d & Hd & _ & Hx)%elem_of_sub.
  rewrite Forall_forall in Hops. specialize (Hops d Hd).
  inversion Hops as [|? upds ? ? Hu|? upds ? ? Hu|]; subst; simpl in Hx; try by apply not_elem_of_nil in Hx.
  - rewrite Forall_forall in Hu. by apply (Hu (k, x)).
  - rewrite Forall_forall in Hu. by apply (Hu (k, x)).
Qed.

Lemma evolve_sub_total f r ops k :
  schema_ok (f k) -> Forall (down_ok (SMap f)) ops ->
  (forall c, evolve r (type_of (f k)) None (sub k ops) = Some c -> crdt_ok (f k) c) /\
  (sub k ops <> [] -> is_Some (evolve r (type_of (f k)) None (sub k ops))).
Proof.
  intros Hs Hops. apply evolve_total; [done| |done].
  eapply Forall_impl; [by apply sub_total|]. intros d Hd. by apply downstream_total.
Qed.

(** One more update of the keys of the map. *)
Lemma holds_update f r ops d m m' :
  (forall k, schema_ok (f k)) -> Forall (down_ok (SMap f)) ops -> (forall k, removeOf k d = None) ->
  holds f r ops m -> stepped f (rmvOf d) (updsOf d) m m' -> holds f r (ops ++ [d]) m'.
Proof.
  intros Hs Hops Hd [Hok Hrep Hrem Hent Hclk Hrng] (Hok' & Hrep' & Hclk' & Hst & He). constructor.
  - done.
  - congruence.
  - intros k. rewrite Hst, removesOn_app. unfold removesOn at 2. simpl. rewrite Hd.
    rewrite app_nil_r. apply Hrem.
  - intros k. rewrite He, sub_update by done. unfold aliveAt.
    rewrite (accepted_alive _ _ d (Hrem k)), Hrep, Hent.
    destruct (alive _ d); [|by rewrite app_nil_r].
    symmetry. apply evolve_app. by apply (evolve_sub_total f).
  - intros k rep ts. rewrite Hclk', removesOn_app, elem_of_app. unfold removesOn at 2. simpl. rewrite Hd.
    intros [Hr|Hr]; [by eapply Hclk|by apply not_elem_of_nil in Hr].
  - intros rep [Hr _]%Forall_app. rewrite Hclk'. by apply Hrng.
Qed.

Lemma holds_remove f r ops rems ts rid m m' eff :
  in_order ops (DownstreamRWEmbMapRemoveAll rems ts rid) ->
  holds f r ops m -> applyRemoveAll m rems rid ts = (m', eff) ->
  holds f r (ops ++ [DownstreamRWEmbMapRemoveAll rems ts rid]) m'.
Proof.
  intros Hd [Hok Hrep Hrem Hent Hclk Hrng] (Hrep' & Hclk' & Hk)%applyRemoveAll_spec. constructor.
  - intros k c. destruct (Hk k) as [-> _]. destruct (decide _); [done|apply Hok].
  - congruence.
  - intros k. destruct (Hk k) as [_ ->]. rewrite removesOn_app. unfold removesOn at 2. simpl.
    destruct (decide (k ∈ rems)) as [Hin|Hin]; [|by rewrite app_nil_r].
    apply knows_remove; [done|]. apply (Hd k rid ts). simpl. by rewrite decide_True.
  - intros k. destruct (Hk k) as [-> _].
    destruct (decide (k ∈ rems)) as [Hin|Hin].
    + rewrite (sub_remove k ops _ (rid, ts)); [done| |done]. simpl. by rewrite decide_True.
    + rewrite sub_update by (simpl; by rewrite decide_False).
      unfold aliveAt. simpl. rewrite Hent.
      replace (if alive _ _ then _ else _) with (@nil DownArgs) by by destruct (alive _ _).
      by rewrite app_nil_r.
  - intros k rep ts'. rewrite Hclk', UpdatePos_max, removesOn_app, elem_of_app. unfold removesOn at 2. simpl.
    intros [Hr|Hr].
    + apply Hclk in Hr. destruct (decide (rep = rid)) as [->|]; lia.
    + destruct (decide (k ∈ rems)); simpl in Hr; [|by apply not_elem_of_nil in Hr].
      apply list_elem_of_singleton in Hr as [= -> ->]. rewrite decide_True by done. lia.
  - intros rep [Hr Hn]%Forall_app. rewrite Forall_singleton in Hn. inversion Hn; subst.
    rewrite Hclk', UpdatePos_max. pose proof (Hrng rep Hr). pose proof (Hrng rid Hr).
    destruct (decide (rep = rid)); lia.
Qed.

Lemma history_spec f r ops :
  (forall k, schema_ok (f k)) -> Forall (down_ok (SMap f)) ops -> ordered ops ->
  exists m, run apply1 ops (Emb (Initialize r)) = Some (Emb m) /\ holds f r ops m.
Proof.
  intros Hs. induction ops as [|d ops IH] using rev_ind; intros Hops Ho.
  { exists (Initialize r). split; [done|]. apply holds_init. }
  apply Forall_app in Hops as [Hops Hd]. rewrite Forall_singleton in Hd.
  apply ordered_snoc in Ho as [Ho Hin].
  destruct (IH Hops Ho) as (m & Hrun & Hh). rewrite run_app, Hrun. simpl. unfold apply1.
  inversion Hd as [|? upds rmv rid Hu|? upds rmv rid Hu|? rems ts rid]; subst.
  1,2: destruct (applyUpdateAll_spec f m upds rmv rid) as (m' & eff & nd & E & Hst);
    [done| |apply Hh|];
    [eapply Forall_impl; [exact Hu|]; intros e He; by apply typed_total|];
    simpl; rewrite E; simpl; exists m'; split; [done|]; by eapply holds_update.
  simpl. destruct (applyRemoveAll m rems rid ts) as [m' eff] eqn:E. simpl.
  exists m'. split; [done|]. by eapply holds_remove.
Qed.
End history.
