(* ===== verification/EmbMapConverge.v ===== *)
(** * Maps with embedded objects: replicas converge

    [H] is a history of transactions.  It is [sound] for a type when its updates
    have the type, an update has seen exactly removes that happened before it,
    the removes of a replica are ordered by their clocks, and the same holds, for
    every key, of what is left of the history for the object under the key. *)

From S2P Require Import Prelude ClockSI Causal EmbObjects EmbMap EmbMapMerge EmbMapHistory.
From Stdlib Require Import ZArith Lia Bool.
From stdpp Require Import base tactics numbers strings gmap list.
#[local] Open Scope Z_scope.

Section converge.
Context `{HL : Leaves, HLaws : !LeafLaws}.
Context {Id : Type} (hb : Id -> Id -> Prop).
Abbreviation Event := (Id * list DownArgs)%type.

(** Objects that show the same, at different replicas. *)
Inductive crdt_sim : CRDT -> CRDT -> Prop :=
  | sim_leaf l1 l2 : leaf_sim l1 l2 -> crdt_sim (Leaf l1) (Leaf l2)
  | sim_emb m1 m2 :
      (forall k, option_Forall2 crdt_sim (entries m1 !! k) (entries m2 !! k)) ->
      crdt_sim (Emb m1) (Emb m2).

(** What is left of the transactions for the object under [k]. *)
Definition subE (k : Key) (H : list Event) : list Event :=
  (fun e => (e.1, e.2 ≫= aliveAt k (removesOn k (ops_of H)))) <$> H.

(** An update of a key has seen a remove of the key only if it happened before. *)
Definition saw (H : list Event) : Prop :=
  forall k e1 e2 d u r, e1 ∈ H -> e2 ∈ H -> d ∈ e1.2 -> u ∈ e2.2 ->
    removeOf k d = Some r -> at_key k (updsOf u) <> [] -> coversR (rmvOf u) r = true ->
    hb e1.1 e2.1.

(** The removes of a key by one replica. *)
Definition clocked (H : list Event) : Prop :=
  forall k e1 e2 d1 d2 rid ts1 ts2, e1 ∈ H -> e2 ∈ H -> d1 ∈ e1.2 -> d2 ∈ e2.2 ->
    removeOf k d1 = Some (rid, ts1) -> removeOf k d2 = Some (rid, ts2) ->
    (hb e1.1 e2.1 -> ts1 <= ts2) /\ (e1.1 <> e2.1 -> hb e1.1 e2.1 \/ hb e2.1 e1.1) /\
    (e1.1 = e2.1 -> ts1 = ts2).

Definition compat (a b : DownArgs) : Prop :=
  match a, b with LDown a, LDown b => leaf_compat a b | _, _ => False end.

Definition concurrent_compat (H : list Event) : Prop :=
  forall e1 e2 a b, e1 ∈ H -> e2 ∈ H -> ~ hb e1.1 e2.1 -> ~ hb e2.1 e1.1 -> e1.1 <> e2.1 ->
    a ∈ e1.2 -> b ∈ e2.2 -> compat a b.

Fixpoint sound (s : Schema) (H : list Event) : Prop :=
  match s with
  | SLeaf t =>
      Forall (fun d => down_ok (SLeaf t) d /\ clocks_ok d) (ops_of H) /\ concurrent_compat H
  | SMap f =>
      Forall (down_ok (SMap f)) (ops_of H) /\ saw H /\ clocked H /\ forall k, sound (f k) (subE k H)
  end.

Lemma sound_typed s H : sound s H -> Forall (down_ok s) (ops_of H).
Proof.
  destruct s; intros [? ?]; [|done]. eapply Forall_impl; [done|]. by intros d [? _].
Qed.

(** ** Histories of a key *)

Lemma ops_of_subE k H : ops_of (subE k H) = sub k (ops_of H).
Proof.
  unfold subE, sub. generalize (removesOn k (ops_of H)) as R. intros R.
  induction H as [|e H IH]; [done|]. rewrite fmap_cons, !ops_of_cons, bind_app, IH. done.
Qed.

Lemma linear_subE k H : linear hb H -> linear hb (subE k H).
Proof.
  unfold subE. generalize (removesOn k (ops_of H)) as R. intros R.
  induction 1 as [|e H Hn Hf Hl IH]; [constructor|]. rewrite fmap_cons. constructor.
  - rewrite <- list_fmap_compose. by rewrite (list_fmap_ext _ fst).
  - inversion Hf; subst. constructor; [done|]. by apply Forall_fmap.
  - done.
Qed.

Lemma alive_perm R1 R2 d : R1 ≡ₚ R2 -> alive R1 d = alive R2 d.
Proof.
  intros Hp. apply eq_bool_prop_intro. rewrite !Is_true_true, !alive_spec.
  by setoid_rewrite Hp.
Qed.

Lemma subE_perm k H1 H2 : H1 ≡ₚ H2 -> subE k H1 ≡ₚ subE k H2.
Proof.
  intros Hp. unfold subE.
  rewrite (list_fmap_ext _ (fun e => (e.1, e.2 ≫= aliveAt k (removesOn k (ops_of H2)))) H1).
  - by rewrite Hp.
  - intros i [id ds] _. simpl. f_equal.
    induction ds as [|d ds IH]; [done|]. simpl. f_equal; [|exact IH].
    unfold aliveAt. rewrite (alive_perm _ (removesOn k (ops_of H2))); [done|].
    unfold removesOn. by rewrite (ops_of_perm _ _ Hp).
Qed.

Lemma sound_perm s H1 H2 : H1 ≡ₚ H2 -> sound s H1 -> sound s H2.
Proof.
  revert H1 H2. induction s as [t|f IH]; intros H1 H2 Hp; simpl.
  - intros [Ho Hc]. split; [by rewrite <- (ops_of_perm _ _ Hp)|].
    intros e1 e2 a b. rewrite <- !Hp. apply Hc.
  - intros (Ho & Hs & Hc & Hk). split_and!.
    + by rewrite <- (ops_of_perm _ _ Hp).
    + intros k e1 e2 d u r. rewrite <- !Hp. apply Hs.
    + intros k e1 e2 d1 d2 rid ts1 ts2. rewrite <- !Hp. apply Hc.
    + intros k. apply (IH k (subE k H1)); [by apply subE_perm|apply Hk].
Qed.

(** Where an operation of a history comes from. *)
Lemma ops_of_split (H : list Event) pre d post :
  ops_of H = pre ++ d :: post ->
  exists H1 e H2 d1 d2, H = H1 ++ e :: H2 /\ e.2 = d1 ++ d :: d2 /\ pre = ops_of H1 ++ d1.
Proof.
  revert pre. induction H as [|e H IH]; intros pre.
  { unfold ops_of. simpl. by destruct pre. }
  rewrite ops_of_cons. intros E.
  apply app_eq_inv in E as [(l & E1 & E2)|(l & E1 & E2)].
  - destruct l as [|x l]; simpl in *.
    + destruct (IH [] (eq_sym E2)) as (H1 & e' & H2 & d1 & d2 & -> & ? & Hnil).
      symmetry in Hnil. apply app_nil in Hnil as [Hn1 ->].
      exists (e :: H1), e', H2, [], d2. split_and!; [done|done|].
      rewrite ops_of_cons, Hn1, !app_nil_r. by rewrite app_nil_r in E1.
    + simplify_eq. exists [], e, H, pre, l. by rewrite E1.
  - destruct (IH l E2) as (H1 & e' & H2 & d1 & d2 & -> & ? & ->).
    exists (e :: H1), e', H2, d1, d2. split_and!; [done|done|].
    rewrite ops_of_cons, <- app_assoc. done.
Qed.

Ltac in_list := rewrite ?elem_of_app, ?elem_of_cons; by auto 7.

Lemma sound_ordered f H : linear hb H -> sound (SMap f) H -> ordered (ops_of H).
Proof.
  intros Hl (_ & Hsaw & Hclk & _) pre d post E.
  apply ops_of_split in E as (H1 & e & H2 & d1 & d2 & -> & He & ->).
  assert (~ hb e.1 e.1) as Hirr by (eapply linear_irrefl; [done|in_list]).
  apply linear_app in Hl as (_ & _ & Hcross).
  assert (d ∈ e.2) as Hde by (rewrite He; in_list).
  intros k rid ts Hd. split.
  - intros ts' (d' & Hd' & Hr)%elem_of_removesOn.
    apply elem_of_app in Hd' as [(e' & He' & Hd')%elem_of_ops_of|Hd'].
    + destruct (Hcross e' e) as [Hne Hnhb]; [done|in_list|].
      destruct (Hclk k e' e d' d rid ts' ts) as (Hle & Htot & _); try done; [in_list..|].
      destruct (Htot Hne); [by apply Hle|done].
    + assert (d' ∈ e.2) by (rewrite He; in_list).
      destruct (Hclk k e e d' d rid ts' ts) as (_ & _ & Heq); try done; [in_list..|].
      rewrite Heq; [lia|done].
  - intros u Hu Hk. apply not_true_is_false. intros Hcov.
    apply elem_of_app in Hu as [(e' & He' & Hu)%elem_of_ops_of|Hu].
    + destruct (Hcross e' e) as [_ Hnhb]; [done|in_list|]. apply Hnhb.
      apply (Hsaw k e e' d u (rid, ts)); try done; in_list.
    + assert (u ∈ e.2) by (rewrite He; in_list).
      apply Hirr. apply (Hsaw k e e d u (rid, ts)); try done; in_list.
Qed.

(** ** Objects that are not maps *)

Definition leaf_apply (d : DownArgs) (l : LeafCRDT) : option LeafCRDT :=
  match d with LDown d => fst <$> leaf_downstream l (Own d) | _ => None end.

Lemma down_leaf_inv t d : down_ok (SLeaf t) d -> exists d0, d = LDown d0 /\ leaf_down_type d0 = t.
Proof. inversion 1; subst; by eexists. Qed.

Lemma apply1_leaf d l : apply1 (LDown d) (Leaf l) = Leaf <$> leaf_apply (LDown d) l.
Proof. unfold apply1. simpl. by destruct (leaf_downstream l (Own d)) as [[? ?]|]. Qed.

Lemma run_leaf t ops l :
  Forall (down_ok (SLeaf t)) ops -> run apply1 ops (Leaf l) = Leaf <$> run leaf_apply ops l.
Proof.
  intros Ho. revert l. induction Ho as [|d ops Hd Ho IH]; intros l; [done|].
  apply down_leaf_inv in Hd as (d0 & -> & Ed). cbn [run]. rewrite apply1_leaf.
  destruct (leaf_apply (LDown d0) l) as [l'|]; simpl; [apply IH|done].
Qed.

Lemma leaf_agree t H1 H2 l1 l2 l1' l2' :
  leaf_supported t -> H1 ≡ₚ H2 -> linear hb H1 -> linear hb H2 -> sound (SLeaf t) H1 ->
  leaf_type l1 = t -> leaf_type l2 = t -> leaf_sim l1 l2 ->
  run leaf_apply (ops_of H1) l1 = Some l1' -> run leaf_apply (ops_of H2) l2 = Some l2' ->
  leaf_sim l1' l2'.
Proof.
  intros Ht Hp Hl1 Hl2 [Ho Hc] E1 E2 Hs.
  apply (linear_agree hb leaf_apply leaf_sim (fun l => leaf_type l = t)
    (fun d => down_ok (SLeaf t) d /\ clocks_ok d) compat); try done.
  - intros d l El [(d0 & -> & Ed)%down_leaf_inv _].
    destruct (leaf_down_ok l d0) as (l' & nd & E & ?); [congruence..|].
    exists l'. simpl. rewrite E. split; [done|congruence].
  - intros d s1 s2 s1' s2' ? ? [(d0 & -> & Ed)%down_leaf_inv Hv] Hsim. inversion Hv; subst. simpl.
    intros ([? ?] & E & ->)%fmap_Some ([? ?] & E' & ->)%fmap_Some. simpl.
    by eapply leaf_down_sim.
  - intros a b s s1 s2 Es [(d & -> & Ed)%down_leaf_inv _] [(d0 & -> & Ed0)%down_leaf_inv _]. simpl. intros Hcomp.
    destruct (leaf_downstream s (Own d)) as [[la n1]|] eqn:F1; simpl; [|done].
    destruct (leaf_downstream la (Own d0)) as [[lab n2]|] eqn:F2; simpl; [|done].
    destruct (leaf_downstream s (Own d0)) as [[lb n3]|] eqn:F3; simpl; [|done].
    destruct (leaf_downstream lb (Own d)) as [[lba n4]|] eqn:F4; simpl; [|done].
    intros [= <-] [= <-]. eapply (leaf_comm s d d0); try done; congruence.
Qed.

Lemma run_leaf_ok t ops l :
  leaf_supported t -> leaf_type l = t -> Forall (down_ok (SLeaf t)) ops ->
  exists l', run leaf_apply ops l = Some l'.
Proof.
  intros Ht El Ho. revert l El. induction Ho as [|d ops Hd Ho IH]; intros l El; [by exists l|].
  apply down_leaf_inv in Hd as (d0 & -> & Ed).
  destruct (leaf_down_ok l d0) as (l' & nd & E & ?); [congruence..|].
  simpl. rewrite E. simpl. apply IH. congruence.
Qed.

(** ** Convergence *)

(** What a replica makes of a history. *)
Definition replay (s : Schema) (r : Z) (ops : list DownArgs) : option CRDT :=
  c ← InitializeCrdt (type_of s) r; run apply1 ops c.

Lemma evolve_replay s r ops :
  evolve r (type_of s) None ops = match ops with [] => None | _ => replay s r ops end.
Proof. by destruct ops. Qed.

Lemma replay_agree s H1 H2 r1 r2 :
  schema_ok s -> H1 ≡ₚ H2 -> linear hb H1 -> linear hb H2 -> sound s H1 ->
  exists c1 c2, replay s r1 (ops_of H1) = Some c1 /\ replay s r2 (ops_of H2) = Some c2 /\ crdt_sim c1 c2.
Proof.
  intros Hs. revert H1 H2. induction Hs as [t Ht|f Hf IH]; intros H1 H2 Hp Hl1 Hl2 Hsound.
  - destruct (leaf_init_ok t r1 Ht) as (l1 & E1 & T1), (leaf_init_ok t r2 Ht) as (l2 & E2 & T2).
    pose proof (sound_typed _ _ Hsound) as Ho1. assert (Forall (down_ok (SLeaf t)) (ops_of H2)) as Ho2
      by by rewrite <- (ops_of_perm _ _ Hp).
    destruct (run_leaf_ok t (ops_of H1) l1) as (l1' & F1); [done..|].
    destruct (run_leaf_ok t (ops_of H2) l2) as (l2' & F2); [done..|].
    unfold replay, InitializeCrdt. simpl. rewrite !decide_False by by apply leaf_not_map.
    rewrite E1, E2. simpl. rewrite !(run_leaf t) by done. rewrite F1, F2. simpl.
    exists (Leaf l1'), (Leaf l2'). split_and!; [done..|]. constructor.
    apply (leaf_agree t H1 H2 l1 l2); try done. by eapply leaf_init_sim.
  - assert (sound (SMap f) H2) as Hsound2 by by apply (sound_perm (SMap f) H1).
    destruct (history_spec f r1 (ops_of H1)) as (m1 & E1 & Hh1);
      [done|apply Hsound|by eapply sound_ordered|].
    destruct (history_spec f r2 (ops_of H2)) as (m2 & E2 & Hh2);
      [done|apply Hsound2|by eapply sound_ordered|].
    exists (Emb m1), (Emb m2). split_and!; [done|done|]. constructor. intros k.
    rewrite (holds_entries _ _ _ _ Hh1), (holds_entries _ _ _ _ Hh2), !evolve_replay, <- !ops_of_subE.
    assert (subE k H1 ≡ₚ subE k H2) as Hpk by by apply subE_perm.
    pose proof (ops_of_perm _ _ Hpk) as Hpo.
    destruct (IH k (subE k H1) (subE k H2)) as (c1 & c2 & F1 & F2 & Hsim);
      [done|by apply linear_subE|by apply linear_subE|apply Hsound|].
    destruct (ops_of (subE k H1)) as [|d1 l1] eqn:G1, (ops_of (subE k H2)) as [|d2 l2] eqn:G2.
    + constructor.
    + by apply Permutation_nil_cons in Hpo.
    + by apply symmetry, Permutation_nil_cons in Hpo.
    + rewrite F1, F2. by constructor.
Qed.
End converge.
