(* ===== verification/EmbMapSystem.v ===== *)
(** * Maps with embedded objects: runs of replicas

    Replicas issue updates of a map, each prepared by [Update] from what the
    replica shows and applied before the next one, as in the loop of
    [applyUpdates], and apply the updates of others in causal order (Causal).  The
    updates of a transaction are events that follow each other.  What a replica has applied is then sound for the type of the map
    ([sound_issued]), so replicas that applied the same transactions show the
    same map. *)

From S2P Require Import Prelude ClockSI Counters Registers Causal EmbObjects EmbLeaves EmbMap EmbMapMerge EmbMapHistory EmbMapConverge.
From Stdlib Require Import ZArith Lia Bool.
From stdpp Require Import base tactics numbers strings gmap list.
#[local] Open Scope Z_scope.

Section prepare.
Context `{HL : Leaves, HLaws : !LeafLaws, HI : !LeafIssue}.
Abbreviation Map := (RWEmbMapCrdt CRDT).

(** ** Objects of a replica *)

Inductive crdt_at (r : Z) : CRDT -> Prop :=
  | at_leaf l : leaf_at r l -> crdt_at r (Leaf l)
  | at_map m :
      replicaID m = r -> (forall k c, entries m !! k = Some c -> crdt_at r c) -> crdt_at r (Emb m).

Lemma crdt_init_at t r c : InitializeCrdt t r = Some c -> crdt_at r c.
Proof.
  unfold InitializeCrdt. destruct (decide (t = RRMAP)); [intros [= <-]; by constructor|].
  intros (l & Hl & ->)%fmap_Some. constructor. by eapply leaf_init_at.
Qed.

(** What an update of a key may have seen: clocks of removes that are known. *)
Definition known (m : Map) (rmv : gmap Z Z) : Prop :=
  forall rep v, rmv !! rep = Some v -> exists k e, stamps m !! k = Some e /\ e !! rep = Some v.

Lemma raise_lookup rmv e rep :
  raise rmv e !! rep = rmv !! rep \/ rep = e.1 /\ raise rmv e !! rep = Some (mts e.2).
Proof.
  unfold raise. destruct (_ <? _); [|by left].
  destruct (decide (rep = e.1)) as [->|Hne]; [right|left].
  - by rewrite lookup_insert_eq.
  - by rewrite lookup_insert_ne.
Qed.

Lemma raiseAll_known m k rmv : known m rmv -> known m (raiseAll m k rmv).
Proof.
  intros Hk. unfold raiseAll. destruct (removes m !! k) as [e|] eqn:E; [|done].
  assert (forall x, x ∈ map_to_list e -> e !! x.1 = Some x.2) as Hin
    by by intros [? ?]; rewrite elem_of_map_to_list.
  revert rmv Hk Hin. generalize (map_to_list e) as l.
  induction l as [|x l IH]; intros rmv Hk Hin; [done|]. simpl. apply IH; [|set_solver].
  intros rep v Hv. destruct (raise_lookup rmv x rep) as [E'|[-> E']]; rewrite E' in Hv; [by apply Hk|].
  injection Hv as <-. exists k, (clocks e). rewrite stamps_lookup, E. split; [done|].
  unfold clocks. rewrite lookup_fmap, (Hin x) by set_solver. done.
Qed.

(** ** The loop of [Update] *)

(** What an embedded update makes of the object under its key. *)
Definition prepares (rec : nat -> UpdArgs -> CRDT -> option DownArgs) (m : Map)
    (upds : list (Key * UpdArgs)) (e : Key * DownArgs) : Prop :=
  MustReplicate e.2 = true /\ exists i u t c new, (e.1, u) ∈ upds /\ upd_type u = Some t /\
    getOrCreateEmbCrdt m e.1 t = Some (c, new) /\ rec i u c = Some e.2.

Lemma updateLoop_spec rec i m upds rmv :
  (forall i k u, (k, u) ∈ upds -> exists t c new d, upd_type u = Some t /\
     getOrCreateEmbCrdt m k t = Some (c, new) /\ rec i u c = Some d) ->
  known m rmv ->
  exists ds rmv', updateLoop rec i m upds rmv = Some (ds, rmv') /\
    Forall (prepares rec m upds) ds /\ known m rmv'.
Proof.
  revert i rmv. induction upds as [|[k u] upds IH]; intros i rmv Hok Hk; [by exists [], rmv|].
  simpl. destruct (Hok i k u) as (t & c & new & d & Et & Ec & Ed); [set_solver|].
  rewrite Et. simpl. rewrite Ec. simpl. rewrite Ed. simpl.
  destruct (IH (S i) (raiseAll m k rmv)) as (ds & rmv' & E & Hds & Hk').
  { intros j k' u' Hin. apply Hok. set_solver. }
  { by apply raiseAll_known. }
  rewrite E. simpl. eexists _, _. split; [done|]. split; [|done].
  assert (Forall (prepares rec m ((k, u) :: upds)) ds) as Hds'.
  { eapply Forall_impl; [exact Hds|]. intros e (Hm & j & u' & t' & c' & new' & Hin & Hx).
    split; [done|]. exists j, u', t', c', new'. split; [set_solver|done]. }
  destruct (MustReplicate d) eqn:Em; [|done]. constructor; [|done].
  split; [done|]. exists i, u, t, c, new. split; [set_solver|done].
Qed.

(** ** What clients' updates become *)

(** An update of an object of its type, at replica [r]. *)
Record issued (s : Schema) (r : Z) (d : DownArgs) : Prop := {
  issued_typed : down_ok s d;
  issued_leaf x : d = LDown x -> leaf_from r x
}.

Lemma get_or_create f r m k oc u :
  schema_ok (f k) -> map_ok f m -> crdt_at r (Emb m) -> upd_ok (f k) (child oc k) u ->
  (oc = Some (Emb m) \/ oc = None) ->
  exists t c new, upd_type u = Some t /\ getOrCreateEmbCrdt m k t = Some (c, new) /\
    crdt_ok (f k) c /\ crdt_at r c /\ (child oc k = Some c \/ child oc k = None) /\
    match entries m !! k with Some c => Some c | None => InitializeCrdt (type_of (f k)) r end = Some c.
Proof.
  intros Hs Hm Hat Hu Hoc. inversion Hat as [|? Hr Hats]; subst.
  unfold getOrCreateEmbCrdt. destruct (entries m !! k) as [c|] eqn:Ek.
  - assert (child oc k = Some c \/ child oc k = None) as Hch
      by by destruct Hoc as [-> | ->]; [left|right].
    destruct (upd_ok_some _ _ _ Hu) as (t & Et). exists t, c, false.
    split_and!; try done; [by apply Hm|by apply (Hats k)].
  - assert (child oc k = None) as Hch by by destruct Hoc as [-> | ->].
    rewrite Hch in Hu. apply upd_ok_type in Hu. rewrite Hu.
    destruct (init_ok (f k) (replicaID m)) as (c & Ec & ?); [done|].
    exists (type_of (f k)), c, true. rewrite Ec. simpl. split_and!; try done.
    + by eapply crdt_init_at.
    + by right.
Qed.

(** The loop over the updates of the keys of an object. *)
Lemma updateLoop_issued rec f r m oc upds :
  (forall k, schema_ok (f k)) -> map_ok f m -> crdt_at r (Emb m) -> (oc = Some (Emb m) \/ oc = None) ->
  Forall (fun e => upd_ok (f e.1) (child oc e.1) e.2) upds ->
  (forall i k u c, (k, u) ∈ upds -> crdt_ok (f k) c -> crdt_at r c ->
     (child oc k = Some c \/ child oc k = None) ->
     exists d, rec i u c = Some d /\ (MustReplicate d = true -> issued (f k) r d)) ->
  exists ds rmv, updateLoop rec 0 m upds ∅ = Some (ds, rmv) /\
    Forall (prepares rec m upds) ds /\ known m rmv /\ Forall (fun e => down_ok (f e.1) e.2) ds.
Proof.
  intros Hs Hm Hat Hoc Hu Hrec. rewrite Forall_forall in Hu.
  destruct (updateLoop_spec rec 0 m upds ∅) as (ds & rmv & E & Hds & Hk).
  - intros i k u Hin.
    destruct (get_or_create f r m k oc u) as (t & c & new & Et & Ec & Hc & Hcat & Hch & _); try done.
    { by apply (Hu (k, u)). }
    destruct (Hrec i k u c Hin Hc Hcat Hch) as (d & Ed & _). by exists t, c, new, d.
  - intros rep v Hv. by rewrite lookup_empty in Hv.
  - exists ds, rmv. split_and!; try done. eapply Forall_impl; [exact Hds|].
    intros [k d] (Hmust & i & u & t & c & new & Hin & Et & Ec & Ed). simpl in *.
    destruct (get_or_create f r m k oc u) as (t' & c' & new' & Et' & Ec' & Hc & Hcat & Hch & _); try done.
    { by apply (Hu (k, u)). }
    rewrite Et in Et'. injection Et' as <-. rewrite Ec in Ec'. injection Ec' as <- <-.
    destruct (Hrec i k u c Hin Hc Hcat Hch) as (d' & Ed' & Hd').
    rewrite Ed in Ed'. injection Ed' as <-. by apply Hd'.
Qed.

Lemma update_issued env u s oc r c :
  schema_ok s -> crdt_ok s c -> crdt_at r c -> (oc = Some c \/ oc = None) -> upd_ok s oc u ->
  exists d, Update env u c = Some d /\ (MustReplicate d = true -> issued s r d).
Proof.
  revert env s oc c. induction u as [u|k u IH|upds IH|upds IH|k|ks| | |] using upd_rect;
    intros env s oc c Hs Hc Hat Hoc Hu; inversion Hu as [? ? ? Et|f ? ? ? Hu'|f ? ? Hu'|f ? ? Hu'|f c'|f c']; subst;
    inversion Hc as [? l El|? m Hm]; subst; inversion Hs as [? Hsup|? Hf]; subst.
  - inversion Hat as [? Hl|]; subst. simpl.
    destruct (leaf_update_ok (env []) r l u) as (o & Eo & Ho); [by rewrite El|by rewrite El|done|].
    rewrite Eo. simpl. eexists. split; [done|]. destruct o as [d|]; [|done]. intros _.
    destruct (Ho d eq_refl) as [Hd1 Hd2]. split; [|by intros ? [= <-]]. constructor. congruence.
  - destruct (updateLoop_issued (fun i u => Update (fun p => env (i :: p)) u) f r m oc [(k, u)])
      as (ds & rmv & E & _ & _ & Hds); try done; [by repeat constructor| |].
    { intros i k' u' c' Hin%list_elem_of_singleton. simplify_eq. intros. by eapply IH. }
    simpl. unfold getUpdateAllDownstreamArgs. rewrite E. simpl. eexists. split; [done|].
    destruct (_ && _); [done|]. intros _. split; [by constructor|done].
  - destruct (updateLoop_issued (fun i u => Update (fun p => env (i :: p)) u) f r m oc upds)
      as (ds & rmv & E & _ & _ & Hds); try done.
    { intros i k' u' c' Hin. rewrite Forall_forall in IH, Hu'. intros.
      eapply (IH (k', u')); try done. by apply (Hu' (k', u')). }
    simpl. unfold getUpdateAllDownstreamArgs. rewrite E. simpl. eexists. split; [done|].
    destruct (_ && _); [done|]. intros _. split; [by constructor|done].
  - destruct (updateLoop_issued (fun i u => Update (fun p => env (i :: p)) u) f r m oc upds)
      as (ds & rmv & E & _ & _ & Hds); try done.
    { intros i k' u' c' Hin. rewrite Forall_forall in IH, Hu'. intros.
      eapply (IH (k', u')); try done. by apply (Hu' (k', u')). }
    simpl. unfold getUpdateAllDownstreamArgsArray. rewrite E. simpl. eexists. split; [done|].
    destruct (_ && _); [done|]. intros _. split; [by constructor|done].
  - simpl. eexists. split; [done|]. unfold getRemoveAllDownstreamArgs.
    destruct (filter _ _); [done|]. intros _. split; [by constructor|done].
  - simpl. eexists. split; [done|]. unfold getRemoveAllDownstreamArgs.
    destruct (filter _ _); [done|]. intros _. split; [by constructor|done].
Qed.

(** *** Applying updates keeps the objects of a replica *)

Definition applicable_at (s : Schema) (r : Z) (d : DownArgs) : Prop :=
  forall c, crdt_ok s c -> crdt_at r c ->
    exists c' nd, Downstream d c = Some (c', nd) /\ crdt_ok s c' /\ crdt_at r c'.

Lemma run_at s r ds c :
  Forall (applicable_at s r) ds -> crdt_ok s c -> crdt_at r c ->
  exists c', run apply1 ds c = Some c' /\ crdt_ok s c' /\ crdt_at r c'.
Proof.
  intros Hds. revert c. induction Hds as [|d ds Hd _ IH]; intros c Hc Hat; [by exists c|].
  destruct (Hd c Hc Hat) as (c' & nd & E & ? & ?). destruct (IH c') as (c'' & ? & ?); [done..|].
  exists c''. split; [|done]. simpl. by rewrite (apply1_eq _ _ _ _ E).
Qed.

Lemma evolve_at s r o ds c :
  schema_ok s -> Forall (applicable_at s r) ds ->
  (forall c, o = Some c -> crdt_ok s c /\ crdt_at r c) ->
  evolve r (type_of s) o ds = Some c -> crdt_at r c.
Proof.
  intros Hs Hds Ho. destruct ds as [|d ds]; [intros E; by apply Ho|].
  assert (exists c0, match o with Some c => Some c | None => InitializeCrdt (type_of s) r end = Some c0
    /\ crdt_ok s c0 /\ crdt_at r c0) as (c0 & E & Hc0 & Hat0).
  { destruct o as [c0|]; [exists c0; by eauto|].
    destruct (init_ok s r Hs) as (c0 & E & ?). exists c0. split_and!; [done..|]. by eapply crdt_init_at. }
  unfold evolve. rewrite E. destruct (run_at s r (d :: ds) c0) as (c' & Er & _ & ?); [done..|].
  change (c0' ← Some c0; run apply1 (d :: ds) c0') with (run apply1 (d :: ds) c0).
  rewrite Er. by intros [= <-].
Qed.

Lemma stepped_at f r rmv upds m m' :
  (forall k, schema_ok (f k)) -> map_ok f m -> crdt_at r (Emb m) ->
  Forall (fun e => applicable_at (f e.1) r e.2) upds -> stepped f rmv upds m m' ->
  crdt_at r (Emb m').
Proof.
  intros Hs Hm Hat Hu (_ & Hr' & _ & _ & He). inversion Hat as [|? Hr Hats]; subst.
  constructor; [done|]. intros k c. rewrite He.
  destruct (accepted _ _); [|by apply Hats].
  apply (evolve_at (f k)); [done| |].
  - apply Forall_forall. intros d Hd%at_key_elem. rewrite Forall_forall in Hu. by apply (Hu (k, d)).
  - intros c' Hc'. split; [by apply Hm|by apply (Hats k)].
Qed.

Lemma update_at f r m upds rmv rid :
  (forall k, schema_ok (f k)) -> map_ok f m -> crdt_at r (Emb m) ->
  Forall (fun e => down_ok (f e.1) e.2) upds -> Forall (fun e => applicable_at (f e.1) r e.2) upds ->
  exists m' eff nd, applyUpdateAll Downstream m upds rmv rid false = Some (m', eff, nd) /\
    map_ok f m' /\ crdt_at r (Emb m').
Proof.
  intros Hs Hm Hat Hu Ha.
  destruct (applyUpdateAll_spec f m upds rmv rid) as (m' & eff & nd & E & Hst); [done| |done|].
  { eapply Forall_impl; [exact Hu|]. intros e He. by apply typed_total. }
  exists m', eff, nd. split_and!; [done|apply Hst|by eapply stepped_at].
Qed.

Lemma downstream_at s r d : schema_ok s -> down_ok s d -> applicable_at s r d.
Proof.
  revert s. induction d as [d|upds rmv rid IH|rems ts rid|upds rmv rid IH|] using down_rect;
    intros s Hs Hd; inversion Hd as [? ? E|f ? ? ? Hu|f ? ? ? Hu|f]; subst;
    intros c Hc Hat; inversion Hc as [? l El|? m Hm]; subst; inversion Hs as [? Hsup|? Hf]; subst.
  - destruct (leaf_down_ok l d) as (l' & nd & E' & El'); [congruence|congruence|].
    simpl. rewrite E'. simpl. eexists _, _. split_and!; [done|constructor; congruence|].
    inversion Hat; subst. constructor. by eapply leaf_down_at.
  - destruct (update_at f r m upds rmv rid) as (m' & eff & nd & E & ? & ?); try done.
    { rewrite !Forall_forall in *. intros e He. apply IH; [done|done|by apply Hu]. }
    simpl. rewrite E. simpl. eexists _, _. split_and!; [done|by apply crdt_ok_map|done].
  - simpl. destruct (applyRemoveAll m rems rid ts) as [m' eff] eqn:E. simpl.
    apply applyRemoveAll_spec in E as (Hr' & _ & Hk'). inversion Hat as [|? Hr Hats]; subst.
    eexists _, _. split_and!; [done|apply crdt_ok_map|constructor; [done|]]; intros k c' Hk;
      destruct (Hk' k) as [He _]; rewrite He in Hk; (destruct (decide _); [done|]).
    + by apply Hm.
    + by apply (Hats k).
  - destruct (update_at f r m upds rmv rid) as (m' & eff & nd & E & ? & ?); try done.
    { rewrite !Forall_forall in *. intros e He. apply IH; [done|done|by apply Hu]. }
    simpl. rewrite E. simpl. eexists _, _. split_and!; [done|by apply crdt_ok_map|done].
Qed.

Lemma replay_at s r ops :
  schema_ok s -> Forall (down_ok s) ops ->
  exists c, replay s r ops = Some c /\ crdt_ok s c /\ crdt_at r c.
Proof.
  intros Hs Hops. destruct (init_ok s r Hs) as (c0 & E & Hc0). unfold replay. rewrite E.
  apply run_at; [|done|by eapply crdt_init_at].
  eapply Forall_impl; [exact Hops|]. intros d Hd. by apply downstream_at.
Qed.

(** *** What a replica issues after a history *)

(** The option is the object as the embedding map has it: there may be none. *)
Definition prepared (s : Schema) (r : Z) (P : list DownArgs) (d : DownArgs) : Prop :=
  exists env u c oc, replay s r P = Some c /\ (oc = Some c \/ oc = None) /\ upd_ok s oc u /\
    Update env u c = Some d /\ MustReplicate d = true.

Lemma prepared_issued s r P d :
  schema_ok s -> Forall (down_ok s) P -> prepared s r P d -> issued s r d.
Proof.
  intros Hs HP (env & u & c & oc & Ec & Hoc & Hu & E & Hm).
  destruct (replay_at s r P Hs HP) as (c' & Ec' & Hc & Hat). simplify_eq.
  destruct (update_issued env u s oc r c Hs Hc Hat Hoc Hu) as (d' & E' & Hd'). simplify_eq.
  by apply Hd'.
Qed.

(** What an update of a map is made of. *)
Inductive from_map (f : Key -> Schema) (r : Z) (m : Map) : DownArgs -> Prop :=
  | from_removes rems :
      from_map f r m (DownstreamRWEmbMapRemoveAll rems (int64 (GetPos (rmvClock m) r + 1)) r)
  | from_updates d rec oc upds :
      (forall k, removeOf k d = None) -> known m (rmvOf d) ->
      (oc = Some (Emb m) \/ oc = None) ->
      Forall (fun e => upd_ok (f e.1) (child oc e.1) e.2) upds ->
      (forall i u c d, rec i u c = Some d -> exists env, Update env u c = Some d) ->
      Forall (prepares rec m upds) (updsOf d) -> from_map f r m d.

Lemma prepared_from_map f r P d m :
  (forall k, schema_ok (f k)) -> Forall (down_ok (SMap f)) P ->
  replay (SMap f) r P = Some (Emb m) -> prepared (SMap f) r P d -> from_map f r m d.
Proof.
  intros Hs HP Em (env & u & c & oc & Ec & Hoc & Hu & E & Hmust). simplify_eq.
  destruct (replay_at (SMap f) r P) as (c' & Ec' & Hc & Hat); [by constructor|done|]. simplify_eq.
  apply crdt_ok_map in Hc. pose proof Hat as Hat'. inversion Hat' as [|? Hr Hats]; subst.
  set (rec := fun i u => Update (fun p => env (i :: p)) u).
  assert (forall i u c d, rec i u c = Some d -> exists env, Update env u c = Some d) as Hrec by by eexists.
  assert (forall upds, Forall (fun e => upd_ok (f e.1) (child oc e.1) e.2) upds ->
    exists ds rmv, updateLoop rec 0 m upds ∅ = Some (ds, rmv) /\
      Forall (prepares rec m upds) ds /\ known m rmv) as Hloop.
  { intros upds Hupds. destruct (updateLoop_issued rec f (replicaID m) m oc upds)
      as (ds & rmv & El & Hds & Hk & _); try done; [|by exists ds, rmv].
    intros i k u' c' Hin Hc' Hat'' Hch. apply (update_issued _ _ _ (child oc k)); try done.
    rewrite Forall_forall in Hupds. by apply (Hupds (k, u')). }
  inversion Hu as [|? ? k u' Hu'|? ? upds Hu'|? ? upds Hu'|? ? k|? ? ks]; subst; simpl in E.
  - destruct (Hloop [(k, u')]) as (ds & rmv & El & Hds & Hk); [by repeat constructor|].
    unfold getUpdateAllDownstreamArgs in E. fold rec in E. rewrite El in E. simpl in E.
    destruct (_ && _); simplify_eq. apply (from_updates _ _ _ _ rec oc [(k, u')]); try done; by repeat constructor.
  - destruct (Hloop upds) as (ds & rmv & El & Hds & Hk); [done|].
    unfold getUpdateAllDownstreamArgs in E. fold rec in E. rewrite El in E. simpl in E.
    destruct (_ && _); simplify_eq. by apply (from_updates _ _ _ _ rec oc upds).
  - destruct (Hloop upds) as (ds & rmv & El & Hds & Hk); [done|].
    unfold getUpdateAllDownstreamArgsArray in E. fold rec in E. rewrite El in E. simpl in E.
    destruct (_ && _); simplify_eq. by apply (from_updates _ _ _ _ rec oc upds).
  - unfold getRemoveAllDownstreamArgs in E. destruct (filter _ _); simplify_eq. constructor.
  - unfold getRemoveAllDownstreamArgs in E. destruct (filter _ _); simplify_eq. constructor.
Qed.

Lemma from_map_known f r P m d rep v :
  holds f r P m -> from_map f r m d -> rmvOf d !! rep = Some v -> exists k, (rep, v) ∈ removesOn k P.
Proof.
  intros Hh [rems|d' rec oc upds _ Hk _ _ _ _] Hv; [by simpl in Hv; rewrite lookup_empty in Hv|].
  destruct (Hk rep v Hv) as (k & e & Hs & He). exists k.
  pose proof (holds_removes _ _ _ _ Hh k) as Hkn. rewrite Hs in Hkn. by apply Hkn.
Qed.

Lemma from_map_remove f r m d k rid ts :
  from_map f r m d -> removeOf k d = Some (rid, ts) ->
  rid = r /\ ts = int64 (GetPos (rmvClock m) r + 1).
Proof.
  intros [rems|d' rec oc upds Hn _ _ _ _ _] Hd; [|by rewrite Hn in Hd].
  simpl in Hd. destruct (decide _); by simplify_eq.
Qed.

Lemma from_map_key f r P m d k x :
  (forall k, schema_ok (f k)) -> crdt_at r (Emb m) -> Forall (down_ok (SMap f)) P ->
  holds f r P m -> from_map f r m d -> (k, x) ∈ updsOf d -> prepared (f k) r (sub k P) x.
Proof.
  intros Hs Hat HP Hh [rems|d' rec oc upds _ _ Hoc Hu Hrec Hds] Hx; [by apply not_elem_of_nil in Hx|].
  rewrite Forall_forall in Hds. rewrite Forall_forall in Hu.
  destruct (Hds (k, x) Hx) as (Hmust & i & u & t & c & new & Hin & Et & Ec & Ed). simpl in *.
  destruct (get_or_create f r m k oc u) as (t' & c' & new' & Et' & Ec' & Hc & Hcat & Hch & E0); try done.
  { apply Hh. }
  { by apply (Hu (k, u)). }
  rewrite Et in Et'. injection Et' as <-. rewrite Ec in Ec'. injection Ec' as <- <-.
  destruct (Hrec _ _ _ _ Ed) as (env & Eu).
  exists env, u, c, (child oc k). split_and!; try done; [|by apply (Hu (k, u))].
  rewrite (holds_entries _ _ _ _ Hh), evolve_replay in E0.
  destruct (evolve_sub_total f r P k) as [_ Htot]; [done..|]. rewrite evolve_replay in Htot.
  destruct (sub k P) as [|y l]; [by unfold replay; rewrite E0|].
  destruct Htot as [c'' Er]; [done|]. by rewrite Er in E0 |- *.
Qed.
End prepare.

(** ** Runs *)

Section runs.
Context `{HL : Leaves, HLaws : !LeafLaws, HI : !LeafIssue}.
Abbreviation Event := (TxnId * list DownArgs)%type.
Abbreviation hb := happened_before.

(** A history that is closed: its events are ordered as those of a run. *)
Record closed (H : list Event) : Prop := {
  c_linear : linear hb H;
  c_trans e1 e2 e3 : e1 ∈ H -> e2 ∈ H -> e3 ∈ H -> hb e1.1 e2.1 -> hb e2.1 e3.1 -> hb e1.1 e3.1;
  c_origin e1 e2 : e1 ∈ H -> e2 ∈ H -> origin e1.1 = origin e2.1 -> e1.1 <> e2.1 ->
    hb e1.1 e2.1 \/ hb e2.1 e1.1
}.

(** The operations of each event were prepared from what happened before it. *)
Definition well_issued (s : Schema) (H : list Event) : Prop :=
  forall e, e ∈ H -> e.2 <> [] -> exists P, linear hb P /\
    (forall e', e' ∈ P <-> e' ∈ H /\ hb e'.1 e.1) /\
    Forall (fun d => prepared s (origin e.1) (ops_of P) d /\ clocks_ok d) e.2.

Lemma closed_id H e1 e2 : closed H -> e1 ∈ H -> e2 ∈ H -> e1.1 = e2.1 -> e1 = e2.
Proof.
  intros Hc H1 H2 E. pose proof (linear_NoDup _ _ (c_linear _ Hc)) as Hnd.
  apply list_elem_of_lookup in H1 as [i Hi], H2 as [j Hj].
  assert (i = j) as ->.
  { apply (NoDup_lookup _ i j e1.1 Hnd).
    - by rewrite list_lookup_fmap, Hi.
    - by rewrite list_lookup_fmap, Hj, E. }
  congruence.
Qed.

Lemma closed_sub H P :
  closed H -> linear hb P -> (forall e, e ∈ P -> e ∈ H) -> closed P.
Proof.
  intros [Hl Ht Ho] HP Hin. constructor; [done| |].
  - intros e1 e2 e3 ???. apply Ht; by apply Hin.
  - intros e1 e2 ??. apply Ho; by apply Hin.
Qed.

Lemma well_issued_before s H P e :
  closed H -> well_issued s H -> e ∈ H -> (forall e', e' ∈ P <-> e' ∈ H /\ hb e'.1 e.1) ->
  well_issued s P.
Proof.
  intros Hc Hw He HP e' He' Hne. apply HP in He' as [He' Hhb].
  destruct (Hw e' He' Hne) as (P' & Hl' & HP' & Hops). exists P'. split_and!; [done| |done].
  intros e''. rewrite HP', HP. split; [|by intros [[? ?] ?]].
  intros [? ?]. split_and!; [done| |done]. by apply (c_trans _ Hc e'' e' e).
Qed.

Lemma before_shorter H P e :
  closed H -> linear hb P -> e ∈ H -> (forall e', e' ∈ P <-> e' ∈ H /\ hb e'.1 e.1) ->
  (length P < length H)%nat.
Proof.
  intros Hc Hl He HP. apply (Nat.lt_le_trans _ (length (e :: P))); [simpl; lia|].
  rewrite <- (length_fmap fst (e :: P)), <- (length_fmap fst H).
  apply submseteq_length.
  apply NoDup_submseteq.
  - simpl. apply NoDup_cons. split; [|by apply linear_NoDup in Hl].
    intros (e' & E & He')%list_elem_of_fmap. apply HP in He' as [_ Hhb].
    rewrite <- E in Hhb. by apply (linear_irrefl hb e H (c_linear _ Hc) He).
  - intros i. simpl. rewrite elem_of_cons, !list_elem_of_fmap.
    intros [->|(e' & -> & He')]; [by exists e|]. exists e'. split; [done|]. by apply HP.
Qed.

Lemma alive_ext R1 R2 d : (forall r, r ∈ R1 <-> r ∈ R2) -> alive R1 d = alive R2 d.
Proof.
  intros Hr. apply eq_bool_prop_intro. rewrite !Is_true_true, !alive_spec. by setoid_rewrite Hr.
Qed.

(** What the issuer of an event of a map had: the state it prepared it from. *)
Lemma issuer_state f H e :
  (forall k, schema_ok (f k)) -> closed H -> well_issued (SMap f) H -> e ∈ H -> e.2 <> [] ->
  (forall P, (length P < length H)%nat -> closed P -> well_issued (SMap f) P -> sound hb (SMap f) P) ->
  exists P m, (forall e', e' ∈ P <-> e' ∈ H /\ hb e'.1 e.1) /\ linear hb P /\
    crdt_at (origin e.1) (Emb m) /\ Forall (down_ok (SMap f)) (ops_of P) /\
    holds f (origin e.1) (ops_of P) m /\ Forall clocks_ok (ops_of P) /\
    Forall (fun d => from_map f (origin e.1) m d /\ down_ok (SMap f) d /\ clocks_ok d) e.2.
Proof.
  intros Hs Hc Hw He Hne IH. destruct (Hw e He Hne) as (P & Hl & HP & Hops).
  assert (closed P) as HcP by (apply (closed_sub H); [done|done|by intros e' [? _]%HP]).
  assert (sound hb (SMap f) P) as HsP.
  { apply IH; [by apply (before_shorter H P e)|done|by apply (well_issued_before _ H P e)]. }
  destruct (history_spec f (origin e.1) (ops_of P)) as (m & Em & Hh);
    [done|apply HsP|by eapply sound_ordered|].
  pose proof (sound_typed _ _ _ HsP) as Hty.
  destruct (replay_at (SMap f) (origin e.1) (ops_of P)) as (c & Ec & _ & Hat); [by constructor|done|].
  assert (replay (SMap f) (origin e.1) (ops_of P) = Some (Emb m)) as Er by done.
  rewrite Er in Ec. injection Ec as <-.
  exists P, m. split_and!; try done.
  - apply Forall_forall. intros d (e' & He' & Hd)%elem_of_ops_of.
    apply HP in He' as [He' _]. destruct (Hw e' He') as (P' & _ & _ & Hops');
      [by intros E; rewrite E in Hd; apply not_elem_of_nil in Hd|].
    rewrite Forall_forall in Hops'. by apply Hops'.
  - eapply Forall_impl; [exact Hops|]. intros d [Hd Hr]. split_and!; [|  |done].
    + by eapply prepared_from_map.
    + eapply issued_typed, prepared_issued; [by constructor|done|done].
Qed.

(** The clock of a remove, when it has not overflowed. *)
Lemma next_clock p : 0 <= p <= MaxInt64 -> 0 < int64 (p + 1) -> int64 (p + 1) = p + 1.
Proof.
  intros Hp Hpos. destruct (decide (p = MaxInt64)) as [->|Hne]; [by vm_compute in Hpos|].
  apply wrapS_id; [lia|]. unfold inS, MaxInt64 in *. change (64 - 1) with 63. lia.
Qed.

Section map_step.
Context (f : Key -> Schema) (H : list Event).
Context (Hs : forall k, schema_ok (f k)) (Hc : closed H) (Hw : well_issued (SMap f) H).
Context (IH : forall P, (length P < length H)%nat -> closed P -> well_issued (SMap f) P ->
  sound hb (SMap f) P).

Lemma issuer_of e d : e ∈ H -> d ∈ e.2 ->
  exists P m, (forall e', e' ∈ P <-> e' ∈ H /\ hb e'.1 e.1) /\ linear hb P /\
    crdt_at (origin e.1) (Emb m) /\ Forall (down_ok (SMap f)) (ops_of P) /\
    holds f (origin e.1) (ops_of P) m /\ Forall clocks_ok (ops_of P) /\
    Forall (fun d => from_map f (origin e.1) m d /\ down_ok (SMap f) d /\ clocks_ok d) e.2.
Proof using All.
  intros He Hd. apply (issuer_state f H); try done.
  intros E. rewrite E in Hd. by apply not_elem_of_nil in Hd.
Qed.

(** The clocks of the removes that one replica issues increase. *)
Lemma later_remove e e' d d' k k' rid ts ts' :
  e ∈ H -> e' ∈ H -> d ∈ e.2 -> d' ∈ e'.2 -> hb e'.1 e.1 ->
  removeOf k d = Some (rid, ts) -> removeOf k' d' = Some (rid, ts') -> ts' < ts.
Proof using All.
  intros He He' Hd Hd' Hhb Hr Hr'.
  destruct (issuer_of e d He Hd) as (P & m & HP & Hl & Hat & Hty & Hh & Hrems & Hops).
  rewrite Forall_forall in Hops. destruct (Hops d Hd) as (Hfrom & _ & Hok).
  destruct (from_map_remove _ _ _ _ _ _ _ Hfrom Hr) as [-> Ets].
  assert (ts' <= GetPos (rmvClock m) (origin e.1)) as Hle.
  { apply (holds_clock _ _ _ _ Hh k'). apply elem_of_removesOn. exists d'. split; [|done].
    apply elem_of_ops_of. exists e'. split; [by apply HP|done]. }
  pose proof (holds_range _ _ _ _ Hh (origin e.1) Hrems) as Hrange.
  destruct d; simpl in Hr; try done. destruct (decide _); [|done]. injection Hr as _ Hts.
  assert (0 < ts <= MaxInt64) as Hts' by by inversion Hok; subst.
  subst ts. rewrite Ets in Hts' |- *. rewrite next_clock; [lia|done|apply Hts'].
Qed.

Lemma remove_origin e d k rid ts :
  e ∈ H -> d ∈ e.2 -> removeOf k d = Some (rid, ts) -> rid = origin e.1.
Proof using All.
  intros He Hd Hr. destruct (issuer_of e d He Hd) as (P & m & _ & _ & _ & _ & _ & _ & Hops).
  rewrite Forall_forall in Hops. destruct (Hops d Hd) as (Hfrom & _).
  by destruct (from_map_remove _ _ _ _ _ _ _ Hfrom Hr).
Qed.

Lemma issued_saw : saw hb H.
Proof using All.
  intros k e1 e2 d u [rid ts] He1 He2 Hd Hu Hr Hk Hcov.
  destruct (issuer_of e2 u He2 Hu) as (P & m & HP & Hl & Hat & Hty & Hh & Hrems & Hops).
  rewrite Forall_forall in Hops. destruct (Hops u Hu) as (Hfrom & _).
  unfold coversR in Hcov. simpl in Hcov. destruct (rmvOf u !! rid) as [v|] eqn:Ev; [|done].
  apply Z.leb_le in Hcov.
  destruct (from_map_known _ _ _ _ _ _ _ Hh Hfrom Ev) as (k0 & (d0 & Hd0 & Hr0)%elem_of_removesOn).
  apply elem_of_ops_of in Hd0 as (e0 & [He0 Hhb]%HP & Hd0).
  destruct (decide (txnKey e0.1 = txnKey e1.1)) as [Ekey|Ekey].
  - destruct (decide (e0.1 = e1.1)) as [<-|Hne]; [done|].
    exfalso. destruct (c_origin _ Hc e0 e1) as [Hb|Hb]; try done.
    + by injection Ekey.
    + apply (linear_irrefl hb e1 H (c_linear _ Hc) He1). unfold happened_before in *. by rewrite <- Ekey.
    + apply (linear_irrefl hb e0 H (c_linear _ Hc) He0). unfold happened_before in *. by rewrite Ekey.
  - assert (origin e0.1 = origin e1.1) as Ho.
    { by rewrite <- (remove_origin e0 d0 k0 rid v), <- (remove_origin e1 d k rid ts). }
    destruct (c_origin _ Hc e0 e1) as [Hb|Hb]; try done; [congruence| |].
    + pose proof (later_remove e1 e0 d d0 k k0 rid ts v He1 He0 Hd Hd0 Hb Hr Hr0). lia.
    + by apply (c_trans _ Hc e1 e0 e2).
Qed.

Lemma issued_clocked : clocked hb H.
Proof using All.
  intros k e1 e2 d1 d2 rid ts1 ts2 He1 He2 Hd1 Hd2 Hr1 Hr2. split_and!.
  - intros Hb. pose proof (later_remove e2 e1 d2 d1 k k rid ts2 ts1 He2 He1 Hd2 Hd1 Hb Hr2 Hr1). lia.
  - apply (c_origin _ Hc); [done|done|].
    by rewrite <- (remove_origin e1 d1 k rid ts1), <- (remove_origin e2 d2 k rid ts2).
  - intros E. pose proof (closed_id _ _ _ Hc He1 He2 E) as <-.
    destruct (issuer_of e1 d1 He1 Hd1) as (P & m & _ & _ & _ & _ & _ & _ & Hops).
    rewrite Forall_forall in Hops.
    destruct (from_map_remove _ _ _ _ _ _ _ (proj1 (Hops d1 Hd1)) Hr1) as [_ ->].
    by destruct (from_map_remove _ _ _ _ _ _ _ (proj1 (Hops d2 Hd2)) Hr2) as [_ ->].
Qed.

(** An event of which something is left for a key has seen all removes of it. *)
Lemma well_issued_key k : well_issued (f k) (subE k H).
Proof using All.
  intros ek Hek Hne. unfold subE in Hek. apply list_elem_of_fmap in Hek as (e & -> & He). simpl in *.
  assert (exists x d, d ∈ e.2 /\ alive (removesOn k (ops_of H)) d = true /\ (k, x) ∈ updsOf d)
    as (x0 & d0 & Hd0 & Hal & Hx0).
  { destruct (e.2 ≫= aliveAt k (removesOn k (ops_of H))) as [|x l] eqn:E; [done|].
    assert (x ∈ e.2 ≫= aliveAt k (removesOn k (ops_of H))) as Hx by (rewrite E; by left).
    apply list_elem_of_bind in Hx as (d & Hx & Hd). exists x, d. unfold aliveAt in Hx.
    destruct (alive _ d); [|by apply not_elem_of_nil in Hx]. by rewrite <- at_key_elem. }
  destruct (issuer_of e d0 He Hd0) as (P & m & HP & Hl & Hat & Hty & Hh & Hrems & Hops).
  assert (forall r, r ∈ removesOn k (ops_of P) <-> r ∈ removesOn k (ops_of H)) as HR.
  { intros [rid ts]. rewrite !elem_of_removesOn. setoid_rewrite elem_of_ops_of. split.
    - intros (d & (e' & [He' _]%HP & Hd) & Hr). exists d. split; [by exists e'|done].
    - intros (d & (e' & He' & Hd) & Hr). exists d. split; [|done]. exists e'. split; [|done].
      apply HP. split; [done|]. apply (issued_saw k e' e d d0 (rid, ts)); try done.
      + intros E. apply at_key_elem in Hx0. rewrite E in Hx0. by apply not_elem_of_nil in Hx0.
      + rewrite alive_spec in Hal. apply Hal. apply elem_of_removesOn. exists d. split; [|done].
        apply elem_of_ops_of. by exists e'. }
  assert (forall ds : list DownArgs, ds ≫= aliveAt k (removesOn k (ops_of P)) =
    ds ≫= aliveAt k (removesOn k (ops_of H))) as Hds.
  { intros ds. induction ds as [|d ds IHds]; [done|]. simpl. f_equal; [|exact IHds].
    unfold aliveAt. by rewrite (alive_ext _ _ d HR). }
  exists (subE k P). split_and!; [by apply linear_subE| |].
  - intros e'. unfold subE. rewrite !list_elem_of_fmap. split.
    + intros (e1 & -> & [He1 Hb]%HP). split; [|done]. exists e1. by rewrite Hds.
    + intros [(e1 & -> & He1) Hb]. exists e1. rewrite Hds. split; [done|]. by apply HP.
  - rewrite ops_of_subE. apply Forall_forall. intros x (d & Hx & Hd)%list_elem_of_bind.
    unfold aliveAt in Hx. destruct (alive _ d); [|by apply not_elem_of_nil in Hx].
    apply at_key_elem in Hx. rewrite Forall_forall in Hops. destruct (Hops d Hd) as (Hfrom & _ & Hok).
    split; [by eapply from_map_key|].
    inversion Hok as [|? ? ? Hu|? ? ? Hu|]; subst; simpl in Hx; try by apply not_elem_of_nil in Hx.
    + rewrite Forall_forall in Hu. by apply (Hu (k, x)).
    + rewrite Forall_forall in Hu. by apply (Hu (k, x)).
Qed.
End map_step.

Lemma closed_subE k H : closed H -> closed (subE k H).
Proof.
  intros [Hl Ht Ho]. unfold subE. constructor; [by apply linear_subE| |].
  - intros e1 e2 e3 (a & -> & Ha)%list_elem_of_fmap (b & -> & Hb)%list_elem_of_fmap
      (c & -> & Hc')%list_elem_of_fmap. simpl. by apply Ht.
  - intros e1 e2 (a & -> & Ha)%list_elem_of_fmap (b & -> & Hb)%list_elem_of_fmap. simpl. by apply Ho.
Qed.

Lemma issued_in s H e d :
  schema_ok s -> closed H -> well_issued s H ->
  (forall P, (length P < length H)%nat -> closed P -> well_issued s P -> sound hb s P) ->
  e ∈ H -> d ∈ e.2 -> issued s (origin e.1) d.
Proof.
  intros Hs Hc Hw IH He Hd.
  destruct (Hw e He) as (P & Hl & HP & Hops); [by intros E; rewrite E in Hd; apply not_elem_of_nil in Hd|].
  rewrite Forall_forall in Hops. destruct (Hops d Hd) as [Hp _].
  eapply prepared_issued; [done| |exact Hp]. apply (sound_typed hb), IH.
  - by apply (before_shorter H P e).
  - apply (closed_sub H); [done|done|by intros e' [? _]%HP].
  - by apply (well_issued_before _ H P e).
Qed.

Lemma sound_issued s H : schema_ok s -> closed H -> well_issued s H -> sound hb s H.
Proof.
  intros Hs. revert H. induction Hs as [t Ht|f Hf IHs]; intros H;
    remember (length H) as n eqn:En; revert H En; induction (lt_wf n) as [n _ IH];
    intros H -> Hc Hw; (assert (forall P, (length P < length H)%nat -> closed P ->
      well_issued _ P -> sound hb _ P) as IH' by (intros P HP; by apply (IH _ HP)); clear IH).
  - assert (forall e d, e ∈ H -> d ∈ e.2 -> issued (SLeaf t) (origin e.1) d) as Hin
      by by intros; eapply issued_in; [by constructor|..].
    split.
    + apply Forall_forall. intros d (e & He & Hd)%elem_of_ops_of. split; [by apply (Hin e d)|].
      destruct (Hw e He) as (P & _ & _ & Hops); [by intros E; rewrite E in Hd; apply not_elem_of_nil in Hd|].
      rewrite Forall_forall in Hops. by apply Hops.
    + intros e1 e2 a b He1 He2 H12 H21 Hne Ha Hb.
      destruct (Hin e1 a He1 Ha) as [(a' & -> & Ta)%down_leaf_inv La].
      destruct (Hin e2 b He2 Hb) as [(b' & -> & Tb)%down_leaf_inv Lb]. simpl.
      apply (leaf_from_compat (origin e1.1) (origin e2.1)); [|by apply La|by apply Lb|congruence|congruence].
      intros Ho. by destruct (c_origin _ Hc e1 e2 He1 He2 Ho Hne).
  - simpl. split_and!.
    + apply Forall_forall. intros d (e & He & Hd)%elem_of_ops_of.
      eapply (issued_typed _ (origin e.1)), issued_in; try done. by constructor.
    + by apply (issued_saw f).
    + by apply (issued_clocked f).
    + intros k. apply IHs; [by apply closed_subE|]. by apply well_issued_key.
Qed.

(** *** Replicas *)

(** What replica [r] may issue after [before]: what [Update] makes of one update of
    its type and the state of the replica.  The next update of a transaction is
    prepared after this one has been applied. *)
Definition issues (s : Schema) (r : Z) (before ops : list DownArgs) : Prop :=
  exists d, ops = [d] /\ prepared s r before d /\ clocks_ok d.

Lemma issues_Forall s r before ops :
  issues s r before ops -> Forall (fun d => prepared s r before d /\ clocks_ok d) ops.
Proof. intros (d & -> & Hd). by apply Forall_singleton. Qed.

Lemma closed_reachable s logs r : reachable (issues s) logs -> closed (logs r).
Proof.
  intros Hw%reachable_wf. constructor.
  - apply (w_linear _ _ Hw).
  - intros e1 e2 e3 ????. by eapply hb_trans_on.
  - intros e1 e2 ????. by eapply same_origin_ordered.
Qed.

Lemma well_issued_reachable s logs r : reachable (issues s) logs -> well_issued s (logs r).
Proof.
  intros Hw%reachable_wf e He _. destruct (issued_from (issues s) logs r e Hw He) as (P & Hl & HP & Hi).
  exists P. split; [done|]. split; [done|]. by apply issues_Forall.
Qed.

End runs.

(** ** A run of two replicas *)

#[local] Existing Instance no_rest.
#[local] Existing Instance no_rest_types.

Definition run_schema : Schema :=
  SMap (fun k => if decide (k = "stock"%string) then SMap (fun _ => SLeaf COUNTER) else SLeaf LWWREG).

Definition run_env (t : Z) (p : list nat) : LeafEnv := mkEnv t 7 tt.

(** What replica [r] prepares from [u] after [before]. *)
Definition prepare (t r : Z) (before : list DownArgs) (u : UpdArgs) : list DownArgs :=
  match c ← replay run_schema r before; Update (run_env t) u c with Some d => [d] | None => [] end.

Definition add_pears (n : Z) : UpdArgs :=
  EmbMapUpdateAll [("stock"%string, EmbMapUpdate "pear"%string (LUpd (UCounter (Counter.Increment n))));
    ("note"%string, LUpd (UReg (LwwRegister.SetValue "pears"%string)))].

(** Both replicas have some pears; then replica 1 adds more, while replica 2, in
    one transaction, removes the stock and writes another note. *)
Definition ops1 : list DownArgs := prepare 5 1 [] (add_pears 3).
Definition ops2 : list DownArgs := prepare 8 1 ops1 (add_pears 4).
Definition ops3 : list DownArgs := prepare 9 2 ops1 (MapRemove "stock"%string).
Definition ops4 : list DownArgs :=
  prepare 9 2 (ops1 ++ ops3) (EmbMapUpdate "note"%string (LUpd (UReg (LwwRegister.SetValue "none"%string)))).

Definition ev1 : TxnId * list DownArgs := (mkTxnId 1 0 [], ops1).
Definition ev2 : TxnId * list DownArgs := (mkTxnId 1 1 [(1, O)], ops2).
Definition ev3 : TxnId * list DownArgs := (mkTxnId 2 1 [(1, O)], ops3).
Definition ev4 : TxnId * list DownArgs := (mkTxnId 2 2 [(1, O); (2, 1%nat)], ops4).

Definition logs0 : Logs := append (append (fun _ => []) 1 ev1) 2 ev1.
Definition logs1 : Logs := append (append (append logs0 1 ev2) 2 ev3) 2 ev4.
Definition run_logs : Logs := append (append (append logs1 1 ev3) 1 ev4) 2 ev2.

Example run_differs : run_logs 1 = [ev1; ev2; ev3; ev4] /\ run_logs 2 = [ev1; ev3; ev4; ev2].
Proof. done. Qed.

Lemma run_perm : run_logs 1 ≡ₚ run_logs 2.
Proof. destruct run_differs as [-> ->]. constructor. solve_Permutation. Qed.

Lemma run_schema_ok : schema_ok run_schema.
Proof.
  constructor. intros k. destruct (decide _).
  - constructor. intros _. constructor. by left.
  - constructor. by right; right.
Qed.

Fixpoint clocks_okb (d : DownArgs) : bool :=
  match d with
  | LDown (DReg d) => (0 <? LwwRegister.Ts d) && (LwwRegister.Ts d <=? MaxInt64)
  | LDown _ => true
  | DownstreamRWEmbMapUpdateAll upds _ _ | DownstreamRWEmbMapUpdateAllArray upds _ _ =>
      forallb (fun e => clocks_okb e.2) upds
  | DownstreamRWEmbMapRemoveAll _ ts _ => (0 <? ts) && (ts <=? MaxInt64)
  | NoOpDown => false
  end.

Lemma clocks_okb_ok d : clocks_okb d = true -> clocks_ok d.
Proof.
  assert (forall upds : list (Key * DownArgs),
    Forall (fun e => clocks_okb e.2 = true -> clocks_ok e.2) upds ->
    forallb (fun e => clocks_okb e.2) upds = true -> Forall (fun e => clocks_ok e.2) upds) as Hall.
  { induction 1 as [|e upds He _ IH]; [by constructor|]. simpl.
    intros [??]%andb_prop. constructor; auto. }
  induction d as [d|upds rmv rid IH|rems ts rid|upds rmv rid IH|] using down_rect; simpl.
  - intros Hd. constructor. destruct d; simpl; try done. by apply andb_prop in Hd as [?%Z.ltb_lt ?%Z.leb_le].
  - intros Hd. constructor. by apply Hall.
  - intros [?%Z.ltb_lt ?%Z.leb_le]%andb_prop. by constructor.
  - intros Hd. constructor. by apply Hall.
  - done.
Qed.

Lemma issues_prepare t r before u :
  (forall c, upd_ok run_schema (Some c) u) ->
  match prepare t r before u with [d] => MustReplicate d && clocks_okb d | _ => false end = true ->
  issues run_schema r before (prepare t r before u).
Proof.
  unfold prepare. destruct (replay run_schema r before) as [c|] eqn:Ec; [|done].
  simpl. destruct (Update (run_env t) u c) as [d|] eqn:Ed; [|done].
  intros Hu [Hm Hd%clocks_okb_ok]%andb_prop. exists d. split; [done|]. split; [|done].
  exists (run_env t), u, c, (Some c). split_and!; try done. by left.
Qed.

Lemma add_pears_ok c n : upd_ok run_schema (Some c) (add_pears n).
Proof. repeat constructor. Qed.

Lemma run_issued :
  issues run_schema 1 [] ops1 /\ issues run_schema 1 ops1 ops2 /\ issues run_schema 2 ops1 ops3 /\
  issues run_schema 2 (ops1 ++ ops3) ops4.
Proof.
  split_and!; [apply (issues_prepare 5 1 [] (add_pears 3))|apply (issues_prepare 8 1 ops1 (add_pears 4))|
    apply (issues_prepare 9 2 ops1)|apply (issues_prepare 9 2 (ops1 ++ ops3))].
  2,4,6,8: vm_compute; reflexivity.
  1,2: intros c; apply add_pears_ok.
  all: intros c; by repeat constructor.
Qed.

Lemma run_reachable : reachable (issues run_schema) run_logs.
Proof.
  destruct run_issued as (H1 & H2 & H3 & H4).
  pose proof (reach_issue _ _ 1 ops1 (reach_init (issues run_schema)) H1) as R1.
  assert (R2 : reachable (issues run_schema) logs0).
  { apply (reach_deliver _ _ 2 1 ev1 R1); [by left|by intros ?%not_elem_of_nil|].
    by intros k ?%not_elem_of_nil. }
  pose proof (reach_issue _ _ 1 ops2 R2 H2) as R3.
  pose proof (reach_issue _ _ 2 ops3 R3 H3) as R4.
  assert (R5 : reachable (issues run_schema) logs1) by exact (reach_issue _ _ 2 ops4 R4 H4).
  assert (Hids : forall e e' : TxnId * list DownArgs, (origin e.1, seqNo e.1) <> (origin e'.1, seqNo e'.1) -> e <> e')
    by (intros e e' Hn ->; done).
  assert (R6 : reachable (issues run_schema) (append logs1 1 ev3)).
  { apply (reach_deliver _ _ 1 2 ev3 R5).
    - change (ev3 ∈ [ev1; ev3; ev4]). by right; left.
    - change (ev3 ∉ [ev1; ev2]). rewrite !elem_of_cons, elem_of_nil. intros [E|[E|F]]; [by apply (Hids _ _) in E..|done].
    - intros k ->%list_elem_of_singleton. apply elem_of_txnKeys. exists ev1. split; [by left|done]. }
  assert (R7 : reachable (issues run_schema) (append (append logs1 1 ev3) 1 ev4)).
  { apply (reach_deliver _ _ 1 2 ev4 R6).
    - change (ev4 ∈ [ev1; ev3; ev4]). by right; right; left.
    - change (ev4 ∉ [ev1; ev2; ev3]). rewrite !elem_of_cons, elem_of_nil.
      intros [E|[E|[E|F]]]; [by apply (Hids _ _) in E..|done].
    - intros k Hk. apply elem_of_txnKeys. apply elem_of_cons in Hk as [->| ->%list_elem_of_singleton].
      + exists ev1. split; [by left|done].
      + exists ev3. split; [change (ev3 ∈ [ev1; ev2; ev3]); by right; right; left|done]. }
  apply (reach_deliver _ _ 2 1 ev2 R7).
  - change (ev2 ∈ [ev1; ev2; ev3; ev4]). by right; left.
  - change (ev2 ∉ [ev1; ev3; ev4]). rewrite !elem_of_cons, elem_of_nil.
    intros [E|[E|[E|F]]]; [by apply (Hids _ _) in E..|done].
  - intros k ->%list_elem_of_singleton. apply elem_of_txnKeys. exists ev1. split; [by left|done].
Qed.


Lemma downstream_preserves_types_witness :
  exists c' nd, Downstream (DownstreamRWEmbMapUpdateAll
      [("stock"%string, DownstreamRWEmbMapUpdateAll
         [("pear"%string, LDown (DCounter (Counter.Increment 3)))] ∅ 1)] ∅ 1) (Emb (Initialize 2)) =
    Some (c', nd) /\ crdt_ok run_schema c'.
Proof.
  apply (downstream_preserves_types run_schema); [exact run_schema_ok| |].
  - constructor. apply Forall_singleton. constructor. apply Forall_singleton. by constructor.
  - by constructor.
Defined.
