(* ===== verification/EmbMapVersions.v ===== *)
(** * Maps with embedded objects: old versions (rwEmbMapCRDT.go, src/crdt/crdt)

    A copy of the map is taken back to an old version by undoing the effects of
    the latest updates (Inversible) and then rebuilding the embedded objects that
    were updated.  What is recorded are pointers to effects, which [undoEffect]
    does not recognise: a copy stays as it is ([map_undo_does_nothing]).  The undo of
    a value is modelled as well. *)

From S2P Require Import Prelude ClockSI Inversible Counters EmbObjects EmbLeaves EmbMap.
From Stdlib Require Import ZArith Lia Bool.
From stdpp Require Import base tactics numbers strings gmap list.
#[local] Open Scope Z_scope.

Section versions.
Context `{HL : Leaves}.
Abbreviation Map := (RWEmbMapCrdt CRDT).

Definition set_rebuild (m : Map) (k : option (gset Key)) : Map :=
  mkEmb (entries m) (removes m) (rmvClock m) (replicaID m) k.

(** One mark that is taken away; the pair must be there. *)
Definition unmark (replicaID : Z) (m : option Map) (key : Key) : option Map :=
  m ← m; rmvs ← removes m !! key; mt ← rmvs !! replicaID;
  Some (set_removes m (<[key := <[replicaID := mkMarked (mts mt) false]> rmvs]> (removes m))).

(** A nil map of keys cannot be added to. *)
Definition addRebuild (m : option Map) (key : Key) : option Map :=
  m ← m; ks ← keysToRebuild m; Some (set_rebuild m (Some ({[ key ]} ∪ ks))).

Definition restoreClk (m : Map) (e : Key * gmap Z markedTimestamp) : Map :=
  set_entries (set_removes m (<[e.1 := e.2]> (removes m))) (delete e.1 (entries m)).

Definition undoUpdateAllEffect (m : Map) (updated : list Key)
    (previousRmvClk : option (gmap Key (gmap Z markedTimestamp))) (addedMark : gset Key) (replicaID : Z)
  : option Map :=
  let m := match previousRmvClk with
           | Some prev => foldl restoreClk m (map_to_list prev)
           | None => m
           end in
  let m := foldl (unmark replicaID) (Some m) (elements addedMark) in
  foldl addRebuild m updated.

Definition undoRemoveAllEffect (m : Map) (removedCRDTs : gmap Key CRDT) (replicaID previousClk : Z) : Map :=
  let m := foldl (fun m '(key, c) => set_removes (set_entries m (<[key := c]> (entries m)))
                                       (delete key (removes m)))
             m (map_to_list removedCRDTs) in
  set_clock m (UpdateForcedPos (rmvClock m) replicaID previousClk).

(** The type switch knows effects, not pointers to them. *)
Definition emb_undoEffect (m : Map) (effect : Eff) : option Map :=
  match effect with
  | RWEmbMapUpdateAllEffect updated rid marks prev => undoUpdateAllEffect m updated prev marks rid
  | RWEmbMapRemoveAllEffect removed rid clk => Some (undoRemoveAllEffect m removed rid clk)
  | NoEffect | EffPtr _ => Some m
  end.

(** [REDO]: embedded objects are left alone. *)
Definition emb_reapplyOp (m : Map) (args : DownArgs) : option (Map * Eff) :=
  '(m, eff, _) ← emb_applyDownstream Downstream m args true; Some (m, eff).

#[export] Instance emb_inversible : InversibleOps Map DownArgs Eff := {
  applyDownstream m args :=
    '(m, eff, _) ← emb_applyDownstream Downstream m args false; Some (m, Some eff);
  undoEffect m eff := eff ← eff; emb_undoEffect m eff
}.

Definition rebuild_start (m : Map) : Map := set_rebuild m (Some ∅).

(** [rebuild]: takes an embedded object back to the version. *)
Definition notifyRebuiltComplete (rebuild : CRDT -> option CRDT) (m : Map) : option Map :=
  m ← foldl (fun m key => m ← m; c ← entries m !! key; c ← rebuild c;
                          Some (set_entries m (<[key := c]> (entries m))))
        (Some m) (elements (default ∅ (keysToRebuild m)));
  Some (set_rebuild m None).

(** ** Undoing *)

(** Every effect that applying an update records is a pointer. *)
Lemma effect_is_pointer m args isRedo m' eff nd :
  emb_applyDownstream Downstream m args isRedo = Some (m', eff, nd) ->
  eff = NoEffect \/ exists e, eff = EffPtr e.
Proof.
  unfold emb_applyDownstream, applyUpdateAll, applyRemoveAll. destruct args; intros E; simplify_eq; eauto.
  - destruct (if (_ =? _)%nat then _ else _); simplify_eq/=; by eauto.
  - destruct (foldl _ _ _). simplify_eq. by eauto.
  - destruct (if (_ =? _)%nat then _ else _); simplify_eq/=; by eauto.
Qed.

(** Going back to an old version of a map with embedded objects undoes
    nothing: whatever update a copy applied, undoing its effect leaves the copy
    with all of the updated objects, removed keys and clocks, and no object is
    marked to be rebuilt. *)
Theorem map_undo_does_nothing (m m' : Map) (args : DownArgs) (eff : option Eff) :
  applyDownstream m args = Some (m', eff) -> undoEffect m' eff = Some m'.
Proof.
  cbn [applyDownstream undoEffect emb_inversible].
  destruct (emb_applyDownstream Downstream m args false) as [[[m1 e] nd]|] eqn:E; [|done].
  apply effect_is_pointer in E. intros [= -> <-]. simpl. by destruct E as [-> | [e' ->]].
Qed.

(** Without the pointer, the undo of a remove gives the objects back but forgets
    all removes of their keys, also those that other replicas issued before. *)
Lemma undo_remove_forgets m removed rid clk k c :
  removed !! k = Some c ->
  entries (undoRemoveAllEffect m removed rid clk) !! k = Some c /\
  removes (undoRemoveAllEffect m removed rid clk) !! k = None.
Proof.
  intros Hk. unfold undoRemoveAllEffect. simpl.
  set (step := fun (m : Map) '(key, c) => set_removes (set_entries m (<[key := c]> (entries m)))
                 (delete key (removes m))).
  assert (forall l m, NoDup l.*1 -> (k, c) ∈ l ->
    entries (foldl step m l) !! k = Some c /\ removes (foldl step m l) !! k = None) as Hf.
  { clear Hk. assert (forall l m, k ∉ l.*1 ->
      entries (foldl step m l) !! k = entries m !! k /\ removes (foldl step m l) !! k = removes m !! k) as Hn.
    { induction l as [|[k' c'] l IH]; intros m' Hl; [done|]. cbn [foldl]. simpl in Hl.
      apply not_elem_of_cons in Hl as [Hne Hl]. destruct (IH (step m' (k', c')) Hl) as [-> ->].
      unfold step. simpl. by rewrite lookup_insert_ne, lookup_delete_ne. }
    induction l as [|[k' c'] l IH]; intros m' Hnd Hin; [by apply not_elem_of_nil in Hin|].
    simpl in Hnd. apply NoDup_cons in Hnd as [Hn' Hnd]. apply elem_of_cons in Hin as [[= <- <-]|Hin].
    - cbn [foldl]. destruct (Hn l (step m' (k, c)) Hn') as [-> ->]. unfold step. simpl.
      by rewrite lookup_insert_eq, lookup_delete_eq.
    - cbn [foldl]. by apply IH. }
  apply Hf; [apply NoDup_fst_map_to_list|by apply elem_of_map_to_list].
Qed.
End versions.

(** A counter is removed: going back does not bring it back. *)
#[local] Existing Instance no_rest.

Definition one_counter : RWEmbMapCrdt CRDT :=
  mkEmb {["a"%string := Leaf (OCounter (Counter.mkCounter 3))]} ∅ ∅ 1 None.

Lemma map_undo_does_nothing_witness :
  exists m' eff, applyDownstream one_counter (DownstreamRWEmbMapRemoveAll ["a"%string] 1 2) = Some (m', eff) /\
    undoEffect m' eff = Some m' /\ is_Some (entries one_counter !! "a"%string) /\
    entries m' !! "a"%string = None.
Proof.
  eexists _, _. split; [reflexivity|]. split_and!; [|by eexists|done].
  by apply (map_undo_does_nothing one_counter _ (DownstreamRWEmbMapRemoveAll ["a"%string] 1 2)).
Defined.
