(* ===== verification/EmbMapMsgs.v ===== *)
(** * Maps with embedded objects: messages (rwEmbMapCRDT.go, crdtProtoLib.go in
      src/crdt/crdt)

    What replicas and clients send of maps with embedded objects: downstream
    updates, updates, conditions and snapshots.  Long arrays of updates are
    converted in parallel: [sched] is the order in which the goroutines write
    ([fillParallel_map]: it does not matter).  Messages of resets and of top-k
    initialisations are not modelled. *)

From S2P Require Import Prelude ClockSI ClockCodec Counters Registers MultiArray EmbObjects EmbLeaves EmbMap.
From Stdlib Require Import ZArith Lia Bool.
From stdpp Require Import base tactics numbers sets strings gmap list.
#[local] Open Scope Z_scope.

(** The messages of the other objects.  An option argument is the field of the
    object's type, which may be unset; an option result is a value that does not
    implement the conversion, or nil. *)
Class LeafMsgs `{HL : Leaves} := {
  LeafProtoOp : Type; LeafProtoUpd : Type; LeafProtoState : Type;
  leaf_ToReplicatorObj : LeafDown -> option LeafProtoOp;
  leaf_FromReplicatorObj : CRDTType -> option LeafProtoOp -> option LeafDown;
  leaf_ToUpdateObject : LeafUpd -> option LeafProtoUpd;
  leaf_FromUpdateObject : CRDTType -> option LeafProtoUpd -> option LeafUpd;
  leaf_ToProtoState : LeafCRDT -> LeafProtoState;
  leaf_FromProtoState : CRDTType -> option LeafProtoState -> Z -> option LeafCRDT
}.

(** The messages that arrive as they were sent. *)
Class LeafMsgsLaws `{HM : LeafMsgs} := {
  leaf_sendable : LeafDown -> Prop;
  leaf_updSendable : LeafUpd -> Prop;
  leaf_op_round_trip d : leaf_sendable d -> leaf_down_type d <> RRMAP /\
    exists p, leaf_ToReplicatorObj d = Some p /\ leaf_FromReplicatorObj (leaf_down_type d) (Some p) = Some d;
  leaf_upd_round_trip u : leaf_updSendable u -> leaf_upd_type u <> RRMAP /\ leaf_upd_type u <> ORMAP /\
    exists p, leaf_ToUpdateObject u = Some p /\ leaf_FromUpdateObject (leaf_upd_type u) (Some p) = Some u
}.

(** ** Converting in parallel *)

Section parallel.
Context {A : Type} (sched : list nat -> list nat).

(** The positions that each goroutine writes, and those left to the caller. *)
Definition partsOf (n : nat) : list (list nat) :=
  let nParts := Z.to_nat (Z.min (Z.of_nat n / 20000) 32) in
  let nFactor := (n / nParts)%nat in
  ((fun i => seq (i * nFactor)%nat nFactor) <$> seq 0 nParts) ++
  [seq (nFactor * nParts)%nat (n - nFactor * nParts)%nat].

Definition write (src : list A) (dst : list (option A)) (k : nat) : list (option A) :=
  match src !! k with Some x => <[k := Some x]> dst | None => dst end.

(** A hole that is left is nil. *)
Definition fillParallel (src : list A) : option (list A) :=
  mapM id (foldl (write src) (replicate (length src) None) (sched (concat (partsOf (length src))))).

Definition convert (src : list A) : option (list A) :=
  if 40000 <=? Z.of_nat (length src) then fillParallel src else Some src.

Lemma write_all src ks dst j :
  length dst = length src ->
  foldl (write src) dst ks !! j = if decide (j ∈ ks) then Some <$> src !! j else dst !! j.
Proof.
  revert dst. induction ks as [|k ks IH]; intros dst Hl.
  { done. }
  cbn [foldl]. rewrite IH; unfold write; [|destruct (src !! k); [by rewrite length_insert|done]].
  destruct (decide (j ∈ ks)) as [Hin|Hin].
  { rewrite decide_True; [done|]. by right. }
  destruct (decide (j = k)) as [->|Hne].
  - rewrite decide_True by by left. destruct (src !! k) as [x|] eqn:E.
    + rewrite list_lookup_insert_eq; [done|]. rewrite Hl. by apply lookup_lt_Some in E.
    + simpl. apply lookup_ge_None_2. rewrite Hl. by apply lookup_ge_None_1.
  - rewrite (decide_False (P := j ∈ k :: ks)) by (rewrite elem_of_cons; by intros [?|?]).
    destruct (src !! k); [by rewrite list_lookup_insert_ne|done].
Qed.

(** Every position is in one of the parts. *)
Lemma parts_cover n j :
  40000 <= Z.of_nat n -> (j < n)%nat -> j ∈ concat (partsOf n).
Proof.
  intros Hn Hj. unfold partsOf.
  set (np := Z.to_nat (Z.min (Z.of_nat n / 20000) 32)).
  assert (0 < np)%nat as Hnp.
  { assert (2 <= Z.of_nat n / 20000) by (apply Z.div_le_lower_bound; lia). unfold np. lia. }
  set (nf := (n / np)%nat). rewrite concat_app, elem_of_app. simpl. rewrite app_nil_r.
  destruct (decide (j < nf * np)%nat) as [Hlt|Hge].
  - left. apply list_elem_of_In, in_concat. exists (seq (j / nf * nf) nf)%nat.
    assert (nf <> 0)%nat by (intros E; rewrite E in Hlt; lia).
    split; apply list_elem_of_In.
    + apply list_elem_of_fmap. exists (j / nf)%nat. split; [done|].
      apply elem_of_seq. split; [lia|]. simpl. apply Nat.Div0.div_lt_upper_bound. lia.
    + apply elem_of_seq. pose proof (Nat.div_mod_eq j nf). pose proof (Nat.mod_upper_bound j nf). nia.
  - right. apply elem_of_seq. lia.
Qed.

(** Whatever the order of the writes, the result is the list. *)
Lemma fillParallel_map src :
  (forall l, sched l ≡ₚ l) -> 40000 <= Z.of_nat (length src) -> fillParallel src = Some src.
Proof.
  intros Hs Hn. unfold fillParallel.
  assert (foldl (write src) (replicate (length src) None) (sched (concat (partsOf (length src)))) = Some <$> src)
    as ->.
  { apply list_eq. intros j. rewrite write_all by by rewrite length_replicate.
    rewrite list_lookup_fmap. destruct (decide (j < length src)%nat) as [Hj|Hj].
    - rewrite decide_True; [done|]. rewrite Hs. by apply parts_cover.
    - rewrite (lookup_ge_None_2 src) by lia. case_decide; [done|]. apply lookup_ge_None_2.
      rewrite length_replicate. lia. }
  apply mapM_fmap_Some. done.
Qed.

Lemma convert_id src : (forall l, sched l ≡ₚ l) -> convert src = Some src.
Proof.
  intros Hs. unfold convert. destruct (_ <=? _) eqn:E; [|done].
  apply Z.leb_le in E. by apply fillParallel_map.
Qed.
End parallel.

(** ** Downstream updates *)

Section down.
Context `{HM : LeafMsgs} (sched : list nat -> list nat).

(** [proto.ProtoOpDownstream]: an operation of another object, or the adds or the
    removes of [proto.ProtoRWEmbMapDownstream]. *)
Inductive ProtoOpDownstream :=
  | PLeafOp (p : LeafProtoOp)
  | PAdds (Upds : list (Key * CRDTType * ProtoOpDownstream)) (Vc : list (Z * Z)) (ReplicaID : Z) (IsArray : bool)
  | PRems (Keys : list Key) (ReplicaID Ts : Z).

Definition toVc (rmv : gmap Z Z) : list (Z * Z) := (fun e => (int32 e.1, e.2)) <$> map_to_list rmv.
Definition ofVc (vc : list (Z * Z)) : gmap Z Z := foldl (fun m '(sender, ts) => <[int16 sender := ts]> m) ∅ vc.

(** [NoOp] is not a [ProtoDownUpd]. *)
Fixpoint ToReplicatorObj (downOp : DownArgs) : option ProtoOpDownstream :=
  match downOp with
  | LDown d => p ← leaf_ToReplicatorObj d; Some (PLeafOp p)
  | DownstreamRWEmbMapUpdateAll upds rmv rid =>
      upds ← mapM (fun e => p ← ToReplicatorObj e.2; Some (e.1, down_type e.2, p)) upds;
      Some (PAdds upds (toVc rmv) (int32 rid) false)
  | DownstreamRWEmbMapUpdateAllArray upds rmv rid =>
      upds ← mapM (fun e => p ← ToReplicatorObj e.2; Some (e.1, down_type e.2, p)) upds;
      upds ← convert sched upds;
      Some (PAdds upds (toVc rmv) (int32 rid) true)
  | DownstreamRWEmbMapRemoveAll rems ts rid => Some (PRems rems (int32 rid) ts)
  | NoOpDown => None
  end.

(** The Go map of a list of entries: the last one of a key stays. *)
Definition put {V} (l : list (Key * V)) (e : Key * V) : list (Key * V) :=
  if decide (e.1 ∈ l.*1) then (fun x => if decide (x.1 = e.1) then e else x) <$> l else l ++ [e].
Definition toMap {V} (l : list (Key * V)) : list (Key * V) := foldl put [] l.

(** A nil update of a key makes the whole nil here. *)
Fixpoint DownstreamProtoToAntidoteDownstream (protobuf : ProtoOpDownstream) (crdtType : CRDTType)
  : option DownArgs :=
  if decide (crdtType = RRMAP) then
    match protobuf with
    | PAdds upds vc rid isArray =>
        upds ← mapM (fun e => d ← DownstreamProtoToAntidoteDownstream e.2 e.1.2; Some (e.1.1, d)) upds;
        if isArray then
          upds ← convert sched upds;
          Some (DownstreamRWEmbMapUpdateAllArray upds (ofVc vc) (int16 rid))
        else Some (DownstreamRWEmbMapUpdateAll (toMap upds) (ofVc vc) (int16 rid))
    | PRems keys rid ts => Some (DownstreamRWEmbMapRemoveAll keys ts (int16 rid))
    | PLeafOp _ => Some (DownstreamRWEmbMapRemoveAll [] 0 0)
    end
  else
    d ← leaf_FromReplicatorObj crdtType (match protobuf with PLeafOp p => Some p | _ => None end);
    Some (LDown d).
End down.

Section round_trip.
Context `{HM : LeafMsgs, HLaws : !LeafMsgsLaws} (sched : list nat -> list nat).
Context (Hsched : forall l, sched l ≡ₚ l).

(** What a replica may send: replica IDs are of 16 bits, the keys of a Go map
    are distinct. *)
Definition ids_ok (rmv : gmap Z Z) (rid : Z) : Prop :=
  inS 16 rid /\ forall r ts, rmv !! r = Some ts -> inS 16 r.

Inductive sendable : DownArgs -> Prop :=
  | send_leaf d : leaf_sendable d -> sendable (LDown d)
  | send_all upds rmv rid :
      NoDup upds.*1 -> ids_ok rmv rid -> Forall (fun e => sendable e.2) upds ->
      sendable (DownstreamRWEmbMapUpdateAll upds rmv rid)
  | send_array upds rmv rid :
      ids_ok rmv rid -> Forall (fun e => sendable e.2) upds ->
      sendable (DownstreamRWEmbMapUpdateAllArray upds rmv rid)
  | send_remove rems ts rid : inS 16 rid -> sendable (DownstreamRWEmbMapRemoveAll rems ts rid).

Lemma id_round_trip r : inS 16 r -> int16 (int32 r) = r.
Proof. intros Hr. rewrite (wrapS_id 32), (wrapS_id 16); try done. unfold inS in *. lia. Qed.

Lemma ofVc_toVc rmv rid : ids_ok rmv rid -> ofVc (toVc rmv) = rmv.
Proof.
  intros [_ Hk]. unfold ofVc, toVc.
  assert (forall l m, (forall e, e ∈ l -> inS 16 e.1) ->
    foldl (fun m '(sender, ts) => <[int16 sender := ts]> m) m ((fun e => (int32 e.1, e.2)) <$> l) =
    foldl (fun (m : gmap Z Z) '(sender, ts) => <[sender := ts]> m) m l) as ->.
  { induction l as [|[r ts] l IH]; intros m Hl; [done|]. simpl.
    rewrite id_round_trip by (apply (Hl (r, ts)); by left).
    apply IH. intros; apply Hl; by right. }
  - rewrite (foldl_insert_NoDup (map_to_list rmv)); [|apply NoDup_fst_map_to_list].
    by rewrite list_to_map_to_list, map_union_empty.
  - intros [r ts] Hin%elem_of_map_to_list. by eapply Hk.
Qed.

Lemma toMap_id {V} (l : list (Key * V)) : NoDup l.*1 -> toMap l = l.
Proof.
  unfold toMap. induction l as [|e l IH] using rev_ind; [done|].
  rewrite fmap_app, NoDup_app. simpl. intros (Hl & Hn & _).
  rewrite foldl_snoc, IH by done. unfold put. rewrite decide_False; [done|].
  intros Hin. apply (Hn e.1 Hin). by left.
Qed.

(** The updates of the keys, converted and back. *)
Lemma upds_round_trip (upds : list (Key * DownArgs)) :
  Forall (fun e => exists p, ToReplicatorObj sched e.2 = Some p /\
    DownstreamProtoToAntidoteDownstream sched p (down_type e.2) = Some e.2) upds ->
  exists ps, mapM (fun e => p ← ToReplicatorObj sched e.2; Some (e.1, down_type e.2, p)) upds = Some ps /\
    mapM (fun e => d ← DownstreamProtoToAntidoteDownstream sched e.2 e.1.2; Some (e.1.1, d)) ps = Some upds.
Proof.
  induction 1 as [|[k d] upds (p & E1 & E2) _ (ps & F1 & F2)]; [by exists []|].
  exists ((k, down_type d, p) :: ps). simpl in *. rewrite E1. simpl. rewrite F1. simpl.
  split; [done|]. by rewrite E2; simpl; rewrite F2.
Qed.

End round_trip.

(** ** Updates of clients *)

Section client.
Context `{HM : LeafMsgs}.

(** [proto.ApbUpdateOperation]: an operation of another object, the updates of
    an OR-map included, or [proto.ApbMapUpdate]. *)
Inductive ProtoUpdate :=
  | PLeafUpd (p : LeafProtoUpd)
  | PMapop (Updates : list (Key * CRDTType * ProtoUpdate)) (RemovedKeys : list Key) (IsAddsArray : bool).

(** [None]: the updates that do not implement [ProtoUpd].  The type of an entry
    of an array is that of [EmbMapUpdate], not of the update in it, and
    [IsAddsArray] is never set. *)
Fixpoint ToUpdateObject (crdtOp : UpdArgs) : option ProtoUpdate :=
  match crdtOp with
  | LUpd u => p ← leaf_ToUpdateObject u; Some (PLeafUpd p)
  | EmbMapUpdate key upd =>
      t ← upd_type upd; p ← ToUpdateObject upd; Some (PMapop [(key, t, p)] [] false)
  | EmbMapUpdateAll upds =>
      ps ← mapM (fun e => t ← upd_type e.2; p ← ToUpdateObject e.2; Some (e.1, t, p)) upds;
      Some (PMapop ps [] false)
  | EmbMapUpdateAllArray upds =>
      ps ← mapM (fun e => p ← ToUpdateObject e.2; Some (e.1, RRMAP, p)) upds;
      Some (PMapop ps [] false)
  | MapRemove key => Some (PMapop [] [key] false)
  | MapRemoveAll keys => Some (PMapop [] keys false)
  | NoOp | NoOpPtr | NilUpd => None
  end.

Definition removedKeys (p : ProtoUpdate) : list Key :=
  match p with PMapop _ rems _ => rems | PLeafUpd _ => [] end.

(** The updates of an OR-map are leaf operations; a nil update of a key makes the
    whole nil here. *)
Fixpoint UpdateProtoToAntidoteUpdate (protobuf : ProtoUpdate) (crdtType : CRDTType) : option UpdArgs :=
  match crdtType, protobuf with
  | RRMAP, PMapop ((_ :: _) as upds) _ isAddsArray =>
      upds ← mapM (fun e => u ← UpdateProtoToAntidoteUpdate e.2 e.1.2; Some (e.1.1, u)) upds;
      Some (if isAddsArray then EmbMapUpdateAllArray upds else EmbMapUpdateAll (toMap upds))
  | RRMAP, p => Some (MapRemoveAll (removedKeys p))
  | ORMAP, PMapop _ rems _ => Some (MapRemoveAll rems)
  | t, PLeafUpd p => u ← leaf_FromUpdateObject t (Some p); Some (LUpd u)
  | t, _ => u ← leaf_FromUpdateObject t None; Some (LUpd u)
  end.

Context `{HLaws : !LeafMsgsLaws}.

(** Updates of one key arrive as updates of many. *)
Fixpoint received (u : UpdArgs) : UpdArgs :=
  match u with
  | EmbMapUpdate key upd => EmbMapUpdateAll [(key, received upd)]
  | EmbMapUpdateAll upds => EmbMapUpdateAll ((fun e => (e.1, received e.2)) <$> upds)
  | MapRemove key => MapRemoveAll [key]
  | u => u
  end.

Inductive updSendable : UpdArgs -> Prop :=
  | usend_leaf u : leaf_updSendable u -> updSendable (LUpd u)
  | usend_one k u : updSendable u -> updSendable (EmbMapUpdate k u)
  | usend_all upds :
      upds <> [] -> NoDup upds.*1 -> Forall (fun e => updSendable e.2) upds ->
      updSendable (EmbMapUpdateAll upds)
  | usend_remove k : updSendable (MapRemove k)
  | usend_removeAll ks : updSendable (MapRemoveAll ks).

Definition decodes (u : UpdArgs) : Prop :=
  exists t p, upd_type u = Some t /\ ToUpdateObject u = Some p /\
    UpdateProtoToAntidoteUpdate p t = Some (received u).

Lemma updates_round_trip (upds : list (Key * UpdArgs)) :
  Forall (fun e => decodes e.2) upds ->
  exists ps, mapM (fun e => t ← upd_type e.2; p ← ToUpdateObject e.2; Some (e.1, t, p)) upds = Some ps /\
    mapM (fun e => u ← UpdateProtoToAntidoteUpdate e.2 e.1.2; Some (e.1.1, u)) ps =
      Some ((fun e => (e.1, received e.2)) <$> upds) /\ length ps = length upds.
Proof.
  induction 1 as [|[k u] upds (t & p & Et & E1 & E2) _ (ps & F1 & F2 & Hl)]; [by exists []|].
  exists ((k, t, p) :: ps). simpl in *. rewrite Et. simpl. rewrite E1. simpl. rewrite F1. simpl.
  split; [done|]. rewrite E2. simpl. rewrite F2. simpl. split; [done|]. by rewrite Hl.
Qed.

Lemma update_decodes u : updSendable u -> decodes u.
Proof using HLaws.
  induction u as [u|k u IH|upds IH|upds IH|k|ks| | |] using upd_rect; intros Hs;
    inversion Hs as [? Hu|? ? Hu|? Hne Hnd Hu|?|?]; subst.
  - destruct (leaf_upd_round_trip u Hu) as (Hn1 & Hn2 & p & E1 & E2).
    exists (leaf_upd_type u), (PLeafUpd p). simpl. rewrite E1. split_and!; [done|done|].
    destruct (leaf_upd_type u) eqn:Et; try done; by rewrite E2.
  - destruct (IH Hu) as (t & p & Et & E1 & E2). exists RRMAP, (PMapop [(k, t, p)] [] false).
    simpl. rewrite Et. simpl. rewrite E1. simpl. split_and!; [done|done|]. by rewrite E2.
  - destruct (updates_round_trip upds) as (ps & F1 & F2 & Hl).
    { rewrite !Forall_forall in *. intros e He. by apply IH, Hu. }
    exists RRMAP, (PMapop ps [] false). simpl. rewrite F1. simpl. split_and!; [done|done|].
    destruct ps as [|p ps]; [by destruct upds|]. rewrite F2. simpl. rewrite toMap_id; [done|].
    by rewrite <- list_fmap_compose.
  - by exists ORMAP, (PMapop [] [k] false).
  - by exists ORMAP, (PMapop [] ks false).
Qed.

Lemma received_type u : upd_type (received u) = upd_type u.
Proof. by destruct u. Qed.

Lemma received_forLeaf u : forLeaf (received u) = forLeaf u.
Proof. by destruct u. Qed.

Lemma received_loop env m i upds rmv :
  Forall (fun e => forall env c, Update env (received e.2) c = Update env e.2 c) upds ->
  updateLoop (fun i u => Update (fun p => env (i :: p)) u) i m
    ((fun e => (e.1, received e.2)) <$> upds) rmv =
  updateLoop (fun i u => Update (fun p => env (i :: p)) u) i m upds rmv.
Proof.
  intros Hu. revert i rmv. induction Hu as [|[k u] upds Hu _ IH]; intros i rmv; [done|]. simpl in *.
  rewrite received_type. destruct (upd_type u) as [t|]; [|done]. simpl.
  destruct (getOrCreateEmbCrdt m k t) as [[c new]|]; [|done]. simpl. rewrite Hu, IH. done.
Qed.

Lemma received_Update u env c : Update env (received u) c = Update env u c.
Proof.
  revert env c. induction u as [u|k u IH|upds IH|upds IH|k|ks| | |] using upd_rect; intros env c;
    destruct c as [l|m]; try done.
  - simpl. unfold getUpdateAllDownstreamArgs.
    change [(k, received u)] with ((fun e : Key * UpdArgs => (e.1, received e.2)) <$> [(k, u)]).
    rewrite received_loop; [done|]. by repeat constructor.
  - simpl. unfold getUpdateAllDownstreamArgs. rewrite received_loop; [done|]. eapply Forall_impl; [exact IH|]. done.
Qed.

(** A client's update of a map with embedded objects can be sent, and what a
    server makes of the update that it decodes is what it would make of the
    client's, on every object. *)
Theorem client_update_round_trip (u : UpdArgs) :
  updSendable u -> exists t p u', upd_type u = Some t /\ ToUpdateObject u = Some p /\
    UpdateProtoToAntidoteUpdate p t = Some u' /\ forall env c, Update env u' c = Update env u c.
Proof using HLaws.
  intros (t & p & Et & E1 & E2)%update_decodes. exists t, p, (received u).
  split_and!; [done..|]. intros. apply received_Update.
Qed.

Lemma toMap_nonempty {V} (e : Key * V) l : toMap (e :: l) <> [].
Proof.
  unfold toMap. simpl. assert (forall l (m : list (Key * V)), m <> [] -> foldl put m l <> []) as Hf.
  { induction l0 as [|x l0 IH]; intros m Hm; [done|]. simpl. apply IH. unfold put.
    destruct (decide _); destruct m; done. }
  by apply Hf.
Qed.

(** An array of updates of counters, registers and the like does not survive
    the message: every update in it arrives as a removal of no keys of a map. *)
Lemma array_of_updates_is_lost (upds : list (Key * LeafUpd)) :
  upds <> [] -> Forall (fun e => leaf_updSendable e.2) upds ->
  exists p, ToUpdateObject (EmbMapUpdateAllArray ((fun e : Key * LeafUpd => (e.1, LUpd e.2)) <$> upds)) = Some p /\
    UpdateProtoToAntidoteUpdate p RRMAP =
      Some (EmbMapUpdateAll (toMap ((fun e => (e.1, MapRemoveAll [])) <$> upds))).
Proof using HLaws.
  intros Hne Hu.
  assert (exists ps, mapM (fun e : Key * UpdArgs => p ← ToUpdateObject e.2; Some (e.1, RRMAP, p))
      ((fun e : Key * LeafUpd => (e.1, LUpd e.2)) <$> upds) = Some ps /\
    mapM (fun e => u ← UpdateProtoToAntidoteUpdate e.2 e.1.2; Some (e.1.1, u)) ps =
      Some ((fun e => (e.1, MapRemoveAll [])) <$> upds) /\ length ps = length upds) as (ps & E1 & E2 & El).
  { clear Hne. induction Hu as [|[k u] upds Hu _ (ps & E1 & E2 & El)]; [by exists []|].
    destruct (leaf_upd_round_trip u Hu) as (_ & _ & p & F & _).
    exists ((k, RRMAP, PLeafUpd p) :: ps). rewrite !fmap_cons. simpl. rewrite F. simpl. rewrite E1. simpl.
    split; [done|]. rewrite E2. simpl. split; [done|lia]. }
  exists (PMapop ps [] false). split.
  { change (ToUpdateObject (EmbMapUpdateAllArray ((fun e : Key * LeafUpd => (e.1, LUpd e.2)) <$> upds))) with
      (ps ← mapM (fun e : Key * UpdArgs => p ← ToUpdateObject e.2; Some (e.1, RRMAP, p))
              ((fun e : Key * LeafUpd => (e.1, LUpd e.2)) <$> upds); Some (PMapop ps [] false)). by rewrite E1. }
  destruct ps as [|p ps]; [by destruct upds|]. cbn [UpdateProtoToAntidoteUpdate].
  by rewrite E2.
Qed.
End client.

(** ** Conditions *)

(** The field that is set of [proto.ApbMapCondArgs]. *)
Inductive ProtoCond :=
  | PIntcomp (Value : Z) (Comp : CompType)
  | PFloatcomp (Value : f64) (Comp : CompType)
  | PNocomp
  | PMapcomp (Value : list (Key * ProtoCond))
  | PStringcomp (Value : string) (IsEqualComp : bool)
  | PBoolcomp (Value : bool) (IsEqualComp : bool)
  | PBytescomp (Value : string) (IsEqualComp : bool)
  | PNothing.

Fixpoint compareArgsToProtoHelper (args : CompareArgs) : ProtoCond :=
  match args with
  | IntCompareArguments v c => PIntcomp v c
  | FloatCompareArguments v c => PFloatcomp v c
  | MapCompareArguments args => PMapcomp ((fun e => (e.1, compareArgsToProtoHelper e.2)) <$> args)
  | BoolCompareArguments v b => PBoolcomp v b
  | StringCompareArguments v b => PStringcomp v b
  | BytesCompareArguments v b => PBytescomp v b
  | GetNoCompareArguments => PNocomp
  | IntArgCompareArguments _ _ | FloatArgCompareArguments _ _ => PNothing
  end.

Fixpoint protoArgsToCompareArgsHelper (p : ProtoCond) : CompareArgs :=
  match p with
  | PIntcomp v c => IntCompareArguments v c
  | PFloatcomp v c => FloatCompareArguments v c
  | PNocomp => GetNoCompareArguments
  | PMapcomp l => MapCompareArguments (toMap ((fun e => (e.1, protoArgsToCompareArgsHelper e.2)) <$> l))
  | PStringcomp v b => StringCompareArguments v b
  | PBoolcomp v b => BoolCompareArguments v b
  | PBytescomp v b => BytesCompareArguments v b
  | PNothing => BytesCompareArguments EmptyString false
  end.

(** Conditions without variables, with the distinct keys of Go maps. *)
Inductive cond_ok : CompareArgs -> Prop :=
  | cond_int v c : cond_ok (IntCompareArguments v c)
  | cond_float v c : cond_ok (FloatCompareArguments v c)
  | cond_string v b : cond_ok (StringCompareArguments v b)
  | cond_bytes v b : cond_ok (BytesCompareArguments v b)
  | cond_bool v b : cond_ok (BoolCompareArguments v b)
  | cond_none : cond_ok GetNoCompareArguments
  | cond_map l : NoDup l.*1 -> Forall (fun e => cond_ok e.2) l -> cond_ok (MapCompareArguments l).

Lemma conditions_round_trip : forall c, cond_ok c ->
  protoArgsToCompareArgsHelper (compareArgsToProtoHelper c) = c.
Proof.
  fix IH 2. intros c [v t|v t|v b|v b|v b| |l Hnd Hl]; try reflexivity.
  cbn [compareArgsToProtoHelper protoArgsToCompareArgsHelper]. f_equal.
  rewrite <- list_fmap_compose.
  assert (((fun e => (e.1, protoArgsToCompareArgsHelper e.2)) ∘
    (fun e : Key * CompareArgs => (e.1, compareArgsToProtoHelper e.2))) <$> l = l) as ->.
  { clear Hnd. induction Hl as [|[k x] l Hx Hl IHl]; [reflexivity|].
    rewrite fmap_cons. simpl in *. rewrite (IH x Hx). f_equal. exact IHl. }
  by apply toMap_id.
Qed.

(** ** Snapshots *)

Section state.
Context `{HM : LeafMsgs}.

Inductive ProtoState :=
  | PLeafState (p : LeafProtoState)
  | PEmbmap (Crdts : list (Key * CRDTType * ProtoState)) (Removes : list (Key * list (Z * Z)))
      (RmvClock : list Z).

(** The loop over the clocks of the removes of a key: [k] is where it starts to
    write. *)
Fixpoint writeClks (k : nat) (l : list (Z * markedTimestamp)) (arr : list (Z * Z)) : option (list (Z * Z)) :=
  match l with
  | [] => Some arr
  | (replicaID, mt) :: l =>
      if decide (k < length arr)%nat then writeClks (S k) l (<[k := (int32 replicaID, mts mt)]> arr)
      else None
  end.

(** [k] goes on from one key to the next. *)
Fixpoint writeRemoves (k : nat) (l : list (Key * gmap Z markedTimestamp)) : option (list (list (Z * Z))) :=
  match l with
  | [] => Some []
  | (_, rmvMap) :: l =>
      clks ← writeClks k (map_to_list rmvMap) (replicate (size rmvMap) (0, 0));
      rest ← writeRemoves (k + size rmvMap)%nat l; Some (clks :: rest)
  end.

(** All entries point to the variable of the loop, which has the last key. *)
Definition aliased {A B} (l : list (Key * A)) (ps : list B) : list (Key * B) :=
  (fun p => (default EmptyString (last l.*1), p)) <$> ps.

(** [rec] converts the embedded objects. *)
Definition emb_ToProtoState (rec : CRDT -> option ProtoState) (m : RWEmbMapCrdt CRDT) : option ProtoState :=
  let es := map_to_list (entries m) in
  let rs := map_to_list (removes m) in
  ps ← mapM (fun e => p ← rec e.2; Some (GetCRDTType e.2, p)) es;
  rems ← writeRemoves 0 rs;
  Some (PEmbmap ((fun e => (e.1, e.2.1, e.2.2)) <$> aliased es ps) (aliased rs rems) (ToBytes (rmvClock m))).

(** [fuel]: the depth of the maps. *)
Fixpoint ToProtoState (fuel : nat) (c : CRDT) : option ProtoState :=
  match fuel with
  | O => None
  | S fuel =>
      match c with
      | Leaf l => Some (PLeafState (leaf_ToProtoState l))
      | Emb m => emb_ToProtoState (ToProtoState fuel) m
      end
  end.

Definition marked (clks : list (Z * Z)) : gmap Z markedTimestamp :=
  foldl (fun m '(sender, ts) => <[int16 sender := mkMarked ts true]> m) ∅ clks.

Definition emb_FromProtoState (rec : CRDTType -> ProtoState -> option CRDT) (p : ProtoState) (replicaID : Z)
  : option (RWEmbMapCrdt CRDT) :=
  let '(crdts, rems, clk) := match p with PEmbmap c r k => (c, r, k) | PLeafState _ => ([], [], []) end in
  entries ← mapM (fun e => c ← rec e.1.2 e.2; Some (e.1.1, c)) crdts;
  Some (mkEmb (foldl (fun m e => <[e.1 := e.2]> m) ∅ entries)
          (foldl (fun m e => <[e.1 := marked e.2]> m) ∅ rems) (FromBytes clk) replicaID None).

Fixpoint StateProtoToCrdt (fuel : nat) (replicaID : Z) (t : CRDTType) (p : ProtoState) : option CRDT :=
  match fuel with
  | O => None
  | S fuel =>
      if decide (t = RRMAP) then Emb <$> emb_FromProtoState (StateProtoToCrdt fuel replicaID) p replicaID
      else Leaf <$> leaf_FromProtoState t (match p with PLeafState p => Some p | _ => None end) replicaID
  end.

Lemma writeClks_out k l arr : (length arr < k + length l)%nat -> l <> [] -> writeClks k l arr = None.
Proof.
  revert k arr. induction l as [|[r mt] l IH]; intros k arr Hl Hne; [done|]. simpl in *.
  destruct (decide _); [|done]. destruct l as [|e l]; [simpl in *; lia|].
  apply IH; [|done]. rewrite length_insert. simpl in *. lia.
Qed.

Lemma writeRemoves_panics k key rmvMap l :
  (0 < k)%nat -> (key, rmvMap) ∈ l -> rmvMap <> ∅ -> writeRemoves k l = None.
Proof.
  revert k. induction l as [|[key' rmvMap'] l IH]; intros k Hk Hin Hne; [by apply not_elem_of_nil in Hin|].
  simpl. apply elem_of_cons in Hin as [[= <- <-]|Hin].
  - rewrite writeClks_out; [done| |].
    + rewrite length_replicate, length_map_to_list. lia.
    + by intros E%map_to_list_empty_iff.
  - destruct (writeClks _ _ _); [|done]. simpl. rewrite IH; [done|lia|done|done].
Qed.

Lemma writeRemoves_two k l k1 k2 r1 r2 :
  k1 <> k2 -> (k1, r1) ∈ l -> (k2, r2) ∈ l -> r1 <> ∅ -> r2 <> ∅ -> writeRemoves k l = None.
Proof.
  intros Hk H1 H2 Hr1 Hr2. revert k H1 H2.
  induction l as [|[key rmvMap] l IH]; intros k H1 H2; [by apply not_elem_of_nil in H1|]. simpl.
  destruct (writeClks _ _ _) as [clks|]; [|done]. simpl.
  apply elem_of_cons in H1 as [E1|H1], H2 as [E2|H2].
  - congruence.
  - injection E1 as -> ->. rewrite (writeRemoves_panics _ k2 r2); try done.
    assert (size rmvMap <> 0%nat) by by intros E%map_size_empty_iff. lia.
  - injection E2 as -> ->. rewrite (writeRemoves_panics _ k1 r1); try done.
    assert (size rmvMap <> 0%nat) by by intros E%map_size_empty_iff. lia.
  - by rewrite IH.
Qed.

(** A map with embedded objects two keys of which were removed cannot be
    sent to a replica that joins: taking its snapshot panics. *)
Lemma snapshot_of_removes_panics (fuel : nat) (m : RWEmbMapCrdt CRDT) (k1 k2 : Key) r1 r2 :
  k1 <> k2 -> removes m !! k1 = Some r1 -> removes m !! k2 = Some r2 -> r1 <> ∅ -> r2 <> ∅ ->
  ToProtoState fuel (Emb m) = None.
Proof.
  intros Hk H1%elem_of_map_to_list H2%elem_of_map_to_list Hr1 Hr2.
  destruct fuel as [|fuel]; [done|]. simpl. unfold emb_ToProtoState.
  rewrite (writeRemoves_two _ _ k1 k2 r1 r2) by done. by destruct (mapM _ _).
Qed.

(** At most one of the keys arrives. *)
Lemma snapshot_keeps_one_key fuel fuel' m p c r :
  ToProtoState fuel (Emb m) = Some p -> StateProtoToCrdt fuel' r RRMAP p = Some c ->
  exists m', c = Emb m' /\ (size (entries m') <= 1)%nat.
Proof.
  destruct fuel as [|fuel], fuel' as [|fuel']; try done. simpl. unfold emb_ToProtoState.
  destruct (mapM _ _) as [ps|]; [|done]. simpl. destruct (writeRemoves _ _) as [rems|]; [|done]. simpl.
  intros [= <-]. unfold emb_FromProtoState, aliased.
  set (last_key := default EmptyString (last (map_to_list (entries m)).*1)).
  destruct (mapM _ ((fun e : Key * (CRDTType * ProtoState) => _) <$> _)) as [es|] eqn:E; [|done].
  simpl. intros [= <-]. eexists. split; [done|]. simpl.
  assert (Forall (fun e => e.1 = last_key) es) as Hes.
  { clear rems. revert es E. induction ps as [|q ps IH]; intros es E; simpl in E; [by injection E as <-|].
    destruct (StateProtoToCrdt fuel' r _ _) as [c|]; [|done]. simpl in E.
    destruct (mapM _ _) as [es'|] eqn:E'; [|done]. injection E as <-. constructor; [done|]. by apply IH. }
  assert (forall m0 : gmap Key CRDT, (forall k, k ∈ dom m0 -> k = last_key) ->
    forall k, k ∈ dom (foldl (fun m (e : Key * CRDT) => <[e.1 := e.2]> m) m0 es) -> k = last_key) as Hd.
  { clear E. induction Hes as [|e es He _ IH]; intros m0 H0; [done|]. simpl. apply IH.
    intros k. rewrite dom_insert, elem_of_union, elem_of_singleton. intros [->|?]; [done|by apply H0]. }
  rewrite <- size_dom. transitivity (size ({[last_key]} : gset Key)); [|by rewrite size_singleton].
  apply subseteq_size. intros k Hk. apply elem_of_singleton. apply (Hd ∅); [|exact Hk].
  intros k'. by rewrite dom_empty, elem_of_empty.
Qed.
End state.

(** ** Messages of counters and registers

    An instance for the objects of EmbLeaves, without others: increments and
    writes are sent as Counters and Registers say. *)
#[local] Existing Instance no_rest.

Definition counter_register_msgs : LeafMsgs := {|
  LeafProtoOp := Counter.ProtoCounterDownstream + LwwRegister.ProtoLWWRegisterDownstream;
  LeafProtoUpd := Z + string;
  LeafProtoState := unit;
  leaf_ToReplicatorObj d :=
    match d with
    | DCounter d => Some (inl (Counter.ToReplicatorObj d))
    | DReg d => Some (inr (LwwRegister.ToReplicatorObj d))
    | _ => None
    end;
  leaf_FromReplicatorObj t p :=
    match t, p with
    | COUNTER, Some (inl p) => Some (DCounter (Counter.downstreamProtoCounterToAntidoteDownstream p))
    | LWWREG, Some (inr p) => Some (DReg (LwwRegister.FromReplicatorObj p))
    | _, _ => None
    end;
  leaf_ToUpdateObject u :=
    match u with
    | UCounter (Counter.Increment c) => Some (inl c)
    | UReg (LwwRegister.SetValue v) => Some (inr v)
    | _ => None
    end;
  leaf_FromUpdateObject t p :=
    match t, p with
    | COUNTER, Some (inl c) => Some (UCounter (Counter.Increment c))
    | LWWREG, Some (inr v) => Some (UReg (LwwRegister.SetValue v))
    | _, _ => None
    end;
  leaf_ToProtoState _ := tt;
  leaf_FromProtoState _ _ _ := None
|}.

#[local] Existing Instance counter_register_msgs.

#[local] Instance counter_register_laws : LeafMsgsLaws.
Proof.
  refine {|
    leaf_sendable d :=
      match d with
      | DCounter (Counter.Increment _) => True | DReg d => inS 16 (LwwRegister.ReplicaID d) | _ => False
      end;
    leaf_updSendable u :=
      match u with UCounter (Counter.Increment _) | UReg _ => True | _ => False end |}.
  - intros [[c|c]|d|d|d|d|[]]; try done.
    + intros _. split; [done|]. by eexists.
    + intros Hd. split; [done|]. eexists. split; [done|]. simpl.
      by rewrite LwwRegister.FromReplicatorObj_ToReplicatorObj.
  - intros [[c|c]|u|u|u|[v]|[]]; try done.
    + intros _. split_and!; [done|done|]. by eexists.
    + intros _. split_and!; [done|done|]. by eexists.
Defined.

Definition stock_update : DownArgs :=
  DownstreamRWEmbMapUpdateAll
    [("stock"%string, DownstreamRWEmbMapUpdateAllArray
        [("pear"%string, LDown (DCounter (Counter.Increment 3)))] {[2 := 5]} 1);
     ("note"%string, LDown (DReg (LwwRegister.DownstreamSetValue "pears" 8 1)))] {[1 := 4]} 1.


Lemma client_update_round_trip_witness :
  let u : UpdArgs := EmbMapUpdate "stock"%string (EmbMapUpdateAll
    [("pear"%string, LUpd (UCounter (Counter.Increment 3))); ("apple"%string, MapRemove "red"%string)]) in
  exists t p u', upd_type u = Some t /\ ToUpdateObject u = Some p /\
    UpdateProtoToAntidoteUpdate p t = Some u' /\ forall env c, Update env u' c = Update env u c.
Proof.
  apply (client_update_round_trip (HLaws := counter_register_laws)).
  apply usend_one, usend_all; [done|by apply (bool_decide_unpack _); vm_compute|].
  apply Forall_cons. split; [by apply usend_leaf|]. apply Forall_singleton, usend_remove.
Defined.
