(* ===== verification/EmbMapReads.v ===== *)
(** * Maps with embedded objects: reads (rwEmbMapCRDT.go, src/crdt/crdt)

    A read is of what is committed, or also of the updates of the transaction
    that are not applied yet.  Embedded objects with many entries are read by
    goroutines, which send what they read on the channel of the map; the channel
    outlives the read.  The functions of this file are those of one map: [rec]
    reads an embedded object; [Read] closes them with fuel.  A read that panics
    is [None], a nil state [Some None].  Loops over Go maps run in the order of
    [map_to_list]. *)

From S2P Require Import Prelude ClockSI MultiArray FloatCounters EmbObjects EmbMap.
From Stdlib Require Import ZArith Lia Bool SpecFloat.
From stdpp Require Import base tactics numbers sets strings gmap list.
#[local] Open Scope Z_scope.

Section reads.
Context `{HL : Leaves}.
Abbreviation Map := (RWEmbMapCrdt CRDT).
Abbreviation Result := (option (option State)).
Abbreviation States := (gmap Key (option State)).

(** What is on the channel: the pairs of [PairKeyState]. *)
Abbreviation Chan := (list (Key * option State)).

Definition INITIAL_UPDSNOTAPPLIED_SIZE : nat := 10.

(** ** Updates that are not applied yet *)

Definition addUpd (applyByCRDT : gmap Key (list UpdArgs)) (e : Key * UpdArgs) : gmap Key (list UpdArgs) :=
  <[e.1 := default [] (applyByCRDT !! e.1) ++ [e.2]]> applyByCRDT.

(** A remove hides what is before it. *)
Definition addRemove (applyByCRDT : gmap Key (list UpdArgs)) (key : Key) : gmap Key (list UpdArgs) :=
  <[key := [NoOp]]> applyByCRDT.

(** The pairs of an array are added as they are, not their updates. *)
Definition prepareStep (applyByCRDT : gmap Key (list UpdArgs)) (upd : UpdArgs) : gmap Key (list UpdArgs) :=
  match upd with
  | EmbMapUpdate key upd => addUpd applyByCRDT (key, upd)
  | EmbMapUpdateAll upds => foldl addUpd applyByCRDT upds
  | EmbMapUpdateAllArray upds => foldl addUpd applyByCRDT ((fun e => (e.1, EmbMapUpdate e.1 e.2)) <$> upds)
  | MapRemove key => addRemove applyByCRDT key
  | MapRemoveAll keys => foldl addRemove applyByCRDT keys
  | _ => applyByCRDT
  end.

Definition prepareApplyByCRDTMap (updsNotYetApplied : list UpdArgs) : gmap Key (list UpdArgs) :=
  foldl prepareStep ∅ updsNotYetApplied.

Section read.
(** [arrive]: the order in which the goroutines of a read send. *)
Variable rec : ReadArgs -> CRDT -> list UpdArgs -> Result.
Variable arrive : Chan -> Chan.
(** What a float out of the range of an int64 converts to. *)
Variable float_other : f64 -> Z.

(** ** Conditions *)

Definition compare {A} (eqb ltb leb : A -> A -> bool) (compType : CompType) (x value : A) : bool :=
  match compType with
  | EQ => eqb x value
  | NEQ => negb (eqb x value)
  | LEQ => leb x value
  | L => ltb x value
  | H => ltb value x
  | HEQ => leb value x
  end.

Definition intCompareHelper (state : State) (crdtType : CRDTType) (compType : CompType) (value : Z) : Result :=
  crdtValue ← match decide (crdtType = COUNTER), state with
              | left _, LState (CounterState v) => Some v
              | right _, LState (MaxMinState v) => Some v
              | _, _ => None
              end;
  Some (if compare Z.eqb Z.ltb Z.leb compType crdtValue value then Some state else None).

Definition floatCompareHelper (state : State) (crdtType : CRDTType) (compType : CompType) (value : f64) : Result :=
  crdtValue ← match decide (crdtType = COUNTER_FLOAT), state with
              | left _, LState (CounterFloatState v) => Some v
              | right _, LState (AvgState v) => Some v
              | _, _ => None
              end;
  Some (if compare SFeqb SFltb SFleb compType crdtValue value then Some state else None).

(** The types of objects that a condition is for. *)
Definition condTypes (compArgs : CompareArgs) (crdtType : CRDTType) : bool :=
  match compArgs with
  | IntCompareArguments _ _ => bool_decide (crdtType = COUNTER \/ crdtType = MAXMIN)
  | FloatCompareArguments _ _ => bool_decide (crdtType = AVG \/ crdtType = COUNTER_FLOAT)
  | MapCompareArguments _ => bool_decide (crdtType = RRMAP)
  | StringCompareArguments _ _ | BytesCompareArguments _ _ => bool_decide (crdtType = LWWREG)
  | BoolCompareArguments _ _ =>
      bool_decide (crdtType = FLAG_LWW \/ crdtType = FLAG_EW \/ crdtType = FLAG_DW)
  | _ => true
  end.

(** The last switch; the string of a register is not a slice of bytes. *)
Definition testCondition (inCrdt : CRDT) (upds : list UpdArgs) (tmpState : option State) (crdtType : CRDTType)
    (compArgs : CompareArgs) : Result :=
  match compArgs with
  | IntCompareArguments value compType => s ← tmpState; intCompareHelper s crdtType compType value
  | FloatCompareArguments value compType => s ← tmpState; floatCompareHelper s crdtType compType value
  | MapCompareArguments mapArgs =>
      s ← rec (EmbMapConditionalReadArguments mapArgs) inCrdt upds;
      match s with
      | Some (EmbMapEntryState states) =>
          Some (if (size states =? length mapArgs)%nat then Some (EmbMapEntryState states) else None)
      | _ => None
      end
  | StringCompareArguments value isEqualComp =>
      match tmpState with
      | Some (LState (RegisterState (Some crdtValue))) =>
          Some (if Bool.eqb isEqualComp (bool_decide (crdtValue = value)) then tmpState else None)
      | _ => None
      end
  | BytesCompareArguments value isEqualComp => None
  | BoolCompareArguments value isEqualComp =>
      match tmpState with
      | Some (LState (FlagState crdtValue)) =>
          Some (if Bool.eqb isEqualComp (Bool.eqb crdtValue value) then tmpState else None)
      | _ => None
      end
  | _ => Some None
  end.

Definition getStateIfCondition (inCrdt : CRDT) (upds : list UpdArgs) (compArgs : CompareArgs) : Result :=
  match compArgs with
  | GetNoCompareArguments => rec StateReadArguments inCrdt upds
  | _ =>
      let crdtType := GetCRDTType inCrdt in
      if condTypes compArgs crdtType then
        tmpState ← (if decide (crdtType = RRMAP) then Some None else rec StateReadArguments inCrdt upds);
        testCondition inCrdt upds tmpState crdtType compArgs
      else Some None
  end.

(** ** Reading embedded objects *)

(** A nil state is not kept. *)
Definition keep (key : Key) (s : option State) (states : States) : States :=
  match s with Some s => <[key := Some s]> states | None => states end.

(** The entries that a loop goes over, with what each is to be read with. *)
Definition entriesOf {A} (m : Map) (args : list (Key * A)) : list (Key * CRDT * A) :=
  omap (fun e => c ← entries m !! e.1; Some (e.1, c, e.2)) args.
Definition allEntries (m : Map) (skip : Key -> bool) : list (Key * CRDT * unit) :=
  (fun e => (e, tt)) <$> filter (fun e => skip e.1 = false) (map_to_list (entries m)).

(** [one] reads an object.  Big objects are left to goroutines, and the results
    of these are received after the loop: [routineCount] of them. *)
Fixpoint readEntries {A} (one : A -> CRDT -> Result) (es : list (Key * CRDT * A)) (states : States)
    (spawned : Chan) : option (States * Chan) :=
  match es with
  | [] => Some (states, spawned)
  | (key, embCrdt, arg) :: es =>
      s ← one arg embCrdt;
      if IsBigCRDT embCrdt then readEntries one es states (spawned ++ [(key, s)])
      else readEntries one es (keep key s states) spawned
  end.

(** [replChan] is first in, first out. *)
Definition receiveRoutineReads (routineCount : nat) (replChan : Chan) (states : States) : States * Chan :=
  (foldl (fun states pr => keep pr.1 pr.2 states) states (take routineCount replChan),
   drop routineCount replChan).

Definition readCommitted {A} (one : A -> CRDT -> Result) (es : list (Key * CRDT * A)) (replChan : Chan)
  : option (States * Chan) :=
  '(states, spawned) ← readEntries one es ∅ [];
  Some (receiveRoutineReads (length spawned) (replChan ++ arrive spawned) states).

(** An object that is in [applyByCRDT].  [fresh] reads one that was removed and
    then updated, [known] any other.  The inner [None] is [continue]. *)
Definition readUpdated (m : Map) (key : Key) (upds : list UpdArgs)
    (fresh known : CRDT -> list UpdArgs -> Result) : option (option (option State)) :=
  match upds with
  | [] => None
  | [NoOp] => Some None
  | NoOp :: ((upd :: _) as upds) =>
      t ← upd_type upd; c ← InitializeCrdt t (replicaID m); s ← fresh c upds; Some (Some s)
  | upd :: _ =>
      t ← upd_type upd; '(c, _) ← getOrCreateEmbCrdt m key t; s ← known c upds; Some (Some s)
  end.

Definition putUpdated (put : Key -> option State -> States -> States) (key : Key)
    (s : option (option State)) (states : States) : States :=
  match s with Some s => put key s states | None => states end.

(** The loops over all of the keys, [skip] apart. *)
Definition readAllPending (put : Key -> option State -> States -> States) (skip : Key -> bool)
    (one : CRDT -> list UpdArgs -> Result) (m : Map) (updsNotYetApplied : list UpdArgs) : option States :=
  let applyByCRDT := prepareApplyByCRDTMap updsNotYetApplied in
  states ← foldl (fun states '(key, upds) =>
      states ← states;
      if skip key then Some states
      else s ← readUpdated m key upds one one; Some (putUpdated put key s states))
    (Some ∅) (map_to_list applyByCRDT);
  foldl (fun states '(key, embCrdt) =>
      states ← states;
      if bool_decide (key ∈ dom applyByCRDT) || skip key then Some states
      else s ← one embCrdt []; Some (put key s states))
    (Some states) (map_to_list (entries m)).

(** The loop over given keys, with arguments for each. *)
Definition readKeysPending {A} (put : Key -> option State -> States -> States)
    (updated other : A -> CRDT -> list UpdArgs -> Result) (m : Map) (updsNotYetApplied : list UpdArgs)
    (args : list (Key * A)) : option States :=
  let applyByCRDT := prepareApplyByCRDTMap updsNotYetApplied in
  foldl (fun states '(key, arg) =>
      states ← states;
      match applyByCRDT !! key with
      | Some upds => s ← readUpdated m key upds (updated arg) (updated arg); Some (putUpdated put key s states)
      | None =>
          match entries m !! key with
          | Some embCrdt => s ← other arg embCrdt []; Some (put key s states)
          | None => Some states
          end
      end)
    (Some ∅) args.

Definition putState (key : Key) (s : option State) (states : States) : States := <[key := s]> states.

(** *** The reads of states *)

Definition isEmpty (updsNotYetApplied : list UpdArgs) : bool :=
  match updsNotYetApplied with [] => true | _ => false end.

Definition pending (states : option States) (replChan : Chan) : option (States * Chan) :=
  states ← states; Some (states, replChan).

Definition readAll (put : Key -> option State -> States -> States) (skip : Key -> bool)
    (one : CRDT -> list UpdArgs -> Result) (m : Map) (upds : list UpdArgs) (replChan : Chan)
  : option (States * Chan) :=
  if isEmpty upds then readCommitted (fun _ c => one c []) (allEntries m skip) replChan
  else pending (readAllPending put skip one m upds) replChan.

Definition readKeys {A} (put : Key -> option State -> States -> States)
    (updated other : A -> CRDT -> list UpdArgs -> Result) (m : Map) (upds : list UpdArgs)
    (args : list (Key * A)) (replChan : Chan) : option (States * Chan) :=
  if isEmpty upds then readCommitted (fun arg c => other arg c []) (entriesOf m args) replChan
  else pending (readKeysPending put updated other m upds args) replChan.

Definition noKey (key : Key) : bool := false.

Definition getState (m : Map) (upds : list UpdArgs) (replChan : Chan) : option (States * Chan) :=
  readAll putState noKey (rec StateReadArguments) m upds replChan.

Definition getAllPartialState (m : Map) (upds : list UpdArgs) (arg : ReadArgs) (replChan : Chan)
  : option (States * Chan) :=
  readAll putState noKey (rec arg) m upds replChan.

Definition getAllExcept (m : Map) (upds : list UpdArgs) (exceptKeys : gset Key) (argForAll : ReadArgs)
    (replChan : Chan) : option (States * Chan) :=
  readAll putState (fun key => bool_decide (key ∈ exceptKeys)) (rec argForAll) m upds replChan.

Definition getExceptSingleState (m : Map) (upds : list UpdArgs) (exceptKey : Key) (argForAll : ReadArgs)
    (replChan : Chan) : option (States * Chan) :=
  readAll putState (fun key => bool_decide (key = exceptKey)) (rec argForAll) m upds replChan.

Definition condRead (condArgs : CompareArgs) (c : CRDT) (upds : list UpdArgs) : Result :=
  getStateIfCondition c upds condArgs.

Definition getAllCondState (m : Map) (upds : list UpdArgs) (condArgs : CompareArgs) (replChan : Chan)
  : option (States * Chan) :=
  readAll keep noKey (condRead condArgs) m upds replChan.

Definition getExceptCondState (m : Map) (upds : list UpdArgs) (exceptKeys : gset Key) (condArgs : CompareArgs)
    (replChan : Chan) : option (States * Chan) :=
  readAll keep (fun key => bool_decide (key ∈ exceptKeys)) (condRead condArgs) m upds replChan.

Definition getExceptCondSingleState (m : Map) (upds : list UpdArgs) (exceptKey : Key) (condArgs : CompareArgs)
    (replChan : Chan) : option (States * Chan) :=
  readAll keep (fun key => bool_decide (key = exceptKey)) (condRead condArgs) m upds replChan.

Definition getCondState (m : Map) (upds : list UpdArgs) (condArgs : list (Key * CompareArgs)) (replChan : Chan)
  : option (States * Chan) :=
  readKeys keep condRead condRead m upds condArgs replChan.

Definition getValues (m : Map) (upds : list UpdArgs) (keys : list Key) (replChan : Chan)
  : option (States * Chan) :=
  readKeys putState (fun _ => rec StateReadArguments) (fun _ => rec StateReadArguments) m upds
    ((fun key => (key, tt)) <$> keys) replChan.

(** With updates that are not applied yet, an object that they update is read
    whole. *)
Definition getPartialState (m : Map) (upds : list UpdArgs) (args : list (Key * ReadArgs)) (replChan : Chan)
  : option (States * Chan) :=
  readKeys putState (fun _ => rec StateReadArguments) rec m upds args replChan.

(** *** Keys *)

Fixpoint keysLoop (upds : list UpdArgs) (adds rems : gset Key) : gset Key * gset Key :=
  match upds with
  | [] => (adds, rems)
  | upd :: upds =>
      let add := fun adds key => if decide (key ∈ rems) then adds else {[ key ]} ∪ adds in
      let remove := fun rems key => if decide (key ∈ adds) then rems else {[ key ]} ∪ rems in
      match upd with
      | EmbMapUpdate key _ => keysLoop upds (add adds key) rems
      | EmbMapUpdateAll es | EmbMapUpdateAllArray es => keysLoop upds (foldl add adds es.*1) rems
      | MapRemove key => keysLoop upds adds (remove rems key)
      | MapRemoveAll keys => keysLoop upds adds (foldl remove rems keys)
      | _ => keysLoop upds adds rems
      end
  end.

(** The slice is made with a length, and what is not written stays empty. *)
Definition getKeys (m : Map) (upds : list UpdArgs) : option (list Key) :=
  let keys := (map_to_list (entries m)).*1 in
  match upds with
  | [] => Some keys
  | _ =>
      let '(adds, rems) := keysLoop (reverse upds) ∅ ∅ in
      let len := Z.of_nat (size (entries m)) + Z.of_nat (size adds) - Z.of_nat (size rems) in
      let written := filter (fun key => key ∉ rems) keys ++
                     filter (fun key => key ∉ dom (entries m)) (elements adds) in
      if len <? Z.of_nat (length written) then None
      else Some (written ++ replicate (Z.to_nat len - length written) EmptyString)
  end.

Fixpoint hasKeyLoop (m : Map) (upds : list UpdArgs) (key : Key) : bool :=
  match upds with
  | [] => bool_decide (key ∈ dom (entries m))
  | upd :: upds =>
      match upd with
      | EmbMapUpdate k _ => if decide (key = k) then true else hasKeyLoop m upds key
      | EmbMapUpdateAll es | EmbMapUpdateAllArray es =>
          if decide (key ∈ es.*1) then true else hasKeyLoop m upds key
      | MapRemove k => if decide (key = k) then false else hasKeyLoop m upds key
      | MapRemoveAll ks => if decide (key ∈ ks) then false else hasKeyLoop m upds key
      | _ => hasKeyLoop m upds key
      end
  end.

Definition hasKey (m : Map) (upds : list UpdArgs) (key : Key) : bool := hasKeyLoop m (reverse upds) key.

(** *** The value of a key *)

(** The updates of the key; a remove leaves a pointer to [NoOp]. *)
Definition keyUpdsStep (key : Key) (keyUpds : list UpdArgs) (upd : UpdArgs) : list UpdArgs :=
  match upd with
  | EmbMapUpdate k u => if decide (key = k) then keyUpds ++ [u] else keyUpds
  | EmbMapUpdateAll es | EmbMapUpdateAllArray es =>
      keyUpds ++ omap (fun e => if decide (key = e.1) then Some e.2 else None) es
  | MapRemove k => if decide (key = k) then [NoOpPtr] else keyUpds
  | MapRemoveAll ks => if decide (key ∈ ks) then [NoOpPtr] else keyUpds
  | _ => keyUpds
  end.

(** The slice is made with a length: it starts with nil updates. *)
Definition collectKeyUpds (key : Key) (upds : list UpdArgs) : list UpdArgs :=
  foldl (keyUpdsStep key) (replicate (Nat.min (length upds) INITIAL_UPDSNOTAPPLIED_SIZE) NilUpd) upds.

(** [upds[1]] must be there, and not be nil. *)
Definition createSecond (m : Map) (keyUpds : list UpdArgs) : option CRDT :=
  u ← keyUpds !! 1%nat; t ← upd_type u; InitializeCrdt t (replicaID m).

Definition getValue (m : Map) (upds : list UpdArgs) (key : Key) (args : ReadArgs) : Result :=
  match upds with
  | [] =>
      match entries m !! key with
      | None => Some (Some (LState (RegisterState (Some EmptyString))))
      | Some inCrdt => rec args inCrdt []
      end
  | _ =>
      let keyUpds := collectKeyUpds key upds in
      match keyUpds with
      | [] => None
      | NoOp :: _ :: _ => c ← createSecond m keyUpds; rec args c (drop 1 keyUpds)
      | _ => c ← createSecond m keyUpds; rec args c keyUpds
      end
  end.

(** ** Aggregates *)

Definition MaxFloat64 : f64 := S754_finite false (2 ^ 53 - 1) 971.

Definition int64_of_float (x : f64) : Z :=
  match trunc x with
  | Some z => if (- 2 ^ 63 <=? z) && (z <? 2 ^ 63) then z else int64 (float_other x)
  | None => int64 (float_other x)
  end.

(** The value and the count of a state that is not a map. *)
Definition aggregateProcessStateHelper (currState : State) : f64 * Z :=
  match currState with
  | LState (CounterState v) => (float_of_int v, 1)
  | LState (CounterFloatState v) => (v, 1)
  | LState (AvgFullState sum nAdds) => (float_of_int sum, nAdds)
  | LState (AvgState v) => (v, 1)
  | _ => (f0, 0)
  end.

Definition stateValue (currState : State) (aggrKey : Key) : f64 * Z :=
  match currState with
  | LState (CounterState v) => (float_of_int v, 1)
  | LState (CounterFloatState v) => (v, 1)
  | LState (AvgFullState sum nAdds) => (float_of_int sum, nAdds)
  | LState (AvgState v) => (v, 1)
  | EmbMapGetValueState (Some s) => aggregateProcessStateHelper s
  | EmbMapGetValueState None => (f0, 0)
  | EmbMapEntryState states | EmbMapGetValuesState states =>
      match states !! aggrKey with
      | Some (Some s) => aggregateProcessStateHelper s
      | _ => (f0, 1)
      end
  | _ => (f0, 1)
  end.

Definition aggregateProcessState (currState : State) (aggregateType : AggregateType) (aggrKey : Key)
    (curr : f64 * Z) : f64 * Z :=
  let '(currResult, currCount) := curr in
  let '(valueCounter, valueCount) := stateValue currState aggrKey in
  match aggregateType with
  | M_SUM => (fadd currResult valueCounter, currCount)
  | M_AVG => (fadd currResult valueCounter, int64 (currCount + valueCount))
  | M_MAX => (if SFltb currResult valueCounter then valueCounter else currResult, currCount)
  | M_MIN => (if SFltb valueCounter currResult then valueCounter else currResult, currCount)
  end.

Definition prepareAggregateRead (aggregateType : AggregateType) : f64 * Z :=
  match aggregateType with
  | M_MIN => (MaxFloat64, 0)
  | M_MAX => (fneg MaxFloat64, 0)
  | _ => (f0, 0)
  end.

(** Nil states do not count. *)
Definition addState (aggregateType : AggregateType) (aggrKey : Key) (s : option State) (curr : f64 * Z)
  : f64 * Z :=
  match s with Some s => aggregateProcessState s aggregateType aggrKey curr | None => curr end.

Definition receiveRoutineReadsAndAggregate (routineCount : nat) (replChan : Chan)
    (aggregateType : AggregateType) (aggrKey : Key) (curr : f64 * Z) : (f64 * Z) * Chan :=
  (foldl (fun curr pr => addState aggregateType aggrKey pr.2 curr) curr (take routineCount replChan),
   drop routineCount replChan).

(** The loops without pending updates: the first component has what the small
    objects add up to, the second what goroutines will send. *)
Fixpoint aggregateEntries {A} (aggregateType : AggregateType) (aggrKey : Key)
    (one : A -> CRDT -> Result) (name : Key -> Key) (es : list (Key * CRDT * A)) (curr : f64 * Z)
    (spawned : Chan) : option ((f64 * Z) * Chan) :=
  match es with
  | [] => Some (curr, spawned)
  | (key, embCrdt, arg) :: es =>
      s ← one arg embCrdt;
      if IsBigCRDT embCrdt
      then aggregateEntries aggregateType aggrKey one name es curr (spawned ++ [(name key, s)])
      else aggregateEntries aggregateType aggrKey one name es (addState aggregateType aggrKey s curr) spawned
  end.

(** What [receiveRoutineReadsAndAggregate] returns is not used; without [receive]
    the pairs stay on the channel. *)
Definition aggregateCommitted {A} (receive : bool) (aggregateType : AggregateType) (aggrKey : Key)
    (one : A -> CRDT -> Result) (name : Key -> Key) (es : list (Key * CRDT * A)) (replChan : Chan)
  : option ((f64 * Z) * Chan) :=
  '(curr, spawned) ← aggregateEntries aggregateType aggrKey one name es (prepareAggregateRead aggregateType) [];
  let replChan := replChan ++ arrive spawned in
  Some (curr, if receive
              then (receiveRoutineReadsAndAggregate (length spawned) replChan aggregateType aggrKey curr).2
              else replChan).

Definition aggregateUpdated (aggregateType : AggregateType) (aggrKey : Key) (curr : f64 * Z)
    (s : option (option State)) : f64 * Z :=
  match s with Some s => addState aggregateType aggrKey s curr | None => curr end.

(** The loops over the pending updates and then over the other objects. *)
Definition aggregateAllPending (aggregateType : AggregateType) (aggrKey : Key)
    (fresh known other : CRDT -> list UpdArgs -> Result) (m : Map) (updsNotYetApplied : list UpdArgs)
  : option (f64 * Z) :=
  let applyByCRDT := prepareApplyByCRDTMap updsNotYetApplied in
  curr ← foldl (fun curr '(key, upds) =>
      curr ← curr; s ← readUpdated m key upds fresh known;
      Some (aggregateUpdated aggregateType aggrKey curr s))
    (Some (prepareAggregateRead aggregateType)) (map_to_list applyByCRDT);
  foldl (fun curr '(key, embCrdt) =>
      curr ← curr;
      if bool_decide (key ∈ dom applyByCRDT) then Some curr
      else s ← other embCrdt []; Some (addState aggregateType aggrKey s curr))
    (Some curr) (map_to_list (entries m)).

Definition aggregateKeysPending (aggregateType : AggregateType) (aggrKey : Key)
    (fresh known other : CRDT -> list UpdArgs -> Result) (m : Map) (updsNotYetApplied : list UpdArgs)
    (keys : list Key) : option (f64 * Z) :=
  let applyByCRDT := prepareApplyByCRDTMap updsNotYetApplied in
  foldl (fun curr key =>
      curr ← curr;
      match applyByCRDT !! key with
      | Some upds =>
          s ← readUpdated m key upds fresh known; Some (aggregateUpdated aggregateType aggrKey curr s)
      | None =>
          match entries m !! key with
          | Some embCrdt => s ← other embCrdt []; Some (addState aggregateType aggrKey s curr)
          | None => Some curr
          end
      end)
    (Some (prepareAggregateRead aggregateType)) keys.

Definition aggregateResult (aggregateType : AggregateType) (curr : f64 * Z) : State :=
  match aggregateType with
  | M_AVG => LState (AvgFullState (int64_of_float curr.1) curr.2)
  | _ => LState (CounterFloatState curr.1)
  end.

Definition finish (aggregateType : AggregateType) (r : option ((f64 * Z) * Chan)) : option (State * Chan) :=
  '(curr, replChan) ← r; Some (aggregateResult aggregateType curr, replChan).
Definition keepChan {A} (r : option A) (replChan : Chan) : option (A * Chan) := r ← r; Some (r, replChan).

Definition keyUnits (keys : list Key) : list (Key * unit) := (fun key => (key, tt)) <$> keys.

Definition getAggregateStateByReadArgsByKeys (m : Map) (upds : list UpdArgs) (aggregateType : AggregateType)
    (keys : list Key) (argForAll : ReadArgs) (aggrKey : Key) (replChan : Chan) : option (State * Chan) :=
  finish aggregateType
    (if isEmpty upds
     then aggregateCommitted true aggregateType aggrKey (fun _ c => rec argForAll c []) id
            (entriesOf m (keyUnits keys)) replChan
     else keepChan (aggregateKeysPending aggregateType aggrKey (rec argForAll) (rec argForAll) (rec argForAll)
                      m upds keys) replChan).

(** The pairs of goroutines have no key. *)
Definition getAggregateStateByReadArgs (m : Map) (upds : list UpdArgs) (aggregateType : AggregateType)
    (argForAll : ReadArgs) (aggrKey : Key) (replChan : Chan) : option (State * Chan) :=
  finish aggregateType
    (if isEmpty upds
     then aggregateCommitted true aggregateType aggrKey (fun _ c => rec argForAll c []) (fun _ => EmptyString)
            (allEntries m noKey) replChan
     else keepChan (aggregateAllPending aggregateType aggrKey (rec argForAll) (rec argForAll) (rec argForAll)
                      m upds) replChan).

(** An object that was not removed is read with all of the updates of the map. *)
Definition getAggregateStateByCompArgsByKeys (m : Map) (upds : list UpdArgs) (aggregateType : AggregateType)
    (keys : list Key) (compForAll : CompareArgs) (aggrKey : Key) (replChan : Chan) : option (State * Chan) :=
  finish aggregateType
    (if isEmpty upds
     then aggregateCommitted true aggregateType aggrKey (fun _ c => condRead compForAll c []) id
            (entriesOf m (keyUnits keys)) replChan
     else keepChan (aggregateKeysPending aggregateType aggrKey (condRead compForAll)
                      (fun c _ => condRead compForAll c upds) (condRead compForAll) m upds keys) replChan).

(** Nothing is received. *)
Definition getAggregateStateByCompArgs (m : Map) (upds : list UpdArgs) (aggregateType : AggregateType)
    (compForAll : CompareArgs) (aggrKey : Key) (replChan : Chan) : option (State * Chan) :=
  finish aggregateType
    (if isEmpty upds
     then aggregateCommitted false aggregateType aggrKey (fun _ c => condRead compForAll c [])
            (fun _ => EmptyString) (allEntries m noKey) replChan
     else keepChan (aggregateAllPending aggregateType aggrKey (condRead compForAll)
                      (fun c _ => condRead compForAll c upds) (condRead compForAll) m upds) replChan).

Definition getAggregateState (m : Map) (upds : list UpdArgs) (aggregateType : AggregateType)
    (keys : option (list Key)) (compForAll : option CompareArgs) (argForAll : ReadArgs) (aggrKey : Key)
    (replChan : Chan) : option (State * Chan) :=
  match keys, compForAll with
  | Some keys, None => getAggregateStateByReadArgsByKeys m upds aggregateType keys argForAll aggrKey replChan
  | Some keys, Some comp => getAggregateStateByCompArgsByKeys m upds aggregateType keys comp aggrKey replChan
  | None, None => getAggregateStateByReadArgs m upds aggregateType argForAll aggrKey replChan
  | None, Some comp => getAggregateStateByCompArgs m upds aggregateType comp aggrKey replChan
  end.

(** ** [Read] of one map *)

Definition entryState (r : option (States * Chan)) : option (option State * Chan) :=
  '(states, replChan) ← r; Some (Some (EmbMapEntryState states), replChan).
Definition valuesState (r : option (States * Chan)) : option (option State * Chan) :=
  '(states, replChan) ← r; Some (Some (EmbMapGetValuesState states), replChan).

Definition emb_Read (args : ReadArgs) (m : Map) (upds : list UpdArgs) (replChan : Chan)
  : option (option State * Chan) :=
  match args with
  | StateReadArguments => entryState (getState m upds replChan)
  | GetKeysArguments => keys ← getKeys m upds; Some (Some (MapKeysState keys), replChan)
  | EmbMapGetValueArguments key args => s ← getValue m upds key args; Some (Some (EmbMapGetValueState s), replChan)
  | HasKeyArguments key => Some (Some (MapHasKeyState (hasKey m upds key)), replChan)
  | GetValuesArguments keys => valuesState (getValues m upds keys replChan)
  | EmbMapPartialArguments args => valuesState (getPartialState m upds args replChan)
  | EmbMapPartialOnAllArguments arg => valuesState (getAllPartialState m upds arg replChan)
  | EmbMapConditionalReadArguments condArgs => entryState (getCondState m upds condArgs replChan)
  | EmbMapConditionalReadAllArguments condArgs => entryState (getAllCondState m upds condArgs replChan)
  | EmbMapExceptArguments exceptKeys arg => valuesState (getAllExcept m upds exceptKeys arg replChan)
  | EmbMapConditionalReadExceptArguments exceptKeys condArgs =>
      entryState (getExceptCondState m upds exceptKeys condArgs replChan)
  | EmbMapSingleExceptArguments exceptKey arg => valuesState (getExceptSingleState m upds exceptKey arg replChan)
  | EmbMapConditionalReadExceptSingleArguments exceptKey condArgs =>
      entryState (getExceptCondSingleState m upds exceptKey condArgs replChan)
  | EmbMapAggregateArguments aggregateType keys comp arg aggrKey =>
      '(s, replChan) ← getAggregateState m upds aggregateType keys comp arg aggrKey replChan;
      Some (Some s, replChan)
  | LRead _ => Some (None, replChan)
  end.
End read.

(** The reads that OR-maps share with these maps are not passed on to them. *)
Definition forLeafRead (args : ReadArgs) : ForLeaf (option LeafRead) :=
  match args with
  | LRead r => Own (Some r)
  | StateReadArguments => Own None
  | _ => Foreign
  end.

(** Embedded maps start with an empty channel. *)
Fixpoint Read (arrive : Chan -> Chan) (float_other : f64 -> Z) (fuel : nat) (args : ReadArgs) (c : CRDT)
    (upds : list UpdArgs) : Result :=
  match fuel with
  | O => None
  | S fuel =>
      match c with
      | Leaf l => s ← leaf_read l (forLeafRead args) (forLeaf <$> upds); Some (option_map LState s)
      | Emb m => '(s, _) ← emb_Read (Read arrive float_other fuel) arrive float_other args m upds []; Some s
      end
  end.
End reads.
