(* ===== verification/EmbMapReadsSpec.v ===== *)
(** * Maps with embedded objects: what reads show

    Reads of what is committed do not depend on which objects goroutines read,
    nor on the order in which they send ([goroutines_do_not_matter]), and end
    ([state_read_ends]).  With updates that are not applied yet, a read of the
    state has the keys of which the last update is not a remove
    ([state_has_the_keys_written]); a read of the value of a key panics
    ([value_read_panics]). *)

From S2P Require Import Prelude ClockSI Counters MultiArray FloatCounters EmbObjects EmbLeaves EmbMap EmbMapReads.
From Stdlib Require Import ZArith Lia Bool Permutation.
From stdpp Require Import base tactics numbers sets strings gmap list.
#[local] Open Scope Z_scope.

Section committed.
Context `{HL : Leaves}.
Abbreviation Map := (RWEmbMapCrdt CRDT).
Abbreviation Result := (option (option State)).
Abbreviation States := (gmap Key (option State)).
Abbreviation Chan := (list (Key * option State)).

(** *** Reads of what is committed *)

(** The results of a list of entries, kept in any order. *)
Definition keepAll (l : Chan) (states : States) : States := foldl (fun st pr => keep pr.1 pr.2 st) states l.

Lemma keep_lookup k s states k' :
  keep k s states !! k' = match s with Some s => if decide (k' = k) then Some (Some s) else states !! k'
                          | None => states !! k' end.
Proof.
  destruct s as [s|]; [|done]. simpl. destruct (decide (k' = k)) as [->|Hne].
  - by rewrite lookup_insert_eq.
  - by rewrite lookup_insert_ne.
Qed.

Lemma keepAll_lookup l states k :
  NoDup l.*1 ->
  keepAll l states !! k =
    match list_to_map (M := gmap Key (option State)) l !! k with
    | Some (Some s) => Some (Some s)
    | _ => states !! k
    end.
Proof.
  unfold keepAll. revert states. induction l as [|[k' s] l IH]; intros states Hnd; [done|].
  simpl in *. apply NoDup_cons in Hnd as [Hn Hnd]. rewrite IH by done. rewrite keep_lookup.
  destruct (decide (k = k')) as [->|Hne].
  - rewrite lookup_insert_eq. apply not_elem_of_list_to_map_1 in Hn. rewrite Hn. by destruct s.
  - rewrite lookup_insert_ne by done.
    destruct (list_to_map l !! k) as [[s'|]|]; [done|by destruct s..].
Qed.

Context {A : Type} (one : A -> CRDT -> Result).

(** The pairs that the loop reads, of small objects and of big ones. *)
Lemma readEntries_spec es states spawned states' spawned' :
  readEntries one es states spawned = Some (states', spawned') ->
  exists small big, states' = keepAll small states /\ spawned' = spawned ++ big /\
    exists ps, Forall2 (fun (e : Key * CRDT * A) (p : Key * option State) =>
        p.1 = e.1.1 /\ one e.2 e.1.2 = Some p.2) es ps /\ ps ≡ₚ small ++ big.
Proof.
  revert states spawned. induction es as [|[[key c] arg] es IH]; intros states spawned E; simpl in E.
  - injection E as <- <-. exists [], []. split_and!; [done|by rewrite app_nil_r|]. by exists [].
  - destruct (one arg c) as [s|] eqn:Es; [|done]. simpl in E. destruct (IsBigCRDT c).
    + destruct (IH _ _ E) as (small & big & -> & -> & ps & Hps & Hp).
      exists small, ((key, s) :: big). split_and!; [done|by rewrite <- app_assoc|].
      exists ((key, s) :: ps). split; [by constructor|]. rewrite Hp. apply Permutation_middle.
    + destruct (IH _ _ E) as (small & big & -> & -> & ps & Hps & Hp).
      exists ((key, s) :: small), big. split_and!; [done|done|].
      exists ((key, s) :: ps). split; [by constructor|]. by rewrite Hp.
Qed.

Lemma readEntries_total es states spawned :
  (forall e, e ∈ es -> is_Some (one e.2 e.1.2)) -> is_Some (readEntries one es states spawned).
Proof.
  revert states spawned. induction es as [|[[key c] arg] es IH]; intros states spawned H; [by eexists|].
  simpl. destruct (H (key, c, arg)) as [s Es]; [by left|]. simpl in Es. rewrite Es. simpl.
  destruct (IsBigCRDT c); apply IH; intros e He; apply H; by right.
Qed.

Lemma Forall2_map_to_list (es : list (Key * CRDT * A)) (ps : Chan) k :
  Forall2 (fun e p => p.1 = e.1.1 /\ one e.2 e.1.2 = Some p.2) es ps -> NoDup es.*1.*1 ->
  (forall e, e ∈ es -> e.1.1 = k -> list_to_map (M := gmap Key (option State)) ps !! k = one e.2 e.1.2) /\
  (k ∉ es.*1.*1 -> list_to_map (M := gmap Key (option State)) ps !! k = None).
Proof.
  induction 1 as [|e p es ps [Ek Eo] _ IH]; intros Hnd.
  { split; [|done]. by intros e He%not_elem_of_nil. }
  simpl in Hnd. apply NoDup_cons in Hnd as [Hn Hnd]. destruct (IH Hnd) as [IH1 IH2].
  destruct p as [k' s]. simpl in *. subst k'. split.
  - intros e' [->|He']%elem_of_cons Ek.
    + rewrite Ek, lookup_insert_eq. by rewrite Eo.
    + rewrite lookup_insert_ne; [by apply IH1|]. intros E. apply Hn. rewrite E, <- Ek.
      apply list_elem_of_fmap. exists e'.1. split; [done|]. by apply list_elem_of_fmap_2.
  - intros [Hne Hk]%not_elem_of_cons. rewrite lookup_insert_ne by done. by apply IH2.
Qed.

Lemma readCommitted_spec arrive es states chan' :
  (forall l, arrive l ≡ₚ l) -> NoDup es.*1.*1 ->
  readCommitted arrive one es [] = Some (states, chan') ->
  chan' = [] /\ forall k,
    (forall e, e ∈ es -> e.1.1 = k -> states !! k = (s ← one e.2 e.1.2; s ← s; Some (Some s))) /\
    (k ∉ es.*1.*1 -> states !! k = None).
Proof.
  intros Harr Hnd E. unfold readCommitted in E.
  destruct (readEntries one es ∅ []) as [[st sp]|] eqn:Er; [|done]. simpl in E.
  apply readEntries_spec in Er as (small & big & -> & -> & ps & Hps & Hp).
  unfold receiveRoutineReads in E. simpl in E.
  assert (length big = length (arrive big)) as Hlen by by rewrite (Permutation_length (Harr big)).
  rewrite Hlen, take_ge, drop_ge in E by done. injection E as <- <-. split; [done|].
  assert (ps.*1 = es.*1.*1) as Hkeys.
  { clear -Hps. induction Hps as [|e p es ps [Ek _] _ IH]; [done|]. by rewrite !fmap_cons, Ek, IH. }
  assert (small ++ arrive big ≡ₚ ps) as Hp' by by rewrite Hp, Harr.
  assert (NoDup (small ++ arrive big).*1) as Hnd' by (rewrite Hp', Hkeys; done).
  assert (foldl (fun st pr => keep pr.1 pr.2 st) (keepAll small ∅) (arrive big) =
    keepAll (small ++ arrive big) ∅) as -> by by unfold keepAll; rewrite foldl_app.
  intros k. rewrite keepAll_lookup by done.
  rewrite (list_to_map_proper _ ps Hnd' Hp'). destruct (Forall2_map_to_list es ps k Hps Hnd) as [H1 H2].
  split.
  - intros e He Ek. rewrite (H1 e He Ek). destruct (one e.2 e.1.2) as [[s|]|]; by rewrite ?lookup_empty.
  - intros Hk. by rewrite (H2 Hk), lookup_empty.
Qed.
End committed.

Section spec.
Context `{HL : Leaves}.
Abbreviation Map := (RWEmbMapCrdt CRDT).
Abbreviation Result := (option (option State)).
Abbreviation States := (gmap Key (option State)).
Abbreviation Chan := (list (Key * option State)).

Lemma elem_of_allEntries m skip e :
  e ∈ allEntries m skip <-> entries m !! e.1.1 = Some e.1.2 /\ skip e.1.1 = false.
Proof.
  unfold allEntries. rewrite list_elem_of_fmap. split.
  - intros ([k c] & -> & [Hs Hin]%list_elem_of_filter). by apply elem_of_map_to_list in Hin.
  - destruct e as [[k c] []]. simpl. intros [Hin Hs]. exists (k, c). split; [done|].
    apply list_elem_of_filter. split; [done|]. by apply elem_of_map_to_list.
Qed.

Lemma allEntries_NoDup m skip : NoDup (allEntries m skip).*1.*1.
Proof.
  assert ((allEntries m skip).*1 = filter (fun e => skip e.1 = false) (map_to_list (entries m))) as ->.
  { unfold allEntries. generalize (filter (fun e : Key * CRDT => skip e.1 = false) (map_to_list (entries m))).
    intros l. induction l as [|e l IH]; [done|]. by rewrite !fmap_cons, IH. }
  apply NoDup_fmap_fst.
  - intros k c1 c2 [_ H1]%list_elem_of_filter [_ H2]%list_elem_of_filter.
    apply elem_of_map_to_list in H1, H2. congruence.
  - apply NoDup_filter, NoDup_map_to_list.
Qed.


(** *** Reads end *)

Lemma readAll_mono (arrive : Chan -> Chan) put skip (one1 one2 : CRDT -> list UpdArgs -> Result) m r :
  (forall c s, one1 c [] = Some s -> one2 c [] = Some s) ->
  readAll arrive put skip one1 m [] [] = Some r -> readAll arrive put skip one2 m [] [] = Some r.
Proof.
  intros Hone. unfold readAll, isEmpty, readCommitted.
  assert (forall es st sp r, readEntries (A := unit) (fun _ c => one1 c []) es st sp = Some r ->
    readEntries (fun _ c => one2 c []) es st sp = Some r) as Hr.
  { induction es as [|[[k c] []] es IH]; intros st sp r' E; [done|]. simpl in *.
    destruct (one1 c []) as [s|] eqn:Es; [|done]. rewrite (Hone _ _ Es). simpl in *.
    destruct (IsBigCRDT c); by apply IH. }
  destruct (readEntries (fun _ c => one1 c []) _ _ _) as [p|] eqn:E; [|done].
  by rewrite (Hr _ _ _ _ E).
Qed.

Lemma state_read_mono arrive fo fuel fuel' c s :
  (fuel <= fuel')%nat -> Read arrive fo fuel StateReadArguments c [] = Some s ->
  Read arrive fo fuel' StateReadArguments c [] = Some s.
Proof.
  revert fuel' c s. induction fuel as [|fuel IH]; intros [|fuel'] c s Hle E; try done; [lia|].
  cbn [Read] in *. destruct c as [l|m]; [done|]. cbn [emb_Read] in *. unfold entryState, getState in *.
  destruct (readAll arrive putState noKey (Read arrive fo fuel StateReadArguments) m [] []) as [r|] eqn:Er;
    [|done].
  rewrite (readAll_mono _ _ _ (Read arrive fo fuel StateReadArguments)
    (Read arrive fo fuel' StateReadArguments) m r); [done| |done].
  intros c' s' Es. apply IH; [lia|done].
Qed.

Context `{HLaws : !LeafLaws}.

(** A read of the state of a well-typed object with nothing pending ends and
    shows a state: some number of nested reads is enough, whatever is in the
    maps. *)
Theorem state_read_ends (arrive : Chan -> Chan) fo (s : Schema) (c : CRDT) :
  (forall l, arrive l ≡ₚ l) ->
  (forall l, leaf_supported (leaf_type l) -> exists st, leaf_read l (Own None) [] = Some (Some st)) ->
  schema_ok s -> crdt_ok s c ->
  exists fuel st, Read arrive fo fuel StateReadArguments c [] = Some (Some st).
Proof.
  intros Harr Hleaf Hs. revert c. induction Hs as [t Ht|f Hf IH]; intros c Hc.
  - inversion Hc as [? l El|]; subst. destruct (Hleaf l Ht) as [st E].
    exists 1%nat, (LState st). simpl. by rewrite E.
  - inversion Hc as [|? m Hm]; subst.
    assert (exists fuel, forall k c, entries m !! k = Some c ->
      exists st, Read arrive fo fuel StateReadArguments c [] = Some (Some st)) as [fuel Hfuel].
    { clear Hc. destruct m as [es rm clk rid kr]. simpl in *. induction es as [|k c es Hk IHes] using map_ind.
      - exists O. intros k c Hkc. by rewrite lookup_empty in Hkc.
      - destruct IHes as [n Hn].
        { intros k' c' Hk'. apply Hm. rewrite lookup_insert_ne; [done|congruence]. }
        destruct (IH k c) as (n' & st & E); [apply Hm; by rewrite lookup_insert_eq|].
        exists (Nat.max n n'). intros k' c' Hk'.
        destruct (decide (k = k')) as [->|Hne].
        + rewrite lookup_insert_eq in Hk'. injection Hk' as <-. exists st.
          apply (state_read_mono _ _ n'); [lia|done].
        + rewrite lookup_insert_ne in Hk' by done. destruct (Hn k' c' Hk') as [st' E'].
          exists st'. apply (state_read_mono _ _ n); [lia|done]. }
    destruct (readEntries_total (fun _ c => Read arrive fo fuel StateReadArguments c [])
      (allEntries m noKey) ∅ []) as [[st sp] Er].
    { intros e [He _]%elem_of_allEntries. destruct (Hfuel _ _ He) as [st E]. by exists (Some st). }
    exists (S fuel). eexists. cbn [Read emb_Read]. unfold entryState, getState, readAll, isEmpty, readCommitted.
    rewrite Er. simpl. done.
Qed.
End spec.

(** *** With updates that are not applied yet *)

Section pending.
Context `{HL : Leaves}.
Abbreviation Map := (RWEmbMapCrdt CRDT).
Abbreviation Result := (option (option State)).
Abbreviation States := (gmap Key (option State)).
Abbreviation Chan := (list (Key * option State)).

(** Clients cannot send [NoOp], which marks a remove. *)
Definition no_noop (u : UpdArgs) : Prop :=
  match u with
  | EmbMapUpdate _ u => u <> NoOp
  | EmbMapUpdateAll es => Forall (fun e => e.2 <> NoOp) es
  | _ => True
  end.

(** Whether the key is there, when these are the updates for it. *)
Definition present (m : Map) (key : Key) (upds : option (list UpdArgs)) : bool :=
  match upds with
  | None => bool_decide (key ∈ dom (entries m))
  | Some [NoOp] => false
  | Some _ => true
  end.

(** What is recorded of a key. *)
Definition recorded_ok (o : option (list UpdArgs)) : Prop := o <> Some [].

Lemma present_snoc m key l u : l <> [] \/ u <> NoOp -> present m key (Some (l ++ [u])) = true.
Proof. destruct l as [|v [|w l]], u; intros [H|H]; try done; by destruct v. Qed.

Lemma addUpd_lookup ab e k :
  addUpd ab e !! k = if decide (k = e.1) then Some (default [] (ab !! k) ++ [e.2]) else ab !! k.
Proof.
  unfold addUpd. destruct (decide (k = e.1)) as [->|Hne]; [by rewrite lookup_insert_eq|].
  by rewrite lookup_insert_ne.
Qed.

Lemma addUpds_present m es ab k :
  Forall (fun e => e.2 <> NoOp) es -> (forall k, recorded_ok (ab !! k)) ->
  present m k (foldl addUpd ab es !! k) = (if decide (k ∈ es.*1) then true else present m k (ab !! k)) /\
  forall k, recorded_ok (foldl addUpd ab es !! k).
Proof.
  intros Hes. revert ab. induction Hes as [|e es He Hes IH]; intros ab Hab; [done|]. cbn [foldl].
  assert (forall k, recorded_ok (addUpd ab e !! k)) as Hab'.
  { intros k'. rewrite addUpd_lookup. destruct (decide (k' = e.1)); [|apply Hab].
    unfold recorded_ok. intros [= E]. by apply app_nil in E as [_ ?]. }
  destruct (IH _ Hab') as [E1 E2]. split; [|done]. rewrite E1, addUpd_lookup. cbn [fmap list_fmap].
  destruct (decide (k ∈ es.*1)) as [Hin|Hin].
  { rewrite decide_True; [done|]. by right. }
  destruct (decide (k = e.1)) as [->|Hne].
  - rewrite (decide_True (P := e.1 ∈ e.1 :: es.*1)) by by left. apply present_snoc. by right.
  - rewrite decide_False; [done|]. by intros [?|?]%elem_of_cons.
Qed.

Lemma addRemoves_present m ks ab k :
  (forall k, recorded_ok (ab !! k)) ->
  present m k (foldl addRemove ab ks !! k) = (if decide (k ∈ ks) then false else present m k (ab !! k)) /\
  forall k, recorded_ok (foldl addRemove ab ks !! k).
Proof.
  revert ab. induction ks as [|k' ks IH]; intros ab Hab; [done|]. cbn [foldl].
  assert (forall k, recorded_ok (addRemove ab k' !! k)) as Hab'.
  { intros x. unfold addRemove. destruct (decide (x = k')) as [->|Hne]; [by rewrite lookup_insert_eq|].
    rewrite lookup_insert_ne by done. apply Hab. }
  destruct (IH _ Hab') as [E1 E2]. split; [|done]. rewrite E1.
  destruct (decide (k ∈ ks)) as [Hin|Hin].
  { rewrite decide_True; [done|]. by right. }
  unfold addRemove. destruct (decide (k = k')) as [->|Hne].
  - rewrite lookup_insert_eq, decide_True by by left. done.
  - rewrite lookup_insert_ne by done. rewrite decide_False; [done|]. by intros [?|?]%elem_of_cons.
Qed.

(** [hasKey] answers by the last update of the key, and so does what is
    recorded. *)
Lemma prepare_present m upds k :
  Forall no_noop upds ->
  hasKey m upds k = present m k (prepareApplyByCRDTMap upds !! k) /\
  forall k, recorded_ok (prepareApplyByCRDTMap upds !! k).
Proof.
  unfold hasKey, prepareApplyByCRDTMap. induction upds as [|u upds IH] using rev_ind; intros Hu.
  { simpl. split; [by rewrite lookup_empty|]. intros k'. by rewrite lookup_empty. }
  apply Forall_app in Hu as [Hu Hn]. rewrite Forall_singleton in Hn.
  destruct (IH Hu) as [E Hok]. rewrite reverse_snoc, foldl_snoc. cbn [hasKeyLoop].
  set (ab := foldl prepareStep ∅ upds) in *.
  destruct u as [u|k' u|es|es|k'|ks| | |]; simpl prepareStep; try done.
  - destruct (addUpds_present m [(k', u)] ab k) as [P1 P2]; [by repeat constructor|done|].
    simpl foldl in P1, P2. split; [|done]. rewrite P1, E. simpl.
    destruct (decide (k = k')) as [->|Hne].
    + rewrite decide_True; [done|by left].
    + rewrite decide_False; [done|]. by intros [?|[]%not_elem_of_nil]%elem_of_cons.
  - destruct (addUpds_present m es ab k) as [P1 P2]; [done|done|]. split; [|done].
    rewrite P1, E. done.
  - destruct (addUpds_present m ((fun e => (e.1, EmbMapUpdate e.1 e.2)) <$> es) ab k) as [P1 P2];
      [|done|split; [|done]].
    { apply Forall_fmap, Forall_forall. done. }
    assert (((fun e => (e.1, EmbMapUpdate e.1 e.2)) <$> es).*1 = es.*1) as Hk
      by by clear; induction es as [|e es IH]; [|rewrite !fmap_cons, IH].
    rewrite P1, E. by rewrite Hk.
  - destruct (addRemoves_present m [k'] ab k) as [P1 P2]; [done|]. simpl foldl in P1, P2.
    split; [|done]. rewrite P1, E. destruct (decide (k = k')) as [->|Hne].
    + rewrite decide_True; [done|by left].
    + rewrite decide_False; [done|]. by intros [?|[]%not_elem_of_nil]%elem_of_cons.
  - destruct (addRemoves_present m ks ab k) as [P1 P2]; [done|]. split; [|done]. by rewrite P1, E.
Qed.

Lemma readUpdated_present m key upds fresh known s :
  upds <> [] -> readUpdated m key upds fresh known = Some s ->
  present m key (Some upds) = bool_decide (is_Some s).
Proof.
  intros Hne E. unfold readUpdated in E. destruct upds as [|u [|v upds]]; [done|..].
  - destruct u; simpl in *; try (injection E as <-; done);
      repeat match type of E with
      | (match ?x with _ => _ end) = Some _ => destruct x
      | mbind _ ?x = Some _ => destruct x as [?|]; simpl in E
      end; simplify_eq; try done.
  - assert (present m key (Some (u :: v :: upds)) = true) as -> by by destruct u.
    destruct u; simpl in *;
      repeat match type of E with
      | mbind _ ?x = Some _ => destruct x as [?|]; simpl in E
      | (let '(_, _) := ?x in _) = Some _ => destruct x
      end; simplify_eq; done.
Qed.

(** The two loops of a read of everything. *)
Lemma updated_keys m one (l : list (Key * list UpdArgs)) st0 st k :
  Forall (fun e => e.2 <> []) l ->
  foldl (fun states '(key, upds) =>
      states ← states;
      if noKey key then Some states
      else s ← readUpdated m key upds one one; Some (putUpdated putState key s states))
    (Some st0) l = Some st ->
  k ∈ dom st <-> k ∈ dom st0 \/ exists upds, (k, upds) ∈ l /\ present m k (Some upds) = true.
Proof.
  intros Hl. revert st0. induction Hl as [|[k' upds] l Hne Hl IH]; intros st0 E.
  { simpl in E. injection E as ->. split; [by left|]. by intros [?|(? & ?%not_elem_of_nil & _)]. }
  simpl in E, Hne. destruct (readUpdated m k' upds one one) as [s|] eqn:Es; simpl in E.
  - rewrite (IH _ E). pose proof (readUpdated_present _ _ _ _ _ _ Hne Es) as Hp.
    setoid_rewrite elem_of_cons. destruct s as [s|]; simpl putUpdated.
    + unfold putState. rewrite dom_insert, elem_of_union, elem_of_singleton.
      rewrite bool_decide_true in Hp by by eexists. naive_solver.
    + rewrite bool_decide_false in Hp by by intros [? ?]. split; [naive_solver|].
      intros [?|(u & [[= -> ->]|?] & Hu)]; [by left|congruence|naive_solver].
  - exfalso. clear -E. induction l as [|[? ?] l IH]; simpl in E; [done|by apply IH].
Qed.

Lemma other_keys (one : CRDT -> list UpdArgs -> Result) (ab : gmap Key (list UpdArgs)) l st0 st k :
  foldl (fun states '(key, embCrdt) =>
      states ← states;
      if bool_decide (key ∈ dom ab) || noKey key then Some states
      else s ← one embCrdt []; Some (putState key s states))
    (Some st0) l = Some st ->
  k ∈ dom st <-> k ∈ dom st0 \/ k ∈ l.*1 /\ k ∉ dom ab.
Proof.
  revert st0. induction l as [|[k' c] l IH]; intros st0 E.
  { simpl in E. injection E as ->. split; [by left|]. by intros [?|[?%not_elem_of_nil _]]. }
  simpl in E. rewrite fmap_cons, elem_of_cons. simpl. unfold noKey in E at 2. rewrite orb_false_r in E.
  destruct (bool_decide (k' ∈ dom ab)) eqn:Ed.
  - apply bool_decide_eq_true in Ed. rewrite (IH _ E). naive_solver.
  - apply bool_decide_eq_false in Ed. destruct (one c []) as [s|]; simpl in E.
    + rewrite (IH _ E). unfold putState. rewrite dom_insert, elem_of_union, elem_of_singleton. naive_solver.
    + exfalso. clear -E. induction l as [|[? ?] l IH]; simpl in E; [done|by apply IH].
Qed.

(** A transaction that updated a map and then reads its state sees the keys
    that it wrote: a key is in the state exactly when the last of its updates of
    the key is not a remove or, without updates of the key, when the map has it;
    [hasKey] answers the same. *)
Theorem state_has_the_keys_written rec arrive (m : Map) (upds : list UpdArgs) (replChan replChan' : Chan)
    (states : States) (k : Key) :
  upds <> [] -> Forall no_noop upds -> getState rec arrive m upds replChan = Some (states, replChan') ->
  k ∈ dom states <-> hasKey m upds k = true.
Proof.
  intros Hne Hu E. destruct (prepare_present m upds k Hu) as [Hk Hok]. rewrite Hk.
  unfold getState, readAll in E. destruct upds as [|u upds]; [done|]. cbn [isEmpty] in E.
  unfold pending, readAllPending in E. set (ab := prepareApplyByCRDTMap (u :: upds)) in *.
  destruct (foldl _ (Some ∅) _) as [st|] eqn:E1; [|done]. cbn in E.
  destruct (foldl _ (Some st) _) as [st'|] eqn:E2; [|done]. cbn in E. injection E as <- <-.
  apply (other_keys _ ab _ _ _ k) in E2. apply (updated_keys m _ _ _ _ k) in E1.
  - rewrite E2, E1, dom_empty, elem_of_empty. unfold present. split.
    + intros [[[]|(l & Hl%elem_of_map_to_list & Hp)]|[Hin Hn]]; [by rewrite Hl|].
      apply not_elem_of_dom in Hn. rewrite Hn. apply bool_decide_eq_true.
      apply list_elem_of_fmap in Hin as ([k' c] & -> & Hc%elem_of_map_to_list). by apply elem_of_dom_2 in Hc.
    + destruct (ab !! k) as [l|] eqn:El.
      * intros Hp. left. right. exists l. split; [by apply elem_of_map_to_list|done].
      * intros Hin%bool_decide_eq_true. right. split; [|by apply not_elem_of_dom].
        apply elem_of_dom in Hin as [c Hc]. apply list_elem_of_fmap. exists (k, c).
        split; [done|by apply elem_of_map_to_list].
  - apply Forall_forall. intros [k' l] Hl%elem_of_map_to_list E. simpl in E. subst l. by apply (Hok k').
Qed.

(** *** The value of a key *)

Definition removesKey (key : Key) (u : UpdArgs) : bool :=
  match u with
  | MapRemove k => bool_decide (key = k)
  | MapRemoveAll ks => bool_decide (key ∈ ks)
  | _ => false
  end.

Lemma collectKeyUpds_grows key upds l :
  Forall (fun u => removesKey key u = false) upds ->
  exists rest, foldl (keyUpdsStep key) l upds = l ++ rest.
Proof.
  intros Hu. revert l. induction Hu as [|u upds Hu _ IH]; intros l; [exists []; by rewrite app_nil_r|].
  cbn [foldl]. assert (exists r, keyUpdsStep key l u = l ++ r) as [r ->].
  { destruct u as [u|k u|es|es|k|ks| | |]; simpl in *; try (exists []; by rewrite app_nil_r); try (by eexists).
    - destruct (decide _); [by eexists|exists []; by rewrite app_nil_r].
    - apply bool_decide_eq_false in Hu. rewrite decide_False by done. exists []. by rewrite app_nil_r.
    - apply bool_decide_eq_false in Hu. rewrite decide_False by done. exists []. by rewrite app_nil_r. }
  destruct (IH (l ++ r)) as [r' ->]. exists (r ++ r'). by rewrite app_assoc.
Qed.

(** A transaction that sent two updates or more to a map, none of which
    removes a key, panics when it reads the value of that key, whatever is in the
    map and whatever part of the value it reads. *)
Theorem value_read_panics rec (m : Map) (upds : list UpdArgs) (key : Key) (args : ReadArgs) :
  (1 < length upds)%nat -> Forall (fun u => removesKey key u = false) upds ->
  getValue rec m upds key args = None.
Proof.
  intros Hl Hu. unfold getValue. destruct upds as [|u [|v upds]]; simpl in Hl; [lia..|].
  set (us := u :: v :: upds) in *. unfold collectKeyUpds.
  destruct (collectKeyUpds_grows key us
    (replicate (Nat.min (length us) INITIAL_UPDSNOTAPPLIED_SIZE) NilUpd) Hu) as [rest ->].
  unfold us, INITIAL_UPDSNOTAPPLIED_SIZE. simpl. done.
Qed.
End pending.

(** *** Aggregates *)

Section aggregates.
Context `{HL : Leaves}.
Abbreviation Map := (RWEmbMapCrdt CRDT).
Abbreviation Result := (option (option State)).
Abbreviation Chan := (list (Key * option State)).

Lemma aggregateEntries_big {A} t aggrKey (one : A -> CRDT -> Result) name es curr spawned :
  Forall (fun e => IsBigCRDT e.1.2 = true /\ is_Some (one e.2 e.1.2)) es ->
  exists spawned', aggregateEntries t aggrKey one name es curr spawned = Some (curr, spawned').
Proof.
  intros Hes. revert spawned. induction Hes as [|[[k c] a] es [Hb [s Es]] _ IH]; intros spawned; [by eexists|].
  simpl in *. rewrite Es. simpl. rewrite Hb. apply IH.
Qed.

(** What goroutines read is left out of an aggregate: over a map of big objects
    it is that of an empty map, whatever is in the objects. *)
Lemma aggregate_of_big_objects rec arrive fo (m : Map) t arg aggrKey replChan :
  (forall k c, entries m !! k = Some c -> IsBigCRDT c = true /\ is_Some (rec arg c [])) ->
  exists replChan', getAggregateState rec arrive fo m [] t None None arg aggrKey replChan =
    Some (aggregateResult fo t (prepareAggregateRead t), replChan').
Proof.
  intros Hbig. unfold getAggregateState, getAggregateStateByReadArgs, isEmpty, aggregateCommitted.
  destruct (aggregateEntries_big t aggrKey (fun (_ : unit) c => rec arg c []) (fun _ => EmptyString)
    (allEntries m noKey) (prepareAggregateRead t) []) as [sp E].
  - apply Forall_forall. intros [[k c] []] [Hc _]%elem_of_allEntries. by apply (Hbig k).
  - rewrite E. simpl. by eexists.
Qed.

(** Without [receive] the pairs of the goroutines are still on the channel after
    the read, and come first in the next one. *)
Lemma unreceived_pairs_stay rec arrive fo (m : Map) t comp aggrKey replChan k c s :
  entries m = {[k := c]} -> IsBigCRDT c = true -> getStateIfCondition rec c [] comp = Some s ->
  exists st, getAggregateState rec arrive fo m [] t None (Some comp) StateReadArguments aggrKey replChan =
    Some (st, replChan ++ arrive [(EmptyString, s)]).
Proof.
  intros Em Hb Es. unfold getAggregateState, getAggregateStateByCompArgs, isEmpty, aggregateCommitted, allEntries.
  rewrite Em, map_to_list_singleton. simpl.
  unfold condRead. rewrite Es. simpl. rewrite Hb. simpl. by eexists.
Qed.
End aggregates.

(** ** Examples *)

#[local] Existing Instance no_rest.

Definition shop : RWEmbMapCrdt CRDT :=
  mkEmb {["pears"%string := Leaf (OCounter (Counter.mkCounter 3))]} ∅ ∅ 1 None.
Definition no_float (_ : f64) : Z := 0.
Definition leafRead : CRDT -> list UpdArgs -> option (option State) :=
  Read reverse no_float 1 StateReadArguments.


Lemma state_read_ends_witness :
  exists fuel st, Read reverse no_float fuel StateReadArguments (Emb shop) [] = Some (Some st).
Proof.
  apply (state_read_ends (HLaws := leaf_laws (HT := no_rest_types)) reverse no_float
    (SMap (fun _ => SLeaf COUNTER)) (Emb shop)).
  - intros l. apply reverse_Permutation.
  - intros [c|c|c|c|c|[]]; intros _; by eexists.
  - constructor. intros _. constructor. by left.
  - constructor. intros k c Hc. unfold shop in Hc; cbn [entries] in Hc; apply lookup_singleton_Some in Hc as [_ <-]. by constructor.
Defined.

Definition two_updates : list UpdArgs :=
  [EmbMapUpdate "apples"%string (LUpd (UCounter (Counter.Increment 2))); MapRemove "pears"%string].

Lemma state_has_the_keys_written_witness :
  exists states, getState (Read reverse no_float 1) reverse shop two_updates [] = Some (states, []) /\
    ("apples"%string ∈ dom states <-> hasKey shop two_updates "apples" = true) /\
    ("pears"%string ∈ dom states <-> hasKey shop two_updates "pears" = true).
Proof.
  destruct (getState (Read reverse no_float 1) reverse shop two_updates []) as [[states ch]|] eqn:E.
  - assert (ch = []) as ->.
    { unfold getState, readAll, pending in E. cbn [two_updates isEmpty] in E.
      destruct (readAllPending _ _ _ _ _) as [st|]; [|done]. by injection E. }
    exists states. split; [done|].
    assert (Forall no_noop two_updates) as Hn by by repeat constructor.
    assert (two_updates <> []) as Hne by discriminate.
    split.
    + exact (state_has_the_keys_written (Read reverse no_float 1) reverse shop two_updates [] []
        states "apples"%string Hne Hn E).
    + exact (state_has_the_keys_written (Read reverse no_float 1) reverse shop two_updates [] []
        states "pears"%string Hne Hn E).
  - assert (match getState (Read reverse no_float 1) reverse shop two_updates [] with
            | Some _ => true | None => false end = true) as Hs by (vm_compute; reflexivity).
    by rewrite E in Hs.
Defined.

Lemma value_read_panics_witness :
  getValue (Read reverse no_float 5) shop
    [EmbMapUpdate "pears"%string (LUpd (UCounter (Counter.Increment 2)));
     EmbMapUpdate "pears"%string (LUpd (UCounter (Counter.Increment 2)))] "pears"%string StateReadArguments = None.
Proof. apply (value_read_panics (Read reverse no_float 5) shop); [simpl; lia|by repeat constructor]. Defined.

(** The loop of [applyUpdates]: each update is prepared after the one before it
    has been applied. *)
Definition commit (upds : list UpdArgs) (m : RWEmbMapCrdt CRDT) : option CRDT :=
  foldl (fun c u => c ← c; d ← Update (fun _ => mkEnv 1 1 tt) u c; '(c, _) ← Downstream d c; Some c)
    (Some (Emb m)) upds.

Definition has_key (c : option CRDT) (key : Key) : bool :=
  match c with Some (Emb m) => bool_decide (key ∈ dom (entries m)) | _ => false end.

(** A transaction that removes a key and then updates it reads the key, and keeps
    it when it commits: the update has seen the remove. *)
Example remove_then_update_is_kept :
  let upds := [MapRemove "pears"%string; EmbMapUpdate "pears"%string (LUpd (UCounter (Counter.Increment 2)))] in
  hasKey shop upds "pears" = true /\ has_key (commit [MapRemove "pears"%string] shop) "pears" = false /\
  has_key (commit upds shop) "pears" = true.
Proof. split_and!; vm_compute; reflexivity. Qed.
