(* ===== verification/Pointers.v ===== *)
(** * Pointers

    A store of cells and the functions that allocate, read and write them.  A
    pointer is the number of its cell; cells are never freed, as Go's garbage
    collector keeps every cell that something points to. *)

From S2P Require Import Prelude.
From Stdlib Require Import ZArith Lia Bool.
From stdpp Require Import base tactics numbers gmap list.
#[local] Open Scope Z_scope.

(** [None] is a panic. *)
Definition ST (V A : Type) : Type := list V -> option (A * list V).

#[export] Instance ST_ret V : MRet (ST V) := fun A x st => Some (x, st).
#[export] Instance ST_bind V : MBind (ST V) := fun A B f m st =>
  match m st with Some (x, st) => f x st | None => None end.

Section store.
Context {V : Type}.

Definition panic {A} : ST V A := fun _ => None.
Definition of_option {A} (o : option A) : ST V A := fun st => match o with Some x => Some (x, st) | None => None end.
Definition new (v : V) : ST V nat := fun st => Some (length st, st ++ [v]).
Definition load (p : nat) : ST V V := fun st => match st !! p with Some v => Some (v, st) | None => None end.
Definition store (p : nat) (v : V) : ST V unit := fun st =>
  match st !! p with Some _ => Some (tt, <[p := v]> st) | None => None end.
Definition modify (p : nat) (f : V -> V) : ST V unit := v ← load p; store p (f v).

Fixpoint loadAll (ps : list nat) : ST V (list V) :=
  match ps with
  | [] => mret []
  | p :: ps => v ← load p; vs ← loadAll ps; mret (v :: vs)
  end.

(** [for _, a := range l { s = f(s, a) }]. *)
Fixpoint loopST {A S} (f : S -> A -> ST V S) (s : S) (l : list A) : ST V S :=
  match l with
  | [] => mret s
  | a :: l => s ← f s a; loopST f s l
  end.

(** What a map of pointers shows. *)
Definition view `{Countable K} (st : list V) (m : gmap K nat) : gmap K V := omap (fun p => st !! p) m.
End store.

(** ** What the functions do to the store *)

Section facts.
Context {V : Type} `{Countable K}.
Implicit Types (st : list V) (m : gmap K nat).

Definition valid st m : Prop := forall k p, m !! k = Some p -> is_Some (st !! p).

Lemma load_ok st p v : st !! p = Some v -> load p st = Some (v, st).
Proof. unfold load. by intros ->. Qed.

Lemma store_ok st p v w : st !! p = Some w -> store p v st = Some (tt, <[p := v]> st).
Proof. unfold store. by intros ->. Qed.

Lemma modify_ok st p f w : st !! p = Some w -> modify p f st = Some (tt, <[p := f w]> st).
Proof. intros E. unfold modify, mbind, ST_bind. rewrite (load_ok st p w E). by eapply store_ok. Qed.

Lemma loadAll_ok st ps :
  Forall (fun p => is_Some (st !! p)) ps ->
  exists vs, loadAll ps st = Some (vs, st) /\ Forall2 (fun p v => st !! p = Some v) ps vs.
Proof.
  induction 1 as [|p ps [v Hv] _ (vs & E & Hvs)]; [by exists []|].
  exists (v :: vs). split; [|by constructor]. cbn [loadAll]. unfold mbind, ST_bind.
  by rewrite (load_ok st p v Hv), E.
Qed.

(** Reading the elements of a map, in any order. *)
Lemma loadAll_view st m ps :
  ps ≡ₚ (map_to_list m).*2 -> valid st m ->
  exists vs, loadAll ps st = Some (vs, st) /\ vs ≡ₚ (map_to_list (view st m)).*2.
Proof.
  intros Hp Hv. destruct (loadAll_ok st ps) as (vs & E & Hvs).
  { apply Forall_forall. intros p Hin. rewrite Hp in Hin.
    apply list_elem_of_fmap in Hin as ([k q] & -> & Hin). apply elem_of_map_to_list in Hin. by eapply Hv. }
  exists vs. split; [done|].
  assert (omap (fun p => st !! p) ps = vs) as <-.
  { clear E Hp. induction Hvs as [|p v ps vs Hpv _ IH]; simpl; [done|]. rewrite Hpv. f_equal. exact IH. }
  rewrite Hp. unfold view. clear. induction m as [|k p m Hk IH] using map_ind.
  - by rewrite omap_empty, !map_to_list_empty.
  - rewrite map_to_list_insert by done. simpl.
    destruct (st !! p) as [v|] eqn:E.
    + rewrite (omap_insert_Some _ m k p v) by done. rewrite map_to_list_insert by (by rewrite lookup_omap, Hk).
      simpl. f_equiv. exact IH.
    + rewrite (omap_insert_None _ m k p) by done. rewrite delete_id by (by rewrite lookup_omap, Hk). exact IH.
Qed.

Lemma lookup_view st m k : view st m !! k = m !! k ≫= (fun p => st !! p).
Proof. unfold view. by rewrite lookup_omap. Qed.

Lemma view_new st m v : valid st m -> view (st ++ [v]) m = view st m.
Proof.
  intros Hv. apply map_eq. intros k. rewrite !lookup_view. destruct (m !! k) as [p|] eqn:E; [|done]; simpl.
  destruct (Hv k p E) as [w Hw]. rewrite lookup_app_l by (by eapply lookup_lt_Some). done.
Qed.

Lemma view_store st m k p v w :
  m !! k = Some p -> st !! p = Some w -> (forall k', m !! k' = Some p -> k' = k) ->
  view (<[p := v]> st) m = <[k := v]> (view st m).
Proof.
  intros E Hw Hinj. apply map_eq. intros k'. rewrite lookup_view. destruct (decide (k' = k)) as [-> | Hne].
  - rewrite E, lookup_insert_eq. simpl. apply list_lookup_insert_eq. by eapply lookup_lt_Some.
  - rewrite lookup_insert_ne, lookup_view by done. destruct (m !! k') as [q|] eqn:E'; [|done]; simpl.
    apply list_lookup_insert_ne. intros <-. by apply Hne, Hinj.
Qed.

Lemma view_store_other st m p v :
  (forall k, m !! k <> Some p) -> view (<[p := v]> st) m = view st m.
Proof.
  intros Hn. apply map_eq. intros k. rewrite !lookup_view. destruct (m !! k) as [q|] eqn:E; [|done]; simpl.
  apply list_lookup_insert_ne. intros <-. by apply (Hn k).
Qed.

Lemma view_insert st m k p v : st !! p = Some v -> view st (<[k := p]> m) = <[k := v]> (view st m).
Proof. intros E. unfold view. by apply omap_insert_Some. Qed.

Lemma view_delete st m k : view st (delete k m) = delete k (view st m).
Proof. unfold view. by rewrite omap_delete. Qed.

Lemma view_dom st m : valid st m -> dom (view st m) = dom m.
Proof.
  intros Hv. apply set_eq. intros k. rewrite !elem_of_dom, lookup_view. destruct (m !! k) as [p|] eqn:E; simpl.
  - split; [done|]. intros _. by eapply Hv.
  - done.
Qed.
End facts.
