(* ===== verification/TopSum.v ===== *)
(** * The top-K object with sums: topSum.go (src/crdt/crdt)

    An element's score is the sum of what is added to it; [elems] are the
    [maxElems] highest, [notInTop] the others.  An add to a hidden element is
    sent to other replicas only when it may matter: until then the element's
    unsent sum is in [notPropagated].

    The three maps and [smallestScore] hold pointers, and share some: the store
    is that of Pointers.  A loop over a map goes in the order [range].  The flag
    and the scores of an operation are pointers that all its copies share,
    written when it is applied: an operation is returned as it then is. *)

From S2P Require Import Prelude Pointers TopK.
From Stdlib Require Import ZArith Lia Bool.
From stdpp Require Import base tactics numbers gmap sorting list.
#[local] Open Scope Z_scope.

Abbreviation M := (ST TopKScore).

Record TopSumCrdt := mkTopSum {
  maxElems : Z;
  smallestScore : option nat;
  elems : gmap Z nat;
  notInTop : gmap Z nat;
  notPropagated : gmap Z nat;
  replicaID : Z;
  sortedElems : option (list TopKScore)
}.

Inductive UpdArgs :=
  | TopSAdd (s : TopKScore)
  | TopSAddAll (Scores : list TopKScore)
  | TopSSub (s : TopKScore)
  | TopSSubAll (Scores : list TopKScore)
  | TopSInit (size : Z).

Inductive DownArgs :=
  | DownstreamTopSAdd (s : TopKScore) (replicate : bool) (srcReplicaID : Z)
  | DownstreamTopSAddAll (Scores : list TopKScore) (srcReplicaID : Z)
  | DownstreamTopSSub (s : TopKScore) (replicate : bool)
  | DownstreamTopSSubAll (Scores : list TopKScore)
  | DownTopSInit (size : Z).

Inductive Eff :=
  | TopSumAddEffect (newScore : TopKScore) (oldScore : Z) (oldMin : TopKScore)
  | TopSumAddNotTopEffect (newScore : TopKScore) (oldScore : Z)
  | TopSumAddReplaceEffect (newElem : TopKScore) (newElemOldScore : Z) (oldElem : TopKScore)
  | TopSumSubReplaceEffect (newElem : TopKScore) (newElemOldScore : Z) (oldElem oldMin : TopKScore)
  | NoEffect.

Definition MustReplicate (op : DownArgs) : bool :=
  match op with
  | DownstreamTopSAdd _ r _ | DownstreamTopSSub _ r => r
  | DownstreamTopSAddAll l _ | DownstreamTopSSubAll l => (0 <? length l)%nat
  | DownTopSInit _ => true
  end.

(** The second comparison is between an identifier and a score. *)
Definition isHigher (score other : TopKScore) : bool :=
  if Score score >? Score other then true
  else (Score score =? Score other) && (Id score >? Score other).

Definition addScore (v : Z) (s : TopKScore) : TopKScore := mkScore (Id s) (int32 (Score s + v)) (Data s).
Definition setScore (v : Z) (s : TopKScore) : TopKScore := mkScore (Id s) v (Data s).
Definition setData (d : option (list Z)) (s : TopKScore) : TopKScore := mkScore (Id s) (Score s) d.

Definition InitializeWithSize (replicaID size : Z) : TopSumCrdt :=
  mkTopSum size None ∅ ∅ ∅ replicaID None.
Definition defaultTopSSize : Z := 100.
Definition Initialize (replicaID : Z) : TopSumCrdt := InitializeWithSize replicaID defaultTopSSize.

Definition IsBigCRDT (crdt : TopSumCrdt) : bool :=
  (maxElems crdt >? 100) && (Z.of_nat (size (elems crdt)) >? 100).

(** ** Preparing updates *)

Definition withData (s : TopKScore) : TopKScore :=
  match Data s with None => setData (Some []) s | Some _ => s end.

(** The loops over many scores set the data of the loop's variable. *)
Definition Update (crdt : TopSumCrdt) (args : UpdArgs) : DownArgs :=
  match args with
  | TopSAdd s => DownstreamTopSAdd (withData s) false (replicaID crdt)
  | TopSSub s => DownstreamTopSSub (withData s) false
  | TopSAddAll l => DownstreamTopSAddAll l (replicaID crdt)
  | TopSSubAll l => DownstreamTopSSubAll l
  | TopSInit n => DownTopSInit n
  end.

(** ** Applying updates *)

(** What the operations change. *)
Definition set_maps (crdt : TopSumCrdt) (smallest : option nat) (top out unsent : gmap Z nat) : TopSumCrdt :=
  mkTopSum (maxElems crdt) smallest top out unsent (replicaID crdt) (sortedElems crdt).
Definition set_unsent (crdt : TopSumCrdt) (unsent : gmap Z nat) : TopSumCrdt :=
  set_maps crdt (smallestScore crdt) (elems crdt) (notInTop crdt) unsent.
Definition set_out (crdt : TopSumCrdt) (out : gmap Z nat) : TopSumCrdt :=
  set_maps crdt (smallestScore crdt) (elems crdt) out (notPropagated crdt).

(** [*crdt.smallestScore]. *)
Definition loadMin (crdt : TopSumCrdt) : M TopKScore := p ← of_option (smallestScore crdt); load p.

Section apply.
Context (NReplicas : Z) (range : gmap Z nat -> list nat).

Definition findMin (scores : list TopKScore) : TopKScore :=
  foldl (fun minSoFar elem => if isHigher minSoFar elem then elem else minSoFar)
    (mkScore MaxInt32 MaxInt32 None) scores.

(** The minimum is a cell of its own. *)
Definition findAndUpdateMin (crdt : TopSumCrdt) : M TopSumCrdt :=
  scores ← loadAll (range (elems crdt)); p ← new (findMin scores);
  mret (set_maps crdt (Some p) (elems crdt) (notInTop crdt) (notPropagated crdt)).

Definition shouldReplicate (smallest existing notReplicated : Z) : bool :=
  int32 (notReplicated * NReplicas) >? int32 (smallest - existing).

(** The new object, the effect, an update for the other replicas and what is
    written to the flag. *)
Definition Applied : Type := TopSumCrdt * Eff * option DownArgs * bool.

(** The first element. *)
Definition addFirst (crdt : TopSumCrdt) (op : TopKScore) : M TopSumCrdt :=
  p ← new op; mret (set_maps crdt (Some p) (<[Id op := p]> (elems crdt)) (notInTop crdt) (notPropagated crdt)).

(** There is room. *)
Definition addToTop (crdt : TopSumCrdt) (op : TopKScore) : M (TopSumCrdt * option TopKScore) :=
  p ← new op; smallest ← loadMin crdt;
  let top := <[Id op := p]> (elems crdt) in
  mret (if isHigher smallest op
        then (set_maps crdt (Some p) top (notInTop crdt) (notPropagated crdt), Some smallest)
        else (set_maps crdt (smallestScore crdt) top (notInTop crdt) (notPropagated crdt), None)).

(** The element at [p] takes the place of the lowest; [hidden]: it was not in the
    top before. *)
Definition replaceMin (crdt : TopSumCrdt) (id : Z) (p : nat) (hidden : bool) : M TopSumCrdt :=
  sp ← of_option (smallestScore crdt); smallest ← load sp;
  let out := <[Id smallest := sp]> (notInTop crdt) in
  findAndUpdateMin
    (set_maps crdt (Some sp) (<[id := p]> (delete (Id smallest) (elems crdt)))
       (if hidden then delete id out else out) (notPropagated crdt)).

Definition updateTop (crdt : TopSumCrdt) (p : nat) (v : Z) : M TopSumCrdt :=
  modify p (addScore v) ;; entry ← load p; smallest ← loadMin crdt;
  if Id smallest =? Id entry then findAndUpdateMin crdt else mret crdt.

(** The score and the data that [op] is given are those of a copy of it. *)
Definition promote (crdt : TopSumCrdt) (op : TopKScore) (srcReplicaID : Z) (p : nat) (entry smallest : TopKScore)
    (oldScore : Z) : M Applied :=
  crdt ← replaceMin crdt (Id entry) p true;
  let effectValue := TopSumAddReplaceEffect entry oldScore smallest in
  match notPropagated crdt !! Id op with
  | Some np =>
      nonPropEntry ← load np; _ ← of_option (Data op);
      let crdt := set_unsent crdt (delete (Id entry) (notPropagated crdt)) in
      mret (if srcReplicaID =? replicaID crdt then (crdt, effectValue, None, true)
            else (crdt, effectValue,
                  Some (DownstreamTopSAdd (mkScore (Id op) (Score nonPropEntry) (Data nonPropEntry)) false
                          (replicaID crdt)), false))
  | None => mret (crdt, effectValue, None, true)
  end.

(** [np] is [notPropagated[op.Id]], if there is one. *)
Definition addUnsent (crdt : TopSumCrdt) (op : TopKScore) (id : Z) (np : option nat) : M (TopSumCrdt * nat) :=
  match np with
  | None => np ← new op; mret (set_unsent crdt (<[id := np]> (notPropagated crdt)), np)
  | Some np => modify np (addScore (Score op)) ;; mret (crdt, np)
  end.

Definition addHidden (crdt : TopSumCrdt) (op : TopKScore) (srcReplicaID : Z) (p : nat) : M Applied :=
  entry ← load p;
  let oldScore := Score entry in
  let entry := addScore (Score op) entry in
  store p entry ;; smallest ← loadMin crdt;
  if isHigher entry smallest then promote crdt op srcReplicaID p entry smallest oldScore
  else
    let effectValue := TopSumAddNotTopEffect entry oldScore in
    match negb (srcReplicaID =? replicaID crdt), notPropagated crdt !! Id op with
    | true, Some np =>
        nonPropEntry ← load np;
        mret (crdt, effectValue,
              if shouldReplicate (Score smallest) (Score entry) (Score nonPropEntry)
              then Some (DownstreamTopSAdd (mkScore (Id op) (Score nonPropEntry) (Data nonPropEntry)) false
                           (replicaID crdt))
              else None, false)
    | _, np =>
        '(crdt, np) ← addUnsent crdt op (Id entry) np;
        nonPropEntry ← load np;
        if shouldReplicate (Score smallest) (Score entry) (Score nonPropEntry)
        then _ ← of_option (Data op);
             mret (set_unsent crdt (delete (Id entry) (notPropagated crdt)), effectValue, None, true)
        else mret (crdt, effectValue, None, false)
    end.

Definition addNew (crdt : TopSumCrdt) (op : TopKScore) : M Applied :=
  p ← new op; smallest ← loadMin crdt;
  if isHigher op smallest then
    crdt ← replaceMin crdt (Id op) p false;
    mret (crdt, TopSumAddReplaceEffect op MinInt32 smallest, None, true)
  else
    let crdt := set_out crdt (<[Id op := p]> (notInTop crdt)) in
    if shouldReplicate (Score smallest) 0 (Score op)
    then mret (crdt, TopSumAddNotTopEffect op MinInt32, None, true)
    else np ← new op;
         mret (set_unsent crdt (<[Id op := np]> (notPropagated crdt)), TopSumAddNotTopEffect op MinInt32, None, false).

Definition applyTopSAddDownstreamArgs (crdt : TopSumCrdt) (op : TopKScore) (srcReplicaID : Z) : M Applied :=
  if (size (elems crdt) =? 0)%nat then
    crdt ← addFirst crdt op; mret (crdt, TopSumAddEffect op MinInt32 zeroScore, None, true)
  else
    match elems crdt !! Id op with
    | Some p =>
        entry ← load p; crdt ← updateTop crdt p (Score op);
        mret (crdt, TopSumAddEffect op (Score entry) zeroScore, None, true)
    | None =>
        if Z.of_nat (size (elems crdt)) <? maxElems crdt then
          '(crdt, oldMin) ← addToTop crdt op;
          mret (crdt, TopSumAddEffect op MinInt32 (default zeroScore oldMin), None, true)
        else
          match notInTop crdt !! Id op with
          | Some p => addHidden crdt op srcReplicaID p
          | None => addNew crdt op
          end
    end.

(** *** Many adds
    [cur] is [currScore], one variable for the whole loop. *)

Definition AllState : Type := TopSumCrdt * list TopKScore * list TopKScore.

(** [downScores[downI], downI = currScore, downI+1]. *)
Definition keepDown (cur : nat) (crdt : TopSumCrdt) (downs others : list TopKScore) : M AllState :=
  c ← load cur; mret (crdt, downs ++ [c], others).

(** An operation without data takes that of [nonPropEntry]. *)
Definition takeData (cur np : nat) : M unit :=
  c ← load cur; d ← of_option (Data c);
  match d with
  | [] => nonPropEntry ← load np; modify cur (setData (Data nonPropEntry))
  | _ => mret tt
  end.

Definition addAllHidden (srcReplicaID : Z) (cur : nat) (crdt : TopSumCrdt) (downs others : list TopKScore)
    (p : nat) : M AllState :=
  c ← load cur; modify p (addScore (Score c)) ;;
  entry ← load p; smallest ← loadMin crdt;
  let np := notPropagated crdt !! Id c in
  let remote := negb (srcReplicaID =? replicaID crdt) in
  if isHigher entry smallest then
    crdt ← replaceMin crdt (Id entry) p true;
    match np with
    | Some np =>
        nonPropEntry ← load np; modify cur (addScore (Score nonPropEntry)) ;; takeData cur np ;;
        let crdt := set_unsent crdt (delete (Id entry) (notPropagated crdt)) in
        nonPropEntry ← load np;
        mret (crdt, downs, if remote then others ++ [mkScore (Id c) (Score nonPropEntry) (Data nonPropEntry)]
                           else others)
    | None => mret (crdt, downs, others)
    end
  else
    match remote, np with
    | true, Some np =>
        nonPropEntry ← load np;
        mret (crdt, downs,
              if shouldReplicate (Score smallest) (Score entry) (Score nonPropEntry)
              then others ++ [mkScore (Id c) (Score nonPropEntry) (Data nonPropEntry)] else others)
    | _, np =>
        '(crdt, np) ← match np with
                      | None => mret (set_unsent crdt (<[Id entry := cur]> (notPropagated crdt)), cur)
                      | Some np => modify np (addScore (Score c)) ;; mret (crdt, np)
                      end;
        nonPropEntry ← load np;
        if shouldReplicate (Score smallest) (Score entry) (Score nonPropEntry) then
          modify cur (setScore (Score nonPropEntry)) ;; takeData cur np ;;
          keepDown cur (set_unsent crdt (delete (Id entry) (notPropagated crdt))) downs others
        else mret (crdt, downs, others)
    end.

(** A new element that is replicated takes the place of the lowest among those
    that are not in the top. *)
Definition addAllNew (cur : nat) (crdt : TopSumCrdt) (downs others : list TopKScore) : M AllState :=
  c ← load cur; p ← new c; smallest ← loadMin crdt;
  if isHigher c smallest then
    crdt ← replaceMin crdt (Id c) p false;
    keepDown cur crdt downs others
  else if shouldReplicate (Score smallest) 0 (Score c)
  then keepDown cur (set_out crdt (<[Id smallest := p]> (notInTop crdt))) downs others
  else np ← new c;
       mret (set_maps crdt (smallestScore crdt) (elems crdt) (<[Id c := p]> (notInTop crdt))
               (<[Id c := np]> (notPropagated crdt)), downs, others).

Definition addAll_step (srcReplicaID : Z) (cur : nat) (st : AllState) (score : TopKScore) : M AllState :=
  let '(crdt, downs, others) := st in
  store cur score ;;
  match elems crdt !! Id score with
  | Some p => crdt ← updateTop crdt p (Score score); keepDown cur crdt downs others
  | None =>
      if Z.of_nat (size (elems crdt)) <? maxElems crdt
      then '(crdt, _) ← addToTop crdt score; keepDown cur crdt downs others
      else match notInTop crdt !! Id score with
           | Some p => addAllHidden srcReplicaID cur crdt downs others p
           | None => addAllNew cur crdt downs others
           end
  end.

(** [downScores] is as long as [scores] when nothing is written to it. *)
Definition cutDown (scores downs : list TopKScore) : list TopKScore :=
  match downs with [] => replicate (length scores) zeroScore | _ => downs end.

(** The second component is what [*op.Scores] becomes. *)
Definition applyTopSAddAllDownstreamArgs (crdt : TopSumCrdt) (scores : list TopKScore) (srcReplicaID : Z)
  : M (TopSumCrdt * list TopKScore * option DownArgs) :=
  match scores with
  | [] => mret (crdt, [], None)
  | first :: rest =>
      cur ← new zeroScore;
      '(crdt, downs, others) ←
        (if (size (elems crdt) =? 0)%nat
         then crdt ← addFirst crdt first; loopST (addAll_step srcReplicaID cur) (crdt, [first], []) rest
         else loopST (addAll_step srcReplicaID cur) (crdt, [], []) scores);
      mret (crdt, cutDown scores downs,
            match others with [] => None | _ => Some (DownstreamTopSAddAll others (replicaID crdt)) end)
  end.

(** *** Subtractions
    Their scores are negative, and are added. *)

(** The highest of the hidden elements, by pointer. *)
Definition higherOf (newMin elem : nat) : M nat :=
  e ← load elem; m ← load newMin; mret (if isHigher e m then elem else newMin).
Definition highestHidden (crdt : TopSumCrdt) : M nat :=
  newMin ← new (mkScore MinInt32 MinInt32 None); loopST higherOf newMin (range (notInTop crdt)).

(** The element at [p] leaves the top for the highest hidden one. *)
Definition swapWithHidden (crdt : TopSumCrdt) (id : Z) (p : nat) : M (TopSumCrdt * TopKScore) :=
  np ← highestHidden crdt; newMin ← load np;
  mret (set_maps crdt (Some np) (<[Id newMin := np]> (delete id (elems crdt)))
          (<[id := p]> (delete (Id newMin) (notInTop crdt))) (notPropagated crdt), newMin).

Definition subTop (crdt : TopSumCrdt) (op : TopKScore) (p : nat) : M (TopSumCrdt * Eff) :=
  entry ← load p;
  let oldScore := Score entry in
  let entry := addScore (Score op) entry in
  store p entry ;; smallest ← loadMin crdt;
  if isHigher smallest entry then
    if (size (notInTop crdt) =? 0)%nat
    then mret (set_maps crdt (Some p) (elems crdt) (notInTop crdt) (notPropagated crdt),
               TopSumAddEffect entry oldScore smallest)
    else '(crdt, newMin) ← swapWithHidden crdt (Id op) p;
         mret (crdt, TopSumSubReplaceEffect entry oldScore newMin smallest)
  else mret (crdt, NoEffect).

(** A new element that goes to the top sends the lowest to the hidden ones,
    under the new identifier. *)
Definition subNew (crdt : TopSumCrdt) (op : TopKScore) : M (TopSumCrdt * Eff * bool) :=
  p ← new op; sp ← of_option (smallestScore crdt); smallest ← load sp;
  if isHigher op smallest then
    crdt ← findAndUpdateMin
             (set_maps crdt (Some sp) (delete (Id smallest) (<[Id op := p]> (elems crdt)))
                (<[Id op := sp]> (notInTop crdt)) (notPropagated crdt));
    mret (crdt, TopSumAddReplaceEffect op MinInt32 smallest, true)
  else
    np ← new op;
    mret (set_maps crdt (smallestScore crdt) (elems crdt) (<[Id op := p]> (notInTop crdt))
            (<[Id op := np]> (notPropagated crdt)), TopSumAddNotTopEffect op MinInt32, false).

Definition applyTopSSubDownstreamArgs (crdt : TopSumCrdt) (op : TopKScore) : M (TopSumCrdt * Eff * bool) :=
  if (size (elems crdt) =? 0)%nat then
    crdt ← addFirst crdt op; mret (crdt, TopSumAddEffect op MinInt32 zeroScore, true)
  else
    match elems crdt !! Id op with
    | Some p => '(crdt, effectValue) ← subTop crdt op p; mret (crdt, effectValue, true)
    | None =>
        if Z.of_nat (size (elems crdt)) <? maxElems crdt then
          '(crdt, oldMin) ← addToTop crdt op;
          mret (crdt, TopSumAddEffect op MinInt32 (default zeroScore oldMin), true)
        else
          match notInTop crdt !! Id op with
          | Some p =>
              modify p (addScore (Score op)) ;;
              '(crdt, _) ← addUnsent crdt op (Id op) (notPropagated crdt !! Id op);
              mret (crdt, NoEffect, false)
          | None => subNew crdt op
          end
    end.

(** An element that is not in the top is a nil pointer, which is read. *)
Definition subAll_step (st : TopSumCrdt * list TopKScore) (score : TopKScore) : M (TopSumCrdt * list TopKScore) :=
  let '(crdt, downs) := st in
  p ← of_option (elems crdt !! Id score);
  modify p (addScore (Score score)) ;; entry ← load p; smallest ← loadMin crdt;
  crdt ← (if isHigher smallest entry then
            mret (if (size (notInTop crdt) =? 0)%nat
                  then set_maps crdt (Some p) (elems crdt) (notInTop crdt) (notPropagated crdt) else crdt)
          else '(crdt, _) ← swapWithHidden crdt (Id entry) p; mret crdt);
  mret (crdt, downs ++ [score]).

Definition applyTopSSubAllDownstreamArgs (crdt : TopSumCrdt) (scores : list TopKScore)
  : M (TopSumCrdt * list TopKScore) :=
  match scores with
  | [] => mret (crdt, [])
  | first :: rest =>
      '(crdt, downs) ←
        (if (size (elems crdt) =? 0)%nat
         then crdt ← addFirst crdt first; loopST subAll_step (crdt, [first]) rest
         else loopST subAll_step (crdt, []) scores);
      mret (crdt, cutDown scores downs)
  end.

Definition applyInit (crdt : TopSumCrdt) (size : Z) : TopSumCrdt :=
  mkTopSum size (smallestScore crdt) (elems crdt) (notInTop crdt) (notPropagated crdt) (replicaID crdt)
    (sortedElems crdt).

(** The new object, the effect, the update for other replicas, and the operation
    as it has been written. *)
Definition topsum_applyDownstream (crdt : TopSumCrdt) (op : DownArgs)
  : M (TopSumCrdt * Eff * option DownArgs * DownArgs) :=
  match op with
  | DownstreamTopSAdd s replicate src =>
      '(crdt, eff, other, flag) ← applyTopSAddDownstreamArgs crdt s src;
      mret (crdt, eff, other, DownstreamTopSAdd s (replicate || flag) src)
  | DownstreamTopSSub s replicate =>
      '(crdt, eff, flag) ← applyTopSSubDownstreamArgs crdt s;
      mret (crdt, eff, None, DownstreamTopSSub s (replicate || flag))
  | DownstreamTopSAddAll l src =>
      '(crdt, downs, other) ← applyTopSAddAllDownstreamArgs crdt l src;
      mret (crdt, NoEffect, other, DownstreamTopSAddAll downs src)
  | DownstreamTopSSubAll l =>
      '(crdt, downs) ← applyTopSSubAllDownstreamArgs crdt l;
      mret (crdt, NoEffect, None, DownstreamTopSSubAll downs)
  | DownTopSInit n => mret (applyInit crdt n, NoEffect, None, op)
  end.

(** ** Reads
    Updates that are not applied yet are ignored. *)

Definition getState (crdt : TopSumCrdt) : M (list TopKScore) := loadAll (range (elems crdt)).

Section reads.
Context (sortByScore : list TopKScore -> list TopKScore).

(** [sortedElems] is kept, and nothing resets it. *)
Definition getTopN (crdt : TopSumCrdt) (numberEntries : Z) : M (list TopKScore * TopSumCrdt) :=
  sorted ← match sortedElems crdt with
           | Some l => mret l
           | None => l ← getState crdt; mret (sortByScore l)
           end;
  let crdt := mkTopSum (maxElems crdt) (smallestScore crdt) (elems crdt) (notInTop crdt) (notPropagated crdt)
                (replicaID crdt) (Some sorted) in
  if numberEntries >=? Z.of_nat (length sorted) then mret (sorted, crdt)
  else if numberEntries <? 0 then panic
  else mret (take (Z.to_nat numberEntries) sorted, crdt).
End reads.

Definition getTopSAboveValue (crdt : TopSumCrdt) (minValue : Z) : M (list TopKScore) :=
  match sortedElems crdt with
  | Some sorted =>
      let above := takeAbove minValue sorted in
      if (length above <=? size (elems crdt))%nat then mret above else panic
  | None => l ← getState crdt; mret (List.filter (fun e => Score e >=? minValue) l)
  end.

(** ** Undoing *)

(** The copy shares the elements of the object. *)
Definition Copy (crdt : TopSumCrdt) : TopSumCrdt :=
  mkTopSum (maxElems crdt) (smallestScore crdt) (elems crdt) (notInTop crdt) (notPropagated crdt)
    (replicaID crdt) None.

Definition topsum_undoEffect (crdt : TopSumCrdt) (effect : Eff) : M TopSumCrdt :=
  match effect with
  | TopSumAddEffect newScore oldScore oldMin =>
      crdt ← (if oldScore =? MinInt32
              then mret (set_maps crdt (smallestScore crdt) (delete (Id newScore) (elems crdt)) (notInTop crdt)
                           (notPropagated crdt))
              else p ← of_option (elems crdt !! Id newScore); modify p (setScore oldScore) ;; mret crdt);
      if isZero oldMin then mret crdt
      else p ← new oldMin; mret (set_maps crdt (Some p) (elems crdt) (notInTop crdt) (notPropagated crdt))
  | TopSumAddNotTopEffect newScore oldScore =>
      if oldScore =? MinInt32
      then mret (set_maps crdt (smallestScore crdt) (delete (Id newScore) (elems crdt)) (notInTop crdt)
                   (notPropagated crdt))
      else p ← of_option (notInTop crdt !! Id newScore); modify p (setScore oldScore) ;; mret crdt
  | TopSumAddReplaceEffect newElem oldScore oldElem =>
      q ← new oldElem;
      let top := <[Id oldElem := q]> (elems crdt) in
      let out := delete (Id oldElem) (notInTop crdt) in
      if oldScore =? MinInt32
      then mret (set_maps crdt (Some q) (delete (Id newElem) top) out (notPropagated crdt))
      else p ← of_option (top !! Id newElem); modify p (setScore oldScore) ;;
           mret (set_maps crdt (Some q) (delete (Id newElem) top) (<[Id newElem := p]> out) (notPropagated crdt))
  | TopSumSubReplaceEffect newElem oldScore oldElem oldMin =>
      p ← new (setScore oldScore newElem); q ← new oldElem; r ← new oldMin;
      mret (set_maps crdt (Some r) (<[Id newElem := p]> (elems crdt)) (<[Id oldElem := q]> (notInTop crdt))
              (notPropagated crdt))
  | NoEffect => mret crdt
  end.

(** ** Protocol buffers *)

(** A [proto.ProtoTopSumElement] or a [proto.ApbIntPair]. *)
Record ProtoElem := mkElem { E_Id : Z; E_Score : Z; E_Data : list Z }.

(** [*score.Data]: a nil pointer panics. *)
Definition elemToProto (s : TopKScore) : option ProtoElem :=
  d ← Data s; Some (mkElem (Id s) (Score s) d).
Definition elemFromProto (p : ProtoElem) : TopKScore := mkScore (E_Id p) (E_Score p) (Some (E_Data p)).

Inductive ProtoOpDownstream :=
  | TopsumOp (Elems : list ProtoElem) (IsPositive : bool)
  | TopkinitOp (TopSize : Z).

Definition ToReplicatorObj (op : DownArgs) : option ProtoOpDownstream :=
  match op with
  | DownstreamTopSAdd s _ _ => p ← elemToProto s; Some (TopsumOp [p] true)
  | DownstreamTopSSub s _ => p ← elemToProto s; Some (TopsumOp [p] false)
  | DownstreamTopSAddAll l _ => ps ← mapM elemToProto l; Some (TopsumOp ps true)
  | DownstreamTopSSubAll l => ps ← mapM elemToProto l; Some (TopsumOp ps false)
  | DownTopSInit n => Some (TopkinitOp n)
  end.

(** [math.MinInt16] is the source of one add, 0 that of many. *)
Definition downstreamProtoTopSToAntidoteDownstream (p : ProtoOpDownstream) : DownArgs :=
  match p with
  | TopsumOp [e] true => DownstreamTopSAdd (elemFromProto e) false (- 2 ^ 15)
  | TopsumOp [e] false => DownstreamTopSSub (elemFromProto e) false
  | TopsumOp es true => DownstreamTopSAddAll (elemFromProto <$> es) 0
  | TopsumOp es false => DownstreamTopSSubAll (elemFromProto <$> es)
  | TopkinitOp n => DownTopSInit n
  end.

Inductive ApbUpdate := Topkrmvop (Adds : list ProtoElem) | Topkinitop (TopSize : Z).

Definition pairOf (s : TopKScore) : ProtoElem := mkElem (Id s) (Score s) (default [] (Data s)).

Definition ToUpdateObject (op : UpdArgs) : ApbUpdate :=
  match op with
  | TopSAdd s | TopSSub s => Topkrmvop [pairOf s]
  | TopSAddAll l | TopSSubAll l => Topkrmvop (pairOf <$> l)
  | TopSInit n => Topkinitop n
  end.

(** The number of adds is never negative. *)
Definition updateTopsProtoToAntidoteUpdate (p : ApbUpdate) : UpdArgs :=
  match p with
  | Topkinitop n => TopSInit n
  | Topkrmvop [add] =>
      if E_Score add >=? 0 then TopSAdd (elemFromProto add) else TopSSub (elemFromProto add)
  | Topkrmvop adds => TopSAddAll (elemFromProto <$> adds)
  end.

(** The answers to reads. *)
Definition ToReadResp (scores : list TopKScore) : option (list ProtoElem) := mapM elemToProto scores.
Definition FromReadResp (ps : list ProtoElem) : list TopKScore := elemFromProto <$> ps.

(** [None] in [Elems] and [NotTop]: entries that are left nil. *)
Record ProtoTopSumState := mkProtoState {
  Elems : list (option ProtoElem); NotTop : list (option ProtoElem);
  Smallest : option ProtoElem; MaxElems : Z }.

(** The [j]-th hidden element overwrites the [j]-th of the top; its score is
    taken from itself. *)
Fixpoint hiddenToProto (j : nat) (hidden : list TopKScore) (es : list (option ProtoElem))
  : option (list (option ProtoElem)) :=
  match hidden with
  | [] => Some es
  | elem :: hidden =>
      p ← elemToProto (setScore (int32 (Score elem - Score elem)) elem);
      if (j <? length es)%nat then hiddenToProto (S j) hidden (<[j := Some p]> es) else None
  end.

Definition ToProtoState (crdt : TopSumCrdt) : M ProtoTopSumState :=
  top ← loadAll (range (elems crdt)); ps ← of_option (mapM elemToProto top);
  out ← loadAll (range (notInTop crdt));
  es ← of_option (hiddenToProto 0 out (Some <$> ps));
  smallest ← match smallestScore crdt with
             | Some p => s ← load p; e ← of_option (elemToProto s); mret (Some e)
             | None => mret None
             end;
  mret (mkProtoState es (replicate (size (elems crdt)) None) smallest (int32 (maxElems crdt))).

(** A nil message has zero values. *)
Definition fromElem (p : option ProtoElem) : TopKScore := elemFromProto (default (mkElem 0 0 []) p).

Definition readElems (ps : list (option ProtoElem)) : M (gmap Z nat) :=
  loopST (fun m p => q ← new (fromElem p); mret (<[Id (fromElem p) := q]> m)) ∅ ps.

(** The replica's identifier is not set. *)
Definition FromProtoState (p : ProtoTopSumState) : M TopSumCrdt :=
  top ← readElems (Elems p); out ← readElems (NotTop p); q ← new (fromElem (Smallest p));
  mret (mkTopSum (MaxElems p) (Some q) top out ∅ 0 None).

End apply.
