(* ===== verification/TopSumSpec.v ===== *)
(** * The top-K object with sums: what adds do

    [reps st crdt T O]: the object shows the sums [T] in its top and hides [O];
    its pointers are distinct, and [smallestScore] has the lowest of [T].  An add
    is then a step of [add_step] on [T] and [O] ([add_refines]). *)

From S2P Require Import Prelude Pointers TopK TopSum.
From Stdlib Require Import ZArith Lia Bool.
From stdpp Require Import base tactics numbers gmap sorting list.
#[local] Open Scope Z_scope.

(** ** Sums *)

(** Elements in the top and the hidden ones. *)
Record top_ok (n : Z) (T O : gmap Z Z) : Prop := {
  t_disj : T ##ₘ O;
  t_size : Z.of_nat (size T) <= n;
  t_full : O <> ∅ -> Z.of_nat (size T) = n;
  t_above i j a b : T !! i = Some a -> O !! j = Some b -> b <= a;
  t_range i a : (T ∪ O) !! i = Some a -> 0 <= a < MaxInt32
}.

Definition sumOf (T O : gmap Z Z) (id : Z) : Z := default 0 ((T ∪ O) !! id).

Inductive add_step (n id v : Z) (T O : gmap Z Z) : gmap Z Z -> gmap Z Z -> Prop :=
  | step_top a : T !! id = Some a -> add_step n id v T O (<[id := a + v]> T) O
  | step_room : T !! id = None -> Z.of_nat (size T) < n -> add_step n id v T O (<[id := v]> T) O
  | step_promote j m w :
      T !! id = None -> Z.of_nat (size T) = n -> w = default 0 (O !! id) + v ->
      T !! j = Some m -> (forall k a, T !! k = Some a -> m <= a) -> m <= w ->
      add_step n id v T O (<[id := w]> (delete j T)) (delete id (<[j := m]> O))
  | step_hidden j m w :
      T !! id = None -> Z.of_nat (size T) = n -> w = default 0 (O !! id) + v ->
      T !! j = Some m -> (forall k a, T !! k = Some a -> m <= a) -> w <= m ->
      add_step n id v T O T (<[id := w]> O).

Lemma add_step_sums n id v T O T' O' :
  top_ok n T O -> add_step n id v T O T' O' -> T' ∪ O' = <[id := sumOf T O id + v]> (T ∪ O).
Proof.
  intros [Hd Hs Hf Ha Hr] Hstep. unfold sumOf.
  assert (HO : T !! id = None -> (T ∪ O) !! id = O !! id) by (intros E; by rewrite lookup_union_r).
  assert (Hempty : Z.of_nat (size T) < n -> O = ∅).
  { intros. destruct (decide (O = ∅)) as [|Hne]; [done|]. specialize (Hf Hne). lia. }
  destruct Hstep as [a E|E Hlt|j m w E Hsz -> Hj Hm Hw|j m w E Hsz -> Hj Hm Hw].
  - rewrite insert_union_l, (lookup_union_Some_l _ _ _ a) by done. done.
  - rewrite insert_union_l, HO, (Hempty Hlt) by done. by rewrite lookup_empty.
  - rewrite HO by done. apply map_eq. intros k.
    assert (j <> id) by congruence.
    assert (O !! j = None) by (by eapply map_disjoint_Some_l).
    destruct (decide (k = id)) as [-> |Hk].
    { rewrite lookup_insert_eq. rewrite (lookup_union_Some_l _ _ _ (default 0 (O !! id) + v)); [done|].
      apply lookup_insert_eq. }
    rewrite lookup_insert_ne by done. destruct (decide (k = j)) as [-> |Hkj].
    + rewrite (lookup_union_Some_l T O j m) by done. rewrite lookup_union_r.
      * rewrite lookup_delete_ne by done. apply lookup_insert_eq.
      * rewrite lookup_insert_ne by done. apply lookup_delete_eq.
    + rewrite !lookup_union, lookup_insert_ne, lookup_delete_ne, lookup_delete_ne, lookup_insert_ne by done. done.
  - rewrite HO by done. by rewrite insert_union_r.
Qed.

Lemma size_swap {V} (T : gmap Z V) id j w m :
  T !! id = None -> T !! j = Some m -> size (<[id := w]> (delete j T)) = size T.
Proof.
  intros E Hj. assert (j <> id) by congruence.
  rewrite map_size_insert_None by (by rewrite lookup_delete_ne).
  rewrite map_size_delete, Hj. assert (size T <> 0%nat); [|lia].
  intros Hz%map_size_empty_inv. by rewrite Hz in Hj.
Qed.

Lemma top_ok_step n id v T O T' O' :
  top_ok n T O -> 0 <= v -> sumOf T O id + v < MaxInt32 -> add_step n id v T O T' O' -> top_ok n T' O'.
Proof.
  intros Hok Hv Hlt Hstep. pose proof (add_step_sums n id v T O T' O' Hok Hstep) as Hsums.
  assert (H0 : 0 <= sumOf T O id).
  { unfold sumOf. destruct ((T ∪ O) !! id) eqn:E; simpl; [|lia]. by apply Hok in E as []. }
  assert (Hrange : forall i a, (T' ∪ O') !! i = Some a -> 0 <= a < MaxInt32).
  { intros i a. rewrite Hsums. destruct (decide (i = id)) as [-> |].
    - rewrite lookup_insert_eq. intros [= <-]. lia.
    - rewrite lookup_insert_ne by done. apply Hok. }
  destruct Hok as [Hd Hs Hf Ha Hr].
  destruct Hstep as [a E|E Hsz|j m w E Hsz Ew Hj Hm Hw|j m w E Hsz Ew Hj Hm Hw].
  - split; [..|done].
    + apply map_disjoint_insert_l_2; [|done]. by eapply map_disjoint_Some_l.
    + rewrite map_size_insert, E. simpl. lia.
    + intros HO. rewrite map_size_insert, E. simpl. by apply Hf.
    + intros i j b c Hi Hj. destruct (decide (i = id)) as [-> |].
      * rewrite lookup_insert_eq in Hi. injection Hi as <-. specialize (Ha _ _ _ _ E Hj). lia.
      * rewrite lookup_insert_ne in Hi by done. by eapply Ha.
  - assert (O = ∅) as ->.
    { destruct (decide (O = ∅)) as [|Hne]; [done|]. specialize (Hf Hne). lia. }
    split; [..|done].
    + apply map_disjoint_empty_r.
    + rewrite map_size_insert_None by done. lia.
    + done.
    + intros i j b c _ Hj. by rewrite lookup_empty in Hj.
  - pose proof (size_swap T id j w m E Hj) as Hsize. assert (j <> id) by congruence.
    split; [..|done].
    + apply map_disjoint_spec. intros i b c Hi Hc.
      rewrite lookup_delete_Some in Hc. destruct Hc as [Hid Hc]. rewrite lookup_insert_ne in Hi by done.
      rewrite lookup_delete_Some in Hi. destruct Hi as [Hij Hi]. rewrite lookup_insert_ne in Hc by done.
      by eapply map_disjoint_spec.
    + lia.
    + lia.
    + intros i k b c Hi Hc. rewrite lookup_delete_Some in Hc. destruct Hc as [Hid Hc].
      assert (Hcm : c <= m).
      { destruct (decide (k = j)) as [-> |].
        - rewrite lookup_insert_eq in Hc. injection Hc as <-. lia.
        - rewrite lookup_insert_ne in Hc by done. by eapply Ha. }
      destruct (decide (i = id)) as [-> |].
      * rewrite lookup_insert_eq in Hi. injection Hi as <-. lia.
      * rewrite lookup_insert_ne, lookup_delete_Some in Hi by done. destruct Hi as [_ Hi].
        specialize (Hm _ _ Hi). lia.
  - split; [..|done].
    + by apply map_disjoint_insert_r_2.
    + lia.
    + lia.
    + intros i k b c Hi Hc. destruct (decide (k = id)) as [-> |].
      * rewrite lookup_insert_eq in Hc. injection Hc as <-. specialize (Hm _ _ Hi). lia.
      * rewrite lookup_insert_ne in Hc by done. by eapply Ha.
Qed.

(** ** Pointers of an object *)

Inductive Slot := InTop (k : Z) | Hidden (k : Z) | Unsent (k : Z).
#[export] Instance Slot_eq_dec : EqDecision Slot.
Proof. solve_decision. Defined.

Definition keyOf (t : Slot) : Z := match t with InTop k | Hidden k | Unsent k => k end.
Definition slot (crdt : TopSumCrdt) (t : Slot) : option nat :=
  match t with
  | InTop k => elems crdt !! k
  | Hidden k => notInTop crdt !! k
  | Unsent k => notPropagated crdt !! k
  end.

Definition fset (f : Slot -> option nat) (t : Slot) (o : option nat) : Slot -> option nat :=
  fun u => if decide (u = t) then o else f u.

(** No cell has two owners, and every cell has its owner's key. *)
Record owns (st : list TopKScore) (f : Slot -> option nat) : Prop := {
  o_cell t p : f t = Some p -> exists s, st !! p = Some s /\ Id s = keyOf t;
  o_inj t u p : f t = Some p -> f u = Some p -> t = u
}.

Lemma owns_ext st f g : (forall t, f t = g t) -> owns st f -> owns st g.
Proof. intros E [Hc Hi]. split; intros *; rewrite <- !E; [apply Hc|apply Hi]. Qed.

Lemma owns_none st f t : owns st f -> owns st (fset f t None).
Proof.
  intros [Hc Hi]. split; unfold fset; intros *; repeat case_decide; try done; [apply Hc|apply Hi].
Qed.

Lemma owns_some st f t p s :
  owns st f -> st !! p = Some s -> Id s = keyOf t -> (forall u, f u = Some p -> u = t) ->
  owns st (fset f t (Some p)).
Proof.
  intros [Hc Hi] Hs Hk Hp. split; unfold fset; intros *; repeat case_decide; subst; try done.
  - intros [= <-]. by exists s.
  - apply Hc.
  - intros [= <-] Hu%Hp. by subst.
  - intros Ht [= <-]. by apply Hp in Ht.
  - apply Hi.
Qed.

Lemma owns_new st f s : owns st f -> owns (st ++ [s]) f.
Proof.
  intros [Hc Hi]. split; [|done]. intros t p Ht. destruct (Hc t p Ht) as (x & Hx & Hk).
  exists x. split; [|done]. by apply lookup_app_l_Some.
Qed.

Lemma owns_store st f p s s' :
  owns st f -> st !! p = Some s -> Id s' = Id s -> owns (<[p := s']> st) f.
Proof.
  intros [Hc Hi] Hs Hk. split; [|done]. intros t q Ht. destruct (Hc t q Ht) as (x & Hx & E).
  destruct (decide (q = p)) as [-> |].
  - exists s'. split; [apply list_lookup_insert_eq; by eapply lookup_lt_Some|congruence].
  - exists x. by rewrite list_lookup_insert_ne.
Qed.

Lemma owns_fresh st f t : owns st f -> f t <> Some (length st).
Proof. intros [Hc _] Ht. destruct (Hc _ _ Ht) as (s & Hs%lookup_lt_Some & _). lia. Qed.

Definition scores (st : list TopKScore) (m : gmap Z nat) : gmap Z Z := Score <$> view st m.

Lemma lookup_scores st m k : scores st m !! k = m !! k ≫= (fun p => Score <$> st !! p).
Proof. unfold scores. rewrite lookup_fmap, lookup_view. by destruct (m !! k). Qed.

(** The object shows [T] and hides [O]. *)
Record shows (st : list TopKScore) (crdt : TopSumCrdt) (T O : gmap Z Z) : Prop := {
  s_owns : owns st (slot crdt);
  s_top : scores st (elems crdt) = T;
  s_out : scores st (notInTop crdt) = O
}.

(** [smallestScore] points to the lowest element of the top or to a copy of it. *)
Definition has_min (st : list TopKScore) (crdt : TopSumCrdt) (T : gmap Z Z) : Prop :=
  exists p s, smallestScore crdt = Some p /\ st !! p = Some s /\ T !! Id s = Some (Score s) /\
    (forall t, slot crdt t = Some p -> t = InTop (Id s)) /\ (forall k v, T !! k = Some v -> Score s <= v).

Definition reps (st : list TopKScore) (crdt : TopSumCrdt) (T O : gmap Z Z) : Prop :=
  shows st crdt T O /\ (T <> ∅ -> has_min st crdt T).

(** ** The parts of an add *)

Section adds.
Context (NReplicas : Z) (range : gmap Z nat -> list nat).
Hypothesis range_ok : forall m, range m ≡ₚ (map_to_list m).*2.

Lemma valid_slots st crdt : owns st (slot crdt) ->
  valid st (elems crdt) /\ valid st (notInTop crdt) /\ valid st (notPropagated crdt).
Proof.
  intros Ho. split_and!; intros k p E.
  - destruct (o_cell _ _ Ho (InTop k) p E) as (s & Hs & _). by exists s.
  - destruct (o_cell _ _ Ho (Hidden k) p E) as (s & Hs & _). by exists s.
  - destruct (o_cell _ _ Ho (Unsent k) p E) as (s & Hs & _). by exists s.
Qed.

Lemma scores_size st crdt T O : shows st crdt T O -> size (elems crdt) = size T.
Proof.
  intros [Ho <- _]. unfold scores. rewrite map_size_fmap, <- !size_dom, view_dom; [done|].
  by apply (valid_slots st crdt).
Qed.

Lemma shows_new st crdt T O s : shows st crdt T O -> shows (st ++ [s]) crdt T O.
Proof.
  intros [Ho <- <-]. destruct (valid_slots _ _ Ho) as (H1 & H2 & _).
  split; [by apply owns_new|..]; unfold scores; by rewrite view_new.
Qed.

(** The lowest of the scores. *)
Lemma findMin_spec l :
  l <> [] -> (forall x, x ∈ l -> Score x < MaxInt32) ->
  findMin l ∈ l /\ forall x, x ∈ l -> Score (findMin l) <= Score x.
Proof.
  intros Hne Hlt. unfold findMin.
  assert (Hgen : forall l0 acc, (forall x, x ∈ l0 -> Score x < MaxInt32) ->
    let m := foldl (fun a e => if isHigher a e then e else a) acc l0 in
    (m = acc \/ m ∈ l0) /\ Score m <= Score acc /\ forall x, x ∈ l0 -> Score m <= Score x).
  { clear. induction l0 as [|x l0 IH]; intros acc Hlt; simpl.
    - split_and!; [by left|lia|]. intros x Hx. by apply not_elem_of_nil in Hx.
    - destruct (IH (if isHigher acc x then x else acc)) as (Hin & Hle & Hall).
      { intros y Hy. apply Hlt. by right. }
      assert (Hx : Score (if isHigher acc x then x else acc) <= Score x /\
                   Score (if isHigher acc x then x else acc) <= Score acc).
      { unfold isHigher. destruct (Z.gtb_spec (Score acc) (Score x)); [simpl; lia|].
        destruct (Z.eqb_spec (Score acc) (Score x)); simpl; [destruct (Id acc >? Score x)|]; lia. }
      split_and!; [|lia|].
      + destruct Hin as [-> |]; [|right; by right].
        destruct (isHigher acc x); [right; by left|by left].
      + intros y [-> |Hy]%elem_of_cons; [lia|by apply Hall]. }
  destruct (Hgen l (mkScore MaxInt32 MaxInt32 None) Hlt) as (Hin & _ & Hall). split; [|done].
  destruct Hin as [E |]; [|done]. destruct l as [|x l]; [done|].
  specialize (Hall x (list_elem_of_here x l)). specialize (Hlt x (list_elem_of_here x l)).
  simpl in *. rewrite E in Hall. simpl in Hall. lia.
Qed.

(** After [findAndUpdateMin] the minimum is right. *)
Lemma findAndUpdateMin_ok st crdt T O :
  shows st crdt T O -> T <> ∅ -> (forall k v, T !! k = Some v -> v < MaxInt32) ->
  exists st' crdt', findAndUpdateMin range crdt st = Some (crdt', st') /\ reps st' crdt' T O /\
    replicaID crdt' = replicaID crdt /\ maxElems crdt' = maxElems crdt /\
    notPropagated crdt' = notPropagated crdt.
Proof.
  intros Hs Hne Hlt. pose proof Hs as [Ho HT HO].
  destruct (valid_slots _ _ Ho) as (Hv & _ & _).
  destruct (loadAll_view st (elems crdt) (range (elems crdt)) (range_ok _) Hv) as (vs & E & Hvs).
  assert (Hin : forall x, x ∈ vs <-> exists k p, elems crdt !! k = Some p /\ st !! p = Some x).
  { intros x. rewrite Hvs, list_elem_of_fmap. split.
    - intros ([k y] & -> & Hk). apply elem_of_map_to_list in Hk. rewrite lookup_view in Hk.
      apply bind_Some in Hk as (p & Hp & Hy). by exists k, p.
    - intros (k & p & Hp & Hy). exists (k, x). split; [done|]. apply elem_of_map_to_list.
      rewrite lookup_view, Hp. done. }
  assert (HTin : forall x, x ∈ vs -> T !! Id x = Some (Score x)).
  { intros x (k & p & Hp & Hx)%Hin. destruct (o_cell _ _ Ho (InTop k) p Hp) as (s & Hs' & Hk).
    simpl in Hk. assert (s = x) as -> by congruence. rewrite <- HT, lookup_scores, Hk, Hp. simpl. by rewrite Hx. }
  destruct (findMin_spec vs) as (Hm & Hmin).
  { intros ->. apply Hne. apply map_empty. intros k. rewrite <- HT, lookup_scores.
    destruct (elems crdt !! k) as [p|] eqn:Ep; [|done]. destruct (Hv k p Ep) as [x Hx].
    assert (Hxin : x ∈ @nil TopKScore) by (apply Hin; by exists k, p). by apply not_elem_of_nil in Hxin. }
  { intros x Hx. by eapply Hlt, HTin. }
  eexists _, _. unfold findAndUpdateMin, mbind, ST_bind. rewrite E. cbn. split_and!; [done| |done..].
  split; [by apply (shows_new _ _ T O (findMin vs)) in Hs as [? ? ?]|]. intros _.
  exists (length st), (findMin vs). split_and!; [done|by apply list_lookup_middle|by apply HTin| |].
  - intros t Ht. by apply (owns_fresh st _ t Ho) in Ht.
  - intros k v Hk. rewrite <- HT, lookup_scores in Hk. apply bind_Some in Hk as (p & Hp & Hv').
    apply fmap_Some in Hv' as (x & Hx & ->). apply Hmin, Hin. by exists k, p.
Qed.

(** *** Small steps *)

Lemma scores_store st m k p s s' :
  m !! k = Some p -> st !! p = Some s -> (forall k', m !! k' = Some p -> k' = k) ->
  scores (<[p := s']> st) m = <[k := Score s']> (scores st m).
Proof. intros. unfold scores. rewrite (view_store st m k p s' s) by done. apply fmap_insert. Qed.

Lemma scores_store_other st m p s : (forall k, m !! k <> Some p) -> scores (<[p := s]> st) m = scores st m.
Proof. intros. unfold scores. by rewrite view_store_other. Qed.

(** An element of the top, or a hidden one, has a new score. *)
Lemma shows_store_top st crdt T O k p s s' :
  shows st crdt T O -> elems crdt !! k = Some p -> st !! p = Some s -> Id s' = Id s ->
  shows (<[p := s']> st) crdt (<[k := Score s']> T) O.
Proof.
  intros [Ho <- <-] Hp Hs Hk. split; [by eapply owns_store|..].
  - eapply scores_store; [done..|]. intros k' Hk'. pose proof (o_inj _ _ Ho (InTop k) (InTop k') p Hp Hk'). congruence.
  - apply scores_store_other. intros k' Hk'. by pose proof (o_inj _ _ Ho (InTop k) (Hidden k') p Hp Hk').
Qed.

Lemma shows_store_out st crdt T O k p s s' :
  shows st crdt T O -> notInTop crdt !! k = Some p -> st !! p = Some s -> Id s' = Id s ->
  shows (<[p := s']> st) crdt T (<[k := Score s']> O).
Proof.
  intros [Ho <- <-] Hp Hs Hk. split; [by eapply owns_store|..].
  - apply scores_store_other. intros k' Hk'. by pose proof (o_inj _ _ Ho (Hidden k) (InTop k') p Hp Hk').
  - eapply scores_store; [done..|]. intros k' Hk'. pose proof (o_inj _ _ Ho (Hidden k) (Hidden k') p Hp Hk'). congruence.
Qed.

Lemma shows_store_unsent st crdt T O k p s s' :
  shows st crdt T O -> notPropagated crdt !! k = Some p -> st !! p = Some s -> Id s' = Id s ->
  shows (<[p := s']> st) crdt T O.
Proof.
  intros [Ho <- <-] Hp Hs Hk. split; [by eapply owns_store|..]; apply scores_store_other; intros k' Hk'.
  - by pose proof (o_inj _ _ Ho (Unsent k) (InTop k') p Hp Hk').
  - by pose proof (o_inj _ _ Ho (Unsent k) (Hidden k') p Hp Hk').
Qed.

(** The lowest element is not touched by what happens to the others. *)
Lemma has_min_store st crdt T p s' t :
  has_min st crdt T -> slot crdt t = Some p -> (forall k, t <> InTop k) -> has_min (<[p := s']> st) crdt T.
Proof.
  intros (q & s & Hq & Hs & HT & Hown & Hmin) Hp Ht. exists q, s. split_and!; try done.
  rewrite list_lookup_insert_ne; [done|]. intros ->. by apply (Ht (Id s)), Hown.
Qed.

Lemma has_min_new st crdt T x : has_min st crdt T -> has_min (st ++ [x]) crdt T.
Proof.
  intros (q & s & Hq & Hs & HT & Hown & Hmin). exists q, s. split_and!; try done. by apply lookup_app_l_Some.
Qed.

Lemma has_min_slots st crdt crdt' T :
  has_min st crdt T -> smallestScore crdt' = smallestScore crdt ->
  (forall t p, slot crdt' t = Some p -> slot crdt t = Some p \/ st !! p = None) -> has_min st crdt' T.
Proof.
  intros (q & s & Hq & Hs & HT & Hown & Hmin) E Hsl. exists q, s. split_and!; try done; [congruence|].
  intros t Ht. destruct (Hsl t q Ht) as [?|Hn]; [by apply Hown|congruence].
Qed.

(** What is unsent matters neither to the sums nor to the minimum. *)
Lemma slot_unsent crdt id o t :
  slot (set_unsent crdt (partial_alter (fun _ => o) id (notPropagated crdt))) t = fset (slot crdt) (Unsent id) o t.
Proof.
  unfold fset. destruct (decide (t = Unsent id)) as [-> |Hne]; [apply lookup_partial_alter_eq|].
  destruct t as [k|k|k]; simpl; [done..|]. apply lookup_partial_alter_ne. congruence.
Qed.

Lemma reps_unsent_new st crdt T O id s :
  reps st crdt T O -> Id s = id ->
  reps (st ++ [s]) (set_unsent crdt (<[id := length st]> (notPropagated crdt))) T O.
Proof.
  intros [Hs Hm] Hk. pose proof Hs as [Ho _ _]. pose proof (shows_new _ _ T O s Hs) as [Ho' HT HO]. split.
  - split; [|done..]. eapply owns_ext; [intros t; symmetry; apply (slot_unsent crdt id (Some (length st)))|].
    eapply owns_some; [done|by apply list_lookup_middle|done|].
    intros u Hu. by apply (owns_fresh st _ u Ho) in Hu.
  - intros HT0. destruct (Hm HT0) as (q & x & Hq & Hx & HTx & Hown & Hmin).
    exists q, x. split_and!; try done; [by apply lookup_app_l_Some|].
    intros t Ht. assert (E : slot (set_unsent crdt (<[id := length st]> (notPropagated crdt))) t =
                             fset (slot crdt) (Unsent id) (Some (length st)) t) by apply slot_unsent.
    rewrite E in Ht. unfold fset in Ht. case_decide; [|by apply Hown].
    injection Ht as <-. apply lookup_lt_Some in Hx. lia.
Qed.

Lemma reps_unsent_delete st crdt T O id :
  reps st crdt T O -> reps st (set_unsent crdt (delete id (notPropagated crdt))) T O.
Proof.
  intros [[Ho HT HO] Hm]. split.
  - split; [|done..]. eapply owns_ext; [intros t; symmetry; apply (slot_unsent crdt id None)|]. by apply owns_none.
  - intros HT0. eapply has_min_slots; [by apply Hm|done|]. intros t p Ht. left.
    assert (E : slot (set_unsent crdt (delete id (notPropagated crdt))) t = fset (slot crdt) (Unsent id) None t)
      by apply slot_unsent.
    rewrite E in Ht. unfold fset in Ht. by case_decide.
Qed.

Lemma reps_unsent_store st crdt T O id p s s' :
  reps st crdt T O -> notPropagated crdt !! id = Some p -> st !! p = Some s -> Id s' = Id s ->
  reps (<[p := s']> st) crdt T O.
Proof.
  intros [Hs Hm] Hp Hx Hk. split; [by eapply shows_store_unsent|].
  intros HT0. by eapply (has_min_store _ _ _ _ _ (Unsent id)); [apply Hm| |].
Qed.

(** *** The cases of an add *)

Lemma scores_insert st m k p s : st !! p = Some s -> scores st (<[k := p]> m) = <[k := Score s]> (scores st m).
Proof. intros. unfold scores. rewrite (view_insert st m k p s) by done. apply fmap_insert. Qed.

Lemma scores_delete st m k : scores st (delete k m) = delete k (scores st m).
Proof. unfold scores. by rewrite view_delete, fmap_delete. Qed.

Definition same (a b : TopSumCrdt) : Prop := replicaID a = replicaID b /\ maxElems a = maxElems b.

Lemma int32_id z : 0 <= z < MaxInt32 -> int32 z = z.
Proof. intros. apply wrapS_id; [lia|]. unfold inS, MaxInt32 in *. lia. Qed.

Definition bounded (T : gmap Z Z) : Prop := forall k v, T !! k = Some v -> 0 <= v < MaxInt32.

Lemma updateTop_ok st crdt T O id p a v :
  reps st crdt T O -> bounded T -> elems crdt !! id = Some p -> T !! id = Some a -> 0 <= v ->
  a + v < MaxInt32 ->
  exists st' crdt', updateTop range crdt p v st = Some (crdt', st') /\
    reps st' crdt' (<[id := a + v]> T) O /\ same crdt' crdt.
Proof.
  intros [Hs Hm] HB Hp Ha Hv Hlt. pose proof Hs as [Ho HT _].
  destruct (o_cell _ _ Ho (InTop id) p Hp) as (e & He & Hk). simpl in Hk.
  assert (Score e = a) as Ea.
  { rewrite <- HT, lookup_scores, Hp in Ha. simpl in Ha. rewrite He in Ha. by injection Ha. }
  destruct Hm as (q & s & Hq & Hqs & HTs & Hown & Hmin); [by intros ->|].
  assert (Hnew : Score (addScore v e) = a + v).
  { simpl. rewrite Ea. apply int32_id. specialize (HB _ _ Ha). lia. }
  pose proof (shows_store_top _ _ _ _ _ _ _ (addScore v e) Hs Hp He eq_refl) as Hs1. rewrite Hnew in Hs1.
  assert (HB1 : forall k x, <[id := a + v]> T !! k = Some x -> x < MaxInt32).
  { intros k x. destruct (decide (k = id)) as [-> |].
    - rewrite lookup_insert_eq. intros [= <-]. lia.
    - rewrite lookup_insert_ne by done. intros Hx%HB. lia. }
  assert (Hne1 : <[id := a + v]> T <> ∅) by apply insert_non_empty.
  unfold updateTop, mbind, ST_bind. rewrite (modify_ok st p _ e He).
  assert (Hp1 : <[p := addScore v e]> st !! p = Some (addScore v e)).
  { apply list_lookup_insert_eq. by eapply lookup_lt_Some. }
  rewrite (load_ok _ p _ Hp1). unfold loadMin. rewrite Hq. unfold of_option, mbind, ST_bind.
  destruct (findAndUpdateMin_ok _ _ _ _ Hs1 Hne1 HB1) as (st2 & crdt2 & E2 & Hr2 & H1 & H2 & _).
  destruct (decide (q = p)) as [-> |Hqp].
  { rewrite (load_ok _ p _ Hp1). simpl. rewrite Z.eqb_refl, E2. by exists st2, crdt2. }
  assert (Hq1 : <[p := addScore v e]> st !! q = Some s) by (by rewrite list_lookup_insert_ne).
  rewrite (load_ok _ q _ Hq1). cbn [Id addScore]. destruct (Z.eqb_spec (Id s) (Id e)) as [Eid|Nid].
  { rewrite E2. by exists st2, crdt2. }
  eexists _, crdt. split_and!; [done| |done]. split; [done|]. intros _. exists q, s.
  split_and!; [done..| |done|].
  - rewrite lookup_insert_ne; [done|congruence].
  - intros k x. destruct (decide (k = id)) as [-> |].
    + rewrite lookup_insert_eq. intros [= <-]. specialize (Hmin _ _ Ha). lia.
    + rewrite lookup_insert_ne by done. apply Hmin.
Qed.

(** A new element of the top. *)
Lemma shows_add_top st crdt T O s smallest :
  shows st crdt T O -> elems crdt !! Id s = None ->
  shows (st ++ [s]) (set_maps crdt smallest (<[Id s := length st]> (elems crdt)) (notInTop crdt) (notPropagated crdt))
    (<[Id s := Score s]> T) O.
Proof.
  intros Hs Hn. pose proof Hs as [Ho _ _]. destruct (shows_new _ _ T O s Hs) as [Ho' HT HO].
  assert (Hcell : (st ++ [s]) !! length st = Some s) by (by apply list_lookup_middle).
  split; [| |done].
  - eapply (owns_ext _ (fset (slot crdt) (InTop (Id s)) (Some (length st)))).
    + intros t. unfold fset. destruct (decide (t = InTop (Id s))) as [-> |Hne]; [symmetry; apply lookup_insert_eq|].
      destruct t as [k|k|k]; simpl; [|done..]. symmetry. apply lookup_insert_ne. congruence.
    + eapply owns_some; [done|done|done|]. intros u Hu. by apply (owns_fresh st _ u Ho) in Hu.
  - simpl. by rewrite (scores_insert _ _ _ _ s Hcell), HT.
Qed.

Lemma addFirst_ok st crdt O s :
  shows st crdt ∅ O -> elems crdt = ∅ ->
  exists crdt', addFirst crdt s st = Some (crdt', st ++ [s]) /\
    reps (st ++ [s]) crdt' {[ Id s := Score s ]} O /\ same crdt' crdt.
Proof.
  intros Hs He. eexists. split_and!; [done| |done].
  pose proof (shows_add_top st crdt ∅ O s (Some (length st)) Hs) as Hs'. rewrite He in Hs' at 1.
  specialize (Hs' (lookup_empty _)). rewrite insert_empty in Hs'. split; [done|].
  intros _. exists (length st), s. split_and!; [done|by apply list_lookup_middle|apply lookup_singleton_eq| |].
  - intros t Ht. destruct Hs' as [Ho' _ _]. apply (o_inj _ _ Ho' _ _ _ Ht). simpl. apply lookup_insert_eq.
  - intros k v Hk. apply lookup_singleton_Some in Hk as [_ <-]. lia.
Qed.

Lemma addToTop_ok st crdt T O s :
  reps st crdt T O -> T <> ∅ -> elems crdt !! Id s = None ->
  exists crdt' o, addToTop crdt s st = Some ((crdt', o), st ++ [s]) /\
    reps (st ++ [s]) crdt' (<[Id s := Score s]> T) O /\ same crdt' crdt.
Proof.
  intros [Hs Hm] HT0 Hn. destruct (Hm HT0) as (q & x & Hq & Hx & HTx & Hown & Hmin).
  assert (Hcell : (st ++ [s]) !! length st = Some s) by (by apply list_lookup_middle).
  assert (HTn : T !! Id s = None).
  { destruct Hs as [_ <- _]. by rewrite lookup_scores, Hn. }
  unfold addToTop, loadMin, mbind, ST_bind, new, of_option. rewrite Hq. rewrite (load_ok _ q x) by (by apply lookup_app_l_Some).
  assert (Hle : forall smallest, smallest = Some (length st) /\ Score s <= Score x \/ smallest = Some q /\ Score x <= Score s ->
    reps (st ++ [s]) (set_maps crdt smallest (<[Id s := length st]> (elems crdt)) (notInTop crdt) (notPropagated crdt))
      (<[Id s := Score s]> T) O).
  { intros smallest Hsm. pose proof (shows_add_top st crdt T O s smallest Hs Hn) as Hs'. split; [done|].
    intros _. destruct Hs' as [Ho' _ _]. destruct Hsm as [[-> Hle]|[-> Hle]].
    - exists (length st), s. split_and!; [done..|apply lookup_insert_eq| |].
      + intros t Ht. apply (o_inj _ _ Ho' _ _ _ Ht). simpl. apply lookup_insert_eq.
      + intros k v. destruct (decide (k = Id s)) as [-> |]; [rewrite lookup_insert_eq; intros [= <-]; lia|].
        rewrite lookup_insert_ne by done. intros Hv%Hmin. lia.
    - exists q, x. split_and!; [done|by apply lookup_app_l_Some|rewrite lookup_insert_ne; [done|congruence]| |].
      + intros t Ht. apply Hown. destruct t as [k|k|k]; simpl in *; [|done..].
        destruct (decide (k = Id s)) as [-> |]; [|by rewrite lookup_insert_ne in Ht].
        rewrite lookup_insert_eq in Ht. injection Ht as <-. apply lookup_lt_Some in Hx. lia.
      + intros k v. destruct (decide (k = Id s)) as [-> |]; [rewrite lookup_insert_eq; intros [= <-]; lia|].
        rewrite lookup_insert_ne by done. apply Hmin. }
  destruct (isHigher x s) eqn:Eh; eexists _, _; (split_and!; [done| |done]); apply Hle.
  - left. split; [done|]. unfold isHigher in Eh. destruct (Z.gtb_spec (Score x) (Score s)); [lia|].
    apply andb_prop in Eh as [Eh _]. lia.
  - right. split; [done|]. unfold isHigher in Eh. destruct (Z.gtb_spec (Score x) (Score s)); [done|lia].
Qed.

(** The element at [p] takes the place of the lowest, which is hidden. *)
Lemma replaceMin_ok st crdt T O p e q x hidden :
  shows st crdt T O -> bounded T -> Score e < MaxInt32 ->
  smallestScore crdt = Some q -> st !! q = Some x -> T !! Id x = Some (Score x) ->
  (forall t, slot crdt t = Some q -> t = InTop (Id x)) ->
  st !! p = Some e -> p <> q -> T !! Id e = None ->
  (forall t, slot crdt t = Some p -> t = Hidden (Id e)) -> (hidden = false -> O !! Id e = None) ->
  exists st' crdt', replaceMin range crdt (Id e) p hidden st = Some (crdt', st') /\
    reps st' crdt' (<[Id e := Score e]> (delete (Id x) T)) (delete (Id e) (<[Id x := Score x]> O)) /\
    same crdt' crdt /\ notPropagated crdt' = notPropagated crdt.
Proof.
  intros Hs HB He Hq Hx HTx Hown Hp Hpq HTn Hpown Hh.
  assert (Hne : Id x <> Id e) by congruence.
  pose (out := if hidden then delete (Id e) (<[Id x := q]> (notInTop crdt)) else <[Id x := q]> (notInTop crdt)).
  pose (crdt1 := set_maps crdt (Some q) (<[Id e := p]> (delete (Id x) (elems crdt))) out (notPropagated crdt)).
  assert (Hs1 : shows st crdt1 (<[Id e := Score e]> (delete (Id x) T)) (delete (Id e) (<[Id x := Score x]> O))).
  { destruct Hs as [Ho HT HO].
    assert (Hout : notInTop crdt !! Id e = None \/ hidden = true).
    { destruct hidden; [by right|left]. specialize (Hh eq_refl). rewrite <- HO, lookup_scores in Hh.
      destruct (notInTop crdt !! Id e) as [r|] eqn:Er; [|done].
      destruct (o_cell _ _ Ho (Hidden (Id e)) r Er) as (y & Hy & _). simpl in Hh. by rewrite Hy in Hh. }
    split.
    - eapply (owns_ext _ (fset (fset (fset (fset (slot crdt) (InTop (Id x)) None) (Hidden (Id e)) None)
                             (Hidden (Id x)) (Some q)) (InTop (Id e)) (Some p))).
      + intros t. unfold fset, crdt1, out. destruct t as [k|k|k]; simpl.
        * destruct (decide (k = Id e)) as [-> |Hk].
          { rewrite lookup_insert_eq. by destruct (decide (InTop (Id e) = InTop (Id e))). }
          rewrite (decide_False (P := InTop k = InTop (Id e))), lookup_insert_ne by congruence.
          destruct (decide (k = Id x)) as [-> |Hkx].
          { rewrite lookup_delete_eq. by destruct (decide (InTop (Id x) = InTop (Id x))). }
          rewrite (decide_False (P := InTop k = InTop (Id x))), lookup_delete_ne by congruence. done.
        * destruct (decide (k = Id x)) as [-> |Hkx].
          { destruct (decide (Hidden (Id x) = Hidden (Id x))); [|done].
            destruct hidden; [rewrite lookup_delete_ne by done|]; by rewrite lookup_insert_eq. }
          rewrite (decide_False (P := Hidden k = Hidden (Id x))) by congruence.
          destruct (decide (k = Id e)) as [-> |Hk].
          { destruct (decide (Hidden (Id e) = Hidden (Id e))); [|done].
            destruct hidden; [by rewrite lookup_delete_eq|]. rewrite lookup_insert_ne by done.
            destruct Hout as [->|]; done. }
          rewrite (decide_False (P := Hidden k = Hidden (Id e))) by congruence.
          destruct hidden; [rewrite lookup_delete_ne by done|]; by rewrite lookup_insert_ne.
        * done.
      + eapply owns_some; [|done|done|].
        * eapply owns_some; [by do 2 apply owns_none|done|done|].
          intros u. unfold fset. repeat case_decide; [done..|]. intros Hu%Hown. congruence.
        * intros u. unfold fset. repeat case_decide; [congruence|done..|]. intros Hu%Hpown. congruence.
    - simpl. by rewrite (scores_insert _ _ _ _ e Hp), scores_delete, HT.
    - unfold crdt1, out. simpl. destruct hidden.
      + by rewrite scores_delete, (scores_insert _ _ _ _ x Hx), HO.
      + rewrite (scores_insert _ _ _ _ x Hx), HO. rewrite delete_id; [done|].
        rewrite lookup_insert_ne by done. by apply Hh. }
  destruct (findAndUpdateMin_ok st crdt1 _ _ Hs1) as (st' & crdt' & E & Hr & H1 & H2 & H3).
  { apply insert_non_empty. }
  { intros k v. destruct (decide (k = Id e)) as [-> |]; [rewrite lookup_insert_eq; intros [= <-]; lia|].
    rewrite lookup_insert_ne by done. intros [_ Hv]%lookup_delete_Some. apply HB in Hv. lia. }
  exists st', crdt'. split_and!; [|done..].
  unfold replaceMin, mbind, ST_bind, of_option. rewrite Hq, (load_ok _ q x Hx). exact E.
Qed.

Definition has_data (op : TopKScore) : Prop := is_Some (Data op).

Lemma addHidden_ok n st crdt T O op src p :
  reps st crdt T O -> top_ok n T O -> Z.of_nat (size T) = n -> T <> ∅ -> has_data op ->
  notInTop crdt !! Id op = Some p -> T !! Id op = None -> 0 <= Score op ->
  sumOf T O (Id op) + Score op < MaxInt32 ->
  exists st' crdt' eff other flag T' O', addHidden NReplicas range crdt op src p st = Some ((crdt', eff, other, flag), st') /\
    reps st' crdt' T' O' /\ add_step n (Id op) (Score op) T O T' O' /\ same crdt' crdt.
Proof.
  intros [Hs Hm] Hok Hsz HT0 [d Hd] Hp HTn H0 Hlt.
  destruct (Hm HT0) as (q & x & Hq & Hx & HTx & Hown & Hmin). pose proof Hs as [Ho HT HO].
  destruct (o_cell _ _ Ho (Hidden (Id op)) p Hp) as (e & He & Hk). simpl in Hk.
  assert (HOe : O !! Id op = Some (Score e)).
  { rewrite <- HO, lookup_scores, Hp. simpl. by rewrite He. }
  unfold sumOf in Hlt. rewrite lookup_union_r, HOe in Hlt by done. simpl in Hlt.
  assert (Hrange : 0 <= Score e).
  { eapply (t_range _ _ _ Hok (Id op)). by rewrite lookup_union_r. }
  pose (e' := addScore (Score op) e).
  assert (Hsc : Score e' = Score e + Score op) by (apply int32_id; lia).
  assert (HB : bounded T). { intros k v Hk'. eapply (t_range _ _ _ Hok k). by eapply lookup_union_Some_l. }
  assert (Hpq : p <> q). { intros ->. by specialize (Hown (Hidden (Id op)) Hp). }
  pose (st1 := <[p := e']> st).
  assert (Hp1 : st1 !! p = Some e') by (apply list_lookup_insert_eq; by eapply lookup_lt_Some).
  assert (Hx1 : st1 !! q = Some x) by (unfold st1; by rewrite list_lookup_insert_ne).
  pose proof (shows_store_out _ _ _ _ _ _ _ e' Hs Hp He eq_refl) as Hs1. fold st1 in Hs1. rewrite Hsc in Hs1.
  unfold addHidden, mbind, ST_bind. rewrite (load_ok _ p e He). fold e'. rewrite (store_ok st p e' e He). fold st1.
  unfold loadMin at 1. unfold mbind, ST_bind, of_option at 1. rewrite Hq, (load_ok _ q x Hx1).
  destruct (isHigher e' x) eqn:Eh.
  - assert (Score x <= Score e').
    { unfold isHigher in Eh. destruct (Z.gtb_spec (Score e') (Score x)); [lia|].
      apply andb_prop in Eh as [Eh _]. lia. }
    destruct (replaceMin_ok st1 crdt T _ p e' q x true Hs1 HB) as (st2 & crdt2 & E2 & Hr2 & Hsame & Hnp); try done.
    { lia. }
    { simpl. by rewrite Hk. }
    { intros t Ht. pose proof (o_inj _ _ Ho t (Hidden (Id op)) p Ht Hp). simpl. congruence. }
    assert (Hstep : add_step n (Id op) (Score op) T O (<[Id op := Score e + Score op]> (delete (Id x) T))
                      (delete (Id op) (<[Id x := Score x]> O))).
    { eapply step_promote; [done|done| |done|done|lia]. by rewrite HOe. }
    simpl Id in Hr2. rewrite Hk, Hsc in Hr2.
    replace (delete (Id op) (<[Id x:=Score x]> (<[Id op:=Score e + Score op]> O)))
      with (delete (Id op) (<[Id x:=Score x]> O)) in Hr2.
    2:{ assert (Id x <> Id op) by congruence. rewrite insert_insert_ne by done.
        by rewrite delete_insert_eq. }
    unfold promote, mbind, ST_bind. rewrite E2.
    destruct (notPropagated crdt2 !! Id op) as [np|] eqn:Enp.
    + destruct Hr2 as [Hs2 Hm2]. pose proof Hs2 as [Ho2 _ _].
      destruct (o_cell _ _ Ho2 (Unsent (Id op)) np Enp) as (u & Hu & _).
      rewrite (load_ok _ np u Hu). unfold of_option. rewrite Hd.
      destruct (src =? replicaID _); (eexists _, _, _, _, _, _, _; split_and!; [done| |done|done]);
        by apply reps_unsent_delete.
    + by eexists _, _, _, _, _, _, _.
  - assert (Score e' <= Score x).
    { unfold isHigher in Eh. destruct (Z.gtb_spec (Score e') (Score x)); [done|lia]. }
    assert (Hr1 : reps st1 crdt T (<[Id op := Score e + Score op]> O)).
    { split; [done|]. intros _. by apply (has_min_store st crdt T p e' (Hidden (Id op))); [apply Hm| |]. }
    assert (Hstep : add_step n (Id op) (Score op) T O T (<[Id op := Score e + Score op]> O)).
    { eapply step_hidden; [done|done| |done|done|lia]. by rewrite HOe. }
    assert (Hunsent : forall o,
      notPropagated crdt !! Id op = o ->
      exists st2 crdt2 np u, addUnsent crdt op (Id e') o st1 = Some ((crdt2, np), st2) /\
        reps st2 crdt2 T (<[Id op := Score e + Score op]> O) /\ same crdt2 crdt /\ st2 !! np = Some u).
    { intros [np|] Enp; unfold addUnsent, mbind, ST_bind.
      - destruct (o_cell _ _ Ho (Unsent (Id op)) np Enp) as (u & Hu & Hku).
        assert (Hu1 : st1 !! np = Some u).
        { unfold st1. rewrite list_lookup_insert_ne; [done|]. intros ->.
          by pose proof (o_inj _ _ Ho (Unsent (Id op)) (Hidden (Id op)) np Enp Hp). }
        rewrite (modify_ok st1 np _ u Hu1). eexists _, crdt, np, _.
        split_and!; [done| |done|apply list_lookup_insert_eq; by eapply lookup_lt_Some].
        by eapply reps_unsent_store.
      - cbn. eexists _, _, _, op. split_and!; [done| |done|by apply list_lookup_middle].
        rewrite Hk. by apply reps_unsent_new. }
    destruct (negb (src =? replicaID crdt)), (notPropagated crdt !! Id op) as [np|] eqn:Enp.
    2-4: destruct (Hunsent _ eq_refl) as (st2 & crdt2 & np' & u & E2 & Hr2 & Hsame & Hu); rewrite E2, (load_ok _ np' u Hu);
      destruct (shouldReplicate _ _ _ _); [unfold of_option; rewrite Hd|];
      (eexists _, _, _, _, _, _, _; split_and!; [done| |done|done]); [by apply reps_unsent_delete|done].
    destruct (o_cell _ _ Ho (Unsent (Id op)) np Enp) as (u & Hu & Hku).
    rewrite (load_ok st1 np u). 2:{ unfold st1. rewrite list_lookup_insert_ne; [done|]. intros ->.
      by pose proof (o_inj _ _ Ho (Unsent (Id op)) (Hidden (Id op)) np Enp Hp). }
    by eexists _, crdt, _, _, _, _, _.
Qed.

Lemma reps_out_new st crdt T O s :
  reps st crdt T O -> notInTop crdt !! Id s = None ->
  reps (st ++ [s]) (set_out crdt (<[Id s := length st]> (notInTop crdt))) T (<[Id s := Score s]> O).
Proof.
  intros [Hs Hm] Hn. pose proof Hs as [Ho _ _]. destruct (shows_new _ _ T O s Hs) as [Ho' HT HO].
  assert (Hcell : (st ++ [s]) !! length st = Some s) by (by apply list_lookup_middle).
  assert (Eslot : forall t, slot (set_out crdt (<[Id s := length st]> (notInTop crdt))) t =
                       fset (slot crdt) (Hidden (Id s)) (Some (length st)) t).
  { intros t. unfold fset. destruct (decide (t = Hidden (Id s))) as [-> |Hne]; [apply lookup_insert_eq|].
    destruct t as [k|k|k]; simpl; [done| |done]. apply lookup_insert_ne. congruence. }
  split; [split; [|done|]|].
  - eapply owns_ext; [intros t; symmetry; apply Eslot|].
    eapply owns_some; [done..|]. intros u Hu. by apply (owns_fresh st _ u Ho) in Hu.
  - simpl. by rewrite (scores_insert _ _ _ _ s Hcell), HO.
  - intros HT0. destruct (Hm HT0) as (q & x & Hq & Hx & HTx & Hown & Hmin).
    exists q, x. split_and!; [done|by apply lookup_app_l_Some|done| |done].
    intros t. rewrite Eslot. unfold fset. case_decide; [|apply Hown].
    intros [= <-]. apply lookup_lt_Some in Hx. lia.
Qed.

Lemma addNew_ok n st crdt T O op :
  reps st crdt T O -> top_ok n T O -> Z.of_nat (size T) = n -> T <> ∅ ->
  notInTop crdt !! Id op = None -> T !! Id op = None -> 0 <= Score op < MaxInt32 ->
  exists st' crdt' eff other flag T' O', addNew NReplicas range crdt op st = Some ((crdt', eff, other, flag), st') /\
    reps st' crdt' T' O' /\ add_step n (Id op) (Score op) T O T' O' /\ same crdt' crdt.
Proof.
  intros [Hs Hm] Hok Hsz HT0 Hn HTn H0.
  destruct (Hm HT0) as (q & x & Hq & Hx & HTx & Hown & Hmin). pose proof Hs as [Ho HT HO].
  assert (HOn : O !! Id op = None) by (by rewrite <- HO, lookup_scores, Hn).
  assert (HB : bounded T). { intros k v Hk'. eapply (t_range _ _ _ Hok k). by eapply lookup_union_Some_l. }
  assert (Hx1 : (st ++ [op]) !! q = Some x) by (by apply lookup_app_l_Some).
  assert (Hp1 : (st ++ [op]) !! length st = Some op) by (by apply list_lookup_middle).
  unfold addNew, loadMin. unfold mbind, ST_bind, of_option, new at 1. rewrite Hq, (load_ok _ q x Hx1).
  destruct (isHigher op x) eqn:Eh.
  - assert (Score x <= Score op).
    { unfold isHigher in Eh. destruct (Z.gtb_spec (Score op) (Score x)); [lia|].
      apply andb_prop in Eh as [Eh _]. lia. }
    destruct (replaceMin_ok (st ++ [op]) crdt T O (length st) op q x false (shows_new _ _ T O op Hs) HB)
      as (st2 & crdt2 & E2 & Hr2 & Hsame & _); try done.
    { lia. }
    { intros <-. apply lookup_lt_Some in Hx. lia. }
    { intros t Ht. by apply (owns_fresh st _ t Ho) in Ht. }
    rewrite E2. eexists _, _, _, _, _, _, _. split_and!; [done|done| |done].
    eapply step_promote; [done|done| |done|done|lia]. by rewrite HOn.
  - assert (Score op <= Score x).
    { unfold isHigher in Eh. destruct (Z.gtb_spec (Score op) (Score x)); [done|lia]. }
    assert (Hstep : add_step n (Id op) (Score op) T O T (<[Id op := Score op]> O)).
    { eapply step_hidden; [done|done| |done|done|lia]. by rewrite HOn. }
    pose proof (reps_out_new st crdt T O op (conj Hs Hm) Hn) as Hr2.
    destruct (shouldReplicate _ _ _ _).
    + by eexists _, _, _, _, _, _, _.
    + eexists _, _, _, _, _, _, _. split_and!; [done| |done|done].
      by apply (reps_unsent_new _ _ _ _ (Id op) op) in Hr2.
Qed.

(** An add of a positive amount is a step on the sums. *)
Lemma add_refines n st crdt T O op src :
  reps st crdt T O -> top_ok n T O -> maxElems crdt = n -> 1 <= n -> has_data op -> 0 <= Score op ->
  sumOf T O (Id op) + Score op < MaxInt32 ->
  exists st' crdt' eff other flag T' O',
    applyTopSAddDownstreamArgs NReplicas range crdt op src st = Some ((crdt', eff, other, flag), st') /\
    reps st' crdt' T' O' /\ add_step n (Id op) (Score op) T O T' O' /\ same crdt' crdt.
Proof.
  intros Hr Hok Hn H1 Hd H0 Hlt. pose proof Hr as [Hs Hm]. pose proof (scores_size _ _ _ _ Hs) as Hsz.
  pose proof Hs as [Ho HT HO].
  assert (HB : bounded T). { intros k v Hk'. eapply (t_range _ _ _ Hok k). by eapply lookup_union_Some_l. }
  assert (Hnone : elems crdt !! Id op = None -> T !! Id op = None).
  { intros E. by rewrite <- HT, lookup_scores, E. }
  unfold applyTopSAddDownstreamArgs. rewrite Hsz. destruct (Nat.eqb_spec (size T) 0) as [Hz|Hz].
  { apply map_size_empty_inv in Hz as ->. rewrite map_size_empty in Hsz. apply map_size_empty_inv in Hsz.
    destruct (addFirst_ok st crdt O op Hs Hsz) as (crdt' & E & Hr' & Hsame).
    unfold mbind, ST_bind. rewrite E. eexists _, _, _, _, _, _, _. split_and!; [done|done| |done].
    rewrite <- insert_empty. apply step_room; [apply lookup_empty|]. rewrite map_size_empty. lia. }
  assert (HT0 : T <> ∅) by (by intros ->).
  destruct (elems crdt !! Id op) as [p|] eqn:Ep.
  { destruct (o_cell _ _ Ho (InTop (Id op)) p Ep) as (e & He & Hk).
    assert (HTe : T !! Id op = Some (Score e)) by (rewrite <- HT, lookup_scores, Ep; simpl; by rewrite He).
    unfold sumOf in Hlt. rewrite (lookup_union_Some_l _ _ _ (Score e)) in Hlt by done. simpl in Hlt.
    destruct (updateTop_ok st crdt T O (Id op) p (Score e) (Score op)) as (st' & crdt' & E & Hr' & Hsame); try done.
    unfold mbind, ST_bind. rewrite (load_ok _ p e He), E.
    eexists _, _, _, _, _, _, _. split_and!; [done|done| |done]. by apply step_top. }
  specialize (Hnone eq_refl). rewrite Hn. destruct (Z.ltb_spec (Z.of_nat (size T)) n) as [Hroom|Hfull].
  { destruct (addToTop_ok st crdt T O op Hr HT0 Ep) as (crdt' & o & E & Hr' & Hsame).
    unfold mbind, ST_bind. rewrite E. eexists _, _, _, _, _, _, _. split_and!; [done|done| |done].
    by apply step_room. }
  assert (Hsize : Z.of_nat (size T) = n) by (pose proof (t_size _ _ _ Hok); lia).
  destruct (notInTop crdt !! Id op) as [p|] eqn:Eo; [by eapply addHidden_ok|].
  apply addNew_ok; try done. split; [done|].
  assert (0 <= sumOf T O (Id op)); [|lia].
  unfold sumOf. destruct ((T ∪ O) !! Id op) eqn:E; simpl; [|lia]. by apply Hok in E as [].
Qed.

(** ** Runs of adds *)

(** The adds of a replica and those of others. *)
Fixpoint adds (crdt : TopSumCrdt) (ops : list (TopKScore * Z)) : M TopSumCrdt :=
  match ops with
  | [] => mret crdt
  | (s, src) :: ops =>
      '(crdt, _, _, _) ← topsum_applyDownstream NReplicas range crdt (DownstreamTopSAdd s false src); adds crdt ops
  end.

(** What was added to an element. *)
Definition totalOf (id : Z) (ops : list (TopKScore * Z)) : Z :=
  zsum (fun o => if Id o.1 =? id then Score o.1 else 0) ops.

Definition positive_adds (ops : list (TopKScore * Z)) : Prop :=
  Forall (fun o => 0 <= Score o.1 /\ has_data o.1) ops.

Lemma adds_refine n ops : forall st crdt T O,
  reps st crdt T O -> top_ok n T O -> maxElems crdt = n -> 1 <= n -> positive_adds ops ->
  (forall id, sumOf T O id + totalOf id ops < MaxInt32) ->
  exists st' crdt' T' O', adds crdt ops st = Some (crdt', st') /\ reps st' crdt' T' O' /\ top_ok n T' O' /\
    (forall id, sumOf T' O' id = sumOf T O id + totalOf id ops) /\
    (forall id, is_Some ((T' ∪ O') !! id) <-> is_Some ((T ∪ O) !! id) \/ id ∈ Id <$> ops.*1).
Proof.
  induction ops as [|[s src] ops IH]; intros st crdt T O Hr Hok Hn H1 Hpos Hlt.
  - exists st, crdt, T, O. split_and!; try done.
    + intros id. unfold totalOf. simpl. lia.
    + intros id. split; [by left|]. intros [|Hin]; [done|]. by apply not_elem_of_nil in Hin.
  - apply Forall_cons in Hpos as [[Hp Hd] Hpos]. simpl in Hp, Hd.
    assert (Htot : forall id, totalOf id ((s, src) :: ops) = (if Id s =? id then Score s else 0) + totalOf id ops) by done.
    assert (Hnn : forall id, 0 <= totalOf id ops).
    { intros id. unfold totalOf. apply zsum_nonneg. intros o Ho. apply Forall_forall with (x := o) in Hpos; [|done].
      destruct (Id o.1 =? id); [tauto|lia]. }
    assert (Hsum : sumOf T O (Id s) + Score s < MaxInt32).
    { specialize (Hlt (Id s)). rewrite Htot, Z.eqb_refl in Hlt. specialize (Hnn (Id s)). lia. }
    destruct (add_refines n st crdt T O s src Hr Hok Hn H1 Hd Hp Hsum)
      as (st1 & crdt1 & eff & other & flag & T1 & O1 & E1 & Hr1 & Hstep & Hsame & Hmax).
    pose proof (top_ok_step _ _ _ _ _ _ _ Hok Hp Hsum Hstep) as Hok1.
    pose proof (add_step_sums _ _ _ _ _ _ _ Hok Hstep) as Hsums.
    assert (Hs1 : forall id, sumOf T1 O1 id = sumOf T O id + (if Id s =? id then Score s else 0)).
    { intros id. unfold sumOf at 1. rewrite Hsums. destruct (Z.eqb_spec (Id s) id) as [<-|].
      - by rewrite lookup_insert_eq.
      - rewrite lookup_insert_ne by done. unfold sumOf. lia. }
    destruct (IH st1 crdt1 T1 O1) as (st' & crdt' & T' & O' & E & Hr' & Hok' & Hs' & Hd'); try done.
    { congruence. }
    { intros id. rewrite Hs1. specialize (Hlt id). rewrite Htot in Hlt. lia. }
    exists st', crdt', T', O'. split_and!; [|done|done| |].
    + cbn [adds topsum_applyDownstream]. unfold mbind, ST_bind. rewrite E1. exact E.
    + intros id. rewrite Hs', Hs1, Htot. lia.
    + intros id. rewrite Hd', Hsums. cbn [fmap list_fmap fst]. rewrite elem_of_cons.
      destruct (decide (id = Id s)) as [-> |]; [rewrite lookup_insert_eq|rewrite lookup_insert_ne by done]; naive_solver.
Qed.

Lemma getState_shows st crdt T O :
  shows st crdt T O ->
  exists l, getState range crdt st = Some (l, st) /\ NoDup (Id <$> l) /\ length l = size T /\
    forall s, s ∈ l <-> exists p, elems crdt !! Id s = Some p /\ st !! p = Some s.
Proof.
  intros Hs. pose proof Hs as [Ho HT _]. destruct (valid_slots _ _ Ho) as (Hv & _ & _).
  destruct (loadAll_view st (elems crdt) (range (elems crdt)) (range_ok _) Hv) as (l & E & Hl).
  assert (Hkey : forall k s, view st (elems crdt) !! k = Some s -> Id s = k).
  { intros k s. rewrite lookup_view. intros (p & Hp & Hx)%bind_Some.
    destruct (o_cell _ _ Ho (InTop k) p Hp) as (y & Hy & Hk). simpl in Hk. congruence. }
  exists l. split_and!; [done| | |].
  - rewrite Hl. rewrite <- list_fmap_compose.
    rewrite (list_fmap_ext _ fst); [apply NoDup_fst_map_to_list|].
    intros i [k s] Hi%list_elem_of_lookup_2%elem_of_map_to_list. by apply Hkey in Hi.
  - rewrite Hl, length_fmap, length_map_to_list, <- HT. unfold scores. by rewrite map_size_fmap.
  - intros s. rewrite Hl, list_elem_of_fmap. split.
    + intros ([k y] & -> & Hk%elem_of_map_to_list). simpl. rewrite (Hkey _ _ Hk).
      rewrite lookup_view in Hk. by apply bind_Some in Hk.
    + intros (p & Hp & Hx). exists (Id s, s). split; [done|]. apply elem_of_map_to_list.
      by rewrite lookup_view, Hp.
Qed.

Lemma reps_initial rid n : reps [] (InitializeWithSize rid n) ∅ ∅ /\ (1 <= n -> top_ok n ∅ ∅).
Proof.
  split; [split; [split|done]|].
  - split; intros [k|k|k] *; simpl; by rewrite lookup_empty.
  - apply map_eq. intros k. by rewrite lookup_scores.
  - apply map_eq. intros k. by rewrite lookup_scores.
  - intros. split; [apply map_disjoint_empty_l|rewrite map_size_empty; lia|done| |].
    + intros *. by rewrite lookup_empty.
    + intros *. by rewrite map_empty_union, lookup_empty.
Qed.

(** C28. A replica that applied positive adds, its own and those of others in any
    order, shows the elements with the highest sums, each with the sum of what was
    added to it, and as many as fit: an element that it does not show has no
    higher sum than any that it shows. *)
Theorem top_shows_the_highest_sums (n rid : Z) (ops : list (TopKScore * Z)) :
  1 <= n -> positive_adds ops -> (forall id, totalOf id ops < MaxInt32) ->
  exists st crdt shown, adds (InitializeWithSize rid n) ops [] = Some (crdt, st) /\
    getState range crdt st = Some (shown, st) /\
    NoDup (Id <$> shown) /\
    Z.of_nat (length shown) = n `min` Z.of_nat (size (list_to_set (Id <$> ops.*1) : gset Z)) /\
    (forall s, s ∈ shown -> Id s ∈ Id <$> ops.*1 /\ Score s = totalOf (Id s) ops) /\
    (forall s id, s ∈ shown -> id ∈ Id <$> ops.*1 -> id ∉ Id <$> shown -> totalOf id ops <= Score s).
Proof.
  intros H1 Hpos Hlt. destruct (reps_initial rid n) as [Hr Hok].
  destruct (adds_refine n ops [] (InitializeWithSize rid n) ∅ ∅ Hr (Hok H1) eq_refl H1 Hpos)
    as (st & crdt & T & O & E & [Hs _] & Hok' & Hsum & Hdom).
  { intros id. unfold sumOf. rewrite map_empty_union, lookup_empty. simpl. apply Hlt. }
  assert (Hsum0 : forall id, sumOf T O id = totalOf id ops).
  { intros id. rewrite Hsum. unfold sumOf. rewrite map_empty_union, lookup_empty. simpl. lia. }
  assert (Hdom0 : forall id, is_Some ((T ∪ O) !! id) <-> id ∈ Id <$> ops.*1).
  { intros id. rewrite Hdom, map_empty_union, lookup_empty. split; [intros [[]|]; done|by right]. }
  destruct (getState_shows st crdt T O Hs) as (shown & Es & Hnd & Hlen & Hin).
  exists st, crdt, shown. pose proof Hs as [Ho HT HO].
  assert (HinT : forall s, s ∈ shown -> T !! Id s = Some (Score s)).
  { intros s (p & Hp & Hx)%Hin. rewrite <- HT, lookup_scores, Hp. simpl. by rewrite Hx. }
  assert (Hids : forall id, id ∈ Id <$> shown <-> is_Some (T !! id)).
  { intros id. rewrite list_elem_of_fmap. split.
    - intros (s & -> & Hx). by rewrite (HinT s Hx).
    - intros [v Hv]. rewrite <- HT, lookup_scores in Hv. apply bind_Some in Hv as (p & Hp & Hx).
      apply fmap_Some in Hx as (s & Hx & ->). destruct (o_cell _ _ Ho (InTop id) p Hp) as (y & Hy & Hk).
      simpl in Hk. assert (y = s) as -> by congruence. exists s. split; [done|]. apply Hin. rewrite Hk. by exists p. }
  split_and!; try done.
  - rewrite Hlen. assert (HO' : size (list_to_set (Id <$> ops.*1) : gset Z) = (size T + size O)%nat).
    { rewrite <- (map_size_disj_union T O) by apply Hok'. rewrite <- size_dom. f_equal. apply set_eq. intros id.
      by rewrite elem_of_list_to_set, <- Hdom0, elem_of_dom. }
    rewrite HO'. destruct (decide (O = ∅)) as [-> |HO0].
    + rewrite map_size_empty. pose proof (t_size _ _ _ Hok'). lia.
    + pose proof (t_full _ _ _ Hok' HO0). lia.
  - intros s Hx. pose proof (HinT s Hx) as HTs. split.
    + apply Hdom0. exists (Score s). by apply lookup_union_Some_l.
    + rewrite <- Hsum0. unfold sumOf. by rewrite (lookup_union_Some_l _ _ _ (Score s)).
  - intros s id Hx Hid Hnot. apply Hdom0 in Hid as [v Hv]. rewrite Hids in Hnot.
    rewrite lookup_union_r in Hv by (by apply eq_None_not_Some).
    rewrite <- Hsum0. unfold sumOf. rewrite lookup_union_r, Hv by (by apply eq_None_not_Some). simpl.
    eapply (t_above _ _ _ Hok'); [by apply HinT|done].
Qed.

(** ** What is not sent *)

(** An element that no replica sends the adds of stays out of the top: when
    each of the replicas holds back an amount for it, what they all hold back
    does not take it above the lowest of the top. *)
Theorem held_back_adds_stay_below (smallest base : Z) (amounts : list Z) :
  NReplicas = Z.of_nat (length amounts) -> amounts <> [] ->
  0 <= base -> 0 <= smallest < MaxInt32 ->
  Forall (fun a => 0 <= a /\ base + a <= smallest /\ a * NReplicas < MaxInt32 /\
                   shouldReplicate NReplicas smallest (base + a) a = false) amounts ->
  base + zsum id amounts <= smallest.
Proof.
  intros HN Hne Hb Hsm Hall.
  assert (Hone : forall a, a ∈ amounts -> a * (NReplicas + 1) <= smallest - base).
  { intros a Ha. apply (proj1 (Forall_forall _ _) Hall) in Ha as (H0 & Hle & Hlt & Hrep).
    unfold shouldReplicate in Hrep. rewrite !int32_id in Hrep by nia.
    destruct (Z.gtb_spec (a * NReplicas) (smallest - (base + a))); [done|lia]. }
  assert (Hsum : zsum id amounts * (NReplicas + 1) <= Z.of_nat (length amounts) * (smallest - base)).
  { clear -Hone. induction amounts as [|a l IH]; [simpl; lia|].
    assert (Ha : a * (NReplicas + 1) <= smallest - base) by (apply Hone; by left).
    assert (Hl : zsum id l * (NReplicas + 1) <= Z.of_nat (length l) * (smallest - base)).
    { apply IH. intros b Hbl. apply Hone. by right. }
    change (zsum id (a :: l)) with (a + zsum id l). simpl length. rewrite Nat2Z.inj_succ. nia. }
  destruct amounts as [|a l]; [done|]. rewrite <- HN in Hsum.
  assert (0 <= smallest - base).
  { pose proof (proj1 (Forall_forall _ _) Hall a (list_elem_of_here a l)) as (H0 & Hle & _). lia. }
  assert (1 <= NReplicas) by (rewrite HN; simpl; lia).
  nia.
Qed.

End adds.
