(* ===== verification/TopSumErrors.v ===== *)
(** * The top-K object with sums: what goes wrong

    What is held back of an element is lost when it is due
    ([accumulated_adds_are_lost]); rebuilding an old version takes updates away
    from the object itself ([old_versions_take_adds_back]).  Batches,
    subtractions and snapshots: examples on small objects.  Also the witnesses of
    TopSumSpec. *)

From S2P Require Import Prelude Pointers TopK TopSum TopSumSpec.
From Stdlib Require Import ZArith Lia Bool.
From stdpp Require Import base tactics numbers gmap sorting list.
#[local] Open Scope Z_scope.

Section errors.
Context (NReplicas : Z) (range : gmap Z nat -> list nat).
Hypothesis range_ok : forall m, range m ≡ₚ (map_to_list m).*2.

(** Every run of adds leads to an object whose pointers are in order. *)
Lemma run_reps n rid ops st crdt :
  1 <= n -> positive_adds ops -> (forall id, totalOf id ops < MaxInt32) ->
  adds NReplicas range (InitializeWithSize rid n) ops [] = Some (crdt, st) ->
  reps st crdt (scores st (elems crdt)) (scores st (notInTop crdt)) /\ bounded (scores st (elems crdt)).
Proof.
  intros H1 Hpos Hlt E. destruct (reps_initial rid n) as [Hr Hok].
  destruct (adds_refine NReplicas range range_ok n ops [] (InitializeWithSize rid n) ∅ ∅ Hr (Hok H1) eq_refl H1 Hpos)
    as (st' & crdt' & T & O & E' & Hr' & Hok' & _).
  { intros id. unfold sumOf. rewrite map_empty_union, lookup_empty. simpl. apply Hlt. }
  simplify_eq. pose proof Hr' as [[_ -> ->] _]. split; [done|].
  intros k v Hk. eapply (t_range _ _ _ Hok' k). by eapply lookup_union_Some_l.
Qed.

(** When what a replica holds back of a hidden element is enough to be sent,
    only the last add is sent, and what was held back is forgotten: other replicas
    never receive it. *)
Theorem accumulated_adds_are_lost n rid ops st crdt (op x s u : TopKScore) (p q np : nat) :
  1 <= n -> positive_adds ops -> (forall id, totalOf id ops < MaxInt32) ->
  adds NReplicas range (InitializeWithSize rid n) ops [] = Some (crdt, st) ->
  elems crdt <> ∅ -> Z.of_nat (size (elems crdt)) = maxElems crdt -> has_data op ->
  elems crdt !! Id op = None -> notInTop crdt !! Id op = Some p -> st !! p = Some s ->
  smallestScore crdt = Some q -> st !! q = Some x ->
  notPropagated crdt !! Id op = Some np -> st !! np = Some u ->
  int32 (Score s + Score op) < Score x ->
  shouldReplicate NReplicas (Score x) (int32 (Score s + Score op)) (int32 (Score u + Score op)) = true ->
  exists st' crdt' eff,
    topsum_applyDownstream NReplicas range crdt (DownstreamTopSAdd op false (replicaID crdt)) st =
      Some ((crdt', eff, None, DownstreamTopSAdd op true (replicaID crdt)), st') /\
    notPropagated crdt' !! Id op = None.
Proof.
  intros H1 Hpos Hmax Hrun Hne Hsz [d Hd] Ep Hp He Hq Hx Hnp Hu Hlow Hrep.
  destruct (run_reps n rid ops st crdt H1 Hpos Hmax Hrun) as [[Hs Hm] _].
  pose proof Hs as [Ho HT HOe]. destruct Hm as (q' & x' & Hq' & Hx' & _ & Hown & _).
  { intros Hz. apply (f_equal size) in Hz. rewrite <- (scores_size _ _ _ _ Hs), map_size_empty in Hz.
    by apply map_size_empty_inv in Hz. }
  simplify_eq. destruct (o_cell _ _ Ho (Hidden (Id op)) p Hp) as (y & Hy & Hk).
  simplify_eq. simpl in Hk.
  assert (Hpq : p <> q) by (intros ->; by specialize (Hown (Hidden (Id op)) Hp)).
  assert (Hnq : np <> q) by (intros ->; by specialize (Hown (Unsent (Id op)) Hnp)).
  assert (Hpn : p <> np) by (intros ->; by pose proof (o_inj _ _ Ho (Unsent (Id op)) (Hidden (Id op)) np Hnp Hp)).
  assert (Hlt : (p < length st)%nat) by (by eapply lookup_lt_Some).
  unfold topsum_applyDownstream, applyTopSAddDownstreamArgs. unfold mbind at 1, ST_bind at 1.
  rewrite (proj2 (Nat.eqb_neq _ _)). 2:{ by intros Hz%map_size_empty_inv. }
  rewrite Ep, Hsz, Z.ltb_irrefl, Hp.
  unfold addHidden. unfold mbind, ST_bind. rewrite (load_ok _ p s He). cbn zeta.
  rewrite (store_ok st p _ s He). unfold loadMin, mbind, ST_bind, of_option. rewrite Hq.
  rewrite (load_ok _ q x) by (by rewrite list_lookup_insert_ne).
  assert (isHigher (addScore (Score op) s) x = false) as ->.
  { unfold isHigher. simpl. destruct (Z.gtb_spec (int32 (Score s + Score op)) (Score x)); [lia|].
    by rewrite (proj2 (Z.eqb_neq _ _)) by lia. }
  rewrite Z.eqb_refl, Hnp. cbn [negb]. unfold addUnsent, mbind, ST_bind.
  assert (Hu1 : <[p := addScore (Score op) s]> st !! np = Some u) by (by rewrite list_lookup_insert_ne).
  rewrite (modify_ok _ np _ u Hu1). cbn.
  rewrite (load_ok _ np (addScore (Score op) u)).
  2:{ apply list_lookup_insert_eq. rewrite length_insert. by eapply lookup_lt_Some. }
  cbn [addScore Score]. rewrite Hrep, Hd. eexists _, _, _. split; [done|]. simpl. rewrite Hk. apply lookup_delete_eq.
Qed.

(** A version of an object is rebuilt on a copy that shares its elements:
    undoing an add to an element of the top takes the add away from the object
    itself. *)
Theorem old_versions_take_adds_back n rid ops st crdt (op e : TopKScore) (src : Z) (p : nat) :
  1 <= n -> positive_adds ops -> (forall id, totalOf id ops < MaxInt32) ->
  adds NReplicas range (InitializeWithSize rid n) ops [] = Some (crdt, st) ->
  elems crdt !! Id op = Some p -> st !! p = Some e -> 0 <= Score op -> Score e + Score op < MaxInt32 ->
  exists st' crdt' eff other written copy st'',
    topsum_applyDownstream NReplicas range crdt (DownstreamTopSAdd op false src) st = Some ((crdt', eff, other, written), st') /\
    scores st' (elems crdt') !! Id op = Some (Score e + Score op) /\
    topsum_undoEffect (Copy crdt') eff st' = Some (copy, st'') /\
    scores st'' (elems crdt') !! Id op = Some (Score e).
Proof.
  intros H1 Hpos Hmax Hrun Hp He H0 Hlt.
  destruct (run_reps n rid ops st crdt H1 Hpos Hmax Hrun) as [Hr HB]. pose proof Hr as [Hs _].
  set (T := scores st (elems crdt)) in *. set (O := scores st (notInTop crdt)) in *.
  assert (HTe : T !! Id op = Some (Score e)) by (unfold T; rewrite lookup_scores, Hp; simpl; by rewrite He).
  destruct (updateTop_ok range range_ok st crdt T O (Id op) p (Score e) (Score op)) as (st1 & crdt1 & E & [Hs1 _] & _);
    try done.
  pose proof Hs1 as [Ho1 HT1 _].
  assert (HT1e : scores st1 (elems crdt1) !! Id op = Some (Score e + Score op)).
  { rewrite HT1. apply lookup_insert_eq. }
  rewrite lookup_scores in HT1e. apply bind_Some in HT1e as (p1 & Hp1 & He1).
  apply fmap_Some in He1 as (e1 & He1 & Hsc).
  destruct (o_cell _ _ Ho1 (InTop (Id op)) p1 Hp1) as (y & Hy & Hk). simplify_eq.
  exists st1, crdt1, (TopSumAddEffect op (Score e) zeroScore), None, (DownstreamTopSAdd op true src).
  eexists _, _. split_and!.
  - unfold topsum_applyDownstream, applyTopSAddDownstreamArgs. unfold mbind at 1, ST_bind at 1.
    rewrite (proj2 (Nat.eqb_neq _ _)). 2:{ intros Hz%map_size_empty_inv. by rewrite Hz in Hp. }
    rewrite Hp. unfold mbind, ST_bind. rewrite (load_ok _ p e He), E. done.
  - rewrite HT1. apply lookup_insert_eq.
  - unfold topsum_undoEffect, mbind, ST_bind.
    rewrite (proj2 (Z.eqb_neq _ _)). 2:{ specialize (HB _ _ HTe). unfold MinInt32. lia. }
    cbn [elems Copy]. rewrite Hp1. unfold of_option. rewrite (modify_ok _ p1 _ e1 He1). done.
  - rewrite lookup_scores, Hp1. simpl. rewrite list_lookup_insert_eq by (by eapply lookup_lt_Some). done.
Qed.
End errors.

(** ** Small objects *)

Definition el (id v : Z) : TopKScore := mkScore id v (Some []).
Definition inOrder (m : gmap Z nat) : list nat := (map_to_list m).*2.
Definition ops0 : list (TopKScore * Z) := [(el 1 100, 1); (el 2 20, 1)].

Lemma inOrder_ok m : inOrder m ≡ₚ (map_to_list m).*2.
Proof. done. Qed.

Lemma ops0_total id : totalOf id ops0 < MaxInt32.
Proof.
  unfold totalOf, ops0, zsum. cbn [foldr fst Id Score el]. change MaxInt32 with 2147483647.
  destruct (1 =? id), (2 =? id); lia.
Qed.

(** A replica with an element in the top and one, of which 20 is held back, that
    is hidden. *)
Definition one_hidden : option (TopSumCrdt * list TopKScore) :=
  adds 2 inOrder (InitializeWithSize 1 1) ops0 [].

Lemma top_shows_the_highest_sums_witness :
  exists st crdt shown,
    adds 2 inOrder (InitializeWithSize 1 1) ops0 [] = Some (crdt, st) /\ getState inOrder crdt st = Some (shown, st) /\
    NoDup (Id <$> shown) /\
    Z.of_nat (length shown) = 1 `min` Z.of_nat (size (list_to_set (Id <$> ops0.*1) : gset Z)) /\
    (forall s, s ∈ shown -> Id s ∈ Id <$> ops0.*1 /\ Score s = totalOf (Id s) ops0) /\
    (forall s id, s ∈ shown -> id ∈ Id <$> ops0.*1 -> id ∉ Id <$> shown -> totalOf id ops0 <= Score s).
Proof.
  apply (top_shows_the_highest_sums 2 inOrder inOrder_ok 1 1 ops0); [lia| |apply ops0_total].
  repeat constructor; simpl; try lia; by eexists.
Defined.

Lemma held_back_adds_stay_below_witness : 10 + zsum id [20; 25] <= 100.
Proof.
  apply (held_back_adds_stay_below 2 100 10 [20; 25]); try (done || (unfold MaxInt32; lia)).
  repeat constructor; unfold MaxInt32; try lia; by vm_compute.
Defined.

(** The second add of 20 is sent, without the 20 that were held back. *)
Lemma accumulated_adds_are_lost_witness :
  match one_hidden with
  | Some (crdt, st) =>
      exists st' crdt' eff,
        topsum_applyDownstream 2 inOrder crdt (DownstreamTopSAdd (el 2 20) false (replicaID crdt)) st =
          Some ((crdt', eff, None, DownstreamTopSAdd (el 2 20) true (replicaID crdt)), st') /\
        notPropagated crdt' !! 2 = None
  | None => False
  end.
Proof.
  destruct one_hidden as [[crdt st]|] eqn:E; [|by vm_compute in E].
  assert (E' := E). vm_compute in E'. injection E' as Ec Es.
  apply (accumulated_adds_are_lost 2 inOrder inOrder_ok 1 1 ops0 st crdt (el 2 20) (el 1 100) (el 2 20) (el 2 20)
           1%nat 0%nat 2%nat);
    [lia|repeat constructor; simpl; try lia; by eexists|apply ops0_total|exact E|..]; subst crdt st;
    try (by vm_compute); by eexists.
Defined.

(** Reading an old version takes the last add to the top element away. *)
Lemma old_versions_take_adds_back_witness :
  match one_hidden with
  | Some (crdt, st) =>
      exists st' crdt' eff other written copy st'',
        topsum_applyDownstream 2 inOrder crdt (DownstreamTopSAdd (el 1 5) false 1) st =
          Some ((crdt', eff, other, written), st') /\
        scores st' (elems crdt') !! 1 = Some 105 /\
        topsum_undoEffect (Copy crdt') eff st' = Some (copy, st'') /\
        scores st'' (elems crdt') !! 1 = Some 100
  | None => False
  end.
Proof.
  destruct one_hidden as [[crdt st]|] eqn:E; [|by vm_compute in E].
  assert (E' := E). vm_compute in E'. injection E' as Ec Es.
  apply (old_versions_take_adds_back 2 inOrder inOrder_ok 1 1 ops0 st crdt (el 1 5) (el 1 100) 1 0%nat);
    [lia|repeat constructor; simpl; try lia; by eexists|apply ops0_total|exact E|..]; subst crdt st;
    try (by vm_compute).
Defined.

(** ** Examples *)

(** What a list of operations does: each is prepared by another replica. *)
Fixpoint applyAll (crdt : TopSumCrdt) (ops : list DownArgs) : M TopSumCrdt :=
  match ops with
  | [] => mret crdt
  | op :: ops => '(crdt, _, _, _) ← topsum_applyDownstream 2 inOrder crdt op; applyAll crdt ops
  end.

Definition shown (r : option (TopSumCrdt * list TopKScore)) : option (list (Z * Z) * list (Z * Z)) :=
  '(crdt, st) ← r;
  Some (map_to_list (scores st (elems crdt)), map_to_list (scores st (notInTop crdt))).

Definition remote (s : TopKScore) : DownArgs := DownstreamTopSAdd s false (- 2 ^ 15).

(** Two replicas with the same adds: the first holds back 20 and sends the rest. *)
Lemma replicas_diverge :
  shown (applyAll (InitializeWithSize 1 1) (remote <$> [el 1 100; el 2 20; el 2 20]) []) =
    Some ([(1, 100)], [(2, 40)]) /\
  shown (applyAll (InitializeWithSize 2 1) (remote <$> [el 1 100; el 2 20]) []) = Some ([(1, 100)], [(2, 20)]).
Proof. split; by vm_compute. Qed.

(** A subtraction that makes an element the lowest swaps it with the highest
    hidden element, although that one is lower still; whether it does depends on
    whether [smallestScore] points to the element or to a copy of it. *)
Lemma subtraction_promotes_a_lower_element :
  shown (applyAll (InitializeWithSize 1 2)
           ([remote (el 1 100); remote (el 2 90); remote (el 3 1)] ++ [DownstreamTopSSub (el 2 (-1)) false]) []) =
    Some ([(2, 89); (1, 100)], [(3, 1)]) /\
  shown (applyAll (InitializeWithSize 1 2)
           ([remote (el 1 100); remote (el 2 90); remote (el 3 1); remote (el 2 0)] ++
            [DownstreamTopSSub (el 2 (-1)) false]) []) =
    Some ([(3, 1); (1, 100)], [(2, 89)]).
Proof. split; by vm_compute. Qed.

(** One element in the top, two hidden. *)
Definition hidden_two : option (TopSumCrdt * list TopKScore) :=
  applyAll (InitializeWithSize 1 1) (remote <$> [el 2 30; el 3 40; el 1 100]) [].

Definition batch (scores : list TopKScore) : option (TopSumCrdt * list TopKScore * option DownArgs * list TopKScore) :=
  '(crdt, st) ← hidden_two; '(crdt, downs, other, st) ← applyTopSAddAllDownstreamArgs 2 inOrder crdt scores 1 st;
  Some (crdt, downs, other, st).

(** Sending a batch of which nothing is to be sent panics. *)
Lemma held_back_batch_panics :
  exists crdt st, batch [el 2 1; el 3 2] = Some (crdt, [zeroScore; zeroScore], None, st) /\
    MustReplicate (DownstreamTopSAddAll [zeroScore; zeroScore] 1) = true /\
    ToReplicatorObj (DownstreamTopSAddAll [zeroScore; zeroScore] 1) = None.
Proof. eexists _, _. split_and!; by vm_compute. Qed.

(** The elements of a batch share one variable for what is held back. *)
Lemma batch_shares_what_is_held_back :
  exists crdt downs other st p, batch [el 2 1; el 3 2] = Some (crdt, downs, other, st) /\
    notPropagated crdt !! 2 = Some p /\ notPropagated crdt !! 3 = Some p.
Proof. eexists _, _, _, _, _. split_and!; by vm_compute. Qed.

(** The add of a batch that takes an element to the top is not sent. *)
Lemma batch_promotion_not_sent :
  exists crdt other st, batch [el 2 80; el 2 1] = Some (crdt, [el 2 1], other, st) /\
    scores st (elems crdt) !! 2 = Some 111.
Proof. eexists _, _, _. split_and!; by vm_compute. Qed.

(** A new element of a batch that is sent but not shown is kept under the
    identifier of the lowest element of the top. *)
Lemma batch_hides_under_another_key :
  exists crdt downs other st, batch [el 5 60; el 1 1] = Some (crdt, downs, other, st) /\
    notInTop crdt !! 5 = None /\ is_Some (notInTop crdt !! 1).
Proof. eexists _, _, _, _. split_and!; [by vm_compute..|by eexists]. Qed.

(** A snapshot has no room for more hidden elements than there are in the top. *)
Lemma snapshot_of_hidden_panics :
  ('(crdt, st) ← hidden_two; ToProtoState inOrder crdt st) = None.
Proof. by vm_compute. Qed.

(** A client cannot subtract from more than one element: a batch is a batch of
    adds, and a batch of subtractions is only made inside a server. *)
Lemma subtractions_become_adds (l : list TopKScore) :
  length l <> 1%nat ->
  updateTopsProtoToAntidoteUpdate (ToUpdateObject (TopSSubAll l)) =
    TopSAddAll (withData <$> l).
Proof.
  intros Hl. assert (E : elemFromProto <$> (pairOf <$> l) = withData <$> l).
  { rewrite <- list_fmap_compose. apply list_fmap_ext. intros i [id v [d|]] _; done. }
  destruct l as [|a [|b l]]; [done|done|]. simpl in *. by rewrite <- E.
Qed.
