(* ===== verification/Joining.v ===== *)
(** * Joining a running group: replicator.go and remoteGroup.go
      (src/potionDB/components)

    A server that joins sends Join to every other server and keeps what it
    receives until it has an answer of each (a ReplyJoin, or a ReplyEmpty of a
    server that also joins), has asked for each bucket at the server with the
    highest clock, and has all these buckets.  Then it starts, and handles what it
    kept.  A server of the group answers a Join and a RequestBucket in a goroutine
    of its own, which waits for the partitions or the transaction manager.

    [step] is one step of a replica: a message, a goroutine that starts, or an
    answer to one that waits.  The snapshots of objects are protocol buffers
    ([Snap]); a connection is the address it leads to. *)

From S2P Require Import Prelude ClockSI Effects Keys PartitionClock VersionManager.
From S2P Require Import Materializer Logger Replicator ReplicatorProto RemoteMsgs.
From Stdlib Require Import ZArith Lia Bool.
From stdpp Require Import base tactics numbers strings gmap list.
#[local] Open Scope Z_scope.
#[local] Open Scope eff_scope.

Record Join := mkJoin {
  j_SenderID : Z; j_ReplyID : Z; j_CommonBkts : list string; j_ReqIP : string }.
Record ReplyJoin := mkReplyJoin {
  rj_SenderID : Z; rj_ReplyID : Z; rj_Clks : list Timestamp; rj_CommonBkts : list string;
  rj_ReqIP : string }.
Record RequestBucket := mkRequestBucket {
  rb_SenderID : Z; rb_ReplyID : Z; rb_Buckets : list string; rb_ReqIP : string }.
Record RemoteID := mkRemoteID { ri_SenderID : Z; ri_Buckets : list string; ri_IP : string }.

(** ** The group of connections *)

(** [conns] holds the address of each connection. *)
Record RemoteGroup := mkGroup { conns : list string; nReplicas : Z; knownIPs : gmap string Z }.

Definition CreateRemoteGroupStruct (othersIPList : list string) : RemoteGroup :=
  let ips := match othersIPList with
             | [ip] => if (String.length ip <? 2)%nat then [] else othersIPList
             | _ => othersIPList
             end in
  mkGroup ips (Z.of_nat (length ips)) ∅.

(** A slot is filled in the middle of [conns]; out of range it panics.

    An abstraction: this is one step.  In the source the call waits, between the
    growth of [conns] and the entry in [knownIPs], until the connection is open,
    and the goroutines of two Joins hold no lock.  What is proved of the group is
    proved of calls that do not overlap; two that overlap for one address would
    add it twice. *)
Definition AddReplica (ip : string) (group : RemoteGroup) : option (Z * RemoteGroup) :=
  match knownIPs group !! ip with
  | Some id => Some (id, group)
  | None =>
      let slot := nReplicas group in
      let grown := conns group ++ [EmptyString] in
      if (slot <? 0) || (Z.of_nat (length grown) <=? slot) then None
      else Some (slot, mkGroup (<[Z.to_nat slot := ip]> grown) (nReplicas group + 1)
                         (<[ip := slot]> (knownIPs group)))
  end.

(** [group.conns[i]]. *)
Definition connAt (group : RemoteGroup) (i : Z) : option string :=
  if i <? 0 then None else conns group !! Z.to_nat i.

(** [group.conns[group.knownIPs[ip]]]: an unknown address reads 0. *)
Definition connTo (group : RemoteGroup) (ip : string) : option string :=
  connAt group (default 0 (knownIPs group !! ip)).

Section joining.
Context {Upd Trigger Snap : Type}.

Record ReplyBucket := mkReplyBucket {
  rp_SenderID : Z; rp_PartStates : list (list Snap); rp_Clk : vclock }.

Inductive Msg :=
  | M_StableClock (c : StableClock)
  | M_Txn (t : RemoteTxn Upd)
  | M_Group (g : RemoteTxnGroup Upd)
  | M_RemoteID (r : RemoteID)
  | M_Trigger (t : Trigger) (isGeneric : bool)
  | M_Join (j : Join)
  | M_RequestBucket (r : RequestBucket)
  | M_ReplyJoin (r : ReplyJoin)
  | M_ReplyBucket (r : ReplyBucket)
  | M_ReplyEmpty.

(** What the replicator tells the transaction manager. *)
Inductive TMMsg :=
  | TM_Msg (m : TMRemoteMsg Upd)
  | TM_Trigger (t : Trigger) (isGeneric : bool)
  | TM_GetSnapshot (buckets : gset string)
  | TM_Apply (PartStates : list (list Snap)) (Clk : vclock).

(** A message to another server, with the address its connection leads to. *)
Inductive Out :=
  | ToTM (m : TMMsg)
  | AskClocks
  | Send (ip : string) (m : Msg)
  | SendID (ip : string) (buckets : list string) (myIP : string)
  | SendJoinTo (ip : string) (buckets : list string) (replicaID : Z) (myIP : string)
  | StartReceiving
  | StartReplicating.

Record JoinInfo := mkJoinInfo {
  holdMsgs : list Msg; waitFor : Z; holdReplyJoins : list (option ReplyJoin);
  nHoldJoins : nat; allDone : bool }.

(** The goroutines that answer other servers: not started, or what they wait
    for.  [missing] counts the clocks to receive. *)
Inductive Goroutine :=
  | GJoin (req : Join)
  | GClocks (req : Join) (sendTo : Z) (Clks : list Timestamp) (missing : nat)
  | GRequest (req : RequestBucket)
  | GSnapshot (req : RequestBucket).

(** [queueing] while queueRemoteRequests runs, [receiving] once
    receiveRemoteTxns does. *)
Record Repl := mkRepl {
  info : JoinInfo; group : RemoteGroup; NReplicas : Z;
  queueing : bool; receiving : bool; goroutines : gmap nat Goroutine }.

(** The constants of a server. *)
Record JoinEnv := mkJoinEnv {
  replicaID : Z; buckets : list string; localRabbitMQIP : string; localPotionIP : string;
  nParts : nat; doesJoin : bool; IsReplDisabled : bool }.

Abbreviation J := (M JoinEnv Repl Out).

Definition set_info (i : JoinInfo) (r : Repl) : Repl :=
  mkRepl i (group r) (NReplicas r) (queueing r) (receiving r) (goroutines r).
Definition set_group (g : RemoteGroup) (r : Repl) : Repl :=
  mkRepl (info r) g (NReplicas r) (queueing r) (receiving r) (goroutines r).
Definition set_NReplicas (n : Z) (r : Repl) : Repl :=
  mkRepl (info r) (group r) n (queueing r) (receiving r) (goroutines r).
Definition set_routines (b c : bool) (r : Repl) : Repl :=
  mkRepl (info r) (group r) (NReplicas r) b c (goroutines r).
Definition set_goroutines (g : gmap nat Goroutine) (r : Repl) : Repl :=
  mkRepl (info r) (group r) (NReplicas r) (queueing r) (receiving r) g.

Definition set_waitFor (n : Z) (i : JoinInfo) : JoinInfo :=
  mkJoinInfo (holdMsgs i) n (holdReplyJoins i) (nHoldJoins i) (allDone i).
Definition set_allDone (i : JoinInfo) : JoinInfo :=
  mkJoinInfo (holdMsgs i) (waitFor i) (holdReplyJoins i) (nHoldJoins i) true.
Definition hold (m : Msg) (i : JoinInfo) : JoinInfo :=
  mkJoinInfo (holdMsgs i ++ [m]) (waitFor i) (holdReplyJoins i) (nHoldJoins i) (allDone i).
Definition noJoinInfo : JoinInfo := mkJoinInfo [] 0 [] 0 false.

Definition update_info (f : JoinInfo -> JoinInfo) : J unit := modify (fun r => set_info (f (info r)) r).
Definition tell (m : TMRemoteMsg Upd) : J unit := emit (ToTM (TM_Msg m)).

(** [go f()]: the goroutine gets a fresh identifier. *)
Definition spawn (g : Goroutine) : J unit :=
  modify (fun r => set_goroutines (<[fresh (dom (goroutines r)) := g]> (goroutines r)) r).

Definition addReplica (ip : string) : J Z :=
  r <- get ;;
  '(slot, g) <- must (AddReplica ip (group r)) ;;
  modify (set_group g) ;;; ret slot.

(** ** Servers of the group *)

(** What the partitions answer arrives later ([reply_clock]). *)
Definition handleJoin (id : nat) (req : Join) : J unit :=
  e <- ask ;;
  emit AskClocks ;;;
  sendTo <- addReplica (j_ReqIP req) ;;
  modify (fun r => set_goroutines
    (<[id := GClocks req sendTo (replicate (nParts e) None) (nParts e)]> (goroutines r)) r).

(** The end of handleJoin, when every partition has answered. *)
Definition sendReplyJoin (req : Join) (sendTo : Z) (Clks : list Timestamp) : J unit :=
  e <- ask ;;
  tell (TMReplicaID (j_SenderID req) EmptyString []) ;;;
  r <- get ;;
  ip <- must (connAt (group r) sendTo) ;;
  emit (Send ip (M_ReplyJoin (mkReplyJoin (replicaID e) 0 Clks (j_CommonBkts req) (localRabbitMQIP e)))).

(** [replyJoin.Clks[reply.partID] = reply.Timestamp]. *)
Definition setClk (Clks : list Timestamp) (part : Z) (ts : vclock) : option (list Timestamp) :=
  if (part <? 0) || (Z.of_nat (length Clks) <=? part) then None
  else Some (<[Z.to_nat part := Some ts]> Clks).

(** An iteration of the loop of handleJoin; the goroutine ends after the last. *)
Definition reply_clock (id : nat) (req : Join) (sendTo : Z) (Clks : list Timestamp) (missing : nat)
  (part : Z) (ts : vclock) : J unit :=
  Clks <- must (setClk Clks part ts) ;;
  match missing with
  | O => panic
  | 1%nat => modify (fun r => set_goroutines (delete id (goroutines r)) r) ;;; sendReplyJoin req sendTo Clks
  | S missing => modify (fun r => set_goroutines (<[id := GClocks req sendTo Clks missing]> (goroutines r)) r)
  end.

Definition handleRequestBucket (id : nat) (req : RequestBucket) : J unit :=
  emit (ToTM (TM_GetSnapshot (list_to_set (rb_Buckets req)))) ;;;
  modify (fun r => set_goroutines (<[id := GSnapshot req]> (goroutines r)) r).

(** The end of handleRequestBucket, with the answer of the transaction manager. *)
Definition sendReplyBucket (req : RequestBucket) (PartStates : list (list Snap)) (ts : vclock) : J unit :=
  e <- ask ;;
  r <- get ;;
  ip <- must (connTo (group r) (rb_ReqIP req)) ;;
  emit (Send ip (M_ReplyBucket (mkReplyBucket (replicaID e) PartStates ts))).

(** [initialDummyTs.Update()] only matters to the replicator's cache. *)
Definition handleRemoteRequest (remoteReq : Msg) : J unit :=
  match remoteReq with
  | M_StableClock c => tell (TMRemoteClk (sc_SenderID c) (Ts c))
  | M_Txn t => tell (TMRemoteTxn t)
  | M_Group g => tell (TMRemoteTxnGroup g)
  | M_RemoteID m =>
      update_info (fun i => set_waitFor (waitFor i - 1) i) ;;;
      tell (TMReplicaID (ri_SenderID m) (ri_IP m) (ri_Buckets m)) ;;;
      r <- get ;;
      if waitFor (info r) =? 0 then update_info set_allDone ;;; tell TMStart else ret tt
  | M_Trigger t g => emit (ToTM (TM_Trigger t g))
  | M_Join j => spawn (GJoin j) ;;; modify (fun r => set_NReplicas (NReplicas r + 1) r)
  | M_RequestBucket q => spawn (GRequest q)
  | M_ReplyJoin _ | M_ReplyBucket _ | M_ReplyEmpty => ret tt
  end.

(** ** The server that joins *)

(** One clock of a ReplyJoin against the best of its bucket; a clock is at the
    position of its partition, its bucket at the same position of the buckets. *)
Definition askClk (CommonBkts : list string) (ReqIP : string)
  (st : gmap string vclock * gmap string string) (i : nat) (clk : Timestamp)
  : option (gmap string vclock * gmap string string) :=
  let '(bestBktClks, askTo) := st in
  match CommonBkts !! i, clk with
  | Some bkt, Some clk =>
      Some (if IsHigher clk (bestBktClks !! bkt)
            then (<[bkt := clk]> bestBktClks, <[bkt := ReqIP]> askTo) else st)
  | _, _ => None
  end.

Fixpoint askClks (CommonBkts : list string) (ReqIP : string)
  (st : gmap string vclock * gmap string string) (i : nat) (clks : list Timestamp)
  : option (gmap string vclock * gmap string string) :=
  match clks with
  | [] => Some st
  | clk :: clks =>
      match askClk CommonBkts ReqIP st i clk with
      | Some st => askClks CommonBkts ReqIP st (S i) clks
      | None => None
      end
  end.

(** A nil entry of [holdReplyJoins] is dereferenced. *)
Fixpoint askReplies (st : gmap string vclock * gmap string string) (rs : list (option ReplyJoin))
  : option (gmap string vclock * gmap string string) :=
  match rs with
  | [] => Some st
  | None :: _ => None
  | Some r :: rs =>
      match askClks (rj_CommonBkts r) (rj_ReqIP r) st 0 (rj_Clks r) with
      | Some st => askReplies st rs
      | None => None
      end
  end.

(** [replicaToBkt[replica] = append(replicaToBkt[replica], bkt)]. *)
Definition invert (askTo : list (string * string)) : gmap string (list string) :=
  foldl (fun m '(bkt, replica) => <[replica := default [] (m !! replica) ++ [bkt]]> m) ∅ askTo.

Definition sendRequestBucket (kv : string * list string) : J unit :=
  e <- ask ;;
  r <- get ;;
  ip <- must (connTo (group r) (fst kv)) ;;
  emit (Send ip (M_RequestBucket (mkRequestBucket (replicaID e) 0 (snd kv) (localRabbitMQIP e)))).

(** [holdReplyJoins[0:nHoldJoins]] is in range: no more are held than fit. *)
Definition askBuckets : J unit :=
  update_info (fun i => mkJoinInfo (holdMsgs i) (waitFor i) (take (nHoldJoins i) (holdReplyJoins i))
                          (nHoldJoins i) (allDone i)) ;;;
  r <- get ;;
  '(_, askTo) <- must (askReplies (∅, ∅) (holdReplyJoins (info r))) ;;
  let replicaToBkt := invert (map_to_list askTo) in
  update_info (set_waitFor (Z.of_nat (size replicaToBkt))) ;;;
  foldM (fun _ kv => sendRequestBucket kv) (map_to_list replicaToBkt) tt.

Definition handleReplyJoin (req : ReplyJoin) : J unit :=
  r <- get ;;
  let i := info r in
  if (length (holdReplyJoins i) <=? nHoldJoins i)%nat then panic else
  modify (set_info (mkJoinInfo (holdMsgs i) (waitFor i - 1)
    (<[nHoldJoins i := Some req]> (holdReplyJoins i)) (S (nHoldJoins i)) (allDone i))) ;;;
  tell (TMReplicaID (rj_SenderID req) EmptyString []) ;;;
  if waitFor i - 1 =? 0 then askBuckets else ret tt.

Definition handleReplyBucket (req : ReplyBucket) : J unit :=
  emit (ToTM (TM_Apply (rp_PartStates req) (rp_Clk req))) ;;;
  update_info (fun i => set_waitFor (waitFor i - 1) i) ;;;
  r <- get ;;
  if waitFor (info r) =? 0 then update_info set_allDone else ret tt.

Definition handleReplyEmpty : J unit :=
  update_info (fun i => set_waitFor (waitFor i - 1) i) ;;;
  r <- get ;;
  let i := info r in
  if (waitFor i =? 0) && (nHoldJoins i =? 0)%nat then update_info set_allDone
  else if waitFor i =? 0 then askBuckets else ret tt.

Definition createConnAndReplyEmpty (req : Join) : J unit :=
  sendTo <- addReplica (j_ReqIP req) ;;
  r <- get ;;
  ip <- must (connAt (group r) sendTo) ;;
  emit (Send ip M_ReplyEmpty).

(** The body of the loop of queueRemoteRequests. *)
Definition queueRemoteRequest (msg : Msg) : J unit :=
  match msg with
  | M_ReplyJoin r => handleReplyJoin r
  | M_ReplyBucket r => handleReplyBucket r
  | M_Join j => createConnAndReplyEmpty j
  | M_ReplyEmpty => handleReplyEmpty
  | _ => update_info (hold msg)
  end.

(** What follows the loop. *)
Definition leaveQueue : J unit :=
  tell TMStart ;;;
  r <- get ;;
  foldM (fun _ m => handleRemoteRequest m) (holdMsgs (info r)) tt ;;;
  update_info (fun _ => noJoinInfo) ;;;
  modify (set_routines false true) ;;;
  emit StartReceiving ;;; emit StartReplicating.

Definition joinGroup : J unit :=
  e <- ask ;;
  r <- get ;;
  let n := length (conns (group r)) in
  modify (set_NReplicas (Z.of_nat n + 1)) ;;;
  update_info (fun i => mkJoinInfo (holdMsgs i) (Z.of_nat n) (replicate n None) (nHoldJoins i) (allDone i)) ;;;
  foldM (fun _ ip => emit (SendJoinTo ip (buckets e) (replicaID e) (localRabbitMQIP e))) (conns (group r)) tt.

(** ** Starting, and steps *)

(** Initialize, up to the [go] of joinGroup or to its end: joining servers run
    the rest of joinGroup ([JoinGroup]) while the queue already receives. *)
Definition Initialize (othersIPList : list string) : J unit :=
  e <- ask ;;
  if IsReplDisabled e then tell TMStart else
  let g := CreateRemoteGroupStruct othersIPList in
  modify (set_group g) ;;;
  if doesJoin e && (0 <? length (conns g))%nat
  then modify (set_info noJoinInfo) ;;; modify (set_routines true false)
  else
    update_info (set_waitFor (nReplicas g)) ;;;
    modify (set_NReplicas (nReplicas g + 1)) ;;;
    foldM (fun _ ip => emit (SendID ip (buckets e) (localPotionIP e))) (conns g) tt ;;;
    modify (set_routines false true) ;;; emit StartReceiving ;;; emit StartReplicating ;;;
    if (length (conns g) =? 0)%nat then update_info set_allDone ;;; tell TMStart else ret tt.

Inductive Event :=
  | Receive (m : Msg)
  | JoinGroup
  | Run (id : nat)
  | ClockReply (id : nat) (part : Z) (ts : vclock)
  | SnapshotReply (id : nat) (PartStates : list (list Snap)) (ts : vclock).

(** A step that the state does not allow (an answer nobody waits for) does
    nothing. *)
Definition step (ev : Event) : J unit :=
  r <- get ;;
  match ev with
  | Receive m =>
      if queueing r then
        queueRemoteRequest m ;;;
        r <- get ;;
        if allDone (info r) then leaveQueue else ret tt
      else if receiving r then handleRemoteRequest m
      else ret tt
  | JoinGroup => joinGroup
  | Run id =>
      match goroutines r !! id with
      | Some (GJoin req) => handleJoin id req
      | Some (GRequest req) => handleRequestBucket id req
      | _ => ret tt
      end
  | ClockReply id part ts =>
      match goroutines r !! id with
      | Some (GClocks req sendTo Clks missing) => reply_clock id req sendTo Clks missing part ts
      | _ => ret tt
      end
  | SnapshotReply id states ts =>
      match goroutines r !! id with
      | Some (GSnapshot req) =>
          modify (fun r => set_goroutines (delete id (goroutines r)) r) ;;; sendReplyBucket req states ts
      | _ => ret tt
      end
  end.

Fixpoint steps (evs : list Event) : J unit :=
  match evs with
  | [] => ret tt
  | ev :: evs => step ev ;;; steps evs
  end.

Definition initialRepl : Repl := mkRepl noJoinInfo (mkGroup [] 0 ∅) 0 false false ∅.
End joining.
