(* ===== verification/JoiningSpec.v ===== *)
(** * Joining a running group: what the steps of Joining guarantee

    [asked_for_the_highest_clock]: the table of requests; [join_ends]: a server
    that joins starts when it has its answers, whatever else arrives between
    them, and then handles what it kept; [join_is_answered]: a server of the
    group answers with the clocks of all its partitions, in their order.  The
    last theorems say where the code does not do what it means to. *)

From S2P Require Import Prelude ClockSI Effects Keys PartitionClock VersionManager.
From S2P Require Import Materializer Logger Replicator ReplicatorProto RemoteMsgs Joining.
From Stdlib Require Import ZArith Lia Bool.
From stdpp Require Import base tactics numbers strings gmap list.
#[local] Open Scope Z_scope.
#[local] Open Scope eff_scope.

(** ** The server asked for a bucket *)

(** A clock for a bucket, and the address that offers it. *)
Definition Offer : Type := string * vclock * string.

Definition consider (st : gmap string vclock * gmap string string) (o : Offer)
  : gmap string vclock * gmap string string :=
  let '(bkt, clk, ip) := o in
  if IsHigher clk (st.1 !! bkt) then (<[bkt := clk]> st.1, <[bkt := ip]> st.2) else st.

Inductive offer_of (r : ReplyJoin) : Offer -> Prop :=
  | offer_intro i bkt clk : rj_CommonBkts r !! i = Some bkt -> rj_Clks r !! i = Some (Some clk) ->
      offer_of r (bkt, clk, rj_ReqIP r).

Lemma askClks_fold bkts ip clks st i st' :
  askClks bkts ip st i clks = Some st' ->
  exists os, st' = foldl consider st os /\
    forall o, o ∈ os <-> exists j bkt clk, bkts !! (i + j)%nat = Some bkt /\
                          clks !! j = Some (Some clk) /\ o = (bkt, clk, ip).
Proof.
  revert st i. induction clks as [|clk clks IH]; intros st i; cbn [askClks].
  - intros [= <-]. exists []. split; [done|]. intros o. split; [by intros ?%elem_of_nil|].
    intros (j & bkt & clk & _ & Hj & _). done.
  - unfold askClk. destruct st as [best askTo].
    destruct (bkts !! i) as [bkt|] eqn:Hb; [|done]. destruct clk as [clk|]; [|done].
    intros (os & -> & Hos)%IH. exists ((bkt, clk, ip) :: os). split; [done|].
    intros o. rewrite elem_of_cons, Hos. split.
    + intros [->|(j & bkt' & clk' & ? & ? & ->)].
      * exists 0%nat, bkt, clk. by rewrite Nat.add_0_r.
      * exists (S j), bkt', clk'. by rewrite Nat.add_succ_r.
    + intros ([|j] & bkt' & clk' & H1 & H2 & ->).
      * rewrite Nat.add_0_r in H1. cbn in H2. left. congruence.
      * right. exists j, bkt', clk'. by rewrite Nat.add_succ_r in H1.
Qed.

Lemma askReplies_fold rs st st' :
  askReplies st rs = Some st' ->
  exists os, st' = foldl consider st os /\ forall o, o ∈ os <-> exists r, Some r ∈ rs /\ offer_of r o.
Proof.
  revert st. induction rs as [|[r|] rs IH]; intros st; cbn [askReplies]; [| |done].
  - intros [= <-]. exists []. split; [done|]. intros o. split; [by intros ?%elem_of_nil|].
    by intros (r & ?%elem_of_nil & _).
  - destruct (askClks _ _ _ _ _) as [st1|] eqn:E1; [|done].
    apply askClks_fold in E1 as (os1 & -> & H1). intros (os2 & -> & H2)%IH.
    exists (os1 ++ os2). rewrite foldl_app. split; [done|].
    intros o. rewrite elem_of_app, H1, H2. split.
    + intros [(j & bkt & clk & ? & ? & ->)|(r' & ? & ?)].
      * exists r. split; [by left|]. by econstructor.
      * exists r'. split; [by right|done].
    + intros (r' & [[= ->]|Hr']%elem_of_cons & Ho); [left|right; by exists r'].
      destruct Ho as [j bkt clk ? ?]. by exists j, bkt, clk.
Qed.

(** The best clock of a bucket is offered and no offer is higher. *)
Definition chosen (os : list Offer) (st : gmap string vclock * gmap string string) : Prop :=
  forall bkt,
    match st.1 !! bkt, st.2 !! bkt with
    | None, None => forall clk ip, (bkt, clk, ip) ∉ os
    | Some clk, Some ip =>
        (bkt, clk, ip) ∈ os /\
        forall clk' ip', (bkt, clk', ip') ∈ os -> IsHigher clk' (Some clk) = false
    | _, _ => False
    end.

Section offers.
Variable D : gset Z.

Definition same_ids (os : list Offer) : Prop := forall bkt clk ip, (bkt, clk, ip) ∈ os -> dom clk = D.

Lemma consider_chosen os o st :
  same_ids (os ++ [o]) -> chosen os st -> chosen (os ++ [o]) (consider st o).
Proof.
  intros Hd Hc b. destruct o as [[bkt clk] ip]. specialize (Hc b). unfold consider.
  assert (Hclk : dom clk = D) by (apply (Hd bkt clk ip); set_solver).
  assert (Hold : forall c i, (b, c, i) ∈ os -> dom c = D) by (intros c i ?; apply (Hd b c i); set_solver).
  destruct (decide (b = bkt)) as [->|Hb].
  2: { assert (Hnew : forall c i, (b, c, i) ∈ os ++ [(bkt, clk, ip)] <-> (b, c, i) ∈ os).
       { intros c i. rewrite elem_of_app, list_elem_of_singleton. split; [|auto].
         intros [?|[=]]; [done|congruence]. }
       destruct (IsHigher clk (st.1 !! bkt)); cbn [fst snd]; rewrite ?lookup_insert_ne by congruence;
       destruct (st.1 !! b) as [c|], (st.2 !! b) as [i|]; try done;
       [destruct Hc as [H1 H2]; split; [by apply Hnew|intros ?? ?%Hnew; eauto]
       |intros ?? ?%Hnew; by eapply Hc
       |destruct Hc as [H1 H2]; split; [by apply Hnew|intros ?? ?%Hnew; eauto]
       |intros ?? ?%Hnew; by eapply Hc]. }
  assert (Hin : (bkt, clk, ip) ∈ os ++ [(bkt, clk, ip)]) by set_solver.
  destruct (st.1 !! bkt) as [c|] eqn:Ec, (st.2 !! bkt) as [i|] eqn:Ei; try done.
  - destruct Hc as [H1 H2]. assert (Hdc : dom c = D) by eauto.
    destruct (IsHigher clk (Some c)) eqn:Eh; cbn [fst snd].
    + rewrite !lookup_insert_eq. split; [done|].
      apply IsHigher_vle in Eh as [Hle Hne]; [|unfold same_dom; congruence].
      intros c' i' [Hc'|Heq%list_elem_of_singleton]%elem_of_app.
      * destruct (IsHigher c' (Some clk)) eqn:E'; [|done]. exfalso.
        assert (dom c' = D) by eauto.
        apply IsHigher_vle in E' as [Hle' Hne']; [|unfold same_dom; congruence].
        assert (Hf : IsHigher c' (Some c) = true); [|by rewrite (H2 c' i') in Hf].
        apply IsHigher_vle; [unfold same_dom; congruence|]. split; [by eapply vle_trans|].
        intros ->. by apply Hne', vle_antisym; [unfold same_dom; congruence| |].
      * injection Heq as -> ->. apply not_true_is_false. by intros [_ []]%IsHigher_vle.
    + rewrite Ec, Ei. split; [apply elem_of_app; by left|].
      intros c' i' [Hc'|Heq%list_elem_of_singleton]%elem_of_app; [by eapply H2|]. by injection Heq as -> ->.
  - cbn [IsHigher fst snd]. rewrite !lookup_insert_eq. split; [done|].
    intros c' i' [Hc'|Heq%list_elem_of_singleton]%elem_of_app; [by eapply Hc in Hc'|].
    injection Heq as -> ->. apply not_true_is_false. by intros [_ []]%IsHigher_vle.
Qed.

Lemma fold_chosen os : same_ids os -> chosen os (foldl consider (∅, ∅) os).
Proof.
  induction os as [|o os IH] using rev_ind; intros Hd.
  - intros b. cbn. rewrite !lookup_empty. intros c i. by intros ?%elem_of_nil.
  - rewrite foldl_app. cbn [foldl]. apply consider_chosen; [done|]. apply IH.
    intros b c i ?. apply (Hd b c i). set_solver.
Qed.
End offers.

Lemma invert_app l1 l2 :
  invert (l1 ++ l2) = foldl (fun m '(bkt, replica) =>
    <[replica := default [] (m !! replica) ++ [bkt]]> m) (invert l1) l2.
Proof. unfold invert. by rewrite foldl_app. Qed.

Lemma invert_spec l ip bkt :
  bkt ∈ default [] (invert l !! ip) <-> (bkt, ip) ∈ l.
Proof.
  induction l as [|[b i] l IH] using rev_ind.
  - unfold invert. cbn. rewrite lookup_empty. cbn. by rewrite !elem_of_nil.
  - rewrite invert_app, elem_of_app, <- IH, list_elem_of_singleton. cbn [foldl].
    destruct (decide (ip = i)) as [->|Hne].
    + rewrite lookup_insert_eq. cbn [from_option]. unfold Datatypes.id. rewrite elem_of_app, list_elem_of_singleton. 
      split; intros [?|?]; auto; [right; congruence|right; congruence].
    + rewrite lookup_insert_ne by congruence. split; [auto|]. intros [?|Heq]; [done|congruence].
Qed.

Lemma invert_None l ip : invert l !! ip = None <-> forall bkt, (bkt, ip) ∉ l.
Proof.
  induction l as [|[b i] l IH] using rev_ind.
  - unfold invert. cbn. rewrite lookup_empty. split; [|done]. intros _ b. apply not_elem_of_nil.
  - rewrite invert_app. cbn [foldl]. destruct (decide (ip = i)) as [->|Hne].
    + rewrite lookup_insert_eq. split; [done|]. intros H. exfalso. apply (H b). set_solver.
    + rewrite lookup_insert_ne by congruence. rewrite IH. split; intros H b'; specialize (H b').
      * rewrite elem_of_app, list_elem_of_singleton. intros [?|[=]]; congruence.
      * set_solver.
Qed.

(** What [askBuckets] asks each address for. *)
Definition asked (rs : list (option ReplyJoin)) : option (gmap string (list string)) :=
  match askReplies (∅, ∅) rs with
  | Some (_, askTo) => Some (invert (map_to_list askTo))
  | None => None
  end.

(** The table of requests that the joining server computes ([askTo] of
    askBuckets), taking the clocks of an answer to be those of its buckets as the
    code does, has every bucket with a clock at one address, which offers a clock
    for the bucket such that no other answer has a higher one, and no other
    bucket.  This is about the table: the clocks of an answer are in truth those
    of its partitions, and the requests go elsewhere
    ([requests_go_to_the_first_server]). *)
Theorem asked_for_the_highest_clock (D : gset Z) (rs : list ReplyJoin)
  (replicaToBkt : gmap string (list string)) :
  (forall r o, r ∈ rs -> offer_of r o -> dom o.1.2 = D) ->
  asked (Some <$> rs) = Some replicaToBkt ->
  forall bkt,
    (forall r o, r ∈ rs -> offer_of r o -> o.1.1 = bkt ->
      exists ip bkts, replicaToBkt !! ip = Some bkts /\ bkt ∈ bkts) /\
    (forall ip bkts, replicaToBkt !! ip = Some bkts -> bkt ∈ bkts ->
      (forall ip' bkts', replicaToBkt !! ip' = Some bkts' -> bkt ∈ bkts' -> ip' = ip) /\
      exists r clk, r ∈ rs /\ offer_of r (bkt, clk, ip) /\
        forall r' clk' ip', r' ∈ rs -> offer_of r' (bkt, clk', ip') -> IsHigher clk' (Some clk) = false).
Proof.
  intros Hd Ha bkt. unfold asked in Ha.
  destruct (askReplies _ _) as [[best askTo]|] eqn:E; [|done]. injection Ha as <-.
  apply askReplies_fold in E as (os & Hst & Hos).
  assert (Hos' : forall o, o ∈ os <-> exists r, r ∈ rs /\ offer_of r o).
  { intros o. rewrite Hos. split; intros (r & Hr & Ho); exists r; split; try done.
    - by apply list_elem_of_fmap in Hr as (? & [= ->] & ?).
    - apply list_elem_of_fmap. by exists r. }
  assert (Hch : chosen os (best, askTo)).
  { rewrite Hst. apply (fold_chosen D). intros b c i (r & Hr & Ho)%Hos'. by apply (Hd r (b, c, i)). }
  specialize (Hch bkt). cbn [fst snd] in Hch.
  assert (Hinv : forall ip bkts, invert (map_to_list askTo) !! ip = Some bkts ->
                   bkt ∈ bkts <-> askTo !! bkt = Some ip).
  { intros ip bkts Hi. rewrite <- elem_of_map_to_list, <- invert_spec, Hi. done. }
  split.
  - intros r o Hr Ho <-. destruct (askTo !! o.1.1) as [ip|] eqn:Ea.
    + destruct (invert (map_to_list askTo) !! ip) as [bkts|] eqn:Ei.
      * exists ip, bkts. split; [done|]. by apply (Hinv ip).
      * apply (proj1 (invert_None _ _)) with (bkt := o.1.1) in Ei. by rewrite elem_of_map_to_list in Ei.
    + destruct (best !! o.1.1); [done|]. exfalso. destruct o as [[b c] i].
      apply (Hch c i), Hos'. eauto.
  - intros ip bkts Hi Hb. pose proof (proj1 (Hinv _ _ Hi) Hb) as Ea. split.
    + intros ip' bkts' Hi' Hb'. pose proof (proj1 (Hinv _ _ Hi') Hb') as Ea'. congruence.
    + rewrite Ea in Hch. destruct (best !! bkt) as [clk|] eqn:Eb; [|done].
      destruct Hch as [(r & Hr & Ho)%Hos' Hmax]. exists r, clk. split_and!; [done..|].
      intros r' clk' ip' Hr' Ho'. apply (Hmax clk' ip'), Hos'. eauto.
Qed.

(** ** Connections *)

Definition group_ok (g : RemoteGroup) : Prop :=
  nReplicas g = Z.of_nat (length (conns g)) /\
  map_Forall (fun ip slot => connAt g slot = Some ip) (knownIPs g).

Lemma connAt_app g ips n k slot ip :
  connAt g slot = Some ip -> connAt (mkGroup (conns g ++ ips) n k) slot = Some ip.
Proof. unfold connAt. cbn. case_match; [done|]. intros Hs. by rewrite (lookup_app_l_Some _ _ _ _ Hs). Qed.

Lemma Create_ok others : group_ok (CreateRemoteGroupStruct others).
Proof. split; [done|]. apply map_Forall_empty. Qed.

(** A new address gets a slot of its own; the others keep theirs. *)
Lemma AddReplica_ok ip g :
  group_ok g ->
  exists slot g' ips, AddReplica ip g = Some (slot, g') /\ group_ok g' /\ connAt g' slot = Some ip /\
    conns g' = conns g ++ ips.
Proof.
  intros [Hn Hk]. unfold AddReplica. destruct (knownIPs g !! ip) as [slot|] eqn:Ek.
  - exists slot, g, []. rewrite app_nil_r. split_and!; [done|by split| |done]. by apply (Hk ip).
  - rewrite Hn, length_app. cbn [length].
    destruct (Z.of_nat (length (conns g)) <? 0) eqn:E1; [to_prop; lia|].
    destruct (_ <=? _) eqn:E2; [to_prop; lia|]. cbn [orb].
    rewrite Nat2Z.id, insert_app_r_alt, Nat.sub_diag by lia. cbn.
    eexists _, _, [ip]. split; [done|]. cbn. split_and!; [|unfold connAt|done].
    + split; cbn; [rewrite length_app; cbn; lia|].
      apply map_Forall_insert_2; [unfold connAt; cbn; rewrite E1, Nat2Z.id, lookup_app_r, Nat.sub_diag by lia; done|].
      intros ip' slot' Hs. by apply connAt_app, Hk.
    + rewrite E1. cbn. by rewrite Nat2Z.id, lookup_app_r, Nat.sub_diag by lia.
Qed.

(** Some connection is used for every address, known or not. *)
Lemma connTo_ok g ip : group_ok g -> conns g <> [] -> exists c, connTo g ip = Some c.
Proof.
  intros [_ Hk] Hc. unfold connTo. destruct (knownIPs g !! ip) as [slot|] eqn:E; cbn.
  - exists ip. by apply (Hk ip).
  - destruct (conns g) as [|c l] eqn:El; [done|]. by exists c.
Qed.

Lemma connTo_known g ip slot : group_ok g -> knownIPs g !! ip = Some slot -> connTo g ip = Some ip.
Proof. intros [_ Hk] E. unfold connTo. rewrite E. by apply (Hk ip). Qed.

Section queue.
Context {Upd Trigger Snap : Type}.
Abbreviation Msg := (Msg (Upd := Upd) (Trigger := Trigger) (Snap := Snap)).
Abbreviation Out := (Out (Upd := Upd) (Trigger := Trigger) (Snap := Snap)).
Abbreviation Repl := (Repl (Upd := Upd) (Trigger := Trigger) (Snap := Snap)).
Abbreviation J := (M JoinEnv Repl Out).

(** ** What a message is to a server that joins *)

Definition kept (m : Msg) : list Msg :=
  match m with
  | M_ReplyJoin _ | M_ReplyBucket _ | M_Join _ | M_ReplyEmpty => []
  | _ => [m]
  end.
Definition replies (m : Msg) : list ReplyJoin := match m with M_ReplyJoin r => [r] | _ => [] end.
Definition answers (m : Msg) : nat := match m with M_ReplyJoin _ | M_ReplyEmpty => 1 | _ => 0 end.
Definition bkts (m : Msg) : nat := match m with M_ReplyBucket _ => 1 | _ => 0 end.
Definition count (f : Msg -> nat) (l : list Msg) : nat := sum_list (f <$> l).

Definition handled (m : Msg) : list Out :=
  match m with
  | M_StableClock c => [ToTM (TM_Msg (TMRemoteClk (sc_SenderID c) (Ts c)))]
  | M_Txn t => [ToTM (TM_Msg (TMRemoteTxn t))]
  | M_Group g => [ToTM (TM_Msg (TMRemoteTxnGroup g))]
  | M_RemoteID m => [ToTM (TM_Msg (TMReplicaID (ri_SenderID m) (ri_IP m) (ri_Buckets m)))]
  | M_Trigger t g => [ToTM (TM_Trigger t g)]
  | _ => []
  end.

(** What a server sends before it starts. *)
Definition joining_out (o : Out) : Prop :=
  match o with
  | ToTM (TM_Msg (TMReplicaID _ _ _)) | ToTM (TM_Apply _ _) | Send _ _ | SendJoinTo _ _ _ _ => True
  | _ => False
  end.

(** Waiting for answers: [a] of [n] have come. *)
Record waiting (n : nat) (held : list Msg) (rs : list ReplyJoin) (a : nat) (s : Repl) : Prop := {
  w_queueing : queueing s = true;
  w_group : group_ok (group s);
  w_conns : conns (group s) <> [];
  w_info : info s = mkJoinInfo held (Z.of_nat n - Z.of_nat a)
             ((Some <$> rs) ++ replicate (n - length rs) None) (length rs) false;
  w_rs : (length rs <= a < n)%nat;
  w_held : Forall (fun m => kept m = [m]) held }.

(** Waiting for [k] buckets. *)
Record asking (k : nat) (held : list Msg) (s : Repl) : Prop := {
  a_queueing : queueing s = true;
  a_group : group_ok (group s);
  a_conns : conns (group s) <> [];
  a_held : Forall (fun m => kept m = [m]) held;
  a_info : exists rs n, info s = mkJoinInfo held (Z.of_nat k) rs n false;
  a_k : (0 < k)%nat }.

Lemma kept_Forall held m : Forall (fun m => kept m = [m]) held -> Forall (fun m => kept m = [m]) (held ++ kept m).
Proof. intros. apply Forall_app. split; [done|]. destruct m; cbn; auto. Qed.

(** ** One message *)

Lemma addReplica_returns ip (e : JoinEnv) (s : Repl) :
  group_ok (group s) ->
  returns (addReplica ip : J Z) e s (fun slot s' o => exists g' ips, s' = set_group g' s /\ o = [] /\
    group_ok g' /\ connAt g' slot = Some ip /\ conns g' = conns (group s) ++ ips).
Proof.
  intros Hg. destruct (AddReplica_ok ip (group s) Hg) as (slot & g' & ips & E & Hg' & Hs & Hc).
  exists slot, (set_group g' s), []. split; [|eauto 10].
  unfold addReplica, bind, get, must, ret, modify. by rewrite E.
Qed.

Lemma createConn_returns j (e : JoinEnv) (s : Repl) :
  group_ok (group s) ->
  returns (createConnAndReplyEmpty j : J unit) e s (fun _ s' o => exists g' ips, s' = set_group g' s /\
    o = [Send (j_ReqIP j) M_ReplyEmpty] /\ group_ok g' /\ conns g' = conns (group s) ++ ips).
Proof.
  intros Hg. unfold createConnAndReplyEmpty. apply returns_bind.
  eapply returns_weaken; [by apply addReplica_returns|].
  intros slot s' o (g' & ips & -> & -> & Hg' & Hs & Hc).
  eexists _, _, _. split; [|eauto 10]. unfold bind, get, must, ret. cbn [group set_group]. by rewrite Hs.
Qed.

Lemma app_not_nil {A} (l l' : list A) : l <> [] -> l ++ l' <> [].
Proof. by destruct l. Qed.

Lemma insert_reply (rs : list ReplyJoin) n r :
  (length rs < n)%nat ->
  <[length rs := Some r]> ((Some <$> rs) ++ replicate (n - length rs) None) =
  (Some <$> (rs ++ [r])) ++ replicate (n - length (rs ++ [r])) None.
Proof.
  intros Hn. rewrite insert_app_r_alt by (rewrite length_fmap; lia).
  rewrite length_fmap, Nat.sub_diag, length_app, fmap_app, <- app_assoc. f_equal.
  destruct (n - length rs)%nat as [|k] eqn:E; [lia|]. cbn.
  by replace (n - (length rs + 1))%nat with k by lia.
Qed.

(** An answer other than the last, or a message that is kept. *)
Lemma waiting_step n held rs a (e : JoinEnv) (s : Repl) m :
  waiting n held rs a s -> bkts m = 0%nat -> (a + answers m < n)%nat ->
  returns (step (Receive m) : J unit) e s (fun _ s' o =>
    waiting n (held ++ kept m) (rs ++ replies m) (a + answers m) s' /\ Forall joining_out o).
Proof.
  intros [Hq Hg Hc Hi Hr Hh] Hb Ha. destruct s as [inf g nr q rc gs]. cbn in Hq, Hg, Hc, Hi. subst q inf.
  destruct m as [c|t|gr|id|t b|j|r|r|r|]; try done; cbn [kept replies answers] in *;
    rewrite ?app_nil_r, ?Nat.add_0_r in *.
  1-5, 7: eexists tt, _, []; split; [reflexivity|]; split; [|done];
    split; cbn; rewrite ?app_nil_r; try done; apply Forall_app; auto.
  - unfold step. apply returns_bind. eexists _, _, _. split; [reflexivity|]. cbn.
    apply returns_bind. eapply returns_weaken; [by apply createConn_returns|].
    intros _ s' o (g' & ips & -> & -> & Hg' & Hc'). eexists _, _, _. split; [reflexivity|].
    split; [|by repeat constructor]. split; cbn; try done. rewrite Hc'. by apply app_not_nil.
  - eexists tt, _, _. split.
    { unfold step, queueRemoteRequest, handleReplyJoin, bind, get, modify, tell, emit, ret. cbn.
      rewrite length_app, length_fmap, length_replicate.
      destruct (_ <=? _)%nat eqn:E1; [apply Nat.leb_le in E1; lia|]. cbn.
      destruct (_ =? 0) eqn:E2; [to_prop; lia|]. cbn. rewrite insert_reply by lia. reflexivity. }
    cbn. split; [|by repeat constructor]. split; cbn; try done.
    + f_equal; [lia|]. rewrite length_app. cbn. lia.
    + rewrite length_app. cbn. lia.
  - eexists tt, _, _. split.
    { unfold step, queueRemoteRequest, handleReplyEmpty, bind, get, modify, update_info, ret. cbn.
      destruct (_ =? 0) eqn:E2; [to_prop; lia|]. cbn. reflexivity. }
    cbn. split; [|done]. split; cbn; try done; [unfold set_waitFor; cbn; f_equal; lia|lia].
Qed.

(** ** Starting *)

Definition started (s : Repl) : Prop := queueing s = false /\ receiving s = true /\ info s = noJoinInfo.

(** A message that was kept is handled as it is after the start: RemoteID no
    longer counts. *)
Lemma handled_returns m (e : JoinEnv) (s : Repl) :
  kept m = [m] -> waitFor (info s) <= 0 ->
  returns (handleRemoteRequest m : J unit) e s (fun _ s' o => waitFor (info s') <= 0 /\ o = handled m).
Proof.
  intros Hm Hw. destruct m as [c|t|gr|id|t b|j|r|r|r|]; try done;
    try (eexists tt, _, _; split; [reflexivity|]; done).
  eexists tt, _, _. split.
  { cbn. unfold bind, update_info, modify, tell, emit, get. cbn.
    destruct (_ =? 0) eqn:E; [to_prop; lia|]. reflexivity. }
  cbn. split; [lia|done].
Qed.

Lemma foldM_handled held (e : JoinEnv) (s : Repl) :
  Forall (fun m => kept m = [m]) held -> waitFor (info s) <= 0 ->
  returns (foldM (fun _ m => handleRemoteRequest m) held tt : J unit) e s
    (fun _ s' o => o = concat (handled <$> held)).
Proof.
  intros Hh. revert s. induction Hh as [|m held Hm Hh IH]; intros s Hw; cbn [foldM].
  - by apply returns_ret.
  - apply returns_bind. eapply returns_weaken; [by apply handled_returns|].
    intros [] s1 o1 [Hw1 ->]. eapply returns_weaken; [by apply IH|]. by intros _ s2 o2 ->.
Qed.

Definition startOuts (held : list Msg) : list Out :=
  ToTM (TM_Msg TMStart) :: concat (handled <$> held) ++ [StartReceiving; StartReplicating].

Lemma leaveQueue_returns held (e : JoinEnv) (s : Repl) :
  Forall (fun m => kept m = [m]) held -> holdMsgs (info s) = held -> waitFor (info s) = 0 ->
  returns (leaveQueue : J unit) e s (fun _ s' o => started s' /\ o = startOuts held).
Proof.
  intros Hh Hi Hw. unfold leaveQueue. apply returns_bind. eexists _, _, _. split; [reflexivity|].
  apply returns_bind. eexists _, _, _. split; [reflexivity|]. rewrite Hi.
  apply returns_bind. eapply returns_weaken; [apply foldM_handled; [done|lia]|].
  intros _ s1 o1 ->. eexists _, _, _. split; [reflexivity|]. by split.
Qed.

Lemma sendRequests_returns l (e : JoinEnv) (s : Repl) :
  group_ok (group s) -> conns (group s) <> [] ->
  returns (foldM (fun _ kv => sendRequestBucket kv) l tt : J unit) e s
    (fun _ s' o => s' = s /\ Forall joining_out o).
Proof.
  intros Hg Hc. induction l as [|[ip bs] l IH]; cbn [foldM]; [by apply returns_ret|].
  apply returns_bind. destruct (connTo_ok (group s) ip Hg Hc) as [c Ec].
  eexists tt, s, _. split.
  { unfold sendRequestBucket, bind, ask, get, must, ret, emit. cbn. rewrite Ec. reflexivity. }
  eapply returns_weaken; [exact IH|]. intros _ s' o [-> Ho]. split; [done|]. cbn. by constructor.
Qed.

(** The last answer, when some server has buckets. *)
Lemma askBuckets_returns held rs n R (e : JoinEnv) (s : Repl) :
  group_ok (group s) -> conns (group s) <> [] -> Forall (fun m => kept m = [m]) held ->
  info s = mkJoinInfo held 0 ((Some <$> rs) ++ replicate n None) (length rs) false ->
  queueing s = true -> asked (Some <$> rs) = Some R -> (0 < size R)%nat ->
  returns (askBuckets : J unit) e s (fun _ s' o => asking (size R) held s' /\ Forall joining_out o).
Proof.
  intros Hg Hc Hh Hi Hq Ha HR. unfold asked in Ha.
  destruct (askReplies _ _) as [[best askTo]|] eqn:E; [|done]. injection Ha as Ha.
  unfold askBuckets, update_info. apply returns_bind. eexists _, _, _. split; [reflexivity|].
  apply returns_bind. eexists _, _, _. split; [reflexivity|]. apply returns_bind, returns_must.
  eexists. split. { cbn. rewrite Hi. cbn. rewrite take_app_length' by (by rewrite length_fmap). exact E. }
  cbv beta iota zeta. rewrite Ha. apply returns_bind. eexists _, _, _. split; [reflexivity|].
  eapply returns_weaken; [by apply sendRequests_returns|]. intros _ s' o [-> Ho].
  split; [|done]. split; cbn; rewrite ?Hi; try done. by eexists _, _.
Qed.

Lemma last_answer n held rs a R (e : JoinEnv) (s : Repl) m :
  waiting n held rs a s -> answers m = 1%nat -> n = S a -> rs ++ replies m <> [] ->
  asked (Some <$> (rs ++ replies m)) = Some R -> (0 < size R)%nat ->
  returns (step (Receive m) : J unit) e s (fun _ s' o => asking (size R) held s' /\ Forall joining_out o).
Proof.
  intros [Hq Hg Hc Hi Hr Hh] Hm -> Hne HR HR0.
  destruct s as [inf g nr q rc gs]. cbn in Hq, Hg, Hc, Hi. subst q inf.
  assert (Hend : forall (m' : J unit) s, returns m' e s (fun _ s' o => asking (size R) held s' /\ Forall joining_out o) ->
    returns (m' ;;; r <- get ;; if allDone (info r) then leaveQueue else ret tt : J unit) e s
      (fun _ s' o => asking (size R) held s' /\ Forall joining_out o)).
  { intros m' s Hm'. apply returns_bind. eapply returns_weaken; [exact Hm'|].
    intros _ s' o [Has Ho]. eexists tt, s', []. split; [|by rewrite app_nil_r].
    pose proof (a_info _ _ _ Has) as (rs' & n' & Hi'). unfold bind, get. by rewrite Hi'. }
  unfold step. apply returns_bind. eexists _, _, _. split; [reflexivity|]. cbn [queueing app].
  apply Hend. clear Hend. destruct m as [c|t|gr|id|t b|j|r|r|r|]; try done; cbn [replies answers] in *;
    cbn [queueRemoteRequest].
  - unfold handleReplyJoin. apply returns_bind. eexists _, _, _. split; [reflexivity|]. cbn -[askBuckets].
    rewrite length_app, length_fmap, length_replicate.
    destruct (_ <=? _)%nat eqn:E1; [apply Nat.leb_le in E1; lia|].
    apply returns_bind. eexists _, _, _. split; [reflexivity|].
    apply returns_bind. eexists _, _, _. split; [reflexivity|].
    destruct (_ =? 0) eqn:E2; [|to_prop; lia].
    eapply returns_weaken; [eapply askBuckets_returns with (rs := rs ++ [r]); try done|].
    + cbn. f_equal; [lia| |rewrite length_app; cbn; lia]. by apply insert_reply; lia.
    + intros _ s' o [? ?]. split; [done|]. by constructor.
  - rewrite app_nil_r in *. unfold handleReplyEmpty. apply returns_bind. eexists _, _, _. split; [reflexivity|].
    apply returns_bind. eexists _, _, _. split; [reflexivity|]. cbn -[askBuckets].
    destruct (_ =? 0) eqn:E1; [|to_prop; lia].
    destruct rs as [|r0 rs]; [done|]. cbn [length Nat.eqb andb].
    eapply askBuckets_returns with (rs := r0 :: rs); try done. unfold set_waitFor. cbn. f_equal. lia.
Qed.

Lemma last_empty n held a (e : JoinEnv) (s : Repl) :
  waiting n held [] a s -> n = S a ->
  returns (step (Receive M_ReplyEmpty) : J unit) e s (fun _ s' o => started s' /\ o = startOuts held).
Proof.
  intros [Hq Hg Hc Hi Hr Hh] ->. destruct s as [inf g nr q rc gs]. cbn in Hq, Hg, Hc, Hi. subst q inf.
  unfold step. apply returns_bind. eexists _, _, _. split; [reflexivity|]. cbn [queueing app].
  apply returns_bind. eexists _, _, _. split.
  { unfold queueRemoteRequest, handleReplyEmpty, update_info, bind, get, modify. cbn -[askBuckets].
    destruct (_ =? 0) eqn:E1; [|to_prop; lia]. cbn. reflexivity. }
  apply returns_bind. eexists _, _, _. split; [reflexivity|]. cbn [info set_info set_allDone allDone app].
  eapply returns_weaken; [apply (leaveQueue_returns held)|by intros]; cbn; [done..|lia].
Qed.
(** A bucket, or a message that is kept; the last bucket starts the server. *)
Lemma asking_step k held (e : JoinEnv) (s : Repl) m :
  asking k held s -> answers m = 0%nat -> (bkts m < k)%nat ->
  returns (step (Receive m) : J unit) e s (fun _ s' o =>
    asking (k - bkts m) (held ++ kept m) s' /\ Forall joining_out o).
Proof.
  intros [Hq Hg Hc Hh (rs & n & Hi) Hk] Hm Hb.
  destruct s as [inf g nr q rc gs]. cbn in Hq, Hg, Hc, Hi. subst q inf.
  destruct m as [c|t|gr|id|t b|j|r|r|r|]; try done; cbn [kept bkts] in *; rewrite ?app_nil_r, ?Nat.sub_0_r in *.
  1-5, 7: eexists tt, _, []; split; [reflexivity|]; split; [|done];
    split; cbn; try done; [apply Forall_app; auto|by eexists _, _].
  - unfold step. apply returns_bind. eexists _, _, _. split; [reflexivity|]. cbn.
    apply returns_bind. eapply returns_weaken; [by apply createConn_returns|].
    intros _ s' o (g' & ips & -> & -> & Hg' & Hc'). eexists _, _, _. split; [reflexivity|].
    split; [|by repeat constructor]. split; cbn; try done; [rewrite Hc'; by apply app_not_nil|by eexists _, _].
  - eexists tt, _, _. split.
    { unfold step, queueRemoteRequest, handleReplyBucket, update_info, emit, bind, get, modify, ret. cbn.
      destruct (_ =? 0) eqn:E2; [to_prop; lia|]. cbn. reflexivity. }
    cbn. split; [|by repeat constructor]. split; cbn; try done; [|lia].
    exists rs, n. unfold set_waitFor. cbn. f_equal. lia.
Qed.

Lemma last_bucket held (e : JoinEnv) (s : Repl) b :
  asking 1 held s ->
  returns (step (Receive (M_ReplyBucket b)) : J unit) e s (fun _ s' o => started s' /\
    exists pre, o = pre ++ startOuts held /\ Forall joining_out pre).
Proof.
  intros [Hq Hg Hc Hh (rs & n & Hi) Hk].
  destruct s as [inf g nr q rc gs]. cbn in Hq, Hg, Hc, Hi. subst q inf.
  unfold step. apply returns_bind. eexists _, _, _. split; [reflexivity|]. cbn [queueing app].
  apply returns_bind. eexists _, _, _. split; [reflexivity|].
  apply returns_bind. eexists _, _, _. split; [reflexivity|]. cbn [info set_info set_allDone allDone app].
  eapply returns_weaken; [apply (leaveQueue_returns held)|]; cbn; [done..|].
  intros _ s' o [Hs ->]. split; [done|]. eexists [_]. split; [reflexivity|]. by repeat constructor.
Qed.

(** ** Sequences of messages *)

Lemma waiting_steps msgs n held rs a (e : JoinEnv) (s : Repl) :
  waiting n held rs a s -> Forall (fun m => bkts m = 0%nat) msgs -> (a + count answers msgs < n)%nat ->
  returns (steps (Receive <$> msgs) : J unit) e s (fun _ s' o =>
    waiting n (held ++ mjoin (kept <$> msgs)) (rs ++ mjoin (replies <$> msgs)) (a + count answers msgs) s' /\
    Forall joining_out o).
Proof.
  intros Hw Hb. revert held rs a s Hw. induction Hb as [|m msgs Hm Hb IH]; intros held rs a s Hw Ha.
  - cbn. apply returns_ret. by rewrite !app_nil_r, Nat.add_0_r.
  - unfold count in *. cbn in Ha |- *. apply returns_bind. eapply returns_weaken.
    { apply waiting_step; [done..|lia]. }
    intros _ s1 o1 [Hw1 Ho1]. eapply returns_weaken; [apply IH; [done|lia]|].
    intros _ s2 o2 [Hw2 Ho2]. split; [|by apply Forall_app].
    by rewrite <- !app_assoc, <- Nat.add_assoc in Hw2.
Qed.

Lemma asking_steps msgs k held (e : JoinEnv) (s : Repl) :
  asking k held s -> Forall (fun m => answers m = 0%nat) msgs -> (count bkts msgs < k)%nat ->
  returns (steps (Receive <$> msgs) : J unit) e s (fun _ s' o =>
    asking (k - count bkts msgs) (held ++ mjoin (kept <$> msgs)) s' /\ Forall joining_out o).
Proof.
  intros Hw Hb. revert held k s Hw. induction Hb as [|m msgs Hm Hb IH]; intros held k s Hw Ha.
  - cbn. apply returns_ret. by rewrite app_nil_r, Nat.sub_0_r.
  - unfold count in *. cbn in Ha |- *. apply returns_bind. eapply returns_weaken.
    { apply asking_step; [done..|lia]. }
    intros _ s1 o1 [Hw1 Ho1]. eapply returns_weaken; [apply IH; [done|lia]|].
    intros _ s2 o2 [Hw2 Ho2]. split; [|by apply Forall_app].
    rewrite <- !app_assoc in Hw2. by rewrite <- Nat.sub_add_distr in Hw2.
Qed.

Lemma run_steps_app l1 l2 (e : JoinEnv) (s : Repl) Q Q1 :
  returns (steps l1 : J unit) e s Q1 ->
  (forall s1 o1, Q1 tt s1 o1 -> returns (steps l2 : J unit) e s1 (fun _ s2 o2 => Q tt s2 (o1 ++ o2))) ->
  returns (steps (l1 ++ l2) : J unit) e s Q.
Proof.
  revert s Q Q1. induction l1 as [|ev l1 IH]; intros s Q Q1 (? & s1 & o1 & E & HQ1) H2.
  - cbn in E. injection E as <- <- <-. eapply returns_weaken; [by apply H2|]. by intros [].
  - cbn in E |- *. unfold bind in E. destruct (step ev e s) as [[[[] s'] o']|] eqn:E1; [|done].
    destruct (steps l1 e s') as [[[[] s''] o'']|] eqn:E2; [|done]. injection E as <- <- <-.
    apply returns_bind. eexists tt, s', o'. split; [done|].
    eapply (IH s' _ (fun _ s2 o2 => s2 = s'' /\ o2 = o'')); [eexists _, _, _; split; [exact E2|done]|].
    intros s2 o2 [-> ->]. eapply returns_weaken; [by apply H2|]. intros [] s3 o3 HQ. by rewrite app_assoc.
Qed.

(** The state in which the queue waits for the answers of [n] servers. *)
Lemma joinGroup_waiting others (e : JoinEnv) (n : nat) :
  IsReplDisabled e = false -> doesJoin e = true ->
  n = length (conns (CreateRemoteGroupStruct others)) -> (0 < n)%nat ->
  returns (Initialize others ;;; step JoinGroup : J unit) e initialRepl (fun _ s' o =>
    waiting n [] [] 0 s' /\ Forall joining_out o).
Proof.
  intros Hd Hj Hn Hn0. unfold Initialize. apply returns_bind, returns_bind.
  eexists _, _, _. split; [reflexivity|]. rewrite Hd. apply returns_bind.
  eexists _, _, _. split; [reflexivity|]. rewrite Hj, <- Hn.
  destruct (0 <? n)%nat eqn:E; [|apply Nat.ltb_ge in E; lia].
  eexists _, _, _. split; [reflexivity|]. cbn [step]. apply returns_bind.
  eexists _, _, _. split; [reflexivity|]. unfold joinGroup. apply returns_bind.
  eexists _, _, _. split; [reflexivity|]. apply returns_bind. eexists _, _, _. split; [reflexivity|].
  apply returns_bind. eexists _, _, _. split; [reflexivity|]. apply returns_bind.
  eexists _, _, _. split; [reflexivity|]. cbn [group set_NReplicas set_info set_routines set_group app].
  rewrite <- Hn.
  assert (Hs : forall ips s, returns (foldM (fun _ ip => emit (SendJoinTo ip (buckets e) (replicaID e)
      (localRabbitMQIP e))) ips tt : J unit) e s (fun _ s' o => s' = s /\ Forall joining_out o)).
  { induction ips as [|ip ips IH]; intros s; cbn [foldM]; [by apply returns_ret|]. apply returns_bind.
    eexists _, _, _. split; [reflexivity|]. eapply returns_weaken; [apply IH|].
    intros _ s' o [-> ?]. split; [done|]. by constructor. }
  eapply returns_weaken; [apply Hs|]. intros _ s' o [-> Ho]. split; [|done].
  split; cbn; try done.
  - change (conns (CreateRemoteGroupStruct others) <> []). intros Hc. rewrite Hc in Hn. cbn in Hn. lia.
  - by rewrite Nat.sub_0_r, Z.sub_0_r.
Qed.

(** What the servers answer in the end: only ReplyEmpty, or a bucket for each
    address that was asked. *)
Definition buckets_come (rs : list ReplyJoin) (msgs : list Msg) : Prop :=
  match rs with
  | [] => msgs = []
  | _ => exists R pre b, asked (Some <$> rs) = Some R /\ msgs = pre ++ [M_ReplyBucket b] /\
      Forall (fun m => answers m = 0%nat) pre /\ size R = S (count bkts pre)
  end.

Lemma answered_ends n held rs a (e : JoinEnv) (s : Repl) m msgs :
  waiting n held rs a s -> answers m = 1%nat -> n = S a -> buckets_come (rs ++ replies m) msgs ->
  returns (steps (Receive <$> m :: msgs) : J unit) e s (fun _ s' o => started s' /\
    exists pre, o = pre ++ startOuts (held ++ mjoin (kept <$> msgs)) /\ Forall joining_out pre).
Proof.
  intros Hw Hm Hn Hb. destruct (rs ++ replies m) as [|r0 rs'] eqn:Er.
  - apply app_eq_nil in Er as [-> Er]. destruct m as [c|t|gr|id|t b|j|r|r|r|]; try done. cbn in Hb. subst msgs.
    cbn. apply returns_bind. eapply returns_weaken; [by eapply last_empty|].
    intros _ s' o [Hs ->]. apply returns_ret. split; [done|]. exists []. by rewrite !app_nil_r.
  - destruct Hb as (R & pre & b & HR & -> & Hp & Hsz). cbn. apply returns_bind. eapply returns_weaken.
    { eapply last_answer; rewrite ?Er; try done; lia. }
    intros _ s1 o1 [Has Ho1]. rewrite Hsz in Has. rewrite fmap_app. eapply run_steps_app.
    { eapply asking_steps; [done..|lia]. }
    intros s2 o2 [Has2 Ho2]. rewrite Nat.sub_succ_l, Nat.sub_diag in Has2 by lia.
    cbn. apply returns_bind. eapply returns_weaken; [by eapply last_bucket|].
    intros _ s3 o3 [Hs (pre' & -> & Hpre)]. apply returns_ret. split; [done|].
    exists (o1 ++ o2 ++ pre'). split.
    + rewrite app_nil_r, fmap_app, join_app. cbn. by rewrite app_nil_r, <- !app_assoc.
    + repeat apply Forall_app_2; done.
Qed.

(** C18. A server that joins [n] others starts: if, whatever else arrives between,
    each of them answers, and then each server asked for buckets sends them, the
    server leaves its queue without a panic.  Until then it tells the transaction
    manager only new identifiers and snapshots; then it tells it to start, and
    everything it kept, each message once and in the order of arrival. *)
Theorem join_ends (e : JoinEnv) (others : list string) (msgs1 msgs2 : list Msg) (m : Msg) :
  IsReplDisabled e = false -> doesJoin e = true ->
  length (conns (CreateRemoteGroupStruct others)) = S (count answers msgs1) ->
  Forall (fun m => bkts m = 0%nat) msgs1 -> answers m = 1%nat ->
  buckets_come (mjoin (replies <$> msgs1) ++ replies m) msgs2 ->
  returns (Initialize others ;;; step JoinGroup ;;; steps (Receive <$> (msgs1 ++ m :: msgs2)) : J unit) e initialRepl
    (fun _ s' o => started s' /\
     exists pre, o = pre ++ startOuts (mjoin (kept <$> msgs1) ++ mjoin (kept <$> msgs2)) /\
       Forall joining_out pre).
Proof.
  intros Hd Hj Hn Hb Hm Hms.
  destruct (joinGroup_waiting others e _ Hd Hj eq_refl) as (? & s1 & o1 & E1 & Hw & Ho1); [lia|].
  unfold bind in E1. destruct (Initialize others e initialRepl) as [[[? s0] o0]|] eqn:E0; [|done].
  destruct (step JoinGroup e s0) as [[[? s0'] o0']|] eqn:E0'; [|done]. injection E1 as <- <- <-.
  apply returns_bind. eexists _, _, _. split; [exact E0|]. apply returns_bind.
  eexists _, _, _. split; [exact E0'|]. rewrite fmap_app. eapply run_steps_app.
  { eapply waiting_steps; [done..|rewrite Hn; lia]. }
  intros s2 o2 [Hw2 Ho2]. rewrite Hn in Hw2. cbn [app Nat.add] in Hw2.
  eapply returns_weaken; [by eapply answered_ends|].
  intros _ s3 o3 [Hs (pre & -> & Hpre)]. split; [done|].
  exists (o0 ++ o0' ++ o2 ++ pre). split; [by rewrite <- !app_assoc|].
  rewrite (app_assoc o0). apply Forall_app_2; [done|]. by repeat apply Forall_app_2.
Qed.

(** ** A server of the group *)

Definition goroutine_ok (e : JoinEnv) (g : RemoteGroup) (r : Goroutine) : Prop :=
  match r with
  | GClocks req sendTo Clks missing =>
      connAt g sendTo = Some (j_ReqIP req) /\ length Clks = nParts e /\ (0 < missing)%nat
  | _ => True
  end.

Record server_ok (e : JoinEnv) (s : Repl) : Prop := {
  s_queueing : queueing s = false;
  s_receiving : receiving s = true;
  s_group : group_ok (group s);
  s_conns : conns (group s) <> [];
  s_parts : (0 < nParts e)%nat;
  s_goroutines : map_Forall (fun _ => goroutine_ok e (group s)) (goroutines s) }.

(** Partitions answer with their own identifier; the server has started. *)
Definition legal (e : JoinEnv) (ev : Event (Upd := Upd) (Trigger := Trigger) (Snap := Snap)) : Prop :=
  match ev with
  | JoinGroup => False
  | ClockReply _ part _ => 0 <= part < Z.of_nat (nParts e)
  | _ => True
  end.

(** Connections and the other goroutines stay. *)
Definition keeps (id : nat) (s s' : Repl) : Prop :=
  (forall slot ip, connAt (group s) slot = Some ip -> connAt (group s') slot = Some ip) /\
  (forall g, goroutines s !! id = Some g -> goroutines s' !! id = Some g).

Lemma server_same (e : JoinEnv) (s s' : Repl) :
  server_ok e s -> queueing s' = queueing s -> receiving s' = receiving s -> group s' = group s ->
  goroutines s' = goroutines s -> server_ok e s'.
Proof. intros [] H1 H2 H3 H4. split; rewrite ?H1, ?H2, ?H3, ?H4; done. Qed.

Lemma server_goroutines (e : JoinEnv) (s : Repl) gs :
  server_ok e s -> map_Forall (fun _ => goroutine_ok e (group s)) gs -> server_ok e (set_goroutines gs s).
Proof. intros [] Hg. by split. Qed.

Lemma handleRemoteRequest_server m (e : JoinEnv) (s : Repl) id :
  server_ok e s -> returns (handleRemoteRequest m : J unit) e s (fun _ s' o => server_ok e s' /\ keeps id s s').
Proof.
  intros Hs. assert (Hspawn : forall g0 n, goroutine_ok e (group s) g0 ->
    let s' := set_NReplicas n (set_goroutines (<[fresh (dom (goroutines s)) := g0]> (goroutines s)) s) in
    server_ok e s' /\ keeps id s s').
  { intros g0 n Hg. split.
    - eapply (server_same _ (set_goroutines _ s)); [apply server_goroutines; [done|]|done..].
      apply map_Forall_insert_2; [done|apply Hs].
    - split; [done|]. cbn. intros g Hid. rewrite lookup_insert_ne; [done|]. intros Heq.
      apply (is_fresh (dom (goroutines s))). rewrite Heq. by apply elem_of_dom_2 in Hid. }
  destruct m as [c|t|gr|ri|t b|j|q|r|r|];
    try (eexists tt, _, _; split; [reflexivity|]; split; [done|by split]).
  - destruct (waitFor (info s) - 1 =? 0) eqn:E; eexists tt, _, _; (split;
      [cbn; unfold bind, update_info, modify, tell, emit, get, ret; cbn; rewrite E; reflexivity|]);
      (split; [by eapply server_same|by split]).
  - eexists tt, _, _. split; [reflexivity|]. by apply (Hspawn (GJoin j)).
  - eexists tt, _, _. split; [reflexivity|]. by apply (Hspawn (GRequest q) (NReplicas s)).
Qed.

Lemma goroutine_ok_app (e : JoinEnv) g g' ips r :
  conns g' = conns g ++ ips -> goroutine_ok e g r -> goroutine_ok e g' r.
Proof.
  intros Hc. destruct r; try done. cbn. intros (H1 & ? & ?). split; [|done].
  destruct g' as [c n k]. cbn in Hc. subst c. by apply connAt_app.
Qed.

(** The start of handleJoin: a connection to the new server. *)
Lemma handleJoin_server id req (e : JoinEnv) (s : Repl) :
  server_ok e s ->
  returns (handleJoin id req : J unit) e s (fun _ s' o => server_ok e s' /\ (exists ips, conns (group s') = conns (group s) ++ ips) /\
    exists sendTo, connAt (group s') sendTo = Some (j_ReqIP req) /\
      goroutines s' = <[id := GClocks req sendTo (replicate (nParts e) None) (nParts e)]> (goroutines s)).
Proof.
  intros [Hq Hr Hg Hc Hp Hgs]. unfold handleJoin. apply returns_bind. eexists _, _, _. split; [reflexivity|].
  apply returns_bind. eexists _, _, _. split; [reflexivity|]. apply returns_bind.
  eapply returns_weaken; [by apply addReplica_returns|].
  intros sendTo s' o (g' & ips & -> & -> & Hg' & Hs' & Hc'). eexists _, _, _. split; [reflexivity|].
  cbn. split_and!; [|by exists ips|by exists sendTo]. split; cbn; try done.
  - rewrite Hc'. by apply app_not_nil.
  - apply map_Forall_insert_2; [cbn; by rewrite length_replicate|].
    eapply map_Forall_impl; [exact Hgs|]. intros k r. cbn. by apply goroutine_ok_app with (ips := ips).
Qed.

Lemma setClk_ok Clks part ts n :
  length Clks = n -> 0 <= part < Z.of_nat n -> setClk Clks part ts = Some (<[Z.to_nat part := Some ts]> Clks).
Proof.
  intros Hl Hp. unfold setClk. rewrite Hl. destruct (part <? 0) eqn:E1; [to_prop; lia|].
  by destruct (_ <=? part) eqn:E2; [to_prop; lia|].
Qed.

Definition replyTo (e : JoinEnv) (req : Joining.Join) (Clks : list Timestamp) : list Out :=
  [ToTM (TM_Msg (TMReplicaID (j_SenderID req) EmptyString []));
   Send (j_ReqIP req) (M_ReplyJoin (mkReplyJoin (replicaID e) 0 Clks (j_CommonBkts req) (localRabbitMQIP e)))].

(** A clock that arrives: the last one sends the answer. *)
Lemma reply_clock_server id req sendTo Clks missing part ts (e : JoinEnv) (s : Repl) :
  server_ok e s -> goroutines s !! id = Some (GClocks req sendTo Clks missing) ->
  0 <= part < Z.of_nat (nParts e) ->
  let Clks' := <[Z.to_nat part := Some ts]> Clks in
  returns (reply_clock id req sendTo Clks missing part ts : J unit) e s (fun _ s' o =>
    server_ok e s' /\ group s' = group s /\
    if (missing =? 1)%nat then goroutines s' = delete id (goroutines s) /\ o = replyTo e req Clks'
    else goroutines s' = <[id := GClocks req sendTo Clks' (missing - 1)]> (goroutines s)).
Proof.
  intros Hs Hid Hp Clks'. pose proof (s_goroutines _ _ Hs id _ Hid) as (Hc & Hl & Hm).
  unfold reply_clock. apply returns_bind, returns_must. eexists. split; [by apply (setClk_ok _ _ _ (nParts e))|]. fold Clks'.
  destruct missing as [|[|missing]]; [lia| |]; cbn [Nat.eqb].
  - eexists tt, _, _. split.
    { unfold sendReplyJoin, bind, modify, ask, tell, emit, get, must, ret. cbn. rewrite Hc. reflexivity. }
    split_and!; [|done..]. apply server_goroutines; [done|]. apply map_Forall_delete, Hs.
  - eexists tt, _, _. split; [reflexivity|]. rewrite Nat.sub_succ, Nat.sub_0_r. split_and!; [|done..].
    apply server_goroutines; [done|]. apply map_Forall_insert_2; [|apply Hs].
    cbn. split_and!; [done| |lia]. unfold Clks'. by rewrite length_insert.
Qed.
(** The events of the goroutine [id]. *)
Definition mine (id : nat) (ev : Event (Upd := Upd) (Trigger := Trigger) (Snap := Snap)) : bool :=
  match ev with
  | Run id' | ClockReply id' _ _ | SnapshotReply id' _ _ => (id' =? id)%nat
  | _ => false
  end.

Lemma keeps_group id (s s' : Repl) ips :
  conns (group s') = conns (group s) ++ ips ->
  (forall g, goroutines s !! id = Some g -> goroutines s' !! id = Some g) -> keeps id s s'.
Proof.
  intros Hc Hg. split; [|done]. intros slot ip Hs. destruct (group s') as [c n k]. cbn in Hc. subst c.
  by apply connAt_app.
Qed.

Lemma step_other id ev (e : JoinEnv) (s : Repl) :
  server_ok e s -> legal e ev -> mine id ev = false ->
  returns (step ev : J unit) e s (fun _ s' o => server_ok e s' /\ keeps id s s').
Proof.
  intros Hs Hl Hm. unfold step. apply returns_bind. eexists _, _, _. split; [reflexivity|].
  destruct ev as [m| |id'|id' part ts|id' states ts]; cbn [mine] in Hm; [|done|..].
  - rewrite (s_queueing _ _ Hs), (s_receiving _ _ Hs). by apply handleRemoteRequest_server.
  - apply Nat.eqb_neq in Hm.
    destruct (goroutines s !! id') as [[req| |req|]|] eqn:E; try (by apply returns_ret; split; [done|split]).
    + eapply returns_weaken; [by apply handleJoin_server|].
      intros _ s' o (Hs' & [ips Hc] & sendTo & _ & Hg). split; [done|]. eapply keeps_group; [exact Hc|].
      intros g Hid. rewrite Hg. by rewrite lookup_insert_ne.
    + eexists tt, _, _. split; [reflexivity|]. split.
      * apply server_goroutines; [done|]. by apply map_Forall_insert_2; [|apply Hs].
      * split; [done|]. intros g Hid. cbn. by rewrite lookup_insert_ne.
  - apply Nat.eqb_neq in Hm.
    destruct (goroutines s !! id') as [[|req sendTo Clks missing| |]|] eqn:E;
      try (by apply returns_ret; split; [done|split]).
    eapply returns_weaken; [by apply reply_clock_server|]. intros _ s' o (Hs' & Hg & Hgs). split; [done|].
    eapply (keeps_group _ _ _ []); [by rewrite Hg, app_nil_r|]. intros g Hid.
    destruct (_ =? _)%nat; [destruct Hgs as [Hgs _]|]; rewrite Hgs;
      [by rewrite lookup_delete_ne|by rewrite lookup_insert_ne].
  - apply Nat.eqb_neq in Hm.
    destruct (goroutines s !! id') as [[| | |req]|] eqn:E; try (by apply returns_ret; split; [done|split]).
    destruct (connTo_ok (group s) (rb_ReqIP req) (s_group _ _ Hs) (s_conns _ _ Hs)) as [c Ec].
    eexists tt, _, _. split.
    { unfold sendReplyBucket, bind, modify, ask, get, must, emit, ret. cbn. rewrite Ec. reflexivity. }
    split.
    + apply server_goroutines; [done|]. apply map_Forall_delete, Hs.
    + split; [done|]. intros g Hid. cbn. by rewrite lookup_delete_ne.
Qed.

Definition mine_events (id : nat) (evs : list (Event (Upd := Upd) (Trigger := Trigger) (Snap := Snap))) :=
  List.filter (mine id) evs.

(** Interleaved clocks: while some are missing, the goroutine holds those that
    have come. *)
Lemma clocks_arrive id req sendTo evs cs (e : JoinEnv) (s : Repl) Clks :
  server_ok e s -> Forall (legal e) evs ->
  mine_events id evs = (fun c => ClockReply id c.1 c.2) <$> cs ->
  goroutines s !! id = Some (GClocks req sendTo Clks (S (length cs))) ->
  returns (steps evs : J unit) e s (fun _ s' o => server_ok e s' /\
    goroutines s' !! id = Some (GClocks req sendTo (foldl (fun l c => <[Z.to_nat c.1 := Some c.2]> l) Clks cs) 1)).
Proof.
  intros Hs Hl. revert cs s Clks Hs. induction Hl as [|ev evs Hev Hl IH]; intros cs s Clks Hs Hm Hid.
  - cbn in Hm. destruct cs; [|done]. cbn. by apply returns_ret.
  - cbn [steps]. apply returns_bind. unfold mine_events in Hm. cbn [List.filter] in Hm.
    destruct (mine id ev) eqn:Em.
    + destruct cs as [|[part ts] cs]; [done|]. cbn in Hm. injection Hm as -> Hm. cbn [fst snd] in *.
      cbn [step]. apply returns_bind. eexists _, _, _. split; [reflexivity|]. rewrite Hid.
      eapply returns_weaken; [by apply reply_clock_server|]. cbn [length].
      intros [] s' o (Hs' & _ & Hgs). rewrite Nat.sub_succ, Nat.sub_0_r in Hgs. cbn [Nat.eqb] in Hgs.
      eapply returns_weaken; [apply (IH cs s' (<[Z.to_nat part := Some ts]> Clks)); [done..|]|by intros].
      by rewrite Hgs, lookup_insert_eq.
    + eapply returns_weaken; [by apply step_other|]. intros [] s' o [Hs' [_ Hk]].
      eapply returns_weaken; [apply (IH cs s' Clks); auto|by intros].
Qed.

(** The clocks by partition, whatever the order in which they come. *)
Lemma clocks_in_order (clks : list vclock) cs :
  Permutation cs (imap (fun i c => (Z.of_nat i, c)) clks) ->
  foldl (fun (l : list Timestamp) (c : Z * vclock) => <[Z.to_nat c.1 := Some c.2]> l)
    (replicate (length clks) None) cs = Some <$> clks.
Proof.
  intros Hp. assert (Hgen : forall (l : list Timestamp), length l = length clks ->
    length (foldl (fun (l : list Timestamp) (c : Z * vclock) => <[Z.to_nat c.1 := Some c.2]> l) l cs) = length clks).
  { clear Hp. induction cs as [|c cs IH]; intros l Hl; [done|]. cbn. apply IH. by rewrite length_insert. }
  assert (Hin : forall p c, (p, c) ∈ cs <-> exists i, p = Z.of_nat i /\ clks !! i = Some c).
  { intros p c. rewrite Hp, elem_of_lookup_imap. split.
    - intros (i & x & [= -> ->] & Hx). by exists i.
    - intros (i & -> & Hx). by exists i, c. }
  apply list_eq. intros i. destruct (decide (i < length clks)%nat) as [Hi|Hi].
  2: { rewrite !lookup_ge_None_2; [done|rewrite length_fmap; lia|]. rewrite Hgen; [lia|by rewrite length_replicate]. }
  destruct (lookup_lt_is_Some_2 clks i Hi) as [c Hc]. rewrite list_lookup_fmap, Hc. cbn.
  assert (Hmem : (Z.of_nat i, c) ∈ cs) by (apply Hin; by exists i).
  assert (Huniq : forall c', (Z.of_nat i, c') ∈ cs -> c' = c).
  { intros c' (j & ?%Nat2Z.inj & ?)%Hin. subst j. congruence. }
  assert (Hpos : forall p c', (p, c') ∈ cs -> 0 <= p). { intros p c' (j & -> & _)%Hin. lia. }
  clear Hp Hin Hgen. revert Hmem. generalize (length_replicate (length clks) (None : Timestamp)).
  generalize (replicate (length clks) (None : Timestamp)) as l.
  induction cs as [|[p c'] cs IH] using rev_ind; intros l Hl Hmem; [by apply elem_of_nil in Hmem|].
  rewrite foldl_app. cbn [foldl fst snd].
  assert (Hlen : length (foldl (fun (l : list Timestamp) (c : Z * vclock) => <[Z.to_nat c.1 := Some c.2]> l) l cs) = length l).
  { clear. revert l. induction cs as [|c cs IH]; intros l; [done|]. cbn. rewrite IH. apply length_insert. }
  destruct (decide (p = Z.of_nat i)) as [->|Hne].
  - rewrite Nat2Z.id, list_lookup_insert_eq by lia. f_equal. f_equal. apply Huniq. set_solver.
  - assert (0 <= p) by (apply (Hpos p c'); set_solver).
    rewrite list_lookup_insert_ne by lia. apply IH; [..|done|].
    + intros c1 ?. apply Huniq. set_solver.
    + intros p1 c1 ?. apply (Hpos p1 c1). set_solver.
    + apply elem_of_app in Hmem as [?|[= ? ?]%list_elem_of_singleton]; congruence.
Qed.

(** C19. A server of the group answers a Join: after the goroutine has started, in
    any interleaving with the other messages, goroutines and answers, once every
    partition has answered, in any order, the server tells the transaction manager
    the new identifier and sends, on the connection to the new server, the clocks
    of all its partitions by partition.  No step panics. *)
Theorem join_is_answered (e : JoinEnv) (s : Repl) (id : nat) (req : Joining.Join) (clks : list vclock)
  evs (last : Z * vclock) cs :
  server_ok e s -> goroutines s !! id = Some (GJoin req) ->
  Forall (legal e) evs -> mine_events id evs = (fun c => ClockReply id c.1 c.2) <$> cs ->
  length clks = nParts e -> Permutation (cs ++ [last]) (imap (fun i c => (Z.of_nat i, c)) clks) ->
  returns (steps (Run id :: evs ++ [ClockReply id last.1 last.2]) : J unit) e s (fun _ s' o =>
    server_ok e s' /\ exists pre, o = pre ++ replyTo e req (Some <$> clks)).
Proof.
  intros Hs Hid Hl Hm Hn Hp. cbn [steps]. apply returns_bind. cbn [step]. apply returns_bind.
  eexists _, _, _. split; [reflexivity|]. rewrite Hid.
  eapply returns_weaken; [by apply handleJoin_server|].
  intros [] s1 o1 (Hs1 & _ & sendTo & _ & Hg1). cbn [app].
  assert (Hcs : nParts e = S (length cs)).
  { apply Permutation_length in Hp. rewrite length_app, length_imap, Hn in Hp. cbn in Hp. lia. }
  eapply run_steps_app.
  { eapply (clocks_arrive id req sendTo evs cs e s1); [done..|]. rewrite Hg1, lookup_insert_eq. by rewrite <- Hcs. }
  intros s2 o2 [Hs2 Hg2]. cbn [steps]. apply returns_bind. cbn [step]. apply returns_bind.
  eexists _, _, _. split; [reflexivity|]. rewrite Hg2.
  assert (Hlast : 0 <= last.1 < Z.of_nat (nParts e)).
  { assert (Hin : last ∈ imap (fun i c => (Z.of_nat i, c)) clks).
    { rewrite <- Hp. apply elem_of_app. right. by apply list_elem_of_singleton. }
    apply elem_of_lookup_imap in Hin as (i & c & -> & Hi%lookup_lt_Some). cbn. lia. }
  eapply returns_weaken; [by apply reply_clock_server|]. cbn [Nat.eqb].
  intros [] s3 o3 (Hs3 & _ & _ & ->). apply returns_ret. split; [done|].
  exists (o1 ++ o2). rewrite !app_nil_r, <- app_assoc. do 3 f_equal. cbn.
  pose proof (clocks_in_order clks _ Hp) as Hfin. rewrite foldl_app in Hfin. cbn in Hfin.
  by rewrite <- Hn, Hfin.
Qed.
(** ** What goes wrong *)

Definition no_requests (first : option string) (o : list Out) : Prop :=
  forall ip q, Send ip (M_RequestBucket q) ∈ o -> first = Some ip.

Lemma no_requests_app f o1 o2 : no_requests f o1 -> no_requests f o2 -> no_requests f (o1 ++ o2).
Proof. intros H1 H2 ip q [?|?]%elem_of_app; eauto. Qed.

Lemma no_requests_nil f : no_requests f [].
Proof. intros ip q. by intros ?%elem_of_nil. Qed.

(** Nobody is known while no Join arrives: one connection gets all requests. *)
Definition first_only (s : Repl) (s' : Repl) (o : list Out) : Prop :=
  group s' = group s /\ no_requests (conns (group s) !! 0%nat) o.

Lemma first_only_bind {A B} (m : J A) (k : A -> J B) (e : JoinEnv) (s : Repl) :
  knownIPs (group s) = ∅ ->
  post m e s (fun _ s' o => first_only s s' o) ->
  (forall a s1, knownIPs (group s1) = ∅ -> group s1 = group s -> post (k a) e s1 (fun _ s' o => first_only s1 s' o)) ->
  post (bind m k) e s (fun _ s' o => first_only s s' o).
Proof.
  intros Hk Hm Hf. apply post_bind. eapply post_weaken; [exact Hm|]. intros a s1 o1 [Hg1 Ho1].
  eapply post_weaken; [apply Hf; congruence|]. intros b s2 o2 [Hg2 Ho2].
  split; [congruence|]. apply no_requests_app; [done|]. by rewrite <- Hg1.
Qed.

Lemma first_only_out (s s' : Repl) (o : list Out) :
  group s' = group s -> Forall (fun x => match x with Send _ (M_RequestBucket _) => False | _ => True end) o ->
  first_only s s' o.
Proof.
  intros Hg Ho. split; [done|]. intros ip q Hin. by apply (proj1 (Forall_forall _ _) Ho) in Hin.
Qed.

Ltac first_only_simple :=
  let H := fresh in intros ? ? ? H; cbn in H; injection H as <- <- <-;
  apply first_only_out; [reflexivity|by repeat constructor].

Lemma handleRemoteRequest_first m (e : JoinEnv) (s : Repl) :
  knownIPs (group s) = ∅ -> post (handleRemoteRequest m : J unit) e s (fun _ s' o => first_only s s' o).
Proof.
  intros Hk. destruct m as [c|t|gr|ri|t b|j|q|r|r|]; try first_only_simple.
  cbn [handleRemoteRequest]. repeat (apply first_only_bind; [done|first_only_simple|intros ????]; clear Hk; rename select (knownIPs _ = ∅) into Hk).
  destruct (_ =? 0); [|first_only_simple]. apply first_only_bind; [done|first_only_simple|intros ????]. first_only_simple.
Qed.

Lemma askBuckets_first (e : JoinEnv) (s : Repl) :
  knownIPs (group s) = ∅ -> post (askBuckets : J unit) e s (fun _ s' o => first_only s s' o).
Proof.
  intros Hk. unfold askBuckets. apply first_only_bind; [done|first_only_simple|intros _ s1 Hk1 Hg1].
  apply first_only_bind; [done|first_only_simple|intros r s2 Hk2 Hg2].
  apply first_only_bind; [done| |intros [best askTo] s3 Hk3 Hg3].
  { apply post_must. intros a _. by apply first_only_out. }
  apply first_only_bind; [done|first_only_simple|intros _ s4 Hk4 Hg4]. clear - Hk4.
  generalize (map_to_list (invert (map_to_list askTo))) as l. intros l. revert s4 Hk4.
  induction l as [|[ip bs] l IH]; intros s4 Hk4; cbn [foldM].
  - apply post_ret. by apply first_only_out.
  - apply first_only_bind; [done| |intros [] s5 Hk5 _; by apply IH].
    intros u s' o. unfold sendRequestBucket, bind, ask, get, must, ret, emit, panic, connTo. cbn.
    rewrite Hk4, lookup_empty. cbn. unfold connAt. cbn.
    destruct (conns (group s4)) as [|c cs] eqn:Ec; cbn; [by intros [=]|].
    intros [= <- <- <-]. split; [done|]. rewrite Ec.
    by intros ip' q [= -> ?]%list_elem_of_singleton.
Qed.

(** C20. A joining server that has received no Join of another knows no address:
    whatever other message it handles (an answer, a snapshot, or one that it
    keeps), every request for buckets that it sends goes to the first server of
    its list, whichever server offered the highest clock, and it still knows no
    address after it. *)
Theorem requests_go_to_the_first_server (e : JoinEnv) (s s' : Repl) m o u :
  knownIPs (group s) = ∅ -> kept m = [m] \/ (answers m + bkts m = 1)%nat ->
  (step (Receive m) : J unit) e s = Some (u, s', o) ->
  knownIPs (group s') = ∅ /\ conns (group s') = conns (group s) /\
  forall ip q, Send ip (M_RequestBucket q) ∈ o -> conns (group s) !! 0%nat = Some ip.
Proof.
  intros Hk Hm Hstep.
  assert (Hp : post (step (Receive m) : J unit) e s (fun _ s' o => first_only s s' o)).
  { unfold step. apply first_only_bind; [done|first_only_simple|intros r s1 Hk1 Hg1].
    destruct (queueing r); [|destruct (receiving r); [by apply handleRemoteRequest_first|first_only_simple]].
    apply first_only_bind; [done| |intros ? s2 Hk2 Hg2].
    - destruct m as [c|t|gr|ri|t b|j|q|rj|rb|]; cbn [queueRemoteRequest]; try first_only_simple.
      + by destruct Hm.
      + unfold handleReplyJoin. apply first_only_bind; [done|first_only_simple|intros r1 s2 Hk2 Hg2].
        cbn zeta. destruct (_ <=? _)%nat; [by intros ??? [=]|].
        repeat (apply first_only_bind; [done|first_only_simple|intros ????]).
        destruct (_ =? 0); [by apply askBuckets_first|first_only_simple].
      + unfold handleReplyBucket. repeat (apply first_only_bind; [done|first_only_simple|intros ????]).
        destruct (_ =? 0); first_only_simple.
      + unfold handleReplyEmpty. repeat (apply first_only_bind; [done|first_only_simple|intros ????]).
        cbn zeta. destruct (_ && _); [first_only_simple|].
        destruct (_ =? 0); [by apply askBuckets_first|first_only_simple].
    - apply first_only_bind; [done|first_only_simple|intros r1 s3 Hk3 Hg3].
      destruct (allDone _); [|first_only_simple]. unfold leaveQueue.
      apply first_only_bind; [done|first_only_simple|intros ? s4 Hk4 Hg4].
      apply first_only_bind; [done|first_only_simple|intros r2 s5 Hk5 Hg5].
      apply first_only_bind; [done| |intros ????; repeat (apply first_only_bind; [done|first_only_simple|intros ????]); first_only_simple].
      generalize (holdMsgs (info r2)) as l. clear - Hk5. intros l. revert s5 Hk5.
      induction l as [|m l IH]; intros s5 Hk5; cbn [foldM]; [apply post_ret; by apply first_only_out|].
      apply first_only_bind; [done|by apply handleRemoteRequest_first|intros [] s6 ? _; by apply IH]. }
  destruct (Hp u s' o Hstep) as [Hg Ho]. rewrite Hg. split_and!; [done|done|exact Ho].
Qed.

(** The clocks of a ReplyJoin are one per partition, its buckets one per bucket,
    and the code indexes the buckets with the position of a clock: when a server
    answers with more partitions than common buckets, the joining server panics at
    the last answer. *)
Theorem more_partitions_than_buckets_panics n held rs a (e : JoinEnv) (s : Repl) (r : ReplyJoin) :
  waiting n held rs a s -> n = S a ->
  (length (rj_CommonBkts r) < length (rj_Clks r))%nat ->
  (step (Receive (M_ReplyJoin r)) : J unit) e s = None.
Proof.
  intros [Hq Hg Hc Hi Hr Hh] -> Hl.
  destruct s as [inf g nr q rc gs]. cbn in Hq, Hg, Hc, Hi. subst q inf.
  assert (Hclks : forall clks bkts' ip st i, (length bkts' < i + length clks)%nat -> (i <= length bkts')%nat ->
            askClks bkts' ip st i clks = None).
  { induction clks as [|c clks IH]; intros bkts' ip [best askTo] i H1 H2; cbn in *; [lia|].
    destruct (bkts' !! i) as [b|] eqn:Eb; [|done]. destruct c as [c|]; [|done].
    apply lookup_lt_Some in Eb. case_match; apply IH; lia. }
  assert (Hask : forall l st, askReplies st ((Some <$> l) ++ [Some r]) = None).
  { induction l as [|r0 l IH]; intros st; cbn.
    - by rewrite (Hclks (rj_Clks r)) by lia.
    - by case_match. }
  unfold step, bind at 1, get at 1. cbn [queueing queueRemoteRequest]. unfold handleReplyJoin, bind, get, modify, tell, emit. cbn -[askBuckets].
  rewrite length_app, length_fmap, length_replicate.
  destruct (_ <=? _)%nat eqn:E1; [done|]. destruct (_ =? 0) eqn:E2; [|to_prop; lia].
  unfold askBuckets, bind, update_info, modify, get, must. cbn -[askReplies].
  rewrite insert_reply by lia. rewrite length_app in *. cbn [length].
  rewrite fmap_app. cbn [fmap list_fmap]. rewrite take_app_le by (rewrite length_app, length_fmap; cbn; lia).
  rewrite (firstn_all2 (n := S (length rs))) by (rewrite length_app, length_fmap; cbn; lia).
  change (Some <$> [r]) with [Some r]. by rewrite Hask.
Qed.
End queue.

(** Connections of the start are not registered in [knownIPs]: a replica that
    the group already knows is added again, and heard twice. *)
Theorem known_replica_is_added_again (others : list string) (ip : string) :
  ip ∈ conns (CreateRemoteGroupStruct others) ->
  exists g, AddReplica ip (CreateRemoteGroupStruct others) = Some (Z.of_nat (length (conns (CreateRemoteGroupStruct others))), g) /\
    conns g = conns (CreateRemoteGroupStruct others) ++ [ip].
Proof.
  intros _. unfold AddReplica. cbn [knownIPs CreateRemoteGroupStruct]. rewrite lookup_empty.
  set (g := CreateRemoteGroupStruct others). assert (Hn : nReplicas g = Z.of_nat (length (conns g))) by done.
  rewrite Hn, length_app. cbn [length].
  destruct (_ <? 0) eqn:E1; [to_prop; lia|]. destruct (_ <=? _) eqn:E2; [to_prop; lia|].
  eexists. split; [reflexivity|]. cbn [conns].
  by rewrite Nat2Z.id, insert_app_r_alt, Nat.sub_diag by lia.
Qed.

(** ** Concrete groups *)

Definition joiner : JoinEnv := mkJoinEnv 3 ["b"%string] "10.0.0.3" "10.0.0.3:8087" 1 true false.
Definition twoOthers : list string := ["10.0.0.1"%string; "10.0.0.2"%string].
Definition clockAt (n : Z) : vclock := {[ 1 := n; 2 := 7 ]}.
Definition replyFrom (id : Z) (ip : string) (n : Z) : ReplyJoin :=
  mkReplyJoin id 0 [Some (clockAt n)] ["b"%string] ip.
Definition bucketFrom : ReplyBucket (Snap := unit) := mkReplyBucket 2 [[tt]] (clockAt 9).
Definition aMsg (ts : Z) : Msg (Upd := Z) (Trigger := unit) (Snap := unit) := M_StableClock (mkStable 1 ts).

Lemma join_ends_witness :
  returns (Initialize twoOthers ;;; step JoinGroup ;;;
    steps (Receive <$> [aMsg 5; M_ReplyJoin (replyFrom 1 "10.0.0.1" 4)] ++
       M_ReplyJoin (replyFrom 2 "10.0.0.2" 9) :: [aMsg 6; M_ReplyBucket bucketFrom]))%eff
    joiner initialRepl
    (fun _ s' o => started s' /\
     exists pre, o = pre ++ startOuts [aMsg 5; aMsg 6] /\ Forall joining_out pre).
Proof.
  apply (join_ends joiner twoOthers [aMsg 5; M_ReplyJoin (replyFrom 1 "10.0.0.1" 4)]
    [aMsg 6; M_ReplyBucket bucketFrom] (M_ReplyJoin (replyFrom 2 "10.0.0.2" 9))); try reflexivity.
  - by repeat constructor.
  - exists {[ "10.0.0.2"%string := ["b"%string] ]}, [aMsg 6], bucketFrom.
    split_and!; [by vm_compute|reflexivity|by repeat constructor|reflexivity].
Defined.

Lemma asked_for_the_highest_clock_witness :
  exists r clk, r ∈ [replyFrom 1 "10.0.0.1" 4; replyFrom 2 "10.0.0.2" 9] /\
    offer_of r ("b"%string, clk, "10.0.0.2"%string).
Proof.
  destruct (asked_for_the_highest_clock {[1; 2]} [replyFrom 1 "10.0.0.1" 4; replyFrom 2 "10.0.0.2" 9]
    {[ "10.0.0.2"%string := ["b"%string] ]}) with (bkt := "b"%string) as [_ H].
  - intros r o Hr Ho. assert (Hd : forall n, dom (clockAt n) = ({[1; 2]} : gset Z)) by (intros; unfold clockAt; set_solver).
    apply elem_of_cons in Hr as [->|[->|[]%elem_of_nil]%elem_of_cons]; destruct Ho as [[|i] ? ? ? Hc];
      cbn in Hc; try (by destruct i); injection Hc as <-; apply Hd.
  - by vm_compute.
  - destruct (H "10.0.0.2"%string ["b"%string]) as (_ & r & clk & Hr & Ho & _);
      [reflexivity|by apply list_elem_of_singleton|]. by exists r, clk.
Defined.

Definition member : JoinEnv := mkJoinEnv 1 ["b"%string] "10.0.0.1" "10.0.0.1:8087" 2 false false.
Definition joinOf3 : Joining.Join := mkJoin 3 0 ["b"%string; "c"%string] "10.0.0.3".
Definition memberState : Repl (Upd := Z) (Trigger := unit) (Snap := unit) :=
  mkRepl noJoinInfo (CreateRemoteGroupStruct twoOthers) 3 false true {[ 0%nat := GJoin joinOf3 ]}.

Lemma memberState_ok : server_ok member memberState.
Proof. split; try done; [cbn; lia|by apply map_Forall_singleton]. Qed.

Lemma join_is_answered_witness :
  returns (steps (Run 0 :: [Receive (aMsg 5); ClockReply 0 1 (clockAt 2)] ++ [ClockReply 0 0 (clockAt 1)]))
    member memberState (fun _ s' o => server_ok member s' /\
      exists pre, o = pre ++ replyTo member joinOf3 [Some (clockAt 1); Some (clockAt 2)]).
Proof.
  apply (join_is_answered member memberState 0 joinOf3 [clockAt 1; clockAt 2]
    [Receive (aMsg 5); ClockReply 0 1 (clockAt 2)] (0, clockAt 1) [(1, clockAt 2)]).
  - apply memberState_ok.
  - reflexivity.
  - repeat constructor; cbn; lia.
  - reflexivity.
  - reflexivity.
  - apply perm_swap.
Defined.

(** The first answer has come from a server with two partitions and one common
    bucket. *)
Definition waitingState : Repl (Upd := Z) (Trigger := unit) (Snap := unit) :=
  mkRepl (mkJoinInfo [] 1 [None] 0 false) (CreateRemoteGroupStruct ["10.0.0.1"%string]) 2 true false ∅.
Definition twoPartitions : ReplyJoin :=
  mkReplyJoin 1 0 [Some (clockAt 1); Some (clockAt 2)] ["b"%string] "10.0.0.1".

Lemma more_partitions_than_buckets_panics_witness :
  step (Receive (M_ReplyJoin twoPartitions)) joiner waitingState = None.
Proof.
  apply (more_partitions_than_buckets_panics 1 [] [] 0); [|reflexivity|cbn; lia].
  split; try done; cbn; lia.
Defined.

Lemma requests_go_to_the_first_server_witness :
  exists u s' o,
    step (Receive (M_ReplyJoin (replyFrom 2 "10.0.0.2" 9))) joiner
      (mkRepl (mkJoinInfo [] 1 [None] 0 false) (CreateRemoteGroupStruct twoOthers) 3 true false ∅
        : Repl (Upd := Z) (Trigger := unit) (Snap := unit)) = Some (u, s', o) /\
    Send "10.0.0.1" (M_RequestBucket (mkRequestBucket 3 0 ["b"%string] "10.0.0.3")) ∈ o /\
    knownIPs (group s') = ∅.
Proof.
  eexists _, _, _. split; [by vm_compute|]. split; [apply list_elem_of_In; cbn; auto|].
  eapply (requests_go_to_the_first_server joiner
    (mkRepl (mkJoinInfo [] 1 [None] 0 false) (CreateRemoteGroupStruct twoOthers) 3 true false ∅)
    _ (M_ReplyJoin (replyFrom 2 "10.0.0.2" 9))); [reflexivity|by right|by vm_compute].
Defined.

Lemma known_replica_is_added_again_witness :
  exists g, AddReplica "10.0.0.2" (CreateRemoteGroupStruct twoOthers) = Some (2, g) /\
    conns g = ["10.0.0.1"%string; "10.0.0.2"%string; "10.0.0.2"%string].
Proof.
  apply (known_replica_is_added_again twoOthers "10.0.0.2").
  apply list_elem_of_In. cbn. auto.
Defined.
