(* ===== verification/JoiningMsgs.v ===== *)
(** * The messages of servers that join: remoteConnection.go, remoteGroup.go and
      replicatorProtoLib.go (src/potionDB/components)

    All are published to the topic "join", and the content type says which message
    the body is.  A server ignores a Join without common buckets.  [MarshalJoin]
    and [UnmarshalJoin] are the protocol buffer library. *)

From S2P Require Import Prelude ClockSI ClockCodec Effects Keys Logger Replicator ReplicatorProto.
From S2P Require Import RemoteConn Joining.
From Stdlib Require Import ZArith Lia Bool.
From stdpp Require Import base tactics numbers strings gmap list.
#[local] Open Scope Z_scope.

Record ProtoRemoteID := mkPRemoteID { pid_replicaID : Z; myBuckets : list string; myIP : string }.
Record ProtoJoin := mkPJoin { pj_buckets : list string; pj_replicaID : Z; pj_replicaIP : string }.
Record ProtoReplyJoin := mkPReplyJoin {
  prj_buckets : list string; partsClk : list (list Z); prj_replicaID : Z; prj_replicaIP : string }.
Record ProtoRequestBucket := mkPRequest { prb_buckets : list string; prb_replicaID : Z; prb_replicaIP : string }.

Definition remoteIDContent : string := "remoteID".
Definition joinContent : string := "join".
Definition replyJoinContent : string := "replyJoin".
Definition requestBktContent : string := "requestBkt".
Definition replyBktContent : string := "replyBkt".
Definition replyEmptyContent : string := "replyEmpty".

Section messages.
Context {Snap : Type}.

Record ProtoPartition := mkPPartition { states : list Snap }.
Record ProtoReplyBucket := mkPReplyBucket { prp_replicaID : Z; clk : list Z; parts : list ProtoPartition }.

(** [clk.ToBytes()] of a nil clock panics. *)
Fixpoint clocks_of (clks : list Timestamp) : option (list vclock) :=
  match clks with
  | [] => Some []
  | Some c :: clks => option_map (cons c) (clocks_of clks)
  | None :: _ => None
  end.

Definition createProtoRemoteID (replicaID : Z) (myBuckets : list string) (myIP : string) : ProtoRemoteID :=
  mkPRemoteID (int32 replicaID) myBuckets myIP.
Definition createProtoJoin (buckets : list string) (replicaID : Z) (ip : string) : ProtoJoin :=
  mkPJoin buckets (int32 replicaID) ip.
Definition createProtoReplyJoin (req : ReplyJoin) : option ProtoReplyJoin :=
  match clocks_of (rj_Clks req) with
  | Some clks => Some (mkPReplyJoin (rj_CommonBkts req) (ClockArrayToByteArray clks)
                        (int32 (rj_SenderID req)) (rj_ReqIP req))
  | None => None
  end.
Definition createProtoRequestBucket (req : RequestBucket) : ProtoRequestBucket :=
  mkPRequest (rb_Buckets req) (int32 (rb_SenderID req)) (rb_ReqIP req).
Definition createProtoPartitions (partCRDTs : list Snap) : ProtoPartition := mkPPartition partCRDTs.
Definition createProtoReplyBucket (req : ReplyBucket (Snap := Snap)) : ProtoReplyBucket :=
  mkPReplyBucket (int32 (rp_SenderID req)) (ToBytes (rp_Clk req)) (createProtoPartitions <$> rp_PartStates req).

Definition protoToJoin (p : ProtoJoin) : list string * Z * string :=
  (pj_buckets p, int16 (pj_replicaID p), pj_replicaIP p).
Definition protoToReplyJoin (p : ProtoReplyJoin) : list string * list vclock * Z :=
  (prj_buckets p, ByteArrayToClockArray (partsClk p), int16 (prj_replicaID p)).
Definition protoToRequestBucket (p : ProtoRequestBucket) : list string * Z :=
  (prb_buckets p, int16 (prb_replicaID p)).
Definition protoToPartitions (ps : list ProtoPartition) : list (list Snap) := states <$> ps.
Definition protoToReplyBucket (p : ProtoReplyBucket) : list (list Snap) * vclock * Z :=
  (protoToPartitions (parts p), FromBytes (clk p), int16 (prp_replicaID p)).

Inductive JoinProto :=
  | P_RemoteID (p : ProtoRemoteID)
  | P_Join (p : ProtoJoin)
  | P_ReplyJoin (p : ProtoReplyJoin)
  | P_RequestBucket (p : ProtoRequestBucket)
  | P_ReplyBucket (p : ProtoReplyBucket)
  | P_ReplyEmpty.

(** [Unmarshal] fills the fields of a message of the type of its argument. *)
Class JoinProtobuf := {
  MarshalJoin : JoinProto -> list Z;
  UnmarshalRemoteID : list Z -> ProtoRemoteID;
  UnmarshalJoin : list Z -> ProtoJoin;
  UnmarshalReplyJoin : list Z -> ProtoReplyJoin;
  UnmarshalRequestBucket : list Z -> ProtoRequestBucket;
  UnmarshalReplyBucket : list Z -> ProtoReplyBucket
}.

Class JoinProtobufLaws `{JoinProtobuf} := {
  Unmarshal_RemoteID p : UnmarshalRemoteID (MarshalJoin (P_RemoteID p)) = p;
  Unmarshal_Join p : UnmarshalJoin (MarshalJoin (P_Join p)) = p;
  Unmarshal_ReplyJoin p : UnmarshalReplyJoin (MarshalJoin (P_ReplyJoin p)) = p;
  Unmarshal_RequestBucket p : UnmarshalRequestBucket (MarshalJoin (P_RequestBucket p)) = p;
  Unmarshal_ReplyBucket p : UnmarshalReplyBucket (MarshalJoin (P_ReplyBucket p)) = p
}.

Section wire.
Context `{JoinProtobuf}.

(** ** Sending *)

Definition onJoinTopic (content : string) (m : JoinProto) : Publishing :=
  mkPub joinTopic content None (MarshalJoin m).

Definition sendReplicaID (replicaID : Z) (buckets : list string) (ip : string) : Publishing :=
  onJoinTopic remoteIDContent (P_RemoteID (createProtoRemoteID replicaID buckets ip)).
Definition SendJoin (buckets : list string) (replicaID : Z) (ip : string) : Publishing :=
  onJoinTopic joinContent (P_Join (createProtoJoin buckets replicaID ip)).
Definition SendReplyJoin (req : ReplyJoin) : option Publishing :=
  match createProtoReplyJoin req with
  | Some p => Some (onJoinTopic replyJoinContent (P_ReplyJoin p))
  | None => None
  end.
Definition SendRequestBucket (req : RequestBucket) : Publishing :=
  onJoinTopic requestBktContent (P_RequestBucket (createProtoRequestBucket req)).
Definition SendReplyBucket (req : ReplyBucket (Snap := Snap)) : Publishing :=
  onJoinTopic replyBktContent (P_ReplyBucket (createProtoReplyBucket req)).
Definition SendReplyEmpty : Publishing := onJoinTopic replyEmptyContent P_ReplyEmpty.

(** ** Receiving *)

Context {Upd Trigger : Type}.
Abbreviation Msg := (Msg (Upd := Upd) (Trigger := Trigger) (Snap := Snap)).

Definition handleRemoteID (data : list Z) : Msg :=
  let p := UnmarshalRemoteID data in
  M_RemoteID (mkRemoteID (int16 (pid_replicaID p)) (myBuckets p) (myIP p)).

(** A Join without common buckets gets no answer. *)
Definition conn_handleJoin (buckets : gset string) (connID : Z) (data : list Z) : option Msg :=
  let '(otherBkts, senderID, ip) := protoToJoin (UnmarshalJoin data) in
  let commonBkts := List.filter (fun bkt => bool_decide (bkt ∈ buckets)) otherBkts in
  if (0 <? length commonBkts)%nat then Some (M_Join (mkJoin (int16 senderID) connID commonBkts ip))
  else None.

Definition conn_handleReplyJoin (connID : Z) (data : list Z) : Msg :=
  let p := UnmarshalReplyJoin data in
  let '(buckets, clks, senderID) := protoToReplyJoin p in
  M_ReplyJoin (mkReplyJoin senderID connID (Some <$> clks) buckets (prj_replicaIP p)).

Definition handleRequestBkt (connID : Z) (data : list Z) : Msg :=
  let p := UnmarshalRequestBucket data in
  let '(buckets, senderID) := protoToRequestBucket p in
  M_RequestBucket (mkRequestBucket senderID connID buckets (prb_replicaIP p)).

Definition handleReplyBkt (data : list Z) : Msg :=
  let '(states, clk, senderID) := protoToReplyBucket (UnmarshalReplyBucket data) in
  M_ReplyBucket (mkReplyBucket senderID states clk).

Definition handleReceivedJoinTopic (buckets : gset string) (connID : Z) (msgType : string) (data : list Z)
  : option Msg :=
  if (msgType =? remoteIDContent)%string then Some (handleRemoteID data)
  else if (msgType =? joinContent)%string then conn_handleJoin buckets connID data
  else if (msgType =? replyJoinContent)%string then Some (conn_handleReplyJoin connID data)
  else if (msgType =? requestBktContent)%string then Some (handleRequestBkt connID data)
  else if (msgType =? replyBktContent)%string then Some (handleReplyBkt data)
  else if (msgType =? replyEmptyContent)%string then Some M_ReplyEmpty
  else None.

Definition receiveJoin (buckets : gset string) (connID : Z) (p : Publishing) : option Msg :=
  handleReceivedJoinTopic buckets connID (ContentType p) (Body p).

(** ** What is sent arrives *)

Lemma int16_of_int32 z : inS 16 z -> int16 (int32 z) = z.
Proof.
  intros Hz. assert (inS 32 z) by (unfold inS in *; lia). by rewrite (wrapS_id 32), wrapS_id by (done || lia).
Qed.

Lemma clocks_survive clks :
  Forall clock_ok clks -> ByteArrayToClockArray (ClockArrayToByteArray clks) = clks.
Proof.
  intros Hc. unfold ByteArrayToClockArray, ClockArrayToByteArray. induction Hc as [|c clks Hok Hc IH]; [done|].
  cbn. rewrite IH. f_equal. by apply clock_bytes.
Qed.

Lemma clocks_of_Some clks : clocks_of (Some <$> clks) = Some clks.
Proof. induction clks as [|c clks IH]; [done|]. cbn. by rewrite IH. Qed.

Lemma states_parts (l : list (list Snap)) : protoToPartitions (createProtoPartitions <$> l) = l.
Proof. unfold protoToPartitions. rewrite <- list_fmap_compose. apply list_fmap_id. Qed.

(** The messages of a join arrive as they were sent, with the identifier of the
    connection they came on: the clocks of the partitions, the snapshots, the
    buckets and addresses.  Of a Join only the common buckets arrive, and a server
    that has none of them in its list ignores it: the server that joins waits for
    its answer forever. *)
Theorem join_messages_arrive `{!JoinProtobufLaws} (buckets : gset string) (connID senderID : Z) :
  inS 16 senderID ->
  (forall bkts ip, receiveJoin buckets connID (sendReplicaID senderID bkts ip) =
     Some (M_RemoteID (mkRemoteID senderID bkts ip))) /\
  (forall bkts ip, receiveJoin buckets connID (SendJoin bkts senderID ip) =
     let common := List.filter (fun b => bool_decide (b ∈ buckets)) bkts in
     if decide (common = []) then None else Some (M_Join (mkJoin senderID connID common ip))) /\
  (forall replyID clks bkts ip, Forall clock_ok clks ->
     exists p, SendReplyJoin (mkReplyJoin senderID replyID (Some <$> clks) bkts ip) = Some p /\
       receiveJoin buckets connID p = Some (M_ReplyJoin (mkReplyJoin senderID connID (Some <$> clks) bkts ip))) /\
  (forall replyID bkts ip, receiveJoin buckets connID (SendRequestBucket (mkRequestBucket senderID replyID bkts ip)) =
     Some (M_RequestBucket (mkRequestBucket senderID connID bkts ip))) /\
  (forall states c, clock_ok c -> receiveJoin buckets connID (SendReplyBucket (mkReplyBucket senderID states c)) =
     Some (M_ReplyBucket (mkReplyBucket senderID states c))) /\
  receiveJoin buckets connID SendReplyEmpty = Some M_ReplyEmpty.
Proof.
  intros Hid. unfold receiveJoin. split_and!.
  - intros bkts ip. cbn. unfold handleRemoteID. rewrite Unmarshal_RemoteID. cbn. by rewrite int16_of_int32.
  - intros bkts ip. cbn. unfold conn_handleJoin. rewrite Unmarshal_Join. cbn. rewrite !int16_of_int32 by done.
    destruct (List.filter _ bkts) as [|b l]; cbn; [done|].
    by rewrite (wrapS_id 16).
  - intros replyID clks bkts ip Hc. unfold SendReplyJoin, createProtoReplyJoin. cbn [rj_Clks].
    rewrite clocks_of_Some. eexists. split; [reflexivity|]. cbn. unfold conn_handleReplyJoin.
    rewrite Unmarshal_ReplyJoin. cbn. by rewrite int16_of_int32, clocks_survive.
  - intros replyID bkts ip. cbn. unfold handleRequestBkt. rewrite Unmarshal_RequestBucket. cbn.
    by rewrite int16_of_int32.
  - intros states c Hc. cbn. unfold handleReplyBkt. rewrite Unmarshal_ReplyBucket. cbn.
    by rewrite int16_of_int32, states_parts, clock_bytes.
  - done.
Qed.
End wire.
End messages.

(** ** A library in which a message is a single number *)

Module NumberMessages.
Abbreviation Fields := ((Z * list string * string) + (list string * Z * string) +
  (list string * list (list Z) * Z * string) + (list string * Z * string) + (Z * list Z * list (list Z)) + unit)%type.

Definition fields (m : JoinProto (Snap := Z)) : Fields :=
  match m with
  | P_RemoteID p => inl (inl (inl (inl (inl (pid_replicaID p, myBuckets p, myIP p)))))
  | P_Join p => inl (inl (inl (inl (inr (pj_buckets p, pj_replicaID p, pj_replicaIP p)))))
  | P_ReplyJoin p => inl (inl (inl (inr (prj_buckets p, partsClk p, prj_replicaID p, prj_replicaIP p))))
  | P_RequestBucket p => inl (inl (inr (prb_buckets p, prb_replicaID p, prb_replicaIP p)))
  | P_ReplyBucket p => inl (inr (prp_replicaID p, clk p, states <$> parts p))
  | P_ReplyEmpty => inr tt
  end.

Definition fieldsOf (data : list Z) : option Fields :=
  match data with [Zpos n] => decode n | _ => None end.

#[export] Instance numbers : JoinProtobuf (Snap := Z) := {
  MarshalJoin m := [Zpos (encode (fields m))];
  UnmarshalRemoteID data := match fieldsOf data with
    | Some (inl (inl (inl (inl (inl (i, b, a)))))) => mkPRemoteID i b a | _ => mkPRemoteID 0 [] EmptyString end;
  UnmarshalJoin data := match fieldsOf data with
    | Some (inl (inl (inl (inl (inr (b, i, a)))))) => mkPJoin b i a | _ => mkPJoin [] 0 EmptyString end;
  UnmarshalReplyJoin data := match fieldsOf data with
    | Some (inl (inl (inl (inr (b, c, i, a))))) => mkPReplyJoin b c i a | _ => mkPReplyJoin [] [] 0 EmptyString end;
  UnmarshalRequestBucket data := match fieldsOf data with
    | Some (inl (inl (inr (b, i, a)))) => mkPRequest b i a | _ => mkPRequest [] 0 EmptyString end;
  UnmarshalReplyBucket data := match fieldsOf data with
    | Some (inl (inr (i, c, p))) => mkPReplyBucket i c (mkPPartition <$> p) | _ => mkPReplyBucket 0 [] [] end
}.

#[export] Instance number_laws : JoinProtobufLaws (Snap := Z).
Proof.
  constructor; intros []; simpl; rewrite decode_encode; try done. f_equal.
  rewrite <- list_fmap_compose. etransitivity; [|apply list_fmap_id]. apply list_fmap_ext. by intros ? [].
Qed.

Lemma join_messages_arrive_witness :
  receiveJoin (Upd := Z) (Trigger := unit) {["b"%string]} 4 (SendJoin ["a"%string] 3 "10.0.0.3") = None /\
  exists p, SendReplyJoin (mkReplyJoin 1 0 [Some {[ 1 := 5 ]}] ["b"%string] "10.0.0.1") = Some p /\
    receiveJoin (Upd := Z) (Trigger := unit) {["b"%string]} 4 p =
      Some (M_ReplyJoin (mkReplyJoin 1 4 [Some {[ 1 := 5 ]}] ["b"%string] "10.0.0.1")).
Proof.
  split.
  - destruct (join_messages_arrive (Upd := Z) (Trigger := unit) {["b"%string]} 4 3) as (_ & H & _); [done|].
    by rewrite H.
  - destruct (join_messages_arrive (Upd := Z) (Trigger := unit) {["b"%string]} 4 1) as (_ & _ & H & _); [done|].
    apply (H 0 [ {[ 1 := 5 ]} ]). constructor; [|done]. split; [done|]. by apply map_Forall_singleton.
Defined.
End NumberMessages.
