(* ===== verification/ServerToServer.v ===== *)
(** * Transactions that span servers: messages between servers

    transactionManager.go, serverProtoLib.go, antidoteProtoLib.go and
    connectionPool.go (src/potionDB/components), protoServer.go
    (src/potionDB/main).  A transaction manager that does not hold an object's
    bucket asks a server that does: the handleRemote... functions send requests
    over a pool of connections; the other server decodes them
    ([handleServerToServer]) and runs them as requests of a client
    ([handleServerRequests]).

    Messages are records that hold the objects' own arguments and states; bytes
    are integers in [[0, 256)].  [None] is a panic, which ends the server's
    process, or a wait that never ends.  A nil slice of bytes is [None] where the code compares it with
    nil. *)

From S2P Require Import Prelude ClockSI ClockCodec Effects Keys PartitionClock VersionManager.
From S2P Require Import Materializer CommitReplies TransactionManager.
From Stdlib Require Import ZArith Lia Bool.
From stdpp Require Import base tactics numbers strings gmap sorting list.
#[local] Open Scope Z_scope.
#[local] Open Scope eff_scope.

(** ** Transaction descriptors *)

(** [binary.BigEndian.Uint64]. *)
Definition be_value (bytes : list Z) : Z := foldl (fun v b => Z.lor (Z.shiftl v 8) b) 0 bytes.

Definition createTxnDescriptorBytes (txnId : Z) (ts : vclock) : list Z := be_bytes 8 (uint64 txnId) ++ ToBytes ts.

(** [random]: [rand.Uint64()].  Fewer than 8 bytes are out of range. *)
Definition DecodeTxnDescriptor (random : Z) (bytes : list Z) : option (Z * vclock) :=
  match bytes with
  | [] => Some (random, FromBytes [])
  | _ => if (length bytes <? 8)%nat then None else Some (be_value (take 8 bytes), FromBytes (drop 8 bytes))
  end.

(** ** Messages *)

Inductive WrapperType :=
  | STATIC_READ_OBJS | STATIC_READ | STATIC_UPDATE | START_TXN | READ_OBJS | READ | UPD | COMMIT | ABORT
  | BC_PERMS_REQ | STATIC_SINGLE_READ.

Definition WrapperType_value (t : WrapperType) : Z :=
  match t with
  | STATIC_READ_OBJS => 1 | STATIC_READ => 2 | STATIC_UPDATE => 3 | START_TXN => 4 | READ_OBJS => 5 | READ => 6
  | UPD => 7 | COMMIT => 8 | ABORT => 9 | BC_PERMS_REQ => 10 | STATIC_SINGLE_READ => 11
  end.

(** The codes of the outer messages. *)
Definition S2S : Z := 81.
Definition S2SReply : Z := 181.

Section messages.
Context {Upd RArgs State : Type}.
Abbreviation updates := (list (UpdateObjectParams Upd)).
Abbreviation reads := (list (ReadObjectParams RArgs)).

(** What the field of the message's type holds. *)
Inductive S2SMsg :=
  | StaticReadObjs (transaction : list Z) (objs : list KeyParams)
  | StaticRead (transaction : list Z) (full : list KeyParams) (partial : reads)
  | StaticUpd (transaction : list Z) (upds : updates)
  | StartTxn (timestamp : list Z)
  | ReadObjs (desc : list Z) (objs : list KeyParams)
  | ReadMsg (desc : list Z) (full : list KeyParams) (partial : reads)
  | UpdMsg (desc : list Z) (upds : updates)
  | CommitTxn (desc : list Z)
  | AbortTxn (desc : list Z)
  | BcPermsReq (PartReqs : list (list (KeyParams * Z))) (ReqReplicaID : Z)
  | SingleRead (read : ReadObjectParams RArgs).

Record S2SWrapper := mkWrapper { ClientID : Z; Msg : S2SMsg }.

(** The answers: [ApbStaticReadObjectsResp] with the descriptor of the commit
    time, and so on. *)
Inductive Resp :=
  | ApbStaticReadObjectsResp (Objects : list State) (Committime : list Z)
  | ApbStartTransactionResp (desc : list Z)
  | ApbReadObjectsResp (Objects : list State)
  | ApbOperationResp
  | ApbCommitResp (CommitTime : list Z)
  | S2SSingleReadResp (Resp : State) (Clk : list Z).

(** The fields of a wrapper are nil but for the one of the message. *)
Record S2SWrapperReply := mkWrapperReply { R_ClientID : Z; R_MsgID : WrapperType; R_Msg : option Resp }.

(** The type assertions on the message. *)
Definition CreateS2SWrapperReplyProto (clientID : Z) (msgID : WrapperType) (msg : Resp) : option S2SWrapperReply :=
  match msgID, msg with
  | STATIC_READ_OBJS, ApbStaticReadObjectsResp _ _
  | STATIC_SINGLE_READ, S2SSingleReadResp _ _
  | START_TXN, ApbStartTransactionResp _
  | READ_OBJS, ApbReadObjectsResp _
  | UPD, ApbOperationResp
  | COMMIT, ApbCommitResp _ => Some (mkWrapperReply clientID msgID (Some msg))
  | (STATIC_READ_OBJS | STATIC_SINGLE_READ | START_TXN | READ_OBJS | UPD | COMMIT), _ => None
  | _, _ => Some (mkWrapperReply clientID msgID None)
  end.

(** The getters of protocol buffers, of nil too. *)
Definition startDescriptor (r : S2SWrapperReply) : option (list Z) :=
  match R_Msg r with Some (ApbStartTransactionResp d) => Some d | _ => None end.
Definition readStates (r : S2SWrapperReply) : list State :=
  match R_Msg r with Some (ApbReadObjectsResp l) => l | _ => [] end.
Definition staticReadStates (r : S2SWrapperReply) : list State :=
  match R_Msg r with Some (ApbStaticReadObjectsResp l _) => l | _ => [] end.

(** A map of permissions as pairs, and back; a nil map has none. *)
Definition CreateBCPermissionsReqProto (perms : list (gmap KeyParams Z)) (reqReplicaID : Z) : S2SMsg :=
  BcPermsReq (map_to_list <$> perms) reqReplicaID.
Definition ProtoBCPermissionsReqToTM (PartReqs : list (list (KeyParams * Z))) : list (gmap KeyParams Z) :=
  foldl (fun m '(k, v) => <[k := v]> m) ∅ <$> PartReqs.

(** ** The transaction manager that asks *)

(** [originalClk] is the one of the transaction (file TransactionManager). *)
Record ongoingRemote := mkRemote { txnDataToUse : option (list (option (list Z))); nTxnsStarted : Z }.

(** [SendRequest]: to any connection to the server, which a transaction then
    keeps; [SendLocked]: to the connection that it kept. *)
Inductive RemoteOut :=
  | SendRequest (server : nat) (needsLock : bool) (w : S2SWrapper)
  | SendLocked (server : nat) (needsLock : bool) (w : S2SWrapper).

(** [reply i]: what the i-th server answers to the last request. *)
Record RemoteEnv := mkRemoteEnv {
  e_txnId : Z; e_originalClk : vclock; e_nServers : nat;
  startReply : nat -> S2SWrapperReply; reply : nat -> S2SWrapperReply }.

Abbreviation R := (M RemoteEnv ongoingRemote RemoteOut).

Definition indexed {A} (l : list A) : list (nat * A) := imap pair l.
Definition nonempty {A} (l : list A) : bool := negb (length l =? 0)%nat.

(** [txnPartitions.txnDataToUse[i]]. *)
Definition dataOf (i : nat) : R (option (list Z)) := s <- get ;; l <- must (txnDataToUse s) ;; must (l !! i).

Definition set_data (i : nat) (d : option (list Z)) : R unit :=
  s <- get ;;
  l <- must (txnDataToUse s) ;;
  if (i <? length l)%nat then modify (fun s => mkRemote (Some (<[i := d]> l)) (nTxnsStarted s)) else panic.

Definition incStarted : R unit := modify (fun s => mkRemote (txnDataToUse s) (nTxnsStarted s + 1)).

Definition startTxnForRemote (toContact : list bool) : R unit :=
  e <- ask ;;
  indexesToWait <- foldM (fun (wait : list nat) '(i, hasTo) =>
      if (hasTo : bool) then
        d <- dataOf i ;;
        match d with
        | None =>
            emit (SendRequest i true (mkWrapper (int32 (e_txnId e)) (StartTxn (ToBytes (e_originalClk e))))) ;;;
            incStarted ;;; ret (wait ++ [i])
        | Some _ => ret wait
        end
      else ret wait) (indexed toContact) [] ;;
  foldM (fun _ index => set_data index (startDescriptor (startReply e index))) indexesToWait tt.

(** The servers of the requests get a transaction, unless all servers have one. *)
Definition startWhereNeeded {A} (reqsPerServer : list (list A)) : R unit :=
  s <- get ;;
  if nTxnsStarted s <? Z.of_nat (length reqsPerServer) then
    if existsb nonempty reqsPerServer then startTxnForRemote (nonempty <$> reqsPerServer) else ret tt
  else ret tt.

(** A request for each server that has some; the descriptor is nil if there is
    no transaction. *)
Definition sendLocked {A} (needsLock : bool) (msg : list Z -> list A -> S2SMsg) (reqsPerServer : list (list A)) : R unit :=
  e <- ask ;;
  foldM (fun _ '(i, reqs) =>
    if nonempty reqs then
      d <- dataOf i ;;
      emit (SendLocked i needsLock (mkWrapper (int32 (e_txnId e)) (msg (default [] d) reqs)))
    else ret tt) (indexed reqsPerServer) tt.

(** [readChans[currIndexes[j]] <- ...]: the states at the positions of the
    reads. *)
Fixpoint deliver (objs : list State) (indexes : list nat) (states : list (option State)) : option (list (option State)) :=
  match objs, indexes with
  | [], _ => Some states
  | obj :: objs, i :: indexes =>
      if (i <? length states)%nat then deliver objs indexes (<[i := Some obj]> states) else None
  | _ :: _, [] => None
  end.

Definition deliverAll {A} (objsOf : nat -> list State) (reqsPerServer : list (list A)) (remoteReqsToChan : list (list nat))
  (states : list (option State)) : option (list (option State)) :=
  Prelude.foldM (fun states '(i, reqs) =>
    if nonempty reqs then indexes ← remoteReqsToChan !! i; deliver (objsOf i) indexes states else Some states)
  states (indexed reqsPerServer).

Definition handleRemoteReads (reqsPerServer : list reads) (remoteReqsToChan : list (list nat))
  (states : list (option State)) : R (list (option State)) :=
  startWhereNeeded reqsPerServer ;;;
  sendLocked true (fun d reqs => ReadMsg d [] reqs) reqsPerServer ;;;
  e <- ask ;;
  must (deliverAll (fun i => readStates (reply e i)) reqsPerServer remoteReqsToChan states).

Definition handleRemoteUpds (reqsPerServer : list updates) : R unit :=
  startWhereNeeded reqsPerServer ;;;
  sendLocked true UpdMsg reqsPerServer.

(** The end of the transaction at each server that has it. *)
Definition endRemote (msg : list Z -> S2SMsg) : R unit :=
  e <- ask ;;
  foldM (fun _ i =>
    d <- dataOf i ;;
    match d with
    | Some desc => emit (SendLocked i false (mkWrapper (int32 (e_txnId e)) (msg desc)))
    | None => ret tt
    end) (seq 0 (e_nServers e)) tt.

Definition handleRemoteCommit : R unit := endRemote CommitTxn.
Definition handleRemoteAbort : R unit := endRemote AbortTxn.

(** [handleTMStartTxn]: descriptors are forgotten, not [nTxnsStarted]. *)
Definition startRemote : R unit :=
  e <- ask ;; modify (fun s => mkRemote (Some (replicate (e_nServers e) None)) (nTxnsStarted s)).

(** [ongoingRemote.reset]. *)
Definition resetRemote : R unit := modify (fun _ => mkRemote None 0).

(** What [handleTMCommit] and [handleTMAbort] do about other servers. *)
Definition commitRemote : R unit :=
  s <- get ;; (if nTxnsStarted s >? 0 then handleRemoteCommit else ret tt) ;;; resetRemote.
Definition abortRemote : R unit :=
  s <- get ;; (if nTxnsStarted s >? 0 then handleRemoteAbort else ret tt) ;;; resetRemote.

(** Static transactions: [ts.ToBytes()] as the descriptor. *)
Definition sendStatic {A} (txnID : Z) (msg : list A -> S2SMsg) (reqsPerServer : list (list A)) : R unit :=
  foldM (fun _ '(i, reqs) =>
    if nonempty reqs then emit (SendRequest i false (mkWrapper (int32 txnID) (msg reqs))) else ret tt)
    (indexed reqsPerServer) tt.

Definition handleRemoteStaticReads (txnID : Z) (ts : vclock) (reqsPerServer : list reads)
  (remoteReqsToChan : list (list nat)) (states : list (option State)) : R (list (option State)) :=
  sendStatic txnID (fun reqs => StaticRead (ToBytes ts) [] reqs) reqsPerServer ;;;
  e <- ask ;;
  must (deliverAll (fun i => staticReadStates (reply e i)) reqsPerServer remoteReqsToChan states).

Definition handleRemoteStaticUpds (txnID : Z) (ts : vclock) (reqsPerServer : list updates) : R unit :=
  sendStatic txnID (fun reqs => StaticUpd (ToBytes ts) reqs) reqsPerServer.

(** The loop of [handleTMRead] and of [handleStaticTMRead] over the objects:
    the reads of each server, with their positions. *)
Fixpoint splitReads (c : TMConfig) (i : nat) (objs : reads) (reqsPerServer : list reads)
  (remoteReqsToChan : list (list nat)) : option (list reads * list (list nat)) :=
  match objs with
  | [] => Some (reqsPerServer, remoteReqsToChan)
  | r :: objs =>
      match getReadLocation c (Bucket (read_key r)) with
      | None => None
      | Some (false, _) => splitReads c (S i) objs reqsPerServer remoteReqsToChan
      | Some (true, serverIndex) =>
          match addTo reqsPerServer serverIndex r, addTo remoteReqsToChan serverIndex i with
          | Some reqs, Some chans => splitReads c (S i) objs reqs chans
          | _, _ => None
          end
      end
  end.

(** The objects of other servers in a read of a transaction.  [states]: what
    the partitions of this server answer. *)
Definition remoteRead (c : TMConfig) (objs : reads) (states : list (option State)) : R (list (option State)) :=
  ' (reqsPerServer, remoteReqsToChan) <-
    must (splitReads c 0 objs (replicate (nServers c) []) (replicate (nServers c) [])) ;;
  if existsb nonempty reqsPerServer then handleRemoteReads reqsPerServer remoteReqsToChan states else ret states.

Definition remoteStaticRead (c : TMConfig) (txnID : Z) (ts : vclock) (objs : reads) (states : list (option State))
  : R (list (option State)) :=
  ' (reqsPerServer, remoteReqsToChan) <-
    must (splitReads c 0 objs (replicate (nServers c) []) (replicate (nServers c) [])) ;;
  if existsb nonempty reqsPerServer
  then handleRemoteStaticReads txnID ts reqsPerServer remoteReqsToChan states else ret states.

(** The objects of other servers in an update of a transaction. *)
Definition remoteUpdate `{HHash : KeyHash} (c : TMConfig) (upds : updates) : R unit :=
  g <- must (groupWrites c upds) ;;
  if hasRemote g then handleRemoteUpds (reqsPerServer g) else ret tt.

(** A transaction with its requests, and what each server answers to each of
    them, from its start to its commit or abort. *)
Inductive RemoteRequest := RemoteRead (objs : reads) (states : list (option State)) | RemoteUpdate (upds : updates).

Definition remoteRequest `{HHash : KeyHash} (c : TMConfig) (r : RemoteRequest) : R unit :=
  match r with
  | RemoteRead objs states => _ <- remoteRead c objs states ;; ret tt
  | RemoteUpdate upds => remoteUpdate c upds
  end.

Definition withReplies (f : nat -> S2SWrapperReply) (e : RemoteEnv) : RemoteEnv :=
  mkRemoteEnv (e_txnId e) (e_originalClk e) (e_nServers e) (startReply e) f.

Fixpoint remoteRequests `{HHash : KeyHash} (c : TMConfig) (reqs : list ((nat -> S2SWrapperReply) * RemoteRequest)) : R unit :=
  match reqs with
  | [] => ret tt
  | (replies, r) :: reqs => (fun e => remoteRequest c r (withReplies replies e)) ;;; remoteRequests c reqs
  end.

Definition remoteTransaction `{HHash : KeyHash} (c : TMConfig)
  (reqs : list ((nat -> S2SWrapperReply) * RemoteRequest)) (commit : bool) : R unit :=
  startRemote ;;; remoteRequests c reqs ;;; if commit then commitRemote else abortRemote.

(** The answer's [SingleRead] is dereferenced. *)
Definition handleRemoteStaticSingleRead (txnID : Z) (read : ReadObjectParams RArgs) (remoteIndex : nat)
  : R (State * vclock) :=
  emit (SendRequest remoteIndex false (mkWrapper (int32 txnID) (SingleRead read))) ;;;
  e <- ask ;;
  match R_Msg (reply e remoteIndex) with
  | Some (S2SSingleReadResp state clk) => ret (state, FromBytes clk)
  | _ => panic
  end.
End messages.

(** ** The server that is asked *)

Section server.
Context {Upd RArgs State : Type} `{HHash : KeyHash} (StateReadArguments : RArgs).
Abbreviation updates := (list (UpdateObjectParams Upd)).
Abbreviation reads := (list (ReadObjectParams RArgs)).
Abbreviation TOut := (TMOut Upd RArgs).
Abbreviation T := (M (SessionEnv State) ongoingTxn TOut).

(** The goroutine of a connection from a server: its entry of [clksInUse], and
    [ongoingInfo], by client. *)
Record ServerState := mkServer { ongoingInfo : gmap Z ongoingTxn; srvClkInUse : Timestamp }.

(** [randomTxn]: the identifier for an empty descriptor; [singleClk]: the clock
    that a partition answers to a single read with. *)
Record ServerEnv := mkServerEnv { session : SessionEnv State; randomTxn : Z; singleClk : vclock }.

(** What goes to partitions and servers, and the request for one read. *)
Inductive ServerOut := FromTM (o : TOut) | SingleReadTo (server : Z) (read : ReadObjectParams RArgs).

Abbreviation S := (M ServerEnv ServerState ServerOut).

(** A request that does not use the transaction of the client. *)
Definition onServer {A} (m : T A) : S A := fun e s =>
  match m (session e) (mkOngoing 0 [] None (srvClkInUse s)) with
  | Some (a, t, o) => Some (a, mkServer (ongoingInfo s) (clkInUse t), FromTM <$> o)
  | None => None
  end.

(** One that dereferences [ongoingInfo[clientID]]. *)
Definition onTxn {A} (clientID : Z) (m : T A) : S A := fun e s =>
  match ongoingInfo s !! clientID with
  | None => None
  | Some t =>
      match m (session e) (mkOngoing (txnId t) (partitions t) (originalClk t) (srvClkInUse s)) with
      | Some (a, t', o) => Some (a, mkServer (<[clientID := t']> (ongoingInfo s)) (clkInUse t'), FromTM <$> o)
      | None => None
      end
  end.

(** A read uses the transaction for the objects of other servers only, an
    update when it writes. *)
Definition asksServers (o : list TOut) : bool :=
  existsb (fun x => match x with ReadsToServers _ => true | _ => false end) o.
Definition onTxnIf {A} (uses : list TOut -> bool) (clientID : Z) (m : T A) : S A := fun e s =>
  match ongoingInfo s !! clientID, m (session e) (mkOngoing 0 [] None (srvClkInUse s)) with
  | None, Some (a, t, o) =>
      if uses o then None else Some (a, mkServer (ongoingInfo s) (clkInUse t), FromTM <$> o)
  | None, None => None
  | Some _, _ => onTxn clientID m e s
  end.

Definition handleSingleRead (r : ReadObjectParams RArgs) : S (list State * vclock) :=
  e <- ask ;;
  loc <- must (getReadLocation (config (session e)) (Bucket (read_key r))) ;;
  match loc with
  | (false, _) => emit (FromTM (ToPart (channelOf (config (session e)) (read_key r)) (MatStaticSingleRead r)))
  | (true, serverIndex) => emit (SingleReadTo serverIndex r)
  end ;;;
  ret ([readState (session e) 0], singleClk e).

Definition handleTMBCPerms (Perms : list (gmap KeyParams Z)) (ReqReplicaID : Z) : S unit :=
  e <- ask ;;
  foldM (fun _ '(partId, partPerms) =>
    if (partId <? nParts (config (session e)))%nat
    then emit (FromTM (ToPart (Z.of_nat partId) (MatBCTxnPermissions partPerms ReqReplicaID))) else panic)
    (imap pair Perms) tt.

(** The requests of [TMS2SRequest]. *)
Inductive S2SRequest :=
  | readSingleTMRequest (r : ReadObjectParams RArgs)
  | bcPermsTMRequest (Perms : list (gmap KeyParams Z)) (ReqReplicaID : Z)
  | tmRequest (request : TMRequest Upd RArgs).

(** A transaction that starts gets a record, which is not put in
    [ongoingInfo]; the result of a single read is not sent. *)
Definition handleServerRequest (id clientID : Z) (request : S2SRequest) : S (option (TMReply (State := State))) :=
  match request with
  | readSingleTMRequest r => handleSingleRead r ;;; ret None
  | bcPermsTMRequest perms reqID => handleTMBCPerms perms reqID ;;; ret None
  | tmRequest (readStaticTMRequest ts objs) =>
      ' (states, clk) <- onServer (handleStaticTMRead ts id objs) ;; ret (Some (StaticReadReply states clk))
  | tmRequest (updateStaticTMRequest upds) =>
      ' (txn, clk) <- onServer (handleStaticTMUpdate upds) ;; ret (Some (StaticUpdateReply txn clk))
  | tmRequest (readTMRequest txn ts objs) =>
      states <- onTxnIf asksServers clientID (handleTMRead txn ts objs) ;; ret (Some (ReadReply states))
  | tmRequest (updateTMRequest txn upds) => onTxnIf nonempty clientID (handleTMUpdate txn upds) ;;; ret (Some UpdateReply)
  | tmRequest (startTxnTMRequest ts) =>
      ' (txn, clk) <- onTxn clientID (handleTMStartTxn ts id) ;; ret (Some (StartReply txn clk))
  | tmRequest (commitTMRequest txn) => clk <- onTxn clientID (handleTMCommit txn) ;; ret (Some (CommitReply clk))
  | tmRequest (abortTMRequest txn) => onTxn clientID (handleTMAbort txn) ;;; ret None
  end.

(** ** The protocol server *)

Definition ProtoObjectsToAntidoteObjects (objs : list KeyParams) : reads := (fun k => mkRead k StateReadArguments) <$> objs.
Definition ProtoReadToAntidoteObjects (full : list KeyParams) (partial : reads) : reads :=
  ProtoObjectsToAntidoteObjects full ++ partial.

(** The message for a reply: its transaction is always 2.  No reply is for an
    abort. *)
Definition replyMsg (reply : TMReply (State := State)) : option (Resp (State := State)) :=
  match reply with
  | StaticReadReply states ts => Some (ApbStaticReadObjectsResp states (createTxnDescriptorBytes 2 ts))
  | StartReply _ ts => Some (ApbStartTransactionResp (createTxnDescriptorBytes 2 ts))
  | ReadReply states => Some (ApbReadObjectsResp states)
  | UpdateReply => Some ApbOperationResp
  | StaticUpdateReply _ ts | CommitReply ts => Some (ApbCommitResp (createTxnDescriptorBytes 2 ts))
  | AbortReply => None
  end.

(** The request to the transaction manager, and the type of the answer; the
    answer to an abort is made here. *)
Definition decoded : Type := S2SRequest * option WrapperType * option (TMReply (State := State)).
Definition asRequest (request : TMRequest Upd RArgs) (t : WrapperType) : decoded := (tmRequest request, Some t, None).

Definition decodeRequest (random : Z) (m : S2SMsg (Upd := Upd) (RArgs := RArgs)) : option decoded :=
  let descriptor d (f : Z -> vclock -> decoded) :=
    match DecodeTxnDescriptor random d with Some (txn, clk) => Some (f txn clk) | None => None end in
  match m with
  | StaticReadObjs tx objs => descriptor tx (fun _ clk =>
      asRequest (readStaticTMRequest (Some clk) (ProtoObjectsToAntidoteObjects objs)) STATIC_READ_OBJS)
  | StaticRead tx full partial => descriptor tx (fun _ clk =>
      asRequest (readStaticTMRequest (Some clk) (ProtoReadToAntidoteObjects full partial)) STATIC_READ_OBJS)
  | SingleRead r => Some (readSingleTMRequest r, Some STATIC_SINGLE_READ, None)
  | StaticUpd tx upds => descriptor tx (fun _ _ => asRequest (updateStaticTMRequest upds) COMMIT)
  | StartTxn tx => descriptor tx (fun _ clk => asRequest (startTxnTMRequest (Some clk)) START_TXN)
  | ReadObjs d objs => descriptor d (fun txn clk =>
      asRequest (readTMRequest txn clk (ProtoObjectsToAntidoteObjects objs)) READ_OBJS)
  | ReadMsg d full partial => descriptor d (fun txn clk =>
      asRequest (readTMRequest txn clk (ProtoReadToAntidoteObjects full partial)) READ_OBJS)
  | UpdMsg d upds => descriptor d (fun txn _ => asRequest (updateTMRequest txn upds) UPD)
  | CommitTxn d => descriptor d (fun txn _ => asRequest (commitTMRequest txn) COMMIT)
  | AbortTxn d => descriptor d (fun txn clk => (tmRequest (abortTMRequest txn), Some COMMIT, Some (CommitReply clk)))
  | BcPermsReq parts reqID => Some (bcPermsTMRequest (ProtoBCPermissionsReqToTM parts) reqID, None, None)
  end.

(** The answer that [handleServerConn] sends, if there is one; the connection
    waits for that of the transaction manager. *)
Definition handleServerToServer (id : Z) (w : S2SWrapper (Upd := Upd) (RArgs := RArgs))
  : S (option (S2SWrapperReply (State := State))) :=
  e <- ask ;;
  d <- must (decodeRequest (randomTxn e) (Msg w)) ;;
  answer <- handleServerRequest id (ClientID w) d.1.1 ;;
  match d.1.2 with
  | None => ret None
  | Some t =>
      r <- must (match d.2 with Some r => Some r | None => answer end) ;;
      msg <- must (replyMsg r) ;;
      reply <- must (CreateS2SWrapperReplyProto (ClientID w) t msg) ;;
      ret (Some reply)
  end.

Definition newServer : ServerState := mkServer ∅ None.

(** The loop of [handleServerRequests], over the messages of a connection. *)
Fixpoint handleServerRequests (id : Z) (ws : list (ServerEnv * S2SWrapper (Upd := Upd) (RArgs := RArgs))) (s : ServerState)
  : option (list (option (S2SWrapperReply (State := State))) * ServerState * list ServerOut) :=
  match ws with
  | [] => Some ([], s, [])
  | (e, w) :: ws =>
      match handleServerToServer id w e s with
      | None => None
      | Some (r, s1, o1) =>
          match handleServerRequests id ws s1 with
          | None => None
          | Some (rs, s2, o2) => Some (r :: rs, s2, o1 ++ o2)
          end
      end
  end.
End server.
