(* ===== verification/ServerToServerSpec.v ===== *)
(** * Transactions that span servers: what the asking server sends and gets

    Theorems about file ServerToServer: the states of a read are put where they
    were asked for, and the servers that a transaction contacts get its start,
    its requests in order and its end, if they answer the start. *)

From S2P Require Import Prelude ClockSI ClockCodec Effects Keys PartitionClock VersionManager.
From S2P Require Import Materializer CommitReplies TransactionManager ServerToServer.
From Stdlib Require Import ZArith Lia Bool.
From stdpp Require Import base tactics numbers strings gmap sorting list.
#[local] Open Scope Z_scope.
#[local] Open Scope eff_scope.

(** ** Where the states of a read go *)

Section reads.
Context {Upd RArgs State : Type}.
Abbreviation reads := (list (ReadObjectParams RArgs)).

(** The server that a read asks, if not this one. *)
Definition serverOf (c : TMConfig) (r : ReadObjectParams RArgs) : option nat :=
  match getReadLocation c (Bucket (read_key r)) with
  | Some (true, j) => Some (Z.to_nat j)
  | _ => None
  end.

(** The server exists. *)
Definition read_placed (c : TMConfig) (r : ReadObjectParams RArgs) : Prop :=
  match getReadLocation c (Bucket (read_key r)) with
  | Some (true, j) => 0 <= j < Z.of_nat (nServers c)
  | Some (false, _) => True
  | None => False
  end.

(** The reads for server [j], with their positions from [i]. *)
Definition asked (c : TMConfig) (j : nat) (i : nat) (objs : reads) : list (nat * ReadObjectParams RArgs) :=
  List.filter (fun p => bool_decide (serverOf c (snd p) = Some j)) (zip (seq i (length objs)) objs).

Lemma asked_cons c j i r objs :
  asked c j i (r :: objs) =
    (if bool_decide (serverOf c r = Some j) then [(i, r)] else []) ++ asked c j (S i) objs.
Proof. unfold asked. cbn. by case_bool_decide. Qed.

Lemma addTo_append {A} (xs : list (list A)) j0 x :
  0 <= j0 < Z.of_nat (length xs) ->
  exists xs', addTo xs j0 x = Some xs' /\ length xs' = length xs /\
    forall j l, xs !! j = Some l ->
      xs' !! j = Some (l ++ if bool_decide (Some (Z.to_nat j0) = Some j) then [x] else []).
Proof.
  intros Hj. destruct (addTo_ok xs j0 x Hj) as (xs' & E & Hl & Hxs). exists xs'. split_and!; [done..|].
  intros j l Hjl. rewrite Hxs, Hjl. case_decide; case_bool_decide; subst; try congruence; [done|].
  by rewrite app_nil_r.
Qed.

Lemma splitReads_ok c i objs reqs chans :
  Forall (read_placed c) objs -> length reqs = nServers c -> length chans = nServers c ->
  exists reqs' chans', splitReads c i objs reqs chans = Some (reqs', chans') /\
    length reqs' = nServers c /\ length chans' = nServers c /\
    (forall j l, reqs !! j = Some l -> reqs' !! j = Some (l ++ (asked c j i objs).*2)) /\
    (forall j l, chans !! j = Some l -> chans' !! j = Some (l ++ (asked c j i objs).*1)).
Proof.
  intros Hp. revert i reqs chans. induction Hp as [|r objs Hr _ IH]; intros i reqs chans Hl1 Hl2.
  { exists reqs, chans. split_and!; try done; intros j l ->; cbn; by rewrite app_nil_r. }
  cbn [splitReads]. unfold read_placed in Hr.
  destruct (getReadLocation c (Bucket (read_key r))) as [[[] j0]|] eqn:Eloc; [| |done].
  - assert (Es : serverOf c r = Some (Z.to_nat j0)) by (unfold serverOf; by rewrite Eloc).
    destruct (addTo_append reqs j0 r) as (r1 & -> & Hr1 & Hr2); [lia|].
    destruct (addTo_append chans j0 i) as (c1 & -> & Hc1 & Hc2); [lia|].
    destruct (IH (S i) r1 c1) as (r2 & c2 & -> & ? & ? & H1 & H2); [lia|lia|].
    exists r2, c2. split_and!; [done..| |]; intros j l Hl; rewrite asked_cons, Es, fmap_app, app_assoc.
    + rewrite (H1 _ _ (Hr2 _ _ Hl)). by case_bool_decide.
    + rewrite (H2 _ _ (Hc2 _ _ Hl)). by case_bool_decide.
  - assert (Es : serverOf c r = None) by (unfold serverOf; by rewrite Eloc).
    destruct (IH (S i) reqs chans) as (r2 & c2 & -> & ? & ? & H1 & H2); [done..|].
    exists r2, c2. split_and!; [done..| |]; intros j l Hl; rewrite asked_cons, Es; cbn; by auto.
Qed.

Lemma elem_of_asked c j i objs p r :
  (p, r) ∈ asked c j i objs <-> exists q, p = (i + q)%nat /\ objs !! q = Some r /\ serverOf c r = Some j.
Proof.
  unfold asked. rewrite list_elem_of_In, filter_In, <- list_elem_of_In, bool_decide_eq_true. cbn. split.
  - intros [[q Hq]%list_elem_of_lookup Hs]. exists q.
    apply lookup_zip_Some in Hq as [[-> _]%lookup_seq Hr]. done.
  - intros (q & -> & Hr & Hs). split; [|done]. apply list_elem_of_lookup. exists q.
    apply lookup_zip_Some. split; [|done]. apply lookup_seq. split; [done|]. by eapply lookup_lt_Some.
Qed.

Lemma NoDup_asked c j i objs : NoDup (asked c j i objs).*1.
Proof.
  unfold asked. revert i.
  induction objs as [|r objs IH]; intros i; cbn; [constructor|].
  case_bool_decide; cbn; [|apply IH]. constructor; [|apply IH].
  intros ([p x] & E & Hin)%list_elem_of_fmap. cbn in E. subst p.
  fold (asked c j (S i) objs) in Hin. apply elem_of_asked in Hin as (q & ? & _). lia.
Qed.

Lemma deliver_places {A} (g : A -> State) (l : list (nat * A)) (states : list (option State)) :
  NoDup l.*1 -> Forall (fun p => fst p < length states)%nat l ->
  exists states', deliver (g <$> l.*2) l.*1 states = Some states' /\ length states' = length states /\
    (forall p x, (p, x) ∈ l -> states' !! p = Some (Some (g x))) /\
    (forall p, p ∉ l.*1 -> states' !! p = states !! p).
Proof.
  revert states. induction l as [|[p x] l IH]; intros states Hnd Hlt.
  { exists states. split_and!; [done..| |done]. intros ? ? []%not_elem_of_nil. }
  rewrite fmap_cons in Hnd. apply NoDup_cons in Hnd as [Hp Hnd]. apply Forall_cons in Hlt as [Hlt Hl].
  rewrite !fmap_cons. cbn [fst snd] in *. cbn [deliver].
  destruct (Nat.ltb_spec p (length states)); [|lia].
  destruct (IH (<[p := Some (g x)]> states)) as (states' & -> & Hlen & H1 & H2);
    [done|by rewrite length_insert|].
  rewrite length_insert in Hlen. exists states'. split_and!; [done..| |].
  - intros q y [[= -> ->]|Hin]%elem_of_cons; [|by apply H1].
    rewrite H2 by done. by apply list_lookup_insert_eq.
  - intros q Hq. apply not_elem_of_cons in Hq as [Hne Hq]. rewrite H2 by done. by apply list_lookup_insert_ne.
Qed.

(** [answer j r]: the state that server [j] reads for [r]. *)
Lemma deliverAll_loop c (objs : reads) (objsOf : nat -> list State) (answer : nat -> ReadObjectParams RArgs -> State)
  (chans : list (list nat)) (ps : list (nat * reads)) (states : list (option State)) :
  NoDup ps.*1 -> length states = length objs ->
  (forall j rs, (j, rs) ∈ ps -> rs = (asked c j 0 objs).*2 /\ objsOf j = answer j <$> rs /\
     chans !! j = Some (asked c j 0 objs).*1) ->
  exists states',
    Prelude.foldM (fun states '(i, reqs) =>
      if nonempty reqs then indexes ← chans !! i; deliver (objsOf i) indexes states else Some states) states ps =
      Some states' /\ length states' = length states /\
    forall i r, objs !! i = Some r -> states' !! i =
      match serverOf c r with
      | Some j => if bool_decide (j ∈ ps.*1) then Some (Some (answer j r)) else states !! i
      | None => states !! i
      end.
Proof.
  revert states. induction ps as [|[j rs] ps IH]; intros states Hnd Hlen Hps.
  { exists states. split_and!; [done..|]. intros i r Hi. by destruct (serverOf c r). }
  cbn in Hnd. apply NoDup_cons in Hnd as [Hj Hnd].
  destruct (Hps j rs) as (-> & Ho & Hc); [by left|].
  assert (Hstep : exists st, (if nonempty (asked c j 0 objs).*2
      then indexes ← chans !! j; deliver (objsOf j) indexes states else Some states) = Some st /\
      length st = length states /\
      (forall p x, (p, x) ∈ asked c j 0 objs -> st !! p = Some (Some (answer j x))) /\
      (forall p, p ∉ (asked c j 0 objs).*1 -> st !! p = states !! p)).
  { destruct (nonempty (asked c j 0 objs).*2) eqn:En.
    - rewrite Hc, Ho. cbn. apply deliver_places; [apply NoDup_asked|]. apply Forall_forall.
      intros [p x] Hin. apply elem_of_asked in Hin as (q & -> & Hq%lookup_lt_Some & _). cbn. lia.
    - exists states. split_and!; [done..| |done]. intros p x Hin.
      unfold nonempty in En. rewrite length_fmap in En. by destruct (asked c j 0 objs); [apply elem_of_nil in Hin|]. }
  destruct Hstep as (st & E & Hl & H1 & H2). cbn [Prelude.foldM]. rewrite E. cbn [mbind option_bind].
  destruct (IH st) as (states' & -> & Hl' & Hst); [done|congruence|intros; apply Hps; by right|].
  exists states'. split_and!; [done|congruence|]. intros i r Hi. rewrite (Hst i r Hi).
  assert (Hother : serverOf c r <> Some j -> st !! i = states !! i).
  { intros Hne. apply H2. intros ([p x] & -> & Hin)%list_elem_of_fmap.
    apply elem_of_asked in Hin as (q & E' & Hq & Hs). cbn in *. subst. rewrite Hi in Hq. congruence. }
  destruct (serverOf c r) as [j'|] eqn:Es; [|by apply Hother].
  cbn [fmap list_fmap fst]. destruct (decide (j' = j)) as [->|Hne].
  - rewrite (bool_decide_false (j ∈ ps.*1)), bool_decide_true by (done || left). apply H1, elem_of_asked. by exists i.
  - rewrite Hother by congruence. assert (j' ∈ j :: ps.*1 <-> j' ∈ ps.*1) by set_solver.
    by rewrite (bool_decide_ext (j' ∈ j :: ps.*1) (j' ∈ ps.*1)).
Qed.

Lemma indexed_fst {A} (l : list A) : (indexed l).*1 = seq 0 (length l).
Proof.
  unfold indexed. apply list_eq. intros i. rewrite list_lookup_fmap, list_lookup_imap.
  destruct (l !! i) eqn:E; cbn.
  - symmetry. apply lookup_seq. split; [done|]. by eapply lookup_lt_Some.
  - symmetry. apply lookup_seq_ge. by apply lookup_ge_None.
Qed.

Lemma elem_of_indexed {A} (l : list A) i x : (i, x) ∈ indexed l <-> l !! i = Some x.
Proof.
  unfold indexed. rewrite list_elem_of_lookup. setoid_rewrite list_lookup_imap. split.
  - intros [k Hk]. destruct (l !! k) eqn:E; cbn in Hk; congruence.
  - intros E. exists i. by rewrite E.
Qed.

(** The reads of a request, split among the servers and put back together. *)
Lemma split_and_deliver c (objs : reads) (objsOf : nat -> list State) (answer : nat -> ReadObjectParams RArgs -> State)
  (states : list (option State)) :
  Forall (read_placed c) objs -> length states = length objs ->
  (forall j, (j < nServers c)%nat -> objsOf j = answer j <$> (asked c j 0 objs).*2) ->
  exists reqs chans states',
    splitReads c 0 objs (replicate (nServers c) []) (replicate (nServers c) []) = Some (reqs, chans) /\
    length reqs = nServers c /\
    (forall j, (j < nServers c)%nat -> reqs !! j = Some (asked c j 0 objs).*2) /\
    deliverAll objsOf reqs chans states = Some states' /\ length states' = length states /\
    forall i r, objs !! i = Some r -> states' !! i =
      match serverOf c r with Some j => Some (Some (answer j r)) | None => states !! i end.
Proof.
  intros Hp Hlen Hans.
  destruct (splitReads_ok c 0 objs (replicate (nServers c) []) (replicate (nServers c) []))
    as (reqs & chans & Hs & Hl1 & Hl2 & H1 & H2); [done|by rewrite length_replicate..|].
  assert (Hr : forall j, (j < nServers c)%nat -> reqs !! j = Some (asked c j 0 objs).*2).
  { intros j Hj. by rewrite (H1 j []) by by apply lookup_replicate. }
  destruct (deliverAll_loop c objs objsOf answer chans (indexed reqs) states) as (states' & Hd & Hl & Hst).
  - rewrite indexed_fst. apply NoDup_seq.
  - done.
  - intros j rs Hj%elem_of_indexed. assert (Hlt : (j < nServers c)%nat) by (rewrite <- Hl1; by eapply lookup_lt_Some).
    rewrite Hr in Hj by done. injection Hj as <-. split_and!; [done|by apply Hans|].
    by rewrite (H2 j []) by by apply lookup_replicate.
  - exists reqs, chans, states'. split_and!; try done. intros i r Hi. rewrite (Hst i r Hi).
    destruct (serverOf c r) as [j|] eqn:Es; [|done]. rewrite bool_decide_true; [done|].
    rewrite indexed_fst, Hl1, elem_of_seq. split; [lia|].
    rewrite Forall_lookup in Hp. specialize (Hp i r Hi). unfold read_placed in Hp. unfold serverOf in Es.
    destruct (getReadLocation c (Bucket (read_key r))) as [[[] ?]|]; [|done..]. injection Es as <-. lia.
Qed.
End reads.

(** ** The messages of a transaction *)

Section remote.
Context {Upd RArgs State : Type}.
Abbreviation reads := (list (ReadObjectParams RArgs)).
Abbreviation updates := (list (UpdateObjectParams Upd)).
Abbreviation ROut := (RemoteOut (Upd := Upd) (RArgs := RArgs)).
Abbreviation R := (M (RemoteEnv (State := State)) ongoingRemote ROut).

(** The servers that a step of the loops does something for. *)
Definition starts (D : list (option (list Z))) (p : nat * bool) : bool :=
  snd p && bool_decide (D !! fst p = Some None).

Definition startMsg (e : RemoteEnv (State := State)) (i : nat) : ROut :=
  SendRequest i true (mkWrapper (int32 (e_txnId e)) (StartTxn (ToBytes (e_originalClk e)))).

Lemma dataOf_ok i (d : option (list Z)) D k (e : RemoteEnv (State := State)) :
  D !! i = Some d -> (dataOf i : R _) e (mkRemote (Some D) k) = Some (d, mkRemote (Some D) k, []).
Proof. intros E. unfold dataOf, bind, get. cbn. by rewrite E. Qed.

Lemma start_loop (e : RemoteEnv (State := State)) D k (ps : list (nat * bool)) (wait : list nat) :
  Forall (fun p => fst p < length D)%nat ps ->
  foldM (fun (wait : list nat) '(i, hasTo) =>
      if (hasTo : bool) then
        d <- (dataOf i : R _) ;;
        match d with
        | None =>
            emit (SendRequest i true (mkWrapper (int32 (e_txnId e)) (StartTxn (ToBytes (e_originalClk e))))) ;;;
            incStarted ;;; ret (wait ++ [i])
        | Some _ => ret wait
        end
      else ret wait) ps wait e (mkRemote (Some D) k) =
    Some (wait ++ (List.filter (starts D) ps).*1,
          mkRemote (Some D) (k + Z.of_nat (length (List.filter (starts D) ps))),
          startMsg e <$> (List.filter (starts D) ps).*1).
Proof.
  revert k wait. induction ps as [|[i b] ps IH]; intros k wait Hps.
  { cbn. by rewrite app_nil_r, Z.add_0_r. }
  apply Forall_cons in Hps as [Hi Hps]. cbn [fst] in Hi. cbn [foldM List.filter].
  destruct (lookup_lt_is_Some_2 D i Hi) as [d Hd].
  assert (Es : starts D (i, b) = b && bool_decide (d = None)).
  { unfold starts. cbn [fst snd]. rewrite Hd. f_equal. apply bool_decide_ext. split; congruence. }
  rewrite Es. unfold bind at 1. destruct b; cbn [andb].
  - unfold bind at 1. rewrite (dataOf_ok i d D k e Hd). destruct d as [desc|]; cbn; rewrite IH by done; [done|].
    cbn. rewrite <- !app_assoc. cbn.
    by replace (k + 1 + Z.of_nat (length (List.filter (starts D) ps)))
      with (k + Z.of_nat (S (length (List.filter (starts D) ps)))) by lia.
  - cbn. by rewrite IH.
Qed.

Lemma set_data_ok (e : RemoteEnv (State := State)) i d D k :
  (i < length D)%nat -> (set_data i d : R _) e (mkRemote (Some D) k) = Some (tt, mkRemote (Some (<[i := d]> D)) k, []).
Proof.
  intros Hi%Nat.ltb_lt. unfold set_data, bind, get, must, ret. cbn [txnDataToUse]. by rewrite Hi.
Qed.

Lemma descriptors_loop (e : RemoteEnv (State := State)) (g : nat -> option (list Z)) (w : list nat) D k :
  Forall (fun i => i < length D)%nat w ->
  exists D', foldM (fun _ index => (set_data index (g index) : R _)) w tt e (mkRemote (Some D) k) =
      Some (tt, mkRemote (Some D') k, []) /\ length D' = length D /\
    forall i, (i < length D)%nat -> D' !! i = if bool_decide (i ∈ w) then Some (g i) else D !! i.
Proof.
  revert D. induction w as [|j w IH]; intros D Hw.
  { exists D. split_and!; try done. }
  apply Forall_cons in Hw as [Hj Hw]. cbn [foldM]. unfold bind. rewrite (set_data_ok e j (g j) D k Hj).
  destruct (IH (<[j := g j]> D)) as (D' & -> & Hl & HD'); [by rewrite length_insert|].
  rewrite length_insert in Hl. exists D'. split_and!; [done..|]. intros i Hi.
  rewrite HD' by by rewrite length_insert. destruct (decide (i = j)) as [->|Hne].
  - rewrite (bool_decide_true (j ∈ j :: w)) by left. case_bool_decide; [done|]. by apply list_lookup_insert_eq.
  - rewrite list_lookup_insert_ne by done. rewrite (bool_decide_ext (i ∈ j :: w) (i ∈ w)); [done|set_solver].
Qed.

(** Each request of the servers [ps] goes where the transaction is. *)
Lemma sendLocked_loop {A} needsLock (msg : list Z -> list A -> S2SMsg (Upd := Upd) (RArgs := RArgs))
  (e : RemoteEnv (State := State)) D k (ps : list (nat * list A)) :
  Forall (fun p => fst p < length D)%nat ps ->
  foldM (fun _ '(i, reqs) =>
    if nonempty reqs then
      d <- (dataOf i : R _) ;;
      emit (SendLocked i needsLock (mkWrapper (int32 (e_txnId e)) (msg (default [] d) reqs)))
    else ret tt) ps tt e (mkRemote (Some D) k) =
  Some (tt, mkRemote (Some D) k,
    (fun p => SendLocked (fst p) needsLock
       (mkWrapper (int32 (e_txnId e)) (msg (default [] (default None (D !! fst p))) (snd p)))) <$>
      List.filter (fun p => nonempty (snd p)) ps).
Proof.
  induction ps as [|[i reqs] ps IH]; intros Hps; [done|].
  apply Forall_cons in Hps as [Hi Hps]. cbn [fst] in Hi. cbn [foldM List.filter snd].
  destruct (lookup_lt_is_Some_2 D i Hi) as [d Hd]. unfold bind at 1. destruct (nonempty reqs).
  - unfold bind at 1. rewrite (dataOf_ok i d D k e Hd). cbn. rewrite IH by done. cbn. by rewrite Hd.
  - cbn. by rewrite IH.
Qed.

Lemma end_loop (msg : list Z -> S2SMsg (Upd := Upd) (RArgs := RArgs)) (e : RemoteEnv (State := State)) D k l :
  Forall (fun i => i < length D)%nat l ->
  foldM (fun _ i =>
    d <- (dataOf i : R _) ;;
    match d with
    | Some desc => emit (SendLocked i false (mkWrapper (int32 (e_txnId e)) (msg desc)))
    | None => ret tt
    end) l tt e (mkRemote (Some D) k) =
  Some (tt, mkRemote (Some D) k,
    (fun i => SendLocked i false (mkWrapper (int32 (e_txnId e)) (msg (default [] (default None (D !! i)))))) <$>
      List.filter (fun i => bool_decide (is_Some (default None (D !! i)))) l).
Proof.
  induction l as [|i l IH]; intros Hl; [done|]. apply Forall_cons in Hl as [Hi Hl]. cbn [foldM List.filter].
  destruct (lookup_lt_is_Some_2 D i Hi) as [d Hd]. unfold bind at 1 2. rewrite (dataOf_ok i d D k e Hd).
  rewrite Hd. cbn [default]. destruct d as [desc|]; cbn; rewrite IH by done; [|done].
  by rewrite Hd.
Qed.

(** The server of a message. *)
Definition target (o : ROut) : nat := match o with SendRequest i _ _ | SendLocked i _ _ => i end.
Definition messagesTo (j : nat) (o : list ROut) : list ROut := List.filter (fun x => bool_decide (target x = j)) o.

Lemma messagesTo_app j o1 o2 : messagesTo j (o1 ++ o2) = messagesTo j o1 ++ messagesTo j o2.
Proof. apply List.filter_app. Qed.

Lemma messagesTo_none {A} (g : A -> ROut) (h : A -> bool) (l : list A) j :
  (forall x, x ∈ l -> target (g x) <> j) -> messagesTo j (g <$> List.filter h l) = [].
Proof.
  intros Hl. unfold messagesTo. induction l as [|x l IH]; [done|]. cbn [List.filter].
  assert (Hx := Hl x ltac:(by left)). assert (IH' := IH (fun y Hy => Hl y (list_elem_of_further _ _ _ Hy))).
  destruct (h x); cbn; [|done]. by rewrite bool_decide_false.
Qed.

(** A loop that sends at most one message to each server. *)
Lemma messagesTo_one {A} (g : A -> ROut) (h : A -> bool) (l : list A) x :
  NoDup (target ∘ g <$> l) -> x ∈ l ->
  messagesTo (target (g x)) (g <$> List.filter h l) = if h x then [g x] else [].
Proof.
  induction l as [|y l IH]; intros Hnd Hx; [by apply elem_of_nil in Hx|].
  rewrite fmap_cons in Hnd. apply NoDup_cons in Hnd as [Hy Hnd]. cbn [List.filter].
  assert (Hrest : forall z, z ∈ l -> target (g z) <> target (g y)).
  { intros z Hz E. apply Hy. apply list_elem_of_fmap. by exists z. }
  apply elem_of_cons in Hx as [->|Hx].
  - assert (E := messagesTo_none g h l (target (g y)) Hrest).
    destruct (h y); [|done]. unfold messagesTo in *. cbn. by rewrite bool_decide_true, E.
  - assert (Hne := Hrest x Hx). destruct (h y); [|by apply IH].
    unfold messagesTo. cbn. rewrite bool_decide_false by done. by apply IH.
Qed.

Lemma NoDup_targets {A} (g : A -> ROut) (key : A -> nat) (l : list A) :
  (forall x, target (g x) = key x) -> NoDup (key <$> l) -> NoDup (target ∘ g <$> l).
Proof.
  intros E. assert (Eq : target ∘ g <$> l = key <$> l); [|by rewrite Eq].
  induction l as [|x l IH]; [done|]. rewrite !fmap_cons. cbn. by rewrite E, IH.
Qed.

(** What is kept of a transaction that the servers [f] take part in: the
    descriptors that they answered, and how many they are. *)
Section transaction.
Context (d : nat -> list Z) (n : nat).

Definition count (f : nat -> bool) : Z := Z.of_nat (length (List.filter f (seq 0 n))).

Definition keeps (f : nat -> bool) (s : ongoingRemote) : Prop :=
  exists D, s = mkRemote (Some D) (count f) /\ length D = n /\
    forall j, (j < n)%nat -> D !! j = Some (if f j then Some (d j) else None).

Lemma filter_false {A} (l : list A) : List.filter (fun _ => false) l = [].
Proof. by induction l. Qed.

Lemma filter_length_le {A} (f : A -> bool) (l : list A) : (length (List.filter f l) <= length l)%nat.
Proof. induction l as [|x l IH]; cbn; [lia|]. destruct (f x); cbn; lia. Qed.

Lemma count_all f : Z.of_nat n <= count f -> forall j, (j < n)%nat -> f j = true.
Proof.
  unfold count. intros H j Hj. assert (Hin : j ∈ seq 0 n) by (apply elem_of_seq; lia).
  rewrite <- (length_seq n 0) in H at 1. revert H Hin. generalize (seq 0 n) as l.
  induction l as [|x l IH]; intros H Hin; [by apply elem_of_nil in Hin|]. cbn [List.filter] in H.
  assert (Hle := filter_length_le f l).
  destruct (f x) eqn:E; cbn in H; [|lia]. apply elem_of_cons in Hin as [->|Hin]; [done|]. apply IH; [lia|done].
Qed.

Lemma count_or (f c : nat -> bool) :
  count (fun j => f j || c j) = count f + count (fun j => c j && negb (f j)).
Proof.
  unfold count. induction (seq 0 n) as [|x l IH]; [done|]. cbn [List.filter].
  destruct (f x), (c x); cbn [orb andb negb length]; lia.
Qed.

Lemma count_ext (f g : nat -> bool) : (forall j, (j < n)%nat -> f j = g j) -> count f = count g.
Proof.
  intros H. unfold count. f_equal. f_equal. apply filter_ext_in. intros j Hj%in_seq. apply H. lia.
Qed.

(** The filter of the first loop, over positions. *)
Lemma starts_indexes (f c : nat -> bool) (D : list (option (list Z))) (bs : list bool) :
  length bs = n -> (forall j, (j < n)%nat -> bs !! j = Some (c j)) ->
  (forall j, (j < n)%nat -> D !! j = Some (if f j then Some (d j) else None)) ->
  (List.filter (starts D) (indexed bs)).*1 = List.filter (fun j => c j && negb (f j)) (seq 0 n).
Proof.
  intros Hl Hb HD.
  assert (E : indexed bs = (fun j => (j, c j)) <$> seq 0 n).
  { apply list_eq. intros j. unfold indexed. rewrite list_lookup_imap, list_lookup_fmap.
    destruct (decide (j < n)%nat) as [Hj|Hj].
    - rewrite Hb by done. rewrite (proj2 (lookup_seq 0 n j j)) by done. done.
    - rewrite lookup_ge_None_2 by lia. by rewrite lookup_seq_ge by lia. }
  rewrite E. assert (Hs : forall j, j ∈ seq 0 n -> (j < n)%nat) by (intros j ?%elem_of_seq; lia).
  revert Hs. generalize (seq 0 n) as l. induction l as [|j l IH]; intros Hs; [done|].
  cbn [fmap list_fmap List.filter]. unfold starts at 1. cbn [fst snd].
  assert (Hj : (j < n)%nat) by (apply Hs; by left).
  assert (Eb : bool_decide (D !! j = Some None) = negb (f j)).
  { rewrite HD by done. destruct (f j); [by rewrite bool_decide_false|by rewrite bool_decide_true]. }
  rewrite Eb. destruct (c j && negb (f j)); cbn; rewrite IH by (intros; apply Hs; by right); done.
Qed.

Context (e : RemoteEnv (State := State)) (Hd : forall j, startDescriptor (startReply e j) = Some (d j)).

Lemma startWhereNeeded_ok {A} (reqs : list (list A)) (rs : nat -> list A) f s :
  keeps f s -> length reqs = n -> (forall j, (j < n)%nat -> reqs !! j = Some (rs j)) ->
  exists s', (startWhereNeeded reqs : R unit) e s =
      Some (tt, s', startMsg e <$> List.filter (fun j => nonempty (rs j) && negb (f j)) (seq 0 n)) /\
    keeps (fun j => f j || nonempty (rs j)) s'.
Proof.
  intros (D & -> & HlD & HD) Hl Hr. unfold startWhereNeeded, bind at 1, get. cbn [nTxnsStarted].
  assert (Hid : (forall j, (j < n)%nat -> nonempty (rs j) && negb (f j) = false) ->
    exists s', (ret tt : R unit) e (mkRemote (Some D) (count f)) =
      Some (tt, s', startMsg e <$> List.filter (fun j => nonempty (rs j) && negb (f j)) (seq 0 n)) /\
    keeps (fun j => f j || nonempty (rs j)) s').
  { intros Hno. exists (mkRemote (Some D) (count f)). split.
    - rewrite (filter_ext_in _ (fun _ => false)); [by rewrite filter_false|].
      intros j Hj%in_seq. apply Hno. lia.
    - exists D. split_and!; [|done|].
      + f_equal. apply count_ext. intros j Hj. specialize (Hno j Hj). by destruct (f j), (nonempty (rs j)).
      + intros j Hj. rewrite HD by done. specialize (Hno j Hj). by destruct (f j), (nonempty (rs j)). }
  rewrite Hl. destruct (Z.ltb_spec (count f) (Z.of_nat n)) as [Hlt|Hge].
  2:{ apply Hid. intros j Hj. by rewrite (count_all f Hge j Hj), andb_false_r. }
  destruct (existsb nonempty reqs) eqn:Eb.
  2:{ apply Hid. intros j Hj. apply andb_false_intro1. apply not_true_iff_false. intros Ht.
      apply not_true_iff_false in Eb. apply Eb. apply existsb_exists. exists (rs j). split; [|done].
      apply list_elem_of_In, list_elem_of_lookup. exists j. by apply Hr. }
  assert (HF : Forall (fun p => (fst p < length D)%nat) (indexed (nonempty <$> reqs))).
  { apply Forall_forall. intros [j b] Hj%elem_of_indexed. cbn. rewrite HlD, <- Hl.
    apply lookup_lt_Some in Hj. by rewrite length_fmap in Hj. }
  unfold startTxnForRemote, bind at 1 2, ask. rewrite (start_loop e D (count f) _ [] HF).
  rewrite (starts_indexes f (fun j => nonempty (rs j))); [|by rewrite length_fmap| |done].
  2:{ intros j Hj. by rewrite list_lookup_fmap, Hr. }
  cbn [app]. set (new := List.filter _ (seq 0 n)).
  assert (Hnew : forall j, j ∈ new <-> (j < n)%nat /\ nonempty (rs j) && negb (f j) = true).
  { intros j. unfold new. rewrite list_elem_of_In, filter_In, in_seq. intuition lia. }
  destruct (descriptors_loop e (fun i => startDescriptor (startReply e i)) new D
    (count f + Z.of_nat (length (List.filter (starts D) (indexed (nonempty <$> reqs))))))
    as (D' & -> & HlD' & HD').
  { apply Forall_forall. intros j [Hj _]%Hnew. lia. }
  eexists. split; [by rewrite app_nil_r|]. exists D'. split_and!; [|lia|].
  - f_equal. rewrite count_or. f_equal. unfold count.
    rewrite <- (length_fmap fst), (starts_indexes f (fun j => nonempty (rs j))); [done|by rewrite length_fmap| |done].
    intros j Hj. by rewrite list_lookup_fmap, Hr.
  - intros j Hj. rewrite HD' by lia. case_bool_decide as Hin.
    + apply Hnew in Hin as [_ Hin]. rewrite Hd. apply andb_prop in Hin as [-> _]. by rewrite orb_true_r.
    + rewrite HD by done. destruct (f j) eqn:Ef; [done|]. destruct (nonempty (rs j)) eqn:En; [|done].
      destruct Hin. apply Hnew. by rewrite En, Ef.
Qed.

Definition lockedMsg (needsLock : bool) (j : nat) (m : S2SMsg) : ROut := SendLocked j needsLock (mkWrapper (int32 (e_txnId e)) m).

(** The messages of one request. *)
Lemma request_messages {A} (msg : list Z -> list A -> S2SMsg) (reqs : list (list A)) (rs : nat -> list A) f s :
  keeps f s -> length reqs = n -> (forall j, (j < n)%nat -> reqs !! j = Some (rs j)) ->
  exists s' o, (startWhereNeeded reqs ;;; (sendLocked true msg reqs : R unit)) e s = Some (tt, s', o) /\
    keeps (fun j => f j || nonempty (rs j)) s' /\ Forall (fun x => target x < n)%nat o /\
    forall j, (j < n)%nat -> messagesTo j o =
      (if nonempty (rs j) && negb (f j) then [startMsg e j] else []) ++
      (if nonempty (rs j) then [lockedMsg true j (msg (d j) (rs j))] else []).
Proof.
  intros Hk Hl Hr. destruct (startWhereNeeded_ok reqs rs f s Hk Hl Hr) as (s' & E & Hk').
  destruct Hk' as (D & -> & HlD & HD).
  assert (HF : Forall (fun p => (fst p < length D)%nat) (indexed reqs)).
  { apply Forall_forall. intros [j l] Hj%elem_of_indexed%lookup_lt_Some. cbn. lia. }
  assert (Esend := sendLocked_loop true msg e D (count (fun j => f j || nonempty (rs j))) (indexed reqs) HF).
  set (send := fun p : nat * list A => SendLocked (fst p) true _) in Esend.
  eexists _, _. split.
  { unfold bind at 1. rewrite E. unfold sendLocked, bind at 1, ask. rewrite Esend. cbn [app]. reflexivity. }
  split; [by exists D|]. split.
  { apply Forall_app. split; apply Forall_fmap, Forall_forall; intros x Hx; cbn.
    - apply list_elem_of_In, filter_In in Hx as [Hx%in_seq _]. lia.
    - apply list_elem_of_In, filter_In in Hx as [Hx _]. apply list_elem_of_In in Hx. destruct x as [j l].
      apply elem_of_indexed, lookup_lt_Some in Hx. cbn. lia. }
  intros j Hj. rewrite messagesTo_app. f_equal.
  - change j with (target (startMsg e j)) at 1. rewrite messagesTo_one; [done| |apply elem_of_seq; lia].
    apply (NoDup_targets _ Datatypes.id); [done|]. rewrite list_fmap_id. apply NoDup_seq.
  - assert (Hj' : (j, rs j) ∈ indexed reqs) by by apply elem_of_indexed, Hr.
    change j with (target (send (j, rs j))) at 1. rewrite messagesTo_one; [| |done].
    + cbn [snd]. destruct (nonempty (rs j)) eqn:En; [|done]. unfold send. cbn [fst snd].
      rewrite HD by done. by rewrite En, orb_true_r.
    + apply (NoDup_targets _ fst); [done|]. rewrite indexed_fst. apply NoDup_seq.
Qed.

(** The messages of the end. *)
Lemma end_messages (msg : list Z -> S2SMsg) f s :
  keeps f s -> e_nServers e = n ->
  exists o, (endRemote msg : R unit) e s = Some (tt, s, o) /\ Forall (fun x => target x < n)%nat o /\
    forall j, (j < n)%nat -> messagesTo j o = if f j then [lockedMsg false j (msg (d j))] else [].
Proof.
  intros (D & -> & HlD & HD) Hn.
  assert (Hseq : Forall (fun i => (i < length D)%nat) (seq 0 n)) by (apply Forall_forall; intros i ?%elem_of_seq; lia).
  assert (Eend := end_loop msg e D (count f) (seq 0 n) Hseq). set (send := fun i : nat => SendLocked _ _ _) in Eend.
  eexists. split.
  { unfold endRemote, bind at 1, ask. rewrite Hn, Eend. cbn [app]. reflexivity. }
  split.
  { apply Forall_fmap, Forall_forall. intros x Hx. cbn.
    apply list_elem_of_In, filter_In in Hx as [Hx%in_seq _]. lia. }
  intros j Hj. change j with (target (send j)) at 1. rewrite messagesTo_one; [| |apply elem_of_seq; lia].
  - unfold send. rewrite HD by done. cbn [default]. destruct (f j); [by rewrite bool_decide_true|done].
  - apply (NoDup_targets _ Datatypes.id); [done|]. rewrite list_fmap_id. apply NoDup_seq.
Qed.

Lemma keeps_ext f g s : (forall j, (j < n)%nat -> f j = g j) -> keeps f s -> keeps g s.
Proof.
  intros E (D & -> & Hl & HD). exists D. split_and!; [|done|].
  - f_equal. by apply count_ext.
  - intros j Hj. by rewrite HD, E.
Qed.
End transaction.

Lemma bind_assoc {A B C} (m : R A) (k1 : A -> R B) (k2 : B -> R C) e s :
  bind m (fun x => bind (k1 x) k2) e s = bind (bind m k1) k2 e s.
Proof.
  unfold bind. destruct (m e s) as [[[a s1] o1]|]; [|done]. destruct (k1 a e s1) as [[[b s2] o2]|]; [|done].
  destruct (k2 b e s2) as [[[x s3] o3]|]; [|done]. by rewrite app_assoc.
Qed.

(** ** Transactions *)

Section session.
Context `{HHash : KeyHash} (c : TMConfig).
Abbreviation Reply := (S2SWrapperReply (State := State)).
Abbreviation Request := (RemoteRequest (Upd := Upd) (RArgs := RArgs) (State := State)).

(** What server [j] is asked, given the descriptor of its transaction. *)
Definition requestTo (r : Request) (j : nat) : option (list Z -> S2SMsg (Upd := Upd) (RArgs := RArgs)) :=
  match r with
  | RemoteRead objs _ =>
      let l := (asked c j 0 objs).*2 in if nonempty l then Some (fun desc => ReadMsg desc [] l) else None
  | RemoteUpdate upds =>
      let l := List.filter (isRemoteTo c (Z.of_nat j)) upds in
      if nonempty l then Some (fun desc => UpdMsg desc l) else None
  end.

Definition isAsked (r : Request) (j : nat) : bool := match requestTo r j with Some _ => true | None => false end.

(** Servers exist, and each answers a read with a state for each object. *)
Definition answered (p : (nat -> Reply) * Request) : Prop :=
  match snd p with
  | RemoteRead objs states =>
      Forall (read_placed c) objs /\ length states = length objs /\
      exists answer, forall j, (j < nServers c)%nat -> readStates (fst p j) = answer j <$> (asked c j 0 objs).*2
  | RemoteUpdate upds => Forall (placed c) upds
  end.

Definition requestMessages (d : nat -> list Z) (e : RemoteEnv (State := State)) (r : Request) (f : nat -> bool) (j : nat)
  : list ROut :=
  match requestTo r j with
  | Some m => (if f j then [] else [startMsg e j]) ++ [lockedMsg e true j (m (d j))]
  | None => []
  end.

Lemma noRemote (upds : updates) j :
  existsb (isRemote c) upds = false -> List.filter (isRemoteTo c (Z.of_nat j)) upds = [].
Proof.
  induction upds as [|u upds IH]; [done|]. cbn [existsb List.filter]. intros [Hu Hr]%orb_false_iff.
  unfold isRemoteTo at 1. unfold isRemote in Hu.
  destruct (getReadLocation c (Bucket (upd_key u))) as [[[] ?]|]; [done|by apply IH..].
Qed.

Lemma existsb_nonempty {A} (rs : list (list A)) j l :
  existsb nonempty rs = false -> rs !! j = Some l -> nonempty l = false.
Proof.
  intros E Hj. apply not_true_iff_false. intros Hn. apply not_true_iff_false in E. apply E, existsb_exists.
  exists l. split; [|done]. apply list_elem_of_In, list_elem_of_lookup. by exists j.
Qed.

(** A run of a request, for a transaction that the servers [f] take part in. *)
Definition runs_request (d : nat -> list Z) (e : RemoteEnv (State := State)) (f : nat -> bool) (r : Request)
  (s' : ongoingRemote) (o : list ROut) : Prop :=
  keeps d (nServers c) (fun j => f j || isAsked r j) s' /\
  Forall (fun x => target x < nServers c)%nat o /\
  forall j, (j < nServers c)%nat -> messagesTo j o = requestMessages d e r f j.

Lemma runs_nothing d e f r s :
  keeps d (nServers c) f s -> (forall j, (j < nServers c)%nat -> requestTo r j = None) ->
  runs_request d e f r s [].
Proof.
  intros Hk Hno. split; [|split; [done|]].
  - apply (keeps_ext d (nServers c) f); [|done]. intros j Hj. unfold isAsked. by rewrite Hno, orb_false_r.
  - intros j Hj. unfold requestMessages. by rewrite Hno.
Qed.

Lemma runs_messages {A} (msg : list Z -> list A -> S2SMsg) d (e : RemoteEnv (State := State)) f r s
  (reqs : list (list A)) (rs : nat -> list A) :
  (forall j, startDescriptor (startReply e j) = Some (d j)) -> keeps d (nServers c) f s ->
  length reqs = nServers c -> (forall j, (j < nServers c)%nat -> reqs !! j = Some (rs j)) ->
  (forall j, requestTo r j = if nonempty (rs j) then Some (fun desc => msg desc (rs j)) else None) ->
  exists s' o, (startWhereNeeded reqs ;;; (sendLocked true msg reqs : R unit)) e s = Some (tt, s', o) /\
    runs_request d e f r s' o.
Proof.
  intros Hd Hk Hl Hr Hto. destruct (request_messages d (nServers c) e Hd msg reqs rs f s Hk Hl Hr)
    as (s' & o & E & Hk' & Ht & Hm).
  exists s', o. split; [done|]. split; [|split; [done|]].
  - eapply keeps_ext; [|exact Hk']. intros j Hj. unfold isAsked. rewrite Hto. by destruct (nonempty _).
  - intros j Hj. rewrite Hm by done. unfold requestMessages. rewrite Hto.
    destruct (nonempty _); [|done]. by destruct (f j).
Qed.

Lemma remoteRead_ok d (e : RemoteEnv (State := State)) f s objs states (answer : nat -> ReadObjectParams RArgs -> State) :
  (forall j, startDescriptor (startReply e j) = Some (d j)) -> keeps d (nServers c) f s ->
  Forall (read_placed c) objs -> length states = length objs ->
  (forall j, (j < nServers c)%nat -> readStates (reply e j) = answer j <$> (asked c j 0 objs).*2) ->
  exists states' s' o, (remoteRead c objs states : R _) e s = Some (states', s', o) /\
    runs_request d e f (RemoteRead objs states) s' o /\ length states' = length states /\
    forall i r, objs !! i = Some r -> states' !! i =
      match serverOf c r with Some j => Some (Some (answer j r)) | None => states !! i end.
Proof.
  intros Hd Hk Hp Hlen Hans.
  destruct (split_and_deliver c objs (fun j => readStates (reply e j)) answer states Hp Hlen Hans)
    as (reqs & chans & st & Es & Hl & Hr & Edel & Hls & Hst).
  unfold remoteRead. rewrite Es. unfold bind at 1, must, ret at 1.
  destruct (existsb nonempty reqs) eqn:En.
  - destruct (runs_messages (fun desc rs => ReadMsg desc [] rs) d e f (RemoteRead objs states) s reqs
      (fun j => (asked c j 0 objs).*2) Hd Hk Hl Hr) as (s' & o & E & Hrun); [done|].
    exists st, s', o. split; [|done]. unfold handleRemoteReads. rewrite bind_assoc. unfold bind at 1. rewrite E.
    unfold bind, ask. rewrite Edel. cbn. by rewrite app_nil_r.
  - assert (Hno : forall j, (j < nServers c)%nat -> nonempty (asked c j 0 objs).*2 = false)
      by (intros j Hj; exact (existsb_nonempty reqs j _ En (Hr j Hj))).
    exists states, s, []. split; [done|]. split; [|split; [done|]].
    + apply runs_nothing; [done|]. intros j Hj. unfold requestTo. by rewrite Hno.
    + intros i r Hi. destruct (serverOf c r) as [j|] eqn:Ej; [|done]. exfalso.
      assert (Hj : (j < nServers c)%nat).
      { rewrite Forall_lookup in Hp. specialize (Hp i r Hi). unfold read_placed in Hp. unfold serverOf in Ej.
        destruct (getReadLocation c (Bucket (read_key r))) as [[[] ?]|]; [|done..]. injection Ej as <-. lia. }
      assert (Hin : (i, r) ∈ asked c j 0 objs) by (apply elem_of_asked; by exists i).
      specialize (Hno j Hj). unfold nonempty in Hno. rewrite length_fmap in Hno.
      by destruct (asked c j 0 objs); [apply elem_of_nil in Hin|].
Qed.

Lemma remoteRequest_ok d (e : RemoteEnv (State := State)) f s (replies : nat -> Reply) (r : Request) :
  (forall j, startDescriptor (startReply e j) = Some (d j)) ->
  keeps d (nServers c) f s -> answered (replies, r) ->
  exists s' o, (remoteRequest c r : R unit) (withReplies replies e) s = Some (tt, s', o) /\ runs_request d e f r s' o.
Proof.
  intros Hd Hk Ha. destruct r as [objs states|upds]; cbn [remoteRequest].
  - destruct Ha as (Hp & Hlen & answer & Hans).
    destruct (remoteRead_ok d (withReplies replies e) f s objs states answer Hd Hk Hp Hlen Hans)
      as (st & s' & o & E & Hrun & _).
    exists s', o. split; [|done]. unfold bind. rewrite E. cbn. by rewrite app_nil_r.
  - destruct (groupWrites_ok c upds Ha) as (g & Eg & _ & Hl & _ & Hr & Hrem).
    unfold remoteUpdate. rewrite Eg. unfold bind at 1, must, ret at 1. rewrite Hrem.
    destruct (existsb (isRemote c) upds) eqn:En.
    + destruct (runs_messages UpdMsg d (withReplies replies e) f (RemoteUpdate upds) s (reqsPerServer g)
        (fun j => List.filter (isRemoteTo c (Z.of_nat j)) upds) Hd Hk Hl Hr) as (s' & o & E & Hrun); [done|].
      exists s', o. unfold handleRemoteUpds. by rewrite E.
    + exists s, []. split; [done|]. apply runs_nothing; [done|].
      intros j Hj. unfold requestTo. by rewrite (noRemote upds j En).
Qed.
(** What a transaction asks of server [j]. *)
Definition requestsTo (reqs : list ((nat -> Reply) * Request)) (j : nat) : list (list Z -> S2SMsg (Upd := Upd) (RArgs := RArgs)) :=
  omap (fun p => requestTo (snd p) j) reqs.

Definition lockedMsgs (d : nat -> list Z) (e : RemoteEnv (State := State)) (j : nat)
  (ms : list (list Z -> S2SMsg (Upd := Upd) (RArgs := RArgs))) : list ROut :=
  (fun m => lockedMsg e true j (m (d j))) <$> ms.

Lemma remoteRequests_ok d (e : RemoteEnv (State := State)) reqs f s :
  (forall j, startDescriptor (startReply e j) = Some (d j)) ->
  keeps d (nServers c) f s -> Forall answered reqs ->
  exists s' o, (remoteRequests c reqs : R unit) e s = Some (tt, s', o) /\
    keeps d (nServers c) (fun j => f j || nonempty (requestsTo reqs j)) s' /\
    Forall (fun x => target x < nServers c)%nat o /\
    forall j, (j < nServers c)%nat -> messagesTo j o =
      (if nonempty (requestsTo reqs j) && negb (f j) then [startMsg e j] else []) ++ lockedMsgs d e j (requestsTo reqs j).
Proof.
  intros Hd. revert f s. induction reqs as [|[replies r] reqs IH]; intros f s Hk Ha.
  { exists s, []. split_and!; try done. apply (keeps_ext d _ f); [|done]. intros j _. by rewrite orb_false_r. }
  apply Forall_cons in Ha as [Hr Ha]. cbn [remoteRequests].
  destruct (remoteRequest_ok d e f s replies r Hd Hk Hr) as (s1 & o1 & E1 & Hk1 & Ht1 & Hm1).
  destruct (IH (fun j => f j || isAsked r j) s1 Hk1 Ha) as (s2 & o2 & E2 & Hk2 & Ht2 & Hm2).
  exists s2, (o1 ++ o2). split.
  { unfold bind. by rewrite E1, E2. }
  split; [|split; [by apply Forall_app|]].
  - apply (keeps_ext d _ _ _ _ ) with (2 := Hk2). intros j _. unfold requestsTo, isAsked. cbn [omap list_omap snd].
    destruct (requestTo r j); cbn; by rewrite <- ?orb_assoc, ?orb_true_r.
  - intros j Hj. rewrite messagesTo_app, Hm1, Hm2 by done. unfold requestMessages, isAsked.
    unfold requestsTo at 3 4. cbn [omap list_omap snd]. destruct (requestTo r j) as [m|].
    + cbn. rewrite orb_true_r, andb_false_r. by destruct (f j).
    + by rewrite orb_false_r.
Qed.

Lemma count_zero n (f : nat -> bool) : count n f <= 0 -> forall j, (j < n)%nat -> f j = false.
Proof.
  unfold count. intros H j Hj. destruct (List.filter f (seq 0 n)) as [|x l] eqn:E; [|cbn in H; lia].
  apply not_true_iff_false. intros Ht. apply (in_nil (a := j)). rewrite <- E. apply filter_In. split; [apply in_seq; lia|done].
Qed.

(** The end of a transaction that the servers [f] take part in. *)
Lemma endTxn_ok (msg : list Z -> S2SMsg (Upd := Upd) (RArgs := RArgs)) d (e : RemoteEnv (State := State)) f s :
  keeps d (nServers c) f s -> e_nServers e = nServers c ->
  exists o, ((s <- get ;; (if nTxnsStarted s >? 0 then endRemote msg else ret tt) ;;; resetRemote) : R unit) e s =
      Some (tt, mkRemote None 0, o) /\
    Forall (fun x => target x < nServers c)%nat o /\
    forall j, (j < nServers c)%nat -> messagesTo j o = if f j then [lockedMsg e false j (msg (d j))] else [].
Proof.
  intros Hk Hn. destruct (end_messages d (nServers c) e msg f s Hk Hn) as (o & E & Ht & Hm).
  unfold bind at 1, get. destruct Hk as (D & -> & _). cbn [nTxnsStarted].
  destruct (Z.gtb_spec (count (nServers c) f) 0) as [Hgt|Hle].
  - exists o. split; [|done]. unfold bind. rewrite E. cbn. by rewrite app_nil_r.
  - exists []. split_and!; [done..|]. intros j Hj. by rewrite (count_zero (nServers c) f).
Qed.

(** Transactions that span servers, if these answer START_TXN with a descriptor:
    each server that has an object of the transaction gets its start, then in
    order one message for each request that has objects of the server, with the
    descriptor that the server answered, and at the end one commit or abort, the
    only one that releases the connection; no other server gets a message.  This
    is what the asking side is written for; the servers of this repository do
    not answer START_TXN ([ServerAsked.transactions_of_other_servers_fail]). *)
Theorem servers_get_whole_transactions (d : nat -> list Z) (e : RemoteEnv (State := State))
  (reqs : list ((nat -> Reply) * Request)) (commit : bool) (s : ongoingRemote) :
  (forall j, startDescriptor (startReply e j) = Some (d j)) -> e_nServers e = nServers c ->
  nTxnsStarted s = 0 -> Forall answered reqs ->
  exists o, (remoteTransaction c reqs commit : R unit) e s = Some (tt, mkRemote None 0, o) /\
    Forall (fun x => target x < nServers c)%nat o /\
    forall j, (j < nServers c)%nat -> messagesTo j o =
      match requestsTo reqs j with
      | [] => []
      | ms => startMsg e j :: lockedMsgs d e j ms ++
          [lockedMsg e false j (if commit then CommitTxn (d j) else AbortTxn (d j))]
      end.
Proof.
  intros Hd Hn Hs Ha.
  assert (Hk : keeps d (nServers c) (fun _ => false) (mkRemote (Some (replicate (nServers c) None)) 0)).
  { exists (replicate (nServers c) None). split_and!; [|by rewrite length_replicate|intros j Hj; by apply lookup_replicate_2].
    f_equal. unfold count. by rewrite filter_false. }
  destruct (remoteRequests_ok d e reqs _ _ Hd Hk Ha) as (s1 & o1 & E1 & Hk1 & Ht1 & Hm1).
  destruct (endTxn_ok (if commit then CommitTxn else AbortTxn) d e _ s1 Hk1 Hn) as (o2 & E2 & Ht2 & Hm2).
  assert (Estart : (startRemote : R unit) e s = Some (tt, mkRemote (Some (replicate (nServers c) None)) 0, [])).
  { unfold startRemote, bind, ask, modify. by rewrite Hn, Hs. }
  exists (o1 ++ o2). split_and!.
  - unfold remoteTransaction. unfold bind at 1. rewrite Estart. unfold bind at 1. rewrite E1.
    destruct commit; [unfold commitRemote, handleRemoteCommit|unfold abortRemote, handleRemoteAbort]; by rewrite E2.
  - by apply Forall_app.
  - intros j Hj. rewrite messagesTo_app, Hm1, Hm2 by done. cbn [orb negb].
    destruct (requestsTo reqs j) as [|m ms]; [done|]. cbn. f_equal. f_equal. by destruct commit.
Qed.
Lemma sendStatic_ok {A} txnID (msg : list A -> S2SMsg (Upd := Upd) (RArgs := RArgs)) (ps : list (nat * list A))
  (e : RemoteEnv (State := State)) s :
  exists o, (foldM (fun (_ : unit) '(i, reqs) =>
    if nonempty reqs then emit (SendRequest i false (mkWrapper (int32 txnID) (msg reqs))) else ret tt)
    ps tt : R unit) e s = Some (tt, s, o).
Proof.
  induction ps as [|[i l] ps [o IH]]; [by exists []|]. cbn [foldM]. unfold bind.
  destruct (nonempty l); cbn; rewrite IH; by eexists.
Qed.

(** C12. Reads that span servers: whatever servers the objects of a read are at, and
    in whatever order they are asked for, the state that a server answers for an
    object is put at the position of that object, and the positions of the
    objects of this server keep what its partitions read; in a transaction and
    without one. *)
Theorem remote_states_are_put_in_place (d : nat -> list Z) (e : RemoteEnv (State := State)) (s : ongoingRemote)
  (f : nat -> bool) (txnID : Z) (ts : vclock) (objs : reads) (states : list (option State))
  (answer : nat -> ReadObjectParams RArgs -> State) :
  Forall (read_placed c) objs -> length states = length objs ->
  (forall j, startDescriptor (startReply e j) = Some (d j)) -> keeps d (nServers c) f s ->
  let inPlace (states' : list (option State)) :=
    length states' = length states /\
    forall i r, objs !! i = Some r -> states' !! i =
      match serverOf c r with Some j => Some (Some (answer j r)) | None => states !! i end in
  ((forall j, (j < nServers c)%nat -> readStates (reply e j) = answer j <$> (asked c j 0 objs).*2) ->
   exists states' s' o, (remoteRead c objs states : R _) e s = Some (states', s', o) /\ inPlace states') /\
  ((forall j, (j < nServers c)%nat -> staticReadStates (reply e j) = answer j <$> (asked c j 0 objs).*2) ->
   exists states' o, (remoteStaticRead c txnID ts objs states : R _) e s = Some (states', s, o) /\ inPlace states').
Proof.
  intros Hp Hlen Hd Hk. split; intros Hans.
  - destruct (remoteRead_ok d e f s objs states answer Hd Hk Hp Hlen Hans) as (states' & s' & o & E & _ & Hin).
    by exists states', s', o.
  - destruct (split_and_deliver c objs (fun j => staticReadStates (reply e j)) answer states Hp Hlen Hans)
      as (reqs & chans & st & Es & Hl & Hr & Edel & Hin).
    unfold remoteStaticRead. rewrite Es. unfold bind at 1, must, ret at 1.
    destruct (existsb nonempty reqs) eqn:En.
    + unfold handleRemoteStaticReads, sendStatic.
      destruct (sendStatic_ok txnID (fun rs => StaticRead (ToBytes ts) [] rs) (indexed reqs) e s) as (o & E).
      exists st, o. split; [|done]. unfold bind at 1. rewrite E. unfold bind, ask, must. rewrite Edel.
      cbn. by rewrite app_nil_r.
    + exists states, []. split; [done|]. split; [done|]. intros i r Hi.
      destruct (remoteRead_ok d (withReplies (fun j => mkWrapperReply 0 READ_OBJS
        (Some (ApbReadObjectsResp (answer j <$> (asked c j 0 objs).*2)))) e) f s objs states answer Hd Hk Hp Hlen)
        as (states' & s' & o & E & _ & _ & Hst); [done|].
      unfold remoteRead in E. rewrite Es in E. unfold bind at 1, must, ret at 1 in E. rewrite En in E.
      injection E as <- _ _. by apply Hst.
Qed.
End session.
End remote.

(** ** Witnesses *)

Module RemoteExample.
#[local] Existing Instance TMExample.hash.

(** Bucket b is here, x is at server 0 and y at server 1. *)
Definition conf : TMConfig := mkConfig 2 false ["b"%string] {["x"%string := [0]; "y"%string := [1]]} 2.
Definition obj (key bkt : string) : ReadObjectParams Z := mkRead (mkKey key 0 bkt) 0.
Definition upd (key bkt : string) : UpdateObjectParams Z := mkUpd (mkKey key 0 bkt) 5.
Definition objs : list (ReadObjectParams Z) := [obj "k" "y"; obj "a" "b"; obj "kk" "x"; obj "kkk" "y"].
Definition states : list (option Z) := [None; Some 1; None; None].

Definition answer (j : nat) (r : ReadObjectParams Z) : Z :=
  100 * Z.of_nat j + Z.of_nat (String.length (Key (read_key r))).
Definition replies (j : nat) : S2SWrapperReply (State := Z) :=
  mkWrapperReply 7 READ_OBJS (Some (ApbReadObjectsResp (match j with O => [2] | _ => [101; 103] end))).
Definition staticReplies (j : nat) : S2SWrapperReply (State := Z) :=
  mkWrapperReply 7 STATIC_READ_OBJS (Some (ApbStaticReadObjectsResp (match j with O => [2] | _ => [101; 103] end) [])).
Definition desc (j : nat) : list Z := [Z.of_nat j].
Definition env (f : nat -> S2SWrapperReply (State := Z)) : RemoteEnv :=
  mkRemoteEnv 7 {[1 := 5]} 2 (fun j => mkWrapperReply 7 START_TXN (Some (ApbStartTransactionResp (desc j)))) f.

Definition reqs : list ((nat -> S2SWrapperReply (State := Z)) * RemoteRequest (Upd := Z) (RArgs := Z)) :=
  [(replies, RemoteUpdate [upd "k" "y"; upd "a" "b"]); (replies, RemoteRead objs states)].

Lemma reqs_answered : Forall (answered conf) reqs.
Proof.
  repeat constructor; cbn; try (vm_compute; done).
  exists answer. intros [|[|j]] Hj; [vm_compute; reflexivity..|lia].
Qed.
End RemoteExample.
#[local] Existing Instance TMExample.hash.

Lemma servers_get_whole_transactions_witness :
  exists o, remoteTransaction RemoteExample.conf RemoteExample.reqs true (RemoteExample.env RemoteExample.replies)
      (mkRemote None 0) = Some (tt, mkRemote None 0, o) /\
    map (fun x => match x with SendRequest _ _ w | SendLocked _ _ w => Msg w end) (messagesTo 1 o) =
      [StartTxn (ToBytes {[1 := 5]}); UpdMsg [1] [RemoteExample.upd "k" "y"];
       ReadMsg [1] [] [RemoteExample.obj "k" "y"; RemoteExample.obj "kkk" "y"]; CommitTxn [1]].
Proof.
  destruct (servers_get_whole_transactions RemoteExample.conf RemoteExample.desc
    (RemoteExample.env RemoteExample.replies) RemoteExample.reqs true (mkRemote None 0))
    as (o & E & _ & Hm); [done..|exact RemoteExample.reqs_answered|].
  exists o. split; [exact E|]. rewrite (Hm 1%nat) by (cbn; lia). vm_compute. reflexivity.
Defined.

Lemma remote_states_are_put_in_place_witness :
  exists st s' o, remoteRead (Upd := Z) RemoteExample.conf RemoteExample.objs RemoteExample.states
      (RemoteExample.env RemoteExample.replies) (mkRemote (Some [None; None]) 0) = Some (st, s', o) /\
    st = [Some 101; Some 1; Some 2; Some 103].
Proof.
  destruct (remote_states_are_put_in_place (Upd := Z) RemoteExample.conf RemoteExample.desc
    (RemoteExample.env RemoteExample.replies) (mkRemote (Some [None; None]) 0) (fun _ => false) 7 {[1 := 5]}
    RemoteExample.objs RemoteExample.states RemoteExample.answer) as [(st & s' & o & E & Hl & Hst) _].
  - repeat constructor; vm_compute; done.
  - reflexivity.
  - reflexivity.
  - exists [None; None]. split_and!; [done..|]. intros [|[|j]] Hj; [done..|cbn in Hj; lia].
  - intros [|[|j]] Hj; [vm_compute; reflexivity..|cbn in Hj; lia].
  - exists st, s', o. split; [exact E|].
    assert (H0 := Hst 0%nat _ eq_refl). assert (H1 := Hst 1%nat _ eq_refl).
    assert (H2 := Hst 2%nat _ eq_refl). assert (H3 := Hst 3%nat _ eq_refl).
    destruct st as [|x0 [|x1 [|x2 [|x3 [|]]]]]; try discriminate Hl.
    vm_compute in H0, H1, H2, H3. congruence.
Defined.
