(* ===== verification/ServerAsked.v ===== *)
(** * Transactions that span servers: the server that is asked

    Theorems about the second half of file ServerToServer: descriptors of
    transactions on the wire, static reads for another server, and the requests
    that are never answered. *)

From S2P Require Import Prelude ClockSI ClockCodec Effects Keys PartitionClock VersionManager.
From S2P Require Import Materializer CommitReplies TransactionManager ServerToServer.
From Stdlib Require Import ZArith Lia Bool.
From stdpp Require Import base tactics numbers strings gmap sorting list.
#[local] Open Scope Z_scope.
#[local] Open Scope eff_scope.

(** ** Descriptors *)

Lemma be_value_be_bytes n v :
  be_value (be_bytes n v) = v mod 2 ^ (8 * Z.of_nat n).
Proof.
  assert (H : forall acc, foldl (fun v b => Z.lor (Z.shiftl v 8) b) acc (be_bytes n v) =
    acc * 2 ^ (8 * Z.of_nat n) + v mod 2 ^ (8 * Z.of_nat n)); [|exact (H 0)].
  induction n as [|n IH]; intros acc; [cbn; rewrite Z.mod_1_r; lia|].
  cbn [be_bytes foldl]. rewrite IH, land_255, Z.lor_comm, lor_shiftl_add by (apply Z.mod_pos_bound; lia).
  rewrite Z.shiftr_div_pow2 by lia. replace (8 * Z.of_nat (S n)) with (8 * Z.of_nat n + 8) by lia.
  rewrite Z.pow_add_r by lia. rewrite (Z.rem_mul_r v (2 ^ (8 * Z.of_nat n))) by lia. lia.
Qed.

Lemma descriptor_read_back random txn ts :
  clock_ok ts -> DecodeTxnDescriptor random (createTxnDescriptorBytes txn ts) = Some (uint64 txn, ts).
Proof.
  intros Hts. unfold createTxnDescriptorBytes.
  assert (Hl := be_bytes_length 8 (uint64 txn)).
  assert (E : DecodeTxnDescriptor random (be_bytes 8 (uint64 txn) ++ ToBytes ts) =
    Some (be_value (take 8 (be_bytes 8 (uint64 txn) ++ ToBytes ts)),
      FromBytes (drop 8 (be_bytes 8 (uint64 txn) ++ ToBytes ts)))) by reflexivity.
  rewrite E, take_app_length', drop_app_length' by done. rewrite clock_bytes by done.
  rewrite be_value_be_bytes. unfold wrapU. by rewrite Z.mod_mod by lia.
Qed.

Lemma le_value_zeros bytes n : le_value (bytes ++ replicate n 0) = le_value bytes.
Proof.
  induction bytes as [|b bytes IH]; cbn [app le_value]; [|by rewrite IH].
  induction n as [|n IH]; [done|]. cbn [replicate le_value]. by rewrite IH.
Qed.

(** An entry read 8 bytes too far: its value is the identifier of the next one. *)
Lemma shifted_entry pre e post :
  pre <> [] -> 0 <= snd (FromBytes_entry (drop 8 (mjoin (ToBytes_entry <$> pre) ++ ToBytes_entry e ++ post)) (length pre - 1)) < 2 ^ 16.
Proof.
  intros Hpre. destruct e as [i v]. unfold FromBytes_entry, slice, entrySize. cbn [snd].
  assert (Hlen : (length pre <> 0)%nat) by by destruct pre.
  set (tail := ToBytes_entry (i, v) ++ post).
  rewrite drop_drop. replace (8 + ((length pre - 1) * (2 * 8) + 8))%nat with (length (mjoin (ToBytes_entry <$> pre)))
    by (rewrite ToBytes_length; lia).
  rewrite drop_app_length. replace ((length pre - 1 + 1) * (2 * 8) - ((length pre - 1) * (2 * 8) + 8))%nat with 8%nat by lia.
  rewrite take_take. cbn [Nat.min]. unfold tail, ToBytes_entry, entrySize.
  change (take 8 _) with (le_bytes 2 (uint16 i) ++ replicate 6 0).
  rewrite le_value_zeros, le_value_le_bytes. change (2 ^ (8 * Z.of_nat 2)) with (2 ^ 16).
  assert (Hb : 0 <= uint16 i mod 2 ^ 16 < 2 ^ 16) by (apply Z.mod_pos_bound; lia).
  rewrite (wrapS_id 64) by (unfold inS; lia). exact Hb.
Qed.

Definition small (ts : vclock) : Prop := map_Forall (fun _ v => 0 <= v < 2 ^ 16) ts.

Lemma foldl_small (f : nat -> Z * Z) (l : list nat) (m : vclock) :
  small m -> Forall (fun i => 0 <= snd (f i) < 2 ^ 16) l ->
  small (foldl (fun newVC i => let '(replicaID, value) := f i in <[replicaID := value]> newVC) m l).
Proof.
  revert m. induction l as [|i l IH]; intros m Hm Hl; [done|]. apply Forall_cons in Hl as [Hi Hl]. cbn [foldl].
  apply IH; [|done]. destruct (f i) as [k v]. by apply map_Forall_insert_2.
Qed.

(** A clock that is read as a descriptor. *)
Lemma raw_clock_is_small random ts :
  exists txn clk, DecodeTxnDescriptor random (ToBytes ts) = Some (txn, clk) /\ small clk.
Proof.
  unfold ToBytes. set (l := map_to_list ts). assert (Hlen := ToBytes_length l).
  destruct l as [|e l'] eqn:El.
  { exists random, {[0 := 0]}. split; [done|]. intros k v [<- <-]%lookup_singleton_Some. lia. }
  rewrite <- El in *. assert (Hn : (length l <> 0)%nat) by by rewrite El.
  assert (E : DecodeTxnDescriptor random (mjoin (ToBytes_entry <$> l)) =
    Some (be_value (take 8 (mjoin (ToBytes_entry <$> l))), FromBytes (drop 8 (mjoin (ToBytes_entry <$> l))))).
  { unfold DecodeTxnDescriptor. destruct (Nat.ltb_spec (length (mjoin (ToBytes_entry <$> l))) 8); [lia|].
    by destruct (mjoin (ToBytes_entry <$> l)); [cbn in Hlen; lia|]. }
  eexists _, _. split; [exact E|]. unfold FromBytes. rewrite length_drop, Hlen.
  destruct (Nat.eqb_spec (length l * 16 - 8) 0); [lia|]. apply foldl_small; [by apply map_Forall_empty|].
  apply Forall_forall. intros i Hi%elem_of_seq. unfold entrySize in Hi.
  assert (Hlt : (S i < length l)%nat).
  { assert ((length l * 16 - 8) / (8 * 2) < length l)%nat by (apply Nat.div_lt_upper_bound; lia).
    assert (length l - 1 = (length l * 16 - 8) / (8 * 2))%nat; [|lia].
    apply (Nat.div_unique _ _ _ 8); lia. }
  destruct (lookup_lt_is_Some_2 l (S i) Hlt) as [x Hx].
  assert (Hpre := length_take l (S i)). rewrite Nat.min_l in Hpre by lia.
  assert (Eq : mjoin (ToBytes_entry <$> l) = mjoin (ToBytes_entry <$> take (S i) l) ++ ToBytes_entry x ++
      mjoin (ToBytes_entry <$> drop (S (S i)) l)).
  { rewrite <- (take_drop_middle l (S i) x Hx) at 1. by rewrite fmap_app, fmap_cons, join_app. }
  rewrite Eq.
  assert (H := shifted_entry (take (S i) l) x (mjoin (ToBytes_entry <$> drop (S (S i)) l))).
  rewrite Hpre in H. replace (S i - 1)%nat with i in H by lia. apply H. intros Hnil. by rewrite Hnil in Hpre.
Qed.

(** A replica's clock absorbs it. *)
Lemma Merge_small clk small_clk :
  map_Forall (fun _ v => 2 ^ 16 <= v) clk -> small small_clk -> ClockSI.Merge clk (Some small_clk) = clk.
Proof.
  intros Hc Hs. apply map_eq. intros i. rewrite Merge_lookup. destruct (clk !! i) as [v|] eqn:E; [|done].
  cbn. f_equal. specialize (Hc i v E). cbn in Hc. unfold GetPos.
  destruct (small_clk !! i) as [w|] eqn:Ew; cbn; [specialize (Hs i w Ew); cbn in Hs; lia|lia].
Qed.

(** ** Requests of other servers *)

Section asked.
Context {Upd RArgs State : Type} `{HHash : KeyHash} (StateReadArguments : RArgs).
Abbreviation reads := (list (ReadObjectParams RArgs)).
Abbreviation Env := (ServerEnv (State := State)).
Abbreviation Wrapper := (S2SWrapper (Upd := Upd) (RArgs := RArgs)).
Abbreviation TOut := (TMOut Upd RArgs).
Abbreviation T := (M (SessionEnv State) ongoingTxn TOut).
Abbreviation handle := (handleServerToServer (State := State) StateReadArguments).

Lemma IsEqual_refl ts : IsEqual ts (Some ts) = true.
Proof. by apply IsEqual_eq. Qed.

(** A clock below the replica's is not waited for. *)
Lemma getClockToUse_small clk id (e : SessionEnv State) s :
  map_Forall (fun _ v => 2 ^ 16 <= v) (localClk e) -> small clk ->
  (getClockToUse (Some clk) id : T _) e s =
    Some (localClk e, mkOngoing (txnId s) (partitions s) (originalClk s) (Some (localClk e)), []).
Proof.
  intros Hl Hc. unfold getClockToUse. unfold bind at 1, ask. rewrite CopyInto_empty. cbv zeta.
  rewrite Merge_small by done. unfold bind, set_clkInUse, modify. by rewrite IsEqual_refl.
Qed.

Lemma small_dummy : small {[0 := 0]}.
Proof. intros k v [<- <-]%lookup_singleton_Some. lia. Qed.

Abbreviation objects full partial := (ProtoReadToAntidoteObjects StateReadArguments full partial).

(** A static read for another server. *)
Lemma static_read_served id clientID tx full (partial : reads) (e : Env) s :
  handle id (mkWrapper clientID (StaticRead tx full partial) : Wrapper) e s =
    match DecodeTxnDescriptor (randomTxn e) tx with
    | None => None
    | Some (_, clk) =>
        match (handleStaticTMRead (Some clk) id (objects full partial) : T _) (session e)
                (mkOngoing 0 [] None (srvClkInUse s)) with
        | None => None
        | Some (states, c, t, o) =>
            Some (Some (mkWrapperReply clientID STATIC_READ_OBJS
                    (Some (ApbStaticReadObjectsResp states (createTxnDescriptorBytes 2 c)))),
                  mkServer (ongoingInfo s) (clkInUse t), FromTM <$> o)
        end
    end.
Proof.
  unfold handleServerToServer, bind, ask, must. cbn [Msg decodeRequest].
  destruct (DecodeTxnDescriptor (randomTxn e) tx) as [[txn clk]|]; [|done].
  cbn [asRequest fst snd ret ClientID handleServerRequest]. unfold bind, onServer.
  destruct (handleStaticTMRead _ _ _ _ _) as [[[[states c] t] o]|]; [|done].
  cbn. by rewrite !app_nil_r.
Qed.

(** C17. Clocks of clients: the messages of static transactions and of the start of a
    transaction carry the bytes of a clock where the other server decodes a
    descriptor, which has eight bytes before the clock.  What it decodes has no
    value above [2^16], so once the replica's clock is above [2^16] the request
    is served as that of a client without a clock: at the replica's clock, and
    without waiting for the updates that the client has seen.  A descriptor
    itself is read back. *)
Theorem clocks_of_other_servers_are_ignored (random txn id clientID : Z) (ts : vclock) (full : list KeyParams)
  (partial : reads) (e : Env) (s : ServerState) :
  clock_ok ts -> map_Forall (fun _ v => 2 ^ 16 <= v) (localClk (session e)) ->
  DecodeTxnDescriptor random (createTxnDescriptorBytes txn ts) = Some (uint64 txn, ts) /\
  handle id (mkWrapper clientID (StaticRead (ToBytes ts) full partial) : Wrapper) e s =
    handle id (mkWrapper clientID (StaticRead [] full partial) : Wrapper) e s.
Proof.
  intros Hts Hl. split; [by apply descriptor_read_back|].
  destruct (raw_clock_is_small (randomTxn e) ts) as (txn' & clk & E & Hs).
  rewrite !static_read_served, E. cbn [DecodeTxnDescriptor].
  unfold handleStaticTMRead, bind at 1 4. by rewrite !getClockToUse_small by (done || apply small_dummy).
Qed.

(** The objects are in this server's partitions. *)
Definition here (c : TMConfig) (r : ReadObjectParams RArgs) : Prop :=
  exists i, getReadLocation c (Bucket (read_key r)) = Some (false, i).

Lemma sendReads_here c toLocal (objs : reads) perServer (e : SessionEnv State) s :
  Forall (here c) objs ->
  (sendReads c toLocal objs perServer : T _) e s =
    Some (perServer, s, (fun r => ToPart (channelOf c (read_key r)) (toLocal r)) <$> objs).
Proof.
  induction 1 as [|r objs [i Hr] _ IH]; [done|]. cbn [sendReads]. rewrite Hr.
  unfold bind at 1, must, ret at 1. unfold bind, emit. by rewrite IH.
Qed.

Lemma existsb_replicate {A} (n : nat) : existsb (fun l : list A => negb (length l =? 0)%nat) (replicate n []) = false.
Proof. by induction n. Qed.

Lemma objects_length full (partial : reads) : length (objects full partial) = (length full + length partial)%nat.
Proof. unfold ProtoReadToAntidoteObjects, ProtoObjectsToAntidoteObjects. by rewrite length_app, length_fmap. Qed.

(** A static read for another server returns, with one state for each object,
    in the order of the message: that of the partition of the object, which is
    asked to read at the clock that is sent back with the answer; the
    transactions of the connection stay as they are. *)
Theorem static_reads_are_answered (id clientID txn : Z) (tx : list Z) (clk : vclock) (full : list KeyParams)
  (partial : reads) (e : Env) (s : ServerState) :
  DecodeTxnDescriptor (randomTxn e) tx = Some (txn, clk) ->
  Forall (here (config (session e))) (objects full partial) ->
  exists c t o, (getClockToUse (Some clk) id : T _) (session e) (mkOngoing 0 [] None (srvClkInUse s)) = Some (c, t, o) /\
    handle id (mkWrapper clientID (StaticRead tx full partial) : Wrapper) e s =
      Some (Some (mkWrapperReply clientID STATIC_READ_OBJS (Some (ApbStaticReadObjectsResp
              (readState (session e) <$> seq 0 (length full + length partial)) (createTxnDescriptorBytes 2 c)))),
            mkServer (ongoingInfo s) None,
            FromTM <$> (o ++ ((fun r => ToPart (channelOf (config (session e)) (read_key r)) (MatStaticRead r c)) <$>
              objects full partial))).
Proof.
  intros Hd Hh. rewrite static_read_served, Hd. unfold handleStaticTMRead, bind at 1.
  assert (Hc : exists c t o, (getClockToUse (Some clk) id : T _) (session e) (mkOngoing 0 [] None (srvClkInUse s)) = Some (c, t, o)).
  { unfold getClockToUse, bind, ask, set_clkInUse, modify. destruct (IsEqual _ _); by eexists _, _, _. }
  destruct Hc as (c & t & o & E). exists c, t, o. split; [done|]. rewrite E.
  unfold bind at 1, readAll. unfold bind at 1, ask. unfold bind at 1. rewrite sendReads_here by done.
  rewrite existsb_replicate. unfold bind, ret, set_clkInUse, modify. rewrite !app_nil_r. cbn [app clkInUse].
  by rewrite objects_length.
Qed.

(** ** Requests that are not answered *)

Abbreviation S := (M Env ServerState (ServerOut (Upd := Upd) (RArgs := RArgs))).

Definition keepsOngoing {A} (m : S A) : Prop :=
  forall e s, ongoingInfo s = ∅ -> post m e s (fun _ s' _ => ongoingInfo s' = ∅).

Lemma keeps_bind {A B} (m : S A) (k : A -> S B) :
  keepsOngoing m -> (forall a, keepsOngoing (k a)) -> keepsOngoing (bind m k).
Proof.
  intros Hm Hk e s Hs. apply post_bind. eapply post_weaken; [by apply Hm|]. intros a s' o Hs'. by apply Hk.
Qed.

Lemma keeps_ret {A} (a : A) : keepsOngoing (ret a). Proof. intros e s Hs. by apply post_ret. Qed.
Lemma keeps_ask : keepsOngoing ask. Proof. intros e s Hs. by intros ? ? ? [= <- <- <-]. Qed.
Lemma keeps_emit o : keepsOngoing (emit o). Proof. intros e s Hs. by intros ? ? ? [= <- <- <-]. Qed.
Lemma keeps_panic {A} : keepsOngoing (panic (A := A)). Proof. by intros e s Hs. Qed.
Lemma keeps_must {A} (o : option A) : keepsOngoing (must o).
Proof. intros e s Hs. by apply post_must. Qed.
Lemma keeps_foldM {A B} (f : B -> A -> S B) l b : (forall b x, keepsOngoing (f b x)) -> keepsOngoing (foldM f l b).
Proof.
  intros Hf. revert b. induction l as [|x l IH]; intros b; cbn [foldM]; [apply keeps_ret|]. by apply keeps_bind.
Qed.
Lemma keeps_onServer {A} (m : T A) : keepsOngoing (onServer m).
Proof.
  intros e s Hs a s' o. unfold onServer. destruct (m _ _) as [[[a1 t] o1]|]; [|done]. by intros [= <- <- <-].
Qed.
Lemma onTxn_panics {A} clientID (m : T A) (e : Env) s : ongoingInfo s = ∅ -> onTxn clientID m e s = None.
Proof. intros Hs. unfold onTxn. by rewrite Hs, lookup_empty. Qed.
Lemma keeps_onTxn {A} clientID (m : T A) : keepsOngoing (onTxn clientID m).
Proof. intros e s Hs. intros ? ? ?. by rewrite onTxn_panics. Qed.
Lemma keeps_onTxnIf {A} uses clientID (m : T A) : keepsOngoing (onTxnIf uses clientID m).
Proof.
  intros e s Hs a s' o. unfold onTxnIf. rewrite Hs, lookup_empty.
  destruct (m _ _) as [[[a1 t] o1]|]; [|done]. destruct (uses o1); [done|]. by intros [= <- <- <-].
Qed.
#[local] Hint Resolve keeps_bind keeps_ret keeps_ask keeps_emit keeps_panic keeps_must keeps_foldM keeps_onServer
  keeps_onTxn keeps_onTxnIf : keeps.

Lemma keeps_singleRead r : keepsOngoing (handleSingleRead r).
Proof.
  apply keeps_bind; [apply keeps_ask|intros e]. apply keeps_bind; [apply keeps_must|intros [[] i]];
    (apply keeps_bind; [apply keeps_emit|intros; apply keeps_ret]).
Qed.

Lemma keeps_perms perms reqID : keepsOngoing (handleTMBCPerms perms reqID).
Proof.
  apply keeps_bind; [apply keeps_ask|intros e]. apply keeps_foldM. intros _ [i p].
  destruct (i <? nParts (config (session e)))%nat; [apply keeps_emit|apply keeps_panic].
Qed.

Lemma keeps_request id clientID (request : S2SRequest) : keepsOngoing (handleServerRequest (State := State) id clientID request).
Proof.
  destruct request as [r|perms reqID|[]]; cbn [handleServerRequest];
    (apply keeps_bind; [auto using keeps_singleRead, keeps_perms with keeps|]);
    intros; repeat (match goal with x : prod _ _ |- _ => destruct x end); apply keeps_ret.
Qed.

Lemma keeps_handle id (w : Wrapper) : keepsOngoing (handle id w).
Proof.
  apply keeps_bind; [apply keeps_ask|intros e]. apply keeps_bind; [apply keeps_must|intros d].
  apply keeps_bind; [apply keeps_request|intros answer].
  destruct d.1.2 as [t|]; [|apply keeps_ret]. apply keeps_bind; [apply keeps_must|intros r].
  apply keeps_bind; [apply keeps_must|intros msg]. apply keeps_bind; [apply keeps_must|intros; apply keeps_ret].
Qed.

Lemma keeps_requests id (ws : list (Env * Wrapper)) s rs s' o :
  ongoingInfo s = ∅ -> handleServerRequests (State := State) StateReadArguments id ws s = Some (rs, s', o) ->
  ongoingInfo s' = ∅.
Proof.
  revert s rs o. induction ws as [|[e w] ws IH]; intros s rs o Hs; cbn [handleServerRequests]; [by intros [= <- <- <-]|].
  destruct (handle id w e s) as [[[r s1] o1]|] eqn:E; [|done].
  destruct (handleServerRequests _ _ ws s1) as [[[rs2 s2] o2]|] eqn:E2; [|done].
  intros [= <- <- <-]. by apply (IH s1 rs2 o2); [eapply (keeps_handle id w e s Hs)|].
Qed.

(** An update that is grouped is sent somewhere. *)
Definition busy (g : Grouped (Upd := Upd)) : Prop :=
  Exists (fun l => nonempty l = true) (updsPerPartition g) \/ hasRemote g = true.

Lemma addTo_busy {A} (xs xs' : list (list A)) i x :
  addTo xs i x = Some xs' -> Exists (fun l => nonempty l = true) xs'.
Proof.
  unfold addTo. destruct (i <? 0); [done|]. destruct (xs !! Z.to_nat i) as [l|] eqn:E; [|done]. intros [= <-].
  apply Exists_exists. exists (l ++ [x]). split; [|by destruct l].
  apply list_elem_of_lookup. exists (Z.to_nat i). apply list_lookup_insert_eq. by eapply lookup_lt_Some.
Qed.

Lemma groupWrites_busy c upds g g' :
  groupWrites_loop c upds g = Some g' -> upds <> [] \/ busy g -> busy g'.
Proof.
  revert g. induction upds as [|u upds IH]; intros g; cbn [groupWrites_loop]; [by intros [= <-] [?|?]|].
  intros E _. destruct (getReadLocation c (Bucket (upd_key u))) as [[[] i]|]; [| |done].
  - destruct (addTo (reqsPerServer g) i u); [|done]. eapply IH; [exact E|]. right. by right.
  - destruct (addTo (updsPerPartition g) _ u) as [parts|] eqn:Ea; [|done]. eapply IH; [exact E|].
    right. left. by eapply addTo_busy.
Qed.

Lemma updated_busy (g : Grouped (Upd := Upd)) : Exists (fun l => nonempty l = true) (updsPerPartition g) -> updated g <> [].
Proof.
  intros (l & Hl & Hn)%Exists_exists. apply list_elem_of_lookup in Hl as [i Hi].
  assert (Hin : (Z.of_nat i, l) ∈ updated g).
  { apply list_elem_of_In, filter_In. split; [|exact Hn]. apply list_elem_of_In, list_elem_of_lookup. exists i.
    by rewrite list_lookup_imap, Hi. }
  intros E. rewrite E in Hin. by apply elem_of_nil in Hin.
Qed.

Lemma update_writes txn upds (e : SessionEnv State) s :
  upds <> [] -> post (handleTMUpdate txn upds : T unit) e s (fun _ _ o => nonempty o = true).
Proof.
  intros Hne u s' o. unfold handleTMUpdate, bind at 1, ask. unfold bind at 1, must.
  destruct (groupWrites (config e) upds) as [g|] eqn:Eg; [|done]. unfold ret at 1.
  assert (Hb := groupWrites_busy _ _ _ _ Eg (or_introl Hne)).
  unfold bind at 1. destruct (foldM _ _ _ _ _) as [[[u1 s1] o1]|] eqn:Ef; [|done].
  destruct Hb as [Hb|Hr]; [|rewrite Hr; intros [= <- <- <-]; by destruct o1].
  assert (Hu := updated_busy g Hb). destruct (updated g) as [|p ps]; [done|].
  cbn [foldM] in Ef. unfold bind in Ef. unfold modify, emit in Ef.
  destruct (foldM _ ps _ _ _) as [[[u2 s2] o2]|]; [|done]. cbn in Ef. injection Ef as <- <- <-.
  destruct (hasRemote g); by intros [= <- <- <-].
Qed.

(** The messages that need the record of a transaction. *)
Definition usesTransaction (m : S2SMsg (Upd := Upd) (RArgs := RArgs)) : bool :=
  match m with StartTxn _ | CommitTxn _ | AbortTxn _ => true | UpdMsg _ upds => nonempty upds | _ => false end.

(** C16. Requests that are not answered: a server keeps the records of the other
    servers' transactions in a map that it never writes, so whatever it was
    asked before, the start of a transaction, an update of objects, a commit and an abort
    from another server dereference a nil record; and the connection waits for
    ever for the answer to a read of a single object, which is never sent. *)
Theorem transactions_of_other_servers_fail (id : Z) (ws : list (Env * Wrapper)) (s : ServerState)
  (rs : list (option (S2SWrapperReply (State := State)))) (o : list (ServerOut (Upd := Upd) (RArgs := RArgs)))
  (e : Env) (w : Wrapper) :
  handleServerRequests StateReadArguments id ws newServer = Some (rs, s, o) ->
  (usesTransaction (Msg w) = true -> handle id w e s = None) /\
  (forall r, Msg w = SingleRead r -> handle id w e s = None).
Proof.
  intros E. assert (Hs := keeps_requests id ws newServer rs s o eq_refl E). split.
  - intros Hm. unfold handleServerToServer, bind at 1, ask.
    unfold bind at 1, must. destruct (decodeRequest StateReadArguments (randomTxn e) (Msg w)) as [d|] eqn:Ed; [|done].
    unfold ret at 1. unfold bind at 1.
    destruct (Msg w) as [| | |tx| | |desc upds|desc|desc| |]; try done; cbn [decodeRequest] in Ed;
      destruct (DecodeTxnDescriptor _ _) as [[txn clk]|]; try done; injection Ed as <-;
      cbn [fst asRequest handleServerRequest]; unfold bind at 1; [by rewrite onTxn_panics| |by rewrite onTxn_panics..].
    unfold bind at 1, onTxnIf. rewrite Hs, lookup_empty.
    destruct (handleTMUpdate txn upds _ _) as [[[u t] o1]|] eqn:Eu; [|done].
    assert (Hw : nonempty o1 = true) by (eapply update_writes; [|exact Eu]; by destruct upds). by rewrite Hw.
  - intros r Hm. unfold handleServerToServer, bind at 1, ask. unfold bind at 1, must. rewrite Hm.
    cbn [decodeRequest ret fst snd handleServerRequest]. unfold bind at 1 2.
    destruct (handleSingleRead r e s) as [[[[states clk] s1] o1]|]; [|done]. done.
Qed.
End asked.

(** ** Witnesses *)

Module AskedExample.
#[local] Existing Instance TMExample.hash.
Definition localClk : vclock := {[1 := 1000000; 2 := 2000000]}.
Definition env : ServerEnv (State := Z) :=
  mkServerEnv (mkSession TMExample.conf 77 localClk (fun _ => localClk) localClk (fun i => Z.of_nat i)) 33 localClk.
Definition client : vclock := {[1 := 900000; 2 := 3000000]}.
Definition obj (key : string) : ReadObjectParams Z := mkRead (mkKey key 0 "b") 4.
Definition read (tx : list Z) : S2SWrapper (Upd := Z) (RArgs := Z) :=
  mkWrapper 5 (StaticRead tx [mkKey "k" 0 "b"] [obj "kk"]).
Definition start : S2SWrapper (Upd := Z) (RArgs := Z) := mkWrapper 6 (StartTxn (ToBytes client)).

Lemma client_ok : clock_ok client.
Proof.
  split; [by vm_compute|]. intros k v H. unfold client in H.
  apply lookup_insert_Some in H as [[<- <-]|[_ [<- <-]%lookup_singleton_Some]]; unfold inS; lia.
Qed.

Lemma localClk_large : map_Forall (fun _ v => 2 ^ 16 <= v) localClk.
Proof.
  intros k v H. unfold localClk in H. apply lookup_insert_Some in H as [[<- <-]|[_ [<- <-]%lookup_singleton_Some]]; lia.
Qed.
End AskedExample.
#[local] Existing Instance TMExample.hash.

Lemma clocks_of_other_servers_are_ignored_witness :
  handleServerToServer 0 3 (AskedExample.read (ToBytes AskedExample.client)) AskedExample.env newServer =
  handleServerToServer 0 3 (AskedExample.read []) AskedExample.env newServer.
Proof.
  exact (proj2 (clocks_of_other_servers_are_ignored (Upd := Z) 0 33 12 3 5 AskedExample.client
    [mkKey "k" 0 "b"] [AskedExample.obj "kk"] AskedExample.env newServer AskedExample.client_ok
    AskedExample.localClk_large)).
Defined.

Lemma static_reads_are_answered_witness :
  exists c o, handleServerToServer 0 3 (AskedExample.read (createTxnDescriptorBytes 12 AskedExample.client))
      AskedExample.env newServer =
    Some (Some (mkWrapperReply 5 STATIC_READ_OBJS
      (Some (ApbStaticReadObjectsResp [0; 1] (createTxnDescriptorBytes 2 c)))), newServer, o).
Proof.
  destruct (static_reads_are_answered (Upd := Z) 0 3 5 (uint64 12) (createTxnDescriptorBytes 12 AskedExample.client)
    AskedExample.client [mkKey "k" 0 "b"] [AskedExample.obj "kk"] AskedExample.env newServer)
    as (c & t & o & _ & E).
  - apply descriptor_read_back, AskedExample.client_ok.
  - repeat constructor; exists 0; vm_compute; reflexivity.
  - exists c. eexists. exact E.
Defined.

Lemma transactions_of_other_servers_fail_witness :
  exists rs s o, handleServerRequests 0 3 [(AskedExample.env, AskedExample.read [])] newServer = Some (rs, s, o) /\
    length rs = 1%nat /\ handleServerToServer 0 3 AskedExample.start AskedExample.env s = None.
Proof.
  destruct (handleServerRequests 0 3 [(AskedExample.env, AskedExample.read [])] newServer) as [[[rs s] o]|] eqn:E.
  - exists rs, s, o. split; [reflexivity|]. split.
    + vm_compute in E. injection E as <- _ _. reflexivity.
    + exact (proj1 (transactions_of_other_servers_fail 0 3 _ s rs o AskedExample.env AskedExample.start E) eq_refl).
  - vm_compute in E. discriminate E.
Defined.
