(* ===== verification/ConnectionPool.v ===== *)
(** * Transactions that span servers: the pool of connections

    connectionPool.go (src/potionDB/components).  Each goroutine of the pool
    ([handleRequests]) has a connection to a server, which it shares among
    clients: a message from a client without a connection is taken from the
    channel of the server by any of its goroutines; the answer says on which
    channel ([lockedChan]) the next messages of a transaction reach the same
    goroutine.  At most [MAX_CLIENT_PER_POOL] transactions share a connection.

    A round of the loop is a step, chosen by a message that is on a channel: if
    [select] does not listen to the channel, the message stays there.  [None] is a send on a nil channel, which blocks the goroutine for ever.
    A client is [int32] of its transaction; channels for answers are numbers. *)

From S2P Require Import Prelude Effects ClockSI Keys PartitionClock VersionManager Materializer TransactionManager.
From S2P Require Import ServerToServer.
From Stdlib Require Import ZArith Lia Bool.
From stdpp Require Import base tactics numbers gmap list.
#[local] Open Scope Z_scope.
#[local] Open Scope eff_scope.

Definition MAX_CLIENT_PER_POOL : Z := 50.
Definition CP_CLOSE_CONN : Z := 247.

(** [msgType] is the code of the outer message. *)
Definition lastClientReq (msgType : Z) : bool :=
  (msgType =? WrapperType_value STATIC_READ_OBJS) || (msgType =? WrapperType_value STATIC_UPDATE) ||
  (msgType =? WrapperType_value COMMIT) || (msgType =? WrapperType_value BC_PERMS_REQ).

Section pool.
Context {Upd RArgs State : Type}.
Abbreviation Wrapper := (S2SWrapper (Upd := Upd) (RArgs := RArgs)).
Abbreviation Reply := (S2SWrapperReply (State := State)).

Record msgToSend := mkToSend { msg : Wrapper; code : Z; replyChan : Z; needsLock : bool }.
Record msgReply := mkMsgReply { r_msg : Reply; r_code : Z }.

Definition sendRequest (code : Z) (w : Wrapper) (chan : Z) : msgToSend := mkToSend w code chan false.
Definition sendAndLockRequest (code : Z) (w : Wrapper) (chan : Z) : msgToSend := mkToSend w code chan true.

Record PoolState := mkPool { nLocked : Z; clientMap : gmap Z Z }.
Definition newPool : PoolState := mkPool 0 ∅.

(** What is on a channel: an answer from the server, a message of a client of this
    connection, one of a client without a connection. *)
Inductive Taken := FromServer (reply : msgReply) | FromLocked (req : msgToSend) | FromPublic (req : msgToSend).

Inductive PoolOut := SendProto (code : Z) (w : Wrapper) | ReplyOn (chan : Z) (reply : msgReply) | CloseConn (chan : Z).

(** The channel of the server is not listened to when the connection is full. *)
Definition listensTo (s : PoolState) (t : Taken) : bool :=
  match t with FromPublic _ => nLocked s <? MAX_CLIENT_PER_POOL | _ => true end.

Definition handleRequests (t : Taken) : M unit PoolState PoolOut unit :=
  match t with
  | FromServer reply =>
      let clientID := R_ClientID (r_msg reply) in
      s <- get ;;
      chan <- must (clientMap s !! clientID) ;;
      emit (ReplyOn chan reply) ;;;
      if lastClientReq (r_code reply)
      then modify (fun s => mkPool (nLocked s) (delete clientID (clientMap s))) else ret tt
  | FromLocked req =>
      (if negb (needsLock req) then modify (fun s => mkPool (nLocked s - 1) (clientMap s)) else ret tt) ;;;
      emit (SendProto (code req) (msg req))
  | FromPublic req =>
      if code req =? CP_CLOSE_CONN then emit (CloseConn (replyChan req))
      else
        emit (SendProto (code req) (msg req)) ;;;
        (if needsLock req then modify (fun s => mkPool (nLocked s + 1) (clientMap s)) else ret tt) ;;;
        modify (fun s => mkPool (nLocked s) (<[ClientID (msg req) := replyChan req]> (clientMap s)))
  end.

(** Rounds of the loop.  A message that [select] does not listen to is not taken;
    it waits for another goroutine, or comes again. *)
Fixpoint rounds (ts : list Taken) (s : PoolState) : option (PoolState * list PoolOut) :=
  match ts with
  | [] => Some (s, [])
  | t :: ts =>
      if listensTo s t then
        match handleRequests t tt s with
        | None => None
        | Some (_, s1, o1) =>
            match rounds ts s1 with Some (s2, o2) => Some (s2, o1 ++ o2) | None => None end
        end
      else rounds ts s
  end.

(** ** Clients of a connection *)

(** What the protocol asks for, on the set [open] of the transactions that have
    started and not ended and the map [asked] from each client to the channel of
    its last message.  A client without a connection is taken if there is room. *)
Definition room (open : gset Z) : bool := Z.of_nat (size open) <? 50.

Definition opened (t : Taken) (open : gset Z) : gset Z :=
  match t with
  | FromServer _ => open
  | FromLocked req => if needsLock req then open else open ∖ {[ClientID (msg req)]}
  | FromPublic req => if room open && needsLock req then {[ClientID (msg req)]} ∪ open else open
  end.

Definition asks (t : Taken) (open : gset Z) (asked : gmap Z Z) : gmap Z Z :=
  match t with
  | FromPublic req => if room open then <[ClientID (msg req) := replyChan req]> asked else asked
  | _ => asked
  end.

(** The clients that follow the protocol: a transaction starts with a message
    that takes a lock, sends the others on the channel of its connection, and
    ends with one that releases it; other clients send one message; the server
    answers clients that have asked.  Nothing is asked of a client that is not
    taken. *)
Definition followsNow (t : Taken) (open : gset Z) (asked : gmap Z Z) : Prop :=
  match t with
  | FromServer reply => is_Some (asked !! R_ClientID (r_msg reply)) /\ r_code reply = S2SReply
  | FromLocked req => ClientID (msg req) ∈ open /\ code req = S2S
  | FromPublic req => room open = true -> ClientID (msg req) ∉ open /\ code req = S2S
  end.

(** Messages to the server in order, answers on the channel of the last message
    of their client. *)
Definition expectedNow (t : Taken) (open : gset Z) (asked : gmap Z Z) : list PoolOut :=
  match t with
  | FromServer reply => [ReplyOn (asked !!! R_ClientID (r_msg reply)) reply]
  | FromLocked req => [SendProto (code req) (msg req)]
  | FromPublic req => if room open then [SendProto (code req) (msg req)] else []
  end.

Fixpoint follows (ts : list Taken) (open : gset Z) (asked : gmap Z Z) : Prop :=
  match ts with
  | [] => True
  | t :: ts => followsNow t open asked /\ follows ts (opened t open) (asks t open asked)
  end.

Fixpoint expected (ts : list Taken) (open : gset Z) (asked : gmap Z Z) : gset Z * gmap Z Z * list PoolOut :=
  match ts with
  | [] => (open, asked, [])
  | t :: ts =>
      let r := expected ts (opened t open) (asks t open asked) in (r.1, expectedNow t open asked ++ r.2)
  end.

Lemma room_listens open asked req :
  listensTo (mkPool (Z.of_nat (size open)) asked) (FromPublic req) = room open.
Proof. done. Qed.

Lemma size_opened t open asked :
  followsNow t open asked -> Z.of_nat (size open) <= 50 ->
  Z.of_nat (size (opened t open)) <= 50 /\
  Z.of_nat (size (opened t open)) = match t with
    | FromServer _ => Z.of_nat (size open)
    | FromLocked req => if needsLock req then Z.of_nat (size open) else Z.of_nat (size open) - 1
    | FromPublic req => if room open && needsLock req then Z.of_nat (size open) + 1 else Z.of_nat (size open)
    end.
Proof.
  intros Hf Hle. destruct t as [reply|req|req]; cbn [opened followsNow] in *; [done| |].
  - destruct (needsLock req); [done|]. destruct Hf as [Hin _].
    assert (Hs := size_difference open {[ClientID (msg req)]} ltac:(set_solver)). rewrite size_singleton in Hs.
    assert (size open <> 0)%nat by (intros H0%size_empty_iff; set_solver). lia.
  - destruct (room open) eqn:Hr; cbn [andb]; [|done]. destruct (needsLock req); [|done].
    destruct (Hf eq_refl) as [Hout _]. unfold room in Hr. apply Z.ltb_lt in Hr.
    rewrite size_union by set_solver. rewrite size_singleton. lia.
Qed.

Lemma round_expected t open asked :
  followsNow t open asked -> Z.of_nat (size open) <= 50 ->
  let s := mkPool (Z.of_nat (size open)) asked in
  let s' := mkPool (Z.of_nat (size (opened t open))) (asks t open asked) in
  if listensTo s t then handleRequests t tt s = Some (tt, s', expectedNow t open asked)
  else s' = s /\ expectedNow t open asked = [].
Proof.
  intros Hf Hle. destruct (size_opened t open asked Hf Hle) as [_ Hs]. cbv zeta. rewrite Hs. clear Hs.
  destruct t as [reply|req|req]; cbn [followsNow asks expectedNow] in *.
  - destruct Hf as ([ch Hch] & Hcode). cbn [listensTo]. unfold handleRequests, bind, get, must, emit.
    cbn [clientMap]. rewrite Hch. cbn [ret]. rewrite Hcode. change (lastClientReq S2SReply) with false. cbn.
    by rewrite (lookup_total_correct _ _ _ Hch).
  - cbn [listensTo]. unfold handleRequests, bind, emit, modify. by destruct (needsLock req).
  - rewrite room_listens. destruct (room open) eqn:Hr; cbn [andb]; [|done].
    destruct (Hf eq_refl) as [_ Hcode]. unfold handleRequests. rewrite Hcode.
    change (S2S =? CP_CLOSE_CONN) with false. unfold bind, emit, modify. by destruct (needsLock req).
Qed.

Lemma rounds_expected (ts : list Taken) (open : gset Z) (asked : gmap Z Z) :
  follows ts open asked -> Z.of_nat (size open) <= 50 ->
  let r := expected ts open asked in
  rounds ts (mkPool (Z.of_nat (size open)) asked) = Some (mkPool (Z.of_nat (size r.1.1)) r.1.2, r.2) /\
  Z.of_nat (size r.1.1) <= 50 /\ dom asked ⊆ dom r.1.2.
Proof.
  revert open asked. induction ts as [|t ts IH]; intros open asked Hf Hle; [done|].
  destruct Hf as [Hnow Hf]. destruct (size_opened t open asked Hnow Hle) as [Hle' _].
  destruct (IH _ _ Hf Hle') as (E & Hle2 & Hd). assert (Hr := round_expected t open asked Hnow Hle).
  cbn [expected rounds fst snd] in *. split; [|split; [done|]].
  - destruct (listensTo _ t); [by rewrite Hr, E|]. destruct Hr as [Es ->]. rewrite Es in E. by rewrite E.
  - assert (dom asked ⊆ dom (asks t open asked)); [|set_solver].
    destruct t as [reply|req|req]; cbn [asks]; [done..|]. destruct (room open); [|done]. rewrite dom_insert. set_solver.
Qed.

(** C13. Connections: whatever messages come to a new connection, if clients follow
    the protocol it takes a client without a connection exactly when fewer than
    fifty transactions have started and not ended; so these are never more than
    fifty, and it counts exactly them.  It passes the messages that it takes on in
    order and gives every answer to the client that it is for; but the record of
    a client is never deleted, also when its last answer has arrived. *)
Theorem connection_serves_its_clients (ts1 ts2 : list Taken) :
  follows (ts1 ++ ts2) ∅ ∅ ->
  exists open1 asked1 o1 open2 asked2 o2,
    expected ts1 ∅ ∅ = (open1, asked1, o1) /\ expected ts2 open1 asked1 = (open2, asked2, o2) /\
    rounds ts1 newPool = Some (mkPool (Z.of_nat (size open1)) asked1, o1) /\
    rounds ts2 (mkPool (Z.of_nat (size open1)) asked1) = Some (mkPool (Z.of_nat (size open2)) asked2, o2) /\
    Z.of_nat (size open2) <= 50 /\ dom asked1 ⊆ dom asked2.
Proof.
  intros Hf. assert (H12 : follows ts1 ∅ ∅ /\ follows ts2 (expected ts1 ∅ ∅).1.1 (expected ts1 ∅ ∅).1.2).
  { revert Hf. generalize (∅ : gset Z) as op, (∅ : gmap Z Z) as ask. induction ts1 as [|t ts1 IH]; intros op ask Hf; [done|].
    cbn [app follows expected fst snd] in *. destruct Hf as [Hn Hf]. destruct (IH _ _ Hf). done. }
  destruct H12 as [H1 H2].
  destruct (rounds_expected ts1 ∅ ∅ H1) as (E1 & Hle1 & _); [by rewrite size_empty|].
  destruct (expected ts1 ∅ ∅) as [[open1 asked1] o1]. cbn [fst snd] in *.
  destruct (rounds_expected ts2 open1 asked1 H2 Hle1) as (E2 & Hle2 & Hd).
  destruct (expected ts2 open1 asked1) as [[open2 asked2] o2] eqn:Ex2. rewrite size_empty in E1.
  exists open1, asked1, o1, open2, asked2, o2. by split_and!.
Qed.
End pool.

(** ** Witness *)

Module PoolExample.
Definition wrapper (id : Z) (m : S2SMsg (Upd := Z) (RArgs := Z)) : S2SWrapper := mkWrapper id m.
Definition answer (id : Z) : Taken (Upd := Z) (RArgs := Z) (State := Z) :=
  FromServer (mkMsgReply (mkWrapperReply id COMMIT (Some (ApbCommitResp []))) S2SReply).
Definition run : list (Taken (Upd := Z) (RArgs := Z) (State := Z)) :=
  [FromPublic (sendAndLockRequest S2S (wrapper 7 (StartTxn [])) 1); answer 7;
   FromPublic (sendRequest S2S (wrapper 8 (StaticUpd [] [])) 2);
   FromLocked (mkToSend (wrapper 7 (CommitTxn [])) S2S 1 false); answer 8; answer 7].
End PoolExample.

Lemma connection_serves_its_clients_witness :
  exists o, rounds PoolExample.run newPool = Some (mkPool 0 {[8 := 2; 7 := 1]}, o) /\ length o = 6%nat.
Proof.
  assert (Hf : follows (PoolExample.run ++ []) ∅ ∅).
  { cbn. split_and!; try done; try set_solver; try (by eexists). }
  destruct (connection_serves_its_clients PoolExample.run [] Hf) as (op & ask & o & _ & _ & _ & E & _ & H & _).
  vm_compute in E. injection E as <- <- <-.
  eexists. split; [exact H|reflexivity].
Defined.
