(* ===== verification/ClientProtocol.v ===== *)
(** * The protocol of clients

    protoServer.go (src/potionDB/main) and antidoteProtoLib.go
    (src/potionDB/components): each connection of a client has a goroutine
    ([processConnection]) that decodes a message, sends the request to the
    transaction manager's goroutine of the client, waits for its reply and
    encodes the answer.  The descriptors of the answers, which clients send back
    with their next messages, carry the identifier of the transaction and a
    clock.

    Modelled are the messages of transactions; triggers, SQL, the reset of the
    server and connections that become those of servers or of several clients
    are not.  [random] is what [rand.Uint64] gives for an empty descriptor. *)

From S2P Require Import Prelude ClockSI ClockCodec Effects Keys PartitionClock VersionManager.
From S2P Require Import Materializer CommitReplies TransactionManager ServerToServer ServerAsked.
From Stdlib Require Import ZArith Lia Bool.
From stdpp Require Import base tactics numbers strings gmap sorting list.
#[local] Open Scope Z_scope.
#[local] Open Scope eff_scope.

(** The codes of the answers. *)
Definition OpReply : Z := 111.
Definition StartTransReply : Z := 124.
Definition ReadObjsReply : Z := 126.
Definition CommitTransReply : Z := 127.
Definition StaticReadObjsReply : Z := 128.

Section protocol.
Context {Upd RArgs State : Type} `{HHash : KeyHash} (StateReadArguments : RArgs).
Abbreviation updates := (list (UpdateObjectParams Upd)).
Abbreviation reads := (list (ReadObjectParams RArgs)).
Abbreviation TOut := (TMOut Upd RArgs).
Abbreviation T := (M (SessionEnv State) ongoingTxn TOut).
Abbreviation Answer := (Resp (State := State)).

(** The messages of transactions. *)
Inductive ClientMsg :=
  | ApbStaticReadObjects (transaction : list Z) (objs : list KeyParams)
  | ApbStaticRead (transaction : list Z) (full : list KeyParams) (partial : reads)
  | ApbStaticUpdateObjects (transaction : list Z) (upds : updates)
  | ApbReadObjects (desc : list Z) (objs : list KeyParams)
  | ApbRead (desc : list Z) (full : list KeyParams) (partial : reads)
  | ApbUpdateObjects (desc : list Z) (upds : updates)
  | ApbStartTransaction (timestamp : list Z)
  | ApbAbortTransaction (desc : list Z)
  | ApbCommitTransaction (desc : list Z).

(** [tmChan <- createTMRequest(...)], [reply := <-replyChan]. *)
Definition askTM {A} (id : Z) (request : TMRequest Upd RArgs) (f : TMReply (State := State) -> option A) : T A :=
  reply <- handleTMRequest id request ;; must (f reply).

Definition CreateStartTransactionResp (txn : Z) (ts : vclock) : Answer := ApbStartTransactionResp (createTxnDescriptorBytes txn ts).
Definition CreateCommitOkResp (txn : Z) (ts : vclock) : Answer := ApbCommitResp (createTxnDescriptorBytes txn ts).
Definition CreateStaticReadResp (states : list State) (txn : Z) (ts : vclock) : Answer :=
  ApbStaticReadObjectsResp states (createTxnDescriptorBytes txn ts).

Definition decodeDesc (random : Z) (desc : list Z) : T (Z * vclock) := must (DecodeTxnDescriptor random desc).

(** [handleStaticReadObjects] and [handleStaticRead]: the answer keeps the
    identifier of the message. *)
Definition staticRead (id random : Z) (desc : list Z) (objs : reads) : T Answer :=
  ' (txnId, clientClock) <- decodeDesc random desc ;;
  askTM id (readStaticTMRequest (Some clientClock) objs)
    (fun r => match r with StaticReadReply states ts => Some (CreateStaticReadResp states txnId ts) | _ => None end).
Definition handleStaticReadObjects (id random : Z) (desc : list Z) (objs : list KeyParams) : T Answer :=
  staticRead id random desc (ProtoObjectsToAntidoteObjects StateReadArguments objs).
Definition handleStaticRead (id random : Z) (desc : list Z) (full : list KeyParams) (partial : reads) : T Answer :=
  staticRead id random desc (ProtoReadToAntidoteObjects StateReadArguments full partial).

(** [clientClock] is not used by the transaction manager. *)
Definition handleStaticUpdateObjects (id random : Z) (desc : list Z) (upds : updates) : T Answer :=
  ' (_, clientClock) <- decodeDesc random desc ;;
  askTM id (updateStaticTMRequest upds)
    (fun r => match r with StaticUpdateReply txn ts => Some (CreateCommitOkResp txn ts) | _ => None end).

Definition readInTxn (id random : Z) (desc : list Z) (objs : reads) : T Answer :=
  ' (txnId, clientClock) <- decodeDesc random desc ;;
  askTM id (readTMRequest txnId clientClock objs)
    (fun r => match r with ReadReply states => Some (ApbReadObjectsResp states) | _ => None end).
Definition handleReadObjects (id random : Z) (desc : list Z) (objs : list KeyParams) : T Answer :=
  readInTxn id random desc (ProtoObjectsToAntidoteObjects StateReadArguments objs).
Definition handleRead (id random : Z) (desc : list Z) (full : list KeyParams) (partial : reads) : T Answer :=
  readInTxn id random desc (ProtoReadToAntidoteObjects StateReadArguments full partial).

Definition handleUpdateObjects (id random : Z) (desc : list Z) (upds : updates) : T Answer :=
  ' (txnId, _) <- decodeDesc random desc ;;
  askTM id (updateTMRequest txnId upds) (fun r => match r with UpdateReply => Some ApbOperationResp | _ => None end).

Definition handleStartTxn (id random : Z) (desc : list Z) : T Answer :=
  ' (_, clientClock) <- decodeDesc random desc ;;
  askTM id (startTxnTMRequest (Some clientClock))
    (fun r => match r with StartReply txn ts => Some (CreateStartTransactionResp txn ts) | _ => None end).

(** The answer does not wait for the transaction manager. *)
Definition handleAbortTxn (id random : Z) (desc : list Z) : T Answer :=
  ' (txnId, clientClock) <- decodeDesc random desc ;;
  _ <- handleTMRequest id (abortTMRequest txnId) ;;
  ret (CreateCommitOkResp txnId clientClock).

Definition handleCommitTxn (id random : Z) (desc : list Z) : T Answer :=
  ' (txnId, _) <- decodeDesc random desc ;;
  askTM id (commitTMRequest txnId)
    (fun r => match r with CommitReply ts => Some (CreateCommitOkResp txnId ts) | _ => None end).

(** One round of the loop: the code of the answer and the answer. *)
Definition processMsg (id random : Z) (m : ClientMsg) : T (Z * Answer) :=
  match m with
  | ApbReadObjects d objs => r <- handleReadObjects id random d objs ;; ret (ReadObjsReply, r)
  | ApbRead d full partial => r <- handleRead id random d full partial ;; ret (ReadObjsReply, r)
  | ApbUpdateObjects d upds => r <- handleUpdateObjects id random d upds ;; ret (OpReply, r)
  | ApbStartTransaction d => r <- handleStartTxn id random d ;; ret (StartTransReply, r)
  | ApbAbortTransaction d => r <- handleAbortTxn id random d ;; ret (CommitTransReply, r)
  | ApbCommitTransaction d => r <- handleCommitTxn id random d ;; ret (CommitTransReply, r)
  | ApbStaticUpdateObjects d upds => r <- handleStaticUpdateObjects id random d upds ;; ret (CommitTransReply, r)
  | ApbStaticReadObjects d objs => r <- handleStaticReadObjects id random d objs ;; ret (StaticReadObjsReply, r)
  | ApbStaticRead d full partial => r <- handleStaticRead id random d full partial ;; ret (StaticReadObjsReply, r)
  end.

(** The loop, until the connection is closed. *)
Fixpoint processConnection (id : Z) (msgs : list (SessionEnv State * Z * ClientMsg)) (s : ongoingTxn)
  : option (list (Z * Answer) * ongoingTxn * list TOut) :=
  match msgs with
  | [] => Some ([], s, [])
  | (e, random, m) :: msgs =>
      match processMsg id random m e s with
      | None => None
      | Some (r, s1, o1) =>
          match processConnection id msgs s1 with
          | None => None
          | Some (rs, s2, o2) => Some (r :: rs, s2, o1 ++ o2)
          end
      end
  end.

(** What a client keeps of an answer for its next message. *)
Definition descriptorOf (a : Answer) : option (list Z) :=
  match a with
  | ApbStaticReadObjectsResp _ d | ApbStartTransactionResp d | ApbCommitResp d => Some d
  | _ => None
  end.
End protocol.
