(* ===== verification/ClientProtocolSpec.v ===== *)
(** * The protocol of clients: what descriptors carry

    Theorems about file ClientProtocol: the messages of a transaction reach the
    partitions with the identifier and the clock of its start; static reads with
    the descriptors of answers do not go back; the clocks of static updates are
    not used. *)

From S2P Require Import Prelude ClockSI ClockCodec Effects Keys PartitionClock VersionManager.
From S2P Require Import Materializer CommitReplies TransactionManager ServerToServer ServerToServerSpec ServerAsked.
From S2P Require Import ClientProtocol.
From Stdlib Require Import ZArith Lia Bool.
From stdpp Require Import base tactics numbers strings gmap sorting list.
#[local] Open Scope Z_scope.
#[local] Open Scope eff_scope.

Section spec.
Context {Upd RArgs State : Type} `{HHash : KeyHash} (StateReadArguments : RArgs).
Abbreviation updates := (list (UpdateObjectParams Upd)).
Abbreviation reads := (list (ReadObjectParams RArgs)).
Abbreviation TOut := (TMOut Upd RArgs).
Abbreviation T := (M (SessionEnv State) ongoingTxn TOut).
Abbreviation Msg := (ClientMsg (Upd := Upd) (RArgs := RArgs)).
Abbreviation process := (processMsg (State := State) StateReadArguments).
Abbreviation processAll := (processConnection (State := State) StateReadArguments).

(** [m] returns, and all that it sends satisfies [P]. *)
Definition sends {A} (e : SessionEnv State) (P : TOut -> Prop) (m : T A) : Prop :=
  forall s, returns m e s (fun _ _ o => Forall P o).

Section rules.
Context (e : SessionEnv State) (P : TOut -> Prop).

Lemma sends_bind {A B} (m : T A) (k : A -> T B) : sends e P m -> (forall a, sends e P (k a)) -> sends e P (bind m k).
Proof.
  intros Hm Hk s. apply returns_bind. eapply returns_weaken; [apply Hm|]. intros a s' o Ho.
  eapply returns_weaken; [apply Hk|]. intros b s2 o2 Ho2. by apply Forall_app.
Qed.
Lemma sends_ret {A} (a : A) : sends e P (ret a). Proof. intros s. by apply returns_ret. Qed.
Lemma sends_ask : sends e P ask. Proof. intros s. by eexists _, _, _. Qed.
Lemma sends_ask_bind {B} (k : SessionEnv State -> T B) : sends e P (k e) -> sends e P (bind ask k).
Proof. intros Hk s. apply returns_bind. eexists _, _, _. split; [done|]. exact (Hk s). Qed.
Lemma sends_get : sends e P get. Proof. intros s. by eexists _, _, _. Qed.
Lemma sends_modify f : sends e P (modify f). Proof. intros s. by eexists _, _, _. Qed.
Lemma sends_emit o : P o -> sends e P (emit o).
Proof. intros Ho s. eexists _, _, _. split; [done|]. by constructor. Qed.
Lemma sends_must {A} (o : option A) a : o = Some a -> sends e P (must o).
Proof. intros -> s. by apply returns_ret. Qed.
Lemma sends_must_bind {A B} (o : option A) a (k : A -> T B) : o = Some a -> sends e P (k a) -> sends e P (bind (must o) k).
Proof. intros -> Hk s. apply returns_bind, returns_ret. exact (Hk s). Qed.
Lemma sends_foldM {A B} (f : B -> A -> T B) l b :
  Forall (fun x => forall b, sends e P (f b x)) l -> sends e P (foldM f l b).
Proof.
  intros Hl. revert b. induction Hl as [|x l Hx _ IH]; intros b; cbn [foldM]; [apply sends_ret|]. by apply sends_bind.
Qed.
End rules.

(** ** Transactions *)

(** What a transaction sends: its identifier, and its clock with the reads. *)
Definition carries (txn : Z) (clk : vclock) (o : TOut) : Prop :=
  match o with
  | ToPart _ (MatRead _ ts t) => ts = clk /\ t = txn
  | ToPart _ (MatWrite _ t) | ToPart _ (MatPrepare t) | ToPart _ (MatAbort t) => t = txn
  | ToPart _ (MatCommit args) => TransactionId args = txn
  | ToCommitChan (TMCommitNPartitions _ t _) => t = txn
  | UpdsToServers _ | ReadsToServers _ => True
  | _ => False
  end.

(** The messages of a transaction with descriptor [d], on objects that have a
    place. *)
Definition ofTxn (d : list Z) (c : TMConfig) (m : Msg) : Prop :=
  match m with
  | ApbReadObjects d' objs => d' = d /\ Forall (read_placed c) (ProtoObjectsToAntidoteObjects StateReadArguments objs)
  | ApbRead d' full partial => d' = d /\ Forall (read_placed c) (ProtoReadToAntidoteObjects StateReadArguments full partial)
  | ApbUpdateObjects d' upds => d' = d /\ Forall (placed c) upds
  | ApbCommitTransaction d' | ApbAbortTransaction d' => d' = d
  | _ => False
  end.

Lemma sends_sendTo e (P : TOut -> Prop) parts req :
  (forall p, P (ToPart p req)) -> sends e P (sendTo parts req : T _).
Proof. intros HP. apply sends_foldM, Forall_forall. intros p _ []. apply sends_emit, HP. Qed.

Lemma sends_sendReads e (P : TOut -> Prop) c toLocal (objs : reads) perServer :
  (forall part r, P (ToPart part (toLocal r))) ->
  Forall (read_placed c) objs -> length perServer = nServers c ->
  sends e P (sendReads c toLocal objs perServer : T _).
Proof.
  intros HP Hp. revert perServer. induction Hp as [|r objs Hr _ IH]; intros perServer Hl; cbn [sendReads]; [apply sends_ret|].
  unfold read_placed in Hr. destruct (getReadLocation c (Bucket (read_key r))) as [[[] i]|]; [| |done].
  - destruct (addTo_ok perServer i r) as (xs & E & Hlx & _); [lia|].
    eapply sends_must_bind; [reflexivity|]. eapply sends_must_bind; [exact E|]. apply IH. congruence.
  - eapply sends_must_bind; [reflexivity|]. apply sends_bind; [by apply sends_emit|]. intros _. by apply IH.
Qed.

Lemma sends_readAll (e : SessionEnv State) (P : TOut -> Prop) toLocal (objs : reads) :
  (forall part r, P (ToPart part (toLocal r))) -> (forall l, P (ReadsToServers l)) ->
  Forall (read_placed (config e)) objs -> sends e P (readAll toLocal objs : T _).
Proof.
  intros HP HS Hp. unfold readAll. apply sends_ask_bind.
  apply sends_bind; [apply sends_sendReads; [done..|by rewrite length_replicate]|intros perServer].
  apply sends_bind; [|intros; apply sends_ret]. destruct (existsb _ _); [by apply sends_emit|apply sends_ret].
Qed.

Lemma sends_update (e : SessionEnv State) txn clk upds :
  Forall (placed (config e)) upds -> sends e (carries txn clk) (handleTMUpdate txn upds : T _).
Proof.
  intros Hp. destruct (groupWrites_ok (config e) upds Hp) as (g & Eg & _).
  unfold handleTMUpdate. apply sends_ask_bind. eapply sends_must_bind; [exact Eg|].
  apply sends_bind.
  - apply sends_foldM, Forall_forall. intros p _ []. apply sends_bind; [apply sends_modify|intros _]. by apply sends_emit.
  - intros _. destruct (hasRemote g); [by apply sends_emit|apply sends_ret].
Qed.

Lemma sends_commit (e : SessionEnv State) txn clk : sends e (carries txn clk) (handleTMCommit txn : T _).
Proof.
  unfold handleTMCommit, set_clkInUse, reset.
  repeat first [ apply sends_sendTo; done | apply sends_modify | apply sends_get | apply sends_ask | apply sends_ret
               | apply sends_emit; done | apply sends_bind; [|intros ?] ].
Qed.

Lemma sends_abort (e : SessionEnv State) txn clk : sends e (carries txn clk) (handleTMAbort txn : T _).
Proof.
  unfold handleTMAbort, set_clkInUse, reset.
  repeat first [ apply sends_sendTo; done | apply sends_modify | apply sends_get | apply sends_ask | apply sends_ret
               | apply sends_bind; [|intros ?] ].
Qed.

(** A request whose reply is [g] of the result of [m]. *)
Lemma sends_askTM {A B} (e : SessionEnv State) (P : TOut -> Prop) id request (m : T A) (g : A -> TMReply)
  (f : TMReply (State := State) -> option B) :
  handleTMRequest id request = bind m (fun x => ret (g x)) -> sends e P m -> (forall x, is_Some (f (g x))) ->
  sends e P (askTM id request f).
Proof.
  intros E Hm Hf. unfold askTM. rewrite E. intros s. destruct (Hm s) as (x & s1 & o & Er & Ho).
  destruct (Hf x) as [y Hy]. exists y, s1, o. unfold bind. rewrite Er. cbn [ret]. rewrite Hy. cbn.
  by rewrite !app_nil_r.
Qed.

(** A message of a transaction. *)
Lemma sends_ofTxn id random d txn clk (m : Msg) (e : SessionEnv State) :
  DecodeTxnDescriptor random d = Some (txn, clk) -> ofTxn d (config e) m ->
  sends e (carries txn clk) (process id random m).
Proof.
  intros Hd Hm. destruct m; try done; cbn [ofTxn] in Hm; cbn [processMsg];
    try (destruct Hm as [-> Ho]); try subst; (apply sends_bind; [|intros; apply sends_ret]).
  - eapply sends_must_bind; [exact Hd|]. eapply sends_askTM; [reflexivity| |done]. by apply sends_readAll.
  - eapply sends_must_bind; [exact Hd|]. eapply sends_askTM; [reflexivity| |done]. by apply sends_readAll.
  - eapply sends_must_bind; [exact Hd|]. eapply sends_askTM; [reflexivity| |done]. by apply sends_update.
  - eapply sends_must_bind; [exact Hd|]. apply sends_bind; [|intros; apply sends_ret].
    cbn [handleTMRequest]. apply sends_bind; [apply sends_abort|intros; apply sends_ret].
  - eapply sends_must_bind; [exact Hd|]. eapply sends_askTM; [reflexivity| |done]. apply sends_commit.
Qed.

Lemma processAll_sends id (P : TOut -> Prop) (msgs : list (SessionEnv State * Z * Msg)) s :
  Forall (fun p => sends (fst (fst p)) P (process id (snd (fst p)) (snd p))) msgs ->
  exists rs s' o, processAll id msgs s = Some (rs, s', o) /\ length rs = length msgs /\ Forall P o.
Proof.
  intros Hm. revert s. induction Hm as [|[[e random] m] msgs Hs _ IH]; intros s; cbn [processConnection].
  - by exists [], s, [].
  - destruct (Hs s) as (r & s1 & o1 & E & Ho). cbn [fst snd] in E. rewrite E.
    destruct (IH s1) as (rs & s2 & o2 & -> & Hl & Ho2). exists (r :: rs), s2, (o1 ++ o2).
    split; [done|]. cbn. split; [by f_equal|by apply Forall_app].
Qed.

(** C6. Transactions of clients: the answer to the start of a transaction is a
    descriptor with which every later message of the transaction is served: each
    gets an answer, its reads ask the partitions for the version at the clock of
    the start, and its reads, writes, prepares, commits and aborts carry the
    identifier that the start gave it. *)
Theorem descriptor_carries_the_transaction (id random txn0 : Z) (tx : list Z) (clk0 : vclock)
  (e : SessionEnv State) (s : ongoingTxn) :
  inU 64 (newTxnId e) -> DecodeTxnDescriptor random tx = Some (txn0, clk0) ->
  exists clk t o s1 o1,
    (getClockToUse (Some clk0) id : T _) e s = Some (clk, t, o) /\
    process id random (ApbStartTransaction tx : Msg) e s =
      Some ((StartTransReply, ApbStartTransactionResp (createTxnDescriptorBytes (newTxnId e) clk)), s1, o1) /\
    forall msgs : list (SessionEnv State * Z * Msg), clock_ok clk ->
      Forall (fun p => ofTxn (createTxnDescriptorBytes (newTxnId e) clk) (config (fst (fst p))) (snd p)) msgs ->
      exists rs s2 o2, processAll id msgs s1 = Some (rs, s2, o2) /\ length rs = length msgs /\
        Forall (carries (newTxnId e) clk) o2.
Proof.
  intros Hid Hd.
  assert (Hc : exists clk t o, (getClockToUse (Some clk0) id : T _) e s = Some (clk, t, o)).
  { unfold getClockToUse, bind, ask, set_clkInUse, modify. destruct (IsEqual _ _); by eexists _, _, _. }
  destruct Hc as (clk & t & o & Ec). eexists clk, t, o, _, _. split; [exact Ec|]. split.
  - cbn [processMsg]. unfold handleStartTxn, decodeDesc, askTM. rewrite Hd. cbn [handleTMRequest].
    unfold handleTMStartTxn, bind, must, ret. rewrite Ec. unfold ask, modify. cbn. reflexivity.
  - intros msgs Hok Hm. apply processAll_sends. apply Forall_forall. intros [[e' r] m] Hin.
    rewrite Forall_forall in Hm. cbn [fst snd].
    apply (sends_ofTxn id r (createTxnDescriptorBytes (newTxnId e) clk)); [|exact (Hm _ Hin)].
    rewrite descriptor_read_back by done. by rewrite wrapU_id.
Qed.

(** ** Static transactions *)

(** What a static read sends. *)
Definition readsAt (clk : vclock) (o : TOut) : Prop :=
  match o with
  | ToPart _ (MatStaticRead _ ts) => ts = clk
  | ReadsToServers _ | ToCommitChan (TMWait _) => True
  | _ => False
  end.

Lemma readAll_states (e : SessionEnv State) toLocal (objs : reads) s l s' o :
  (readAll toLocal objs : T _) e s = Some (l, s', o) -> l = readState e <$> seq 0 (length objs).
Proof.
  unfold readAll, bind at 1, ask. unfold bind at 1. destruct (sendReads _ _ _ _ _ _) as [[[ps s1] o1]|]; [|done].
  unfold bind. destruct (existsb _ ps); cbn; by intros [= <- _ _].
Qed.

Lemma static_read_goes_forward id random txn clk full (partial : reads) (e : SessionEnv State) (s : ongoingTxn) :
  inU 64 txn -> clock_ok clk -> same_dom (localClk e) clk -> same_dom (localClk e) (releasedClk e) ->
  IsLowerOrEqual (ClockSI.Merge (localClk e) (Some clk)) (Some (releasedClk e)) = true ->
  Forall (read_placed (config e)) (ProtoReadToAntidoteObjects StateReadArguments full partial) ->
  exists clk' s' o,
    process id random (ApbStaticRead (createTxnDescriptorBytes txn clk) full partial : Msg) e s =
      Some ((StaticReadObjsReply, ApbStaticReadObjectsResp (readState e <$> seq 0 (length full + length partial))
              (createTxnDescriptorBytes txn clk')), s', o) /\
    vle clk clk' /\ vle (localClk e) clk' /\ Forall (readsAt clk') o.
Proof.
  intros Htxn Hok Hd1 Hd2 Hrel Hp.
  destruct (read_clock_covers_the_client (Upd := Upd) (RArgs := RArgs) e s clk id Hd1 Hd2 Hrel)
    as (clk' & s1 & o1 & Ec & Hv1 & Hv2 & _ & Ho1).
  destruct (sends_readAll e (readsAt clk') (fun r => MatStaticRead r clk')
    (ProtoReadToAntidoteObjects StateReadArguments full partial) ltac:(done) ltac:(done) Hp s1)
    as (l & s2 & o2 & Er & Ho2).
  assert (El := readAll_states _ _ _ _ _ _ _ Er). rewrite objects_length in El.
  exists clk', (mkOngoing (txnId s2) (partitions s2) (originalClk s2) None), (o1 ++ o2).
  split; [|split; [done|split; [done|]]].
  - cbn [processMsg]. unfold handleStaticRead, staticRead, decodeDesc, askTM. rewrite descriptor_read_back by done.
    rewrite wrapU_id by done. cbn [handleTMRequest]. unfold handleStaticTMRead, bind, must, ret. rewrite Ec, Er, El.
    unfold set_clkInUse, modify. cbn. by rewrite !app_nil_r.
  - apply Forall_app. split; [|done]. destruct Ho1 as [->| ->]; [constructor|]. by repeat constructor.
Qed.


(** Writes do not follow reads: a static update is served alike whatever clock
    its client has read, so nothing puts its commit clock above that clock. *)
Theorem static_updates_ignore_the_clock (id random : Z) (d1 d2 : list Z) (upds : updates) (e : SessionEnv State) (s : ongoingTxn) :
  is_Some (DecodeTxnDescriptor random d1) -> is_Some (DecodeTxnDescriptor random d2) ->
  process id random (ApbStaticUpdateObjects d1 upds : Msg) e s = process id random (ApbStaticUpdateObjects d2 upds : Msg) e s.
Proof.
  intros [[t1 c1] E1] [[t2 c2] E2]. cbn [processMsg]. unfold handleStaticUpdateObjects, decodeDesc. by rewrite E1, E2.
Qed.
End spec.

(** ** Witnesses *)

Module ProtocolExample.
#[local] Existing Instance TMExample.hash.
Definition key : KeyParams := mkKey "k" 0 "b".
Definition start : vclock := {[1 := 4; 2 := 0]}.
Definition written : vclock := {[1 := 5; 2 := 0]}.
Definition desc : list Z := createTxnDescriptorBytes 77 start.
Definition msgs : list (SessionEnv Z * Z * ClientMsg (Upd := Z) (RArgs := Z)) :=
  [(TMExample.env, 0, ApbUpdateObjects desc [TMExample.local2]); (TMExample.env, 0, ApbRead desc [key] []);
   (TMExample.env, 0, ApbCommitTransaction desc)].

Lemma clock_ok_two (x y : Z) : inS 64 x -> inS 64 y -> clock_ok {[1 := x; 2 := y]}.
Proof.
  intros Hx Hy. split.
  - intros E. apply (f_equal (fun m : vclock => m !! 1)) in E. by rewrite lookup_insert_eq in E.
  - intros k v H. apply lookup_insert_Some in H as [[<- <-]|[_ [<- <-]%lookup_singleton_Some]]; split; (done || unfold inS; lia).
Qed.
End ProtocolExample.
#[local] Existing Instance TMExample.hash.

Lemma descriptor_carries_the_transaction_witness :
  exists rs s1 s2 o2, processConnection 0 3 ProtocolExample.msgs s1 = Some (rs, s2, o2) /\ length rs = 3%nat /\
    Forall (carries 77 ProtocolExample.start) o2.
Proof.
  destruct (descriptor_carries_the_transaction (Upd := Z) (State := Z) 0 3 9 9 [] {[0 := 0]} TMExample.env
    (newSession TMExample.conf)) as (clk & t & o & s1 & o1 & Ec & _ & H); [split; vm_compute; done|reflexivity|].
  assert (Eclk : clk = ProtocolExample.start) by (vm_compute in Ec; injection Ec as <- _ _; reflexivity). subst clk.
  destruct (H ProtocolExample.msgs) as (rs & s2 & o2 & E & Hl & Ho).
  - apply ProtocolExample.clock_ok_two; unfold inS; lia.
  - repeat constructor; vm_compute; done.
  - exists rs, s1, s2, o2. exact (conj E (conj Hl Ho)).
Defined.

