(* ===== verification/Maintenance.v ===== *)
(** * Routines of the server: garbage collection, client identifiers, rights

    garbageCollector.go, bcManager.go and the identifiers of clients in
    transactionManager.go (src/potionDB/components).  The garbage collector asks
    the partitions to forget the versions below every clock that a client reads
    with; it finds these clocks at the identifiers that [generateTMIDs] gives out
    and takes back.  The manager of bounded counters asks the partitions which
    rights they need and sends their requests to other servers.

    A routine's round is a definition; [None] is a panic. *)

From S2P Require Import Prelude ClockSI Effects Keys PartitionClock VersionManager Materializer CommitReplies.
From S2P Require Import TransactionManager ServerToServer.
From Stdlib Require Import ZArith Lia Bool.
From stdpp Require Import base tactics numbers strings gmap sorting list.
#[local] Open Scope Z_scope.

(** ** Identifiers of clients *)

(** [newIDChan] has room for ten; [clksInUse] starts with a hundred nils. *)
Record IdState := mkIds {
  currMaxAvailableID : nat; reusableIDs : list nat; newIDChan : list nat; canReuseIDChan : list nat;
  clksInUse : list Timestamp; maxIDInUse : nat }.

Definition newIds : IdState := mkIds 0 [] [] [] (replicate 100 None) 0.

(** A round of [generateTMIDs], when [newIDChan] has room: the last reusable
    identifier or a new one; then the identifiers of clients that left. *)
Definition generateTMIDs (s : IdState) : option IdState :=
  if (length (newIDChan s) <? 10)%nat then
    let s1 :=
      match last (reusableIDs s) with
      | Some id =>
          mkIds (currMaxAvailableID s) (take (length (reusableIDs s) - 1) (reusableIDs s)) (newIDChan s ++ [id])
            (canReuseIDChan s) (clksInUse s) (maxIDInUse s)
      | None =>
          let m := S (currMaxAvailableID s) in
          mkIds m (reusableIDs s) (newIDChan s ++ [currMaxAvailableID s]) (canReuseIDChan s)
            (if (m =? length (clksInUse s))%nat then clksInUse s ++ [None] else clksInUse s) (maxIDInUse s)
      end in
    Some (mkIds (currMaxAvailableID s1) (reusableIDs s1 ++ canReuseIDChan s1) (newIDChan s1) [] (clksInUse s1) (maxIDInUse s1))
  else None.

(** The identifier, from the channel; [None] if it is empty. *)
Definition CreateClientHandler (s : IdState) : option (nat * IdState) :=
  match newIDChan s with
  | [] => None
  | id :: rest =>
      Some (id, mkIds (currMaxAvailableID s) (reusableIDs s) rest (canReuseIDChan s) (clksInUse s) (S (maxIDInUse s)))
  end.

(** [tm.clksInUse[id] = clk]. *)
Definition setClkInUse (id : nat) (clk : Timestamp) (s : IdState) : option IdState :=
  if (id <? length (clksInUse s))%nat
  then Some (mkIds (currMaxAvailableID s) (reusableIDs s) (newIDChan s) (canReuseIDChan s) (<[id := clk]> (clksInUse s)) (maxIDInUse s))
  else None.

(** A client that leaves. *)
Definition lostConn (id : nat) (s : IdState) : option IdState :=
  s ← setClkInUse id None s;
  Some (mkIds (currMaxAvailableID s) (reusableIDs s) (newIDChan s) (canReuseIDChan s ++ [id]) (clksInUse s) (maxIDInUse s)).

(** ** Garbage collection *)

(** The loop over the clocks in use; [None]: an index out of range. *)
Fixpoint safeClk_loop (clksInUse : list Timestamp) (idxs : list nat) (safeClk : vclock) (anyOngoing : bool)
  : option (vclock * bool) :=
  match idxs with
  | [] => Some (safeClk, anyOngoing)
  | i :: idxs =>
      match clksInUse !! i with
      | None => None
      | Some None => safeClk_loop clksInUse idxs safeClk anyOngoing
      | Some (Some clk) =>
          if IsLower clk (Some safeClk) then safeClk_loop clksInUse idxs clk true
          else safeClk_loop clksInUse idxs safeClk anyOngoing
      end
  end.

Definition findSafeClk (HighestTs tmClk : vclock) (s : IdState) : option vclock :=
  r ← safeClk_loop (clksInUse s) (seq 0 (maxIDInUse s)) HighestTs false;
  Some (if (r.2 : bool) then r.1 else tmClk).

(** A round of [cleanRoutine]: the clock sent to the partitions, if it is not
    that of the last round, and the clock of this one. *)
Definition cleanRoutine (HighestTs tmClk : vclock) (s : IdState) (lastCleanClk : Timestamp)
  : option (option vclock * Timestamp) :=
  safeClk ← findSafeClk HighestTs tmClk s;
  Some (if IsEqual safeClk lastCleanClk then (None, lastCleanClk)
        else (Some safeClk, Some (ClockSI.Copy safeClk))).

(** ** Rights of bounded counters *)

Section rights.
Context {Upd RArgs : Type}.

(** [bcPermsPerServer], for the replicas that are known at the start. *)
Definition emptyPerms (replicaIDs : list Z) (nParts : nat) : gmap Z (list (gmap KeyParams Z)) :=
  list_to_map ((fun id => (id, replicate nParts ∅)) <$> replicaIDs).

(** The answer of a partition; a replica that is not known has a nil slice. *)
Definition addPermsReply (perms : gmap Z (list (gmap KeyParams Z))) (ReqsMap : list (Z * gmap KeyParams Z)) (PartID : Z)
  : option (gmap Z (list (gmap KeyParams Z))) :=
  Prelude.foldM (fun perms '(serverID, objPerms) =>
    if (size (objPerms : gmap KeyParams Z) =? 0)%nat then Some perms
    else
      l ← perms !! serverID;
      if (0 <=? PartID) && (PartID <? Z.of_nat (length l))
      then Some (<[serverID := <[Z.to_nat PartID := objPerms]> l]> perms) else None) perms ReqsMap.

(** A round of the timer: the messages for the replicas that are asked, each to
    the server [replicaIDToIndex] gives; [random] is [rng.Int63]. *)
Definition StartBCTimer_round (replicaIDs : list Z) (nParts : nat) (replies : list (gmap Z (gmap KeyParams Z) * Z))
  (replicaIDToIndex : Z -> nat) (random : Z -> Z) (serverID : Z)
  : option (list (RemoteOut (Upd := Upd) (RArgs := RArgs))) :=
  perms ← Prelude.foldM (fun perms '(reqsMap, partID) => addPermsReply perms (map_to_list reqsMap) partID)
            (emptyPerms replicaIDs nParts) replies;
  Some ((fun p => SendRequest (replicaIDToIndex p.1) false
           (mkWrapper (int32 (random p.1)) (CreateBCPermissionsReqProto p.2 serverID))) <$>
    List.filter (fun p => existsb (fun m => negb (size (m : gmap KeyParams Z) =? 0)%nat) p.2) (map_to_list perms)).
End rights.

(** ** Identifiers are not shared *)

Inductive IdEvent := Generate | Connect | Leave (id : nat) | Use (id : nat) (clk : Timestamp).

(** The clients that are connected, with the state. *)
Definition idStep (ev : IdEvent) (st : IdState * list nat) : option (IdState * list nat) :=
  match ev with
  | Generate => s ← generateTMIDs st.1; Some (s, st.2)
  | Connect => r ← CreateClientHandler st.1; Some (r.2, r.1 :: st.2)
  | Leave id => if decide (id ∈ st.2) then s ← lostConn id st.1; Some (s, filter (.≠ id) st.2) else None
  | Use id clk => if decide (id ∈ st.2) then s ← setClkInUse id clk st.1; Some (s, st.2) else None
  end.

(** Every identifier is at one place: at a client, waiting for one, or left by
    one; and it is an index of [clksInUse]. *)
Definition idPlaces (st : IdState * list nat) : list nat :=
  st.2 ++ newIDChan st.1 ++ reusableIDs st.1 ++ canReuseIDChan st.1.

Definition ids_ok (st : IdState * list nat) : Prop :=
  NoDup (idPlaces st) /\ Forall (fun id => id < currMaxAvailableID st.1)%nat (idPlaces st) /\
  (currMaxAvailableID st.1 < length (clksInUse st.1))%nat.

Lemma ids_ok_perm (st st' : IdState * list nat) :
  idPlaces st' ≡ₚ idPlaces st -> currMaxAvailableID st'.1 = currMaxAvailableID st.1 ->
  length (clksInUse st'.1) = length (clksInUse st.1) -> ids_ok st -> ids_ok st'.
Proof. intros Hp E1 E2 (H1 & H2 & H3). unfold ids_ok. by rewrite Hp, E1, E2. Qed.

Lemma setClkInUse_shape id clk s s' :
  setClkInUse id clk s = Some s' ->
  currMaxAvailableID s' = currMaxAvailableID s /\ reusableIDs s' = reusableIDs s /\ newIDChan s' = newIDChan s /\
  canReuseIDChan s' = canReuseIDChan s /\ length (clksInUse s') = length (clksInUse s).
Proof.
  unfold setClkInUse. destruct (id <? length (clksInUse s))%nat; [|done]. intros [= <-]. cbn. by rewrite length_insert.
Qed.

Lemma filter_one_Permutation (id : nat) (l : list nat) :
  NoDup l -> id ∈ l -> l ≡ₚ id :: filter (.≠ id) l.
Proof.
  intros Hnd Hin. apply NoDup_Permutation; [done| |].
  - constructor; [rewrite list_elem_of_filter; tauto|by apply NoDup_filter].
  - intros x. rewrite elem_of_cons, list_elem_of_filter. destruct (decide (x = id)) as [->|]; tauto.
Qed.

Lemma ids_ok_step ev st st' : ids_ok st -> idStep ev st = Some st' -> ids_ok st'.
Proof.
  intros Hok E. destruct st as [s open]. destruct ev as [| |id|id clk]; cbn [idStep fst snd] in E.
  - unfold generateTMIDs in E. destruct (length (newIDChan s) <? 10)%nat; [|done]. cbn -[Nat.eqb] in E.
    destruct (last (reusableIDs s)) as [id|] eqn:El; injection E as <-.
    + apply (ids_ok_perm (s, open)); try done. unfold idPlaces. cbn.
      apply last_Some in El as [l El]. rewrite El, length_app. cbn. rewrite Nat.add_sub, take_app_length.
      rewrite app_nil_r. solve_Permutation.
    + destruct Hok as (H1 & H2 & H3). unfold idPlaces in *. cbn -[Nat.eqb] in *.
      assert (Hp : open ++ (newIDChan s ++ [currMaxAvailableID s]) ++ (reusableIDs s ++ canReuseIDChan s) ++ [] ≡ₚ
        currMaxAvailableID s :: (open ++ newIDChan s ++ reusableIDs s ++ canReuseIDChan s)) by (rewrite app_nil_r; solve_Permutation).
      unfold ids_ok, idPlaces. split; [|split]; cbn -[Nat.eqb].
      * rewrite Hp. constructor; [|done]. intros Hin. rewrite Forall_forall in H2. specialize (H2 _ Hin). lia.
      * rewrite Hp. constructor; [lia|]. eapply Forall_impl; [exact H2|]. cbn. lia.
      * destruct (length (clksInUse s)) as [|k] eqn:Ek; [lia|].
        destruct (Nat.eqb_spec (currMaxAvailableID s) k); rewrite ?length_app, ?Ek; cbn; lia.
  - unfold CreateClientHandler in E. destruct (newIDChan s) as [|id rest] eqn:Ec; [done|]. injection E as <-.
    apply (ids_ok_perm (s, open)); try done. unfold idPlaces. cbn. rewrite Ec. solve_Permutation.
  - destruct (decide (id ∈ open)) as [Hin|]; [|done]. unfold lostConn in E.
    destruct (setClkInUse id None s) as [s1|] eqn:Es; [|done]. cbn in E. injection E as <-.
    destruct (setClkInUse_shape _ _ _ _ Es) as (E1 & E2 & E3 & E4 & E5).
    apply (ids_ok_perm (s, open)); [|cbn; congruence|cbn; congruence|done]. unfold idPlaces. cbn. rewrite E2, E3, E4.
    assert (Hnd : NoDup open) by (destruct Hok as (H1 & _); unfold idPlaces in H1; cbn in H1; by apply NoDup_app in H1 as [? _]).
    rewrite (filter_one_Permutation id open Hnd Hin) at 2. solve_Permutation.
  - destruct (decide (id ∈ open)) as [Hin|]; [|done].
    destruct (setClkInUse id clk s) as [s1|] eqn:Es; [|done]. cbn in E. injection E as <-.
    destruct (setClkInUse_shape _ _ _ _ Es) as (E1 & E2 & E3 & E4 & E5).
    apply (ids_ok_perm (s, open)); [|cbn; congruence|cbn; congruence|done]. unfold idPlaces. cbn. by rewrite E2, E3, E4.
Qed.

(** Fresh identifiers are given out in order, so that no client has one at or
    above the number of connections. *)
Definition ids_counted (st : IdState * list nat) : Prop :=
  exists f, (f <= maxIDInUse st.1)%nat /\ (f <= currMaxAvailableID st.1)%nat /\
    Forall (fun id => id < f)%nat (st.2 ++ reusableIDs st.1 ++ canReuseIDChan st.1) /\
    filter (fun id => f <= id)%nat (newIDChan st.1) = seq f (currMaxAvailableID st.1 - f).

Lemma filter_agree {A} (P Q : A -> Prop) `{!forall x, Decision (P x), !forall x, Decision (Q x)} (l : list A) :
  (forall x, x ∈ l -> P x <-> Q x) -> filter P l = filter Q l.
Proof.
  induction l as [|x l IH]; intros Hpq; [done|]. rewrite !filter_cons.
  rewrite IH by (intros; apply Hpq; by right). assert (Hx := Hpq x ltac:(by left)).
  repeat case_decide; tauto.
Qed.

Lemma seq_snoc f n : (f <= n)%nat -> seq f (S n - f) = seq f (n - f) ++ [n].
Proof.
  intros H. replace (S n - f)%nat with (S (n - f)) by lia. rewrite seq_S. by replace (f + (n - f))%nat with n by lia.
Qed.

Lemma ids_counted_generate s s' open : ids_counted (s, open) -> generateTMIDs s = Some s' -> ids_counted (s', open).
Proof.
  intros (f & H1 & H2 & H3 & H4) E. cbn [fst snd] in *.
  unfold generateTMIDs in E. destruct (length (newIDChan s) <? 10)%nat; [|done].
  destruct (last (reusableIDs s)) as [id|] eqn:El; cbn -[Nat.eqb] in E; injection E as <-; exists f; cbn -[Nat.sub];
    rewrite ?app_nil_r.
  - apply last_Some in El as [l El]. rewrite El in *. rewrite length_app, Nat.add_sub, take_app_length.
    rewrite !Forall_app, Forall_singleton in H3. destruct H3 as (Ho & (Hl & Hid) & Hc).
    split; [done|split; [done|split; [by rewrite !Forall_app|]]].
    by rewrite filter_app, H4, filter_cons_False, app_nil_r by lia.
  - split; [done|split; [lia|split; [done|]]].
    by rewrite filter_app, H4, filter_cons_True, seq_snoc by lia.
Qed.

Lemma ids_counted_connect s s' id open :
  ids_counted (s, open) -> CreateClientHandler s = Some (id, s') -> ids_counted (s', id :: open).
Proof.
  intros (f & H1 & H2 & H3 & H4) E. cbn [fst snd] in *.
  unfold CreateClientHandler in E. destruct (newIDChan s) as [|i rest] eqn:Ec; [done|]. injection E as -> <-.
  destruct (decide (f <= id)%nat) as [Hle|Hlt].
  - rewrite filter_cons_True in H4 by done.
    destruct (currMaxAvailableID s - f)%nat as [|k] eqn:Ek; [done|]. cbn [seq] in H4. injection H4 as -> H4.
    exists (S f). cbn -[Nat.sub]. split; [lia|split; [lia|split]].
    + constructor; [lia|]. eapply Forall_impl; [exact H3|]. cbn. lia.
    + replace (currMaxAvailableID s - S f)%nat with k by lia. rewrite <- H4. apply filter_agree. intros x Hx.
      split; [lia|]. intros Hf. assert (Hs : x ∈ seq (S f) k) by (rewrite <- H4; by apply list_elem_of_filter).
      apply elem_of_seq in Hs. lia.
  - rewrite filter_cons_False in H4 by done. exists f. cbn -[Nat.sub].
    split; [lia|split; [done|split; [|done]]]. constructor; [lia|done].
Qed.

Lemma ids_counted_step ev st st' : ids_counted st -> idStep ev st = Some st' -> ids_counted st'.
Proof.
  intros Hok E. destruct st as [s open]. destruct ev as [| |id|id clk]; cbn [idStep fst snd] in E.
  - destruct (generateTMIDs s) as [s1|] eqn:Es; [|done]. injection E as <-. by eapply ids_counted_generate.
  - destruct (CreateClientHandler s) as [[id s1]|] eqn:Es; [|done]. injection E as <-. by eapply ids_counted_connect.
  - destruct (decide (id ∈ open)) as [Hin|]; [|done]. unfold lostConn, setClkInUse in E.
    destruct (id <? length (clksInUse s))%nat; [|done]. cbn in E. injection E as <-.
    destruct Hok as (f & H1 & H2 & H3 & H4). exists f. cbn -[Nat.sub] in *. split; [done|split; [done|split; [|done]]].
    rewrite !Forall_app in H3. destruct H3 as (Ho & Hr & Hc). rewrite !Forall_app, Forall_singleton. split_and!; try done.
    + rewrite Forall_forall in Ho |- *. intros x [_ Hx]%list_elem_of_filter. by apply Ho.
    + rewrite Forall_forall in Ho. by apply Ho.
  - destruct (decide (id ∈ open)) as [Hin|]; [|done]. unfold setClkInUse in E.
    destruct (id <? length (clksInUse s))%nat; [|done]. injection E as <-.
    destruct Hok as (f & H1 & H2 & H3 & H4). by exists f.
Qed.

(** Runs of clients that come, use clocks and leave. *)
Definition idRun (evs : list IdEvent) : option (IdState * list nat) :=
  Prelude.foldM (fun st ev => idStep ev st) (newIds, []) evs.

Lemma idRun_ok evs st : idRun evs = Some st -> ids_ok st /\ ids_counted st.
Proof.
  intros E. refine (foldM_inv (fun _ st => ids_ok st /\ ids_counted st) (fun st ev => idStep ev st) (newIds, []) evs st _ _ E).
  - split; [split; [constructor|split; [constructor|cbn; lia]]|]. exists 0%nat. by split_and!.
  - intros done x rest s1 s2 _ [H1 H2] Es. split; [by eapply ids_ok_step|by eapply ids_counted_step].
Qed.

Lemma open_ids st id : ids_ok st -> ids_counted st -> id ∈ st.2 ->
  (id < length (clksInUse st.1))%nat /\ (id < maxIDInUse st.1)%nat.
Proof.
  intros (_ & H2 & H3) (f & Hf & _ & Hl & _) Hin. rewrite Forall_forall in H2. rewrite Forall_forall in Hl.
  specialize (H2 id ltac:(unfold idPlaces; set_solver)). specialize (Hl id ltac:(set_solver)). lia.
Qed.

(** Identifiers of clients: however clients come and leave, no two of them have
    the same identifier, and storing the clock that a client reads with, or
    forgetting it when the client leaves, stays within [clksInUse]. *)
Theorem clients_have_their_own_identifier (evs : list IdEvent) (st : IdState * list nat) :
  idRun evs = Some st ->
  NoDup st.2 /\ forall id clk, id ∈ st.2 -> exists s1 s2,
    setClkInUse id clk st.1 = Some s1 /\ clksInUse s1 !! id = Some clk /\ lostConn id st.1 = Some s2.
Proof.
  intros E. destruct (idRun_ok evs st E) as [Hok Hc]. split.
  - destruct Hok as (H & _). by apply NoDup_app in H as [? _].
  - intros id clk Hin. destruct (open_ids st id Hok Hc Hin) as [Hlt _].
    unfold lostConn, setClkInUse. rewrite (proj2 (Nat.ltb_lt _ _) Hlt).
    eexists _, _. split; [reflexivity|]. split; [by apply list_lookup_insert_eq|reflexivity].
Qed.

(** ** The clock to clean to *)

(** Clocks below [HighestTs] of which any two are comparable. *)
Definition chain (HighestTs : vclock) (l : list vclock) : Prop :=
  (forall c, c ∈ l -> same_dom c HighestTs /\ vle c HighestTs /\ c <> HighestTs) /\
  forall c d, c ∈ l -> d ∈ l -> vle c d \/ vle d c.

(** The clocks at the positions that are looked at. *)
Definition clksAt (clksInUse : list Timestamp) (idxs : list nat) : list vclock :=
  omap (fun i => mjoin (clksInUse !! i)) idxs.

Lemma safeClk_loop_ok HighestTs clks (idxs : list nat) (safe : vclock) (any : bool) (seen : list vclock) :
  Forall (fun i => i < length clks)%nat idxs -> chain HighestTs (seen ++ clksAt clks idxs) ->
  (if any then safe ∈ seen /\ forall c, c ∈ seen -> vle safe c else safe = HighestTs /\ seen = []) ->
  exists safe' any', safeClk_loop clks idxs safe any = Some (safe', any') /\
    (if any' then safe' ∈ seen ++ clksAt clks idxs /\ forall c, c ∈ seen ++ clksAt clks idxs -> vle safe' c
     else seen ++ clksAt clks idxs = []).
Proof.
  revert safe any seen. induction idxs as [|i idxs IH]; intros safe any seen Hl Hc Hs.
  - exists safe, any. split; [done|]. cbn. rewrite app_nil_r. destruct any; [done|]. by destruct Hs.
  - apply Forall_cons in Hl as [Hi Hl]. destruct (lookup_lt_is_Some_2 clks i Hi) as [ts Hts].
    cbn [safeClk_loop]. rewrite Hts. destruct ts as [clk|].
    + assert (Ecl : clksAt clks (i :: idxs) = clk :: clksAt clks idxs) by (unfold clksAt; cbn; by rewrite Hts).
      rewrite Ecl in Hc |- *. change (clk :: clksAt clks idxs) with ([clk] ++ clksAt clks idxs) in *.
      rewrite app_assoc in Hc |- *. destruct Hc as [Hd Hch].
      assert (Hclk := Hd clk ltac:(set_solver)). destruct Hclk as (Hdom & Hle & Hne).
      destruct any.
      * destruct Hs as [Hin Hmin]. destruct (Hd safe ltac:(set_solver)) as (Hdoms & _ & _).
        assert (Hsd : same_dom clk safe) by (unfold same_dom in *; congruence).
        destruct (IsLower clk (Some safe)) eqn:El.
        -- apply IsLower_vle in El as [Hlow _]; [|done]. apply IH; [done|done|]. split; [set_solver|].
           intros c [Hcs|Hcs]%elem_of_app; [exact (vle_trans _ _ _ Hlow (Hmin c Hcs))|].
           apply list_elem_of_singleton in Hcs as ->. apply vle_refl.
        -- apply IH; [done|done|]. split; [set_solver|]. intros c [Hcs|Hcs]%elem_of_app; [by apply Hmin|].
           apply list_elem_of_singleton in Hcs as ->. destruct (Hch clk safe ltac:(set_solver) ltac:(set_solver)) as [Hv|]; [|done].
           destruct (decide (clk = safe)) as [->|Hn]; [apply vle_refl|].
           assert (IsLower clk (Some safe) = true) by by apply IsLower_vle. congruence.
      * destruct Hs as [-> ->]. assert (El : IsLower clk (Some HighestTs) = true) by by apply IsLower_vle.
        rewrite El. apply IH; [done|done|]. split; [set_solver|]. intros c Hcs.
        apply list_elem_of_singleton in Hcs as ->. apply vle_refl.
    + assert (Ecl : clksAt clks (i :: idxs) = clksAt clks idxs) by (unfold clksAt; cbn; by rewrite Hts).
      rewrite Ecl in Hc |- *. by apply IH.
Qed.

(** C14. The garbage collector keeps what clients read: as long as there have been no
    more connections than positions in [clksInUse], its round does not panic,
    and if the clocks that clients read with are comparable, the clock it has the
    partitions clean to is at or below each of them; it is that of the server
    if no client reads. *)
Theorem clean_clock_is_below_the_clients (evs : list IdEvent) (st : IdState * list nat) (HighestTs tmClk : vclock) :
  idRun evs = Some st -> (maxIDInUse st.1 <= length (clksInUse st.1))%nat ->
  chain HighestTs (clksAt (clksInUse st.1) (seq 0 (maxIDInUse st.1))) ->
  exists c, findSafeClk HighestTs tmClk st.1 = Some c /\
    (forall id clk, id ∈ st.2 -> clksInUse st.1 !! id = Some (Some clk) -> vle c clk) /\
    (c = tmClk \/ exists i, clksInUse st.1 !! i = Some (Some c)) /\
    ((forall i clk, clksInUse st.1 !! i <> Some (Some clk)) -> c = tmClk).
Proof.
  intros E Hmax Hch. destruct (idRun_ok evs st E) as [Hok Hcnt].
  destruct (safeClk_loop_ok HighestTs (clksInUse st.1) (seq 0 (maxIDInUse st.1)) HighestTs false []) as (safe & any & El & Hs);
    [apply Forall_forall; intros i ?%elem_of_seq; lia|done|done|]. cbn [app] in Hs.
  unfold findSafeClk. rewrite El. cbn.
  assert (Hat : forall i clk, (i < maxIDInUse st.1)%nat -> clksInUse st.1 !! i = Some (Some clk) ->
    clk ∈ clksAt (clksInUse st.1) (seq 0 (maxIDInUse st.1))).
  { intros i clk Hi Hl. apply list_elem_of_omap. exists i. split; [apply elem_of_seq; lia|]. by rewrite Hl. }
  assert (Hof : forall clk, clk ∈ clksAt (clksInUse st.1) (seq 0 (maxIDInUse st.1)) ->
    exists i, clksInUse st.1 !! i = Some (Some clk)).
  { intros clk (i & _ & Hl)%list_elem_of_omap. exists i. by destruct (clksInUse st.1 !! i) as [[c|]|]; cbn in Hl; [injection Hl as ->|..]. }
  destruct any; eexists; (split; [reflexivity|]); cbn.
  - destruct Hs as [Hin Hmin]. split; [|split; [by right; apply Hof|]].
    + intros id clk Hid Hl. apply Hmin, (Hat id); [|done]. by apply (open_ids st id Hok Hcnt Hid).
    + intros Hno. destruct (Hof safe Hin) as (i & Hi). by destruct (Hno i safe).
  - split; [|split; [by left|done]]. intros id clk Hid Hl. exfalso.
    assert (H := Hat id clk (proj2 (open_ids st id Hok Hcnt Hid)) Hl). rewrite Hs in H. by apply elem_of_nil in H.
Qed.

(** Two clients whose clocks are concurrent: the first one is kept, whatever the
    second reads. *)
Theorem concurrent_clocks_are_not_kept (a b HighestTs tmClk : vclock) (rest : list Timestamp) (s : IdState) :
  same_dom a HighestTs -> vle a HighestTs -> a <> HighestTs -> same_dom b a -> ~ vle b a ->
  clksInUse s = Some a :: Some b :: rest -> maxIDInUse s = 2%nat ->
  findSafeClk HighestTs tmClk s = Some a.
Proof.
  intros Hd Hle Hne Hdb Hn E1 E2. unfold findSafeClk. rewrite E1, E2. cbn [seq safeClk_loop].
  change ((Some a :: Some b :: rest) !! 0%nat) with (Some (Some a)).
  change ((Some a :: Some b :: rest) !! 1%nat) with (Some (Some b)). cbv iota beta.
  assert (H1 : IsLower a (Some HighestTs) = true) by by apply IsLower_vle.
  assert (H2 : IsLower b (Some a) = false).
  { apply not_true_iff_false. intros [Hv _]%IsLower_vle; done. }
  by rewrite H1, H2.
Qed.

(** A client that comes and leaves, again and again. *)
Definition visits (n : nat) : list IdEvent := mjoin ((fun k => [Generate; Connect; Leave (k mod 2)]) <$> seq 0 n).

Definition afterVisits (n : nat) : IdState :=
  mkIds 2 [(n mod 2)%nat] [] [(S n mod 2)%nat] (replicate 100 None) n.

Lemma visit_step n : (2 <= n)%nat ->
  Prelude.foldM (fun st ev => idStep ev st) (afterVisits n, []) [Generate; Connect; Leave (n mod 2)] = Some (afterVisits (S n), []).
Proof.
  intros Hn. assert (Hm : forall k, (k mod 2 = 0 \/ k mod 2 = 1)%nat) by (intros k; assert (k mod 2 < 2)%nat by (apply Nat.mod_upper_bound; lia); lia).
  assert (E2 : (S (S n) mod 2 = n mod 2)%nat).
  { replace (S (S n)) with (n + 1 * 2)%nat by lia. apply Nat.Div0.mod_add. }
  unfold afterVisits. rewrite E2. cbn [Prelude.foldM idStep fst snd].
  unfold generateTMIDs. cbn [newIDChan length reusableIDs last]. cbn -[Nat.modulo replicate].
  rewrite decide_True by by left. cbn -[Nat.modulo replicate].
  unfold lostConn, setClkInUse. cbn -[Nat.modulo replicate Nat.ltb].
  assert (Hlt : (n mod 2 <? length (replicate 100 (None : Timestamp)))%nat = true).
  { rewrite length_replicate. apply Nat.ltb_lt. destruct (Hm n); lia. }
  rewrite Hlt. cbn -[Nat.modulo replicate]. rewrite decide_False by tauto.
  by rewrite list_insert_id by (apply lookup_replicate_2; destruct (Hm n); lia).
Qed.

Lemma visits_run n : (2 <= n)%nat -> idRun (visits n) = Some (afterVisits n, []).
Proof.
  intros Hn. induction n as [|n IH]; [lia|]. destruct (decide (n = 1)%nat) as [->|].
  { vm_compute. reflexivity. }
  unfold visits, idRun in *. rewrite seq_S, fmap_app, join_app, foldM_app, IH by lia.
  cbn [mbind option_bind fmap list_fmap mjoin list_join Nat.add app]. apply visit_step. lia.
Qed.

Lemma safeClk_loop_out_of_range clks (idxs : list nat) safe any i :
  i ∈ idxs -> clks !! i = None -> safeClk_loop clks idxs safe any = None.
Proof.
  revert safe any. induction idxs as [|j idxs IH]; intros safe any Hin Hi; [by apply elem_of_nil in Hin|].
  cbn [safeClk_loop]. apply elem_of_cons in Hin as [<-|Hin]; [by rewrite Hi|].
  destruct (clks !! j) as [[clk|]|]; [|by apply IH|done]. destruct (IsLower _ _); by apply IH.
Qed.

(** C33. The garbage collector counts connections, not clients: [maxIDInUse] grows
    with each connection and [clksInUse] only with the identifiers, which are
    used again.  After more than a hundred clients have come and left, one after
    the other, the next round of the garbage collector reads out of range, which
    ends the server. *)
Theorem many_connections_panic (n : nat) (HighestTs tmClk : vclock) (lastCleanClk : Timestamp) :
  (100 < n)%nat -> exists s, idRun (visits n) = Some (s, []) /\ length (clksInUse s) = 100%nat /\
    cleanRoutine HighestTs tmClk s lastCleanClk = None.
Proof.
  intros Hn. exists (afterVisits n). split; [apply visits_run; lia|]. split; [apply length_replicate|].
  unfold cleanRoutine, findSafeClk. rewrite (safeClk_loop_out_of_range _ _ _ _ 100%nat); [done| |].
  - cbn. apply elem_of_seq. lia.
  - apply lookup_ge_None_2. cbn. lia.
Qed.

(** ** Rights that are never asked for *)

(** Of the counters after the tenth, every second one. *)
Fixpoint seconds {A} (l : list A) : list A :=
  match l with
  | _ :: b :: l => b :: seconds l
  | _ => []
  end.

(** The counters that [updatePermissions] looks at. *)
Definition askedKeys (bc : bcInfo) : list KeyParams := take (nKeys bc) (bcKeys bc).

Lemma addKey_two bc k1 k2 :
  length (bcKeys bc) = nKeys bc ->
  askedKeys (addKey (addKey bc k1) k2) = askedKeys bc ++ [k2] /\
  length (bcKeys (addKey (addKey bc k1) k2)) = nKeys (addKey (addKey bc k1) k2).
Proof.
  intros Hl.
  assert (E1 : addKey bc k1 = mkBC (bcKeys bc ++ [k1]) (nKeys bc) (replicaIDs bc) (partID bc) (opsForTxn bc) (permsForReplica bc))
    by (unfold addKey; by rewrite Hl, Nat.eqb_refl).
  assert (E2 : addKey (addKey bc k1) k2 =
    mkBC (bcKeys bc ++ [k2]) (nKeys bc + 1) (replicaIDs bc) (partID bc) (opsForTxn bc) (permsForReplica bc)).
  { rewrite E1. unfold addKey. cbn [bcKeys nKeys]. rewrite length_app, Hl. cbn [length].
    destruct (Nat.eqb_spec (nKeys bc + 1) (nKeys bc)); [lia|]. cbn [replicaIDs partID opsForTxn permsForReplica].
    by rewrite <- Hl, insert_app_r_alt, Nat.sub_diag by lia. }
  rewrite E2. unfold askedKeys. cbn [bcKeys nKeys]. split; [|rewrite length_app; cbn; lia].
  rewrite !take_ge by (rewrite ?length_app; cbn; lia). done.
Qed.

Lemma addKeys_seconds (ks : list KeyParams) bc :
  length (bcKeys bc) = nKeys bc -> askedKeys (foldl addKey bc ks) = askedKeys bc ++ seconds ks.
Proof.
  remember (length ks) as m eqn:Em. revert ks Em bc. induction (lt_wf m) as [m _ IH]. intros ks -> bc Hl.
  destruct ks as [|k1 [|k2 ks]]; cbn [foldl seconds]; [by rewrite app_nil_r| |].
  - rewrite app_nil_r. unfold addKey, askedKeys. rewrite Hl, Nat.eqb_refl. cbn. by rewrite take_app_le by lia.
  - destruct (addKey_two bc k1 k2 Hl) as [E1 E2].
    rewrite (IH (length ks)) by (cbn; lia || done). rewrite E1, <- app_assoc. done.
Qed.

Lemma addKeys_fill (ks l : list KeyParams) known id ops perms :
  foldl addKey (mkBC (l ++ replicate (length ks) zeroKey) (length l) known id ops perms) ks =
    mkBC (l ++ ks) (length l + length ks) known id ops perms.
Proof.
  revert l. induction ks as [|k ks IH]; intros l; [by rewrite Nat.add_0_r|]. cbn [foldl length replicate].
  assert (E : addKey (mkBC (l ++ zeroKey :: replicate (length ks) zeroKey) (length l) known id ops perms) k =
    mkBC ((l ++ [k]) ++ replicate (length ks) zeroKey) (length (l ++ [k])) known id ops perms).
  { unfold addKey. cbn [bcKeys nKeys]. rewrite !length_app. cbn [length].
    destruct (Nat.eqb_spec (length l + S (length (replicate (length ks) zeroKey))) (length l)); [lia|].
    cbn [replicaIDs partID opsForTxn permsForReplica]. rewrite insert_app_r_alt, Nat.sub_diag by lia.
    cbn. by rewrite <- app_assoc. }
  rewrite E, IH, <- app_assoc, length_app. cbn. f_equal. lia.
Qed.

(** Bounded counters whose rights are never asked for: a partition keeps the
    first ten of its bounded counters and, after them, only every second one; the
    others never ask another replica for rights, whatever they need. *)
Theorem counters_are_forgotten (known : list Z) (part : Z) (first rest : list KeyParams) :
  length first = 10%nat ->
  askedKeys (foldl addKey (initializeBCInfo known part) (first ++ rest)) = first ++ seconds rest.
Proof.
  intros Hl. unfold initializeBCInfo. rewrite foldl_app.
  assert (E := addKeys_fill first [] known (int16 part) ∅ ∅). rewrite Hl in E. cbn [app length Nat.add] in E.
  rewrite E, addKeys_seconds by done. unfold askedKeys. cbn [bcKeys nKeys]. by rewrite take_ge by lia.
Qed.

(** ** Rights that are asked for *)

Lemma lfilter_perm {A B} (f : A -> bool) (g : B -> A) (l : list A) (k : list B) :
  l ≡ₚ g <$> k -> List.filter f l ≡ₚ g <$> List.filter (fun x => f (g x)) k.
Proof.
  intros Hp. transitivity (List.filter f (g <$> k)).
  - induction Hp as [|x l1 l2 _ IH|x y l1|l1 l2 l3 _ IH1 _ IH2]; cbn [List.filter]; [done| | |by etransitivity].
    + destruct (f x); [by constructor|done].
    + destruct (f x), (f y); try done. constructor.
  - clear Hp. induction k as [|x k IH]; [done|]. cbn [List.filter fmap list_fmap]. destruct (f (g x)); [|done].
    cbn [fmap list_fmap]. by constructor.
Qed.

Section asking.
Context {Upd RArgs State : Type} `{HHash : KeyHash} (StateReadArguments : RArgs).
Context (parts : nat) (replicaIDs : list Z) (reqs : nat -> gmap Z (gmap KeyParams Z)) (serverID : Z).
Context (Hdup : NoDup replicaIDs) (Hknown : forall j id m, reqs j !! id = Some m -> m <> ∅ -> id ∈ replicaIDs).

(** What the partitions want of replica [id]. *)
Definition wanted (id : Z) : list (gmap KeyParams Z) := (fun j => default ∅ (reqs j !! id)) <$> seq 0 parts.

(** What is gathered when the partitions [done] have answered. *)
Definition gathered (done : list nat) (perms : gmap Z (list (gmap KeyParams Z))) : Prop :=
  forall id, perms !! id =
    if bool_decide (id ∈ replicaIDs)
    then Some ((fun j => if bool_decide (j ∈ done) then default ∅ (reqs j !! id) else ∅) <$> seq 0 parts)
    else None.

Lemma addPermsReply_loop (kvs : list (Z * gmap KeyParams Z)) (j : nat) perms :
  (j < parts)%nat -> NoDup kvs.*1 ->
  (forall id m, (id, m) ∈ kvs -> m <> ∅ -> exists l, perms !! id = Some l /\ length l = parts) ->
  exists perms', addPermsReply perms kvs (Z.of_nat j) = Some perms' /\
    forall id, perms' !! id = match (list_to_map kvs : gmap Z (gmap KeyParams Z)) !! id with
      | Some m => if decide (m = ∅) then perms !! id else (fun l => <[j := m]> l) <$> perms !! id
      | None => perms !! id
      end.
Proof.
  intros Hj. assert (Ej : Z.to_nat (Z.of_nat j) = j) by lia. assert (Hz : 0 <= Z.of_nat j < Z.of_nat parts) by lia.
  unfold addPermsReply. revert perms Ej Hz. generalize (Z.of_nat j) as p. intros p perms Ej Hz. revert perms. induction kvs as [|[id m] kvs IH]; intros perms Hnd Hl; [by exists perms|].
  rewrite fmap_cons in Hnd. apply NoDup_cons in Hnd as [Hid Hnd]. cbn [Prelude.foldM fst] in *.
  assert (Hno : (list_to_map kvs : gmap Z (gmap KeyParams Z)) !! id = None) by by apply not_elem_of_list_to_map_1.
  destruct (decide (m = ∅)) as [->|Hm].
  - rewrite map_size_empty. cbn [Nat.eqb mbind option_bind]. destruct (IH perms Hnd) as (perms' & -> & Hp).
    { intros id' m' Hin. apply Hl. by right. }
    exists perms'. split; [done|]. intros id'. rewrite Hp. cbn. destruct (decide (id' = id)) as [->|Hne].
    + by rewrite Hno, lookup_insert_eq, decide_True.
    + by rewrite lookup_insert_ne by done.
  - destruct (Hl id m ltac:(by left) Hm) as (l & El & Hlen).
    destruct (Nat.eqb_spec (size m) 0) as [E0|_]; [by apply map_size_empty_inv in E0|].
    rewrite El. cbn [mbind option_bind]. rewrite Hlen.
    replace ((0 <=? p) && (p <? Z.of_nat parts)) with true
      by (symmetry; apply andb_true_iff; rewrite Z.leb_le, Z.ltb_lt; lia).
    cbn [mbind option_bind].
    destruct (IH (<[id := <[Z.to_nat p := m]> l]> perms) Hnd) as (perms' & -> & Hp).
    { intros id' m' Hin Hm'. destruct (Hl id' m' ltac:(by right) Hm') as (l' & El' & Hlen').
      destruct (decide (id' = id)) as [->|Hne]; [|by exists l'; rewrite lookup_insert_ne].
      exists (<[Z.to_nat p := m]> l). by rewrite lookup_insert_eq, length_insert. }
    rewrite Ej in Hp. exists perms'. split; [done|]. intros id'. rewrite Hp. cbn. destruct (decide (id' = id)) as [->|Hne].
    + by rewrite Hno, !lookup_insert_eq, El, decide_False.
    + by rewrite !lookup_insert_ne by done.
Qed.

Lemma gathered_step done j perms :
  (j < parts)%nat -> j ∉ done -> gathered done perms ->
  exists perms', addPermsReply perms (map_to_list (reqs j)) (Z.of_nat j) = Some perms' /\ gathered (j :: done) perms'.
Proof.
  intros Hj Hdone Hg. destruct (addPermsReply_loop (map_to_list (reqs j)) j perms Hj) as (perms' & E & Hp).
  - apply NoDup_fst_map_to_list.
  - intros id m Hin%elem_of_map_to_list Hm. rewrite Hg, bool_decide_true by by apply (Hknown j id m).
    eexists. split; [done|]. by rewrite length_fmap, length_seq.
  - exists perms'. split; [done|]. intros id. rewrite Hp, list_to_map_to_list, Hg.
    assert (Hfun : forall i, i <> j -> bool_decide (i ∈ j :: done) = bool_decide (i ∈ done))
      by (intros i Hi; apply bool_decide_ext; set_solver).
    case_bool_decide as Hk; [|destruct (reqs j !! id) as [m|] eqn:Em; [|done]; by case_decide].
    assert (Hlist : (fun i => if bool_decide (i ∈ j :: done) then default ∅ (reqs i !! id) else ∅) <$> seq 0 parts =
      <[j := default ∅ (reqs j !! id)]> ((fun i => if bool_decide (i ∈ done) then default ∅ (reqs i !! id) else ∅) <$> seq 0 parts)).
    { apply list_eq. intros i. destruct (decide (i = j)) as [->|Hne].
      - rewrite list_lookup_insert_eq by by rewrite length_fmap, length_seq.
        rewrite list_lookup_fmap, (proj2 (lookup_seq 0 parts j j)) by done. cbn. by rewrite bool_decide_true by left.
      - rewrite list_lookup_insert_ne by done. rewrite !list_lookup_fmap.
        destruct (seq 0 parts !! i) as [i'|] eqn:Ei; [|done]. apply lookup_seq in Ei as [-> _]. cbn. by rewrite Hfun. }
    rewrite Hlist. destruct (reqs j !! id) as [m|] eqn:Em; cbn; [case_decide as Hm|]; [|done|].
    all: f_equal; symmetry; apply list_insert_id; rewrite list_lookup_fmap, (proj2 (lookup_seq 0 parts j j)) by done; cbn;
      rewrite bool_decide_false by done; by subst.
Qed.

Lemma gathered_all (order done : list nat) perms :
  NoDup order -> (forall j, j ∈ order -> j < parts /\ j ∉ done)%nat -> gathered done perms ->
  exists perms', Prelude.foldM (fun perms '(reqsMap, partID) => addPermsReply perms (map_to_list reqsMap) partID) perms
      ((fun j => (reqs j, Z.of_nat j)) <$> order) = Some perms' /\
    gathered (rev order ++ done) perms'.
Proof.
  revert done perms. induction order as [|j order IH]; intros done perms Hnd Hj Hg; [by exists perms|].
  apply NoDup_cons in Hnd as [Hnin Hnd]. cbn [fmap list_fmap Prelude.foldM].
  destruct (Hj j ltac:(by left)) as [Hlt Hdone].
  destruct (gathered_step done j perms Hlt Hdone Hg) as (perms1 & -> & Hg1). cbn [mbind option_bind].
  destruct (IH (j :: done) perms1 Hnd) as (perms' & E & Hg'); [|exact Hg1|].
  - intros i Hi. destruct (Hj i ltac:(by right)) as [? ?]. split; [done|]. intros [->|?]%elem_of_cons; done.
  - exists perms'. split; [exact E|]. cbn [rev]. by rewrite <- app_assoc.
Qed.

Lemma empty_gathered : gathered [] (emptyPerms replicaIDs parts).
Proof.
  intros id. unfold emptyPerms.
  assert (Ek : ((fun id => (id, replicate parts (∅ : gmap KeyParams Z))) <$> replicaIDs).*1 = replicaIDs)
    by (rewrite <- list_fmap_compose; apply list_fmap_id).
  case_bool_decide as Hid; [|by apply not_elem_of_list_to_map_1; rewrite Ek].
  assert (Ee : (fun j => if bool_decide (j ∈ ([] : list nat)) then default ∅ (reqs j !! id) else (∅ : gmap KeyParams Z))
    <$> seq 0 parts = replicate parts ∅).
  { apply list_eq. intros i. rewrite list_lookup_fmap. destruct (decide (i < parts)%nat).
    - rewrite (proj2 (lookup_seq 0 parts i i)) by done. by rewrite lookup_replicate_2.
    - rewrite !lookup_ge_None_2 by (rewrite ?length_replicate, ?length_seq; lia). done. }
  rewrite Ee. apply elem_of_list_to_map_1; [by rewrite Ek|]. apply list_elem_of_fmap. by exists id.
Qed.

Lemma gathered_wanted (order : list nat) perms :
  order ≡ₚ seq 0 parts -> gathered (rev order ++ []) perms ->
  map_to_list perms ≡ₚ (fun id => (id, wanted id)) <$> replicaIDs.
Proof.
  intros Ho Hg.
  assert (Ek : ((fun id => (id, wanted id)) <$> replicaIDs).*1 = replicaIDs)
    by (rewrite <- list_fmap_compose; apply list_fmap_id).
  assert (E : perms = list_to_map ((fun id => (id, wanted id)) <$> replicaIDs)).
  { apply map_eq. intros id. rewrite Hg. case_bool_decide as Hid.
    - symmetry. transitivity (Some (wanted id)).
      { apply elem_of_list_to_map_1; [by rewrite Ek|]. apply list_elem_of_fmap. by exists id. }
      f_equal.
      unfold wanted. apply list_fmap_ext. intros i j Hj. rewrite bool_decide_true; [done|].
      rewrite app_nil_r, <- Permutation_rev, Ho. by eapply list_elem_of_lookup_2.
    - symmetry. apply not_elem_of_list_to_map_1. by rewrite Ek. }
  rewrite E. apply map_to_list_to_map. by rewrite Ek.
Qed.

(** The message to the server of a replica, and what that server asks its own
    partitions. *)
Definition askMessage (replicaIDToIndex : Z -> nat) (random : Z -> Z) (id : Z) : RemoteOut (Upd := Upd) (RArgs := RArgs) :=
  SendRequest (replicaIDToIndex id) false (mkWrapper (int32 (random id)) (CreateBCPermissionsReqProto (wanted id) serverID)).

Definition wantsSome (id : Z) : bool := existsb (fun m : gmap KeyParams Z => negb (size m =? 0)%nat) (wanted id).

Lemma permissions_read_back (perms : list (gmap KeyParams Z)) :
  ProtoBCPermissionsReqToTM (map_to_list <$> perms) = perms.
Proof.
  unfold ProtoBCPermissionsReqToTM. rewrite <- list_fmap_compose. rewrite <- (list_fmap_id perms) at 2.
  apply list_fmap_ext. intros i m _. cbn. apply map_eq. intros k.
  rewrite (map_loop_lookup (fun v _ => Some v)).
  - rewrite lookup_empty. by destruct (m !! k).
  - intros. case_decide; subst; by rewrite ?lookup_insert_eq, ?lookup_insert_ne.
Qed.

Lemma perms_loop (f : unit -> nat * gmap KeyParams Z -> M (ServerEnv (State := State)) ServerState (ServerOut (Upd := Upd) (RArgs := RArgs)) unit)
    (g : nat * gmap KeyParams Z -> ServerOut (Upd := Upd) (RArgs := RArgs)) l e s :
  (forall p, p ∈ l -> f tt p e s = Some (tt, s, [g p])) -> foldM f l tt e s = Some (tt, s, g <$> l).
Proof.
  induction l as [|p l IH]; intros Hf; [done|]. cbn [foldM]. unfold bind. rewrite Hf by by left.
  rewrite IH by (intros; apply Hf; by right). done.
Qed.

Lemma imap_wanted id : imap pair (wanted id) = (fun j => (j, default ∅ (reqs j !! id))) <$> seq 0 parts.
Proof.
  apply list_eq. intros i. unfold wanted. rewrite list_lookup_imap, !list_lookup_fmap.
  destruct (seq 0 parts !! i) as [j|] eqn:Ei; [|done]. apply lookup_seq in Ei as [-> _]. done.
Qed.

Lemma perms_served id (e : ServerEnv (State := State)) s :
  (parts <= nParts (config (session e)))%nat ->
  handleTMBCPerms (Upd := Upd) (RArgs := RArgs) (wanted id) serverID e s =
    Some (tt, s, (fun j => FromTM (ToPart (Z.of_nat j) (MatBCTxnPermissions (default ∅ (reqs j !! id)) serverID))) <$> seq 0 parts).
Proof.
  intros Hn. unfold handleTMBCPerms, bind at 1, ask.
  rewrite (perms_loop _ (fun p => FromTM (ToPart (Z.of_nat p.1) (MatBCTxnPermissions p.2 serverID)))).
  - by rewrite imap_wanted, <- list_fmap_compose.
  - intros [j m] Hin. rewrite imap_wanted in Hin. apply list_elem_of_fmap in Hin as (j' & [= -> ->] & Hj%elem_of_seq).
    by rewrite (proj2 (Nat.ltb_lt _ _)) by lia.
Qed.

(** C15. Rights are asked for: whatever the order in which the partitions answer, a
    round sends one message to the server of each replica that some partition
    wants rights of, and no other; and that server asks each of its partitions
    for exactly the rights that the partition of the same number wants. *)
Theorem rights_are_asked_of_the_partitions (order : list nat) (replicaIDToIndex : Z -> nat) (random : Z -> Z) :
  order ≡ₚ seq 0 parts ->
  (exists msgs, StartBCTimer_round replicaIDs parts ((fun j => (reqs j, Z.of_nat j)) <$> order)
      replicaIDToIndex random serverID = Some msgs /\
    msgs ≡ₚ askMessage replicaIDToIndex random <$> List.filter wantsSome replicaIDs) /\
  forall id conn (e : ServerEnv (State := State)) s, (parts <= nParts (config (session e)))%nat ->
    handleServerToServer (Upd := Upd) StateReadArguments conn
      (mkWrapper (int32 (random id)) (CreateBCPermissionsReqProto (wanted id) serverID)) e s =
    Some (None, s, (fun j => FromTM (ToPart (Z.of_nat j) (MatBCTxnPermissions (default ∅ (reqs j !! id)) serverID))) <$>
      seq 0 parts).
Proof.
  intros Ho. split.
  - destruct (gathered_all order [] (emptyPerms replicaIDs parts)) as (perms & E & Hg); [by rewrite Ho; apply NoDup_seq| |apply empty_gathered|].
    + intros j Hj. rewrite Ho in Hj. apply elem_of_seq in Hj. split; [lia|apply not_elem_of_nil].
    + unfold StartBCTimer_round. rewrite E. cbn [mbind option_bind]. eexists. split; [reflexivity|].
      rewrite (lfilter_perm _ _ _ _ (gathered_wanted order perms Ho Hg)). by rewrite <- list_fmap_compose.
  - intros id conn e s Hn. unfold handleServerToServer, bind at 1, ask, CreateBCPermissionsReqProto.
    cbn [Msg decodeRequest must handleServerRequest fst snd]. rewrite permissions_read_back.
    unfold bind, ret at 1. cbn [fst snd handleServerRequest]. unfold bind. rewrite perms_served by done.
    cbn. by rewrite !app_nil_r.
Qed.
End asking.

(** ** Witnesses *)

Module MaintExample.
#[local] Existing Instance TMExample.hash.
Definition top : vclock := {[1 := 1000; 2 := 1000]}.
Definition clk : vclock := {[1 := 40; 2 := 50]}.
Definition clk' : vclock := {[1 := 45; 2 := 50]}.
Definition evs : list IdEvent :=
  [Generate; Generate; Connect; Connect; Use 1 (Some clk'); Leave 0; Generate; Generate; Connect; Use 2 (Some clk)].
Definition after : IdState :=
  mkIds 3 [] [0%nat] [] (None :: Some clk' :: Some clk :: replicate 97 None) 3.

Lemma evs_run : idRun evs = Some (after, [2; 1]%nat).
Proof. vm_compute. reflexivity. Qed.

Definition key (k : string) : KeyParams := mkKey k 8 "b".
Definition reqs (j : nat) : gmap Z (gmap KeyParams Z) :=
  if (j =? 0)%nat then {[3 := {[key "x" := 5]}; 5 := ∅]} else {[3 := {[key "y" := 7]}]}.

Lemma clocks_comparable : chain top (clksAt (clksInUse after) (seq 0 (maxIDInUse after))).
Proof.
  change (clksAt _ _) with [clk'; clk]. assert (H1 : IsLowerOrEqual clk (Some clk') = true) by by vm_compute.
  assert (H2 : IsLower clk (Some top) = true) by by vm_compute.
  assert (H3 : IsLower clk' (Some top) = true) by by vm_compute.
  apply IsLowerOrEqual_vle in H1; [|by vm_compute]. apply IsLower_vle in H2 as [H2 ?]; [|by vm_compute].
  apply IsLower_vle in H3 as [H3 ?]; [|by vm_compute].
  assert (Hin : forall c, c ∈ [clk'; clk] -> c = clk' \/ c = clk) by (intros c; rewrite !elem_of_cons, elem_of_nil; tauto).
  split.
  - intros c [->| ->]%Hin; split_and!; (by vm_compute) || done.
  - intros c d [->| ->]%Hin [->| ->]%Hin; auto using vle_refl.
Qed.

Lemma known j id m : reqs j !! id = Some m -> m <> ∅ -> id ∈ [3; 4].
Proof.
  unfold reqs. destruct (j =? 0)%nat; intros H Hm;
    repeat (apply lookup_insert_Some in H as [[<- <-]|[_ H]]; [by left|]);
    apply lookup_singleton_Some in H as [<- <-]; [done|by left].
Qed.
End MaintExample.
#[local] Existing Instance TMExample.hash.

Lemma clients_have_their_own_identifier_witness :
  NoDup [2; 1]%nat /\ exists s2, lostConn 1 MaintExample.after = Some s2.
Proof.
  destruct (clients_have_their_own_identifier MaintExample.evs _ MaintExample.evs_run) as [Hnd H].
  split; [exact Hnd|]. destruct (H 1%nat None) as (s1 & s2 & _ & _ & Hs); [by right; left|]. by exists s2.
Defined.

Lemma clean_clock_is_below_the_clients_witness :
  exists c, findSafeClk MaintExample.top MaintExample.top MaintExample.after = Some c /\
    vle c MaintExample.clk /\ vle c MaintExample.clk'.
Proof.
  destruct (clean_clock_is_below_the_clients MaintExample.evs _ MaintExample.top MaintExample.top MaintExample.evs_run)
    as (c & Ec & Hc & _); [cbn; lia| |].
  - apply MaintExample.clocks_comparable.
  - exists c. split; [exact Ec|]. split; [apply (Hc 2%nat)|apply (Hc 1%nat)]; (reflexivity || (cbn; set_solver)).
Defined.

Lemma many_connections_panic_witness :
  exists s, idRun (visits 101) = Some (s, []) /\ cleanRoutine MaintExample.top MaintExample.clk s None = None.
Proof.
  destruct (many_connections_panic 101 MaintExample.top MaintExample.clk None) as (s & E & _ & Hs); [lia|].
  exists s. by split.
Defined.

Lemma counters_are_forgotten_witness :
  length (askedKeys (foldl addKey (initializeBCInfo [1; 2] 0)
    (replicate 10 (MaintExample.key "a") ++ [MaintExample.key "x"; MaintExample.key "y"]))) = 11%nat.
Proof. by rewrite counters_are_forgotten. Defined.

Lemma rights_are_asked_of_the_partitions_witness :
  exists msgs, StartBCTimer_round [3; 4] 2 [(MaintExample.reqs 1, 1); (MaintExample.reqs 0, 0)]
      (fun id => Z.to_nat (id - 3)) (fun id => id) 1 = Some msgs /\
    msgs ≡ₚ [askMessage (Upd := Z) (RArgs := Z) 2 MaintExample.reqs 1 (fun id => Z.to_nat (id - 3)) (fun id => id) 3].
Proof.
  exact (proj1 (rights_are_asked_of_the_partitions (State := Z) 0 2 [3; 4] MaintExample.reqs 1
    ltac:(by apply (bool_decide_unpack _); vm_compute) MaintExample.known [1; 0]%nat (fun id => Z.to_nat (id - 3)) (fun id => id)
    ltac:(constructor))).
Defined.
